(* ===== verification/_CoqProject ===== *)
-Q . S2P
Prelude.v
Token.v
Utf8.v
Lexer.v
LexerFacts.v
Lexemes.v
Ast.v
Cursor.v
LexerRange.v
ParserExpr.v
Parser.v
ParserWp.v
ParserFacts.v
AstPrinter.v
Spelling.v
Reading.v
TypeParse.v
Lookahead.v
ExprParse.v
PrintLex.v
PrintParse.v
BuildPlan.v
BuildPlanFacts.v
Toml.v
Manifest.v
Semver.v
Mvs.v
MvsCycle.v
MvsFacts.v
Lock.v
LockCheck.v
Sha256.v
Checksum.v
Store.v
Disk.v
Resolve.v
ResolveFacts.v
Commands.v
CommandProps.v
Value.v
ValueFacts.v
RefHeap.v
MemVerify.v
Ir.v
Ownership.v
OwnershipFacts.v
OwnershipSound.v
X64.v
X64Facts.v
RuntimeLoop.v
RuntimeLoopFacts.v
TaskSched.v
TaskLists.v
TaskInv.v
TaskWake.v
TaskRun.v
TaskSlots.v
TaskProps.v
RuntimeCore.v
IrInterp.v
Natives.v
ThreadCopy.v
NativesSys.v
IrTyping.v
IrSafe.v
NativesSafe.v
ThreadCopyFacts.v
NativesSysSafe.v
NativesFds.v
NativesData.v
IrSound.v
IrCow.v
IrUnwind.v
IrProps.v
IrKeep.v
Program.v
ProgramSound.v
ProgramRun.v
ProgramProps.v
NativesProps.v
