(* ===== verification/Prelude.v ===== *)
(** * Leviathan: a verification development

    Leviathan is a language toolchain in C++20: a compiler with a lexer,
    parser, checker, a bytecode IR with an ownership analysis, interpreters and
    code generators (under [src/src/]), and a package manager, trident (under
    [src/tools/trident/]).  The two programs meet in one text format, the build
    plan, which trident writes and the compiler reads.  This library models the
    parts named below and proves what makes them correct.

    ** How the program is modelled

    Strings are lists of 8-bit characters, machine integers are [Z] with their
    wrap-around written out ([wrap_u], [wrap_s], [atoi]), [std::map] is a list
    sorted by the source's order ([omap_find], [omap_set]), [std::set<int>] and
    [unordered_map] are finite sets and maps, errors are values of [res].  A
    loop that is not structurally recursive has a fuel argument, and a theorem
    that the fuel given is enough: the lexer's loops get the length of the
    input, the TOML reader the length of the text plus one, the alias loop of
    the escape analysis one turn per site a register can still gain, the parser
    as many nesting levels as the source has bytes and each of its loops the
    bytes that remain (a parser that runs out reports [Stuck], which is proved
    not to happen), the walks of the scheduler's lists one more than there are
    tasks, the cycle search a bound in the number of edges, version selection
    the source's own limit [kMaxSteps], the replay of a lock a bound in its
    edges, directory walks PATH_MAX levels (the kernel refuses longer paths), the
    walk over local dependencies one level per manifest on the disk.  The IR interpreter is a step function,
    so a program that does not end needs no fuel; only the recursion over class
    hierarchies and nested values has a bound, [depth], an argument of the
    machine, and what exceeds it is the fault [FDepth]: the code has no check
    there and recurses without end on a cycle.  The other faults are an index out
    of a vector, a dangling or null pointer, signed overflow of 64-bit arithmetic,
    and an allocation whose size the program chose and the address space does not
    have ([FMemory]).  Source offsets, which are 32-bit, are numbers no larger
    than the source ([lexer_offsets_bounded]); a source of 4 GiB or more, whose
    offsets would wrap, is outside the model.  Code outside the model is a
    parameter: the module provider (an interface the package manager declares),
    the file system the package manager works on (an interface, with laws where
    a theorem needs them: a file written and flushed reads back, an append
    extends it; a write whose bytes are lost when the stream is closed looks like
    a success, as it does to the code), the clock, [poll], the TLS layer, [malloc], libm, and the
    operating system, which is a handler of the calls the natives make over a
    state of its own; what is proved of the natives holds for every handler, or
    for every handler that keeps a documented law (a read answers at most the
    bytes asked for, [open] and [close] change the table of descriptors).  Loops
    of the natives that the outside world keeps going have a fuel, and running
    out is [FDepth]; the walk that copies values across threads gets the size of
    the heap plus two, which is proved enough.

    ** The files

    - Prelude: strings, [res], ordered maps, number printing and parsing,
      tactics and hint databases.
    - Token ([core/Token], [Source], [Diagnostic]), Utf8 (the codec of
      [runtime/RuntimeValue.hpp]), Lexer and LexerFacts ([frontend/Lexer]): the
      tokens, with the trivia between them, are the file; an error token or a
      diagnostic for whatever is malformed.  Lexemes: which texts lex to which
      token in front of which continuation.
    - Ast ([core/Ast.hpp]), Cursor, LexerRange, ParserExpr and Parser
      ([frontend/Parser.cpp]): the syntax tree and the whole recursive-descent
      parser, over a state monad whose state is the token cursor, the pending
      [>>] split and the diagnostics.  ParserWp and ParserFacts: a weakest
      precondition for that monad and the proof that parsing any file ends with
      a tree.
    - AstPrinter ([frontend/AstPrinter.cpp]): the printer behind [--expand].
      Spelling, Reading, TypeParse, Lookahead, ExprParse, PrintLex and
      PrintParse: for expressions and types whose operators, names and literals
      have a spelling, lexing and parsing the printed text gives the tree back;
      where the printer loses something, a lemma shows what.
    - BuildPlan and BuildPlanFacts ([trident/plan.cpp],
      [driver/BuildPlan.cpp]): the compiler reads the plan trident wrote.
    - Toml, Manifest ([trident/manifest.cpp]), Lock ([trident/lock.cpp]): the
      two project files, their round trips, the staleness check.
    - Semver, Mvs, MvsCycle, MvsFacts ([trident/semver.cpp],
      [mvs.cpp], [provider.hpp]): minimal version selection satisfies every
      reachable requirement, picks over a well-behaved provider the largest
      version any reachable requirement names, whatever the order of the roots,
      and ends; the cycle check is exact.
    - Sha256, Checksum, Store ([trident/hash.cpp], [checksum.cpp],
      [store.cpp], [source_set.cpp], [endpoint.cpp], [index.cpp]): the hasher
      is the function of FIPS 180-4, written a second time at the level of bits
      with its constants computed from the primes, and streams; the checksum log
      records once, verifies for ever and commits to its past; content hashes do not depend
      on the order of files; declared paths stay inside a package.
    - LockCheck ([resolve.cpp]'s [lockSatisfiesRootRequires]): the offline check
      of a lock accepts exactly the locks that are the selection for the current
      roots through the edges they cache.  Disk (the file system as an interface;
      [store.cpp], [source_set.cpp], [discover.cpp] over it), Resolve
      ([resolve.cpp]: gathering, local dependencies, VCS dependencies, the whole
      project) and Commands ([commands.cpp], [main.cpp], [fetch.cpp]).  ResolveFacts:
      a resolution is the lock's or a fresh selection, everything fetched is
      recorded, vendored builds ask nobody; the walk over local
      dependencies ends, no file is gathered twice, declared sources stay in the
      package; CommandProps: locking is reproducible, a yank blocks new
      selections, the compiler is handed the resolved project; all
      of it applied on a small disk.
    - Ir, Ownership, OwnershipFacts, OwnershipSound ([ir/Ir.hpp],
      [ir/Ownership.cpp]): the escape analysis against a summary-free
      specification of how values flow and leak through a module: it is sound for
      the objects that stay clear of the places it does not look at, which are
      listed, and each of which a program runs into ([ownership_blind_spots] of
      IrProps).
    - X64, X64Facts ([X64.hpp], [X64.cpp]): the assembler's bytes decode, with
      an independent decoder, to the instructions its methods name, with their
      operand sizes; patched
      jumps land on their targets; the ELF image maps code and data.
    - RuntimeLoop, RuntimeLoopFacts ([runtime/RuntimeLoop.cpp]): the event
      loop's registry and one turn of it, over 64-bit times.
    - TaskSched ([runtime/lv_task.c]): the scheduler of the stackful tasks
      behind [await], with the links of its intrusive lists, as a state machine
      over an engine that says what tasks do between two calls.  TaskLists (the
      links spell lists), TaskInv (the invariant), TaskWake (scan, drain,
      cancel), TaskRun (every step is a sequence of events of a list
      specification), TaskProps: the refinement, no runnable task starves, the
      loop ends only when every task has completed, no assertion of its own
      fails.  TaskSlots: what the scheduler leaves of a suspended computation.
    - Value, ValueFacts, RuntimeCore ([runtime/RuntimeValue.hpp],
      [runtime/RuntimeCore.cpp]): values over a heap, stringification, key
      equality, primitive arithmetic, defaults, method lookup, slots, and the
      capture of a termination.  RefHeap: the references a heap holds,
      [use_count], and the releases a dropped reference causes.
    - MemVerify ([ir/MemVerify]): the memory verifier; its sweep over the index
      of live cells does what a scan of every entry would.
    - IrInterp ([backend/IrInterp]): the register machine, with its call stack
      as data and every use of a C++ operation that can go wrong as a [Fault].
      IrTyping (which modules are well formed, the invariant, the promises of a
      platform), IrSafe and IrSound (every operation keeps the invariant; a
      task may be resumed in any state the others leave), IrCow (indexed
      stores), IrUnwind (exceptions), IrProps: a well-formed module never goes
      wrong, references never dangle, copy-on-write is not observable, an
      exception reaches its handler.
    - Natives ([nativeCall] of [runtime/RuntimeNatives.cpp]: the methods of
      strings, characters, blocks, arrays, maps and numbers), ThreadCopy (the
      copy of a value graph for another thread) and NativesSys ([nativeFreeCall]:
      files, sockets, processes, terminals, signals, time, randomness).
      NativesSafe and NativesSysSafe: the natives keep the interpreter's
      invariant, so they are an instance of its [Platform]; ThreadCopyFacts: the
      copy ends and is isomorphic to the original and isolated from it;
      NativesFds: no native leaks a descriptor, and the table of signal
      subscriptions accounts for what is open and blocked; NativesData: blocks
      are byte sequences, maps finite maps,
      texts read back; NativesProps: these properties, on a small system.
    - Program: a program under the scheduler, the interpreter as the engine of
      TaskSched.  IrKeep (a task's step leaves the others' values alone and
      enters the scheduler with no exception pending), ProgramSound and
      ProgramRun (the invariant of the tasks together), ProgramProps: no task
      goes wrong however tasks interleave, no park key dangles, the
      interpreter keeps its side of the scheduler's assertions.

    ** What is not modelled

    The tree dump of [--ast], the checker, lowering, the metaprogramming rules,
    the tree evaluator and the three code generators (they need a model of the
    checker's annotations or of the machine they target), the TLS sessions of a
    build with OpenSSL (the natives are those of a build without it), failure of
    allocation, the HTTP and git processes of the package manager with its proxy
    and its attestations (publish, attest and audit-record rest on them), the C
    runtime apart from its task scheduler, and the library
    written in the language itself.

    ** What would come next

    The ownership analysis against the violations the interpreter reports; the
    statement and declaration half of the print and parse round trip; publishing
    and attestations ([trident/provenance.cpp]); overload ranking in the checker; the
    native code generator over X64. *)

From stdpp Require Export base list gmap strings numbers sorting.
From Stdlib Require String.
From Stdlib Require Export Ascii ZArith Lia.
Export ListNotations.
Open Scope list_scope.

(** ** Characters and byte strings

    [std::string] and [std::string_view] are sequences of 8-bit [char]s; here a
    string is a [list ascii] and [code c] is the value of [(unsigned char)c]. *)

Declare Scope lev_scope.
Delimit Scope lev_scope with lev.
Open Scope lev_scope.

Abbreviation str := (list ascii).

Definition lit (s : string) : str := String.list_ascii_of_string s.
Arguments lit s%_string_scope.

Definition code (c : ascii) : Z := Z.of_N (N_of_ascii c).
Definition chr (z : Z) : ascii := ascii_of_N (Z.to_N z).

Definition eqc (a b : ascii) : bool := Ascii.eqb a b.
Definition eqs (a b : str) : bool := bool_decide (a = b).

Definition c_nul : ascii := "000".
Definition c_tab : ascii := "009".
Definition c_nl : ascii := "010".
Definition c_vt : ascii := "011".
Definition c_ff : ascii := "012".
Definition c_cr : ascii := "013".
Definition c_sp : ascii := "032".
Definition c_quote : ascii := "034".
Definition c_bslash : ascii := "092".

(** Inclusive range test [lo <= c && c <= hi] on character values. *)
Definition in_range (lo hi : ascii) (c : ascii) : bool :=
  (code lo <=? code c)%Z && (code c <=? code hi)%Z.

(** [<cctype>] in the "C" locale. *)
Definition isdigit (c : ascii) : bool := in_range "0" "9" c.
Definition isalpha (c : ascii) : bool := in_range "a" "z" c || in_range "A" "Z" c.
Definition isalnum (c : ascii) : bool := isalpha c || isdigit c.
Definition isspace (c : ascii) : bool :=
  eqc c c_sp || eqc c c_tab || eqc c c_nl || eqc c c_vt || eqc c c_ff || eqc c c_cr.

(** [s[i]] guarded by a length test, ['\0'] when out of range (the [peek]
    idiom of every reader in the source). *)
Definition char_at (s : str) (i : nat) : ascii :=
  match s !! i with Some c => c | None => c_nul end.

(** [s.substr(pos, n)] for [pos <= s.size()]. *)
Definition substr (s : str) (pos n : nat) : str := take n (drop pos s).
Arguments substr : simpl never.

(** [s.compare(pos, n, p) == 0] with [n = p.size()], [pos <= s.size()]. *)
Definition has_at (s : str) (pos : nat) (p : str) : bool :=
  eqs (substr s pos (length p)) p.

(** [s.find(c)], [s.find_last_of(c)]: [None] is [npos]. *)
Fixpoint find_char (c : ascii) (s : str) : option nat :=
  match s with
  | [] => None
  | x :: s' => if eqc x c then Some 0 else S <$> find_char c s'
  end.

Fixpoint find_last_of (c : ascii) (s : str) : option nat :=
  match s with
  | [] => None
  | x :: s' => match find_last_of c s' with
               | Some i => Some (S i)
               | None => if eqc x c then Some 0 else None
               end
  end.

(** [operator<] of [std::string]: lexicographic on unsigned bytes. *)
Fixpoint str_ltb (a b : str) : bool :=
  match a, b with
  | _, [] => false
  | [], _ :: _ => true
  | x :: a', y :: b' =>
      if (code x <? code y)%Z then true
      else if (code y <? code x)%Z then false
      else str_ltb a' b'
  end.

(** The loop [while (cond(i)) ++i;] with an explicit bound on the iterations. *)
Fixpoint advance_while (fuel : nat) (cond : nat -> bool) (i : nat) : nat :=
  match fuel with
  | 0 => i
  | S f => if cond i then advance_while f cond (S i) else i
  end.

(** ** Machine integers *)

Definition wrap_u (w : Z) (z : Z) : Z := (z mod 2 ^ w)%Z.
Definition wrap_s (w : Z) (z : Z) : Z :=
  let u := (z mod 2 ^ w)%Z in if (u <? 2 ^ (w - 1))%Z then u else (u - 2 ^ w)%Z.

Definition in_s (w : Z) (z : Z) : Prop := (- 2 ^ (w - 1) <= z < 2 ^ (w - 1))%Z.
Definition in_u (w : Z) (z : Z) : Prop := (0 <= z < 2 ^ w)%Z.

Definition clamp (lo hi z : Z) : Z := Z.max lo (Z.min hi z).

(** [std::to_string] on a signed integer. *)
Definition digit_char (d : Z) : ascii := chr (48 + d).

Fixpoint dec_digits (fuel : nat) (n : Z) (acc : str) : str :=
  match fuel with
  | 0 => acc
  | S f => let acc' := digit_char (n mod 10) :: acc in
           if (n / 10 =? 0)%Z then acc' else dec_digits f (n / 10) acc'
  end.

Definition dec_fuel (n : Z) : nat := S (Z.to_nat (Z.log2 n)).

Definition dec_nat (n : Z) : str := dec_digits (dec_fuel n) n [].

Definition to_string (z : Z) : str :=
  if (z <? 0)%Z then "-"%char :: dec_nat (- z) else dec_nat z.

(** [strtol(s, nullptr, 10)] as a mathematical integer: leading white space,
    an optional sign, then the longest run of digits ([0] without one). *)
Definition digit_val (c : ascii) : Z := (code c - 48)%Z.

Fixpoint digits_prefix (s : str) : str :=
  match s with
  | c :: s' => if isdigit c then c :: digits_prefix s' else []
  | [] => []
  end.

Definition digits_value (ds : str) : Z :=
  fold_left (fun acc c => (acc * 10 + digit_val c)%Z) ds 0%Z.

Fixpoint skip_spaces (s : str) : str :=
  match s with
  | c :: s' => if isspace c then skip_spaces s' else s
  | [] => []
  end.

Definition strtol10 (s : str) : Z :=
  match skip_spaces s with
  | [] => 0
  | c :: s' =>
      if eqc c "-" then (- digits_value (digits_prefix s'))%Z
      else if eqc c "+" then digits_value (digits_prefix s')
      else digits_value (digits_prefix (c :: s'))
  end.

(** glibc: [atoi] is [(int)strtol(s, nullptr, 10)] and [strtol] clamps to
    [long]; [atoll] is [strtoll], which clamps. *)
Definition atoll (s : str) : Z := clamp (- 2 ^ 63) (2 ^ 63 - 1) (strtol10 s).
Definition atoi (s : str) : Z := wrap_s 32 (atoll s).

(** ** Results with an error message *)

Inductive res (A : Type) : Type :=
| Ok (a : A)
| Err (e : str).
Arguments Ok {A} a.
Arguments Err {A} e.

Definition res_bind {A B} (r : res A) (f : A -> res B) : res B :=
  match r with Ok a => f a | Err e => Err e end.

Notation "'let?' x ':=' r 'in' k" := (res_bind r (fun x => k))
  (at level 10, x pattern, r at level 100, k at level 200) : lev_scope.

Definition is_ok {A} (r : res A) : bool := match r with Ok _ => true | Err _ => false end.

(** ** Ordered maps

    [std::map<K, V>] iterates in key order; it is modelled as an association
    list kept sorted by a boolean strict order on the keys. *)

Class StrictOrder (K : Type) (ltb : K -> K -> bool) : Prop := {
  lt_irrefl : forall a, ltb a a = false;
  lt_trans : forall a b c, ltb a b = true -> ltb b c = true -> ltb a c = true;
  lt_total : forall a b, ltb a b = false -> ltb b a = false -> a = b
}.
Arguments lt_irrefl {K} ltb {_} a.
Arguments lt_trans {K} ltb {_} a b c _ _.
Arguments lt_total {K} ltb {_} a b _ _.

Section OrderedMap.
Context {K V : Type} (ltb : K -> K -> bool).

Definition keq (a b : K) : bool := negb (ltb a b) && negb (ltb b a).

Fixpoint omap_find (k : K) (m : list (K * V)) : option V :=
  match m with
  | [] => None
  | (k', v) :: m' => if keq k k' then Some v else omap_find k m'
  end.

(** Insert or overwrite, keeping the order ([m[k] = v]). *)
Fixpoint omap_set (k : K) (v : V) (m : list (K * V)) : list (K * V) :=
  match m with
  | [] => [(k, v)]
  | (k', v') :: m' =>
      if ltb k k' then (k, v) :: m
      else if ltb k' k then (k', v') :: omap_set k v m'
      else (k, v) :: m'
  end.

(** [m.emplace(k, v)]: no effect when the key is present. *)
Definition omap_emplace (k : K) (v : V) (m : list (K * V)) : list (K * V) :=
  match omap_find k m with Some _ => m | None => omap_set k v m end.

Definition omap_sorted (m : list (K * V)) : Prop :=
  StronglySorted (fun a b => ltb a.1 b.1 = true) m.

End OrderedMap.

(** ** Tactics *)

(** Decide a statement about one character by running it on all 256. *)
Ltac each_char c := destruct c as [[] [] [] [] [] [] [] []].

(** [lia] with division and modulo by constants. *)
Ltac dlia := Z.to_euclidean_division_equations; lia.

(** Case split on the scrutinee of a [match] or [if]. *)
Ltac split_match :=
  match goal with
  | H : context [match ?x with _ => _ end] |- _ => destruct x eqn:?
  | |- context [match ?x with _ => _ end] => destruct x eqn:?
  end.

(** Turn boolean comparisons in the context into propositions. *)
Ltac bool_hyps :=
  repeat match goal with
  | H : (_ && _)%bool = true |- _ => apply andb_prop in H; destruct H
  | H : (_ || _)%bool = false |- _ => apply orb_false_elim in H; destruct H
  | H : negb _ = true |- _ => apply negb_true_iff in H
  | H : negb _ = false |- _ => apply negb_false_iff in H
  | H : (_ <=? _)%Z = true |- _ => apply Z.leb_le in H
  | H : (_ <=? _)%Z = false |- _ => apply Z.leb_gt in H
  | H : (_ <? _)%Z = true |- _ => apply Z.ltb_lt in H
  | H : (_ <? _)%Z = false |- _ => apply Z.ltb_ge in H
  | H : (_ =? _)%Z = true |- _ => apply Z.eqb_eq in H
  | H : (_ =? _)%Z = false |- _ => apply Z.eqb_neq in H
  | H : (_ <=? _)%nat = true |- _ => apply Nat.leb_le in H
  | H : (_ <=? _)%nat = false |- _ => apply Nat.leb_gt in H
  | H : (_ <? _)%nat = true |- _ => apply Nat.ltb_lt in H
  | H : (_ <? _)%nat = false |- _ => apply Nat.ltb_ge in H
  | H : (_ =? _)%nat = true |- _ => apply Nat.eqb_eq in H
  | H : (_ =? _)%nat = false |- _ => apply Nat.eqb_neq in H
  end.

(** ** Lemmas on characters *)

Lemma eqc_eq a b : eqc a b = true <-> a = b.
Proof. apply Ascii.eqb_eq. Qed.

Lemma eqc_neq a b : eqc a b = false <-> a <> b.
Proof. apply Ascii.eqb_neq. Qed.

Lemma eqc_refl a : eqc a a = true.
Proof. by apply eqc_eq. Qed.

Lemma eqs_eq a b : eqs a b = true <-> a = b.
Proof. unfold eqs. apply bool_decide_eq_true. Qed.

Lemma eqs_neq a b : eqs a b = false <-> a <> b.
Proof. unfold eqs. apply bool_decide_eq_false. Qed.

Lemma eqs_refl a : eqs a a = true.
Proof. by apply eqs_eq. Qed.

Lemma code_range c : (0 <= code c < 256)%Z.
Proof. unfold code. pose proof (N_ascii_bounded c). lia. Qed.

Lemma chr_code c : chr (code c) = c.
Proof. unfold chr, code. rewrite N2Z.id. apply ascii_N_embedding. Qed.

Lemma code_chr z : (0 <= z < 256)%Z -> code (chr z) = z.
Proof. intros H. unfold chr, code. rewrite N_ascii_embedding; lia. Qed.

Lemma code_inj a b : code a = code b -> a = b.
Proof. intros H. by rewrite <- (chr_code a), <- (chr_code b), H. Qed.

Lemma char_at_app_l s t i : i < length s -> char_at (s ++ t) i = char_at s i.
Proof. intros H. unfold char_at. by rewrite lookup_app_l. Qed.

Lemma char_at_app_r s t i : char_at (s ++ t) (length s + i) = char_at t i.
Proof. unfold char_at. rewrite lookup_app_r by lia. by replace (length s + i - length s) with i by lia. Qed.

Lemma char_at_ge s i : length s <= i -> char_at s i = c_nul.
Proof. intros H. unfold char_at. by rewrite lookup_ge_None_2. Qed.

(** ** The counting loop *)

(** With enough iterations [advance_while] stops at the first position at or
    after [i] where the condition fails. *)
Lemma advance_while_spec cond bound fuel i :
  (forall j, cond j = true -> j < bound) ->
  bound - i <= fuel ->
  let r := advance_while fuel cond i in
  i <= r /\ cond r = false /\ (forall j, i <= j < r -> cond j = true) /\ r <= Nat.max i bound.
Proof.
  intros Hb. revert i. induction fuel as [|f IH]; intros i Hf; simpl.
  - repeat split; [lia| |lia|lia].
    destruct (cond i) eqn:E; [apply Hb in E; lia|done].
  - destruct (cond i) eqn:E.
    + pose proof (Hb _ E). destruct (IH (S i) ltac:(lia)) as (H1 & H2 & H3 & H4).
      repeat split; [lia|done| |lia].
      intros j Hj. destruct (decide (j = i)) as [->|]; [done|apply H3; lia].
    + repeat split; [lia|done|lia|lia].
Qed.

(** The stopping position is determined by the condition. *)
Lemma advance_while_at cond bound fuel i r :
  (forall j, cond j = true -> j < bound) ->
  bound - i <= fuel ->
  i <= r -> cond r = false -> (forall j, i <= j < r -> cond j = true) ->
  advance_while fuel cond i = r.
Proof.
  intros Hb Hf Hi Hr Hj.
  destruct (advance_while_spec cond bound fuel i Hb Hf) as (H1 & H2 & H3 & _).
  set (q := advance_while fuel cond i) in *.
  destruct (lt_eq_lt_dec q r) as [[?| ->]|?]; [|done|].
  - by rewrite Hj in H2 by lia.
  - by rewrite H3 in Hr by lia.
Qed.

Lemma list_sum_cons x l : list_sum (x :: l) = x + list_sum l.
Proof. done. Qed.

(** ** Machine integers *)

Lemma wrap_s_id w z : (0 < w)%Z -> in_s w z -> wrap_s w z = z.
Proof.
  intros Hw [H1 H2]. unfold wrap_s.
  assert (2 ^ w = 2 * 2 ^ (w - 1))%Z as Hp
    by (rewrite <- Z.pow_succ_r by lia; f_equal; lia).
  destruct (Z.leb_spec 0 z).
  - rewrite Z.mod_small by lia. by destruct (Z.ltb_spec z (2 ^ (w - 1))); [|lia].
  - rewrite <- (Z.mod_unique z (2 ^ w) (-1) (z + 2 ^ w)) by lia.
    destruct (Z.ltb_spec (z + 2 ^ w) (2 ^ (w - 1))); lia.
Qed.

Lemma wrap_s_range w z : (0 < w)%Z -> in_s w (wrap_s w z).
Proof.
  intros Hw. unfold wrap_s, in_s.
  assert (2 ^ w = 2 * 2 ^ (w - 1))%Z as Hp
    by (rewrite <- Z.pow_succ_r by lia; f_equal; lia).
  pose proof (Z.mod_pos_bound z (2 ^ w) ltac:(lia)).
  destruct (Z.ltb_spec (z mod 2 ^ w) (2 ^ (w - 1))); lia.
Qed.

(** ** Bit operations as arithmetic *)

Lemma lor_shiftl_add a k x :
  (0 <= k)%Z -> (0 <= x < 2 ^ k)%Z -> Z.lor (Z.shiftl a k) x = (a * 2 ^ k + x)%Z.
Proof.
  intros Hk Hx. rewrite <- Z.shiftl_mul_pow2 by done.
  assert (Z.land (Z.shiftl a k) x = 0)%Z as H0.
  { apply Z.bits_inj'. intros n Hn. rewrite Z.land_spec, Z.bits_0, Z.shiftl_spec by done.
    destruct (Z.ltb_spec n k).
    - by rewrite Z.testbit_neg_r by lia.
    - replace (Z.testbit x n) with false; [apply andb_false_r|].
      symmetry. rewrite Z.testbit_false by done. rewrite Z.div_small; [done|].
      split; [lia|]. apply Z.lt_le_trans with (2 ^ k)%Z; [lia|]. apply Z.pow_le_mono_r; lia. }
  by rewrite Z.add_nocarry_lxor, Z.lxor_lor.
Qed.

Lemma lor_add_low p k x :
  (0 <= k)%Z -> (p mod 2 ^ k = 0)%Z -> (0 <= x < 2 ^ k)%Z -> Z.lor p x = (p + x)%Z.
Proof.
  intros Hk Hp Hx. pose proof (Z.div_mod p (2 ^ k) ltac:(lia)) as Hd.
  replace p with (Z.shiftl (p / 2 ^ k) k) at 1 by (rewrite Z.shiftl_mul_pow2 by done; lia).
  rewrite lor_shiftl_add by done. lia.
Qed.

Lemma land_ones_mod x k : (0 <= k)%Z -> Z.land x (2 ^ k - 1) = (x mod 2 ^ k)%Z.
Proof. intros Hk. rewrite <- Z.land_ones by done. by rewrite Z.ones_equiv. Qed.

Lemma shiftr_div x k : (0 <= k)%Z -> Z.shiftr x k = (x / 2 ^ k)%Z.
Proof. apply Z.shiftr_div_pow2. Qed.

(** ** Decimal printing and reading *)

Lemma digit_char_digit d : (0 <= d < 10)%Z ->
  isdigit (digit_char d) = true /\ digit_val (digit_char d) = d.
Proof.
  intros H. unfold isdigit, in_range, digit_val, digit_char.
  rewrite code_chr by lia. change (code "0") with 48%Z. change (code "9") with 57%Z.
  split; [apply andb_true_intro; split; apply Z.leb_le; lia|lia].
Qed.

Lemma digits_value_from (ds : str) a :
  fold_left (fun acc c => (acc * 10 + digit_val c)%Z) ds a
  = (a * 10 ^ Z.of_nat (length ds) + digits_value ds)%Z.
Proof.
  unfold digits_value. revert a. induction ds as [|c ds IH]; intros a; simpl length.
  - simpl. lia.
  - cbn [fold_left]. rewrite IH, (IH (0 * 10 + digit_val c)%Z), Nat2Z.inj_succ, Z.pow_succ_r by lia.
    ring.
Qed.

Lemma digits_value_cons c ds :
  digits_value (c :: ds) = (digit_val c * 10 ^ Z.of_nat (length ds) + digits_value ds)%Z.
Proof. unfold digits_value at 1. simpl. rewrite digits_value_from. ring. Qed.

Lemma digits_value_app ds es :
  digits_value (ds ++ es) = (digits_value ds * 10 ^ Z.of_nat (length es) + digits_value es)%Z.
Proof. unfold digits_value at 1. rewrite fold_left_app. apply digits_value_from. Qed.

Lemma dec_digits_spec fuel n acc :
  (0 <= n < 2 ^ Z.of_nat fuel)%Z ->
  exists ds, dec_digits fuel n acc = ds ++ acc
    /\ Forall (fun c => isdigit c = true) ds /\ digits_value ds = n /\ (0 < fuel -> ds <> []).
Proof.
  revert n acc. induction fuel as [|f IH]; intros n acc Hn; cbn [dec_digits].
  - exists []. rewrite Z.pow_0_r in Hn. repeat split; auto; cbn; lia.
  - rewrite Nat2Z.inj_succ, Z.pow_succ_r in Hn by lia.
    pose proof (Z.mod_pos_bound n 10 ltac:(lia)) as Hm.
    pose proof (Z.div_mod n 10 ltac:(lia)) as Hdm.
    destruct (digit_char_digit _ Hm) as [Hd Hv].
    destruct (Z.eqb_spec (n / 10) 0) as [E|E].
    + exists [digit_char (n mod 10)]. repeat split; auto. rewrite digits_value_cons, Hv. cbn. lia.
    + destruct (IH (n / 10)%Z (digit_char (n mod 10) :: acc)) as (ds & Hds & Hall & Hval & _).
      { split; [apply Z.div_pos; lia|]. apply Z.div_lt_upper_bound; lia. }
      exists (ds ++ [digit_char (n mod 10)]). rewrite Hds. repeat split.
      * by rewrite <- app_assoc.
      * apply Forall_app; auto.
      * rewrite digits_value_app, Hval, digits_value_cons, Hv. cbn. lia.
      * intros _. by destruct ds.
Qed.

Lemma dec_nat_spec n : (0 <= n)%Z ->
  Forall (fun c => isdigit c = true) (dec_nat n) /\ digits_value (dec_nat n) = n /\ dec_nat n <> [].
Proof.
  intros Hn. unfold dec_nat.
  destruct (dec_digits_spec (dec_fuel n) n []) as (ds & -> & ? & ? & ?).
  { unfold dec_fuel. rewrite Nat2Z.inj_succ, Z2Nat.id by apply Z.log2_nonneg.
    split; [lia|]. destruct (Z.eq_dec n 0) as [->|]; [done|]. apply Z.log2_spec. lia. }
  rewrite app_nil_r. repeat split; auto. unfold dec_fuel in *. intros ->. by apply H1; [lia|].
Qed.

Lemma digits_prefix_all ds rest :
  Forall (fun c => isdigit c = true) ds ->
  (forall c rest', rest = c :: rest' -> isdigit c = false) ->
  digits_prefix (ds ++ rest) = ds.
Proof.
  intros Hds Hrest. induction Hds as [|c ds Hc _ IH]; simpl.
  - destruct rest as [|c r]; [done|]. simpl. by rewrite (Hrest c r).
  - by rewrite Hc, IH.
Qed.

Lemma isdigit_plain c : isdigit c = true -> isspace c = false /\ eqc c "-" = false /\ eqc c "+" = false.
Proof. each_char c; vm_compute; intros; repeat split; congruence. Qed.

Lemma strtol10_digits ds : Forall (fun c => isdigit c = true) ds -> strtol10 ds = digits_value ds.
Proof.
  intros H. unfold strtol10. destruct H as [|c ds Hc Hds]; [done|].
  destruct (isdigit_plain c Hc) as (Hs & Hm & Hp). simpl. rewrite Hs, Hm, Hp.
  rewrite Hc. do 2 f_equal. rewrite <- (app_nil_r ds) at 1. by apply digits_prefix_all.
Qed.

Lemma strtol10_to_string z : strtol10 (to_string z) = z.
Proof.
  unfold to_string. destruct (Z.ltb_spec z 0).
  - destruct (dec_nat_spec (- z)) as (Ha & Hv & _); [lia|].
    change (- digits_value (digits_prefix (dec_nat (- z))) = z)%Z.
    rewrite <- (app_nil_r (dec_nat (- z))), digits_prefix_all, Hv by done. lia.
  - destruct (dec_nat_spec z) as (Ha & Hv & _); [lia|]. by rewrite strtol10_digits.
Qed.

Lemma atoi_to_string z : in_s 32 z -> atoi (to_string z) = z.
Proof.
  intros [H1 H2]. unfold atoi, atoll, clamp. rewrite strtol10_to_string.
  cbn in H1, H2. rewrite Z.min_r, Z.max_r by lia. apply wrap_s_id; [lia|]. split; cbn; lia.
Qed.

(** ** Order on strings *)

#[export] Instance str_order : StrictOrder str str_ltb.
Proof.
  split.
  - induction a as [|x a IH]; simpl; [done|]. by rewrite Z.ltb_irrefl.
  - induction a as [|x a IH]; intros [|y b] [|z c] H1 H2; simpl in *; try done.
    destruct (Z.ltb_spec (code x) (code y)), (Z.ltb_spec (code y) (code z));
      destruct (Z.ltb_spec (code x) (code z)); try done; try lia.
    + destruct (Z.ltb_spec (code z) (code y)); [done|]. lia.
    + destruct (Z.ltb_spec (code y) (code x)); [done|]. lia.
    + destruct (Z.ltb_spec (code y) (code x)), (Z.ltb_spec (code z) (code y)); try done.
      destruct (Z.ltb_spec (code z) (code x)); [lia|]. eauto.
  - induction a as [|x a IH]; intros [|y b] H1 H2; simpl in *; try done.
    destruct (Z.ltb_spec (code x) (code y)), (Z.ltb_spec (code y) (code x)); try done; try lia.
    rewrite (code_inj x y) by lia. f_equal. auto.
Qed.

(** ** Ordered maps *)

Section OrderedMapFacts.
Context {K V : Type} (ltb : K -> K -> bool) `{!StrictOrder K ltb}.
Implicit Types (m : list (K * V)).

Lemma keq_eq a b : keq ltb a b = true <-> a = b.
Proof.
  unfold keq. split.
  - intros H. bool_hyps. by apply (lt_total ltb).
  - intros ->. by rewrite (lt_irrefl ltb).
Qed.

Lemma keq_neq a b : keq ltb a b = false <-> a <> b.
Proof. rewrite <- keq_eq. by destruct (keq ltb a b). Qed.

Lemma lt_neq a b : ltb a b = true -> a <> b.
Proof. intros H ->. by rewrite (lt_irrefl ltb) in H. Qed.

Lemma omap_find_set_eq k v m : omap_find ltb k (omap_set ltb k v m) = Some v.
Proof.
  assert (keq ltb k k = true) as Hk by by apply keq_eq.
  induction m as [|[k' v'] m IH]; simpl; [by rewrite Hk|].
  destruct (ltb k k') eqn:E1; simpl; [by rewrite Hk|].
  destruct (ltb k' k) eqn:E2; simpl; [|by rewrite Hk].
  destruct (keq ltb k k') eqn:E; [|done]. apply keq_eq in E as ->. by rewrite (lt_irrefl ltb) in E2.
Qed.

Lemma omap_find_set_ne k k' v m : k <> k' -> omap_find ltb k' (omap_set ltb k v m) = omap_find ltb k' m.
Proof.
  intros Hne. apply not_eq_sym, keq_neq in Hne as Hk.
  induction m as [|[q w] m IH]; simpl; [by rewrite Hk|].
  destruct (ltb k q) eqn:E1; simpl; [by rewrite Hk|].
  destruct (ltb q k) eqn:E2; simpl; [by rewrite IH|].
  rewrite Hk. assert (q = k) as -> by by apply (lt_total ltb). by rewrite Hk.
Qed.

Lemma omap_find_set k k' v m :
  omap_find ltb k' (omap_set ltb k v m) = if keq ltb k k' then Some v else omap_find ltb k' m.
Proof.
  destruct (keq ltb k k') eqn:E.
  - apply keq_eq in E as ->. apply omap_find_set_eq.
  - apply keq_neq in E. by apply omap_find_set_ne.
Qed.

Lemma omap_find_emplace_old k v m w k' :
  omap_find ltb k m = Some w -> omap_find ltb k' (omap_emplace ltb k v m) = omap_find ltb k' m.
Proof. unfold omap_emplace. by intros ->. Qed.

Lemma omap_set_Forall (P : K * V -> Prop) k v m :
  Forall P m -> P (k, v) -> Forall P (omap_set ltb k v m).
Proof.
  intros Hm Hp. induction Hm as [|[k' v'] m Hx Hm IH]; simpl; [auto|].
  destruct (ltb k k'); [auto|]. destruct (ltb k' k); auto.
Qed.

Lemma omap_set_sorted k v m : omap_sorted ltb m -> omap_sorted ltb (omap_set ltb k v m).
Proof.
  unfold omap_sorted. induction 1 as [|[k' v'] m Hm IH Hx]; simpl; [repeat constructor|].
  destruct (ltb k k') eqn:E1.
  { constructor; [by constructor|]. constructor; [done|].
    eapply Forall_impl; [exact Hx|]. intros [q w]; simpl. intros; by eapply (lt_trans ltb). }
  destruct (ltb k' k) eqn:E2.
  - constructor; [done|]. by apply omap_set_Forall.
  - assert (k = k') as -> by by apply (lt_total ltb). by constructor.
Qed.

Lemma omap_emplace_sorted k v m : omap_sorted ltb m -> omap_sorted ltb (omap_emplace ltb k v m).
Proof. unfold omap_emplace. destruct (omap_find ltb k m); [done|apply omap_set_sorted]. Qed.

Lemma omap_find_In k v m : omap_find ltb k m = Some v -> In (k, v) m.
Proof.
  induction m as [|[k' v'] m IH]; simpl; [done|].
  destruct (keq ltb k k') eqn:E; [|auto]. apply keq_eq in E as ->. intros [= ->]. auto.
Qed.

Lemma omap_In_find k v m : omap_sorted ltb m -> In (k, v) m -> omap_find ltb k m = Some v.
Proof.
  induction 1 as [|[k' v'] m Hm IH Hx]; simpl; [done|]. intros [[= -> ->]|Hin].
  - by rewrite (proj2 (keq_eq k k)).
  - destruct (keq ltb k k') eqn:E; [|auto]. apply keq_eq in E as ->.
    rewrite List.Forall_forall in Hx. apply Hx in Hin. simpl in Hin. by rewrite (lt_irrefl ltb) in Hin.
Qed.

(** Two sorted maps with the same lookups are the same list: iteration order
    is determined by the contents. *)
Lemma omap_ext m1 m2 : omap_sorted ltb m1 -> omap_sorted ltb m2 ->
  (forall k, omap_find ltb k m1 = omap_find ltb k m2) -> m1 = m2.
Proof.
  intros H1 H2 Heq.
  assert (forall m, omap_sorted ltb m -> StronglySorted (fun a b : K * V => ltb a.1 b.1 = true) m) as Hs by done.
  assert (forall x, In x m1 <-> In x m2) as Hin.
  { intros [k v]. split; intros Hi; apply omap_find_In.
    - rewrite <- Heq. by apply omap_In_find.
    - rewrite Heq. by apply omap_In_find. }
  clear Heq. revert m2 H2 Hin. induction H1 as [|x m1 Hm1 IH Hx]; intros m2 H2 Hin.
  - destruct m2 as [|y m2]; [done|]. exfalso. apply (Hin y). by left.
  - destruct H2 as [|y m2 Hm2 Hy]; [exfalso; apply (Hin x); by left|].
    rewrite List.Forall_forall in Hx, Hy.
    assert (x = y) as ->.
    { destruct (proj1 (Hin x) ltac:(by left)) as [?|Hxy]; [done|].
      destruct (proj2 (Hin y) ltac:(by left)) as [?|Hyx]; [done|].
      apply Hy in Hxy. apply Hx in Hyx.
      pose proof (lt_trans ltb _ _ _ Hxy Hyx) as Hc. by rewrite (lt_irrefl ltb) in Hc. }
    f_equal. apply IH; [done|]. intros z. specialize (Hin z) as [Ha Hb]. split; intros Hz.
    + destruct (Ha ltac:(by right)) as [->|?]; [|done]. apply Hx in Hz. by rewrite (lt_irrefl ltb) in Hz.
    + destruct (Hb ltac:(by right)) as [->|?]; [|done]. apply Hy in Hz. by rewrite (lt_irrefl ltb) in Hz.
Qed.

End OrderedMapFacts.

(** ** Automation *)

Create HintDb lev.
Create Rewrite HintDb lev.
#[export] Hint Resolve eqc_refl eqs_refl omap_set_sorted omap_emplace_sorted : lev.
#[export] Hint Rewrite eqc_refl eqs_refl : lev.
