(* ===== verification/Token.v ===== *)
(** * Tokens

    Models [src/core/Token.hpp], [src/core/Token.cpp], [src/core/Source.hpp] and
    [src/core/Diagnostic.*]: token kinds and their names, the keyword table,
    literal conversion, escape decoding, and the diagnostic sink. *)

From S2P Require Import Prelude.

(** ** Token kinds *)

Inductive TokenKind : Type :=
| TkEnd | TkError | TkIdentifier | TkIntLiteral | TkFloatLiteral | TkStringLiteral
| TkRawStringLiteral | TkQuasiLiteral | TkKwNamespace | TkKwClass | TkKwStruct | TkKwInterface
| TkKwPublic | TkKwPrivate | TkKwNew | TkKwMutating | TkKwDistinct | TkKwConst | TkKwReadonly
| TkKwWeak | TkKwGet | TkKwSet | TkKwReturn | TkKwVar | TkKwLet | TkKwAwait | TkKwBind
| TkKwInject | TkKwUse | TkKwUses | TkKwIf | TkKwElse | TkKwTry | TkKwCatch | TkKwThrow
| TkKwWhile | TkKwFor | TkKwIn | TkKwIs | TkKwMatch | TkKwThis | TkKwTrue | TkKwFalse
| TkKwBreak | TkKwContinue | TkKwDo | TkKwUsing | TkKwEnum | TkColonColon | TkColon
| TkSemicolon | TkComma | TkDot | TkDotDot | TkLParen | TkRParen | TkLBrace | TkRBrace
| TkLBracket | TkRBracket | TkArrow | TkEq | TkEqEq | TkBangEq | TkBang | TkLt | TkGt | TkLe
| TkGe | TkPlus | TkMinus | TkStar | TkSlash | TkPercent | TkPlusEq | TkMinusEq | TkStarEq
| TkSlashEq | TkPercentEq | TkLtLt | TkGtGt | TkAmpAmp | TkPipePipe | TkAmp | TkPipe
| TkQuestion | TkQuestionQuestion | TkQuestionDot | TkAt | TkCaret | TkTilde.

Definition tokenKindName (k : TokenKind) : string :=
  match k with
  | TkEnd => "End"
  | TkError => "Error"
  | TkIdentifier => "Identifier"
  | TkIntLiteral => "IntLiteral"
  | TkFloatLiteral => "FloatLiteral"
  | TkStringLiteral => "StringLiteral"
  | TkRawStringLiteral => "RawStringLiteral"
  | TkQuasiLiteral => "QuasiLiteral"
  | TkKwNamespace => "KwNamespace"
  | TkKwClass => "KwClass"
  | TkKwStruct => "KwStruct"
  | TkKwInterface => "KwInterface"
  | TkKwMutating => "KwMutating"
  | TkKwPublic => "KwPublic"
  | TkKwPrivate => "KwPrivate"
  | TkKwNew => "KwNew"
  | TkKwDistinct => "KwDistinct"
  | TkKwConst => "KwConst"
  | TkKwReadonly => "KwReadonly"
  | TkKwWeak => "KwWeak"
  | TkKwGet => "KwGet"
  | TkKwSet => "KwSet"
  | TkKwReturn => "KwReturn"
  | TkKwVar => "KwVar"
  | TkKwLet => "KwLet"
  | TkKwAwait => "KwAwait"
  | TkKwBind => "KwBind"
  | TkKwInject => "KwInject"
  | TkKwUse => "KwUse"
  | TkKwUses => "KwUses"
  | TkKwIf => "KwIf"
  | TkKwElse => "KwElse"
  | TkKwTry => "KwTry"
  | TkKwCatch => "KwCatch"
  | TkKwThrow => "KwThrow"
  | TkKwWhile => "KwWhile"
  | TkKwFor => "KwFor"
  | TkKwIn => "KwIn"
  | TkKwIs => "KwIs"
  | TkKwMatch => "KwMatch"
  | TkKwThis => "KwThis"
  | TkKwTrue => "KwTrue"
  | TkKwFalse => "KwFalse"
  | TkKwBreak => "KwBreak"
  | TkKwContinue => "KwContinue"
  | TkKwDo => "KwDo"
  | TkKwUsing => "KwUsing"
  | TkKwEnum => "KwEnum"
  | TkColonColon => "ColonColon"
  | TkColon => "Colon"
  | TkSemicolon => "Semicolon"
  | TkComma => "Comma"
  | TkDot => "Dot"
  | TkDotDot => "DotDot"
  | TkLParen => "LParen"
  | TkRParen => "RParen"
  | TkLBrace => "LBrace"
  | TkRBrace => "RBrace"
  | TkLBracket => "LBracket"
  | TkRBracket => "RBracket"
  | TkArrow => "Arrow"
  | TkEq => "Eq"
  | TkEqEq => "EqEq"
  | TkBangEq => "BangEq"
  | TkBang => "Bang"
  | TkLt => "Lt"
  | TkGt => "Gt"
  | TkLe => "Le"
  | TkGe => "Ge"
  | TkPlus => "Plus"
  | TkMinus => "Minus"
  | TkStar => "Star"
  | TkSlash => "Slash"
  | TkPercent => "Percent"
  | TkPlusEq => "PlusEq"
  | TkMinusEq => "MinusEq"
  | TkStarEq => "StarEq"
  | TkSlashEq => "SlashEq"
  | TkPercentEq => "PercentEq"
  | TkLtLt => "LtLt"
  | TkGtGt => "GtGt"
  | TkAmpAmp => "AmpAmp"
  | TkPipePipe => "PipePipe"
  | TkAmp => "Amp"
  | TkPipe => "Pipe"
  | TkQuestion => "Question"
  | TkQuestionQuestion => "QuestionQuestion"
  | TkQuestionDot => "QuestionDot"
  | TkAt => "At"
  | TkCaret => "Caret"
  | TkTilde => "Tilde"
  end%string.

(** The keyword table of [keywordKind] and its lookup. *)
Definition keywordTable : list (string * TokenKind) := [
  ("namespace"%string, TkKwNamespace);
  ("class"%string, TkKwClass);
  ("struct"%string, TkKwStruct);
  ("interface"%string, TkKwInterface);
  ("mutating"%string, TkKwMutating);
  ("public"%string, TkKwPublic);
  ("private"%string, TkKwPrivate);
  ("new"%string, TkKwNew);
  ("distinct"%string, TkKwDistinct);
  ("const"%string, TkKwConst);
  ("readonly"%string, TkKwReadonly);
  ("weak"%string, TkKwWeak);
  ("get"%string, TkKwGet);
  ("set"%string, TkKwSet);
  ("return"%string, TkKwReturn);
  ("var"%string, TkKwVar);
  ("let"%string, TkKwLet);
  ("await"%string, TkKwAwait);
  ("bind"%string, TkKwBind);
  ("inject"%string, TkKwInject);
  ("use"%string, TkKwUse);
  ("uses"%string, TkKwUses);
  ("if"%string, TkKwIf);
  ("else"%string, TkKwElse);
  ("try"%string, TkKwTry);
  ("catch"%string, TkKwCatch);
  ("throw"%string, TkKwThrow);
  ("while"%string, TkKwWhile);
  ("for"%string, TkKwFor);
  ("in"%string, TkKwIn);
  ("is"%string, TkKwIs);
  ("match"%string, TkKwMatch);
  ("this"%string, TkKwThis);
  ("true"%string, TkKwTrue);
  ("false"%string, TkKwFalse);
  ("break"%string, TkKwBreak);
  ("continue"%string, TkKwContinue);
  ("do"%string, TkKwDo);
  ("using"%string, TkKwUsing);
  ("enum"%string, TkKwEnum)
].

Fixpoint table_find (word : str) (t : list (string * TokenKind)) : option TokenKind :=
  match t with
  | [] => None
  | (w, k) :: t' => if eqs (lit w) word then Some k else table_find word t'
  end.

Definition keywordKind (word : str) : TokenKind :=
  match table_find word keywordTable with Some k => k | None => TkIdentifier end.
(** ** Equality of token kinds

    A kind is compared by its position in the enumeration. *)

Definition all_kinds : list TokenKind := [
  TkEnd; TkError; TkIdentifier; TkIntLiteral; TkFloatLiteral; TkStringLiteral;
  TkRawStringLiteral; TkQuasiLiteral; TkKwNamespace; TkKwClass; TkKwStruct; TkKwInterface;
  TkKwPublic; TkKwPrivate; TkKwNew; TkKwMutating; TkKwDistinct; TkKwConst; TkKwReadonly;
  TkKwWeak; TkKwGet; TkKwSet; TkKwReturn; TkKwVar; TkKwLet; TkKwAwait; TkKwBind; TkKwInject;
  TkKwUse; TkKwUses; TkKwIf; TkKwElse; TkKwTry; TkKwCatch; TkKwThrow; TkKwWhile; TkKwFor; TkKwIn;
  TkKwIs; TkKwMatch; TkKwThis; TkKwTrue; TkKwFalse; TkKwBreak; TkKwContinue; TkKwDo; TkKwUsing;
  TkKwEnum; TkColonColon; TkColon; TkSemicolon; TkComma; TkDot; TkDotDot; TkLParen; TkRParen;
  TkLBrace; TkRBrace; TkLBracket; TkRBracket; TkArrow; TkEq; TkEqEq; TkBangEq; TkBang; TkLt;
  TkGt; TkLe; TkGe; TkPlus; TkMinus; TkStar; TkSlash; TkPercent; TkPlusEq; TkMinusEq; TkStarEq;
  TkSlashEq; TkPercentEq; TkLtLt; TkGtGt; TkAmpAmp; TkPipePipe; TkAmp; TkPipe; TkQuestion;
  TkQuestionQuestion; TkQuestionDot; TkAt; TkCaret; TkTilde
].

Definition kind_index (k : TokenKind) : nat :=
  match k with
  | TkEnd => 0 | TkError => 1 | TkIdentifier => 2 | TkIntLiteral => 3 | TkFloatLiteral => 4
  | TkStringLiteral => 5 | TkRawStringLiteral => 6 | TkQuasiLiteral => 7 | TkKwNamespace => 8
  | TkKwClass => 9 | TkKwStruct => 10 | TkKwInterface => 11 | TkKwPublic => 12
  | TkKwPrivate => 13 | TkKwNew => 14 | TkKwMutating => 15 | TkKwDistinct => 16 | TkKwConst => 17
  | TkKwReadonly => 18 | TkKwWeak => 19 | TkKwGet => 20 | TkKwSet => 21 | TkKwReturn => 22
  | TkKwVar => 23 | TkKwLet => 24 | TkKwAwait => 25 | TkKwBind => 26 | TkKwInject => 27
  | TkKwUse => 28 | TkKwUses => 29 | TkKwIf => 30 | TkKwElse => 31 | TkKwTry => 32
  | TkKwCatch => 33 | TkKwThrow => 34 | TkKwWhile => 35 | TkKwFor => 36 | TkKwIn => 37
  | TkKwIs => 38 | TkKwMatch => 39 | TkKwThis => 40 | TkKwTrue => 41 | TkKwFalse => 42
  | TkKwBreak => 43 | TkKwContinue => 44 | TkKwDo => 45 | TkKwUsing => 46 | TkKwEnum => 47
  | TkColonColon => 48 | TkColon => 49 | TkSemicolon => 50 | TkComma => 51 | TkDot => 52
  | TkDotDot => 53 | TkLParen => 54 | TkRParen => 55 | TkLBrace => 56 | TkRBrace => 57
  | TkLBracket => 58 | TkRBracket => 59 | TkArrow => 60 | TkEq => 61 | TkEqEq => 62
  | TkBangEq => 63 | TkBang => 64 | TkLt => 65 | TkGt => 66 | TkLe => 67 | TkGe => 68
  | TkPlus => 69 | TkMinus => 70 | TkStar => 71 | TkSlash => 72 | TkPercent => 73
  | TkPlusEq => 74 | TkMinusEq => 75 | TkStarEq => 76 | TkSlashEq => 77 | TkPercentEq => 78
  | TkLtLt => 79 | TkGtGt => 80 | TkAmpAmp => 81 | TkPipePipe => 82 | TkAmp => 83 | TkPipe => 84
  | TkQuestion => 85 | TkQuestionQuestion => 86 | TkQuestionDot => 87 | TkAt => 88
  | TkCaret => 89 | TkTilde => 90
  end.

Definition kind_eqb (a b : TokenKind) : bool := (kind_index a =? kind_index b)%nat.

Lemma all_kinds_index k : all_kinds !! kind_index k = Some k.
Proof. by destruct k. Qed.

Lemma kind_eqb_eq a b : kind_eqb a b = true <-> a = b.
Proof.
  unfold kind_eqb. rewrite Nat.eqb_eq. split; [|by intros ->].
  intros H. pose proof (all_kinds_index a) as Ha. rewrite H, all_kinds_index in Ha. by simplify_eq.
Qed.

Lemma kind_eqb_neq a b : kind_eqb a b = false <-> a <> b.
Proof. rewrite <- kind_eqb_eq. by destruct (kind_eqb a b). Qed.

#[export] Instance TokenKind_eq_dec : EqDecision TokenKind.
Proof.
  intros a b. destruct (kind_eqb a b) eqn:E; [left; by apply kind_eqb_eq|right; by apply kind_eqb_neq].
Defined.

(** ** Source spans and diagnostics *)

Record SourceSpan := Span { offset : nat; slength : nat }.
Definition span_end (s : SourceSpan) : nat := offset s + slength s.

Record Token := MkToken { kind : TokenKind; span : SourceSpan; text : str }.

Inductive Severity := SevError | SevWarning | SevNote.

Record Diagnostic := MkDiag { severity : Severity; message : str; dspan : SourceSpan }.

(** [DiagnosticSink]: the collected diagnostics, oldest first, and the error
    counter kept beside them. *)
Record DiagnosticSink := MkSink { diags : list Diagnostic; errorCount : nat }.

Definition empty_sink : DiagnosticSink := MkSink [] 0.
Definition sink_error (sp : SourceSpan) (m : str) (s : DiagnosticSink) : DiagnosticSink :=
  MkSink (diags s ++ [MkDiag SevError m sp]) (S (errorCount s)).
Definition sink_warning (sp : SourceSpan) (m : str) (s : DiagnosticSink) : DiagnosticSink :=
  MkSink (diags s ++ [MkDiag SevWarning m sp]) (errorCount s).
Definition sink_note (sp : SourceSpan) (m : str) (s : DiagnosticSink) : DiagnosticSink :=
  MkSink (diags s ++ [MkDiag SevNote m sp]) (errorCount s).
Definition hasErrors (s : DiagnosticSink) : bool := (0 <? errorCount s)%nat.

(** [lineColAt]: 1-based line and column of a byte offset. *)
Record LineCol := MkLineCol { line : nat; col : nat }.

Definition lineColAt (t : str) (off : nat) : LineCol :=
  let limit := if (off <? length t)%nat then off else length t in
  fold_left (fun lc c => if eqc c c_nl then MkLineCol (S (line lc)) 1
                         else MkLineCol (line lc) (S (col lc)))
            (take limit t) (MkLineCol 1 1).

Definition severityName (s : Severity) : str :=
  match s with SevError => lit "error" | SevWarning => lit "warning" | SevNote => lit "note" end.

(** [lineExtent]: the bounds of the line that contains [off]. *)
Fixpoint line_start (t : str) (i : nat) : nat :=
  match i with
  | 0 => 0
  | S j => if eqc (char_at t j) c_nl then i else line_start t j
  end.

Definition lineExtent (t : str) (off : nat) : nat * nat :=
  (line_start t off,
   advance_while (length t - off)
     (fun i => (i <? length t)%nat && negb (eqc (char_at t i) c_nl)) off).

(** [DiagnosticSink::render]: the text written to stderr for one diagnostic. *)
Definition render1 (name t : str) (d : Diagnostic) : str :=
  if (length t <? offset (dspan d))%nat then
    name ++ lit ": " ++ severityName (severity d) ++ lit ": " ++ message d ++ [c_nl]
  else
    let lc := lineColAt t (offset (dspan d)) in
    let '(start, stop) := lineExtent t (offset (dspan d)) in
    let width := if (slength (dspan d) =? 0)%nat then 1 else slength (dspan d) in
    name ++ lit ":" ++ to_string (Z.of_nat (line lc)) ++ lit ":" ++ to_string (Z.of_nat (col lc))
      ++ lit ": " ++ severityName (severity d) ++ lit ": " ++ message d ++ [c_nl]
      ++ lit "  " ++ substr t start (stop - start) ++ [c_nl]
      ++ replicate (col lc - 1 + 2) c_sp ++ lit "^" ++ replicate (width - 1) "~"%char ++ [c_nl].

Definition render (name t : str) (s : DiagnosticSink) : str :=
  mjoin (render1 name t <$> diags s).

(** ** Integer literals *)

Definition isHexDigitChar (c : ascii) : bool :=
  in_range "0" "9" c || in_range "a" "f" c || in_range "A" "F" c.

(** [c <= '9' ? c - '0' : (c | 0x20) - 'a' + 10] *)
Definition hexDigitValue (c : ascii) : Z :=
  if (code c <=? 57)%Z then (code c - 48)%Z else (Z.lor (code c) 32 - 97 + 10)%Z.

Definition base_digit (base : Z) (c : ascii) : bool :=
  isHexDigitChar c && (hexDigitValue c <? base)%Z.

Fixpoint base_prefix (base : Z) (s : str) : str :=
  match s with
  | c :: s' => if base_digit base c then c :: base_prefix base s' else []
  | [] => []
  end.

Definition base_value (base : Z) (ds : str) : Z :=
  fold_left (fun acc c => (acc * base + hexDigitValue c)%Z) ds 0%Z.

(** The optional [0x] that [strtoull] accepts in base 16. *)
Definition skip_0x (base : Z) (s : str) : str :=
  match s with
  | z :: x :: d :: s' =>
      if (base =? 16)%Z && eqc z "0" && (eqc x "x" || eqc x "X") && isHexDigitChar d
      then d :: s' else s
  | _ => s
  end.

(** [strtoull(s, nullptr, base)] for base 2 and 16: the value saturates at
    [ULLONG_MAX], and a leading [-] negates it modulo [2^64]. *)
Definition strtoull (base : Z) (s : str) : Z :=
  let mag t := let v := base_value base (base_prefix base (skip_0x base t)) in
               (v, Z.min v (2 ^ 64 - 1)) in
  match skip_spaces s with
  | [] => 0
  | c :: s' =>
      if eqc c "-" then let '(v, m) := mag s' in
                        if (v <=? 2 ^ 64 - 1)%Z then wrap_u 64 (- m) else m
      else if eqc c "+" then (mag s').2
      else (mag (c :: s')).2
  end.

Definition parseIntLiteral (t : str) : Z :=
  let clean := filter (fun c => c <> "_"%char) t in
  match clean with
  | z :: x :: rest =>
      if eqc z "0" && (eqc x "x" || eqc x "X") && (0 <? length rest)%nat then
        wrap_s 64 (strtoull 16 rest)
      else if eqc z "0" && (eqc x "b" || eqc x "B") && (0 <? length rest)%nat then
        wrap_s 64 (strtoull 2 rest)
      else atoll clean
  | _ => atoll clean
  end.

(** ** UTF-8 encoding and escapes *)

Definition byte (z : Z) : ascii := chr (z mod 256).

Definition appendUtf8 (out : str) (cp : Z) : str :=
  let c := wrap_u 64 cp in
  if (c <=? 0x7F)%Z then out ++ [byte c]
  else if (c <=? 0x7FF)%Z then
    out ++ [byte (Z.lor 0xC0 (Z.shiftr c 6)); byte (Z.lor 0x80 (Z.land c 0x3F))]
  else if (c <=? 0xFFFF)%Z then
    out ++ [byte (Z.lor 0xE0 (Z.shiftr c 12)); byte (Z.lor 0x80 (Z.land (Z.shiftr c 6) 0x3F));
            byte (Z.lor 0x80 (Z.land c 0x3F))]
  else
    out ++ [byte (Z.lor 0xF0 (Z.shiftr c 18)); byte (Z.lor 0x80 (Z.land (Z.shiftr c 12) 0x3F));
            byte (Z.lor 0x80 (Z.land (Z.shiftr c 6) 0x3F)); byte (Z.lor 0x80 (Z.land c 0x3F))].

(** The digit loop of [\u{...}]: at most six hex digits. *)
Fixpoint scan_hex (left : nat) (s : str) (cp : Z) (digits : nat) : Z * nat * str :=
  match left, s with
  | S l, c :: s' =>
      if isHexDigitChar c
      then scan_hex l s' (Z.lor (Z.shiftl cp 4) (hexDigitValue c)) (S digits)
      else (cp, digits, s)
  | _, _ => (cp, digits, s)
  end.

Definition simple_escape (n : ascii) : ascii :=
  if eqc n "n" then c_nl else if eqc n "t" then c_tab
  else if eqc n "r" then c_cr else if eqc n "0" then c_nul else n.

(** One iteration of the decoding loop on the text from the current index:
    what it appends, and the text left after it. *)
Definition decode_step (c : ascii) (rest : str) : str * str :=
  match rest with
  | n :: r2 =>
      if eqc c c_bslash then
        let plain := ([simple_escape n], r2) in
        if eqc n "x" then
          match r2 with
          | h1 :: h2 :: r3 =>
              if isHexDigitChar h1 && isHexDigitChar h2
              then ([byte (Z.lor (Z.shiftl (hexDigitValue h1) 4) (hexDigitValue h2))], r3)
              else plain
          | _ => plain
          end
        else if eqc n "u" then
          match r2 with
          | b :: r3 =>
              if eqc b "{" then
                let '(cp, digits, r4) := scan_hex 6 r3 0 0 in
                match r4 with
                | e :: r5 =>
                    if (0 <? digits)%nat && eqc e "}" then
                      let surrogate := (0xD800 <=? cp)%Z && (cp <=? 0xDFFF)%Z in
                      (appendUtf8 [] (if (0x10FFFF <? cp)%Z || surrogate then 0xFFFD else cp), r5)
                    else plain
                | [] => plain
                end
              else plain
          | [] => plain
          end
        else plain
      else ([c], rest)
  | [] => ([c], rest)
  end.

Fixpoint decode_loop (fuel : nat) (s : str) : str :=
  match fuel, s with
  | S f, c :: rest => let '(out, s') := decode_step c rest in out ++ decode_loop f s'
  | _, _ => []
  end.

Definition decodeEscapes (content : str) : str := decode_loop (length content) content.

Definition decodeStringLiteral (raw : str) : str :=
  if (length raw <? 2)%nat then [] else decodeEscapes (substr raw 1 (length raw - 2)).
