(* ===== verification/Utf8.v ===== *)
(** * UTF-8

    [utf8Encode] and [utf8DecodeAt] of [src/runtime/RuntimeValue.hpp], shared by
    every engine for [char] and [string], and the copy of the encoder that the
    escape decoder of [src/core/Token.cpp] carries. *)

From S2P Require Import Prelude Token.

Local Open Scope Z_scope.

Definition utf8Encode (cp : Z) : str :=
  let c := wrap_u 64 cp in
  if c <=? 0x7F then [byte c]
  else if c <=? 0x7FF then
    [byte (Z.lor 0xC0 (Z.shiftr c 6)); byte (Z.lor 0x80 (Z.land c 0x3F))]
  else if c <=? 0xFFFF then
    [byte (Z.lor 0xE0 (Z.shiftr c 12)); byte (Z.lor 0x80 (Z.land (Z.shiftr c 6) 0x3F));
     byte (Z.lor 0x80 (Z.land c 0x3F))]
  else
    [byte (Z.lor 0xF0 (Z.shiftr c 18)); byte (Z.lor 0x80 (Z.land (Z.shiftr c 12) 0x3F));
     byte (Z.lor 0x80 (Z.land (Z.shiftr c 6) 0x3F)); byte (Z.lor 0x80 (Z.land c 0x3F))].

Definition replacement : Z := 0xFFFD.

(** The classification of the lead byte: the number of continuation bytes, the
    valid range of the first of them, and the payload bits of the lead. *)
Definition utf8_lead (b0 : Z) : option (nat * Z * Z * Z) :=
  if b0 <=? 0xC1 then None
  else if b0 <=? 0xDF then Some (1%nat, 0x80, 0xBF, Z.land b0 0x1F)
  else if b0 =? 0xE0 then Some (2%nat, 0xA0, 0xBF, Z.land b0 0x0F)
  else if b0 <=? 0xEC then Some (2%nat, 0x80, 0xBF, Z.land b0 0x0F)
  else if b0 =? 0xED then Some (2%nat, 0x80, 0x9F, Z.land b0 0x0F)
  else if b0 <=? 0xEF then Some (2%nat, 0x80, 0xBF, Z.land b0 0x0F)
  else if b0 =? 0xF0 then Some (3%nat, 0x90, 0xBF, Z.land b0 0x07)
  else if b0 <=? 0xF3 then Some (3%nat, 0x80, 0xBF, Z.land b0 0x07)
  else if b0 =? 0xF4 then Some (3%nat, 0x80, 0x8F, Z.land b0 0x07)
  else None.

(** [for (k = 2; k <= need; ++k)]: [left] iterations remain, [k] is the index
    of the next continuation byte. *)
Fixpoint utf8_tail (left : nat) (k : nat) (s : str) (i : nat) (cp : Z) : Z * nat :=
  match left with
  | O => (cp, k)
  | S l =>
      if (length s <=? i + k)%nat then (replacement, k)
      else let bk := code (char_at s (i + k)) in
           if (bk <? 0x80) || (0xBF <? bk) then (replacement, k)
           else utf8_tail l (S k) s i (Z.lor (Z.shiftl cp 6) (Z.land bk 0x3F))
  end.

(** The decoded scalar, the bytes consumed, and whether [i] is a boundary. *)
Definition utf8DecodeAt (s : str) (i : nat) : Z * nat * bool :=
  if (length s <=? i)%nat then (replacement, 1%nat, true)
  else
    let b0 := code (char_at s i) in
    if b0 <=? 0x7F then (b0, 1%nat, true)
    else if b0 <=? 0xBF then (replacement, 1%nat, false)
    else match utf8_lead b0 with
         | None => (replacement, 1%nat, true)
         | Some (need, lo, hi, cp) =>
             if (length s <=? i + 1)%nat then (replacement, 1%nat, true)
             else
               let b1 := code (char_at s (i + 1)) in
               if (b1 <? lo) || (hi <? b1) then (replacement, 1%nat, true)
               else
                 let '(r, len) :=
                   utf8_tail (need - 1) 2 s i (Z.lor (Z.shiftl cp 6) (Z.land b1 0x3F)) in
                 (r, len, true)
         end.

(** A Unicode scalar value: what [char] may hold. *)
Definition is_scalar (cp : Z) : Prop :=
  0 <= cp <= 0x10FFFF /\ ~ (0xD800 <= cp <= 0xDFFF).

(** ** Arithmetic form of the encoder *)

Definition utf8_bytes (c : Z) : list Z :=
  if c <=? 0x7F then [c]
  else if c <=? 0x7FF then [0xC0 + c / 64; 0x80 + c mod 64]
  else if c <=? 0xFFFF then [0xE0 + c / 4096; 0x80 + (c / 64) mod 64; 0x80 + c mod 64]
  else [0xF0 + c / 262144; 0x80 + (c / 4096) mod 64; 0x80 + (c / 64) mod 64; 0x80 + c mod 64].

Lemma cont_byte x : Z.lor 0x80 (Z.land x 0x3F) = 0x80 + x mod 64.
Proof.
  change 0x3F with (2 ^ 6 - 1). rewrite land_ones_mod by lia.
  apply (lor_add_low 0x80 6); [lia|done|]. apply Z.mod_pos_bound. lia.
Qed.

Lemma utf8Encode_bytes c : 0 <= c <= 0x10FFFF -> utf8Encode c = chr <$> utf8_bytes c.
Proof.
  intros Hc. unfold utf8Encode, utf8_bytes, byte, wrap_u.
  rewrite (Z.mod_small c (2 ^ 64)) by lia. rewrite !cont_byte, !shiftr_div by lia.
  change (2 ^ 6) with 64. change (2 ^ 12) with 4096. change (2 ^ 18) with 262144.
  repeat case_match; bool_hyps; simpl.
  - by rewrite Z.mod_small by lia.
  - rewrite (lor_add_low 0xC0 6) by (first [done | dlia]). by rewrite !(Z.mod_small (_ + _) 256) by dlia.
  - rewrite (lor_add_low 0xE0 5) by (first [done | dlia]). by rewrite !(Z.mod_small (_ + _) 256) by dlia.
  - rewrite (lor_add_low 0xF0 4) by (first [done | dlia]). by rewrite !(Z.mod_small (_ + _) 256) by dlia.
Qed.

(** ** Decoding from the front of the remaining text *)

Lemma char_at_drop s i k : char_at s (i + k) = char_at (drop i s) k.
Proof. unfold char_at. by rewrite lookup_drop. Qed.

Lemma utf8_tail_drop left k s i cp :
  utf8_tail left k s i cp = utf8_tail left k (drop i s) 0 cp.
Proof.
  revert k cp. induction left as [|l IH]; intros k cp; simpl; [done|].
  rewrite length_drop, char_at_drop, IH.
  destruct (Nat.leb_spec (length s) (i + k)), (Nat.leb_spec (length s - i) k); done || lia.
Qed.

Lemma utf8DecodeAt_drop s i : utf8DecodeAt s i = utf8DecodeAt (drop i s) 0.
Proof.
  unfold utf8DecodeAt. rewrite length_drop.
  replace (char_at s i) with (char_at (drop i s) 0) by (rewrite <- char_at_drop; f_equal; lia).
  rewrite char_at_drop.
  destruct (Nat.leb_spec (length s) i), (Nat.leb_spec (length s - i) 0); [done|lia|lia|].
  change (0 + 1)%nat with 1%nat. case_match; [done|]. case_match; [done|].
  destruct (utf8_lead _) as [[[[need lo] hi] cp]|]; [|done]. rewrite utf8_tail_drop.
  destruct (Nat.leb_spec (length s) (i + 1)), (Nat.leb_spec (length s - i) 1); done || lia.
Qed.

(** Continuation bytes accumulate six bits each. *)
Lemma acc_bits cp b : 0 <= cp -> Z.lor (Z.shiftl cp 6) (Z.land b 0x3F) = cp * 64 + b mod 64.
Proof.
  intros. change 0x3F with (2 ^ 6 - 1). rewrite land_ones_mod by lia.
  apply (lor_shiftl_add cp 6); [lia|]. apply Z.mod_pos_bound. lia.
Qed.

(** The lead byte of each sequence length, with payload as arithmetic. *)
Lemma utf8_lead_spec b0 need lo hi cp :
  0 <= b0 < 256 -> utf8_lead b0 = Some (need, lo, hi, cp) ->
  (need = 1%nat /\ 0xC2 <= b0 <= 0xDF /\ cp = b0 - 0xC0 /\ lo = 0x80 /\ hi = 0xBF) \/
  (need = 2%nat /\ 0xE0 <= b0 <= 0xEF /\ cp = b0 - 0xE0 /\
     lo = (if b0 =? 0xE0 then 0xA0 else 0x80) /\ hi = (if b0 =? 0xED then 0x9F else 0xBF)) \/
  (need = 3%nat /\ 0xF0 <= b0 <= 0xF4 /\ cp = b0 - 0xF0 /\
     lo = (if b0 =? 0xF0 then 0x90 else 0x80) /\ hi = (if b0 =? 0xF4 then 0x8F else 0xBF)).
Proof.
  intros Hb. unfold utf8_lead.
  change 0x1F with (2 ^ 5 - 1). change 0x0F with (2 ^ 4 - 1). change 0x07 with (2 ^ 3 - 1).
  rewrite !land_ones_mod by lia. change (2 ^ 5) with 32. change (2 ^ 4) with 16. change (2 ^ 3) with 8.
  repeat (case_match; bool_hyps; [first [discriminate | intros [= <- <- <- <-]]|]); [..|discriminate];
    first [ left; repeat split; dlia
          | right; left; repeat split;
            repeat match goal with |- context [?a =? ?b] => destruct (Z.eqb_spec a b) end; dlia
          | right; right; repeat split;
            repeat match goal with |- context [?a =? ?b] => destruct (Z.eqb_spec a b) end; dlia ].
Qed.

(** ** Encoding then decoding *)

Lemma is_scalar_replacement : is_scalar replacement.
Proof. unfold is_scalar, replacement. lia. Qed.

(** Resolve every test on a numeral-bounded byte in the goal. *)
Ltac byte_tests :=
  repeat match goal with
  | |- context [?a <=? ?b] => destruct (Z.leb_spec a b); [try dlia|try dlia]
  | |- context [?a <? ?b] => destruct (Z.ltb_spec a b); [try dlia|try dlia]
  | |- context [?a =? ?b] => destruct (Z.eqb_spec a b); [try dlia|try dlia]
  end.

Lemma utf8_decode_1 c w : 0 <= c <= 0x7F ->
  utf8DecodeAt (chr c :: w) 0 = (c, 1%nat, true).
Proof.
  intros Hc. unfold utf8DecodeAt. cbn. rewrite code_chr by lia.
  destruct (Z.leb_spec c 127); [done|lia].
Qed.

(** A sequence whose lead and first continuation byte are accepted decodes by
    the tail loop. *)
Lemma utf8_decode_multi b0 b1 w need lo hi cp :
  0xC2 <= b0 < 256 -> 0x80 <= b1 <= 0xBF -> utf8_lead b0 = Some (need, lo, hi, cp) -> lo <= b1 <= hi ->
  0 <= cp ->
  utf8DecodeAt (chr b0 :: chr b1 :: w) 0 =
    let '(r, len) := utf8_tail (need - 1) 2 (chr b0 :: chr b1 :: w) 0 (cp * 64 + b1 mod 64) in
    (r, len, true).
Proof.
  intros H0 H1 Hl Hr Hcp. unfold utf8DecodeAt. cbn -[utf8_lead utf8_tail].
  rewrite !code_chr by lia. rewrite Hl, acc_bits by done.
  destruct (Z.leb_spec b0 127), (Z.leb_spec b0 191); try lia.
  destruct (Z.ltb_spec b1 lo), (Z.ltb_spec hi b1); try lia. done.
Qed.

Lemma utf8_tail_cons l k s i cp b :
  (i + k < length s)%nat -> char_at s (i + k) = chr b -> 0x80 <= b <= 0xBF -> 0 <= cp ->
  utf8_tail (S l) k s i cp = utf8_tail l (S k) s i (cp * 64 + b mod 64).
Proof.
  intros Hk Hc Hb Hcp. simpl. rewrite Hc, code_chr, acc_bits by lia.
  destruct (Nat.leb_spec (length s) (i + k)); [lia|].
  destruct (Z.ltb_spec b 128), (Z.ltb_spec 191 b); try lia. done.
Qed.

Definition lead_lo (b0 : Z) : Z := if b0 =? 0xE0 then 0xA0 else if b0 =? 0xF0 then 0x90 else 0x80.
Definition lead_hi (b0 : Z) : Z := if b0 =? 0xED then 0x9F else if b0 =? 0xF4 then 0x8F else 0xBF.

Lemma utf8_lead_intro b0 need base :
  (need = 1%nat /\ base = 0xC0 /\ 0xC2 <= b0 <= 0xDF) \/
  (need = 2%nat /\ base = 0xE0 /\ 0xE0 <= b0 <= 0xEF) \/
  (need = 3%nat /\ base = 0xF0 /\ 0xF0 <= b0 <= 0xF4) ->
  utf8_lead b0 = Some (need, lead_lo b0, lead_hi b0, b0 - base).
Proof.
  intros Hb. unfold utf8_lead, lead_lo, lead_hi.
  change 0x1F with (2 ^ 5 - 1). change 0x0F with (2 ^ 4 - 1). change 0x07 with (2 ^ 3 - 1).
  rewrite !land_ones_mod by lia. change (2 ^ 5) with 32. change (2 ^ 4) with 16. change (2 ^ 3) with 8.
  destruct Hb as [(-> & -> & ?)|[(-> & -> & ?)|(-> & -> & ?)]]; byte_tests; repeat f_equal; dlia.
Qed.

Lemma utf8_lead_scalar c : is_scalar c -> 0x80 <= c ->
  exists b0 b1 ws need base, utf8_bytes c = b0 :: b1 :: ws /\ length ws = (need - 1)%nat /\
    0xC2 <= b0 < 256 /\ 0x80 <= b1 <= 0xBF /\
    utf8_lead b0 = Some (need, lead_lo b0, lead_hi b0, b0 - base) /\
    lead_lo b0 <= b1 <= lead_hi b0 /\ base <= b0 /\ Forall (fun b => 0x80 <= b <= 0xBF) ws /\
    fold_left (fun a b => a * 64 + b mod 64) ws ((b0 - base) * 64 + b1 mod 64) = c.
Proof.
  intros [Hc Hs] Hlo. unfold utf8_bytes.
  destruct (Z.leb_spec c 0x7F); [lia|].
  destruct (Z.leb_spec c 0x7FF); [|destruct (Z.leb_spec c 0xFFFF)].
  - exists (0xC0 + c / 64), (0x80 + c mod 64), [], 1%nat, 0xC0.
    rewrite utf8_lead_intro with (need := 1%nat) (base := 0xC0) by dlia.
    unfold lead_lo, lead_hi. byte_tests. repeat split; [dlia..|constructor|cbn; dlia].
  - exists (0xE0 + c / 4096), (0x80 + (c / 64) mod 64), [0x80 + c mod 64], 2%nat, 0xE0.
    rewrite utf8_lead_intro with (need := 2%nat) (base := 0xE0) by dlia.
    unfold lead_lo, lead_hi. byte_tests; repeat split; try dlia; try (repeat constructor; dlia); cbn; dlia.
  - exists (0xF0 + c / 262144), (0x80 + (c / 4096) mod 64), [0x80 + (c / 64) mod 64; 0x80 + c mod 64], 3%nat, 0xF0.
    rewrite utf8_lead_intro with (need := 3%nat) (base := 0xF0) by dlia.
    unfold lead_lo, lead_hi. byte_tests; repeat split; try dlia; try (repeat constructor; dlia); cbn; dlia.
Qed.

(** The tail loop over continuation bytes that are all present. *)
Lemma utf8_tail_all (ws : list Z) pre rest cp :
  Forall (fun b => 0x80 <= b <= 0xBF) ws -> 0 <= cp ->
  utf8_tail (length ws) (length pre) (pre ++ (chr <$> ws) ++ rest) 0 cp =
    (fold_left (fun a b => a * 64 + b mod 64) ws cp, (length pre + length ws)%nat).
Proof.
  intros Hws. revert pre cp. induction Hws as [|b ws Hb Hws IH]; intros pre cp Hcp.
  - cbn. f_equal. lia.
  - cbn [length]. rewrite utf8_tail_cons with (b := b).
    + specialize (IH (pre ++ [chr b]) (cp * 64 + b mod 64) ltac:(dlia)).
      rewrite length_app, <- app_assoc in IH. cbn [length] in IH.
      rewrite Nat.add_1_r in IH. cbn [fmap list_fmap app fold_left] in *. rewrite IH. f_equal. lia.
    + cbn. rewrite !length_app. cbn. lia.
    + change (0 + length pre)%nat with (length pre). rewrite <- (Nat.add_0_r (length pre)).
      by rewrite char_at_app_r.
    + done.
    + done.
Qed.

(** Decoding at the position where a Unicode scalar was encoded returns
    that scalar, consumes exactly its bytes and reports a boundary, whatever
    surrounds them. *)
Theorem utf8_roundtrip pre cp rest :
  is_scalar cp ->
  utf8DecodeAt (pre ++ utf8Encode cp ++ rest) (length pre) = (cp, length (utf8Encode cp), true).
Proof.
  intros Hs. rewrite utf8DecodeAt_drop, drop_app_length, utf8Encode_bytes by apply Hs.
  destruct (Z.leb_spec 0x80 cp).
  - destruct (utf8_lead_scalar cp Hs ltac:(done))
      as (b0 & b1 & ws & need & base & -> & Hlen & H0 & H1 & Hl & Hr & Hb & Hws & Hfold).
    cbn [fmap list_fmap app]. rewrite (utf8_decode_multi b0 b1 _ _ _ _ _ H0 H1 Hl Hr) by lia.
    rewrite <- Hlen.
    change (chr b0 :: chr b1 :: (chr <$> ws) ++ rest) with ([chr b0; chr b1] ++ (chr <$> ws) ++ rest).
    change 2%nat with (length [chr b0; chr b1]) at 1. rewrite utf8_tail_all by (done || dlia).
    rewrite Hfold. cbn [length]. by rewrite length_fmap.
  - unfold utf8_bytes. destruct (Z.leb_spec cp 127); [|lia].
    cbn [fmap list_fmap app]. rewrite utf8_decode_1; [done|]. destruct Hs. lia.
Qed.

Lemma utf8_roundtrip_witness :
  is_scalar 0x1F600 /\ utf8DecodeAt (lit "ab" ++ utf8Encode 0x1F600 ++ lit "c") 2 = (0x1F600, 4%nat, true).
Proof.
  assert (is_scalar 0x1F600) as H by (unfold is_scalar; lia).
  split; [exact H|]. exact (utf8_roundtrip (lit "ab") 0x1F600 (lit "c") H).
Defined.

(** ** Strictness of the decoder *)

Lemma utf8_bytes_2 b0 b1 : 0xC2 <= b0 <= 0xDF -> 0x80 <= b1 <= 0xBF ->
  let c := (b0 - 0xC0) * 64 + b1 mod 64 in is_scalar c /\ utf8_bytes c = [b0; b1].
Proof.
  intros. unfold is_scalar, utf8_bytes. split; [subst c; dlia|].
  subst c. byte_tests; repeat f_equal; dlia.
Qed.

Lemma utf8_bytes_3 b0 b1 b2 : 0xE0 <= b0 <= 0xEF -> lead_lo b0 <= b1 <= lead_hi b0 -> 0x80 <= b2 <= 0xBF ->
  let c := ((b0 - 0xE0) * 64 + b1 mod 64) * 64 + b2 mod 64 in is_scalar c /\ utf8_bytes c = [b0; b1; b2].
Proof.
  unfold lead_lo, lead_hi. intros ? Hb1 ?. unfold is_scalar, utf8_bytes.
  destruct (Z.eqb_spec b0 0xE0), (Z.eqb_spec b0 0xED), (Z.eqb_spec b0 0xF0), (Z.eqb_spec b0 0xF4); try lia;
    (split; [dlia|]; byte_tests; repeat f_equal; dlia).
Qed.

Lemma utf8_bytes_4 b0 b1 b2 b3 :
  0xF0 <= b0 <= 0xF4 -> lead_lo b0 <= b1 <= lead_hi b0 -> 0x80 <= b2 <= 0xBF -> 0x80 <= b3 <= 0xBF ->
  let c := (((b0 - 0xF0) * 64 + b1 mod 64) * 64 + b2 mod 64) * 64 + b3 mod 64 in
  is_scalar c /\ utf8_bytes c = [b0; b1; b2; b3].
Proof.
  unfold lead_lo, lead_hi. intros ? Hb1 ? ?. unfold is_scalar, utf8_bytes.
  destruct (Z.eqb_spec b0 0xE0), (Z.eqb_spec b0 0xED), (Z.eqb_spec b0 0xF0), (Z.eqb_spec b0 0xF4); try lia;
    (split; [dlia|]; byte_tests; repeat f_equal; dlia).
Qed.

(** What a call on the remaining text guarantees. *)
Definition decoded_ok (w : str) (cp : Z) (len : nat) : Prop :=
  is_scalar cp /\ (1 <= len <= 4)%nat /\ (len <= length w)%nat /\
  (take len w = utf8Encode cp \/ cp = replacement).

Lemma decoded_ok_bytes w cp len bs :
  is_scalar cp -> utf8_bytes cp = bs -> (chr <$> bs) = take len w -> len = length bs ->
  (1 <= len <= 4)%nat -> (len <= length w)%nat -> decoded_ok w cp len.
Proof.
  intros Hs Hb Ht Hl H1 H2. split; [done|]. split; [lia|]. split; [lia|]. left.
  rewrite utf8Encode_bytes by apply Hs. congruence.
Qed.

Lemma decoded_ok_bad w len : (1 <= len <= 4)%nat -> (len <= length w)%nat -> decoded_ok w replacement len.
Proof. intros. split; [apply is_scalar_replacement|]. split; [lia|]. split; [lia|]. by right. Qed.

Lemma utf8_tail_ok left k w cp r len :
  utf8_tail left k w 0 cp = (r, len) -> 0 <= cp ->
  (r = replacement /\ (k <= len <= k + left)%nat /\ (k <= length w -> len <= length w)%nat) \/
  (exists ws, length ws = left /\ Forall (fun b => 0x80 <= b <= 0xBF) ws /\ len = (k + left)%nat /\
     (k + left <= length w \/ left = 0)%nat /\ take left (drop k w) = (chr <$> ws) /\
     r = fold_left (fun a b => a * 64 + b mod 64) ws cp).
Proof.
  revert k cp. induction left as [|l IH]; intros k cp H Hcp; cbn [utf8_tail] in H.
  - simplify_eq. right. exists []. repeat split; try lia; auto.
  - cbn [Nat.add] in H. destruct (Nat.leb_spec (length w) k) as [Hk|Hk].
    { simplify_eq. left. repeat split; lia. }
    pose proof (code_range (char_at w k)) as Hcr.
    destruct (Z.ltb_spec (code (char_at w k)) 128) as [|Hlo]; [cbn [orb] in H; simplify_eq; left; repeat split; lia|].
    destruct (Z.ltb_spec 191 (code (char_at w k))) as [|Hhi]; [cbn [orb] in H; simplify_eq; left; repeat split; lia|].
    cbn [orb] in H. rewrite acc_bits in H by done.
    apply IH in H as [(-> & ? & ?)|(ws & Hl & Hws & -> & Hb & Ht & ->)]; [left; repeat split; lia| |dlia].
    right. exists (code (char_at w k) :: ws). cbn [length fmap list_fmap fold_left].
    repeat split; try lia; [by constructor|].
    rewrite chr_code, <- Ht. unfold char_at.
    destruct (lookup_lt_is_Some_2 w k Hk) as [x Hx]. rewrite Hx.
    by rewrite (drop_S w x k Hx).
Qed.

Lemma utf8_lead_lohi b0 need lo hi cp :
  0 <= b0 < 256 -> utf8_lead b0 = Some (need, lo, hi, cp) -> lo = lead_lo b0 /\ hi = lead_hi b0.
Proof.
  intros Hb Hl. destruct (utf8_lead_spec _ _ _ _ _ Hb Hl) as [H|[H|H]];
    destruct H as (-> & Hr & -> & -> & ->); unfold lead_lo, lead_hi; split; byte_tests; lia.
Qed.

Lemma utf8_decode_front w cp len b :
  w <> [] -> utf8DecodeAt w 0 = (cp, len, b) -> decoded_ok w cp len.
Proof.
  intros Hw. destruct w as [|c0 w]; [done|]. unfold utf8DecodeAt. cbn [length Nat.leb Nat.add].
  change (char_at (c0 :: w) 0) with c0. pose proof (code_range c0) as Hc0.
  destruct (Z.leb_spec (code c0) 127).
  { intros [= <- <- _]. apply decoded_ok_bytes with [code c0]; try (cbn; lia).
    - unfold is_scalar. lia.
    - unfold utf8_bytes. by byte_tests.
    - cbn. by rewrite chr_code, take_0. }
  destruct (Z.leb_spec (code c0) 191); [intros [= <- <- _]; apply decoded_ok_bad; cbn; lia|].
  destruct (utf8_lead (code c0)) as [[[[need lo] hi] cp0]|] eqn:El;
    [|intros [= <- <- _]; apply decoded_ok_bad; cbn; lia].
  destruct w as [|c1 w]; [intros [= <- <- _]; apply decoded_ok_bad; cbn; lia|].
  cbn [length Nat.leb]. change (char_at (c0 :: c1 :: w) 1) with c1. pose proof (code_range c1) as Hc1.
  destruct (utf8_lead_lohi _ _ _ _ _ Hc0 El) as [-> ->].
  destruct (Z.ltb_spec (code c1) (lead_lo (code c0))) as [|Hlo];
    [intros [= <- <- _]; apply decoded_ok_bad; cbn; lia|].
  destruct (Z.ltb_spec (lead_hi (code c0)) (code c1)) as [|Hhi];
    [intros [= <- <- _]; apply decoded_ok_bad; cbn; lia|]. cbn [orb].
  destruct (utf8_tail _ _ _ _ _) as [r l] eqn:Et. intros [= <- <- _].
  assert (0x80 <= lead_lo (code c0)) by (unfold lead_lo; byte_tests; lia).
  assert (lead_hi (code c0) <= 0xBF) by (unfold lead_hi; byte_tests; lia).
  destruct (utf8_lead_spec _ _ _ _ _ Hc0 El) as [Hd|[Hd|Hd]]; destruct Hd as (-> & Hr & -> & _ & _);
    rewrite acc_bits in Et by lia;
    (apply utf8_tail_ok in Et as [(-> & ? & ?)|(ws & Hl & Hws & -> & Hb & Ht & ->)];
      [apply decoded_ok_bad; cbn in *; lia| |dlia]).
  - destruct ws; [|done]. destruct (utf8_bytes_2 (code c0) (code c1)) as [Hs Hbs]; [lia..|].
    apply decoded_ok_bytes with [code c0; code c1]; try done; try (cbn in *; lia).
    cbn. by rewrite !chr_code, take_0.
  - destruct ws as [|b2 [|? ?]]; [done| |done]. inversion Hws as [|? ? Hb2 _]; subst.
    destruct (utf8_bytes_3 (code c0) (code c1) b2) as [Hs Hbs]; [lia..|].
    apply decoded_ok_bytes with [code c0; code c1; b2]; try done; try (cbn in *; lia).
    cbn [fmap list_fmap] in *. rewrite !chr_code. destruct w as [|c2 w]; cbn in *; [done|]. congruence.
  - destruct ws as [|b2 [|b3 [|? ?]]]; try done.
    inversion Hws as [|? ? Hb2 Hws2]; subst. inversion Hws2 as [|? ? Hb3 _]; subst.
    destruct (utf8_bytes_4 (code c0) (code c1) b2 b3) as [Hs Hbs]; [lia..|].
    apply decoded_ok_bytes with [code c0; code c1; b2; b3]; try done; try (cbn in *; lia).
    cbn [fmap list_fmap] in *. rewrite !chr_code.
    destruct w as [|c2 [|c3 w]]; cbn in *; [done..|]. congruence.
Qed.

(** The decoder is strict: at any position inside the text it consumes
    between one and four bytes that exist, yields a Unicode scalar (never a
    surrogate or a value past U+10FFFF), and the bytes consumed are that
    scalar's own encoding; otherwise it yields U+FFFD, and then no scalar's
    encoding starts at that position (overlong and truncated forms included). *)
Theorem utf8_decode_strict s i cp len b :
  (i < length s)%nat -> utf8DecodeAt s i = (cp, len, b) ->
  is_scalar cp /\ (1 <= len <= 4)%nat /\ (i + len <= length s)%nat /\
  (substr s i len = utf8Encode cp \/
   cp = replacement /\ forall c, is_scalar c -> ~ (utf8Encode c `prefix_of` drop i s)).
Proof.
  intros Hi Hd. rewrite utf8DecodeAt_drop in Hd. unfold substr.
  assert (drop i s <> []) as Hne by (intros E; apply (f_equal length) in E; rewrite length_drop in E; cbn in E; lia).
  destruct (utf8_decode_front _ _ _ _ Hne Hd) as (Hs & Hl & Hlen & Hcase).
  rewrite length_drop in Hlen. split; [done|]. split; [done|]. split; [lia|].
  destruct (decide (take len (drop i s) = utf8Encode cp)) as [E|E]; [by left|right].
  destruct Hcase as [?| ->]; [done|]. split; [done|]. intros c Hc [rest Hrest].
  pose proof (utf8_roundtrip [] c rest Hc) as Hrt. rewrite app_nil_l, <- Hrest in Hrt. cbn [length] in Hrt.
  rewrite Hd in Hrt. simplify_eq. apply E. rewrite Hrest. apply take_app_length.
Qed.

Lemma utf8_decode_strict_witness :
  (0 < length [chr 0xC0; chr 0x80])%nat /\ utf8DecodeAt [chr 0xC0; chr 0x80] 0 = (replacement, 1%nat, true) /\
  is_scalar replacement.
Proof.
  assert (0 < length [chr 0xC0; chr 0x80])%nat as H by (cbn; lia).
  assert (utf8DecodeAt [chr 0xC0; chr 0x80] 0 = (replacement, 1%nat, true)) as H2 by reflexivity.
  split; [exact H|]. split; [exact H2|].
  destruct (utf8_decode_strict [chr 0xC0; chr 0x80] 0 replacement 1 true H H2) as (Hs & _). exact Hs.
Defined.

(** The encoder that escape decoding carries is the same function. *)
Lemma appendUtf8_utf8Encode out cp : appendUtf8 out cp = out ++ utf8Encode cp.
Proof. unfold appendUtf8, utf8Encode. by repeat case_match. Qed.
