(* ===== verification/Lexer.v ===== *)
(** * The lexer

    Models the class [Lexer] of [src/frontend/Lexer.hpp] and
    [src/frontend/Lexer.cpp].  The position is [pos_]; every read goes through
    [peek], which yields ['\0'] past the end.  [std::string_view::substr] throws
    [std::out_of_range] when its start lies past the end of the text, so [make]
    returns an [option] and the token loop has an explicit [LexThrow] outcome.
    Offsets are [uint32_t] in the source; the model assumes a text shorter than
    4 GiB, where they do not wrap: positions never pass the end by more than one
    ([lexer_position_bounded], [lexer_offsets_bounded]). *)

From S2P Require Import Prelude Token.

Definition isIdentStart (c : ascii) : bool := in_range "a" "z" c || in_range "A" "Z" c || eqc c "_".
Definition isIdentCont (c : ascii) : bool := isIdentStart c || in_range "0" "9" c.
Definition isDigit (c : ascii) : bool := in_range "0" "9" c.
Definition isHexDigit (c : ascii) : bool := isDigit c || in_range "a" "f" c || in_range "A" "F" c.
Definition isBinDigit (c : ascii) : bool := eqc c "0" || eqc c "1".

(** The mutable members: the position and the diagnostic sink. *)
Record LexState := MkLex { pos : nat; sink : DiagnosticSink }.

Definition set_pos (p : nat) (st : LexState) : LexState := MkLex p (sink st).
Definition report (sp : SourceSpan) (m : str) (st : LexState) : LexState :=
  MkLex (pos st) (sink_error sp m (sink st)).

Inductive LexResult :=
| LexDone (tokens : list Token) (s : DiagnosticSink)
| LexThrow                       (* std::out_of_range escapes [tokenize] *)
| LexFuel.                       (* the model's iteration bound was reached *)

Section Lexer.
Context (src : str) (limit : nat) (allowHoles : bool).

(** [limit_ ? limit_ : file_.text.size()] *)
Definition lex_end : nat := if (limit =? 0)%nat then length src else limit.

Definition atEnd (p : nat) : bool := (lex_end <=? p)%nat.
Definition peek (p ahead : nat) : ascii :=
  if (p + ahead <? lex_end)%nat then char_at src (p + ahead) else c_nul.

Definition make (k : TokenKind) (start : nat) (p : nat) : option Token :=
  if (length src <? start)%nat then None
  else Some (MkToken k (Span start (p - start)) (substr src start (p - start))).

(** ** Trivia *)

Definition is_blank (c : ascii) : bool := eqc c c_sp || eqc c c_tab || eqc c c_cr || eqc c c_nl.

Definition line_comment_end (p : nat) : nat :=
  advance_while (lex_end - p) (fun i => negb (atEnd i) && negb (eqc (peek i 0) c_nl)) p.

Definition block_comment_end (p : nat) : nat :=
  advance_while (lex_end - p)
    (fun i => negb (atEnd i) && negb (eqc (peek i 0) "*" && eqc (peek i 1) "/")) p.

(** One turn of the loop of [skipTrivia]: [inl] continues, [inr] returns. *)
Definition trivia_step (st : LexState) : LexState + LexState :=
  let p := pos st in
  let c := peek p 0 in
  if is_blank c then inl (set_pos (S p) st)
  else if eqc c "/" && eqc (peek p 1) "/" then inl (set_pos (line_comment_end (p + 2)) st)
  else if eqc c "/" && eqc (peek p 1) "*" then
    let q := block_comment_end (p + 2) in
    if atEnd q then inr (report (Span p 2) (lit "unterminated block comment") (set_pos q st))
    else inl (set_pos (q + 2) st)
  else inr st.

Fixpoint skip_loop (fuel : nat) (st : LexState) : LexState :=
  match fuel with
  | 0 => st
  | S f => match trivia_step st with inl st' => skip_loop f st' | inr st' => st' end
  end.

Definition skipTrivia (st : LexState) : LexState := skip_loop (S (lex_end - pos st)) st.

(** ** Numbers and names *)

Fixpoint has_double_underscore (s : str) : bool :=
  match s with
  | a :: ((b :: _) as s') => (eqc a "_" && eqc b "_") || has_double_underscore s'
  | _ => false
  end.

Definition run_misplaced (run : str) : bool :=
  match run with
  | [] => false
  | c :: _ => eqc c "_" || eqc (List.last run c_nul) "_" || has_double_underscore run
  end.

(** [while (cond(peek())) ++pos_;] *)
Definition scan_run (cond : ascii -> bool) (p : nat) : nat :=
  advance_while (lex_end - p) (fun i => cond (peek i 0)) p.

Definition scanDigitRun (pred : ascii -> bool) (baseName : string) (st : LexState) : nat * LexState :=
  let start := pos st in
  let p := scan_run (fun c => pred c || eqc c "_") start in
  let run := substr src start (p - start) in
  let digits := length (filter (fun c => c <> "_"%char) run) in
  let st1 := set_pos p st in
  (digits,
   if run_misplaced run
   then report (Span start (p - start)) (lit "misplaced digit separator in " ++ lit baseName ++ lit " literal") st1
   else st1).

Definition radix_literal (pred : ascii -> bool) (name : string) (start : nat) (st : LexState)
  : option Token * LexState :=
  let '(digits, st1) := scanDigitRun pred name (set_pos (pos st + 2) st) in
  let st2 := if (digits =? 0)%nat
             then report (Span start (pos st1 - start)) (lit name ++ lit " literal has no digits") st1 else st1 in
  let st3 := if eqc (peek (pos st2) 0) "." && isDigit (peek (pos st2) 1)
             then report (Span start (pos st2 - start + 1))
                    (lit name ++ lit " literals cannot have a fractional part") st2 else st2 in
  (make TkIntLiteral start (pos st3), st3).

Definition lexNumber (start : nat) (st : LexState) : option Token * LexState :=
  let p := pos st in
  if eqc (peek p 0) "0" && (eqc (peek p 1) "x" || eqc (peek p 1) "X") then
    radix_literal isHexDigit "hex" start st
  else if eqc (peek p 0) "0" && (eqc (peek p 1) "b" || eqc (peek p 1) "B") then
    radix_literal isBinDigit "binary" start st
  else
    let '(_, st1) := scanDigitRun isDigit "decimal" st in
    if eqc (peek (pos st1) 0) "." && isDigit (peek (pos st1) 1) then
      let '(_, st2) := scanDigitRun isDigit "decimal" (set_pos (S (pos st1)) st1) in
      (make TkFloatLiteral start (pos st2), st2)
    else (make TkIntLiteral start (pos st1), st1).

Definition lexIdentifier (start : nat) (st : LexState) : option Token * LexState :=
  let p := scan_run (fun c => isIdentCont c || (allowHoles && eqc c "$")) (pos st) in
  let word := substr src start (p - start) in
  (make (keywordKind word) start p, set_pos p st).

(** ** Quoted literals

    Each loop returns the final position and whether the closing delimiter was
    consumed. *)

Fixpoint quasi_loop (fuel : nat) (p : nat) : bool * nat :=
  match fuel with
  | 0 => (false, p)
  | S f =>
      if atEnd p then (false, p)
      else let c := peek p 0 in
           if eqc c c_bslash && eqc (peek p 1) "`" then quasi_loop f (p + 2)
           else if eqc c "`" then (true, S p) else quasi_loop f (S p)
  end.

Fixpoint string_loop (fuel : nat) (quote : ascii) (p : nat) : bool * nat :=
  match fuel with
  | 0 => (false, p)
  | S f =>
      if atEnd p then (false, p)
      else let c := peek p 0 in
           if eqc c c_bslash then string_loop f quote (p + 2)
           else if eqc c c_nl then (false, p)
           else if eqc c quote then (true, S p) else string_loop f quote (S p)
  end.

Fixpoint raw_loop (fuel : nat) (quote : ascii) (p : nat) : bool * nat :=
  match fuel with
  | 0 => (false, p)
  | S f =>
      if atEnd p then (false, p)
      else let c := peek p 0 in
           if eqc c quote then (true, S p)
           else if eqc c c_nl then (false, p) else raw_loop f quote (S p)
  end.

Fixpoint triple_loop (fuel : nat) (quote : ascii) (p : nat) : bool * nat :=
  match fuel with
  | 0 => (false, p)
  | S f =>
      if atEnd p then (false, p)
      else let c := peek p 0 in
           if eqc c c_bslash then triple_loop f quote (p + 2)
           else if eqc c quote && eqc (peek p 1) quote && eqc (peek p 2) quote then (true, p + 3)
           else triple_loop f quote (S p)
  end.

(** The common tail: the literal token, or an error token with a diagnostic. *)
Definition finish_quoted (k : TokenKind) (msg : string) (start : nat) (r : bool * nat) (st : LexState)
  : option Token * LexState :=
  let '(closed, p) := r in
  let st1 := set_pos p st in
  if closed then (make k start p, st1)
  else (make TkError start p, report (Span start (p - start)) (lit msg) st1).

Definition loop_fuel (st : LexState) : nat := S (lex_end - pos st).

Definition lexQuasi (start : nat) (st : LexState) :=
  finish_quoted TkQuasiLiteral "unterminated quasiquote literal" start (quasi_loop (loop_fuel st) (pos st)) st.
Definition lexString (start : nat) (quote : ascii) (st : LexState) :=
  finish_quoted TkStringLiteral "unterminated string literal" start (string_loop (loop_fuel st) quote (pos st)) st.
Definition lexRawString (start : nat) (quote : ascii) (st : LexState) :=
  finish_quoted TkRawStringLiteral "unterminated raw string literal" start (raw_loop (loop_fuel st) quote (pos st)) st.
Definition lexTripleString (start : nat) (quote : ascii) (st : LexState) :=
  finish_quoted TkStringLiteral "unterminated multiline string literal" start
    (triple_loop (loop_fuel st) quote (pos st)) st.

(** ** The token loop *)

(** [match(c)]: the longer operator when the next character is [c]. *)
Definition one (k : TokenKind) (start : nat) (st : LexState) : option Token * LexState :=
  (make k start (pos st), st).

Fixpoint one_of (alts : list (ascii * TokenKind)) (k : TokenKind) (start : nat) (st : LexState)
  : option Token * LexState :=
  match alts with
  | [] => one k start st
  | (c, k') :: alts' =>
      if eqc (peek (pos st) 0) c then one k' start (set_pos (S (pos st)) st)
      else one_of alts' k start st
  end.

(** The operators that start with [c]: what follows it, and the bare token. *)
Definition punct (c : ascii) : option (list (ascii * TokenKind) * TokenKind) :=
  match c with
  | "("%char => Some ([], TkLParen) | ")"%char => Some ([], TkRParen)
  | "{"%char => Some ([], TkLBrace) | "}"%char => Some ([], TkRBrace)
  | "["%char => Some ([], TkLBracket) | "]"%char => Some ([], TkRBracket)
  | ","%char => Some ([], TkComma)
  | "."%char => Some ([("."%char, TkDotDot)], TkDot)
  | ";"%char => Some ([], TkSemicolon)
  | "?"%char => Some ([("?"%char, TkQuestionQuestion); ("."%char, TkQuestionDot)], TkQuestion)
  | "+"%char => Some ([("="%char, TkPlusEq)], TkPlus)
  | "-"%char => Some ([("="%char, TkMinusEq)], TkMinus)
  | "*"%char => Some ([("="%char, TkStarEq)], TkStar)
  | "/"%char => Some ([("="%char, TkSlashEq)], TkSlash)
  | "%"%char => Some ([("="%char, TkPercentEq)], TkPercent)
  | ":"%char => Some ([(":"%char, TkColonColon)], TkColon)
  | "="%char => Some ([(">"%char, TkArrow); ("="%char, TkEqEq)], TkEq)
  | "!"%char => Some ([("="%char, TkBangEq)], TkBang)
  | "<"%char => Some ([("<"%char, TkLtLt); ("="%char, TkLe)], TkLt)
  | ">"%char => Some ([(">"%char, TkGtGt); ("="%char, TkGe)], TkGt)
  | "&"%char => Some ([("&"%char, TkAmpAmp)], TkAmp)
  | "|"%char => Some ([("|"%char, TkPipePipe)], TkPipe)
  | "^"%char => Some ([], TkCaret)
  | "~"%char => Some ([], TkTilde)
  | "@"%char => Some ([], TkAt)
  | _ => None
  end.

(** The body of the [switch] on the character [c] read at [start]; [pos] is
    already one past it. *)
Definition lex_one (start : nat) (c : ascii) (st : LexState) : option Token * LexState :=
  match punct c with
  | Some (alts, k) => one_of alts k start st
  | None =>
      let p := pos st in
      if eqc c c_quote || eqc c "'" then
        if eqc (peek p 0) c && eqc (peek p 1) c
        then lexTripleString start c (set_pos (p + 2) st)
        else lexString start c st
      else if eqc c "`" then lexQuasi start st
      else if eqc c "$" then
        if allowHoles && isIdentStart (peek p 0) then
          let q := scan_run (fun d => isIdentCont d || eqc d "$") p in
          (make TkIdentifier start q, set_pos q st)
        else
          (make TkError start p,
           report (Span start 1)
             (if allowHoles then lit "expected a name after '$'"
              else lit "unexpected character '$' (holes only exist inside quasiquotes)") st)
      else if isDigit c then lexNumber start (set_pos start st)
      else if eqc c "r" && (eqc (peek p 0) c_quote || eqc (peek p 0) "'") then
        lexRawString start (peek p 0) (set_pos (S p) st)
      else if isIdentStart c then lexIdentifier start (set_pos start st)
      else (make TkError start p,
            report (Span start 1) (lit "unexpected character '" ++ [c] ++ lit "'") st)
  end.

Fixpoint tok_loop (fuel : nat) (st : LexState) (acc : list Token) : LexResult :=
  match fuel with
  | 0 => LexFuel
  | S f =>
      let st1 := skipTrivia st in
      let start := pos st1 in
      if atEnd start then
        match make TkEnd start start with
        | Some t => LexDone (acc ++ [t]) (sink st1)
        | None => LexThrow
        end
      else
        let '(ot, st2) := lex_one start (char_at src start) (set_pos (S start) st1) in
        match ot with
        | Some t => tok_loop f st2 (acc ++ [t])
        | None => LexThrow
        end
  end.

Definition tokenize_from (begin : nat) (s : DiagnosticSink) : LexResult :=
  tok_loop (S (lex_end - begin)) (MkLex begin s) [].

End Lexer.

(** [Lexer(file, sink, allowHoles).tokenize()] *)
Definition tokenize (src : str) (allowHoles : bool) (s : DiagnosticSink) : LexResult :=
  tokenize_from src 0 allowHoles 0 s.

(** [tokenizeRange(begin, end)] *)
Definition tokenizeRange (src : str) (allowHoles : bool) (begin stop : nat) (s : DiagnosticSink) : LexResult :=
  tokenize_from src stop allowHoles begin s.
