(* ===== verification/LexerFacts.v ===== *)
(** * Properties of the lexer *)

From S2P Require Import Prelude Token Lexer.

(** ** The diagnostic sink only grows, by errors *)

Definition sink_le (s s' : DiagnosticSink) : Prop :=
  exists ds, Forall (fun d => severity d = SevError) ds /\
             diags s' = diags s ++ ds /\ errorCount s' = errorCount s + length ds.

Lemma sink_le_refl s : sink_le s s.
Proof. exists []. rewrite app_nil_r. repeat split; auto. Qed.

Lemma sink_le_trans s1 s2 s3 : sink_le s1 s2 -> sink_le s2 s3 -> sink_le s1 s3.
Proof.
  intros (d1 & F1 & E1 & C1) (d2 & F2 & E2 & C2). exists (d1 ++ d2).
  rewrite E2, E1, C2, C1, length_app, app_assoc. repeat split; [by apply Forall_app|lia].
Qed.

Lemma sink_le_report sp m st : sink_le (sink st) (sink (report sp m st)).
Proof. exists [MkDiag SevError m sp]. repeat split; auto. cbn. lia. Qed.

Lemma sink_le_count s s' : sink_le s s' -> errorCount s <= errorCount s'.
Proof. intros (ds & _ & _ & ->). lia. Qed.

#[export] Hint Resolve sink_le_refl sink_le_report : lev.

(** ** Trivia: what may stand between two tokens *)

Inductive trivia : str -> Prop :=
| trivia_nil : trivia []
| trivia_blank c s : is_blank c = true -> trivia s -> trivia (c :: s)
| trivia_line body s : Forall (fun c => c <> c_nl) body -> trivia s -> trivia (lit "//" ++ body ++ s)
| trivia_block body s : (forall a b, body <> a ++ lit "*/" ++ b) -> trivia s ->
    trivia (lit "/*" ++ body ++ lit "*/" ++ s)
| trivia_open body : (forall a b, body <> a ++ lit "*/" ++ b) -> trivia (lit "/*" ++ body).

Lemma substr_cons s i n : i < length s -> 0 < n -> substr s i n = char_at s i :: substr s (S i) (n - 1).
Proof.
  intros Hi Hn. unfold substr, char_at. destruct (lookup_lt_is_Some_2 s i Hi) as [x Hx].
  rewrite Hx, (drop_S s x i Hx). destruct n; [lia|]. cbn. by rewrite Nat.sub_0_r.
Qed.

Lemma substr_0 s i : substr s i 0 = [].
Proof. unfold substr. apply take_0. Qed.

Lemma substr_split s i j k : i <= j <= k -> substr s i (k - i) = substr s i (j - i) ++ substr s j (k - j).
Proof.
  intros H. unfold substr. replace (k - i) with ((j - i) + (k - j)) by lia.
  rewrite <- take_take_drop, drop_drop. do 3 f_equal. lia.
Qed.

Lemma length_substr s i n : i + n <= length s -> length (substr s i n) = n.
Proof. intros H. unfold substr. rewrite length_take, length_drop. lia. Qed.

Lemma lookup_substr s i n k : k < n -> substr s i n !! k = s !! (i + k).
Proof. intros H. unfold substr. rewrite lookup_take_lt by done. apply lookup_drop. Qed.

Lemma char_at_lookup s i : i < length s -> s !! i = Some (char_at s i).
Proof. intros H. unfold char_at. destruct (lookup_lt_is_Some_2 s i H) as [x ->]. done. Qed.

Lemma Forall_substr (P : ascii -> Prop) s i n :
  i + n <= length s -> (forall j, i <= j < i + n -> P (char_at s j)) -> Forall P (substr s i n).
Proof.
  intros Hl H. apply Forall_lookup. intros k x Hk.
  assert (k < n) as Hkn by (apply lookup_lt_Some in Hk; rewrite length_substr in Hk; lia).
  rewrite lookup_substr, char_at_lookup in Hk by lia. simplify_eq. apply H. lia.
Qed.

Section Facts.
Context (src : str) (limit : nat) (allowHoles : bool).
Abbreviation lexEnd := (lex_end src limit).
Abbreviation peek := (peek src limit).
Lemma peek_lt p a : p + a < lexEnd -> peek p a = char_at src (p + a).
Proof. intros H. unfold Lexer.peek. by destruct (Nat.ltb_spec (p + a) lexEnd); [|lia]. Qed.

Lemma peek_ge p a : lexEnd <= p + a -> peek p a = c_nul.
Proof. intros H. unfold Lexer.peek. by destruct (Nat.ltb_spec (p + a) lexEnd); [lia|]. Qed.

(** A character other than NUL was read inside the text. *)
Lemma peek_inside p a c : eqc (peek p a) c = true -> c <> c_nul -> p + a < lexEnd /\ char_at src (p + a) = c.
Proof.
  intros H Hc. apply eqc_eq in H. destruct (decide (p + a < lexEnd)) as [Hl|Hl].
  - rewrite peek_lt in H by done. done.
  - rewrite peek_ge in H by lia. congruence.
Qed.

Lemma atEnd_true p : atEnd src limit p = true <-> lexEnd <= p.
Proof. unfold atEnd. apply Nat.leb_le. Qed.
Lemma atEnd_false p : atEnd src limit p = false <-> p < lexEnd.
Proof. unfold atEnd. apply Nat.leb_gt. Qed.

(** ** The scanning loop *)

Lemma scan_run_spec cond p : cond c_nul = false ->
  let r := scan_run src limit cond p in
  p <= r <= Nat.max p lexEnd /\ cond (peek r 0) = false /\
  (forall j, p <= j < r -> cond (peek j 0) = true) /\ (p < r -> r <= lexEnd).
Proof.
  intros Hn. unfold scan_run.
  destruct (advance_while_spec (fun i => cond (peek i 0)) lexEnd (lexEnd - p) p) as (H1 & H2 & H3 & H4).
  - intros j Hj. destruct (decide (j < lexEnd)); [done|]. rewrite peek_ge in Hj by lia. congruence.
  - lia.
  - cbn zeta. repeat split; try done; lia.
Qed.

Lemma scan_run_progress cond p : cond c_nul = false -> cond (peek p 0) = true -> p < scan_run src limit cond p.
Proof.
  intros Hn Hp. destruct (scan_run_spec cond p Hn) as (H1 & H2 & _).
  destruct (decide (p = scan_run src limit cond p)) as [E|]; [rewrite <- E in H2; congruence|lia].
Qed.

(** Past the end there is nothing to skip. *)
Lemma skipTrivia_past st : lexEnd < pos st -> skipTrivia src limit st = st.
Proof.
  intros H. unfold skipTrivia. cbn [skip_loop]. unfold trivia_step. by rewrite !peek_ge by lia.
Qed.

Lemma make_ok k start p : start <= length src ->
  make src k start p = Some (MkToken k (Span start (p - start)) (substr src start (p - start))).
Proof. intros H. unfold make. by destruct (Nat.ltb_spec (length src) start); [lia|]. Qed.

Hypothesis Hlim : limit <= length src.

Lemma lex_end_le : lexEnd <= length src.
Proof. unfold lex_end. destruct (limit =? 0)%nat; lia. Qed.

(** ** Trivia is skipped exactly *)

Lemma line_comment_end_spec p :
  let q := line_comment_end src limit p in
  p <= q <= Nat.max p lexEnd /\ (forall j, p <= j < q -> j < lexEnd /\ char_at src j <> c_nl).
Proof.
  unfold line_comment_end.
  destruct (advance_while_spec
    (fun i => negb (atEnd src limit i) && negb (eqc (peek i 0) c_nl)) lexEnd (lexEnd - p) p) as (H1 & _ & H3 & H4).
  - intros j Hj. bool_hyps. by apply atEnd_false.
  - lia.
  - split; [lia|]. intros j Hj. specialize (H3 j Hj). cbv beta in H3. bool_hyps.
    apply atEnd_false in H. rewrite peek_lt, Nat.add_0_r in H0 by lia. split; [done|]. by apply eqc_neq.
Qed.

Lemma block_comment_end_spec p :
  let q := block_comment_end src limit p in
  p <= q <= Nat.max p lexEnd /\
  (q < lexEnd -> char_at src q = "*"%char /\ char_at src (S q) = "/"%char /\ S q < lexEnd) /\
  (forall j, p <= j < q -> ~ (char_at src j = "*"%char /\ char_at src (S j) = "/"%char /\ S j < lexEnd)).
Proof.
  unfold block_comment_end.
  destruct (advance_while_spec
    (fun i => negb (atEnd src limit i) && negb (eqc (peek i 0) "*" && eqc (peek i 1) "/"))
    lexEnd (lexEnd - p) p) as (H1 & H2 & H3 & H4).
  - intros j Hj. bool_hyps. by apply atEnd_false.
  - lia.
  - cbn zeta. split; [lia|]. split.
    + intros Hq. cbv beta in H2. apply andb_false_iff in H2 as [H2|H2]; bool_hyps.
      * apply atEnd_true in H2. lia.
      * bool_hyps. apply peek_inside in H as [_ H]; [|done]. apply peek_inside in H0 as [Hs H0]; [|done].
        rewrite Nat.add_0_r in H. rewrite Nat.add_1_r in *. auto.
    + intros j Hj (Ha & Hb & Hc). specialize (H3 j Hj). cbv beta in H3.
      rewrite !peek_lt, Nat.add_0_r, Nat.add_1_r, Ha, Hb, !eqc_refl in H3 by lia. cbn in H3.
      by rewrite andb_false_r in H3.
Qed.

Lemma is_blank_nul : is_blank c_nul = false.
Proof. done. Qed.

(** No [*/] inside a slice when no position of it starts one. *)
Lemma no_close_in_slice p q :
  p <= q -> q <= lexEnd ->
  (forall j, p <= j < q -> ~ (char_at src j = "*"%char /\ char_at src (S j) = "/"%char /\ S j < lexEnd)) ->
  forall a b, substr src p (q - p) <> a ++ lit "*/" ++ b.
Proof.
  pose proof lex_end_le as Hle. intros Hp Hq Hno a b E.
  assert (length (substr src p (q - p)) = q - p) as Hl by (apply length_substr; lia).
  pose proof Hl as Hl2. rewrite E, !length_app in Hl2. cbn in Hl2.
  apply (Hno (p + length a)); [lia|].
  assert (forall k c, lit "*/" !! k = Some c -> char_at src (p + (length a + k)) = c) as Hc.
  { intros k c Hk. assert (k < 2) by (apply lookup_lt_Some in Hk; done).
    assert (substr src p (q - p) !! (length a + k) = Some c) as Hs.
    { rewrite E, lookup_app_r by lia. replace (length a + k - length a) with k by lia.
      rewrite lookup_app_l by (cbn; lia). done. }
    rewrite lookup_substr in Hs by lia. unfold char_at. by rewrite Hs. }
  repeat split.
  - rewrite <- (Hc 0 "*"%char eq_refl). f_equal. lia.
  - rewrite <- (Hc 1 "/"%char eq_refl). f_equal. lia.
  - lia.
Qed.

Lemma substr_two p c1 c2 q : p + 2 <= q -> q <= lexEnd -> char_at src p = c1 -> char_at src (p + 1) = c2 ->
  substr src p (q - p) = [c1; c2] ++ substr src (p + 2) (q - (p + 2)).
Proof.
  pose proof lex_end_le. intros H1 H2 H3 H4.
  rewrite substr_cons, substr_cons by lia. rewrite H3. rewrite <- Nat.add_1_r, H4. cbn.
  f_equal. f_equal. rewrite <- Nat.add_1_r, <- Nat.add_assoc. f_equal. lia.
Qed.

Lemma trivia_step_spec st st' (b : bool) :
  trivia_step src limit st = (if b then inl st' else inr st') -> pos st <= lexEnd ->
  pos st <= pos st' <= lexEnd /\ (b = true -> pos st < pos st') /\ sink_le (sink st) (sink st') /\
  (b = false -> trivia (substr src (pos st) (pos st' - pos st))) /\
  (b = true -> forall r, pos st' <= r <= lexEnd -> trivia (substr src (pos st') (r - pos st')) ->
     trivia (substr src (pos st) (r - pos st))).
Proof.
  pose proof lex_end_le as Hle. intros H Hp. unfold trivia_step in H.
  set (p := pos st) in *.
  destruct (is_blank (peek p 0)) eqn:Eb.
  { destruct b; [|done]. simplify_eq. cbn. assert (p < lexEnd) as Hlt.
    { destruct (decide (p < lexEnd)); [done|]. rewrite peek_ge in Eb by lia. by rewrite is_blank_nul in Eb. }
    repeat split; try lia; auto with lev. intros _ r Hr Ht.
    rewrite substr_cons by lia. apply trivia_blank.
    - rewrite peek_lt, Nat.add_0_r in Eb by lia. done.
    - replace (r - p - 1) with (r - S p) by lia. done. }
  destruct (eqc (peek p 0) "/" && eqc (peek p 1) "/") eqn:El.
  { destruct b; [|done]. simplify_eq. cbn. bool_hyps.
    apply peek_inside in H as [_ H]; [|done]. apply peek_inside in H0 as [Hin H0]; [|done].
    rewrite Nat.add_0_r in H. destruct (line_comment_end_spec (p + 2)) as [Hq Hno].
    repeat split; try lia; auto with lev. intros _ r Hr Ht.
    rewrite (substr_two p "/" "/" r) by (done || lia).
    rewrite (substr_split src (p + 2) (line_comment_end src limit (p + 2)) r) by lia.
    apply (trivia_line _ _); [|done]. apply Forall_substr; [lia|]. intros j Hj. apply Hno. lia. }
  destruct (eqc (peek p 0) "/" && eqc (peek p 1) "*") eqn:Ec.
  2:{ destruct b; [done|]. simplify_eq. repeat split; try lia; auto with lev.
      intros _. rewrite Nat.sub_diag, substr_0. constructor. }
  bool_hyps. apply peek_inside in H0 as [_ H0]; [|done]. apply peek_inside in H1 as [Hin H1]; [|done].
  rewrite Nat.add_0_r in H0. destruct (block_comment_end_spec (p + 2)) as (Hq & Hcl & Hno).
  destruct (atEnd src limit (block_comment_end src limit (p + 2))) eqn:Ee.
  - destruct b; [done|]. simplify_eq. cbn. apply atEnd_true in Ee.
    repeat split; try lia; [by exists [MkDiag SevError (lit "unterminated block comment") (Span p 2)]; repeat split; auto; cbn; lia|].
    intros _. rewrite (substr_two p "/" "*" _) by (done || lia).
    apply (trivia_open _). apply no_close_in_slice; [lia|lia|done].
  - destruct b; [|done]. simplify_eq. cbn. apply atEnd_false in Ee. destruct (Hcl Ee) as (Hs1 & Hs2 & Hs3).
    set (q := block_comment_end src limit (p + 2)) in *.
    repeat split; try lia; auto with lev. intros _ r Hr Ht.
    rewrite (substr_two p "/" "*" r) by (done || lia).
    rewrite (substr_split src (p + 2) q r) by lia.
    rewrite (substr_two q "*" "/" r) by (done || lia || by rewrite Nat.add_1_r).
    apply (trivia_block _ _); [|done]. apply no_close_in_slice; [lia|lia|done].
Qed.

Lemma skip_loop_spec fuel st :
  pos st <= lexEnd -> lexEnd - pos st < fuel ->
  let st' := skip_loop src limit fuel st in
  pos st <= pos st' <= lexEnd /\ sink_le (sink st) (sink st') /\
  trivia (substr src (pos st) (pos st' - pos st)).
Proof.
  revert st. induction fuel as [|f IH]; intros st Hp Hf; [lia|]. cbn [skip_loop].
  destruct (trivia_step src limit st) as [st1|st1] eqn:E.
  - destruct (trivia_step_spec st st1 true E Hp) as (H1 & H2 & H3 & _ & H5).
    specialize (H2 eq_refl). destruct (IH st1 ltac:(lia) ltac:(lia)) as (K1 & K2 & K3).
    cbn zeta in *. repeat split; try lia; [by eapply sink_le_trans|]. apply H5; [done|lia|done].
  - destruct (trivia_step_spec st st1 false E Hp) as (H1 & _ & H3 & H4 & _).
    cbn zeta. repeat split; try lia; auto.
Qed.

(** ** Quoted literals stay inside the text

    [over q] : the position is inside the range, or one past its end because
    its last character is a backslash that the loop stepped over. *)

Definition over (q : nat) : Prop :=
  q <= lexEnd \/ (q = S lexEnd /\ 0 < lexEnd /\ char_at src (lexEnd - 1) = c_bslash).

Lemma over_bslash p : p < lexEnd -> eqc (peek p 0) c_bslash = true -> over (p + 2).
Proof.
  intros Hp Hc. apply peek_inside in Hc as [_ Hc]; [|done]. rewrite Nat.add_0_r in Hc.
  destruct (decide (p + 2 <= lexEnd)); [by left|]. right. assert (p = lexEnd - 1) as -> by lia.
  repeat split; try lia. done.
Qed.

(** The shape shared by the four literal loops. *)
Definition loop_ok (p : nat) (r : bool * nat) : Prop :=
  p <= r.2 /\ over r.2 /\ (r.1 = true -> p < r.2 <= lexEnd).

Lemma loop_ok_step p p' r : p <= p' -> loop_ok p' r -> loop_ok p r.
Proof. intros H (H1 & H2 & H3). split; [lia|]. split; [done|]. intros Hr. specialize (H3 Hr). lia. Qed.

Lemma loop_ok_stop p : over p -> loop_ok p (false, p).
Proof. intros H. by repeat split. Qed.

Lemma loop_ok_close p q : p < q -> q <= lexEnd -> loop_ok p (true, q).
Proof. intros H1 H2. split; [cbn; lia|]. split; [by left|done]. Qed.

Lemma string_loop_ok q fuel p : over p -> lexEnd - p < fuel -> loop_ok p (string_loop src limit fuel q p).
Proof.
  revert p. induction fuel as [|f IH]; intros p Ho Hf; [lia|]. cbn [string_loop].
  destruct (atEnd src limit p) eqn:Ea; [by apply loop_ok_stop|]. apply atEnd_false in Ea.
  destruct (eqc (peek p 0) c_bslash) eqn:E1.
  { apply loop_ok_step with (p + 2); [lia|]. apply IH; [by apply over_bslash|lia]. }
  destruct (eqc (peek p 0) c_nl); [by apply loop_ok_stop|].
  destruct (eqc (peek p 0) q); [apply loop_ok_close; lia|].
  apply loop_ok_step with (S p); [lia|]. apply IH; [left; lia|lia].
Qed.

Lemma raw_loop_ok q fuel p : over p -> lexEnd - p < fuel -> loop_ok p (raw_loop src limit fuel q p).
Proof.
  revert p. induction fuel as [|f IH]; intros p Ho Hf; [lia|]. cbn [raw_loop].
  destruct (atEnd src limit p) eqn:Ea; [by apply loop_ok_stop|]. apply atEnd_false in Ea.
  destruct (eqc (peek p 0) q); [apply loop_ok_close; lia|].
  destruct (eqc (peek p 0) c_nl); [by apply loop_ok_stop|].
  apply loop_ok_step with (S p); [lia|]. apply IH; [left; lia|lia].
Qed.

Lemma quasi_loop_ok fuel p : over p -> lexEnd - p < fuel -> loop_ok p (quasi_loop src limit fuel p).
Proof.
  revert p. induction fuel as [|f IH]; intros p Ho Hf; [lia|]. cbn [quasi_loop].
  destruct (atEnd src limit p) eqn:Ea; [by apply loop_ok_stop|]. apply atEnd_false in Ea.
  destruct (eqc (peek p 0) c_bslash && eqc (peek p 1) "`") eqn:E1.
  { bool_hyps. apply loop_ok_step with (p + 2); [lia|]. apply IH; [by apply over_bslash|lia]. }
  destruct (eqc (peek p 0) "`"); [apply loop_ok_close; lia|].
  apply loop_ok_step with (S p); [lia|]. apply IH; [left; lia|lia].
Qed.

Lemma triple_loop_ok q fuel p :
  q <> c_nul -> over p -> lexEnd - p < fuel -> loop_ok p (triple_loop src limit fuel q p).
Proof.
  intros Hq. revert p. induction fuel as [|f IH]; intros p Ho Hf; [lia|]. cbn [triple_loop].
  destruct (atEnd src limit p) eqn:Ea; [by apply loop_ok_stop|]. apply atEnd_false in Ea.
  destruct (eqc (peek p 0) c_bslash) eqn:E1.
  { apply loop_ok_step with (p + 2); [lia|]. apply IH; [by apply over_bslash|lia]. }
  destruct (eqc (peek p 0) q && eqc (peek p 1) q && eqc (peek p 2) q) eqn:E2.
  { bool_hyps. apply peek_inside in H0 as [? _]; [|done]. apply loop_ok_close; lia. }
  apply loop_ok_step with (S p); [lia|]. apply IH; [left; lia|lia].
Qed.

(** ** What every branch of the switch produces *)

(** The token covers [start, pos'), is not the end marker, and an error token
    comes with a diagnostic. *)
Definition token_ok (start : nat) (st : LexState) (r : option Token * LexState) : Prop :=
  let '(ot, st') := r in
  start < pos st' /\ over (pos st') /\ sink_le (sink st) (sink st') /\
  exists t, ot = Some t /\ offset (span t) = start /\ slength (span t) = pos st' - start /\
    text t = substr src start (pos st' - start) /\ kind t <> TkEnd /\
    (kind t = TkError -> errorCount (sink st) < errorCount (sink st')).

(** A token other than an error, made at the final position. *)
Lemma token_ok_make k start st st' :
  start < pos st' -> over (pos st') -> start <= length src -> sink_le (sink st) (sink st') ->
  k <> TkEnd -> k <> TkError -> token_ok start st (make src k start (pos st'), st').
Proof. intros. split; [done|]. split; [done|]. split; [done|]. rewrite make_ok by done. eexists. by repeat split. Qed.

Lemma token_ok_error start st st' sp m :
  start < pos st' -> over (pos st') -> start <= length src -> sink_le (sink st) (sink st') ->
  token_ok start st (make src TkError start (pos st'), report sp m st').
Proof.
  intros H1 H2 H3 H4. cbn. split; [done|]. split; [done|].
  split; [eapply sink_le_trans; [done|apply sink_le_report]|].
  rewrite make_ok by done. eexists. repeat split; [done|]. intros _. apply sink_le_count in H4. cbn. lia.
Qed.

Lemma finish_quoted_ok k msg start r st :
  start <= length src -> loop_ok (pos st) r -> start < pos st -> k <> TkEnd -> k <> TkError ->
  token_ok start st (finish_quoted src k msg start r st).
Proof.
  destruct r as [closed p]. intros Hs (H1 & H2 & _) Hst Hk1 Hk2. cbn in H1, H2. unfold finish_quoted.
  destruct closed.
  - apply (token_ok_make k start st (set_pos p st)); cbn; auto with lev; lia.
  - apply (token_ok_error start st (set_pos p st)); cbn; auto with lev; lia.
Qed.

Lemma over_le p : p <= lexEnd -> over p.
Proof. by left. Qed.

Lemma one_of_ok alts k start st :
  start <= length src -> start < pos st -> pos st <= lexEnd ->
  Forall (fun ck => ck.1 <> c_nul /\ ck.2 <> TkEnd /\ ck.2 <> TkError) alts -> k <> TkEnd -> k <> TkError ->
  token_ok start st (one_of src limit alts k start st).
Proof.
  intros H1 H2 H3 Ha Hk1 Hk2. induction Ha as [|[c k'] alts (Hc & He & Hr) Ha IH]; cbn [one_of].
  - apply token_ok_make; auto using over_le with lev.
  - destruct (eqc (peek (pos st) 0) c) eqn:E; [|done]. apply peek_inside in E as [Hin _]; [|done].
    apply (token_ok_make k' start st (set_pos (S (pos st)) st)); cbn; auto with lev; try lia. left. lia.
Qed.

Lemma punct_ok c alts k : punct c = Some (alts, k) ->
  Forall (fun ck => ck.1 <> c_nul /\ ck.2 <> TkEnd /\ ck.2 <> TkError) alts /\ k <> TkEnd /\ k <> TkError.
Proof. each_char c; cbn; intros; simplify_eq; repeat constructor; done. Qed.

Lemma keywordKind_kind w : keywordKind w <> TkEnd /\ keywordKind w <> TkError.
Proof.
  unfold keywordKind.
  assert (Forall (fun wk => wk.2 <> TkEnd /\ wk.2 <> TkError) keywordTable) as H by (repeat constructor; done).
  induction H as [|[w' k] t Hk H IH]; cbn; [done|]. destruct (eqs (lit w') w); done.
Qed.

(** ** Numbers and names *)

Lemma scanDigitRun_ok pred name st n st' :
  pred c_nul = false -> scanDigitRun src limit pred name st = (n, st') ->
  pos st' = scan_run src limit (fun c => pred c || eqc c "_") (pos st) /\ sink_le (sink st) (sink st').
Proof.
  intros Hn. unfold scanDigitRun. case_match; intros; simplify_eq; (split; [done|]).
  - apply (sink_le_report _ _ (set_pos _ st)).
  - apply sink_le_refl.
Qed.

Lemma run_in pred p : pred c_nul = false ->
  p <= scan_run src limit (fun c => pred c || eqc c "_") p <= Nat.max p lexEnd.
Proof. intros Hn. apply (scan_run_spec (fun c => pred c || eqc c "_") p). by rewrite Hn. Qed.

Lemma radix_literal_ok pred name start st :
  pred c_nul = false -> start <= length src -> start <= pos st -> pos st + 2 <= lexEnd ->
  token_ok start st (radix_literal src limit pred name start st).
Proof.
  intros Hn Hs Hst Hp. unfold radix_literal.
  destruct (scanDigitRun _ _ _ _ _) as [n st1] eqn:E.
  apply scanDigitRun_ok in E as [Hpos Hsink]; [|done]. cbn [pos set_pos] in Hpos.
  pose proof (run_in pred (pos st + 2) Hn) as Hr. rewrite <- Hpos in Hr. cbn [sink set_pos] in Hsink.
  set (st2 := if (n =? 0)%nat then _ else _).
  assert (pos st2 = pos st1 /\ sink_le (sink st) (sink st2)) as [H2 HS2].
  { subst st2. case_match; split; auto with lev. eapply sink_le_trans; [done|apply sink_le_report]. }
  set (st3 := if eqc _ _ && _ then _ else _).
  assert (pos st3 = pos st1 /\ sink_le (sink st) (sink st3)) as [H3 HS3].
  { subst st3. case_match; split; auto with lev. eapply sink_le_trans; [done|apply sink_le_report]. }
  apply token_ok_make; auto; rewrite H3; [lia|left; lia].
Qed.

Lemma lexNumber_ok start st :
  pos st = start -> start < lexEnd -> isDigit (peek start 0) = true -> start <= length src ->
  token_ok start st (lexNumber src limit start st).
Proof.
  intros Hp Hs Hd Hl. unfold lexNumber. rewrite Hp.
  destruct (eqc (peek start 0) "0" && (eqc (peek start 1) "x" || eqc (peek start 1) "X")) eqn:E1.
  { bool_hyps. apply radix_literal_ok; [done|done|lia|]. rewrite Hp.
    apply orb_true_iff in H0 as [H0|H0]; apply peek_inside in H0 as [? _]; lia || done. }
  destruct (eqc (peek start 0) "0" && (eqc (peek start 1) "b" || eqc (peek start 1) "B")) eqn:E2.
  { bool_hyps. apply radix_literal_ok; [done|done|lia|]. rewrite Hp.
    apply orb_true_iff in H0 as [H0|H0]; apply peek_inside in H0 as [? _]; lia || done. }
  destruct (scanDigitRun _ _ _ _ _) as [n st1] eqn:E3.
  apply scanDigitRun_ok in E3 as [Hpos Hsink]; [|done]. rewrite Hp in Hpos.
  pose proof (run_in isDigit start eq_refl) as Hr.
  assert (start < pos st1) as Hprog.
  { rewrite Hpos. apply scan_run_progress; [done|]. by rewrite Hd. }
  rewrite <- Hpos in Hr.
  destruct (eqc (peek (pos st1) 0) "." && isDigit (peek (pos st1) 1)) eqn:E4.
  - bool_hyps. apply peek_inside in H as [Hin _]; [|done].
    destruct (scanDigitRun _ _ _ _ (set_pos _ _)) as [n2 st2] eqn:E5.
    apply scanDigitRun_ok in E5 as [Hpos2 Hsink2]; [|done]. cbn [pos sink set_pos] in *.
    pose proof (run_in isDigit (S (pos st1)) eq_refl) as Hr2. rewrite <- Hpos2 in Hr2.
    apply token_ok_make; auto; [lia|left; lia|]. by eapply sink_le_trans.
  - apply token_ok_make; auto. left. lia.
Qed.

Lemma lexIdentifier_ok start st :
  pos st = start -> start < lexEnd -> isIdentStart (peek start 0) = true -> start <= length src ->
  token_ok start st (lexIdentifier src limit allowHoles start st).
Proof.
  intros Hp Hs Hd Hl. unfold lexIdentifier. rewrite Hp.
  set (q := scan_run _ _ _ _). set (k := keywordKind _).
  assert (isIdentCont c_nul || (allowHoles && eqc c_nul "$") = false) as Hn by (destruct allowHoles; done).
  destruct (scan_run_spec (fun c => isIdentCont c || (allowHoles && eqc c "$")) start Hn) as (Hr & _ & _ & Hle).
  assert (start < q) as Hprog.
  { apply scan_run_progress; [done|]. unfold isIdentCont. by rewrite Hd. }
  fold q in Hle, Hr. destruct (keywordKind_kind (substr src start (q - start))) as [Hk1 Hk2].
  change (make src k start q) with (make src k start (pos (set_pos q st))).
  apply token_ok_make; cbn; auto with lev. left. auto.
Qed.

(** Every branch of the switch yields a token that starts where it was read,
    covers at least one character and stays inside the text (or one past it,
    after a trailing backslash in a string). *)
Lemma lex_one_ok start st :
  pos st = S start -> start < lexEnd ->
  token_ok start st (lex_one src limit allowHoles start (char_at src start) st).
Proof.
  pose proof lex_end_le as Hle. intros Hp Hs. unfold lex_one. set (c := char_at src start).
  assert (peek start 0 = c) as Hpk by (rewrite peek_lt, Nat.add_0_r by lia; done).
  destruct (punct c) as [[alts k]|] eqn:Epu.
  { apply punct_ok in Epu as (H1 & H2 & H3). apply one_of_ok; try done; lia. }
  destruct (eqc c c_quote || eqc c "'") eqn:Eq.
  { destruct (eqc (peek (pos st) 0) c && eqc (peek (pos st) 1) c) eqn:E2.
    - assert (c <> c_nul) as Hc by (intros E; rewrite E in Eq; done).
      bool_hyps. apply peek_inside in H0 as [Hin _]; [|done].
      apply (finish_quoted_ok _ _ _ _ (set_pos (pos st + 2) st)); cbn [pos set_pos]; try done; try lia.
      apply triple_loop_ok; [done|left; lia|unfold loop_fuel; cbn [pos set_pos]; lia].
    - apply finish_quoted_ok; try done; try lia. apply string_loop_ok; [left; lia|unfold loop_fuel; lia]. }
  destruct (eqc c "`"); [apply finish_quoted_ok; try done; try lia;
    apply quasi_loop_ok; [left; lia|unfold loop_fuel; lia]|].
  destruct (eqc c "$").
  { destruct (allowHoles && isIdentStart (peek (pos st) 0)).
    - set (q := scan_run _ _ _ _).
      destruct (scan_run_spec (fun d => isIdentCont d || eqc d "$") (pos st) eq_refl) as (Hr & _ & _ & Hle2).
      fold q in Hr. change (make src TkIdentifier start q) with (make src TkIdentifier start (pos (set_pos q st))).
      apply token_ok_make; cbn; auto with lev; try lia. left. lia.
    - apply token_ok_error; auto with lev; try lia. left. lia. }
  destruct (isDigit c) eqn:Ed.
  { apply (lexNumber_ok start (set_pos start st)); try done; [by rewrite Hpk|lia]. }
  destruct (eqc c "r" && (eqc (peek (pos st) 0) c_quote || eqc (peek (pos st) 0) "'")) eqn:Er.
  { bool_hyps. assert (pos st < lexEnd) as Hin.
    { apply orb_true_iff in H0 as [H0|H0]; apply peek_inside in H0 as [? _]; lia || done. }
    apply (finish_quoted_ok _ _ _ _ (set_pos (S (pos st)) st)); cbn [pos set_pos]; try done; try lia.
    apply raw_loop_ok; [left; lia|unfold loop_fuel; cbn [pos set_pos]; lia]. }
  destruct (isIdentStart c) eqn:Ei.
  { apply (lexIdentifier_ok start (set_pos start st)); try done; [by rewrite Hpk|lia]. }
  apply token_ok_error; auto with lev; try lia. left. lia.
Qed.

(** ** The token stream tiles the source

    From position [p] on, the text is a sequence of trivia and tokens that ends
    with the one end marker, each token's [text] being the slice its span
    names. *)
Inductive tiled : nat -> list Token -> Prop :=
| tiled_end p :
    p <= lexEnd -> trivia (substr src p (lexEnd - p)) ->
    tiled p [MkToken TkEnd (Span lexEnd 0) []]
| tiled_cons p t ts :
    p <= offset (span t) -> trivia (substr src p (offset (span t) - p)) ->
    0 < slength (span t) -> span_end (span t) <= lexEnd ->
    text t = substr src (offset (span t)) (slength (span t)) -> kind t <> TkEnd ->
    tiled (span_end (span t)) ts ->
    tiled p (t :: ts).

Definition ends_in_bslash : Prop := 0 < lexEnd /\ char_at src (lexEnd - 1) = c_bslash.

Lemma tok_loop_spec fuel st acc :
  lexEnd = length src -> over (pos st) -> lexEnd - pos st < fuel ->
  (tok_loop src limit allowHoles fuel st acc = LexThrow /\ ends_in_bslash) \/
  exists ts s', tok_loop src limit allowHoles fuel st acc = LexDone (acc ++ ts) s' /\
    tiled (pos st) ts /\ sink_le (sink st) s' /\
    (Exists (fun t => kind t = TkError) ts -> errorCount (sink st) < errorCount s').
Proof.
  intros Hfull. revert st acc. induction fuel as [|f IH]; intros st acc Ho Hf; [lia|].
  cbn [tok_loop]. destruct Ho as [Hp|(Hp & Hbad)].
  2:{ rewrite skipTrivia_past by lia. left. split; [|done].
      replace (atEnd src limit (pos st)) with true by (symmetry; apply atEnd_true; lia).
      unfold make. by destruct (Nat.ltb_spec (length src) (pos st)); [|lia]. }
  destruct (skip_loop_spec (S (lexEnd - pos st)) st Hp ltac:(lia)) as (H1 & H2 & H3).
  fold (skipTrivia src limit st) in *. set (st1 := skipTrivia src limit st) in *.
  destruct (atEnd src limit (pos st1)) eqn:Ea.
  - apply atEnd_true in Ea. assert (pos st1 = lexEnd) as Hpe by lia. right.
    rewrite make_ok by lia. eexists _, _. split; [done|]. rewrite Hpe in *.
    rewrite Nat.sub_diag, substr_0. split; [by constructor|]. split; [done|].
    intros He. exfalso. apply Exists_cons in He as [He|He]; [done|by apply Exists_nil in He].
  - apply atEnd_false in Ea.
    pose proof (lex_one_ok (pos st1) (set_pos (S (pos st1)) st1) eq_refl Ea) as Hone.
    destruct (lex_one _ _ _ _ _ _) as [ot st2]. unfold token_ok in Hone. cbn [sink set_pos] in Hone.
    destruct Hone as (K1 & K2 & K3 & t & -> & K4 & K5 & K6 & K7 & K8).
    destruct (IH st2 (acc ++ [t]) K2 ltac:(lia)) as [[-> Hbad]|(ts & s' & -> & HT & HS & HE)]; [by left|].
    right. exists (t :: ts), s'. rewrite <- app_assoc. split; [done|].
    assert (pos st2 <= lexEnd) as Hp2 by (inversion HT; subst; unfold span_end in *; lia).
    split; [|split].
    + apply tiled_cons; rewrite ?K4, ?K5; auto; unfold span_end; rewrite ?K4, ?K5; try lia.
      replace (pos st1 + (pos st2 - pos st1)) with (pos st2) by lia. done.
    + eapply sink_le_trans; [done|]. by eapply sink_le_trans.
    + intros He. apply sink_le_count in H2, K3. apply Exists_cons in He as [He|He].
      * apply K8 in He. apply sink_le_count in HS. lia.
      * apply HE in He. lia.
Qed.
End Facts.

(** The text of a tiled token list, with the trivia before each token. *)
Lemma tiled_concat src limit p ts :
  lex_end src limit = length src -> tiled src limit p ts ->
  exists gaps, length gaps = length ts /\ Forall trivia gaps /\
    drop p src = concat (zip_with app gaps (map text ts)).
Proof.
  intros Hfull. induction 1 as [p Hp Ht|p t ts Hp Ht Hpos Hin Htx Hk HT (gaps & Hl & Hg & Hd)].
  - exists [substr src p (lex_end src limit - p)]. repeat split; [by repeat constructor|].
    cbn. rewrite !app_nil_r. unfold substr. rewrite take_ge; [done|]. rewrite length_drop. lia.
  - exists (substr src p (offset (span t) - p) :: gaps). cbn [length map zip_with concat].
    rewrite Hl. repeat split; [by constructor|].
    rewrite <- Hd, Htx, <- app_assoc. unfold span_end, substr in *.
    rewrite <- (drop_drop src (slength (span t)) (offset (span t))), take_drop.
    replace (offset (span t)) with (p + (offset (span t) - p)) at 2 by lia.
    by rewrite <- drop_drop, take_drop.
Qed.

(** ** Claims *)

Lemma full_end src : lex_end src 0 = length src.
Proof. done. Qed.

Lemma tokenize_spec src holes s :
  (tokenize src holes s = LexThrow /\ ends_in_bslash src 0) \/
  exists ts s', tokenize src holes s = LexDone ts s' /\ tiled src 0 0 ts /\ sink_le s s' /\
    (Exists (fun t => kind t = TkError) ts -> errorCount s < errorCount s').
Proof.
  unfold tokenize, tokenize_from.
  apply (tok_loop_spec src 0 holes ltac:(lia) _ (MkLex 0 s) []); cbn [pos]; [done|left; lia|lia].
Qed.

Lemma tiled_last src limit p ts : tiled src limit p ts ->
  exists init, ts = init ++ [MkToken TkEnd (Span (lex_end src limit) 0) []] /\
    Forall (fun t => kind t <> TkEnd /\ 0 < slength (span t)) init.
Proof.
  induction 1 as [|p t ts Hp Ht Hpos Hin Htx Hk HT (init & -> & Hi)].
  - exists []. split; [done|constructor].
  - exists (t :: init). split; [done|]. by constructor.
Qed.

(** The spans of the tokens lie in the text, so the [uint32_t] offsets hold them
    for every source shorter than 4 GiB. *)
Lemma tiled_bounded src limit p ts : tiled src limit p ts -> Forall (fun t => span_end (span t) <= lex_end src limit) ts.
Proof. induction 1; constructor; try done. unfold span_end. cbn. lia. Qed.
Lemma lexer_offsets_bounded src holes s ts s' : tokenize src holes s = LexDone ts s' -> (Z.of_nat (length src) < 2 ^ 32)%Z ->
  Forall (fun t => in_u 32 (Z.of_nat (offset (span t))) /\ in_u 32 (Z.of_nat (slength (span t))) /\ in_u 32 (Z.of_nat (span_end (span t)))) ts.
Proof.
  intros E Hlen. destruct (tokenize_spec src holes s) as [[E' _]|(ts' & s2 & E' & HT & _)]; [congruence|].
  assert (ts' = ts) as -> by congruence. eapply Forall_impl; [by eapply tiled_bounded|].
  intros t Ht. rewrite full_end in Ht. unfold in_u, span_end in *. cbn beta in *. lia.
Qed.
(** Between two tokens the position is at most one past the end. *)
Lemma lexer_position_bounded src limit holes start st : pos st = S start -> start < lex_end src limit -> lex_end src limit = length src ->
  pos (snd (lex_one src limit holes start (char_at src start) st)) <= S (length src).
Proof.
  intros Hp Hs Hfull. assert (limit <= length src) as Hl by (unfold lex_end in *; destruct (Nat.eqb_spec limit 0); lia).
  pose proof (lex_one_ok src limit holes Hl start st Hp Hs) as Hone.
  unfold token_ok in Hone.
  destruct (lex_one _ _ _ _ _ _) as [ot st2]. destruct Hone as (_ & [H|[H _]] & _); cbn; lia.
Qed.

(** [C1] Lexing is total and lossless: unless the file ends in a backslash,
    [tokenize] returns a token list, and the source text is exactly the
    concatenation of the tokens' texts with trivia (blanks and comments) before
    each of them; the list ends with the one [End] token. *)
Theorem tokenize_lossless src holes s :
  (forall pre, src <> pre ++ [c_bslash]) ->
  exists ts s' gaps, tokenize src holes s = LexDone ts s' /\
    length gaps = length ts /\ Forall trivia gaps /\
    src = concat (zip_with app gaps (map text ts)) /\
    exists init, ts = init ++ [MkToken TkEnd (Span (length src) 0) []] /\
      Forall (fun t => kind t <> TkEnd /\ 0 < slength (span t)) init.
Proof.
  intros Hnb. destruct (tokenize_spec src holes s) as [[_ [Hp Hc]]|(ts & s' & E & HT & _)].
  - exfalso. rewrite full_end in *. apply (Hnb (take (length src - 1) src)).
    rewrite <- (take_drop (length src - 1) src) at 1. f_equal.
    rewrite (drop_S src c_bslash), drop_ge by (lia || by rewrite char_at_lookup, Hc by lia). done.
  - destruct (tiled_concat src 0 0 ts eq_refl HT) as (gaps & Hl & Hg & Hd).
    exists ts, s', gaps. do 3 (split; [done|]). split; [done|]. by apply tiled_last in HT.
Qed.

Lemma tokenize_lossless_witness :
  exists ts s' gaps, tokenize (lit "a /*b*/ + 1") false empty_sink = LexDone ts s' /\
    length gaps = length ts /\ Forall trivia gaps /\
    lit "a /*b*/ + 1" = concat (zip_with app gaps (map text ts)) /\
    exists init, ts = init ++ [MkToken TkEnd (Span (length (lit "a /*b*/ + 1")) 0) []] /\
      Forall (fun t => kind t <> TkEnd /\ 0 < slength (span t)) init.
Proof.
  apply (tokenize_lossless (lit "a /*b*/ + 1") false empty_sink).
  intros pre E. apply (f_equal (fun l => last l)) in E. rewrite last_snoc in E. vm_compute in E. discriminate E.
Defined.

(** Every lexical error is reported: if the token list holds an [Error]
    token, the sink has more errors than before; and the lexer only ever adds
    error diagnostics, it never drops or rewrites one. *)
Theorem tokenize_reports_errors src holes s ts s' :
  tokenize src holes s = LexDone ts s' ->
  (Exists (fun t => kind t = TkError) ts -> errorCount s < errorCount s') /\
  exists ds, Forall (fun d => severity d = SevError) ds /\
    diags s' = diags s ++ ds /\ errorCount s' = errorCount s + length ds.
Proof.
  intros E. destruct (tokenize_spec src holes s) as [[E2 _]|(ts2 & s2 & E2 & _ & HS & HE)]; [congruence|].
  rewrite E in E2. injection E2 as <- <-. split; [done|]. exact HS.
Qed.

Lemma tokenize_reports_errors_witness :
  exists ts s', tokenize (lit "a # b") false empty_sink = LexDone ts s' /\
    Exists (fun t => kind t = TkError) ts /\ errorCount empty_sink < errorCount s'.
Proof.
  assert (exists ts s', tokenize (lit "a # b") false empty_sink = LexDone ts s' /\
            Exists (fun t => kind t = TkError) ts) as (ts & s' & E & Hx).
  { eexists _, _. split; [vm_compute; reflexivity|]. apply Exists_cons_tl, Exists_cons_hd. reflexivity. }
  exists ts, s'. split; [exact E|]. split; [exact Hx|].
  exact (proj1 (tokenize_reports_errors (lit "a # b") false empty_sink ts s' E) Hx).
Defined.

(** ** Stepping the lexer over known text

    These lemmas run the lexer on a text of which the part at the current
    position is known; they carry the proofs about readers built on it. *)

Lemma string_loop_plain src limit q n f p :
  p + n <= lex_end src limit ->
  (forall j, p <= j < p + n -> char_at src j <> c_bslash /\ char_at src j <> c_nl /\ char_at src j <> q) ->
  string_loop src limit (n + f) q p = string_loop src limit f q (p + n).
Proof.
  revert p. induction n as [|n IH]; intros p Hl Hc; [by rewrite Nat.add_0_r|].
  cbn [Nat.add string_loop]. destruct (Hc p ltac:(lia)) as (H1 & H2 & H3).
  replace (atEnd src limit p) with false by (symmetry; apply atEnd_false; lia).
  rewrite peek_lt, Nat.add_0_r by lia.
  apply eqc_neq in H1 as ->, H2 as ->, H3 as ->.
  rewrite IH by (intros; try apply Hc; lia). f_equal. lia.
Qed.

Lemma skipTrivia_none src limit st :
  let c := peek src limit (pos st) 0 in
  is_blank c = false -> c <> "/"%char -> skipTrivia src limit st = st.
Proof.
  intros c Hb Hs. unfold skipTrivia. cbn [skip_loop]. unfold trivia_step. fold c.
  apply eqc_neq in Hs. by rewrite Hb, Hs.
Qed.

Lemma tok_loop_throw src limit holes f st acc :
  lex_end src limit = length src -> length src < pos st ->
  tok_loop src limit holes (S f) st acc = LexThrow.
Proof.
  intros Hfull Hp. cbn [tok_loop]. rewrite skipTrivia_past by lia.
  replace (atEnd src limit (pos st)) with true by (symmetry; apply atEnd_true; lia).
  unfold make. by destruct (Nat.ltb_spec (length src) (pos st)); [|lia].
Qed.

(** A file that ends with a backslash inside a string literal makes
    [tokenize] throw [std::out_of_range]: stepping over the escaped character
    moves the position one past the end, and building the [End] token asks for
    a substring there.  The header promises that lexing continues without
    exceptions. *)
Theorem tokenize_trailing_backslash_throws body holes s :
  Forall (fun c => c <> c_bslash /\ c <> c_nl /\ c <> c_quote) body ->
  tokenize (c_quote :: body ++ [c_bslash]) holes s = LexThrow.
Proof.
  intros Hb. set (src := c_quote :: body ++ [c_bslash]).
  assert (length src = length body + 2) as Hl by (cbn; rewrite length_app; cbn; lia).
  assert (forall j, 1 <= j < 1 + length body ->
            char_at src j <> c_bslash /\ char_at src j <> c_nl /\ char_at src j <> c_quote) as Hplain.
  { intros j Hj. rewrite Forall_lookup in Hb. unfold char_at, src.
    destruct j as [|j]; [lia|]. rewrite lookup_cons_ne_0 by lia. cbn [pred].
    rewrite lookup_app_l by lia. destruct (lookup_lt_is_Some_2 body j ltac:(lia)) as [x Hx].
    rewrite Hx. by apply (Hb j). }
  assert (char_at src (1 + length body) = c_bslash) as Hlast.
  { change src with ([c_quote] ++ (body ++ [c_bslash])). change 1 with (length [c_quote]).
    rewrite char_at_app_r. rewrite <- (Nat.add_0_r (length body)). by rewrite char_at_app_r. }
  unfold tokenize, tokenize_from. rewrite full_end, Nat.sub_0_r.
  cbn [tok_loop]. rewrite skipTrivia_none by done. cbn [pos].
  replace (atEnd src 0 0) with false by (symmetry; apply atEnd_false; rewrite full_end; lia).
  change (char_at src 0) with c_quote. unfold lex_one. cbn [punct c_quote].
  change (eqc c_quote c_quote || eqc c_quote "'") with true. cbn [set_pos pos sink].
  replace (eqc (peek src 0 1 0) c_quote) with false.
  2:{ rewrite peek_lt by (rewrite full_end; lia). cbn [Nat.add].
      destruct (decide (body = [])) as [->|Hne]; [done|]. symmetry. apply eqc_neq.
      apply Hplain. destruct body; [done|cbn; lia]. }
  cbn [andb]. unfold lexString, loop_fuel. rewrite full_end, Hl. cbn [pos set_pos].
  replace (S (length body + 2 - 1)) with (length body + 2) by lia.
  rewrite string_loop_plain by (rewrite ?full_end; auto; lia).
  cbn [string_loop].
  replace (atEnd src 0 (1 + length body)) with false by (symmetry; apply atEnd_false; rewrite full_end; lia).
  rewrite peek_lt, Nat.add_0_r, Hlast, eqc_refl by (rewrite full_end; lia).
  replace (atEnd src 0 (1 + length body + 2)) with true by (symmetry; apply atEnd_true; rewrite full_end; lia).
  unfold finish_quoted. rewrite make_ok by lia.
  replace (length body + 2) with (S (length body + 1)) by lia.
  apply tok_loop_throw; [done|]. cbn [pos report set_pos]. lia.
Qed.

Lemma tokenize_trailing_backslash_throws_witness :
  Forall (fun c => c <> c_bslash /\ c <> c_nl /\ c <> c_quote) (lit "dir") /\
  tokenize (c_quote :: lit "dir" ++ [c_bslash]) false empty_sink = LexThrow.
Proof.
  assert (Forall (fun c => c <> c_bslash /\ c <> c_nl /\ c <> c_quote) (lit "dir")) as H
    by (repeat constructor; discriminate).
  split; [exact H|]. exact (tokenize_trailing_backslash_throws (lit "dir") false empty_sink H).
Defined.
