(* ===== verification/Lexemes.v ===== *)
(** * Lexemes

    When a piece of text is one token whatever stands before it, and what its
    first following character must not be.  Texts that are written as a list of
    lexemes (build plans, printed expressions) are lexed with these. *)

From S2P Require Import Prelude Token Lexer LexerFacts.

(** ** Lexing a text given as a list of lexemes *)

Lemma peek_drop src p a : peek src 0 p a = char_at (drop p src) a.
Proof.
  unfold peek, char_at. rewrite lookup_drop, full_end.
  destruct (Nat.ltb_spec (p + a) (length src)); [done|]. by rewrite lookup_ge_None_2.
Qed.

Lemma drop_app_add {A} (l a b : list A) p : drop p l = a ++ b -> drop (p + length a) l = b.
Proof. intros H. rewrite <- drop_drop, H. apply drop_app_length. Qed.

Lemma drop_cons_lt {A} (l b : list A) p x : drop p l = x :: b -> p < length l.
Proof.
  intros H. destruct (decide (p < length l)); [done|]. by rewrite drop_ge in H by lia.
Qed.

(** The text opens a comment. *)
Definition comment_start (s : str) : bool :=
  eqc (char_at s 0) "/" && (eqc (char_at s 1) "/" || eqc (char_at s 1) "*").

(** [w] lexes as one token of kind [k] when followed by [rest]. *)
Definition lexes (k : TokenKind) (w rest : str) : Prop :=
  (exists c w', w = c :: w' /\ is_blank c = false /\ comment_start (w ++ rest) = false) /\
  forall src p st, drop p src = w ++ rest -> pos st = S p ->
    lex_one src 0 false p (char_at src p) st =
      (Some (MkToken k (Span p (length w)) w), set_pos (p + length w) st).

Lemma skip_loop_S src limit f st : skip_loop src limit (S f) st =
  match trivia_step src limit st with inl st' => skip_loop src limit f st' | inr st' => st' end.
Proof. done. Qed.

Lemma skip_blanks src ws rest f st :
  drop (pos st) src = ws ++ rest -> Forall (fun c => is_blank c = true) ws ->
  (forall c rest', rest = c :: rest' -> is_blank c = false /\ comment_start rest = false) ->
  skip_loop src 0 (S (length ws + f)) st = set_pos (pos st + length ws) st.
Proof.
  intros Hd Hw Hr. revert st Hd. induction Hw as [|c ws Hc Hw IH]; intros st Hd.
  - cbn [length Nat.add skip_loop]. unfold trivia_step. rewrite !peek_drop, Hd. cbn [app].
    rewrite Nat.add_0_r. replace (set_pos (pos st) st) with st by (by destruct st).
    destruct rest as [|d rest]; [done|]. destruct (Hr d rest eq_refl) as [H1 H2]. unfold comment_start in H2.
    change (char_at (d :: rest) 0) with d in *. rewrite H1. destruct (eqc d "/"); [|done]. cbn in H2.
    apply orb_false_elim in H2 as [-> ->]. done.
  - change (S (length (c :: ws) + f)) with (S (S (length ws + f))). rewrite skip_loop_S.
    unfold trivia_step at 1. rewrite peek_drop, Hd. change (char_at ((c :: ws) ++ rest) 0) with c. rewrite Hc.
    rewrite (IH (set_pos (S (pos st)) st)); [cbn; unfold set_pos; cbn; f_equal; lia|].
    cbn [pos set_pos]. rewrite <- Nat.add_1_r. by apply (drop_app_add src [c]).
Qed.

Lemma skipTrivia_blanks src ws rest st :
  drop (pos st) src = ws ++ rest -> Forall (fun c => is_blank c = true) ws ->
  (forall c rest', rest = c :: rest' -> is_blank c = false /\ comment_start rest = false) ->
  skipTrivia src 0 st = set_pos (pos st + length ws) st.
Proof.
  intros Hd Hw Hr. unfold skipTrivia. rewrite full_end.
  assert (length ws <= length src - pos st) as Hl.
  { apply (f_equal length) in Hd. rewrite length_drop, length_app in Hd. lia. }
  replace (length src - pos st) with (length ws + (length src - pos st - length ws)) by lia.
  by apply skip_blanks with rest.
Qed.

Lemma tok_loop_lexeme src k w rest ws f st acc :
  lexes k w rest -> drop (pos st) src = ws ++ w ++ rest -> Forall (fun c => is_blank c = true) ws ->
  tok_loop src 0 false (S f) st acc =
    tok_loop src 0 false f (set_pos (pos st + length ws + length w) st)
      (acc ++ [MkToken k (Span (pos st + length ws) (length w)) w]).
Proof.
  intros [(c & w' & Hw & Hb & Hs) Hlex] Hd Hws. cbn [tok_loop].
  rewrite (skipTrivia_blanks src ws (w ++ rest)) by (done || (intros ? ?; rewrite Hw; cbn; intros; by simplify_eq)).
  cbn [pos set_pos]. pose proof (drop_app_add _ _ _ _ Hd) as Hd2.
  assert (pos st + length ws < length src) as Hlt by (rewrite Hw in Hd2; by apply drop_cons_lt in Hd2).
  replace (atEnd src 0 (pos st + length ws)) with false by (symmetry; apply atEnd_false; rewrite full_end; lia).
  by rewrite (Hlex src _ (set_pos (S (pos st + length ws)) (set_pos (pos st + length ws) st)) Hd2 eq_refl).
Qed.

(** A text as lexemes, each after some blanks. *)
Definition item : Type := str * TokenKind * str.
Definition item_text (i : item) : str := i.1.1 ++ i.2.
Definition item_view (i : item) : TokenKind * str := (i.1.2, i.2).
Definition items_text (items : list item) : str := concat (map item_text items).
Definition token_view (t : Token) : TokenKind * str := (kind t, text t).

Fixpoint items_ok (items : list item) (tail : str) : Prop :=
  match items with
  | [] => Forall (fun c => is_blank c = true) tail
  | (ws, k, w) :: items' =>
      Forall (fun c => is_blank c = true) ws /\ lexes k w (items_text items' ++ tail) /\ items_ok items' tail
  end.

Lemma tok_loop_items src items tail fuel st acc :
  items_ok items tail -> drop (pos st) src = items_text items ++ tail -> pos st <= length src ->
  length src - pos st < fuel ->
  exists ts, tok_loop src 0 false fuel st acc = LexDone (acc ++ ts) (sink st) /\
    map token_view ts = map item_view items ++ [(TkEnd, [])].
Proof.
  revert fuel st acc. induction items as [|[[ws k] w] items IH]; intros fuel st acc Hok Hd Hp Hf;
    (destruct fuel as [|f]; [lia|]).
  - cbn in Hd. cbn [tok_loop].
    assert (length tail = length src - pos st) as Hlt by (by rewrite <- Hd, length_drop).
    rewrite (skipTrivia_blanks src tail []) by (by rewrite ?app_nil_r). cbn [pos set_pos sink].
    replace (atEnd src 0 (pos st + length tail)) with true by (symmetry; apply atEnd_true; rewrite full_end; lia).
    rewrite make_ok by lia. eexists. split; [done|]. cbn. by rewrite Nat.sub_diag, substr_0.
  - cbn [items_ok] in Hok. destruct Hok as (Hws & Hlex & Hok).
    change (items_text ((ws, k, w) :: items)) with ((ws ++ w) ++ items_text items) in Hd.
    rewrite <- !app_assoc in Hd.
    rewrite (tok_loop_lexeme src k w (items_text items ++ tail) ws) by done.
    destruct (Hlex) as [(c & w' & Hw & _) _].
    assert (length (drop (pos st) src) = length src - pos st) as Hl by apply length_drop.
    rewrite Hd, !length_app in Hl.
    destruct (IH f (set_pos (pos st + length ws + length w) st)
                (acc ++ [MkToken k (Span (pos st + length ws) (length w)) w])) as (ts & -> & Hv).
    + done.
    + cbn [pos set_pos]. apply (drop_app_add _ w), (drop_app_add _ ws). by rewrite Hd.
    + cbn [pos set_pos]. lia.
    + cbn [pos set_pos]. rewrite Hw in *. cbn [length] in *. lia.
    + eexists (_ :: ts). rewrite <- app_assoc. split; [done|]. cbn. by rewrite Hv.
Qed.

Lemma tokenize_items items tail s :
  items_ok items tail ->
  exists ts, tokenize (items_text items ++ tail) false s = LexDone ts s /\
    map token_view ts = map item_view items ++ [(TkEnd, [])].
Proof.
  intros Hok. unfold tokenize, tokenize_from.
  apply (tok_loop_items _ items tail _ (MkLex 0 s) []); [done|done|cbn; lia|cbn [pos]; rewrite full_end; lia].
Qed.

(** ** The text at a position *)

Definition head_char (rest : str) : ascii := char_at rest 0.

Lemma app_char_at (w rest : str) : char_at (w ++ rest) (length w) = head_char rest.
Proof. unfold head_char. rewrite <- (Nat.add_0_r (length w)). apply char_at_app_r. Qed.

Lemma char_at_drop0 src p : char_at src p = char_at (drop p src) 0.
Proof. unfold char_at. rewrite lookup_drop. by rewrite Nat.add_0_r. Qed.

Lemma substr_front src p w rest : drop p src = w ++ rest -> substr src p (length w) = w.
Proof. intros H. unfold substr. rewrite H. apply take_app_length. Qed.

Lemma make_front src k p w rest : drop p src = w ++ rest -> w <> [] ->
  make src k p (p + length w) = Some (MkToken k (Span p (length w)) w).
Proof.
  intros H Hw. assert (p < length src) by (destruct w; [done|]; by eapply drop_cons_lt).
  rewrite make_ok by lia. replace (p + length w - p) with (length w) by lia. by rewrite (substr_front _ _ _ _ H).
Qed.

Lemma scan_run_front src cond w rest p :
  drop p src = w ++ rest -> cond c_nul = false -> Forall (fun c => cond c = true) w ->
  cond (head_char rest) = false -> scan_run src 0 cond p = p + length w.
Proof.
  intros Hd Hn Hw Hr. unfold scan_run. apply advance_while_at with (length src).
  - intros j Hj. destruct (decide (j < length src)); [done|].
    rewrite peek_ge in Hj by (rewrite full_end; lia). congruence.
  - rewrite full_end. lia.
  - lia.
  - rewrite peek_drop, (drop_app_add _ _ _ _ Hd). done.
  - intros j Hj. rewrite peek_drop. replace j with (p + (j - p)) by lia.
    rewrite <- drop_drop, Hd. unfold char_at. rewrite lookup_drop, Nat.add_0_r, lookup_app_l by lia.
    destruct (lookup_lt_is_Some_2 w (j - p) ltac:(lia)) as [x Hx]. rewrite Hx.
    rewrite Forall_lookup in Hw. by apply (Hw (j - p)).
Qed.

(** ** Names *)

Definition ident_text (w : str) : Prop :=
  match w with c :: _ => isIdentStart c = true | [] => False end /\
  Forall (fun c => isIdentCont c = true) w.

Lemma ident_start_plain c : isIdentStart c = true ->
  punct c = None /\ is_blank c = false /\ c <> "/"%char /\ eqc c c_quote = false /\ eqc c "'" = false /\
  eqc c "`" = false /\ eqc c "$" = false /\ isDigit c = false.
Proof. each_char c; vm_compute; intros; try discriminate; repeat split; congruence. Qed.

Lemma no_comment c w : c <> "/"%char -> comment_start (c :: w) = false.
Proof. intros H. unfold comment_start. change (char_at (c :: w) 0) with c. by rewrite (proj2 (eqc_neq _ _) H). Qed.

(** What may follow a word: not more of it, and no quote, which would turn [r]
    into the start of a raw string. *)
Definition word_stop (rest : str) : Prop :=
  isIdentCont (head_char rest) = false /\ eqc (head_char rest) c_quote = false /\ eqc (head_char rest) "'" = false.

Lemma ident_cont_quote c : isIdentCont c = true -> eqc c c_quote = false /\ eqc c "'" = false.
Proof. each_char c; vm_compute; auto; discriminate. Qed.

Lemma lexes_word w rest : ident_text w -> word_stop rest -> lexes (keywordKind w) w rest.
Proof.
  intros [Hs Hc] (Hid & Hq1 & Hq2). destruct w as [|c w]; [done|].
  destruct (ident_start_plain c Hs) as (P1 & P2 & P3 & P4 & P5 & P6 & P7 & P8).
  split; [exists c, w; split; [done|]; split; [done|]; by apply no_comment|]. intros src p st Hd Hst.
  unfold lex_one. rewrite (char_at_drop0 src p), Hd. change (char_at ((c :: w) ++ rest) 0) with c.
  rewrite P1, P4, P5, P6, P7, P8. cbn [orb].
  replace (eqc c "r" && _) with false.
  2:{ symmetry. apply andb_false_iff. right. rewrite Hst, peek_drop, <- Nat.add_1_r.
      pose proof (drop_app_add src [c] (w ++ rest) p Hd) as Hd1. cbn [length] in Hd1. rewrite Hd1.
      destruct w as [|d w]; [by apply orb_false_intro|].
      inversion Hc as [|? ? ? Hc2]; subst. inversion Hc2; subst.
      change (char_at ((d :: w) ++ rest) 0) with d. destruct (ident_cont_quote d) as [-> ->]; done. }
  rewrite Hs. unfold lexIdentifier. cbn [pos set_pos].
  rewrite (scan_run_front src _ (c :: w) rest p Hd).
  - replace (p + length (c :: w) - p) with (length (c :: w)) by lia.
    rewrite (substr_front _ _ _ _ Hd), (make_front src _ p (c :: w) rest) by done. done.
  - done.
  - eapply Forall_impl; [exact Hc|]. intros x Hx. cbn beta. by rewrite Hx.
  - by rewrite Hid.
Qed.

(** ** Operators *)

Lemma punct_not_blank c alts k : punct c = Some (alts, k) -> is_blank c = false.
Proof. each_char c; vm_compute; congruence. Qed.

Lemma one_front src k p w rest st : drop p src = w ++ rest -> w <> [] -> pos st = p + length w ->
  one src k p st = (Some (MkToken k (Span p (length w)) w), set_pos (p + length w) st).
Proof.
  intros Hd Hw Hp. unfold one. rewrite Hp, (make_front src k p w rest) by done. destruct st. cbn in *. by subst.
Qed.

(** The longer operators that start with the same character. *)
Fixpoint longer (alts : list (ascii * TokenKind)) (d : ascii) : option TokenKind :=
  match alts with [] => None | (c, k) :: alts' => if eqc d c then Some k else longer alts' d end.

Lemma lexes_op1 c alts k rest : punct c = Some (alts, k) -> longer alts (head_char rest) = None ->
  comment_start (c :: rest) = false -> lexes k [c] rest.
Proof.
  intros Hp Hl Hcs. split; [exists c, []; split; [done|]; split; [by eapply punct_not_blank|done]|].
  intros src p st Hd Hst. unfold lex_one. rewrite (char_at_drop0 src p), Hd. change (char_at ([c] ++ rest) 0) with c.
  rewrite Hp. clear Hp. induction alts as [|[d k'] alts IH]; cbn [one_of longer] in *.
  - apply (one_front src k p [c] rest); [done|done|cbn; lia].
  - rewrite peek_drop, Hst, <- Nat.add_1_r. pose proof (drop_app_add src [c] rest p Hd) as Hd1. cbn [length] in Hd1.
    rewrite Hd1. fold (head_char rest). destruct (eqc (head_char rest) d); [done|]. by apply IH.
Qed.

Lemma lexes_op2 c d alts k0 k rest : punct c = Some (alts, k0) -> longer alts d = Some k ->
  comment_start (c :: d :: rest) = false -> lexes k [c; d] rest.
Proof.
  intros Hp Hl Hcs. split; [exists c, [d]; split; [done|]; split; [by eapply punct_not_blank|done]|].
  intros src p st Hd Hst. unfold lex_one. rewrite (char_at_drop0 src p), Hd. change (char_at ([c; d] ++ rest) 0) with c.
  rewrite Hp. clear Hp. induction alts as [|[d' k'] alts IH]; cbn [one_of longer] in *; [done|].
  rewrite peek_drop, Hst, <- Nat.add_1_r. pose proof (drop_app_add src [c] (d :: rest) p Hd) as Hd1. cbn [length] in Hd1.
  rewrite Hd1. change (char_at (d :: rest) 0) with d. destruct (eqc d d') eqn:E; [|by apply IH].
  injection Hl as ->. rewrite (one_front src k p [c; d] rest); [done|done|done|cbn; lia].
Qed.

(** ** Numbers *)

Definition digit_run (w : str) : Prop := w <> [] /\ Forall (fun c => isDigit c = true) w.

Lemma digit_facts c : isDigit c = true ->
  punct c = None /\ is_blank c = false /\ c <> "/"%char /\ eqc c c_quote = false /\ eqc c "'" = false /\
  eqc c "`" = false /\ eqc c "$" = false /\ eqc c "_" = false /\ isIdentCont c = true /\ eqc c "." = false /\
  eqc c "x" = false /\ eqc c "X" = false /\ eqc c "b" = false /\ eqc c "B" = false.
Proof. each_char c; vm_compute; intros; try discriminate; repeat split; congruence. Qed.

Lemma cont_facts c : isIdentCont c = false -> isDigit c = false /\ eqc c "_" = false /\
  eqc c "x" = false /\ eqc c "X" = false /\ eqc c "b" = false /\ eqc c "B" = false.
Proof. each_char c; vm_compute; intros; try discriminate; repeat split; congruence. Qed.

Lemma digits_placed w : Forall (fun c => isDigit c = true) w -> run_misplaced w = false.
Proof.
  intros Hw. destruct w as [|c w]; [done|]. cbn [run_misplaced].
  assert (forall x, isDigit x = true -> eqc x "_" = false) as Hu by (intros x Hx; by apply digit_facts).
  rewrite (Hu c) by (by inversion Hw). cbn [orb]. apply orb_false_intro.
  - apply Hu. assert (In (List.last (c :: w) c_nul) (c :: w)) as Hi.
    { clear. revert c. induction w as [|d w IH]; intros c; [by left|]. right. apply IH. }
    rewrite List.Forall_forall in Hw. auto.
  - revert c Hw. induction w as [|d w IH]; intros c Hw; [done|].
    cbn [has_double_underscore]. inversion Hw; subst. rewrite (Hu c) by done. cbn. by apply IH.
Qed.

Lemma scan_digits src p w rest st : drop p src = w ++ rest -> Forall (fun c => isDigit c = true) w ->
  isIdentCont (head_char rest) = false -> pos st = p ->
  exists n, scanDigitRun src 0 isDigit "decimal" st = (n, set_pos (p + length w) st).
Proof.
  intros Hd Hw Hr <-. unfold scanDigitRun. rewrite (scan_run_front src _ w rest (pos st) Hd).
  - replace (pos st + length w - pos st) with (length w) by lia.
    rewrite (substr_front _ _ _ _ Hd), digits_placed by done. by eexists.
  - done.
  - eapply Forall_impl; [exact Hw|]. intros x Hx. cbn beta. by rewrite Hx.
  - destruct (cont_facts _ Hr) as (-> & -> & _). done.
Qed.

(** After a number: not more digits, and no point before a digit. *)
Definition number_stop (rest : str) : Prop :=
  isIdentCont (head_char rest) = false /\ (head_char rest = "."%char -> isDigit (char_at rest 1) = false).

Lemma decimal_start src p c w rest st : drop p src = c :: w ++ rest -> Forall (fun c => isDigit c = true) (c :: w) ->
  isIdentCont (head_char rest) = false \/ head_char rest = "."%char -> pos st = S p ->
  lex_one src 0 false p (char_at src p) st = lexNumber src 0 p (set_pos p st) /\
  forall x, In x ["x"; "X"; "b"; "B"]%char -> eqc (peek src 0 p 1) x = false.
Proof.
  intros Hd Hw Hr Hst. inversion Hw as [|? ? Hc Hw']; subst.
  destruct (digit_facts c Hc) as (P1 & P2 & P3 & P4 & P5 & P6 & P7 & _). split.
  - unfold lex_one. rewrite (char_at_drop0 src p), Hd. change (char_at (c :: w ++ rest) 0) with c.
    by rewrite P1, P4, P5, P6, P7, Hc.
  - intros x Hx. rewrite peek_drop, Hd.
    assert (forall d, isIdentCont d = false \/ isDigit d = true \/ d = "."%char -> eqc d x = false) as Hd'.
    { intros d [H|[H| ->]]; [apply cont_facts in H|apply digit_facts in H|]; cbn in Hx; destruct_or! Hx; subst; destruct_and?; done. }
    apply Hd'. destruct w as [|d w]; [by destruct Hr; auto|]. right. left. by inversion Hw'.
Qed.

Lemma lexes_int w rest : digit_run w -> number_stop rest -> lexes TkIntLiteral w rest.
Proof.
  intros [Hne Hw] [Hr Hdot]. destruct w as [|c w]; [done|].
  assert (isDigit c = true) as Hc by (by inversion Hw). destruct (digit_facts c Hc) as (_ & P2 & P3 & _).
  split; [exists c, w; split; [done|]; split; [done|]; by apply no_comment|]. intros src p st Hd Hst.
  destruct (decimal_start src p c w rest st Hd Hw (or_introl Hr) Hst) as [-> Hx].
  unfold lexNumber. cbn [pos set_pos]. rewrite !Hx by (cbn; auto). cbn [orb]. rewrite !andb_false_r.
  destruct (scan_digits src p (c :: w) rest (set_pos p st) Hd Hw Hr eq_refl) as [n ->]. cbn [pos set_pos].
  rewrite !peek_drop, (drop_app_add _ _ _ _ Hd). fold (head_char rest).
  replace (eqc (head_char rest) "." && isDigit (char_at rest 1)) with false.
  - by rewrite (make_front src _ p (c :: w) rest) by done.
  - symmetry. destruct (eqc (head_char rest) ".") eqn:E; [|done]. apply eqc_eq in E. by rewrite Hdot.
Qed.

Lemma lexes_float u v rest : digit_run u -> digit_run v -> isIdentCont (head_char rest) = false ->
  lexes TkFloatLiteral (u ++ "."%char :: v) rest.
Proof.
  intros [Hne Hu] [Hnv Hv] Hr. destruct u as [|c u]; [done|].
  assert (isDigit c = true) as Hc by (by inversion Hu). destruct (digit_facts c Hc) as (_ & P2 & P3 & _).
  split; [exists c, (u ++ "."%char :: v); split; [done|]; split; [done|]; by apply no_comment|]. intros src p st Hd Hst.
  rewrite <- app_assoc in Hd. cbn [app] in Hd.
  destruct (decimal_start src p c u ("."%char :: v ++ rest) st Hd Hu (or_intror eq_refl) Hst) as [-> Hx].
  unfold lexNumber. cbn [pos set_pos]. rewrite !Hx by (cbn; auto). cbn [orb]. rewrite !andb_false_r.
  destruct (scan_digits src p (c :: u) ("."%char :: v ++ rest) (set_pos p st) Hd Hu eq_refl eq_refl) as [n ->]. cbn [pos set_pos].
  pose proof (drop_app_add src (c :: u) ("."%char :: v ++ rest) p Hd) as Hd1. rewrite !peek_drop, Hd1.
  destruct v as [|d v]; [done|]. change (char_at ("."%char :: (d :: v) ++ rest) 0) with "."%char.
  change (char_at ("."%char :: (d :: v) ++ rest) 1) with d.
  assert (isDigit d = true) as -> by (by inversion Hv). cbn [andb]. change (eqc "." ".") with true. cbv iota.
  pose proof (drop_app_add src ["."%char] ((d :: v) ++ rest) (p + length (c :: u)) Hd1) as Hd2.
  rewrite Nat.add_1_r in Hd2.
  destruct (scan_digits src _ (d :: v) rest (set_pos (S (p + length (c :: u))) (set_pos (p + length (c :: u)) (set_pos p st)))
              Hd2 Hv Hr eq_refl) as [n2 ->]. cbn [pos set_pos].
  replace (S (p + length (c :: u)) + length (d :: v)) with (p + length ((c :: u) ++ "."%char :: d :: v))
    by (rewrite length_app; cbn; lia).
  by rewrite (make_front src _ p ((c :: u) ++ "."%char :: d :: v) rest) by (done || (cbn; by rewrite <- app_assoc)).
Qed.

(** ** Strings *)

(** A character that a string literal holds as it is. *)
Definition literal_char (q c : ascii) : Prop := c <> c_bslash /\ c <> c_nl /\ c <> q.

Lemma string_loop_front src q w rest p f : drop p src = w ++ q :: rest -> Forall (literal_char q) w -> q <> c_bslash ->
  q <> c_nl -> length w < f -> string_loop src 0 f q p = (true, p + length w + 1).
Proof.
  intros Hd Hw Hq1 Hq2. revert p f Hd. induction Hw as [|c w (H1 & H2 & H3) Hw IH]; intros p f Hd Hf;
    (destruct f as [|f]; [cbn in Hf; lia|]); cbn [string_loop];
    (assert (p < length src) as Hp by (by eapply drop_cons_lt));
    (replace (atEnd src 0 p) with false by (symmetry; apply atEnd_false; rewrite full_end; lia)); rewrite peek_drop, Hd.
  - change (char_at ([] ++ q :: rest) 0) with q. rewrite (proj2 (eqc_neq _ _) Hq1), (proj2 (eqc_neq _ _) Hq2), eqc_refl.
    f_equal. cbn. lia.
  - change (char_at ((c :: w) ++ q :: rest) 0) with c. rewrite (proj2 (eqc_neq _ _) H1), (proj2 (eqc_neq _ _) H2), (proj2 (eqc_neq _ _) H3).
    rewrite IH; [cbn; f_equal; lia| |cbn in Hf; lia]. rewrite <- Nat.add_1_r. by apply (drop_app_add src [c]).
Qed.

Lemma lexes_string_plain q w rest : q = c_quote \/ q = "'"%char -> w <> [] -> Forall (literal_char q) w ->
  lexes TkStringLiteral (q :: w ++ [q]) rest.
Proof.
  intros Hq Hne Hw.
  assert (punct q = None /\ is_blank q = false /\ q <> "/"%char /\ q <> c_bslash /\ q <> c_nl /\
          (eqc q c_quote || eqc q "'") = true) as (P1 & P2 & P3 & P4 & P5 & P6) by (by destruct Hq as [-> | ->]).
  split; [exists q, (w ++ [q]); split; [done|]; split; [done|]; by apply no_comment|]. intros src p st Hd Hst.
  cbn [app] in Hd. rewrite <- app_assoc in Hd. cbn [app] in Hd.
  unfold lex_one. rewrite (char_at_drop0 src p), Hd. change (char_at (q :: w ++ q :: rest) 0) with q. rewrite P1, P6.
  pose proof (drop_app_add src [q] (w ++ q :: rest) p Hd) as Hd1. cbn [length] in Hd1.
  destruct w as [|c w]; [done|]. rewrite Hst, <- Nat.add_1_r, !peek_drop, Hd1.
  change (char_at ((c :: w) ++ q :: rest) 0) with c.
  assert (c <> q) as Hcq by (by inversion Hw as [|? ? (_ & _ & ?)]). rewrite (proj2 (eqc_neq _ _) Hcq). cbn [andb].
  unfold lexString, finish_quoted. rewrite Hst, <- Nat.add_1_r.
  rewrite (string_loop_front src q (c :: w) rest (p + 1)) by (done || (unfold loop_fuel; rewrite full_end, Hst;
    apply (f_equal length) in Hd1; rewrite length_drop, length_app in Hd1; cbn in *; lia)).
  replace (p + 1 + length (c :: w) + 1) with (p + length (q :: (c :: w) ++ [q])) by (cbn; rewrite length_app; cbn; lia).
  by rewrite (make_front src _ p (q :: (c :: w) ++ [q]) rest) by (done || (cbn; by rewrite <- app_assoc)).
Qed.
