(* ===== verification/Ast.v ===== *)
(** * The syntax tree

    Models [src/core/Ast.hpp]: type references, expressions, statements and
    declarations, with the fields the parser fills.  The C++ nodes are one
    struct per family with a [kind] tag and the union of all fields; here the
    tag is a constructor and carries the fields its kind uses, and what any
    node may carry (its span, an argument label, the [comptime] mark, explicit
    type arguments; a statement's access, name, label and attributes) stays on
    the node.  A [unique_ptr] that the parser can leave null is an [option].
    Fields that later passes fill (resolved symbols, checked kinds, scopes) are
    not part of what the parser returns and are left out. *)

From S2P Require Import Prelude Token.

Inductive Access := AccDefault | AccPublic | AccPrivate.

(** ** Types *)

Inductive TypeRef : Type :=
| TNamed (sp : SourceSpan) (path : list str) (name : str) (generics : list TypeRef)
         (holeBind holeField : str)
| TUnion (sp : SourceSpan) (members : list TypeRef)
| TInferred (sp : SourceSpan)
| TFunction (sp : SourceSpan) (funcParams : list TypeRef) (funcRet : TypeRef).

Definition tspan (t : TypeRef) : SourceSpan :=
  match t with TNamed sp _ _ _ _ _ | TUnion sp _ | TInferred sp | TFunction sp _ _ => sp end.

(** ** Rules: the parts that hold no syntax *)

Inductive AnchorKind :=
| CtorTop | CtorBottom | MemberOf | BodyTop | BodyBottom | Marker | NamespaceScope
| SpliceSite | BodyReplace | BodyGenerate.

(** [Selector]: a label, or the source text between the parentheses of a
    symbolic member. *)
Record Selector := MkSelector { symbolic : bool; sel_text : str }.

(** The boolean fields of a member. *)
Record MemberFlags := MkFlags {
  isCtor : bool; isGet : bool; isSet : bool; isMutating : bool; distinct : bool;
  m_isConst : bool; isReadonly : bool; isWeak : bool; callable : bool
}.

Record ClassFlags := MkClassFlags { isInterface : bool; isValue : bool; isAttribute : bool }.

(** The fields of a string literal node beside its text. *)
Record StringFlags := MkString {
  isRawSegment : bool; isQuasiPayload : bool; isRawString : bool; singleQuoted : bool
}.

(** ** Expressions, statements and declarations *)

Inductive Expr : Type :=
| MkExpr (sp : SourceSpan) (argLabel : str) (isComptime : bool) (explicitTypeArgs : list TypeRef)
         (node : ExprNode)

with ExprNode : Type :=
| EIntLit (text : str)
| EFloatLit (text : str)
| EStringLit (text : str) (flags : StringFlags)
| EBoolLit (text : str)
| EName (text : str)
| EThis
| EMember (base : Expr) (colon optChain : bool) (text : str)
| ECall (callee : Expr) (isMacroCall : bool) (args : list Expr)
| EIndex (base index : Expr)
| EUnary (op : TokenKind) (operand : Expr)
| EBinary (op : TokenKind) (lhs rhs : Expr)
| ETernary (cond yes no : Expr)
| EArray (elems : list Expr)
| ELambda (params : list Param) (body : Body)
| EAwait (operand : Expr)
| EInject (type : TypeRef)
| EExtract (stream : Expr)
| ERange (low high : Expr)
| EIs (subject : Expr) (type : TypeRef)
| EMatch (subject : Expr) (arms : list MatchArm)
| EForSplice (var : str) (iter elem : Expr)
| EForkSplice (cond yes : Expr) (no : option Expr)

(** A lambda's or an arm's body: [=> expr] or [=> { block }]. *)
with Body : Type :=
| BExpr (e : Expr)
| BBlock (b : Stmt)

with Param : Type :=
| MkParam (type : option TypeRef) (name : str) (isConst : bool) (sp : SourceSpan)
          (defaultValue : option Expr)

with ArmPattern : Type :=
| PElse
| PType (t : TypeRef)
| PValue (e : Expr)

with MatchArm : Type :=
| MkArm (pat : ArmPattern) (body : Body) (sp : SourceSpan)

with AttrUse : Type :=
| MkAttr (path : list str) (name : str) (args : list Expr) (sp : SourceSpan)

with CatchClause : Type :=
| MkCatch (type : TypeRef) (name : str) (body : option Stmt)

with RuleLevel : Type :=
| MkLevel (kindWord bind : str) (constraint : option TypeRef) (sp : SourceSpan)

with RuleMatch : Type :=
| MkMatch (one hasAttr : bool) (attrPath : list str) (attrName attrBind : str)
          (subject : RuleLevel) (enclosers : list RuleLevel) (where_ : option Expr) (sp : SourceSpan)

with RuleAction : Type :=
| MkAction (anchor : AnchorKind) (target markerName : str) (spliceMulti : bool)
           (tmplStmts tmplMembers : list Stmt) (tmplExpr : option Expr) (quasiSpan sp : SourceSpan)

with Stmt : Type :=
| MkStmt (sp : SourceSpan) (access : Access) (name label : str) (attrs : list AttrUse)
         (isComptime : bool) (node : StmtNode)

with StmtNode : Type :=
| SNamespace (body : list Stmt)
| SClass (flags : ClassFlags) (nameSynthArgs : option (list Expr)) (generics : list str)
         (bases : list TypeRef) (body : list Stmt)
| SMember (flags : MemberFlags) (selector : Selector) (nameSynthArgs : option (list Expr))
          (type : option TypeRef) (generics : list str) (params : list Param)
          (memberBody : option Stmt) (init : option Expr)
| SBind (type : option TypeRef) (memberBody : option Stmt) (init : option Expr)
| SEnum (carrier : option TypeRef) (body : list Stmt)
| SRule (ruleRewrites ruleGenerates ruleReentrant : bool) (rewritesTarget : str)
        (ruleMatch : RuleMatch) (ruleActions : list RuleAction)
| SMacro (isProceduralMacro : bool) (generics : list str) (memberBody : option Stmt)
         (ruleActions : list RuleAction)
| SVar (isConst inferred isUsing : bool) (type : option TypeRef) (init : option Expr)
| SBlock (body : list Stmt)
| SExprStmt (expr : Expr)
| SReturn (expr : option Expr)
| SIf (cond : Expr) (thenBranch elseBranch : option Stmt)
| SWhile (cond : Expr) (body : option Stmt)
| SFor (forInit : option Stmt) (cond forStep : option Expr) (body : option Stmt)
| SForIn (isConst inferred : bool) (type : option TypeRef) (iter : Expr) (body : option Stmt)
| SUse (path : list str)
| SUsesImport (path : list str)
| STry (body : option Stmt) (catches : list CatchClause)
| SThrow (expr : Expr)
| SEmpty (isSpliceSite : bool)
| SBreak
| SContinue
| SDoWhile (body : option Stmt) (cond : Expr)
| SForSplice (iter : Expr) (body : option Stmt)
| SForkSplice (cond : Expr) (thenBranch elseBranch : option Stmt).

Record Program := MkProgram { items : list Stmt; hasMeta : bool }.

(** ** Access to the common fields *)

Definition espan (e : Expr) : SourceSpan := match e with MkExpr sp _ _ _ _ => sp end.
Definition enode (e : Expr) : ExprNode := match e with MkExpr _ _ _ _ n => n end.
Definition explicitTypeArgs (e : Expr) : list TypeRef := match e with MkExpr _ _ _ ts _ => ts end.
Definition snode (s : Stmt) : StmtNode := match s with MkStmt _ _ _ _ _ _ n => n end.
Definition sspan (s : Stmt) : SourceSpan := match s with MkStmt sp _ _ _ _ _ _ => sp end.

(** [mkExpr], [mkStmt]: a node whose other fields have their initial values. *)
Definition mkExpr (sp : SourceSpan) (n : ExprNode) : Expr := MkExpr sp [] false [] n.
Definition mkStmt (sp : SourceSpan) (n : StmtNode) : Stmt := MkStmt sp AccDefault [] [] [] false n.

(** The assignments the parser makes to a finished node. *)
Definition set_argLabel (l : str) (e : Expr) : Expr :=
  match e with MkExpr sp _ c ts n => MkExpr sp l c ts n end.
Definition set_comptime (e : Expr) : Expr :=
  match e with MkExpr sp l _ ts n => MkExpr sp l true ts n end.
Definition set_typeArgs (ts : list TypeRef) (e : Expr) : Expr :=
  match e with MkExpr sp l c _ n => MkExpr sp l c ts n end.
Definition set_label (l : str) (s : Stmt) : Stmt :=
  match s with MkStmt sp a n _ at_ c k => MkStmt sp a n l at_ c k end.
Definition set_attrs (at_ : list AttrUse) (s : Stmt) : Stmt :=
  match s with MkStmt sp a n l _ c k => MkStmt sp a n l at_ c k end.
Definition set_scomptime (s : Stmt) : Stmt :=
  match s with MkStmt sp a n l at_ _ k => MkStmt sp a n l at_ true k end.

Definition is_empty_stmt (s : Stmt) : bool := match snode s with SEmpty _ => true | _ => false end.
Definition is_match (e : Expr) : bool := match enode e with EMatch _ _ => true | _ => false end.
Definition is_name_or_member (e : Expr) : bool :=
  match enode e with EName _ | EMember _ _ _ _ => true | _ => false end.
