(* ===== verification/Cursor.v ===== *)
(** * The parser's state, its token cursor and its lookahead

    Models the class [Parser] of [src/frontend/Parser.hpp] up to its grammar:
    the data members, the cursor ([peek] .. [synchronize]) and the scans that
    decide between two productions without consuming tokens ([skipAngles] ..
    [looksLikeVarDecl] of [Parser.cpp], [skipTypeLA] and [looksLikeLambda] of
    [ParserExpr.cpp]).

    A parsing function is a computation [P A] over the members [tokens_],
    [pos_], [sawMeta_] and the shared diagnostic sink.  It can throw, where the
    source calls [std::string_view::substr] past the end, and it can run out of
    the model's recursion bound.  A scan over [tokens_] from an index is written
    on the list of tokens from that index on, and returns the list at which the
    source's index ends. *)

From S2P Require Import Prelude Token Lexer Ast.

Record PState := MkP {
  tokens_ : list Token; pos_ : nat; sink_ : DiagnosticSink; sawMeta_ : bool
}.

Inductive PRes (A : Type) : Type :=
| POk (a : A) (st : PState)
| PThrow                        (* std::out_of_range leaves the parser *)
| PFuel.                        (* the model's recursion bound was reached *)
Arguments POk {A} a st.
Arguments PThrow {A}.
Arguments PFuel {A}.

Definition P (A : Type) : Type := PState -> PRes A.

Definition ret {A} (a : A) : P A := fun st => POk a st.
Definition bind {A B} (p : P A) (k : A -> P B) : P B := fun st =>
  match p st with POk a st' => k a st' | PThrow => PThrow | PFuel => PFuel end.
Definition gets {A} (f : PState -> A) : P A := fun st => POk (f st) st.
Definition modify (f : PState -> PState) : P unit := fun st => POk tt (f st).
Definition throw {A} : P A := fun _ => PThrow.

Declare Scope parser_scope.
Delimit Scope parser_scope with parser.
Notation "'let!' x ':=' p 'in' k" := (bind p (fun x => k))
  (at level 10, x pattern, p at level 100, k at level 200) : parser_scope.
Notation "p ;; k" := (bind p (fun _ => k)) (at level 100, right associativity) : parser_scope.
Open Scope parser_scope.

(** ** The cursor *)

Definition end_token : Token := MkToken TkEnd (Span 0 0) [].

Definition peek (ahead : nat) (st : PState) : Token :=
  match tokens_ st !! (pos_ st + ahead) with
  | Some t => t
  | None => List.last (tokens_ st) end_token
  end.

Definition cur (st : PState) : Token := peek 0 st.
Definition at_ (k : TokenKind) (st : PState) : bool := kind_eqb (kind (cur st)) k.
Definition atEnd (st : PState) : bool := at_ TkEnd st.
Definition peek_is (ahead : nat) (k : TokenKind) (st : PState) : bool :=
  kind_eqb (kind (peek ahead st)) k.

(** [at(TokenKind::Identifier) && cur().text == word]. *)
Definition at_word (word : string) (st : PState) : bool :=
  at_ TkIdentifier st && eqs (text (cur st)) (lit word).

Definition step_pos (st : PState) : PState :=
  if (S (pos_ st) <? length (tokens_ st))%nat
  then MkP (tokens_ st) (S (pos_ st)) (sink_ st) (sawMeta_ st) else st.
Definition advance : P unit := modify step_pos.

Definition sinkError (sp : SourceSpan) (m : string) : P unit :=
  modify (fun st => MkP (tokens_ st) (pos_ st) (sink_error sp (lit m) (sink_ st)) (sawMeta_ st)).
Definition error (m : string) : P unit :=
  let! t := gets cur in sinkError (span t) ("expected " +:+ m).
Definition setMeta : P unit :=
  modify (fun st => MkP (tokens_ st) (pos_ st) (sink_ st) true).

Definition when_at (k : TokenKind) (yes no : P bool) : P bool :=
  let! b := gets (at_ k) in if b then yes else no.

Definition accept (k : TokenKind) : P bool := when_at k (advance ;; ret true) (ret false).
Definition expect (k : TokenKind) (what : string) : P bool :=
  when_at k (advance ;; ret true) (error what ;; ret false).

(** [if (at(Identifier)) { x = cur().text; advance(); } else error(what);] *)
Definition identOr (what : string) : P str :=
  let! t := gets cur in
  if kind_eqb (kind t) TkIdentifier then advance ;; ret (text t) else error what ;; ret [].

(** The same without the error. *)
Definition identOpt : P str :=
  let! t := gets cur in
  if kind_eqb (kind t) TkIdentifier then advance ;; ret (text t) else ret [].

(** [if (at(Identifier) && cur().text == word) advance(); else error(what);] *)
Definition wordOr (word what : string) : P unit :=
  let! b := gets (at_word word) in if b then advance else error what.

Section Split.
Context (src : str).

(** [std::string_view(file_.text).substr(off, len)] *)
Definition source_substr (off len : nat) : P str :=
  if (length src <? off)%nat then throw else ret (substr src off len).

Definition expectGt : P bool :=
  let! st := gets id in
  if at_ TkGt st then advance ;; ret true
  else if at_ TkGtGt st then
    let t := cur st in
    let off := S (offset (span t)) in
    let! tx := source_substr off 1 in
    modify (fun st => MkP (<[pos_ st := MkToken TkGt (Span off 1) tx]> (tokens_ st))
                          (pos_ st) (sink_ st) (sawMeta_ st)) ;;
    ret true
  else error "'>'" ;; ret false.
End Split.

(** ** Loops

    What is left to read, in source bytes: the bound of every loop of the
    parser.  A token other than [End] counts at least one. *)

Definition weight (t : Token) : nat :=
  match kind t with TkEnd => 0 | _ => Nat.max 1 (length (text t)) end.
Definition weights (ts : list Token) : nat := sum_list_with weight ts.
Definition remaining (st : PState) : nat := weights (drop (pos_ st) (tokens_ st)).

Fixpoint loopN {A B} (n : nat) (body : A -> P (A + B)) (a : A) : P B :=
  match n with
  | 0 => fun _ => PFuel
  | S n' => let! r := body a in match r with inl a' => loopN n' body a' | inr b => ret b end
  end.

Definition loop {A B} (body : A -> P (A + B)) (a : A) : P B :=
  fun st => loopN (S (remaining st)) body a st.

(** [do { xs.push_back(item) } while (accept(Comma));] *)
Definition commaList {A} (item : P A) : P (list A) :=
  loop (fun acc => let! x := item in
                   let! more := accept TkComma in
                   ret (if more then inl (acc ++ [x]) else inr (acc ++ [x]))) [].

(** [while (cond) advance();] for a condition that fails at the end. *)
Definition skipWhile (cond : PState -> bool) : P unit :=
  loop (fun _ => let! b := gets cond in
                 if b then advance ;; ret (inl tt) else ret (inr tt)) tt.

Definition syncStop (k : TokenKind) : bool :=
  match k with
  | TkRBrace | TkKwClass | TkKwStruct | TkKwInterface | TkKwEnum | TkKwNamespace | TkKwPublic
  | TkKwPrivate | TkKwNew => true
  | _ => false
  end.

Definition synchronize : P unit :=
  loop (fun _ =>
    let! st := gets id in
    if atEnd st then ret (inr tt)
    else let! semi := accept TkSemicolon in
         if semi then ret (inr tt)
         else if syncStop (kind (cur st)) then ret (inr tt)
         else advance ;; ret (inl tt)) tt.

(** ** Token classes *)

Definition isContextualName (k : TokenKind) : bool :=
  match k with
  | TkKwGet | TkKwSet | TkKwIs | TkKwIn | TkKwUse | TkKwUses | TkKwNew | TkKwBind | TkKwInject => true
  | _ => false
  end.

Definition canStartExpr (k : TokenKind) : bool :=
  match k with
  | TkIdentifier | TkIntLiteral | TkFloatLiteral | TkStringLiteral | TkRawStringLiteral | TkLParen
  | TkLBracket | TkBang | TkMinus | TkTilde | TkKwThis | TkKwAwait | TkKwInject | TkKwMatch
  | TkKwTrue | TkKwFalse => true
  | _ => false
  end.

Definition nextStartsExpr (ahead : nat) (st : PState) : bool := canStartExpr (kind (peek ahead st)).

Definition isDeclKindTok (t : Token) : bool :=
  match kind t with
  | TkIdentifier | TkKwClass | TkKwStruct | TkKwInterface | TkKwNamespace => true
  | _ => false
  end.

(** ** Lookahead over types *)

Definition from_pos (n : nat) (st : PState) : list Token := drop (pos_ st + n) (tokens_ st).
Definition head_is (k : TokenKind) (ts : list Token) : bool :=
  match ts with t :: _ => kind_eqb (kind t) k | [] => false end.

Fixpoint skipAngles (depth : Z) (ts : list Token) : list Token :=
  match ts with
  | [] => []
  | t :: ts' =>
      match kind t with
      | TkLt => skipAngles (depth + 1) ts'
      | TkGt => if (depth - 1 =? 0)%Z then ts' else skipAngles (depth - 1) ts'
      | TkGtGt => if (depth - 2 <=? 0)%Z then ts' else skipAngles (depth - 2) ts'
      | TkEnd => ts
      | _ => skipAngles depth ts'
      end
  end.

(** [::Name] segments. *)
Fixpoint skipQualified (ts : list Token) : list Token :=
  match ts with
  | a :: (b :: ts') =>
      if kind_eqb (kind a) TkColonColon && kind_eqb (kind b) TkIdentifier then skipQualified ts' else ts
  | _ => ts
  end.

Definition skipOne (k : TokenKind) (ts : list Token) : list Token :=
  if head_is k ts then tail ts else ts.

(** What follows a type's first identifier, up to the next [|]. *)
Definition skipTypeTail (ts : list Token) : list Token :=
  let ts1 := skipQualified ts in
  skipOne TkQuestion (if head_is TkLt ts1 then skipAngles 0 ts1 else ts1).

Fixpoint skipUnion (n : nat) (ts : list Token) : list Token :=
  match n with
  | 0 => ts
  | S n' =>
      if head_is TkPipe ts then
        let ts1 := tail ts in
        if head_is TkIdentifier ts1 then skipUnion n' (skipTypeTail (tail ts1)) else ts1
      else ts
  end.

Definition skipTypeSuffix (ts : list Token) : list Token :=
  let ts1 := skipTypeTail ts in skipUnion (length ts1) ts1.

(** The scan over [( ... )]: [None] at an [End] token or when the list ends. *)
Fixpoint skipParens (depth : nat) (ts : list Token) : option (list Token) :=
  match ts with
  | [] => None
  | t :: ts' =>
      match kind t with
      | TkLParen => skipParens (S depth) ts'
      | TkRParen => match depth with
                    | 1 => Some ts'
                    | _ => skipParens (pred depth) ts'
                    end
      | TkEnd => None
      | _ => skipParens depth ts'
      end
  end.

(** [!text.empty() && text[0] == '$'] *)
Definition is_hole (s : str) : bool := match s with c :: _ => eqc c "$" | [] => false end.

(** The list after a whole type, or [None] where the source returns its
    argument unchanged.  After an arrow the result is what the recursive call
    returns, moved or not. *)
Fixpoint skipTypeFull (n : nat) (ts : list Token) : option (list Token) :=
  match n, ts with
  | S n', t :: ts' =>
      match kind t with
      | TkLParen =>
          match skipParens 0 ts with
          | Some rest => if head_is TkArrow rest
                         then Some (default (tail rest) (skipTypeFull n' (tail rest))) else None
          | None => None
          end
      | TkIdentifier =>
          let hole := is_hole (text t) && head_is TkDot ts' && head_is TkIdentifier (tail ts') in
          Some (skipTypeSuffix (if hole then tail (tail ts') else ts'))
      | _ => None
      end
  | _, _ => None
  end.

(** [Type Name] followed by [=] or [;]. *)
Definition looksLikeVarDecl (st : PState) : bool :=
  let ts := from_pos 0 st in
  let after :=
    if at_ TkIdentifier st then
      let hole := is_hole (text (cur st)) && head_is TkDot (tail ts) && head_is TkIdentifier (tail (tail ts)) in
      Some (skipTypeSuffix (if hole then from_pos 3 st else from_pos 1 st))
    else if at_ TkLParen st then skipTypeFull (length ts) ts else None in
  match after with
  | Some (name :: next :: _) =>
      kind_eqb (kind name) TkIdentifier && (kind_eqb (kind next) TkEq || kind_eqb (kind next) TkSemicolon)
  | _ => false
  end.

(** ** Lookahead over lambda parameters *)

(** The [do] loop over a parenthesised group. *)
Fixpoint skipParensLA (depth : Z) (ts : list Token) : list Token :=
  match ts with
  | [] => []
  | t :: ts' =>
      let d := match kind t with TkLParen => depth + 1 | TkRParen => depth - 1 | _ => depth end%Z in
      if (0 <? d)%Z then skipParensLA d ts' else ts'
  end.

Fixpoint skipAnglesLA (depth : Z) (ts : list Token) : list Token :=
  match ts with
  | [] => []
  | t :: ts' =>
      let d := match kind t with TkLt => depth + 1 | TkGt => depth - 1 | TkGtGt => depth - 2 | _ => depth end%Z in
      if (d <=? 0)%Z then ts' else skipAnglesLA d ts'
  end.

Fixpoint skipQualifiedLA (ts : list Token) : option (list Token) :=
  match ts with
  | a :: ts' =>
      if kind_eqb (kind a) TkColonColon then
        match ts' with
        | b :: ts2 => if kind_eqb (kind b) TkIdentifier then skipQualifiedLA ts2 else None
        | [] => None
        end
      else Some ts
  | [] => Some []
  end.

Fixpoint skipTypeLA (n : nat) (ts : list Token) : option (list Token) :=
  match n, ts with
  | S n', t :: ts' =>
      match kind t with
      | TkLParen =>
          let rest := skipParensLA 0 ts in
          if head_is TkArrow rest then skipTypeLA n' (tail rest) else None
      | TkIdentifier =>
          match skipQualifiedLA ts' with
          | Some ts2 =>
              Some (skipOne TkQuestion (if head_is TkLt ts2 then skipAnglesLA 0 ts2 else ts2))
          | None => None
          end
      | _ => None
      end
  | _, _ => None
  end.

Definition typedParam (ts : list Token) : option (list Token) :=
  match skipTypeLA (length ts) ts with
  | Some rest => if head_is TkIdentifier rest then Some (tail rest) else None
  | None => None
  end.

Definition typedParamAhead (st : PState) : bool :=
  match typedParam (from_pos 0 st) with Some _ => true | None => false end.

(** The parameters, each [name] or [type name], up to the closing parenthesis. *)
Fixpoint lambdaParams (n : nat) (ts : list Token) : option (list Token) :=
  match n with
  | 0 => None
  | S n' =>
      let after := match typedParam ts with
                   | Some r => Some r
                   | None => if head_is TkIdentifier ts then Some (tail ts) else None
                   end in
      match after with
      | Some r => if head_is TkComma r then lambdaParams n' (tail r) else Some r
      | None => None
      end
  end.

Definition looksLikeLambdaAt (ts : list Token) : bool :=
  if head_is TkLParen ts then
    let ts1 := tail ts in
    if head_is TkRParen ts1 then head_is TkArrow (tail ts1)
    else match lambdaParams (length ts1) ts1 with
         | Some r => head_is TkRParen r && head_is TkArrow (tail r)
         | None => false
         end
  else false.

Definition looksLikeLambda (st : PState) : bool := looksLikeLambdaAt (from_pos 0 st).

(** [for (]: [in] before any [;] at parenthesis depth 0. *)
Fixpoint forInAhead (depth : nat) (ts : list Token) : bool :=
  match ts with
  | [] => false
  | t :: ts' =>
      match kind t with
      | TkLParen => forInAhead (S depth) ts'
      | TkRParen => match depth with 0 => false | S d => forInAhead d ts' end
      | TkSemicolon => if (depth =? 0)%nat then false else forInAhead depth ts'
      | TkKwIn => if (depth =? 0)%nat then true else forInAhead depth ts'
      | TkEnd => false
      | _ => forInAhead depth ts'
      end
  end.

(** [Ident :] before a loop keyword. *)
Definition labeledLoopAhead (st : PState) : bool :=
  at_ TkIdentifier st && peek_is 1 TkColon st &&
  (peek_is 2 TkKwWhile st || peek_is 2 TkKwFor st || peek_is 2 TkKwDo st).

(** The generic head of a [match] arm: [A::B<]. *)
Fixpoint qualifiedHeadIsGeneric (ts : list Token) : bool :=
  match ts with
  | a :: b :: ts' =>
      if kind_eqb (kind a) TkIdentifier && kind_eqb (kind b) TkColonColon then qualifiedHeadIsGeneric ts'
      else kind_eqb (kind a) TkIdentifier && kind_eqb (kind b) TkLt
  | _ => false
  end.
