(* ===== verification/LexerRange.v ===== *)
(** * Lexing a range of a file

    The parser re-lexes the holes of string literals and the payloads of
    quasiquotes with [Lexer::tokenizeRange].  Inside a file that lexer returns
    for every range: it cannot run past the end of the text, its tokens are
    slices of the file, and together they are no longer than the range (plus
    one byte, when the range ends in a backslash). *)

From S2P Require Import Prelude Token Lexer LexerFacts Ast Cursor.

(** What the parser relies on in a token: its text is the slice its span names,
    and the kinds it cuts into have two characters to cut. *)
Definition cut_kind (k : TokenKind) : bool :=
  match k with TkStringLiteral | TkRawStringLiteral | TkGtGt => true | _ => false end.

Definition tok_wf (src : str) (t : Token) : Prop :=
  span_end (span t) <= length src /\
  text t = substr src (offset (span t)) (slength (span t)) /\
  (cut_kind (kind t) = true -> 2 <= slength (span t)).

Definition toks_wf (src : str) (ts : list Token) : Prop :=
  exists init e, ts = init ++ [e] /\ kind e = TkEnd /\
    Forall (fun t => kind t <> TkEnd) init /\ Forall (tok_wf src) ts.

Lemma tok_wf_length src t : tok_wf src t -> length (text t) = slength (span t).
Proof. intros (H & -> & _). unfold span_end in H. by rewrite length_substr by lia. Qed.

Lemma toks_wf_cons src t ts :
  kind t <> TkEnd -> tok_wf src t -> toks_wf src ts -> toks_wf src (t :: ts).
Proof.
  intros Hk Ht (init & e & -> & He & Hi & Hf). exists (t :: init), e.
  repeat split; [done|by constructor|by constructor].
Qed.

Lemma toks_wf_end src e : kind e = TkEnd -> tok_wf src e -> toks_wf src [e].
Proof. intros Hk He. exists [], e. repeat split; [done|constructor|by constructor]. Qed.

(** ** The two-character tokens *)

Definition two_chars (start : nat) (r : option Token * LexState) : Prop :=
  forall t, r.1 = Some t -> cut_kind (kind t) = true -> start + 2 <= pos r.2.

Lemma make_kind src k start p t : make src k start p = Some t -> kind t = k.
Proof. unfold make. case_match; intros; by simplify_eq. Qed.

Lemma two_chars_make src k start p st :
  cut_kind k = false -> two_chars start (make src k start p, st).
Proof. intros H1 t Ht Hk. apply make_kind in Ht. rewrite Ht in Hk. congruence. Qed.

Lemma two_chars_if (b : bool) start r1 r2 :
  two_chars start r1 -> two_chars start r2 -> two_chars start (if b then r1 else r2).
Proof. by destruct b. Qed.

(** A literal whose closing quote was found. *)
Lemma two_chars_quoted src k msg start r st :
  (r.1 = true -> start + 2 <= r.2) -> two_chars start (finish_quoted src k msg start r st).
Proof.
  intros Hr. destruct r as [[] p]; cbn in *; [|by apply two_chars_make]. intros t _ _. cbn. auto.
Qed.

Lemma two_chars_one_of src limit alts k start st :
  cut_kind k = false -> start + 1 <= pos st -> two_chars start (one_of src limit alts k start st).
Proof.
  intros H1 Hp. induction alts as [|[c k'] alts IH]; cbn; [by apply two_chars_make|].
  case_match; [|done]. intros t Ht _. cbn. lia.
Qed.

Lemma punct_plain c alts k : punct c = Some (alts, k) -> cut_kind k = false.
Proof. each_char c; cbn; intros; by simplify_eq. Qed.

Lemma keywordKind_plain w : cut_kind (keywordKind w) = false.
Proof.
  unfold keywordKind. destruct (table_find w keywordTable) as [k|] eqn:E; [|done].
  assert (In k (map snd keywordTable)) as Hin.
  { revert E. generalize keywordTable. intros l. induction l as [|[w' k'] l IH]; cbn; [done|].
    case_match; intros; simplify_eq; auto. }
  cbn in Hin. repeat destruct Hin as [<-|Hin]; try done.
Qed.

Lemma string_loop_closed src limit q f p p' : string_loop src limit f q p = (true, p') -> p < p'.
Proof.
  revert p. induction f as [|f IH]; intros p; cbn [string_loop]; [done|].
  repeat case_match; intros E; simplify_eq; try (apply IH in E); lia.
Qed.

Lemma raw_loop_closed src limit q f p p' : raw_loop src limit f q p = (true, p') -> p < p'.
Proof.
  revert p. induction f as [|f IH]; intros p; cbn [raw_loop]; [done|].
  repeat case_match; intros E; simplify_eq; try (apply IH in E); lia.
Qed.

Lemma triple_loop_closed src limit q f p p' : triple_loop src limit f q p = (true, p') -> p < p'.
Proof.
  revert p. induction f as [|f IH]; intros p; cbn [triple_loop]; [done|].
  repeat case_match; intros E; simplify_eq; try (apply IH in E); lia.
Qed.

Lemma quasi_loop_closed src limit f p p' : quasi_loop src limit f p = (true, p') -> p < p'.
Proof.
  revert p. induction f as [|f IH]; intros p; cbn [quasi_loop]; [done|].
  repeat case_match; intros E; simplify_eq; try (apply IH in E); lia.
Qed.

Lemma lex_one_two src limit holes start c st :
  pos st = S start -> two_chars start (lex_one src limit holes start c st).
Proof.
  intros Hp. unfold lex_one. destruct (punct c) as [[alts k]|] eqn:E.
  { apply punct_plain in E. apply two_chars_one_of; auto; lia. }
  repeat apply two_chars_if; try (by apply two_chars_make).
  - apply two_chars_quoted. cbn [pos set_pos]. destruct (triple_loop _ _ _ _ _) as [[] p'] eqn:El; [|done].
    apply triple_loop_closed in El. cbn. lia.
  - apply two_chars_quoted. destruct (string_loop _ _ _ _ _) as [[] p'] eqn:El; [|done].
    apply string_loop_closed in El. cbn. lia.
  - apply two_chars_quoted. destruct (quasi_loop _ _ _ _) as [[] p'] eqn:El; [|done].
    apply quasi_loop_closed in El. cbn. lia.
  - apply two_chars_quoted. cbn [pos set_pos]. destruct (raw_loop _ _ _ _ _) as [[] p'] eqn:El; [|done].
    apply raw_loop_closed in El. cbn. lia.
  - apply two_chars_make, keywordKind_plain.
Qed.

(** ** The token loop over a range *)

Section Range.
Context (src : str) (limit : nat) (holes : bool) (Hlimit : limit <= length src).
Abbreviation lexEnd := (lex_end src limit).

(** There is a byte after the range, or it does not end in a backslash. *)
Context (Hroom : lexEnd < length src \/ ~ ends_in_bslash src limit).

Lemma over_inside q : over src limit q -> q <= length src.
Proof.
  pose proof (lex_end_le src limit Hlimit). intros [H1|(H1 & H2)]; [lia|].
  destruct Hroom as [Hr|Hr]; [lia|]. by destruct Hr.
Qed.

Lemma weight_ok t : kind t <> TkEnd -> weight t = Nat.max 1 (length (text t)).
Proof. unfold weight. by destruct (kind t). Qed.

Lemma end_wf p : p <= length src -> tok_wf src (MkToken TkEnd (Span p 0) []).
Proof.
  intros Hp. unfold tok_wf, span_end. cbn. rewrite substr_0. split_and!; [lia|done|done].
Qed.

Lemma tok_loop_range fuel st acc :
  over src limit (pos st) -> lexEnd - pos st < fuel ->
  exists ts s', tok_loop src limit holes fuel st acc = LexDone (acc ++ ts) s' /\
    toks_wf src ts /\ weights ts <= S lexEnd - pos st /\ sink_le (sink st) s'.
Proof.
  revert st acc. induction fuel as [|f IH]; intros st acc Ho Hf; [lia|].
  pose proof (lex_end_le src limit Hlimit) as Hle. cbn [tok_loop].
  destruct (decide (pos st <= lexEnd)) as [Hp|Hp].
  2:{ apply over_inside in Ho. rewrite skipTrivia_past by lia.
      replace (Lexer.atEnd src limit (pos st)) with true by (symmetry; apply atEnd_true; lia).
      rewrite make_ok by lia. eexists _, _. split; [done|]. rewrite Nat.sub_diag, substr_0.
      split; [|cbn; split; [lia|apply sink_le_refl]]. apply toks_wf_end; [done|]. by apply end_wf. }
  destruct (skip_loop_spec src limit Hlimit (S (lexEnd - pos st)) st Hp ltac:(lia)) as (H1 & H2 & _).
  fold (skipTrivia src limit st) in *. set (st1 := skipTrivia src limit st) in *.
  destruct (Lexer.atEnd src limit (pos st1)) eqn:Ea.
  - apply atEnd_true in Ea. rewrite make_ok by lia. eexists _, _. split; [done|].
    rewrite Nat.sub_diag, substr_0. split; [|cbn; split; [lia|done]].
    apply toks_wf_end; [done|]. apply end_wf. lia.
  - apply atEnd_false in Ea.
    pose proof (lex_one_ok src limit holes Hlimit (pos st1) (set_pos (S (pos st1)) st1) eq_refl Ea) as Hone.
    pose proof (lex_one_two src limit holes (pos st1) (char_at src (pos st1))
                  (set_pos (S (pos st1)) st1) eq_refl) as Htwo.
    destruct (lex_one _ _ _ _ _ _) as [ot st2]. unfold token_ok in Hone. cbn [sink set_pos] in Hone.
    destruct Hone as (K1 & K2 & K3 & t & -> & K4 & K5 & K6 & K7 & _). specialize (Htwo t eq_refl). cbn [fst snd] in Htwo.
    pose proof (over_inside _ K2) as Hin.
    destruct (IH st2 (acc ++ [t]) K2 ltac:(lia)) as (ts & s' & -> & Hwf & Hw & HS).
    exists (t :: ts), s'. rewrite <- app_assoc. split; [done|]. split; [|split].
    + apply toks_wf_cons; [done| |done]. unfold tok_wf, span_end. rewrite K4, K5.
      split_and!; [lia|done|]. intros Hk. apply Htwo in Hk. lia.
    + unfold weights in *. cbn [sum_list_with]. rewrite weight_ok by done.
      rewrite K6, length_substr by lia.
      assert (pos st2 <= S lexEnd) by (destruct K2 as [?|[-> _]]; lia). lia.
    + eapply sink_le_trans; [done|]. by eapply sink_le_trans.
Qed.
End Range.

(** [tokenizeRange] on a range that ends before the file does. *)
Lemma tokenizeRange_ok src holes begin stop s :
  begin <= stop -> 0 < stop < length src ->
  exists ts s', tokenizeRange src holes begin stop s = LexDone ts s' /\
    toks_wf src ts /\ weights ts <= S stop - begin /\ sink_le s s'.
Proof.
  intros Hb Hs. unfold tokenizeRange, tokenize_from.
  assert (lex_end src stop = stop) as E by (unfold lex_end; by destruct (Nat.eqb_spec stop 0); [lia|]).
  destruct (tok_loop_range src stop holes ltac:(lia) ltac:(left; lia) (S (lex_end src stop - begin))
              (MkLex begin s) [] ltac:(left; cbn; lia) ltac:(cbn; lia)) as (ts & s' & H1 & H2 & H3 & H4).
  exists ts, s'. cbn in *. rewrite E in *. done.
Qed.

(** [tokenize] on a file that does not end in a backslash. *)
Lemma tokenize_ok src holes s :
  ~ ends_in_bslash src 0 ->
  exists ts s', tokenize src holes s = LexDone ts s' /\ toks_wf src ts /\ sink_le s s'.
Proof.
  intros Hb. unfold tokenize, tokenize_from.
  destruct (tok_loop_range src 0 holes ltac:(lia) ltac:(by right) (S (lex_end src 0 - 0))
              (MkLex 0 s) [] ltac:(left; cbn; lia) ltac:(cbn; lia)) as (ts & s' & H1 & H2 & H3 & H4).
  exists ts, s'. done.
Qed.
