(* ===== verification/ParserExpr.v ===== *)
(** * The expression grammar

    Models the types part of [src/frontend/Parser.cpp] and
    [src/frontend/ParserExpr.cpp].  The grammar is mutually recursive; every
    function here takes the nonterminals it calls after it has consumed a token
    from a record [Rec], and [Parser.v] ties the knot. *)

From S2P Require Import Prelude Token Lexer Ast Cursor.

Inductive SpliceBody := BodyStmt | BodyItem | BodyMember.

(** The recursive nonterminals. *)
Record Rec := MkRec {
  rType : P TypeRef;
  rExpr : nat -> P Expr;
  rUnary : P Expr;
  rForkSpliceExpr : SourceSpan -> P Expr;
  rStatement : P (option Stmt);
  rFragmentStmt : SpliceBody -> P (option Stmt);
  rForkTail : SpliceBody -> SourceSpan -> P Stmt;
  rTopLevelItem : P (option Stmt)
}.

Section Grammar.
Context (src : str) (R : Rec).

(** ** Types *)

Definition wrapNullable (t : TypeRef) : P TypeRef :=
  let! q := accept TkQuestion in
  ret (if q then TUnion (tspan t) [t; TNamed (tspan t) [] (lit "None") [] [] []] else t).

(** The [::] segments after a type's first name. *)
Definition typePath (name : str) : P (list str * str) :=
  loop (fun acc : list str * str =>
    let '(path, name) := acc in
    let! q := gets (at_ TkColonColon) in
    if q then
      advance ;;
      let! t := gets cur in
      if kind_eqb (kind t) TkIdentifier then advance ;; ret (inl (path ++ [name], text t))
      else error "type name after '::'" ;; ret (inr (path ++ [name], name))
    else ret (inr (path, name))) ([], name).

Definition typeGenerics : P (list TypeRef) :=
  let! lt := accept TkLt in
  if lt then
    let! st := gets id in
    let! gs := if at_ TkGt st || at_ TkGtGt st then ret [] else commaList (rType R) in
    expectGt src ;; ret gs
  else ret [].

Definition parseTypeParen : P TypeRef :=
  let! lp := gets cur in
  advance ;;
  let! empty := gets (at_ TkRParen) in
  let! parts := if empty : bool then ret [] else commaList (rType R) in
  expect TkRParen "')'" ;;
  let! arrow := accept TkArrow in
  if arrow then
    let! r := rType R in wrapNullable (TFunction (span lp) parts r)
  else match parts with
       | [t] => wrapNullable t
       | _ => error "'=>' after a parenthesized parameter list" ;; ret (TNamed (span lp) [] [] [] [] [])
       end.

Definition parseTypeNamed : P TypeRef :=
  let! t := gets cur in
  let! name := identOr "type name" in
  let! st := gets id in
  if is_hole name && at_ TkDot st && peek_is 1 TkIdentifier st then
    advance ;;
    let! f := gets cur in
    advance ;;
    wrapNullable (TNamed (span t) [] name [] name (text f))
  else
    let! pn := typePath name in
    let! gs := typeGenerics in
    wrapNullable (TNamed (span t) pn.1 pn.2 gs [] []).

Definition parseTypePrimary : P TypeRef :=
  let! st := gets id in
  if at_ TkKwVar st || at_ TkKwLet st then advance ;; ret (TInferred (span (cur st)))
  else if at_ TkLParen st then parseTypeParen
  else parseTypeNamed.

Definition unionMembers (first : TypeRef) : P (list TypeRef) :=
  loop (fun acc =>
    let! more := accept TkPipe in
    if more then let! t := parseTypePrimary in ret (inl (acc ++ [t])) else ret (inr acc)) [first].

Definition parseType : P TypeRef :=
  let! first := parseTypePrimary in
  let! pipe := gets (at_ TkPipe) in
  if pipe then let! ms := unionMembers first in ret (TUnion (tspan first) ms) else ret first.

(** ** Operators *)

(** Binding power of an infix operator; 0 is not infix. *)
Definition infixBP (k : TokenKind) : nat :=
  match k with
  | TkEq | TkPlusEq | TkMinusEq | TkStarEq | TkSlashEq | TkPercentEq => 1
  | TkPipePipe | TkQuestionQuestion => 3
  | TkAmpAmp => 4
  | TkPipe | TkAmp | TkCaret => 5
  | TkEqEq | TkBangEq => 6
  | TkLt | TkGt | TkLe | TkGe => 7
  | TkLtLt | TkGtGt => 8
  | TkPlus | TkMinus => 9
  | TkStar | TkSlash | TkPercent => 10
  | _ => 0
  end.

Definition rightAssoc (k : TokenKind) : bool :=
  match k with
  | TkEq | TkPlusEq | TkMinusEq | TkStarEq | TkSlashEq | TkPercentEq => true
  | _ => false
  end.

(** ** Arguments *)

Definition labelAhead (st : PState) : bool := at_ TkIdentifier st && peek_is 1 TkColon st.

(** [label :] when one stands here; a positional argument after a named one is
    reported. *)
Definition argLabelOpt (sawNamed : bool) : P (str * bool) :=
  let! st := gets id in
  if labelAhead st then advance ;; advance ;; ret (text (cur st), true)
  else if sawNamed then
    sinkError (span (cur st)) "positional argument after named argument" ;; ret ([], sawNamed)
  else ret ([], sawNamed).

Definition argList (arg : P Expr) : P (list Expr) :=
  expect TkLParen "'('" ;;
  let! empty := gets (at_ TkRParen) in
  let! args :=
    if empty : bool then ret []
    else loop (fun acc : list Expr * bool =>
           let '(args, sawNamed) := acc in
           let! ls := argLabelOpt sawNamed in
           let! e := arg in
           let args' := args ++ [if (0 <? length ls.1)%nat then set_argLabel ls.1 e else e] in
           let! more := accept TkComma in
           ret (if more : bool then inl (args', ls.2) else inr args')) ([], false) in
  expect TkRParen "')'" ;; ret args.

Definition parseArgs : P (list Expr) := argList (rExpr R 0).

(** A backtick payload, kept byte for byte, or an expression. *)
Definition macroArg : P Expr :=
  let! t := gets cur in
  if kind_eqb (kind t) TkQuasiLiteral then
    let! tx := if (2 <=? slength (span t))%nat
               then source_substr src (S (offset (span t))) (slength (span t) - 2) else ret [] in
    advance ;; ret (mkExpr (span t) (EStringLit tx (MkString false true false false)))
  else rExpr R 0.

Definition parseMacroArgs : P (list Expr) := argList macroArg.

Definition parseExplicitTypeArgs : P (list TypeRef) :=
  advance ;; advance ;;
  let! st := gets id in
  let! args := if at_ TkGt st || at_ TkGtGt st then error "type argument after '<'" ;; ret []
               else commaList (rType R) in
  expectGt src ;; ret args.

(** ** Blocks, as used by lambdas and arms *)

(** The loop of a braced body: an element that consumed nothing is reported and
    skipped. *)
Definition bodyLoop (stop : PState -> bool) (elem : P (option Stmt)) (what : string) : P (list Stmt) :=
  loop (fun acc =>
    let! st := gets id in
    if stop st || atEnd st then ret (inr acc)
    else
      let! s := elem in
      let acc' := match s with Some s => acc ++ [s] | None => acc end in
      let! st' := gets id in
      if (pos_ st' =? pos_ st)%nat
      then error what ;; advance ;; synchronize ;; ret (inl acc') else ret (inl acc')) [].

Definition parseBlock : P Stmt :=
  let! t := gets cur in
  expect TkLBrace "'{'" ;;
  let! body := bodyLoop (at_ TkRBrace) (rStatement R) "statement" in
  expect TkRBrace "'}'" ;;
  ret (mkStmt (span t) (SBlock body)).

(** [if (at(LBrace)) block = parseBlock(); else a = parseExpr(0);] *)
Definition arrowBody : P Body :=
  let! b := gets (at_ TkLBrace) in
  if b then let! s := parseBlock in ret (BBlock s) else let! e := rExpr R 0 in ret (BExpr e).

(** ** Match *)

Definition valuePatternAhead (st : PState) : bool :=
  match kind (cur st) with
  | TkIntLiteral | TkFloatLiteral | TkStringLiteral | TkRawStringLiteral | TkKwTrue | TkKwFalse
  | TkMinus => true
  | TkIdentifier => peek_is 1 TkColonColon st && negb (qualifiedHeadIsGeneric (from_pos 0 st))
  | _ => false
  end.

Definition armPattern (parseExpr : nat -> P Expr) : P ArmPattern :=
  let! els := accept TkKwElse in
  if els then ret PElse
  else let! st := gets id in
       if valuePatternAhead st then let! e := parseExpr 2 in ret (PValue e)
       else let! t := parseType in ret (PType t).

Definition matchArm : P MatchArm :=
  let! t := gets cur in
  let! pat := armPattern (rExpr R) in
  expect TkArrow "'=>'" ;;
  let! body := arrowBody in
  accept TkSemicolon ;;
  accept TkComma ;;
  ret (MkArm pat body (span t)).

Definition parseMatch : P Expr :=
  let! t := gets cur in
  advance ;;
  expect TkLParen "'('" ;;
  let! subject := rExpr R 0 in
  expect TkRParen "')'" ;;
  expect TkLBrace "'{'" ;;
  let! arms := loop (fun acc =>
      let! st := gets id in
      if at_ TkRBrace st || atEnd st then ret (inr acc)
      else let! arm := matchArm in ret (inl (acc ++ [arm]))) [] in
  expect TkRBrace "'}'" ;;
  ret (mkExpr (span t) (EMatch subject arms)).

(** ** Lambdas and parentheses *)

Definition lambdaParam : P Param :=
  let! st := gets id in
  let! ty := if typedParamAhead st then let! t := parseType in ret (Some t) else ret None in
  let! name := identOpt in
  ret (MkParam ty name false (span (cur st)) None).

Definition parseParenOrLambda : P Expr :=
  let! st := gets id in
  advance ;;
  if looksLikeLambda st then
    let! empty := gets (at_ TkRParen) in
    let! ps := if empty : bool then ret [] else commaList lambdaParam in
    expect TkRParen "')'" ;;
    expect TkArrow "'=>'" ;;
    let! body := arrowBody in
    ret (mkExpr (span (cur st)) (ELambda ps body))
  else
    let! e := rExpr R 0 in
    expect TkRParen "')'" ;; ret e.

(** ** String interpolation *)

(** The scan for the brace that closes a hole: the index where it stops and
    whether the depth is still positive.  [inStr] is the open quote, or NUL. *)
Fixpoint holeScan (n : nat) (raw : str) (contentEnd j : nat) (depth : nat) (inStr : ascii) : nat * bool :=
  match n with
  | 0 => (j, true)
  | S n' =>
      if (j <? contentEnd)%nat then
        let c := char_at raw j in
        if negb (eqc inStr c_nul) then
          if eqc c c_bslash && (S j <? contentEnd)%nat then holeScan n' raw contentEnd (j + 2) depth inStr
          else holeScan n' raw contentEnd (S j) depth (if eqc c inStr then c_nul else inStr)
        else if eqc c c_quote || eqc c "'" then holeScan n' raw contentEnd (S j) depth c
        else if eqc c "{" then holeScan n' raw contentEnd (S j) (S depth) inStr
        else if eqc c "}" then
          match depth with
          | 1 => (j, false)
          | _ => holeScan n' raw contentEnd (S j) (pred depth) inStr
          end
        else holeScan n' raw contentEnd (S j) depth inStr
      else (j, true)
  end.

(** A parser over other tokens of the same file, sharing the sink; its own
    [sawMeta_] is dropped with it. *)
Definition subParse {A} (toks : list Token) (p : P A) : P A := fun st =>
  match p (MkP toks 0 (sink_ st) false) with
  | POk a st' => POk a (MkP (tokens_ st) (pos_ st) (sink_ st') (sawMeta_ st))
  | PThrow => PThrow
  | PFuel => PFuel
  end.

(** [Lexer(file_, sink_, holes).tokenizeRange(begin, end)] *)
Definition subLex (holes : bool) (begin stop : nat) : P (list Token) := fun st =>
  match tokenizeRange src holes begin stop (sink_ st) with
  | LexDone ts s => POk ts (MkP (tokens_ st) (pos_ st) s (sawMeta_ st))
  | LexThrow => PThrow
  | LexFuel => PFuel
  end.

Definition rawSegment (sp : SourceSpan) (tx : str) : Expr :=
  mkExpr sp (EStringLit tx (MkString true false false false)).

Definition pushSegment (t : Token) (segStart segEnd : nat) (pieces : list Expr) : list Expr :=
  if (segEnd <=? segStart)%nat then pieces
  else pieces ++ [rawSegment (span t) (substr (text t) segStart (segEnd - segStart))].

Definition toStringCall (hole : Expr) : Expr :=
  mkExpr (espan hole) (ECall (mkExpr (espan hole) (EMember hole false false (lit "toString"))) false []).

Definition parseHole (t : Token) (holeStart j : nat) (pieces : list Expr) : P (list Expr) :=
  let absStart := (offset (span t) + holeStart)%nat in
  let absEnd := (offset (span t) + j)%nat in
  let! toks := subLex false absStart absEnd in
  let! e := subParse toks (let! st := gets id in
                           if atEnd st then ret None else let! e := rExpr R 0 in ret (Some e)) in
  match e with
  | Some e => ret (pieces ++ [toStringCall e])
  | None => sinkError (Span absStart (absEnd - absStart)) "an expression in interpolation hole" ;; ret pieces
  end.

(** The loop over the literal's content from index [i]; the pieces, and the
    start of the last segment. *)
Fixpoint interpLoop (n : nat) (t : Token) (contentEnd i segStart : nat) (pieces : list Expr)
  : P (list Expr * nat) :=
  match n with
  | 0 => fun _ => PFuel
  | S n' =>
      let raw := text t in
      if (i <? contentEnd)%nat then
        let c := char_at raw i in
        if eqc c c_bslash && (S i <? contentEnd)%nat then interpLoop n' t contentEnd (i + 2) segStart pieces
        else if eqc c "$" && (S i <? contentEnd)%nat && eqc (char_at raw (S i)) "{" then
          let pieces1 := pushSegment t segStart i pieces in
          let holeStart := (i + 2)%nat in
          let '(j, open) := holeScan (S contentEnd - holeStart) raw contentEnd holeStart 1 c_nul in
          if open : bool then
            sinkError (Span (offset (span t) + i) (contentEnd - i)) "unterminated interpolation hole" ;;
            ret (pieces1, contentEnd)
          else
            let! pieces2 :=
              if (j =? holeStart)%nat then
                sinkError (Span (offset (span t) + i) (S j - i)) "empty interpolation hole '${}'" ;;
                ret pieces1
              else parseHole t holeStart j pieces1 in
            interpLoop n' t contentEnd (S j) (S j) pieces2
        else interpLoop n' t contentEnd (S i) segStart pieces
      else ret (pieces, segStart)
  end.

Definition quoteLen (raw : str) : nat :=
  let c := char_at raw 0 in
  if (6 <=? length raw)%nat && eqc c (char_at raw 1) && eqc (char_at raw 1) (char_at raw 2) &&
     (eqc c c_quote || eqc c "'") then 3 else 1.

Definition concatPieces (first : Expr) (rest : list Expr) : Expr :=
  fold_left (fun acc p => mkExpr (espan acc) (EBinary TkPlus acc p)) rest first.

(** [singleQuoted] on a literal that is one single-quoted segment. *)
Definition markSingleQuoted (e : Expr) : Expr :=
  match e with
  | MkExpr sp l c ts (EStringLit tx (MkString a b d _)) => MkExpr sp l c ts (EStringLit tx (MkString a b d true))
  | _ => e
  end.

Definition parseInterpolatedString (t : Token) : P Expr :=
  let raw := text t in
  let q := quoteLen raw in
  let contentEnd := (length raw - q)%nat in
  let! r := interpLoop (S (length raw)) t contentEnd q q [] in
  match pushSegment t r.2 contentEnd r.1 with
  | [] => ret (mkExpr (span t) (EStringLit [c_quote; c_quote] (MkString false false false false)))
  | [e] => ret (if (q =? 1)%nat && eqc (char_at raw 0) "'" then markSingleQuoted e else e)
  | e :: rest => ret (concatPieces e rest)
  end.

(** ** Template splices in an array literal *)

Definition parseForkBranchExpr : P Expr :=
  expect TkLBrace "'{'" ;;
  let! st := gets id in
  let! e := if at_word "$if" st then advance ;; rForkSpliceExpr R (span (cur st)) else rExpr R 0 in
  expect TkRBrace "'}'" ;; ret e.

Definition parseForkSpliceExpr (sp : SourceSpan) : P Expr :=
  expect TkLParen "'('" ;;
  let! a := rExpr R 0 in
  expect TkRParen "')'" ;;
  let! b := parseForkBranchExpr in
  let! st := gets id in
  let! c :=
    if at_word "$else" st then
      advance ;;
      let! kwif := gets (at_ TkKwIf) in
      let! e := if kwif then advance ;; rForkSpliceExpr R (span (cur st)) else parseForkBranchExpr in
      ret (Some e)
    else ret None in
  ret (mkExpr sp (EForkSplice a b c)).

Definition parseArrayElement : P Expr :=
  let! st := gets id in
  if at_word "$for" st then
    advance ;;
    let! var := identOr "a loop variable name" in
    expect TkKwIn "'in'" ;;
    let! a := rExpr R 0 in
    expect TkColon "':'" ;;
    let! st' := gets id in
    let! b := if at_word "$if" st' then advance ;; parseForkSpliceExpr (span (cur st')) else rExpr R 0 in
    ret (mkExpr (span (cur st)) (EForSplice var a b))
  else if at_word "$if" st then advance ;; parseForkSpliceExpr (span (cur st))
  else if at_word "$else" st then
    sinkError (span (cur st)) "$else without a preceding $if" ;; advance ;; rExpr R 0
  else rExpr R 0.

(** ** Primary, postfix, unary and infix expressions *)

Definition leaf (n : ExprNode) : P Expr :=
  let! t := gets cur in advance ;; ret (mkExpr (span t) n).

Definition parsePrimary : P Expr :=
  let! t := gets cur in
  match kind t with
  | TkIntLiteral => leaf (EIntLit (text t))
  | TkFloatLiteral => leaf (EFloatLit (text t))
  | TkStringLiteral => advance ;; parseInterpolatedString t
  | TkRawStringLiteral =>
      advance ;;
      if (length (text t) <? 2)%nat then throw
      else ret (mkExpr (span t) (EStringLit (substr (text t) 2 (length (text t) - 3))
                                            (MkString false false true false)))
  | TkKwTrue | TkKwFalse => leaf (EBoolLit (text t))
  | TkKwThis => leaf EThis
  | TkIdentifier => leaf (EName (text t))
  | TkKwAwait => advance ;; let! e := rUnary R in ret (mkExpr (span t) (EAwait e))
  | TkKwMatch => parseMatch
  | TkKwInject => advance ;; let! ty := parseType in ret (mkExpr (span t) (EInject ty))
  | TkLParen => parseParenOrLambda
  | TkLBracket =>
      advance ;;
      let! empty := gets (at_ TkRBracket) in
      let! es := if empty : bool then ret [] else commaList parseArrayElement in
      expect TkRBracket "']'" ;; ret (mkExpr (span t) (EArray es))
  | _ =>
      error "expression" ;;
      let! e := gets atEnd in
      (if e : bool then ret tt else advance) ;; ret (mkExpr (span t) (EName []))
  end.

(** One turn of the loop of [parsePostfix]: the base goes on, or is returned. *)
Definition postfixStep (base : Expr) : P (Expr + Expr) :=
  let! st := gets id in
  if at_ TkColonColon st && peek_is 1 TkLt st then
    let! targs := parseExplicitTypeArgs in
    let! call := gets (at_ TkLParen) in
    if call then
      let! args := parseArgs in
      ret (inl (set_typeArgs targs (mkExpr (espan base) (ECall base false args))))
    else ret (inl (set_typeArgs targs base))
  else if at_ TkDot st || at_ TkColonColon st || at_ TkQuestionDot st then
    advance ;;
    let! t := gets cur in
    let! name := if kind_eqb (kind t) TkIdentifier || isContextualName (kind t)
                 then advance ;; ret (text t) else error "member name" ;; ret [] in
    ret (inl (mkExpr (espan base) (EMember base (at_ TkColonColon st) (at_ TkQuestionDot st) name)))
  else if at_ TkLParen st then
    let! args := parseArgs in ret (inl (mkExpr (espan base) (ECall base false args)))
  else if at_ TkBang st && peek_is 1 TkLParen st && is_name_or_member base &&
          (length (explicitTypeArgs base) =? 0)%nat then
    setMeta ;; advance ;;
    let! args := parseMacroArgs in ret (inl (mkExpr (espan base) (ECall base true args)))
  else if at_ TkLBracket st then
    advance ;;
    let! b := rExpr R 0 in
    expect TkRBracket "']'" ;; ret (inl (mkExpr (espan base) (EIndex base b)))
  else ret (inr base).

Definition parsePostfix (base : Expr) : P Expr := loop postfixStep base.

Definition parseUnary : P Expr :=
  let! st := gets id in
  if at_ TkBang st || at_ TkMinus st || at_ TkTilde st then
    advance ;;
    let! e := rUnary R in ret (mkExpr (span (cur st)) (EUnary (kind (cur st)) e))
  else if at_word "comptime" st && nextStartsExpr 1 st then
    setMeta ;; advance ;;
    let! e := rExpr R 0 in ret (set_comptime e)
  else
    let! p := parsePrimary in parsePostfix p.

(** A binary operator, or the extraction [stream >>] with nothing after it. *)
Definition infixOp (minBP : nat) (k : TokenKind) (lhs : Expr) : P (Expr + Expr) :=
  let bp := infixBP k in
  if (bp =? 0)%nat || (bp <? minBP)%nat then ret (inr lhs)
  else
    advance ;;
    let! n := gets cur in
    if kind_eqb k TkGtGt && negb (canStartExpr (kind n))
    then ret (inl (mkExpr (espan lhs) (EExtract lhs)))
    else
      let! b := rExpr R (if rightAssoc k then bp else S bp) in
      ret (inl (mkExpr (espan lhs) (EBinary k lhs b))).

(** One turn of the loop of [parseExpr]. *)
Definition infixStep (minBP : nat) (lhs : Expr) : P (Expr + Expr) :=
  let! t := gets cur in
  let sp := espan lhs in
  match kind t with
  | TkQuestion =>
      if (2 <? minBP)%nat then ret (inr lhs)
      else
        advance ;;
        let! b := rExpr R 0 in
        expect TkColon "':'" ;;
        let! c := rExpr R 2 in
        ret (inl (mkExpr sp (ETernary lhs b c)))
  | TkKwIs =>
      if (6 <? minBP)%nat then ret (inr lhs)
      else advance ;; let! ty := parseType in ret (inl (mkExpr sp (EIs lhs ty)))
  | TkDotDot =>
      if (2 <? minBP)%nat then ret (inr lhs)
      else advance ;; let! b := rExpr R 9 in ret (inl (mkExpr sp (ERange lhs b)))
  | k => infixOp minBP k lhs
  end.

Definition parseExpr (minBP : nat) : P Expr :=
  let! lhs := parseUnary in loop (infixStep minBP) lhs.

End Grammar.
