(* ===== verification/Parser.v ===== *)
(** * Statements, declarations and the metaprogramming surface

    Models the rest of [src/frontend/Parser.cpp] and
    [src/frontend/ParserMeta.cpp], and ties the recursion of the grammar.  A
    nonterminal that the source calls before any token was consumed is called
    directly; one that it calls later comes from the record [Rec], so that the
    nesting depth of the model is bounded by the number of source bytes left. *)

From S2P Require Import Prelude Token Lexer Ast Cursor ParserExpr.

Definition named (sp : SourceSpan) (acc : Access) (name : str) (n : StmtNode) : Stmt :=
  MkStmt sp acc name [] [] false n.

Section Grammar.
Context (src : str) (R : Rec).

(** ** Parameters and simple statements *)

Definition parseTypeParams : P (list str) :=
  let! lt := accept TkLt in
  if lt then
    let! gt := gets (at_ TkGt) in
    let! ps :=
      if gt : bool then ret []
      else loop (fun acc =>
             let! t := gets cur in
             let! acc' := if kind_eqb (kind t) TkIdentifier then advance ;; ret (acc ++ [text t])
                          else error "type parameter" ;; ret acc in
             let! more := accept TkComma in
             ret (if more : bool then inl acc' else inr acc')) [] in
    expect TkGt "'>'" ;; ret ps
  else ret [].

Definition parseParam : P Param :=
  let! st := gets id in
  if at_word "$_params" st then
    advance ;; ret (MkParam None (text (cur st)) false (span (cur st)) None)
  else
    let! c := accept TkKwConst in
    let! ty := parseType src R in
    let! name := identOr "parameter name" in
    let! eq := accept TkEq in
    let! dv := if eq : bool then let! e := rExpr R 0 in setMeta ;; ret (Some e) else ret None in
    ret (MkParam (Some ty) name c (span (cur st)) dv).

Definition parseParamList : P (list Param) :=
  expect TkLParen "'('" ;;
  let! empty := gets (at_ TkRParen) in
  let! ps := if empty : bool then ret [] else commaList parseParam in
  expect TkRParen "')'" ;; ret ps.

(** [if (accept(Eq)) init = parseExpr(0);] *)
Definition initOpt : P (option Expr) :=
  let! eq := accept TkEq in
  if eq then let! e := rExpr R 0 in ret (Some e) else ret None.

(** [const]? then [var], [let] or a type: constant, inferred, type. *)
Definition declHead : P (bool * bool * option TypeRef) :=
  let! c := accept TkKwConst in
  let! st := gets id in
  if at_ TkKwVar st || at_ TkKwLet st then
    advance ;; ret (c || at_ TkKwLet st, true, None)
  else let! ty := parseType src R in ret (c, false, Some ty).

Definition parseVarDecl : P Stmt :=
  let! t := gets cur in
  let! h := declHead in
  let '(isConst, inferred, ty) := h in
  let! name := identOr "variable name" in
  let! init := initOpt in
  expect TkSemicolon "';'" ;;
  ret (named (span t) AccDefault name (SVar isConst inferred false ty init)).

(** [using]: [isUsing] and [isConst] on a finished declaration. *)
Definition set_using (s : Stmt) : Stmt :=
  match s with
  | MkStmt sp a n l at_ c (SVar _ inf _ ty i) => MkStmt sp a n l at_ c (SVar true inf true ty i)
  | _ => s
  end.

Definition parseBind : P Stmt :=
  let! t := gets cur in
  advance ;;
  let! st := gets id in
  let after := skipTypeSuffix (from_pos 1 st) in
  if at_ TkIdentifier st && (head_is TkArrow after || head_is TkLBrace after) then
    let! ty := parseType src R in
    let! body := rStatement R in
    ret (mkStmt (span t) (SBind (Some ty) body None))
  else
    let! e := parseExpr src R 0 in
    expect TkSemicolon "';'" ;;
    ret (mkStmt (span t) (SBind None None (Some e))).

Definition parsePath : P (list str) :=
  loop (fun acc =>
    let! t := gets cur in
    if kind_eqb (kind t) TkIdentifier then
      advance ;;
      let! more := accept TkColonColon in
      ret (if more : bool then inl (acc ++ [text t]) else inr (acc ++ [text t]))
    else error "path segment" ;; ret (inr acc)) [].

Definition parseUses : P Stmt :=
  let! t := gets cur in
  advance ;;
  let! path := parsePath in
  expect TkSemicolon "';'" ;;
  ret (named (span t) AccDefault (List.last path []) (SUsesImport path)).

Definition parseUse : P Stmt :=
  let! t := gets cur in
  advance ;;
  let! path := parsePath in
  let! as_ := gets (at_word "as") in
  let! name :=
    if as_ : bool then
      advance ;;
      let! n := gets cur in
      if kind_eqb (kind n) TkIdentifier then advance ;; ret (text n)
      else error "alias name after 'as'" ;; ret (List.last path [])
    else ret (List.last path []) in
  expect TkSemicolon "';'" ;;
  ret (named (span t) AccDefault name (SUse path)).

(** ** Template splices at statement, item and member position *)

Definition parseForSpliceStmt (body : SpliceBody) : P Stmt :=
  let! t := gets cur in
  advance ;;
  let! var := identOr "a loop variable name" in
  expect TkKwIn "'in'" ;;
  let! e := rExpr R 0 in
  expect TkColon "':'" ;;
  let! b := rFragmentStmt R body in
  ret (named (span t) AccDefault var (SForSplice e b)).

(** The loop over the elements of a template: it stops at an element that
    consumed nothing.  [keepEmpty] is false where the source drops [Empty]
    statements. *)
Definition fragLoop (stop : PState -> bool) (keepEmpty : bool) (elem : P (option Stmt)) (what : string)
  : P (list Stmt) :=
  loop (fun acc =>
    let! st := gets id in
    if stop st || atEnd st then ret (inr acc)
    else
      let! s := elem in
      let acc' := match s with
                  | Some s => if keepEmpty || negb (is_empty_stmt s) then acc ++ [s] else acc
                  | None => acc
                  end in
      let! st' := gets id in
      if (pos_ st' =? pos_ st)%nat then error what ;; ret (inr acc') else ret (inl acc')) [].

Definition parseForkBranch (body : SpliceBody) : P Stmt :=
  let! t := gets cur in
  expect TkLBrace "'{'" ;;
  let! ss := fragLoop (at_ TkRBrace) false (rFragmentStmt R body) "a fragment in $if branch" in
  expect TkRBrace "'}'" ;;
  ret (mkStmt (span t) (SBlock ss)).

Definition parseForkTail (body : SpliceBody) (sp : SourceSpan) : P Stmt :=
  expect TkLParen "'('" ;;
  let! e := rExpr R 0 in
  expect TkRParen "')'" ;;
  let! yes := parseForkBranch body in
  let! st := gets id in
  let! no :=
    if at_word "$else" st then
      advance ;;
      let! kwif := gets (at_ TkKwIf) in
      let! s := if kwif then advance ;; rForkTail R body (span (cur st)) else parseForkBranch body in
      ret (Some s)
    else ret None in
  ret (mkStmt sp (SForkSplice e (Some yes) no)).

Definition parseForkSpliceStmt (body : SpliceBody) : P Stmt :=
  let! t := gets cur in advance ;; parseForkTail body (span t).

Definition danglingElse : P (option Stmt) :=
  let! t := gets cur in
  sinkError (span t) "$else without a preceding $if" ;; advance ;; ret None.

(** ** Statements *)

Definition set_init_checked (s : Stmt) : P Stmt :=
  let s' := set_scomptime s in
  match snode s with
  | SVar _ _ _ _ None => sinkError (sspan s) "a comptime declaration needs an initializer" ;; ret s'
  | _ => ret s'
  end.

Definition tryParseComptime : P (option Stmt) :=
  let! st := gets id in
  let n := kind (peek 1 st) in
  let marker := match n with
                | TkKwIf | TkKwVar | TkKwLet | TkLParen => true
                | _ => canStartExpr n
                end in
  if at_word "comptime" st && marker then
    setMeta ;; advance ;;
    let! st' := gets id in
    if at_ TkKwIf st' then
      let! s := rStatement R in ret (option_map set_scomptime s)
    else if at_ TkKwVar st' || at_ TkKwLet st' || looksLikeVarDecl st' then
      let! v := parseVarDecl in
      let! v' := set_init_checked v in ret (Some v')
    else
      let! e := parseExpr src R 0 in
      expect TkSemicolon "';'" ;;
      ret (Some (mkStmt (span (cur st)) (SExprStmt (set_comptime e))))
  else ret None.

Definition dquote : string := String.String c_quote String.EmptyString.

(** [@anchor("name");] and [@Name();] at statement position. *)
Definition parseAnchor : P Stmt :=
  let! st := gets id in
  let sp := span (cur st) in
  if peek_is 1 TkIdentifier st && eqs (text (peek 1 st)) (lit "anchor") && peek_is 2 TkLParen st then
    advance ;; advance ;; advance ;;
    let! t := gets cur in
    let! marker := if kind_eqb (kind t) TkStringLiteral then advance ;; ret (text t)
                   else error "a marker name string" ;; ret [] in
    expect TkRParen "')'" ;;
    expect TkSemicolon "';'" ;;
    setMeta ;; ret (named sp AccDefault marker (SEmpty false))
  else if peek_is 1 TkIdentifier st && peek_is 2 TkLParen st then
    advance ;;
    let! t := gets cur in
    advance ;; advance ;;
    let! close := gets (at_ TkRParen) in
    (if close : bool then ret tt else error "a splice site takes no arguments — '@Name()'") ;;
    expect TkRParen "')'" ;;
    expect TkSemicolon "';'" ;;
    setMeta ;; ret (named sp AccDefault (text t) (SEmpty true))
  else
    error ("'anchor(" +:+ dquote +:+ "name" +:+ dquote +:+
           ")' or a splice site '@Name();' after '@' (decorations are declaration-position only)") ;;
    advance ;; ret (mkStmt sp (SEmpty false)).

Definition catchClause : P CatchClause :=
  expect TkLParen "'('" ;;
  let! ty := rType R in
  let! name := identOpt in
  expect TkRParen "')'" ;;
  let! body := rStatement R in
  ret (MkCatch ty name body).

Definition parenCond : P Expr :=
  expect TkLParen "'('" ;;
  let! e := rExpr R 0 in
  expect TkRParen "')'" ;; ret e.

Definition exprUnless (k : TokenKind) : P (option Expr) :=
  let! b := gets (at_ k) in
  if b : bool then ret None else let! e := rExpr R 0 in ret (Some e).

(** After [for] has been consumed. *)
Definition parseFor (sp : SourceSpan) : P Stmt :=
  expect TkLParen "'('" ;;
  let! st := gets id in
  if forInAhead 0 (from_pos 0 st) then
    let! h := declHead in
    let '(isConst, inferred, ty) := h in
    let! name := identOr "loop variable name" in
    expect TkKwIn "'in'" ;;
    let! e := rExpr R 0 in
    expect TkRParen "')'" ;;
    let! b := rStatement R in
    ret (named sp AccDefault name (SForIn isConst inferred ty e b))
  else
    let! noInit := accept TkSemicolon in
    let! init := if noInit : bool then ret None else rStatement R in
    let! c := exprUnless TkSemicolon in
    expect TkSemicolon "';'" ;;
    let! s := exprUnless TkRParen in
    expect TkRParen "')'" ;;
    let! b := rStatement R in
    ret (mkStmt sp (SFor init c s b)).

(** [break] and [continue] with an optional label. *)
Definition jump (n : StmtNode) : P Stmt :=
  let! t := gets cur in
  advance ;;
  let! l := identOpt in
  expect TkSemicolon "';'" ;;
  ret (set_label l (mkStmt (span t) n)).

Definition some {A} (p : P A) : P (option A) := let! a := p in ret (Some a).

Definition exprStatement : P Stmt :=
  let! t := gets cur in
  let! e := parseExpr src R 0 in
  (if is_match e then accept TkSemicolon else expect TkSemicolon "';'") ;;
  ret (mkStmt (span t) (SExprStmt e)).

(** The [switch] of [parseStatement] on the kind of the current token. *)
Definition statementBody : P (option Stmt) :=
  let! t := gets cur in
  let sp := span t in
  match kind t with
  | TkLBrace => some (parseBlock R)
  | TkKwReturn =>
      advance ;;
      let! e := exprUnless TkSemicolon in
      expect TkSemicolon "';'" ;; ret (Some (mkStmt sp (SReturn e)))
  | TkArrow =>
      advance ;;
      let! e := rExpr R 0 in
      expect TkSemicolon "';'" ;; ret (Some (mkStmt sp (SReturn (Some e))))
  | TkAt => some parseAnchor
  | TkSemicolon => advance ;; let! n := gets cur in ret (Some (mkStmt (span n) (SEmpty false)))
  | TkKwIf =>
      advance ;;
      let! c := parenCond in
      let! yes := rStatement R in
      let! els := accept TkKwElse in
      let! no := if els : bool then rStatement R else ret None in
      ret (Some (mkStmt sp (SIf c yes no)))
  | TkKwThrow =>
      advance ;;
      let! e := rExpr R 0 in
      expect TkSemicolon "';'" ;; ret (Some (mkStmt sp (SThrow e)))
  | TkKwTry =>
      advance ;;
      let! b := rStatement R in
      let! cs := loop (fun acc =>
          let! c := accept TkKwCatch in
          if c then let! cl := catchClause in ret (inl (acc ++ [cl])) else ret (inr acc)) [] in
      (if (length cs =? 0)%nat then error "'catch' clause" else ret tt) ;;
      ret (Some (mkStmt sp (STry b cs)))
  | TkKwWhile =>
      advance ;;
      let! c := parenCond in
      let! b := rStatement R in
      ret (Some (mkStmt sp (SWhile c b)))
  | TkKwFor => advance ;; some (parseFor sp)
  | TkKwBind => some parseBind
  | TkKwUses => some parseUses
  | TkKwUse => some parseUse
  | TkKwVar | TkKwLet | TkKwConst => some parseVarDecl
  | TkKwReadonly =>
      sinkError sp "readonly applies to instance fields only; use 'const' for a write-once local/global/parameter" ;;
      advance ;; rStatement R
  | TkKwWeak => sinkError sp "weak applies to instance fields only" ;; advance ;; rStatement R
  | TkKwUsing => advance ;; let! v := parseVarDecl in ret (Some (set_using v))
  | TkKwBreak => some (jump SBreak)
  | TkKwContinue => some (jump SContinue)
  | TkKwDo =>
      advance ;;
      let! b := rStatement R in
      expect TkKwWhile "'while'" ;;
      let! c := parenCond in
      expect TkSemicolon "';'" ;; ret (Some (mkStmt sp (SDoWhile b c)))
  | _ =>
      let! ct := tryParseComptime in
      match ct with
      | Some s => ret (Some s)
      | None =>
          let! v := gets looksLikeVarDecl in
          if v : bool then some parseVarDecl else some exprStatement
      end
  end.

Definition parseStatement : P (option Stmt) :=
  let! st := gets id in
  if at_word "$for" st then some (parseForSpliceStmt BodyStmt)
  else if at_word "$if" st then some (parseForkSpliceStmt BodyStmt)
  else if at_word "$else" st then danglingElse
  else if labeledLoopAhead st then
    advance ;; advance ;;
    let! s := rStatement R in ret (option_map (set_label (text (cur st))) s)
  else statementBody.

(** ** Attributes *)

(** [a.span.length = tokens_[pos_ - 1].span.end() - a.span.offset] *)
Definition spanToHere (sp : SourceSpan) : P SourceSpan :=
  gets (fun st => match pos_ st with
                  | 0 => sp
                  | S p => match tokens_ st !! p with
                           | Some t => Span (offset sp) (span_end (span t) - offset sp)
                           | None => sp
                           end
                  end).

(** [NS::Name] after its first segment: the path and the last segment. *)
Definition attrPath (name : str) : P (list str * str) :=
  loop (fun acc : list str * str =>
    let '(path, name) := acc in
    let! q := gets (at_ TkColonColon) in
    if q then
      advance ;;
      let! t := gets cur in
      if kind_eqb (kind t) TkIdentifier then advance ;; ret (inl (path ++ [name], text t))
      else error "attribute name" ;; ret (inr (path, name))
    else ret (inr (path, name))) ([], name).

(** The names of [@attr(A, NS::B);]. *)
Definition attrGroup : P (list AttrUse) :=
  loop (fun acc =>
    let! t := gets cur in
    if kind_eqb (kind t) TkIdentifier then
      advance ;;
      let! pn := attrPath (text t) in
      let! sp := spanToHere (span t) in
      let acc' := acc ++ [MkAttr pn.1 pn.2 [] sp] in
      let! more := accept TkComma in
      ret (if more : bool then inl acc' else inr acc')
    else error "attribute name" ;; ret (inr acc)) [].

Definition parseAttrUses : P (list AttrUse * bool) :=
  loop (fun acc : list AttrUse * bool =>
    let '(out, group) := acc in
    let! st := gets id in
    if at_ TkAt st then
      if peek_is 1 TkIdentifier st && eqs (text (peek 1 st)) (lit "attr") && peek_is 2 TkLParen st then
        advance ;; advance ;; advance ;;
        let! more := attrGroup in
        expect TkRParen "')'" ;;
        expect TkSemicolon "';'" ;;
        setMeta ;;
        let! st' := gets id in
        (if at_ TkRBrace st' || atEnd st'
         then sinkError (span (cur st')) "@attr(...) must precede a declaration" else ret tt) ;;
        ret (inl (out ++ more, true))
      else
        advance ;;
        let! t := gets cur in
        if kind_eqb (kind t) TkIdentifier then
          advance ;;
          let! pn := attrPath (text t) in
          let! call := gets (at_ TkLParen) in
          let! args := if call : bool then parseArgs R else ret [] in
          let! sp := spanToHere (span (cur st)) in
          setMeta ;; ret (inl (out ++ [MkAttr pn.1 pn.2 args sp], false))
        else error "attribute name" ;; ret (inr (out, group))
    else ret (inr (out, group))) ([], false).

Definition attr_span (a : AttrUse) : SourceSpan := match a with MkAttr _ _ _ sp => sp end.

(** Attributes go to the declaration that follows them, or are reported. *)
Definition attach (takes : Stmt -> bool) (attrs : list AttrUse) (group : bool) (msg : string)
  (s : option Stmt) : P (option Stmt) :=
  match attrs with
  | [] => ret s
  | a :: _ =>
      match s with
      | Some s' => if takes s' then ret (Some (set_attrs attrs s'))
                   else sinkError (attr_span a) (if group then "@attr(...) must precede a declaration" else msg) ;;
                        ret s
      | None => sinkError (attr_span a) (if group then "@attr(...) must precede a declaration" else msg) ;;
                ret s
      end
  end.

(** ** Class members *)

Definition tryParseNameSynth : P (option (list Expr)) :=
  let! st := gets id in
  if at_word "$ident" st && peek_is 1 TkLParen st then
    advance ;;
    let! args := parseArgs R in
    (if (length args =? 0)%nat then error "at least one comptime-string argument to $ident" else ret tt) ;;
    ret (Some args)
  else ret None.

(** The source text up to the closing parenthesis of a symbolic selector. *)
Definition selectorText : P str :=
  let! t := gets cur in
  let s := offset (span t) in
  let! e := loop (fun e =>
      let! st := gets id in
      if at_ TkRParen st || atEnd st then ret (inr e)
      else advance ;; ret (inl (span_end (span (cur st))))) s in
  source_substr src s (e - s).

(** Slot modifiers, in any order: [isMutating], [distinct], [m_isConst],
    [isReadonly] and [isWeak] of the flags. *)
Definition modifiers (sectionConst : bool) : P MemberFlags :=
  loop (fun f =>
    let '(MkFlags a b c mut dist cst ro wk d) := f in
    let! t := gets cur in
    match kind t with
    | TkKwMutating => advance ;; ret (inl (MkFlags a b c true dist cst ro wk d))
    | TkKwDistinct => advance ;; ret (inl (MkFlags a b c mut true cst ro wk d))
    | TkKwConst => advance ;; ret (inl (MkFlags a b c mut dist true ro wk d))
    | TkKwVar => advance ;; ret (inl (MkFlags a b c mut dist false ro wk d))
    | TkKwReadonly => advance ;; ret (inl (MkFlags a b c mut dist cst true wk d))
    | TkKwWeak => advance ;; ret (inl (MkFlags a b c mut dist cst ro true d))
    | _ => ret (inr f)
    end) (MkFlags false false false false false sectionConst false false false).

Definition weakError (weak : bool) (sp : SourceSpan) : P unit :=
  if weak then sinkError sp "weak applies to instance fields only" else ret tt.

(** After [new]. *)
Definition parseCtor (acc : Access) (weak : bool) : P Stmt :=
  let! t := gets cur in
  weakError weak (span t) ;;
  let! name := identOr "constructor label" in
  let! ps := parseParamList in
  let! body := rStatement R in
  ret (named (span t) acc name
         (SMember (MkFlags true false false true false false false false true)
                  (MkSelector false name) None None [] ps body None)).

(** At [get] or [set]. *)
Definition parseAccessor (acc : Access) (mut weak : bool) : P Stmt :=
  let! t := gets cur in
  weakError weak (span t) ;;
  let getter := kind_eqb (kind t) TkKwGet in
  advance ;;
  let! n := gets cur in
  let! sel :=
    if kind_eqb (kind n) TkIdentifier then advance ;; ret (MkSelector false (text n))
    else if kind_eqb (kind n) TkLParen then
      advance ;;
      let! tx := selectorText in
      expect TkRParen "')'" ;; ret (MkSelector true tx)
    else error "accessor name or selector" ;; ret (MkSelector false []) in
  let! ps := parseParamList in
  let! body := rStatement R in
  ret (named (span t) acc (sel_text sel)
         (SMember (MkFlags false getter (negb getter) (mut || negb getter) false false false false true)
                  sel None None [] ps body None)).

Definition set_callable (f : MemberFlags) : MemberFlags :=
  match f with MkFlags a b c mut dist cst ro wk _ => MkFlags a b c mut dist cst ro wk true end.

(** [Type ...]: an operator, a method or a field. *)
Definition parseTypedMember (acc : Access) (f : MemberFlags) : P Stmt :=
  let! t := gets cur in
  let sp := span t in
  let! ty := parseType src R in
  let! paren := gets (at_ TkLParen) in
  if paren then
    advance ;;
    let! tx := selectorText in
    expect TkRParen "')'" ;;
    let! ps := parseParamList in
    let! body := rStatement R in
    ret (named sp acc [] (SMember (set_callable f) (MkSelector true tx) None (Some ty) [] ps body None))
  else
    let! synth := tryParseNameSynth in
    let! name :=
      match synth with
      | Some _ => ret []
      | None =>
          let! n := gets cur in
          if kind_eqb (kind n) TkIdentifier || isContextualName (kind n)
          then advance ;; ret (text n) else error "member name" ;; ret []
      end in
    let! gs := parseTypeParams in
    let! method := gets (at_ TkLParen) in
    if method then
      weakError (isWeak f) sp ;;
      let! ps := parseParamList in
      let! body := rStatement R in
      ret (named sp acc name (SMember (set_callable f) (MkSelector false name) synth (Some ty) gs ps body None))
    else
      let! init := initOpt in
      expect TkSemicolon "';'" ;;
      ret (named sp acc name (SMember f (MkSelector false name) synth (Some ty) gs [] None init)).

Definition accessOpt (dflt : Access) : P Access :=
  let! pub := accept TkKwPublic in
  if pub then ret AccPublic
  else let! priv := accept TkKwPrivate in ret (if priv : bool then AccPrivate else dflt).

Definition parseClassMemberInner (sectionAccess : Access) (sectionConst : bool) : P Stmt :=
  let! acc := accessOpt sectionAccess in
  let! f := modifiers sectionConst in
  let! new := accept TkKwNew in
  if new then parseCtor acc (isWeak f)
  else
    let! st := gets id in
    if at_ TkKwGet st || at_ TkKwSet st then parseAccessor acc (isMutating f) (isWeak f)
    else parseTypedMember acc f.

Definition is_member (s : Stmt) : bool := match snode s with SMember _ _ _ _ _ _ _ _ => true | _ => false end.
Definition is_callable (s : Stmt) : bool :=
  match snode s with SMember f _ _ _ _ _ _ _ => callable f | _ => false end.

Definition parseClassMember (sectionAccess : Access) (sectionConst : bool) : P (option Stmt) :=
  let! a := parseAttrUses in
  let! m := parseClassMemberInner sectionAccess sectionConst in
  attach is_member a.1 a.2 "an attribute must precede a member declaration" (Some m).

(** ** Classes, enums and namespaces *)

Definition spliceHeadAhead (st : PState) : bool :=
  at_word "$for" st || at_word "$if" st || at_word "$else" st.

Definition classBody : P (list Stmt) :=
  loop (fun acc : list Stmt * Access * bool =>
    let '(body, section, constSection) := acc in
    let! st := gets id in
    if at_ TkRBrace st || atEnd st then ret (inr body)
    else if (at_ TkKwPublic st || at_ TkKwPrivate st) && peek_is 1 TkColon st then
      advance ;; advance ;;
      ret (inl (body, if at_ TkKwPublic st then AccPublic else AccPrivate, constSection))
    else if at_ TkKwConst st && peek_is 1 TkColon st then
      advance ;; advance ;; ret (inl (body, section, true))
    else
      let! m := if spliceHeadAhead st then rFragmentStmt R BodyMember
                else parseClassMember section constSection in
      let body' := match m with Some m => body ++ [m] | None => body end in
      let! st' := gets id in
      (if (pos_ st' =? pos_ st)%nat then error "member" ;; advance ;; synchronize else ret tt) ;;
      ret (inl (body', section, constSection))) ([], AccDefault, false).

Definition parseClass (access : Access) (isInterface isValue : bool) : P Stmt :=
  let! t := gets cur in
  advance ;;
  let! synth := tryParseNameSynth in
  let! name := match synth with Some _ => ret [] | None => identOr "class name" end in
  let! gs := parseTypeParams in
  let! colon := accept TkColon in
  let! bases := if colon : bool then commaList (rType R) else ret [] in
  let! empty := accept TkSemicolon in
  let flags := MkClassFlags isInterface isValue false in
  if empty then ret (named (span t) access name (SClass flags synth gs bases []))
  else
    expect TkLBrace "'{'" ;;
    let! body := classBody in
    expect TkRBrace "'}'" ;;
    ret (named (span t) access name (SClass flags synth gs bases body)).

Definition enumMembers : P (list Stmt) :=
  loop (fun acc =>
    let! st := gets id in
    let t := cur st in
    if at_ TkRBrace st || atEnd st then ret (inr acc)
    else if kind_eqb (kind t) TkIdentifier then
      advance ;;
      let! init := initOpt in
      let m := named (span t) AccDefault (text t)
                 (SMember (MkFlags false false false false false false false false false)
                          (MkSelector false (text t)) None None [] [] None init) in
      let! more := accept TkComma in
      ret (if more : bool then inl (acc ++ [m]) else inr (acc ++ [m]))
    else error "enum member name" ;; ret (inr acc)) [].

Definition parseEnum (access : Access) : P Stmt :=
  let! t := gets cur in
  advance ;;
  let! name := identOr "enum name" in
  let! colon := accept TkColon in
  let! carrier := if colon : bool then some (rType R) else ret None in
  expect TkLBrace "'{'" ;;
  let! body := enumMembers in
  expect TkRBrace "'}'" ;;
  ret (named (span t) access name (SEnum carrier body)).

(** [A::B::C] of a namespace declaration; an empty name when none stands. *)
Definition namespaceNames : P (list str) :=
  let! t := gets cur in
  let! first := if kind_eqb (kind t) TkIdentifier then advance ;; ret [text t]
                else error "namespace name" ;; ret [] in
  loop (fun acc =>
    let! q := accept TkColonColon in
    if q then
      let! n := gets cur in
      if kind_eqb (kind n) TkIdentifier then advance ;; ret (inl (acc ++ [text n]))
      else error "namespace name after '::'" ;; ret (inr acc)
    else ret (inr acc)) first.

Definition parseNamespace : P Stmt :=
  let! t := gets cur in
  let sp := span t in
  advance ;;
  let! names0 := namespaceNames in
  let names := match names0 with [] => [[]] | _ => names0 end in
  expect TkLBrace "'{'" ;;
  let! body := bodyLoop (at_ TkRBrace) (rTopLevelItem R) "declaration" in
  expect TkRBrace "'}'" ;;
  let inner := named sp AccDefault (List.last names []) (SNamespace body) in
  ret (fold_right (fun n ns => named sp AccDefault n (SNamespace [ns])) inner (removelast names)).

(** ** Quasiquote fragments *)

Definition semi_token (quasi : SourceSpan) : Token :=
  MkToken TkSemicolon (Span (span_end quasi - 1) 0) [].

(** [toks.insert(toks.end() - 1, semi)] unless the last token before [End] ends
    a statement. *)
Definition withSemicolon (quasi : SourceSpan) (toks : list Token) : list Token :=
  match rev toks with
  | last :: prev :: before =>
      match kind prev with
      | TkSemicolon | TkRBrace => toks
      | _ => rev (last :: semi_token quasi :: prev :: before)
      end
  | _ => toks
  end.

Definition quasiLex (quasi : SourceSpan) : P (list Token) :=
  subLex src true (S (offset quasi)) (span_end quasi - 1).

Definition parseStmtsFragment (quasi : SourceSpan) : P (list Stmt) :=
  if (slength quasi <? 2)%nat then ret []
  else
    let! toks := quasiLex quasi in
    subParse (withSemicolon quasi toks)
      (fragLoop (fun _ => false) false (rFragmentStmt R BodyStmt) "statement in template").

Definition parseMemberFragment (quasi : SourceSpan) : P (list Stmt) :=
  if (slength quasi <? 2)%nat then ret []
  else
    let! toks := quasiLex quasi in
    subParse toks
      (let! e := gets atEnd in
       if e then error "a member in template" ;; ret []
       else fragLoop (fun _ => false) true (rFragmentStmt R BodyMember) "a member in template").

Definition parseItemsFragment (quasi : SourceSpan) : P (list Stmt) :=
  if (slength quasi <? 2)%nat then ret []
  else
    let! toks := quasiLex quasi in
    subParse toks (fragLoop (fun _ => false) true (rFragmentStmt R BodyItem) "declaration in template").

Definition parseExprFragment (quasi : SourceSpan) : P (option Expr) :=
  if (slength quasi <? 2)%nat then ret None
  else
    let! toks := quasiLex quasi in
    subParse toks
      (let! e := gets atEnd in
       if e then error "an expression in template" ;; ret None else some (rExpr R 0)).

(** ** Rules and macros *)

Definition no_span : SourceSpan := Span 0 0.

Definition declKindOr (what : string) : P str :=
  let! t := gets cur in
  if isDeclKindTok t then advance ;; ret (text t) else error what ;; ret [].

Definition ruleEncloser : P RuleLevel :=
  let! t := gets cur in
  let! kw := declKindOr "declaration kind after 'in'" in
  let! bind := identOr "binding name" in
  let! colon := accept TkColon in
  let! c := if colon : bool then some (rType R) else ret None in
  ret (MkLevel kw bind c (span t)).

(** [@Attr(bind)] of a match clause: path, name and binding. *)
Definition ruleAttr : P (list str * str * str) :=
  advance ;;
  let! first := identOr "attribute name" in
  let! pn := loop (fun acc : list str * str =>
      let '(path, name) := acc in
      let! q := accept TkColonColon in
      if q then
        let! t := gets cur in
        if kind_eqb (kind t) TkIdentifier then advance ;; ret (inl (path ++ [name], text t))
        else error "attribute name" ;; ret (inr (path ++ [name], name))
      else ret (inr (path, name))) ([], first) in
  let! paren := accept TkLParen in
  let! bind := if paren : bool then let! b := identOpt in expect TkRParen "')'" ;; ret b else ret [] in
  ret (pn.1, pn.2, bind).

Definition parseRuleMatch : P RuleMatch :=
  let! t := gets cur in
  advance ;;
  let! one := gets (at_word "one") in
  (if one : bool then advance else ret tt) ;;
  let! hasAttr := gets (at_ TkAt) in
  let! a := if hasAttr : bool then ruleAttr else ret ([], [], []) in
  wordOr "on" "'on'" ;;
  let! k := gets cur in
  let! kw := declKindOr "declaration kind (method / class / field / ...)" in
  let! bind := identOr "binding name" in
  let! enc := loop (fun acc =>
      let! q := accept TkKwIn in
      if q then let! l := ruleEncloser in ret (inl (acc ++ [l])) else ret (inr acc)) [] in
  let! where_ := gets (at_word "where") in
  let! w := if where_ : bool then advance ;; some (rExpr R 0) else ret None in
  ret (MkMatch one hasAttr a.1.1 a.1.2 a.2
         (MkLevel kw bind None (if isDeclKindTok k then span k else no_span)) enc w (span t)).

(** An anchor: its kind, target, marker name and [multi]. *)
Definition anchor : Type := AnchorKind * str * str * bool.

Definition parseAnchorClause : P (option anchor) :=
  let! st := gets id in
  if at_word "top" st || at_word "bottom" st then
    let top := at_word "top" st in
    advance ;;
    wordOr "of" "'of'" ;;
    let! body := gets (at_word "body") in
    if body then advance ;; ret (Some (if top then BodyTop else BodyBottom, [], [], false))
    else
      let! target := identOr "the bound class name" in
      expect TkDot "'.'" ;;
      wordOr "constructor" "'constructor'" ;;
      ret (Some (if top then CtorTop else CtorBottom, target, [], false))
  else if at_word "member" st then
    advance ;;
    wordOr "of" "'of'" ;;
    let! target := identOr "the bound class name" in
    ret (Some (MemberOf, target, [], false))
  else if at_word "marker" st then
    advance ;;
    let! t := gets cur in
    let! m := if kind_eqb (kind t) TkStringLiteral then advance ;; ret (text t)
              else error "a marker name string" ;; ret [] in
    ret (Some (Marker, [], m, false))
  else if at_word "splice" st then
    advance ;;
    let! target := identOr "a splice-site name after 'splice'" in
    let! multi := gets (at_word "multi") in
    (if multi : bool then advance else ret tt) ;;
    ret (Some (SpliceSite, target, [], multi))
  else if at_ TkKwNamespace st then
    advance ;;
    let! target := identOr "a namespace name" in
    ret (Some (NamespaceScope, target, [], false))
  else error "an anchor (top/bottom of C.constructor, or member of C)" ;; ret None.

Definition parseRuleAction (generates : bool) : P RuleAction :=
  let! st := gets id in
  let sp := span (cur st) in
  let isReplace := at_word "replace" st in
  advance ;;
  let! q := gets cur in
  if kind_eqb (kind q) TkQuasiLiteral then
    let quasi := span q in
    advance ;;
    if isReplace then
      let! ss := parseStmtsFragment quasi in
      ret (MkAction (if generates then BodyGenerate else BodyReplace) [] [] false ss [] None quasi sp)
    else
      wordOr "at" "'at' <anchor>" ;;
      let! an := parseAnchorClause in
      match an with
      | None => ret (MkAction CtorBottom [] [] false [] [] None quasi sp)
      | Some (a, target, marker, multi) =>
          match a with
          | MemberOf =>
              let! ms := parseMemberFragment quasi in
              ret (MkAction a target marker multi [] ms None quasi sp)
          | NamespaceScope =>
              let! ss := parseItemsFragment quasi in
              ret (MkAction a target marker multi ss [] None quasi sp)
          | _ =>
              let! ss := parseStmtsFragment quasi in
              ret (MkAction a target marker multi ss [] None quasi sp)
          end
      end
  else
    error (if isReplace then "a `...` template after 'replace'" else "a `...` template after 'inject'") ;;
    ret (MkAction CtorBottom [] [] false [] [] None no_span sp).

(** The header markers: [rewrites], [generates], [reentrant] and the target. *)
Definition ruleHeader : Type := bool * bool * bool * str.

Fixpoint ruleMarkers (n : nat) (h : ruleHeader) : P ruleHeader :=
  match n with
  | 0 => ret h
  | S n' =>
      let '(rw, gen, re, target) := h in
      let! st := gets id in
      let generates := at_word "generates" st in
      if (at_word "rewrites" st || generates) && negb rw && negb gen then
        advance ;;
        wordOr "body" (if generates then "'body' after 'generates'" else "'body' after 'rewrites'") ;;
        wordOr "of" (if generates then "'of' after 'generates body'" else "'of' after 'rewrites body'") ;;
        let! t := gets cur in
        let! target' := if kind_eqb (kind t) TkIdentifier then advance ;; ret (text t)
                        else error "the bound name whose body is replaced" ;; ret target in
        ruleMarkers n' (negb generates, generates, re, target')
      else if at_word "reentrant" st && negb re then
        advance ;; ruleMarkers n' (rw, gen, true, target)
      else ret h
  end.

Definition action_span (a : RuleAction) : SourceSpan := match a with MkAction _ _ _ _ _ _ _ _ sp => sp end.
Definition action_replaces (a : RuleAction) : bool :=
  match a with MkAction (BodyReplace | BodyGenerate) _ _ _ _ _ _ _ _ => true | _ => false end.

Definition parseRule (access : Access) : P Stmt :=
  setMeta ;;
  let! t := gets cur in
  advance ;;
  let! n := gets cur in
  advance ;;
  let! h := ruleMarkers 2 (false, false, false, []) in
  let '(rw, gen, re, target) := h in
  expect TkLBrace "'{'" ;;
  let! kwmatch := gets (at_ TkKwMatch) in
  let! m := if kwmatch : bool then parseRuleMatch
            else error "'match' clause" ;;
                 ret (MkMatch false false [] [] [] (MkLevel [] [] None no_span) [] None no_span) in
  let rewriter := rw || gen in
  let! actions := loop (fun acc =>
      let! st := gets id in
      if at_ TkKwInject st || at_word "replace" st then
        let! a := parseRuleAction gen in
        (if action_replaces a && negb rewriter then
           sinkError (action_span a) "'replace' is only legal in a 'rewrites' or 'generates' rule (add 'rewrites body of <bind>' or 'generates body of <bind>' to the rule header)"
         else if negb (action_replaces a) && rewriter then
           sinkError (action_span a) "a 'rewrites'/'generates' rule uses 'replace', not 'inject' (a rule is additive or a rewriter, never both)"
         else ret tt) ;;
        ret (inl (acc ++ [a]))
      else ret (inr acc)) [] in
  (if (length actions =? 0)%nat
   then error (if rewriter then "at least one 'replace' clause" else "at least one 'inject' clause")
   else ret tt) ;;
  expect TkRBrace "'}'" ;;
  ret (named (span t) access (text n) (SRule rw gen re target m actions)).

Definition macroParams : P (list str) :=
  loop (fun acc =>
    let! t := gets cur in
    let! acc' := if kind_eqb (kind t) TkIdentifier then advance ;; ret (acc ++ [text t])
                 else error "a macro parameter name" ;; ret acc in
    let! more := accept TkComma in
    ret (if more : bool then inl acc' else inr acc')) [].

Definition parseMacroDecl (access : Access) : P Stmt :=
  setMeta ;;
  let! t := gets cur in
  advance ;;
  let! n := gets cur in
  advance ;;
  expect TkLParen "'('" ;;
  let! st := gets id in
  if at_word "string" st && peek_is 1 TkIdentifier st then
    advance ;;
    let! p := gets cur in
    advance ;;
    let! comma := accept TkComma in
    (if comma : bool then
       let! c := gets cur in
       sinkError (span c) "a procedural macro takes exactly one string parameter in v1" ;;
       skipWhile (fun st => negb (at_ TkRParen st) && negb (atEnd st))
     else ret tt) ;;
    expect TkRParen "')'" ;;
    wordOr "comptime" "'comptime' after a procedural macro parameter list" ;;
    let! body := rStatement R in
    ret (named (span t) access (text n) (SMacro true [text p] body []))
  else
    let! ps := if at_ TkRParen st then ret [] else macroParams in
    expect TkRParen "')'" ;;
    expect TkArrow "'=>'" ;;
    let! q := gets cur in
    let! a :=
      if kind_eqb (kind q) TkQuasiLiteral then
        advance ;;
        let! e := parseExprFragment (span q) in
        ret (MkAction CtorBottom [] [] false [] [] e (span q) (span q))
      else error "a `...` template after '=>'" ;;
           ret (MkAction CtorBottom [] [] false [] [] None no_span (span q)) in
    expect TkSemicolon "';'" ;;
    ret (named (span t) access (text n) (SMacro false ps None [a])).

(** [attribute Name { fields }]. *)
Definition parseAttributeDecl (access : Access) : P Stmt :=
  setMeta ;;
  let! t := gets cur in
  advance ;;
  let! n := gets cur in
  advance ;;
  expect TkLBrace "'{'" ;;
  let! body := bodyLoop (at_ TkRBrace)
    (let! m := parseClassMember AccPublic false in
     match m with
     | Some s =>
         if is_member s && negb (is_callable s) then ret m
         else sinkError (sspan s) "an attribute declares fields only; methods, constructors, and accessors are not allowed" ;;
              ret None
     | None => ret None
     end) "attribute field" in
  expect TkRBrace "'}'" ;;
  ret (named (span t) access (text n) (SClass (MkClassFlags false false true) None [] [] body)).

(** ** Top-level items *)

(** [Type Name (], [Type Name =] or [Type Name ;] ahead. *)
Definition declOrFuncAhead (st : PState) : bool :=
  let ts := from_pos 0 st in
  let typeEnd := if at_ TkIdentifier st then Some (skipTypeSuffix (from_pos 1 st))
                 else if at_ TkLParen st then skipTypeFull (length ts) ts else None in
  match typeEnd with
  | Some (n :: rest) =>
      if kind_eqb (kind n) TkIdentifier || isContextualName (kind n) then
        let after := if head_is TkLt rest then skipAngles 0 rest else rest in
        head_is TkLParen after || head_is TkEq after || head_is TkSemicolon after
      else false
  | _ => false
  end.

(** [const Type Name (= init)?;] after [const]. *)
Definition parseConstGlobal (acc : Access) : P Stmt :=
  let! ty := parseType src R in
  let! name := identOr "variable name" in
  let! init := initOpt in
  expect TkSemicolon "';'" ;;
  ret (named (tspan ty) acc name (SVar true false false (Some ty) init)).

Definition parseDeclOrFunc (acc : Access) : P Stmt :=
  let! ty := parseType src R in
  let! t := gets cur in
  let! name := if kind_eqb (kind t) TkIdentifier || isContextualName (kind t)
               then advance ;; ret (text t) else error "name" ;; ret [] in
  let! gs := parseTypeParams in
  let! fn := gets (at_ TkLParen) in
  if fn then
    let! ps := parseParamList in
    let! body := rStatement R in
    ret (named (tspan ty) acc name
           (SMember (MkFlags false false false false false false false false true)
                    (MkSelector false name) None (Some ty) gs ps body None))
  else
    let! init := initOpt in
    expect TkSemicolon "';'" ;;
    ret (named (tspan ty) acc name (SVar false false false (Some ty) init)).

(** [word Name] followed by a token of kind [k]. *)
Definition contextual (word : string) (k : TokenKind) (st : PState) : bool :=
  at_word word st && peek_is 1 TkIdentifier st && peek_is 2 k st.

Definition peek_word (ahead : nat) (word : string) (st : PState) : bool :=
  peek_is ahead TkIdentifier st && eqs (text (peek ahead st)) (lit word).

Definition ruleAhead (st : PState) : bool :=
  at_word "rule" st && peek_is 1 TkIdentifier st &&
  (peek_is 2 TkLBrace st || peek_word 2 "rewrites" st || peek_word 2 "generates" st ||
   peek_word 2 "reentrant" st).

Definition itemBody (acc : Access) : P (option Stmt) :=
  let! st := gets id in
  if contextual "attribute" TkLBrace st then some (parseAttributeDecl acc)
  else if ruleAhead st then some (parseRule acc)
  else if contextual "macro" TkLParen st then some (parseMacroDecl acc)
  else match kind (cur st) with
  | TkKwNamespace => some parseNamespace
  | TkKwClass => some (parseClass acc false false)
  | TkKwStruct => some (parseClass acc false true)
  | TkKwInterface => some (parseClass acc true false)
  | TkKwEnum => some (parseEnum acc)
  | TkKwBind => some parseBind
  | TkKwUses => some parseUses
  | TkKwUse => some parseUse
  | TkKwThrow | TkKwTry | TkKwIf | TkKwWhile | TkKwFor | TkKwDo => parseStatement
  | _ =>
      if labeledLoopAhead st then parseStatement
      else if declOrFuncAhead st then some (parseDeclOrFunc acc)
      else some exprStatement
  end.

Definition parseTopLevelItemInner : P (option Stmt) :=
  let! ct := tryParseComptime in
  match ct with
  | Some s => ret (Some s)
  | None =>
      let! acc := accessOpt AccDefault in
      let! cst := accept TkKwConst in
      if cst then some (parseConstGlobal acc) else itemBody acc
  end.

(** The items that take attributes. *)
Definition declLike (s : Stmt) : bool :=
  match snode s with
  | SClass _ _ _ _ _ | SNamespace _ | SVar _ _ _ _ _ => true
  | SMember f _ _ _ _ _ _ _ => callable f
  | _ => false
  end.

Definition parseTopLevelItem : P (option Stmt) :=
  let! a := parseAttrUses in
  let! item := parseTopLevelItemInner in
  attach declLike a.1 a.2
    "an attribute must precede a declaration (class, struct, function, field, or namespace)" item.

(** One element of a template fragment. *)
Definition parseFragmentStmt (body : SpliceBody) : P (option Stmt) :=
  let! st := gets id in
  if at_word "$for" st then some (parseForSpliceStmt body)
  else if at_word "$if" st then some (parseForkSpliceStmt body)
  else if at_word "$else" st then danglingElse
  else match body with
       | BodyStmt => parseStatement
       | BodyItem => parseTopLevelItem
       | BodyMember => parseClassMember AccPublic false
       end.

End Grammar.

(** ** Tying the recursion *)

Definition noRec : Rec :=
  MkRec (fun _ => PFuel) (fun _ _ => PFuel) (fun _ => PFuel) (fun _ _ => PFuel) (fun _ => PFuel)
        (fun _ _ => PFuel) (fun _ _ _ => PFuel) (fun _ => PFuel).

(** The grammar unrolled [n] levels deep. *)
Fixpoint grammar (src : str) (n : nat) : Rec :=
  match n with
  | 0 => noRec
  | S n' =>
      let R := grammar src n' in
      MkRec (parseType src R) (parseExpr src R) (parseUnary src R) (parseForkSpliceExpr R)
            (parseStatement src R) (parseFragmentStmt src R) (parseForkTail R) (parseTopLevelItem src R)
  end.

(** Run a parser over a token list with as many levels as there are bytes. *)
Definition runParser {A} (src : str) (toks : list Token) (s : DiagnosticSink) (p : Rec -> P A) : PRes A :=
  let st := MkP toks 0 s false in p (grammar src (S (remaining st))) st.

Definition parseProgram (src : str) (toks : list Token) (s : DiagnosticSink) : PRes Program :=
  runParser src toks s (fun R =>
    let! its := bodyLoop (fun _ => false) (rTopLevelItem R) "declaration" in
    let! meta := gets sawMeta_ in ret (MkProgram its meta)).

(** [Parser::parseExpressionFragment], on generated source text. *)
Definition parseExpressionFragment (src : str) (toks : list Token) (s : DiagnosticSink)
  : PRes (option Expr) :=
  runParser src toks s (fun R =>
    let! e := gets atEnd in
    if e then error "an expression" ;; ret None
    else
      let! out := rExpr R 0 in
      let! e' := gets atEnd in
      (if e' : bool then ret tt else error "end of generated expression") ;; ret (Some out)).

Definition parseStatementsFragment (src : str) (toks : list Token) (s : DiagnosticSink)
  : PRes (list Stmt) :=
  runParser src toks s (fun R =>
    fragLoop (fun _ => false) false (rStatement R) "statement in generated code").

(** The lexer and the parser together, as the driver calls them on a file. *)
Definition parseFile (src : str) : PRes Program :=
  match tokenize src false empty_sink with
  | LexDone toks s => parseProgram src toks s
  | LexThrow => PThrow
  | LexFuel => PFuel
  end.
