(* ===== verification/ParserWp.v ===== *)
(** * Reasoning about parser computations

    A weakest-precondition style logic for [P]: [wp p st Q] says that [p]
    returns from [st], without throwing and within its bounds, in a state and
    with a value that satisfy [Q].  Most of the time [Q] is [ext st]: tokens
    were only consumed (or a [>>] split in two), diagnostics only added. *)

From S2P Require Import Prelude Token Lexer LexerFacts Ast Cursor LexerRange.

Definition wp {A} (p : P A) (st : PState) (Q : A -> PState -> Prop) : Prop :=
  match p st with POk a st' => Q a st' | PThrow | PFuel => False end.

Section Rules.
Context {A B : Type}.

Lemma wp_mono (p : P A) st (Q Q' : A -> PState -> Prop) :
  wp p st Q -> (forall a st', Q a st' -> Q' a st') -> wp p st Q'.
Proof. unfold wp. destruct (p st); auto. Qed.

Lemma wp_bind (p : P A) (k : A -> P B) st Q :
  wp p st (fun a st' => wp (k a) st' Q) -> wp (bind p k) st Q.
Proof. unfold wp, bind. by destruct (p st). Qed.

Lemma wp_ret (a : A) st (Q : A -> PState -> Prop) : Q a st -> wp (ret a) st Q.
Proof. done. Qed.

Lemma wp_gets (f : PState -> A) st (Q : A -> PState -> Prop) : Q (f st) st -> wp (gets f) st Q.
Proof. done. Qed.
End Rules.

(** ** Well-formed states and their order *)

Definition wf (src : str) (st : PState) : Prop :=
  toks_wf src (tokens_ st) /\ pos_ st < length (tokens_ st).

Record ext (src : str) (st st' : PState) : Prop := MkExt {
  ext_wf : wf src st';
  ext_len : length (tokens_ st') = length (tokens_ st);
  ext_pos : pos_ st <= pos_ st';
  ext_rem : remaining st' + (pos_ st' - pos_ st) <= remaining st;
  ext_sink : sink_le (sink_ st) (sink_ st');
  ext_meta : sawMeta_ st = true -> sawMeta_ st' = true
}.

Lemma ext_refl src st : wf src st -> ext src st st.
Proof. intros. constructor; auto with lev; lia. Qed.

Lemma ext_trans src st1 st2 st3 : ext src st1 st2 -> ext src st2 st3 -> ext src st1 st3.
Proof.
  intros [H1 H2 H3 H4 H5 H6] [K1 K2 K3 K4 K5 K6]. constructor; auto; try lia; try congruence.
  by eapply sink_le_trans.
Qed.

Definition ok (src : str) {A} (p : P A) (st : PState) : Prop := wp p st (fun _ st' => ext src st st').

(** Strict: [p] consumes something unless nothing is left. *)
Definition okS (src : str) {A} (p : P A) (st : PState) : Prop :=
  wp p st (fun _ st' => ext src st st' /\ (atEnd st = false -> remaining st' < remaining st)).

Lemma okS_ok src {A} (p : P A) st : okS src p st -> ok src p st.
Proof. intros H. eapply wp_mono; [exact H|]. by intros a st' [E _]. Qed.

Lemma wp_call src {A} (p : P A) st (Q : A -> PState -> Prop) :
  ok src p st -> (forall a st', ext src st st' -> Q a st') -> wp p st Q.
Proof. apply wp_mono. Qed.

Lemma wp_callS src {A} (p : P A) st (Q : A -> PState -> Prop) :
  okS src p st -> atEnd st = false ->
  (forall a st', ext src st st' -> remaining st' < remaining st -> Q a st') -> wp p st Q.
Proof. intros H He HQ. eapply wp_mono; [exact H|]. intros a st' [E Hs]. auto. Qed.

(** ** Positions and tokens *)

Section Cursor.
Context (src : str).
Abbreviation wf := (wf src).
Abbreviation ext := (ext src).
Abbreviation ok := (ok src).

Lemma cur_lookup st : wf st -> tokens_ st !! pos_ st = Some (cur st).
Proof.
  intros [_ Hp]. unfold cur, peek. rewrite Nat.add_0_r.
  destruct (tokens_ st !! pos_ st) eqn:E; [done|]. by apply lookup_ge_None in E; lia.
Qed.

Lemma cur_wf st : wf st -> tok_wf src (cur st).
Proof.
  intros H. pose proof (cur_lookup st H) as Hc. destruct H as [(init & e & _ & _ & _ & Hf) _].
  by eapply Forall_lookup_1 in Hf.
Qed.

(** The current token is [End] exactly at the last position. *)
Lemma atEnd_last st : wf st -> atEnd st = false -> S (pos_ st) < length (tokens_ st).
Proof.
  intros H He. pose proof (cur_lookup st H) as Hc. destruct H as [(init & e & E & Hk & _ & _) Hp].
  rewrite E, length_app in *. cbn in *. destruct (decide (pos_ st = length init)) as [Heq|]; [|lia].
  rewrite Heq, lookup_app_r, Nat.sub_diag in Hc by lia. cbn in Hc. injection Hc as Hc.
  unfold atEnd, at_ in He. rewrite <- Hc, Hk in He. done.
Qed.

Lemma last_not_atEnd st : wf st -> S (pos_ st) < length (tokens_ st) -> atEnd st = false.
Proof.
  intros H Hp. pose proof (cur_lookup st H) as Hc. destruct H as [(init & e & E & Hk & Hi & _) _].
  rewrite E, length_app in *. cbn in Hp. rewrite lookup_app_l in Hc by lia.
  apply kind_eqb_neq. eapply Forall_lookup_1 in Hi; [|done]. done.
Qed.

Lemma remaining_cur st : wf st -> remaining st = weight (cur st) + weights (drop (S (pos_ st)) (tokens_ st)).
Proof. intros H. unfold remaining. by rewrite (drop_S _ _ _ (cur_lookup st H)). Qed.

Lemma weight_pos t : kind t <> TkEnd -> 1 <= weight t.
Proof. unfold weight. destruct (kind t); try done; lia. Qed.

Lemma text_remaining st : wf st -> atEnd st = false -> length (text (cur st)) <= remaining st.
Proof.
  intros H He. rewrite remaining_cur by done. apply kind_eqb_neq in He.
  unfold weight. destruct (kind (cur st)); try done; lia.
Qed.

Lemma at_not_end k st : at_ k st = true -> k <> TkEnd -> atEnd st = false.
Proof. unfold atEnd, at_. rewrite kind_eqb_eq, kind_eqb_neq. congruence. Qed.

Lemma word_not_end w st : at_word w st = true -> atEnd st = false.
Proof. unfold at_word. intros H. bool_hyps. by eapply at_not_end. Qed.

Lemma kind_not_end st k : kind (cur st) = k -> k <> TkEnd -> atEnd st = false.
Proof. unfold atEnd, at_. rewrite kind_eqb_neq. congruence. Qed.

(** Reaching the end consumes something. *)
Lemma ext_end st st' : ext st st' -> wf st -> atEnd st = false -> atEnd st' = true ->
  remaining st' < remaining st.
Proof.
  intros [W L Hp Hr _ _] H He He'. apply atEnd_last in He; [|done].
  destruct (decide (pos_ st' = pos_ st)) as [Heq|]; [|lia].
  rewrite last_not_atEnd in He' by (done || lia). done.
Qed.

(** ** The cursor's operations *)

Lemma step_pos_ext st : wf st -> ext st (step_pos st).
Proof.
  intros H. unfold step_pos. destruct (Nat.ltb_spec (S (pos_ st)) (length (tokens_ st))); [|by apply ext_refl].
  pose proof (remaining_cur st H) as Hr. destruct H as [Hw Hp].
  assert (1 <= weight (cur st)).
  { apply weight_pos. apply kind_eqb_neq. by apply last_not_atEnd. }
  unfold remaining in Hr. constructor; cbn [tokens_ pos_ sink_ sawMeta_]; auto with lev; [done|].
  unfold remaining. cbn [tokens_ pos_]. lia.
Qed.

Lemma ok_advance st : wf st -> ok advance st.
Proof. apply step_pos_ext. Qed.

Lemma wp_advance st (Q : unit -> PState -> Prop) : wf st -> atEnd st = false ->
  (forall st', ext st st' -> pos_ st' = S (pos_ st) -> Q tt st') -> wp advance st Q.
Proof.
  intros H He HQ. apply (HQ (step_pos st)); [by apply step_pos_ext|].
  unfold step_pos. apply atEnd_last in He; [|done]. by destruct (Nat.ltb_spec (S (pos_ st)) (length (tokens_ st))); [|lia].
Qed.

Lemma wp_accept k st (Q : bool -> PState -> Prop) : wf st -> k <> TkEnd ->
  (at_ k st = true -> forall st', ext st st' -> pos_ st' = S (pos_ st) -> Q true st') ->
  (at_ k st = false -> Q false st) -> wp (accept k) st Q.
Proof.
  intros H Hk HT HF. unfold accept, when_at. apply wp_bind, wp_gets.
  destruct (at_ k st) eqn:E; [|by apply HF].
  apply wp_bind, wp_advance; [done|by eapply at_not_end|]. intros. apply wp_ret. auto.
Qed.

Lemma meta_ext st s m : wf st -> sink_le (sink_ st) s -> (sawMeta_ st = true -> m = true) ->
  ext st (MkP (tokens_ st) (pos_ st) s m).
Proof.
  intros H Hs Hm. constructor; cbn [tokens_ pos_ sink_ sawMeta_]; auto.
  unfold remaining. cbn [tokens_ pos_]. lia.
Qed.

Lemma ok_sinkError sp m st : wf st -> ok (sinkError sp m) st.
Proof.
  intros H. apply meta_ext; [done| |done]. exists [MkDiag SevError (lit m) sp].
  cbn. split_and!; [by repeat constructor|done|lia].
Qed.

Lemma ok_error m st : wf st -> ok (error m) st.
Proof. intros H. by apply ok_sinkError. Qed.

Lemma ok_setMeta st : wf st -> ok setMeta st.
Proof. intros H. by apply meta_ext; auto with lev. Qed.

(** Reporting and marking leave the cursor where it is. *)
Definition quiet {A} (p : P A) (st : PState) : Prop :=
  wp p st (fun _ st' => ext st st' /\ cur st' = cur st).

Lemma quiet_sinkError sp m st : wf st -> quiet (sinkError sp m) st.
Proof. intros H. split; [by apply (ok_sinkError sp m)|done]. Qed.
Lemma quiet_error m st : wf st -> quiet (error m) st.
Proof. intros H. split; [by apply (ok_error m)|done]. Qed.
Lemma quiet_setMeta st : wf st -> quiet setMeta st.
Proof. intros H. split; [by apply ok_setMeta|done]. Qed.

Lemma wp_quiet {A} (p : P A) st (Q : A -> PState -> Prop) :
  quiet p st -> (forall a st', ext st st' -> cur st' = cur st -> Q a st') -> wp p st Q.
Proof. intros H HQ. eapply wp_mono; [exact H|]. intros a st' [E Hc]. auto. Qed.

Lemma cur_not_end st st' : cur st' = cur st -> atEnd st = false -> atEnd st' = false.
Proof. unfold atEnd, at_. by intros ->. Qed.

Lemma wp_expect k what st (Q : bool -> PState -> Prop) : wf st -> k <> TkEnd ->
  (forall b st', ext st st' -> (at_ k st = true -> pos_ st' = S (pos_ st)) -> Q b st') ->
  wp (expect k what) st Q.
Proof.
  intros H Hk HQ. unfold expect, when_at. apply wp_bind, wp_gets. destruct (at_ k st) eqn:E.
  - apply wp_bind, wp_advance; [done|by eapply at_not_end|]. intros. apply wp_ret. auto.
  - apply wp_bind. eapply wp_call; [by apply ok_error|]. intros. apply wp_ret. apply HQ; [done|congruence].
Qed.

Lemma source_substr_ok off len st : off <= length src -> wf st -> ok (source_substr src off len) st.
Proof.
  intros Ho H. unfold source_substr. destruct (Nat.ltb_spec (length src) off); [lia|]. by apply ext_refl.
Qed.

(** Replacing a two-character token by its second character. *)
Lemma split_ext st t : wf st -> tok_wf src t -> kind t <> TkEnd -> weight t <= weight (cur st) ->
  atEnd st = false -> ext st (MkP (<[pos_ st := t]> (tokens_ st)) (pos_ st) (sink_ st) (sawMeta_ st)).
Proof.
  intros H Ht Hk Hwt He. pose proof (atEnd_last st H He) as Hl. pose proof (remaining_cur st H) as Hr.
  destruct H as [(init & e & E & Hke & Hi & Hf) Hp]. rewrite E, length_app in Hl. cbn in Hl.
  constructor; cbn [tokens_ pos_ sink_ sawMeta_]; auto with lev; rewrite ?length_insert; try done.
  - split; cbn; [|by rewrite length_insert]. exists (<[pos_ st := t]> init), e.
    rewrite E at 1. rewrite insert_app_l by lia. split_and!; [done|done|by apply Forall_insert|].
    by apply Forall_insert.
  - rewrite Nat.sub_diag, Nat.add_0_r, Hr. unfold remaining. cbn [tokens_ pos_].
    rewrite (drop_S _ t) by (by apply list_lookup_insert_eq).
    rewrite drop_insert_lt by lia. unfold weights. cbn. lia.
Qed.

Lemma ok_expectGt st : wf st -> ok (expectGt src) st.
Proof.
  intros H. unfold expectGt. apply wp_bind, wp_gets. unfold id.
  destruct (at_ TkGt st) eqn:E1.
  { apply wp_bind, (wp_advance st); [done|by eapply at_not_end|]. intros. by apply wp_ret. }
  destruct (at_ TkGtGt st) eqn:E2.
  - pose proof (cur_wf st H) as (W1 & W2 & W3).
    assert (kind (cur st) = TkGtGt) as Hk by (by apply kind_eqb_eq).
    assert (2 <= slength (span (cur st))) as W4 by (apply W3; by rewrite Hk). unfold span_end in W1.
    apply wp_bind. unfold source_substr. destruct (Nat.ltb_spec (length src) (S (offset (span (cur st))))); [lia|].
    apply wp_ret, wp_bind. apply split_ext; [done| |done| |by eapply at_not_end].
    + unfold tok_wf, span_end. cbn. split_and!; [lia|done|done].
    + assert (length (text (cur st)) = slength (span (cur st))) as Hl by (rewrite W2, length_substr; lia).
      unfold weight at 2. rewrite Hk, Hl. unfold weight. cbn. rewrite length_substr by lia. lia.
  - apply wp_bind. eapply wp_call; [by apply ok_error|]. intros. by apply wp_ret.
Qed.

(** ** Loops *)

Lemma wp_loop {A B} (body : A -> P (A + B)) (I : A -> PState -> Prop) a st (Q : B -> PState -> Prop) :
  (forall a1 st1, I a1 st1 -> wp (body a1) st1 (fun r st2 =>
     match r with inl a2 => I a2 st2 /\ remaining st2 < remaining st1 | inr b => Q b st2 end)) ->
  I a st -> wp (loop body a) st Q.
Proof.
  intros Hb HI. unfold loop. change (wp (loopN (S (remaining st)) body a) st Q).
  assert (forall n a st, I a st -> remaining st < n -> wp (loopN n body a) st Q) as Hn; [|apply Hn; auto; lia].
  clear a st HI. induction n as [|n IH]; intros a st HI Hlt; [lia|]. cbn [loopN].
  apply wp_bind. eapply wp_mono; [by apply Hb|]. intros [a2|b] st2; cbn.
  - intros [HI2 Hd]. apply IH; [done|lia].
  - intros HQ. by apply wp_ret.
Qed.

Lemma ok_loop {A B} (body : A -> P (A + B)) a st :
  wf st ->
  (forall a1 st1, ext st st1 -> wp (body a1) st1 (fun r st2 =>
     ext st1 st2 /\ match r with inl _ => remaining st2 < remaining st1 | inr _ => True end)) ->
  ok (loop body a) st.
Proof.
  intros H Hb. apply (wp_loop body (fun _ st1 => ext st st1)); [|by apply ext_refl].
  intros a1 st1 E1. eapply wp_mono; [by apply Hb|]. intros [a2|b] st2 [E2 Hd]; cbn; [split; [|done]|];
    by eapply ext_trans.
Qed.
End Cursor.

(** ** Automation

    The context holds one fact [E : ext src st0 st] for the current state [st];
    a step runs one operation and extends it. *)

Create HintDb pok.
Create HintDb pokS.
#[export] Hint Resolve ok_advance ok_sinkError ok_error ok_setMeta ok_expectGt : pok.
#[export] Hint Extern 4 (_ <= _) => lia : pok pokS.
#[export] Hint Extern 4 (_ < _) => lia : pok.
#[export] Hint Extern 4 (_ <> _) => discriminate : pok.

(** Take the fact [E2 : ext src st st'] into the accumulated one. *)
Ltac absorb E2 :=
  let T := type of E2 in
  match T with
  | ext ?src ?st ?st' =>
      pose proof (ext_pos _ _ _ E2); pose proof (ext_rem _ _ _ E2); pose proof (ext_wf _ _ _ E2);
      lazymatch goal with
      | E : ext src ?st0 st |- _ =>
          let E3 := fresh "E" in
          pose proof (ext_trans src st0 st st' E E2) as E3; clear E E2
      end
  end.

(** Case split on the boolean facts about the current token. *)
Ltac token_facts :=
  repeat match goal with
  | H : (_ && _)%bool = true |- _ => apply andb_prop in H; destruct H
  | H : (_ || _)%bool = false |- _ => apply orb_false_elim in H; destruct H
  | H : negb _ = true |- _ => apply negb_true_iff in H
  | H : negb _ = false |- _ => apply negb_false_iff in H
  end.

Ltac not_end_here :=
  first [ assumption
        | eapply at_not_end; [eassumption | discriminate]
        | eapply word_not_end; eassumption
        | eapply kind_not_end; [eassumption | discriminate]
        | eapply kind_not_end; [apply kind_eqb_eq; eassumption | discriminate]
        | apply kind_eqb_neq; congruence
        | match goal with H : cur ?st' = cur ?st |- atEnd ?st' = false =>
            apply (cur_not_end st st' H); not_end_here end ].

Ltac not_end :=
  token_facts;
  repeat match goal with H : (_ || _)%bool = true |- _ => apply orb_true_iff in H; destruct H; token_facts end;
  not_end_here.

(** One step of symbolic execution. *)
Ltac pstep :=
  match goal with
  | |- ok _ _ _ => unfold ok
  | |- okS _ _ _ => unfold okS
  | |- wp (bind _ _) _ _ => apply wp_bind
  | |- wp (ret _) _ _ => apply wp_ret
  | |- wp (gets _) _ _ => apply wp_gets; unfold id
  | |- wp (accept _) _ _ =>
      eapply wp_accept; [eassumption | discriminate | intros ? ? ?E2 ?; absorb E2 | intros ?]
  | |- wp (expect _ _) _ _ =>
      eapply wp_expect; [eassumption | discriminate | intros ? ? ?E2 ?; absorb E2]
  | |- wp (error _) _ _ => eapply wp_quiet; [apply quiet_error; eassumption | intros ? ? ?E2 ?; absorb E2]
  | |- wp (sinkError _ _) _ _ => eapply wp_quiet; [apply quiet_sinkError; eassumption | intros ? ? ?E2 ?; absorb E2]
  | |- wp setMeta _ _ => eapply wp_quiet; [apply quiet_setMeta; eassumption | intros ? ? ?E2 ?; absorb E2]
  | |- wp advance _ _ =>
      first [ eapply wp_advance; [eassumption | solve [not_end] | intros ? ?E2 ?; absorb E2]
            | eapply wp_call; [solve [eauto with pok] | intros ? ? ?E2; absorb E2] ]
  | |- wp (let x := _ in _) _ _ => cbv zeta
  | |- wp (if ?b then _ else _) _ _ => destruct b eqn:?; token_facts
  | |- wp (match ?x with _ => _ end) _ _ => destruct x eqn:?
  | |- wp _ _ _ =>
      eapply wp_callS; [solve [eauto 6 with pokS] | solve [not_end] | intros ? ? ?E2 ?; absorb E2]
  | |- wp _ _ _ => eapply wp_call; [solve [eauto 6 with pok] | intros ? ? ?E2; absorb E2]
  end; cbv beta.

(** Start a proof about [st]: the accumulated fact is reflexive. *)
Ltac pstart :=
  match goal with
  | H : wf ?src ?st |- wp _ ?st _ => pose proof (ext_refl src st H)
  | H : ext ?src _ ?st |- wp _ ?st _ =>
      pose proof (ext_pos _ _ _ H); pose proof (ext_rem _ _ _ H); pose proof (ext_wf _ _ _ H);
      clear H; match goal with W : wf src st |- _ => pose proof (ext_refl src st W) end
  end.

Ltac pfinish :=
  repeat match goal with |- _ /\ _ => split | |- atEnd _ = false -> _ => intros end;
  first [ assumption | exact I | lia | done ].

Ltac pauto := unfold ok, okS; pstart; repeat pstep; try solve [pfinish].
