(* ===== verification/ParserFacts.v ===== *)
(** * The parser returns on every input *)

From S2P Require Import Prelude Token Lexer LexerFacts Ast Cursor LexerRange ParserExpr Parser ParserWp.

(** The nonterminals of [R] return from every state with fewer than [n] bytes
    left (one fewer for the two that continue a [$if]). *)
Record Rok (src : str) (n : nat) (R : Rec) : Prop := MkRok {
  rok_type st : wf src st -> remaining st < n -> ok src (rType R) st;
  rok_expr bp st : wf src st -> remaining st < n -> okS src (rExpr R bp) st;
  rok_unary st : wf src st -> remaining st < n -> ok src (rUnary R) st;
  rok_forkSplice sp st : wf src st -> S (remaining st) < n -> ok src (rForkSpliceExpr R sp) st;
  rok_stmt st : wf src st -> remaining st < n -> ok src (rStatement R) st;
  rok_frag b st : wf src st -> remaining st < n -> ok src (rFragmentStmt R b) st;
  rok_forkTail b sp st : wf src st -> S (remaining st) < n -> ok src (rForkTail R b sp) st;
  rok_item st : wf src st -> remaining st < n -> ok src (rTopLevelItem R) st
}.
Lemma rok_expr_ok src n R bp st :
  Rok src n R -> wf src st -> remaining st < n -> ok src (rExpr R bp) st.
Proof. intros. by apply okS_ok, (rok_expr src n). Qed.

#[export] Hint Resolve rok_type rok_expr_ok rok_unary rok_forkSplice rok_stmt rok_frag rok_forkTail
  rok_item : pok.

Section Basics.
Context (src : str).

Lemma ok_commaList {A} (item : P A) st :
  wf src st -> (forall st1, ext src st st1 -> ok src item st1) -> ok src (commaList item) st.
Proof.
  intros H Hi. apply ok_loop; [done|]. intros acc st1 E1. pose proof (Hi st1 E1) as Hok.
  pstart. apply wp_bind. eapply wp_call; [exact Hok|]. intros a st2 E2. absorb E2.
  repeat pstep; pfinish.
Qed.

Lemma ok_skipWhile cond st :
  (forall st', cond st' = true -> atEnd st' = false) -> wf src st -> ok src (skipWhile cond) st.
Proof.
  intros Hc H. apply ok_loop; [done|]. intros acc st1 E1. pstart.
  apply wp_bind, wp_gets. destruct (cond st1) eqn:Ec; [apply Hc in Ec|]; repeat pstep; pfinish.
Qed.

Lemma ok_synchronize st : wf src st -> ok src synchronize st.
Proof. intros H. apply ok_loop; [done|]. intros acc st1 E1. pauto. Qed.

Lemma ok_identOr what st : wf src st -> ok src (identOr what) st.
Proof. intros. unfold identOr. pauto. Qed.

Lemma ok_identOpt st : wf src st -> ok src identOpt st.
Proof. intros. unfold identOpt. pauto. Qed.

Lemma ok_wordOr w what st : wf src st -> ok src (wordOr w what) st.
Proof. intros. unfold wordOr. pauto. Qed.
End Basics.
#[export] Hint Resolve ok_synchronize ok_identOr ok_identOpt ok_wordOr : pok.
#[export] Hint Extern 3 (ok _ (commaList _) _) =>
  apply ok_commaList; [eassumption | let E := fresh "E" in intros ? E;
    pose proof (ext_pos _ _ _ E); pose proof (ext_rem _ _ _ E); pose proof (ext_wf _ _ _ E);
    eauto 5 with pok] : pok.

Section Grammar.
Context (src : str) (n : nat) (R : Rec) (HR : Rok src n R).

(** ** Types *)

Lemma ok_wrapNullable t st : wf src st -> ok src (wrapNullable t) st.
Proof. intros. unfold wrapNullable. pauto. Qed.
Hint Resolve ok_wrapNullable : pok.

Lemma ok_typePath name st : wf src st -> ok src (typePath name) st.
Proof. intros H. apply ok_loop; [done|]. intros [path nm] st1 E1. pauto. Qed.
Hint Resolve ok_typePath : pok.

Lemma ok_typeGenerics st : wf src st -> remaining st < S n -> ok src (typeGenerics src R) st.
Proof. intros. unfold typeGenerics. pauto. Qed.
Hint Resolve ok_typeGenerics : pok.

Lemma ok_parseTypeParen st : wf src st -> remaining st < S n -> at_ TkLParen st = true ->
  ok src (parseTypeParen R) st.
Proof. intros. unfold parseTypeParen. pauto. Qed.
Hint Resolve ok_parseTypeParen : pok.

Lemma ok_parseTypeNamed st : wf src st -> remaining st < S n -> ok src (parseTypeNamed src R) st.
Proof. intros. unfold parseTypeNamed. pauto. Qed.
Hint Resolve ok_parseTypeNamed : pok.

Lemma ok_parseTypePrimary st : wf src st -> remaining st < S n -> ok src (parseTypePrimary src R) st.
Proof. intros. unfold parseTypePrimary. pauto. Qed.
Hint Resolve ok_parseTypePrimary : pok.

(** The body of a loop, from any state reached by it. *)
Ltac ploop := intros; apply ok_loop; [assumption | intros; unfold ok; pstart; repeat pstep; try solve [pfinish]].

Lemma ok_unionMembers t st : wf src st -> remaining st < S n -> ok src (unionMembers src R t) st.
Proof. ploop. Qed.
Hint Resolve ok_unionMembers : pok.

Lemma ok_parseType st : wf src st -> remaining st < S n -> ok src (parseType src R) st.
Proof. intros. unfold parseType. pauto. Qed.
Hint Resolve ok_parseType : pok.

(** ** Arguments *)

Lemma ok_argLabelOpt b st : wf src st -> ok src (argLabelOpt b) st.
Proof. intros. unfold argLabelOpt, labelAhead. pauto. Qed.
Hint Resolve ok_argLabelOpt : pok.

Lemma wp_argList (arg : P Expr) st :
  (forall st1, wf src st1 -> remaining st1 < n -> ok src arg st1) ->
  wf src st -> remaining st < S n -> at_ TkLParen st = true \/ remaining st < n ->
  wp (argList arg) st (fun _ st' => ext src st st' /\ (at_ TkLParen st = true -> remaining st' < remaining st)).
Proof.
  intros Ha H Hr Hc. unfold argList. pstart.
  apply wp_bind, (wp_expect src); [done|done|]. intros b st' E2 Hp. absorb E2.
  assert (remaining st' < n) by (destruct Hc as [Hc|Hc]; [specialize (Hp Hc)|]; lia).
  assert (forall st2, ext src st st2 -> remaining st2 <= remaining st' ->
    ext src st st2 /\ (at_ TkLParen st = true -> remaining st2 < remaining st)) as Hfin.
  { intros st2 E2 Hl. split; [done|]. intros Hb. specialize (Hp Hb). lia. }
  do 4 pstep; [|eapply (wp_call src); [apply (ok_loop src); [assumption|]|intros ? ? E2; absorb E2]].
  - repeat pstep; (apply Hfin; [assumption|lia]).
  - intros [args named] st1 E1. pstart. repeat pstep; pfinish.
  - repeat pstep; (apply Hfin; [assumption|lia]).
Qed.

Lemma ok_argList (arg : P Expr) st :
  (forall st1, wf src st1 -> remaining st1 < n -> ok src arg st1) ->
  wf src st -> remaining st < n -> ok src (argList arg) st.
Proof. intros. eapply wp_mono; [apply wp_argList; auto; lia|]. by intros ? ? [? _]. Qed.

Lemma okS_argList (arg : P Expr) st :
  (forall st1, wf src st1 -> remaining st1 < n -> ok src arg st1) ->
  wf src st -> remaining st < S n -> at_ TkLParen st = true -> okS src (argList arg) st.
Proof. intros. eapply wp_mono; [apply wp_argList; auto|]. intros ? ? [? ?]. auto. Qed.

Lemma ok_macroArg st : wf src st -> remaining st < n -> ok src (macroArg src R) st.
Proof.
  intros H Hr. unfold macroArg. unfold ok. pstart. do 3 pstep; [|repeat pstep; pfinish].
  pose proof (cur_wf src st H) as (W1 & _). unfold span_end in W1. apply kind_eqb_eq in Heqb.
  apply wp_bind. destruct (2 <=? slength (span (cur st))) eqn:E3; bool_hyps.
  - eapply wp_call; [apply source_substr_ok; [lia|done]|]. intros ? ? E2. absorb E2. repeat pstep; pfinish.
  - repeat pstep; pfinish.
Qed.

Lemma okS_parseArgs st : wf src st -> remaining st < S n -> at_ TkLParen st = true ->
  okS src (parseArgs R) st.
Proof. intros. apply okS_argList; try done. intros. eauto with pok. Qed.
Hint Resolve okS_parseArgs : pokS.

Lemma ok_parseArgs st : wf src st -> remaining st < n -> ok src (parseArgs R) st.
Proof. intros. apply ok_argList; try done. intros. eauto with pok. Qed.

Lemma ok_parseMacroArgs st : wf src st -> remaining st < n -> ok src (parseMacroArgs src R) st.
Proof. intros. apply ok_argList; [apply ok_macroArg|done|lia]. Qed.
Hint Resolve ok_parseArgs ok_parseMacroArgs : pok.

Lemma okS_parseExplicitTypeArgs st : wf src st -> remaining st < S n -> at_ TkColonColon st = true ->
  okS src (parseExplicitTypeArgs src R) st.
Proof. intros. unfold parseExplicitTypeArgs. pauto. Qed.
Hint Resolve okS_parseExplicitTypeArgs : pokS.

(** ** Braced bodies and matches *)

(** Nothing consumed since [st1], which was not at its end. *)
Lemma stuck_not_end st1 st2 : wf src st1 -> atEnd st1 = false -> ext src st1 st2 -> pos_ st2 = pos_ st1 ->
  atEnd st2 = false.
Proof.
  intros H He E Hp. apply (last_not_atEnd src); [exact (ext_wf _ _ _ E)|].
  rewrite (ext_len _ _ _ E), Hp. by apply (atEnd_last src).
Qed.

Lemma wp_bodyLoop stop elem what st :
  wf src st -> (forall st1, ext src st st1 -> atEnd st1 = false -> ok src elem st1) ->
  wp (bodyLoop stop elem what) st (fun _ st' => ext src st st' /\ (stop st' || atEnd st') = true).
Proof.
  intros H He. apply (wp_loop _ (fun _ st1 => ext src st st1)); [|by apply ext_refl].
  intros acc st1 E1. pose proof (He st1 E1) as Hok.
  eapply (wp_mono _ _ (fun r st2 => ext src st1 st2 /\
    match r with inl _ => remaining st2 < remaining st1 | inr _ => (stop st2 || atEnd st2) = true end)).
  2:{ intros [a|b] st2 [E2 Hx]; (split; [by eapply ext_trans|done]). }
  pstart. do 3 pstep; [repeat pstep; pfinish|]. token_facts. specialize (Hok ltac:(assumption)).
  apply wp_bind. eapply wp_call; [exact Hok|]. intros s st2 E2.
  assert (pos_ st2 = pos_ st1 -> atEnd st2 = false) as Hs by (by eapply stuck_not_end). absorb E2.
  do 2 pstep. destruct (pos_ st2 =? pos_ st1)%nat eqn:Ep; bool_hyps; [specialize (Hs Ep)|]; repeat pstep; pfinish.
Qed.

Lemma ok_bodyLoop stop elem what st :
  wf src st -> (forall st1, ext src st st1 -> atEnd st1 = false -> ok src elem st1) ->
  ok src (bodyLoop stop elem what) st.
Proof. intros. eapply wp_mono; [by apply wp_bodyLoop|]. by intros ? ? [? _]. Qed.

Lemma wp_parseBlock st : wf src st -> remaining st < S n -> at_ TkLBrace st = true \/ remaining st < n ->
  wp (parseBlock R) st (fun _ st' => ext src st st' /\ (at_ TkLBrace st = true -> remaining st' < remaining st)).
Proof.
  intros H Hr Hc. unfold parseBlock. pstart. do 2 pstep.
  apply wp_bind, (wp_expect src); [done|done|]. intros b st' E2 Hp. absorb E2.
  assert (remaining st' < n) by (destruct Hc as [Hc|Hc]; [specialize (Hp Hc)|]; lia).
  apply wp_bind. eapply (wp_call src); [apply ok_bodyLoop; [done|]|intros ? ? E2; absorb E2].
  - intros st1 E1 _. apply (rok_stmt src n); [done|apply E1|pose proof (ext_rem _ _ _ E1); lia].
  - repeat pstep; (split; [assumption|intros Hb; specialize (Hp Hb); lia]).
Qed.

Lemma ok_parseBlock st : wf src st -> remaining st < S n -> at_ TkLBrace st = true \/ remaining st < n ->
  ok src (parseBlock R) st.
Proof. intros. eapply wp_mono; [by apply wp_parseBlock|]. by intros ? ? [? _]. Qed.
Hint Resolve ok_parseBlock : pok.

Lemma okS_arrowBody st : wf src st -> remaining st < n -> okS src (arrowBody R) st.
Proof.
  intros H Hr. unfold arrowBody, okS. pstart. do 3 pstep; apply wp_bind.
  - eapply wp_mono; [apply wp_parseBlock; [done|lia|by left]|]. cbv beta. intros s st' [E2 Hs].
    absorb E2. specialize (Hs ltac:(assumption)). repeat pstep; pfinish.
  - eapply wp_mono; [by apply (rok_expr src n)|]. intros e st' [E2 Hs]. absorb E2. repeat pstep.
    split; [assumption|]. intros He. specialize (Hs He). lia.
Qed.

Lemma ok_armPattern st : wf src st -> remaining st < n -> ok src (armPattern src R (rExpr R)) st.
Proof. intros. unfold armPattern. pauto. Qed.
Hint Resolve ok_armPattern : pok.

(** An arm consumes something. *)
Lemma okS_matchArm st : wf src st -> remaining st < n -> okS src (matchArm src R) st.
Proof.
  intros H Hr. unfold matchArm, okS. pstart. repeat pstep.
  eapply wp_mono; [apply okS_arrowBody; [done|lia]|]. intros b2 st2 [E2 Hs].
  assert (atEnd st = false -> remaining st2 < remaining st) as Hs2.
  { intros He. pose proof (ext_rem _ _ _ E2). destruct (atEnd st'0) eqn:Ee; [|specialize (Hs eq_refl); lia].
    pose proof (ext_end src _ _ E0 H He Ee). lia. }
  absorb E2.
  repeat pstep; (split; [assumption|]; intros He; specialize (Hs2 He); lia).
Qed.

Lemma ok_parseMatch st : wf src st -> remaining st < S n -> atEnd st = false ->
  okS src (parseMatch src R) st.
Proof.
  intros H Hr He. unfold parseMatch, okS. pstart. repeat pstep.
  eapply (wp_call src); [apply (ok_loop src); [assumption|]|intros ? ? E2; absorb E2; repeat pstep; pfinish].
  intros acc st1 E1. pstart. do 3 pstep; [repeat pstep; pfinish|]. token_facts.
  apply wp_bind. eapply wp_mono; [apply okS_matchArm; [done|lia]|]. intros arm st2 [E2 Hs].
  specialize (Hs ltac:(assumption)). absorb E2. repeat pstep; pfinish.
Qed.

(** ** Lambdas and parentheses *)

Lemma ok_lambdaParam st : wf src st -> remaining st < S n -> ok src (lambdaParam src R) st.
Proof. intros. unfold lambdaParam. pauto. Qed.
Hint Resolve ok_lambdaParam : pok.

Lemma okS_parseParenOrLambda st : wf src st -> remaining st < S n -> atEnd st = false ->
  okS src (parseParenOrLambda src R) st.
Proof.
  intros. pose proof okS_arrowBody as Ha. unfold parseParenOrLambda.
  assert (forall st1, wf src st1 -> remaining st1 < n -> ok src (arrowBody R) st1) as Hb
    by (intros; by apply okS_ok, Ha). pauto.
Qed.

(** ** Interpolated strings *)

Lemma holeScan_spec f raw stop j d q j' :
  holeScan f raw stop j d q = (j', false) -> j <= j' < stop.
Proof.
  revert j d q. induction f as [|f IH]; intros j d q; cbn [holeScan]; [done|].
  destruct (Nat.ltb_spec j stop); [|done].
  repeat case_match; intros E; simplify_eq; try (apply IH in E); lia.
Qed.

Lemma wp_subLex holes b e st (Q : list Token -> PState -> Prop) :
  wf src st -> b <= e -> 0 < e < length src ->
  (forall ts st', ext src st st' -> toks_wf src ts -> weights ts <= S e - b -> Q ts st') ->
  wp (subLex src holes b e) st Q.
Proof.
  intros H Hb He HQ. unfold wp, subLex.
  destruct (tokenizeRange_ok src holes b e (sink_ st) Hb He) as (ts & s' & -> & Hw & Hl & Hs).
  apply HQ; [|done|done]. by apply meta_ext.
Qed.

Lemma ok_subParse {A} toks (p : P A) st :
  wf src st -> toks_wf src toks ->
  (forall sub, wf src sub -> remaining sub = weights toks -> ok src p sub) -> ok src (subParse toks p) st.
Proof.
  intros H Ht Hp. unfold ok, wp, subParse.
  assert (wf src (MkP toks 0 (sink_ st) false)) as Hw.
  { split; [done|]. destruct Ht as (init & e & -> & _). cbn. rewrite length_app. cbn. lia. }
  specialize (Hp _ Hw eq_refl). unfold ok, wp in Hp. destruct (p _) as [a st'| |]; try done.
  apply meta_ext; [done|apply Hp|done].
Qed.

Lemma ok_parseHole t hs j ps st :
  wf src st -> tok_wf src t -> 0 < hs <= j -> j < slength (span t) -> S j - hs < n ->
  ok src (parseHole src R t hs j ps) st.
Proof.
  intros H (W1 & _) Hj Hl Hn. unfold span_end in W1. unfold parseHole, ok. pstart. apply wp_bind.
  apply wp_subLex; [done|lia|lia|]. intros ts st' E2 Hw Hwt. absorb E2. apply wp_bind.
  eapply (wp_call src); [apply ok_subParse; [done|done|]|].
  - intros sub Hs Hrs. pauto.
  - intros e st2 E2. absorb E2. repeat pstep; pfinish.
Qed.

Lemma ok_interpLoop f t stop i seg ps st :
  wf src st -> tok_wf src t -> 0 < i -> stop < slength (span t) -> slength (span t) < S n -> stop - i < f ->
  ok src (interpLoop src R f t stop i seg ps) st.
Proof.
  intros H Ht. revert i seg ps st H. induction f as [|f IH]; intros i seg ps st H Hi Hs Hn Hf; [lia|].
  cbn [interpLoop]. unfold ok. pstart. destruct (Nat.ltb_spec i stop); [|by apply wp_ret].
  destruct (eqc _ _ && _) eqn:E1; [apply IH; auto; lia|].
  destruct (eqc _ _ && _ && _) eqn:E2; [|apply IH; auto; lia]. bool_hyps.
  destruct (holeScan _ _ _ _ _ _) as [j open] eqn:E4. destruct open; [repeat pstep; pfinish|].
  apply holeScan_spec in E4. apply wp_bind.
  assert (forall ps' st', ext src st st' ->
    wp (interpLoop src R f t stop (S j) (S j) ps') st' (fun _ st2 => ext src st st2)) as Hk.
  { intros ps' st' Ee. eapply (wp_call src); [apply IH; [apply Ee|lia|lia|lia|lia]|].
    intros ? ? ?. by eapply ext_trans. }
  destruct (j =? i + 2)%nat eqn:E5.
  - repeat pstep. pfinish.
  - eapply (wp_call src); [apply ok_parseHole; auto; bool_hyps; lia|]. intros ps2 st2 E6. by apply Hk.
Qed.

Lemma ok_parseInterpolatedString t st :
  wf src st -> tok_wf src t -> length (text t) < S n -> 1 <= length (text t) ->
  ok src (parseInterpolatedString src R t) st.
Proof.
  intros H Ht Hl H1. unfold parseInterpolatedString, ok. pstart. apply wp_bind.
  pose proof (tok_wf_length src t Ht) as Hlen.
  assert (1 <= quoteLen (text t)) by (unfold quoteLen; case_match; lia).
  eapply (wp_call src); [apply ok_interpLoop; auto; lia|]. intros r st2 E2. absorb E2. repeat pstep; pfinish.
Qed.

(** ** Primary, postfix, unary and infix expressions *)

Lemma ok_parseForkBranchExpr st : wf src st -> remaining st < n -> ok src (parseForkBranchExpr R) st.
Proof. intros. unfold parseForkBranchExpr. pauto. Qed.
Hint Resolve ok_parseForkBranchExpr : pok.

Lemma ok_parseForkSpliceExpr sp st : wf src st -> remaining st < n -> ok src (parseForkSpliceExpr R sp) st.
Proof. intros. unfold parseForkSpliceExpr. pauto. Qed.
Hint Resolve ok_parseForkSpliceExpr : pok.

Lemma ok_parseArrayElement st : wf src st -> remaining st < n -> ok src (parseArrayElement R) st.
Proof. intros. unfold parseArrayElement. pauto. Qed.
Hint Resolve ok_parseArrayElement : pok.

Lemma okS_leaf nd st : wf src st -> atEnd st = false -> okS src (leaf nd) st.
Proof. intros. unfold leaf. pauto. Qed.

Lemma okS_primaryError st : wf src st ->
  okS src (error "expression" ;;
           let! e := gets atEnd in
           (if e : bool then ret tt else advance) ;; ret (mkExpr (span (cur st)) (EName []))) st.
Proof.
  intros H. unfold okS. pstart. repeat pstep; [|pfinish]. split; [assumption|]. intros He.
  by eapply ext_end.
Qed.

Lemma okS_parsePrimary st : wf src st -> remaining st < S n -> okS src (parsePrimary src R) st.
Proof.
  intros H Hr. pose proof (okS_primaryError st H) as Hd. unfold parsePrimary. apply wp_bind, wp_gets.
  assert (kind (cur st) <> TkEnd -> atEnd st = false) as Hne by (intros; by apply kind_eqb_neq).
  destruct (kind (cur st)) eqn:K; try exact Hd; specialize (Hne ltac:(discriminate)).
  all: try (by apply okS_leaf); try (by apply ok_parseMatch); try (by apply okS_parseParenOrLambda); try solve [pauto].
  - pose proof (cur_wf src st H) as Ht. pose proof (text_remaining src st H Hne).
    pose proof (tok_wf_length src _ Ht) as Hl. destruct Ht as (Ht1 & Ht2 & Ht3). rewrite K in Ht3.
    specialize (Ht3 eq_refl). pstart. apply wp_bind. eapply wp_advance; [done|done|]. intros st' E2 Hp. absorb E2.
    eapply (wp_call src); [apply ok_parseInterpolatedString; [done|by split_and!; [| |rewrite K]|lia|lia]|].
    intros ? ? E2. absorb E2. pfinish.
  - pose proof (cur_wf src st H) as Ht. pose proof (tok_wf_length src _ Ht) as Hl.
    destruct Ht as (_ & _ & Ht3). rewrite K in Ht3. specialize (Ht3 eq_refl).
    pstart. do 2 pstep. destruct (Nat.ltb_spec (length (text (cur st))) 2); [lia|]. repeat pstep. pfinish.
Qed.

Lemma ok_parsePostfix base st : wf src st -> remaining st < S n -> ok src (parsePostfix src R base) st.
Proof. intros. apply ok_loop; [done|]. intros b st1 E1. unfold postfixStep. pauto. Qed.
Hint Resolve ok_parsePostfix : pok.

Lemma okS_parseUnary st : wf src st -> remaining st < S n -> okS src (parseUnary src R) st.
Proof.
  intros H Hr. unfold parseUnary, okS. pstart. do 3 pstep; [repeat pstep; pfinish|].
  pstep; [repeat pstep; pfinish|]. apply wp_bind. eapply wp_mono; [by apply okS_parsePrimary|].
  intros e st' [E2 Hs]. absorb E2. repeat pstep. split; [assumption|]. intros He. specialize (Hs He). lia.
Qed.

Lemma infixBP_End k : (infixBP k =? 0)%nat = false -> k <> TkEnd.
Proof. by destruct k. Qed.

(** What a turn of a loop promises. *)
Definition turn {A B} (st1 : PState) (r : A + B) (st2 : PState) : Prop :=
  ext src st1 st2 /\ match r with inl _ => remaining st2 < remaining st1 | inr _ => True end.

Lemma wp_infixOp bp lhs st : wf src st -> remaining st < S n ->
  wp (infixOp R bp (kind (cur st)) lhs) st (turn st).
Proof.
  intros H Hr. unfold infixOp, turn. pstart. cbv zeta.
  destruct (infixBP (kind (cur st)) =? 0)%nat eqn:E1; [repeat pstep; pfinish|].
  assert (atEnd st = false) by (apply kind_eqb_neq; by apply infixBP_End). pauto.
Qed.

Lemma wp_infixStep bp lhs st : wf src st -> remaining st < S n ->
  wp (infixStep src R bp lhs) st (turn st).
Proof.
  intros H Hr. unfold infixStep. apply wp_bind, wp_gets. pose proof (wp_infixOp bp lhs st H Hr) as Hd.
  cbv zeta. destruct (kind (cur st)) eqn:K; try exact Hd; unfold turn; pauto.
Qed.

Lemma okS_parseExpr bp st : wf src st -> remaining st < S n -> okS src (parseExpr src R bp) st.
Proof.
  intros H Hr. unfold parseExpr, okS. pstart. apply wp_bind.
  eapply wp_mono; [by apply okS_parseUnary|]. intros e st' [E2 Hs]. absorb E2.
  eapply (wp_call src); [|intros ? ? E2; absorb E2; split; [assumption|intros He; specialize (Hs He); lia]].
  apply ok_loop; [assumption|]. intros lhs st1 E1. apply wp_infixStep; [apply E1|].
  pose proof (ext_rem _ _ _ E1). lia.
Qed.

Lemma ok_parseExpr bp st : wf src st -> remaining st < S n -> ok src (parseExpr src R bp) st.
Proof. intros. by apply okS_ok, okS_parseExpr. Qed.
Hint Resolve ok_parseExpr : pok.

(** ** Statements *)

Lemma ok_parseTypeParams st : wf src st -> ok src parseTypeParams st.
Proof.
  intros. unfold parseTypeParams, ok. pstart. repeat pstep; try pfinish.
  eapply (wp_call src); [ploop|intros ? ? E2; absorb E2; repeat pstep; pfinish].
Qed.
Hint Resolve ok_parseTypeParams : pok.

Lemma ok_parseParam st : wf src st -> remaining st < S n -> ok src (parseParam src R) st.
Proof. intros. unfold parseParam. pauto. Qed.
Hint Resolve ok_parseParam : pok.

Lemma wp_parseParamList st : wf src st -> remaining st < S n ->
  wp (parseParamList src R) st (fun _ st' => ext src st st' /\ (at_ TkLParen st = true -> remaining st' < remaining st)).
Proof.
  intros H Hr. unfold parseParamList. pstart.
  apply wp_bind, (wp_expect src); [done|done|]. intros b st' E2 Hp. absorb E2.
  repeat pstep; (split; [assumption|intros Hb; specialize (Hp Hb); lia]).
Qed.

Lemma okS_parseParamList st : wf src st -> remaining st < S n -> at_ TkLParen st = true ->
  okS src (parseParamList src R) st.
Proof. intros. eapply wp_mono; [by apply wp_parseParamList|]. intros ? ? [? ?]; auto. Qed.
Lemma ok_parseParamList st : wf src st -> remaining st < S n -> ok src (parseParamList src R) st.
Proof. intros. eapply wp_mono; [by apply wp_parseParamList|]. by intros ? ? [? _]. Qed.
Hint Resolve okS_parseParamList : pokS.
Hint Resolve ok_parseParamList : pok.

Lemma ok_initOpt st : wf src st -> remaining st < S n -> ok src (initOpt R) st.
Proof. intros. unfold initOpt. pauto. Qed.
Hint Resolve ok_initOpt : pok.

Lemma ok_declHead st : wf src st -> remaining st < S n -> ok src (declHead src R) st.
Proof. intros. unfold declHead. pauto. Qed.
Hint Resolve ok_declHead : pok.

Lemma ok_parseVarDecl st : wf src st -> remaining st < S n -> ok src (parseVarDecl src R) st.
Proof. intros. unfold parseVarDecl. pauto. Qed.
Hint Resolve ok_parseVarDecl : pok.

Lemma ok_parseBind st : wf src st -> remaining st < S n -> atEnd st = false -> ok src (parseBind src R) st.
Proof. intros. unfold parseBind. pauto. Qed.

Lemma ok_parsePath st : wf src st -> ok src parsePath st.
Proof. ploop. Qed.
Hint Resolve ok_parsePath : pok.

Lemma ok_parseUses st : wf src st -> ok src parseUses st.
Proof. intros. unfold parseUses. pauto. Qed.

Lemma ok_parseUse st : wf src st -> ok src parseUse st.
Proof. intros. unfold parseUse. pauto. Qed.
Hint Resolve ok_parseBind ok_parseUses ok_parseUse : pok.

Lemma ok_parseForSpliceStmt b st : wf src st -> remaining st < S n -> atEnd st = false ->
  ok src (parseForSpliceStmt R b) st.
Proof. intros. unfold parseForSpliceStmt. pauto. Qed.

Lemma ok_fragLoop stop keep elem what st :
  wf src st -> (forall st1, ext src st st1 -> ok src elem st1) -> ok src (fragLoop stop keep elem what) st.
Proof.
  intros H He. apply ok_loop; [done|]. intros acc st1 E1. pose proof (He st1 E1) as Hok.
  pstart. do 3 pstep; [repeat pstep; pfinish|].
  apply wp_bind. eapply wp_call; [exact Hok|]. intros s st2 E2. absorb E2.
  do 3 pstep; bool_hyps; repeat pstep; pfinish.
Qed.

Lemma ok_parseForkBranch b st : wf src st -> remaining st < n -> ok src (parseForkBranch R b) st.
Proof.
  intros. unfold parseForkBranch, ok. pstart. repeat pstep.
  eapply (wp_call src); [apply ok_fragLoop; [assumption|]|intros ? ? E2; absorb E2; repeat pstep; pfinish].
  intros st1 E1. pose proof (ext_rem _ _ _ E1). pose proof (ext_wf _ _ _ E1). eauto with pok.
Qed.
Hint Resolve ok_parseForkBranch : pok.

Lemma ok_parseForkTail b sp st : wf src st -> remaining st < n -> ok src (parseForkTail R b sp) st.
Proof. intros. unfold parseForkTail. pauto. Qed.
Hint Resolve ok_parseForkTail : pok.

Lemma ok_parseForkSpliceStmt b st : wf src st -> remaining st < S n -> atEnd st = false ->
  ok src (parseForkSpliceStmt R b) st.
Proof. intros. unfold parseForkSpliceStmt. pauto. Qed.

Lemma ok_danglingElse st : wf src st -> ok src danglingElse st.
Proof. intros. unfold danglingElse. pauto. Qed.
Hint Resolve ok_danglingElse : pok.

(** A report in between does not change what the current token is. *)
Lemma at_quiet k st st' : cur st' = cur st -> at_ k st = true -> at_ k st' = true.
Proof. unfold at_. by intros ->. Qed.
Hint Extern 4 (at_ _ ?st' = true) =>
  match goal with H : cur st' = cur _ |- _ => eapply at_quiet; [exact H | eassumption] end : pok pokS.
Hint Extern 4 (atEnd _ = false) => solve [not_end] : pok pokS.
Hint Resolve ok_parseForSpliceStmt ok_parseForkSpliceStmt : pok.

Lemma ok_some {A} (p : P A) st : ok src p st -> ok src (some p) st.
Proof. intros H. unfold some. apply wp_bind. eapply wp_mono; [exact H|]. done. Qed.
Hint Resolve ok_some : pok.

Lemma ok_set_init_checked s st : wf src st -> ok src (set_init_checked s) st.
Proof. intros. unfold set_init_checked. pauto. Qed.
Hint Resolve ok_set_init_checked : pok.

Lemma ok_tryParseComptime st : wf src st -> remaining st < S n -> ok src (tryParseComptime src R) st.
Proof. intros. unfold tryParseComptime. pauto. Qed.
Hint Resolve ok_tryParseComptime : pok.

Lemma ok_parseAnchor st : wf src st -> ok src parseAnchor st.
Proof. intros. unfold parseAnchor. pauto. Qed.
Hint Resolve ok_parseAnchor : pok.

Lemma ok_catchClause st : wf src st -> remaining st < n -> ok src (catchClause R) st.
Proof. intros. unfold catchClause. pauto. Qed.
Hint Resolve ok_catchClause : pok.

Lemma ok_parenCond st : wf src st -> remaining st < n -> ok src (parenCond R) st.
Proof. intros. unfold parenCond. pauto. Qed.
Hint Resolve ok_parenCond : pok.

Lemma ok_exprUnless k st : wf src st -> remaining st < n -> ok src (exprUnless R k) st.
Proof. intros. unfold exprUnless. pauto. Qed.
Hint Resolve ok_exprUnless : pok.

Lemma ok_parseFor sp st : wf src st -> remaining st < n -> ok src (parseFor src R sp) st.
Proof. intros. unfold parseFor. pauto. Qed.
Hint Resolve ok_parseFor : pok.

Lemma ok_jump nd st : wf src st -> ok src (jump nd) st.
Proof. intros. unfold jump. pauto. Qed.
Hint Resolve ok_jump : pok.

Lemma ok_exprStatement st : wf src st -> remaining st < S n -> ok src (exprStatement src R) st.
Proof. intros. unfold exprStatement. pauto. Qed.
Hint Resolve ok_exprStatement : pok.

Lemma ok_catches acc st : wf src st -> remaining st < S n ->
  ok src (loop (fun acc => let! c := accept TkKwCatch in
      if c then let! cl := catchClause R in ret (inl (acc ++ [cl])) else ret (inr acc)) acc) st.
Proof. ploop. Qed.
Hint Resolve ok_catches : pok.

(** The [default] of the [switch]. *)
Lemma ok_statementDefault st : wf src st -> remaining st < S n ->
  ok src (let! ct := tryParseComptime src R in
          match ct with
          | Some s => ret (Some s)
          | None => let! v := gets looksLikeVarDecl in
                    if v : bool then some (parseVarDecl src R) else some (exprStatement src R)
          end) st.
Proof. intros. pauto. Qed.

Lemma ok_statementBody st : wf src st -> remaining st < S n -> ok src (statementBody src R) st.
Proof.
  intros H Hr. unfold statementBody. apply wp_bind, wp_gets. pose proof (ok_statementDefault st H Hr) as Hd.
  cbv zeta. assert (forall k, kind (cur st) = k -> at_ k st = true) as Hat by (intros k Hk; by apply kind_eqb_eq).
  destruct (kind (cur st)) eqn:K; try exact Hd; specialize (Hat _ eq_refl); try solve [pauto].
Qed.
Hint Resolve ok_statementBody : pok.

Lemma ok_parseStatement st : wf src st -> remaining st < S n -> ok src (parseStatement src R) st.
Proof. intros. unfold parseStatement, labeledLoopAhead. pauto. Qed.
Hint Resolve ok_parseStatement : pok.

(** ** Attributes *)

Lemma ok_gets {A} (f : PState -> A) st : wf src st -> ok src (gets f) st.
Proof. intros. by apply ext_refl. Qed.

Lemma ok_spanToHere sp st : wf src st -> ok src (spanToHere sp) st.
Proof. apply ok_gets. Qed.
Hint Resolve ok_spanToHere : pok.

Lemma ok_attrPath name st : wf src st -> ok src (attrPath name) st.
Proof. intros H. apply ok_loop; [done|]. intros [path nm] st1 E1. pauto. Qed.
Hint Resolve ok_attrPath : pok.

Lemma ok_attrGroup st : wf src st -> ok src attrGroup st.
Proof. ploop. Qed.
Hint Resolve ok_attrGroup : pok.

Lemma ok_parseAttrUses st : wf src st -> remaining st < S n -> ok src (parseAttrUses R) st.
Proof. intros H Hr. apply ok_loop; [done|]. intros [out g] st1 E1. pauto. Qed.
Hint Resolve ok_parseAttrUses : pok.

Lemma ok_attach f attrs g m s st : wf src st -> ok src (attach f attrs g m s) st.
Proof. intros. unfold attach. pauto. Qed.
Hint Resolve ok_attach : pok.

(** ** Members *)

Lemma ok_tryParseNameSynth st : wf src st -> remaining st < S n -> ok src (tryParseNameSynth R) st.
Proof. intros. unfold tryParseNameSynth. pauto. Qed.
Hint Resolve ok_tryParseNameSynth : pok.

Lemma ok_selectorText st : wf src st -> ok src (selectorText src) st.
Proof.
  intros H. unfold selectorText, ok. pstart. pose proof (cur_wf src st H) as (W & _). unfold span_end in W.
  do 3 pstep. eapply (wp_call src); [ploop|]. intros e st2 E2. absorb E2.
  eapply (wp_call src); [apply source_substr_ok; [lia|done]|]. intros ? ? E2. absorb E2. pfinish.
Qed.
Hint Resolve ok_selectorText : pok.

Lemma ok_modifiers c st : wf src st -> ok src (modifiers c) st.
Proof.
  intros H. apply ok_loop; [done|]. intros [] st1 E1. pstart. do 2 pstep.
  destruct (kind (cur st1)) eqn:K; try (apply wp_ret; pfinish); repeat pstep; pfinish.
Qed.
Hint Resolve ok_modifiers : pok.

Lemma ok_weakError w sp st : wf src st -> ok src (weakError w sp) st.
Proof. intros. unfold weakError. pauto. Qed.
Hint Resolve ok_weakError : pok.

Lemma ok_parseCtor acc w st : wf src st -> remaining st < n -> ok src (parseCtor src R acc w) st.
Proof. intros. unfold parseCtor. pauto. Qed.
Hint Resolve ok_parseCtor : pok.

Lemma ok_parseAccessor acc m w st : wf src st -> remaining st < S n -> atEnd st = false ->
  ok src (parseAccessor src R acc m w) st.
Proof. intros. unfold parseAccessor, weakError. pauto. Qed.

Lemma ok_parseTypedMember acc f st : wf src st -> remaining st < S n -> ok src (parseTypedMember src R acc f) st.
Proof. intros. unfold parseTypedMember, weakError. pauto. Qed.
Hint Resolve ok_parseAccessor ok_parseTypedMember : pok.

Lemma ok_accessOpt d st : wf src st -> ok src (accessOpt d) st.
Proof. intros. unfold accessOpt. pauto. Qed.
Hint Resolve ok_accessOpt : pok.

Lemma ok_parseClassMemberInner a c st : wf src st -> remaining st < S n ->
  ok src (parseClassMemberInner src R a c) st.
Proof. intros. unfold parseClassMemberInner. pauto. Qed.
Hint Resolve ok_parseClassMemberInner : pok.

Lemma ok_parseClassMember a c st : wf src st -> remaining st < S n -> ok src (parseClassMember src R a c) st.
Proof. intros. unfold parseClassMember. pauto. Qed.
Hint Resolve ok_parseClassMember : pok.

(** ** Classes, enums, namespaces *)

Lemma ok_classBody st : wf src st -> remaining st < n -> ok src (classBody src R) st.
Proof.
  intros H Hr. apply ok_loop; [done|]. intros [[body section] cst] st1 E1. pstart.
  do 3 pstep; [repeat pstep; pfinish|]. do 2 (pstep; [repeat pstep; pfinish|]). pstep.
  assert (ok src (if spliceHeadAhead st1 then rFragmentStmt R BodyMember
                  else parseClassMember src R section cst) st1) as Hm by (case_match; eauto with pok).
  eapply (wp_call src); [exact Hm|]. intros m st2 E2.
  assert (pos_ st2 = pos_ st1 -> atEnd st2 = false) as Hs by (by eapply stuck_not_end). absorb E2.
  do 3 pstep. destruct (pos_ st2 =? pos_ st1)%nat eqn:Ep; bool_hyps; [specialize (Hs Ep)|]; repeat pstep; pfinish.
Qed.
Hint Resolve ok_classBody : pok.

Lemma ok_parseClass acc i v st : wf src st -> remaining st < S n -> atEnd st = false ->
  ok src (parseClass src R acc i v) st.
Proof. intros. unfold parseClass. pauto. Qed.

Lemma ok_enumMembers st : wf src st -> remaining st < S n -> ok src (enumMembers R) st.
Proof. ploop. Qed.
Hint Resolve ok_enumMembers : pok.

Lemma ok_parseEnum acc st : wf src st -> remaining st < S n -> atEnd st = false ->
  ok src (parseEnum R acc) st.
Proof. intros. unfold parseEnum. pauto. Qed.

Lemma ok_namespaceNames st : wf src st -> ok src namespaceNames st.
Proof.
  intros. unfold namespaceNames, ok. pstart. repeat pstep; (eapply (wp_call src); [ploop|]);
    intros ? ? E2; absorb E2; pfinish.
Qed.
Hint Resolve ok_namespaceNames : pok.

Lemma ok_itemLoop st : wf src st -> remaining st < n ->
  ok src (bodyLoop (at_ TkRBrace) (rTopLevelItem R) "declaration") st.
Proof.
  intros. apply ok_bodyLoop; [done|]. intros st1 E1 _. pose proof (ext_rem _ _ _ E1).
  pose proof (ext_wf _ _ _ E1). eauto with pok.
Qed.
Hint Resolve ok_itemLoop : pok.

Lemma ok_parseNamespace st : wf src st -> remaining st < S n -> atEnd st = false ->
  ok src (parseNamespace R) st.
Proof. intros. unfold parseNamespace. pauto. Qed.
Hint Resolve ok_parseClass ok_parseEnum ok_parseNamespace : pok.

(** ** Fragments *)

Lemma withSemicolon_wf q toks : tok_wf src (semi_token q) -> toks_wf src toks ->
  toks_wf src (withSemicolon q toks) /\ weights (withSemicolon q toks) <= S (weights toks).
Proof.
  intros Hs (init & e & -> & He & Hi & Hf). unfold withSemicolon. rewrite rev_app_distr. cbn [rev app].
  destruct (rev init) as [|l r] eqn:Er; [by split; [exists init, e|lia]|].
  assert (init = rev r ++ [l]) as -> by (rewrite <- (rev_involutive init), Er; done).
  assert (toks_wf src (rev (e :: semi_token q :: l :: r)) /\
          weights (rev (e :: semi_token q :: l :: r)) <= S (weights ((rev r ++ [l]) ++ [e]))) as Hins.
  { cbn [rev]. split.
    - exists ((rev r ++ [l]) ++ [semi_token q]), e. split_and!; [done|done| |].
      + apply Forall_app. split; [done|by repeat constructor].
      + apply Forall_app in Hf as [Hf1 Hf2]. rewrite !Forall_app. rewrite Forall_app in Hf1.
        destruct Hf1. split_and!; auto.
    - unfold weights. rewrite !sum_list_with_app. cbn. lia. }
  destruct (kind l); (exact Hins || (split; [by exists (rev r ++ [l]), e|lia])).
Qed.

(** Re-lexing a quasiquote: its payload and one semicolon weigh no more than
    the literal. *)
Lemma wp_quasiLex q st (Q : list Token -> PState -> Prop) :
  wf src st -> span_end q <= length src -> 2 <= slength q ->
  (forall ts st', ext src st st' -> toks_wf src ts -> S (weights ts) <= slength q -> Q ts st') ->
  wp (quasiLex src q) st Q.
Proof.
  intros H Hq Hl HQ. unfold span_end in Hq. unfold quasiLex, span_end. apply wp_subLex; [done|lia|lia|].
  intros ts st' E Hw Hwt. apply HQ; [done|done|lia].
Qed.

Lemma ok_fragLoopR stop keep b what st : wf src st -> remaining st < n ->
  ok src (fragLoop stop keep (rFragmentStmt R b) what) st.
Proof.
  intros. apply ok_fragLoop; [done|]. intros st1 E1. pose proof (ext_rem _ _ _ E1).
  pose proof (ext_wf _ _ _ E1). eauto with pok.
Qed.
Hint Resolve ok_fragLoopR : pok.

Lemma semi_wf q : span_end q <= length src -> tok_wf src (semi_token q).
Proof.
  intros H. unfold tok_wf, semi_token, span_end in *. cbn. rewrite substr_0. split_and!; [lia|done|done].
Qed.

Section Fragment.
Context (q : SourceSpan) (Hq : span_end q <= length src) (Hl : slength q < n).

Lemma ok_parseStmtsFragment st : wf src st -> ok src (parseStmtsFragment src R q) st.
Proof.
  intros H. unfold parseStmtsFragment, ok. pstart. destruct (Nat.ltb_spec (slength q) 2); [by apply wp_ret|].
  apply wp_bind, wp_quasiLex; [done|done|done|]. intros ts st' E2 Hw Hwt. absorb E2.
  destruct (withSemicolon_wf q ts (semi_wf q Hq) Hw) as [Hw2 Hwt2].
  eapply (wp_call src); [apply ok_subParse; [done|done|]|intros ? ? E2; absorb E2; pfinish].
  intros sub Hs Hr. apply ok_fragLoopR; [done|lia].
Qed.

Lemma ok_parseMemberFragment st : wf src st -> ok src (parseMemberFragment src R q) st.
Proof.
  intros H. unfold parseMemberFragment, ok. pstart. destruct (Nat.ltb_spec (slength q) 2); [by apply wp_ret|].
  apply wp_bind, wp_quasiLex; [done|done|done|]. intros ts st' E2 Hw Hwt. absorb E2.
  eapply (wp_call src); [apply ok_subParse; [done|done|]|intros ? ? E2; absorb E2; pfinish].
  intros sub Hs Hr. pauto.
Qed.

Lemma ok_parseItemsFragment st : wf src st -> ok src (parseItemsFragment src R q) st.
Proof.
  intros H. unfold parseItemsFragment, ok. pstart. destruct (Nat.ltb_spec (slength q) 2); [by apply wp_ret|].
  apply wp_bind, wp_quasiLex; [done|done|done|]. intros ts st' E2 Hw Hwt. absorb E2.
  eapply (wp_call src); [apply ok_subParse; [done|done|]|intros ? ? E2; absorb E2; pfinish].
  intros sub Hs Hr. apply ok_fragLoopR; [done|lia].
Qed.

Lemma ok_parseExprFragment st : wf src st -> ok src (parseExprFragment src R q) st.
Proof.
  intros H. unfold parseExprFragment, ok. pstart. destruct (Nat.ltb_spec (slength q) 2); [by apply wp_ret|].
  apply wp_bind, wp_quasiLex; [done|done|done|]. intros ts st' E2 Hw Hwt. absorb E2.
  eapply (wp_call src); [apply ok_subParse; [done|done|]|intros ? ? E2; absorb E2; pfinish].
  intros sub Hs Hr. pauto.
Qed.
End Fragment.

(** The span of the current token, when something is left of it. *)
Lemma quasi_bounds st : wf src st -> atEnd st = false ->
  span_end (span (cur st)) <= length src /\ slength (span (cur st)) <= remaining st.
Proof.
  intros H He. pose proof (cur_wf src st H) as Ht. pose proof (tok_wf_length src _ Ht).
  pose proof (text_remaining src st H He). destruct Ht as [Ht _]. split; [done|lia].
Qed.

(** ** Rules and macros *)

Lemma ok_declKindOr what st : wf src st -> ok src (declKindOr what) st.
Proof. intros. unfold declKindOr. pauto. Qed.
Hint Resolve ok_declKindOr : pok.

Lemma ok_ruleEncloser st : wf src st -> remaining st < n -> ok src (ruleEncloser R) st.
Proof. intros. unfold ruleEncloser. pauto. Qed.
Hint Resolve ok_ruleEncloser : pok.

Lemma ok_ruleAttr st : wf src st -> ok src ruleAttr st.
Proof.
  intros. unfold ruleAttr, ok. pstart. repeat pstep.
  eapply (wp_call src); [apply (ok_loop src); [assumption|]; intros [path nm] st1 E1; pauto|].
  intros ? ? E2; absorb E2; repeat pstep; pfinish.
Qed.
Hint Resolve ok_ruleAttr : pok.

Lemma ok_enclosers acc st : wf src st -> remaining st < S n ->
  ok src (loop (fun acc => let! q := accept TkKwIn in
      if q then let! l := ruleEncloser R in ret (inl (acc ++ [l])) else ret (inr acc)) acc) st.
Proof. ploop. Qed.
Hint Resolve ok_enclosers : pok.

Lemma ok_parseRuleMatch st : wf src st -> remaining st < n -> ok src (parseRuleMatch R) st.
Proof. intros. unfold parseRuleMatch. pauto. Qed.
Hint Resolve ok_parseRuleMatch : pok.

Lemma ok_parseAnchorClause st : wf src st -> ok src parseAnchorClause st.
Proof. intros. unfold parseAnchorClause. pauto. Qed.
Hint Resolve ok_parseAnchorClause : pok.
Hint Resolve ok_parseStmtsFragment ok_parseMemberFragment ok_parseItemsFragment ok_parseExprFragment : pok.

Lemma okS_parseRuleAction g st : wf src st -> remaining st < S n -> atEnd st = false ->
  okS src (parseRuleAction src R g) st.
Proof.
  intros H Hr He. unfold parseRuleAction, okS. pstart. do 2 pstep. cbv zeta. do 5 pstep; [|repeat pstep; pfinish].
  apply kind_eqb_eq in Heqb.
  destruct (quasi_bounds st' ltac:(assumption) (kind_not_end _ _ Heqb ltac:(discriminate))) as [Q1 Q2].
  assert (slength (span (cur st')) < n) as Q3 by lia. cbv zeta. repeat pstep; pfinish.
Qed.
Hint Resolve okS_parseRuleAction : pokS.

Lemma ok_ruleMarkers k h st : wf src st -> ok src (ruleMarkers k h) st.
Proof.
  revert h st. induction k as [|k IH]; intros [[[rw gen] re] target] st H; cbn [ruleMarkers]; [pauto|].
  unfold ok. pstart. cbv zeta. repeat pstep; pfinish.
Qed.
Hint Resolve ok_ruleMarkers : pok.

Lemma ok_parseRule acc st : wf src st -> remaining st < S n -> atEnd st = false ->
  ok src (parseRule src R acc) st.
Proof.
  intros H Hr He. unfold parseRule, ok. pstart. repeat pstep.
  all: eapply (wp_call src); [ploop|intros ? ? E2; absorb E2; repeat pstep; pfinish].
Qed.

Lemma ok_macroParams st : wf src st -> ok src macroParams st.
Proof. ploop. Qed.
Hint Resolve ok_macroParams : pok.

Lemma ok_skipToRParen st : wf src st ->
  ok src (skipWhile (fun st => negb (at_ TkRParen st) && negb (atEnd st))) st.
Proof. intros. apply ok_skipWhile; [|done]. intros st' Hs. by token_facts. Qed.
Hint Resolve ok_skipToRParen : pok.

Lemma ok_parseMacroDecl acc st : wf src st -> remaining st < S n -> atEnd st = false ->
  ok src (parseMacroDecl src R acc) st.
Proof.
  intros H Hr He. unfold parseMacroDecl, ok. pstart. repeat pstep; try solve [pfinish].
  all: match goal with K : kind_eqb (kind (cur ?s)) TkQuasiLiteral = true |- _ =>
         apply kind_eqb_eq in K;
         destruct (quasi_bounds s ltac:(assumption) (kind_not_end _ _ K ltac:(discriminate))) as [Q1 Q2];
         assert (slength (span (cur s)) < n) by lia
       end; repeat pstep; pfinish.
Qed.

Lemma ok_parseAttributeDecl acc st : wf src st -> remaining st < S n -> atEnd st = false ->
  ok src (parseAttributeDecl src R acc) st.
Proof.
  intros H Hr He. unfold parseAttributeDecl, ok. pstart. repeat pstep.
  eapply (wp_call src); [apply ok_bodyLoop; [assumption|]|intros ? ? E2; absorb E2; repeat pstep; pfinish].
  intros st1 E1 _. pauto.
Qed.
Hint Resolve ok_parseRule ok_parseMacroDecl ok_parseAttributeDecl : pok.

(** ** Top-level items *)

Lemma ok_parseConstGlobal acc st : wf src st -> remaining st < S n -> ok src (parseConstGlobal src R acc) st.
Proof. intros. unfold parseConstGlobal. pauto. Qed.

Lemma ok_parseDeclOrFunc acc st : wf src st -> remaining st < S n -> ok src (parseDeclOrFunc src R acc) st.
Proof. intros. unfold parseDeclOrFunc. pauto. Qed.
Hint Resolve ok_parseConstGlobal ok_parseDeclOrFunc : pok.

Lemma ok_itemBody acc st : wf src st -> remaining st < S n -> ok src (itemBody src R acc) st.
Proof.
  intros H Hr. unfold itemBody, contextual, ruleAhead. apply wp_bind, wp_gets. unfold id.
  destruct (at_word "attribute" st && _ && _) eqn:E1; [pauto|].
  destruct (at_word "rule" st && _ && _) eqn:E2.
  { assert (atEnd st = false) by (token_facts; by eapply word_not_end). clear E2. pauto. }
  destruct (at_word "macro" st && _ && _) eqn:E3.
  { assert (atEnd st = false) by (token_facts; by eapply word_not_end). clear E3 E2 E1. pauto. }
  clear E1 E2 E3.
  assert (ok src (if labeledLoopAhead st then parseStatement src R
                  else if declOrFuncAhead st then some (parseDeclOrFunc src R acc)
                  else some (exprStatement src R)) st) as Hd by pauto.
  destruct (kind (cur st)) eqn:K; try exact Hd; pauto.
Qed.
Hint Resolve ok_itemBody : pok.

Lemma ok_parseTopLevelItemInner st : wf src st -> remaining st < S n ->
  ok src (parseTopLevelItemInner src R) st.
Proof. intros. unfold parseTopLevelItemInner. pauto. Qed.
Hint Resolve ok_parseTopLevelItemInner : pok.

Lemma ok_parseTopLevelItem st : wf src st -> remaining st < S n -> ok src (parseTopLevelItem src R) st.
Proof. intros. unfold parseTopLevelItem. pauto. Qed.
Hint Resolve ok_parseTopLevelItem : pok.

Lemma ok_parseFragmentStmt b st : wf src st -> remaining st < S n -> ok src (parseFragmentStmt src R b) st.
Proof. intros. unfold parseFragmentStmt. pauto. Qed.
End Grammar.

(** ** Every nesting depth *)

Lemma grammar_ok src n : Rok src n (grammar src n).
Proof.
  induction n as [|n IH]; [constructor; intros; lia|].
  constructor; cbn [grammar rType rExpr rUnary rForkSpliceExpr rStatement rFragmentStmt rForkTail rTopLevelItem]; intros.
  - by apply (ok_parseType src n).
  - by apply (okS_parseExpr src n).
  - by apply okS_ok, (okS_parseUnary src n).
  - apply (ok_parseForkSpliceExpr src n); [done|done|lia].
  - by apply (ok_parseStatement src n).
  - by apply (ok_parseFragmentStmt src n).
  - apply (ok_parseForkTail src n); [done|done|lia].
  - by apply (ok_parseTopLevelItem src n).
Qed.

(** ** The entry points *)

(** What a run of the parser leaves behind: no token is read twice, the token
    list only changes by splitting a [>>], diagnostics are only added. *)
Lemma runParser_ok {A} src toks s (p : Rec -> P A) (Q : A -> PState -> Prop) :
  toks_wf src toks ->
  (forall R st, Rok src (S (weights toks)) R -> wf src st -> st = MkP toks 0 s false ->
     wp (p R) st Q) ->
  exists a st, runParser src toks s p = POk a st /\ Q a st.
Proof.
  intros Ht Hp. unfold runParser. cbv zeta. set (st0 := MkP toks 0 s false).
  assert (wf src st0) as Hw.
  { split; [done|]. destruct Ht as (init & e & -> & _). cbn. rewrite length_app. cbn. lia. }
  specialize (Hp (grammar src (S (remaining st0))) st0 (grammar_ok _ _) Hw eq_refl). unfold wp in Hp.
  destruct (p _ st0) as [a st| |]; [by exists a, st|done|done].
Qed.

(** The parser reached the [End] token, with the token list as long as it was
    and no diagnostic lost. *)
Definition parsed {A} (toks : list Token) (s : DiagnosticSink) (r : PRes A) : Prop :=
  exists a st, r = POk a st /\ S (pos_ st) = length toks /\ length (tokens_ st) = length toks /\
    sink_le s (sink_ st).

Lemma ext_parsed {A} src toks s (a : A) st st' :
  st = MkP toks 0 s false -> ext src st st' -> atEnd st' = true -> parsed toks s (POk a st').
Proof.
  intros -> E He. exists a, st'. pose proof (ext_len _ _ _ E) as Hl. cbn in Hl.
  split; [done|]. split; [|split; [done|apply E]].
  destruct (ext_wf _ _ _ E) as [Hw Hp]. destruct (decide (S (pos_ st') = length toks)); [done|].
  rewrite (last_not_atEnd src) in He; [done|by split|lia].
Qed.

(** On every well-formed token list the parser returns a program. *)
Lemma parseProgram_total src toks s :
  toks_wf src toks -> parsed toks s (parseProgram src toks s).
Proof.
  intros Ht. unfold parseProgram.
  destruct (runParser_ok src toks s (fun R =>
    let! its := bodyLoop (fun _ => false) (rTopLevelItem R) "declaration" in
    let! meta := gets sawMeta_ in ret (MkProgram its meta))
    (fun a st => parsed toks s (POk a st)) Ht) as (a & st & -> & Hr); [|exact Hr].
  intros R st0 HR Hw Hst. apply wp_bind. eapply wp_mono; [apply wp_bodyLoop; [done|]|].
  - intros st1 E1 _. apply (rok_item src (S (weights toks))); [done|apply E1|].
    pose proof (ext_rem _ _ _ E1). assert (remaining st0 = weights toks) by (by rewrite Hst). lia.
  - intros its st' [E He]. repeat pstep. by eapply ext_parsed.
Qed.

(** [C3] The front end is total: a source text that does not end in a
    backslash (see [tokenize_trailing_backslash_throws]) lexes, and the parser
    returns a program for it, whatever the text: no [substr] of the parser leaves
    the text, every loop and every recursion ends (within as many nested
    nonterminals as there are bytes), the cursor ends on the final [End] token,
    and no diagnostic of the lexer is lost. *)
Theorem parseFile_total src : ~ ends_in_bslash src 0 ->
  exists toks s, tokenize src false empty_sink = LexDone toks s /\ parsed toks s (parseFile src).
Proof.
  intros Hb. destruct (tokenize_ok src false empty_sink Hb) as (toks & s & E & Hw & _).
  exists toks, s. split; [done|]. unfold parseFile. rewrite E. by apply parseProgram_total.
Qed.

(** A concrete program with generics, a class and a quasiquoted rule. *)
Definition sample_source : str :=
  lit "class A<T> : B<C<T>> { int x = 1 + 2; } rule R { match on class C inject `int y;` at member of C }".

Lemma parseFile_total_witness :
  exists toks s, tokenize sample_source false empty_sink = LexDone toks s /\ parsed toks s (parseFile sample_source).
Proof.
  apply (parseFile_total sample_source). intros [_ H]. vm_compute in H. discriminate H.
Defined.
