(* ===== verification/AstPrinter.v ===== *)
(** * The source printer

    Models [src/meta/AstPrinter.cpp]: types and expressions as text, and the
    source-shaped printer behind [--expand], which re-emits a program so that
    the output can be compiled again.  [typeStr] and [exprStr] are also used by
    the tree dump ([--ast]), whose indented statement lines are not modelled.
    The printer's string member [out] is the value returned here.  The two side
    inputs of [printProgramSource] are arguments: the provenance records, and
    the lookup of literals that were folded from an [import()] call. *)

From S2P Require Import Prelude Token Ast.

Definition opSymbol (k : TokenKind) : str :=
  match k with
  | TkPlus => lit "+" | TkMinus => lit "-" | TkStar => lit "*" | TkSlash => lit "/"
  | TkPercent => lit "%" | TkEqEq => lit "==" | TkBangEq => lit "!=" | TkLt => lit "<"
  | TkGt => lit ">" | TkLe => lit "<=" | TkGe => lit ">=" | TkLtLt => lit "<<" | TkGtGt => lit ">>"
  | TkAmpAmp => lit "&&" | TkPipePipe => lit "||" | TkAmp => lit "&" | TkPipe => lit "|"
  | TkEq => lit "=" | TkQuestionQuestion => lit "??" | TkBang => lit "!"
  | _ => lit "?"
  end.

(** Lists joined by a separator. *)
Fixpoint join {A} (sep : list A) (ss : list (list A)) : list A :=
  match ss with
  | [] => []
  | [s] => s
  | s :: ss' => s ++ sep ++ join sep ss'
  end.

Definition labelPrefix (label : str) : str := match label with [] => [] | _ => label ++ lit ": " end.

(** ** Types *)

Fixpoint typeStr (t : TypeRef) : str :=
  match t with
  | TInferred _ => lit "var"
  | TUnion _ ms => join (lit " | ") (map typeStr ms)
  | TFunction _ ps r => lit "(" ++ join (lit ", ") (map typeStr ps) ++ lit ") => " ++ typeStr r
  | TNamed _ path name gs _ _ =>
      concat (map (fun seg => seg ++ lit "::") path) ++ name ++
      match gs with [] => [] | _ => lit "<" ++ join (lit ", ") (map typeStr gs) ++ lit ">" end
  end.

Definition typeList (ts : list TypeRef) (sep : str) : str := join sep (map typeStr ts).
Definition typeStrOpt (t : option TypeRef) : str := match t with Some t => typeStr t | None => lit "?" end.

(** [::<T, U>], when there are type arguments. *)
Definition turbofish (ts : list TypeRef) : str :=
  match ts with [] => [] | _ => lit "::<" ++ typeList ts (lit ", ") ++ lit ">" end.

(** ** Expressions *)

Section Literals.

(** [g_importLits]: the file and size of an imported literal, by span offset. *)
Context (importLits : nat -> option (str * Z)).

Definition srcString (sp : SourceSpan) (tx : str) (f : StringFlags) : str :=
  if isRawSegment f then
    let q := if singleQuoted f then "'"%char else c_quote in [q] ++ tx ++ [q]
  else match importLits (offset sp) with
       | Some (rel, bytes) =>
           if (200 <? bytes)%Z
           then [c_quote] ++ lit "…(" ++ to_string bytes ++ lit " bytes, imported: " ++ rel ++ lit ")…" ++ [c_quote]
           else tx
       | None => tx
       end.

Definition arg_label (e : Expr) : str :=
  match e with MkExpr _ l _ _ _ => labelPrefix l end.

(** The separator of a member access. *)
Definition memberSep (colon optChain : bool) : str :=
  if colon then lit "::" else if optChain then lit "?." else lit ".".

Definition param_name (p : Param) : str := match p with MkParam _ n _ _ _ => n end.

(** The expression printer of the tree dump, also used for the default values
    of parameters. *)
Fixpoint exprStr (e : Expr) : str :=
  match e with
  | MkExpr sp _ _ targs n =>
      match n with
      | EIntLit t | EFloatLit t | EBoolLit t | EName t => t ++ turbofish targs
      | EStringLit t f => srcString sp t f
      | EThis => lit "this"
      | EMember b colon opt t => exprStr b ++ memberSep colon opt ++ t ++ turbofish targs
      | ECall f m args =>
          exprStr f ++ turbofish targs ++ (if m then lit "!(" else lit "(") ++
          join (lit ", ") (map (fun a => arg_label a ++ exprStr a) args) ++ lit ")"
      | EIndex b i => exprStr b ++ lit "[" ++ exprStr i ++ lit "]"
      | EUnary op a => opSymbol op ++ exprStr a
      | EBinary op a b => lit "(" ++ exprStr a ++ lit " " ++ opSymbol op ++ lit " " ++ exprStr b ++ lit ")"
      | ETernary a b c =>
          lit "(" ++ exprStr a ++ lit " ? " ++ exprStr b ++ lit " : " ++ exprStr c ++ lit ")"
      | EArray es => lit "[" ++ join (lit ", ") (map (fun a => arg_label a ++ exprStr a) es) ++ lit "]"
      | EForSplice v a b => lit "$for " ++ v ++ lit " in " ++ exprStr a ++ lit " : " ++ exprStr b
      | EForkSplice a b c =>
          lit "$if (" ++ exprStr a ++ lit ") { " ++ exprStr b ++ lit " }" ++
          match c with Some c => lit " $else { " ++ exprStr c ++ lit " }" | None => [] end
      | ELambda ps body =>
          lit "(" ++
          join (lit ", ") (map (fun p => match p with
                                         | MkParam ty n _ _ d =>
                                             match ty with Some t => typeStr t ++ lit " " | None => [] end ++ n ++
                                             match d with Some d => lit " = " ++ exprStr d | None => [] end
                                         end) ps) ++
          lit ") => " ++ match body with BBlock _ => lit "{ ... }" | BExpr a => exprStr a end
      | EAwait a => lit "await " ++ exprStr a
      | EInject t => lit "inject " ++ typeStr t
      | EExtract a => lit "(" ++ exprStr a ++ lit " >>)"
      | ERange a b => lit "(" ++ exprStr a ++ lit " .. " ++ exprStr b ++ lit ")"
      | EIs a t => lit "(" ++ exprStr a ++ lit " is " ++ typeStr t ++ lit ")"
      | EMatch a arms =>
          lit "match(" ++ exprStr a ++ lit ") {" ++
          concat (map (fun arm => match arm with
                                  | MkArm pat body _ =>
                                      lit " " ++
                                      match pat with
                                      | PElse => lit "else" | PType t => typeStr t | PValue v => exprStr v
                                      end ++
                                      lit " => " ++
                                      match body with BBlock _ => lit "{...}" | BExpr b => exprStr b end ++ lit ";"
                                  end) arms) ++ lit " }"
      end
  end.

Definition paramList (ps : list Param) : str :=
  join (lit ", ") (map (fun p => match p with
    | MkParam ty n _ _ d =>
        match ty with Some t => typeStr t ++ lit " " | None => [] end ++ n ++
        match d with Some d => lit " = " ++ exprStr d | None => [] end
    end) ps).

(** Expressions and one-line statements as source text. *)
Fixpoint srcExpr (e : Expr) : str :=
  match e with
  | MkExpr sp _ _ targs n =>
      match n with
      | EStringLit t f => srcString sp t f
      | EIntLit t | EFloatLit t | EBoolLit t | EName t => t ++ turbofish targs
      | EThis => lit "this"
      | EMember b colon opt t => srcExpr b ++ memberSep colon opt ++ t ++ turbofish targs
      | ECall f m args =>
          srcExpr f ++ turbofish targs ++ (if m then lit "!(" else lit "(") ++
          join (lit ", ") (map (fun a => arg_label a ++ srcExpr a) args) ++ lit ")"
      | EIndex b i => srcExpr b ++ lit "[" ++ srcExpr i ++ lit "]"
      | EUnary op a => opSymbol op ++ srcExpr a
      | EBinary op a b => lit "(" ++ srcExpr a ++ lit " " ++ opSymbol op ++ lit " " ++ srcExpr b ++ lit ")"
      | ETernary a b c =>
          lit "(" ++ srcExpr a ++ lit " ? " ++ srcExpr b ++ lit " : " ++ srcExpr c ++ lit ")"
      | EArray es => lit "[" ++ join (lit ", ") (map (fun a => arg_label a ++ srcExpr a) es) ++ lit "]"
      | ERange a b => lit "(" ++ srcExpr a ++ lit " .. " ++ srcExpr b ++ lit ")"
      | ELambda ps body =>
          lit "(" ++ join (lit ", ") (map param_name ps) ++ lit ") => " ++
          match body with
          | BExpr a => srcExpr a
          | BBlock b =>
              lit "{ " ++
              match b with
              | MkStmt _ _ _ _ _ _ (SBlock ss) => concat (map (fun s => srcStmtInline s ++ lit " ") ss)
              | _ => srcStmtInline b ++ lit " "
              end ++ lit "}"
          end
      | EAwait a => lit "await " ++ srcExpr a
      | EInject t => lit "inject " ++ typeStr t
      | EExtract a => lit "(" ++ srcExpr a ++ lit " >>)"
      | EIs a t => lit "(" ++ srcExpr a ++ lit " is " ++ typeStr t ++ lit ")"
      | EForSplice v a b => lit "$for " ++ v ++ lit " in " ++ srcExpr a ++ lit " : " ++ srcExpr b
      | EForkSplice a b c =>
          lit "$if (" ++ srcExpr a ++ lit ") { " ++ srcExpr b ++ lit " }" ++
          match c with Some c => lit " $else { " ++ srcExpr c ++ lit " }" | None => [] end
      | EMatch a arms =>
          lit "match (" ++ srcExpr a ++ lit ") {" ++
          concat (map (fun arm => match arm with
            | MkArm pat body _ =>
                lit " " ++
                match pat with
                | PElse => lit "else" | PType t => typeStr t | PValue v => srcExpr v
                end ++
                lit " => " ++
                match body with
                | BExpr b => srcExpr b
                | BBlock b =>
                    lit "{ " ++
                    match b with
                    | MkStmt _ _ _ _ _ _ (SBlock ss) => concat (map (fun s => srcStmtInline s ++ lit " ") ss)
                    | _ => srcStmtInline b ++ lit " "
                    end ++ lit "}"
                end ++ lit ";"
            end) arms) ++ lit " }"
      end
  end

with srcStmtInline (s : Stmt) : str :=
  match s with
  | MkStmt _ _ name label _ _ n =>
      match n with
      | SExprStmt e => srcExpr e ++ lit ";"
      | SReturn e => match e with Some e => lit "return " ++ srcExpr e ++ lit ";" | None => lit "return;" end
      | SVar isConst inferred _ ty init =>
          (if isConst then lit "const " else []) ++
          (if inferred then lit "var" else typeStrOpt ty) ++ lit " " ++ name ++
          match init with Some e => lit " = " ++ srcExpr e | None => [] end ++ lit ";"
      | SBlock ss => lit "{ " ++ concat (map (fun s => srcStmtInline s ++ lit " ") ss) ++ lit "}"
      | SIf c yes no =>
          lit "if (" ++ srcExpr c ++ lit ") " ++
          match yes with Some s => srcStmtInline s | None => lit ";" end ++
          match no with Some s => lit " else " ++ srcStmtInline s | None => [] end
      | SWhile c b =>
          labelPrefix label ++ lit "while (" ++ srcExpr c ++ lit ") " ++
          match b with Some s => srcStmtInline s | None => lit ";" end
      | SDoWhile b c =>
          labelPrefix label ++ lit "do " ++ match b with Some s => srcStmtInline s | None => lit ";" end ++
          lit " while (" ++ srcExpr c ++ lit ");"
      | SFor i c st b =>
          labelPrefix label ++ lit "for (" ++ match i with Some s => srcStmtInline s | None => lit ";" end ++
          lit " " ++ match c with Some e => srcExpr e | None => [] end ++
          lit "; " ++ match st with Some e => srcExpr e | None => [] end ++ lit ") " ++
          match b with Some s => srcStmtInline s | None => lit ";" end
      | SForIn _ inferred ty it b =>
          labelPrefix label ++ lit "for (" ++ (if inferred then lit "var" else typeStrOpt ty) ++
          lit " " ++ name ++ lit " in " ++ srcExpr it ++ lit ") " ++
          match b with Some s => srcStmtInline s | None => lit ";" end
      | STry b cs =>
          lit "try " ++ match b with Some s => srcStmtInline s | None => lit ";" end ++
          concat (map (fun c => match c with
            | MkCatch ty nm body =>
                lit " catch (" ++ typeStr ty ++ match nm with [] => [] | _ => lit " " ++ nm end ++ lit ") " ++
                match body with Some s => srcStmtInline s | None => lit ";" end
            end) cs)
      | SBreak => match label with [] => lit "break;" | _ => lit "break " ++ label ++ lit ";" end
      | SContinue => match label with [] => lit "continue;" | _ => lit "continue " ++ label ++ lit ";" end
      | SThrow e => lit "throw " ++ srcExpr e ++ lit ";"
      | SEmpty site =>
          match name with
          | [] => lit ";"
          | _ => if site then lit "@" ++ name ++ lit "();" else lit "@anchor(" ++ name ++ lit ");"
          end
      | _ => lit ";"
      end
  end.

Definition srcStmtOpt (s : option Stmt) : str :=
  match s with Some s => srcStmtInline s | None => lit ";" end.

(** ** Statements over lines *)

Record ExpandProvenance := MkProv { tmplStart : nat; tmplEnd : nat; comment : str }.

Context (prov : list ExpandProvenance).

Definition ind (n : nat) : str := replicate (n * 4) c_sp.
Definition lineOf (n : nat) (t : str) : str := ind n ++ t ++ [c_nl].

Definition provComment (n : nat) (sp : SourceSpan) : str :=
  match List.find (fun p => (tmplStart p <=? offset sp)%nat && (offset sp <? tmplEnd p)%nat) prov with
  | Some p => lineOf n (lit "// " ++ comment p)
  | None => []
  end.

Definition accessStr (a : Access) : str :=
  match a with AccPublic => lit "public " | AccPrivate => lit "private " | AccDefault => [] end.

Definition attrLine (n : nat) (a : AttrUse) : str :=
  match a with
  | MkAttr path name args _ =>
      lineOf n (lit "@" ++ concat (map (fun seg => seg ++ lit "::") path) ++ name ++
                match args with
                | [] => []
                | _ => lit "(" ++ join (lit ", ") (map (fun a => arg_label a ++ srcExpr a) args) ++ lit ")"
                end)
  end.

Definition genericsStr (gs : list str) : str :=
  match gs with [] => [] | _ => lit "<" ++ join (lit ", ") gs ++ lit ">" end.

Definition pathStr (path : list str) : str := join (lit "::") path.

(** [SourcePrinter::stmt] with [member], [emitBody] and [bracedBody]. *)
Fixpoint stmtSrc (n : nat) (s : Stmt) : str :=
  match s with
  | MkStmt sp access name label attrs cpt nd =>
      let emitBody head body :=
        match body with
        | None => lineOf n (head ++ lit ";")
        | Some b =>
            match b with
            | MkStmt _ _ _ _ _ _ (SBlock ss) =>
                lineOf n (head ++ lit " {") ++ concat (map (stmtSrc (S n)) ss) ++ lineOf n (lit "}")
            | MkStmt _ _ _ _ _ _ (SReturn (Some e)) => lineOf n (head ++ lit " => " ++ srcExpr e ++ lit ";")
            | _ => lineOf n (head ++ lit " " ++ srcStmtInline b)
            end
        end in
      let braced body :=
        [c_sp; "{"%char; c_nl] ++
        match body with
        | None => []
        | Some b =>
            match b with
            | MkStmt _ _ _ _ _ _ (SBlock ss) => concat (map (stmtSrc (S n)) ss)
            | _ => stmtSrc (S n) b
            end
        end ++ ind n ++ lit "}" in
      match nd with
      | SNamespace body =>
          provComment n sp ++ lineOf n (lit "namespace " ++ name ++ lit " {") ++
          concat (map (stmtSrc (S n)) body) ++ lineOf n (lit "}")
      | SClass f _ gs bases body =>
          provComment n sp ++ concat (map (attrLine n) attrs) ++
          lineOf n (accessStr access ++
                    (if isAttribute f then lit "attribute " else if isInterface f then lit "interface "
                     else if isValue f then lit "struct " else lit "class ") ++
                    name ++ genericsStr gs ++
                    match bases with [] => [] | _ => lit " : " ++ typeList bases (lit ", ") end ++ lit " {") ++
          concat (map (stmtSrc (S n)) body) ++ lineOf n (lit "}")
      | SEnum carrier body =>
          lineOf n (accessStr access ++ lit "enum " ++ name ++
                    match carrier with Some t => lit " : " ++ typeStr t | None => [] end ++ lit " {") ++
          join (lit "," ++ [c_nl])
               (map (fun m => match m with
                              | MkStmt _ _ mn _ _ _ (SMember _ _ _ _ _ _ _ (Some e)) =>
                                  ind (S n) ++ mn ++ lit " = " ++ srcExpr e
                              | MkStmt _ _ mn _ _ _ _ => ind (S n) ++ mn
                              end) body) ++
          match body with [] => [] | _ => [c_nl] end ++ lineOf n (lit "}")
      | SMember f sel _ ty gs ps body init =>
          let head := accessStr access ++ (if isMutating f then lit "mutating " else []) in
          provComment n sp ++ concat (map (attrLine n) attrs) ++
          (if isCtor f then emitBody (head ++ lit "new " ++ name ++ lit "(" ++ paramList ps ++ lit ")") body
           else if isGet f || isSet f then
             emitBody (head ++ (if isGet f then lit "get " else lit "set ") ++
                       (if symbolic sel then lit "(" ++ sel_text sel ++ lit ")" else name) ++
                       lit "(" ++ paramList ps ++ lit ")") body
           else if symbolic sel then
             emitBody (head ++ typeStrOpt ty ++ lit " (" ++ sel_text sel ++ lit ")(" ++ paramList ps ++ lit ")") body
           else if callable f then
             emitBody (head ++ typeStrOpt ty ++ lit " " ++ name ++ genericsStr gs ++
                       lit "(" ++ paramList ps ++ lit ")") body
           else
             lineOf n (head ++ (if distinct f then lit "distinct " else []) ++
                       (if isWeak f then lit "weak " else []) ++
                       (if isReadonly f then lit "readonly " else []) ++
                       (if m_isConst f then lit "const " else []) ++ typeStrOpt ty ++ lit " " ++ name ++
                       match init with Some e => lit " = " ++ srcExpr e | None => [] end ++ lit ";"))
      | SVar isConst inferred isUsing ty init =>
          provComment n sp ++
          lineOf n (accessStr access ++ (if cpt then lit "comptime " else []) ++
                    (if isUsing then lit "using " else if isConst then lit "const " else []) ++
                    (if inferred then lit "var" else typeStrOpt ty) ++ lit " " ++ name ++
                    match init with Some e => lit " = " ++ srcExpr e | None => [] end ++ lit ";")
      | SBind ty body init =>
          provComment n sp ++
          match ty with
          | Some t =>
              match body with
              | Some (MkStmt _ _ _ _ _ _ (SBlock _)) => ind n ++ lit "bind " ++ typeStr t ++ braced body ++ [c_nl]
              | _ => emitBody (lit "bind " ++ typeStr t) body
              end
          | None => lineOf n (lit "bind " ++ match init with Some e => srcExpr e | None => [] end ++ lit ";")
          end
      | SBlock body => lineOf n (lit "{") ++ concat (map (stmtSrc (S n)) body) ++ lineOf n (lit "}")
      | SExprStmt e => provComment n sp ++ lineOf n (srcExpr e ++ lit ";")
      | SReturn e =>
          lineOf n (match e with Some e => lit "return " ++ srcExpr e ++ lit ";" | None => lit "return;" end)
      | SIf c yes no =>
          ind n ++ (if cpt then lit "comptime if (" else lit "if (") ++ srcExpr c ++ lit ")" ++ braced yes ++
          match no with Some s => lit " else" ++ braced no | None => [] end ++ [c_nl]
      | SForSplice e b =>
          ind n ++ lit "$for " ++ name ++ lit " in " ++ srcExpr e ++ lit " :" ++ [c_nl] ++
          match b with Some s => stmtSrc (S n) s | None => [] end
      | SForkSplice c yes no =>
          ind n ++ lit "$if (" ++ srcExpr c ++ lit ")" ++ braced yes ++
          match no with
          | Some s => match s with
                      | MkStmt _ _ _ _ _ _ (SForkSplice _ _ _) => lit " $else " ++ stmtSrc n s
                      | _ => lit " $else" ++ braced no ++ [c_nl]
                      end
          | None => [c_nl]
          end
      | SWhile c b => ind n ++ labelPrefix label ++ lit "while (" ++ srcExpr c ++ lit ")" ++ braced b ++ [c_nl]
      | SDoWhile b c =>
          ind n ++ labelPrefix label ++ lit "do" ++ braced b ++ lit " while (" ++ srcExpr c ++ lit ");" ++ [c_nl]
      | SFor i c st b =>
          ind n ++ labelPrefix label ++ lit "for (" ++ srcStmtOpt i ++ lit " " ++
          match c with Some e => srcExpr e | None => [] end ++
          lit "; " ++ match st with Some e => srcExpr e | None => [] end ++ lit ")" ++ braced b ++ [c_nl]
      | SForIn _ inferred ty it b =>
          ind n ++ labelPrefix label ++ lit "for (" ++ (if inferred then lit "var" else typeStrOpt ty) ++
          lit " " ++ name ++ lit " in " ++ srcExpr it ++ lit ")" ++ braced b ++ [c_nl]
      | SBreak | SContinue | SThrow _ => lineOf n (srcStmtInline s)
      | STry b cs =>
          ind n ++ lit "try" ++ braced b ++
          concat (map (fun c => match c with
            | MkCatch ty nm body =>
                lit " catch (" ++ typeStr ty ++ match nm with [] => [] | _ => lit " " ++ nm end ++ lit ")" ++
                [c_sp; "{"%char; c_nl] ++
                match body with
                | None => []
                | Some b =>
                    match b with
                    | MkStmt _ _ _ _ _ _ (SBlock ss) => concat (map (stmtSrc (S n)) ss)
                    | _ => stmtSrc (S n) b
                    end
                end ++ ind n ++ lit "}"
            end) cs) ++ [c_nl]
      | SUse path =>
          lineOf n (lit "use " ++ pathStr path ++
                    match path with
                    | [] => []
                    | _ => if eqs name (List.last path []) then [] else lit " as " ++ name
                    end ++ lit ";")
      | SUsesImport path => lineOf n (lit "uses " ++ pathStr path ++ lit ";")
      | SEmpty site =>
          if site then lineOf n (lit "@" ++ name ++ lit "();")
          else match name with [] => [] | _ => lineOf n (lit "@anchor(" ++ name ++ lit ");") end
      | SRule _ _ _ _ _ _ | SMacro _ _ _ _ => []
      end
  end.

Definition printProgramSource (p : Program) : str := concat (map (stmtSrc 0) (items p)).
End Literals.
