(* ===== verification/Spelling.v ===== *)
(** * What the printer spells

    The token kinds and texts that the source printer writes for a type or an
    expression, the trees for which the printed text is meant to parse back,
    and equality of trees up to source positions. *)

From S2P Require Import Prelude Token Lexer Ast Cursor ParserExpr AstPrinter.

(** ** Equality up to spans *)

Definition nowhere : SourceSpan := Span 0 0.

Fixpoint tstrip (t : TypeRef) : TypeRef :=
  match t with
  | TNamed _ path name gs hb hf => TNamed nowhere path name (map tstrip gs) hb hf
  | TUnion _ ms => TUnion nowhere (map tstrip ms)
  | TInferred _ => TInferred nowhere
  | TFunction _ ps r => TFunction nowhere (map tstrip ps) (tstrip r)
  end.

Definition pstrip (p : Param) : Param :=
  match p with MkParam ty n c _ d => MkParam (option_map tstrip ty) n c nowhere d end.

(** The spans of an expression replaced; blocks, matches and splices are left
    as they are. *)
Fixpoint strip (e : Expr) : Expr :=
  match e with
  | MkExpr _ l c ts n =>
      MkExpr nowhere l c (map tstrip ts)
        match n with
        | EMember b colon opt t => EMember (strip b) colon opt t
        | ECall f m args => ECall (strip f) m (map strip args)
        | EIndex b i => EIndex (strip b) (strip i)
        | EUnary op a => EUnary op (strip a)
        | EBinary op a b => EBinary op (strip a) (strip b)
        | ETernary a b c => ETernary (strip a) (strip b) (strip c)
        | EArray es => EArray (map strip es)
        | ELambda ps (BExpr a) => ELambda (map pstrip ps) (BExpr (strip a))
        | EAwait a => EAwait (strip a)
        | EInject t => EInject (tstrip t)
        | EExtract a => EExtract (strip a)
        | ERange a b => ERange (strip a) (strip b)
        | EIs a t => EIs (strip a) (tstrip t)
        | _ => n
        end
  end.

(** ** The printable trees *)

Definition ident_ok (s : str) : bool :=
  match s with c :: _ => isIdentStart c | [] => false end && forallb isIdentCont s &&
  kind_eqb (keywordKind s) TkIdentifier.

Definition is_union (t : TypeRef) : bool := match t with TUnion _ _ => true | _ => false end.
Definition is_function (t : TypeRef) : bool := match t with TFunction _ _ _ => true | _ => false end.

(** A union has two members or more, none of them a union or a function. *)
Fixpoint type_ok (t : TypeRef) : bool :=
  match t with
  | TNamed _ path name gs hb hf =>
      forallb ident_ok path && ident_ok name && forallb type_ok gs && (length hb + length hf =? 0)%nat
  | TUnion _ ms => (2 <=? length ms)%nat && forallb (fun m => type_ok m && negb (is_union m) && negb (is_function m)) ms
  | TInferred _ => true
  | TFunction _ ps r => forallb type_ok ps && type_ok r
  end.

Definition digits (s : str) : bool := (0 <? length s)%nat && forallb isDigit s.

(** Digits, a point, digits. *)
Fixpoint float_text (s : str) : bool :=
  match s with
  | c :: s' => isDigit c && (float_text s' || match s' with d :: s2 => eqc d "." && digits s2 | [] => false end)
  | [] => false
  end.

(** A character that stands for itself between quotes. *)
Definition plain_char (c : ascii) : bool :=
  negb (eqc c c_quote || eqc c "'" || eqc c c_bslash || eqc c c_nl || eqc c "$").

Definition member_name_ok (s : str) : bool :=
  match s with c :: _ => isIdentStart c | [] => false end && forallb isIdentCont s &&
  (kind_eqb (keywordKind s) TkIdentifier || isContextualName (keywordKind s)).

(** The operators that [opSymbol] can print. *)
Definition binop_ok (k : TokenKind) : bool :=
  match k with
  | TkPlus | TkMinus | TkStar | TkSlash | TkPercent | TkEqEq | TkBangEq | TkLt | TkGt | TkLe | TkGe
  | TkLtLt | TkGtGt | TkAmpAmp | TkPipePipe | TkAmp | TkPipe | TkEq | TkQuestionQuestion => true
  | _ => false
  end.

(** An expression that a postfix operator can follow. *)
Definition base_ok (e : Expr) : bool :=
  match enode e with
  | EUnary _ _ | EAwait _ | ELambda _ _ | EInject _ | EMatch _ _ | EForSplice _ _ _ | EForkSplice _ _ _ => false
  | _ => true
  end.

(** An expression that an infix operator can follow. *)
Fixpoint closed (e : Expr) : bool :=
  match e with
  | MkExpr _ _ _ _ (EUnary _ a) | MkExpr _ _ _ _ (EAwait a) => closed a
  | _ => base_ok e
  end.

Definition labelOf (e : Expr) : str := match e with MkExpr _ l _ _ _ => l end.
Definition unlabeled (e : Expr) : bool := (length (labelOf e) =? 0)%nat.

(** Named arguments come last. *)
Fixpoint labels_ok (args : list Expr) : bool :=
  match args with
  | [] => true
  | a :: args' => if unlabeled a then labels_ok args'
                  else ident_ok (labelOf a) && forallb (fun b => negb (unlabeled b)) args' && labels_ok args'
  end.

Definition param_ok (p : Param) : bool :=
  match p with
  | MkParam None n false _ None => ident_ok n
  | _ => false
  end.

(** The expressions the round trip holds for.  Apart from the well-formedness
    of names and literals, the conditions are: no [comptime] mark, operators
    that have a symbol, nothing but a closed operand before an infix operator
    and nothing but a postfix expression before a postfix operator, type
    arguments on names, members and calls only, untyped lambda parameters and
    an expression as the lambda's body. *)
Fixpoint printable (e : Expr) : bool :=
  match e with
  | MkExpr _ _ cpt targs n =>
      negb cpt && forallb type_ok targs &&
      match n with
      | EName _ | EMember _ _ _ _ | ECall _ false _ => true
      | _ => (length targs =? 0)%nat
      end &&
      match n with
      | EIntLit t => digits t
      | EFloatLit t => float_text t
      | EBoolLit t => eqs t (lit "true") || eqs t (lit "false")
      | EStringLit t (MkString raw quasi rawstr single) =>
          raw && negb quasi && negb rawstr && (0 <? length t)%nat && forallb plain_char t
      | EName t => ident_ok t && negb (eqs t (lit "comptime"))
      | EThis => true
      | EMember b colon opt t =>
          printable b && base_ok b && unlabeled b && member_name_ok t && negb (colon && opt)
      | ECall f m args =>
          printable f && base_ok f && unlabeled f && (length (explicitTypeArgs f) =? 0)%nat &&
          (negb m || is_name_or_member f) && forallb printable args && labels_ok args
      | EIndex b i => printable b && base_ok b && unlabeled b && printable i && unlabeled i
      | EUnary op a => (kind_eqb op TkBang || kind_eqb op TkMinus) && printable a && unlabeled a
      | EBinary op a b =>
          binop_ok op && printable a && closed a && unlabeled a && printable b && unlabeled b
      | ETernary a b c =>
          printable a && closed a && unlabeled a && printable b && unlabeled b && printable c && unlabeled c
      | EArray es => forallb printable es && forallb unlabeled es
      | ELambda ps (BExpr a) => forallb param_ok ps && printable a && unlabeled a
      | EAwait a => printable a && unlabeled a
      | EInject t => type_ok t
      | EExtract a => printable a && closed a && unlabeled a
      | ERange a b => printable a && closed a && unlabeled a && printable b && unlabeled b
      | EIs a t => printable a && closed a && unlabeled a && type_ok t
      | _ => false
      end
  end.

(** ** Spellings *)

(** A token as the parser looks at it: its kind, and its text where the parser
    reads it. *)
Definition view : Type := TokenKind * str.

Definition texty (k : TokenKind) : bool :=
  match k with
  | TkIdentifier | TkIntLiteral | TkFloatLiteral | TkStringLiteral | TkKwTrue | TkKwFalse => true
  | _ => isContextualName k
  end.

Definition tview (t : Token) : view := (kind t, if texty (kind t) then text t else []).

Definition pt (k : TokenKind) : view := (k, []).
Definition idv (s : str) : view := (TkIdentifier, s).

Definition turbo (ts : list (list view)) : list view :=
  match ts with [] => [] | _ => pt TkColonColon :: pt TkLt :: join [pt TkComma] ts ++ [pt TkGt] end.

Fixpoint tviews (t : TypeRef) : list view :=
  match t with
  | TInferred _ => [pt TkKwVar]
  | TUnion _ ms => join [pt TkPipe] (map tviews ms)
  | TFunction _ ps r => pt TkLParen :: join [pt TkComma] (map tviews ps) ++ pt TkRParen :: pt TkArrow :: tviews r
  | TNamed _ path name gs _ _ =>
      concat (map (fun seg => [idv seg; pt TkColonColon]) path) ++ idv name ::
      match gs with [] => [] | _ => pt TkLt :: join [pt TkComma] (map tviews gs) ++ [pt TkGt] end
  end.

Definition targviews (ts : list TypeRef) : list view := turbo (map tviews ts).

Definition sep_kind (colon opt : bool) : TokenKind :=
  if colon then TkColonColon else if opt then TkQuestionDot else TkDot.

Definition quoted (t : str) (single : bool) : str :=
  let q := if single then "'"%char else c_quote in [q] ++ t ++ [q].

Definition label_views (l : str) : list view :=
  match l with [] => [] | _ => [idv l; pt TkColon] end.

Fixpoint ev (e : Expr) : list view :=
  match e with
  | MkExpr _ _ _ targs n =>
      match n with
      | EIntLit t => [(TkIntLiteral, t)]
      | EFloatLit t => [(TkFloatLiteral, t)]
      | EBoolLit t => [(if eqs t (lit "true") then TkKwTrue else TkKwFalse, t)]
      | EStringLit t f => [(TkStringLiteral, quoted t (singleQuoted f))]
      | EName t => idv t :: targviews targs
      | EThis => [pt TkKwThis]
      | EMember b colon opt t =>
          ev b ++ pt (sep_kind colon opt) :: (keywordKind t, t) :: targviews targs
      | ECall f m args =>
          ev f ++ targviews targs ++ (if m then [pt TkBang; pt TkLParen] else [pt TkLParen]) ++
          join [pt TkComma] (map (fun a => label_views (labelOf a) ++ ev a) args) ++ [pt TkRParen]
      | EIndex b i => ev b ++ pt TkLBracket :: ev i ++ [pt TkRBracket]
      | EUnary op a => pt op :: ev a
      | EBinary op a b => pt TkLParen :: ev a ++ pt op :: ev b ++ [pt TkRParen]
      | ETernary a b c =>
          pt TkLParen :: ev a ++ pt TkQuestion :: ev b ++ pt TkColon :: ev c ++ [pt TkRParen]
      | EArray es => pt TkLBracket :: join [pt TkComma] (map ev es) ++ [pt TkRBracket]
      | ELambda ps (BExpr a) =>
          pt TkLParen :: join [pt TkComma] (map (fun p => [idv (param_name p)]) ps) ++
          pt TkRParen :: pt TkArrow :: ev a
      | EAwait a => pt TkKwAwait :: ev a
      | EInject t => (TkKwInject, lit "inject") :: tviews t
      | EExtract a => pt TkLParen :: ev a ++ [pt TkGtGt; pt TkRParen]
      | ERange a b => pt TkLParen :: ev a ++ pt TkDotDot :: ev b ++ [pt TkRParen]
      | EIs a t => pt TkLParen :: ev a ++ (TkKwIs, lit "is") :: tviews t ++ [pt TkRParen]
      | _ => []
      end
  end.

(** A token list spells a view list: one token per view, except that a [>>]
    also spells the two closers of nested type arguments. *)
Inductive spells : list Token -> list view -> Prop :=
| spells_nil : spells [] []
| spells_one t ts vs : spells ts vs -> spells (t :: ts) (tview t :: vs)
| spells_two t ts vs : kind t = TkGtGt -> spells ts vs -> spells (t :: ts) (pt TkGt :: pt TkGt :: vs).
