(* ===== verification/Reading.v ===== *)
(** * Running the parser on a known spelling

    Rules for [wp] when the tokens ahead are known: [reads st vs] says that
    they spell [vs], [to st vs st'] that a computation moved from [st] to [st'],
    where [vs] is ahead, and reported nothing. *)

From S2P Require Import Prelude Token Lexer LexerFacts Ast Cursor LexerRange ParserExpr Parser ParserWp ParserFacts AstPrinter Spelling.

(** ** Views *)

Definition hk (vs : list view) : TokenKind := match vs with v :: _ => v.1 | [] => TkEnd end.
Definition ht (vs : list view) : str := match vs with v :: _ => v.2 | [] => [] end.

Definition ahead (st : PState) : list Token := drop (pos_ st) (tokens_ st).
Definition reads (src : str) (st : PState) (vs : list view) : Prop := wf src st /\ spells (ahead st) vs.

Definition to (src : str) (st : PState) (vs : list view) (st' : PState) : Prop :=
  ext src st st' /\ spells (ahead st') vs /\ sink_ st' = sink_ st.

Lemma to_refl src st vs : reads src st vs -> to src st vs st.
Proof. intros [H1 H2]. split; [by apply ext_refl|done]. Qed.

Lemma to_reads src st vs st' : to src st vs st' -> reads src st' vs.
Proof. intros (H1 & H2 & _). split; [apply H1|done]. Qed.

Lemma to_trans src st1 vs st2 ws st3 : to src st1 vs st2 -> to src st2 ws st3 -> to src st1 ws st3.
Proof. intros (H1 & _ & H3) (K1 & K2 & K3). split; [by eapply ext_trans|]. split; congruence. Qed.

Section Reading.
Context (src : str).
Abbreviation reads := (reads src).
Abbreviation to := (to src).

Lemma ahead_cur st : wf src st -> ahead st = cur st :: drop (S (pos_ st)) (tokens_ st).
Proof. intros H. unfold ahead. apply drop_S. by apply (cur_lookup src). Qed.

(** The current token, when it is not one of two closers. *)
Lemma reads_cur st vs : reads st vs -> hk vs <> TkGt ->
  exists vs', vs = tview (cur st) :: vs' /\ spells (drop (S (pos_ st)) (tokens_ st)) vs'.
Proof.
  intros [H Hs] Hk. rewrite (ahead_cur st H) in Hs. inversion Hs; subst; [by eexists|done].
Qed.

Lemma reads_gt st vs : reads st vs -> hk vs = TkGt ->
  exists vs', (kind (cur st) = TkGt /\ vs = tview (cur st) :: vs' /\ spells (drop (S (pos_ st)) (tokens_ st)) vs') \/
              (kind (cur st) = TkGtGt /\ vs = pt TkGt :: pt TkGt :: vs' /\
               spells (drop (S (pos_ st)) (tokens_ st)) vs').
Proof.
  intros [H Hs] Hk. rewrite (ahead_cur st H) in Hs. inversion Hs; subst; eexists; [left|right]; by repeat split.
Qed.

Lemma kind_hk st vs : reads st vs -> hk vs <> TkGt -> kind (cur st) = hk vs.
Proof. intros H Hk. by destruct (reads_cur st vs H Hk) as (vs' & -> & _). Qed.

Lemma text_ht st vs : reads st vs -> texty (hk vs) = true -> text (cur st) = ht vs.
Proof.
  intros H Ht. destruct (reads_cur st vs H) as (vs' & -> & _); [intros E; by rewrite E in Ht|].
  cbn in *. by rewrite Ht.
Qed.

Lemma at_hk st vs k : reads st vs -> k <> TkGt -> k <> TkGtGt -> at_ k st = kind_eqb (hk vs) k.
Proof.
  intros H H1 H2. unfold at_. destruct (decide (hk vs = TkGt)) as [E|E]; [|by rewrite (kind_hk st vs)].
  rewrite E. destruct (reads_gt st vs H E) as (vs' & [[-> _]|[-> _]]); [done|].
  transitivity false; [|symmetry]; by apply kind_eqb_neq.
Qed.

(** With a head that is not [>], also for [>] and [>>]. *)
Lemma at_hk' st vs k : reads st vs -> hk vs <> TkGt -> at_ k st = kind_eqb (hk vs) k.
Proof. intros H H1. unfold at_. by rewrite (kind_hk st vs). Qed.

Lemma atEnd_hk st vs : reads st vs -> atEnd st = kind_eqb (hk vs) TkEnd.
Proof. intros H. by apply at_hk. Qed.

Lemma peek1_hk st vs k : reads st vs -> hk vs <> TkGt -> k <> TkGt -> k <> TkGtGt ->
  peek_is 1 k st = kind_eqb (hk (tail vs)) k.
Proof.
  intros H Hk H1 H2. destruct (reads_cur st vs H Hk) as (vs' & -> & Hs). cbn [tail]. unfold peek_is, peek.
  rewrite <- (lookup_drop (tokens_ st) (pos_ st) 1). destruct H as [H _]. rewrite (drop_S _ _ _ (cur_lookup src st H)).
  change ((cur st :: drop (S (pos_ st)) (tokens_ st)) !! 1) with (drop (S (pos_ st)) (tokens_ st) !! 0).
  destruct Hs as [|t ts vs Hs|t ts vs Hg Hs]; cbn [lookup list_lookup hk fst tview pt]; [|done|].
  - destruct H as [(init & e & -> & He & _) _]. by rewrite List.last_last, He.
  - rewrite Hg. transitivity false; [|symmetry]; by apply kind_eqb_neq.
Qed.

Lemma at_word_hk st vs w : reads st vs ->
  at_word w st = kind_eqb (hk vs) TkIdentifier && eqs (ht vs) (lit w).
Proof.
  intros H. unfold at_word. rewrite (at_hk st vs) by done.
  destruct (kind_eqb (hk vs) TkIdentifier) eqn:E; [|done]. cbn. apply kind_eqb_eq in E.
  by rewrite (text_ht st vs) by (rewrite ?E; done).
Qed.

(** ** Rules *)

(** A [>] before something else is a token of its own. *)
Lemma reads_cons st v vs : reads st (v :: vs) -> v.1 <> TkGt \/ hk vs <> TkGt ->
  v = tview (cur st) /\ spells (drop (S (pos_ st)) (tokens_ st)) vs.
Proof.
  intros [H Hs] Hk. rewrite (ahead_cur st H) in Hs. inversion Hs; subst; [done|by destruct Hk].
Qed.

Lemma reads_step st v vs : reads st (v :: vs) -> v.1 <> TkGt \/ hk vs <> TkGt -> v.1 <> TkEnd ->
  to st vs (step_pos st) /\ pos_ (step_pos st) = S (pos_ st).
Proof.
  intros H Hg He. pose proof H as [Hw _].
  assert (atEnd st = false) as Ha by (rewrite (atEnd_hk st (v :: vs)) by done; by apply kind_eqb_neq).
  destruct (reads_cons st v vs H Hg) as [_ Hs].
  assert (step_pos st = MkP (tokens_ st) (S (pos_ st)) (sink_ st) (sawMeta_ st)) as Est.
  { unfold step_pos. apply (atEnd_last src) in Ha; [|done].
    by destruct (Nat.ltb_spec (S (pos_ st)) (length (tokens_ st))); [|lia]. }
  split; [|by rewrite Est]. split; [by apply step_pos_ext|]. by rewrite Est.
Qed.

Lemma wp_advance_v st v vs (Q : unit -> PState -> Prop) : reads st (v :: vs) -> v.1 <> TkGt -> v.1 <> TkEnd ->
  (forall st', to st vs st' -> pos_ st' = S (pos_ st) -> Q tt st') -> wp advance st Q.
Proof. intros H Hg He HQ. destruct (reads_step st v vs H (or_introl Hg) He). by apply HQ. Qed.

(** An operator before an operand. *)
Lemma wp_advance_op st v vs (Q : unit -> PState -> Prop) : reads st (v :: vs) -> hk vs <> TkGt -> v.1 <> TkEnd ->
  (forall st', to st vs st' -> pos_ st' = S (pos_ st) -> Q tt st') -> wp advance st Q.
Proof. intros H Hg He HQ. destruct (reads_step st v vs H (or_intror Hg) He). by apply HQ. Qed.

Lemma kind_op st v vs : reads st (v :: vs) -> hk vs <> TkGt -> kind (cur st) = v.1.
Proof. intros H Hg. by destruct (reads_cons st v vs H (or_intror Hg)) as [-> _]. Qed.

Lemma wp_accept_yes k st v vs (Q : bool -> PState -> Prop) : reads st (v :: vs) -> v.1 = k -> k <> TkGt -> k <> TkEnd ->
  (forall st', to st vs st' -> pos_ st' = S (pos_ st) -> Q true st') -> wp (accept k) st Q.
Proof.
  intros H Hk Hg He HQ. unfold accept, when_at. apply wp_bind, wp_gets.
  rewrite (at_hk' st (v :: vs)) by (cbn; congruence). cbn [hk]. rewrite Hk.
  replace (kind_eqb k k) with true by (symmetry; by apply kind_eqb_eq).
  apply wp_bind, (wp_advance_v st v vs); [done|congruence|congruence|]. intros. apply wp_ret. auto.
Qed.

Lemma wp_accept_no k st vs (Q : bool -> PState -> Prop) : reads st vs -> hk vs <> k -> k <> TkGt -> k <> TkGtGt ->
  Q false st -> wp (accept k) st Q.
Proof.
  intros H Hk H1 H2 HQ. unfold accept, when_at. apply wp_bind, wp_gets.
  rewrite (at_hk st vs) by done. apply kind_eqb_neq in Hk. by rewrite Hk.
Qed.

Lemma wp_expect_yes k what st v vs (Q : bool -> PState -> Prop) : reads st (v :: vs) -> v.1 = k -> k <> TkGt -> k <> TkEnd ->
  (forall st', to st vs st' -> pos_ st' = S (pos_ st) -> Q true st') -> wp (expect k what) st Q.
Proof.
  intros H Hk Hg He HQ. unfold expect, when_at. apply wp_bind, wp_gets.
  rewrite (at_hk' st (v :: vs)) by (cbn; congruence). cbn [hk]. rewrite Hk.
  replace (kind_eqb k k) with true by (symmetry; by apply kind_eqb_eq).
  apply wp_bind, (wp_advance_v st v vs); [done|congruence|congruence|]. intros. apply wp_ret. auto.
Qed.

Lemma wp_setMeta_v st vs (Q : unit -> PState -> Prop) : reads st vs ->
  (forall st', to st vs st' -> Q tt st') -> wp setMeta st Q.
Proof.
  intros [H Hs] HQ. apply HQ. split; [by apply ok_setMeta|done].
Qed.

Lemma wp_identOr what st s vs (Q : str -> PState -> Prop) : reads st (idv s :: vs) ->
  (forall st', to st vs st' -> pos_ st' = S (pos_ st) -> Q s st') -> wp (identOr what) st Q.
Proof.
  intros H HQ. unfold identOr. apply wp_bind, wp_gets. pose proof (kind_hk st _ H ltac:(done)) as Hk. cbn in Hk.
  rewrite Hk. change (kind_eqb TkIdentifier TkIdentifier) with true. cbv iota.
  apply wp_bind, (wp_advance_v st (idv s) vs); [done|done|done|]. intros st' T Hp. apply wp_ret.
  rewrite (text_ht st _ H ltac:(done)). by apply HQ.
Qed.

(** Closing a list of type arguments, by a [>] or by half of a [>>]. *)
Lemma wp_expectGt_v st vs (Q : bool -> PState -> Prop) : reads st (pt TkGt :: vs) ->
  (forall b st', to st vs st' -> Q b st') -> wp (expectGt src) st Q.
Proof.
  intros H HQ. pose proof H as [Hw _]. pose proof (ok_expectGt src st Hw) as Hok. unfold ok, wp in Hok.
  destruct (reads_gt st _ H eq_refl) as (vs' & [(Hk & E & Hs)|(Hk & E & Hs)]); unfold wp; unfold expectGt in *;
    unfold bind, gets, id, at_ in *; rewrite Hk in *; cbv beta iota in *.
  - change (kind_eqb TkGt TkGt) with true in *. cbv iota in *. cbn in Hok. assert (vs = vs') as -> by congruence.
    apply HQ. split; [done|]. split; [|by unfold step_pos; case_match].
    assert (atEnd st = false) as Ha by (rewrite (atEnd_hk st _ H); done).
    apply (atEnd_last src) in Ha; [|done]. unfold step_pos, ahead.
    by destruct (Nat.ltb_spec (S (pos_ st)) (length (tokens_ st))); [|lia].
  - change (kind_eqb TkGtGt TkGt) with false in *. change (kind_eqb TkGtGt TkGtGt) with true in *. cbv iota in *.
    unfold source_substr in *. destruct (length src <? _) eqn:El; [done|]. cbn in *.
    assert (vs = pt TkGt :: vs') as -> by congruence. apply HQ. split; [done|]. split; [|done].
    unfold ahead. cbn [pos_ tokens_]. destruct Hw as [_ Hp].
    rewrite (drop_S _ (MkToken TkGt (Span (S (offset (span (cur st)))) 1) (substr src (S (offset (span (cur st)))) 1)))
      by (by apply list_lookup_insert_eq).
    rewrite drop_insert_lt by lia. by apply (spells_one (MkToken TkGt _ _)).
Qed.

(** ** Loops *)

Lemma loopN_mono {A B} n m (body : A -> P (A + B)) a st b st' :
  n <= m -> loopN n body a st = POk b st' -> loopN m body a st = POk b st'.
Proof.
  revert m a st. induction n as [|n IH]; intros m a st Hm E; [done|]. destruct m as [|m]; [lia|].
  cbn in *. unfold bind in *. destruct (body a st) as [[a'|b'] st1| |]; try done. apply IH; [lia|done].
Qed.

(** One turn of a loop. *)
Lemma wp_loop_step {A B} (body : A -> P (A + B)) a st (Q : B -> PState -> Prop) :
  wp (body a) st (fun r st1 => match r with
    | inl a' => remaining st1 < remaining st /\ wp (loop body a') st1 Q
    | inr b => Q b st1
    end) -> wp (loop body a) st Q.
Proof.
  intros H. unfold loop, wp in *. cbn [loopN]. unfold bind. destruct (body a st) as [[a'|b] st1| |]; try done.
  destruct H as [Hr H]. destruct (loopN (S (remaining st1)) body a' st1) as [b st2| |] eqn:E; try done.
  by rewrite (loopN_mono (S (remaining st1)) (remaining st) body a' st1 b st2 ltac:(lia) E).
Qed.

(** Having moved forward, less is left. *)
Lemma to_less st vs st' : to st vs st' -> pos_ st < pos_ st' -> remaining st' < remaining st.
Proof. intros (E & _) Hp. pose proof (ext_rem _ _ _ E). lia. Qed.

Lemma to_pos st vs st' : to st vs st' -> pos_ st <= pos_ st'.
Proof. intros (E & _). apply E. Qed.
End Reading.

(** ** Automation *)

(** Take the move [T2 : to src st vs st'] into the accumulated one. *)
Ltac vabsorb T2 :=
  let T := type of T2 in
  match T with
  | to ?src ?st ?vs ?st' =>
      pose proof (to_pos src st vs st' T2);
      lazymatch goal with
      | T1 : to src ?st0 _ st |- _ =>
          let T3 := fresh "T" in
          let R3 := fresh "Rd" in
          pose proof (to_trans src st0 _ st vs st' T1 T2) as T3; clear T1;
          pose proof (to_reads src st vs st' T2) as R3; clear T2
      end
  end.

Ltac vstart :=
  match goal with
  | H : reads ?src ?st ?vs |- wp _ ?st _ => pose proof (to_refl src st vs H)
  end.

(** Evaluate the tests of the current token. *)
Ltac look :=
  repeat match goal with
  | H : reads ?src ?st ?vs |- context [at_ ?k ?st] =>
      first [ rewrite (at_hk' src st vs k H) by (cbn [hk fst pt idv]; discriminate)
            | rewrite (at_hk src st vs k H) by discriminate ]
  | H : reads ?src ?st ?vs |- context [atEnd ?st] => rewrite (atEnd_hk src st vs H)
  | H : reads ?src ?st ?vs |- context [at_word ?w ?st] => rewrite (at_word_hk src st vs w H)
  | H : reads ?src ?st ?vs |- context [peek_is 1 ?k ?st] =>
      rewrite (peek1_hk src st vs k H) by (cbn [hk fst pt idv]; discriminate)
  | H : reads ?src ?st ?vs |- context [kind (cur ?st)] =>
      rewrite (kind_hk src st vs H) by (cbn [hk fst pt idv]; discriminate)
  | H : reads ?src ?st ?vs |- context [text (cur ?st)] =>
      rewrite (text_ht src st vs H) by reflexivity
  end; cbn [hk ht fst snd pt idv tail app andb orb negb].

(** Decide comparisons of constant kinds. *)
Ltac kinds :=
  repeat match goal with
  | |- context [kind_eqb ?a ?b] =>
      is_constructor a; is_constructor b;
      let x := eval vm_compute in (kind_eqb a b) in
      match x with true => idtac | false => idtac end; change (kind_eqb a b) with x
  end; cbn [andb orb negb].

Ltac vstep :=
  match goal with
  | |- wp (bind _ _) _ _ => apply wp_bind
  | |- wp (ret _) _ _ => apply wp_ret
  | |- wp (gets _) _ _ => apply wp_gets; unfold id
  | |- wp advance _ _ =>
      eapply wp_advance_v; [eassumption | cbn; discriminate | cbn; discriminate | intros ? ?T2 ?; vabsorb T2]
  | |- wp (accept _) _ _ =>
      first [ eapply wp_accept_yes; [eassumption | reflexivity | discriminate | discriminate | intros ? ?T2 ?; vabsorb T2]
            | eapply wp_accept_no; [eassumption | cbn; discriminate | discriminate | discriminate | ] ]
  | |- wp (expect _ _) _ _ =>
      eapply wp_expect_yes; [eassumption | reflexivity | discriminate | discriminate | intros ? ?T2 ?; vabsorb T2]
  | |- wp (identOr _) _ _ => eapply wp_identOr; [eassumption | intros ? ?T2 ?; vabsorb T2]
  | |- wp (expectGt _) _ _ => eapply wp_expectGt_v; [eassumption | intros ? ? ?T2; vabsorb T2]
  | |- wp setMeta _ _ => eapply wp_setMeta_v; [eassumption | intros ? ?T2; vabsorb T2]
  | |- wp (if _ then _ else _) _ _ => progress (look; kinds; cbv iota)
  end; cbv beta.
