(* ===== verification/TypeParse.v ===== *)
(** * Types parse back

    The parser of types run on the spelling of a type: it returns the type, up
    to spans, consumes the spelling and reports nothing. *)

From S2P Require Import Prelude Token Lexer LexerFacts Ast Cursor LexerRange ParserExpr Parser ParserWp ParserFacts AstPrinter Spelling Reading.

(** ** Lists with separators *)

Lemma join_cons {A} (sep x : list A) xs : xs <> [] -> join sep (x :: xs) = x ++ sep ++ join sep xs.
Proof. by destruct xs. Qed.

Lemma length_join_elem {A} (sep : list A) xs x : x ∈ xs -> length x <= length (join sep xs).
Proof.
  induction xs as [|y xs IH]; [by intros ?%not_elem_of_nil|].
  destruct (decide (xs = [])) as [->|Hne]; [intros ->%list_elem_of_singleton; done|].
  rewrite join_cons, !length_app by done. intros [->|H]%elem_of_cons; [lia|]. specialize (IH H). lia.
Qed.

Lemma forallb_elem {A} (f : A -> bool) l x : forallb f l = true -> x ∈ l -> f x = true.
Proof. rewrite forallb_forall. intros H Hx. apply H. by apply list_elem_of_In. Qed.

(** ** What may follow a type *)

(** After a member of a union. *)
Definition mfollow (vs : list view) : bool :=
  match hk vs with TkColonColon | TkLt | TkQuestion | TkDot => false | _ => true end.
Definition tfollow (vs : list view) : bool := mfollow vs && negb (kind_eqb (hk vs) TkPipe).

(** A comma list of items that each parse back; [last] is what may follow the
    last item. *)
Section Lists.
Context (src : str) {A X : Type} (item : P A) (f : X -> list view) (good : A -> X -> Prop).
Abbreviation reads := (reads src).
Abbreviation to := (to src).

(** [item] reads back [x] when [rest] follows. *)
Definition parses (p : P A) (x : X) (rest : list view) : Prop :=
  forall st (Q : A -> PState -> Prop), reads st (f x ++ rest) ->
  (forall a st', good a x -> to st rest st' -> pos_ st < pos_ st' -> Q a st') -> wp p st Q.

Lemma wp_commaList xs rest : xs <> [] -> hk rest <> TkComma ->
  (forall x pre rest', x ∈ xs -> hk rest' = TkComma \/ rest' = rest ->
     pre ++ f x ++ rest' = join [pt TkComma] (map f xs) ++ rest -> parses item x rest') ->
  forall st (Q : list A -> PState -> Prop), reads st (join [pt TkComma] (map f xs) ++ rest) ->
  (forall l st', Forall2 good l xs -> to st rest st' -> pos_ st < pos_ st' -> Q l st') -> wp (commaList item) st Q.
Proof.
  intros Hne Hr Hit st Q Hrd HQ. unfold commaList.
  set (body := fun acc : list A => _).
  assert (forall l0 st0, to st (join [pt TkComma] (map f xs) ++ rest) st0 ->
    (forall l st', Forall2 good l xs -> to st rest st' -> pos_ st < pos_ st' -> Q (l0 ++ l) st') ->
    wp (loop body l0) st0 Q) as Hgen; [|by apply (Hgen [] st); [apply to_refl|]].
  clear HQ Hrd. induction xs as [|x xs IH]; [done|]. intros l0 st0 T HQ. pose proof (to_reads _ _ _ _ T) as Rd.
  pose proof (to_pos _ _ _ _ T). pose proof (to_refl _ _ _ Rd). apply wp_loop_step. subst body. cbv beta. vstep.
  destruct (decide (xs = [])) as [->|Hxs].
  - eapply (Hit x [] rest); [set_solver|by right|done|exact Rd|]. intros a st1 Ha T1 Hp. vabsorb T1. vstep.
    eapply wp_accept_no; [eassumption|done|done|done|]. vstep.
    apply HQ; [by repeat constructor|by eapply to_trans|lia].
  - cbn [map] in Rd, Hit. rewrite join_cons, <- !app_assoc in Rd by (by destruct xs).
    rewrite join_cons in Hit by (by destruct xs).
    eapply (Hit x [] ([pt TkComma] ++ join [pt TkComma] (map f xs) ++ rest));
      [set_solver|by left|by rewrite <- !app_assoc|exact Rd|].
    intros a st1 Ha T1 Hp. vabsorb T1. vstep. vstep. vstep. split; [eapply to_less; [eassumption|lia]|].
    apply IH; [done| |by eapply to_trans|].
    + intros y pre rest' Hy Hr' E. apply (Hit y ((f x ++ [pt TkComma]) ++ pre)); [by constructor|done|].
      by rewrite <- !app_assoc, E.
    + intros l st2 Hl T' Hp'. rewrite <- app_assoc. apply HQ; [by constructor|done|lia].
Qed.
End Lists.

(** ** Types *)

Section Types.
Context (src : str).
Abbreviation reads := (reads src).
Abbreviation to := (to src).

Definition same_type (t' t : TypeRef) : Prop := tstrip t' = tstrip t.

(** [p] reads back the type [t] when [rest] follows. *)
Abbreviation reads_type := (parses src tviews same_type).

(** The recursive calls read back the types of fewer than [m] tokens. *)
Definition types_below (m : nat) (p : P TypeRef) : Prop :=
  forall t rest, type_ok t = true -> length (tviews t) < m -> tfollow rest = true -> reads_type p t rest.

Lemma same_types l ts : Forall2 same_type l ts -> map tstrip l = map tstrip ts.
Proof. induction 1 as [|x y l ts H _ IH]; cbn; [done|]. by rewrite H, IH. Qed.

Lemma mfollow_neq vs : mfollow vs = true ->
  hk vs <> TkColonColon /\ hk vs <> TkLt /\ hk vs <> TkQuestion /\ hk vs <> TkDot.
Proof. unfold mfollow. intros H. by split_and!; intros E; rewrite E in H. Qed.

Lemma tfollow_spec vs : tfollow vs = true -> mfollow vs = true /\ hk vs <> TkPipe.
Proof. unfold tfollow. intros H. apply andb_prop in H as [H1 H2]. split; [done|]. by apply kind_eqb_neq, negb_true_iff. Qed.

Lemma wp_wrapNullable t st vs (Q : TypeRef -> PState -> Prop) : reads st vs -> hk vs <> TkQuestion ->
  Q t st -> wp (wrapNullable t) st Q.
Proof. intros H Hk HQ. unfold wrapNullable. vstep. by eapply wp_accept_no. Qed.

(** The names after the first one. *)
Lemma wp_typePath others rest : hk rest <> TkColonColon ->
  forall st path name (Q : list str * str -> PState -> Prop),
  reads st (concat (map (fun s => [pt TkColonColon; idv s]) others) ++ rest) ->
  (forall path' name' st', path' ++ [name'] = path ++ name :: others -> to st rest st' -> Q (path', name') st') ->
  wp (loop (fun acc : list str * str =>
    let '(path, name) := acc in
    let! q := gets (at_ TkColonColon) in
    if q then
      advance ;;
      let! t := gets cur in
      if kind_eqb (kind t) TkIdentifier then advance ;; ret (inl (path ++ [name], text t))
      else error "type name after '::'" ;; ret (inr (path ++ [name], name))
    else ret (inr (path, name))) (path, name)) st Q.
Proof.
  intros Hr. induction others as [|s others IH]; intros st path name Q Hrd HQ; apply wp_loop_step; cbn in Hrd; vstart.
  - vstep. vstep. look. apply kind_eqb_neq in Hr. rewrite Hr. vstep. by apply HQ.
  - repeat vstep. split; [eapply to_less; [eassumption|lia]|].
    eapply IH; [eassumption|]. intros path' name' st2 E T2. look. apply HQ; [|by eapply to_trans].
    by rewrite <- app_assoc in E.
Qed.
Lemma ident_not_hole s : ident_ok s = true -> is_hole s = false.
Proof.
  unfold ident_ok, is_hole. destruct s as [|c s]; [done|]. intros H. bool_hyps.
  destruct (eqc c "$") eqn:E; [|done]. apply eqc_eq in E. subst c. done.
Qed.

(** The spelling of a type's name, from its first segment. *)
Definition gviews (gs : list TypeRef) : list view :=
  match gs with [] => [] | _ => pt TkLt :: join [pt TkComma] (map tviews gs) ++ [pt TkGt] end.

Lemma named_views path name : exists first others, path ++ [name] = first :: others /\
  concat (map (fun seg => [idv seg; pt TkColonColon]) path) ++ [idv name] =
  idv first :: concat (map (fun s => [pt TkColonColon; idv s]) others).
Proof.
  induction path as [|p path (f & o & E & V)]; [by exists name, []|].
  exists p, (f :: o). cbn. by rewrite E, V.
Qed.

(** A type does not start with a closer. *)
Definition type_start (vs : list view) : bool :=
  match hk vs with TkKwVar | TkLParen | TkIdentifier => true | _ => false end.

Lemma member_start t rest : is_union t = false -> type_start (tviews t ++ rest) = true.
Proof. destruct t as [sp [|] name gs hb hf| | |]; by intros H. Qed.

Lemma type_start_ok t rest : type_ok t = true -> type_start (tviews t ++ rest) = true.
Proof.
  destruct (is_union t) eqn:E; [|by intros _; apply member_start].
  destruct t as [|sp ms| |]; try done. cbn. intros H. bool_hyps. destruct ms as [|m [|m2 ms]]; [done|done|].
  cbn in *. bool_hyps. rewrite <- app_assoc. by apply member_start.
Qed.

Lemma type_start_join ts rest : forallb type_ok ts = true -> ts <> [] ->
  type_start (join [pt TkComma] (map tviews ts) ++ rest) = true.
Proof.
  destruct ts as [|t ts]; [done|]. cbn [forallb]. intros H _. bool_hyps.
  destruct (decide (ts = [])) as [->|Hne]; cbn [map]; [by apply type_start_ok|].
  rewrite join_cons, <- app_assoc by (by destruct ts). by apply type_start_ok.
Qed.

Lemma type_start_neq vs k : type_start vs = true -> k <> TkKwVar -> k <> TkLParen -> k <> TkIdentifier -> hk vs <> k.
Proof. unfold type_start. intros H ??? E. rewrite E in H. by destruct k. Qed.

Section Primary.
Context (R : Rec) (m : nat) (HR : types_below m (rType R)).

Lemma wp_types ts rest : ts <> [] -> forallb type_ok ts = true ->
  length (join [pt TkComma] (map tviews ts)) < m -> hk rest <> TkComma -> tfollow rest = true ->
  forall st (Q : list TypeRef -> PState -> Prop), reads st (join [pt TkComma] (map tviews ts) ++ rest) ->
  (forall l st', map tstrip l = map tstrip ts -> to st rest st' -> pos_ st < pos_ st' -> Q l st') ->
  wp (commaList (rType R)) st Q.
Proof.
  intros Hne Hok Hl Hc Hf st Q Hrd HQ.
  eapply (wp_commaList src (rType R) tviews same_type ts rest); [done|done| |done|].
  - intros t pre rest' Ht Hr _. apply HR.
    + by eapply forallb_elem.
    + eapply Nat.le_lt_trans; [|exact Hl]. apply length_join_elem. by apply list_elem_of_fmap_2.
    + destruct Hr as [Hr| ->]; [|done]. unfold tfollow, mfollow. by rewrite Hr.
  - intros l st' Hl'. apply HQ. by apply same_types.
Qed.

Lemma wp_typeGenerics gs rest : forallb type_ok gs = true -> length (gviews gs) <= m -> mfollow rest = true ->
  forall st (Q : list TypeRef -> PState -> Prop), reads st (gviews gs ++ rest) ->
  (forall l st', map tstrip l = map tstrip gs -> to st rest st' -> Q l st') ->
  wp (typeGenerics src R) st Q.
Proof.
  intros Hok Hl Hf st Q Hrd HQ. apply mfollow_neq in Hf as (F1 & F2 & F3 & F4). unfold typeGenerics. vstart.
  destruct gs as [|g gs].
  - vstep. eapply wp_accept_no; [eassumption|done..|]. vstep. by apply HQ.
  - cbn in Hl. cbn [gviews app] in Hrd. rewrite <- app_assoc in Hrd. vstep. vstep. vstep. vstep. vstep.
    rewrite length_app in Hl.
    pose proof (type_start_join (g :: gs) ([pt TkGt] ++ rest) Hok ltac:(done)) as Hs.
    assert ((at_ TkGt st' || at_ TkGtGt st')%bool = false) as Ha.
    { pose proof (type_start_neq _ TkGt Hs ltac:(done) ltac:(done) ltac:(done)) as Hg.
      rewrite !(at_hk' src st' _ _ Rd Hg).
      apply orb_false_intro; apply kind_eqb_neq; [done|]. by apply type_start_neq. }
    rewrite Ha. apply (wp_types (g :: gs) ([pt TkGt] ++ rest)); [done|done|cbn in *; lia|done|done|done|].
    intros l st1 El T1 Hp. vabsorb T1. repeat vstep. by apply HQ.
Qed.

Lemma wp_parseTypeNamed sp path name gs hb hf rest :
  let t := TNamed sp path name gs hb hf in
  type_ok t = true -> length (tviews t) <= m -> mfollow rest = true -> reads_type (parseTypeNamed src R) t rest.
Proof.
  intros t Hok Hl Hf st Q Hrd HQ. subst t. cbn in Hok, Hl, Hrd. bool_hyps.
  destruct (named_views path name) as (first & others & E & V).
  change (match gs with [] => [] | _ => pt TkLt :: join [pt TkComma] (map tviews gs) ++ [pt TkGt] end) with (gviews gs) in *.
  rewrite (cons_middle (idv name)), app_assoc, V, <- app_assoc in Hrd.
  rewrite (cons_middle (idv name)), app_assoc, V, length_app in Hl. cbn [app] in Hrd.
  unfold parseTypeNamed. vstart. vstep. vstep. vstep. vstep. vstep. vstep.
  assert (is_hole first = false) as ->.
  { apply ident_not_hole. apply (forallb_elem ident_ok (path ++ [name])); [|rewrite E; set_solver].
    rewrite forallb_app. cbn. by rewrite H, H2. }
  cbn [andb]. cbv iota. pose proof (mfollow_neq rest Hf) as (F1 & _ & F3 & _). vstep. unfold typePath.
  eapply wp_typePath; [|exact Rd|]; [by destruct gs|]. intros path' name' st1 E1 T1. vabsorb T1. vstep.
  eapply wp_typeGenerics; [exact H1|cbn in Hl; lia|exact Hf|eassumption|]. intros l st2 El T2. vabsorb T2.
  eapply wp_wrapNullable; [eassumption|done|]. apply HQ; [|done|lia].
  unfold same_type. cbn in *. rewrite <- E in E1. apply app_inj_tail in E1 as [-> ->]. rewrite El.
  destruct hb, hf; done.
Qed.

Lemma wp_parseTypeParen sp ps r rest :
  let t := TFunction sp ps r in
  type_ok t = true -> length (tviews t) <= m -> tfollow rest = true -> reads_type (parseTypeParen R) t rest.
Proof.
  intros t Hok Hl Hf st Q Hrd HQ. subst t. cbn in Hok, Hl, Hrd. bool_hyps. rewrite <- app_assoc in Hrd.
  rewrite length_app in Hl. cbn in Hl, Hrd.
  pose proof (tfollow_spec rest Hf) as [(_ & _ & F3 & _)%mfollow_neq _].
  assert (forall st1, to st (pt TkRParen :: pt TkArrow :: tviews r ++ rest) st1 -> pos_ st < pos_ st1 ->
    forall parts, map tstrip parts = map tstrip ps ->
    wp (expect TkRParen "')'" ;;
        let! arrow := accept TkArrow in
        if arrow then let! r := rType R in wrapNullable (TFunction (span (cur st)) parts r)
        else match parts with
             | [t] => wrapNullable t
             | _ => error "'=>' after a parenthesized parameter list" ;;
                    ret (TNamed (span (cur st)) [] [] [] [] [])
             end) st1 Q) as Htail.
  { intros st1 T1 Hp parts Ep. pose proof (to_reads _ _ _ _ T1) as Rd. repeat vstep.
    eapply HR; [done|lia|exact Hf|eassumption|]. intros r' st2 Er T2 Hp2. vabsorb T2.
    eapply wp_wrapNullable; [eassumption|done|]. apply HQ; [|done|lia].
    unfold same_type in *. cbn. by rewrite Ep, Er. }
  unfold parseTypeParen. vstart. vstep. vstep. vstep. vstep. vstep. vstep. vstep.
  destruct (decide (ps = [])) as [->|Hne].
  - cbn in *. look. kinds. cbv iota. vstep. apply Htail; [done|lia|done].
  - pose proof (type_start_join ps (pt TkRParen :: pt TkArrow :: tviews r ++ rest) ltac:(done) Hne) as Hs.
    rewrite (at_hk src st' _ _ Rd) by done.
    rewrite (proj2 (kind_eqb_neq _ TkRParen)) by (by apply type_start_neq).
    eapply wp_types; [exact Hne|done|lia| | |exact Rd|]; [done|done|]. intros l st1 El T1 Hp. vabsorb T1.
    apply Htail; [done|lia|done].
Qed.

Lemma wp_parseTypePrimary t rest : type_ok t = true -> is_union t = false -> length (tviews t) <= m ->
  mfollow rest = true -> (is_function t = true -> tfollow rest = true) -> reads_type (parseTypePrimary src R) t rest.
Proof.
  intros Hok Hu Hl Hf Hff st Q Hrd HQ. unfold parseTypePrimary. vstep. vstep.
  destruct t as [sp path name gs hb hf|sp ms|sp|sp ps r]; [|done| |].
  - assert (hk (tviews (TNamed sp path name gs hb hf) ++ rest) = TkIdentifier) as Hk by (by destruct path).
    look. rewrite Hk. kinds. cbv iota. eapply wp_parseTypeNamed; eauto.
  - cbn in Hrd. vstart. vstep. repeat vstep. apply HQ; [done|done|lia].
  - vstep. eapply wp_parseTypeParen; eauto.
Qed.

Definition member_ok (t : TypeRef) : bool := type_ok t && negb (is_union t) && negb (is_function t).

(** The members of a union after the first. *)
Lemma wp_unionMembers ms rest : forallb member_ok ms = true -> hk rest <> TkPipe -> mfollow rest = true ->
  length (concat (map (fun t => pt TkPipe :: tviews t) ms)) <= m ->
  forall l0 st (Q : list TypeRef -> PState -> Prop),
  reads st (concat (map (fun t => pt TkPipe :: tviews t) ms) ++ rest) ->
  (forall l st', map tstrip l = map tstrip ms -> to st rest st' -> Q (l0 ++ l) st') ->
  wp (loop (fun acc =>
    let! more := accept TkPipe in
    if more then let! t := parseTypePrimary src R in ret (inl (acc ++ [t])) else ret (inr acc)) l0) st Q.
Proof.
  intros Hok Hp Hf. induction ms as [|t ms IH]; intros Hl l0 st Q Hrd HQ; apply wp_loop_step; vstart.
  - vstep. eapply wp_accept_no; [exact Hrd|done..|]. vstep. rewrite <- (app_nil_r l0). by apply HQ.
  - cbn in Hok, Hl, Hrd. rewrite <- app_assoc in Hrd. rewrite length_app in Hl.
    unfold member_ok at 1 in Hok. bool_hyps. vstep. vstep. vstep.
    eapply (wp_parseTypePrimary t); [done|done|lia| |congruence|eassumption|]; [by destruct ms|].
    intros t' st1 Et T1 Hp1. vabsorb T1. vstep. split; [eapply to_less; [eassumption|lia]|].
    eapply IH; [done|lia|eassumption|]. intros l st2 El T2. rewrite <- app_assoc.
    apply HQ; [|by eapply to_trans]. unfold same_type in Et. cbn. by rewrite Et, El.
Qed.

Lemma union_views t ms : join [pt TkPipe] (map tviews (t :: ms)) =
  tviews t ++ concat (map (fun t => pt TkPipe :: tviews t) ms).
Proof.
  revert t. induction ms as [|t' ms IH]; intros t; [by cbn; rewrite app_nil_r|].
  change (map tviews (t :: t' :: ms)) with (tviews t :: map tviews (t' :: ms)). by rewrite join_cons, IH.
Qed.

Lemma wp_parseType t rest : type_ok t = true -> length (tviews t) <= m -> tfollow rest = true ->
  reads_type (parseType src R) t rest.
Proof.
  intros Hok Hl Hf st Q Hrd HQ. pose proof (tfollow_spec rest Hf) as [Hm Hp]. unfold parseType. vstart. vstep.
  destruct (is_union t) eqn:Hu.
  - destruct t as [|sp ms| |]; try done. destruct ms as [|t [|t2 ms]]; try done.
    change (type_ok (TUnion sp (t :: t2 :: ms))) with (forallb member_ok (t :: t2 :: ms)) in Hok.
    change (tviews (TUnion sp (t :: t2 :: ms))) with (join [pt TkPipe] (map tviews (t :: t2 :: ms))) in *.
    rewrite union_views in *. rewrite <- app_assoc in Hrd. rewrite length_app in Hl.
    cbn [forallb] in Hok. apply andb_prop in Hok as [Hok H2]. unfold member_ok in Hok. bool_hyps.
    eapply (wp_parseTypePrimary t); [done|done|lia| |congruence|exact Hrd|]; [done|].
    intros t' st1 Et T1 Hp1. vabsorb T1. vstep. vstep.
    rewrite (at_hk src st1 _ TkPipe Rd) by done.
    change (kind_eqb (hk (concat (map (fun t => pt TkPipe :: tviews t) (t2 :: ms)) ++ rest)) TkPipe) with true. cbv iota. vstep.
    eapply (wp_unionMembers (t2 :: ms)); [by cbn; rewrite H0, H1|done|done|lia|exact Rd|]. intros l st2 El T2. vabsorb T2. vstep.
    apply HQ; [|done|lia]. unfold same_type in *. cbn in *. by rewrite Et, El.
  - eapply (wp_parseTypePrimary t); [done|done|done|done|done|exact Hrd|]. intros t' st1 Et T1 Hp1. vabsorb T1.
    vstep. vstep. look. apply kind_eqb_neq in Hp. rewrite Hp. vstep. by apply HQ.
Qed.
End Primary.

Lemma grammar_types n : types_below n (rType (grammar src n)).
Proof.
  induction n as [|n IH]; intros t rest Hok Hl Hf; [lia|]. apply (wp_parseType _ n IH); [done|lia|done].
Qed.
End Types.
