(* ===== verification/Lookahead.v ===== *)
(** * The lambda lookahead on printed expressions

    [looksLikeLambda] scans ahead without bound, over what may be a list of
    typed or untyped parameters.  On the spelling of a printable expression it
    answers [true] exactly for the opening parenthesis of a lambda. *)

From S2P Require Import Prelude Token Lexer LexerFacts Ast Cursor LexerRange ParserExpr Parser ParserWp ParserFacts AstPrinter Spelling Reading TypeParse.

(** ** Induction over printable expressions *)

(** The immediate subexpressions of the printable nodes. *)
Definition subs (e : Expr) : list Expr :=
  match enode e with
  | EMember b _ _ _ | EUnary _ b | EAwait b | EExtract b | EIs b _ => [b]
  | ECall f _ args => f :: args
  | EIndex a b | EBinary _ a b | ERange a b => [a; b]
  | ETernary a b c => [a; b; c]
  | EArray es => es
  | ELambda _ (BExpr a) => [a]
  | _ => []
  end.

Definition arg_views (a : Expr) : list view := label_views (labelOf a) ++ ev a.

Lemma length_args args x : x ∈ args ->
  length (ev x) <= length (join [pt TkComma] (map arg_views args)).
Proof.
  intros H. transitivity (length (arg_views x)); [unfold arg_views; rewrite length_app; lia|].
  apply length_join_elem. by apply list_elem_of_fmap_2.
Qed.

Ltac ev_lengths := cbn [ev enode] in *; repeat progress (cbn [length] in *; rewrite ?length_app in * ).

Lemma subs_shorter e x : x ∈ subs e -> length (ev x) < length (ev e).
Proof.
  destruct e as [sp l c ts n]. unfold subs. cbn [enode]. intros Hx. destruct n; try by apply not_elem_of_nil in Hx.
  all: try (match type of Hx with context [match ?b with _ => _ end] => destruct b end).
  all: try by apply not_elem_of_nil in Hx.
  all: rewrite ?elem_of_cons, ?list_elem_of_nil in Hx; destruct_or?; try (by apply not_elem_of_nil in Hx); subst;
    ev_lengths; try lia.
  all: try (destruct isMacroCall; cbn [length]; lia).
  - change (fun a : Expr => label_views (labelOf a) ++ ev a) with arg_views.
    pose proof (length_args args x Hx). destruct isMacroCall; cbn [length]; lia.
  - pose proof (length_join_elem [pt TkComma] (map ev elems) (ev x) (list_elem_of_fmap_2 ev elems x Hx)). lia.
Qed.

Lemma expr_ind' (P : Expr -> Prop) :
  (forall e, (forall x, x ∈ subs e -> P x) -> P e) -> forall e, P e.
Proof.
  intros H e. remember (length (ev e)) as n eqn:E. revert e E. induction n as [n IH] using lt_wf_ind.
  intros e ->. apply H. intros x Hx. eapply IH; [|done]. by apply subs_shorter.
Qed.

(** ** The first two tokens *)

Lemma hk_app vs rest : vs <> [] -> hk (vs ++ rest) = hk vs.
Proof. by destruct vs. Qed.

(** How a printed expression starts. *)
Definition start_ok (vs : list view) : bool :=
  canStartExpr (hk vs) &&
  (negb (kind_eqb (hk vs) TkIdentifier) || (ident_ok (ht vs) && negb (eqs (ht vs) (lit "comptime")))).

Lemma start_ok_app vs rest : start_ok vs = true -> start_ok (vs ++ rest) = true.
Proof. by destruct vs. Qed.

Lemma start_cons v vs : start_ok (v :: vs) = start_ok [v].
Proof. done. Qed.

Lemma ev_start e : printable e = true -> start_ok (ev e) = true.
Proof.
  induction e as [e IH] using expr_ind'. destruct e as [sp l c ts n]. cbn [printable]. intros H. bool_hyps.
  assert (forall x, x ∈ subs (MkExpr sp l c ts n) -> printable x = true -> start_ok (ev x) = true) as IH' by done.
  clear IH. destruct n; try done; bool_hyps; cbn [ev]; try (by rewrite start_cons);
    try (apply start_ok_app, IH'; [by cbn; set_solver|done]).
  - by destruct (eqs text (lit "true")).
  - rewrite start_cons. by destruct op.
  - by destruct body.
Qed.

Lemma ev_nonempty e : printable e = true -> ev e <> [].
Proof. intros H%ev_start E. by rewrite E in H. Qed.

(** The tokens that continue a postfix chain. *)
Definition chain_kind (k : TokenKind) : bool :=
  match k with
  | TkColonColon | TkDot | TkQuestionDot | TkLParen | TkBang | TkLBracket => true
  | _ => false
  end.

Definition is_bare_name (e : Expr) : bool :=
  match e with MkExpr _ _ _ [] (EName _) => true | _ => false end.

(** After a leading identifier comes a postfix operator, unless the expression
    is a name. *)
Lemma ev_second e rest : printable e = true -> hk (ev e) = TkIdentifier ->
  is_bare_name e = true \/ chain_kind (hk (tail (ev e ++ rest))) = true.
Proof.
  revert rest. induction e as [e IH] using expr_ind'. intros rest H Hk.
  assert (forall b vs, b ∈ subs e -> printable b = true -> hk (ev b) = TkIdentifier -> vs <> [] ->
    chain_kind (hk vs) = true -> chain_kind (hk (tail (ev b ++ vs))) = true) as Hbase.
  { intros b vs Hb Hp Hkb Hvs Hc. destruct (IH b Hb vs Hp Hkb) as [Hn|]; [|done].
    destruct b as [sp l c [|] []]; try done. }
  assert (forall b, b ∈ subs e -> printable b = true -> ev b <> []) as Hne.
  { intros b Hb Hp%ev_start E. by rewrite E in Hp. }
  destruct e as [sp l c ts n]. cbn [printable] in H. clear IH.
  destruct n; try done; bool_hyps; cbn [ev] in Hk |- *; try discriminate.
  - by destruct (eqs text (lit "true")).
  - destruct ts; [by left|by right].
  - right. rewrite <- app_assoc. rewrite hk_app in Hk by (apply Hne; [by cbn; set_solver|done]).
    apply Hbase; [by cbn; set_solver|done|done|done|]. by destruct colon, optChain.
  - right. rewrite <- app_assoc. rewrite hk_app in Hk by (apply Hne; [by cbn; set_solver|done]).
    apply Hbase; [by cbn; set_solver|done|done| |]; destruct ts, isMacroCall; done.
  - right. rewrite <- app_assoc. rewrite hk_app in Hk by (apply Hne; [by cbn; set_solver|done]).
    by apply Hbase; [by cbn; set_solver|..].
  - by destruct op.
  - by destruct body.
Qed.

(** ** No typed parameter in sight

    A typed parameter ends in a token that can end a type, a name, and a comma
    or the parenthesis before the arrow.  Printed expressions have no such
    sequence. *)

Definition type_end (k : TokenKind) : bool :=
  match k with TkIdentifier | TkGt | TkGtGt | TkQuestion => true | _ => false end.

Section Calm.
Context {A : Type} (k : A -> TokenKind).

Definition param_end (l : list A) : bool :=
  match l with
  | c :: l' => kind_eqb (k c) TkComma ||
               (kind_eqb (k c) TkRParen && match l' with d :: _ => kind_eqb (k d) TkArrow | [] => false end)
  | [] => false
  end.

(** [p] is the token before. *)
Fixpoint calm (p : TokenKind) (l : list A) : bool :=
  match l with
  | [] => true
  | b :: l' => negb (type_end p && kind_eqb (k b) TkIdentifier && param_end l') && calm (k b) l'
  end.

Lemma calm_app p a b : calm p (a ++ b) = true -> exists q, calm q b = true.
Proof.
  revert p. induction a as [|x a IH]; intros p H; [by eexists|]. cbn in H. bool_hyps. by eapply IH.
Qed.
End Calm.

Abbreviation vcalm := (calm (A := view) fst).
Abbreviation vparam_end := (param_end (A := view) fst).

Lemma vcalm_any p q vs : hk vs <> TkIdentifier -> vcalm p vs = true -> vcalm q vs = true.
Proof.
  destruct vs as [|v vs]; [done|]. cbn [hk calm]. intros H. apply kind_eqb_neq in H. rewrite H.
  by rewrite !andb_false_r.
Qed.

Lemma vcalm_soft p q vs : type_end p = false -> vcalm q vs = true -> vcalm p vs = true.
Proof. destruct vs as [|v vs]; [done|]. cbn [calm]. intros ->. intros H. by bool_hyps. Qed.

Lemma vcalm_cons p v vs : v.1 <> TkIdentifier -> vcalm p (v :: vs) = vcalm v.1 vs.
Proof. intros H. cbn [calm]. apply kind_eqb_neq in H. by rewrite H, andb_false_r. Qed.

Lemma vcalm_ident p s vs : type_end p = false -> vcalm TkIdentifier vs = true -> vcalm p (idv s :: vs) = true.
Proof. intros H E. cbn [calm]. by rewrite H. Qed.

(** What may follow a complete type or expression. *)
Definition rest_ok (vs : list view) : Prop := hk vs <> TkIdentifier /\ hk vs <> TkArrow /\ vcalm TkEnd vs = true.

Lemma rest_ok_cons v vs : v.1 <> TkIdentifier -> v.1 <> TkArrow -> vcalm v.1 vs = true -> rest_ok (v :: vs).
Proof. intros H1 H2 H3. split; [done|]. split; [done|]. by rewrite vcalm_cons. Qed.

Lemma rest_ok_any p vs : rest_ok vs -> vcalm p vs = true.
Proof. intros (H1 & _ & H3). by eapply vcalm_any. Qed.

(** Spellings that keep the rest calm. *)
Definition settled (x : list view) : Prop := forall p rest,
  type_end p = false -> rest_ok rest -> vcalm p (x ++ rest) = true.

Lemma settled_join k xs : type_end k = false -> k <> TkArrow -> Forall settled xs -> settled (join [pt k] xs).
Proof.
  intros H1 H2. induction xs as [|x xs IH]; intros Hs p rest Hp Hr; [by apply rest_ok_any|].
  inversion Hs as [|?? Hx Hxs]; subst.
  destruct (decide (xs = [])) as [->|Hne]; [by apply Hx|]. rewrite join_cons, <- !app_assoc by done.
  apply Hx; [done|]. apply rest_ok_cons; [by cbn; intros ->|done|]. by apply IH.
Qed.

(** ** Types *)

Definition tsubs (t : TypeRef) : list TypeRef :=
  match t with TNamed _ _ _ gs _ _ => gs | TUnion _ ms => ms | TInferred _ => [] | TFunction _ ps r => r :: ps end.

Lemma length_join_map {B} (f : B -> list view) sep xs x : x ∈ xs -> length (f x) <= length (join sep (map f xs)).
Proof. intros H. apply length_join_elem. by apply list_elem_of_fmap_2. Qed.

Fixpoint tsize (t : TypeRef) : nat :=
  match t with
  | TNamed _ _ _ gs _ _ => S (sum_list_with tsize gs)
  | TUnion _ ms => S (sum_list_with tsize ms)
  | TInferred _ => 1
  | TFunction _ ps r => S (tsize r + sum_list_with tsize ps)
  end.

Lemma sum_elem {B} (f : B -> nat) xs x : x ∈ xs -> f x <= sum_list_with f xs.
Proof. induction xs; [by intros ?%not_elem_of_nil|]. intros [->|H]%elem_of_cons; cbn; [lia|]. specialize (IHxs H). lia. Qed.

Lemma type_ind' (P : TypeRef -> Prop) : (forall t, (forall x, x ∈ tsubs t -> P x) -> P t) -> forall t, P t.
Proof.
  intros H t. remember (tsize t) as n eqn:E. revert t E. induction n as [n IH] using lt_wf_ind.
  intros t ->. apply H. intros x Hx. eapply IH; [|done].
  destruct t as [sp path name gs hb hf|sp ms|sp|sp ps r]; cbn in *; try pose proof (sum_elem tsize _ _ Hx);
    [lia|lia|by apply not_elem_of_nil in Hx|].
  apply elem_of_cons in Hx as [->|Hx]; [lia|]. pose proof (sum_elem tsize _ _ Hx). lia.
Qed.

Lemma settled_map {B} (f : B -> list view) xs : (forall x, x ∈ xs -> settled (f x)) -> Forall settled (map f xs).
Proof. intros H. apply Forall_fmap, Forall_forall. auto. Qed.

Lemma settled_gviews gs rest q : Forall settled (map tviews gs) -> rest_ok rest -> vcalm q (gviews gs ++ rest) = true.
Proof.
  intros Hg Hr. destruct gs as [|g gs]; [by apply rest_ok_any|]. cbn [gviews app]. rewrite vcalm_cons by done.
  rewrite <- app_assoc. apply settled_join; [done|done|done|done|]. cbn [app]. apply rest_ok_cons; [done|done|].
  by apply rest_ok_any.
Qed.

Lemma settled_type t : settled (tviews t).
Proof.
  induction t as [t IH] using type_ind'. intros p rest Hp Hr.
  destruct t as [sp path name gs hb hf|sp ms|sp|sp ps r].
  - cbn [tviews]. fold (gviews gs). rewrite <- app_assoc. cbn [app].
    revert p Hp. induction path as [|s path IHp]; intros p Hp; cbn.
    + change (negb (type_end p && true && vparam_end (gviews gs ++ rest)) && vcalm TkIdentifier (gviews gs ++ rest) = true).
      rewrite Hp. cbn. apply settled_gviews; [|done]. by apply settled_map.
    + rewrite Hp. cbn. by apply IHp.
  - apply settled_join; [done|done| |done|done]. by apply settled_map.
  - apply rest_ok_any. apply rest_ok_cons; [done|done|]. by apply rest_ok_any.
  - cbn [tviews]. cbn [app]. rewrite vcalm_cons by done. rewrite <- app_assoc. cbn [tsubs] in IH.
    apply settled_join; [done|done| |done|]; [apply settled_map; set_solver|]. cbn [app].
    apply rest_ok_cons; [done|done|]. rewrite vcalm_cons by done. apply IH; [set_solver|done|done].
Qed.

Lemma settled_targviews ts q rest : rest_ok rest -> vcalm q (targviews ts ++ rest) = true.
Proof.
  intros Hr. destruct ts as [|t ts]; [by apply rest_ok_any|].
  change (targviews (t :: ts)) with (pt TkColonColon :: gviews (t :: ts)). cbn [app]. rewrite vcalm_cons by done.
  apply settled_gviews; [|done]. apply settled_map. intros x _. apply settled_type.
Qed.

(** ** Expressions *)

Lemma settled_params ps : settled (join [pt TkComma] (map (fun p => [idv (param_name p)]) ps)).
Proof.
  apply settled_join; [done|done|]. apply settled_map. intros p _ q rest Hq Hr.
  apply vcalm_ident; [done|]. by apply rest_ok_any.
Qed.

Definition ev_calm (e : Expr) : Prop := forall p rest,
  (type_end p = true -> vparam_end rest = false) -> rest_ok rest -> vcalm p (ev e ++ rest) = true.

Lemma ev_settled e : ev_calm e -> settled (ev e).
Proof. intros H p rest Hp Hr. apply H; [congruence|done]. Qed.

Lemma arg_settled e : ev_calm e -> settled (arg_views e).
Proof.
  intros H p rest Hp Hr. unfold arg_views. rewrite <- app_assoc. destruct (labelOf e) as [|c l].
  - by apply ev_settled.
  - cbn [label_views app]. apply vcalm_ident; [done|]. rewrite vcalm_cons by done. by apply ev_settled.
Qed.

(** An operand before an operator token. *)
Lemma calm_before e v p vs : ev_calm e ->
  v.1 <> TkIdentifier /\ v.1 <> TkArrow /\ v.1 <> TkComma /\ v.1 <> TkRParen ->
  vcalm v.1 vs = true -> vcalm p (ev e ++ v :: vs) = true.
Proof.
  intros He (H1 & H2 & H3 & H4) Hv. apply He; [|by apply rest_ok_cons]. intros _. cbn.
  apply kind_eqb_neq in H3, H4. by rewrite H3, H4.
Qed.

(** An operand before the closing parenthesis of a printed operation. *)
Lemma calm_close e p rest : ev_calm e -> rest_ok rest -> vcalm p (ev e ++ pt TkRParen :: rest) = true.
Proof.
  intros He Hr. pose proof Hr as (_ & Ha & _). apply He.
  - intros _. destruct rest as [|v rest]; [done|]. cbn in *. by apply kind_eqb_neq.
  - apply rest_ok_cons; [done|done|]. by apply rest_ok_any.
Qed.

Lemma binop_neq op : binop_ok op = true ->
  op <> TkIdentifier /\ op <> TkArrow /\ op <> TkComma /\ op <> TkRParen.
Proof. by destruct op. Qed.

Lemma calm_ev e : printable e = true -> ev_calm e.
Proof.
  induction e as [e IH] using expr_ind'. intros H p rest Hp Hr. destruct e as [sp l c ts n].
  cbn [printable] in H. unfold subs in IH. cbn [enode] in IH.
  destruct n; try done; bool_hyps; try done; cbn [ev];
    try (apply rest_ok_any, rest_ok_cons; [done|done|by apply rest_ok_any]);
    repeat (rewrite <- ?app_assoc; cbn [app]).
  - apply rest_ok_any, rest_ok_cons; [| |by apply rest_ok_any]; by destruct (eqs text (lit "true")).
  - cbn [calm fst]. rewrite settled_targviews by done. destruct (type_end p); [|done]. destruct ts; [|done].
    cbn [targviews turbo map app]. by rewrite Hp.
  - apply calm_before; [apply IH; [set_solver|done]|by destruct colon, optChain|].
    cbn [calm]. replace (type_end (pt (sep_kind colon optChain)).1) with false by (by destruct colon, optChain).
    by apply settled_targviews.
  - apply IH; [set_solver|done|by destruct ts, isMacroCall|].
    assert (settled (join [pt TkComma] (map arg_views args))) as Ha.
    { apply settled_join; [done|done|]. apply settled_map. intros x Hx. apply arg_settled, IH; [set_solver|].
      by eapply forallb_elem. }
    assert (forall q, vcalm q ((if isMacroCall then [pt TkBang; pt TkLParen] else [pt TkLParen]) ++
              join [pt TkComma] (map arg_views args) ++ pt TkRParen :: rest) = true) as Hc.
    { intros q. destruct isMacroCall; cbn [app]; rewrite ?vcalm_cons by done; (apply Ha; [done|]);
        (apply rest_ok_cons; [done|done|]); by apply rest_ok_any. }
    split; [by destruct ts, isMacroCall|]. split; [by destruct ts, isMacroCall|].
    apply settled_targviews. split; [by destruct isMacroCall|]. split; [by destruct isMacroCall|]. apply Hc.
  - apply calm_before; [apply IH; [set_solver|done]|done|].
    apply calm_before; [apply IH; [set_solver|done]|done|]. by apply rest_ok_any.
  - rewrite vcalm_cons by (by destruct op). apply IH; [set_solver|done| |done]. by destruct op.
  - rewrite vcalm_cons by done. apply calm_before; [apply IH; [set_solver|done]|by apply binop_neq|].
    apply calm_close; [apply IH; [set_solver|done]|done].
  - rewrite vcalm_cons by done. apply calm_before; [apply IH; [set_solver|done]|done|].
    apply calm_before; [apply IH; [set_solver|done]|done|]. apply calm_close; [apply IH; [set_solver|done]|done].
  - rewrite vcalm_cons by done. apply settled_join; [done|done| |done|].
    + apply settled_map. intros x Hx. apply ev_settled, IH; [done|]. by eapply forallb_elem.
    + apply rest_ok_cons; [done|done|]. by apply rest_ok_any.
  - destruct body as [a|]; [|done]. bool_hyps. repeat (rewrite <- ?app_assoc; cbn [app]). rewrite vcalm_cons by done.
    apply settled_params; [done|]. apply rest_ok_cons; [done|done|]. rewrite vcalm_cons by done.
    apply ev_settled; [|done|done]. apply IH; [set_solver|done].
  - rewrite vcalm_cons by done. apply ev_settled; [|done|done]. apply IH; [set_solver|done].
  - rewrite vcalm_cons by done. by apply settled_type.
  - rewrite vcalm_cons by done. apply calm_before; [apply IH; [set_solver|done]|done|].
    rewrite vcalm_cons by done. by apply rest_ok_any.
  - rewrite vcalm_cons by done. apply calm_before; [apply IH; [set_solver|done]|done|].
    apply calm_close; [apply IH; [set_solver|done]|done].
  - rewrite vcalm_cons by done. apply calm_before; [apply IH; [set_solver|done]|done|].
    apply settled_type; [done|]. apply rest_ok_cons; [done|done|]. by apply rest_ok_any.
Qed.

(** ** From spellings to tokens *)

Abbreviation tcalm := (calm (A := Token) kind).

Lemma spells_arrow ts vs : spells ts vs -> head_is TkArrow ts = kind_eqb (hk vs) TkArrow.
Proof. intros [|t ts' vs' Hs|t ts' vs' Hg Hs]; [done|done|]. cbn. by rewrite Hg. Qed.

Lemma spells_param_end ts vs : spells ts vs -> param_end kind ts = true -> vparam_end vs = true.
Proof.
  intros [|t ts' vs' Hs|t ts' vs' Hg Hs]; [done| |by cbn; rewrite Hg].
  pose proof (spells_arrow _ _ Hs) as Ha. cbn.
  replace (match ts' with [] => false | d :: _ => kind_eqb (kind d) TkArrow end) with (head_is TkArrow ts') by (by destruct ts').
  rewrite Ha. by destruct vs'.
Qed.

Lemma spells_calm ts vs p q : spells ts vs -> type_end p = type_end q -> vcalm p vs = true -> tcalm q ts = true.
Proof.
  intros Hs. revert p q. induction Hs as [|t ts vs Hs IH|t ts vs Hg Hs IH]; intros p q Hpq H; [done| |].
  - cbn [calm tview fst] in *. rewrite <- Hpq. apply andb_prop in H as [H1 H2]. apply andb_true_intro. split; [|by eapply IH].
    destruct (type_end p && kind_eqb (kind t) TkIdentifier) eqn:E; [|done].
    destruct (param_end kind ts) eqn:Ep; [|done]. by rewrite (spells_param_end ts vs Hs Ep) in H1.
  - cbn [calm pt fst] in *. rewrite Hg in *. cbn in *. rewrite !andb_false_r in *. cbn in *.
    eapply IH; [|exact H]. done.
Qed.

(** ** What the scans stop at *)

Lemma skipParensLA_suffix d ts : exists pre, ts = pre ++ skipParensLA d ts.
Proof.
  revert d. induction ts as [|t ts IH]; intros d; [by exists []|]. cbn [skipParensLA]. cbv zeta.
  destruct (0 <? _)%Z; [|by exists [t]]. destruct (IH (match kind t with TkLParen => d + 1 | TkRParen => d - 1 | _ => d end)%Z) as [pre E].
  exists (t :: pre). cbn. by rewrite <- E.
Qed.

(** A suffix whose preceding token can end a type. *)
Definition after_type (ts r : list Token) : Prop :=
  r <> [] -> exists pre a, ts = pre ++ a :: r /\ type_end (kind a) = true.

Lemma skipAnglesLA_end d ts : (0 < d)%Z -> after_type ts (skipAnglesLA d ts).
Proof.
  revert d. induction ts as [|t ts IH]; intros d Hd; [by intros []|]. cbn [skipAnglesLA]. cbv zeta.
  set (d' := (match kind t with TkLt => d + 1 | TkGt => d - 1 | TkGtGt => d - 2 | _ => d end)%Z). destruct (Z.leb_spec d' 0) as [Hle|Hgt].
  - intros _. exists [], t. split; [done|]. subst d'. destruct (kind t); lia || done.
  - intros Hr. destruct (IH d' Hgt Hr) as (pre & a & E & Ha). exists (t :: pre), a. by rewrite E at 1.
Qed.

Lemma after_type_cons t ts r : after_type ts r -> after_type (t :: ts) r.
Proof. intros H Hr. destruct (H Hr) as (pre & a & -> & Ha). by exists (t :: pre), a. Qed.

Lemma after_type_app pre ts r : after_type ts r -> after_type (pre ++ ts) r.
Proof. intros H. induction pre; [done|]. by apply after_type_cons. Qed.

Lemma skipQualifiedLA_end n t ts r : length ts <= n -> kind t = TkIdentifier -> skipQualifiedLA ts = Some r ->
  after_type (t :: ts) r.
Proof.
  revert t ts. induction n as [|n IH]; intros t ts Hn Ht E.
  - destruct ts; [|cbn in Hn; lia]. injection E as <-. by intros [].
  - destruct ts as [|a ts]; [by injection E as <-; intros []|]. cbn in E, Hn. destruct (kind_eqb (kind a) TkColonColon).
    + destruct ts as [|b ts]; [done|]. cbn in Hn. destruct (kind_eqb (kind b) TkIdentifier) eqn:Eb; [|done].
      apply kind_eqb_eq in Eb. apply after_type_cons, after_type_cons. apply IH; [lia|done|done].
    + injection E as <-. intros _. exists [], t. by rewrite Ht.
Qed.

Lemma skipOne_end k ts r : after_type ts r -> type_end k = true -> after_type ts (skipOne k r).
Proof.
  intros H Hk. unfold skipOne. destruct (head_is k r) eqn:E; [|done]. destruct r as [|a r]; [done|].
  cbn in E. apply kind_eqb_eq in E. destruct (H ltac:(done)) as (pre & b & -> & _). cbn [tail]. intros _.
  exists (pre ++ [b]), a. rewrite <- app_assoc. by rewrite E.
Qed.

Lemma skipTypeLA_end n ts r : skipTypeLA n ts = Some r -> after_type ts r.
Proof.
  revert ts r. induction n as [|n IH]; intros ts r E; [done|]. cbn [skipTypeLA] in E.
  destruct ts as [|t ts]; [done|]. destruct (kind t) eqn:Ek; try done.
  - destruct (skipQualifiedLA ts) as [ts2|] eqn:Eq; [|done]. injection E as <-.
    apply (skipQualifiedLA_end (length ts) t) in Eq; [|done|done]. apply skipOne_end; [|done].
    destruct (head_is TkLt ts2) eqn:El; [|done]. destruct ts2 as [|a ts2]; [done|]. cbn in El. apply kind_eqb_eq in El.
    destruct (Eq ltac:(done)) as (pre & b & -> & _). cbn [skipAnglesLA]. rewrite El.
    change (if (0 + 1 <=? 0)%Z then ts2 else skipAnglesLA (0 + 1) ts2) with (skipAnglesLA 1 ts2).
    apply after_type_app, after_type_cons, after_type_cons. apply skipAnglesLA_end. lia.
  - destruct (skipParensLA_suffix 0 (t :: ts)) as [pre Ep]. set (rest := skipParensLA 0 (t :: ts)) in *.
    destruct (head_is TkArrow rest) eqn:Ea; [|done]. rewrite Ep. destruct rest as [|x rest]; [done|].
    apply after_type_app, after_type_cons. by apply IH.
Qed.

Lemma typedParam_end ts r : typedParam ts = Some r ->
  exists pre a b, ts = pre ++ a :: b :: r /\ type_end (kind a) = true /\ kind b = TkIdentifier.
Proof.
  unfold typedParam. destruct (skipTypeLA (length ts) ts) as [rest|] eqn:E; [|done].
  destruct (head_is TkIdentifier rest) eqn:Eh; [|done]. intros [= <-]. destruct rest as [|b rest]; [done|].
  cbn in Eh. apply kind_eqb_eq in Eh. destruct (skipTypeLA_end _ _ _ E ltac:(done)) as (pre & a & -> & Ha).
  by exists pre, a, b.
Qed.

(** In calm tokens, a typed parameter is followed by neither a comma nor the end of
    a parameter list. *)
Lemma calm_no_param q ts r : tcalm q ts = true -> typedParam ts = Some r -> param_end kind r = false.
Proof.
  intros Hc (pre & a & b & -> & Ha & Hb)%typedParam_end. destruct (calm_app kind q pre _ Hc) as [q' H].
  cbn [calm] in H. bool_hyps. rewrite Ha, Hb in *. cbn in *. by bool_hyps.
Qed.

(** ** The two answers *)

(** What a parenthesis of a printed operation holds: it does not start with
    [name )] or [name ,]. *)
Definition operand_ahead (vs : list view) : Prop :=
  hk vs <> TkRParen /\ (hk vs = TkIdentifier -> hk (tail vs) <> TkComma /\ hk (tail vs) <> TkRParen).

Lemma spells_head k ts vs : spells ts vs -> k <> TkGtGt -> k <> TkGt -> head_is k ts = true -> hk vs = k.
Proof.
  intros [|t ts' vs' Hs|t ts' vs' Hg Hs] H1 H2; cbn; [done| |].
  - by intros ?%kind_eqb_eq.
  - rewrite Hg. intros E%kind_eqb_eq. congruence.
Qed.

Lemma not_lambda ts vs q : spells ts (pt TkLParen :: vs) -> vcalm q vs = true -> operand_ahead vs ->
  looksLikeLambdaAt ts = false.
Proof.
  intros Hs Hc (Ho1 & Ho2). inversion Hs as [|t ts1 vs1 Hs1 E|]; subst. destruct t as [k sp tx]. cbn in *.
  unfold looksLikeLambdaAt. cbn [head_is kind tail]. destruct (kind_eqb k TkLParen); [|done].
  destruct (head_is TkRParen ts1) eqn:Er; [by apply (spells_head TkRParen ts1 vs) in Er|].
  assert (exists q', tcalm q' ts1 = true) as [q' Ht] by (exists q; by eapply spells_calm).
  destruct (length ts1) as [|n]; [done|]. cbn [lambdaParams].
  destruct (typedParam ts1) as [r|] eqn:Et.
  - pose proof (calm_no_param q' ts1 r Ht Et) as Hp. destruct r as [|c r]; [done|]. cbn in Hp |- *.
    apply orb_false_elim in Hp as [Hp1 Hp2]. rewrite Hp1. cbn. by destruct r.
  - destruct (head_is TkIdentifier ts1) eqn:Ei; [|done]. destruct ts1 as [|b r]; [done|]. cbn [tail].
    pose proof (spells_head TkIdentifier _ _ Hs1 ltac:(done) ltac:(done) Ei) as Hk. destruct (Ho2 Hk) as [N1 N2].
    inversion Hs1 as [|? ? vs' Hs2 E'|]; subst; [|done]. cbn [tail] in *.
    destruct (head_is TkComma r) eqn:Ec; [by apply (spells_head TkComma r vs') in Ec|].
    destruct (head_is TkRParen r) eqn:Er2; [by apply (spells_head TkRParen r vs') in Er2|]. done.
Qed.

Lemma spells_cons ts v vs : spells ts (v :: vs) -> v.1 <> TkGt ->
  exists t ts', ts = t :: ts' /\ tview t = v /\ kind t = v.1 /\ spells ts' vs.
Proof. intros Hs Hv. inversion Hs; subst; [|done]. by do 2 eexists. Qed.

(** A bare parameter is not taken for a typed one. *)
Lemma bare_param ts s v vs : spells ts (idv s :: v :: vs) -> v.1 = TkComma \/ v.1 = TkRParen ->
  exists t ts', ts = t :: ts' /\ kind t = TkIdentifier /\ typedParam ts = None /\ spells ts' (v :: vs).
Proof.
  intros Hs Hk. apply spells_cons in Hs as (t & ts1 & -> & _ & Ht & Hs); [|done]. exists t, ts1.
  split; [done|]. split; [done|]. split; [|done].
  apply spells_cons in Hs as (c & ts2 & -> & _ & Hc & _); [|by destruct Hk as [->| ->]].
  cbn in Ht. unfold typedParam. cbn [length skipTypeLA skipQualifiedLA]. rewrite Ht, Hc.
  replace (kind_eqb v.1 TkColonColon) with false by (by destruct Hk as [->| ->]).
  unfold skipOne. cbn [head_is]. rewrite Hc. destruct Hk as [Hv|Hv]; rewrite Hv in *; cbn; rewrite Hc; cbn; by rewrite ?Hc.
Qed.

Abbreviation param_views ps := (join [pt TkComma] (map (fun p => [idv (param_name p)]) ps)).

Lemma lambdaParams_bare ps vs n ts : ps <> [] -> length ts <= n ->
  spells ts (param_views ps ++ pt TkRParen :: pt TkArrow :: vs) ->
  exists t u ts', lambdaParams n ts = Some (t :: u :: ts') /\ kind t = TkRParen /\ kind u = TkArrow.
Proof.
  revert n ts. induction ps as [|p ps IH]; intros n ts Hne Hn Hs; [done|]. cbn [map] in Hs.
  assert (exists n', n = S n') as [n' ->].
  { destruct n; [|by eexists]. destruct ts; [|cbn in Hn; lia]. exfalso. destruct ps; inversion Hs. }
  cbn [lambdaParams]. destruct (decide (ps = [])) as [->|Hps].
  - apply bare_param in Hs as (t & ts1 & -> & Ht & Hty & Hs); [|by right]. rewrite Hty. cbn [head_is tail].
    rewrite Ht. cbn. apply spells_cons in Hs as (t1 & ts2 & -> & _ & H1 & Hs); [|done].
    apply spells_cons in Hs as (t2 & ts3 & -> & _ & H2 & Hs); [|done]. exists t1, t2, ts3. cbn. by rewrite H1.
  - rewrite join_cons in Hs by (by destruct ps). cbn [app] in Hs.
    apply bare_param in Hs as (t & ts1 & -> & Ht & Hty & Hs); [|by left]. rewrite Hty. cbn [head_is tail].
    rewrite Ht. cbn. apply spells_cons in Hs as (t1 & ts2 & -> & _ & H1 & Hs); [|done]. cbn in H1. cbn.
    rewrite H1. cbn in *. apply IH; [done|lia|done].
Qed.

Lemma is_lambda ts ps vs : spells ts (pt TkLParen :: param_views ps ++ pt TkRParen :: pt TkArrow :: vs) ->
  looksLikeLambdaAt ts = true.
Proof.
  intros Hs. apply spells_cons in Hs as (t & ts1 & -> & _ & Ht & Hs); [|done].
  unfold looksLikeLambdaAt. cbn [head_is tail]. rewrite Ht. cbn [pt fst]. kinds. cbv iota.
  destruct (decide (ps = [])) as [->|Hne].
  - cbn in Hs. apply spells_cons in Hs as (t1 & ts2 & -> & _ & H1 & Hs); [|done].
    apply spells_cons in Hs as (t2 & ts3 & -> & _ & H2 & Hs); [|done]. cbn. by rewrite H1, H2.
  - assert (head_is TkRParen ts1 = false) as ->.
    { destruct (head_is TkRParen ts1) eqn:E; [|done].
      apply (spells_head TkRParen ts1 _ Hs) in E; [|done..]. by destruct ps as [|? [|]]. }
    destruct (lambdaParams_bare ps vs (length ts1) ts1) as (t1 & t2 & ts2 & -> & H1 & H2); [done|done|done|].
    cbn. by rewrite H1, H2.
Qed.
