(* ===== verification/ExprParse.v ===== *)
(** * Expressions parse back

    The expression parser run on the spelling of a printable expression: it
    returns the expression, up to spans, consumes the spelling and reports
    nothing. *)

From S2P Require Import Prelude Token Lexer LexerFacts Ast Cursor LexerRange ParserExpr Parser ParserWp ParserFacts AstPrinter Spelling Reading TypeParse Lookahead.

(** ** What the parser returns *)

(** The parsed expression carries no label of its own. *)
Definition same_expr (e' e : Expr) : Prop := strip e' = strip (set_argLabel [] e).

(** With the label of an argument. *)
Definition same_arg (e' e : Expr) : Prop := strip e' = strip e.

Lemma unlabeled_same e' e : unlabeled e = true -> same_expr e' e <-> same_arg e' e.
Proof.
  destruct e as [sp l c ts n]. unfold unlabeled, same_expr, same_arg. cbn [labelOf]. intros H. bool_hyps.
  by destruct l.
Qed.

Lemma labeled_same e' e : same_expr e' e -> same_arg (set_argLabel (labelOf e) e') e.
Proof.
  destruct e as [sp l c ts n], e' as [sp' l' c' ts' n']. unfold same_expr, same_arg. cbn. congruence.
Qed.

Lemma strip_args l args : Forall2 same_arg l args -> map strip l = map strip args.
Proof. induction 1 as [|x y l ys H _ IH]; cbn; [done|]. by rewrite H, IH. Qed.

Lemma strip_exprs l es : Forall2 same_expr l es -> forallb unlabeled es = true -> map strip l = map strip es.
Proof.
  intros H Hu. apply strip_args. induction H as [|x y l ys H _ IH]; [done|]. cbn in Hu. bool_hyps.
  constructor; [by apply unlabeled_same|by apply IH].
Qed.

(** ** What may follow *)

Definition closer (k : TokenKind) : bool :=
  match k with
  | TkRParen | TkRBracket | TkComma | TkColon | TkSemicolon | TkEnd | TkRBrace => true
  | _ => false
  end.

Definition stops (vs : list view) : Prop := chain_kind (hk vs) = false.

(** A suffix of calm tokens is calm. *)
Definition calmly (vs : list view) : Prop := exists q, vcalm q vs = true.

Lemma calmly_app a b : calmly (a ++ b) -> calmly b.
Proof. intros [q H]. by eapply calm_app. Qed.

Lemma calmly_cons v vs : calmly (v :: vs) -> calmly vs.
Proof. apply (calmly_app [v]). Qed.

Lemma closer_stops vs : closer (hk vs) = true -> stops vs.
Proof. unfold stops. by destruct (hk vs). Qed.

Lemma closer_tfollow vs : closer (hk vs) = true -> tfollow vs = true.
Proof. unfold tfollow, mfollow. by destruct (hk vs). Qed.

Lemma closer_neq vs k : closer (hk vs) = true -> closer k = false -> hk vs <> k.
Proof. congruence. Qed.

(** ** Operations in parentheses *)

Definition is_op (e : Expr) : bool :=
  match enode e with EBinary _ _ _ | ETernary _ _ _ | EExtract _ | ERange _ _ | EIs _ _ => true | _ => false end.

Definition inner (e : Expr) : list view :=
  match enode e with
  | EBinary op a b => ev a ++ pt op :: ev b
  | ETernary a b c => ev a ++ pt TkQuestion :: ev b ++ pt TkColon :: ev c
  | EExtract a => ev a ++ [pt TkGtGt]
  | ERange a b => ev a ++ pt TkDotDot :: ev b
  | EIs a t => ev a ++ (TkKwIs, lit "is") :: tviews t
  | _ => []
  end.

Lemma inner_views e : is_op e = true -> ev e = pt TkLParen :: inner e ++ [pt TkRParen].
Proof. destruct e as [sp l c ts []]; try done; intros _; cbn; by rewrite <- ?app_assoc; cbn; rewrite <- ?app_assoc. Qed.

(** The first operand, and the operator after it. *)
Lemma inner_operand e rest : is_op e = true -> printable e = true -> operand_ahead (inner e ++ rest).
Proof.
  destruct e as [sp l c ts n]. intros Ho Hp.
  assert (exists a v vs, inner (MkExpr sp l c ts n) = ev a ++ v :: vs /\ printable a = true /\
    v.1 <> TkRParen /\ v.1 <> TkComma) as (a & v & vs & E & Ha & Hv1 & Hv2).
  { destruct n; try done; cbn in Hp; bool_hyps; do 3 eexists; (split; [reflexivity|]); (split; [done|]); try done.
    by destruct op. }
  rewrite E, <- app_assoc. pose proof (ev_start a Ha) as Hs. unfold start_ok in Hs. apply andb_prop in Hs as [Hs _].
  assert (ev a <> []) as Hne by (intros Hn; by rewrite Hn in Hs).
  split; rewrite hk_app by done; [by intros Hk; rewrite Hk in Hs|]. intros Hk.
  destruct (ev_second a ((v :: vs) ++ rest) Ha Hk) as [Hb|Hc].
  - destruct a as [? ? ? [|] []]; try done.
  - split; intros Hx; by rewrite Hx in Hc.
Qed.

(** ** The contract of the recursive calls *)

Section Exprs.
Context (src : str).
Abbreviation reads := (reads src).
Abbreviation to := (to src).
Abbreviation reads_expr := (parses src ev same_expr).

Record exprs_below (m : nat) (R : Rec) : Prop := MkBelow {
  below_types : types_below src m (rType R);
  below_expr : forall n e rest, printable e = true -> length (ev e) < m -> closer (hk rest) = true ->
    calmly (ev e ++ rest) -> reads_expr (rExpr R n) e rest;
  below_inner : forall e rest, printable e = true -> is_op e = true -> length (inner e) < m -> hk rest = TkRParen ->
    calmly (inner e ++ rest) -> parses src inner same_expr (rExpr R 0) e rest;
  below_unary : forall e rest, printable e = true -> length (ev e) < m -> stops rest ->
    closed e = true \/ closer (hk rest) = true -> calmly (ev e ++ rest) -> reads_expr (rUnary R) e rest
}.

Section Step.
Context (R : Rec) (m : nat) (HR : exprs_below m R).

Lemma infix_stop minBP e st rest (Q : Expr -> PState -> Prop) : reads st rest -> closer (hk rest) = true ->
  Q e st -> wp (loop (infixStep src R minBP) e) st Q.
Proof.
  intros Hrd Hc HQ. apply wp_loop_step. unfold infixStep. vstep. vstep. cbv zeta.
  assert (kind (cur st) = hk rest) as Hk by (apply (kind_hk src); [done|by apply closer_neq]). rewrite Hk.
  destruct (hk rest); done.
Qed.

Lemma postfix_stop e st rest (Q : Expr -> PState -> Prop) : reads st rest -> stops rest ->
  Q e st -> wp (loop (postfixStep src R) e) st Q.
Proof.
  intros Hrd Hc HQ. apply wp_loop_step. unfold postfixStep. vstep. vstep.
  assert (forall k, chain_kind k = true -> at_ k st = false) as Ha.
  { intros k Hk. unfold stops in Hc. rewrite (at_hk src st rest) by (done || by intros ->).
    apply kind_eqb_neq. congruence. }
  rewrite !Ha by done. cbn [andb orb]. cbv iota. by vstep.
Qed.

(** *** String literals *)

Lemma interpLoop_plain n t stop i start pieces st : stop - i < n -> stop <= length (text t) ->
  (forall j, i <= j < stop -> plain_char (char_at (text t) j) = true) ->
  interpLoop src R n t stop i start pieces st = POk (pieces, start) st.
Proof.
  revert i. induction n as [|n IH]; intros i Hn Hs Hp; [lia|]. cbn [interpLoop].
  destruct (Nat.ltb_spec i stop); [|done]. specialize (Hp i ltac:(lia)) as Hc. unfold plain_char in Hc.
  assert (eqc (char_at (text t) i) c_bslash = false /\ eqc (char_at (text t) i) "$" = false) as [-> ->] by (by bool_hyps).
  cbn [andb]. apply IH; [lia|done|]. intros j Hj. apply Hp. lia.
Qed.

Lemma wp_string t tx single st (Q : Expr -> PState -> Prop) : text t = quoted tx single -> tx <> [] ->
  forallb plain_char tx = true ->
  Q (mkExpr (span t) (EStringLit tx (MkString true false false single))) st ->
  wp (parseInterpolatedString src R t) st Q.
Proof.
  intros Ht Hne Hp HQ. unfold parseInterpolatedString, wp. cbv zeta.
  set (q := if single then "'"%char else c_quote). assert (text t = q :: tx ++ [q]) as Hq by done. clear Ht.
  assert (length (text t) = S (S (length tx))) as Hl by (rewrite Hq; cbn; rewrite length_app; cbn; lia).
  assert (forall j, 1 <= j < length (text t) - 1 -> plain_char (char_at (text t) j) = true) as Hc.
  { intros j Hj. unfold char_at. rewrite Hq. destruct j as [|j]; [lia|].
    change ((q :: tx ++ [q]) !! S j) with ((tx ++ [q]) !! j). rewrite lookup_app_l by lia.
    destruct (lookup_lt_is_Some_2 tx j) as [c Hc]; [lia|]. rewrite Hc. eapply forallb_elem; [exact Hp|].
    by eapply list_elem_of_lookup_2. }
  assert (quoteLen (text t) = 1) as ->.
  { unfold quoteLen. specialize (Hc 1). destruct tx as [|c tx]; [done|]. cbn in Hl. specialize (Hc ltac:(lia)).
    rewrite Hq in *. cbn in *. unfold plain_char in Hc. bool_hyps.
    replace (eqc q c) with false; [by rewrite andb_false_r|]. symmetry. apply eqc_neq. intros <-.
    subst q. by destruct single. }
  unfold bind. rewrite interpLoop_plain by (done || lia). cbn [fst snd]. unfold pushSegment.
  destruct (Nat.leb_spec (length (text t) - 1) 1) as [Hle|_]; [destruct tx; [done|cbn in Hl; lia]|]. cbn [app].
  assert (substr (text t) 1 (length (text t) - 1 - 1) = tx) as ->.
  { rewrite Hl, Hq. unfold substr. cbn [drop]. replace (S (S (length tx)) - 1 - 1) with (length tx) by lia.
    apply take_app_length. }
  assert (char_at (text t) 0 = q) as -> by (by rewrite Hq). unfold q. destruct single; exact HQ.
Qed.

(** *** Arguments *)

Lemma start_neq e rest k : printable e = true -> canStartExpr k = false -> hk (ev e ++ rest) <> k.
Proof.
  intros Hp Hk E. pose proof (start_ok_app _ rest (ev_start e Hp)) as Hs. unfold start_ok in Hs. by rewrite E, Hk in Hs.
Qed.

(** An unlabelled argument does not look like a labelled one. *)
Lemma no_label e rest st : printable e = true -> reads st (ev e ++ rest) -> hk rest <> TkColon -> labelAhead st = false.
Proof.
  intros Hp Hrd Hc. unfold labelAhead. rewrite (at_hk src st _ _ Hrd) by done.
  destruct (kind_eqb (hk (ev e ++ rest)) TkIdentifier) eqn:E; [|done]. apply kind_eqb_eq in E. cbn [andb].
  rewrite (peek1_hk src st _ _ Hrd) by (done || congruence). apply kind_eqb_neq.
  assert (ev e <> []) as Hne by (intros Hn; pose proof (ev_start e Hp) as Hs; by rewrite Hn in Hs).
  rewrite hk_app in E by done. destruct (ev_second e rest Hp E) as [Hb|Hch].
  - by destruct e as [? ? ? [|] []].
  - intros Hx. by rewrite Hx in Hch.
Qed.

Abbreviation args_views args := (join [pt TkComma] (map arg_views args)).

Abbreviation arg_step arg := (fun acc : list Expr * bool =>
  let '(args, sawNamed) := acc in
  let! ls := argLabelOpt sawNamed in
  let! e := arg in
  let args' := args ++ [if (0 <? length ls.1)%nat then set_argLabel ls.1 e else e] in
  let! more := accept TkComma in
  ret (if more : bool then inl (args', ls.2) else inr args')).

(** One argument, with its label if it has one. *)
Lemma wp_labelled (arg : P Expr) a rest sawNamed st (Q : str * bool -> PState -> Prop) : printable a = true ->
  (unlabeled a = true -> sawNamed = false) -> hk rest <> TkColon ->
  reads st (arg_views a ++ rest) ->
  (forall saw' st', (saw' = true -> sawNamed = true \/ unlabeled a = false) -> to st (ev a ++ rest) st' ->
     Q (labelOf a, saw') st') ->
  wp (argLabelOpt sawNamed) st Q.
Proof.
  intros Hp Hs Hc Hrd HQ. unfold argLabelOpt, arg_views in *. vstart. vstep. vstep.
  unfold unlabeled in *. destruct (labelOf a) as [|c l].
  - cbn [label_views app] in Hrd. rewrite (no_label a rest st) by done. rewrite Hs by done. cbv iota. vstep.
    by apply HQ.
  - cbn [label_views app] in Hrd. unfold labelAhead. vstep. look. repeat vstep. apply HQ; [by right|done].
Qed.

Lemma wp_argLoop (arg : P Expr) args rest : args <> [] -> hk rest = TkRParen -> forallb printable args = true ->
  (forall a pre rest', a ∈ args -> hk rest' = TkComma \/ rest' = rest ->
     pre ++ ev a ++ rest' = args_views args ++ rest -> reads_expr arg a rest') ->
  forall args0 sawNamed st (Q : list Expr -> PState -> Prop), labels_ok args = true ->
  (sawNamed = true -> forallb (fun b => negb (unlabeled b)) args = true) ->
  reads st (args_views args ++ rest) ->
  (forall l st', Forall2 same_arg l args -> to st rest st' -> pos_ st < pos_ st' -> Q (args0 ++ l) st') ->
  wp (loop (arg_step arg) (args0, sawNamed)) st Q.
Proof.
  intros Hne Hr Hpr Hit. induction args as [|a args IH]; [done|]. intros args0 sawNamed st Q Hl Hsaw Hrd HQ.
  apply wp_loop_step. cbn [forallb] in Hpr. apply andb_prop in Hpr as [Hp Hps]. vstart.
  set (rest' := match args with [] => rest | _ => pt TkComma :: args_views args ++ rest end).
  assert (args_views (a :: args) ++ rest = arg_views a ++ rest') as E.
  { subst rest'. destruct args as [|b args]; [done|]. change (map arg_views (a :: b :: args)) with (arg_views a :: map arg_views (b :: args)).
    by rewrite join_cons, <- !app_assoc. }
  rewrite E in Hrd. assert (hk rest' = TkComma \/ rest' = rest) as Hr' by (subst rest'; destruct args; auto).
  vstep. eapply (wp_labelled arg a rest'); [done| | |exact Hrd|].
  { intros Hu. destruct sawNamed; [|done]. specialize (Hsaw eq_refl). cbn in Hsaw. rewrite Hu in Hsaw. done. }
  { destruct Hr' as [-> | ->]; [done|]. by rewrite Hr. }
  intros saw' st1 Hsaw' T1. vabsorb T1. vstep. cbn [fst snd].
  eapply (Hit a (label_views (labelOf a)) rest'); [by constructor|done| |eassumption|].
  { rewrite E. unfold arg_views. by rewrite <- app_assoc. }
  intros a' st2 Ea T2 Hp2. vabsorb T2. vstep.
  assert (same_arg (if (0 <? length (labelOf a))%nat then set_argLabel (labelOf a) a' else a') a) as Ha.
  { destruct (Nat.ltb_spec 0 (length (labelOf a))); [by apply labeled_same|]. apply unlabeled_same; [|done].
    unfold unlabeled. apply Nat.eqb_eq. lia. }
  destruct args as [|b args].
  - subst rest'. cbn in Hr'. eapply wp_accept_no; [eassumption|by rewrite Hr|done|done|]. vstep.
    apply HQ; [by repeat constructor|done|lia].
  - subst rest'. vstep. vstep. split; [eapply to_less; [eassumption|lia]|].
    eapply IH; [done|done| | | |eassumption|].
    + intros x pre rest2 Hx Hrx Ex. apply (Hit x ((arg_views a ++ [pt TkComma]) ++ pre)); [by constructor|done|].
      rewrite E, <- Ex. by rewrite <- !app_assoc.
    + cbn [labels_ok] in Hl. destruct (unlabeled a); [done|]. by bool_hyps.
    + intros Hs'. destruct (Hsaw' Hs') as [Hn|Hu].
      * by apply andb_prop in Hsaw as [_ Hsaw].
      * cbn [labels_ok] in Hl. rewrite Hu in Hl. by bool_hyps.
    + intros l st3 Hl3 T3 Hp3. rewrite <- app_assoc. apply HQ; [by constructor|by eapply to_trans|lia].
Qed.

Lemma args_start a args rest k : printable a = true -> canStartExpr k = false -> hk (args_views (a :: args) ++ rest) <> k.
Proof.
  intros Hp Hk. assert (exists vs, args_views (a :: args) ++ rest = arg_views a ++ vs) as [vs ->].
  { destruct args as [|b args]; [by eexists|].
    change (map arg_views (a :: b :: args)) with (arg_views a :: map arg_views (b :: args)).
    rewrite join_cons, <- app_assoc by done. by eexists. }
  unfold arg_views. rewrite <- app_assoc. destruct (labelOf a); [by apply start_neq|]. cbn. by intros <-.
Qed.

Lemma wp_argList_v (arg : P Expr) args rest : forallb printable args = true -> labels_ok args = true ->
  length (args_views args) < m -> calmly (args_views args ++ pt TkRParen :: rest) ->
  (forall a rest', printable a = true -> length (ev a) < m -> closer (hk rest') = true -> calmly (ev a ++ rest') ->
     reads_expr arg a rest') ->
  forall st (Q : list Expr -> PState -> Prop), reads st (pt TkLParen :: args_views args ++ pt TkRParen :: rest) ->
  (forall l st', map strip l = map strip args -> to st rest st' -> pos_ st < pos_ st' -> Q l st') ->
  wp (argList arg) st Q.
Proof.
  intros Hp Hl Hm Hc Harg st Q Hrd HQ. unfold argList. vstart. vstep. vstep. vstep. vstep. vstep.
  destruct args as [|a args].
  - cbn in Rd. look. kinds. cbv iota. repeat vstep. apply HQ; [done|done|lia].
  - rewrite (at_hk src _ _ _ Rd) by done.
    rewrite (proj2 (kind_eqb_neq _ _)) by (apply args_start; [by apply andb_prop in Hp as [? _]|done]). cbv iota.
    eapply (wp_argLoop arg (a :: args) (pt TkRParen :: rest)); [done|done|done| |done|done|eassumption|].
    + intros x pre rest' Hx Hr E. apply Harg; [by eapply forallb_elem| |by destruct Hr as [->| ->]|].
      * eapply Nat.le_lt_trans; [|exact Hm]. by apply length_args.
      * rewrite <- E in Hc. by apply calmly_app in Hc.
    + intros l st1 Hs T1 Hp1. vabsorb T1. repeat vstep. apply HQ; [by apply strip_args|done|lia].
Qed.

Lemma wp_parseArgs args rest : forallb printable args = true -> labels_ok args = true ->
  length (args_views args) < m -> calmly (args_views args ++ pt TkRParen :: rest) ->
  forall st (Q : list Expr -> PState -> Prop), reads st (pt TkLParen :: args_views args ++ pt TkRParen :: rest) ->
  (forall l st', map strip l = map strip args -> to st rest st' -> pos_ st < pos_ st' -> Q l st') ->
  wp (parseArgs R) st Q.
Proof. intros H1 H2 H3 H4. apply (wp_argList_v (rExpr R 0)); [done..|]. intros. by apply (below_expr m R HR). Qed.

Lemma wp_parseMacroArgs args rest : forallb printable args = true -> labels_ok args = true ->
  length (args_views args) < m -> calmly (args_views args ++ pt TkRParen :: rest) ->
  forall st (Q : list Expr -> PState -> Prop), reads st (pt TkLParen :: args_views args ++ pt TkRParen :: rest) ->
  (forall l st', map strip l = map strip args -> to st rest st' -> pos_ st < pos_ st' -> Q l st') ->
  wp (parseMacroArgs src R) st Q.
Proof.
  intros H1 H2 H3 H4. apply (wp_argList_v (macroArg src R)); [done..|]. intros a rest' Hp Hl Hr Hc st Q Hrd HQ.
  unfold macroArg. vstep. vstep.
  assert (canStartExpr (kind (cur st)) = true) as Hk.
  { pose proof (start_ok_app _ rest' (ev_start a Hp)) as Hs. unfold start_ok in Hs. bool_hyps.
    rewrite (kind_hk src st _ Hrd); [done|]. by apply start_neq. }
  rewrite (proj2 (kind_eqb_neq _ TkQuasiLiteral)) by (by intros E; rewrite E in Hk). cbv iota.
  by apply (below_expr m R HR 0 a rest').
Qed.

(** *** Type arguments *)

Lemma wp_turbo ts rest : ts <> [] -> forallb type_ok ts = true -> length (targviews ts) <= m ->
  forall st (Q : list TypeRef -> PState -> Prop), reads st (targviews ts ++ rest) ->
  (forall l st', map tstrip l = map tstrip ts -> to st rest st' -> pos_ st < pos_ st' -> Q l st') ->
  wp (parseExplicitTypeArgs src R) st Q.
Proof.
  intros Hne Hok Hl st Q Hrd HQ.
  assert (targviews ts = pt TkColonColon :: pt TkLt :: join [pt TkComma] (map tviews ts) ++ [pt TkGt]) as E by (by destruct ts).
  rewrite E in Hrd, Hl. cbn [app] in Hrd. rewrite <- app_assoc in Hrd. cbn [length] in Hl. rewrite length_app in Hl.
  cbn in Hl. unfold parseExplicitTypeArgs. vstart. vstep. vstep. vstep. vstep. vstep. vstep. vstep.
  pose proof (type_start_join ts ([pt TkGt] ++ rest) Hok Hne) as Hs.
  pose proof (type_start_neq _ TkGt Hs ltac:(done) ltac:(done) ltac:(done)) as Hg.
  rewrite !(at_hk' src _ _ _ Rd0 Hg), (proj2 (kind_eqb_neq _ TkGt) Hg).
  rewrite (proj2 (kind_eqb_neq _ TkGtGt)) by (by apply type_start_neq). cbn [orb]. cbv iota.
  eapply (wp_types src R m (below_types m R HR) ts ([pt TkGt] ++ rest)); [done|done|lia|done|done|eassumption|].
  intros l st1 El T1 Hp1. vabsorb T1. repeat vstep. apply HQ; [done|done|lia].
Qed.

(** *** Postfix operators *)

Abbreviation chain := (loop (postfixStep src R)).

Lemma targviews_head ts rest : ts <> [] -> exists vs, targviews ts ++ rest = pt TkColonColon :: pt TkLt :: vs.
Proof. destruct ts as [|t ts]; [done|]. intros _. by eexists. Qed.

Lemma chain_targs base ts rest st (Q : Expr -> PState -> Prop) : ts <> [] -> forallb type_ok ts = true ->
  length (targviews ts) <= m -> hk rest <> TkLParen -> reads st (targviews ts ++ rest) ->
  (forall l st', map tstrip l = map tstrip ts -> to st rest st' -> wp (chain (set_typeArgs l base)) st' Q) ->
  wp (chain base) st Q.
Proof.
  intros Hne Hok Hl Hr Hrd HQ. apply wp_loop_step. unfold postfixStep at 1. vstep. vstep. vstart.
  destruct (targviews_head ts rest Hne) as [vs E]. pose proof Hrd as Hrd'. rewrite E in Hrd'. clear E.
  vstep. vstep. eapply (wp_turbo ts rest); [done|done|done|exact Hrd|]. intros l st1 El T1 Hp. vabsorb T1. vstep. vstep.
  look. rewrite (proj2 (kind_eqb_neq _ _) Hr). vstep. split; [eapply to_less; [eassumption|lia]|]. by apply HQ.
Qed.

Lemma chain_call_targs base ts args rest st (Q : Expr -> PState -> Prop) : ts <> [] -> forallb type_ok ts = true ->
  length (targviews ts) <= m -> forallb printable args = true -> labels_ok args = true ->
  length (args_views args) < m -> calmly (args_views args ++ pt TkRParen :: rest) ->
  reads st (targviews ts ++ pt TkLParen :: args_views args ++ pt TkRParen :: rest) ->
  (forall l args' sp st', map tstrip l = map tstrip ts -> map strip args' = map strip args -> to st rest st' ->
     wp (chain (set_typeArgs l (mkExpr sp (ECall base false args')))) st' Q) ->
  wp (chain base) st Q.
Proof.
  intros Hne Hok Hl Ha1 Ha2 Ha3 Ha4 Hrd HQ. apply wp_loop_step. unfold postfixStep at 1. vstep. vstep. vstart.
  destruct (targviews_head ts (pt TkLParen :: args_views args ++ pt TkRParen :: rest) Hne) as [vs E].
  pose proof Hrd as Hrd'. rewrite E in Hrd'. clear E.
  vstep. vstep. eapply (wp_turbo ts); [done|done|done|exact Hrd|]. intros l st1 El T1 Hp. vabsorb T1. vstep. vstep.
  vstep. vstep. eapply (wp_parseArgs args rest); [done..|eassumption|]. intros args' st2 Eargs T2 Hp2. vabsorb T2.
  vstep. split; [eapply to_less; [eassumption|lia]|]. by apply HQ.
Qed.

Lemma chain_member base colon opt t rest st (Q : Expr -> PState -> Prop) : member_name_ok t = true ->
  (colon && opt)%bool = false -> reads st (pt (sep_kind colon opt) :: (keywordKind t, t) :: rest) ->
  (forall sp st', to st rest st' -> wp (chain (mkExpr sp (EMember base colon opt t))) st' Q) ->
  wp (chain base) st Q.
Proof.
  intros Hn Hco Hrd HQ. apply wp_loop_step. unfold postfixStep at 1. vstep. vstep. vstart.
  assert (at_ TkColonColon st = colon /\ at_ TkQuestionDot st = opt /\ at_ TkDot st = negb (colon || opt)) as (A1 & A2 & A3).
  { destruct colon, opt; try done; split_and!; by look. }
  assert (exists k, keywordKind t = k /\ (kind_eqb k TkIdentifier || isContextualName k)%bool = true) as (k & Hk & Hk').
  { eexists. split; [done|]. unfold member_name_ok in Hn. by bool_hyps. }
  assert (peek_is 1 TkLt st = false) as ->.
  { rewrite (peek1_hk src st _ _ Hrd); [| by destruct colon, opt|done|done]. cbn [tail hk fst]. rewrite Hk. by destruct k. }
  rewrite A1, A2, A3. rewrite andb_false_r.
  replace (negb (colon || opt) || colon || opt)%bool with true by (by destruct colon, opt). cbv iota. vstep.
  eapply wp_advance_v; [exact Hrd|by destruct colon, opt|by destruct colon, opt|]. intros st1 T1 Hp1. vabsorb T1.
  vstep. vstep. rewrite (kind_hk src st1 _ Rd) by (cbn; rewrite Hk; by destruct k). cbn [hk fst]. rewrite Hk, Hk'.
  vstep. vstep. eapply wp_advance_v; [exact Rd|cbn; rewrite Hk; by destruct k|cbn; rewrite Hk; by destruct k|].
  intros st2 T2 Hp2. vabsorb T2. vstep. vstep. split; [eapply to_less; [eassumption|lia]|].
  rewrite (text_ht src st1 _ Rd) by (cbn; rewrite Hk; by destruct k). by apply HQ.
Qed.

Lemma chain_call base args rest st (Q : Expr -> PState -> Prop) : forallb printable args = true -> labels_ok args = true ->
  length (args_views args) < m -> calmly (args_views args ++ pt TkRParen :: rest) ->
  reads st (pt TkLParen :: args_views args ++ pt TkRParen :: rest) ->
  (forall args' sp st', map strip args' = map strip args -> to st rest st' ->
     wp (chain (mkExpr sp (ECall base false args'))) st' Q) ->
  wp (chain base) st Q.
Proof.
  intros H1 H2 H3 H4 Hrd HQ. apply wp_loop_step. unfold postfixStep at 1. vstep. vstep. vstart. look. kinds. cbv iota.
  vstep. eapply (wp_parseArgs args rest); [done..|]. intros args' st1 E T1 Hp1. vabsorb T1. vstep.
  split; [eapply to_less; [eassumption|lia]|]. by apply HQ.
Qed.

Lemma chain_macro base args rest st (Q : Expr -> PState -> Prop) : forallb printable args = true -> labels_ok args = true ->
  length (args_views args) < m -> calmly (args_views args ++ pt TkRParen :: rest) ->
  is_name_or_member base = true -> explicitTypeArgs base = [] ->
  reads st (pt TkBang :: pt TkLParen :: args_views args ++ pt TkRParen :: rest) ->
  (forall args' sp st', map strip args' = map strip args -> to st rest st' ->
     wp (chain (mkExpr sp (ECall base true args'))) st' Q) ->
  wp (chain base) st Q.
Proof.
  intros H1 H2 H3 H4 Hb Ht Hrd HQ. apply wp_loop_step. unfold postfixStep at 1. vstep. vstep. vstart. look. kinds.
  rewrite Hb, Ht. cbn [length Nat.eqb andb]. cbv iota. vstep. vstep. vstep. vstep. vstep.
  eapply (wp_parseMacroArgs args rest); [done..|eassumption|]. intros args' st2 E T1 Hp1. vabsorb T1. vstep.
  split; [eapply to_less; [eassumption|lia]|]. by apply HQ.
Qed.

Lemma chain_index base i rest st (Q : Expr -> PState -> Prop) : printable i = true -> length (ev i) < m ->
  calmly (ev i ++ pt TkRBracket :: rest) -> reads st (pt TkLBracket :: ev i ++ pt TkRBracket :: rest) ->
  (forall i' sp st', same_expr i' i -> to st rest st' -> wp (chain (mkExpr sp (EIndex base i'))) st' Q) ->
  wp (chain base) st Q.
Proof.
  intros H1 H2 H3 Hrd HQ. apply wp_loop_step. unfold postfixStep at 1. vstep. vstep. vstart. look. kinds. cbv iota.
  vstep. vstep. vstep. eapply (below_expr m R HR 0 i (pt TkRBracket :: rest)); [done|done|done|done|eassumption|].
  intros i' st1 Ei T1 Hp1. vabsorb T1. repeat vstep. split; [eapply to_less; [eassumption|lia]|]. by apply HQ.
Qed.

(** *** Primary expressions *)

Lemma wp_arrayElement e rest : printable e = true -> length (ev e) < m -> closer (hk rest) = true ->
  calmly (ev e ++ rest) -> reads_expr (parseArrayElement R) e rest.
Proof.
  intros Hp Hl Hr Hc st Q Hrd HQ. unfold parseArrayElement. vstep. vstep.
  assert (forall w, match w with String a _ => a = "$"%char | _ => False end -> at_word w st = false) as Hw.
  { intros w Hw. rewrite (at_word_hk src st _ w Hrd).
    pose proof (start_ok_app _ rest (ev_start e Hp)) as Hs. unfold start_ok in Hs. bool_hyps.
    destruct (kind_eqb (hk (ev e ++ rest)) TkIdentifier); [|done]. cbn in *. bool_hyps.
    destruct (eqs (ht (ev e ++ rest)) (lit w)) eqn:E; [|done]. apply eqs_eq in E. rewrite E in *.
    destruct w as [|a w]; [done|]. subst a. done. }
  rewrite !Hw by done. by eapply (below_expr m R HR 0 e rest).
Qed.

Lemma wp_array es rest st (Q : Expr -> PState -> Prop) : forallb printable es = true -> forallb unlabeled es = true ->
  length (join [pt TkComma] (map ev es)) < m -> calmly (join [pt TkComma] (map ev es) ++ pt TkRBracket :: rest) ->
  reads st (pt TkLBracket :: join [pt TkComma] (map ev es) ++ pt TkRBracket :: rest) ->
  (forall es' sp st', map strip es' = map strip es -> to st rest st' -> pos_ st < pos_ st' -> Q (mkExpr sp (EArray es')) st') ->
  wp (parsePrimary src R) st Q.
Proof.
  intros Hp Hu Hl Hc Hrd HQ. unfold parsePrimary. vstart. vstep. vstep. look. cbv iota. vstep. vstep. vstep. vstep. vstep.
  destruct es as [|e es].
  - cbn in Rd. look. kinds. cbv iota. repeat vstep. apply HQ; [done|done|lia].
  - assert (hk (join [pt TkComma] (map ev (e :: es)) ++ pt TkRBracket :: rest) <> TkRBracket) as Hk.
    { apply andb_prop in Hp as [Hp _]. destruct es as [|e2 es]; cbn [map]; [by apply start_neq|].
      rewrite join_cons, <- app_assoc by done. by apply start_neq. }
    rewrite (at_hk src _ _ _ Rd), (proj2 (kind_eqb_neq _ _) Hk) by done. cbv iota.
    eapply (wp_commaList src _ ev same_expr (e :: es) (pt TkRBracket :: rest)); [done|done| |exact Rd|].
    + intros x pre rest' Hx Hr E. apply wp_arrayElement; [by eapply forallb_elem| |by destruct Hr as [->| ->]|].
      * eapply Nat.le_lt_trans; [|exact Hl]. by apply length_join_map.
      * rewrite <- E in Hc. by apply calmly_app in Hc.
    + intros l st1 Hs T1 Hp1. vabsorb T1. repeat vstep. apply HQ; [by apply strip_exprs|done|lia].
Qed.

Lemma wp_op e rest st (Q : Expr -> PState -> Prop) : is_op e = true -> printable e = true -> length (ev e) <= m ->
  calmly (ev e ++ rest) -> reads st (ev e ++ rest) ->
  (forall e' st', same_expr e' e -> to st rest st' -> pos_ st < pos_ st' -> Q e' st') ->
  wp (parsePrimary src R) st Q.
Proof.
  intros Ho Hp Hl Hc Hrd HQ. rewrite (inner_views e Ho) in *. cbn [app length] in *. rewrite <- app_assoc in *.
  rewrite length_app in Hl. cbn in Hl. unfold parsePrimary. vstart. vstep. vstep. look. cbv iota.
  unfold parseParenOrLambda. vstep. vstep. vstep. vstep.
  assert (looksLikeLambda st = false) as ->.
  { destruct Hc as [q Hc]. rewrite vcalm_cons in Hc by done. apply (not_lambda _ (inner e ++ [pt TkRParen] ++ rest) TkLParen); [|done|].
    - destruct Hrd as [_ Hs]. unfold ahead in Hs. unfold from_pos. by rewrite Nat.add_0_r.
    - by apply inner_operand. }
  vstep. eapply (below_inner m R HR e ([pt TkRParen] ++ rest)); [done|done|lia|done|by eapply calmly_cons|eassumption|].
  intros e' st1 Ee T1 Hp1. vabsorb T1. repeat vstep. apply HQ; [done|done|lia].
Qed.

(** *** Postfix chains *)

Definition is_call (e : Expr) : bool := match enode e with ECall _ _ _ => true | _ => false end.

(** Type arguments written last would be taken for those of a call. *)
Definition no_call (e : Expr) (rest : list view) : Prop :=
  explicitTypeArgs e <> [] -> is_call e = false -> hk rest <> TkLParen.

(** The parser, at the start of [e], gets to the loop over postfix operators
    with [e] read. *)
Definition chains (e : Expr) : Prop := forall rest st (Q : Expr -> PState -> Prop),
  calmly (ev e ++ rest) -> no_call e rest -> reads st (ev e ++ rest) ->
  (forall e' st', same_expr e' e -> to st rest st' -> pos_ st < pos_ st' -> wp (chain e') st' Q) ->
  wp (let! p := parsePrimary src R in parsePostfix src R p) st Q.

Lemma same_sub b' b : same_expr b' b -> unlabeled b = true -> strip b' = strip b.
Proof. intros H Hu. by apply (unlabeled_same b' b Hu) in H. Qed.

Lemma strip_head e' e : strip e' = strip e ->
  is_name_or_member e' = is_name_or_member e /\ (explicitTypeArgs e = [] -> explicitTypeArgs e' = []).
Proof.
  assert (forall x, is_name_or_member (strip x) = is_name_or_member x) as Hn
    by (intros [? ? ? ? []]; try done; by destruct body).
  assert (forall x, explicitTypeArgs (strip x) = map tstrip (explicitTypeArgs x)) as Ht by (by intros []).
  intros H. split; [by rewrite <- (Hn e'), H, Hn|]. intros E. pose proof (Ht e') as E'. rewrite H, Ht, E in E'.
  by destruct (explicitTypeArgs e').
Qed.

(** A leaf: one token. *)
Lemma chains_leaf sp l v n :
  (forall st rest (Q : Expr -> PState -> Prop), reads st (v :: rest) ->
     (forall sp' st', to st rest st' -> pos_ st < pos_ st' -> Q (mkExpr sp' n) st') -> wp (parsePrimary src R) st Q) ->
  ev (MkExpr sp l false [] n) = [v] -> chains (MkExpr sp l false [] n).
Proof.
  intros Hleaf Ev rest st Q _ _ Hrd HQ. rewrite Ev in Hrd. vstep. eapply Hleaf; [exact Hrd|].
  intros sp' st1 T1 Hp1. unfold parsePostfix. apply HQ; [done|done|lia].
Qed.

Lemma chains_op e : is_op e = true -> printable e = true -> length (ev e) <= m -> chains e.
Proof.
  intros Ho Hp Hl rest st Q Hc _ Hrd HQ. vstep. eapply (wp_op e rest); [done..|]. intros e' st1 Ee T1 Hp1. by apply HQ.
Qed.

Ltac leaf := intros st0 rest0 Q0 Hrd0 HQ0; unfold parsePrimary, leaf; vstart; vstep; vstep; look; cbv iota;
  repeat vstep; apply HQ0; [assumption|lia].

Lemma wp_chain e : printable e = true -> base_ok e = true -> length (ev e) <= m -> chains e.
Proof.
  induction e as [e IH] using expr_ind'. intros Hp Hb Hl.
  destruct (is_op e) eqn:Ho; [by apply chains_op|]. destruct e as [sp l c ts n]. destruct n; try done.
  all: cbn [printable] in Hp; bool_hyps; subst c; try (destruct ts; [|done]).
  - eapply chains_leaf; [|reflexivity]. leaf.
  - eapply chains_leaf; [|reflexivity]. leaf.
  - destruct flags as [raw quasi rawstr single]. bool_hyps. subst. eapply chains_leaf; [|reflexivity].
    intros st0 rest0 Q0 Hrd0 HQ0. unfold parsePrimary. vstart. vstep. vstep. look. cbv iota. vstep. vstep.
    eapply wp_string; [by look|by intros ->; inversion H3|done|]. apply HQ0; [done|lia].
  - eapply chains_leaf; [|reflexivity]. destruct (eqs text (lit "true")); leaf.
  - (* name *)
    intros rest st Q Hc Hn Hrd HQ. cbn [ev app] in Hrd. vstart. vstep. unfold parsePrimary, leaf. vstep. vstep. look. cbv iota.
    repeat vstep. unfold parsePostfix. look. destruct ts as [|t ts]; [by apply HQ; [done|done|lia]|].
    eapply (chain_targs _ (t :: ts) rest); [done|done| |by apply Hn|eassumption|].
    + cbn [ev length] in Hl. lia.
    + intros l1 st1 El T1. vabsorb T1. apply HQ; [|done|lia]. unfold same_expr. cbn in *. by rewrite El.
  - eapply chains_leaf; [|reflexivity]. leaf.
  - (* member *)
    intros rest st Q Hc Hn Hrd HQ. cbn [ev] in Hc, Hrd, Hl. rewrite <- app_assoc in Hc, Hrd. cbn [app] in Hc, Hrd.
    ev_lengths. eapply IH; [by constructor|done|done|lia|exact Hc| |exact Hrd|].
    { intros _ _. cbn. by destruct colon, optChain. }
    intros b' st1 Eb T1 Hp1. pose proof (to_reads _ _ _ _ T1) as Rd. apply same_sub in Eb; [|done].
    eapply chain_member; [done|by bool_hyps|exact Rd|].
    intros sp' st2 T2. vabsorb T2. destruct ts as [|t ts].
    { apply HQ; [unfold same_expr; cbn; by rewrite Eb|done|lia]. }
    eapply (chain_targs _ (t :: ts) rest); [done|done|lia|by apply Hn|exact Rd0|].
    intros l1 st3 El T3. vabsorb T3. apply HQ; [|done|lia]. unfold same_expr. cbn in *. by rewrite El, Eb.
  - (* call *)
    intros rest st Q Hc _ Hrd HQ. cbn [ev] in Hc, Hrd, Hl. fold arg_views in *.
    repeat (rewrite <- app_assoc in Hc, Hrd; cbn [app] in Hc, Hrd). ev_lengths.
    assert (explicitTypeArgs callee = []) as Hta by (by destruct (explicitTypeArgs callee)).
    eapply IH; [by constructor|done|done|lia|exact Hc|by intros Hne; rewrite Hta in Hne|exact Hrd|].
    intros f' st1 Ef T1 Hp1. pose proof (to_reads _ _ _ _ T1) as Rd. apply same_sub in Ef; [|done].
    apply calmly_app in Hc. pose proof (calmly_app _ _ Hc) as Hc1. destruct isMacroCall.
    + destruct ts as [|]; [|done]. cbn [targviews turbo map app] in *.
      apply calmly_cons, calmly_cons in Hc. destruct (strip_head f' callee Ef) as [Hnm Hts].
      eapply (chain_macro _ args rest); [done|done|lia|done|by rewrite Hnm|by apply Hts|exact Rd|].
      intros args' sp' st2 Ea T2. vabsorb T2. apply HQ; [|done|lia]. unfold same_expr. cbn. by rewrite Ea, Ef.
    + cbn [app] in *. apply calmly_app, calmly_cons in Hc. destruct ts as [|t ts].
      * eapply (chain_call _ args rest); [done|done|lia|done|exact Rd|].
        intros args' sp' st2 Ea T2. vabsorb T2. apply HQ; [|done|lia]. unfold same_expr. cbn. by rewrite Ea, Ef.
      * eapply (chain_call_targs _ (t :: ts) args rest); [done|done|lia|done|done|lia|done|exact Rd|].
        intros l1 args' sp' st2 El Ea T2. vabsorb T2. apply HQ; [|done|lia]. unfold same_expr. cbn in *. by rewrite Ea, Ef, El.
  - (* index *)
    intros rest st Q Hc _ Hrd HQ. cbn [ev] in Hc, Hrd, Hl.
    repeat (rewrite <- app_assoc in Hc, Hrd; cbn [app] in Hc, Hrd). ev_lengths.
    eapply IH; [by constructor|done|done|lia|exact Hc|done|exact Hrd|].
    intros b' st1 Eb T1 Hp1. pose proof (to_reads _ _ _ _ T1) as Rd. apply same_sub in Eb; [|done].
    eapply (chain_index _ index rest); [done|lia|by apply calmly_app, calmly_cons in Hc|exact Rd|].
    intros i' sp' st2 Ei T2. vabsorb T2. apply same_sub in Ei; [|done].
    apply HQ; [|done|lia]. unfold same_expr. cbn. by rewrite Eb, Ei.
  - (* array *)
    intros rest st Q Hc _ Hrd HQ. cbn [ev] in Hc, Hrd, Hl. cbn [app] in Hc, Hrd. rewrite <- app_assoc in Hc, Hrd.
    ev_lengths. vstep. eapply (wp_array elems rest); [done|done|lia|by apply calmly_cons in Hc|exact Hrd|].
    intros es' sp' st1 Ees T1 Hp1. apply HQ; [|done|done]. unfold same_expr. cbn. by rewrite Ees.
Qed.

(** *** Lambdas *)

Definition same_param (p' p : Param) : Prop := pstrip p' = pstrip p.

Lemma wp_lambdaParam p rest : param_ok p = true -> hk rest = TkComma \/ hk rest = TkRParen ->
  parses src (fun p => [idv (param_name p)]) same_param (lambdaParam src R) p rest.
Proof.
  intros Hp Hr st Q Hrd HQ. cbn [app] in Hrd. unfold lambdaParam. vstart. vstep. vstep.
  destruct rest as [|v rest]; [by destruct Hr|].
  assert (typedParamAhead st = false) as ->.
  { destruct Hrd as [_ Hs]. destruct (bare_param _ _ _ _ Hs Hr) as (t & ts & _ & _ & Ht & _).
    unfold typedParamAhead, from_pos. unfold ahead in Ht. by rewrite Nat.add_0_r, Ht. }
  vstep. vstep. vstep. unfold identOpt. vstep. vstep. look. kinds. cbv iota. repeat vstep. look.
  apply HQ; [|done|lia]. destruct p as [[|] n [] ? [|]]; done.
Qed.

Lemma same_params l ps : Forall2 same_param l ps -> map pstrip l = map pstrip ps.
Proof. induction 1 as [|x y l ys H _ IH]; cbn; [done|]. by rewrite H, IH. Qed.

Lemma wp_lambda ps a rest st (Q : Expr -> PState -> Prop) : forallb param_ok ps = true -> printable a = true ->
  length (ev a) < m -> closer (hk rest) = true -> calmly (ev a ++ rest) ->
  reads st (pt TkLParen :: param_views ps ++ pt TkRParen :: pt TkArrow :: ev a ++ rest) ->
  (forall ps' a' sp st', map pstrip ps' = map pstrip ps -> same_expr a' a -> to st rest st' -> pos_ st < pos_ st' ->
     Q (mkExpr sp (ELambda ps' (BExpr a'))) st') ->
  wp (parsePrimary src R) st Q.
Proof.
  intros Hps Ha Hl Hr Hc Hrd HQ. unfold parsePrimary. vstart. vstep. vstep. look. cbv iota. unfold parseParenOrLambda.
  vstep. vstep.
  assert (looksLikeLambda st = true) as ->.
  { apply (is_lambda _ ps (ev a ++ rest)). destruct Hrd as [_ Hs]. unfold ahead in Hs. unfold from_pos.
    by rewrite Nat.add_0_r. }
  vstep. vstep. cbv iota. vstep. vstep. vstep.
  assert (forall st1 ps', to st (pt TkRParen :: pt TkArrow :: ev a ++ rest) st1 -> pos_ st < pos_ st1 ->
    map pstrip ps' = map pstrip ps ->
    wp (expect TkRParen "')'" ;; expect TkArrow "'=>'" ;;
        let! body := arrowBody R in ret (mkExpr (span (cur st)) (ELambda ps' body))) st1 Q) as Htail.
  { intros st1 ps' T1 Hp1 Eps. pose proof (to_reads _ _ _ _ T1) as Rd1. vstep. vstep. vstep. vstep. vstep.
    unfold arrowBody. vstep. vstep. look. rewrite (proj2 (kind_eqb_neq _ _)) by (by apply start_neq). vstep.
    eapply (below_expr m R HR 0 a rest); [done|done|done|done|eassumption|]. intros a' st2 Ea T2 Hp2. vabsorb T2.
    vstep. vstep. apply HQ; [done|done|done|lia]. }
  destruct ps as [|p ps].
  - cbn in Rd. look. kinds. cbv iota. vstep. apply Htail; [done|lia|done].
  - assert (hk (param_views (p :: ps) ++ pt TkRParen :: pt TkArrow :: ev a ++ rest) = TkIdentifier) as Hk by (by destruct ps).
    rewrite (at_hk src _ _ _ Rd), Hk by done. kinds. cbv iota.
    eapply (wp_commaList src _ (fun p => [idv (param_name p)]) same_param (p :: ps) (pt TkRParen :: pt TkArrow :: ev a ++ rest));
      [done|done| |exact Rd|].
    + intros x pre rest' Hx Hr' _. apply wp_lambdaParam; [by eapply forallb_elem|]. destruct Hr' as [->| ->]; auto.
    + intros l st1 Hl1 T1 Hp1. vabsorb T1. apply Htail; [done|lia|by apply same_params].
Qed.

(** *** Unary expressions *)

Definition is_prefix (k : TokenKind) : bool := match k with TkBang | TkMinus | TkTilde => true | _ => false end.

Lemma base_start e : printable e = true -> base_ok e = true -> is_prefix (hk (ev e)) = false.
Proof.
  induction e as [e IH] using expr_ind'. intros Hp Hb. destruct e as [sp l c ts n].
  destruct n; try done; cbn [printable] in Hp; bool_hyps; cbn [ev];
    try (rewrite hk_app by (by apply ev_nonempty); apply IH; [by constructor|done|done]).
  by destruct (eqs text (lit "true")).
Qed.

Lemma at_prefix st vs : reads st vs -> (at_ TkBang st || at_ TkMinus st || at_ TkTilde st)%bool = is_prefix (hk vs).
Proof. intros H. look. by destruct (hk vs). Qed.

Lemma not_comptime e rest st : printable e = true -> reads st (ev e ++ rest) -> at_word "comptime" st = false.
Proof.
  intros Hp Hrd. rewrite (at_word_hk src st _ _ Hrd). pose proof (start_ok_app _ rest (ev_start e Hp)) as Hs.
  unfold start_ok in Hs. bool_hyps. destruct (kind_eqb (hk (ev e ++ rest)) TkIdentifier); [|done]. cbn in *. by bool_hyps.
Qed.

(** Where no prefix operator stands. *)
Lemma wp_unary_primary e rest st (Q : Expr -> PState -> Prop) : printable e = true -> is_prefix (hk (ev e)) = false ->
  reads st (ev e ++ rest) -> wp (let! p := parsePrimary src R in parsePostfix src R p) st Q ->
  wp (parseUnary src R) st Q.
Proof.
  intros Hp Hf Hrd HQ. unfold parseUnary. vstep. vstep.
  rewrite (at_prefix st _ Hrd), hk_app, Hf by (by apply ev_nonempty). cbv iota. by rewrite (not_comptime e rest st).
Qed.

(** A primary expression that no postfix operator follows. *)
Lemma wp_primary_stop rest st (p : P Expr) (Q : Expr -> PState -> Prop) : stops rest ->
  wp p st (fun e' st' => to st rest st' /\ Q e' st') -> wp (let! e := p in parsePostfix src R e) st Q.
Proof.
  intros Hs H. vstep. eapply wp_mono; [exact H|]. intros e' st' [T HQ]. cbv beta. unfold parsePostfix.
  eapply postfix_stop; [by eapply to_reads|done|done].
Qed.

Lemma wp_parseUnary e rest : printable e = true -> length (ev e) <= m -> stops rest ->
  closed e = true \/ closer (hk rest) = true -> calmly (ev e ++ rest) -> reads_expr (parseUnary src R) e rest.
Proof.
  intros Hp Hl Hs Hcl Hc st Q Hrd HQ. destruct (base_ok e) eqn:Hb.
  { eapply (wp_unary_primary e rest); [done|by apply base_start|exact Hrd|].
    eapply (wp_chain e); [done|done|done|exact Hc| |exact Hrd|].
    - intros _ _ E. unfold stops in Hs. by rewrite E in Hs.
    - intros e' st1 Ee T1 Hp1. eapply postfix_stop; [by eapply to_reads|done|]. by apply HQ. }
  destruct e as [sp l c ts n]. pose proof Hp as Hp'. destruct n; try done; cbn [printable] in Hp; bool_hyps; try done;
    (destruct ts; [|done]); subst c.
  - (* prefix operator *)
    cbn [ev app] in Hrd, Hc, Hl. unfold parseUnary. vstart. vstep. vstep. ev_lengths.
    rewrite (at_prefix st _ Hrd). cbn [hk fst pt]. replace (is_prefix op) with true by (by destruct op). vstep.
    eapply wp_advance_v; [exact Hrd|by destruct op|by destruct op|]. intros st1 T1 Hp1. vabsorb T1. vstep.
    eapply (below_unary m R HR operand rest); [done|lia|done|done|by apply calmly_cons in Hc|eassumption|].
    intros e' st2 Ee T2 Hp2. vabsorb T2. vstep. apply HQ; [|done|lia]. apply same_sub in Ee; [|done].
    unfold same_expr. cbn. rewrite Ee, (kind_hk src st _ Hrd); [done|by destruct op].
  - (* lambda *)
    destruct body as [a|]; [|done]. bool_hyps. cbn [ev app] in Hrd, Hc, Hl. rewrite <- app_assoc in Hrd, Hc. cbn [app] in Hrd, Hc.
    ev_lengths. destruct Hcl as [Hcl|Hcl]; [done|].
    eapply (wp_unary_primary (MkExpr sp l false [] (ELambda params (BExpr a))) rest); [done|done| |].
    { cbn [ev app]. by rewrite <- app_assoc. }
    apply (wp_primary_stop rest); [done|].
    eapply (wp_lambda params a rest); [done|done|lia|done| |exact Hrd|].
    { apply calmly_cons, calmly_app, calmly_cons, calmly_cons in Hc. done. }
    intros ps' a' sp' st1 Eps Ea T1 Hp1. split; [done|]. apply HQ; [|done|done]. apply same_sub in Ea; [|done].
    unfold same_expr. cbn. by rewrite Eps, Ea.
  - (* await *)
    cbn [ev app] in Hrd, Hc, Hl. ev_lengths.
    eapply (wp_unary_primary (MkExpr sp l false [] (EAwait operand)) rest); [done|done|exact Hrd|].
    apply (wp_primary_stop rest); [done|]. unfold parsePrimary. vstart. vstep. vstep. look. cbv iota. repeat vstep.
    eapply (below_unary m R HR operand rest); [done|lia|done|done|by apply calmly_cons in Hc|eassumption|].
    intros e' st2 Ee T2 Hp2. vabsorb T2. vstep. split; [done|]. apply HQ; [|done|lia]. apply same_sub in Ee; [|done].
    unfold same_expr. cbn. by rewrite Ee.
  - (* inject *)
    cbn [ev app] in Hrd, Hc, Hl. ev_lengths. destruct Hcl as [Hcl|Hcl]; [done|].
    eapply (wp_unary_primary (MkExpr sp l false [] (EInject type)) rest); [done|done|exact Hrd|].
    apply (wp_primary_stop rest); [done|]. unfold parsePrimary. vstart. vstep. vstep. look. cbv iota. repeat vstep.
    eapply (wp_parseType src R m (below_types m R HR) type rest); [done|lia|by apply closer_tfollow|eassumption|].
    intros t' st2 Et T2 Hp2. vabsorb T2. vstep. split; [done|]. apply HQ; [|done|lia].
    unfold same_expr, same_type in *. cbn. by rewrite Et.
Qed.

(** *** Infix expressions *)

Lemma wp_parseExpr n e rest : printable e = true -> length (ev e) <= m -> closer (hk rest) = true ->
  calmly (ev e ++ rest) -> reads_expr (parseExpr src R n) e rest.
Proof.
  intros Hp Hl Hr Hc st Q Hrd HQ. unfold parseExpr. vstep.
  eapply (wp_parseUnary e rest); [done|done|by apply closer_stops|by right|done|exact Hrd|].
  intros e' st1 Ee T1 Hp1. eapply infix_stop; [by eapply to_reads|done|]. by apply HQ.
Qed.

(** The operand after an operator, and the end of the operation. *)
Lemma wp_operand n b rest st (mk : Expr -> Expr) (Q : Expr + Expr -> PState -> Prop) :
  printable b = true -> length (ev b) < m -> closer (hk rest) = true -> calmly (ev b ++ rest) ->
  reads st (ev b ++ rest) ->
  (forall b' st', same_expr b' b -> to st rest st' -> pos_ st < pos_ st' -> Q (inl (mk b')) st') ->
  wp (let! b := rExpr R n in ret (inl (mk b))) st Q.
Proof.
  intros Hp Hl Hr Hc Hrd HQ. vstep. eapply (below_expr m R HR n b rest); [done..|]. intros b' st1 Eb T1 Hp1. vstep.
  by apply HQ.
Qed.

(** One turn at a binary operator. *)
Lemma wp_infixOp_v op lhs b rest st (Q : Expr + Expr -> PState -> Prop) : binop_ok op = true ->
  printable b = true -> length (ev b) < m -> closer (hk rest) = true -> calmly (ev b ++ rest) ->
  reads st (pt op :: ev b ++ rest) ->
  (forall b' st', same_expr b' b -> to st rest st' -> pos_ st < pos_ st' ->
     Q (inl (mkExpr (espan lhs) (EBinary op lhs b'))) st') ->
  wp (infixStep src R 0 lhs) st Q.
Proof.
  intros Ho Hp Hl Hr Hc Hrd HQ. unfold infixStep. vstart. vstep. vstep. cbv zeta.
  assert (hk (ev b ++ rest) <> TkGt) as Hg by (by apply start_neq). rewrite (kind_op src st _ _ Hrd Hg). cbn [fst pt].
  assert (wp (infixOp R 0 op lhs) st Q) as Hop; [|by destruct op].
  unfold infixOp. cbv zeta.
  replace ((infixBP op =? 0) || (infixBP op <? 0))%bool with false by (by destruct op). cbv iota. vstep.
  eapply wp_advance_op; [exact Hrd|done|by destruct op|]. intros st1 T1 Hp1. vabsorb T1. vstep. vstep.
  assert (canStartExpr (kind (cur st1)) = true) as ->.
  { pose proof (start_ok_app _ rest (ev_start b Hp)) as Hs. unfold start_ok in Hs. bool_hyps.
    by rewrite (kind_hk src st1 _ Rd). }
  cbn [negb]. rewrite andb_false_r. cbv iota. eapply wp_operand; [exact Hp|done|exact Hr|done|exact Rd|].
  intros b' st2 Eb T2 Hp2. vabsorb T2. apply HQ; [done|done|lia].
Qed.

(** One turn at the other operators: look at it and step over it. *)
Ltac turn := unfold infixStep; match goal with T : to _ _ ?st |- wp _ ?st _ => clear T end; vstart; vstep; vstep;
  cbv zeta; look; cbv iota;
  try change (2 <? 0)%nat with false; try change (6 <? 0)%nat with false; cbv iota; try (vstep; vstep).

Lemma wp_inner e rest : printable e = true -> is_op e = true -> length (inner e) <= m -> hk rest = TkRParen ->
  calmly (inner e ++ rest) -> parses src inner same_expr (parseExpr src R 0) e rest.
Proof.
  intros Hp Ho Hl Hr Hc st Q Hrd HQ. unfold parseExpr. vstep. destruct e as [sp l c ts n].
  assert (closer (hk rest) = true) as Hrc by (by rewrite Hr).
  (* the first operand, then one turn of the loop *)
  assert (forall a v vs, inner (MkExpr sp l c ts n) = ev a ++ v :: vs -> printable a = true -> closed a = true ->
    unlabeled a = true -> chain_kind v.1 = false ->
    (forall a' st1, strip a' = strip a -> to st (v :: vs ++ rest) st1 -> pos_ st < pos_ st1 -> calmly (vs ++ rest) ->
       wp (infixStep src R 0 a') st1 (fun r st2 => exists e', r = inl e' /\ same_expr e' (MkExpr sp l c ts n) /\
         to st1 rest st2 /\ pos_ st1 < pos_ st2)) ->
    wp (parseUnary src R) st (fun a' st1 => wp (loop (infixStep src R 0) a') st1 Q)) as Hturn.
  { intros a v vs E Ha Hcl Hu Hv Hstep. rewrite E, <- app_assoc in Hrd, Hc. rewrite E in Hl. ev_lengths.
    eapply (wp_parseUnary a ((v :: vs) ++ rest)); [done|lia|done|by left|done|exact Hrd|].
    intros a' st1 Ea T1 Hp1. apply wp_loop_step. eapply wp_mono; [apply Hstep; [by apply same_sub|done|done|]|].
    - by apply calmly_app, calmly_cons in Hc.
    - intros r st2 (e' & -> & Ee & T2 & Hp2). split; [by eapply to_less|].
      eapply infix_stop; [by eapply to_reads|done|]. apply HQ; [done|by eapply to_trans|lia]. }
  destruct n; try done; cbn [printable] in Hp; bool_hyps; subst c; (destruct ts; [|done]);
    unfold inner in Hl; cbn [enode] in Hl; ev_lengths;
    (eapply Hturn; [reflexivity|done|done|done|try done|]);
    try (intros a' st1 Ea T1 Hp1 Hc1; pose proof (to_reads _ _ _ _ T1) as Rd; cbn [app] in Rd).
  - by destruct op.
  - eapply wp_infixOp_v; [done|done|lia|exact Hrc|done|exact Rd|]. intros b' st2 Eb T2 Hp2. eexists. split; [done|].
    split; [|done]. apply same_sub in Eb; [|done]. unfold same_expr. cbn. by rewrite Ea, Eb.
  - rewrite <- app_assoc in Rd, Hc1. cbn [app] in Rd, Hc1. turn. vstep.
    eapply (below_expr m R HR 0 yes (pt TkColon :: ev no ++ rest)); [done|lia|done|done|eassumption|].
    intros b' st2 Eb T2 Hp2. vabsorb T2. vstep. vstep.
    eapply (wp_operand 2 no rest); [done|lia|done|by apply calmly_app, calmly_cons in Hc1|eassumption|].
    intros c' st3 Ec T3 Hp3. vabsorb T3. eexists. split; [done|]. split; [|by split; [|lia]].
    apply same_sub in Eb, Ec; [|done..]. unfold same_expr. cbn. by rewrite Ea, Eb, Ec.
  - turn. unfold infixOp. cbv zeta. change ((infixBP TkGtGt =? 0)%nat || (infixBP TkGtGt <? 0)%nat)%bool with false. cbv iota.
    repeat vstep. rewrite (kind_hk src _ _ Rd0), Hr by (by rewrite Hr). cbn [canStartExpr negb]. cbv iota. vstep. eexists. split; [done|]. split; [|by split; [|lia]].
    unfold same_expr. cbn. by rewrite Ea.
  - turn. eapply (wp_operand 9 high rest); [done|lia|done|done|eassumption|].
    intros b' st2 Eb T2 Hp2. vabsorb T2. eexists. split; [done|]. split; [|by split; [|lia]].
    apply same_sub in Eb; [|done]. unfold same_expr. cbn. by rewrite Ea, Eb.
  - turn. vstep. eapply (wp_parseType src R m (below_types m R HR) type rest); [done|lia|by apply closer_tfollow|eassumption|].
    intros t' st2 Et T2 Hp2. vabsorb T2. vstep. eexists. split; [done|]. split; [|by split; [|lia]].
    unfold same_expr, same_type in *. cbn. by rewrite Ea, Et.
Qed.
End Step.

Lemma grammar_exprs n : exprs_below n (grammar src n).
Proof.
  induction n as [|n IH].
  - constructor; [apply grammar_types| | |]; intros; lia.
  - constructor; [apply grammar_types| | |].
    + intros k e rest H1 H2. apply (wp_parseExpr _ n IH); [done|lia].
    + intros e rest H1 H2 H3. apply (wp_inner _ n IH); [done|done|lia].
    + intros e rest H1 H2. apply (wp_parseUnary _ n IH); [done|lia].
Qed.
End Exprs.
