(* ===== verification/PrintLex.v ===== *)
(** * Printed text lexes back

    The text of a printable type or expression, cut into tokens by the lexer,
    spells the views of the type or expression. *)

From S2P Require Import Prelude Token Lexer LexerFacts Lexemes Ast Cursor LexerRange ParserExpr Parser ParserWp ParserFacts AstPrinter Spelling Reading TypeParse Lookahead ExprParse.

Abbreviation blanks ws := (Forall (fun c => is_blank c = true) ws).

(** [text] is cut into tokens that spell [vs]. *)
Inductive chops : str -> list view -> Prop :=
| chops_end ws : blanks ws -> chops ws []
| chops_one ws k w rest vs : blanks ws -> lexes k w rest -> List.last w c_nul <> c_bslash ->
    chops rest vs -> chops (ws ++ w ++ rest) ((k, if texty k then w else []) :: vs)
| chops_two ws rest vs : blanks ws -> chops rest vs -> chops (ws ++ lit ">>" ++ rest) (pt TkGt :: pt TkGt :: vs).

Lemma lexes_gtgt rest : lexes TkGtGt (lit ">>") rest.
Proof. eapply (lexes_op2 ">" ">"); [reflexivity|reflexivity|by apply no_comment]. Qed.

Lemma last_app_r {A} (a b : list A) d : b <> [] -> List.last (a ++ b) d = List.last b d.
Proof.
  intros Hb. induction a as [|x a IH]; [done|]. cbn [app]. rewrite <- IH.
  destruct (a ++ b) eqn:E; [by apply app_eq_nil in E as [_ ->]|done].
Qed.

Lemma last_Forall {A} (P : A -> Prop) l d : l <> [] -> Forall P l -> P (List.last l d).
Proof. intros Hl H. destruct l as [|x l _] using rev_ind; [done|]. rewrite List.last_last. by apply Forall_app in H as [_ H]; inversion H. Qed.

(** The tokens, and the end of the text. *)
Lemma chops_items text vs : chops text vs ->
  exists items tail, text = items_text items ++ tail /\ items_ok items tail /\
    (text = [] \/ List.last text c_nul <> c_bslash) /\
    forall ts, map token_view ts = map item_view items ++ [(TkEnd, [])] -> spells ts (vs ++ [pt TkEnd]).
Proof.
  assert (forall w rest : str, w <> [] -> List.last w c_nul <> c_bslash ->
    rest = [] \/ List.last rest c_nul <> c_bslash -> List.last (w ++ rest) c_nul <> c_bslash) as Hlast.
  { intros w rest Hw H1 [->|H2]; [by rewrite app_nil_r|]. destruct rest; [by rewrite app_nil_r|]. by rewrite last_app_r. }
  induction 1 as [ws Hws|ws k w rest vs Hws Hlex Hl Hc (items & tail & E & Hok & Hb & Hs)
                 |ws rest vs Hws Hc (items & tail & E & Hok & Hb & Hs)].
  - exists [], ws. split; [done|]. split; [done|]. split.
    + destruct (decide (ws = [])) as [->|Hne]; [by left|right]. intros E.
      apply (last_Forall _ ws c_nul Hne) in Hws. by rewrite E in Hws.
    + intros ts Ht. destruct ts as [|t [|]]; try done. injection Ht as Hk Ht. cbn.
      assert (pt TkEnd = tview t) as -> by (unfold tview; by rewrite Hk). apply spells_one. constructor.
  - exists ((ws, k, w) :: items), tail. subst rest. split; [by unfold items_text; cbn; rewrite <- !app_assoc|].
    split; [done|]. destruct Hlex as [(c & w' & -> & _) _]. split; [right|].
    + rewrite last_app_r by done. by apply Hlast.
    + intros [|t ts] Ht; [done|]. injection Ht as <- <- Ht. cbn. apply (spells_one t). by apply Hs.
  - exists ((ws, TkGtGt, lit ">>") :: items), tail. subst rest. split; [by unfold items_text; cbn; rewrite <- !app_assoc|].
    split; [by split; [|split; [apply lexes_gtgt|]]|]. split; [right|].
    + rewrite last_app_r by done. by apply Hlast.
    + intros [|t ts] Ht; [done|]. injection Ht as Hk _ Ht. cbn. apply (spells_two t); [done|]. by apply Hs.
Qed.

Lemma chops_tokenize text vs s : chops text vs ->
  exists ts, tokenize text false s = LexDone ts s /\ spells ts (vs ++ [pt TkEnd]) /\ toks_wf text ts.
Proof.
  intros (items & tail & -> & Hok & Hb & Hs)%chops_items. destruct (tokenize_items items tail s Hok) as (ts & Ht & Hv).
  exists ts. split; [done|]. split; [by apply Hs|].
  destruct (tokenize_ok (items_text items ++ tail) false s) as (ts' & s' & Ht' & Hw & _).
  - intros [Hl Hc]. rewrite full_end in Hl, Hc. destruct Hb as [Hb|Hb]; [by rewrite Hb in Hl; cbn in Hl; lia|]. apply Hb.
    revert Hc. generalize (items_text items ++ tail). intros l Hc. unfold char_at in Hc.
    destruct l as [|c l _] using rev_ind; [done|]. rewrite List.last_last. rewrite length_app in Hc. cbn in Hc.
    rewrite Nat.add_sub, lookup_app_r, Nat.sub_diag in Hc by lia. done.
  - rewrite Ht in Ht'. by injection Ht' as <- <-.
Qed.

(** ** One lexeme *)

Lemma chops_blank c text vs : is_blank c = true -> chops text vs -> chops (c :: text) vs.
Proof.
  intros Hc. destruct 1 as [ws H|ws k w rest vs H|ws rest vs H].
  - apply chops_end. by constructor.
  - apply (chops_one (c :: ws)); [by constructor|done..].
  - apply (chops_two (c :: ws)); [by constructor|done].
Qed.

Lemma chops_lexeme k w rest vs : lexes k w rest -> List.last w c_nul <> c_bslash -> chops rest vs ->
  chops (w ++ rest) ((k, if texty k then w else []) :: vs).
Proof. intros H1 H2 H3. by apply (chops_one []). Qed.

Lemma chops_op1 c alts k rest vs : punct c = Some (alts, k) -> longer alts (head_char rest) = None ->
  comment_start (c :: rest) = false -> texty k = false -> chops rest vs -> chops (c :: rest) (pt k :: vs).
Proof.
  intros H1 H2 H3 H4 H5. pose proof (chops_lexeme k [c] rest vs) as H. rewrite H4 in H. apply H; [|by cbn; intros ->|done].
  by eapply lexes_op1.
Qed.

Lemma chops_op2 c d alts k0 k rest vs : punct c = Some (alts, k0) -> longer alts d = Some k ->
  comment_start (c :: d :: rest) = false -> texty k = false -> d <> c_bslash -> chops rest vs -> chops (c :: d :: rest) (pt k :: vs).
Proof.
  intros H1 H2 H3 H4 Hd H5. pose proof (chops_lexeme k [c; d] rest vs) as H. rewrite H4 in H. apply H; [|done|done].
  by eapply lexes_op2.
Qed.

Lemma chops_word w rest vs : ident_text w -> word_stop rest -> chops rest vs ->
  chops (w ++ rest) ((keywordKind w, if texty (keywordKind w) then w else []) :: vs).
Proof.
  intros Hw Hr Hc. apply chops_lexeme; [by apply lexes_word| |done]. destruct Hw as [Hs Hw]. intros E.
  assert (w <> []) as Hne by (by destruct w). apply (last_Forall _ w c_nul Hne) in Hw. by rewrite E in Hw.
Qed.

Lemma ident_ok_text s : ident_ok s = true -> ident_text s /\ keywordKind s = TkIdentifier.
Proof.
  unfold ident_ok, ident_text. intros H. apply andb_prop in H as [H H3]. apply andb_prop in H as [H1 H2]. apply kind_eqb_eq in H3.
  destruct s; [done|]. split; [|done]. split; [done|]. apply Forall_forall. intros x Hx. by eapply forallb_elem.
Qed.

Lemma chops_ident s rest vs : ident_ok s = true -> word_stop rest -> chops rest vs -> chops (s ++ rest) (idv s :: vs).
Proof.
  intros [Hs Hk]%ident_ok_text Hr Hc. pose proof (chops_word s rest vs Hs Hr Hc) as H. by rewrite Hk in H.
Qed.

(** ** What may follow *)

(** The first character after a printed type or expression. *)
Definition estop (rest : str) : bool :=
  let c := head_char rest in
  negb (isIdentCont c || eqc c c_quote || eqc c "'" || eqc c ">" || eqc c "=" ||
        (eqc c "." && isDigit (char_at rest 1))).

Lemma estop_word rest : estop rest = true -> word_stop rest.
Proof. unfold estop, word_stop. intros H. by bool_hyps. Qed.

Lemma estop_number rest : estop rest = true -> number_stop rest.
Proof.
  unfold estop, number_stop. intros H. bool_hyps. split; [done|]. intros E. rewrite E in *. done.
Qed.

Lemma estop_gt rest : estop rest = true -> eqc (head_char rest) ">" = false /\ eqc (head_char rest) "=" = false.
Proof. unfold estop. intros H. by bool_hyps. Qed.

(** The closers of nested type arguments, merged in pairs. *)
Lemma chops_closers n rest vs : estop rest = true -> chops rest vs ->
  chops (replicate n ">"%char ++ rest) (replicate n (pt TkGt) ++ vs).
Proof.
  intros Hr Hc. induction n as [n IH] using lt_wf_ind. destruct n as [|[|n]]; [done| |].
  - cbn. eapply chops_op1; [reflexivity| |by apply no_comment|done|done].
    destruct (estop_gt rest Hr) as [H1 H2]. cbn. by rewrite H1, H2.
  - apply (chops_two []); [done|]. apply IH. lia.
Qed.

(** Some closers, then something else. *)
Definition after_type (text : str) (vs : list view) : Prop := exists n rest vs',
  text = replicate n ">"%char ++ rest /\ vs = replicate n (pt TkGt) ++ vs' /\ estop rest = true /\ chops rest vs'.

Lemma after_type_chops text vs : after_type text vs -> chops text vs.
Proof. intros (n & rest & vs' & -> & -> & Hr & Hc). by apply chops_closers. Qed.

Lemma after_type_word text vs : after_type text vs -> word_stop text.
Proof. intros ([|n] & rest & vs' & -> & _ & Hr & _); [by apply estop_word|done]. Qed.

Lemma after_type_gt text vs : after_type text vs -> after_type (">"%char :: text) (pt TkGt :: vs).
Proof. intros (n & rest & vs' & -> & -> & Hr & Hc). by exists (S n), rest, vs'. Qed.

Lemma after_type_0 text vs : estop text = true -> chops text vs -> after_type text vs.
Proof. intros Hr Hc. by exists 0, text, vs. Qed.

(** Items between separators. *)
Lemma chops_join {B} (A : str -> list view -> Prop) (sep : str) (sepv : view) (f : B -> str) (g : B -> list view) xs :
  (forall text vs, A text vs -> chops text vs) ->
  (forall text vs, chops text vs -> A (sep ++ text) (sepv :: vs)) ->
  (forall x, x ∈ xs -> forall text vs, A text vs -> chops (f x ++ text) (g x ++ vs)) ->
  forall text vs, A text vs -> chops (join sep (map f xs) ++ text) (join [sepv] (map g xs) ++ vs).
Proof.
  intros HA Hsep. induction xs as [|x xs IH]; intros Hx text vs Ht; [by apply HA|].
  destruct (decide (xs = [])) as [->|Hne]; [apply Hx; [set_solver|done]|].
  cbn [map]. rewrite !join_cons, <- !app_assoc by (by destruct xs). apply Hx; [by constructor|]. apply Hsep, IH; [|done].
  intros y Hy. apply Hx. by constructor.
Qed.

Lemma chops_comma text vs : chops text vs -> chops (lit ", " ++ text) (pt TkComma :: vs).
Proof.
  intros H. eapply chops_op1; [reflexivity|done|by apply no_comment|done|]. by apply chops_blank.
Qed.

(** ** Types *)

Lemma type_head t : type_ok t = true -> exists c s, typeStr t = c :: s /\ (isIdentStart c = true \/ c = "("%char).
Proof.
  assert (forall s rest, ident_ok s = true -> exists c s', s ++ rest = c :: s' /\ (isIdentStart c = true \/ c = "("%char)) as Hid.
  { intros s rest [[Hs _] _]%ident_ok_text. destruct s as [|c s]; [done|]. eexists _, _. split; [done|]. by left. }
  induction t as [t IH] using type_ind'. intros Hok. destruct t as [sp path name gs hb hf|sp ms|sp|sp ps r]; cbn in Hok |- *.
  - bool_hyps. destruct path as [|p path]; cbn; [by apply Hid|]. cbn in *. bool_hyps. rewrite <- !app_assoc. by apply Hid.
  - bool_hyps. destruct ms as [|m ms]; [done|]. cbn in *. bool_hyps. destruct (IH m) as (c & s & E & Hc); [set_solver|done|].
    destruct (map typeStr ms); rewrite E; eauto.
  - eexists _, _. split; [done|]. by left.
  - eexists _, _. split; [done|]. by right.
Qed.

Lemma types_head ts text : forallb type_ok ts = true -> ts <> [] ->
  longer [("<", TkLtLt); ("=", TkLe)]%char (head_char (join (lit ", ") (map typeStr ts) ++ text)) = None.
Proof.
  intros Hok Hne. destruct ts as [|t ts]; [done|]. apply andb_prop in Hok as [Hok _].
  destruct (type_head t Hok) as (c & s & E & Hc).
  assert (exists u, join (lit ", ") (map typeStr (t :: ts)) ++ text = c :: u) as [u ->].
  { cbn. rewrite E. destruct (map typeStr ts); cbn; eauto. }
  change (head_char (c :: u)) with c. destruct Hc as [Hc| ->]; [|done]. revert Hc. each_char c; vm_compute; congruence.
Qed.

Lemma chops_path path rest vs : forallb ident_ok path = true -> chops rest vs ->
  chops (concat (map (fun seg => seg ++ lit "::") path) ++ rest)
        (concat (map (fun seg => [idv seg; pt TkColonColon]) path) ++ vs).
Proof.
  intros Hp Hc. induction path as [|s path IH]; [done|]. cbn in Hp |- *. bool_hyps. rewrite <- !app_assoc.
  apply chops_ident; [done|done|]. eapply chops_op2; [reflexivity|reflexivity|by apply no_comment|done|done|]. by apply IH.
Qed.

(** [<], types, [>]. *)
Lemma chops_generics ts text vs : ts <> [] -> forallb type_ok ts = true ->
  (forall t, t ∈ ts -> forall text vs, after_type text vs -> chops (typeStr t ++ text) (tviews t ++ vs)) ->
  after_type text vs ->
  chops ("<"%char :: join (lit ", ") (map typeStr ts) ++ ">"%char :: text)
        (pt TkLt :: join [pt TkComma] (map tviews ts) ++ pt TkGt :: vs).
Proof.
  intros Hne Hok Ht Ha. eapply chops_op1; [reflexivity|by apply types_head|by apply no_comment|done|].
  apply (chops_join after_type); [apply after_type_chops| |done|by apply after_type_gt].
  intros text' vs' Hc. apply after_type_0; [done|by apply chops_comma].
Qed.

Lemma chops_type t : type_ok t = true -> forall text vs, after_type text vs -> chops (typeStr t ++ text) (tviews t ++ vs).
Proof.
  induction t as [t IH] using type_ind'. intros Hok text vs Ha.
  destruct t as [sp path name gs hb hf|sp ms|sp|sp ps r]; cbn [typeStr tviews].
  - cbn in Hok. bool_hyps. rewrite <- !app_assoc. apply chops_path; [done|]. cbn [app].
    destruct gs as [|g gs].
    + apply chops_ident; [done|by eapply after_type_word|by apply after_type_chops].
    + apply chops_ident; [done|done|]. cbn [app]. rewrite <- !app_assoc. apply chops_generics; [done|done| |done].
      intros t Ht. apply IH; [done|]. by eapply forallb_elem.
  - change (type_ok (TUnion sp ms)) with ((2 <=? length ms)%nat && forallb member_ok ms) in Hok. apply andb_prop in Hok as [_ Hok].
    apply (chops_join after_type); [apply after_type_chops| | |done].
    + intros text' vs' Hc. apply after_type_0; [done|]. apply chops_blank; [done|].
      eapply chops_op1; [reflexivity|done|by apply no_comment|done|]. by apply chops_blank.
    + intros m Hm. apply IH; [done|]. eapply forallb_elem in Hok; [|done]. unfold member_ok in Hok. by bool_hyps.
  - apply (chops_word (lit "var")); [by repeat constructor|by eapply after_type_word|by apply after_type_chops].
  - cbn in Hok. bool_hyps. rewrite <- !app_assoc. rewrite <- app_comm_cons, <- app_assoc.
    eapply (chops_op1 "("); [reflexivity|done|by apply no_comment|done|].
    apply (chops_join after_type); [apply after_type_chops| | |].
    + intros text' vs' Hc. apply after_type_0; [done|by apply chops_comma].
    + intros t Ht. apply IH; [by constructor|]. by eapply forallb_elem.
    + apply after_type_0; [done|]. eapply chops_op1; [reflexivity|done|by apply no_comment|done|].
      apply chops_blank; [done|]. eapply chops_op2; [reflexivity|reflexivity|by apply no_comment|done|done|].
      apply chops_blank; [done|]. apply IH; [by constructor|done|done].
Qed.

Lemma chops_turbofish ts text vs : forallb type_ok ts = true -> estop text = true -> chops text vs ->
  chops (turbofish ts ++ text) (targviews ts ++ vs).
Proof.
  intros Hok Hr Hc. destruct ts as [|t ts]; [done|].
  change (turbofish (t :: ts)) with (lit "::<" ++ join (lit ", ") (map typeStr (t :: ts)) ++ lit ">").
  change (targviews (t :: ts)) with (pt TkColonColon :: pt TkLt :: join [pt TkComma] (map tviews (t :: ts)) ++ [pt TkGt]).
  rewrite <- !app_assoc. cbn [app]. rewrite <- !app_assoc.
  eapply chops_op2; [reflexivity|reflexivity|by apply no_comment|done|done|].
  apply (chops_generics (t :: ts)); [done|done| |by apply after_type_0].
  intros x Hx. apply chops_type. by eapply forallb_elem.
Qed.

(** ** Literals *)

Lemma digits_run s : digits s = true -> digit_run s.
Proof.
  unfold digits, digit_run. intros H. bool_hyps. split; [by intros ->; cbn in *; lia|].
  apply Forall_forall. intros x Hx. by eapply forallb_elem.
Qed.

Lemma float_split s : float_text s = true -> exists u v, s = u ++ "."%char :: v /\ digit_run u /\ digit_run v.
Proof.
  induction s as [|c s IH]; [done|]. cbn [float_text]. intros H. apply andb_prop in H as [Hc H]. apply orb_true_iff in H as [H|H].
  - destruct (IH H) as (u & v & -> & [Hu1 Hu2] & Hv). exists (c :: u), v. split; [done|]. split; [|done]. split; [done|by constructor].
  - destruct s as [|d s]; [done|]. apply andb_prop in H as [Hd H]. apply eqc_eq in Hd as ->.
    exists [c], s. split; [done|]. split; [split; [done|by repeat constructor]|by apply digits_run].
Qed.

Lemma run_last w : digit_run w -> List.last w c_nul <> c_bslash.
Proof. intros [Hne Hw] E. apply (last_Forall _ w c_nul Hne) in Hw. by rewrite E in Hw. Qed.

Lemma chops_int t text vs : digits t = true -> estop text = true -> chops text vs ->
  chops (t ++ text) ((TkIntLiteral, t) :: vs).
Proof.
  intros Ht%digits_run Hr Hc. apply (chops_lexeme TkIntLiteral); [|by apply run_last|done].
  apply lexes_int; [done|by apply estop_number].
Qed.

Lemma chops_float t text vs : float_text t = true -> estop text = true -> chops text vs ->
  chops (t ++ text) ((TkFloatLiteral, t) :: vs).
Proof.
  intros (u & v & -> & Hu & Hv)%float_split Hr Hc. apply (chops_lexeme TkFloatLiteral); [| |done].
  - apply lexes_float; [done|done|]. by apply estop_word.
  - rewrite last_app_r by done. destruct v as [|d v]; [by destruct Hv|]. change (List.last ("."%char :: d :: v) c_nul) with (List.last (d :: v) c_nul).
    by apply run_last.
Qed.

Lemma chops_string t single text vs : t <> [] -> forallb plain_char t = true -> chops text vs ->
  chops (quoted t single ++ text) ((TkStringLiteral, quoted t single) :: vs).
Proof.
  intros Hne Ht Hc. apply (chops_lexeme TkStringLiteral); [| |done].
  - apply lexes_string_plain; [by destruct single; [right|left]|done|]. apply Forall_forall. intros c Hx.
    eapply forallb_elem in Ht; [|exact Hx]. unfold plain_char in Ht. bool_hyps.
    split; [by apply eqc_neq|]. split; [by apply eqc_neq|]. destruct single; by apply eqc_neq.
  - unfold quoted. rewrite app_assoc, List.last_last. by destruct single.
Qed.

(** ** Expressions *)

Section Exprs.
Context (importLits : nat -> option (str * Z)).
Abbreviation srcExpr := (srcExpr importLits).

Lemma expr_head e : printable e = true -> exists c s, srcExpr e = c :: s /\ c <> "="%char.
Proof.
  induction e as [e IH] using expr_ind'. intros H. destruct e as [sp l c ts n]. cbn [printable] in H.
  assert (forall x rest, x ∈ subs (MkExpr sp l c ts n) -> printable x = true ->
    exists d s, srcExpr x ++ rest = d :: s /\ d <> "="%char) as IH'.
  { intros x rest Hx Hp. destruct (IH x Hx Hp) as (d & s & -> & Hd). by eexists _, _. }
  assert (forall w rest, ident_text w -> exists d s, w ++ rest = d :: s /\ d <> "="%char) as Hid.
  { intros [|d w] rest [Hs _]; [done|]. eexists _, _. split; [done|]. by intros ->. }
  assert (forall w rest, digit_run w -> exists d s, w ++ rest = d :: s /\ d <> "="%char) as Hdig.
  { intros [|d w] rest [Hs Hw]; [done|]. eexists _, _. split; [done|]. inversion Hw; subst. by intros ->. }
  destruct n; try done; bool_hyps; try done; cbn [AstPrinter.srcExpr]; try (by apply IH'; [set_solver|]); try (by eexists _, _).
  - by apply Hdig, digits_run.
  - destruct (float_split text H0) as (u & v & -> & Hu & _). rewrite <- app_assoc. by apply Hdig.
  - destruct flags as [raw quasi rawstr single]. bool_hyps. subst. unfold srcString. cbn. by destruct single; eexists _, _.
  - apply orb_true_iff in H0 as [E|E]; apply eqs_eq in E; rewrite E; by eexists _, _.
  - bool_hyps. apply Hid. by apply ident_ok_text.
  - destruct op; try done; by eexists _, _.
Qed.

Lemma chops_binop op rest vs : binop_ok op = true -> chops rest vs -> chops (opSymbol op ++ lit " " ++ rest) (pt op :: vs).
Proof.
  intros Ho Hc. assert (chops (lit " " ++ rest) vs) as Hc' by (by apply chops_blank).
  destruct op; try done;
    first [ eapply chops_op1; [reflexivity|reflexivity|reflexivity|reflexivity|exact Hc']
          | eapply chops_op2; [reflexivity|reflexivity|reflexivity|reflexivity|discriminate|exact Hc'] ].
Qed.

(** What each production needs of the expressions in it. *)
Definition chops_of (e : Expr) : Prop := forall text vs, estop text = true -> chops text vs ->
  chops (srcExpr e ++ text) (ev e ++ vs).

Lemma chops_close text vs : chops text vs -> chops (lit ")" ++ text) (pt TkRParen :: vs).
Proof. intros H. by eapply (chops_op1 ")"); [reflexivity|done|by apply no_comment|done|]. Qed.

Lemma chops_open text vs : chops text vs -> chops (lit "(" ++ text) (pt TkLParen :: vs).
Proof. intros H. by eapply (chops_op1 "("); [reflexivity|done|by apply no_comment|done|]. Qed.

Lemma member_text t : member_name_ok t = true ->
  ident_text t /\ texty (keywordKind t) = true /\ exists c s, t = c :: s /\ isIdentStart c = true.
Proof.
  unfold member_name_ok. intros H. apply andb_prop in H as [H H3]. apply andb_prop in H as [H1 H2].
  destruct t as [|c t]; [done|]. split; [split; [done|]|].
  - apply Forall_forall. intros x Hx. by eapply forallb_elem.
  - split; [|by eexists _, _]. apply orb_true_iff in H3 as [H3|H3]; [by apply kind_eqb_eq in H3; rewrite H3|].
    unfold texty. by destruct (keywordKind (c :: t)).
Qed.

Lemma chops_args args text vs : (forall a, a ∈ args -> chops_of a) -> labels_ok args = true -> chops text vs ->
  chops (join (lit ", ") (map (fun a => arg_label a ++ srcExpr a) args) ++ lit ")" ++ text)
        (join [pt TkComma] (map arg_views args) ++ pt TkRParen :: vs).
Proof.
  intros Ha Hl Hc. assert (forall a, a ∈ args -> unlabeled a = true \/ ident_ok (labelOf a) = true) as Hlab.
  { clear Ha. induction args as [|b args IH]; intros a Hx; [by apply not_elem_of_nil in Hx|]. cbn in Hl.
    apply elem_of_cons in Hx as [->|Hx]; [destruct (unlabeled b); [by left|right; by bool_hyps]|].
    apply IH; [|done]. destruct (unlabeled b); by bool_hyps. }
  apply (chops_join (fun text vs => estop text = true /\ chops text vs)); [by intros ? ? []| | |].
  - intros text' vs' H. split; [done|by apply chops_comma].
  - intros a Hx text' vs' [Hr' Hc']. unfold arg_views. rewrite <- !app_assoc.
    pose proof (Ha a Hx text' vs' Hr' Hc') as Hc2. destruct a as [sp l c ts n]. unfold arg_label, labelPrefix. cbn [labelOf].
    destruct (Hlab _ Hx) as [Hu|Hi]; [by destruct l|]. cbn [labelOf] in Hi. destruct l as [|d l]; [done|].
    rewrite <- !app_assoc. cbn [label_views]. apply (chops_ident (d :: l)); [done|done|].
    eapply (chops_op1 ":"); [reflexivity|done|by apply no_comment|done|]. by apply chops_blank.
  - split; [done|by apply chops_close].
Qed.

Ltac flat := repeat (rewrite <- ?app_assoc, <- ?app_comm_cons).
Ltac elem := cbn; set_solver.

(** The operations that the printer puts in parentheses. *)
Lemma chops_ops e : is_op e = true -> printable e = true -> (forall x, x ∈ subs e -> printable x = true -> chops_of x) ->
  chops_of e.
Proof.
  intros Ho H IH text vs Hr Hc. destruct e as [sp l c ts n]. cbn [printable] in H. unfold subs in IH. cbn [enode] in IH.
  destruct n; try done; bool_hyps; cbn [AstPrinter.srcExpr ev]; flat; apply chops_open; (apply IH; [by constructor|done|done|]);
    (apply chops_blank; [done|]).
  - apply chops_binop; [done|]. apply IH; [set_solver|done|done|]. by apply chops_close.
  - eapply (chops_op1 "?"); [reflexivity|done|by apply no_comment|done|]. apply chops_blank; [done|].
    apply IH; [set_solver|done|done|]. apply chops_blank; [done|].
    eapply (chops_op1 ":"); [reflexivity|done|by apply no_comment|done|]. apply chops_blank; [done|].
    apply IH; [set_solver|done|done|]. by apply chops_close.
  - eapply (chops_op2 ">" ">"); [reflexivity|reflexivity|by apply no_comment|done|done|]. by apply chops_close.
  - eapply (chops_op2 "." "."); [reflexivity|reflexivity|by apply no_comment|done|done|]. apply chops_blank; [done|].
    apply IH; [set_solver|done|done|]. by apply chops_close.
  - apply (chops_word (lit "is")); [by repeat constructor|done|]. apply chops_blank; [done|].
    apply chops_type; [done|]. apply after_type_0; [done|by apply chops_close].
Qed.

Lemma chops_sep colon opt c rest vs : isIdentStart c = true -> chops (c :: rest) vs ->
  chops (memberSep colon opt ++ c :: rest) (pt (sep_kind colon opt) :: vs).
Proof.
  intros Hc H. assert (eqc c "." = false) as Hd by (revert Hc; each_char c; vm_compute; congruence).
  destruct colon; [|destruct opt]; cbn.
  - by eapply (chops_op2 ":" ":"); [reflexivity|reflexivity|by apply no_comment|done|done|].
  - by eapply (chops_op2 "?" "."); [reflexivity|reflexivity|by apply no_comment|done|done|].
  - eapply (chops_op1 "."); [reflexivity| |by apply no_comment|done|done]. cbn. change (head_char (c :: rest)) with c. by rewrite Hd.
Qed.

Lemma estop_sep colon opt c rest : isIdentStart c = true -> estop (memberSep colon opt ++ c :: rest) = true.
Proof.
  intros Hc. destruct colon; [done|]. destruct opt; [done|]. unfold estop. cbn. unfold char_at. cbn.
  revert Hc. each_char c; vm_compute; congruence.
Qed.

Lemma chops_expr e : printable e = true -> chops_of e.
Proof.
  induction e as [e IH] using expr_ind'. intros H text vs Hr Hc.
  destruct (is_op e) eqn:Ho; [by apply chops_ops|].
  destruct e as [sp l c ts n]. cbn [printable] in H. unfold subs in IH. cbn [enode] in IH.
  destruct n; try done; bool_hyps; try done; cbn [AstPrinter.srcExpr ev].
  - destruct ts; [|done]. cbn [turbofish]. rewrite app_nil_r. by apply chops_int.
  - destruct ts; [|done]. cbn [turbofish]. rewrite app_nil_r. by apply chops_float.
  - destruct flags as [raw quasi rawstr single]. bool_hyps. subst. unfold srcString. cbn [isRawSegment singleQuoted].
    apply chops_string; [intros ->; cbn in *; lia|done|done].
  - destruct ts; [|done]. cbn [turbofish]. rewrite app_nil_r.
    apply orb_true_iff in H0 as [E|E]; apply eqs_eq in E; subst; apply chops_word; try done; try (by repeat constructor); by apply estop_word.
  - rewrite <- app_assoc, <- app_comm_cons. apply chops_ident; [by bool_hyps| |by apply chops_turbofish].
    destruct ts; [by apply estop_word|done].
  - apply (chops_word (lit "this")); [by repeat constructor|by apply estop_word|done].
  - (* member *)
    flat. destruct (member_text text0) as (Ht & Htx & c1 & s1 & Et & Hc1); [done|].
    assert (chops (text0 ++ turbofish ts ++ text) ((keywordKind text0, text0) :: targviews ts ++ vs)) as Hm.
    { pose proof (chops_word text0 (turbofish ts ++ text) (targviews ts ++ vs) Ht) as Hw. rewrite Htx in Hw. apply Hw.
      - destruct ts; [by apply estop_word|done].
      - by apply chops_turbofish. }
    rewrite Et in Hm |- *. apply IH; [by constructor|done|by apply estop_sep|by apply chops_sep].
  - (* call *)
    change (fun a => label_views (labelOf a) ++ ev a) with arg_views. flat.
    assert (chops (turbofish ts ++ (if isMacroCall then lit "!(" else lit "(") ++
        join (lit ", ") (map (fun a => arg_label a ++ srcExpr a) args) ++ lit ")" ++ text)
      (targviews ts ++ (if isMacroCall then [pt TkBang; pt TkLParen] else [pt TkLParen]) ++
        join [pt TkComma] (map arg_views args) ++ pt TkRParen :: vs)) as Hargs.
    { apply chops_turbofish; [done|by destruct isMacroCall|].
      assert (chops (lit "(" ++ join (lit ", ") (map (fun a => arg_label a ++ srcExpr a) args) ++ lit ")" ++ text)
        (pt TkLParen :: join [pt TkComma] (map arg_views args) ++ pt TkRParen :: vs)) as Ha.
      { apply chops_open, chops_args; [|done|done]. intros x Hx. apply IH; [by constructor|by eapply forallb_elem]. }
      destruct isMacroCall; [|exact Ha]. by eapply (chops_op1 "!"); [reflexivity|done|by apply no_comment|done|]. }
    apply IH; [by constructor|done| |exact Hargs]. by destruct ts, isMacroCall.
  - (* index *)
    flat. apply IH; [by constructor|done|done|]. eapply (chops_op1 "["); [reflexivity|done|by apply no_comment|done|].
    apply IH; [set_solver|done|done|]. by eapply (chops_op1 "]"); [reflexivity|done|by apply no_comment|done|].
  - (* unary *)
    flat. destruct (expr_head operand) as (c1 & s1 & E & Hc1); [done|].
    assert (chops (srcExpr operand ++ text) (ev operand ++ vs)) as Ha by (apply IH; [by constructor|done|done|done]).
    apply eqc_neq in Hc1. destruct op; try done;
      (eapply chops_op1; [reflexivity| |by apply no_comment|done|exact Ha]); cbn; rewrite E;
      change (head_char ((c1 :: s1) ++ text)) with c1; by rewrite Hc1.
  - (* array *)
    flat. eapply (chops_op1 "["); [reflexivity|done|by apply no_comment|done|].
    rewrite (map_ext_in _ srcExpr).
    + apply (chops_join (fun text vs => estop text = true /\ chops text vs)); [by intros ? ? []| | |].
      * intros text' vs' Hc'. split; [done|by apply chops_comma].
      * intros x Hx text' vs' [? ?]. apply IH; [done|by eapply forallb_elem|done|done].
      * split; [done|]. by eapply (chops_op1 "]"); [reflexivity|done|by apply no_comment|done|].
    + intros [? la ? ? ?] Hx. apply list_elem_of_In in Hx. eapply (forallb_elem unlabeled) in Hx; [|done]. by destruct la.
  - (* lambda *)
    destruct body as [a|]; [|done]. bool_hyps. flat. apply chops_open.
    apply (chops_join (fun text vs => word_stop text /\ chops text vs)); [by intros ? ? []| | |].
    + intros text' vs' Hc'. split; [done|by apply chops_comma].
    + intros x Hx text' vs' [Hw ?]. eapply (forallb_elem param_ok) in Hx; [|done].
      destruct x as [[|] n [] ? [|]]; try done. by apply chops_ident.
    + split; [done|]. apply chops_close, chops_blank; [done|].
      eapply (chops_op2 "=" ">"); [reflexivity|reflexivity|by apply no_comment|done|done|]. apply chops_blank; [done|].
      apply IH; [by constructor|done|done|done].
  - (* await *)
    flat. apply (chops_word (lit "await")); [by repeat constructor|done|]. apply chops_blank; [done|].
    apply IH; [by constructor|done|done|done].
  - (* inject *)
    flat. apply (chops_word (lit "inject")); [by repeat constructor|done|]. apply chops_blank; [done|].
    apply chops_type; [done|by apply after_type_0].
Qed.
End Exprs.
