(* ===== verification/PrintParse.v ===== *)
(** * Printing and parsing

    What [--expand] prints for an expression is read back as that expression:
    the lexer reports nothing on the text, the parser reports nothing on the
    tokens, and the tree it returns is the printed one up to spans.  The second
    half records what the printer cannot express. *)

From S2P Require Import Prelude Token Lexer LexerFacts Lexemes Ast Cursor LexerRange ParserExpr Parser ParserWp ParserFacts AstPrinter Spelling Reading TypeParse Lookahead ExprParse PrintLex.

(** Every view costs a byte, the end excepted. *)
Lemma spells_weights src ts vs : Forall (tok_wf src) ts -> spells ts vs ->
  length vs <= weights ts + length (filter (fun t => kind t = TkEnd) ts).
Proof.
  intros Hw Hs. induction Hs as [|t ts vs Hs IH|t ts vs Hg Hs IH]; [done| |]; inversion Hw as [|? ? Ht Hw']; subst;
    specialize (IH Hw'); unfold weights in *; cbn [length sum_list_with].
  - destruct (decide (kind t = TkEnd)) as [E|E].
    + rewrite filter_cons_True by done. cbn [length]. lia.
    + rewrite filter_cons_False by done. pose proof (weight_pos t E). lia.
  - rewrite filter_cons_False by congruence. pose proof (tok_wf_length src t Ht) as Hl. destruct Ht as (_ & _ & H2).
    rewrite Hg in H2. specialize (H2 eq_refl). assert (2 <= weight t); [|lia]. unfold weight. rewrite Hg. lia.
Qed.

Lemma reads_start src ts vs s : toks_wf src ts -> spells ts vs -> reads src (MkP ts 0 s false) vs.
Proof.
  intros Hw Hs. split; [split; [done|]|done]. destruct Hw as (init & e & -> & _). cbn. rewrite length_app. cbn. lia.
Qed.

Lemma enough_levels src ts vs s : toks_wf src ts -> spells ts vs ->
  length vs <= S (remaining (MkP ts 0 s false)).
Proof.
  intros (init & e & -> & He & Hi & Hw) Hs. apply (spells_weights src) in Hs; [|done]. unfold remaining. cbn [tokens_ pos_].
  change (drop 0 (init ++ [e])) with (init ++ [e]). rewrite filter_app, length_app in Hs.
  assert (filter (fun t => kind t = TkEnd) init = []) as Hf.
  { clear -Hi. induction Hi as [|t init Ht Hi IH]; [done|]. by rewrite filter_cons_False. }
  rewrite Hf, filter_cons_True in Hs by done. cbn in Hs. lia.
Qed.

(** [C2] An expression printed by [srcExpr] is read back: if names, literals and
    operators are ones the printer can write ([printable]), the printed text
    lexes without a diagnostic, and [parseExpressionFragment] on its tokens
    consumes them all, reports nothing and returns the expression, up to the
    spans of its nodes.  This covers calls with labelled and type arguments,
    closers merged into [>>], lambdas (told apart from parentheses by an
    unbounded lookahead), conditionals, ranges, type tests, string segments. *)
Theorem print_parse_expr importLits e : printable e = true -> unlabeled e = true ->
  exists toks e' st,
    tokenize (srcExpr importLits e) false empty_sink = LexDone toks empty_sink /\
    parseExpressionFragment (srcExpr importLits e) toks empty_sink = POk (Some e') st /\
    strip e' = strip e /\ atEnd st = true /\ sink_ st = empty_sink.
Proof.
  intros Hp Hu. set (src := srcExpr importLits e).
  assert (chops src (ev e)) as Hc.
  { pose proof (chops_expr importLits e Hp [] [] eq_refl (chops_end [] ltac:(done))) as H. by rewrite !app_nil_r in H. }
  destruct (chops_tokenize src (ev e) empty_sink Hc) as (toks & Ht & Hs & Hw). exists toks.
  pose proof (reads_start src toks _ empty_sink Hw Hs) as Hrd. pose proof (enough_levels src toks _ empty_sink Hw Hs) as Hn.
  rewrite length_app in Hn. change (length [pt TkEnd]) with 1 in Hn.
  set (st0 := MkP toks 0 empty_sink false) in *. set (m := S (remaining st0)) in *.
  pose proof (grammar_exprs src m) as HR.
  assert (wp (let! e := gets atEnd in
              if e then error "an expression" ;; ret None
              else
                let! out := rExpr (grammar src m) 0 in
                let! e' := gets atEnd in
                (if e' : bool then ret tt else error "end of generated expression") ;; ret (Some out)) st0
    (fun r st => exists e', r = Some e' /\ strip e' = strip e /\ atEnd st = true /\ sink_ st = empty_sink)) as H.
  { vstep. vstep. rewrite (atEnd_hk src st0 _ Hrd), (proj2 (kind_eqb_neq _ _)) by (by apply start_neq). vstep.
    eapply (below_expr src m _ HR 0 e [pt TkEnd]); [done|lia|done| |exact Hrd|].
    { exists TkEnd. by apply calm_ev. }
    intros e' st1 Ee T1 Hp1. pose proof (to_reads _ _ _ _ T1) as Rd.
    assert (atEnd st1 = true) as He by (by rewrite (atEnd_hk src st1 _ Rd)).
    vstep. vstep. rewrite He. cbv iota. repeat vstep. exists e'. split; [done|]. split; [by apply same_sub|].
    split; [done|]. by destruct T1 as (_ & _ & ->). }
  unfold wp in H. unfold parseExpressionFragment, runParser. fold st0. fold m. cbv zeta.
  match type of H with match ?x with _ => _ end => destruct x as [r st| |]; [|done|done] end.
  destruct H as (e' & -> & H). by exists e', st.
Qed.

(** A call with type arguments, a labelled argument and a lambda:
    [(f::<A<B<C>>>(x, tag: ((y > 2) ? 'u' : [-z])) is (A) => n::D | E) ...]. *)
Definition name_of (s : string) : Expr := mkExpr nowhere (EName (lit s)).
Definition type_of (s : string) (gs : list TypeRef) : TypeRef := TNamed nowhere [] (lit s) gs [] [].

Definition sample_expr : Expr :=
  let u := mkExpr nowhere (EStringLit (lit "u") (MkString true false false true)) in
  let cmp := mkExpr nowhere (EBinary TkGt (name_of "y") (mkExpr nowhere (EIntLit (lit "2")))) in
  let neg := mkExpr nowhere (EUnary TkMinus (name_of "z")) in
  let tag := mkExpr nowhere (ETernary cmp u (mkExpr nowhere (EArray [neg]))) in
  let lam := mkExpr nowhere (ELambda [MkParam None (lit "k") false nowhere None;
                                      MkParam None (lit "v") false nowhere None]
                                     (BExpr (mkExpr nowhere (ERange (name_of "k") (name_of "v"))))) in
  let call := set_typeArgs [type_of "A" [type_of "B" [type_of "C" []]]]
                (mkExpr nowhere (ECall (mkExpr nowhere (EMember (name_of "o") false true (lit "get"))) false
                   [lam; set_argLabel (lit "tag") tag])) in
  mkExpr nowhere (EIs call (TUnion nowhere [TNamed nowhere [lit "n"] (lit "D") [] [] []; type_of "E" []])).

Lemma print_parse_expr_witness :
  srcExpr (fun _ => None) sample_expr =
    lit "(o?.get::<A<B<C>>>((k, v) => (k .. v), tag: ((y > 2) ? 'u' : [-z])) is n::D | E)" /\
  exists toks e' st,
    tokenize (srcExpr (fun _ => None) sample_expr) false empty_sink = LexDone toks empty_sink /\
    parseExpressionFragment (srcExpr (fun _ => None) sample_expr) toks empty_sink = POk (Some e') st /\
    strip e' = strip sample_expr /\ atEnd st = true /\ sink_ st = empty_sink.
Proof.
  split; [vm_compute; reflexivity|]. apply (print_parse_expr (fun _ => None) sample_expr); vm_compute; reflexivity.
Defined.

(** ** What the printer cannot express *)

(** Lex and parse an expression: the tree, and whether nothing was reported. *)
Definition read_expr (src : str) : option (Expr * bool) :=
  match tokenize src false empty_sink with
  | LexDone toks s =>
      match parseExpressionFragment src toks s with
      | POk (Some e) st => Some (e, match diags (sink_ st) with [] => true | _ => false end)
      | _ => None
      end
  | _ => None
  end.

(** Read, print, and read again: the printed text, and whether the second reading
    is clean and gives the first tree. *)
Definition reprint (src : str) : option (str * bool) :=
  match read_expr src with
  | Some (e, true) =>
      let out := srcExpr (fun _ => None) e in
      Some (out, match read_expr out with Some (_, clean) => clean | None => false end)
  | _ => None
  end.

(** The operators that [opSymbol] does not know print as [?], and the output of
    [--expand] does not parse. *)
Lemma expand_loses_operators :
  map (fun s => reprint (lit s)) ["a ^ b"; "~z"; "x += 1"; "x %= 2"] =
  map (fun s => Some (lit s, false)) ["(a ? b)"; "?z"; "(x ? 1)"; "(x ? 2)"].
Proof. vm_compute. reflexivity. Qed.

(** A base that is not a postfix expression is printed without parentheses, and
    another tree is read back: the call is awaited instead of its member. *)
Lemma expand_drops_parentheses :
  map (fun s => reprint (lit s)) ["(await g()).h"; "(-x).m()"; "((k) => k)(1)"] =
  map (fun s => Some (lit s, true)) ["await g().h"; "-x.m()"; "(k) => k(1)"].
Proof. vm_compute. reflexivity. Qed.

(** A raw string loses its prefix and its quotes. *)
Lemma expand_unquotes_raw_strings : reprint (lit "r'a b'") = Some (lit "a b", false).
Proof. vm_compute. reflexivity. Qed.

(** A [comptime] inside an interpolation hole does not mark the program. *)
Definition meta_of (src : str) : option bool :=
  match tokenize src false empty_sink with
  | LexDone toks s => match parseProgram src toks s with POk p _ => Some (hasMeta p) | _ => None end
  | _ => None
  end.

Lemma hole_hides_meta :
  let quoted s := c_quote :: lit s ++ [c_quote] in
  meta_of (lit "var a = comptime f();") = Some true /\
  meta_of (lit "var a = " ++ quoted "${comptime f()}" ++ lit ";") = Some false.
Proof. vm_compute. auto. Qed.
