(* ===== verification/BuildPlan.v ===== *)
(** * The build plan: writer and reader

    The plan is the one text contract between the package manager and the
    compiler.  [Writer] models [tools/trident/plan.cpp] (with the structures of
    [tools/trident/resolve.hpp] it prints); [PlanReader] and [readBuildPlan]
    model [src/driver/BuildPlan.cpp], which lexes the text with the compiler's
    own lexer.  File input and output are outside the model: the writer yields
    the text of the file and the reader takes it. *)

From S2P Require Import Prelude Token Lexer LexerFacts.

(** ** The writer (trident) *)

Record ResolvedSource := MkRSource { rs_path : str; rs_moduleId : str; rs_origin : str }.
Record ResolvedAsset := MkRAsset { ra_rel : str; ra_path : str; ra_moduleId : str; ra_hash : str }.

(** The fields of [ResolvedProject] the plan prints; [moduleDeps] is a
    [std::map] of [std::set], listed in iteration order. *)
Record ResolvedProject := MkRProject {
  rp_sources : list ResolvedSource;
  rp_moduleDeps : list (str * list str);
  rp_assets : list ResolvedAsset;
  rp_entryKind : str;
  rp_entryTarget : str
}.

Record WritePlanOptions := MkPlanOptions { wo_out : str; wo_mode : str; wo_target : str; wo_optLevel : Z }.

Definition escape_char (c : ascii) : str := if eqc c c_quote || eqc c c_bslash then [c_bslash; c] else [c].
Definition escape_body (s : str) : str := concat (map escape_char s).

Definition plan_quote (s : str) : str := c_quote :: escape_body s ++ [c_quote].

Definition src_row (s : ResolvedSource) : str :=
  lit "    src { path = " ++ plan_quote (rs_path s) ++ lit "; moduleId = " ++ plan_quote (rs_moduleId s)
    ++ lit "; origin = " ++ plan_quote (rs_origin s) ++ lit "; }" ++ [c_nl].

Definition edge_row (from to : str) : str :=
  lit "    edge { from = " ++ plan_quote from ++ lit "; to = " ++ plan_quote to ++ lit "; }" ++ [c_nl].

Definition asset_row (a : ResolvedAsset) : str :=
  lit "    asset { rel = " ++ plan_quote (ra_rel a) ++ lit "; path = " ++ plan_quote (ra_path a)
    ++ lit "; moduleId = " ++ plan_quote (ra_moduleId a) ++ lit "; hash = " ++ plan_quote (ra_hash a)
    ++ lit "; }" ++ [c_nl].

Definition writeBuildPlan (rp : ResolvedProject) (opts : WritePlanOptions) : str :=
  lit "plan {" ++ [c_nl]
  ++ lit "    out = " ++ plan_quote (wo_out opts) ++ lit ";" ++ [c_nl]
  ++ lit "    mode = " ++ plan_quote (wo_mode opts) ++ lit ";" ++ [c_nl]
  ++ lit "    target = " ++ plan_quote (wo_target opts) ++ lit ";" ++ [c_nl]
  ++ lit "    optLevel = " ++ to_string (wo_optLevel opts) ++ lit ";" ++ [c_nl]
  ++ lit "    entry { kind = " ++ plan_quote (rp_entryKind rp) ++ lit "; target = "
  ++ plan_quote (rp_entryTarget rp) ++ lit "; }" ++ [c_nl]
  ++ concat (map src_row (rp_sources rp))
  ++ concat (map (fun d => concat (map (edge_row d.1) d.2)) (rp_moduleDeps rp))
  ++ concat (map asset_row (rp_assets rp))
  ++ lit "}" ++ [c_nl].

(** ** The reader (leviathan) *)

Inductive PlanEntryKind := EntryScript | EntryFile | EntryFunction.
Record PlanSource := MkPlanSource { ps_path : str; ps_moduleId : str; ps_origin : str }.
Record PlanEdge := MkPlanEdge { pe_from : str; pe_to : str }.
Record PlanAsset := MkPlanAsset { pa_rel : str; pa_path : str; pa_moduleId : str; pa_hash : str }.

Record Plan := MkPlan {
  ok : bool;
  out : str;
  mode : str;
  target : str;
  optLevel : Z;
  entryKind : PlanEntryKind;
  entryTarget : str;
  sources : list PlanSource;
  edges : list PlanEdge;
  assets : list PlanAsset
}.

Definition empty_plan : Plan := MkPlan false [] [] [] 2 EntryScript [] [] [] [].

Definition set_entry (k : PlanEntryKind) (t : str) (p : Plan) : Plan :=
  MkPlan (ok p) (out p) (mode p) (target p) (optLevel p) k t (sources p) (edges p) (assets p).
Definition push_source (s : PlanSource) (p : Plan) : Plan :=
  MkPlan (ok p) (out p) (mode p) (target p) (optLevel p) (entryKind p) (entryTarget p)
    (sources p ++ [s]) (edges p) (assets p).
Definition push_edge (e : PlanEdge) (p : Plan) : Plan :=
  MkPlan (ok p) (out p) (mode p) (target p) (optLevel p) (entryKind p) (entryTarget p)
    (sources p) (edges p ++ [e]) (assets p).
Definition push_asset (a : PlanAsset) (p : Plan) : Plan :=
  MkPlan (ok p) (out p) (mode p) (target p) (optLevel p) (entryKind p) (entryTarget p)
    (sources p) (edges p) (assets p ++ [a]).
Definition set_out (v : str) (p : Plan) : Plan :=
  MkPlan (ok p) v (mode p) (target p) (optLevel p) (entryKind p) (entryTarget p) (sources p) (edges p) (assets p).
Definition set_mode (v : str) (p : Plan) : Plan :=
  MkPlan (ok p) (out p) v (target p) (optLevel p) (entryKind p) (entryTarget p) (sources p) (edges p) (assets p).
Definition set_target (v : str) (p : Plan) : Plan :=
  MkPlan (ok p) (out p) (mode p) v (optLevel p) (entryKind p) (entryTarget p) (sources p) (edges p) (assets p).
Definition set_optLevel (v : Z) (p : Plan) : Plan :=
  MkPlan (ok p) (out p) (mode p) (target p) v (entryKind p) (entryTarget p) (sources p) (edges p) (assets p).
Definition set_ok (b : bool) (p : Plan) : Plan :=
  MkPlan b (out p) (mode p) (target p) (optLevel p) (entryKind p) (entryTarget p) (sources p) (edges p) (assets p).

(** [unquote]: drop the surrounding quotes of a string token, nothing else. *)
Definition unquote (tok : str) : str :=
  match tok with
  | c :: _ => if (2 <=? length tok)%nat && (eqc c c_quote || eqc c "'")
              then substr tok 1 (length tok - 2) else tok
  | [] => []
  end.

(** The cursor: the tokens from [toks[i]] on (the last one is [End], which
    [advance] never passes), and the sink. *)
Record PlanReader := MkReader { toks : list Token; rsink : DiagnosticSink }.

Definition end_token : Token := MkToken TkEnd (Span 0 0) [].
Definition cur (r : PlanReader) : Token := match toks r with t :: _ => t | [] => end_token end.

Definition tk_eqb (a b : TokenKind) : bool := String.eqb (tokenKindName a) (tokenKindName b).
Definition at_kind (k : TokenKind) (r : PlanReader) : bool := tk_eqb (kind (cur r)) k.
Definition advance (r : PlanReader) : PlanReader :=
  if at_kind TkEnd r then r else MkReader (tail (toks r)) (rsink r).
Definition rerror (m : str) (r : PlanReader) : PlanReader :=
  MkReader (toks r) (sink_error (span (cur r)) m (rsink r)).

Definition expect (k : TokenKind) (what : string) (r : PlanReader) : bool * PlanReader :=
  if at_kind k r then (true, advance r) else (false, rerror (lit "expected " ++ lit what) r).

Definition expectIdent (t : string) (r : PlanReader) : bool * PlanReader :=
  if at_kind TkIdentifier r && eqs (text (cur r)) (lit t) then (true, advance r)
  else (false, rerror (lit "expected '" ++ lit t ++ lit "'") r).

Definition scalar (r : PlanReader) : option str * PlanReader :=
  if at_kind TkStringLiteral r then (Some (unquote (text (cur r))), advance r)
  else if at_kind TkIntLiteral r then (Some (text (cur r)), advance r)
  else (None, rerror (lit "expected a string or a number") r).

(** [fieldBlock]: [onField] may change the captured row and report errors. *)
Fixpoint field_loop {T} (fuel : nat) (onField : str -> str -> T * PlanReader -> T * PlanReader)
    (acc : T) (r : PlanReader) : option T * PlanReader :=
  match fuel with
  | 0 => (None, r)
  | S f =>
      if at_kind TkRBrace r || at_kind TkEnd r then
        match expect TkRBrace "'}'" r with (true, r') => (Some acc, r') | (false, r') => (None, r') end
      else if at_kind TkIdentifier r then
        let field := text (cur r) in
        match expect TkEq "'='" (advance r) with
        | (false, r1) => (None, r1)
        | (true, r1) =>
            match scalar r1 with
            | (None, r2) => (None, r2)
            | (Some value, r2) =>
                let '(acc', r3) := onField field value (acc, r2) in
                field_loop f onField acc' (if at_kind TkSemicolon r3 then advance r3 else r3)
            end
        end
      else (None, rerror (lit "expected a field name") r)
  end.

Definition fieldBlock {T} (onField : str -> str -> T * PlanReader -> T * PlanReader)
    (acc : T) (r : PlanReader) : option T * PlanReader :=
  match expect TkLBrace "'{'" r with
  | (false, r1) => (None, r1)
  | (true, r1) => field_loop (S (length (toks r1))) onField acc r1
  end.

Definition unknown_field {T} (block : string) (f : str) (acc : T) (r : PlanReader) : T * PlanReader :=
  (acc, rerror (lit "unknown '" ++ lit block ++ lit "' field '" ++ f ++ lit "'") r).

Definition on_entry (f v : str) (a : (str * str) * PlanReader) : (str * str) * PlanReader :=
  let '((k, t), r) := a in
  if eqs f (lit "kind") then ((v, t), r)
  else if eqs f (lit "target") then ((k, v), r)
  else unknown_field "entry" f (k, t) r.

Definition on_src (f v : str) (a : PlanSource * PlanReader) : PlanSource * PlanReader :=
  let '(s, r) := a in
  if eqs f (lit "path") then (MkPlanSource v (ps_moduleId s) (ps_origin s), r)
  else if eqs f (lit "moduleId") then (MkPlanSource (ps_path s) v (ps_origin s), r)
  else if eqs f (lit "origin") then (MkPlanSource (ps_path s) (ps_moduleId s) v, r)
  else unknown_field "src" f s r.

Definition on_edge (f v : str) (a : PlanEdge * PlanReader) : PlanEdge * PlanReader :=
  let '(e, r) := a in
  if eqs f (lit "from") then (MkPlanEdge v (pe_to e), r)
  else if eqs f (lit "to") then (MkPlanEdge (pe_from e) v, r)
  else unknown_field "edge" f e r.

Definition on_asset (f v : str) (x : PlanAsset * PlanReader) : PlanAsset * PlanReader :=
  let '(a, r) := x in
  if eqs f (lit "rel") then (MkPlanAsset v (pa_path a) (pa_moduleId a) (pa_hash a), r)
  else if eqs f (lit "path") then (MkPlanAsset (pa_rel a) v (pa_moduleId a) (pa_hash a), r)
  else if eqs f (lit "moduleId") then (MkPlanAsset (pa_rel a) (pa_path a) v (pa_hash a), r)
  else if eqs f (lit "hash") then (MkPlanAsset (pa_rel a) (pa_path a) (pa_moduleId a) v, r)
  else unknown_field "asset" f a r.

Definition parse_entry_kind (k : str) : option PlanEntryKind :=
  if eqs k (lit "script") then Some EntryScript
  else if eqs k (lit "file") then Some EntryFile
  else if eqs k (lit "function") then Some EntryFunction
  else None.

(** The loop state: the plan built so far and whether an entry was seen. *)
Record PlanState := MkPState { plan : Plan; sawEntry : bool }.
Definition on_plan (f : Plan -> Plan) (s : PlanState) : PlanState := MkPState (f (plan s)) (sawEntry s).

(** One turn of the plan loop after the name was read; [None] returns. *)
Definition plan_item (name : str) (s : PlanState) (r : PlanReader) : option PlanState * PlanReader :=
  if eqs name (lit "entry") then
    match fieldBlock on_entry ([], []) r with
    | (None, r1) => (None, r1)
    | (Some (k, t), r1) =>
        match parse_entry_kind k with
        | None => (None, rerror (lit "entry.kind must be 'script', 'file', or 'function'") r1)
        | Some ek => (Some (MkPState (set_entry ek t (plan s)) true), r1)
        end
    end
  else if eqs name (lit "src") then
    match fieldBlock on_src (MkPlanSource [] [] []) r with
    | (None, r1) => (None, r1)
    | (Some src, r1) =>
        if eqs (ps_path src) [] then (None, rerror (lit "'src' is missing 'path'") r1)
        else (Some (on_plan (push_source src) s), r1)
    end
  else if eqs name (lit "edge") then
    match fieldBlock on_edge (MkPlanEdge [] []) r with
    | (None, r1) => (None, r1)
    | (Some e, r1) => (Some (on_plan (push_edge e) s), r1)
    end
  else if eqs name (lit "asset") then
    match fieldBlock on_asset (MkPlanAsset [] [] [] []) r with
    | (None, r1) => (None, r1)
    | (Some a, r1) =>
        if eqs (pa_rel a) [] then (None, rerror (lit "'asset' is missing 'rel'") r1)
        else if eqs (pa_path a) [] then (None, rerror (lit "'asset' is missing 'path'") r1)
        else (Some (on_plan (push_asset a) s), r1)
    end
  else if eqs name (lit "out") || eqs name (lit "mode") || eqs name (lit "target") || eqs name (lit "optLevel") then
    match expect TkEq "'='" r with
    | (false, r1) => (None, r1)
    | (true, r1) =>
        match scalar r1 with
        | (None, r2) => (None, r2)
        | (Some v, r2) =>
            let f := if eqs name (lit "out") then set_out v
                     else if eqs name (lit "mode") then set_mode v
                     else if eqs name (lit "target") then set_target v
                     else set_optLevel (atoi v) in
            (Some (on_plan f s), if at_kind TkSemicolon r2 then advance r2 else r2)
        end
    end
  else (None, rerror (lit "unknown plan field or block '" ++ name ++ lit "'") r).

(** [inl] the loop ended normally, [inr] it returned the plan as it stands. *)
Fixpoint plan_loop (fuel : nat) (s : PlanState) (r : PlanReader) : (PlanState + Plan) * PlanReader :=
  match fuel with
  | 0 => (inr (plan s), r)
  | S f =>
      if at_kind TkRBrace r || at_kind TkEnd r then (inl s, r)
      else if at_kind TkIdentifier r then
        let name := text (cur r) in
        match plan_item name s (advance r) with
        | (None, r1) => (inr (plan s), r1)
        | (Some s', r1) => plan_loop f s' r1
        end
      else (inr (plan s), rerror (lit "expected a field or block name") r)
  end.

Definition finish_plan (s : PlanState) (sk : DiagnosticSink) : Plan * DiagnosticSink :=
  let s1 := match sources (plan s) with
            | [] => sink_error (Span 0 0) (lit "build plan lists no 'src' rows — nothing to compile") sk
            | _ => sk end in
  let s2 := if sawEntry s then s1
            else sink_error (Span 0 0) (lit "build plan is missing an 'entry { ... }' block") s1 in
  (set_ok (negb (hasErrors s2)) (plan s), s2).

Definition read_tokens (ts : list Token) (sk : DiagnosticSink) : Plan * DiagnosticSink :=
  match expectIdent "plan" (MkReader ts sk) with
  | (false, r) => (empty_plan, rsink r)
  | (true, r1) =>
      match expect TkLBrace "'{'" r1 with
      | (false, r) => (empty_plan, rsink r)
      | (true, r2) =>
          match plan_loop (S (length (toks r2))) (MkPState empty_plan false) r2 with
          | (inr p, r3) => (p, rsink r3)
          | (inl s, r3) =>
              match expect TkRBrace "'}'" r3 with
              | (false, r4) => (plan s, rsink r4)
              | (true, r4) => finish_plan s (rsink r4)
              end
          end
      end
  end.

(** [readBuildPlan] on a file that could be read; [None] when the lexer throws. *)
Definition readBuildPlan (planText : str) (sk : DiagnosticSink) : option (Plan * DiagnosticSink) :=
  match tokenize planText false sk with
  | LexDone ts sk' => Some (read_tokens ts sk')
  | LexThrow | LexFuel => None
  end.
