(* ===== verification/BuildPlanFacts.v ===== *)
(** * The plan contract: what the writer prints, the reader reads *)

From S2P Require Import Prelude Token Lexer LexerFacts Lexemes BuildPlan.

(** ** Lexemes of the plan language *)

(** What follows a lexeme in a plan: nothing, a blank or a semicolon. *)
Definition delim (rest : str) : Prop :=
  match rest with [] => True | c :: _ => is_blank c = true \/ c = ";"%char end.

Lemma delim_head rest : delim rest ->
  isIdentCont (head_char rest) = false /\ isDigit (head_char rest) = false /\
  (head_char rest = c_nul \/ is_blank (head_char rest) = true \/ head_char rest = ";"%char).
Proof.
  destruct rest as [|c rest]; cbn; [auto|].
  intros [H| ->]; [|by repeat split; auto]. revert H. change (head_char (c :: rest)) with c.
  each_char c; vm_compute; intros; try discriminate; repeat split; auto.
Qed.

(** A one-character operator. *)
Lemma lexes_punct c k rest :
  In (c, k) [("{", TkLBrace); ("}", TkRBrace); ("=", TkEq); (";", TkSemicolon)]%char ->
  delim rest -> lexes k [c] rest.
Proof.
  intros Hin Hr. destruct (delim_head rest Hr) as (_ & _ & Hh).
  assert (forall d, d = ">"%char \/ d = "="%char -> eqc (head_char rest) d = false) as Hne.
  { intros d Hd. apply eqc_neq. intros E. rewrite E in Hh. by destruct Hd as [->| ->], Hh as [?|[?|?]]. }
  destruct Hin as [E|[E|[E|[E|[]]]]]; injection E as <- <-;
    (eapply lexes_op1; [reflexivity| |by apply no_comment]); [done|done| |done].
  cbn [longer]. by rewrite !Hne by auto.
Qed.

Lemma delim_word rest : delim rest -> word_stop rest.
Proof.
  intros Hr. destruct (delim_head rest Hr) as (Hid & _ & Hh). split; [done|].
  split; apply eqc_neq; intros E; rewrite E in Hh; by destruct Hh as [?|[?|?]].
Qed.

Lemma delim_number rest : delim rest -> number_stop rest.
Proof.
  intros Hr. destruct (delim_head rest Hr) as (Hid & _ & Hh). split; [done|].
  intros E. rewrite E in Hh. by destruct Hh as [?|[?|?]].
Qed.

Lemma lexes_ident w rest :
  ident_text w -> keywordKind w = TkIdentifier -> delim rest -> lexes TkIdentifier w rest.
Proof. intros Hw <- Hr. apply lexes_word; [done|by apply delim_word]. Qed.

(** A decimal integer. *)
Lemma lexes_int_plan w rest :
  w <> [] -> Forall (fun c => isdigit c = true) w -> delim rest -> lexes TkIntLiteral w rest.
Proof. intros H1 H2 H3. apply lexes_int; [done|by apply delim_number]. Qed.

(** ** Quoted strings *)

Definition no_newline (s : str) : Prop := Forall (fun c => c <> c_nl) s.

Lemma escape_body_cons c s : escape_body (c :: s) = escape_char c ++ escape_body s.
Proof. done. Qed.

Lemma string_loop_escaped src s rest f p :
  drop p src = escape_body s ++ c_quote :: rest -> no_newline s ->
  length (escape_body s) < f -> string_loop src 0 f c_quote p = (true, p + length (escape_body s) + 1).
Proof.
  revert f p. induction s as [|c s IH]; intros f p Hd Hn Hf; (destruct f as [|f]; [cbn in Hf; lia|]).
  - cbn [string_loop]. cbn in Hd. assert (p < length src) by by eapply drop_cons_lt.
    replace (atEnd src 0 p) with false by (symmetry; apply atEnd_false; rewrite full_end; lia).
    rewrite peek_drop, Hd. cbn. f_equal. lia.
  - inversion Hn as [|? ? Hc Hn2]; subst. rewrite escape_body_cons, <- app_assoc in Hd.
    rewrite escape_body_cons, length_app in *. cbn [string_loop].
    assert (p < length src) as Hp.
    { unfold escape_char in Hd. destruct (eqc c c_quote || eqc c c_bslash); by eapply drop_cons_lt. }
    replace (atEnd src 0 p) with false by (symmetry; apply atEnd_false; rewrite full_end; lia).
    rewrite peek_drop, Hd. pose proof (drop_app_add _ _ _ _ Hd) as Hd2.
    unfold escape_char in *. destruct (eqc c c_quote || eqc c c_bslash) eqn:E; cbn [length] in *.
    + change (char_at ([c_bslash; c] ++ escape_body s ++ c_quote :: rest) 0) with c_bslash. rewrite eqc_refl.
      rewrite (IH f (p + 2)) by (done || lia). f_equal. lia.
    + change (char_at ([c] ++ escape_body s ++ c_quote :: rest) 0) with c.
      apply orb_false_elim in E as [-> ->]. apply eqc_neq in Hc as ->.
      rewrite <- Nat.add_1_r, (IH f (p + 1)) by (done || lia). f_equal. lia.
Qed.

Lemma lexes_string s rest : no_newline s -> delim rest -> lexes TkStringLiteral (plan_quote s) rest.
Proof.
  intros Hn Hr. destruct (delim_head rest Hr) as (_ & _ & Hh).
  split; [exists c_quote, (escape_body s ++ [c_quote]); split; [done|]; split; [done|]; by apply no_comment|]. intros src p st Hd Hst.
  unfold lex_one. rewrite (char_at_drop0 src p), Hd. change (char_at (plan_quote s ++ rest) 0) with c_quote.
  cbn [punct c_quote]. change (eqc c_quote c_quote || eqc c_quote "'") with true. cbv iota.
  assert (drop (p + 1) src = escape_body s ++ c_quote :: rest) as Hd1.
  { pose proof (drop_app_add src [c_quote] (escape_body s ++ c_quote :: rest) p) as H.
    apply H. rewrite Hd. unfold plan_quote. cbn. by rewrite <- app_assoc. }
  replace (eqc (peek src 0 (pos st) 0) c_quote && eqc (peek src 0 (pos st) 1) c_quote) with false.
  2:{ symmetry. rewrite Hst, !peek_drop, <- Nat.add_1_r, Hd1.
      destruct s as [|c s]; cbn [escape_body map concat app].
      - change (char_at (c_quote :: rest) 1) with (head_char rest). apply andb_false_iff. right.
        apply eqc_neq. intros E. rewrite E in Hh. by destruct Hh as [?|[?|?]].
      - apply andb_false_iff. left. unfold escape_char.
        destruct (eqc c c_quote) eqn:E1; [done|]. destruct (eqc c c_bslash); cbn; done. }
  unfold lexString, finish_quoted. rewrite Hst.
  rewrite (string_loop_escaped src s rest _ (S p)); [|by rewrite <- Nat.add_1_r|done|].
  - cbv iota. assert (S p + length (escape_body s) + 1 = p + length (plan_quote s)) as Hlen.
    { unfold plan_quote. cbn. rewrite length_app. cbn. lia. }
    rewrite Hlen, (make_front src _ p (plan_quote s) rest) by done. done.
  - unfold loop_fuel. rewrite full_end, Hst.
    assert (length (drop (p + 1) src) = length src - (p + 1)) as Hl by apply length_drop.
    rewrite Hd1, length_app in Hl. cbn in Hl. lia.
Qed.

Lemma unquote_plan_quote s : unquote (plan_quote s) = escape_body s.
Proof.
  unfold unquote, plan_quote. cbn [length]. rewrite length_app. cbn [length].
  destruct (Nat.leb_spec 2 (S (length (escape_body s) + 1))); [|lia].
  rewrite eqc_refl. cbn [andb orb]. unfold substr. cbn [drop skipn].
  replace (S (length (escape_body s) + 1) - 2) with (length (escape_body s)) by lia. apply take_app_length.
Qed.

(** ** Reading the token stream *)

Lemma view_cons ts k w v : map token_view ts = (k, w) :: v ->
  exists t ts', ts = t :: ts' /\ kind t = k /\ text t = w /\ map token_view ts' = v.
Proof. destruct ts as [|t ts]; cbn; [done|]. intros [= <- <- <-]. eauto 10. Qed.

(** A reader whose remaining tokens show [v], with sink [s]. *)
Definition shows (r : PlanReader) (v : list (TokenKind * str)) (s : DiagnosticSink) : Prop :=
  map token_view (toks r) = v /\ rsink r = s.

Lemma shows_cur r k w v s : shows r ((k, w) :: v) s -> kind (cur r) = k /\ text (cur r) = w.
Proof. intros [H _]. apply view_cons in H as (t & ts & E & ? & ? & _). unfold cur. by rewrite E. Qed.

Lemma shows_advance r k w v s : shows r ((k, w) :: v) s -> tk_eqb k TkEnd = false -> shows (advance r) v s.
Proof.
  intros [H Hs] Hk. apply view_cons in H as (t & ts & E & Ht & _ & Hv).
  unfold advance, at_kind, cur. rewrite E, Ht, Hk. by split.
Qed.

Lemma shows_at r k w v s k' : shows r ((k, w) :: v) s -> at_kind k' r = tk_eqb k k'.
Proof. intros H. apply shows_cur in H as [H _]. unfold at_kind. by rewrite H. Qed.

Lemma expect_shows r k w v s what : shows r ((k, w) :: v) s -> tk_eqb k k = true -> tk_eqb k TkEnd = false ->
  exists r', expect k what r = (true, r') /\ shows r' v s.
Proof.
  intros H H1 H2. exists (advance r). unfold expect. rewrite (shows_at _ _ _ _ _ k H), H1.
  split; [done|]. by eapply shows_advance.
Qed.

(** The tokens of one [name = "value";] field. *)
Definition field_view (f : str * str) : list (TokenKind * str) :=
  [(TkIdentifier, f.1); (TkEq, lit "="); (TkStringLiteral, plan_quote f.2); (TkSemicolon, lit ";")].

Lemma field_loop_shows {T} (onField : str -> str -> T * PlanReader -> T * PlanReader) (g : str -> str -> T -> T)
    (fields : list (str * str)) acc fuel r v s :
  Forall (fun f => forall val a r', onField f.1 val (a, r') = (g f.1 val a, r')) fields ->
  shows r (concat (map field_view fields) ++ (TkRBrace, lit "}") :: v) s -> length fields < fuel ->
  exists r', field_loop fuel onField acc r =
      (Some (fold_left (fun a f => g f.1 (escape_body f.2) a) fields acc), r') /\ shows r' v s.
Proof.
  intros Hg. revert acc fuel r. induction Hg as [|[n val] fields Hf Hg IH]; intros acc fuel r Hr Hfu;
    (destruct fuel as [|f]; [cbn in Hfu; lia|]); cbn [field_loop].
  - cbn [map concat app] in Hr. rewrite (shows_at _ _ _ _ _ TkRBrace Hr). cbn [tk_eqb tokenKindName].
    change (tk_eqb TkRBrace TkRBrace) with true. cbn [orb].
    destruct (expect_shows r _ _ _ _ "'}'" Hr eq_refl eq_refl) as (r' & -> & Hr'). eauto.
  - cbn [map concat app field_view fst snd] in Hr.
    rewrite !(shows_at _ _ _ _ _ _ Hr). change (tk_eqb TkIdentifier TkRBrace || tk_eqb TkIdentifier TkEnd) with false.
    change (tk_eqb TkIdentifier TkIdentifier) with true. cbv iota.
    destruct (shows_cur _ _ _ _ _ Hr) as [_ Ht]. rewrite Ht.
    apply shows_advance in Hr; [|done].
    destruct (expect_shows _ _ _ _ _ "'='" Hr eq_refl eq_refl) as (r1 & -> & Hr1).
    unfold scalar. rewrite (shows_at _ _ _ _ _ TkStringLiteral Hr1).
    change (tk_eqb TkStringLiteral TkStringLiteral) with true. cbv iota.
    destruct (shows_cur _ _ _ _ _ Hr1) as [_ Ht1]. rewrite Ht1, unquote_plan_quote.
    apply shows_advance in Hr1; [|done]. cbn [fst] in Hf. rewrite Hf.
    rewrite (shows_at _ _ _ _ _ TkSemicolon Hr1). change (tk_eqb TkSemicolon TkSemicolon) with true. cbv iota.
    apply shows_advance in Hr1; [|done]. cbn [length] in Hfu.
    destruct (IH (g n (escape_body val) acc) f (advance (advance r1)) Hr1 ltac:(lia)) as (r' & -> & Hr').
    eauto.
Qed.

Lemma fieldBlock_shows {T} (onField : str -> str -> T * PlanReader -> T * PlanReader) (g : str -> str -> T -> T)
    (fields : list (str * str)) acc r v s :
  Forall (fun f => forall val a r', onField f.1 val (a, r') = (g f.1 val a, r')) fields ->
  shows r ((TkLBrace, lit "{") :: concat (map field_view fields) ++ (TkRBrace, lit "}") :: v) s ->
  exists r', fieldBlock onField acc r =
      (Some (fold_left (fun a f => g f.1 (escape_body f.2) a) fields acc), r') /\ shows r' v s.
Proof.
  intros Hg Hr. unfold fieldBlock.
  destruct (expect_shows r _ _ _ _ "'{'" Hr eq_refl eq_refl) as (r1 & -> & Hr1).
  eapply field_loop_shows; [done|done|]. destruct Hr1 as [Hv _].
  apply (f_equal length) in Hv. rewrite length_map, length_app in Hv.
  assert (length fields <= length (concat (map field_view fields))); [|cbn in Hv; lia].
  clear. induction fields as [|f fields IH]; cbn; lia.
Qed.

(** ** The plan text as lexemes *)

Definition item_good (i : item) : Prop :=
  Forall (fun c => is_blank c = true) i.1.1 /\ (forall rest, delim rest -> lexes i.1.2 i.2 rest) /\
  (i.1.1 <> [] \/ i.2 = lit ";").

Lemma items_good_ok items tail :
  Forall item_good items -> Forall (fun c => is_blank c = true) tail ->
  items_ok items tail /\ delim (items_text items ++ tail).
Proof.
  intros Hi Ht. induction Hi as [|[[ws k] w] items (H1 & H2 & H3) Hi IH].
  - split; [done|]. destruct Ht; cbn; auto.
  - destruct IH as [IH1 IH2]. cbn [fst snd] in *. split; [cbn; auto|].
    change (items_text ((ws, k, w) :: items)) with ((ws ++ w) ++ items_text items).
    destruct ws as [|c ws]; [destruct H3 as [?| ->]; [done|cbn; auto]|]. inversion H1; subst. cbn. auto.
Qed.

Definition nl4 : str := c_nl :: lit "    ".

Definition field_items (f : str * str) : list item :=
  [(lit " ", TkIdentifier, f.1); (lit " ", TkEq, lit "="); (lit " ", TkStringLiteral, plan_quote f.2);
   ([], TkSemicolon, lit ";")].
Definition block_items (name : str) (fields : list (str * str)) : list item :=
  (nl4, TkIdentifier, name) :: (lit " ", TkLBrace, lit "{") ::
  concat (map field_items fields) ++ [(lit " ", TkRBrace, lit "}")].
Definition scalar_items (name : str) (k : TokenKind) (w : str) : list item :=
  [(nl4, TkIdentifier, name); (lit " ", TkEq, lit "="); (lit " ", k, w); ([], TkSemicolon, lit ";")].

Definition plain_name (n : str) : Prop := ident_text n /\ keywordKind n = TkIdentifier.

Lemma good_punct ws c k :
  Forall (fun c => is_blank c = true) ws -> ws <> [] \/ [c] = lit ";" ->
  In (c, k) [("{", TkLBrace); ("}", TkRBrace); ("=", TkEq); (";", TkSemicolon)]%char -> item_good (ws, k, [c]).
Proof. intros H1 H2 H3. split; [done|]. split; [|done]. intros. by apply lexes_punct. Qed.

Lemma good_ident ws n : Forall (fun c => is_blank c = true) ws -> ws <> [] -> plain_name n ->
  item_good (ws, TkIdentifier, n).
Proof. intros H1 H2 [H3 H4]. split; [done|]. split; [|by left]. intros. by apply lexes_ident. Qed.

Lemma good_string ws s : Forall (fun c => is_blank c = true) ws -> ws <> [] -> no_newline s ->
  item_good (ws, TkStringLiteral, plan_quote s).
Proof. intros H1 H2 H3. split; [done|]. split; [|by left]. intros. by apply lexes_string. Qed.

Ltac blanks := solve [repeat constructor].
Ltac good_items :=
  repeat match goal with
  | |- Forall item_good [] => constructor
  | |- Forall item_good (_ :: _) => constructor
  | |- Forall item_good (_ ++ _) => apply Forall_app; split
  | |- item_good (_, TkIdentifier, _) => apply good_ident; [blanks|done|]
  | |- item_good (_, TkStringLiteral, _) => apply good_string; [blanks|done|]
  | |- item_good (_, ?k, _) => apply good_punct; [blanks|auto|cbn; auto]
  end.

Lemma good_fields fields :
  Forall (fun f => plain_name f.1 /\ no_newline f.2) fields -> Forall item_good (concat (map field_items fields)).
Proof. induction 1 as [|[n v] fields [Hn Hv] H IH]; cbn; [constructor|]. good_items; done. Qed.

Lemma good_block name fields :
  plain_name name -> Forall (fun f => plain_name f.1 /\ no_newline f.2) fields ->
  Forall item_good (block_items name fields).
Proof. intros Hn Hf. unfold block_items. good_items; [done|by apply good_fields]. Qed.

Lemma good_scalar_string name v : plain_name name -> no_newline v ->
  Forall item_good (scalar_items name TkStringLiteral (plan_quote v)).
Proof. intros Hn Hv. unfold scalar_items. good_items; done. Qed.

Lemma good_scalar_int name n : plain_name name -> (0 <= n)%Z ->
  Forall item_good (scalar_items name TkIntLiteral (to_string n)).
Proof.
  intros Hn H. unfold scalar_items. good_items; [done|].
  split; [blanks|]. split; [|by left]. cbn [fst snd]. intros rest Hr.
  unfold to_string. destruct (Z.ltb_spec n 0); [lia|].
  destruct (dec_nat_spec n H) as (Ha & _ & Hne). by apply lexes_int_plan.
Qed.

Definition src_fields (s : ResolvedSource) : list (str * str) :=
  [(lit "path", rs_path s); (lit "moduleId", rs_moduleId s); (lit "origin", rs_origin s)].
Definition edge_fields (e : str * str) : list (str * str) := [(lit "from", e.1); (lit "to", e.2)].
Definition asset_fields (a : ResolvedAsset) : list (str * str) :=
  [(lit "rel", ra_rel a); (lit "path", ra_path a); (lit "moduleId", ra_moduleId a); (lit "hash", ra_hash a)].
Definition entry_fields (rp : ResolvedProject) : list (str * str) :=
  [(lit "kind", rp_entryKind rp); (lit "target", rp_entryTarget rp)].

Definition edge_list (rp : ResolvedProject) : list (str * str) :=
  concat (map (fun d => map (pair d.1) d.2) (rp_moduleDeps rp)).

Definition body_items (rp : ResolvedProject) (o : WritePlanOptions) : list item :=
  scalar_items (lit "out") TkStringLiteral (plan_quote (wo_out o))
  ++ scalar_items (lit "mode") TkStringLiteral (plan_quote (wo_mode o))
  ++ scalar_items (lit "target") TkStringLiteral (plan_quote (wo_target o))
  ++ scalar_items (lit "optLevel") TkIntLiteral (to_string (wo_optLevel o))
  ++ block_items (lit "entry") (entry_fields rp)
  ++ concat (map (fun s => block_items (lit "src") (src_fields s)) (rp_sources rp))
  ++ concat (map (fun e => block_items (lit "edge") (edge_fields e)) (edge_list rp))
  ++ concat (map (fun a => block_items (lit "asset") (asset_fields a)) (rp_assets rp)).

Definition plan_items (rp : ResolvedProject) (o : WritePlanOptions) : list item :=
  ([], TkIdentifier, lit "plan") :: (lit " ", TkLBrace, lit "{") ::
  body_items rp o ++ [([c_nl], TkRBrace, lit "}")].

Lemma items_text_app a b : items_text (a ++ b) = items_text a ++ items_text b.
Proof. unfold items_text. by rewrite map_app, concat_app. Qed.

(** Moving the line break from the end of each row to its start. *)
Lemma shift_rows {A} (row : A -> str) (irow : A -> list item) xs :
  (forall x, [c_nl] ++ row x = items_text (irow x) ++ [c_nl]) ->
  [c_nl] ++ concat (map row xs) = items_text (concat (map irow xs)) ++ [c_nl].
Proof.
  intros H. induction xs as [|x xs IH]; [done|]. cbn [map concat].
  by rewrite items_text_app, <- app_assoc, <- IH, !app_assoc, H.
Qed.

Lemma src_row_items s : [c_nl] ++ src_row s = items_text (block_items (lit "src") (src_fields s)) ++ [c_nl].
Proof. unfold src_row, items_text, block_items. cbn -[plan_quote lit]. rewrite <- !app_assoc. cbn. by rewrite <- !app_assoc. Qed.

Lemma edge_row_items e : [c_nl] ++ edge_row e.1 e.2 = items_text (block_items (lit "edge") (edge_fields e)) ++ [c_nl].
Proof. unfold edge_row, items_text, block_items. cbn -[plan_quote lit]. rewrite <- !app_assoc. cbn. by rewrite <- !app_assoc. Qed.

Lemma asset_row_items a : [c_nl] ++ asset_row a = items_text (block_items (lit "asset") (asset_fields a)) ++ [c_nl].
Proof. unfold asset_row, items_text, block_items. cbn -[plan_quote lit]. rewrite <- !app_assoc. cbn. by rewrite <- !app_assoc. Qed.

Lemma edge_rows_flat rp :
  concat (map (fun d => concat (map (edge_row d.1) d.2)) (rp_moduleDeps rp))
  = concat (map (fun e => edge_row e.1 e.2) (edge_list rp)).
Proof.
  unfold edge_list. induction (rp_moduleDeps rp) as [|[f ts] ds IH]; [done|]. cbn [map concat fst snd].
  by rewrite map_app, concat_app, <- IH, map_map.
Qed.

Lemma write_text rp o : writeBuildPlan rp o = items_text (plan_items rp o) ++ [c_nl].
Proof.
  unfold writeBuildPlan, plan_items, body_items. rewrite edge_rows_flat.
  pose proof (shift_rows src_row _ (rp_sources rp) src_row_items) as Hs.
  pose proof (shift_rows (fun e => edge_row e.1 e.2) _ (edge_list rp) edge_row_items) as He.
  pose proof (shift_rows asset_row _ (rp_assets rp) asset_row_items) as Ha.
  set (S1 := concat (map src_row _)) in *. set (E1 := concat (map (fun e => edge_row e.1 e.2) _)) in *.
  set (A1 := concat (map asset_row _)) in *.
  assert (forall x, [c_nl] ++ S1 ++ E1 ++ A1 ++ x =
    items_text (concat (map (fun s => block_items (lit "src") (src_fields s)) (rp_sources rp)))
    ++ items_text (concat (map (fun e => block_items (lit "edge") (edge_fields e)) (edge_list rp)))
    ++ items_text (concat (map (fun a => block_items (lit "asset") (asset_fields a)) (rp_assets rp)))
    ++ [c_nl] ++ x) as Hrows.
  { intros x. by rewrite (app_assoc [c_nl]), Hs, <- app_assoc, (app_assoc [c_nl]), He, <- app_assoc,
      (app_assoc [c_nl]), Ha, <- !app_assoc. }
  assert (forall a b, items_text (a :: b) = item_text a ++ items_text b) as Hc by done.
  rewrite !Hc, !items_text_app, <- !app_assoc.
  change (items_text [([c_nl], TkRBrace, lit "}")]) with ([c_nl] ++ lit "}"). rewrite <- !app_assoc.
  rewrite <- Hrows. unfold scalar_items, block_items, items_text, entry_fields.
  cbn -[plan_quote lit to_string]. rewrite <- !app_assoc. cbn. by rewrite <- !app_assoc.
Qed.

(** ** Rows of the plan *)

(** The tokens [v] make the plan loop take one turn, which applies [f]. *)
Definition row_reads (v : list (TokenKind * str)) (f : PlanState -> PlanState) : Prop :=
  forall fuel s r v' sk, shows r (v ++ v') sk ->
  exists r', plan_loop (S fuel) s r = plan_loop fuel (f s) r' /\ shows r' v' sk.

Lemma row_reads_intro n v f :
  (forall s r v' sk, shows r (v ++ v') sk -> exists r', plan_item n s r = (Some (f s), r') /\ shows r' v' sk) ->
  row_reads ((TkIdentifier, n) :: v) f.
Proof.
  intros H fuel s r v' sk Hr. cbn [app] in Hr. cbn [plan_loop].
  rewrite !(shows_at _ _ _ _ _ _ Hr). change (tk_eqb TkIdentifier TkRBrace || tk_eqb TkIdentifier TkEnd) with false.
  change (tk_eqb TkIdentifier TkIdentifier) with true. cbv iota.
  destruct (shows_cur _ _ _ _ _ Hr) as [_ ->]. apply shows_advance in Hr; [|done].
  destruct (H s _ _ _ Hr) as (r' & -> & Hr'). eauto.
Qed.

Lemma block_view n fields : map item_view (block_items n fields) =
  (TkIdentifier, n) :: (TkLBrace, lit "{") :: concat (map field_view fields) ++ [(TkRBrace, lit "}")].
Proof.
  unfold block_items. cbn [map item_view fst snd]. rewrite map_app. do 3 f_equal.
  rewrite concat_map, map_map. done.
Qed.

(** Reading a field block in the middle of the token stream. *)
Lemma block_reads {T} (onField : str -> str -> T * PlanReader -> T * PlanReader) (g : str -> str -> T -> T)
    fields acc r v' sk :
  Forall (fun f => forall val a r', onField f.1 val (a, r') = (g f.1 val a, r')) fields ->
  shows r (((TkLBrace, lit "{") :: concat (map field_view fields) ++ [(TkRBrace, lit "}")]) ++ v') sk ->
  exists r', fieldBlock onField acc r =
      (Some (fold_left (fun a f => g f.1 (escape_body f.2) a) fields acc), r') /\ shows r' v' sk.
Proof. intros Hg Hr. eapply fieldBlock_shows; [done|]. cbn [app] in *. by rewrite <- app_assoc in Hr. Qed.

Definition read_src (s : ResolvedSource) : PlanSource :=
  MkPlanSource (escape_body (rs_path s)) (escape_body (rs_moduleId s)) (escape_body (rs_origin s)).
Definition read_edge (e : str * str) : PlanEdge := MkPlanEdge (escape_body e.1) (escape_body e.2).
Definition read_asset (a : ResolvedAsset) : PlanAsset :=
  MkPlanAsset (escape_body (ra_rel a)) (escape_body (ra_path a)) (escape_body (ra_moduleId a)) (escape_body (ra_hash a)).

Lemma escape_body_nil s : eqs (escape_body s) [] = eqs s [].
Proof. destruct s as [|c s]; [done|]. unfold escape_body, escape_char. cbn. by destruct (eqc c c_quote || eqc c c_bslash). Qed.

(** What the field callbacks do to the row when they know the field. *)
Definition pure_field {T} (onField : str -> str -> T * PlanReader -> T * PlanReader) (f v : str) (a : T) : T :=
  (onField f v (a, MkReader [] empty_sink)).1.

Ltac pure_fields := repeat constructor; intros ? [] ?; done.

Lemma row_src s : rs_path s <> [] ->
  row_reads (map item_view (block_items (lit "src") (src_fields s))) (on_plan (push_source (read_src s))).
Proof.
  intros Hp. rewrite block_view. apply row_reads_intro. intros st r v' sk Hr.
  destruct (block_reads on_src (pure_field on_src) (src_fields s) (MkPlanSource [] [] []) r v' sk ltac:(pure_fields) Hr) as (r' & Hb & Hr').
  exists r'. split; [|done]. unfold plan_item. change (eqs (lit "src") (lit "entry")) with false.
  change (eqs (lit "src") (lit "src")) with true. cbv iota. rewrite Hb. cbn [fold_left].
  change (fold_left _ (src_fields s) _) with (read_src s). cbn [ps_path read_src]. rewrite escape_body_nil.
  by destruct (rs_path s).
Qed.

Lemma row_edge e :
  row_reads (map item_view (block_items (lit "edge") (edge_fields e))) (on_plan (push_edge (read_edge e))).
Proof.
  rewrite block_view. apply row_reads_intro. intros st r v' sk Hr.
  destruct (block_reads on_edge (pure_field on_edge) (edge_fields e) (MkPlanEdge [] []) r v' sk ltac:(pure_fields) Hr) as (r' & Hb & Hr').
  exists r'. split; [|done]. unfold plan_item. change (eqs (lit "edge") (lit "entry")) with false.
  change (eqs (lit "edge") (lit "src")) with false. change (eqs (lit "edge") (lit "edge")) with true.
  cbv iota. rewrite Hb. done.
Qed.

Lemma row_asset a : ra_rel a <> [] -> ra_path a <> [] ->
  row_reads (map item_view (block_items (lit "asset") (asset_fields a))) (on_plan (push_asset (read_asset a))).
Proof.
  intros H1 H2. rewrite block_view. apply row_reads_intro. intros st r v' sk Hr.
  destruct (block_reads on_asset (pure_field on_asset) (asset_fields a) (MkPlanAsset [] [] [] []) r v' sk ltac:(pure_fields) Hr)
    as (r' & Hb & Hr').
  exists r'. split; [|done]. unfold plan_item. change (eqs (lit "asset") (lit "entry")) with false.
  change (eqs (lit "asset") (lit "src")) with false. change (eqs (lit "asset") (lit "edge")) with false.
  change (eqs (lit "asset") (lit "asset")) with true. cbv iota. rewrite Hb.
  change (fold_left _ (asset_fields a) _) with (read_asset a). cbn [pa_rel pa_path read_asset].
  rewrite !escape_body_nil. by destruct (ra_rel a), (ra_path a).
Qed.

Lemma row_entry rp ek : parse_entry_kind (rp_entryKind rp) = Some ek ->
  row_reads (map item_view (block_items (lit "entry") (entry_fields rp)))
    (fun s => MkPState (set_entry ek (escape_body (rp_entryTarget rp)) (plan s)) true).
Proof.
  intros He. rewrite block_view. apply row_reads_intro. intros st r v' sk Hr.
  destruct (block_reads on_entry (pure_field on_entry) (entry_fields rp) ([], []) r v' sk ltac:(pure_fields) Hr) as (r' & Hb & Hr').
  exists r'. split; [|done]. unfold plan_item. change (eqs (lit "entry") (lit "entry")) with true.
  cbv iota. rewrite Hb. change (fold_left _ (entry_fields rp) _)
    with (escape_body (rp_entryKind rp), escape_body (rp_entryTarget rp)).
  cbv iota beta. assert (escape_body (rp_entryKind rp) = rp_entryKind rp) as ->; [|by rewrite He].
  revert He. unfold parse_entry_kind. repeat (destruct (eqs _ _) eqn:E; [apply eqs_eq in E; rewrite E; by intros|clear E]). done.
Qed.

Definition scalar_effect (name v : str) : Plan -> Plan :=
  if eqs name (lit "out") then set_out v
  else if eqs name (lit "mode") then set_mode v
  else if eqs name (lit "target") then set_target v
  else set_optLevel (atoi v).

Lemma row_scalar n k w val :
  In n [lit "out"; lit "mode"; lit "target"; lit "optLevel"] ->
  (k = TkStringLiteral /\ val = unquote w) \/ (k = TkIntLiteral /\ val = w) ->
  row_reads (map item_view (scalar_items n k w)) (on_plan (scalar_effect n val)).
Proof.
  intros Hn Hk.
  change (map item_view (scalar_items n k w)) with [(TkIdentifier, n); (TkEq, lit "="); (k, w); (TkSemicolon, lit ";")].
  apply row_reads_intro. intros st r v' sk Hr. cbn [app] in Hr.
  assert (exists r', scalar (advance r) = (Some val, r') /\ shows r' ((TkSemicolon, lit ";") :: v') sk) as (r2 & Hs & Hr2).
  { exists (advance (advance r)). apply shows_advance in Hr; [|done]. unfold scalar.
    destruct Hk as [[-> ->]|[-> ->]]; rewrite !(shows_at _ _ _ _ _ _ Hr), (proj2 (shows_cur _ _ _ _ _ Hr));
      (split; [done|]; by eapply shows_advance). }
  exists (advance r2). split; [|by eapply shows_advance]. unfold plan_item.
  replace (eqs n (lit "entry")) with false by (cbn in Hn; by destruct_or! Hn; subst).
  replace (eqs n (lit "src")) with false by (cbn in Hn; by destruct_or! Hn; subst).
  replace (eqs n (lit "edge")) with false by (cbn in Hn; by destruct_or! Hn; subst).
  replace (eqs n (lit "asset")) with false by (cbn in Hn; by destruct_or! Hn; subst).
  replace (eqs n (lit "out") || eqs n (lit "mode") || eqs n (lit "target") || eqs n (lit "optLevel"))
    with true by (cbn in Hn; by destruct_or! Hn; subst).
  unfold expect. rewrite (shows_at _ _ _ _ _ TkEq Hr). change (tk_eqb TkEq TkEq) with true. cbv iota.
  rewrite Hs, (shows_at _ _ _ _ _ TkSemicolon Hr2). done.
Qed.

(** [n] turns of the plan loop consume [items] and apply [f]. *)
Definition reads (n : nat) (items : list item) (f : PlanState -> PlanState) : Prop :=
  forall fuel s r v' sk, shows r (map item_view items ++ v') sk ->
  exists r', plan_loop (n + fuel) s r = plan_loop fuel (f s) r' /\ shows r' v' sk.

Lemma reads_row items f : row_reads (map item_view items) f -> reads 1 items f.
Proof. intros H fuel. apply H. Qed.

Lemma reads_app n m a b f g : reads n a f -> reads m b g -> reads (n + m) (a ++ b) (fun s => g (f s)).
Proof.
  intros Ha Hb fuel s r v' sk Hr. rewrite map_app, <- app_assoc in Hr.
  destruct (Ha (m + fuel) s r _ sk Hr) as (r1 & H1 & Hr1).
  destruct (Hb fuel (f s) r1 v' sk Hr1) as (r2 & H2 & Hr2).
  exists r2. split; [|done]. by rewrite <- Nat.add_assoc, H1.
Qed.

Lemma reads_rows {A} (row : A -> list item) (f : A -> PlanState -> PlanState) (xs : list A) :
  Forall (fun x => row_reads (map item_view (row x)) (f x)) xs ->
  reads (length xs) (concat (map row xs)) (fun s => fold_left (fun a x => f x a) xs s).
Proof.
  induction 1 as [|x xs Hx Hxs IH]; [intros fuel s r v' sk Hr; eauto|].
  exact (reads_app 1 (length xs) _ _ (f x) _ (reads_row _ _ Hx) IH).
Qed.

(** ** The contract *)

Record plan_wf (rp : ResolvedProject) (o : WritePlanOptions) (ek : PlanEntryKind) : Prop := {
  wf_options : Forall no_newline [wo_out o; wo_mode o; wo_target o; rp_entryKind rp; rp_entryTarget rp];
  wf_opt : (0 <= wo_optLevel o)%Z /\ in_s 32 (wo_optLevel o);
  wf_entry : parse_entry_kind (rp_entryKind rp) = Some ek;
  wf_sources : rp_sources rp <> [] /\
    Forall (fun s => rs_path s <> [] /\ Forall no_newline [rs_path s; rs_moduleId s; rs_origin s]) (rp_sources rp);
  wf_edges : Forall (fun e => no_newline e.1 /\ no_newline e.2) (edge_list rp);
  wf_assets : Forall (fun a => ra_rel a <> [] /\ ra_path a <> [] /\
    Forall no_newline [ra_rel a; ra_path a; ra_moduleId a; ra_hash a]) (rp_assets rp)
}.

(** The plan the compiler holds after reading what trident wrote. *)
Definition read_back (rp : ResolvedProject) (o : WritePlanOptions) (ek : PlanEntryKind) : Plan :=
  MkPlan true (escape_body (wo_out o)) (escape_body (wo_mode o)) (escape_body (wo_target o)) (wo_optLevel o)
    ek (escape_body (rp_entryTarget rp)) (map read_src (rp_sources rp)) (map read_edge (edge_list rp))
    (map read_asset (rp_assets rp)).

Ltac plain := split; [split; [done|repeat constructor]|done].

Lemma good_blocks {A} name (fields : A -> list (str * str)) xs :
  plain_name name -> Forall (fun x => Forall (fun f => plain_name f.1 /\ no_newline f.2) (fields x)) xs ->
  Forall item_good (concat (map (fun x => block_items name (fields x)) xs)).
Proof. intros Hn. induction 1; cbn [map concat]; [constructor|]. apply Forall_app. split; [by apply good_block|done]. Qed.

Lemma body_good rp o ek : plan_wf rp o ek -> Forall item_good (body_items rp o).
Proof.
  intros [H1 H2 H3 [_ H4] H5 H6]. unfold body_items.
  repeat (apply Forall_cons in H1 as [? H1]).
  repeat (apply Forall_app; split);
    first [apply good_scalar_string; [plain|done] | apply good_scalar_int; [plain|lia] | apply good_block; [plain|]
          | apply good_blocks; [plain|]].
  - repeat constructor; cbn [fst snd]; solve [plain|done].
  - eapply Forall_impl; [exact H4|]. cbn beta. intros s [_ Hs]. repeat (apply Forall_cons in Hs as [? Hs]).
    repeat constructor; cbn [fst snd]; solve [plain|done].
  - eapply Forall_impl; [exact H5|]. cbn beta. intros e [Ha Hb].
    repeat constructor; cbn [fst snd]; solve [plain|done].
  - eapply Forall_impl; [exact H6|]. cbn beta. intros a (_ & _ & Hs). repeat (apply Forall_cons in Hs as [? Hs]).
    repeat constructor; cbn [fst snd]; solve [plain|done].
Qed.

Lemma plan_items_ok rp o ek : plan_wf rp o ek -> items_ok (plan_items rp o) [c_nl].
Proof.
  intros H. unfold plan_items.
  assert (Forall item_good ((lit " ", TkLBrace, lit "{") :: body_items rp o ++ [([c_nl], TkRBrace, lit "}")])) as Hg.
  { pose proof (body_good rp o ek H). good_items. done. }
  destruct (items_good_ok _ [c_nl] Hg ltac:(blanks)) as [Hok Hd].
  split; [constructor|]. split; [|done]. apply lexes_ident; [|done|done]. split; [done|repeat constructor].
Qed.

Lemma fold_push_source (xs : list ResolvedSource) p b :
  fold_left (fun a x => on_plan (push_source (read_src x)) a) xs (MkPState p b)
  = MkPState (MkPlan (ok p) (out p) (mode p) (target p) (optLevel p) (entryKind p) (entryTarget p)
      (sources p ++ map read_src xs) (edges p) (assets p)) b.
Proof.
  revert p. induction xs as [|x xs IH]; intros p; cbn [fold_left map]; [rewrite app_nil_r; by destruct p|].
  unfold on_plan at 2. rewrite IH. cbn. by rewrite <- app_assoc.
Qed.

Lemma fold_push_edge (xs : list (str * str)) p b :
  fold_left (fun a x => on_plan (push_edge (read_edge x)) a) xs (MkPState p b)
  = MkPState (MkPlan (ok p) (out p) (mode p) (target p) (optLevel p) (entryKind p) (entryTarget p)
      (sources p) (edges p ++ map read_edge xs) (assets p)) b.
Proof.
  revert p. induction xs as [|x xs IH]; intros p; cbn [fold_left map]; [rewrite app_nil_r; by destruct p|].
  unfold on_plan at 2. rewrite IH. cbn. by rewrite <- app_assoc.
Qed.

Lemma fold_push_asset (xs : list ResolvedAsset) p b :
  fold_left (fun a x => on_plan (push_asset (read_asset x)) a) xs (MkPState p b)
  = MkPState (MkPlan (ok p) (out p) (mode p) (target p) (optLevel p) (entryKind p) (entryTarget p)
      (sources p) (edges p) (assets p ++ map read_asset xs)) b.
Proof.
  revert p. induction xs as [|x xs IH]; intros p; cbn [fold_left map]; [rewrite app_nil_r; by destruct p|].
  unfold on_plan at 2. rewrite IH. cbn. by rewrite <- app_assoc.
Qed.

Lemma rows_length {A} (row : A -> list item) xs :
  (forall x, row x <> []) -> length xs <= length (concat (map row xs)).
Proof.
  intros H. induction xs as [|x xs IH]; cbn; [lia|]. rewrite length_app. specialize (H x).
  destruct (row x); [done|]. cbn. lia.
Qed.

Definition row_count (rp : ResolvedProject) : nat :=
  1 + (1 + (1 + (1 + (1 + (length (rp_sources rp) + (length (edge_list rp) + length (rp_assets rp))))))).

Lemma body_reads rp o ek : plan_wf rp o ek ->
  exists f, reads (row_count rp) (body_items rp o) f /\ sawEntry (f (MkPState empty_plan false)) = true /\
    plan (f (MkPState empty_plan false)) = set_ok false (read_back rp o ek).
Proof.
  intros [H1 H2 H3 [_ H4] H5 H6].
  assert (forall n w, In n [lit "out"; lit "mode"; lit "target"; lit "optLevel"] ->
    reads 1 (scalar_items n TkStringLiteral w) (on_plan (scalar_effect n (unquote w)))) as Hsc.
  { intros n w Hn. apply reads_row, row_scalar; auto. }
  assert (reads 1 (scalar_items (lit "optLevel") TkIntLiteral (to_string (wo_optLevel o)))
    (on_plan (scalar_effect (lit "optLevel") (to_string (wo_optLevel o))))) as Hopt.
  { apply reads_row, row_scalar; [cbn; auto|by right]. }
  eexists. split; [unfold body_items, row_count;
    repeat first [apply reads_app
                 | apply Hsc; cbn; auto; fail | exact Hopt
                 | apply reads_row, row_entry; exact H3
                 | apply (reads_rows (fun s => block_items (lit "src") (src_fields s)) (fun s => on_plan (push_source (read_src s))));
                   eapply Forall_impl; [exact H4|]; intros s [Hs _]; by apply row_src
                 | apply (reads_rows (fun s => block_items (lit "edge") (edge_fields s)) (fun s => on_plan (push_edge (read_edge s))));
                   eapply Forall_impl; [exact H5|]; intros; apply row_edge
                 | apply (reads_rows (fun s => block_items (lit "asset") (asset_fields s)) (fun s => on_plan (push_asset (read_asset s))));
                   eapply Forall_impl; [exact H6|]; intros s (Hs & Hs' & _); by apply row_asset ]|].
  cbv beta. rewrite fold_push_source, fold_push_edge, fold_push_asset. split; [done|].
  unfold read_back, set_ok, on_plan, set_entry. cbn -[unquote plan_quote atoi to_string lit scalar_effect].
  change (scalar_effect (lit "out")) with set_out. change (scalar_effect (lit "mode")) with set_mode.
  change (scalar_effect (lit "target")) with set_target.
  change (scalar_effect (lit "optLevel")) with (fun v => set_optLevel (atoi v)).
  cbn -[unquote plan_quote atoi to_string].
  rewrite !unquote_plan_quote, atoi_to_string by apply H2. done.
Qed.

Lemma plan_loop_stops s r v sk fuel : shows r ((TkRBrace, lit "}") :: v) sk -> plan_loop (S fuel) s r = (inl s, r).
Proof. intros Hr. cbn [plan_loop]. by rewrite (shows_at _ _ _ _ _ TkRBrace Hr). Qed.

Lemma row_count_le rp o : row_count rp <= length (body_items rp o).
Proof.
  unfold row_count, body_items. rewrite !length_app.
  pose proof (rows_length (fun s => block_items (lit "src") (src_fields s)) (rp_sources rp) ltac:(done)).
  pose proof (rows_length (fun s => block_items (lit "edge") (edge_fields s)) (edge_list rp) ltac:(done)).
  pose proof (rows_length (fun s => block_items (lit "asset") (asset_fields s)) (rp_assets rp) ltac:(done)).
  cbn [length scalar_items block_items]. lia.
Qed.

Lemma read_written rp o ek : plan_wf rp o ek ->
  readBuildPlan (writeBuildPlan rp o) empty_sink = Some (read_back rp o ek, empty_sink).
Proof.
  intros H. unfold readBuildPlan. rewrite write_text.
  destruct (tokenize_items _ _ empty_sink (plan_items_ok rp o ek H)) as (ts & -> & Hv). f_equal.
  unfold read_tokens. set (r0 := MkReader ts empty_sink).
  assert (shows r0 (map item_view (plan_items rp o) ++ [(TkEnd, [])]) empty_sink) as Hr by by split.
  change (shows r0 ((TkIdentifier, lit "plan") :: (TkLBrace, lit "{") ::
    map item_view (body_items rp o ++ [([c_nl], TkRBrace, lit "}")]) ++ [(TkEnd, [])]) empty_sink) in Hr.
  unfold expectIdent. rewrite (shows_at _ _ _ _ _ _ Hr), (proj2 (shows_cur _ _ _ _ _ Hr)).
  cbn [andb]. change (tk_eqb TkIdentifier TkIdentifier && eqs (lit "plan") (lit "plan")) with true. cbv iota.
  apply shows_advance in Hr; [|done].
  destruct (expect_shows _ _ _ _ _ "'{'" Hr eq_refl eq_refl) as (r2 & -> & Hr2).
  rewrite map_app, <- app_assoc in Hr2. change (shows r2 (map item_view (body_items rp o) ++
    (TkRBrace, lit "}") :: [(TkEnd, [])]) empty_sink) in Hr2.
  destruct (body_reads rp o ek H) as (f & Hf & Hsaw & Hplan).
  assert (exists fuel, S (length (toks r2)) = row_count rp + S fuel) as [fuel ->].
  { exists (length (toks r2) - row_count rp). destruct Hr2 as [Hr2 _]. apply (f_equal length) in Hr2.
    rewrite length_map, length_app, length_map in Hr2. pose proof (row_count_le rp o). lia. }
  destruct (Hf (S fuel) (MkPState empty_plan false) r2 _ _ Hr2) as (r3 & -> & Hr3).
  rewrite (plan_loop_stops _ _ _ _ fuel Hr3).
  destruct (expect_shows _ _ _ _ _ "'}'" Hr3 eq_refl eq_refl) as (r4 & -> & _ & ->).
  unfold finish_plan. rewrite Hsaw, Hplan. destruct (wf_sources _ _ _ H) as [Hs _].
  assert (exists x xs, sources (set_ok false (read_back rp o ek)) = x :: xs) as (x & xs & ->).
  { cbn. destruct (rp_sources rp); [done|]. cbn. eauto. }
  done.
Qed.

(** Strings the writer prints without an escape. *)
Definition plain_str (s : str) : Prop := Forall (fun c => c <> c_quote /\ c <> c_bslash) s.

Lemma escape_plain s : plain_str s -> escape_body s = s.
Proof.
  induction 1 as [|c s [H1 H2] Hs IH]; [done|]. rewrite escape_body_cons, IH. unfold escape_char.
  by apply eqc_neq in H1 as ->; apply eqc_neq in H2 as ->.
Qed.

Definition plan_strings (rp : ResolvedProject) (o : WritePlanOptions) : list str :=
  [wo_out o; wo_mode o; wo_target o; rp_entryTarget rp]
  ++ concat (map (fun s => [rs_path s; rs_moduleId s; rs_origin s]) (rp_sources rp))
  ++ concat (map (fun e => [e.1; e.2]) (edge_list rp))
  ++ concat (map (fun a => [ra_rel a; ra_path a; ra_moduleId a; ra_hash a]) (rp_assets rp)).

(** The plan the project describes, field by field. *)
Definition project_plan (rp : ResolvedProject) (o : WritePlanOptions) (ek : PlanEntryKind) : Plan :=
  MkPlan true (wo_out o) (wo_mode o) (wo_target o) (wo_optLevel o) ek (rp_entryTarget rp)
    (map (fun s => MkPlanSource (rs_path s) (rs_moduleId s) (rs_origin s)) (rp_sources rp))
    (map (fun e => MkPlanEdge e.1 e.2) (edge_list rp))
    (map (fun a => MkPlanAsset (ra_rel a) (ra_path a) (ra_moduleId a) (ra_hash a)) (rp_assets rp)).

Lemma Forall_concat_map {A B} (P : B -> Prop) (f : A -> list B) xs :
  Forall P (concat (map f xs)) -> Forall (fun x => Forall P (f x)) xs.
Proof. induction xs as [|x xs IH]; cbn; [constructor|]. rewrite Forall_app. intros [? ?]. constructor; auto. Qed.

Lemma map_ext_Forall {A B} (f g : A -> B) xs : Forall (fun x => f x = g x) xs -> map f xs = map g xs.
Proof. induction 1; cbn; congruence. Qed.

Lemma read_back_plain rp o ek : Forall plain_str (plan_strings rp o) -> read_back rp o ek = project_plan rp o ek.
Proof.
  unfold plan_strings. rewrite !Forall_app. intros (H1 & H2 & H3 & H4).
  apply Forall_concat_map in H2, H3, H4. unfold read_back, project_plan.
  repeat (apply Forall_cons in H1 as [? H1]). rewrite !escape_plain by done. f_equal; apply map_ext_Forall.
  - eapply Forall_impl; [exact H2|]. intros s Hs. cbn beta in Hs. repeat (apply Forall_cons in Hs as [? Hs]).
    unfold read_src. by rewrite !escape_plain.
  - eapply Forall_impl; [exact H3|]. intros s Hs. cbn beta in Hs. repeat (apply Forall_cons in Hs as [? Hs]).
    unfold read_edge. by rewrite !escape_plain.
  - eapply Forall_impl; [exact H4|]. intros s Hs. cbn beta in Hs. repeat (apply Forall_cons in Hs as [? Hs]).
    unfold read_asset. by rewrite !escape_plain.
Qed.

(** [C21] The plan contract: for every resolved project whose strings hold no
    line break, quote or backslash, with at least one source, non-empty
    source and asset paths, a legal entry kind and a non-negative int
    optimisation level, the compiler reads the text trident writes without a
    diagnostic and ends with exactly the project's rows, in order, and [ok]
    set. *)
Theorem build_plan_roundtrip rp o ek :
  plan_wf rp o ek -> Forall plain_str (plan_strings rp o) ->
  readBuildPlan (writeBuildPlan rp o) empty_sink = Some (project_plan rp o ek, empty_sink).
Proof. intros H1 H2. by rewrite (read_written rp o ek H1), read_back_plain. Qed.

(** A project of two modules with an asset, used by the witnesses. *)
Definition sample_project (path : str) : ResolvedProject :=
  MkRProject [MkRSource path (lit "app@0") (lit "workspace"); MkRSource (lit "/v/util.lev") (lit "github.com/x/util@1") (lit "store")]
    [(lit "app@0", [lit "github.com/x/util@1"])]
    [MkRAsset (lit "img/a.png") (lit "/w/img/a.png") (lit "app@0") (lit "00ff")]
    (lit "function") (lit "main").
Definition sample_options : WritePlanOptions := MkPlanOptions (lit "build/app") (lit "build") (lit "x86_64-linux") 2.

Ltac plain_strings := repeat constructor; vm_compute; discriminate.

Lemma build_plan_roundtrip_witness :
  readBuildPlan (writeBuildPlan (sample_project (lit "/w/main.lev")) sample_options) empty_sink
  = Some (project_plan (sample_project (lit "/w/main.lev")) sample_options EntryFunction, empty_sink).
Proof.
  apply (build_plan_roundtrip (sample_project (lit "/w/main.lev")) sample_options EntryFunction).
  - split; [plain_strings|by vm_compute; repeat split|done|split; [done|]; plain_strings|plain_strings|plain_strings].
  - plain_strings.
Defined.

Lemma escape_id s : escape_body s = s <-> plain_str s.
Proof.
  split; [|apply escape_plain]. intros E.
  assert (length s <= length (escape_body s) /\ (length (escape_body s) = length s -> plain_str s)) as [_ Hx];
    [|by apply Hx; rewrite E].
  clear E. induction s as [|c s [IH1 IH2]]; [split; [done|constructor]|]. rewrite escape_body_cons, length_app.
  unfold escape_char. destruct (eqc c c_quote || eqc c c_bslash) eqn:Ec; cbn [length app]; (split; [lia|]); [lia|].
  apply orb_false_elim in Ec as [E1 E2]. apply eqc_neq in E1, E2. intros. constructor; [done|]. apply IH2. lia.
Qed.

(** What a source path needs to survive the plan: [unquote] drops the
    quotes but decodes no escape, so although the plan always reads without a
    diagnostic, the compiler's source paths are the project's only when no
    path has a quote or a backslash in it. *)
Theorem build_plan_paths_need_plain rp o ek :
  plan_wf rp o ek ->
  exists pl, readBuildPlan (writeBuildPlan rp o) empty_sink = Some (pl, empty_sink) /\ ok pl = true /\
    (map ps_path (sources pl) = map rs_path (rp_sources rp) <-> Forall (fun s => plain_str (rs_path s)) (rp_sources rp)).
Proof.
  intros H. exists (read_back rp o ek). split; [by apply read_written|]. split; [done|].
  cbn [sources read_back]. rewrite map_map. clear H. induction (rp_sources rp) as [|x xs IH]; [split; constructor|].
  cbn [map ps_path read_src]. rewrite Forall_cons, <- IH, <- escape_id. split; [by intros [= E1 E2]|intros [E1 E2]; f_equal; done].
Qed.

Lemma build_plan_paths_need_plain_witness :
  let p := lit "/w/a" ++ [c_bslash] ++ lit "b.lev" in
  exists pl, readBuildPlan (writeBuildPlan (sample_project p) sample_options) empty_sink = Some (pl, empty_sink) /\
    ok pl = true /\
    (map ps_path (sources pl) = map rs_path (rp_sources (sample_project p))
     <-> Forall (fun s => plain_str (rs_path s)) (rp_sources (sample_project p))).
Proof.
  intros p. apply (build_plan_paths_need_plain (sample_project p) sample_options EntryFunction).
  split; [plain_strings|by vm_compute; repeat split|done|split; [done|]; plain_strings|plain_strings|plain_strings].
Defined.
