(* ===== verification/Toml.v ===== *)
(** * The TOML subset of the package manager

    Models the hand-rolled reader of [tools/trident/manifest.cpp]
    ([TomlReader]), which [tools/trident/lock.cpp] repeats as [LockReader], the
    document loop both parsers run, and the quoting both writers use.  The
    reader's position is the text that remains ([text.substr(i)]). *)

From S2P Require Import Prelude.

(** ** The reader *)

Definition isWs (c : ascii) : bool := eqc c c_sp || eqc c c_tab || eqc c c_cr || eqc c c_nl.
Definition isKeyChar (c : ascii) : bool := isalnum c || eqc c "_" || eqc c "-".

(** [skipWhitespaceAndComments]; the flag says the scan is inside a comment. *)
Fixpoint skip_from (comment : bool) (s : str) : str :=
  match s with
  | [] => []
  | c :: s' =>
      if comment then (if eqc c c_nl then skip_from false s' else skip_from true s')
      else if isWs c then skip_from false s'
      else if eqc c "#" then skip_from true s'
      else s
  end.
Definition skipWhitespaceAndComments (s : str) : str := skip_from false s.

Fixpoint span_chars (p : ascii -> bool) (s : str) : str * str :=
  match s with
  | c :: s' => if p c then (c :: (span_chars p s').1, (span_chars p s').2) else ([], s)
  | [] => ([], [])
  end.

Definition unescape (e : ascii) : ascii :=
  if eqc e "n" then c_nl else if eqc e "t" then c_tab else e.

(** The body of a quoted string after the opening quote: [None] when the text
    ends first. *)
Fixpoint string_body (s : str) : option (str * str) :=
  match s with
  | [] => None
  | c :: s' =>
      if eqc c c_quote then Some ([], s')
      else if eqc c c_bslash then
        match s' with
        | [] => None
        | e :: s'' => (fun r => (unescape e :: r.1, r.2)) <$> string_body s''
        end
      else (fun r => (c :: r.1, r.2)) <$> string_body s'
  end.

Section TomlReader.
Context (path text : str).

(** [line()] at the position where [rest] remains. *)
Definition line (rest : str) : Z :=
  (1 + Z.of_nat (length (filter (fun c => c = c_nl) (take (length text - length rest) text))))%Z.

Definition fail {A} (rest msg : str) : res A :=
  Err (path ++ lit ":" ++ to_string (line rest) ++ lit ": " ++ msg).

Definition peek (s : str) : ascii := char_at s 0.

Definition parseIdent (s : str) : res (str * str) :=
  let '(id, rest) := span_chars isKeyChar (skipWhitespaceAndComments s) in
  match id with [] => fail rest (lit "expected an identifier") | _ => Ok (id, rest) end.

Definition parseString (s : str) : res (str * str) :=
  let s1 := skipWhitespaceAndComments s in
  if eqc (peek s1) c_quote then
    match string_body (tail s1) with
    | Some r => Ok r
    | None => fail [] (lit "unterminated string")
    end
  else fail s1 (lit "expected a quoted string").

(** The element loop of [parseStringArray]; [out] is the vector so far. *)
Fixpoint array_loop (fuel : nat) (out : list str) (s : str) : res (list str * str) :=
  match fuel with
  | 0 => fail s (lit "expected ',' or ']' in array")
  | S f =>
      let? (v, s1) := parseString s in
      let out' := out ++ [v] in
      let s2 := skipWhitespaceAndComments s1 in
      if eqc (peek s2) "," then
        let s3 := skipWhitespaceAndComments (tail s2) in
        if eqc (peek s3) "]" then Ok (out', tail s3) else array_loop f out' s3
      else if eqc (peek s2) "]" then Ok (out', tail s2)
      else fail s2 (lit "expected ',' or ']' in array")
  end.

Definition parseStringArray (out : list str) (s : str) : res (list str * str) :=
  let s1 := skipWhitespaceAndComments s in
  if eqc (peek s1) "[" then
    let s2 := skipWhitespaceAndComments (tail s1) in
    if eqc (peek s2) "]" then Ok (out, tail s2) else array_loop (S (length s2)) out s2
  else fail s1 (lit "expected '['").

Definition parseBool (s : str) : res (bool * str) :=
  let s1 := skipWhitespaceAndComments s in
  if has_at s1 0 (lit "true") then Ok (true, drop 4 s1)
  else if has_at s1 0 (lit "false") then Ok (false, drop 5 s1)
  else fail s1 (lit "expected 'true' or 'false'").

(** [[[name]]] after the first bracket was seen. *)
Definition parse_table (what : str) (s : str) : res (str * str) :=
  let s1 := tail s in
  if eqc (peek s1) "[" then
    let? (name, s2) := parseIdent (tail s1) in
    if eqc (peek s2) "]" then
      let s3 := tail s2 in
      if eqc (peek s3) "]" then
        let s4 := tail s3 in
        if eqs name what then Ok (name, s4)
        else fail s4 (lit "unknown table '[[" ++ name ++ lit "]]' (only [[" ++ what ++ lit "]])")
      else fail s3 (lit "expected ']]'")
    else fail s2 (lit "expected ']]'")
  else fail s1 (lit "only '[[" ++ what ++ lit "]]' tables are supported").

(** [key =], with the white space after it skipped. *)
Definition parse_key (s : str) : res (str * str) :=
  let? (key, s1) := parseIdent s in
  let s2 := skipWhitespaceAndComments s1 in
  if eqc (peek s2) "=" then Ok (key, skipWhitespaceAndComments (tail s2))
  else fail s2 (lit "expected '=' after '" ++ key ++ lit "'").

(** ** The document loop

    [parseManifest] and [parseLockfile] run the same loop: array-of-table
    headers with one legal name, and [key = value] fields of the current table. *)

Section Document.
Context {A B : Type} (table : str) (on_table : A -> A) (on_field : str -> A -> str -> res (A * str)) (finish : A -> res B).

Fixpoint doc_loop (fuel : nat) (a : A) (s : str) : res B :=
  match fuel with
  | 0 => fail s []
  | S f =>
      match skipWhitespaceAndComments s with
      | [] => finish a
      | c :: s' =>
          if eqc c "[" then
            let? (_, r) := parse_table table (c :: s') in doc_loop f (on_table a) r
          else
            let? (key, s1) := parse_key (c :: s') in
            let? (a', r) := on_field key a s1 in
            doc_loop f a' r
      end
  end.

(** The loop with one more turn than characters left. *)
Definition doc_from (a : A) (s : str) : res B := doc_loop (S (length s)) a s.

End Document.

End TomlReader.

(** ** Writing *)

Definition quote (s : str) : str :=
  c_quote :: concat (map (fun c => if eqc c c_quote || eqc c c_bslash then [c_bslash; c] else [c]) s) ++ [c_quote].

Fixpoint join_quoted (l : list str) : str :=
  match l with [] => [] | [x] => quote x | x :: l' => quote x ++ lit ", " ++ join_quoted l' end.

Definition string_row (key : string) (v : str) : str := lit key ++ lit " = " ++ quote v ++ [c_nl].
Definition opt_row (key : string) (v : str) : str := match v with [] => [] | _ => string_row key v end.
Definition array_row (key : string) (l : list str) : str :=
  match l with [] => [] | _ => lit key ++ lit " = [" ++ join_quoted l ++ lit "]" ++ [c_nl] end.

(** ** The loops end: every turn consumes text *)

Lemma skip_from_length b s : length (skip_from b s) <= length s.
Proof.
  revert b. induction s as [|c s IH]; intros b; cbn; [lia|].
  pose proof (IH true). pose proof (IH false). repeat case_match; cbn; lia.
Qed.

Lemma skip_length s : length (skipWhitespaceAndComments s) <= length s.
Proof. apply skip_from_length. Qed.

Lemma span_app p s : (span_chars p s).1 ++ (span_chars p s).2 = s.
Proof. induction s as [|c s IH]; cbn; [done|]. case_match; cbn; congruence. Qed.

Lemma string_body_length s v r : string_body s = Some (v, r) -> length r < length s.
Proof.
  revert v r. induction s as [s IH] using (induction_ltof1 _ length). unfold ltof in IH.
  destruct s as [|c s]; cbn; [done|]. intros v r H. destruct (eqc c c_quote); [injection H as <- <-; lia|].
  destruct (eqc c c_bslash).
  - destruct s as [|e s]; [done|]. destruct (string_body s) as [[v' r']|] eqn:E; [|done]. injection H as <- <-.
    apply IH in E; cbn; lia.
  - destruct (string_body s) as [[v' r']|] eqn:E; [|done]. injection H as <- <-. apply IH in E; cbn; lia.
Qed.

Section Progress.
Context (path text : str).

Lemma tail_peek_length s c : eqc (peek s) c = true -> c <> c_nul -> length (tail s) < length s.
Proof. intros H Hc. apply eqc_eq in H. destruct s; cbn in *; [congruence|lia]. Qed.

Lemma parseIdent_length s v r : parseIdent path text s = Ok (v, r) -> length r < length s.
Proof.
  unfold parseIdent. pose proof (span_app isKeyChar (skipWhitespaceAndComments s)) as H.
  pose proof (skip_length s). destruct (span_chars _ _) as [id rest]; cbn in *.
  destruct id as [|c id]; [done|]. intros [= <- <-].
  apply (f_equal length) in H. cbn in H. rewrite length_app in H. lia.
Qed.

Lemma parseString_length s v r : parseString path text s = Ok (v, r) -> length r < length s.
Proof.
  unfold parseString. pose proof (skip_length s). destruct (eqc (peek _) c_quote) eqn:E; [|done].
  apply tail_peek_length in E; [|done]. destruct (string_body _) as [[v' r']|] eqn:E2; [|done].
  intros [= <- <-]. apply string_body_length in E2. lia.
Qed.

Lemma array_loop_length fuel out s v r : array_loop path text fuel out s = Ok (v, r) -> length r < length s.
Proof.
  revert out s. induction fuel as [|f IH]; intros out s; cbn [array_loop]; [done|].
  destruct (parseString path text s) as [[w s1]|] eqn:E; cbn [res_bind]; [|done].
  apply parseString_length in E. pose proof (skip_length s1).
  pose proof (skip_length (tail (skipWhitespaceAndComments s1))) as H2.
  destruct (eqc _ ",") eqn:E1.
  - apply tail_peek_length in E1; [|done]. destruct (eqc _ "]") eqn:E3.
    + apply tail_peek_length in E3; [|done]. intros [= <- <-]. lia.
    + intros H3. apply IH in H3. lia.
  - destruct (eqc _ "]") eqn:E3; [|done]. apply tail_peek_length in E3; [|done]. intros [= <- <-]. lia.
Qed.

Lemma parseStringArray_length out s v r : parseStringArray path text out s = Ok (v, r) -> length r < length s.
Proof.
  unfold parseStringArray. pose proof (skip_length s). destruct (eqc _ "[") eqn:E; [|done].
  apply tail_peek_length in E; [|done]. pose proof (skip_length (tail (skipWhitespaceAndComments s))).
  destruct (eqc _ "]") eqn:E2.
  - apply tail_peek_length in E2; [|done]. intros [= <- <-]. lia.
  - intros H3. apply array_loop_length in H3. lia.
Qed.

Lemma parseBool_length s v r : parseBool path text s = Ok (v, r) -> length r < length s.
Proof.
  unfold parseBool. pose proof (skip_length s) as H. set (s1 := skipWhitespaceAndComments s) in *.
  assert (forall w, has_at s1 0 w = true -> length w <= length s1) as Hw.
  { intros w Hw. apply eqs_eq, (f_equal length) in Hw. unfold substr in Hw. rewrite length_take in Hw.
    change (drop 0 s1) with s1 in Hw. lia. }
  destruct (has_at s1 0 (lit "true")) eqn:E1; [|destruct (has_at s1 0 (lit "false")) eqn:E2; [|done]];
    intros [= <- <-]; rewrite length_drop; apply Hw in E1 || apply Hw in E2; cbn [length lit] in *;
    unfold lit in *; cbn in *; lia.
Qed.

Lemma parse_table_length what s v r : parse_table path text what s = Ok (v, r) -> length r < length s.
Proof.
  unfold parse_table. destruct (eqc (peek (tail s)) "[") eqn:E; [|done]. apply tail_peek_length in E; [|done].
  destruct (parseIdent _ _ _) as [[n s2]|] eqn:E2; cbn [res_bind]; [|done]. apply parseIdent_length in E2.
  destruct (eqc (peek s2) "]") eqn:E3; [|done]. apply tail_peek_length in E3; [|done].
  destruct (eqc (peek (tail s2)) "]") eqn:E4; [|done]. apply tail_peek_length in E4; [|done].
  case_match; [|done]. intros [= <- <-]. assert (length (tail s) <= length s) by (destruct s; cbn; lia). lia.
Qed.

Lemma parse_key_length s v r : parse_key path text s = Ok (v, r) -> length r < length s.
Proof.
  unfold parse_key. destruct (parseIdent _ _ _) as [[n s2]|] eqn:E2; cbn [res_bind]; [|done].
  apply parseIdent_length in E2. pose proof (skip_length s2). destruct (eqc _ "=") eqn:E; [|done].
  apply tail_peek_length in E; [|done]. pose proof (skip_length (tail (skipWhitespaceAndComments s2))).
  intros [= <- <-]. lia.
Qed.

Lemma array_loop_fuel f1 f2 out s : length s < f1 -> length s < f2 ->
  array_loop path text f1 out s = array_loop path text f2 out s.
Proof.
  revert f2 out s. induction f1 as [|f1 IH]; intros [|f2] out s H1 H2; try lia. cbn [array_loop].
  destruct (parseString path text s) as [[w s1]|] eqn:E; cbn [res_bind]; [|done].
  apply parseString_length in E. pose proof (skip_length s1).
  destruct (eqc _ ",") eqn:E1; [|done]. apply tail_peek_length in E1; [|done].
  destruct (eqc _ "]"); [done|]. pose proof (skip_length (tail (skipWhitespaceAndComments s1))). apply IH; lia.
Qed.

Section DocProgress.
Context {A B : Type} (table : str) (on_table : A -> A) (on_field : str -> A -> str -> res (A * str)) (finish : A -> res B).
Hypothesis field_progress : forall key a s a' r, on_field key a s = Ok (a', r) -> length r < length s.
Abbreviation loop := (doc_loop path text table on_table on_field finish).
Abbreviation from := (doc_from path text table on_table on_field finish).

(** A result comes from the final check of some state. *)
Lemma doc_loop_finish f a s b : loop f a s = Ok b -> exists a', finish a' = Ok b.
Proof.
  revert a s. induction f as [|f IH]; intros a s; cbn [doc_loop]; [done|].
  destruct (skipWhitespaceAndComments s) as [|c s']; [eauto|].
  destruct (eqc c "[").
  - destruct (parse_table _ _ _ _) as [[? ?]|]; cbn [res_bind]; [apply IH|done].
  - destruct (parse_key _ _ _) as [[? ?]|]; cbn [res_bind]; [|done].
    destruct (on_field _ _ _) as [[? ?]|]; cbn [res_bind]; [apply IH|done].
Qed.

Lemma doc_loop_fuel f1 f2 a s : length s < f1 -> length s < f2 -> loop f1 a s = loop f2 a s.
Proof.
  revert f2 a s. induction f1 as [|f1 IH]; intros [|f2] a s H1 H2; try lia. cbn [doc_loop].
  pose proof (skip_length s). destruct (skipWhitespaceAndComments s) as [|c s']; [done|].
  destruct (eqc c "[").
  - destruct (parse_table _ _ _ _) as [[n r]|] eqn:E; cbn [res_bind]; [|done].
    apply parse_table_length in E. apply IH; lia.
  - destruct (parse_key _ _ _) as [[n r]|] eqn:E; cbn [res_bind]; [|done]. apply parse_key_length in E.
    destruct (on_field _ _ _) as [[a' r']|] eqn:E2; cbn [res_bind]; [|done].
    apply field_progress in E2. apply IH; lia.
Qed.

Lemma doc_from_fuel f a s : length s < f -> loop f a s = from a s.
Proof. intros. apply doc_loop_fuel; lia. Qed.

Lemma doc_from_nl a s : from a (c_nl :: s) = from a s.
Proof. transitivity (loop (S (S (length s))) a s); [done|]. apply doc_from_fuel. lia. Qed.

End DocProgress.

End Progress.

(** ** Reading what was written *)

Definition key_text (k : str) : Prop := k <> [] /\ Forall (fun c => isKeyChar c = true) k.

Lemma key_char_plain c : isKeyChar c = true -> isWs c = false /\ eqc c "#" = false /\ eqc c "[" = false.
Proof. each_char c; vm_compute; intros; repeat split; congruence. Qed.

Lemma skip_stop c s : isWs c = false -> eqc c "#" = false -> skipWhitespaceAndComments (c :: s) = c :: s.
Proof. intros H1 H2. unfold skipWhitespaceAndComments. cbn [skip_from]. by rewrite H1, H2. Qed.

Lemma span_key k rest : Forall (fun c => isKeyChar c = true) k -> isKeyChar (peek rest) = false ->
  span_chars isKeyChar (k ++ rest) = (k, rest).
Proof.
  intros Hk Hr. induction Hk as [|c k Hc Hk IH]; cbn [app span_chars]; [|by rewrite Hc, IH].
  destruct rest as [|c rest]; [done|]. cbn [span_chars]. change (peek (c :: rest)) with c in Hr. by rewrite Hr.
Qed.

Lemma string_body_quote s rest :
  string_body (concat (map (fun c => if eqc c c_quote || eqc c c_bslash then [c_bslash; c] else [c]) s)
               ++ c_quote :: rest) = Some (s, rest).
Proof.
  induction s as [|c s IH]; [done|]. cbn [map concat]. rewrite <- app_assoc.
  destruct (eqc c c_quote || eqc c c_bslash) eqn:E.
  - cbn [app string_body]. change (eqc c_bslash c_quote) with false. rewrite eqc_refl, IH. cbn.
    do 3 f_equal. apply orb_prop in E as [E|E]; apply eqc_eq in E as ->; done.
  - apply orb_false_elim in E as [E1 E2]. cbn [app string_body]. by rewrite E1, E2, IH.
Qed.

Lemma quote_text s rest : quote s ++ rest =
  c_quote :: concat (map (fun c => if eqc c c_quote || eqc c c_bslash then [c_bslash; c] else [c]) s) ++ c_quote :: rest.
Proof. unfold quote. cbn. by rewrite <- app_assoc. Qed.

Lemma join_quoted_head l rest : l <> [] -> exists z, join_quoted l ++ rest = c_quote :: z.
Proof.
  destruct l as [|x [|y l]]; [done|intros _; cbn [join_quoted]; rewrite quote_text; eauto|intros _].
  change (join_quoted (x :: y :: l)) with (quote x ++ lit ", " ++ join_quoted (y :: l)).
  rewrite <- app_assoc, quote_text. eauto.
Qed.

(** Compute which field a key names. *)
Ltac pick_field :=
  repeat match goal with
  | |- context [eqs (lit ?a) (lit ?b)] =>
      let v := eval vm_compute in (eqs (lit a) (lit b)) in change (eqs (lit a) (lit b)) with v
  end; cbv iota.

Section ReadBack.
Context (path text : str).

Lemma parseString_quote s rest : parseString path text (quote s ++ rest) = Ok (s, rest).
Proof. unfold parseString. rewrite quote_text, skip_stop by done. cbn [peek tail]. change (eqc (peek _) c_quote) with true. cbv iota. by rewrite string_body_quote. Qed.

Lemma array_loop_quoted l : l <> [] -> forall f out rest, length l <= f ->
  array_loop path text f out (join_quoted l ++ "]"%char :: rest) = Ok (out ++ l, rest).
Proof.
  induction l as [|x l IH]; [done|]. intros _ f out rest Hf. destruct f as [|f]; [cbn in Hf; lia|].
  cbn [array_loop]. destruct l as [|y l].
  - cbn [join_quoted]. by rewrite parseString_quote.
  - change (join_quoted (x :: y :: l)) with (quote x ++ lit ", " ++ join_quoted (y :: l)).
    rewrite <- !app_assoc, parseString_quote. cbn [res_bind]. 
    destruct (join_quoted_head (y :: l) ("]"%char :: rest)) as [z Hz]; [done|].
    rewrite Hz. change (skipWhitespaceAndComments (lit ", " ++ c_quote :: z)) with (","%char :: c_sp :: c_quote :: z).
    change (eqc (peek (","%char :: c_sp :: c_quote :: z)) ",") with true. cbv iota.
    change (skipWhitespaceAndComments (tail (","%char :: c_sp :: c_quote :: z))) with (c_quote :: z).
    change (eqc (peek (c_quote :: z)) "]") with false. cbv iota. rewrite <- Hz, IH by (done || cbn in *; lia).
    by rewrite <- app_assoc.
Qed.

Lemma join_quoted_length l : length l <= length (join_quoted l).
Proof.
  induction l as [|x l IH]; [done|]. destruct l as [|y l]; [cbn; lia|].
  change (join_quoted (x :: y :: l)) with (quote x ++ lit ", " ++ join_quoted (y :: l)).
  rewrite !length_app. cbn [length] in *. change (length (lit ", ")) with 2. lia.
Qed.

Lemma parseStringArray_quoted l out rest : l <> [] ->
  parseStringArray path text out ("["%char :: join_quoted l ++ "]"%char :: rest) = Ok (out ++ l, rest).
Proof.
  intros Hl. unfold parseStringArray. rewrite skip_stop by done.
  change (eqc (peek _) "[") with true. cbv iota. cbn [tail].
  destruct (join_quoted_head l ("]"%char :: rest)) as [z Hz]; [done|].
  rewrite Hz, skip_stop by done. change (eqc (peek (c_quote :: z)) "]") with false. cbv iota. rewrite <- Hz.
  apply array_loop_quoted; [done|]. rewrite length_app. pose proof (join_quoted_length l). lia.
Qed.

Lemma parse_key_text k v : key_text k -> parse_key path text (k ++ lit " = " ++ v) = Ok (k, skipWhitespaceAndComments v).
Proof.
  intros [Hne Hk]. unfold parse_key, parseIdent. destruct k as [|c k]; [done|].
  destruct (key_char_plain c) as (H1 & H2 & _); [by inversion Hk|]. cbn [app]. rewrite skip_stop by done.
  change (c :: k ++ lit " = " ++ v) with ((c :: k) ++ lit " = " ++ v). rewrite span_key by done. done.
Qed.

Section DocRead.
Context {A B : Type} (table : str) (on_table : A -> A) (on_field : str -> A -> str -> res (A * str)) (finish : A -> res B).
Hypothesis field_progress : forall key a s a' r, on_field key a s = Ok (a', r) -> length r < length s.
Abbreviation from := (doc_from path text table on_table on_field finish).

Lemma doc_from_key a k v a' r : key_text k ->
  on_field k a (skipWhitespaceAndComments v) = Ok (a', r) -> from a (k ++ lit " = " ++ v) = from a' r.
Proof.
  intros Hk Hf. pose proof (parse_key_text k v Hk) as Hp. pose proof Hk as [Hne Hall]. unfold doc_from at 1.
  destruct k as [|c k]; [done|]. destruct (key_char_plain c) as (H1 & H2 & H3); [by inversion Hall|].
  cbn [doc_loop]. change ((c :: k) ++ lit " = " ++ v) with (c :: k ++ lit " = " ++ v) in *.
  rewrite skip_stop, H3, Hp by done. cbn [res_bind]. rewrite Hf. cbn [res_bind]. apply doc_from_fuel; [done|].
  apply parse_key_length in Hp. apply field_progress in Hf. lia.
Qed.

Lemma doc_from_string a k v a' rest : key_text (lit k) ->
  (forall r, on_field (lit k) a (quote v ++ r) = Ok (a', r)) -> from a (string_row k v ++ rest) = from a' rest.
Proof.
  intros Hk Hf. unfold string_row. rewrite <- !app_assoc.
  rewrite (doc_from_key a _ _ a' (c_nl :: rest)); [by apply doc_from_nl|done|].
  rewrite quote_text, skip_stop, <- quote_text by done. apply Hf.
Qed.

Lemma array_row_text k l rest : l <> [] ->
  array_row k l ++ rest = lit k ++ lit " = " ++ "["%char :: join_quoted l ++ "]"%char :: c_nl :: rest.
Proof. intros Hl. destruct l; [done|]. unfold array_row. by rewrite <- !app_assoc. Qed.

Lemma doc_from_array a k l a' rest : key_text (lit k) -> (l = [] -> a' = a) ->
  (l <> [] -> forall r, on_field (lit k) a ("["%char :: join_quoted l ++ "]"%char :: r) = Ok (a', r)) ->
  from a (array_row k l ++ rest) = from a' rest.
Proof.
  intros Hk He Hf. destruct (decide (l = [])) as [->|Hl]; [by rewrite He|].
  rewrite array_row_text by done. rewrite (doc_from_key a _ _ a' (c_nl :: rest)); [by apply doc_from_nl|done|].
  rewrite skip_stop by done. by apply Hf.
Qed.

Lemma doc_from_table a rest : parse_table path text table (lit "[[" ++ table ++ lit "]]" ++ rest) = Ok (table, rest) ->
  from a (lit "[[" ++ table ++ lit "]]" ++ rest) = from (on_table a) rest.
Proof.
  intros Hp. unfold doc_from at 1. cbn [doc_loop].
  change (lit "[[" ++ table ++ lit "]]" ++ rest) with ("["%char :: "["%char :: table ++ lit "]]" ++ rest) in *.
  rewrite skip_stop by done. change (eqc "[" "[") with true. cbv iota. rewrite Hp. cbn [res_bind].
  apply doc_from_fuel; [done|]. by apply parse_table_length in Hp.
Qed.

End DocRead.

End ReadBack.

#[export] Hint Resolve parseString_length parseStringArray_length parseBool_length : lev.

(** Every branch of a field reader consumes text. *)
Ltac field_length :=
  repeat match goal with
  | |- context [eqs ?a ?b] => destruct (eqs a b)
  | |- context [res_bind ?r _] => destruct r as [[? ?]|] eqn:?; cbn [res_bind]
  end; try discriminate; intros [= <- <-]; eauto with lev.
