(* ===== verification/Manifest.v ===== *)
(** * The project manifest: trident.toml

    Models [parseManifest] and [writeManifest] of [tools/trident/manifest.cpp]
    and the data of [manifest.hpp], over the reader of [Toml].  The file system
    is outside: the writer yields the text of the file and the reader takes it.
    The theorems: reading is total (the loops always end), and what the writer
    prints is read back exactly. *)

From S2P Require Import Prelude Toml.

Inductive DepKind := Local_ | Vcs.
Record Dependency := MkDep {
  dep_path : str; dep_version : str; dep_as : str; dep_dev : bool; dep_kind : DepKind
}.
Record ProjectManifest := MkManifest {
  pm_name : str;
  pm_entry : str;
  pm_sources : list str;
  pm_assets : list str;
  pm_deps : list Dependency;
  pm_version : str;
  pm_out : str
}.

Definition empty_dep : Dependency := MkDep [] [] [] false Local_.
Definition empty_manifest : ProjectManifest := MkManifest [] [] [] [] [] [] [].

(** ** parseManifest *)

Section Parse.
Context (path text : str).

Abbreviation fail := (fail path text).
Abbreviation parseString := (parseString path text).
Abbreviation parseStringArray := (parseStringArray path text).
Abbreviation parseBool := (parseBool path text).

Fixpoint on_last {A} (f : A -> A) (l : list A) : list A :=
  match l with [] => [] | [x] => [f x] | x :: l' => x :: on_last f l' end.

Definition dep_field (key : str) (d : Dependency) (s : str) : res (Dependency * str) :=
  if eqs key (lit "path") then let? (v, r) := parseString s in Ok (MkDep v (dep_version d) (dep_as d) (dep_dev d) (dep_kind d), r)
  else if eqs key (lit "version") then let? (v, r) := parseString s in Ok (MkDep (dep_path d) v (dep_as d) (dep_dev d) (dep_kind d), r)
  else if eqs key (lit "as") then let? (v, r) := parseString s in Ok (MkDep (dep_path d) (dep_version d) v (dep_dev d) (dep_kind d), r)
  else if eqs key (lit "dev") then let? (v, r) := parseBool s in Ok (MkDep (dep_path d) (dep_version d) (dep_as d) v (dep_kind d), r)
  else fail s (lit "unknown dep field '" ++ key ++ lit "'").

Definition top_field (key : str) (m : ProjectManifest) (s : str) : res (ProjectManifest * str) :=
  let '(MkManifest n e so a d v o) := m in
  if eqs key (lit "name") then let? (x, r) := parseString s in Ok (MkManifest x e so a d v o, r)
  else if eqs key (lit "entry") then let? (x, r) := parseString s in Ok (MkManifest n x so a d v o, r)
  else if eqs key (lit "version") then let? (x, r) := parseString s in Ok (MkManifest n e so a d x o, r)
  else if eqs key (lit "out") then let? (x, r) := parseString s in Ok (MkManifest n e so a d v x, r)
  else if eqs key (lit "sources") then let? (x, r) := parseStringArray so s in Ok (MkManifest n e x a d v o, r)
  else if eqs key (lit "assets") then let? (x, r) := parseStringArray a s in Ok (MkManifest n e so x d v o, r)
  else fail s (lit "unknown manifest field '" ++ key ++ lit "'").

Definition set_deps (d : list Dependency) (m : ProjectManifest) : ProjectManifest :=
  MkManifest (pm_name m) (pm_entry m) (pm_sources m) (pm_assets m) d (pm_version m) (pm_out m).

(** A field of the current table: [curDep] is null until the first [[[dep]]],
    then points at the last dependency. *)
Definition manifest_field (key : str) (m : ProjectManifest) (s : str) : res (ProjectManifest * str) :=
  match last (pm_deps m) with
  | Some d => let? (d', r) := dep_field key d s in Ok (set_deps (on_last (fun _ => d') (pm_deps m)) m, r)
  | None => top_field key m s
  end.

Definition finish_manifest (m : ProjectManifest) : res ProjectManifest :=
  if existsb (fun d => eqs (dep_path d) []) (pm_deps m) then fail [] (lit "a [[dep]] is missing 'path'")
  else match pm_sources m with
       | [] => fail [] (lit "manifest lists no 'sources' — a project needs at least one file")
       | _ => Ok m
       end.

Definition push_dep (m : ProjectManifest) : ProjectManifest := set_deps (pm_deps m ++ [empty_dep]) m.

Definition manifest_loop : nat -> ProjectManifest -> str -> res ProjectManifest :=
  doc_loop path text (lit "dep") push_dep manifest_field finish_manifest.

End Parse.

Definition parseManifest (path text : str) : res ProjectManifest :=
  manifest_loop path text (S (length text)) empty_manifest text.

(** ** writeManifest *)

Definition dep_rows (d : Dependency) : str :=
  [c_nl] ++ lit "[[dep]]" ++ [c_nl] ++ string_row "path" (dep_path d) ++ opt_row "version" (dep_version d)
  ++ opt_row "as" (dep_as d) ++ (if dep_dev d then lit "dev = true" ++ [c_nl] else []).

Definition writeManifest (m : ProjectManifest) : str :=
  opt_row "name" (pm_name m) ++ opt_row "entry" (pm_entry m) ++ opt_row "version" (pm_version m)
  ++ opt_row "out" (pm_out m) ++ array_row "sources" (pm_sources m) ++ array_row "assets" (pm_assets m)
  ++ concat (map dep_rows (pm_deps m)).


Section Facts.
Context (path text : str).

(** Every field consumes text. *)
Lemma manifest_field_length key m s m' r : manifest_field path text key m s = Ok (m', r) -> length r < length s.
Proof.
  unfold manifest_field. destruct (last (pm_deps m)) as [d|].
  - destruct (dep_field path text key d s) as [[d' r']|] eqn:E; cbn [res_bind]; [|done]. intros [= <- <-].
    revert E. unfold dep_field. field_length.
  - unfold top_field. destruct m. field_length.
Qed.


Definition manifest_from : ProjectManifest -> str -> res ProjectManifest :=
  doc_from path text (lit "dep") push_dep (manifest_field path text) (finish_manifest path text).

Ltac key := split; [done|repeat constructor].
Ltac top_row := intros; unfold manifest_field, top_field; cbn [last pm_deps]; pick_field;
  rewrite ?parseString_quote, ?parseStringArray_quoted by done; done.

Lemma top_string m k v m' rest : key_text (lit k) -> (v = [] -> m' = m) ->
  (forall r, manifest_field path text (lit k) m (quote v ++ r) = Ok (m', r)) ->
  manifest_from m (opt_row k v ++ rest) = manifest_from m' rest.
Proof.
  intros Hk He Hf. destruct v as [|c v]; [by rewrite He|].
  by apply (doc_from_string path text); [apply manifest_field_length|done|].
Qed.

Lemma top_array m k l m' rest : key_text (lit k) -> (l = [] -> m' = m) ->
  (l <> [] -> forall r, manifest_field path text (lit k) m ("["%char :: join_quoted l ++ "]"%char :: r) = Ok (m', r)) ->
  manifest_from m (array_row k l ++ rest) = manifest_from m' rest.
Proof. intros. by apply (doc_from_array path text); [apply manifest_field_length|..]. Qed.

Lemma on_last_snoc {A} (f : A -> A) l x : on_last f (l ++ [x]) = l ++ [f x].
Proof. induction l as [|y l IH]; [done|]. cbn [app]. rewrite <- IH. by destruct l. Qed.

Lemma manifest_field_dep k m ds d s d' r : pm_deps m = ds ++ [d] ->
  dep_field path text k d s = Ok (d', r) -> manifest_field path text k m s = Ok (set_deps (ds ++ [d']) m, r).
Proof. intros Hd Hf. unfold manifest_field. rewrite Hd, last_snoc, Hf. cbn [res_bind]. by rewrite on_last_snoc. Qed.

Lemma dep_string m k v d d' ds rest :
  key_text (lit k) -> (forall r, dep_field path text (lit k) d (quote v ++ r) = Ok (d', r)) ->
  manifest_from (set_deps (ds ++ [d]) m) (string_row k v ++ rest) = manifest_from (set_deps (ds ++ [d']) m) rest.
Proof.
  intros Hk Hf. apply (doc_from_string path text); [apply manifest_field_length|done|]. intros r.
  by rewrite (manifest_field_dep _ (set_deps (ds ++ [d]) m) ds d _ d' r eq_refl (Hf r)).
Qed.

Lemma dep_opt m k v d d' ds rest :
  key_text (lit k) -> (v = [] -> d' = d) -> (forall r, dep_field path text (lit k) d (quote v ++ r) = Ok (d', r)) ->
  manifest_from (set_deps (ds ++ [d]) m) (opt_row k v ++ rest) = manifest_from (set_deps (ds ++ [d']) m) rest.
Proof. intros Hk He Hf. destruct v as [|c v]; [by rewrite He|]. by apply dep_string. Qed.

Lemma dep_dev_row b d ds m rest : dep_dev d = false ->
  manifest_from (set_deps (ds ++ [d]) m) ((if b : bool then lit "dev = true" ++ [c_nl] else []) ++ rest)
  = manifest_from (set_deps (ds ++ [MkDep (dep_path d) (dep_version d) (dep_as d) b (dep_kind d)]) m) rest.
Proof.
  intros Hb. destruct b; [|destruct d; cbn in *; by subst].
  change ((lit "dev = true" ++ [c_nl]) ++ rest) with (lit "dev" ++ lit " = " ++ lit "true" ++ c_nl :: rest).
  unfold manifest_from. erewrite (doc_from_key path text); [apply doc_from_nl|apply manifest_field_length|key|];
    [apply manifest_field_length|]. by erewrite (manifest_field_dep _ _ ds d).
Qed.

Definition as_local (d : Dependency) : Dependency :=
  MkDep (dep_path d) (dep_version d) (dep_as d) (dep_dev d) Local_.

Lemma manifest_nl m s : manifest_from m (c_nl :: s) = manifest_from m s.
Proof. apply doc_from_nl, manifest_field_length. Qed.

Lemma dep_rows_read d m rest :
  manifest_from m (dep_rows d ++ rest) = manifest_from (set_deps (pm_deps m ++ [as_local d]) m) rest.
Proof.
  unfold dep_rows. rewrite <- !app_assoc. change ([c_nl] ++ ?x) with (c_nl :: x). rewrite manifest_nl.
  transitivity (manifest_from (push_dep m) (c_nl :: string_row "path" (dep_path d) ++ opt_row "version" (dep_version d)
    ++ opt_row "as" (dep_as d) ++ (if dep_dev d then lit "dev = true" ++ [c_nl] else []) ++ rest)).
  { apply (doc_from_table path text (lit "dep")); [apply manifest_field_length|done]. }
  rewrite manifest_nl. unfold push_dep.
  rewrite (dep_string _ "path" _ empty_dep (MkDep (dep_path d) [] [] false Local_)); [|key|].
  2:{ intros r. unfold dep_field. pick_field. by rewrite parseString_quote. }
  rewrite (dep_opt _ "version" _ _ (MkDep (dep_path d) (dep_version d) [] false Local_)); [|key|by intros ->|].
  2:{ intros r. unfold dep_field. pick_field. by rewrite parseString_quote. }
  rewrite (dep_opt _ "as" _ _ (MkDep (dep_path d) (dep_version d) (dep_as d) false Local_)); [|key|by intros ->|].
  2:{ intros r. unfold dep_field. pick_field. by rewrite parseString_quote. }
  by rewrite dep_dev_row.
Qed.

Lemma all_deps_read ds m :
  manifest_from m (concat (map dep_rows ds)) = finish_manifest path text (set_deps (pm_deps m ++ map as_local ds) m).
Proof.
  revert m. induction ds as [|d ds IH]; intros m.
  - cbn. rewrite app_nil_r. by destruct m.
  - cbn [map concat]. rewrite dep_rows_read, IH. unfold set_deps. cbn. by rewrite <- app_assoc.
Qed.

Lemma manifest_read_back m :
  manifest_from empty_manifest (writeManifest m) = finish_manifest path text (set_deps (map as_local (pm_deps m)) m).
Proof.
  destruct m as [n e so a ds v o]. unfold writeManifest, empty_manifest.
  cbn [pm_name pm_entry pm_sources pm_assets pm_deps pm_version pm_out].
  rewrite (top_string _ "name" _ (MkManifest n [] [] [] [] [] [])); [|key|by intros ->|top_row].
  rewrite (top_string _ "entry" _ (MkManifest n e [] [] [] [] [])); [|key|by intros ->|top_row].
  rewrite (top_string _ "version" _ (MkManifest n e [] [] [] v [])); [|key|by intros ->|top_row].
  rewrite (top_string _ "out" _ (MkManifest n e [] [] [] v o)); [|key|by intros ->|top_row].
  rewrite (top_array _ "sources" _ (MkManifest n e so [] [] v o)); [|key|by intros ->|top_row].
  rewrite (top_array _ "assets" _ (MkManifest n e so a [] v o)); [|key|by intros ->|top_row].
  by rewrite all_deps_read.
Qed.

End Facts.

(** [C31] Manifest round trip: [parseManifest] reads what [writeManifest]
    prints back as the same manifest, whatever the strings hold (quotes,
    backslashes, line breaks and [#] included), for every manifest with a
    source and a path for each dependency; [kind] is not written and comes
    back as [Local]. *)
Theorem manifest_roundtrip path m :
  pm_sources m <> [] -> Forall (fun d => dep_path d <> []) (pm_deps m) ->
  parseManifest path (writeManifest m) = Ok (set_deps (map as_local (pm_deps m)) m).
Proof.
  intros Hs Hd. unfold parseManifest.
  change (manifest_from path (writeManifest m) empty_manifest (writeManifest m) = Ok (set_deps (map as_local (pm_deps m)) m)).
  rewrite manifest_read_back. unfold finish_manifest. cbn [pm_deps set_deps pm_sources].
  replace (existsb _ _) with false.
  - by destruct (pm_sources m).
  - symmetry. induction Hd as [|d ds H1 H2 IH]; [done|]. cbn [map existsb]. rewrite IH, orb_false_r.
    cbn. by destruct (dep_path d).
Qed.

Definition sample_manifest : ProjectManifest :=
  MkManifest (lit "app") [] [lit "main.lev"; lit "a" ++ [c_quote; c_nl] ++ lit "#b.lev"] [lit "views/**"]
    [MkDep (lit "github.com/x/json") (lit "1.2.0") (lit "Json") true Vcs; MkDep (lit "../util") [] [] false Local_]
    (lit "0.1.0") (lit "bin" ++ [c_bslash] ++ lit "app").

Lemma manifest_roundtrip_witness :
  parseManifest (lit "trident.toml") (writeManifest sample_manifest)
  = Ok (set_deps (map as_local (pm_deps sample_manifest)) sample_manifest).
Proof.
  apply (manifest_roundtrip (lit "trident.toml") sample_manifest); [done|]. repeat constructor; done.
Defined.

(** Reading is total and the result is usable: whatever the text, the
    loop of [parseManifest] ends (more turns than characters never change the
    result), and a manifest it accepts lists a source and a non-empty path
    for every dependency. *)
Theorem parseManifest_sound path text fuel :
  length text < fuel ->
  manifest_loop path text fuel empty_manifest text = parseManifest path text /\
  forall m, parseManifest path text = Ok m -> pm_sources m <> [] /\ Forall (fun d => dep_path d <> []) (pm_deps m).
Proof.
  intros Hf. split; [apply doc_loop_fuel; [apply manifest_field_length|lia|lia]|].
  intros m Hm. apply doc_loop_finish in Hm as (m0 & Hm). unfold finish_manifest in Hm.
  destruct (existsb _ _) eqn:E; [done|]. destruct (pm_sources m0) eqn:Es; [done|].
  injection Hm as <-. split; [congruence|]. apply List.Forall_forall. intros d Hd Hp.
  assert (existsb (fun d => eqs (dep_path d) []) (pm_deps m0) = true) as Hc; [|congruence].
  apply existsb_exists. exists d. by rewrite Hp.
Qed.

Lemma parseManifest_sound_witness :
  let text := lit "sources = [1]" in
  manifest_loop (lit "t") text 20 empty_manifest text = parseManifest (lit "t") text /\
  forall m, parseManifest (lit "t") text = Ok m -> pm_sources m <> [] /\ Forall (fun d => dep_path d <> []) (pm_deps m).
Proof. intros text. apply (parseManifest_sound (lit "t") text 20). vm_compute. lia. Defined.
