(* ===== verification/Semver.v ===== *)
(** * Semantic versions

    Models [tools/trident/semver.cpp] and the value types of
    [tools/trident/provider.hpp] ([ModuleId], [Version], [Require],
    [BuildListEntry]).  An [int] is a [Z]; [std::atoi] keeps glibc's
    truncation to 32 bits. *)

From S2P Require Import Prelude Manifest.

Record ModuleId := MkModuleId { mid_path : str; mid_major : Z }.
Record Version := MkVersion { major : Z; minor : Z; patch : Z }.
Record Require_ := MkRequire { req_mod : ModuleId; req_min : Version; req_as : str; req_dev : bool }.
Record BuildListEntry := MkEntry {
  ble_mod : ModuleId; selected : Version; contentHash : str; storeDir : str; requires_ : list Require_
}.

#[export] Instance ModuleId_eq_dec : EqDecision ModuleId.
Proof. solve_decision. Defined.
#[export] Instance Version_eq_dec : EqDecision Version.
Proof. solve_decision. Defined.

(** [ModuleId::operator==] and [operator<]. *)
Definition moduleId_eqb (a b : ModuleId) : bool := (mid_major a =? mid_major b)%Z && eqs (mid_path a) (mid_path b).
Definition moduleId_ltb (a b : ModuleId) : bool :=
  if negb (eqs (mid_path a) (mid_path b)) then str_ltb (mid_path a) (mid_path b)
  else (mid_major a <? mid_major b)%Z.

(** [parseUInt]: the digits from [i] on and the position after them. *)
Definition parseUInt (s : str) (i : nat) : option (Z * nat) :=
  let j := advance_while (length s) (fun k => (k <? length s)%nat && isdigit (char_at s k)) i in
  if (j =? i)%nat then None else Some (atoi (substr s i (j - i)), j).

Definition bad_version (text : str) : str :=
  lit "'" ++ text ++ lit "' is not a valid version (expected MAJOR.MINOR.PATCH, e.g. " ++ [c_quote]
    ++ lit "1.2.0" ++ [c_quote] ++ lit " or " ++ [c_quote] ++ lit "v1.2.0" ++ [c_quote] ++ lit ")".

Definition at_dot (text : str) (i : nat) : bool := (i <? length text)%nat && eqc (char_at text i) ".".

Definition parseSemVer (text : str) : res Version :=
  let i := if (0 <? length text)%nat && (eqc (char_at text 0) "v" || eqc (char_at text 0) "V") then 1 else 0 in
  match parseUInt text i with
  | Some (ma, i1) =>
      if at_dot text i1 then
        match parseUInt text (S i1) with
        | Some (mi, i2) =>
            if at_dot text i2 then
              match parseUInt text (S i2) with
              | Some (pa, i3) => if (i3 =? length text)%nat then Ok (MkVersion ma mi pa) else Err (bad_version text)
              | None => Err (bad_version text)
              end
            else Err (bad_version text)
        | None => Err (bad_version text)
        end
      else Err (bad_version text)
  | None => Err (bad_version text)
  end.

Definition formatSemVer (v : Version) : str :=
  to_string (major v) ++ lit "." ++ to_string (minor v) ++ lit "." ++ to_string (patch v).
Definition formatSemVerTag (v : Version) : str := lit "v" ++ formatSemVer v.

Definition compareSemVer (a b : Version) : Z :=
  if negb (major a =? major b)%Z then (if (major a <? major b)%Z then -1 else 1)
  else if negb (minor a =? minor b)%Z then (if (minor a <? minor b)%Z then -1 else 1)
  else if negb (patch a =? patch b)%Z then (if (patch a <? patch b)%Z then -1 else 1)
  else 0.

(** ** Reading and printing *)

Lemma parseUInt_digits s i ds rest :
  drop i s = ds ++ rest -> ds <> [] -> Forall (fun c => isdigit c = true) ds ->
  isdigit (char_at rest 0) = false -> parseUInt s i = Some (atoi ds, i + length ds).
Proof.
  intros Hd Hne Hds Hr.
  assert (length s - i = length ds + length rest) as Hl by (by rewrite <- length_drop, Hd, length_app).
  assert (0 < length ds) by (destruct ds; [done|cbn; lia]).
  assert (forall k, char_at s (i + k) = char_at (ds ++ rest) k) as Hc.
  { intros k. unfold char_at. by rewrite <- lookup_drop, Hd. }
  unfold parseUInt. rewrite (advance_while_at _ (length s) (length s) i (i + length ds)).
  - destruct (Nat.eqb_spec (i + length ds) i); [lia|]. replace (i + length ds - i) with (length ds) by lia.
    unfold substr. by rewrite Hd, take_app_length.
  - intros j Hj. bool_hyps. done.
  - lia.
  - lia.
  - rewrite Hc. rewrite <- (Nat.add_0_r (length ds)) at 2. rewrite char_at_app_r, Hr. apply andb_false_r.
  - intros j Hj. replace j with (i + (j - i)) by lia. rewrite Hc, char_at_app_l by lia.
    apply andb_true_intro. split; [apply Nat.ltb_lt; lia|]. unfold char_at.
    destruct (lookup_lt_is_Some_2 ds (j - i)) as [x Hx]; [lia|]. rewrite Hx.
    rewrite Forall_lookup in Hds. by eapply Hds.
Qed.

(** Three digit runs separated by dots, with an optional [v]. *)
Definition version_text (pre a b c : str) : str := pre ++ a ++ "."%char :: b ++ "."%char :: c.

Definition digit_run (d : str) : Prop := d <> [] /\ Forall (fun c => isdigit c = true) d.

Lemma parseSemVer_text pre a b c :
  In pre [[]; lit "v"; lit "V"] -> digit_run a -> digit_run b -> digit_run c ->
  parseSemVer (version_text pre a b c) = Ok (MkVersion (atoi a) (atoi b) (atoi c)).
Proof.
  intros Hpre [Ha1 Ha2] [Hb1 Hb2] [Hc1 Hc2]. unfold parseSemVer, version_text.
  set (text := pre ++ a ++ "."%char :: b ++ "."%char :: c).
  assert (drop (length pre) text = a ++ "."%char :: b ++ "."%char :: c) as H1 by apply drop_app_length.
  replace (if _ && _ then 1 else 0) with (length pre).
  2:{ cbn in Hpre. destruct_or! Hpre; subst pre; [|done|done]. subst text. destruct a as [|x a]; [done|].
      assert (eqc x "v" = false /\ eqc x "V" = false) as [E1 E2].
      { assert (isdigit x = true) as Hx by by inversion Ha2. revert Hx. each_char x; vm_compute; intros; split; congruence. }
      cbn [app length Nat.ltb Nat.leb]. change (char_at (x :: ?y) 0) with x. by rewrite E1, E2. }
  rewrite (parseUInt_digits text _ a _ H1) by done.
  assert (drop (length pre + length a) text = "."%char :: b ++ "."%char :: c) as H2.
  { rewrite <- drop_drop, H1. apply drop_app_length. }
  assert (drop (S (length pre + length a)) text = b ++ "."%char :: c) as H3.
  { rewrite <- Nat.add_1_r, <- drop_drop, H2. done. }
  assert (forall i rest, drop i text = "."%char :: rest -> at_dot text i = true) as Hdot.
  { intros i rest Hi. unfold at_dot. assert (length (drop i text) = length text - i) as Hl by apply length_drop.
    rewrite Hi in Hl. cbn in Hl. unfold char_at. rewrite <- (Nat.add_0_r i), <- lookup_drop, Nat.add_0_r, Hi.
    apply andb_true_intro. split; [apply Nat.ltb_lt; lia|done]. }
  rewrite (Hdot _ _ H2), (parseUInt_digits text _ b _ H3) by done.
  assert (drop (S (length pre + length a) + length b) text = "."%char :: c) as H4.
  { rewrite <- drop_drop, H3. apply drop_app_length. }
  rewrite (Hdot _ _ H4).
  assert (drop (S (S (length pre + length a) + length b)) text = c ++ []) as H5.
  { rewrite app_nil_r, <- Nat.add_1_r, <- drop_drop, H4. done. }
  rewrite (parseUInt_digits text _ c [] H5) by done.
  destruct (Nat.eqb_spec (S (S (length pre + length a) + length b) + length c) (length text)) as [|Hn]; [done|].
  exfalso. apply Hn. subst text. rewrite !length_app. cbn. rewrite length_app. cbn. lia.
Qed.

(** ** Ordering *)

Definition version_lt (a b : Version) : Prop :=
  (major a < major b \/ (major a = major b /\ (minor a < minor b \/ (minor a = minor b /\ patch a < patch b))))%Z.

Lemma compareSemVer_lt a b : (compareSemVer a b < 0)%Z <-> version_lt a b.
Proof.
  unfold compareSemVer, version_lt.
  destruct (Z.eqb_spec (major a) (major b)), (Z.eqb_spec (minor a) (minor b)), (Z.eqb_spec (patch a) (patch b)); cbn [negb];
  repeat match goal with |- context [Z.ltb ?x ?y] => destruct (Z.ltb_spec x y) end; lia.
Qed.

Lemma compareSemVer_eq a b : compareSemVer a b = 0%Z <-> a = b.
Proof.
  unfold compareSemVer. destruct a as [a1 a2 a3], b as [b1 b2 b3]; cbn [major minor patch].
  split; [|intros [= -> -> ->]; by rewrite !Z.eqb_refl].
  destruct (Z.eqb_spec a1 b1), (Z.eqb_spec a2 b2), (Z.eqb_spec a3 b3); cbn [negb];
  repeat match goal with |- context [Z.ltb ?x ?y] => destruct (Z.ltb_spec x y) end; intros; subst; (done || lia).
Qed.

Lemma compareSemVer_antisym a b : compareSemVer b a = (- compareSemVer a b)%Z.
Proof.
  unfold compareSemVer.
  destruct (Z.eqb_spec (major a) (major b)), (Z.eqb_spec (minor a) (minor b)), (Z.eqb_spec (patch a) (patch b));
  destruct (Z.eqb_spec (major b) (major a)), (Z.eqb_spec (minor b) (minor a)), (Z.eqb_spec (patch b) (patch a)); cbn [negb]; try lia;
  repeat match goal with |- context [Z.ltb ?x ?y] => destruct (Z.ltb_spec x y) end; lia.
Qed.

(** [a <= b] in the version order, as MVS tests it. *)
Definition version_le (a b : Version) : Prop := (compareSemVer a b <= 0)%Z.

Lemma version_le_refl a : version_le a a.
Proof. unfold version_le. by rewrite (proj2 (compareSemVer_eq a a)). Qed.

Lemma version_le_trans a b c : version_le a b -> version_le b c -> version_le a c.
Proof.
  assert (forall x y, version_le x y <-> version_lt x y \/ x = y) as H.
  { intros x y. unfold version_le. rewrite <- compareSemVer_lt, <- compareSemVer_eq. lia. }
  rewrite !H. unfold version_lt. intros [H1| ->] [H2| ->]; auto. left. lia.
Qed.

Lemma version_le_antisym a b : version_le a b -> version_le b a -> a = b.
Proof. unfold version_le. rewrite (compareSemVer_antisym a b). intros. apply compareSemVer_eq. lia. Qed.

Lemma version_le_total a b : version_le a b \/ version_le b a.
Proof. unfold version_le. rewrite (compareSemVer_antisym a b). lia. Qed.

Lemma compare_pos a b : (0 <? compareSemVer a b)%Z = true <-> ~ version_le a b.
Proof. unfold version_le. rewrite Z.ltb_lt. lia. Qed.

#[export] Hint Resolve version_le_refl version_le_trans : lev.

#[export] Instance moduleId_order : StrictOrder ModuleId moduleId_ltb.
Proof.
  split.
  - intros a. unfold moduleId_ltb. by rewrite eqs_refl, Z.ltb_irrefl.
  - intros [p1 m1] [p2 m2] [p3 m3]. unfold moduleId_ltb; cbn [mid_path mid_major].
    destruct (eqs p1 p2) eqn:E1, (eqs p2 p3) eqn:E2; cbn [negb];
      repeat match goal with H : eqs _ _ = true |- _ => apply eqs_eq in H; subst end.
    + rewrite eqs_refl; cbn [negb]. rewrite !Z.ltb_lt. lia.
    + rewrite E2. cbn [negb]. auto.
    + rewrite E1. cbn [negb]. auto.
    + intros H1 H2. pose proof (lt_trans str_ltb _ _ _ H1 H2) as H3.
      destruct (eqs p1 p3) eqn:E3; [|done]. apply eqs_eq in E3; subst. by rewrite (lt_irrefl str_ltb) in H3.
  - intros [p1 m1] [p2 m2]. unfold moduleId_ltb; cbn [mid_path mid_major].
    destruct (eqs p1 p2) eqn:E1; cbn [negb].
    + apply eqs_eq in E1; subst. rewrite eqs_refl. cbn [negb]. rewrite !Z.ltb_ge. intros. f_equal. lia.
    + destruct (eqs p2 p1) eqn:E2; cbn [negb].
      { apply eqs_eq in E2; subst. by rewrite eqs_refl in E1. }
      intros H1 H2. pose proof (lt_total str_ltb _ _ H1 H2). subst. by rewrite eqs_refl in E1.
Qed.

(** ** Properties *)

Definition version_ok (v : Version) : Prop :=
  (0 <= major v < 2 ^ 31 /\ 0 <= minor v < 2 ^ 31 /\ 0 <= patch v < 2 ^ 31)%Z.

Lemma to_string_run z : (0 <= z)%Z -> digit_run (to_string z).
Proof.
  intros H. unfold to_string. destruct (Z.ltb_spec z 0); [lia|]. destruct (dec_nat_spec z H) as (? & _ & ?). by split.
Qed.

Lemma parse_format pre v : In pre [[]; lit "v"; lit "V"] -> version_ok v -> parseSemVer (pre ++ formatSemVer v) = Ok v.
Proof.
  intros Hp (H1 & H2 & H3).
  change (pre ++ formatSemVer v) with (version_text pre (to_string (major v)) (to_string (minor v)) (to_string (patch v))).
  rewrite parseSemVer_text by (done || (apply to_string_run; lia)).
  rewrite !atoi_to_string by (split; cbn; lia). by destruct v.
Qed.

(** Version round trip: both spellings the package manager prints, the
    bare [MAJOR.MINOR.PATCH] and the git tag with a [v], are read back as the
    version they were printed from, for all components a non-negative [int]
    holds. *)
Theorem semver_roundtrip v : version_ok v ->
  parseSemVer (formatSemVer v) = Ok v /\ parseSemVer (formatSemVerTag v) = Ok v.
Proof.
  intros H. split; [apply (parse_format [])|apply (parse_format (lit "v"))]; cbn; auto.
Qed.

Lemma semver_roundtrip_witness :
  parseSemVer (formatSemVer (MkVersion 1 20 2147483647)) = Ok (MkVersion 1 20 2147483647) /\
  parseSemVer (formatSemVerTag (MkVersion 1 20 2147483647)) = Ok (MkVersion 1 20 2147483647).
Proof. apply (semver_roundtrip (MkVersion 1 20 2147483647)). repeat split; cbn; lia. Defined.

Lemma parseUInt_inv s i z j : parseUInt s i = Some (z, j) ->
  exists ds, digit_run ds /\ z = atoi ds /\ j = i + length ds /\ drop i s = ds ++ drop j s.
Proof.
  unfold parseUInt. set (cond := fun k => _).
  destruct (advance_while_spec cond (length s) (length s) i) as (H1 & _ & H3 & H4).
  { intros k Hk. unfold cond in Hk. bool_hyps. done. }
  { lia. }
  set (q := advance_while (length s) cond i) in *. destruct (Nat.eqb_spec q i); [done|]. intros [= <- <-].
  assert (i < length s) as Hi. { specialize (H3 i ltac:(lia)). unfold cond in H3. bool_hyps. done. }
  exists (substr s i (q - i)).
  assert (length (substr s i (q - i)) = q - i) as Hl by (unfold substr; rewrite length_take, length_drop; lia).
  repeat split.
  - intros E. rewrite E in Hl. cbn in Hl. lia.
  - apply Forall_lookup. intros k c Hk. assert (k < q - i) by (apply lookup_lt_Some in Hk; lia).
    unfold substr in Hk. rewrite lookup_take_lt, lookup_drop in Hk by lia.
    specialize (H3 (i + k) ltac:(lia)). unfold cond, char_at in H3. rewrite Hk in H3. bool_hyps. done.
  - rewrite Hl. lia.
  - unfold substr. rewrite <- (take_drop (q - i) (drop i s)) at 1. rewrite drop_drop. do 2 f_equal. lia.
Qed.

Lemma at_dot_inv s i : at_dot s i = true -> drop i s = "."%char :: drop (S i) s.
Proof.
  unfold at_dot. intros H. bool_hyps. match goal with H : eqc _ _ = true |- _ => apply eqc_eq in H end.
  destruct (lookup_lt_is_Some_2 s i) as [c Hc]; [done|]. rewrite (drop_S _ _ _ Hc). f_equal.
  unfold char_at in *. by rewrite Hc in *.
Qed.

(** What [parseSemVer] accepts: exactly an optional [v] or [V] and three
    non-empty digit runs separated by dots, nothing before, between or after
    them; each component is the [atoi] of its run. *)
Theorem parseSemVer_accepts text v :
  parseSemVer text = Ok v <->
  exists pre a b c, In pre [[]; lit "v"; lit "V"] /\ digit_run a /\ digit_run b /\ digit_run c /\
    text = version_text pre a b c /\ v = MkVersion (atoi a) (atoi b) (atoi c).
Proof.
  split; [|intros (pre & a & b & c & Hp & Ha & Hb & Hc & -> & ->); by apply parseSemVer_text].
  unfold parseSemVer. set (i := if _ && _ then 1 else 0).
  assert (exists pre, In pre [[]; lit "v"; lit "V"] /\ text = pre ++ drop i text) as (pre & Hpre & Ht).
  { subst i. destruct text as [|x text]; [exists []; cbn; auto|]. cbn [length Nat.ltb Nat.leb andb].
    change (char_at (x :: text) 0) with x. destruct (eqc x "v") eqn:E1; cbn [orb].
    - apply eqc_eq in E1 as ->. exists (lit "v"). cbn. auto.
    - destruct (eqc x "V") eqn:E2; [|exists []; cbn; auto]. apply eqc_eq in E2 as ->. exists (lit "V"). cbn. auto. }
  destruct (parseUInt text i) as [[ma i1]|] eqn:P1; [|done]. destruct (at_dot text i1) eqn:D1; [|done].
  destruct (parseUInt text (S i1)) as [[mi i2]|] eqn:P2; [|done]. destruct (at_dot text i2) eqn:D2; [|done].
  destruct (parseUInt text (S i2)) as [[pa i3]|] eqn:P3; [|done].
  destruct (Nat.eqb_spec i3 (length text)) as [->|]; [|done]. intros [= <-].
  apply parseUInt_inv in P1 as (a & Ha & -> & -> & E1). apply parseUInt_inv in P2 as (b & Hb & -> & -> & E2).
  apply parseUInt_inv in P3 as (c & Hc & -> & _ & E3). apply at_dot_inv in D1, D2.
  exists pre, a, b, c. repeat (split; [done|]). split; [|done].
  unfold version_text. rewrite Ht. f_equal. rewrite E1, D1. do 2 f_equal. rewrite E2, D2. do 2 f_equal.
  rewrite E3, drop_all. apply app_nil_r.
Qed.

(** The components are not range-checked: a major that does not fit an
    [int] is accepted and read modulo 2^32, so [4294967298.0.0] and [2.0.0]
    are the same version. *)
Theorem semver_major_wraps n : (0 <= n < 2 ^ 63)%Z ->
  parseSemVer (to_string n ++ lit ".0.0") = Ok (MkVersion (wrap_s 32 n) 0 0).
Proof.
  intros H. change (to_string n ++ lit ".0.0") with (version_text [] (to_string n) (lit "0") (lit "0")).
  rewrite parseSemVer_text; [|cbn; auto|apply to_string_run; lia|split; [done|repeat constructor]|split; [done|repeat constructor]].
  change (atoi (lit "0")) with 0%Z. do 2 f_equal. unfold atoi, atoll, clamp. rewrite strtol10_to_string.
  by rewrite Z.min_r, Z.max_r by lia.
Qed.

Lemma semver_major_wraps_witness :
  (4294967298 < 2 ^ 63)%Z /\
  parseSemVer (to_string 4294967298 ++ lit ".0.0") = Ok (MkVersion (wrap_s 32 4294967298) 0 0).
Proof. split; [done|]. apply (semver_major_wraps 4294967298). lia. Defined.
