(* ===== verification/Mvs.v ===== *)
(** * Minimal version selection

    Models [tools/trident/mvs.cpp]: [dependencyToRequire], [expandRequires],
    the work-list loop of [selectVersions] and the iterative three-colour
    depth-first search of [findRequireCycle].  The module provider
    ([tools/trident/provider.hpp]) is an interface: everything is proved for
    any provider that answers the same question the same way. *)

From S2P Require Import Prelude Manifest Semver.

(** The seam to the package sources: only [manifestOf] is used here. *)
Class ModuleProvider := { manifestOf : ModuleId -> Version -> res ProjectManifest }.

Definition dependencyToRequire (d : Dependency) : res Require_ :=
  match parseSemVer (dep_version d) with
  | Err e => Err (lit "dependency '" ++ dep_path d ++ lit "': " ++ e)
  | Ok v =>
      let identityMajor := if (major v <=? 1)%Z then 1%Z else major v in
      Ok (MkRequire (MkModuleId (dep_path d) identityMajor) v (dep_as d) (dep_dev d))
  end.

Fixpoint expand_deps (deps : list Dependency) : res (list Require_) :=
  match deps with
  | [] => Ok []
  | d :: deps' => let? r := dependencyToRequire d in let? rs := expand_deps deps' in Ok (r :: rs)
  end.
Definition expandRequires (pm : ProjectManifest) : res (list Require_) := expand_deps (pm_deps pm).

Definition renderSelected (e : BuildListEntry) : str := mid_path (ble_mod e) ++ lit "@" ++ formatSemVer (selected e).

(** ** findRequireCycle *)

Inductive Color := White | Gray | Black.
#[export] Instance Color_eq_dec : EqDecision Color.
Proof. solve_decision. Defined.

Record Frame := MkFrame { entryIndex : nat; nextEdge : nat }.

(** The search state; the head of [stack] is [stack.back()]. *)
Record Dfs := MkDfs { color : list Color; dpath : list nat; pathPosition : list nat; stack : list Frame }.

Inductive DfsStep := Continue (d : Dfs) | Found (cycle : str).

Section Cycle.
Context (entries : list BuildListEntry).

Definition emplace_index (acc : list (ModuleId * nat)) (ie : nat * BuildListEntry) : list (ModuleId * nat) :=
  omap_emplace moduleId_ltb (ble_mod ie.2) ie.1 acc.
Definition indexByModule : list (ModuleId * nat) :=
  fold_left emplace_index (combine (seq 0 (length entries)) entries) [].

Definition edges_of (i : nat) : list Require_ := match entries !! i with Some e => requires_ e | None => [] end.
Definition render_at (i : nat) : str := match entries !! i with Some e => renderSelected e | None => [] end.

(** [color[i] = Gray; pathPosition[i] = path.size(); path.push_back(i);
    stack.push_back({i, 0})] *)
Definition enter (i : nat) (d : Dfs) : Dfs :=
  MkDfs (<[i := Gray]> (color d)) (dpath d ++ [i]) (<[i := length (dpath d)]> (pathPosition d)) (MkFrame i 0 :: stack d).

Fixpoint join_arrow (acc : str) (names : list str) : str :=
  match names with
  | [] => acc
  | n :: names' => join_arrow (match acc with [] => n | _ => acc ++ lit " -> " ++ n end) names'
  end.

Definition is_color (c : Color) (i : nat) (d : Dfs) : bool := bool_decide (color d !! i = Some c).

(** One turn of the inner [while] loop with a non-empty stack. *)
Definition dfs_step (f : Frame) (below : list Frame) (d : Dfs) : DfsStep :=
  match edges_of (entryIndex f) !! nextEdge f with
  | None =>
      Continue (MkDfs (<[entryIndex f := Black]> (color d)) (removelast (dpath d))
                  (<[entryIndex f := length entries]> (pathPosition d)) below)
  | Some edge =>
      let d1 := MkDfs (color d) (dpath d) (pathPosition d) (MkFrame (entryIndex f) (S (nextEdge f)) :: below) in
      match omap_find moduleId_ltb (req_mod edge) indexByModule with
      | None => Continue d1
      | Some t =>
          if is_color White t d then Continue (enter t d1)
          else if is_color Gray t d then
            let from := match pathPosition d !! t with Some p => p | None => 0 end in
            Found (join_arrow [] (map render_at (drop from (dpath d))) ++ lit " -> " ++ render_at t)
          else Continue d1
      end
  end.

(** The inner loop; [None] when the bound on the turns is reached. *)
Fixpoint dfs_loop (fuel : nat) (d : Dfs) : option (Dfs + str) :=
  match stack d with
  | [] => Some (inl d)
  | f :: below =>
      match fuel with
      | 0 => None
      | S n => match dfs_step f below d with
               | Continue d' => dfs_loop n d'
               | Found c => Some (inr c)
               end
      end
  end.

(** Every turn pops a frame or consumes an edge. *)
Definition dfs_fuel : nat := list_sum (map (fun e => S (length (requires_ e))) entries).

Fixpoint dfs_starts (starts : list nat) (d : Dfs) : option str :=
  match starts with
  | [] => Some []
  | s :: starts' =>
      if is_color White s d then
        match dfs_loop dfs_fuel (enter s d) with
        | None => None
        | Some (inr c) => Some c
        | Some (inl d') => dfs_starts starts' d'
        end
      else dfs_starts starts' d
  end.

Definition init_dfs : Dfs :=
  MkDfs (replicate (length entries) White) [] (replicate (length entries) (length entries)) [].

Definition findRequireCycle : option str := dfs_starts (seq 0 (length entries)) init_dfs.

End Cycle.

(** ** selectVersions *)

Record MvsResult := MkMvsResult { mvs_ok : bool; buildList : list BuildListEntry; mvs_err : str }.

Definition kMaxSteps : nat := N.to_nat 100000.

Definition Entries := list (ModuleId * BuildListEntry).

Definition set_selected (v : Version) (e : BuildListEntry) : BuildListEntry :=
  MkEntry (ble_mod e) v (contentHash e) (storeDir e) (requires_ e).
Definition set_requires (rs : list Require_) (e : BuildListEntry) : BuildListEntry :=
  MkEntry (ble_mod e) (selected e) (contentHash e) (storeDir e) rs.

Section Select.
Context {MP : ModuleProvider}.

(** The entry that needs its manifest fetched for requirement [r], if any. *)
Definition needFetch (r : Require_) (entries : Entries) : option BuildListEntry :=
  match omap_find moduleId_ltb (req_mod r) entries with
  | None => Some (MkEntry (req_mod r) (req_min r) [] [] [])
  | Some e => if (0 <? compareSemVer (req_min r) (selected e))%Z then Some (set_selected (req_min r) e) else None
  end.

(** One turn of the work-list loop. *)
Definition mvs_step (r : Require_) (entries : Entries) : res (Entries * list Require_) :=
  match needFetch r entries with
  | None => Ok (entries, [])
  | Some e =>
      let name := mid_path (ble_mod e) ++ lit "@" ++ formatSemVer (selected e) in
      match manifestOf (ble_mod e) (selected e) with
      | Err err => Err (lit "cannot resolve " ++ name ++ lit ": " ++ err)
      | Ok pm =>
          match expandRequires pm with
          | Err err => Err (lit "dependency '" ++ name ++ lit "': " ++ err)
          | Ok subs => Ok (omap_set moduleId_ltb (req_mod r) (set_requires subs e) entries, subs)
          end
      end
  end.

(** [steps] is what is left of [kMaxSteps]. *)
Fixpoint mvs_loop (steps : nat) (queue : list Require_) (entries : Entries) : res Entries :=
  match queue with
  | [] => Ok entries
  | r :: queue' =>
      match steps with
      | 0 => Err (lit "MVS did not converge (exceeded " ++ to_string (Z.of_nat kMaxSteps) ++
                  lit " steps) — check for a provider returning ever-increasing versions")
      | S n => let? (entries', subs) := mvs_step r entries in mvs_loop n (queue' ++ subs) entries'
      end
  end.

Definition selectVersions (rootRequires : list Require_) : MvsResult :=
  match mvs_loop kMaxSteps rootRequires [] with
  | Err e => MkMvsResult false [] e
  | Ok entries =>
      let bl := map snd entries in
      match findRequireCycle bl with
      | Some [] => MkMvsResult true bl []
      | Some cycle =>
          MkMvsResult false bl (lit "require cycle detected: " ++ cycle ++
            lit " — the external dependency graph must be acyclic; break the cycle by removing one of these modules' requires on the other")
      | None => MkMvsResult false bl []
      end
  end.

End Select.
