(* ===== verification/MvsCycle.v ===== *)
(** * Cycle detection in the build list

    [findRequireCycle] always returns, answers the empty string exactly when
    the recorded require graph is acyclic, and otherwise renders a real cycle. *)

From stdpp Require Import relations.
From S2P Require Import Prelude Manifest Semver Mvs.

Section CycleFacts.
Context (entries : list BuildListEntry).
Abbreviation n := (length entries).

(** The edge relation the search walks: [i] requires the module of [j]. *)
Definition requires_edge (i j : nat) : Prop :=
  exists r, In r (edges_of entries i) /\ omap_find moduleId_ltb (req_mod r) (indexByModule entries) = Some j.

Definition acyclic : Prop := forall i, ~ tc requires_edge i i.

Lemma index_range k j : omap_find moduleId_ltb k (indexByModule entries) = Some j -> j < n.
Proof.
  assert (forall l acc, (forall k j, omap_find moduleId_ltb k acc = Some j -> j < n) ->
    (forall i e, In (i, e) l -> i < n) ->
    forall k j, omap_find moduleId_ltb k (fold_left emplace_index l acc) = Some j -> j < n) as H.
  { induction l as [|[i e] l IH]; intros acc Ha Hl; cbn [fold_left]; [done|]. apply IH.
    - intros k' j'. unfold emplace_index, omap_emplace. cbn [fst snd].
      destruct (omap_find _ (ble_mod e) acc); [apply Ha|]. rewrite (omap_find_set moduleId_ltb).
      destruct (keq _ _ _); [intros [= <-]; eapply Hl; by left|apply Ha].
    - intros i' e' Hi. eapply Hl. by right. }
  apply H; [done|]. intros i e Hi. apply in_combine_l, in_seq in Hi. lia.
Qed.

Lemma edge_range i j : requires_edge i j -> i < n /\ j < n.
Proof.
  intros (r & Hr & Hf). split; [|by eapply index_range]. unfold edges_of in Hr.
  destruct (entries !! i) eqn:E; [|done]. by apply lookup_lt_Some in E.
Qed.

(** Finished vertices, the last finished first: successors were finished before. *)
Fixpoint topo (fin : list nat) : Prop :=
  match fin with [] => True | i :: b => (forall t, requires_edge i t -> In t b) /\ topo b end.

Lemma topo_closed fin i t : topo fin -> In i fin -> tc requires_edge i t -> In t fin.
Proof.
  intros Ht. assert (forall i t, In i fin -> requires_edge i t -> In t fin) as H1.
  { clear i t. induction fin as [|x fin IH]; [done|]. destruct Ht as [H Ht]. intros i t [->|Hi] He; right; eauto. }
  intros Hi Htc. revert Hi. induction Htc; eauto.
Qed.

Lemma topo_acyclic fin i : topo fin -> In i fin -> ~ tc requires_edge i i.
Proof.
  induction fin as [|x fin IH]; [done|]. intros [H Ht] Hi Hc.
  assert (In i fin -> False) as Hno by (intros Hf; by apply IH).
  destruct Hi as [->|Hi]; [|auto]. apply Hno. inversion Hc; subst; [by apply H|].
  eapply topo_closed; [done| |done]. by apply H.
Qed.

(** The edges a frame has passed lead to finished vertices or to [child]. *)
Definition passed (fin : list nat) (child : option nat) (f : Frame) : Prop :=
  nextEdge f <= length (edges_of entries (entryIndex f)) /\
  forall k r t, k < nextEdge f -> edges_of entries (entryIndex f) !! k = Some r ->
    omap_find moduleId_ltb (req_mod r) (indexByModule entries) = Some t -> In t fin \/ child = Some t.

Fixpoint frames_ok (fin : list nat) (child : option nat) (st : list Frame) : Prop :=
  match st with
  | [] => True
  | f :: below => passed fin child f /\ (forall c, child = Some c -> requires_edge (entryIndex f) c) /\
                  frames_ok fin (Some (entryIndex f)) below
  end.

Record dfs_inv (fin : list nat) (d : Dfs) : Prop := {
  di_color : length (color d) = n;
  di_pos : length (pathPosition d) = n;
  di_path : dpath d = reverse (map entryIndex (stack d));
  di_nodup : NoDup (dpath d);
  di_gray : forall i, color d !! i = Some Gray <-> In i (dpath d);
  di_black : forall i, color d !! i = Some Black <-> In i fin;
  di_position : forall k i, dpath d !! k = Some i -> pathPosition d !! i = Some k;
  di_frames : frames_ok fin None (stack d);
  di_topo : topo fin
}.

Lemma frames_mono fin fin' child st :
  (forall x, In x fin -> In x fin') -> frames_ok fin child st -> frames_ok fin' child st.
Proof.
  intros Hf. revert child. induction st as [|f st IH]; [done|]. cbn. intros child ([H1 H2] & H3 & H4).
  split; [|auto]. split; [done|]. intros k r t Hk Hr Ht. destruct (H2 k r t Hk Hr Ht); auto.
Qed.

Lemma frames_finish fin c st : frames_ok fin (Some c) st -> frames_ok (c :: fin) None st.
Proof.
  destruct st as [|f st]; [done|]. cbn. intros ([H1 H2] & _ & H4). repeat split; [done| |done|].
  - intros k r t Hk Hr Ht. left. destruct (H2 k r t Hk Hr Ht) as [?|[= <-]]; cbn; auto.
  - eapply frames_mono; [|exact H4]. intros x ?. by right.
Qed.

Lemma white_or fin d i : dfs_inv fin d -> i < n ->
  color d !! i = Some White \/ color d !! i = Some Gray \/ color d !! i = Some Black.
Proof.
  intros HI Hi. destruct (lookup_lt_is_Some_2 (color d) i) as [[] Hc]; [rewrite (di_color _ _ HI); lia|auto..].
Qed.

Lemma color_insert d i c j : i < length (color d) ->
  <[i := c]> (color d) !! j = if decide (i = j) then Some c else color d !! j.
Proof.
  intros Hi. destruct (decide (i = j)) as [->|]; [by apply list_lookup_insert_eq|by apply list_lookup_insert_ne].
Qed.

(** Entering a white vertex. *)
Lemma enter_inv fin d i st' :
  dfs_inv fin d -> color d !! i = Some White -> i < n ->
  map entryIndex st' = map entryIndex (stack d) -> frames_ok fin (Some i) st' ->
  dfs_inv fin (enter i (MkDfs (color d) (dpath d) (pathPosition d) st')).
Proof.
  intros [H1 H2 H3 H4 H5 H6 H7 H8 H9] Hw Hi Hst Hfr. unfold enter. cbn [color dpath pathPosition stack].
  assert (~ In i (dpath d)) as Hni by (rewrite <- H5; congruence).
  split; cbn [color dpath pathPosition stack].
  - by rewrite length_insert.
  - by rewrite length_insert.
  - cbn [map entryIndex]. rewrite reverse_cons, Hst, <- H3. done.
  - apply NoDup_app. repeat split; [done| |apply NoDup_singleton]. intros x Hx Hx2. apply list_elem_of_singleton in Hx2 as ->.
    by apply Hni, list_elem_of_In.
  - intros j. rewrite color_insert by lia. rewrite in_app_iff. cbn. destruct (decide (i = j)) as [->|]; [by split; auto|].
    rewrite H5. split; [auto|]. by intros [?|[?|[]]].
  - intros j. rewrite color_insert by lia. destruct (decide (i = j)) as [->|]; [|apply H6].
    rewrite <- H6. split; [done|congruence].
  - intros k j Hk. apply lookup_app_Some in Hk as [Hk|[Hl Hk]].
    + rewrite list_lookup_insert_ne; [by apply H7|]. intros ->. apply Hni. by eapply list_elem_of_In, list_elem_of_lookup_2.
    + destruct (k - length (dpath d)) as [|k'] eqn:E; [|done]. cbn in Hk. injection Hk as <-.
      rewrite list_lookup_insert_eq by lia. f_equal. lia.
  - cbn [frames_ok]. split; [|done]. split; [apply Nat.le_0_l|]. intros k r t Hk. cbn in Hk. exfalso. lia.
  - done.
Qed.

(** Leaving a vertex whose edges are all passed. *)
Lemma leave_inv fin d f below :
  dfs_inv fin d -> stack d = f :: below -> edges_of entries (entryIndex f) !! nextEdge f = None ->
  dfs_inv (entryIndex f :: fin)
    (MkDfs (<[entryIndex f := Black]> (color d)) (removelast (dpath d)) (<[entryIndex f := n]> (pathPosition d)) below).
Proof.
  intros [H1 H2 H3 H4 H5 H6 H7 H8 H9] Hst He. rewrite Hst in *. cbn [frames_ok map] in *.
  destruct H8 as ([Hp1 Hp2] & _ & H8). set (i := entryIndex f) in *. rewrite reverse_cons in H3.
  assert (removelast (dpath d) = reverse (map entryIndex below)) as Hrl by (rewrite H3; apply removelast_last).
  assert (In i (dpath d)) as Hin by (rewrite H3; apply in_app_iff; cbn; auto).
  assert (i < n) as Hi. { apply H5 in Hin. apply lookup_lt_Some in Hin. lia. }
  assert (forall j, In j (dpath d) <-> In j (removelast (dpath d)) \/ j = i) as Hsplit.
  { intros j. rewrite Hrl, H3, in_app_iff. cbn. intuition congruence. }
  assert (~ In i (removelast (dpath d))) as Hni.
  { rewrite Hrl. rewrite H3 in H4. apply NoDup_app in H4 as (_ & H4 & _). intros Hx.
    eapply H4; [by apply list_elem_of_In|]. apply list_elem_of_singleton. done. }
  split; cbn [color dpath pathPosition stack].
  - by rewrite length_insert.
  - by rewrite length_insert.
  - done.
  - rewrite Hrl. rewrite H3 in H4. by apply NoDup_app in H4 as [? _].
  - intros j. rewrite color_insert by lia. destruct (decide (i = j)) as [<-|Hij]; [by split|].
    rewrite H5, Hsplit. split; [intros [?| ->]; done|auto].
  - intros j. rewrite color_insert by lia. cbn [In]. destruct (decide (i = j)) as [<-|Hij]; [by split; auto|].
    rewrite H6. split; [auto|]. by intros [?|?].
  - intros k j Hk. assert (j <> i) as Hji by (intros ->; by eapply Hni, list_elem_of_In, list_elem_of_lookup_2).
    rewrite list_lookup_insert_ne by done. apply H7. rewrite H3, <- Hrl. by apply lookup_app_l_Some.
  - by apply frames_finish.
  - cbn [topo]. split; [|done]. intros t (r & Hr & Hf). apply list_elem_of_In, list_elem_of_lookup in Hr as [k Hk].
    apply lookup_ge_None in He. pose proof (lookup_lt_Some _ _ _ Hk).
    by destruct (Hp2 k r t ltac:(lia) Hk Hf).
Qed.

(** Moving past an edge whose target is missing or finished. *)
Lemma skip_inv fin d f below r :
  dfs_inv fin d -> stack d = f :: below -> edges_of entries (entryIndex f) !! nextEdge f = Some r ->
  (forall t, omap_find moduleId_ltb (req_mod r) (indexByModule entries) = Some t -> In t fin) ->
  dfs_inv fin (MkDfs (color d) (dpath d) (pathPosition d) (MkFrame (entryIndex f) (S (nextEdge f)) :: below)).
Proof.
  intros [H1 H2 H3 H4 H5 H6 H7 H8 H9] Hst He Ht. rewrite Hst in *. cbn [frames_ok map] in *.
  destruct H8 as ([Hp1 Hp2] & Hc & H8). split; cbn [color dpath pathPosition stack map entryIndex]; try done.
  cbn [frames_ok]. split; [|done]. apply lookup_lt_Some in He as Hlt. split; [cbn; lia|]. cbn [entryIndex nextEdge].
  intros k q t Hk Hq Hf. destruct (decide (k = nextEdge f)) as [->|]; [|apply (Hp2 k q t); [lia|done|done]].
  left. apply Ht. congruence.
Qed.

(** Consecutive vertices of the path are joined by edges. *)
Lemma path_chain fin child st k a b : frames_ok fin child st ->
  reverse (map entryIndex st) !! k = Some a -> reverse (map entryIndex st) !! S k = Some b -> requires_edge a b.
Proof.
  revert child k. induction st as [|f st IH]; intros child k; [done|]. cbn [frames_ok map]. intros (_ & _ & H) Ha Hb.
  rewrite reverse_cons in *. apply lookup_app_Some in Hb as [Hb|[Hl Hb]].
  - apply lookup_lt_Some in Hb as Hlt. rewrite lookup_app_l in Ha by lia. by eapply IH.
  - destruct (S k - length (reverse (map entryIndex st))) as [|m] eqn:E; [|done]. cbn in Hb. injection Hb as <-.
    rewrite lookup_app_l in Ha by lia. destruct st as [|g st]; [cbn in *; lia|]. cbn [frames_ok map] in *.
    destruct H as (_ & Hc & _). rewrite reverse_cons in *. rewrite length_app in *. cbn in *.
    rewrite lookup_app_r in Ha by lia. replace (k - length (reverse (map entryIndex st))) with 0 in Ha by lia.
    cbn in Ha. injection Ha as <-. by apply Hc.
Qed.

Lemma chain_tc (p : list nat) i j a b :
  (forall k x y, p !! k = Some x -> p !! S k = Some y -> requires_edge x y) ->
  p !! i = Some a -> p !! j = Some b -> i < j -> tc requires_edge a b.
Proof.
  intros Hc Ha Hb Hij. revert b Hb. induction Hij as [|j Hij IH]; intros b Hb.
  - apply tc_once. by eapply Hc.
  - destruct (lookup_lt_is_Some_2 p j) as [x Hx]; [apply lookup_lt_Some in Hb; lia|].
    eapply tc_r; [by apply IH|]. by eapply Hc.
Qed.

(** An edge from the top of the stack back to a vertex of the path. *)
Lemma gray_cycle fin d f below t : dfs_inv fin d -> stack d = f :: below -> In t (dpath d) ->
  requires_edge (entryIndex f) t -> tc requires_edge t t.
Proof.
  intros HI Hst Ht He. apply list_elem_of_In, list_elem_of_lookup in Ht as [k Hk].
  pose proof (di_path _ _ HI) as Hp. rewrite Hst in Hp. cbn [map] in Hp. rewrite reverse_cons in Hp.
  set (m := length (reverse (map entryIndex below))).
  assert (dpath d !! m = Some (entryIndex f)) as Hm.
  { rewrite Hp, lookup_app_r by done. subst m. by rewrite Nat.sub_diag. }
  destruct (decide (k = m)) as [->|Hne].
  - rewrite Hk in Hm. injection Hm as ->. by apply tc_once.
  - eapply tc_r; [|exact He]. eapply (chain_tc (dpath d) k m); [|done|done|].
    + intros q x y. rewrite (di_path _ _ HI). by eapply path_chain, (di_frames _ _ HI).
    + apply lookup_lt_Some in Hk. rewrite Hp, length_app in Hk. cbn in Hk. subst m. lia.
Qed.

(** ** The search ends *)

Definition white_cost (d : Dfs) (i : nat) : nat :=
  if is_color White i d then S (length (edges_of entries i)) else 0.
Definition frame_cost (f : Frame) : nat := S (length (edges_of entries (entryIndex f))) - nextEdge f.
Definition potential (d : Dfs) : nat :=
  list_sum (map (white_cost d) (seq 0 n)) + list_sum (map frame_cost (stack d)).

Lemma sum_drop (f g : nat -> nat) i c l :
  NoDup l -> In i l -> g i + c = f i -> (forall j, j <> i -> g j = f j) ->
  list_sum (map g l) + c = list_sum (map f l).
Proof.
  intros Hnd Hi Hgi Hne. induction Hnd as [|x l Hx Hnd IH]; [done|]. cbn [map]. rewrite !list_sum_cons.
  destruct (decide (x = i)) as [->|Hxi].
  - assert (map g l = map f l) as ->; [|lia]. apply map_ext_in. intros j Hj. apply Hne. intros ->.
    by apply Hx, list_elem_of_In.
  - destruct Hi as [?|Hi]; [done|]. specialize (IH Hi). rewrite (Hne x Hxi). lia.
Qed.

Lemma white_cost_color d d' i : color d !! i = color d' !! i -> white_cost d i = white_cost d' i.
Proof. unfold white_cost, is_color. by intros ->. Qed.

Lemma potential_enter fin d i st' : dfs_inv fin d -> color d !! i = Some White -> i < n ->
  potential (enter i (MkDfs (color d) (dpath d) (pathPosition d) st'))
  = list_sum (map (white_cost d) (seq 0 n)) + list_sum (map frame_cost st').
Proof.
  intros HI Hw Hi. unfold potential. cbn [stack enter map]. rewrite list_sum_cons.
  rewrite <- (sum_drop (white_cost d) (white_cost (enter i (MkDfs (color d) (dpath d) (pathPosition d) st')))
    i (S (length (edges_of entries i))) (seq 0 n)).
  - unfold frame_cost at 1. cbn [entryIndex nextEdge]. lia.
  - apply NoDup_seq.
  - apply in_seq. lia.
  - unfold white_cost, is_color, enter. cbn [color]. rewrite list_lookup_insert_eq by (rewrite (di_color _ _ HI); lia).
    rewrite Hw. done.
  - intros j Hj. apply white_cost_color. cbn [enter color]. by apply list_lookup_insert_ne.
Qed.

(** A list of vertices that the require edges close into a cycle. *)
Definition real_cycle (vs : list nat) : Prop :=
  (forall k a b, vs !! k = Some a -> vs !! S k = Some b -> requires_edge a b) /\
  exists l h, last vs = Some l /\ head vs = Some h /\ requires_edge l h.

Definition render_cycle (vs : list nat) : str :=
  join_arrow [] (map (render_at entries) vs) ++ lit " -> " ++
  render_at entries (match vs with h :: _ => h | [] => 0 end).

Lemma real_cycle_tc vs : real_cycle vs -> exists i, tc requires_edge i i.
Proof.
  intros (Hc & l & h & Hl & Hh & He). rewrite last_lookup in Hl. rewrite head_lookup in Hh. exists h.
  destruct (decide (0 = pred (length vs))) as [E|E].
  - rewrite <- E, Hh in Hl. injection Hl as ->. by apply tc_once.
  - eapply tc_r; [|exact He]. eapply (chain_tc vs 0 (pred (length vs))); [done|done|done|lia].
Qed.

Lemma dfs_step_spec fin d f below : dfs_inv fin d -> stack d = f :: below ->
  match dfs_step entries f below d with
  | Continue d' => (exists fin', dfs_inv fin' d') /\ potential d' < potential d
  | Found c => exists vs, real_cycle vs /\ c = render_cycle vs
  end.
Proof.
  intros HI Hst. unfold dfs_step. pose proof (di_frames _ _ HI) as Hfr. rewrite Hst in Hfr. cbn [frames_ok] in Hfr.
  destruct Hfr as ([Hp1 Hp2] & Hc & Hfr).
  assert (potential d = list_sum (map (white_cost d) (seq 0 n)) + (frame_cost f + list_sum (map frame_cost below))) as Hpot.
  { unfold potential. by rewrite Hst. }
  assert (entryIndex f < n) as Hfn.
  { assert (In (entryIndex f) (dpath d)) as Hin.
    { rewrite (di_path _ _ HI), Hst. cbn [map]. rewrite reverse_cons. apply in_app_iff. cbn. auto. }
    apply (di_gray _ _ HI), lookup_lt_Some in Hin. by rewrite (di_color _ _ HI) in Hin. }
  destruct (edges_of entries (entryIndex f) !! nextEdge f) as [r|] eqn:Ee.
  2:{ split; [eexists; by eapply leave_inv|]. rewrite Hpot. unfold potential. cbn [stack].
      assert (map (white_cost (MkDfs (<[entryIndex f:=Black]> (color d)) (removelast (dpath d))
                (<[entryIndex f:=n]> (pathPosition d)) below)) (seq 0 n) = map (white_cost d) (seq 0 n)) as ->.
      { apply map_ext_in. intros j _. unfold white_cost, is_color. cbn [color].
        rewrite color_insert by (rewrite (di_color _ _ HI); done). destruct (decide (entryIndex f = j)) as [<-|]; [|done].
        assert (color d !! entryIndex f = Some Gray) as ->; [|done]. apply (di_gray _ _ HI).
        rewrite (di_path _ _ HI), Hst. cbn [map]. rewrite reverse_cons. apply in_app_iff. cbn. auto. }
      unfold frame_cost at 2. lia. }
  assert (nextEdge f < length (edges_of entries (entryIndex f))) as Hlt by by eapply lookup_lt_Some.
  assert (forall st', st' = MkFrame (entryIndex f) (S (nextEdge f)) :: below ->
    list_sum (map frame_cost st') < frame_cost f + list_sum (map frame_cost below)) as Hcost.
  { intros st' ->. cbn [map]. rewrite list_sum_cons. unfold frame_cost at 1 3. cbn [entryIndex nextEdge]. lia. }
  assert (forall q, (forall t, omap_find moduleId_ltb (req_mod r) (indexByModule entries) = Some t -> In t fin) ->
    q = MkDfs (color d) (dpath d) (pathPosition d) (MkFrame (entryIndex f) (S (nextEdge f)) :: below) ->
    (exists fin', dfs_inv fin' q) /\ potential q < potential d) as Hskip.
  { intros q Ht ->. split; [eexists; by eapply skip_inv|]. rewrite Hpot. unfold potential. cbn [stack].
    specialize (Hcost _ eq_refl). change (white_cost (MkDfs (color d) ?a ?b ?c)) with (white_cost d). lia. }
  destruct (omap_find _ _ _) as [t|] eqn:Et; [|apply Hskip; [intros ? [=]|done]].
  assert (requires_edge (entryIndex f) t) as Hedge.
  { exists r. split; [|done]. by eapply list_elem_of_In, list_elem_of_lookup_2. }
  pose proof (edge_range _ _ Hedge) as [_ Htn].
  destruct (white_or _ _ _ HI Htn) as [Hw|[Hg|Hb]]; unfold is_color.
  - rewrite Hw. rewrite bool_decide_true by done. split.
    + exists fin. apply enter_inv; [done|done|done|by rewrite Hst|]. cbn [frames_ok entryIndex]. split; [|split].
      * split; [cbn; lia|]. cbn [entryIndex nextEdge]. intros k q x Hk Hq Hx.
        destruct (decide (k = nextEdge f)) as [->|]; [right; congruence|]. left.
        destruct (Hp2 k q x ltac:(lia) Hq Hx) as [?|?]; done.
      * intros c [= <-]. done.
      * done.
    + rewrite (potential_enter fin d t _ HI Hw Htn), Hpot. specialize (Hcost _ eq_refl). lia.
  - rewrite Hg. rewrite bool_decide_false by done. rewrite bool_decide_true by done.
    apply (di_gray _ _ HI) in Hg. apply list_elem_of_In, list_elem_of_lookup in Hg as [k Hk].
    rewrite (di_position _ _ HI _ _ Hk). exists (drop k (dpath d)).
    assert (drop k (dpath d) = t :: drop (S k) (dpath d)) as Hd by by apply drop_S.
    split; [|unfold render_cycle; by rewrite Hd]. split.
    + intros q a b. rewrite !lookup_drop, Nat.add_succ_r, (di_path _ _ HI). eapply path_chain, (di_frames _ _ HI).
    + exists (entryIndex f), t. rewrite Hd at 2. repeat split; [|done].
      rewrite last_lookup, lookup_drop, length_drop, (di_path _ _ HI), Hst. cbn [map]. rewrite reverse_cons.
      assert (k < length (dpath d)) as Hkl by by eapply lookup_lt_Some.
      rewrite (di_path _ _ HI), Hst in Hkl. cbn [map] in Hkl. rewrite reverse_cons, length_app in Hkl. cbn in Hkl.
      rewrite lookup_app_r; rewrite ?length_app; cbn [length]; [|lia].
      replace (_ - _) with 0 by lia. done.
  - rewrite Hb. rewrite !bool_decide_false by done. apply Hskip; [|done]. intros x [= <-]. by apply (di_black _ _ HI).
Qed.

Lemma insert_nonwhite (l : list Color) k c i : c <> White -> l !! i <> Some White -> <[k := c]> l !! i <> Some White.
Proof. intros Hc Hi H. apply list_lookup_insert_Some in H as [(-> & -> & _)|[_ H]]; done. Qed.

Lemma dfs_step_nonwhite f below d d' : dfs_step entries f below d = Continue d' ->
  forall i, color d !! i <> Some White -> color d' !! i <> Some White.
Proof.
  unfold dfs_step. intros H i Hi. repeat case_match; simplify_eq; cbn [enter color];
    try apply insert_nonwhite; done.
Qed.

Lemma dfs_loop_spec fuel fin d : dfs_inv fin d -> potential d <= fuel ->
  match dfs_loop entries fuel d with
  | None => False
  | Some (inl d') => (exists fin', dfs_inv fin' d') /\ stack d' = [] /\ potential d' <= potential d /\
      forall i, color d !! i <> Some White -> color d' !! i <> Some White
  | Some (inr c) => exists vs, real_cycle vs /\ c = render_cycle vs
  end.
Proof.
  revert fin d. induction fuel as [|fuel IH]; intros fin d HI Hp; cbn [dfs_loop];
    destruct (stack d) as [|f below] eqn:Hst; [by eauto 10| |by eauto 10|].
  - unfold potential in Hp. rewrite Hst in Hp. cbn [map] in Hp. rewrite list_sum_cons in Hp.
    assert (frame_cost f > 0); [|lia]. pose proof (di_frames _ _ HI) as Hfr. rewrite Hst in Hfr.
    destruct Hfr as [[Hle _] _]. unfold frame_cost. lia.
  - pose proof (dfs_step_spec fin d f below HI Hst) as Hs.
    pose proof (dfs_step_nonwhite f below d) as Hwh.
    destruct (dfs_step entries f below d) as [d'|c]; [|done]. destruct Hs as [[fin' HI'] Hlt].
    specialize (IH fin' d' HI' ltac:(lia)). specialize (Hwh d' eq_refl).
    destruct (dfs_loop entries fuel d') as [[d2|c]|]; [|done|done].
    destruct IH as (H1 & H2 & H3 & H4). repeat split; [done|done|lia|auto].
Qed.

Lemma dfs_starts_spec starts fin d :
  dfs_inv fin d -> stack d = [] -> potential d <= dfs_fuel entries -> (forall i, In i starts -> i < n) ->
  match dfs_starts entries starts d with
  | None => False
  | Some [] => exists fin' d', dfs_inv fin' d' /\ stack d' = [] /\
      (forall i, color d !! i <> Some White -> color d' !! i <> Some White) /\
      (forall i, In i starts -> color d' !! i <> Some White)
  | Some c => exists vs, real_cycle vs /\ c = render_cycle vs
  end.
Proof.
  revert fin d. induction starts as [|s starts IH]; intros fin d HI Hst Hp Hs; cbn [dfs_starts].
  - exists fin, d. split_and!; auto.
  - assert (s < n) as Hsn by (apply Hs; by left).
    destruct (is_color White s d) eqn:Ew; unfold is_color in Ew.
    + apply bool_decide_eq_true in Ew.
      assert (dfs_inv fin (enter s d)) as HIe.
      { destruct d as [dc dp dpp dst]. cbn in Hst. subst dst. by apply (enter_inv fin (MkDfs dc dp dpp [])). }
      assert (potential (enter s d) = potential d) as Hpe.
      { pose proof (potential_enter fin d s (stack d) HI Ew Hsn) as H. by destruct d. }
      pose proof (dfs_loop_spec (dfs_fuel entries) fin (enter s d) HIe ltac:(lia)) as Hl.
      destruct (dfs_loop entries (dfs_fuel entries) (enter s d)) as [[d'|c]|]; [| |done].
      * destruct Hl as ((fin' & HI') & Hst' & Hp' & Hw').
        assert (forall i, color d !! i <> Some White -> color d' !! i <> Some White) as Hw2.
        { intros i Hi. apply Hw'. cbn [enter color]. by apply insert_nonwhite. }
        assert (color d' !! s <> Some White) as Hsw.
        { apply Hw'. cbn [enter color]. rewrite list_lookup_insert_eq by (rewrite (di_color _ _ HI); done). done. }
        specialize (IH fin' d' HI' Hst' ltac:(lia) ltac:(intros i Hi; apply Hs; by right)).
        destruct (dfs_starts entries starts d') as [[|c0 c]|]; [|done|done].
        destruct IH as (fin2 & d2 & H1 & H2 & H3 & H4). exists fin2, d2. split_and!; [done|done|auto|].
        intros i [->|Hi]; auto.
      * destruct c as [|c0 c]; [|done]. destruct Hl as (vs & _ & E). exfalso. unfold render_cycle in E.
        apply (f_equal length) in E. rewrite !length_app in E. cbn in E. lia.
    + apply bool_decide_eq_false in Ew.
      specialize (IH fin d HI Hst Hp ltac:(intros i Hi; apply Hs; by right)).
      destruct (dfs_starts entries starts d) as [[|c0 c]|]; [|done|done].
      destruct IH as (fin2 & d2 & H1 & H2 & H3 & H4). exists fin2, d2. split_and!; [done|done|done|].
      intros i [->|Hi]; auto.
Qed.

Lemma init_inv : dfs_inv [] (init_dfs entries).
Proof.
  split; unfold init_dfs; cbn [color dpath pathPosition stack]; try done.
  - apply length_replicate.
  - apply length_replicate.
  - constructor.
  - intros i. split; [|done]. intros H. apply lookup_replicate in H as [? _]. done.
  - intros i. split; [|done]. intros H. apply lookup_replicate in H as [? _]. done.
Qed.

Lemma init_potential : potential (init_dfs entries) <= dfs_fuel entries.
Proof.
  unfold potential, dfs_fuel. cbn [stack init_dfs map]. rewrite Nat.add_0_r. apply Nat.eq_le_incl.
  assert (map (white_cost (init_dfs entries)) (seq 0 n) = map (fun e => S (length (requires_ e))) entries) as ->; [|done].
  apply list_eq. intros i. rewrite !list_lookup_fmap. destruct (decide (i < n)) as [Hi|Hi].
  - rewrite lookup_seq_lt by done. destruct (lookup_lt_is_Some_2 entries i Hi) as [e He]. rewrite He. cbn.
    unfold white_cost, is_color, init_dfs, edges_of. cbn [color]. rewrite lookup_replicate_2, He by done. done.
  - rewrite lookup_seq_ge, (lookup_ge_None_2 entries) by lia. done.
Qed.

Lemma find_spec : match findRequireCycle entries with
  | None => False
  | Some [] => acyclic
  | Some c => exists vs, real_cycle vs /\ c = render_cycle vs
  end.
Proof.
  unfold findRequireCycle.
  pose proof (dfs_starts_spec (seq 0 n) [] (init_dfs entries) init_inv eq_refl init_potential) as H.
  specialize (H ltac:(intros i Hi; apply in_seq in Hi; lia)).
  destruct (dfs_starts _ _ _) as [[|c0 c]|]; [|done|done].
  destruct H as (fin & d & HI & Hst & _ & Hw). intros i Hc.
  assert (i < n) as Hi by (inversion Hc; subst; match goal with H : requires_edge i _ |- _ => apply edge_range in H; lia end).
  revert Hc. apply (topo_acyclic fin); [apply (di_topo _ _ HI)|]. apply (di_black _ _ HI).
  destruct (white_or _ _ _ HI Hi) as [H|[H|H]]; [|apply (di_gray _ _ HI) in H|done].
  - exfalso. apply (Hw i); [apply in_seq; lia|done].
  - exfalso. rewrite (di_path _ _ HI), Hst in H. done.
Qed.

End CycleFacts.

(** [C29] Cycle detection is exact: [findRequireCycle] always returns, returns
    the empty string exactly when the require graph of the entries has no
    cycle (an edge to a module without an entry is a leaf), and otherwise
    returns the rendering of a closed walk of that graph. *)
Theorem findRequireCycle_exact entries :
  exists c, findRequireCycle entries = Some c /\
    ((c = [] /\ acyclic entries) \/
     (~ acyclic entries /\ exists vs, real_cycle entries vs /\ c = render_cycle entries vs)).
Proof.
  pose proof (find_spec entries) as H. destruct (findRequireCycle entries) as [[|c0 c]|]; [exists []; auto| |done].
  destruct H as (vs & Hvs & E). exists (c0 :: c). split; [done|]. right. split; [|eauto]. intros Ha.
  destruct (real_cycle_tc _ _ Hvs) as [i Hi]. by apply Ha in Hi.
Qed.
