(* ===== verification/MvsFacts.v ===== *)
(** * What minimal version selection selects

    The selection satisfies every requirement it walked, each selected version
    was asked for by a requirement that the roots reach, and where newer
    versions of a module require at least what older ones do, the selection is
    the maximum over all requirements the roots reach, whatever their order.
    The second part is on convergence. *)

From S2P Require Import Prelude Manifest Semver Mvs MvsCycle.

Section Selection.
Context {MP : ModuleProvider}.

(** The requirements a version of a module declares, when it resolves. *)
Definition reqs (m : ModuleId) (v : Version) : option (list Require_) :=
  match manifestOf m v with
  | Err _ => None
  | Ok pm => match expandRequires pm with Ok subs => Some subs | Err _ => None end
  end.

(** The requirements the roots reach, through every version asked for. *)
Inductive asked (roots : list Require_) : Require_ -> Prop :=
| asked_root r : In r roots -> asked roots r
| asked_sub r subs r' :
    asked roots r -> reqs (req_mod r) (req_min r) = Some subs -> In r' subs -> asked roots r'.

Definition satisfied (r : Require_) (entries : Entries) : Prop :=
  exists e, omap_find moduleId_ltb (req_mod r) entries = Some e /\ version_le (req_min r) (selected e).

(** Entries sit under their own module and are not materialized yet. *)
Definition keyed (entries : Entries) : Prop :=
  forall k e, omap_find moduleId_ltb k entries = Some e -> e = MkEntry k (selected e) [] [] (requires_ e).

Lemma mvs_step_inv r entries entries' subs :
  keyed entries -> mvs_step r entries = Ok (entries', subs) ->
  (entries' = entries /\ subs = [] /\ satisfied r entries) \/
  (entries' = omap_set moduleId_ltb (req_mod r) (MkEntry (req_mod r) (req_min r) [] [] subs) entries /\
     reqs (req_mod r) (req_min r) = Some subs /\ ~ satisfied r entries).
Proof.
  intros Hk. unfold mvs_step, needFetch, reqs.
  destruct (omap_find _ (req_mod r) entries) as [e|] eqn:E.
  - destruct (0 <? _)%Z eqn:C.
    + rewrite (Hk _ _ E). cbn [set_selected set_requires ble_mod selected contentHash storeDir].
      destruct (manifestOf _ _) as [pm|]; [|done].
      destruct (expandRequires pm) as [s|]; [|done]. intros [= <- <-]. right. repeat split.
      intros (e2 & He2 & Hle). rewrite E in He2. injection He2 as <-. by apply compare_pos in C.
    + intros [= <- <-]. left. repeat split. exists e. split; [done|]. unfold version_le. apply Z.ltb_ge in C. lia.
  - cbn [ble_mod selected]. destruct (manifestOf _ _) as [pm|]; [|done].
    destruct (expandRequires pm) as [s|]; [|done]. intros [= <- <-]. right.
    repeat split. intros (e2 & He2 & _). congruence.
Qed.

Lemma satisfied_set r q e entries :
  satisfied q entries -> ~ satisfied r entries -> selected e = req_min r ->
  satisfied q (omap_set moduleId_ltb (req_mod r) e entries).
Proof.
  intros (e1 & H1 & H2) Hn Hs. unfold satisfied. rewrite (omap_find_set moduleId_ltb).
  destruct (keq moduleId_ltb (req_mod r) (req_mod q)) eqn:K; [|eauto].
  apply (keq_eq moduleId_ltb) in K. exists e. split; [done|]. rewrite Hs.
  destruct (version_le_total (selected e1) (req_min r)); [by eapply version_le_trans|].
  exfalso. apply Hn. exists e1. by rewrite K.
Qed.

Record mvs_inv (roots queue : list Require_) (entries : Entries) : Prop := {
  inv_sorted : omap_sorted moduleId_ltb entries;
  inv_keyed : keyed entries;
  inv_entry : forall k e, omap_find moduleId_ltb k entries = Some e ->
    reqs k (selected e) = Some (requires_ e) /\
    (exists r, asked roots r /\ req_mod r = k /\ req_min r = selected e) /\
    (forall sub, In sub (requires_ e) -> In sub queue \/ satisfied sub entries);
  inv_roots : forall r, In r roots -> In r queue \/ satisfied r entries;
  inv_queue : forall r, In r queue -> asked roots r
}.

Lemma mvs_inv_step roots r queue entries entries' subs :
  mvs_inv roots (r :: queue) entries -> mvs_step r entries = Ok (entries', subs) ->
  mvs_inv roots (queue ++ subs) entries'.
Proof.
  intros [I1 I2 I3 I4 I5] Hs. apply mvs_step_inv in Hs; [|done].
  assert (forall x, In x (queue ++ subs) <-> In x queue \/ In x subs) as Hin by (intros; apply in_app_iff).
  destruct Hs as [(-> & -> & Hsat)|(-> & Hr & Hn)].
  - rewrite app_nil_r in *. assert (forall x, In x (r :: queue) \/ satisfied x entries -> In x queue \/ satisfied x entries) as Hl.
    { intros x [[->|?]|?]; auto. }
    split; auto.
    + intros k e He. destruct (I3 k e He) as (Ha & Hb & Hc). eauto 10.
    + intros x Hx. apply I5. by right.
  - set (e' := MkEntry (req_mod r) (req_min r) [] [] subs).
    assert (satisfied r (omap_set moduleId_ltb (req_mod r) e' entries)) as Hr'.
    { exists e'. rewrite (omap_find_set moduleId_ltb), (proj2 (keq_eq moduleId_ltb _ _)) by done. split; [done|].
      apply version_le_refl. }
    assert (forall x, In x (r :: queue) \/ satisfied x entries ->
      In x (queue ++ subs) \/ satisfied x (omap_set moduleId_ltb (req_mod r) e' entries)) as Hl.
    { intros x [[->|?]|?]; [by right| |right; by apply satisfied_set]. left. apply Hin. auto. }
    split; auto.
    + by apply (omap_set_sorted moduleId_ltb).
    + intros k e. rewrite (omap_find_set moduleId_ltb). destruct (keq _ _ _) eqn:K; [|apply I2].
      apply (keq_eq moduleId_ltb) in K as <-. by intros [= <-].
    + intros k e. rewrite (omap_find_set moduleId_ltb). destruct (keq _ _ _) eqn:K.
      * apply (keq_eq moduleId_ltb) in K as <-. intros [= <-]. split; [done|]. split.
        -- exists r. split; [apply I5; by left|done].
        -- intros sub Hsub. left. apply Hin. auto.
      * intros He. destruct (I3 k e He) as (Ha & Hb & Hc). eauto 10.
    + intros x Hx. apply Hin in Hx as [Hx|Hx]; [apply I5; by right|].
      eapply asked_sub; [|exact Hr|exact Hx]. apply I5. by left.
Qed.

Lemma mvs_loop_inv roots steps queue entries result :
  mvs_inv roots queue entries -> mvs_loop steps queue entries = Ok result -> mvs_inv roots [] result.
Proof.
  revert queue entries. induction steps as [|n IH]; intros [|r queue] entries HI; cbn [mvs_loop]; try done.
  1,2: intros [= <-]; done.
  destruct (mvs_step r entries) as [[entries' subs]|] eqn:E; cbn [res_bind]; [|done].
  apply IH. by eapply mvs_inv_step.
Qed.

Lemma mvs_inv_init roots : mvs_inv roots roots [].
Proof. split; [constructor|done|done|auto|intros; by apply asked_root]. Qed.

Lemma select_inv roots bl : selectVersions roots = MkMvsResult true bl [] ->
  exists entries, bl = map snd entries /\ mvs_inv roots [] entries /\ findRequireCycle bl = Some [].
Proof.
  unfold selectVersions. destruct (mvs_loop kMaxSteps roots []) as [entries|] eqn:E; [|done].
  destruct (findRequireCycle (map snd entries)) as [[|c s]|] eqn:F; [|done|done]. intros [= <-].
  exists entries. split; [done|]. split; [|done]. eapply mvs_loop_inv; [apply mvs_inv_init|done].
Qed.

(** The build list and the map it was listed from. *)
Lemma entry_in entries e : keyed entries -> omap_sorted moduleId_ltb entries ->
  In e (map snd entries) <-> omap_find moduleId_ltb (ble_mod e) entries = Some e.
Proof.
  intros Hk Hs. split.
  - rewrite in_map_iff. intros ([k e'] & <- & Hin). apply (omap_In_find moduleId_ltb) in Hin as Hf; [|done].
    cbn [snd]. pose proof (Hk _ _ Hf) as Hm. rewrite Hm at 1. done.
  - intros Hf. apply (omap_find_In moduleId_ltb) in Hf. apply in_map_iff. by exists (ble_mod e, e).
Qed.

Lemma entries_sorted entries : omap_sorted moduleId_ltb entries -> keyed entries ->
  StronglySorted (fun a b => moduleId_ltb (ble_mod a) (ble_mod b) = true) (map snd entries).
Proof.
  intros Hs Hk.
  assert (forall x, In x entries -> ble_mod x.2 = x.1) as Hk2.
  { intros [k e] Hin. apply (omap_In_find moduleId_ltb) in Hin; [|done]. apply Hk in Hin. cbn. by rewrite Hin. }
  clear Hk. induction Hs as [|x l Hs IH Hx]; cbn; constructor.
  - apply IH. intros y Hy. apply Hk2. by right.
  - rewrite List.Forall_forall in *. intros e He. apply in_map_iff in He as (y & <- & Hy).
    rewrite (Hk2 x), (Hk2 y) by (cbn; auto). by apply Hx.
Qed.

(** [C19] Selection is consistent: when [selectVersions] succeeds, the build
    list is strictly sorted by module, every root requirement is met by an
    entry at or above its minimum, every entry records exactly the
    requirements its selected version declares, each of those is met in the
    list too, and each selected version is the minimum of a requirement the
    roots reach. *)
Theorem select_consistent roots bl :
  selectVersions roots = MkMvsResult true bl [] ->
  StronglySorted (fun a b => moduleId_ltb (ble_mod a) (ble_mod b) = true) bl /\
  (forall r, In r roots -> exists e, In e bl /\ ble_mod e = req_mod r /\ version_le (req_min r) (selected e)) /\
  (forall e, In e bl ->
     reqs (ble_mod e) (selected e) = Some (requires_ e) /\
     (forall r, In r (requires_ e) -> exists e', In e' bl /\ ble_mod e' = req_mod r /\ version_le (req_min r) (selected e')) /\
     exists r, asked roots r /\ req_mod r = ble_mod e /\ req_min r = selected e).
Proof.
  intros H. apply select_inv in H as (entries & -> & HI & _). pose proof HI as [I1 I2 I3 I4 I5].
  assert (forall r, satisfied r entries ->
    exists e, In e (map snd entries) /\ ble_mod e = req_mod r /\ version_le (req_min r) (selected e)) as Hsat.
  { intros r (e & He & Hle). exists e.
    assert (ble_mod e = req_mod r) as Hm by by rewrite (I2 _ _ He). split; [|done]. apply entry_in; [done|done|by rewrite Hm]. }
  split; [by apply entries_sorted|]. split.
  - intros r Hr. destruct (I4 r Hr) as [[]|]. auto.
  - intros e He. apply entry_in in He; [|done|done]. destruct (I3 _ _ He) as (Ha & Hb & Hc).
    split; [done|]. split; [|done]. intros r Hr. destruct (Hc r Hr) as [[]|]. auto.
Qed.

(** Newer versions of a module require at least what older ones do. *)
Definition monotone : Prop :=
  forall m v v' subs subs' r, version_le v v' -> reqs m v = Some subs -> reqs m v' = Some subs' -> In r subs ->
  exists r', In r' subs' /\ req_mod r' = req_mod r /\ version_le (req_min r) (req_min r').

Lemma asked_satisfied roots entries r :
  monotone -> mvs_inv roots [] entries -> asked roots r -> satisfied r entries.
Proof.
  intros Hmono HI. pose proof HI as [I1 I2 I3 I4 I5]. induction 1 as [r Hr|r subs r' Hr IH Hs Hin].
  - destruct (I4 r Hr) as [[]|]. done.
  - destruct IH as (e & He & Hle). destruct (I3 _ _ He) as (Ha & _ & Hc).
    destruct (Hmono _ _ _ _ _ _ Hle Hs Ha Hin) as (r2 & Hin2 & Hm & Hle2).
    destruct (Hc r2 Hin2) as [[]|(e2 & He2 & Hle3)]. exists e2. rewrite <- Hm. eauto using version_le_trans.
Qed.

Definition is_max (roots : list Require_) (m : ModuleId) (v : Version) : Prop :=
  (exists r, asked roots r /\ req_mod r = m /\ req_min r = v) /\
  (forall r, asked roots r -> req_mod r = m -> version_le (req_min r) v).

Lemma entry_max roots entries m e :
  monotone -> mvs_inv roots [] entries -> omap_find moduleId_ltb m entries = Some e -> is_max roots m (selected e).
Proof.
  intros Hmono HI He. split; [by apply (inv_entry _ _ _ HI)|].
  intros r Hr <-. destruct (asked_satisfied _ _ _ Hmono HI Hr) as (e' & He' & Hle).
  rewrite He in He'. by injection He' as <-.
Qed.

Lemma is_max_unique roots m v v' : is_max roots m v -> is_max roots m v' -> v = v'.
Proof.
  intros [(r & Hr & Hm & <-) H1] [(r' & Hr' & Hm' & <-) H2]. apply version_le_antisym; auto.
Qed.

(** [C28] Selection is the maximum: over a provider whose newer versions
    require at least what older ones do, a successful [selectVersions] lists
    exactly the modules the roots reach, each at the largest minimum any
    reached requirement asks for. *)
Theorem select_is_max roots bl :
  monotone -> selectVersions roots = MkMvsResult true bl [] ->
  forall m v, (exists e, In e bl /\ ble_mod e = m /\ selected e = v) <-> is_max roots m v.
Proof.
  intros Hmono H m v. apply select_inv in H as (entries & -> & HI & _). pose proof HI as [I1 I2 I3 I4 I5].
  assert (forall e, In e (map snd entries) -> is_max roots (ble_mod e) (selected e)) as Hmax.
  { intros e He. apply entry_in in He; [|done|done]. by eapply entry_max. }
  split; [intros (e & He & <- & <-); auto|].
  intros Hm. pose proof Hm as [(r & Hr & Hrm & _) _].
  destruct (asked_satisfied _ _ _ Hmono HI Hr) as (e & He & _). rewrite Hrm in He.
  assert (ble_mod e = m) as Hem by by rewrite (I2 _ _ He).
  exists e. split; [apply entry_in; [done|done|by rewrite Hem]|]. split; [done|].
  eapply is_max_unique; [|done]. by eapply entry_max.
Qed.

(** Order independence: over such a provider the build list depends only
    on the set of root requirements, not on their order or repetition. *)
Theorem select_order_independent roots roots' bl bl' :
  monotone -> (forall r, In r roots <-> In r roots') ->
  selectVersions roots = MkMvsResult true bl [] -> selectVersions roots' = MkMvsResult true bl' [] -> bl = bl'.
Proof.
  intros Hmono Hrr H H'. apply select_inv in H as (es & -> & HI & _). apply select_inv in H' as (es' & -> & HI' & _).
  assert (forall r, asked roots r <-> asked roots' r) as Hask.
  { intros r. split; (induction 1; [apply asked_root; by apply Hrr|by eapply asked_sub]). }
  f_equal. apply (omap_ext moduleId_ltb); [apply HI|apply HI'|]. intros k.
  destruct (omap_find moduleId_ltb k es) as [e|] eqn:E, (omap_find moduleId_ltb k es') as [e'|] eqn:E'; [| | |done].
  - destruct (inv_entry _ _ _ HI _ _ E) as (Ha & _). destruct (inv_entry _ _ _ HI' _ _ E') as (Ha' & _).
    assert (selected e = selected e') as Hs.
    { apply (is_max_unique roots k); [by eapply entry_max|]. destruct (entry_max _ _ _ _ Hmono HI' E') as [(r & ? & ?) Hmx].
      split; [exists r; split; [by apply Hask|done]|]. intros q Hq. apply Hmx. by apply Hask. }
    rewrite (inv_keyed _ _ _ HI _ _ E), (inv_keyed _ _ _ HI' _ _ E'). rewrite <- Hs in Ha'. rewrite Ha in Ha'.
    injection Ha' as <-. by rewrite Hs.
  - destruct (inv_entry _ _ _ HI _ _ E) as (_ & (r & Hr & Hm & _) & _). apply Hask in Hr.
    destruct (asked_satisfied _ _ _ Hmono HI' Hr) as (e2 & He2 & _). congruence.
  - destruct (inv_entry _ _ _ HI' _ _ E') as (_ & (r & Hr & Hm & _) & _). apply Hask in Hr.
    destruct (asked_satisfied _ _ _ Hmono HI Hr) as (e2 & He2 & _). congruence.
Qed.

End Selection.

(** * Minimal version selection ends

    Over a provider whose reachable requirements are finitely many and resolve,
    [selectVersions] converges within its step limit and then fails only on a
    require cycle.  The file also holds the concrete providers the witnesses
    use, and one that shows that the order of the root requirements matters
    when a newer version of a module drops or lowers a requirement. *)

Section Convergence.
Context {MP : ModuleProvider} (roots : list Require_) (universe : list (ModuleId * Version)).

Definition met (mv : ModuleId * Version) (entries : Entries) : bool :=
  match omap_find moduleId_ltb mv.1 entries with
  | Some e => (compareSemVer mv.2 (selected e) <=? 0)%Z
  | None => false
  end.

Definition req_count (mv : ModuleId * Version) : nat :=
  match reqs mv.1 mv.2 with Some subs => length subs | None => 0 end.

(** The requirements that fetches still to come can push on the queue. *)
Definition pending (entries : Entries) : nat :=
  list_sum (map (fun mv => if met mv entries then 0 else req_count mv) universe).

Lemma met_satisfied r entries : met (req_mod r, req_min r) entries = true <-> satisfied r entries.
Proof.
  unfold met, satisfied, version_le. cbn [fst snd]. destruct (omap_find _ _ _) as [e|].
  - rewrite Z.leb_le. split; [eauto|]. intros (e' & [= <-] & H). done.
  - split; [done|]. by intros (? & ? & _).
Qed.

Lemma sum_le_drop {A} (f g : A -> nat) l x c :
  (forall y, g y <= f y) -> In x l -> g x + c <= f x -> list_sum (map g l) + c <= list_sum (map f l).
Proof.
  intros Hle Hx Hc. induction l as [|y l IH]; [done|]. cbn [map]. rewrite !list_sum_cons.
  assert (list_sum (map g l) <= list_sum (map f l)).
  { clear -Hle. induction l as [|z l IH]; [done|]. cbn [map]. rewrite !list_sum_cons. specialize (Hle z). lia. }
  destruct Hx as [->|Hx]; [lia|]. specialize (Hle y). specialize (IH Hx). lia.
Qed.

Hypothesis reach_finite : forall r, asked roots r -> In (req_mod r, req_min r) universe.
Hypothesis reach_resolves : forall r, asked roots r -> reqs (req_mod r) (req_min r) <> None.

Lemma mvs_step_resolves r entries : asked roots r -> keyed entries ->
  exists entries' subs, mvs_step r entries = Ok (entries', subs).
Proof.
  intros Hr Hk. apply reach_resolves in Hr. unfold reqs in Hr. unfold mvs_step, needFetch.
  destruct (omap_find _ _ _) as [e|] eqn:E.
  - destruct (0 <? _)%Z; [|eauto]. rewrite (Hk _ _ E). cbn [set_selected ble_mod selected].
    destruct (manifestOf _ _) as [pm|]; [|done]. destruct (expandRequires pm); [eauto|done].
  - cbn [ble_mod selected]. destruct (manifestOf _ _) as [pm|]; [|done]. destruct (expandRequires pm); [eauto|done].
Qed.

Lemma pending_step r entries entries' subs : asked roots r -> keyed entries ->
  mvs_step r entries = Ok (entries', subs) -> length subs + pending entries' <= pending entries.
Proof.
  intros Hr Hk Hs. apply mvs_step_inv in Hs; [|done].
  destruct Hs as [(-> & -> & _)|(-> & Hrq & Hn)]; [cbn; lia|].
  rewrite Nat.add_comm. unfold pending.
  apply (sum_le_drop _ _ _ (req_mod r, req_min r)); [|by apply reach_finite|].
  - intros [m v]. destruct (met (m, v) entries) eqn:Em; [|case_match; [apply Nat.le_0_l|done]].
    assert (satisfied (MkRequire m v [] false) entries) as Hsat by by apply met_satisfied.
    eapply satisfied_set in Hsat; [|exact Hn|].
    + apply met_satisfied in Hsat. cbn [req_mod req_min] in Hsat. rewrite Hsat. lia.
    + done.
  - assert (met (req_mod r, req_min r) entries = false) as ->.
    { apply not_true_iff_false. by rewrite met_satisfied. }
    match goal with |- context [met ?a ?b] => replace (met a b) with true end.
    + unfold req_count. cbn [fst snd]. rewrite Hrq. lia.
    + symmetry. apply met_satisfied. eexists. rewrite (omap_find_set moduleId_ltb), (proj2 (keq_eq moduleId_ltb _ _)) by done.
      split; [done|]. apply version_le_refl.
Qed.

Lemma mvs_loop_converges steps queue entries :
  mvs_inv roots queue entries -> length queue + pending entries <= steps ->
  exists result, mvs_loop steps queue entries = Ok result.
Proof.
  revert queue entries. induction steps as [|k IH]; intros [|r queue] entries HI Hp; cbn [mvs_loop]; try eauto.
  - cbn in Hp. lia.
  - assert (asked roots r) as Hr by (apply (inv_queue _ _ _ HI); by left).
    destruct (mvs_step_resolves r entries Hr (inv_keyed _ _ _ HI)) as (entries' & subs & Hs). rewrite Hs. cbn [res_bind].
    apply IH; [by eapply mvs_inv_step|]. pose proof (pending_step _ _ _ _ Hr (inv_keyed _ _ _ HI) Hs).
    rewrite length_app. cbn [length] in Hp. lia.
Qed.

Lemma pending_init : pending [] = list_sum (map req_count universe).
Proof. done. Qed.

(** [C34] Selection converges: if the requirements the roots reach are among
    finitely many module versions, each of which resolves, and the roots and
    all the requirements those versions declare number at most [kMaxSteps],
    then [selectVersions] does not give up; it succeeds exactly when the build
    list's require graph is acyclic. *)
Theorem select_converges :
  length roots + list_sum (map req_count universe) <= kMaxSteps ->
  mvs_ok (selectVersions roots) = true <-> acyclic (buildList (selectVersions roots)).
Proof.
  intros Hb. unfold selectVersions.
  destruct (mvs_loop_converges kMaxSteps roots [] (mvs_inv_init roots)) as [entries Hl]; [by rewrite pending_init|].
  rewrite Hl. pose proof (find_spec (map snd entries)) as Hf.
  destruct (findRequireCycle (map snd entries)) as [[|c0 c]|]; cbn [mvs_ok buildList]; [by split| |done].
  split; [done|]. intros Ha. destruct Hf as (vs & Hvs & _). destruct (real_cycle_tc _ _ Hvs) as [i Hi]. by apply Ha in Hi.
Qed.

End Convergence.

(** ** A provider with a diamond *)

Definition dep_on (path version : string) : Dependency := MkDep (lit path) (lit version) [] false Vcs.
Definition manifest_with (deps : list Dependency) : ProjectManifest :=
  MkManifest (lit "m") [] [lit "m.lev"] [] deps [] [].

Definition diamond : ModuleProvider := {|
  manifestOf m _ :=
    if eqs (mid_path m) (lit "a") then Ok (manifest_with [dep_on "c" "1.1.0"])
    else if eqs (mid_path m) (lit "b") then Ok (manifest_with [dep_on "c" "1.2.0"])
    else if eqs (mid_path m) (lit "c") then Ok (manifest_with [])
    else Err (lit "unknown module")
|}.

Definition need (path : string) (a b c : Z) : Require_ :=
  MkRequire (MkModuleId (lit path) 1) (MkVersion a b c) [] false.

Definition diamond_roots : list Require_ := [need "a" 1 0 0; need "b" 1 0 0].
Definition diamond_list : list BuildListEntry :=
  [MkEntry (MkModuleId (lit "a") 1) (MkVersion 1 0 0) [] [] [need "c" 1 1 0];
   MkEntry (MkModuleId (lit "b") 1) (MkVersion 1 0 0) [] [] [need "c" 1 2 0];
   MkEntry (MkModuleId (lit "c") 1) (MkVersion 1 2 0) [] [] []].

Lemma diamond_selects roots : In roots [diamond_roots; rev diamond_roots] ->
  selectVersions (MP := diamond) roots = MkMvsResult true diamond_list [].
Proof. intros [<-|[<-|[]]]; vm_compute; reflexivity. Qed.

Lemma select_consistent_witness :
  exists bl, selectVersions (MP := diamond) diamond_roots = MkMvsResult true bl [] /\
    forall r, In r diamond_roots ->
      exists e, In e bl /\ ble_mod e = req_mod r /\ version_le (req_min r) (selected e).
Proof.
  exists diamond_list. split; [vm_compute; reflexivity|].
  apply (select_consistent (MP := diamond) diamond_roots diamond_list). vm_compute. reflexivity.
Defined.

(** The diamond's manifests do not depend on the version. *)
Lemma diamond_monotone : monotone (MP := diamond).
Proof.
  intros m v v' subs subs' r _ H1 H2 Hr. exists r. unfold reqs, manifestOf, diamond in H1, H2.
  rewrite H1 in H2. injection H2 as <-. split; [done|]. split; [done|apply version_le_refl].
Qed.

Lemma select_is_max_witness :
  is_max (MP := diamond) diamond_roots (MkModuleId (lit "c") 1) (MkVersion 1 2 0).
Proof.
  apply (select_is_max (MP := diamond) diamond_roots diamond_list diamond_monotone); [vm_compute; reflexivity|].
  exists (MkEntry (MkModuleId (lit "c") 1) (MkVersion 1 2 0) [] [] []). split; [|split; reflexivity]. cbn. auto.
Defined.

Lemma select_order_independent_witness :
  exists bl bl', selectVersions (MP := diamond) diamond_roots = MkMvsResult true bl [] /\
    selectVersions (MP := diamond) (rev diamond_roots) = MkMvsResult true bl' [] /\ bl = bl'.
Proof.
  exists diamond_list, diamond_list. split; [vm_compute; reflexivity|]. split; [vm_compute; reflexivity|].
  apply (select_order_independent (MP := diamond) diamond_roots (rev diamond_roots)); [exact diamond_monotone| | |].
  - intros r. apply in_rev.
  - vm_compute; reflexivity.
  - vm_compute; reflexivity.
Defined.

Definition diamond_reached : list Require_ := [need "a" 1 0 0; need "b" 1 0 0; need "c" 1 1 0; need "c" 1 2 0].

Lemma diamond_asked r : asked (MP := diamond) diamond_roots r -> In r diamond_reached.
Proof.
  induction 1 as [r Hr|r subs r' _ IH Hs Hin].
  - cbn in *. intuition.
  - cbn in IH. destruct_or! IH; subst r; try done; vm_compute in Hs; injection Hs as <-;
      cbn in Hin; destruct_or! Hin; subst; try done; vm_compute; auto.
Qed.

Lemma select_converges_witness :
  mvs_ok (selectVersions (MP := diamond) diamond_roots) = true
  <-> acyclic (buildList (selectVersions (MP := diamond) diamond_roots)).
Proof.
  apply (select_converges (MP := diamond) diamond_roots (map (fun r => (req_mod r, req_min r)) diamond_reached)).
  - intros r Hr. apply in_map_iff. exists r. split; [reflexivity|]. by apply diamond_asked.
  - intros r Hr. apply diamond_asked in Hr. cbn in Hr. destruct_or! Hr; subst r; try done.
  - apply Nat.leb_le. vm_compute. reflexivity.
Defined.

(** ** Order matters when a newer version lowers a requirement *)

Definition lowering : ModuleProvider := {|
  manifestOf m v :=
    if eqs (mid_path m) (lit "a") then
      Ok (manifest_with [if (minor v =? 0)%Z then dep_on "b" "1.5.0" else dep_on "b" "1.1.0"])
    else Ok (manifest_with [])
|}.

(** The walk is order-sensitive in general: there are a provider and two
    orders of the same root requirements that both resolve, to different
    build lists.  (A newer version of a module lowers a requirement of an older
    one; the older version's manifest is read only if it comes first.) *)
Theorem select_order_sensitive :
  exists (MP : ModuleProvider) roots roots' bl bl', roots ≡ₚ roots' /\
    selectVersions roots = MkMvsResult true bl [] /\ selectVersions roots' = MkMvsResult true bl' [] /\ bl <> bl'.
Proof.
  exists lowering, [need "a" 1 0 0; need "a" 1 1 0], [need "a" 1 1 0; need "a" 1 0 0].
  do 2 eexists. split; [apply perm_swap|]. split; [vm_compute; reflexivity|]. split; [vm_compute; reflexivity|]. done.
Qed.
