(* ===== verification/Lock.v ===== *)
(** * The lockfile: trident.lock

    Models [tools/trident/lock.cpp] and the data of [lock.hpp]: the module
    identity text, the writer and reader of the lockfile and the staleness
    check against a build list.  [LockReader] repeats [TomlReader] line by line
    and adds [parseInt]; its methods are the functions of [Toml]. *)

From S2P Require Import Prelude Toml Manifest Semver.

Record LockedModule := MkLocked { lm_mod : ModuleId; lm_selected : str; lm_hash : str; lm_requires : list str }.
Record Lockfile := MkLockfile { lk_version : Z; lk_modules : list LockedModule }.

(** ** Module identities *)

Fixpoint is_prefix (p s : str) : bool :=
  match p, s with
  | [], _ => true
  | x :: p', y :: s' => eqc x y && is_prefix p' s'
  | _ :: _, [] => false
  end.

(** [s.rfind(p)]. *)
Fixpoint rfind (p s : str) : option nat :=
  match s with
  | [] => if is_prefix p [] then Some 0 else None
  | c :: s' => match rfind p s' with
               | Some i => Some (S i)
               | None => if is_prefix p s then Some 0 else None
               end
  end.

Definition serializeModuleId (m : ModuleId) : str :=
  if (mid_major m <=? 1)%Z then mid_path m else mid_path m ++ lit "@v" ++ to_string (mid_major m).

Definition parseModuleId (text : str) : ModuleId :=
  match rfind (lit "@v") text with
  | Some at_ =>
      let majorStr := substr text (at_ + 2) (length text) in
      if negb (eqs majorStr []) && forallb isdigit majorStr
      then MkModuleId (substr text 0 at_) (atoi majorStr)
      else MkModuleId text 1
  | None => MkModuleId text 1
  end.

Definition serializeRequireEdge (r : Require_) : str := mid_path (req_mod r) ++ lit "@" ++ formatSemVer (req_min r).

Definition locked_of (e : BuildListEntry) : LockedModule :=
  MkLocked (ble_mod e) (formatSemVer (selected e)) (lit "sha256:" ++ contentHash e)
    (map serializeRequireEdge (requires_ e)).
Definition lockfileFromBuildList (bl : list BuildListEntry) : Lockfile := MkLockfile 1 (map locked_of bl).

(** ** Writing *)

Definition locked_rows (m : LockedModule) : str :=
  [c_nl] ++ lit "[[module]]" ++ [c_nl] ++ string_row "path" (serializeModuleId (lm_mod m))
  ++ string_row "selected" (lm_selected m) ++ string_row "hash" (lm_hash m) ++ array_row "requires" (lm_requires m).

Definition writeLockfile (l : Lockfile) : str :=
  lit "version = " ++ to_string (lk_version l) ++ [c_nl] ++ concat (map locked_rows (lk_modules l)).

(** ** Reading *)

Definition lock_skipWhitespaceAndComments := skipWhitespaceAndComments.
Definition lock_parseIdent := parseIdent.
Definition lock_parseString := parseString.
Definition lock_parseStringArray := parseStringArray.

Section Parse.
Context (path text : str).

(** [parseInt]: an optional minus sign and digits. *)
Definition parseInt (s : str) : res (Z * str) :=
  let s1 := lock_skipWhitespaceAndComments s in
  let '(sign, s2) := if eqc (peek s1) "-" then ([("-" : ascii)%char], tail s1) else ([], s1) in
  let '(ds, rest) := span_chars isdigit s2 in
  match ds with
  | [] => fail path text rest (lit "expected an integer")
  | _ => Ok (atoi (sign ++ ds), rest)
  end.

(** The loop state: the lockfile so far and [sawVersion]. *)
Definition LockState : Type := Lockfile * bool.
Definition push_module (st : LockState) : LockState :=
  (MkLockfile (lk_version st.1) (lk_modules st.1 ++ [MkLocked (MkModuleId [] 0) [] [] []]), st.2).

Definition module_field (key : str) (m : LockedModule) (s : str) : res (LockedModule * str) :=
  if eqs key (lit "path") then
    let? (v, r) := lock_parseString path text s in Ok (MkLocked (parseModuleId v) (lm_selected m) (lm_hash m) (lm_requires m), r)
  else if eqs key (lit "selected") then
    let? (v, r) := lock_parseString path text s in Ok (MkLocked (lm_mod m) v (lm_hash m) (lm_requires m), r)
  else if eqs key (lit "hash") then
    let? (v, r) := lock_parseString path text s in Ok (MkLocked (lm_mod m) (lm_selected m) v (lm_requires m), r)
  else if eqs key (lit "requires") then
    let? (v, r) := lock_parseStringArray path text (lm_requires m) s in Ok (MkLocked (lm_mod m) (lm_selected m) (lm_hash m) v, r)
  else fail path text s (lit "unknown [[module]] field '" ++ key ++ lit "'").

(** [cur] is null until the first [[[module]]], then the last module. *)
Definition lock_field (key : str) (st : LockState) (s : str) : res (LockState * str) :=
  let '(l, saw) := st in
  match last (lk_modules l) with
  | Some m => let? (m', r) := module_field key m s in
              Ok ((MkLockfile (lk_version l) (on_last (fun _ => m') (lk_modules l)), saw), r)
  | None =>
      if eqs key (lit "version") then let? (v, r) := parseInt s in Ok ((MkLockfile v (lk_modules l), true), r)
      else fail path text s (lit "unknown lockfile field '" ++ key ++ lit "'")
  end.

Definition finish_lock (st : LockState) : res Lockfile :=
  let '(l, saw) := st in
  if negb saw then fail path text [] (lit "lockfile is missing 'version'")
  else if existsb (fun m => eqs (mid_path (lm_mod m)) []) (lk_modules l)
  then fail path text [] (lit "a [[module]] is missing 'path'")
  else Ok l.

Definition lock_from : LockState -> str -> res Lockfile :=
  doc_from path text (lit "module") push_module lock_field finish_lock.

End Parse.

Definition parseLockfile (path text : str) : res Lockfile := lock_from path text (MkLockfile 1 [], false) text.

(** ** The staleness check *)

Definition stale (what : str) : str := lit "trident.lock is stale (" ++ what ++ lit ") — run `trident lock`".

Definition strs_eqb (a b : list str) : bool := bool_decide (a = b).

Fixpoint match_entries (ms : list LockedModule) (es : list BuildListEntry) : res unit :=
  match es, ms with
  | e :: es', m :: ms' =>
      if negb (moduleId_eqb (lm_mod m) (ble_mod e)) then Err (stale (lit "module set differs from the current resolution"))
      else if negb (eqs (lm_selected m) (formatSemVer (selected e))) then
        Err (stale (mid_path (ble_mod e) ++ lit " selected version differs from the current resolution"))
      else if negb (strs_eqb (lm_requires m) (map serializeRequireEdge (requires_ e))) then
        Err (stale (mid_path (ble_mod e) ++ lit "'s requires differ from the current resolution"))
      else match_entries ms' es'
  | _, _ => Ok tt
  end.

Definition lockfileMatchesBuildList (l : Lockfile) (bl : list BuildListEntry) : res unit :=
  if negb (length (lk_modules l) =? length bl)%nat
  then Err (stale (lit "module count differs from the current resolution"))
  else match_entries (lk_modules l) bl.

(** [lockfilePathFor]: replace the extension of the last path component. *)
Definition lockfilePathFor (manifestPath : str) : str :=
  let dir := match find_last_of "/" manifestPath with None => [] | Some i => substr manifestPath 0 (i + 1) end in
  let base := match find_last_of "/" manifestPath with
              | None => manifestPath | Some i => substr manifestPath (i + 1) (length manifestPath) end in
  let stem := match find_last_of "." base with None => base | Some i => substr base 0 i end in
  dir ++ stem ++ lit ".lock".

(** ** Identities round-trip *)

Lemma is_prefix_app p s : is_prefix p s = true <-> exists r, s = p ++ r.
Proof.
  revert s. induction p as [|x p IH]; intros s; cbn.
  - split; [intros _; by exists s|done].
  - destruct s as [|y s]; [split; [done|by intros [? ?]]|]. rewrite andb_true_iff, eqc_eq, IH.
    split; [intros [-> [r ->]]; by exists r|]. intros [r [= -> ->]]. eauto.
Qed.

Lemma digit_not_at c : isdigit c = true -> eqc "@" c = false.
Proof. each_char c; vm_compute; congruence. Qed.

Lemma rfind_version a ds : Forall (fun c => isdigit c = true) ds -> rfind (lit "@v") (a ++ lit "@v" ++ ds) = Some (length a).
Proof.
  intros Hd. assert (rfind (lit "@v") ds = None) as H0.
  { induction Hd as [|c ds Hc Hd IH]; [done|]. cbn [rfind]. rewrite IH.
    change (is_prefix (lit "@v") (c :: ds)) with (eqc "@" c && is_prefix (lit "v") ds). by rewrite digit_not_at. }
  induction a as [|c a IH]; [|cbn [app rfind length]; by rewrite IH].
  change (lit "@v" ++ ds) with ("@"%char :: "v"%char :: ds). cbn [app rfind]. rewrite H0. done.
Qed.

Lemma rfind_sound p s i : rfind p s = Some i -> exists r, s = take i s ++ p ++ r.
Proof.
  revert i. induction s as [|c s IH]; intros i; cbn [rfind].
  - destruct (is_prefix p []) eqn:E; [|done]. intros [= <-]. apply is_prefix_app in E as [r ->]. by exists r.
  - destruct (rfind p s) as [j|].
    + intros [= <-]. destruct (IH j eq_refl) as [r Hr]. exists r. cbn. by f_equal.
    + destruct (is_prefix p (c :: s)) eqn:E; [|done]. intros [= <-]. apply is_prefix_app in E as [r ->]. by exists r.
Qed.

(** A path that does not itself end in [@v] and digits. *)
Definition plain_path (p : str) : Prop := forall q ds, p = q ++ lit "@v" ++ ds -> ~ digit_run ds.

Definition id_ok (m : ModuleId) : Prop :=
  mid_path m <> [] /\ ((2 <= mid_major m < 2 ^ 31)%Z \/ (mid_major m = 1%Z /\ plain_path (mid_path m))).

Lemma parse_serialize_id m : id_ok m -> parseModuleId (serializeModuleId m) = m.
Proof.
  destruct m as [p mj]. unfold id_ok, serializeModuleId, parseModuleId. cbn [mid_path mid_major].
  intros [Hne [Hm|[-> Hp]]].
  - destruct (Z.leb_spec mj 1); [lia|]. destruct (to_string_run mj ltac:(lia)) as [Hr1 Hr2].
    rewrite rfind_version by done.
    assert (substr (p ++ lit "@v" ++ to_string mj) (length p + 2) (length (p ++ lit "@v" ++ to_string mj)) = to_string mj) as ->.
    { unfold substr. rewrite <- drop_drop, drop_app_length. cbn [drop]. change (drop 2 (lit "@v" ++ to_string mj)) with (to_string mj).
      apply take_ge. rewrite !length_app. lia. }
    assert (substr (p ++ lit "@v" ++ to_string mj) 0 (length p) = p) as -> by (unfold substr; apply take_app_length).
    replace (negb (eqs (to_string mj) [])) with true by (symmetry; apply negb_true_iff, eqs_neq; done).
    replace (forallb isdigit (to_string mj)) with true.
    + cbn [andb]. rewrite atoi_to_string; [done|]. split; cbn; lia.
    + symmetry. apply forallb_forall. by apply List.Forall_forall.
  - change (1 <=? 1)%Z with true. cbv iota. destruct (rfind (lit "@v") p) as [i|] eqn:E; [|done].
    destruct (rfind_sound _ _ _ E) as [r Hr].
    assert (substr p (i + 2) (length p) = r) as Hs.
    { assert (i <= length p) as Hi.
      { apply (f_equal length) in Hr. rewrite !length_app, length_take in Hr.
        change (length (lit "@v")) with 2 in Hr. lia. }
      unfold substr. rewrite Hr at 2. rewrite <- drop_drop, drop_app_length' by (rewrite length_take; lia).
      change (drop 2 (lit "@v" ++ r)) with r. apply take_ge. rewrite Hr, !length_app. lia. }
    rewrite Hs. destruct (negb (eqs r []) && forallb isdigit r) eqn:Ed; [|done].
    exfalso. apply (Hp _ _ Hr). apply andb_prop in Ed as [E1 E2]. apply negb_true_iff, eqs_neq in E1. split; [done|].
    apply List.Forall_forall. by apply forallb_forall.
Qed.

(** ** The lockfile round-trips *)

Lemma span_digits ds rest : Forall (fun c => isdigit c = true) ds -> isdigit (peek rest) = false ->
  span_chars isdigit (ds ++ rest) = (ds, rest).
Proof.
  intros Hk Hr. induction Hk as [|c k Hc Hk IH]; cbn [app span_chars]; [|by rewrite Hc, IH].
  destruct rest as [|c rest]; [done|]. cbn [span_chars]. change (peek (c :: rest)) with c in Hr. by rewrite Hr.
Qed.

Section ReadBack.
Context (path text : str).

Lemma parseInt_to_string z rest : in_s 32 z -> isdigit (peek rest) = false ->
  parseInt path text (to_string z ++ rest) = Ok (z, rest).
Proof.
  intros Hz Hr. rewrite <- (atoi_to_string z Hz) at 2. unfold parseInt, to_string, lock_skipWhitespaceAndComments.
  destruct (Z.ltb_spec z 0).
  - destruct (dec_nat_spec (- z)) as (Hd & _ & Hne); [lia|]. cbn [app]. rewrite skip_stop by done.
    change (eqc (peek _) "-") with true. cbv iota. cbn [tail]. rewrite span_digits by done.
    by destruct (dec_nat (- z)).
  - destruct (dec_nat_spec z) as (Hd & _ & Hne); [lia|]. destruct (dec_nat z) as [|c ds] eqn:E; [done|].
    assert (isdigit c = true) as Hc by by inversion Hd.
    assert (isWs c = false /\ eqc c "#" = false /\ eqc c "-" = false) as (H1 & H2 & H3).
    { revert Hc. each_char c; vm_compute; intros; repeat split; congruence. }
    cbn [app]. rewrite skip_stop by done. change (peek (c :: ds ++ rest)) with c. rewrite H3.
    change (c :: ds ++ rest) with ((c :: ds) ++ rest). by rewrite span_digits.
Qed.

Lemma parseInt_length s v r : parseInt path text s = Ok (v, r) -> length r < length s.
Proof.
  unfold parseInt, lock_skipWhitespaceAndComments. pose proof (skip_length s) as Hs.
  set (s1 := skipWhitespaceAndComments s) in *.
  destruct (if eqc (peek s1) "-" then (["-"%char], tail s1) else ([], s1)) as [sg s2] eqn:E.
  assert (length s2 <= length s1) as Hl.
  { destruct (eqc (peek s1) "-"); injection E as <- <-; [|lia]. destruct s1; cbn; lia. }
  pose proof (span_app isdigit s2) as Hsp. destruct (span_chars isdigit s2) as [ds rest]. cbn in Hsp.
  destruct ds as [|c ds]; [done|]. intros [= <- <-].
  apply (f_equal length) in Hsp. cbn in Hsp. rewrite length_app in Hsp. lia.
Qed.

Hint Resolve parseInt_length : lev.

Lemma lock_field_length key st s st' r : lock_field path text key st s = Ok (st', r) -> length r < length s.
Proof.
  unfold lock_field. destruct st as [l saw]. destruct (last (lk_modules l)) as [m|].
  - destruct (module_field path text key m s) as [[m' r']|] eqn:E; cbn [res_bind]; [|done]. intros [= <- <-].
    revert E. unfold module_field, lock_parseString, lock_parseStringArray. field_length.
  - field_length.
Qed.

Abbreviation from := (lock_from path text).
Ltac key := split; [done|repeat constructor].

Lemma lock_nl st s : from st (c_nl :: s) = from st s.
Proof. apply doc_from_nl, lock_field_length. Qed.

Lemma lock_field_module k v ms m s m' r : module_field path text k m s = Ok (m', r) ->
  lock_field path text k (MkLockfile v (ms ++ [m]), true) s = Ok ((MkLockfile v (ms ++ [m']), true), r).
Proof. intros Hf. unfold lock_field. cbn [lk_modules]. rewrite last_snoc, Hf. cbn [res_bind lk_version]. by rewrite on_last_snoc. Qed.

Lemma locked_string v ms m k x m' rest : key_text (lit k) ->
  (forall r, module_field path text (lit k) m (quote x ++ r) = Ok (m', r)) ->
  from (MkLockfile v (ms ++ [m]), true) (string_row k x ++ rest) = from (MkLockfile v (ms ++ [m']), true) rest.
Proof.
  intros Hk Hf. apply (doc_from_string path text); [apply lock_field_length|done|]. intros r. by apply lock_field_module.
Qed.

Lemma locked_rows_read v ms m rest : parseModuleId (serializeModuleId (lm_mod m)) = lm_mod m ->
  from (MkLockfile v ms, true) (locked_rows m ++ rest) = from (MkLockfile v (ms ++ [m]), true) rest.
Proof.
  intros Hid. unfold locked_rows. rewrite <- !app_assoc. change ([c_nl] ++ ?x) with (c_nl :: x). rewrite lock_nl.
  transitivity (from (push_module (MkLockfile v ms, true)) (c_nl :: string_row "path" (serializeModuleId (lm_mod m))
    ++ string_row "selected" (lm_selected m) ++ string_row "hash" (lm_hash m) ++ array_row "requires" (lm_requires m) ++ rest)).
  { apply (doc_from_table path text (lit "module")); [apply lock_field_length|done]. }
  rewrite lock_nl. unfold push_module. cbn [fst snd lk_version lk_modules].
  rewrite (locked_string _ _ _ "path" _ (MkLocked (lm_mod m) [] [] [])); [|key|].
  2:{ intros r. unfold module_field, lock_parseString. pick_field. rewrite parseString_quote. cbn. by rewrite Hid. }
  rewrite (locked_string _ _ _ "selected" _ (MkLocked (lm_mod m) (lm_selected m) [] [])); [|key|].
  2:{ intros r. unfold module_field, lock_parseString. pick_field. by rewrite parseString_quote. }
  rewrite (locked_string _ _ _ "hash" _ (MkLocked (lm_mod m) (lm_selected m) (lm_hash m) [])); [|key|].
  2:{ intros r. unfold module_field, lock_parseString. pick_field. by rewrite parseString_quote. }
  apply (doc_from_array path text); [apply lock_field_length|key| |].
  - destruct m as [a b c d]. cbn. by intros ->.
  - intros Hl r. apply lock_field_module. unfold module_field, lock_parseStringArray. pick_field.
    rewrite parseStringArray_quoted by done. by destruct m.
Qed.

Lemma all_locked_read v ms ms' : Forall (fun m => parseModuleId (serializeModuleId (lm_mod m)) = lm_mod m) ms' ->
  from (MkLockfile v ms, true) (concat (map locked_rows ms')) = finish_lock path text (MkLockfile v (ms ++ ms'), true).
Proof.
  intros Hid. revert ms. induction Hid as [|m ms' Hm Hid IH]; intros ms; [cbn; by rewrite app_nil_r|].
  cbn [map concat]. rewrite locked_rows_read by done. rewrite IH. by rewrite <- app_assoc.
Qed.

Lemma lock_read_back l : in_s 32 (lk_version l) -> Forall (fun m => id_ok (lm_mod m)) (lk_modules l) ->
  from (MkLockfile 1 [], false) (writeLockfile l) = Ok l.
Proof.
  intros Hv Hm. destruct l as [v ms]. unfold writeLockfile. cbn [lk_version lk_modules] in *.
  change (lit "version = " ++ ?x) with (lit "version" ++ lit " = " ++ x).
  unfold lock_from. rewrite (doc_from_key path text _ _ _ _ (lock_field_length) _ _ _ (MkLockfile v [], true)
    (c_nl :: concat (map locked_rows ms))); [|key|].
  - change (from (MkLockfile v [], true) (c_nl :: concat (map locked_rows ms)) = Ok (MkLockfile v ms)).
    rewrite lock_nl, all_locked_read.
    + cbn [app]. unfold finish_lock. cbn [negb lk_modules]. replace (existsb _ ms) with false; [done|].
      symmetry. induction Hm as [|m ms Hm Hms IH]; [done|]. cbn [existsb]. rewrite IH, orb_false_r.
      destruct Hm as [Hp _]. by destruct (mid_path (lm_mod m)).
    + eapply Forall_impl; [exact Hm|]. intros m Hid. by apply parse_serialize_id.
  - unfold lock_field. cbn [last lk_modules]. pick_field.
    assert (skipWhitespaceAndComments (to_string v ++ [c_nl] ++ concat (map locked_rows ms))
            = to_string v ++ [c_nl] ++ concat (map locked_rows ms)) as ->.
    { unfold to_string. destruct (Z.ltb_spec v 0); [by apply skip_stop|].
      destruct (dec_nat_spec v) as (Hd & _ & Hne); [lia|]. destruct (dec_nat v) as [|c ds]; [done|].
      inversion Hd as [|? ? Hc]; subst. apply skip_stop; revert Hc; each_char c; vm_compute; congruence. }
    by rewrite parseInt_to_string.
Qed.

End ReadBack.

(** Lockfile round trip: [parseLockfile] reads what [writeLockfile]
    prints back as the same lockfile, for every [int] version and every module
    whose identity text is unambiguous: a non-empty path with a major of at
    least two, or a major of one and a path that does not itself end in [@v]
    and digits. *)
Theorem lockfile_roundtrip path l :
  in_s 32 (lk_version l) -> Forall (fun m => id_ok (lm_mod m)) (lk_modules l) ->
  parseLockfile path (writeLockfile l) = Ok l.
Proof. intros. by apply lock_read_back. Qed.

Definition sample_lock : Lockfile :=
  MkLockfile 1 [MkLocked (MkModuleId (lit "github.com/x/json") 1) (lit "1.2.0") (lit "sha256:00") [lit "github.com/x/u@2.0.0"];
                MkLocked (MkModuleId (lit "github.com/x/u") 2) (lit "2.0.0") (lit "sha256:" ++ [c_quote]) []].

(** Paths without an at sign are plain. *)
Lemma plain_no_at p : forallb (fun c => negb (eqc "@" c)) p = true -> plain_path p.
Proof.
  intros H q ds -> _. rewrite forallb_app in H. apply andb_prop in H as [_ H]. done.
Qed.

Lemma lockfile_roundtrip_witness : parseLockfile (lit "trident.lock") (writeLockfile sample_lock) = Ok sample_lock.
Proof.
  apply (lockfile_roundtrip (lit "trident.lock") sample_lock); [split; cbn; lia|].
  constructor; [|constructor; [|constructor]]; (split; [done|]).
  - right. split; [done|by apply plain_no_at].
  - left. cbn. lia.
Defined.

(** ** The staleness check *)

Definition pinned (m : LockedModule) : ModuleId * str * list str := (lm_mod m, lm_selected m, lm_requires m).

Lemma moduleId_eqb_eq a b : moduleId_eqb a b = true <-> a = b.
Proof.
  destruct a as [p m], b as [q k]. unfold moduleId_eqb. cbn. rewrite andb_true_iff, Z.eqb_eq, eqs_eq.
  split; [intros [-> ->]; done|by intros [= -> ->]].
Qed.

Lemma matches_pinned l bl : lockfileMatchesBuildList l bl = Ok tt <->
  map pinned (lk_modules l) = map pinned (lk_modules (lockfileFromBuildList bl)).
Proof.
  unfold lockfileMatchesBuildList, lockfileFromBuildList. cbn [lk_modules]. rewrite map_map.
  generalize (lk_modules l). clear l. intros ms. revert bl.
  induction ms as [|m ms IH]; intros [|e bl]; try done. cbn [length map match_entries Nat.eqb].
  specialize (IH bl). destruct (length ms =? length bl)%nat eqn:En; cbn [negb] in *.
  - unfold pinned at 1 3, locked_of at 1. cbn [lm_mod lm_selected lm_requires].
    destruct (moduleId_eqb (lm_mod m) (ble_mod e)) eqn:E1; cbn [negb].
    2:{ split; [done|]. intros [= Hc _ _ _]. apply moduleId_eqb_eq in Hc. congruence. }
    destruct (eqs (lm_selected m) (formatSemVer (selected e))) eqn:E2; cbn [negb].
    2:{ split; [done|]. intros [= _ Hc _ _]. apply eqs_neq in E2. done. }
    unfold strs_eqb. destruct (bool_decide _) eqn:E3; cbn [negb].
    2:{ split; [done|]. intros [= _ _ Hc _]. apply bool_decide_eq_false in E3. done. }
    apply moduleId_eqb_eq in E1. apply eqs_eq in E2. apply bool_decide_eq_true in E3.
    rewrite IH, E1, E2, E3. split; [by intros ->|by intros [=]].
  - split; [done|]. intros H. apply (f_equal length) in H. cbn [length] in H. rewrite !length_map in H.
    apply Nat.eqb_neq in En. lia.
Qed.

(** The staleness check is exact: a lockfile matches a build list exactly
    when it records, in order, the same modules, selected versions and
    requirement edges as a lock freshly built from that list; only the hashes
    may differ. *)
Theorem lock_matches_iff l bl :
  lockfileMatchesBuildList l bl = Ok tt <->
  map pinned (lk_modules l) = map pinned (lk_modules (lockfileFromBuildList bl)).
Proof. apply matches_pinned. Qed.

Lemma format_inj v v' : version_ok v -> version_ok v' -> formatSemVer v = formatSemVer v' -> v = v'.
Proof.
  intros H H' E. pose proof (parse_format [] v ltac:(cbn; auto) H) as P.
  pose proof (parse_format [] v' ltac:(cbn; auto) H') as P'. cbn [app] in P, P'. rewrite E in P. congruence.
Qed.

(** A lock pins the resolution: writing the lock of a build list and
    reading it back gives a lockfile that matches the list, and any other
    build list it matches selects the same version of every module. *)
Theorem lock_pins_selection path bl :
  Forall (fun e => id_ok (ble_mod e) /\ version_ok (selected e)) bl ->
  exists l, parseLockfile path (writeLockfile (lockfileFromBuildList bl)) = Ok l /\
    lockfileMatchesBuildList l bl = Ok tt /\
    forall bl', Forall (fun e => version_ok (selected e)) bl' -> lockfileMatchesBuildList l bl' = Ok tt ->
      map (fun e => (ble_mod e, selected e)) bl' = map (fun e => (ble_mod e, selected e)) bl.
Proof.
  intros Hbl. exists (lockfileFromBuildList bl). split.
  { apply lock_read_back; [split; cbn; lia|]. cbn [lockfileFromBuildList lk_modules]. rewrite Forall_map.
    eapply Forall_impl; [exact Hbl|]. by intros e [? _]. }
  split; [by apply matches_pinned|]. intros bl' Hbl' Hm. apply matches_pinned in Hm. revert bl' Hbl' Hm.
  cbn [lockfileFromBuildList lk_modules].
  induction Hbl as [|e bl [He1 He2] Hbl IH]; intros [|e' bl'] Hbl' Hm; try done.
  inversion Hbl' as [|? ? Hv Hbl2]; subst. cbn [map] in *. injection Hm as E1 E2 _ E3.
  rewrite (format_inj _ _ He2 Hv E2), E1. f_equal. by apply IH.
Qed.

Definition sample_list : list BuildListEntry :=
  [MkEntry (MkModuleId (lit "a") 1) (MkVersion 1 2 0) (lit "00") [] [MkRequire (MkModuleId (lit "b") 3) (MkVersion 3 0 1) [] false];
   MkEntry (MkModuleId (lit "b") 3) (MkVersion 3 0 1) (lit "11") [] []].

Lemma lock_pins_selection_witness :
  exists l, parseLockfile (lit "t.lock") (writeLockfile (lockfileFromBuildList sample_list)) = Ok l /\
    lockfileMatchesBuildList l sample_list = Ok tt /\
    forall bl', Forall (fun e => version_ok (selected e)) bl' -> lockfileMatchesBuildList l bl' = Ok tt ->
      map (fun e => (ble_mod e, selected e)) bl' = map (fun e => (ble_mod e, selected e)) sample_list.
Proof.
  apply (lock_pins_selection (lit "t.lock") sample_list).
  constructor; [|constructor; [|constructor]]; (split; [split; [done|]|repeat split; cbn; lia]).
  - right. split; [done|by apply plain_no_at].
  - left. cbn. lia.
Defined.
