(* ===== verification/LockCheck.v ===== *)
(** * Is the lock still the resolution?

    Models [parseRequireEdge] and [lockSatisfiesRootRequires] of
    [tools/trident/resolve.cpp]: selection replayed over the edges the lock
    caches, without asking a provider.  The check accepts exactly the locks
    that select, for each module the roots need through the cached edges, the
    largest minimum asked for; a lock made from a fresh selection is accepted
    when newer versions require at least what older ones do, and may be refused
    otherwise. *)

From S2P Require Import Prelude Toml Manifest Semver Mvs MvsCycle MvsFacts Lock.

Definition parseRequireEdge (text : str) : option Require_ :=
  match find_last_of "@" text with
  | None => None
  | Some at_ =>
      match parseSemVer (substr text (at_ + 1) (length text)) with
      | Err _ => None
      | Ok v => Some (MkRequire (MkModuleId (substr text 0 at_) (if (major v <=? 1)%Z then 1%Z else major v)) v [] false)
      end
  end.

Record CachedModule := MkCached { cm_selected : Version; cm_requires : list Require_ }.
Abbreviation Cached := (list (ModuleId * CachedModule)).

Fixpoint cache_edges (edges : list str) : res (list Require_) :=
  match edges with
  | [] => Ok []
  | edge :: edges' =>
      match parseRequireEdge edge with
      | None => Err (lit "lock has invalid require edge '" ++ edge ++ lit "'")
      | Some r => let? rs := cache_edges edges' in Ok (r :: rs)
      end
  end.

Definition cache_module (m : LockedModule) (cached : Cached) : res Cached :=
  match parseSemVer (lm_selected m) with
  | Err _ => Err (lit "lock has invalid selected version for '" ++ serializeModuleId (lm_mod m) ++ lit "'")
  | Ok v =>
      let? rs := cache_edges (lm_requires m) in
      match omap_find moduleId_ltb (lm_mod m) cached with
      | Some _ => Err (lit "lock contains duplicate module '" ++ serializeModuleId (lm_mod m) ++ lit "'")
      | None => Ok (omap_set moduleId_ltb (lm_mod m) (MkCached v rs) cached)
      end
  end.

Fixpoint cache_modules (ms : list LockedModule) (cached : Cached) : res Cached :=
  match ms with
  | [] => Ok cached
  | m :: ms' => let? cached' := cache_module m cached in cache_modules ms' cached'
  end.

Abbreviation Minimums := (list (ModuleId * Version)).

Section Replay.
Context (cached : Cached).

Definition increased (r : Require_) (mins : Minimums) : bool :=
  match omap_find moduleId_ltb (req_mod r) mins with
  | None => true
  | Some v => (0 <? compareSemVer (req_min r) v)%Z
  end.

(** The loop over the growing [queue]; the bound on its turns is never
    reached ([replay_total] below). *)
Fixpoint replay (fuel : nat) (queue : list Require_) (mins : Minimums) : res Minimums :=
  match queue with
  | [] => Ok mins
  | r :: queue' =>
      match fuel with
      | 0 => Err []
      | S n =>
          if negb (increased r mins) then replay n queue' mins
          else
            let mins' := omap_set moduleId_ltb (req_mod r) (req_min r) mins in
            match omap_find moduleId_ltb (req_mod r) cached with
            | None => Err (lit "lock is missing required module '" ++ serializeModuleId (req_mod r) ++ lit "'")
            | Some c => replay n (queue' ++ cm_requires c) mins'
            end
      end
  end.

Definition edges_from (m : ModuleId) : list Require_ :=
  match omap_find moduleId_ltb m cached with Some c => cm_requires c | None => [] end.
Definition edge_universe (roots : list Require_) : list Require_ := roots ++ concat (map (fun kc => cm_requires kc.2) cached).
Definition replay_fuel (roots : list Require_) : nat :=
  length roots + list_sum (map (fun r => length (edges_from (req_mod r))) (edge_universe roots)).

Fixpoint check_minimums (mins : Minimums) : res unit :=
  match mins with
  | [] => Ok tt
  | (m, v) :: mins' =>
      let wrong := Err (lit "lock selection for '" ++ serializeModuleId m ++ lit "' is not the current MVS minimum") in
      match omap_find moduleId_ltb m cached with
      | None => wrong
      | Some c => if negb (compareSemVer (cm_selected c) v =? 0)%Z then wrong else check_minimums mins'
      end
  end.

End Replay.

Definition lockSatisfiesRootRequires (lock : Lockfile) (rootRequires : list Require_) : res unit :=
  let? cached := cache_modules (lk_modules lock) [] in
  let? minimums := replay cached (replay_fuel cached rootRequires) rootRequires [] in
  if negb (length minimums =? length cached)%nat
  then Err (lit "lock contains modules no longer reachable from the manifest")
  else check_minimums cached minimums.

(** ** What the check means *)

(** The module and its cached selection and edges that a lock row stands for. *)
Definition reads (m : LockedModule) (kc : ModuleId * CachedModule) : Prop :=
  kc.1 = lm_mod m /\ parseSemVer (lm_selected m) = Ok (cm_selected kc.2) /\
  map parseRequireEdge (lm_requires m) = map Some (cm_requires kc.2).

(** The requirements the roots reach through the edges of [rows]. *)
Inductive needed (rows : Cached) (roots : list Require_) : Require_ -> Prop :=
| needed_root r : In r roots -> needed rows roots r
| needed_edge r c r' :
    needed rows roots r -> In (req_mod r, c) rows -> In r' (cm_requires c) -> needed rows roots r'.

(** Every needed requirement is met by a row, and every row selects the
    minimum of a needed requirement. *)
Definition selects_needed (rows : Cached) (roots : list Require_) : Prop :=
  (forall r, needed rows roots r -> exists c, In (req_mod r, c) rows /\ version_le (req_min r) (cm_selected c)) /\
  (forall m c, In (m, c) rows -> exists r, needed rows roots r /\ req_mod r = m /\ req_min r = cm_selected c).

(** ** Caching the rows *)

Lemma cache_edges_spec edges rs : cache_edges edges = Ok rs <-> map parseRequireEdge edges = map Some rs.
Proof.
  revert rs. induction edges as [|e edges IH]; intros rs; cbn [cache_edges map].
  - destruct rs; cbn; split; by intros [=].
  - destruct (parseRequireEdge e) as [r|].
    + destruct (cache_edges edges) as [rs'|x] eqn:E; cbn [res_bind].
      * pose proof (proj1 (IH rs') eq_refl) as H. rewrite H. destruct rs as [|q rs]; cbn [map]; [split; done|].
        split; [by intros [= -> ->]|]. intros [= -> Hm]. rewrite <- H in Hm. by apply IH in Hm as [= ->].
      * split; [done|]. destruct rs as [|q rs]; [done|]. intros [= _ Hm]. by apply IH in Hm.
    + split; [done|]. destruct rs; done.
Qed.

Definition represents (cached rows : Cached) : Prop :=
  omap_sorted moduleId_ltb cached /\ forall m c, omap_find moduleId_ltb m cached = Some c <-> In (m, c) rows.

Lemma cache_module_spec m cached cached' : cache_module m cached = Ok cached' <->
  exists c, reads m (lm_mod m, c) /\ omap_find moduleId_ltb (lm_mod m) cached = None /\
    cached' = omap_set moduleId_ltb (lm_mod m) c cached.
Proof.
  unfold cache_module, reads. cbn [fst snd]. destruct (parseSemVer (lm_selected m)) as [v|x].
  2:{ split; [done|]. by intros (? & (_ & ? & _) & _). }
  destruct (cache_edges (lm_requires m)) as [rs|x] eqn:E; cbn [res_bind].
  - pose proof (proj1 (cache_edges_spec _ _) E) as Hm.
    destruct (omap_find _ _ cached); [split; [done|]; by intros (? & _ & ? & _)|].
    split; [intros [= <-]; by exists (MkCached v rs)|].
    intros ([v' rs'] & (_ & [= ->] & Hm') & _ & ->). cbn [cm_requires cm_selected] in *.
    apply cache_edges_spec in Hm'. rewrite Hm' in E. by injection E as ->.
  - split; [done|]. intros (c & (_ & _ & Hm) & _). apply cache_edges_spec in Hm. congruence.
Qed.

Lemma represents_set m c cached rows : represents cached rows -> omap_find moduleId_ltb m cached = None ->
  represents (omap_set moduleId_ltb m c cached) (rows ++ [(m, c)]).
Proof.
  intros [Hs Hf] Hn. split; [by apply (omap_set_sorted moduleId_ltb)|]. intros k d.
  rewrite (omap_find_set moduleId_ltb), in_app_iff, <- Hf. destruct (keq _ m k) eqn:K.
  - apply (keq_eq moduleId_ltb) in K as <-. rewrite Hn. split; [intros [= <-]; right; by left|].
    intros [?|[[= ->]|[]]]; done.
  - apply (keq_neq moduleId_ltb) in K. split; [auto|]. intros [?|[[= -> ->]|[]]]; done.
Qed.

Lemma represents_dup m cached rows : represents cached rows ->
  omap_find moduleId_ltb m cached = None <-> ~ In m (map fst rows).
Proof.
  intros [_ Hf]. rewrite in_map_iff. destruct (omap_find moduleId_ltb m cached) as [c|] eqn:E.
  - split; [done|]. intros H. exfalso. apply H. exists (m, c). split; [done|]. by apply Hf.
  - split; [|done]. intros _ ([k c] & <- & Hin). apply Hf in Hin. cbn [fst] in E. congruence.
Qed.

Lemma NoDup_snoc {A} (l : list A) x : NoDup (l ++ [x]) <-> NoDup l /\ x ∉ l.
Proof.
  rewrite NoDup_app. split.
  - intros (H1 & H2 & _). split; [done|]. intros Hx. apply (H2 x Hx). by apply list_elem_of_singleton.
  - intros [H1 H2]. split; [done|]. split; [|apply NoDup_singleton].
    intros y Hy Hy2. apply list_elem_of_singleton in Hy2 as ->. done.
Qed.

Lemma cache_modules_spec ms cached rows : represents cached rows -> NoDup (map fst rows) ->
  (forall cached', cache_modules ms cached = Ok cached' ->
     exists more, Forall2 reads ms more /\ NoDup (map fst (rows ++ more)) /\ represents cached' (rows ++ more)) /\
  (forall more, Forall2 reads ms more -> NoDup (map fst (rows ++ more)) ->
     exists cached', cache_modules ms cached = Ok cached' /\ represents cached' (rows ++ more)).
Proof.
  revert cached rows. induction ms as [|m ms IH]; intros cached rows Hr Hd; cbn [cache_modules]; split.
  - intros cached' [= <-]. exists []. rewrite app_nil_r. auto.
  - intros more Hm _. inversion Hm; subst. rewrite app_nil_r. eauto.
  - intros cached'. destruct (cache_module m cached) as [c1|] eqn:E; cbn [res_bind]; [|done].
    apply cache_module_spec in E as (c & Hc & Hn & ->). intros H.
    assert (NoDup (map fst (rows ++ [(lm_mod m, c)]))) as Hd1.
    { rewrite map_app. apply NoDup_snoc. split; [done|]. rewrite list_elem_of_In. by apply (represents_dup _ _ _ Hr). }
    destruct (IH _ _ (represents_set _ c _ _ Hr Hn) Hd1) as [IH1 _].
    destruct (IH1 _ H) as (more & H1 & H2 & H3). exists ((lm_mod m, c) :: more). rewrite <- app_assoc in H2, H3.
    split; [by constructor|done].
  - intros more Hm Hd2. inversion Hm as [|? [k c] ? more' Hc Hms]; subst.
    pose proof Hc as (Hk & _). cbn in Hk. subst k.
    assert (omap_find moduleId_ltb (lm_mod m) cached = None) as Hn.
    { apply (represents_dup _ _ _ Hr). rewrite <- list_elem_of_In. intros Hin. rewrite map_app in Hd2.
      apply NoDup_app in Hd2 as (_ & H & _). apply (H _ Hin). cbn. by left. }
    assert (cache_module m cached = Ok (omap_set moduleId_ltb (lm_mod m) c cached)) as -> by (apply cache_module_spec; eauto).
    cbn [res_bind]. assert (rows ++ (lm_mod m, c) :: more' = (rows ++ [(lm_mod m, c)]) ++ more') as E by by rewrite <- app_assoc.
    rewrite E in *. apply IH; [by apply represents_set| |done|done].
    rewrite map_app in Hd2. by apply NoDup_app in Hd2 as (? & _ & _).
Qed.

(** ** Replaying selection *)

Definition covered (r : Require_) (mins : Minimums) : Prop :=
  exists v, omap_find moduleId_ltb (req_mod r) mins = Some v /\ version_le (req_min r) v.

Lemma increased_covered r mins : increased r mins = false <-> covered r mins.
Proof.
  unfold increased, covered, version_le. destruct (omap_find _ _ _) as [v|].
  - rewrite Z.ltb_ge. split; [eauto|]. by intros (? & [= ->] & ?).
  - split; [done|]. by intros (? & ? & _).
Qed.

Lemma covered_set r q mins : ~ covered r mins -> covered q mins ->
  covered q (omap_set moduleId_ltb (req_mod r) (req_min r) mins).
Proof.
  intros Hn (v & H1 & H2). unfold covered. rewrite (omap_find_set moduleId_ltb).
  destruct (keq _ _ _) eqn:K; [|eauto]. apply (keq_eq moduleId_ltb) in K. exists (req_min r). split; [done|].
  destruct (version_le_total (req_min r) v); [|by eapply version_le_trans].
  exfalso. apply Hn. exists v. by rewrite K.
Qed.

Lemma covered_self r mins : covered r (omap_set moduleId_ltb (req_mod r) (req_min r) mins).
Proof. exists (req_min r). rewrite (omap_find_set_eq moduleId_ltb). split; [done|apply version_le_refl]. Qed.

Section ReplayFacts.
Context (cached rows : Cached) (roots : list Require_) (Hrep : represents cached rows).

Record replay_inv (queue : list Require_) (mins : Minimums) : Prop := {
  ri_sorted : omap_sorted moduleId_ltb mins;
  ri_needed : forall m v, omap_find moduleId_ltb m mins = Some v ->
    exists r, needed rows roots r /\ req_mod r = m /\ req_min r = v;
  ri_closed : forall m v, omap_find moduleId_ltb m mins = Some v ->
    exists c, omap_find moduleId_ltb m cached = Some c /\ forall r, In r (cm_requires c) -> In r queue \/ covered r mins;
  ri_roots : forall r, In r roots -> In r queue \/ covered r mins;
  ri_queue : forall r, In r queue -> needed rows roots r
}.

Lemma replay_inv_init : replay_inv roots [].
Proof. split; [constructor|done|done|auto|intros; by apply needed_root]. Qed.

Lemma replay_inv_skip r queue mins : replay_inv (r :: queue) mins -> covered r mins -> replay_inv queue mins.
Proof.
  intros [I1 I2 I3 I4 I5] Hc.
  assert (forall x, In x (r :: queue) \/ covered x mins -> In x queue \/ covered x mins) as Hl.
  { intros x [[->|?]|?]; auto. }
  split; auto.
  - intros m v Hm. destruct (I3 m v Hm) as (c & Hc1 & Hc2). eauto 10.
  - intros x Hx. apply I5. by right.
Qed.

Lemma replay_inv_raise r c queue mins : replay_inv (r :: queue) mins -> ~ covered r mins ->
  omap_find moduleId_ltb (req_mod r) cached = Some c ->
  replay_inv (queue ++ cm_requires c) (omap_set moduleId_ltb (req_mod r) (req_min r) mins).
Proof.
  intros [I1 I2 I3 I4 I5] Hn Hc. set (mins' := omap_set _ _ _ mins).
  assert (needed rows roots r) as Hr by (apply I5; by left).
  assert (forall x, In x (r :: queue) \/ covered x mins -> In x (queue ++ cm_requires c) \/ covered x mins') as Hl.
  { intros x [[->|?]|?]; [right; apply covered_self| |right; by apply covered_set]. left. apply in_app_iff. auto. }
  split; auto.
  - by apply (omap_set_sorted moduleId_ltb).
  - intros m v. unfold mins'. rewrite (omap_find_set moduleId_ltb). destruct (keq _ _ _) eqn:K; [|apply I2].
    apply (keq_eq moduleId_ltb) in K as <-. intros [= <-]. eauto.
  - intros m v. unfold mins' at 1. rewrite (omap_find_set moduleId_ltb). destruct (keq _ _ _) eqn:K.
    + apply (keq_eq moduleId_ltb) in K as <-. intros _. exists c. split; [done|]. intros x Hx. left. apply in_app_iff. auto.
    + intros Hm. destruct (I3 m v Hm) as (d & Hd1 & Hd2). eauto 10.
  - intros x Hx. apply in_app_iff in Hx as [Hx|Hx]; [apply I5; by right|].
    apply (needed_edge _ _ r c x Hr); [by apply Hrep|done].
Qed.

(** The edges that raises still to come can push. *)
Definition owed (mins : Minimums) : nat :=
  list_sum (map (fun r => if increased r mins then length (edges_from cached (req_mod r)) else 0) (edge_universe cached roots)).

Lemma needed_universe r : needed rows roots r -> In r (edge_universe cached roots).
Proof.
  intros H. apply in_app_iff. inversion H as [? Hr|? c ? _ Hin Hr]; subst; [by left|right].
  apply in_concat. exists (cm_requires c). split; [|done]. apply in_map_iff. eexists (_, c). split; [done|].
  apply (omap_find_In moduleId_ltb). by apply Hrep.
Qed.

Lemma owed_raise r c mins : needed rows roots r -> ~ covered r mins ->
  omap_find moduleId_ltb (req_mod r) cached = Some c ->
  owed (omap_set moduleId_ltb (req_mod r) (req_min r) mins) + length (cm_requires c) <= owed mins.
Proof.
  intros Hr Hn Hc. unfold owed. apply (sum_le_drop _ _ _ r); [|by apply needed_universe|].
  - intros q. destruct (increased q mins) eqn:E; [case_match; lia|]. apply increased_covered in E.
    apply (covered_set r) in E; [|done]. apply increased_covered in E. by rewrite E.
  - rewrite (proj2 (increased_covered _ _) (covered_self r mins)).
    assert (increased r mins = true) as -> by (apply not_false_iff_true; by rewrite increased_covered).
    unfold edges_from. rewrite Hc. lia.
Qed.

(** With the fuel [lockSatisfiesRootRequires] gives it the loop ends, with
    all the needed minimums or at a needed module the lock does not have. *)
Lemma replay_total fuel queue mins : replay_inv queue mins -> length queue + owed mins <= fuel ->
  (exists mins', replay cached fuel queue mins = Ok mins' /\ replay_inv [] mins') \/
  (exists r, needed rows roots r /\ omap_find moduleId_ltb (req_mod r) cached = None /\
     replay cached fuel queue mins = Err (lit "lock is missing required module '" ++ serializeModuleId (req_mod r) ++ lit "'")).
Proof.
  revert queue mins. induction fuel as [|n IH]; intros [|r queue] mins HI Hf; cbn [replay]; [eauto|cbn in Hf; lia|eauto|].
  cbn [length] in Hf. destruct (increased r mins) eqn:E; cbn [negb].
  - assert (~ covered r mins) as Hn by (rewrite <- increased_covered; congruence).
    assert (needed rows roots r) as Hr by (apply (ri_queue _ _ HI); by left).
    destruct (omap_find moduleId_ltb (req_mod r) cached) as [c|] eqn:Hc; [|right; eauto].
    apply IH; [by apply replay_inv_raise|]. rewrite length_app. pose proof (owed_raise r c mins Hr Hn Hc). lia.
  - apply increased_covered in E. apply IH; [by eapply replay_inv_skip|lia].
Qed.

Lemma replay_ends :
  (exists mins, replay cached (replay_fuel cached roots) roots [] = Ok mins /\ replay_inv [] mins) \/
  (exists r, needed rows roots r /\ omap_find moduleId_ltb (req_mod r) cached = None /\
     replay cached (replay_fuel cached roots) roots [] =
     Err (lit "lock is missing required module '" ++ serializeModuleId (req_mod r) ++ lit "'")).
Proof. apply replay_total; [apply replay_inv_init|]. done. Qed.

Lemma needed_covered mins r : replay_inv [] mins -> needed rows roots r -> covered r mins.
Proof.
  intros HI. induction 1 as [r Hr|r c r' _ (v & Hv & _) Hin Hr'].
  - destruct (ri_roots _ _ HI r Hr) as [[]|]. done.
  - destruct (ri_closed _ _ HI _ _ Hv) as (d & Hd1 & Hd2). apply Hrep in Hin. rewrite Hd1 in Hin. injection Hin as ->.
    destruct (Hd2 r' Hr') as [[]|]. done.
Qed.

Lemma check_minimums_spec mins : check_minimums cached mins = Ok tt <->
  forall m v, In (m, v) mins -> exists c, omap_find moduleId_ltb m cached = Some c /\ cm_selected c = v.
Proof.
  induction mins as [|[m v] mins IH]; cbn [check_minimums In]; [split; done|].
  destruct (omap_find moduleId_ltb m cached) as [c|] eqn:E.
  - destruct (compareSemVer (cm_selected c) v =? 0)%Z eqn:C; cbn [negb].
    + apply Z.eqb_eq, compareSemVer_eq in C. rewrite IH. split; [|eauto].
      intros H k w [[= <- <-]|Hin]; eauto.
    + split; [done|]. intros H. exfalso. destruct (H m v) as (d & Hd & Hv); [by left|].
      apply Z.eqb_neq in C. apply C, compareSemVer_eq. congruence.
  - split; [done|]. intros H. destruct (H m v) as (d & Hd & _); [by left|]. congruence.
Qed.

Lemma sorted_keys_NoDup {V} (mp : list (ModuleId * V)) : omap_sorted moduleId_ltb mp -> NoDup (map fst mp).
Proof.
  induction 1 as [|x l Hs IH Hx]; cbn; constructor; [|done]. rewrite list_elem_of_In, in_map_iff. intros (y & E & Hy).
  rewrite List.Forall_forall in Hx. apply Hx in Hy. rewrite E, (lt_irrefl moduleId_ltb) in Hy. done.
Qed.

Lemma keys_find {V} (mp : list (ModuleId * V)) m : omap_sorted moduleId_ltb mp ->
  m ∈ map fst mp <-> exists v, omap_find moduleId_ltb m mp = Some v.
Proof.
  intros Hs. rewrite list_elem_of_In, in_map_iff. split.
  - intros ([k v] & <- & Hin). exists v. by apply (omap_In_find moduleId_ltb).
  - intros [v Hv]. exists (m, v). split; [done|]. by apply (omap_find_In moduleId_ltb).
Qed.

Lemma accepts_replayed mins : replay_inv [] mins ->
  (length mins = length cached /\ check_minimums cached mins = Ok tt) <-> selects_needed rows roots.
Proof.
  intros HI. pose proof (ri_sorted _ _ HI) as Hs. pose proof Hrep as [Hcs Hcf].
  assert (map fst mins ⊆+ map fst cached) as Hsub.
  { apply NoDup_submseteq; [by apply sorted_keys_NoDup|]. intros m Hm. apply keys_find in Hm as [v Hv]; [|done].
    destruct (ri_closed _ _ HI _ _ Hv) as (c & Hc & _). apply keys_find; eauto. }
  rewrite check_minimums_spec. split.
  - intros [Hlen Hck]. split.
    + intros r Hr. destruct (needed_covered mins r HI Hr) as (v & Hv & Hle).
      destruct (Hck _ _ (omap_find_In moduleId_ltb _ _ _ Hv)) as (c & Hc & <-). exists c. split; [by apply Hcf|done].
    + intros m c Hin. apply Hcf in Hin.
      assert (m ∈ map fst mins) as Hm.
      { rewrite (submseteq_length_Permutation _ _ Hsub) by (rewrite !length_map; lia). apply keys_find; eauto. }
      apply keys_find in Hm as [v Hv]; [|done].
      destruct (Hck _ _ (omap_find_In moduleId_ltb _ _ _ Hv)) as (d & Hd & <-). rewrite Hin in Hd. injection Hd as <-.
      by apply (ri_needed _ _ HI).
  - intros [H1 H2]. split.
    + apply submseteq_length in Hsub as Hle. rewrite !length_map in Hle.
      assert (map fst cached ⊆+ map fst mins) as Hsub2.
      { apply NoDup_submseteq; [by apply sorted_keys_NoDup|]. intros m Hm. apply keys_find in Hm as [c Hc]; [|done].
        apply Hcf in Hc. destruct (H2 m c Hc) as (r & Hr & <- & _).
        destruct (needed_covered mins r HI Hr) as (v & Hv & _). apply keys_find; eauto. }
      apply submseteq_length in Hsub2. rewrite !length_map in Hsub2. lia.
    + intros m v Hin. apply (omap_In_find moduleId_ltb) in Hin; [|done].
      destruct (ri_needed _ _ HI _ _ Hin) as (r & Hr & <- & <-). destruct (H1 r Hr) as (c & Hc & Hle).
      exists c. split; [by apply Hcf|]. destruct (H2 _ _ Hc) as (r2 & Hr2 & Hm2 & Hv2).
      destruct (needed_covered mins r2 HI Hr2) as (w & Hw & Hle2). rewrite Hm2, Hin in Hw. injection Hw as <-.
      rewrite Hv2 in Hle2. by apply version_le_antisym.
Qed.

End ReplayFacts.

Lemma represents_nil : represents [] [].
Proof. split; [constructor|]. intros. cbn. split; done. Qed.

Lemma lock_check_spec lock roots : lockSatisfiesRootRequires lock roots = Ok tt <->
  exists rows, Forall2 reads (lk_modules lock) rows /\ NoDup (map fst rows) /\ selects_needed rows roots.
Proof.
  unfold lockSatisfiesRootRequires.
  destruct (cache_modules_spec (lk_modules lock) [] [] represents_nil (NoDup_nil_2)) as [C1 C2]. cbn [app] in C1, C2. split.
  - destruct (cache_modules (lk_modules lock) []) as [cached|] eqn:E; cbn [res_bind]; [|done].
    destruct (C1 _ eq_refl) as (rows & Hr & Hd & Hrep).
    destruct (replay_ends cached rows roots Hrep) as [(mins & -> & HI)|(r & _ & _ & ->)]; cbn [res_bind]; [|done].
    destruct (length mins =? length cached)%nat eqn:L; cbn [negb]; [|done]. intros Hc. exists rows. split; [done|]. split; [done|].
    apply (accepts_replayed cached rows roots Hrep mins HI). split; [by apply Nat.eqb_eq|done].
  - intros (rows & Hr & Hd & Hsel). destruct (C2 rows Hr Hd) as (cached & -> & Hrep). cbn [res_bind].
    destruct (replay_ends cached rows roots Hrep) as [(mins & -> & HI)|(r & Hr1 & Hr2 & _)]; cbn [res_bind].
    + destruct (proj2 (accepts_replayed cached rows roots Hrep mins HI) Hsel) as [Hlen Hc]. by rewrite Hlen, Nat.eqb_refl.
    + destruct Hsel as [H1 _]. destruct (H1 r Hr1) as (c & Hc & _). apply Hrep in Hc. congruence.
Qed.

(** Every error the check reports has a message; the error without one is what
    [replay] gives when its turns run out. *)
Definition says_why {A} (r : res A) : Prop := r <> Err [].

Lemma cache_edges_says edges : says_why (cache_edges edges).
Proof.
  induction edges as [|e edges IH]; cbn [cache_edges]; [done|]. destruct (parseRequireEdge e); [|done].
  destruct (cache_edges edges) as [rs|[|]]; done.
Qed.

Lemma cache_modules_says ms cached : says_why (cache_modules ms cached).
Proof.
  revert cached. induction ms as [|m ms IH]; intros cached; cbn [cache_modules]; [done|]. unfold cache_module.
  destruct (parseSemVer (lm_selected m)); [|done]. pose proof (cache_edges_says (lm_requires m)) as He.
  destruct (cache_edges (lm_requires m)) as [rs|[|]]; cbn [res_bind]; [|done|done].
  destruct (omap_find moduleId_ltb (lm_mod m) cached); cbn [res_bind]; [done|apply IH].
Qed.

Lemma check_minimums_says cached mins : says_why (check_minimums cached mins).
Proof.
  induction mins as [|[m v] mins IH]; cbn [check_minimums]; [done|].
  destruct (omap_find moduleId_ltb m cached) as [c|]; [|done]. by destruct (negb _).
Qed.

Lemma lock_check_says lock roots : says_why (lockSatisfiesRootRequires lock roots).
Proof.
  unfold lockSatisfiesRootRequires.
  destruct (cache_modules_spec (lk_modules lock) [] [] represents_nil (NoDup_nil_2)) as [C1 _]. cbn [app] in C1.
  pose proof (cache_modules_says (lk_modules lock) []) as Hc.
  destruct (cache_modules (lk_modules lock) []) as [cached|[|]] eqn:E; cbn [res_bind]; [|done|done].
  destruct (C1 _ eq_refl) as (rows & _ & _ & Hrep).
  destruct (replay_ends cached rows roots Hrep) as [(mins & -> & _)|(r & _ & _ & ->)]; cbn [res_bind]; [|done].
  destruct (negb _); [done|apply check_minimums_says].
Qed.


(** ** A freshly written lock *)

(** What an edge keeps of a requirement. *)
Definition bare (r : Require_) : Require_ := MkRequire (req_mod r) (req_min r) [] false.

(** Requirements as [dependencyToRequire] makes them, with a printable minimum. *)
Definition identity_major (v : Version) : Z := if (major v <=? 1)%Z then 1%Z else major v.
Definition edge_ok (r : Require_) : Prop :=
  version_ok (req_min r) /\ mid_major (req_mod r) = identity_major (req_min r).

Lemma find_last_app c p s : find_last_of c s = None -> find_last_of c (p ++ c :: s) = Some (length p).
Proof.
  intros H. induction p as [|x p IH]; cbn [app find_last_of length]; [by rewrite H, eqc_refl|]. by rewrite IH.
Qed.

Lemma find_last_none c s : Forall (fun x => eqc x c = false) s -> find_last_of c s = None.
Proof. induction 1 as [|x s Hx Hs IH]; cbn; [done|]. by rewrite IH, Hx. Qed.

Lemma format_no_at v : version_ok v -> find_last_of "@" (formatSemVer v) = None.
Proof.
  intros (H1 & H2 & H3). apply find_last_none.
  assert (forall z, (0 <= z)%Z -> Forall (fun x => eqc x "@" = false) (to_string z)) as Hd.
  { intros z Hz. destruct (to_string_run z Hz) as [_ Hr]. eapply Forall_impl; [exact Hr|]. intros x. each_char x; done. }
  unfold formatSemVer. repeat (apply Forall_app; split); try (apply Hd; lia); repeat constructor.
Qed.

Lemma edge_roundtrip r : edge_ok r -> parseRequireEdge (serializeRequireEdge r) = Some (bare r).
Proof.
  intros [Hv Hm]. unfold parseRequireEdge, serializeRequireEdge. change (lit "@" ++ ?x) with ("@"%char :: x).
  rewrite find_last_app by by apply format_no_at. unfold substr.
  assert (drop (length (mid_path (req_mod r)) + 1) (mid_path (req_mod r) ++ "@"%char :: formatSemVer (req_min r))
          = formatSemVer (req_min r)) as ->.
  { replace (length (mid_path (req_mod r)) + 1) with (length (mid_path (req_mod r) ++ ["@"%char])) by (rewrite length_app; cbn; lia).
    rewrite (app_assoc _ ["@"%char] (formatSemVer (req_min r))). apply drop_app_length. }
  rewrite take_ge by (rewrite length_app; cbn; lia).
  pose proof (parse_format [] (req_min r) ltac:(by left) Hv) as Hp. cbn [app] in Hp. rewrite Hp.
  rewrite drop_0, take_app_length. unfold bare. fold (identity_major (req_min r)). rewrite <- Hm. by destruct (req_mod r).
Qed.

Lemma dependency_identity d r : dependencyToRequire d = Ok r -> mid_major (req_mod r) = identity_major (req_min r).
Proof. unfold dependencyToRequire. destruct (parseSemVer _); [|done]. by intros [= <-]. Qed.

Lemma expand_identity deps rs : expand_deps deps = Ok rs ->
  Forall (fun r => mid_major (req_mod r) = identity_major (req_min r)) rs.
Proof.
  revert rs. induction deps as [|d deps IH]; intros rs; cbn [expand_deps]; [by intros [= <-]|].
  destruct (dependencyToRequire d) as [r|] eqn:E; cbn [res_bind]; [|done].
  destruct (expand_deps deps) as [rs'|]; cbn [res_bind]; [|done]. intros [= <-].
  constructor; [by eapply dependency_identity|by apply IH].
Qed.

Section Fresh.
Context {MP : ModuleProvider}.

Lemma reqs_identity m v subs : reqs m v = Some subs -> Forall (fun r => mid_major (req_mod r) = identity_major (req_min r)) subs.
Proof.
  unfold reqs. destruct (manifestOf m v) as [pm|]; [|done]. destruct (expandRequires pm) as [s|] eqn:E; [|done].
  intros [= <-]. by eapply expand_identity.
Qed.

Definition row_of (e : BuildListEntry) : ModuleId * CachedModule :=
  (ble_mod e, MkCached (selected e) (map bare (requires_ e))).

(** Every version the lock has to write prints and reads back. *)
Definition printable (e : BuildListEntry) : Prop :=
  version_ok (selected e) /\ Forall (fun r => version_ok (req_min r)) (requires_ e).

Lemma row_reads e subs : printable e -> reqs (ble_mod e) (selected e) = Some subs -> requires_ e = subs ->
  reads (locked_of e) (row_of e).
Proof.
  intros [Hv He] Hr <-. apply reqs_identity in Hr. split; [done|]. cbn [locked_of row_of lm_selected lm_requires snd cm_selected cm_requires].
  split; [exact (parse_format [] _ ltac:(by left) Hv)|].
  induction (requires_ e) as [|r rs IH]; [done|]. inversion_clear He. inversion_clear Hr. cbn [map].
  rewrite edge_roundtrip by done. by rewrite IH.
Qed.

Section Rows.
Context (roots : list Require_) (entries : Entries) (HI : mvs_inv roots [] entries).
Let rows := map row_of (map snd entries).

Lemma in_rows m c : In (m, c) rows <-> exists e, omap_find moduleId_ltb m entries = Some e /\ c = (row_of e).2.
Proof.
  unfold rows. rewrite in_map_iff. split.
  - intros (e & [= <- <-] & He). exists e. split; [|done]. by apply (entry_in _ _ (inv_keyed _ _ _ HI) (inv_sorted _ _ _ HI)).
  - intros (e & He & ->). assert (ble_mod e = m) as <- by by rewrite (inv_keyed _ _ _ HI _ _ He).
    exists e. split; [done|]. by apply (entry_in _ _ (inv_keyed _ _ _ HI) (inv_sorted _ _ _ HI)).
Qed.

Lemma needed_satisfied r : needed rows roots r -> satisfied r entries.
Proof.
  induction 1 as [r Hr|r c r' _ _ Hin Hr'].
  - destruct (inv_roots _ _ _ HI r Hr) as [[]|]. done.
  - apply in_rows in Hin as (e & He & ->). cbn in Hr'. apply in_map_iff in Hr' as (q & <- & Hq).
    destruct (inv_entry _ _ _ HI _ _ He) as (_ & _ & Hc). destruct (Hc q Hq) as [[]|]. done.
Qed.

Lemma asked_needed r : monotone -> asked roots r ->
  exists q, needed rows roots q /\ req_mod q = req_mod r /\ version_le (req_min r) (req_min q).
Proof.
  intros Hmono. induction 1 as [r Hr|r subs r' Hr IH Hs Hin].
  - exists r. split; [by apply needed_root|]. split; [done|apply version_le_refl].
  - destruct IH as (q & Hq & Hm & Hle). destruct (needed_satisfied q Hq) as (e & He & Hle2).
    destruct (inv_entry _ _ _ HI _ _ He) as (Ha & _ & _). rewrite Hm in Ha.
    destruct (Hmono _ _ _ _ _ _ (version_le_trans _ _ _ Hle Hle2) Hs Ha Hin) as (r2 & Hin2 & Hm2 & Hle3).
    exists (bare r2). split; [|done]. apply (needed_edge _ _ q (row_of e).2); [done|apply in_rows; eauto|].
    cbn. apply in_map_iff. eauto.
Qed.

Lemma rows_selected : monotone -> selects_needed rows roots.
Proof.
  intros Hmono. split.
  - intros r Hr. destruct (needed_satisfied r Hr) as (e & He & Hle). exists (row_of e).2. split; [apply in_rows; eauto|done].
  - intros m c Hin. apply in_rows in Hin as (e & He & ->). cbn [row_of snd cm_selected].
    destruct (inv_entry _ _ _ HI _ _ He) as (_ & (r & Hr & Hm & Hv) & _).
    destruct (asked_needed r Hmono Hr) as (q & Hq & Hmq & Hle). exists q. split; [done|]. split; [congruence|].
    destruct (needed_satisfied q Hq) as (e2 & He2 & Hle2). rewrite Hmq, Hm, He in He2. injection He2 as <-.
    rewrite Hv in Hle. by apply version_le_antisym.
Qed.

End Rows.

(** What a lock records of a build-list entry; the rest is filled in when the
    entry is fetched. *)
Definition chosen (e : BuildListEntry) : ModuleId * Version * list Require_ := (ble_mod e, selected e, requires_ e).

Lemma chosen_rows bl bl' : map chosen bl' = map chosen bl -> map row_of bl' = map row_of bl.
Proof.
  revert bl. induction bl' as [|e' bl' IH]; intros [|e bl]; try done. cbn [map]. intros [= H1 H2 H3 H4].
  unfold row_of at 1 3. rewrite H1, H2, H3. by rewrite (IH bl H4).
Qed.

Lemma fresh_lock_rows roots bl bl' : monotone -> selectVersions roots = MkMvsResult true bl [] ->
  map chosen bl' = map chosen bl -> Forall printable bl' ->
  Forall2 reads (lk_modules (lockfileFromBuildList bl')) (map row_of bl') /\
  NoDup (map fst (map row_of bl')) /\ selects_needed (map row_of bl') roots.
Proof.
  intros Hmono H Hc Hp. apply select_inv in H as (entries & -> & HI & _). split; [|split].
  - assert (Forall (fun e => exists subs, reqs (ble_mod e) (selected e) = Some subs /\ requires_ e = subs) bl') as Hr.
    { assert (forall e, In e (map snd entries) -> reqs (ble_mod e) (selected e) = Some (requires_ e)) as Hin.
      { intros e He. apply (entry_in _ _ (inv_keyed _ _ _ HI) (inv_sorted _ _ _ HI)) in He. by apply (inv_entry _ _ _ HI). }
      clear Hp HI. revert Hin Hc. generalize (map snd entries). induction bl' as [|e' bl' IH]; intros [|e bl] Hin Hc; try done.
      cbn [map] in Hc. injection Hc as H1 H2 H3 H4. constructor.
      - exists (requires_ e). split; [|done]. rewrite H1, H2. apply Hin. by left.
      - apply (IH bl); [|done]. intros x Hx. apply Hin. by right. }
    cbn [lockfileFromBuildList lk_modules]. clear Hc HI. induction bl' as [|e bl' IH]; cbn [map]; constructor.
    + inversion_clear Hp. inversion_clear Hr as [|? ? (subs & Hs1 & Hs2) _]. by eapply row_reads.
    + inversion_clear Hp. inversion_clear Hr. by apply IH.
  - rewrite (chosen_rows _ _ Hc), map_map.
    pose proof (entries_sorted _ (inv_sorted _ _ _ HI) (inv_keyed _ _ _ HI)) as Hs.
    clear -Hs. induction Hs as [|e l Hs IH Hx]; [constructor|]. constructor; [|done]. rewrite list_elem_of_In, (in_map_iff (fun x => (row_of x).1)). intros (y & E & Hy).
    rewrite List.Forall_forall in Hx. apply Hx in Hy. cbn in E. rewrite E, (lt_irrefl moduleId_ltb) in Hy. done.
  - rewrite (chosen_rows _ _ Hc). by apply rows_selected.
Qed.

(** A fresh lock is accepted: over a provider whose newer versions
    require at least what older ones do, the lock made from a successful
    selection, once its entries are fetched, passes the offline check against
    the same root requirements, so a build right after [trident lock] uses it
    without asking the provider again. *)
Theorem fresh_lock_accepted roots bl bl' :
  monotone -> selectVersions roots = MkMvsResult true bl [] ->
  map chosen bl' = map chosen bl -> Forall printable bl' ->
  lockSatisfiesRootRequires (lockfileFromBuildList bl') roots = Ok tt.
Proof. intros Hm H Hc Hp. apply lock_check_spec. eexists. by apply (fresh_lock_rows roots bl bl'). Qed.

End Fresh.

Lemma fresh_lock_accepted_witness :
  lockSatisfiesRootRequires (lockfileFromBuildList diamond_list) diamond_roots = Ok tt.
Proof.
  apply (@fresh_lock_accepted diamond diamond_roots diamond_list diamond_list).
  - apply diamond_monotone.
  - apply diamond_selects. by left.
  - reflexivity.
  - repeat constructor; cbn; lia.
Defined.

(** The check refuses some fresh locks: when a newer version of a module lowers
    a requirement of an older one, selection keeps the minimum the older version
    asked for, the check replays only the edges of selected versions, and the
    lock [trident lock] has just written is reported as stale. *)
Theorem fresh_lock_rejected :
  exists (MP : ModuleProvider) roots bl, selectVersions roots = MkMvsResult true bl [] /\ Forall printable bl /\
    is_ok (lockSatisfiesRootRequires (lockfileFromBuildList bl) roots) = false.
Proof.
  exists lowering, [need "a" 1 0 0; need "a" 1 1 0].
  eexists. split; [vm_compute; reflexivity|]. split; [repeat constructor; cbn; lia|]. vm_compute. reflexivity.
Qed.
