(* ===== verification/Sha256.v ===== *)
(** * SHA-256

    Models [tools/trident/hash.cpp]: the compression function on 32-bit words
    (every [uint32_t] operation wraps), the streaming [update] with its 64-byte
    buffer, and [final]'s padding.  [Fips] is the standard, written from its text
    on the bits of the message; the class computes it, however the message is cut
    into updates.  [sha256_spec] is the step between them: pad, split into
    blocks of bytes, fold. *)

From S2P Require Import Prelude.
Local Open Scope Z_scope.

(** The constants of the source, in decimal. *)
Definition kH0 : list Z :=
  [1779033703; 3144134277; 1013904242; 2773480762; 1359893119; 2600822924; 528734635; 1541459225].

Definition kK : list Z := [
  1116352408; 1899447441; 3049323471; 3921009573; 961987163; 1508970993; 2453635748; 2870763221;
  3624381080; 310598401; 607225278; 1426881987; 1925078388; 2162078206; 2614888103; 3248222580;
  3835390401; 4022224774; 264347078; 604807628; 770255983; 1249150122; 1555081692; 1996064986;
  2554220882; 2821834349; 2952996808; 3210313671; 3336571891; 3584528711; 113926993; 338241895;
  666307205; 773529912; 1294757372; 1396182291; 1695183700; 1986661051; 2177026350; 2456956037;
  2730485921; 2820302411; 3259730800; 3345764771; 3516065817; 3600352804; 4094571909; 275423344;
  430227734; 506948616; 659060556; 883997877; 958139571; 1322822218; 1537002063; 1747873779;
  1955562222; 2024104815; 2227730452; 2361852424; 2428436474; 2756734187; 3204031479; 3329325298].

Definition u32 (z : Z) : Z := z mod 2 ^ 32.
Definition rotr (x n : Z) : Z := Z.lor (Z.shiftr x n) (u32 (Z.shiftl x (32 - n))).

Definition nthz (l : list Z) (i : nat) : Z := nth i l 0.

(** [w[i]] for [i < 16]: four bytes, big-endian. *)
Definition block_word (block : str) (i : nat) : Z :=
  let b k := code (char_at block (i * 4 + k)%nat) in
  Z.lor (Z.lor (Z.lor (Z.shiftl (b 0%nat) 24) (Z.shiftl (b 1%nat) 16)) (Z.shiftl (b 2%nat) 8)) (b 3%nat).

(** The message schedule: one more word at the end of [w]. *)
Definition next_word (w : list Z) : Z :=
  let i := length w in
  let w15 := nthz w (i - 15) in
  let w2 := nthz w (i - 2) in
  let s0 := Z.lxor (Z.lxor (rotr w15 7) (rotr w15 18)) (Z.shiftr w15 3) in
  let s1 := Z.lxor (Z.lxor (rotr w2 17) (rotr w2 19)) (Z.shiftr w2 10) in
  u32 (nthz w (i - 16) + s0 + nthz w (i - 7) + s1).

Fixpoint extend (n : nat) (w : list Z) : list Z :=
  match n with O => w | S n' => extend n' (w ++ [next_word w]) end.

Record Regs := MkRegs { ra : Z; rb : Z; rc : Z; rd : Z; re : Z; rf : Z; rg : Z; rh : Z }.

Definition sha_round (k w : Z) (r : Regs) : Regs :=
  let '(MkRegs a b c d e f g h) := r in
  let S1 := Z.lxor (Z.lxor (rotr e 6) (rotr e 11)) (rotr e 25) in
  let ch := Z.lxor (Z.land e f) (Z.land (2 ^ 32 - 1 - e) g) in
  let temp1 := u32 (h + S1 + ch + k + w) in
  let S0 := Z.lxor (Z.lxor (rotr a 2) (rotr a 13)) (rotr a 22) in
  let maj := Z.lxor (Z.lxor (Z.land a b) (Z.land a c)) (Z.land b c) in
  let temp2 := u32 (S0 + maj) in
  MkRegs (u32 (temp1 + temp2)) a b c (u32 (d + temp1)) e f g.

Definition processBlock (state : list Z) (block : str) : list Z :=
  let w := extend 48 (map (block_word block) (seq 0 16)) in
  let s := nthz state in
  let r0 := MkRegs (s 0%nat) (s 1%nat) (s 2%nat) (s 3%nat) (s 4%nat) (s 5%nat) (s 6%nat) (s 7%nat) in
  let r := fold_left (fun r kw => sha_round kw.1 kw.2 r) (combine kK w) r0 in
  [u32 (s 0%nat + ra r); u32 (s 1%nat + rb r); u32 (s 2%nat + rc r); u32 (s 3%nat + rd r);
   u32 (s 4%nat + re r); u32 (s 5%nat + rf r); u32 (s 6%nat + rg r); u32 (s 7%nat + rh r)].

(** The hasher: [buffer] holds the first [bufferLen_] bytes of [buffer_]. *)
Record Sha256 := MkSha { sha_state : list Z; bitLen : Z; buffer : str }.
Definition sha_init : Sha256 := MkSha kH0 0 [].

(** The copy loop of [update]; each turn takes at least one byte. *)
Fixpoint update_loop (fuel : nat) (state : list Z) (buf data : str) : list Z * str :=
  match fuel, data with
  | _, [] => (state, buf)
  | O, _ => (state, buf)
  | S f, _ =>
      let n := Nat.min (64 - length buf) (length data) in
      let buf' := buf ++ take n data in
      if (length buf' =? 64)%nat then update_loop f (processBlock state buf') [] (drop n data)
      else update_loop f state buf' (drop n data)
  end.

Definition sha_update (h : Sha256) (data : str) : Sha256 :=
  let r := update_loop (length data) (sha_state h) (buffer h) data in
  MkSha r.1 (wrap_u 64 (bitLen h + Z.of_nat (length data) * 8)) r.2.

(** [while (bufferLen_ != 56) update(&zero, 1)] *)
Fixpoint pad_zeros (fuel : nat) (h : Sha256) : Sha256 :=
  match fuel with
  | O => h
  | S f => if (length (buffer h) =? 56)%nat then h else pad_zeros f (sha_update h [c_nul])
  end.

Definition be_bytes (n : nat) (z : Z) : str :=
  map (fun i => chr (Z.shiftr z (8 * Z.of_nat (n - 1 - i)) mod 256)) (seq 0 n).

Definition sha_final (h : Sha256) : str :=
  let h2 := pad_zeros 64 (sha_update h [chr 0x80]) in
  let state := processBlock (sha_state h2) (buffer h2 ++ be_bytes 8 (bitLen h)) in
  concat (map (be_bytes 4) state).

Definition hex_digit (v : Z) : ascii := char_at (lit "0123456789abcdef") (Z.to_nat v).
Definition to_hex (s : str) : str := concat (map (fun c => [hex_digit (Z.shiftr (code c) 4); hex_digit (Z.land (code c) 0xf)]) s).
Definition finalHex (h : Sha256) : str := to_hex (sha_final h).

Definition sha256Hex (s : str) : str := finalHex (sha_update sha_init s).

Example sha256_empty : sha256Hex [] = lit "e3b0c44298fc1c149afbf4c8996fb92427ae41e4649b934ca495991b7852b855".
Proof. vm_compute. reflexivity. Qed.
Example sha256_abc : sha256Hex (lit "abc") = lit "ba7816bf8f01cfea414140de5dae2223b00361a396177a9cb410ff61f20015ad".
Proof. vm_compute. reflexivity. Qed.
Example sha256_two_blocks :
  sha256Hex (lit "abcdbcdecdefdefgefghfghighijhijkijkljklmklmnlmnomnopnopq")
  = lit "248d6a61d20638b8e5c026930c3e6039a33ce45964ff2167f6ecedd419db06c1".
Proof. vm_compute. reflexivity. Qed.

(** ** The standard

    FIPS 180-4, written from its text and not from the code: words are built from
    their bits, the constants are computed from primes, the message is a
    sequence of bits, and nothing of the model above is used but the type of
    characters and their codes. *)
Module Fips.

(** A 32-bit word given bit by bit. *)
Definition of_bits (f : Z -> bool) : Z :=
  fold_right (fun i acc => Z.b2z (f (Z.of_nat i)) * 2 ^ Z.of_nat i + acc) 0 (seq 0 32).

(** Section 2.2.2 and equations 4.2 to 4.7: rotations move bits around the word,
    [Ch] chooses and [Maj] takes the majority bit by bit. *)
Definition ROTR (n x : Z) : Z := of_bits (fun i => Z.testbit x ((i + n) mod 32)).
Definition SHR (n x : Z) : Z := x / 2 ^ n.
Definition parity (x y z : Z) : Z := of_bits (fun i => xorb (Z.testbit x i) (xorb (Z.testbit y i) (Z.testbit z i))).
Definition Ch (x y z : Z) : Z := of_bits (fun i => if Z.testbit x i then Z.testbit y i else Z.testbit z i).
Definition Maj (x y z : Z) : Z :=
  of_bits (fun i => 2 <=? Z.b2z (Z.testbit x i) + Z.b2z (Z.testbit y i) + Z.b2z (Z.testbit z i)).
Definition Sum0 (x : Z) : Z := parity (ROTR 2 x) (ROTR 13 x) (ROTR 22 x).
Definition Sum1 (x : Z) : Z := parity (ROTR 6 x) (ROTR 11 x) (ROTR 25 x).
Definition sigma0 (x : Z) : Z := parity (ROTR 7 x) (ROTR 18 x) (SHR 3 x).
Definition sigma1 (x : Z) : Z := parity (ROTR 17 x) (ROTR 19 x) (SHR 10 x).

Definition plus (xs : list Z) : Z := fold_right Z.add 0 xs mod 2 ^ 32.

(** Sections 4.2.2 and 5.3.3: the first 32 bits of the fractional parts of the
    cube roots of the first 64 primes and of the square roots of the first 8. *)
Definition is_prime (n : nat) : bool := (2 <=? n)%nat && forallb (fun d => negb (n mod d =? 0)%nat) (seq 2 (n - 2)).
Definition primes (k : nat) : list Z := map Z.of_nat (take k (List.filter is_prime (seq 0 320))).

(** The largest [r] whose cube is at most [n], by its bits from the highest. *)
Definition cube_root (n : Z) : Z :=
  fold_left (fun r i => let r' := r + 2 ^ Z.of_nat i in if r' ^ 3 <=? n then r' else r) (rev (seq 0 40)) 0.

Definition K : list Z := map (fun q => cube_root (q * 2 ^ 96) mod 2 ^ 32) (primes 64).
Definition H0 : list Z := map (fun q => Z.sqrt (q * 2 ^ 64) mod 2 ^ 32) (primes 8).

(** Section 5.1.1: a one, as few zeros as bring the length to 448 modulo 512,
    and the length of the message in 64 bits, which are its low bits when there are more. *)
Definition bits_of (n : nat) (z : Z) : list bool := map (fun i => Z.testbit z (Z.of_nat (n - 1 - i))) (seq 0 n).
Definition message_bits (s : str) : list bool := concat (map (fun c => bits_of 8 (code c)) s).
Definition pad (m : list bool) : list bool :=
  let l := Z.of_nat (length m) in
  m ++ [true] ++ replicate (Z.to_nat ((448 - (l + 1)) mod 512)) false ++ bits_of 64 l.

(** Section 5.2.1: blocks of 512 bits, each sixteen words, most significant bit first. *)
Fixpoint blocks (n : nat) (m : list bool) : list (list bool) :=
  match n with O => [] | S n' => take 512 m :: blocks n' (drop 512 m) end.
Definition value (bs : list bool) : Z := fold_left (fun acc b => 2 * acc + Z.b2z b) bs 0.
Definition word_at (block : list bool) (t : nat) : Z := value (take 32 (drop (32 * t) block)).

(** Section 6.2.2: the schedule, the latest word first; the rounds; the sum. *)
Fixpoint schedule (block : list bool) (n : nat) : list Z :=
  match n with
  | O => []
  | S t =>
      let w := schedule block t in
      let back k := nth (k - 1) w 0 in
      (if (t <? 16)%nat then word_at block t
       else plus [sigma1 (back 2%nat); back 7%nat; sigma0 (back 15%nat); back 16%nat]) :: w
  end.

Definition step (r : list Z) (kw : Z * Z) : list Z :=
  match r with
  | [a; b; c; d; e; f; g; h] =>
      let T1 := plus [h; Sum1 e; Ch e f g; kw.1; kw.2] in
      let T2 := plus [Sum0 a; Maj a b c] in
      [plus [T1; T2]; a; b; c; plus [d; T1]; e; f; g]
  | _ => r
  end.

Definition compress (H : list Z) (block : list bool) : list Z :=
  zip_with (fun x y => plus [x; y]) (fold_left step (combine K (rev (schedule block 64))) H) H.

Definition hash (m : list bool) : list Z :=
  let padded := pad m in fold_left compress (blocks (length padded / 512) padded) H0.

(** The digest: the eight words in hexadecimal, most significant digit first. *)
Definition hex (d : Z) : ascii := if d <? 10 then chr (48 + d) else chr (97 + (d - 10)).
Definition word_hex (w : Z) : str := map (fun j => hex (w / 16 ^ Z.of_nat (7 - j) mod 16)) (seq 0 8).
Definition sha256 (s : str) : str := concat (map word_hex (hash (message_bits s))).

(** The roots are roots. *)
Lemma cube_roots_exact q : In q (primes 64) -> let r := cube_root (q * 2 ^ 96) in r ^ 3 <= q * 2 ^ 96 < (r + 1) ^ 3.
Proof.
  intros Hq. assert (forallb (fun q => let r := cube_root (q * 2 ^ 96) in (r ^ 3 <=? q * 2 ^ 96) && (q * 2 ^ 96 <? (r + 1) ^ 3))
    (primes 64) = true) as H by (vm_compute; reflexivity).
  rewrite forallb_forall in H. apply H in Hq. cbv zeta in *. apply andb_prop in Hq as [H1 H2].
  split; [by apply Z.leb_le|by apply Z.ltb_lt].
Qed.

End Fips.

Lemma kK_standard : kK = Fips.K.
Proof. vm_compute. reflexivity. Qed.
Lemma kH0_standard : kH0 = Fips.H0.
Proof. vm_compute. reflexivity. Qed.

(** ** Streaming is folding over blocks *)

Local Open Scope nat_scope.

(** Full 64-byte blocks are folded, the rest is kept. *)
Fixpoint absorb (fuel : nat) (state : list Z) (s : str) : list Z * str :=
  match fuel with
  | O => (state, s)
  | S f => if length s <? 64 then (state, s) else absorb f (processBlock state (take 64 s)) (drop 64 s)
  end.

(** The padding: a 1 bit, zeros up to 56 modulo 64, and the bit length. *)
Definition zero_count (len : nat) : nat := (119 - len mod 64) mod 64.
Definition padded (s : str) : str :=
  s ++ [chr 0x80] ++ replicate (zero_count (length s)) c_nul ++ be_bytes 8 (wrap_u 64 (Z.of_nat (length s) * 8)).

Definition sha256_spec (s : str) : str :=
  to_hex (concat (map (be_bytes 4) (absorb (length (padded s)) kH0 (padded s)).1)).

Lemma absorb_short fuel state s : length s < 64 -> absorb fuel state s = (state, s).
Proof. intros H. destruct fuel; [done|]. cbn [absorb]. by destruct (Nat.ltb_spec (length s) 64); [|lia]. Qed.

Lemma absorb_fuel f1 f2 state s : length s <= f1 -> length s <= f2 -> absorb f1 state s = absorb f2 state s.
Proof.
  revert f2 state s. induction f1 as [|f1 IH]; intros [|f2] state s H1 H2; try done; cbn [absorb];
    destruct (Nat.ltb_spec (length s) 64); try done; try lia.
  apply IH; rewrite length_drop; lia.
Qed.

Lemma absorb_rest fuel state s : length s <= fuel -> length (absorb fuel state s).2 < 64.
Proof.
  revert state s. induction fuel as [|f IH]; intros state s H; cbn [absorb]; [cbn; lia|].
  destruct (Nat.ltb_spec (length s) 64); [done|]. apply IH. rewrite length_drop. lia.
Qed.

Lemma absorb_full fuel state s : length s = 64 -> 0 < fuel -> absorb fuel state s = (processBlock state s, []).
Proof.
  intros H Hf. destruct fuel as [|f]; [lia|]. cbn [absorb]. destruct (Nat.ltb_spec (length s) 64); [lia|].
  rewrite take_ge, drop_ge by lia. apply absorb_short. cbn. lia.
Qed.

(** Absorbing in two steps. *)
Lemma absorb_app f1 f2 f state a b : length a <= f1 -> length a + length b <= f2 -> length a + length b <= f ->
  absorb f state (a ++ b) =
  let r := absorb f1 state a in absorb f2 r.1 (r.2 ++ b).
Proof.
  revert f state a. induction f1 as [|f1 IH]; intros f state a H1 H2 H3.
  - destruct a; [|cbn in H1; lia]. cbn. apply absorb_fuel; cbn in *; lia.
  - cbn [absorb]. destruct (Nat.ltb_spec (length a) 64).
    + cbn [fst snd]. apply absorb_fuel; rewrite length_app; lia.
    + destruct f as [|f]; [lia|]. cbn [absorb]. pose proof (length_app a b).
      destruct (Nat.ltb_spec (length (a ++ b)) 64); [lia|].
      rewrite take_app_le, drop_app_le by lia. apply IH; rewrite length_drop; lia.
Qed.

Lemma update_loop_absorb fuel state buf data : length buf < 64 -> length data <= fuel ->
  update_loop fuel state buf data = absorb (length buf + length data) state (buf ++ data).
Proof.
  revert state buf data. induction fuel as [|f IH]; intros state buf data Hb Hd.
  - destruct data; [|cbn in Hd; lia]. cbn [update_loop]. rewrite app_nil_r. by rewrite absorb_short.
  - destruct data as [|c data]; [cbn [update_loop]; rewrite app_nil_r; by rewrite absorb_short|].
    cbn [update_loop]. set (dt := c :: data) in *. set (n := Nat.min (64 - length buf) (length dt)).
    assert (0 < n) as Hn by (subst n dt; cbn; lia).
    assert (length (buf ++ take n dt) = length buf + n) as Hl by (rewrite length_app, length_take; subst n; lia).
    assert (buf ++ dt = (buf ++ take n dt) ++ drop n dt) as Hs by (by rewrite <- app_assoc, take_drop).
    rewrite Hl. destruct (Nat.eqb_spec (length buf + n) 64) as [E|E].
    + rewrite IH by (cbn; rewrite ?length_drop; lia). rewrite Hs.
      rewrite (absorb_app (length buf + n) (length buf + length dt) (length buf + length dt)) by (rewrite ?length_drop; lia).
      rewrite (absorb_full _ _ (buf ++ take n dt)) by lia. cbn [fst snd app length Nat.add].
      apply absorb_fuel; rewrite length_drop; lia.
    + assert (n = length dt) as Hnd by lia. rewrite (drop_ge dt n), (take_ge dt n) in * by lia.
      destruct f; cbn [update_loop]; rewrite Hs, app_nil_r; symmetry; apply absorb_short; lia.
Qed.

Definition sha_wf (h : Sha256) : Prop := length (buffer h) < 64 /\ (0 <= bitLen h < 2 ^ 64)%Z.

Lemma sha_update_spec h data : sha_wf h ->
  let r := absorb (length (buffer h) + length data) (sha_state h) (buffer h ++ data) in
  sha_update h data = MkSha r.1 (wrap_u 64 (bitLen h + Z.of_nat (length data) * 8)) r.2.
Proof. intros [Hb _]. unfold sha_update. by rewrite update_loop_absorb. Qed.

Lemma sha_update_wf h data : sha_wf h -> sha_wf (sha_update h data).
Proof.
  intros H. rewrite sha_update_spec by done. split; [|apply Z.mod_pos_bound; lia].
  apply absorb_rest. rewrite length_app. lia.
Qed.

Lemma sha_update_app_lemma h a b : sha_wf h -> sha_update (sha_update h a) b = sha_update h (a ++ b).
Proof.
  intros H. rewrite (sha_update_spec (sha_update h a)) by by apply sha_update_wf.
  rewrite (sha_update_spec h a), (sha_update_spec h (a ++ b)) by done. cbn [sha_state buffer bitLen].
  rewrite app_assoc.
  assert (length (buffer h ++ a) = length (buffer h) + length a) as Hl by apply length_app.
  rewrite (absorb_app (length (buffer h) + length a) (length (buffer h) + length a + length b)
             (length (buffer h) + length (a ++ b))) by (rewrite ?length_app; lia). cbv zeta.
  set (r := absorb (length (buffer h) + length a) (sha_state h) (buffer h ++ a)).
  assert (length r.2 <= length (buffer h) + length a) as Hr.
  { pose proof (absorb_rest (length (buffer h) + length a) (sha_state h) (buffer h ++ a) ltac:(lia)) as Hr.
    fold r in Hr. destruct (Nat.ltb_spec (length (buffer h ++ a)) 64) as [Hlt|]; [|lia].
    subst r. rewrite absorb_short by done. cbn. lia. }
  rewrite (absorb_fuel (length r.2 + length b) (length (buffer h) + length a + length b)) by (rewrite length_app; lia).
  f_equal. unfold wrap_u. rewrite length_app, Z.add_mod_idemp_l by lia. f_equal. lia.
Qed.

Lemma absorb_rest_length fuel state s : length s <= fuel -> length (absorb fuel state s).2 = length s mod 64.
Proof.
  revert state s. induction fuel as [|f IH]; intros state s H; cbn [absorb].
  - by destruct s; [|cbn in H; lia].
  - destruct (Nat.ltb_spec (length s) 64); [cbn [snd]; by rewrite Nat.mod_small|].
    rewrite IH by (rewrite length_drop; lia). rewrite length_drop.
    replace (length s) with (length s - 64 + 1 * 64) at 2 by lia. by rewrite Nat.Div0.mod_add.
Qed.

Lemma sha_update_buffer h data : sha_wf h ->
  length (buffer (sha_update h data)) = (length (buffer h) + length data) mod 64.
Proof.
  intros H. rewrite sha_update_spec by done. cbn [buffer]. rewrite absorb_rest_length by (rewrite length_app; lia).
  by rewrite length_app.
Qed.

Lemma sha_update_nil h : sha_wf h -> sha_update h [] = h.
Proof.
  intros H. rewrite sha_update_spec by done. destruct H as [Hb Hl]. rewrite app_nil_r, absorb_short by done.
  destruct h as [st bl buf]. cbn in *. f_equal. unfold wrap_u. rewrite Z.add_0_r, Z.mod_small; [done|lia].
Qed.

Lemma pad_zeros_spec fuel h k : sha_wf h -> (length (buffer h) + k) mod 64 = 56 -> k < 64 -> k < fuel ->
  pad_zeros fuel h = sha_update h (replicate k c_nul).
Proof.
  revert fuel h. induction k as [|k IH]; intros fuel h Hw Hk Hk2 Hf; (destruct fuel as [|f]; [lia|]); cbn [pad_zeros].
  - rewrite Nat.add_0_r, Nat.mod_small in Hk by (destruct Hw; lia). rewrite Hk. symmetry. by apply sha_update_nil.
  - assert (length (buffer h) <> 56) as Hne.
    { intros E. rewrite E in Hk. destruct (Nat.ltb_spec (56 + S k) 64).
      - rewrite Nat.mod_small in Hk by lia. lia.
      - replace (56 + S k) with (56 + S k - 64 + 1 * 64) in Hk by lia. rewrite Nat.Div0.mod_add, Nat.mod_small in Hk by lia. lia. }
    destruct (Nat.eqb_spec (length (buffer h)) 56); [done|].
    rewrite IH; [|by apply sha_update_wf| |lia|lia].
    + rewrite sha_update_app_lemma by done. done.
    + rewrite sha_update_buffer by done. cbn [length]. rewrite Nat.Div0.add_mod_idemp_l.
      by replace (length (buffer h) + 1 + k) with (length (buffer h) + S k) by lia.
Qed.

Lemma zero_count_spec n : ((n + 1) mod 64 + zero_count n) mod 64 = 56 /\ zero_count n < 64.
Proof.
  unfold zero_count. split; [|apply Nat.mod_upper_bound; lia].
  pose proof (Nat.mod_upper_bound n 64 ltac:(lia)).
  rewrite Nat.Div0.add_mod_idemp_l, Nat.Div0.add_mod_idemp_r.
  replace (n + 1 + (119 - n mod 64)) with (n - n mod 64 + 120 + 0) by (pose proof (Nat.Div0.mod_le n 64); lia).
  assert (n - n mod 64 = n / 64 * 64) as -> by (pose proof (Nat.div_mod n 64 ltac:(lia)); lia).
  rewrite Nat.add_0_r, Nat.add_comm, Nat.Div0.mod_add. done.
Qed.

Lemma be_bytes_length n z : length (be_bytes n z) = n.
Proof. unfold be_bytes. by rewrite length_map, length_seq. Qed.

Lemma sha_init_wf : sha_wf sha_init.
Proof. split; cbn; lia. Qed.

Lemma sha256_matches_spec s : sha256Hex s = sha256_spec s.
Proof.
  unfold sha256Hex, finalHex, sha256_spec, sha_final. do 3 f_equal.
  pose proof sha_init_wf as Hi. pose proof (sha_update_wf _ s Hi) as Hw. pose proof (sha_update_wf _ [chr 0x80] Hw) as Hw2.
  destruct (zero_count_spec (length s)) as [Hz1 Hz2].
  rewrite (pad_zeros_spec 64 _ (zero_count (length s))); [|done| |lia|lia].
  2:{ rewrite !sha_update_buffer by done. cbn [buffer sha_init length Nat.add].
      by rewrite (Nat.Div0.add_mod_idemp_l (length s) 1 64). }
  rewrite !sha_update_app_lemma by done.
  assert (bitLen (sha_update sha_init s) = wrap_u 64 (Z.of_nat (length s) * 8)) as -> by done.
  set (m := s ++ [chr 128] ++ replicate (zero_count (length s)) c_nul).
  pose proof (sha_update_spec sha_init m Hi) as Hm. cbn [sha_state buffer bitLen sha_init length Nat.add app] in Hm.
  fold m. rewrite Hm. cbn [sha_state buffer].
  unfold padded. set (len8 := be_bytes 8 _).
  replace (s ++ [chr 128] ++ replicate (zero_count (length s)) c_nul ++ len8)
    with (m ++ len8) by (unfold m; by rewrite <- !app_assoc).
  assert (length len8 = 8) as H8 by apply be_bytes_length.
  rewrite (absorb_app (length m) (length m + 8) (length (m ++ len8))); [|lia|lia|rewrite length_app; lia].
  cbv zeta. rewrite (absorb_full (length m + 8)); [done| |lia].
  rewrite length_app, H8, absorb_rest_length by done.
  unfold m. rewrite !length_app, length_replicate. cbn [length].
  rewrite Nat.add_assoc, <- Nat.Div0.add_mod_idemp_l, Hz1. done.
Qed.

(** Streaming is concatenation: feeding a hasher two pieces one after
    the other leaves exactly the state of feeding their concatenation, for
    any state the class can be in; so a digest depends only on the bytes, not
    on how they were cut into [update] calls. *)
Theorem sha_update_app h a b : sha_wf h ->
  sha_update (sha_update h a) b = sha_update h (a ++ b) /\ sha_wf (sha_update h a).
Proof. intros H. split; [by apply sha_update_app_lemma|by apply sha_update_wf]. Qed.

Lemma sha_update_app_witness :
  sha_update (sha_update sha_init (lit "abc")) (lit "def") = sha_update sha_init (lit "abc" ++ lit "def")
  /\ sha_wf (sha_update sha_init (lit "abc")).
Proof. apply (sha_update_app sha_init (lit "abc") (lit "def")). exact sha_init_wf. Defined.

(** ** The digest text *)

Lemma hex_digit_shape v : (0 <= v < 16)%Z ->
  isspace (hex_digit v) = false /\ (isdigit (hex_digit v) = true \/ in_range "a" "f" (hex_digit v) = true).
Proof.
  intros H. assert (forallb (fun k => negb (isspace (hex_digit (Z.of_nat k))) &&
    (isdigit (hex_digit (Z.of_nat k)) || in_range "a" "f" (hex_digit (Z.of_nat k)))) (seq 0 16) = true) as Ha by reflexivity.
  rewrite forallb_forall in Ha. specialize (Ha (Z.to_nat v) ltac:(apply in_seq; lia)).
  rewrite Z2Nat.id in Ha by lia. apply andb_prop in Ha as [H1 H2]. apply negb_true_iff in H1. apply orb_prop in H2. done.
Qed.

Definition hex_char (c : ascii) : Prop := isspace c = false /\ (isdigit c = true \/ in_range "a" "f" c = true).

Lemma to_hex_shape s : Forall hex_char (to_hex s) /\ length (to_hex s) = 2 * length s.
Proof.
  unfold to_hex. induction s as [|c s [IH1 IH2]]; [split; constructor|]. cbn [map concat]. pose proof (code_range c) as Hc.
  split.
  - apply Forall_cons; split; [|apply Forall_cons; split; [|done]].
    + apply hex_digit_shape. rewrite Z.shiftr_div_pow2 by lia. change (2 ^ 4)%Z with 16%Z. split; [apply Z.div_pos; lia|apply Z.div_lt_upper_bound; lia].
    + apply hex_digit_shape. change 15%Z with (Z.ones 4). rewrite Z.land_ones by lia. apply Z.mod_pos_bound. lia.
  - cbn [app length]. rewrite IH2. lia.
Qed.

Lemma sha256Hex_shape s : Forall hex_char (sha256Hex s) /\ length (sha256Hex s) = 64.
Proof.
  unfold sha256Hex, finalHex. destruct (to_hex_shape (sha_final (sha_update sha_init s))) as [H1 H2]. split; [done|].
  rewrite H2. unfold sha_final. set (st := processBlock _ _). assert (length st = 8) as Hst by done.
  clearbody st. do 9 (destruct st as [|? st]; cbn in Hst; try lia). done.
Qed.

(** ** The words of the code are the words of the standard *)

Section Words.
Local Open Scope Z_scope.

Definition word (x : Z) : Prop := 0 <= x < 2 ^ 32.

Lemma word_high x i : word x -> 32 <= i -> Z.testbit x i = false.
Proof.
  intros Hx Hi. destruct (decide (x = 0)) as [->|]; [apply Z.testbit_0_l|].
  apply Z.bits_above_log2; [unfold word in Hx; lia|]. apply Z.log2_lt_pow2; [unfold word in Hx; lia|].
  unfold word in Hx. pose proof (Z.pow_le_mono_r 2 32 i ltac:(lia) Hi). lia.
Qed.

Lemma word_ext x y : word x -> word y -> (forall i, 0 <= i < 32 -> Z.testbit x i = Z.testbit y i) -> x = y.
Proof.
  intros Hx Hy H. apply Z.bits_inj'. intros i Hi. destruct (decide (i < 32)); [by apply H|].
  rewrite !word_high by (done || lia). done.
Qed.

Lemma word_of_high x : 0 <= x -> (forall i, 32 <= i -> Z.testbit x i = false) -> word x.
Proof.
  intros Hx H. split; [done|]. destruct (decide (x = 0)) as [->|Hn]; [done|].
  apply Z.log2_lt_pow2; [lia|]. destruct (decide (Z.log2 x < 32)); [done|].
  specialize (H (Z.log2 x) ltac:(lia)). by rewrite Z.bit_log2 in H by lia.
Qed.

Lemma u32_word x : word (u32 x).
Proof. apply Z.mod_pos_bound. lia. Qed.

(** A sum of distinct powers of two has the bits it was made of. *)
Lemma bit_sum_spec f n m : let s := fold_right (fun i acc => Z.b2z (f (Z.of_nat i)) * 2 ^ Z.of_nat i + acc) 0 (seq n m) in
  (exists q, s = q * 2 ^ Z.of_nat n /\ 0 <= q < 2 ^ Z.of_nat m) /\
  forall i, Z.of_nat n <= i < Z.of_nat (n + m) -> Z.testbit s i = f i.
Proof.
  revert n. induction m as [|m IH]; intros n; cbn [seq fold_right]; cbv zeta.
  - split; [exists 0; split; [lia|cbn; lia]|intros i Hi; lia].
  - destruct (IH (S n)) as [(q & E & Hq) Hb]. cbv zeta in E, Hb. rewrite E in Hb |- *.
    replace (2 ^ Z.of_nat (S n)) with (2 * 2 ^ Z.of_nat n) in * by (rewrite Nat2Z.inj_succ, Z.pow_succ_r; lia).
    replace (2 ^ Z.of_nat (S m)) with (2 * 2 ^ Z.of_nat m) by (rewrite Nat2Z.inj_succ, Z.pow_succ_r; lia).
    split.
    + exists (Z.b2z (f (Z.of_nat n)) + 2 * q). split; [lia|]. destruct (f (Z.of_nat n)); cbn [Z.b2z]; lia.
    + intros i Hi. replace (Z.b2z (f (Z.of_nat n)) * 2 ^ Z.of_nat n + q * (2 * 2 ^ Z.of_nat n))
        with ((Z.b2z (f (Z.of_nat n)) + 2 * q) * 2 ^ Z.of_nat n) by lia.
      destruct (decide (i = Z.of_nat n)) as [->|].
      * rewrite Z.mul_pow2_bits, Z.sub_diag by lia. by rewrite Z.add_b2z_double_bit0.
      * rewrite <- (Hb i) by lia. replace (q * (2 * 2 ^ Z.of_nat n)) with ((2 * q) * 2 ^ Z.of_nat n) by lia.
        rewrite !Z.mul_pow2_bits by lia. replace (i - Z.of_nat n) with (Z.succ (i - Z.of_nat n - 1)) by lia.
        rewrite <- !Z.div2_bits by lia. by rewrite Z.add_b2z_double_div2, (Z.mul_comm 2 q), Z.div_mul by lia.
Qed.

Lemma of_bits_word f : word (Fips.of_bits f).
Proof. destruct (bit_sum_spec f 0 32) as [(q & E & Hq) _]. unfold Fips.of_bits, word. rewrite E. cbn in *. lia. Qed.

Lemma of_bits_bit f i : 0 <= i < 32 -> Z.testbit (Fips.of_bits f) i = f i.
Proof. intros Hi. destruct (bit_sum_spec f 0 32) as [_ H]. apply H. cbn. lia. Qed.

Lemma u32_bit x i : 0 <= i < 32 -> Z.testbit (u32 x) i = Z.testbit x i.
Proof. intros H. unfold u32. by rewrite Z.mod_pow2_bits_low by lia. Qed.

Lemma shiftr_word x n : word x -> 0 <= n -> word (Z.shiftr x n).
Proof.
  intros [H1 H2] Hn. rewrite Z.shiftr_div_pow2 by done. pose proof (Z.pow_pos_nonneg 2 n ltac:(lia) Hn).
  split; [by apply Z.div_pos|]. apply Z.div_lt_upper_bound; [lia|]. nia.
Qed.

Lemma rotr_standard x n : word x -> 0 < n < 32 -> rotr x n = Fips.ROTR n x.
Proof.
  intros Hx Hn. apply word_ext; [|apply of_bits_word|].
  - unfold rotr. apply word_of_high.
    + apply Z.lor_nonneg. split; [apply shiftr_word; [done|lia]|apply u32_word].
    + intros i Hi. rewrite Z.lor_spec, !word_high; [done|apply u32_word|done|apply shiftr_word; [done|lia]|done].
  - intros i Hi. unfold Fips.ROTR. rewrite of_bits_bit by done. unfold rotr.
    rewrite Z.lor_spec, u32_bit, Z.shiftr_spec by lia. destruct (decide (i + n < 32)).
    + rewrite Z.mod_small by lia. rewrite Z.shiftl_spec_low by lia. apply orb_false_r.
    + rewrite Z.shiftl_spec_high by lia. rewrite (word_high x (i + n)) by (done || lia).
      replace ((i + n) mod 32) with (i - (32 - n)); [done|].
      replace (i + n) with (i - (32 - n) + 1 * 32) by lia. rewrite Z.mod_add by lia. rewrite Z.mod_small; lia.
Qed.

Lemma shr_standard x n : 0 <= n -> Z.shiftr x n = Fips.SHR n x.
Proof. intros H. by rewrite Z.shiftr_div_pow2. Qed.

Lemma lxor_word x y : word x -> word y -> word (Z.lxor x y).
Proof.
  intros Hx Hy. apply word_of_high; [apply Z.lxor_nonneg; unfold word in *; lia|].
  intros i Hi. by rewrite Z.lxor_spec, !word_high.
Qed.
Lemma land_word x y : word x -> 0 <= y -> word (Z.land x y).
Proof.
  intros Hx Hy. apply word_of_high; [apply Z.land_nonneg; unfold word in *; lia|].
  intros i Hi. by rewrite Z.land_spec, word_high.
Qed.

Lemma xor3_standard x y z : word x -> word y -> word z -> Z.lxor (Z.lxor x y) z = Fips.parity x y z.
Proof.
  intros Hx Hy Hz. apply word_ext; [by repeat apply lxor_word|apply of_bits_word|]. intros i Hi.
  unfold Fips.parity. rewrite of_bits_bit, !Z.lxor_spec by done. by rewrite xorb_assoc.
Qed.

Lemma complement_bit x i : word x -> 0 <= i < 32 -> Z.testbit (2 ^ 32 - 1 - x) i = negb (Z.testbit x i).
Proof.
  intros Hx Hi. replace (2 ^ 32 - 1 - x) with (Z.lnot x + 1 * 2 ^ 32) by (unfold Z.lnot; lia).
  rewrite <- (u32_bit (_ + _)) by done. unfold u32. rewrite Z.mod_add by lia. rewrite Z.mod_pow2_bits_low by lia.
  apply Z.lnot_spec. lia.
Qed.

Lemma ch_standard e f g : word e -> word f -> word g ->
  Z.lxor (Z.land e f) (Z.land (2 ^ 32 - 1 - e) g) = Fips.Ch e f g.
Proof.
  intros He Hf Hg. apply word_ext; [|apply of_bits_word|].
  - apply lxor_word; [apply land_word; [done|unfold word in *; lia]|]. rewrite Z.land_comm. apply land_word; [done|unfold word in *; lia].
  - intros i Hi. unfold Fips.Ch. rewrite of_bits_bit, Z.lxor_spec, !Z.land_spec, complement_bit by done.
    by destruct (Z.testbit e i), (Z.testbit f i), (Z.testbit g i).
Qed.

Lemma maj_standard a b c : word a -> word b -> word c ->
  Z.lxor (Z.lxor (Z.land a b) (Z.land a c)) (Z.land b c) = Fips.Maj a b c.
Proof.
  intros Ha Hb Hc. apply word_ext; [|apply of_bits_word|].
  - repeat apply lxor_word; apply land_word; try done; unfold word in *; lia.
  - intros i Hi. unfold Fips.Maj. rewrite of_bits_bit, !Z.lxor_spec, !Z.land_spec by done.
    by destruct (Z.testbit a i), (Z.testbit b i), (Z.testbit c i).
Qed.

End Words.

(** ** Blocks of bytes are blocks of bits *)

Notation bits := Fips.message_bits.

Lemma byte_bits_length c : length (Fips.bits_of 8 (code c)) = 8.
Proof. done. Qed.

Lemma bits_cons c s : bits (c :: s) = Fips.bits_of 8 (code c) ++ bits s.
Proof. done. Qed.
Lemma bits_app a b : bits (a ++ b) = bits a ++ bits b.
Proof. unfold bits. by rewrite map_app, concat_app. Qed.
Lemma bits_length s : length (bits s) = 8 * length s.
Proof. induction s as [|c s IH]; [done|]. rewrite bits_cons, length_app, byte_bits_length, IH. cbn [length]. lia. Qed.

Lemma drop_bits n s : drop (8 * n) (bits s) = bits (drop n s).
Proof.
  revert s. induction n as [|n IH]; intros s; [done|]. destruct s as [|c s]; [by rewrite drop_nil|].
  replace (8 * S n) with (8 + 8 * n) by lia. rewrite bits_cons, <- drop_drop.
  rewrite drop_app_length' by done. apply IH.
Qed.
Lemma take_bits n s : take (8 * n) (bits s) = bits (take n s).
Proof.
  revert s. induction n as [|n IH]; intros s; [done|]. destruct s as [|c s]; [by rewrite take_nil|].
  replace (8 * S n) with (8 + 8 * n) by lia. rewrite bits_cons. rewrite take_app_ge by (rewrite byte_bits_length; lia).
  rewrite byte_bits_length. replace (8 + 8 * n - 8) with (8 * n) by lia. by rewrite IH.
Qed.

Lemma value_from bs a : fold_left (fun acc b => 2 * acc + Z.b2z b)%Z bs a = (a * 2 ^ Z.of_nat (length bs) + Fips.value bs)%Z.
Proof.
  unfold Fips.value. revert a. induction bs as [|b bs IH]; intros a; [cbn; lia|]. cbn [fold_left length].
  rewrite IH, (IH (2 * 0 + _)%Z). rewrite Nat2Z.inj_succ, Z.pow_succ_r by lia. lia.
Qed.
Lemma value_app a b : Fips.value (a ++ b) = (Fips.value a * 2 ^ Z.of_nat (length b) + Fips.value b)%Z.
Proof. unfold Fips.value at 1. rewrite fold_left_app, value_from. done. Qed.
Lemma value_byte c : Fips.value (Fips.bits_of 8 (code c)) = code c.
Proof. destruct c as [[] [] [] [] [] [] [] []]; reflexivity. Qed.

Lemma four_bytes (s : str) i : 4 * i + 4 <= length s ->
  take 4 (drop (4 * i) s) = [char_at s (i * 4 + 0); char_at s (i * 4 + 1); char_at s (i * 4 + 2); char_at s (i * 4 + 3)].
Proof.
  intros H. replace (4 * i) with (i * 4) in * by lia. set (p := i * 4) in *. clearbody p.
  assert (forall k, char_at s (p + k) = char_at (drop p s) k) as Hk by (intros k; unfold char_at; by rewrite lookup_drop).
  rewrite !Hk. assert (4 <= length (drop p s)) as Hl by (rewrite length_drop; lia). destruct (drop p s) as [|a [|b [|c [|d l]]]]; cbn in Hl; try lia. done.
Qed.

Lemma block_word_standard s i : length s = 64 -> i < 16 -> block_word s i = Fips.word_at (bits s) i.
Proof.
  intros Hs Hi. unfold Fips.word_at. replace (32 * i) with (8 * (4 * i)) by lia. rewrite drop_bits.
  change 32 with (8 * 4). rewrite take_bits, four_bytes by lia. unfold block_word. rewrite !bits_cons. change (bits []) with (@nil bool).
  rewrite !value_app, !length_app, !byte_bits_length, !value_byte. cbn [length Nat.add Z.of_nat].
  set (a := char_at s (i * 4 + 0)). set (b := char_at s (i * 4 + 1)). set (c := char_at s (i * 4 + 2)). set (d := char_at s (i * 4 + 3)).
  pose proof (code_range a). pose proof (code_range b). pose proof (code_range c). pose proof (code_range d).
  rewrite !Z.shiftl_mul_pow2 by lia. cbn [Z.of_nat Pos.of_succ_nat Pos.succ].
  rewrite (lor_add_low (code a * 2 ^ 24) 24); [|lia|by apply Z.mod_mul|lia].
  rewrite (lor_add_low (code a * 2 ^ 24 + code b * 2 ^ 16) 16);
    [|lia|replace (code a * 2 ^ 24 + code b * 2 ^ 16)%Z with ((code a * 2 ^ 8 + code b) * 2 ^ 16)%Z by lia; by apply Z.mod_mul|lia].
  rewrite (lor_add_low (_ + _ + _) 8); [change (Fips.value []) with 0%Z; cbn; lia|lia| |lia].
  replace (code a * 2 ^ 24 + code b * 2 ^ 16 + code c * 2 ^ 8)%Z with ((code a * 2 ^ 16 + code b * 2 ^ 8 + code c) * 2 ^ 8)%Z by lia.
  by apply Z.mod_mul.
Qed.

(** ** The compression function *)

Section Compress.
Local Open Scope Z_scope.
Context (s : str) (Hs : length s = 64%nat).

Lemma plus_word xs : word (Fips.plus xs).
Proof. apply Z.mod_pos_bound. lia. Qed.

Lemma value_bound bs : 0 <= Fips.value bs < 2 ^ Z.of_nat (length bs).
Proof.
  induction bs as [|b bs IH] using rev_ind; [done|]. rewrite value_app, length_app, Nat2Z.inj_add, Z.pow_add_r by lia.
  destruct b; cbn in *; lia.
Qed.

Lemma word_at_word t : word (Fips.word_at (bits s) t).
Proof.
  unfold Fips.word_at, word. pose proof (value_bound (take 32 (drop (32 * t) (bits s)))) as H.
  pose proof (Z.pow_le_mono_r 2 (Z.of_nat (length (take 32 (drop (32 * t) (bits s))))) 32 ltac:(lia)) as Hp.
  rewrite length_take in *. specialize (Hp ltac:(lia)). lia.
Qed.

Lemma schedule_length n : length (Fips.schedule (bits s) n) = n.
Proof. induction n as [|n IH]; [done|]. cbn [Fips.schedule length]. by rewrite IH. Qed.

Lemma schedule_words n : Forall word (Fips.schedule (bits s) n).
Proof.
  induction n as [|n IH]; cbn [Fips.schedule]; [done|]. constructor; [|done].
  destruct (n <? 16)%nat; [apply word_at_word|apply plus_word].
Qed.

Lemma nth_word l k : Forall word l -> word (nth k l 0).
Proof.
  intros H. revert k. induction H as [|x l Hx Hl IH]; intros [|k]; cbn [nth]; try done; try apply IH; split; lia.
Qed.

Lemma nthz_rev l k : (1 <= k <= length l)%nat -> nthz (rev l) (length (rev l) - k) = nth (k - 1) l 0.
Proof.
  intros H. unfold nthz. rewrite length_rev. rewrite rev_nth by lia. f_equal. lia.
Qed.

Lemma sigma0_standard x : word x -> Z.lxor (Z.lxor (rotr x 7) (rotr x 18)) (Z.shiftr x 3) = Fips.sigma0 x.
Proof.
  intros Hx. unfold Fips.sigma0. rewrite !rotr_standard, shr_standard by (done || lia).
  apply xor3_standard; try apply of_bits_word. rewrite <- shr_standard by lia. by apply shiftr_word.
Qed.
Lemma sigma1_standard x : word x -> Z.lxor (Z.lxor (rotr x 17) (rotr x 19)) (Z.shiftr x 10) = Fips.sigma1 x.
Proof.
  intros Hx. unfold Fips.sigma1. rewrite !rotr_standard, shr_standard by (done || lia).
  apply xor3_standard; try apply of_bits_word. rewrite <- shr_standard by lia. by apply shiftr_word.
Qed.
Lemma sum0_standard x : word x -> Z.lxor (Z.lxor (rotr x 2) (rotr x 13)) (rotr x 22) = Fips.Sum0 x.
Proof. intros Hx. unfold Fips.Sum0. rewrite !rotr_standard by (done || lia). apply xor3_standard; apply of_bits_word. Qed.
Lemma sum1_standard x : word x -> Z.lxor (Z.lxor (rotr x 6) (rotr x 11)) (rotr x 25) = Fips.Sum1 x.
Proof. intros Hx. unfold Fips.Sum1. rewrite !rotr_standard by (done || lia). apply xor3_standard; apply of_bits_word. Qed.

Lemma next_word_standard n : (16 <= n)%nat ->
  next_word (rev (Fips.schedule (bits s) n)) = nth 0 (Fips.schedule (bits s) (S n)) 0.
Proof.
  intros Hn. set (l := Fips.schedule (bits s) n). cbn [Fips.schedule nth]. fold l.
  destruct (Nat.ltb_spec n 16); [lia|]. assert (length l = n) as Hl by apply schedule_length.
  assert (Forall word l) as Hw by apply schedule_words.
  unfold next_word. rewrite !nthz_rev by lia. rewrite sigma0_standard, sigma1_standard by by apply nth_word.
  unfold Fips.plus, u32. cbn [fold_right]. f_equal. lia.
Qed.

Lemma extend_schedule k n : (16 <= n)%nat ->
  extend k (rev (Fips.schedule (bits s) n)) = rev (Fips.schedule (bits s) (n + k)).
Proof.
  revert n. induction k as [|k IH]; intros n Hn; [by rewrite Nat.add_0_r|]. cbn [extend].
  rewrite next_word_standard by done. replace (n + S k)%nat with (S n + k)%nat by lia. rewrite <- IH by lia. done.
Qed.

Lemma first_words n : (n <= 16)%nat -> map (block_word s) (seq 0 n) = rev (Fips.schedule (bits s) n).
Proof.
  induction n as [|n IH]; intros Hn; [done|]. rewrite seq_S, map_app, IH by lia. cbn [Fips.schedule rev map Nat.add].
  destruct (Nat.ltb_spec n 16); [|lia]. by rewrite block_word_standard by lia.
Qed.

Lemma schedule_standard : extend 48 (map (block_word s) (seq 0 16)) = rev (Fips.schedule (bits s) 64).
Proof. rewrite first_words by lia. by rewrite extend_schedule by lia. Qed.

Definition regs_list (r : Regs) : list Z := [ra r; rb r; rc r; rd r; re r; rf r; rg r; rh r].

Lemma round_standard k w r : Forall word (regs_list r) ->
  regs_list (sha_round k w r) = Fips.step (regs_list r) (k, w) /\ Forall word (regs_list (sha_round k w r)).
Proof.
  destruct r as [a b c d e f g h]. unfold regs_list. cbn [ra rb rc rd re rf rg rh]. intros H.
  repeat match goal with H : Forall _ (_ :: _) |- _ => apply Forall_cons_1 in H as [? H] end.
  cbn [sha_round ra rb rc rd re rf rg rh Fips.step fst snd]. split.
  - rewrite sum0_standard, sum1_standard, ch_standard, maj_standard by done.
    unfold Fips.plus, u32. cbn [fold_right].
    by rewrite ?Z.add_0_r, ?Z.add_assoc.
  - repeat (constructor; [done || apply u32_word|]). done.
Qed.

Lemma rounds_standard kws r : Forall word (regs_list r) ->
  regs_list (fold_left (fun r kw => sha_round kw.1 kw.2 r) kws r) = fold_left Fips.step kws (regs_list r).
Proof.
  revert r. induction kws as [|[k w] kws IH]; intros r Hr; [done|]. cbn [fold_left fst snd].
  destruct (round_standard k w r Hr) as [<- Hw]. by apply IH.
Qed.

Lemma processBlock_standard st : length st = 8%nat -> Forall word st ->
  processBlock st s = Fips.compress st (bits s) /\ length (processBlock st s) = 8%nat /\ Forall word (processBlock st s).
Proof.
  intros Hl Hw. do 9 (destruct st as [|? st]; cbn in Hl; try lia). split; [|split].
  - unfold processBlock, Fips.compress. rewrite schedule_standard, kK_standard. unfold nthz. cbn [nth].
    set (kws := combine Fips.K _). clearbody kws.
    match goal with |- context [fold_left (fun r kw => sha_round kw.1 kw.2 r) kws ?r0] =>
      pose proof (rounds_standard kws r0 Hw) as Hr; set (r := fold_left (fun r kw => sha_round kw.1 kw.2 r) kws r0) in * end.
    unfold regs_list in Hr at 2. cbn [ra rb rc rd re rf rg rh] in Hr. rewrite <- Hr. unfold regs_list. cbn [zip_with].
    unfold Fips.plus, u32. cbn [fold_right]. rewrite ?Z.add_0_r.
    do 8 (apply f_equal2; [by rewrite Z.add_comm|]). done.
  - done.
  - unfold processBlock. cbv zeta. repeat (constructor; [apply u32_word|]). done.
Qed.

End Compress.

Lemma bits_512 : 512 = 8 * 64.
Proof. reflexivity. Qed.
Lemma take_512 s : take 512 (bits s) = bits (take 64 s).
Proof. rewrite bits_512. apply take_bits. Qed.
Lemma drop_512 s : drop 512 (bits s) = bits (drop 64 s).
Proof. rewrite bits_512. apply drop_bits. Qed.

Lemma absorb_step f st s : 64 <= length s -> absorb (S f) st s = absorb f (processBlock st (take 64 s)) (drop 64 s).
Proof. intros H. cbn [absorb]. by destruct (Nat.ltb_spec (length s) 64); [lia|]. Qed.
Lemma blocks_step n m : Fips.blocks (S n) m = take 512 m :: Fips.blocks n (drop 512 m).
Proof. reflexivity. Qed.
Lemma fold_left_cons {A B} (f : A -> B -> A) x l a : fold_left f (x :: l) a = fold_left f l (f a x).
Proof. reflexivity. Qed.

Lemma absorb_standard n fuel st s : length s = 64 * n -> n <= fuel -> length st = 8 -> Forall word st ->
  (absorb fuel st s).1 = fold_left Fips.compress (Fips.blocks n (bits s)) st.
Proof.
  revert fuel st s. induction n as [|n IH]; intros fuel st s Hs Hf Hl Hw.
  - rewrite absorb_short by lia. done.
  - destruct fuel as [|fuel]; [lia|]. rewrite absorb_step by lia. rewrite blocks_step, take_512, drop_512.
    destruct (processBlock_standard (take 64 s)) with (st := st) as (Hp & Hl' & Hw'); [rewrite length_take; lia|done|done|].
    rewrite fold_left_cons, <- Hp.
    apply IH; [rewrite length_drop; lia|lia|done|done].
Qed.

(** ** The padding *)

Lemma zero_bits n : bits (replicate n c_nul) = replicate (8 * n) false.
Proof.
  induction n as [|n IH]; [done|]. cbn [replicate]. rewrite bits_cons, IH. replace (8 * S n) with (8 + 8 * n) by lia. done.
Qed.

Lemma bits_of_be_bytes z : Fips.bits_of 64 z = bits (be_bytes 8 z).
Proof.
  unfold be_bytes, bits. cbn [seq map concat].
  assert (forall k, Fips.bits_of 8 (code (chr (Z.shiftr z (8 * Z.of_nat k) mod 256))) =
            map (fun j => Z.testbit z (Z.of_nat (8 * k + 7 - j))) (seq 0 8)) as Hb.
  { intros k. rewrite code_chr by (apply Z.mod_pos_bound; lia). unfold Fips.bits_of. apply map_ext_in. intros j Hj. apply in_seq in Hj.
    change 256%Z with (2 ^ 8)%Z. rewrite Z.mod_pow2_bits_low, Z.shiftr_spec by lia. f_equal. lia. }
  rewrite !Hb. reflexivity.
Qed.

Lemma bits_of_wrap z : Fips.bits_of 64 (wrap_u 64 z) = Fips.bits_of 64 z.
Proof.
  unfold Fips.bits_of. apply map_ext_in. intros j Hj. apply in_seq in Hj. unfold wrap_u. by rewrite Z.mod_pow2_bits_low by lia.
Qed.

Lemma pad_standard s : Fips.pad (bits s) = bits (padded s).
Proof.
  unfold Fips.pad, padded. cbv zeta. rewrite !bits_app, <- bits_of_be_bytes, bits_of_wrap, zero_bits, bits_length.
  replace (Z.of_nat (8 * length s)) with (Z.of_nat (length s) * 8)%Z by lia.
  replace (Z.to_nat ((448 - (Z.of_nat (length s) * 8 + 1)) mod 512)) with (7 + 8 * zero_count (length s)).
  - rewrite replicate_add. done.
  - unfold zero_count. set (n := length s). pose proof (Nat.div_mod n 64 ltac:(lia)) as Hn. pose proof (Nat.mod_upper_bound n 64 ltac:(lia)) as Hr.
    set (q := n / 64) in *. set (r := n mod 64) in *. clearbody q r. rewrite Hn. clear n Hn.
    replace (448 - (Z.of_nat (64 * q + r) * 8 + 1))%Z with (447 - 8 * Z.of_nat r + (- Z.of_nat q) * 512)%Z by lia.
    rewrite Z.mod_add by lia. destruct (decide (r < 56)).
    + rewrite Z.mod_small by lia. replace (119 - r) with (55 - r + 1 * 64) by lia. rewrite Nat.Div0.mod_add, Nat.mod_small by lia. lia.
    + replace (447 - 8 * Z.of_nat r)%Z with (447 - 8 * Z.of_nat r + 512 + (-1) * 512)%Z by lia.
      rewrite Z.mod_add, Z.mod_small by lia. rewrite Nat.mod_small by lia. lia.
Qed.

Lemma padded_blocks s : exists n, length (padded s) = 64 * n.
Proof.
  unfold padded. rewrite !length_app, length_replicate, be_bytes_length. cbn [length].
  destruct (zero_count_spec (length s)) as [H _]. rewrite Nat.Div0.add_mod_idemp_l in H.
  exists ((length s + 1 + zero_count (length s)) / 64 + 1).
  pose proof (Nat.div_mod (length s + 1 + zero_count (length s)) 64 ltac:(lia)). lia.
Qed.

(** ** The digest *)

Lemma hex_standard d : (0 <= d < 16)%Z -> hex_digit d = Fips.hex d.
Proof.
  intros H. assert (forallb (fun k => eqc (hex_digit (Z.of_nat k)) (Fips.hex (Z.of_nat k))) (seq 0 16) = true) as Ha by reflexivity.
  rewrite forallb_forall in Ha. specialize (Ha (Z.to_nat d) ltac:(apply in_seq; lia)). rewrite Z2Nat.id in Ha by lia. by apply eqc_eq.
Qed.

Lemma word_hex_standard w : to_hex (be_bytes 4 w) = Fips.word_hex w.
Proof.
  unfold be_bytes, to_hex, Fips.word_hex. cbn [seq map concat app].
  assert (forall k, hex_digit (Z.shiftr (code (chr (Z.shiftr w (8 * Z.of_nat k) mod 256))) 4) = Fips.hex (w / 16 ^ Z.of_nat (2 * k + 1) mod 16)
    /\ hex_digit (Z.land (code (chr (Z.shiftr w (8 * Z.of_nat k) mod 256))) 15) = Fips.hex (w / 16 ^ Z.of_nat (2 * k) mod 16)) as Hk.
  { intros k. rewrite !code_chr by (apply Z.mod_pos_bound; lia). change 15%Z with (2 ^ 4 - 1)%Z. rewrite land_ones_mod by lia.
    rewrite !Z.shiftr_div_pow2 by lia. change (2 ^ 4)%Z with 16%Z.
    replace (16 ^ Z.of_nat (2 * k + 1))%Z with (2 ^ (8 * Z.of_nat k) * 16)%Z.
    2:{ change 16%Z with (2 ^ 4)%Z. rewrite <- Z.pow_mul_r, <- Z.pow_add_r by lia. f_equal. lia. }
    replace (16 ^ Z.of_nat (2 * k))%Z with (2 ^ (8 * Z.of_nat k))%Z.
    2:{ change 16%Z with (2 ^ 4)%Z. rewrite <- Z.pow_mul_r by lia. f_equal. lia. }
    rewrite <- Z.div_div by lia. set (x := (w / 2 ^ (8 * Z.of_nat k))%Z). clearbody x.
    assert (0 <= x mod 256 < 256)%Z by (apply Z.mod_pos_bound; lia).
    split; rewrite hex_standard by (Z.div_mod_to_equations; lia); f_equal; Z.div_mod_to_equations; lia. }
  cbn [Nat.sub]. destruct (Hk 0) as [-> ->], (Hk 1) as [-> ->], (Hk 2) as [-> ->], (Hk 3) as [-> ->]. reflexivity.
Qed.

Lemma to_hex_words st : to_hex (concat (map (be_bytes 4) st)) = concat (map Fips.word_hex st).
Proof.
  induction st as [|w st IH]; [done|]. cbn [map concat]. rewrite <- IH, <- word_hex_standard.
  unfold to_hex. by rewrite map_app, concat_app.
Qed.

Lemma sha256Hex_spec_lemma s : sha256Hex s = Fips.sha256 s.
Proof.
  rewrite sha256_matches_spec. unfold sha256_spec, Fips.sha256. rewrite to_hex_words. do 2 f_equal.
  unfold Fips.hash. rewrite pad_standard. destruct (padded_blocks s) as [n Hn].
  rewrite (absorb_standard n); [|done|lia|done|repeat constructor; done].
  rewrite bits_length, Hn. replace (8 * (64 * n)) with (n * 512) by lia. rewrite Nat.div_mul by lia. by rewrite kH0_standard.
Qed.

(** [C39] The class computes SHA-256: [sha256Hex] of any message is the
    hexadecimal of the hash FIPS 180-4 defines on the bits of the message, with the
    standard's functions given bit by bit, its constants computed as the fractional
    parts of the roots of primes, its padding, schedule and rounds
    ([Fips.sha256], which shares no definition with the model of the code).  The
    standard is for messages of less than 2^64 bits; on longer ones the length
    field holds the low 64 bits of the length. *)
Theorem sha256Hex_spec s : sha256Hex s = Fips.sha256 s.
Proof. apply sha256Hex_spec_lemma. Qed.
