(* ===== verification/Checksum.v ===== *)
(** * The checksum database

    Models [tools/trident/checksum.cpp]: the append-only, hash-chained log of
    content hashes and yanks.  The database is its text (an absent file is the
    empty text); opening, creating directories and writing are taken to
    succeed.  [std::getline] and [operator>>] on a line are [get_lines] and
    [words].  The theorems: an operation that succeeds leaves a log that loads
    again with exactly one more record or none; a recorded hash is never
    replaced; the last chain hash commits to the whole log unless SHA-256
    collides; and what the chain does not detect. *)

From S2P Require Import Prelude Toml Manifest Semver Sha256.

Inductive EntryKind := Content | Yank.
#[export] Instance EntryKind_eq_dec : EqDecision EntryKind.
Proof. solve_decision. Defined.

Record ChecksumEntry := MkCEntry {
  ce_kind : EntryKind; ce_path : str; ce_major : Z; ce_version : str; ce_contentHash : str; ce_chainHash : str
}.

Definition kGenesisHash : str := lit "0000000000000000000000000000000000000000000000000000000000000".

Definition chainHashOfPayload (prevChainHash payload : str) : str :=
  finalHex (sha_update (sha_update (sha_update sha_init prevChainHash) (lit " ")) payload).

Definition contentPayload (path : str) (mj : Z) (version contentHash : str) : str :=
  path ++ lit " " ++ to_string mj ++ lit " " ++ version ++ lit " " ++ contentHash.
Definition yankPayload (path : str) (mj : Z) (version : str) : str :=
  lit "yank " ++ path ++ lit " " ++ to_string mj ++ lit " " ++ version.

(** ** Lines and words *)

Fixpoint lines_from (acc s : str) : list str :=
  match s with
  | [] => match acc with [] => [] | _ => [acc] end
  | c :: s' => if eqc c c_nl then acc :: lines_from [] s' else lines_from (acc ++ [c]) s'
  end.
Definition get_lines (s : str) : list str := lines_from [] s.

Fixpoint words_from (acc s : str) : list str :=
  match s with
  | [] => match acc with [] => [] | _ => [acc] end
  | c :: s' =>
      if isspace c then match acc with [] => words_from [] s' | _ => acc :: words_from [] s' end
      else words_from (acc ++ [c]) s'
  end.
Definition words (s : str) : list str := words_from [] s.

(** ** Loading *)

Section Load.
Context (dbPath : str).

Definition db_error (lineNo : Z) (msg : string) : str := dbPath ++ lit ":" ++ to_string lineNo ++ lit msg.

(** A line as a record, its previous-hash field and its payload. *)
Definition parse_record (lineNo : Z) (line : str) : res (ChecksumEntry * str * str) :=
  match words line with
  | chain :: prev :: first :: more =>
      if eqs first (lit "yank") then
        match more with
        | [path; majorText; version] =>
            Ok (MkCEntry Yank path (atoi majorText) version [] chain, prev, yankPayload path (atoi majorText) version)
        | _ => Err (db_error lineNo ": malformed checksum DB yank record")
        end
      else
        match more with
        | [majorText; version; contentHash] =>
            Ok (MkCEntry Content first (atoi majorText) version contentHash chain, prev,
                contentPayload first (atoi majorText) version contentHash)
        | _ => Err (db_error lineNo ": malformed checksum DB content record")
        end
  | _ => Err (db_error lineNo ": malformed checksum DB record")
  end.

Definition load_line (lineNo : Z) (line : str) (st : list ChecksumEntry * str) : res (list ChecksumEntry * str) :=
  match line with
  | [] => Ok st
  | _ =>
      let? (e, prev, payload) := parse_record lineNo line in
      if negb (eqs prev st.2) then
        Err (db_error lineNo ": checksum DB chain broken (this record's previous-hash link does not match the prior record) — the log may have been edited, reordered, or truncated")
      else if negb (eqs (chainHashOfPayload prev payload) (ce_chainHash e)) then
        Err (db_error lineNo ": checksum DB record hash does not match its own content — the log has been tampered with")
      else Ok (st.1 ++ [e], ce_chainHash e)
  end.

Fixpoint load_lines (lineNo : Z) (lines : list str) (st : list ChecksumEntry * str) : res (list ChecksumEntry * str) :=
  match lines with
  | [] => Ok st
  | l :: lines' => let? st' := load_line lineNo l st in load_lines (lineNo + 1) lines' st'
  end.

Definition loadChecksumDb (text : str) : res (list ChecksumEntry * str) :=
  load_lines 1 (get_lines text) ([], kGenesisHash).

(** ** Operations on the log *)

Definition appendChecksumEntry (text prev path : str) (mj : Z) (version contentHash : str) : str :=
  text ++ chainHashOfPayload prev (contentPayload path mj version contentHash) ++ lit " " ++ prev ++ lit " " ++ path
    ++ lit " " ++ to_string mj ++ lit " " ++ version ++ lit " " ++ contentHash ++ [c_nl].

Definition appendYankEntry (text prev path : str) (mj : Z) (version : str) : str :=
  text ++ chainHashOfPayload prev (yankPayload path mj version) ++ lit " " ++ prev ++ lit " "
    ++ yankPayload path mj version ++ [c_nl].

Definition names (md : ModuleId) (v : str) (e : ChecksumEntry) : bool :=
  eqs (ce_path e) (mid_path md) && (ce_major e =? mid_major md)%Z && eqs (ce_version e) v.
Definition is_content (e : ChecksumEntry) : bool := match ce_kind e with Content => true | Yank => false end.

(** The first content record of a module version: the trusted baseline. *)
Fixpoint recorded (md : ModuleId) (v : str) (es : list ChecksumEntry) : option str :=
  match es with
  | [] => None
  | e :: es' => if is_content e && names md v e then Some (ce_contentHash e) else recorded md v es'
  end.

(** [Ok] carries the text of the database afterwards. *)
Definition checksumDbVerifyOrRecord (text : str) (md : ModuleId) (version : Version) (contentHash : str) : res str :=
  let? (entries, lastChainHash) := loadChecksumDb text in
  let versionText := formatSemVer version in
  match recorded md versionText entries with
  | Some h =>
      if eqs h contentHash then Ok text
      else Err (lit "content for " ++ mid_path md ++ lit "@" ++ versionText ++
                lit " does not match the checksum DB (recorded sha256:" ++ h ++ lit ", fetched sha256:" ++ contentHash ++
                lit ") — the tag may have been moved or the content swapped after it was first recorded")
  | None => Ok (appendChecksumEntry text lastChainHash (mid_path md) (mid_major md) versionText contentHash)
  end.

Definition yanked (md : ModuleId) (v : str) (es : list ChecksumEntry) : bool :=
  existsb (fun e => negb (is_content e) && names md v e) es.

Definition checksumDbIsYanked (text : str) (md : ModuleId) (version : Version) : res bool :=
  let? (entries, _) := loadChecksumDb text in Ok (yanked md (formatSemVer version) entries).

Definition checksumDbYank (text : str) (md : ModuleId) (version : Version) : res str :=
  let? (entries, lastChainHash) := loadChecksumDb text in
  let versionText := formatSemVer version in
  if negb (existsb (fun e => is_content e && names md versionText e) entries) then
    Err (lit "cannot yank " ++ mid_path md ++ lit "@" ++ versionText ++
         lit ": no immutable content hash is recorded in the checksum DB (fetch or publish the version first)")
  else if yanked md versionText entries then Ok text
  else Ok (appendYankEntry text lastChainHash (mid_path md) (mid_major md) versionText).

End Load.

(** ** Printing and splitting lines *)

Definition token (w : str) : Prop := w <> [] /\ Forall (fun c => isspace c = false) w.

Fixpoint join_sp (ws : list str) : str :=
  match ws with [] => [] | [w] => w | w :: ws' => w ++ lit " " ++ join_sp ws' end.

Lemma words_from_token acc w rest : Forall (fun c => isspace c = false) w ->
  words_from acc (w ++ rest) = words_from (acc ++ w) rest.
Proof.
  intros Hw. revert acc. induction Hw as [|c w Hc Hw IH]; intros acc; cbn [app words_from]; [by rewrite app_nil_r|].
  rewrite Hc, IH. by rewrite <- app_assoc.
Qed.

Lemma words_join ws : Forall token ws -> words (join_sp ws) = ws.
Proof.
  unfold words. induction 1 as [|w ws [Hne Hw] Hws IH]; [done|]. destruct ws as [|x ws].
  - cbn [join_sp]. rewrite <- (app_nil_r w) at 1. rewrite words_from_token by done. cbn. by destruct w.
  - change (join_sp (w :: x :: ws)) with (w ++ c_sp :: join_sp (x :: ws)).
    rewrite words_from_token by done. cbn [app words_from]. change (isspace c_sp) with true. cbv iota.
    rewrite IH. by destruct w.
Qed.

Definition no_nl (s : str) : Prop := Forall (fun c => c <> c_nl) s.

Lemma lines_from_line acc l rest : no_nl l -> lines_from acc (l ++ c_nl :: rest) = (acc ++ l) :: lines_from [] rest.
Proof.
  intros Hl. revert acc. induction Hl as [|c l Hc Hl IH]; intros acc; cbn [app lines_from].
  - change (eqc c_nl c_nl) with true. cbv iota. by rewrite app_nil_r.
  - apply eqc_neq in Hc. rewrite Hc, IH. by rewrite <- app_assoc.
Qed.

(** A text of complete lines. *)
Definition lines_text (ls : list str) : str := concat (map (fun l => l ++ [c_nl]) ls).
Definition complete (text : str) : Prop := exists ls, Forall no_nl ls /\ text = lines_text ls.

Lemma get_lines_text ls rest : Forall no_nl ls -> get_lines (lines_text ls ++ rest) = ls ++ get_lines rest.
Proof.
  unfold get_lines, lines_text. induction 1 as [|l ls Hl Hls IH]; [done|]. cbn [map concat].
  rewrite <- !app_assoc. cbn [app]. rewrite lines_from_line by done. by rewrite IH.
Qed.

Lemma load_lines_app p n ls ls' st :
  load_lines p n (ls ++ ls') st = let? st' := load_lines p n ls st in load_lines p (n + Z.of_nat (length ls)) ls' st'.
Proof.
  revert n st. induction ls as [|l ls IH]; intros n st; cbn [app load_lines length res_bind].
  - by rewrite Z.add_0_r.
  - destruct (load_line p n l st) as [st'|]; cbn [res_bind]; [|done]. rewrite IH.
    replace (n + 1 + Z.of_nat (length ls))%Z with (n + Z.of_nat (S (length ls)))%Z by lia. done.
Qed.

Lemma token_no_nl w : token w -> no_nl w.
Proof. intros [_ H]. eapply Forall_impl; [exact H|]. by intros c Hc ->. Qed.

Lemma join_no_nl ws : Forall token ws -> no_nl (join_sp ws).
Proof.
  induction 1 as [|w ws Hw Hws IH]; [constructor|]. destruct ws as [|x ws]; [by apply token_no_nl|].
  change (join_sp (w :: x :: ws)) with (w ++ c_sp :: join_sp (x :: ws)).
  apply Forall_app. split; [by apply token_no_nl|]. by constructor.
Qed.

(** ** Hash texts *)

Lemma chainHash_sha prev payload : chainHashOfPayload prev payload = sha256Hex (prev ++ lit " " ++ payload).
Proof.
  unfold chainHashOfPayload, sha256Hex. pose proof sha_init_wf.
  rewrite !sha_update_app_lemma by auto using sha_update_wf. done.
Qed.

Lemma chainHash_token prev payload : token (chainHashOfPayload prev payload).
Proof.
  rewrite chainHash_sha. destruct (sha256Hex_shape (prev ++ lit " " ++ payload)) as [H1 H2]. split.
  - intros E. rewrite E in H2. done.
  - eapply Forall_impl; [exact H1|]. by intros c [? _].
Qed.

Lemma words_from_tokens acc s : Forall (fun c => isspace c = false) acc -> Forall token (words_from acc s).
Proof.
  revert acc. induction s as [|c s IH]; intros acc Ha; cbn [words_from].
  - destruct acc; [constructor|]. constructor; [by split|constructor].
  - destruct (isspace c) eqn:Hc; [|apply IH, Forall_app; auto].
    destruct acc; [apply IH; constructor|]. constructor; [by split|apply IH; constructor].
Qed.

Lemma words_tokens s : Forall token (words s).
Proof. apply words_from_tokens. constructor. Qed.

(** What [parse_record] returns re-reads the words of the line. *)
Lemma parse_record_inv p n line e prev payload : parse_record p n line = Ok (e, prev, payload) ->
  token (ce_chainHash e) /\ token prev /\
  ((ce_kind e = Yank /\ ce_contentHash e = [] /\ payload = yankPayload (ce_path e) (ce_major e) (ce_version e)) \/
   (ce_kind e = Content /\ ce_path e <> lit "yank" /\ token (ce_contentHash e) /\
    payload = contentPayload (ce_path e) (ce_major e) (ce_version e) (ce_contentHash e))) /\
  token (ce_path e) /\ token (ce_version e).
Proof.
  unfold parse_record. pose proof (words_tokens line) as Hw.
  destruct (words line) as [|chain [|pv [|first more]]]; try done.
  repeat (apply Forall_cons in Hw as [? Hw]).
  destruct (eqs first (lit "yank")) eqn:Ey.
  - destruct more as [|a [|b [|c [|]]]]; try done. repeat (apply Forall_cons in Hw as [? Hw]).
    intros [= <- <- <-]. split_and!; try done. left. done.
  - destruct more as [|a [|b [|c [|]]]]; try done. repeat (apply Forall_cons in Hw as [? Hw]).
    intros [= <- <- <-]. split_and!; try done. right. apply eqs_neq in Ey. done.
Qed.

Lemma load_line_inv p n line es last es' last' : load_line p n line (es, last) = Ok (es', last') ->
  (line = [] /\ es' = es /\ last' = last) \/
  (exists e payload, parse_record p n line = Ok (e, last, payload) /\ es' = es ++ [e] /\ last' = ce_chainHash e /\
     chainHashOfPayload last payload = ce_chainHash e).
Proof.
  unfold load_line. destruct line as [|c line]; [intros [= <- <-]; auto|].
  destruct (parse_record p n (c :: line)) as [[[e prev] payload]|] eqn:E; cbn [res_bind snd fst]; [|done].
  destruct (eqs prev last) eqn:E1; cbn [negb]; [|done]. destruct (eqs (chainHashOfPayload prev payload) _) eqn:E2; cbn [negb]; [|done].
  intros [= <- <-]. apply eqs_eq in E1 as ->. apply eqs_eq in E2. right. eauto 10.
Qed.

Lemma load_lines_token p n ls es last es' last' : token last ->
  load_lines p n ls (es, last) = Ok (es', last') -> token last'.
Proof.
  revert n es last. induction ls as [|l ls IH]; intros n es last Ht; cbn [load_lines]; [by intros [= <- <-]|].
  destruct (load_line p n l (es, last)) as [[es1 last1]|] eqn:E; cbn [res_bind]; [|done].
  apply IH. apply load_line_inv in E as [(_ & _ & ->)|(e & pl & E & _ & -> & _)]; [done|].
  by apply parse_record_inv in E as (? & _).
Qed.

Lemma genesis_token : token kGenesisHash.
Proof. split; [done|]. repeat constructor. Qed.

Lemma load_token p text es last : loadChecksumDb p text = Ok (es, last) -> token last.
Proof. apply load_lines_token, genesis_token. Qed.

(** Loading a log with one more complete line. *)
Lemma load_snoc p text line es last : complete text -> no_nl line -> loadChecksumDb p text = Ok (es, last) ->
  exists n, loadChecksumDb p (text ++ line ++ [c_nl]) = load_line p n line (es, last).
Proof.
  intros (ls & Hls & ->) Hn Hl. unfold loadChecksumDb in *.
  rewrite <- (app_nil_r (lines_text ls)), get_lines_text in Hl by done. change (get_lines []) with (@nil str) in Hl. rewrite app_nil_r in Hl.
  assert (lines_text ls ++ line ++ [c_nl] = lines_text (ls ++ [line]) ++ []) as ->.
  { unfold lines_text. rewrite map_app, concat_app, app_nil_r. cbn. by rewrite app_nil_r. }
  rewrite get_lines_text by (apply Forall_app; auto). cbn [get_lines lines_from]. rewrite app_nil_r.
  exists (1 + Z.of_nat (length ls))%Z. rewrite load_lines_app, Hl. cbn [res_bind load_lines].
  by destruct (load_line _ _ _ _).
Qed.

Lemma complete_snoc text line : complete text -> no_nl line -> complete (text ++ line ++ [c_nl]).
Proof.
  intros (ls & Hls & ->) Hn. exists (ls ++ [line]). split; [apply Forall_app; auto|].
  unfold lines_text. rewrite map_app, concat_app. cbn. by rewrite app_nil_r.
Qed.

(** ** Appending *)

Record args_ok (md : ModuleId) (v : Version) : Prop := {
  ao_path : token (mid_path md);
  ao_not_yank : mid_path md <> lit "yank";
  ao_major : in_s 32 (mid_major md);
  ao_version : version_ok v
}.

Lemma digits_token ds : digit_run ds -> token ds.
Proof. intros [H1 H2]. split; [done|]. eapply Forall_impl; [exact H2|]. intros c Hc. by apply isdigit_plain in Hc as (? & _). Qed.

Lemma to_string_token z : token (to_string z).
Proof.
  unfold to_string. destruct (Z.ltb_spec z 0).
  - destruct (digits_token (dec_nat (- z))) as [_ Ht]; [|split; [done|by constructor]].
    destruct (dec_nat_spec (- z)) as (? & _ & ?); [lia|]. by split.
  - apply digits_token. destruct (dec_nat_spec z) as (? & _ & ?); [lia|]. by split.
Qed.

Lemma formatSemVer_token v : token (formatSemVer v).
Proof.
  unfold formatSemVer. destruct (to_string_token (major v)) as [H1 H2], (to_string_token (minor v)) as [_ H3],
    (to_string_token (patch v)) as [_ H4]. split; [by destruct (to_string (major v))|].
  rewrite !Forall_app. split_and!; try done; by repeat constructor.
Qed.

Lemma yank_token : token (lit "yank").
Proof. split; [done|]. repeat constructor. Qed.

Ltac tokens :=
  repeat (apply Forall_cons; split); try apply Forall_nil;
  auto using chainHash_token, to_string_token, formatSemVer_token, yank_token.

Definition content_line (prev path : str) (mj : Z) (v h : str) : str :=
  join_sp [chainHashOfPayload prev (contentPayload path mj v h); prev; path; to_string mj; v; h].
Definition yank_line (prev path : str) (mj : Z) (v : str) : str :=
  join_sp [chainHashOfPayload prev (yankPayload path mj v); prev; lit "yank"; path; to_string mj; v].

Lemma append_content_text text prev path mj v h :
  appendChecksumEntry text prev path mj v h = text ++ content_line prev path mj v h ++ [c_nl].
Proof. unfold appendChecksumEntry, content_line. cbn [join_sp]. by rewrite <- !app_assoc. Qed.

Lemma append_yank_text text prev path mj v :
  appendYankEntry text prev path mj v = text ++ yank_line prev path mj v ++ [c_nl].
Proof.
  unfold appendYankEntry, yank_line, yankPayload. cbn [join_sp]. rewrite <- !app_assoc.
  change (lit "yank " ++ ?x) with (lit "yank" ++ lit " " ++ x). by rewrite <- ?app_assoc.
Qed.

Lemma load_content_line p n es prev path mj v h :
  token prev -> token path -> path <> lit "yank" -> in_s 32 mj -> token v -> token h ->
  load_line p n (content_line prev path mj v h) (es, prev)
  = Ok (es ++ [MkCEntry Content path mj v h (chainHashOfPayload prev (contentPayload path mj v h))],
        chainHashOfPayload prev (contentPayload path mj v h)).
Proof.
  intros Hpv Hp Hy Hm Hv Hh. set (ch := chainHashOfPayload prev (contentPayload path mj v h)).
  assert (words (content_line prev path mj v h) = [ch; prev; path; to_string mj; v; h]) as Hw.
  { subst ch. apply words_join. tokens. }
  unfold load_line. destruct (content_line prev path mj v h) as [|c l] eqn:E; [done|]. unfold parse_record. rewrite Hw.
  apply eqs_neq in Hy. rewrite Hy, atoi_to_string by done. cbn [res_bind snd fst ce_chainHash].
  rewrite eqs_refl. cbn [negb]. fold ch. by rewrite eqs_refl.
Qed.

Lemma load_yank_line p n es prev path mj v :
  token prev -> token path -> in_s 32 mj -> token v ->
  load_line p n (yank_line prev path mj v) (es, prev)
  = Ok (es ++ [MkCEntry Yank path mj v [] (chainHashOfPayload prev (yankPayload path mj v))],
        chainHashOfPayload prev (yankPayload path mj v)).
Proof.
  intros Hpv Hp Hm Hv. set (ch := chainHashOfPayload prev (yankPayload path mj v)).
  assert (words (yank_line prev path mj v) = [ch; prev; lit "yank"; path; to_string mj; v]) as Hw.
  { subst ch. apply words_join. tokens. }
  unfold load_line. destruct (yank_line prev path mj v) as [|c l] eqn:E; [done|]. unfold parse_record. rewrite Hw.
  rewrite (eqs_refl (lit "yank")), atoi_to_string by done. cbn [res_bind snd fst ce_chainHash].
  rewrite eqs_refl. cbn [negb]. fold ch. by rewrite eqs_refl.
Qed.

(** ** What the operations do *)

Definition db_ok (p text : str) (es : list ChecksumEntry) (last : str) : Prop :=
  complete text /\ loadChecksumDb p text = Ok (es, last).

Lemma names_self md v k h c : names md v (MkCEntry k (mid_path md) (mid_major md) v h c) = true.
Proof. unfold names. cbn. by rewrite !eqs_refl, Z.eqb_refl. Qed.

Lemma recorded_snoc md v es e : recorded md v (es ++ [e]) =
  match recorded md v es with
  | Some h => Some h
  | None => if is_content e && names md v e then Some (ce_contentHash e) else None
  end.
Proof. induction es as [|x es IH]; [done|]. cbn [app recorded]. by destruct (is_content x && names md v x). Qed.

Lemma append_content_ok p text es last md v h :
  db_ok p text es last -> args_ok md v -> token h ->
  let e := MkCEntry Content (mid_path md) (mid_major md) (formatSemVer v) h
             (chainHashOfPayload last (contentPayload (mid_path md) (mid_major md) (formatSemVer v) h)) in
  db_ok p (appendChecksumEntry text last (mid_path md) (mid_major md) (formatSemVer v) h) (es ++ [e]) (ce_chainHash e).
Proof.
  intros [Hc Hl] [H1 H2 H3 H4] Hh e. pose proof (load_token _ _ _ _ Hl) as Ht. rewrite append_content_text.
  assert (no_nl (content_line last (mid_path md) (mid_major md) (formatSemVer v) h)) as Hn by (apply join_no_nl; tokens).
  split; [by apply complete_snoc|]. destruct (load_snoc p _ _ _ _ Hc Hn Hl) as [n ->].
  apply load_content_line; auto using formatSemVer_token.
Qed.

Lemma append_yank_ok p text es last md v :
  db_ok p text es last -> args_ok md v ->
  let e := MkCEntry Yank (mid_path md) (mid_major md) (formatSemVer v) []
             (chainHashOfPayload last (yankPayload (mid_path md) (mid_major md) (formatSemVer v))) in
  db_ok p (appendYankEntry text last (mid_path md) (mid_major md) (formatSemVer v)) (es ++ [e]) (ce_chainHash e).
Proof.
  intros [Hc Hl] [H1 H2 H3 H4] e. pose proof (load_token _ _ _ _ Hl) as Ht. rewrite append_yank_text.
  assert (no_nl (yank_line last (mid_path md) (mid_major md) (formatSemVer v))) as Hn by (apply join_no_nl; tokens).
  split; [by apply complete_snoc|]. destruct (load_snoc p _ _ _ _ Hc Hn Hl) as [n ->].
  apply load_yank_line; auto using formatSemVer_token.
Qed.

Lemma verify_result p text es last md v h : loadChecksumDb p text = Ok (es, last) ->
  match recorded md (formatSemVer v) es with
  | Some h0 => if eqs h0 h then checksumDbVerifyOrRecord p text md v h = Ok text
               else is_ok (checksumDbVerifyOrRecord p text md v h) = false
  | None => checksumDbVerifyOrRecord p text md v h =
            Ok (appendChecksumEntry text last (mid_path md) (mid_major md) (formatSemVer v) h)
  end.
Proof.
  intros Hl. unfold checksumDbVerifyOrRecord. rewrite Hl. cbn [res_bind].
  destruct (recorded md (formatSemVer v) es) as [h0|]; [|done]. by destruct (eqs h0 h).
Qed.

(** Verify-or-record: on a log that loads, the first fetch of a module
    version appends one record and leaves a log that loads with exactly that
    record more; a later fetch with the recorded hash succeeds without
    writing, and one with any other hash is refused. *)
Theorem verify_or_record_spec p text es last md v h :
  db_ok p text es last -> args_ok md v -> token h ->
  match recorded md (formatSemVer v) es with
  | Some h0 => if eqs h0 h then checksumDbVerifyOrRecord p text md v h = Ok text
               else is_ok (checksumDbVerifyOrRecord p text md v h) = false
  | None => exists text' e, checksumDbVerifyOrRecord p text md v h = Ok text' /\
              db_ok p text' (es ++ [e]) (ce_chainHash e) /\ recorded md (formatSemVer v) (es ++ [e]) = Some h
  end.
Proof.
  intros Hdb Ha Hh. pose proof (verify_result p text es last md v h (proj2 Hdb)) as Hv.
  destruct (recorded md (formatSemVer v) es) as [h0|] eqn:Er; [done|].
  do 2 eexists. split; [exact Hv|]. split; [by apply append_content_ok|].
  rewrite recorded_snoc, Er. cbn [is_content ce_kind andb]. by rewrite names_self.
Qed.

Definition json_mod : ModuleId := MkModuleId (lit "github.com/x/json") 1.
Definition v120 : Version := MkVersion 1 2 0.

Lemma json_args : args_ok json_mod v120.
Proof. split; [split; [done|repeat constructor]|done|split; cbn; lia|repeat split; cbn; lia]. Qed.

Lemma empty_db p : db_ok p [] [] kGenesisHash.
Proof. split; [by exists []|done]. Qed.

Lemma verify_or_record_spec_witness :
  exists text' e, checksumDbVerifyOrRecord (lit "db") [] json_mod v120 (lit "00ff") = Ok text' /\
    db_ok (lit "db") text' ([] ++ [e]) (ce_chainHash e) /\ recorded json_mod (formatSemVer v120) ([] ++ [e]) = Some (lit "00ff").
Proof.
  apply (verify_or_record_spec (lit "db") [] [] kGenesisHash json_mod v120 (lit "00ff")).
  - apply empty_db.
  - exact json_args.
  - split; [done|repeat constructor].
Defined.

(** The operations trident runs on the log. *)
Inductive db_step (p : str) : str -> str -> Prop :=
| step_record md v h text text' : args_ok md v -> token h ->
    checksumDbVerifyOrRecord p text md v h = Ok text' -> db_step p text text'
| step_yank md v text text' : args_ok md v -> checksumDbYank p text md v = Ok text' -> db_step p text text'.

Lemma db_step_ok p text es last text' : db_ok p text es last -> db_step p text text' ->
  exists es2 last', db_ok p text' (es ++ es2) last'.
Proof.
  intros Hdb Hs. pose proof Hdb as [_ Hl]. destruct Hs as [md v h text text' Ha Hh E|md v text text' Ha E].
  - pose proof (verify_result p text es last md v h Hl) as Hv. rewrite E in Hv.
    destruct (recorded md (formatSemVer v) es) as [h0|].
    + destruct (eqs h0 h); [|done]. injection Hv as ->. exists [], last. by rewrite app_nil_r.
    + injection Hv as ->. do 2 eexists. by apply append_content_ok.
  - unfold checksumDbYank in E. rewrite Hl in E. cbn [res_bind] in E.
    destruct (negb _); [done|]. destruct (yanked _ _ es).
    + injection E as <-. exists [], last. by rewrite app_nil_r.
    + injection E as <-. do 2 eexists. by apply append_yank_ok.
Qed.

Lemma recorded_app md v es es2 h : recorded md v es = Some h -> recorded md v (es ++ es2) = Some h.
Proof. induction es as [|e es IH]; [done|]. cbn [app recorded]. by destruct (is_content e && names md v e). Qed.

(** A recorded hash is permanent: whatever records and yanks follow, the
    log keeps loading, keeps every earlier record in place, and accepts the
    module version with the recorded hash and no other. *)
Theorem recorded_forever p text es last md v h text' :
  db_ok p text es last -> recorded md (formatSemVer v) es = Some h -> rtc (db_step p) text text' ->
  exists es2 last', db_ok p text' (es ++ es2) last' /\
    forall h', is_ok (checksumDbVerifyOrRecord p text' md v h') = eqs h h'.
Proof.
  intros Hdb Hr Hst. assert (exists es2 last', db_ok p text' (es ++ es2) last') as (es2 & last' & Hdb').
  { clear Hr. revert es last Hdb. induction Hst as [text|text t1 text' Hs Hst IH]; intros es last Hdb.
    - exists [], last. by rewrite app_nil_r.
    - destruct (db_step_ok _ _ _ _ _ Hdb Hs) as (es1 & last1 & Hdb1).
      destruct (IH _ _ Hdb1) as (es2 & last2 & H). exists (es1 ++ es2), last2. by rewrite app_assoc. }
  exists es2, last'. split; [done|]. intros h'.
  pose proof (verify_result p text' _ _ md v h' (proj2 Hdb')) as Hv. rewrite (recorded_app _ _ _ _ _ Hr) in Hv.
  destruct (eqs h h'); [by rewrite Hv|done].
Qed.

Definition one_record_db : str :=
  appendChecksumEntry [] kGenesisHash (mid_path json_mod) (mid_major json_mod) (formatSemVer v120) (lit "00ff").

Definition one_record : ChecksumEntry :=
  MkCEntry Content (mid_path json_mod) 1 (formatSemVer v120) (lit "00ff")
    (chainHashOfPayload kGenesisHash (contentPayload (mid_path json_mod) 1 (formatSemVer v120) (lit "00ff"))).

Lemma one_record_ok : db_ok (lit "db") one_record_db [one_record] (ce_chainHash one_record).
Proof.
  apply (append_content_ok (lit "db") [] [] kGenesisHash json_mod v120 (lit "00ff")); [apply empty_db|exact json_args|].
  split; [done|repeat constructor].
Qed.

Lemma recorded_forever_witness :
  exists es2 last', db_ok (lit "db") one_record_db
      ([one_record] ++ es2) last' /\
    forall h', is_ok (checksumDbVerifyOrRecord (lit "db") one_record_db json_mod v120 h') = eqs (lit "00ff") h'.
Proof.
  eapply (recorded_forever (lit "db") one_record_db [one_record]).
  - exact one_record_ok.
  - reflexivity.
  - apply rtc_refl.
Defined.

(** Yanking: it needs a recorded content hash; when it succeeds the
    version reads as yanked, the recorded hashes of all versions are
    unchanged, and yanking again succeeds without writing. *)
Theorem yank_spec p text es last md v :
  db_ok p text es last -> args_ok md v ->
  if existsb (fun e => is_content e && names md (formatSemVer v) e) es then
    exists text' es2 last', checksumDbYank p text md v = Ok text' /\ db_ok p text' (es ++ es2) last' /\
      checksumDbIsYanked p text' md v = Ok true /\ checksumDbYank p text' md v = Ok text' /\
      (forall m w, recorded m w (es ++ es2) = recorded m w es)
  else is_ok (checksumDbYank p text md v) = false.
Proof.
  intros Hdb Ha. pose proof Hdb as [_ Hl]. unfold checksumDbYank at 1 3. rewrite Hl. cbn [res_bind].
  destruct (existsb _ es) eqn:Ec; cbn [negb]; [|done].
  destruct (yanked md (formatSemVer v) es) eqn:Ey.
  - exists text, [], last. rewrite app_nil_r. split_and!; try done.
    + unfold checksumDbIsYanked. rewrite Hl. cbn [res_bind]. by rewrite Ey.
    + unfold checksumDbYank. rewrite Hl. cbn [res_bind]. by rewrite Ec, Ey.
  - pose proof (append_yank_ok p text es last md v Hdb Ha) as Hdb'.
    set (e := MkCEntry Yank _ _ _ _ _) in Hdb'. pose proof Hdb' as [_ Hl'].
    exists (appendYankEntry text last (mid_path md) (mid_major md) (formatSemVer v)), [e], (ce_chainHash e).
    assert (yanked md (formatSemVer v) (es ++ [e]) = true) as Hy.
    { unfold yanked. rewrite existsb_app. cbn [existsb is_content e ce_kind negb andb]. subst e. rewrite names_self. apply orb_true_r. }
    assert (existsb (fun e => is_content e && names md (formatSemVer v) e) (es ++ [e]) = true) as Hc.
    { rewrite existsb_app, Ec. done. }
    split_and!; try done.
    + unfold checksumDbIsYanked. rewrite Hl'. cbn [res_bind]. by rewrite Hy.
    + unfold checksumDbYank. rewrite Hl'. cbn [res_bind]. by rewrite Hc, Hy.
    + intros m w. rewrite recorded_snoc. by destruct (recorded m w es).
Qed.

Lemma yank_spec_witness :
  exists text' es2 last', checksumDbYank (lit "db") one_record_db json_mod v120 = Ok text' /\
    db_ok (lit "db") text' ([one_record] ++ es2) last' /\
    checksumDbIsYanked (lit "db") text' json_mod v120 = Ok true /\ checksumDbYank (lit "db") text' json_mod v120 = Ok text' /\
    (forall m w, recorded m w ([one_record] ++ es2)
       = recorded m w [one_record]).
Proof.
  exact (yank_spec (lit "db") one_record_db [one_record] _ json_mod v120 one_record_ok json_args).
Defined.

(** ** The chain commits to the log *)

Definition entry_payload (e : ChecksumEntry) : str :=
  match ce_kind e with
  | Yank => yankPayload (ce_path e) (ce_major e) (ce_version e)
  | Content => contentPayload (ce_path e) (ce_major e) (ce_version e) (ce_contentHash e)
  end.

Definition entry_words (e : ChecksumEntry) : list str :=
  match ce_kind e with
  | Yank => [lit "yank"; ce_path e; to_string (ce_major e); ce_version e]
  | Content => [ce_path e; to_string (ce_major e); ce_version e; ce_contentHash e]
  end.

Definition entry_ok (e : ChecksumEntry) : Prop :=
  token (ce_path e) /\ token (ce_version e) /\ token (ce_chainHash e) /\
  match ce_kind e with Yank => ce_contentHash e = [] | Content => ce_path e <> lit "yank" /\ token (ce_contentHash e) end.

(** A chain of records from the genesis hash to [last]. *)
Inductive chained : list ChecksumEntry -> str -> Prop :=
| chained_nil : chained [] kGenesisHash
| chained_snoc es prev e : chained es prev -> token prev -> entry_ok e ->
    chainHashOfPayload prev (entry_payload e) = ce_chainHash e -> chained (es ++ [e]) (ce_chainHash e).

Lemma load_lines_chained p n ls es last es' last' : chained es last -> token last ->
  load_lines p n ls (es, last) = Ok (es', last') -> chained es' last'.
Proof.
  revert n es last. induction ls as [|l ls IH]; intros n es last Hc Ht; cbn [load_lines]; [by intros [= <- <-]|].
  destruct (load_line p n l (es, last)) as [[es1 last1]|] eqn:E; cbn [res_bind]; [|done].
  apply load_line_inv in E as [(_ & -> & ->)|(e & pl & E & -> & -> & Hch)]; [by apply IH|].
  apply parse_record_inv in E as (H1 & H2 & H3 & H4 & H5). apply IH; [|done].
  apply (chained_snoc es last e); [done|done| |].
  - unfold entry_ok. destruct H3 as [(-> & ? & _)|(-> & ? & ? & _)]; done.
  - unfold entry_payload. destruct H3 as [(-> & _ & <-)|(-> & _ & _ & <-)]; done.
Qed.

Lemma load_chained p text es last : loadChecksumDb p text = Ok (es, last) -> chained es last.
Proof. apply load_lines_chained; [apply chained_nil|apply genesis_token]. Qed.

Lemma payload_words prev e : token prev -> entry_ok e -> words (prev ++ lit " " ++ entry_payload e) = prev :: entry_words e.
Proof.
  intros Hp (H1 & H2 & _ & H4). unfold entry_payload, entry_words.
  destruct (ce_kind e).
  - destruct H4 as [_ H4]. rewrite <- (words_join [prev; ce_path e; to_string (ce_major e); ce_version e; ce_contentHash e]) by tokens.
    done.
  - rewrite <- (words_join [prev; lit "yank"; ce_path e; to_string (ce_major e); ce_version e]) by tokens. done.
Qed.

Lemma to_string_inj a b : to_string a = to_string b -> a = b.
Proof. intros E. by rewrite <- (strtol10_to_string a), <- (strtol10_to_string b), E. Qed.

Lemma entry_words_inj e e' : entry_ok e -> entry_ok e' -> entry_words e = entry_words e' -> ce_chainHash e = ce_chainHash e' -> e = e'.
Proof.
  destruct e as [k p m v h c], e' as [k' p' m' v' h' c']. unfold entry_ok, entry_words. cbn.
  intros (_ & _ & _ & H) (_ & _ & _ & H'). destruct k, k'; cbn in *; intros [=] ->; subst.
  - match goal with H : to_string _ = to_string _ |- _ => apply to_string_inj in H; subst end. done.
  - by destruct H.
  - by destruct H'.
  - match goal with H : to_string _ = to_string _ |- _ => apply to_string_inj in H; subst end. done.
Qed.

(** The texts whose digests are the chain hashes of a log, record by record. *)
Fixpoint chain_texts (prev : str) (es : list ChecksumEntry) : list str :=
  match es with
  | [] => []
  | e :: es' => (prev ++ lit " " ++ entry_payload e) :: chain_texts (ce_chainHash e) es'
  end.

Lemma chain_texts_snoc prev es e : chain_texts prev (es ++ [e]) =
  chain_texts prev es ++ [default prev (ce_chainHash <$> last es) ++ lit " " ++ entry_payload e].
Proof.
  revert prev. induction es as [|e1 es IH]; intros prev; [done|]. cbn [app chain_texts]. rewrite IH. cbn [app]. do 2 f_equal.
  rewrite last_cons. by destruct (last es).
Qed.

Lemma chained_last es h : chained es h -> default kGenesisHash (ce_chainHash <$> last es) = h.
Proof. intros []; [done|]. by rewrite last_snoc. Qed.

Lemma chained_texts_snoc es prev e : chained es prev ->
  chain_texts kGenesisHash (es ++ [e]) = chain_texts kGenesisHash es ++ [prev ++ lit " " ++ entry_payload e].
Proof. intros H. by rewrite chain_texts_snoc, (chained_last es prev). Qed.

(** The genesis hash is not a digest: it is three characters short. *)
Lemma genesis_no_digest prev payload : chainHashOfPayload prev payload <> kGenesisHash.
Proof.
  rewrite chainHash_sha. intros E. apply (f_equal length) in E.
  destruct (sha256Hex_shape (prev ++ lit " " ++ payload)) as [_ Hl]. rewrite Hl in E. done.
Qed.

Definition digest_clash (xs ys : list str) : Prop := exists x y, In x xs /\ In y ys /\ x <> y /\ sha256Hex x = sha256Hex y.

Lemma digest_clash_grow xs ys x y : digest_clash xs ys -> digest_clash (xs ++ [x]) (ys ++ [y]).
Proof. intros (a & b & Ha & Hb & H). exists a, b. rewrite !in_app_iff. auto. Qed.

Lemma chained_unique es es' h : chained es h -> chained es' h ->
  es = es' \/ digest_clash (chain_texts kGenesisHash es) (chain_texts kGenesisHash es').
Proof.
  intros Hc. revert es'. induction Hc as [|es prev e Hc IH Ht He Hh]; intros es' Hc'.
  - remember kGenesisHash as g eqn:Eg. destruct Hc' as [|? ? ? _ _ _ Hh']; [auto|]. rewrite Eg in Hh'. by apply genesis_no_digest in Hh'.
  - remember (ce_chainHash e) as h eqn:El. destruct Hc' as [|es' prev' e' Hc' Ht' He' Hh']; [by apply genesis_no_digest in Hh|].
    rewrite (chained_texts_snoc es prev), (chained_texts_snoc es' prev') by done. rewrite chainHash_sha in Hh, Hh'.
    destruct (decide (prev ++ lit " " ++ entry_payload e = prev' ++ lit " " ++ entry_payload e')) as [E|E].
    + pose proof (f_equal words E) as Hw. rewrite !payload_words in Hw by done. injection Hw as -> Hw.
      rewrite (entry_words_inj e e') by (done || congruence).
      destruct (IH es' Hc') as [->|?]; [auto|]. right. by apply digest_clash_grow.
    + right. eexists _, _. rewrite !in_app_iff. cbn [In]. split; [by right; left|]. split; [by right; left|]. split; [exact E|congruence].
Qed.

(** [C38] Tamper evidence: two logs that load with the same final chain hash hold
    the same records (module, version, content hash and kind of each, in
    order, and as many of them), or the two logs themselves exhibit a SHA-256
    collision: among the texts the records of the one chain and those of the
    other there are two different texts with the same digest. *)
Theorem chain_commits p p' text text' es es' h :
  loadChecksumDb p text = Ok (es, h) -> loadChecksumDb p' text' = Ok (es', h) ->
  es = es' \/ exists x y, In x (chain_texts kGenesisHash es) /\ In y (chain_texts kGenesisHash es') /\
                x <> y /\ sha256Hex x = sha256Hex y.
Proof. intros H H'. apply (chained_unique _ _ h); by eapply load_chained. Qed.

Lemma chain_commits_witness :
  exists es es', loadChecksumDb (lit "a") one_record_db = Ok (es, ce_chainHash one_record) /\
    (es = es' \/ exists x y, In x (chain_texts kGenesisHash es) /\ In y (chain_texts kGenesisHash es') /\
                x <> y /\ sha256Hex x = sha256Hex y).
Proof.
  eexists _, _. split; [vm_compute; reflexivity|].
  eapply (chain_commits (lit "a") (lit "b") one_record_db (c_nl :: one_record_db)); vm_compute; reflexivity.
Defined.

(** What the chain does not catch: cutting the log after any complete
    line leaves a log that loads, with the remaining records as if the
    removed ones had never been written. *)
Theorem truncation_undetected p kept cut es last :
  complete kept -> loadChecksumDb p (kept ++ cut) = Ok (es, last) ->
  exists es1 es2 last1, es = es1 ++ es2 /\ loadChecksumDb p kept = Ok (es1, last1).
Proof.
  intros (ls & Hls & ->). unfold loadChecksumDb. rewrite get_lines_text by done.
  pose proof (get_lines_text ls [] Hls) as Hg. rewrite app_nil_r in Hg. rewrite Hg. cbn [get_lines lines_from]. rewrite app_nil_r.
  rewrite load_lines_app. destruct (load_lines p 1 ls ([], kGenesisHash)) as [[es1 last1]|]; cbn [res_bind]; [|done].
  intros Hl. assert (exists es2, es = es1 ++ es2) as [es2 ->]; [|eauto].
  revert Hl. generalize (1 + Z.of_nat (length ls))%Z. revert es1 last1. induction (get_lines cut) as [|l ls' IH]; intros es1 last1 n; cbn [load_lines].
  - intros [= <- <-]. exists []. by rewrite app_nil_r.
  - destruct (load_line p n l (es1, last1)) as [[es2 last2]|] eqn:E; cbn [res_bind]; [|done]. intros Hl.
    apply IH in Hl as [es3 ->]. apply load_line_inv in E as [(_ & -> & _)|(e & ? & _ & -> & _)]; [eauto|].
    exists ([e] ++ es3). by rewrite app_assoc.
Qed.

Lemma truncation_undetected_witness :
  exists es1 es2 last1, [one_record] = es1 ++ es2 /\
    loadChecksumDb (lit "db") [] = Ok (es1, last1).
Proof.
  eapply (truncation_undetected (lit "db") [] one_record_db); [by exists []|]. vm_compute. reflexivity.
Defined.

(** A module whose path is [yank] breaks the database: recording its
    hash succeeds and leaves a log that no longer loads, because its record
    is read as a yank record. *)
Theorem yank_path_breaks_db :
  exists text, checksumDbVerifyOrRecord (lit "db") [] (MkModuleId (lit "yank") 1) v120 (lit "00ff") = Ok text /\
    is_ok (loadChecksumDb (lit "db") text) = false.
Proof. eexists. split; [vm_compute; reflexivity|]. vm_compute. reflexivity. Qed.
