(* ===== verification/Store.v ===== *)
(** * Content hashes and package paths

    Models [canonicalContentHash] of [tools/trident/store.cpp] (the file
    system is the parameter [readWholeFile]), the path checks of
    [tools/trident/source_set.cpp] and [tools/trident/endpoint.cpp], and the
    optional name index of [tools/trident/index.cpp] over a directory
    endpoint, whose files are a finite map (creation with [O_EXCL] fails on an
    existing file; a write that starts is taken to finish). *)

From S2P Require Import Prelude Toml Manifest Semver Sha256.

(** ** The canonical content hash *)

Record StoreFile := MkStoreFile { relPath : str; absPath : str }.

Definition file_le (a b : StoreFile) : Prop := str_ltb (relPath b) (relPath a) = false.
#[export] Instance file_le_dec : RelDecision file_le.
Proof. intros a b. unfold file_le. apply _. Defined.

Section ContentHash.
Context (readWholeFile : str -> res str).

Fixpoint hash_files (h : Sha256) (files : list StoreFile) : res Sha256 :=
  match files with
  | [] => Ok h
  | f :: files' =>
      let? data := readWholeFile (absPath f) in
      hash_files (sha_update (sha_update (sha_update h (relPath f)) [c_nul]) data) files'
  end.

Definition canonicalContentHash (files : list StoreFile) : res str :=
  let? h := hash_files sha_init (merge_sort file_le files) in Ok (finalHex h).

(** The bytes the hash is taken over, when every file reads. *)
Definition file_bytes (f : StoreFile) (data : str) : str := relPath f ++ [c_nul] ++ data.

Lemma hash_files_bytes h files datas : sha_wf h ->
  Forall2 (fun f d => readWholeFile (absPath f) = Ok d) files datas ->
  hash_files h files = Ok (sha_update h (concat (zip_with file_bytes files datas))).
Proof.
  intros Hw H. revert h Hw. induction H as [|f d files datas Hf H IH]; intros h Hw; cbn [hash_files zip_with concat].
  - by rewrite sha_update_nil.
  - rewrite Hf. cbn [res_bind]. rewrite IH by auto using sha_update_wf.
    unfold file_bytes. rewrite !sha_update_app_lemma by auto using sha_update_wf. by rewrite <- !app_assoc.
Qed.

Lemma file_le_total : Total file_le.
Proof.
  intros a b. unfold file_le. destruct (str_ltb (relPath b) (relPath a)) eqn:E; [|auto]. right.
  destruct (str_ltb (relPath a) (relPath b)) eqn:E2; [|done].
  pose proof (lt_trans str_ltb _ _ _ E E2) as H. by rewrite (lt_irrefl str_ltb) in H.
Qed.

Lemma file_le_trans : Transitive file_le.
Proof.
  intros a b c. unfold file_le. intros H1 H2. destruct (str_ltb (relPath c) (relPath a)) eqn:E; [|done].
  destruct (str_ltb (relPath a) (relPath b)) eqn:E2.
  - by rewrite (lt_trans str_ltb _ _ _ E E2) in H2.
  - pose proof (lt_total str_ltb _ _ E2 H1) as Hab. rewrite Hab in E. congruence.
Qed.

Lemma sort_permutation files files' : files ≡ₚ files' -> NoDup (map relPath files) ->
  merge_sort file_le files = merge_sort file_le files'.
Proof.
  intros Hp Hn. pose proof file_le_total. pose proof file_le_trans.
  apply (Sorted_unique_strong file_le); [|by apply Sorted_merge_sort|by apply Sorted_merge_sort|by rewrite !merge_sort_Permutation].
  intros x y Hx Hy H1 H2. rewrite merge_sort_Permutation in Hx. rewrite merge_sort_Permutation, <- Hp in Hy.
  assert (relPath x = relPath y) as E by by apply (lt_total str_ltb).
  apply list_elem_of_lookup in Hx as [i Hi], Hy as [j Hj].
  assert (i = j) as ->; [|congruence].
  apply (NoDup_lookup (map relPath files) i j (relPath y) Hn); rewrite list_lookup_fmap; [rewrite Hi|rewrite Hj]; cbn; congruence.
Qed.

(** The content hash is canonical: for readable files with distinct
    relative paths it does not depend on their order, and it is the SHA-256 of
    one byte string, the concatenation over the files sorted by path of path,
    zero byte and contents. *)
Theorem contentHash_canonical files files' :
  files ≡ₚ files' -> NoDup (map relPath files) ->
  canonicalContentHash files = canonicalContentHash files' /\
  forall datas, Forall2 (fun f d => readWholeFile (absPath f) = Ok d) (merge_sort file_le files) datas ->
    canonicalContentHash files = Ok (sha256Hex (concat (zip_with file_bytes (merge_sort file_le files) datas))).
Proof.
  intros Hp Hn. unfold canonicalContentHash. rewrite (sort_permutation _ _ Hp Hn). split; [done|].
  intros datas H. by rewrite (hash_files_bytes _ _ _ sha_init_wf H).
Qed.

End ContentHash.

Definition sample_read (p : str) : res str := if eqs p (lit "/t/a") then Ok (lit "x") else Ok [].

Definition sample_files : list StoreFile := [MkStoreFile (lit "b") (lit "/t/b"); MkStoreFile (lit "a") (lit "/t/a")].

Lemma sample_files_distinct : NoDup (map relPath sample_files).
Proof. apply NoDup_cons. split; [|apply NoDup_singleton]. intros H. apply list_elem_of_singleton in H. done. Qed.

Lemma contentHash_canonical_witness :
  canonicalContentHash sample_read sample_files = canonicalContentHash sample_read (rev sample_files).
Proof.
  exact (proj1 (contentHash_canonical sample_read sample_files (rev sample_files) (perm_swap _ _ _) sample_files_distinct)).
Defined.

(** The hashed byte string does not determine the files: path, zero
    byte and contents are not delimited from the next path, so two packages
    with different files have the same content hash. *)
Theorem contentHash_ambiguous :
  exists read read' files files' h,
    canonicalContentHash read files = Ok h /\ canonicalContentHash read' files' = Ok h /\
    map relPath files <> map relPath files'.
Proof.
  exists (fun p => Ok (if eqs p (lit "1") then lit "x" else lit "2")), (fun p => Ok (if eqs p (lit "1") then [] else lit "2")),
    [MkStoreFile (lit "a") (lit "1"); MkStoreFile (lit "xb") (lit "2")],
    [MkStoreFile (lit "a") (lit "1"); MkStoreFile (lit "xxb") (lit "2")].
  eexists. split; [vm_compute; reflexivity|]. split; [vm_compute; reflexivity|]. done.
Qed.

(** ** Relative paths *)

(** The components the path loops visit. *)
Fixpoint split_slash (acc s : str) : list str :=
  match s with
  | [] => [acc]
  | c :: s' => if eqc c "/" then acc :: split_slash [] s' else split_slash (acc ++ [c]) s'
  end.
Definition parts (path : str) : list str := split_slash [] path.

Definition starts_slash (path : str) : bool := eqc (char_at path 0) "/".

Definition unsafeRelativePath (path : str) : bool :=
  match path with
  | [] => true
  | _ => starts_slash path || existsb (fun p => eqs p (lit "..")) (parts path)
  end.

Definition safeRelative (relative : str) : bool :=
  match relative with
  | [] => false
  | _ => negb (starts_slash relative) &&
         negb (existsb (fun p => eqs p [] || eqs p (lit ".") || eqs p (lit "..")) (parts relative))
  end.

(** Lexical resolution of a path's components below a directory. *)
Fixpoint resolve (dir ps : list str) : list str :=
  match ps with
  | [] => dir
  | p :: ps' =>
      if eqs p [] || eqs p (lit ".") then resolve dir ps'
      else if eqs p (lit "..") then resolve (removelast dir) ps'
      else resolve (dir ++ [p]) ps'
  end.

(** Declared paths stay inside the package: a source path
    [unsafeRelativePath] accepts resolves below its base directory, and one
    [safeRelative] accepts resolves to exactly its own components below the
    endpoint's root. *)
Theorem relative_paths_contained path :
  (unsafeRelativePath path = false -> forall base, exists below, resolve base (parts path) = base ++ below) /\
  (safeRelative path = true -> forall root, resolve root (parts path) = root ++ parts path).
Proof.
  split.
  - intros H base. destruct path as [|c path]; [done|]. cbn [unsafeRelativePath] in H. bool_hyps.
    match goal with H : existsb _ _ = false |- _ => revert H end. generalize (parts (c :: path)). clear. intros ps. revert base.
    induction ps as [|p ps IH]; intros base H; cbn [existsb resolve] in *; [exists []; by rewrite app_nil_r|]. bool_hyps.
    destruct (eqs p [] || eqs p (lit ".")); [by apply IH|].
    match goal with H : eqs p (lit "..") = false |- _ => rewrite H end.
    destruct (IH (base ++ [p])) as [b Hb]; [done|]. exists ([p] ++ b). by rewrite Hb, <- app_assoc.
  - intros H root. destruct path as [|c path]; [done|]. cbn [safeRelative] in H. bool_hyps.
    match goal with H : existsb _ _ = false |- _ => revert H end. generalize (parts (c :: path)). clear. intros ps. revert root.
    induction ps as [|p ps IH]; intros base H; cbn [existsb resolve] in *; [by rewrite app_nil_r|]. bool_hyps.
    repeat match goal with H : eqs p _ = false |- _ => rewrite H end. cbn [orb].
    rewrite IH by done. by rewrite <- app_assoc.
Qed.

Lemma relative_paths_contained_witness :
  resolve [lit "srv"] (parts (lit "names/json")) = [lit "srv"] ++ parts (lit "names/json").
Proof. apply (relative_paths_contained (lit "names/json")). reflexivity. Defined.

(** ** The name index *)

Definition plain_segment_char (c : ascii) : bool :=
  in_range "a" "z" c || in_range "A" "Z" c || in_range "0" "9" c || eqc c "-" || eqc c "_" || eqc c "." || eqc c "~".
Definition upper_hex (v : Z) : ascii := char_at (lit "0123456789ABCDEF") (Z.to_nat v).
Definition percentEncodeSegment (text : str) : str :=
  concat (map (fun c => if plain_segment_char c then [c]
                        else ["%"%char; upper_hex (Z.shiftr (code c) 4); upper_hex (Z.land (code c) 15)]) text).

Fixpoint drop_slashes (rev_out : str) : str :=
  match rev_out with c :: r => if eqc c "/" then drop_slashes r else rev_out | [] => [] end.
Definition joined (endpoint relative : str) : str := rev (drop_slashes (rev endpoint)) ++ lit "/" ++ relative.

Definition isFriendlyPackageName (text : str) : bool :=
  match text with
  | [] => false
  | _ => negb (eqs text (lit ".") || eqs text (lit "..") || existsb (fun c => eqc c "/") text || existsb (fun c => eqc c ":") text)
         && forallb (fun c => isalnum c || eqc c "-" || eqc c "_" || eqc c ".") text
  end.

Fixpoint trim_front (s : str) : str := match s with c :: s' => if isspace c then trim_front s' else s | [] => [] end.
Definition trim (s : str) : str := rev (trim_front (rev (trim_front s))).

Definition indexPath (name : str) : str := lit "names/" ++ percentEncodeSegment name.

Definition isHttp (endpoint : str) : bool := has_at endpoint 0 (lit "http://") || has_at endpoint 0 (lit "https://").
Definition localRoot (endpoint : str) : str :=
  if has_at endpoint 0 (lit "file://") then substr endpoint 7 (length endpoint) else endpoint.

(** The files below a directory endpoint: path to contents. *)
Abbreviation Files := (gmap str str).

Section Index.
(** The HTTP service behind [curl]: [Ok None] is a 404; a PUT answers an error or nothing. *)
Context (httpGet : str -> res (option str)) (httpPut : str -> str -> res unit).

(** [endpointReadText]: [Ok None] is [missing]. *)
Definition endpointReadText (fs : Files) (endpoint relative : str) : res (option str) :=
  if safeRelative relative then
    if isHttp endpoint then httpGet (joined endpoint relative)
    else Ok (fs !! joined (localRoot endpoint) relative)
  else Err (lit "unsafe endpoint path '" ++ relative ++ lit "'").

Definition endpointPutTextIfAbsent (fs : Files) (endpoint relative text : str) : res Files :=
  if safeRelative relative then
    if isHttp endpoint then let? _ := httpPut (joined endpoint relative) text in Ok fs else
    let path := joined (localRoot endpoint) relative in
    match fs !! path with
    | Some existing => if eqs existing text then Ok fs
                       else Err (lit "index name is already registered to a different VCS path: '" ++ path ++ lit "'")
    | None => Ok (<[path := text]> fs)
    end
  else Err (lit "unsafe endpoint path '" ++ relative ++ lit "'").

Definition has_slash (s : str) : bool := existsb (fun c => eqc c "/") s.

Definition indexResolveName (fs : Files) (endpoint name : str) : res (option str) :=
  match endpoint with
  | [] => Ok None
  | _ =>
      if negb (isFriendlyPackageName name) then Err (lit "'" ++ name ++ lit "' is not a valid package-index name")
      else
        let? text := endpointReadText fs endpoint (indexPath name) in
        match text with
        | None => Ok None
        | Some t =>
            let modulePath := trim t in
            if eqs modulePath [] || negb (has_slash modulePath)
            then Err (lit "optional index entry for '" ++ name ++ lit "' does not contain a VCS path")
            else Ok (Some modulePath)
        end
  end.

Definition indexRegisterName (fs : Files) (endpoint name modulePath : str) : res Files :=
  match endpoint with
  | [] => Ok fs
  | _ =>
      if negb (isFriendlyPackageName name) then Err (lit "manifest name '" ++ name ++ lit "' is not valid for the optional index")
      else if eqs modulePath [] || negb (has_slash modulePath)
      then Err (lit "cannot register '" ++ name ++ lit "': '" ++ modulePath ++ lit "' is not an explicit VCS path")
      else
        let? existing := indexResolveName fs endpoint name in
        match existing with
        | Some e => if eqs e modulePath then Ok fs
                    else Err (lit "index name '" ++ name ++ lit "' is already registered to '" ++ e ++
                              lit "' and cannot be remapped to '" ++ modulePath ++ lit "'")
        | None => endpointPutTextIfAbsent fs endpoint (indexPath name) (modulePath ++ [c_nl])
        end
  end.

(** ** First registration wins *)

Lemma friendly_facts name : isFriendlyPackageName name = true ->
  name <> [] /\ name <> lit "." /\ name <> lit ".." /\ has_slash name = false /\
  percentEncodeSegment name = name.
Proof.
  destruct name as [|c name]; [done|]. unfold isFriendlyPackageName. set (n := c :: name). intros H. bool_hyps.
  split_and!; [done|by apply eqs_neq|by apply eqs_neq|done|].
  unfold percentEncodeSegment. match goal with H : forallb _ n = true |- _ => revert H end. generalize n. clear. intros n.
  induction n as [|x n IH]; [done|]. cbn [forallb map concat]. intros H. bool_hyps.
  assert (plain_segment_char x = true) as ->; [|cbn; by rewrite IH].
  match goal with H : (_ || _) = true |- _ => revert H end. clear. each_char x; vm_compute; congruence.
Qed.

Lemma split_noslash acc s : has_slash s = false -> split_slash acc s = [acc ++ s].
Proof.
  revert acc. induction s as [|c s IH]; intros acc; cbn [has_slash existsb split_slash]; [by rewrite app_nil_r|].
  intros H. apply orb_false_elim in H as [-> H]. rewrite IH by done. by rewrite <- app_assoc.
Qed.

Lemma index_path_safe name : isFriendlyPackageName name = true ->
  indexPath name = lit "names/" ++ name /\ safeRelative (indexPath name) = true.
Proof.
  intros H. destruct (friendly_facts name H) as (H1 & H2 & H3 & H4 & H5). unfold indexPath. rewrite H5. split; [done|].
  change (safeRelative (lit "names/" ++ name)) with
    (negb (existsb (fun p => eqs p [] || eqs p (lit ".") || eqs p (lit "..")) (lit "names" :: split_slash [] name))).
  rewrite split_noslash by done. cbn [app existsb]. apply eqs_neq in H1, H2, H3. by rewrite H1, H2, H3.
Qed.

Lemma trim_front_app s t : s <> [] -> Forall (fun c => isspace c = false) s -> trim_front (s ++ t) = s ++ t.
Proof. intros Hne Hs. destruct Hs as [|c s Hc Hs]; [done|]. cbn. by rewrite Hc. Qed.

Lemma trim_line p : p <> [] -> Forall (fun c => isspace c = false) p -> trim (p ++ [c_nl]) = p.
Proof.
  intros Hne Hp. unfold trim. rewrite trim_front_app by done. rewrite rev_app_distr. cbn [rev app trim_front].
  change (isspace c_nl) with true. cbv iota. rewrite <- (app_nil_r (rev p)), trim_front_app.
  - by rewrite app_nil_r, rev_involutive.
  - intros E. apply (f_equal (@rev ascii)) in E. rewrite rev_involutive in E. done.
  - apply List.Forall_forall. intros c Hc. apply in_rev in Hc. rewrite List.Forall_forall in Hp. auto.
Qed.

Lemma joined_inj e a b : joined e a = joined e b -> a = b.
Proof. unfold joined. intros H. apply app_inv_head in H. by injection H. Qed.

(** The entry of a name in a directory index. *)
Definition entry_at (endpoint name : str) : str := joined (localRoot endpoint) (indexPath name).

Definition is_vcs_path (p : str) : Prop := Forall (fun c => isspace c = false) p /\ has_slash p = true.

Lemma resolve_local fs endpoint name : endpoint <> [] -> isHttp endpoint = false -> isFriendlyPackageName name = true ->
  indexResolveName fs endpoint name =
  match fs !! entry_at endpoint name with
  | None => Ok None
  | Some t => if eqs (trim t) [] || negb (has_slash (trim t))
              then Err (lit "optional index entry for '" ++ name ++ lit "' does not contain a VCS path")
              else Ok (Some (trim t))
  end.
Proof.
  intros He Hh Hn. unfold indexResolveName, endpointReadText. destruct endpoint as [|c e]; [done|].
  rewrite Hn. cbn [negb]. rewrite (proj2 (index_path_safe name Hn)), Hh. cbn [res_bind]. done.
Qed.

(** The name index is first-registration-wins: over a directory
    endpoint, registering a free friendly name for a VCS path succeeds and
    makes the name resolve to that path; afterwards registering it again for
    the same path changes nothing, for any other path is refused, and every
    other name resolves as before. *)
Theorem index_first_wins fs endpoint name p :
  endpoint <> [] -> isHttp endpoint = false -> isFriendlyPackageName name = true -> is_vcs_path p ->
  fs !! entry_at endpoint name = None ->
  exists fs', indexRegisterName fs endpoint name p = Ok fs' /\ indexResolveName fs' endpoint name = Ok (Some p) /\
    (forall q, is_vcs_path q -> if eqs p q then indexRegisterName fs' endpoint name q = Ok fs'
                               else is_ok (indexRegisterName fs' endpoint name q) = false) /\
    (forall other, isFriendlyPackageName other = true -> other <> name ->
       indexResolveName fs' endpoint other = indexResolveName fs endpoint other).
Proof.
  intros He Hh Hn [Hp1 Hp2] Hfree. exists (<[entry_at endpoint name := p ++ [c_nl]]> fs).
  assert (forall q, has_slash q = true -> q <> []) as Hne by (intros q Hq ->; done).
  assert (indexResolveName (<[entry_at endpoint name := p ++ [c_nl]]> fs) endpoint name = Ok (Some p)) as Hres.
  { rewrite resolve_local by done. rewrite lookup_insert_eq, trim_line by auto.
    rewrite (proj2 (eqs_neq p []) (Hne p Hp2)), Hp2. done. }
  split; [|split; [done|split]].
  - unfold indexRegisterName. destruct endpoint as [|c e] eqn:Ee; [done|]. rewrite <- Ee in *.
    rewrite Hn, (proj2 (eqs_neq p []) (Hne p Hp2)), Hp2. cbn [negb orb]. rewrite resolve_local, Hfree by (rewrite Ee in *; done).
    cbn [res_bind]. unfold endpointPutTextIfAbsent. rewrite (proj2 (index_path_safe name Hn)), Hh.
    fold (entry_at endpoint name). by rewrite Hfree.
  - intros q [Hq1 Hq2]. unfold indexRegisterName. destruct endpoint as [|c e] eqn:Ee; [done|]. rewrite <- Ee in *.
    rewrite Hn, (proj2 (eqs_neq q []) (Hne q Hq2)), Hq2. cbn [negb orb]. rewrite Hres. cbn [res_bind]. by destruct (eqs p q).
  - intros other Ho Hno. rewrite !resolve_local by done. rewrite lookup_insert_ne; [done|]. unfold entry_at. intros E.
    apply joined_inj in E. rewrite (proj1 (index_path_safe _ Hn)), (proj1 (index_path_safe _ Ho)) in E.
    apply app_inv_head in E. congruence.
Qed.

End Index.

Lemma index_first_wins_witness :
  let get (_ : str) := Err (A := option str) (lit "offline") in
  let put (_ _ : str) := Err (A := unit) (lit "offline") in
  exists fs', indexRegisterName get put ∅ (lit "/srv/index") (lit "json") (lit "github.com/x/json") = Ok fs' /\
    indexResolveName get fs' (lit "/srv/index") (lit "json") = Ok (Some (lit "github.com/x/json")).
Proof.
  intros get put.
  destruct (index_first_wins get put ∅ (lit "/srv/index") (lit "json") (lit "github.com/x/json")) as (fs' & H1 & H2 & _).
  - done.
  - reflexivity.
  - reflexivity.
  - split; [repeat constructor|reflexivity].
  - apply lookup_empty.
  - exists fs'. done.
Defined.
