(* ===== verification/Disk.v ===== *)
(** * The package manager on disk

    The file system behind [tools/trident] is an interface, [FileSystem]: what
    the POSIX and C++ library calls the tool makes answer, as functions of an
    abstract disk.  Over it, the file-handling parts of the tool:
    [store.cpp] (the content-addressed store), [source_set.cpp] (a package's
    declared sources), [discover.cpp] (finding the manifest) and the file
    accesses of [checksum.cpp].  An operation that changes the disk is a
    [DM]: it takes a disk and gives the disk afterwards and a result. *)

From S2P Require Import Prelude Toml Manifest Semver Sha256 Checksum Store.

Inductive FileKind := RegularFile | Directory | OtherFile.
Inductive GlobResult := GlobPaths (paths : list str) | GlobNoMatch | GlobError.
(** An output stream: good when the code tests it and flushed by its destructor,
    not opened, bad after writing, or good when tested and then lost, because the
    flush of its destructor failed (a full disk), which the code does not see:
    every writer of the tool tests [out.good()] before the stream is closed. *)
Inductive IoResult := IoGood | IoNotOpen | IoBad | IoLost.
Inductive MkdirResult := MkdirDone | MkdirExists | MkdirFailed.

Class FileSystem (F : Type) := {
  fs_read : F -> str -> option str;              (* std::ifstream and rdbuf *)
  fs_stat : F -> str -> option FileKind;
  fs_lstat : F -> str -> option FileKind;
  fs_realpath : F -> str -> option str;
  fs_readdir : F -> str -> option (list str);    (* opendir and all of readdir *)
  fs_glob : F -> str -> GlobResult;              (* glob with GLOB_MARK *)
  fs_write : str -> str -> F -> F * IoResult;    (* std::ofstream, truncating *)
  fs_append : str -> str -> F -> F * IoResult;   (* std::ofstream with std::ios::app *)
  fs_mkdir : str -> F -> F * MkdirResult;        (* 0, EEXIST or another error *)
  fs_rename : str -> str -> F -> F * bool;
  fs_executable : F -> str -> bool;              (* access(path, X_OK) == 0 *)
  fs_fnmatch : str -> str -> bool;               (* fnmatch(pattern, string, 0) == 0 *)
  os_getenv : str -> option str;
  os_getpid : Z;
  os_self : option str                           (* readlink of /proc/self/exe *)
}.

(** PATH_MAX: the kernel refuses longer paths. *)
Definition kPathMax : nat := N.to_nat 4096.
#[global] Opaque kPathMax.

Section Disk.
Context {F : Type} {FS : FileSystem F}.

Definition DM (A : Type) : Type := F -> F * res A.
Definition dm_ret {A} (a : A) : DM A := fun d => (d, Ok a).
Definition dm_err {A} (e : str) : DM A := fun d => (d, Err e).
Definition dm_get : DM F := fun d => (d, Ok d).
Definition dm_bind {A B} (m : DM A) (k : A -> DM B) : DM B :=
  fun d => match m d with (d', Ok a) => k a d' | (d', Err e) => (d', Err e) end.
Definition dm_res {A} (r : res A) : DM A := fun d => (d, r).

End Disk.

Notation "'let!' x ':=' m 'in' k" := (dm_bind m (fun x => k))
  (at level 10, x pattern, m at level 100, k at level 200) : lev_scope.

Section Files.
Context {F : Type} {FS : FileSystem F}.

(** ** Reading *)

Definition read_file (d : F) (path : str) : res str :=
  match fs_read d path with Some text => Ok text | None => Err (lit "cannot read '" ++ path ++ lit "'") end.

Definition is_dir (d : F) (path : str) : bool :=
  match fs_stat d path with Some Directory => true | _ => false end.
Definition exists_ (d : F) (path : str) : bool := match fs_stat d path with Some _ => true | None => false end.

Definition dotted (name : str) : bool := eqs name (lit ".") || eqs name (lit "..").
Definition slash_dir (dir : str) : str := match last dir with Some c => if eqc c "/" then dir else dir ++ lit "/" | None => lit "/" end.

(** [listFilesRecursive] of [resolve.cpp]; every level makes the path longer,
    so [kPathMax] levels are enough ([list_files_unfold]). *)
Fixpoint list_files (fuel : nat) (d : F) (dir : str) : list str :=
  match fs_readdir d dir with
  | None => []
  | Some names =>
      concat (map (fun name =>
        if dotted name then []
        else
          let path := dir ++ lit "/" ++ name in
          match fs_stat d path with
          | None => []
          | Some Directory => match fuel with 0 => [] | S n => list_files n d path end
          | Some _ => [path]
          end) names)
  end.
Definition listFilesRecursive (d : F) (dir : str) : list str := list_files kPathMax d dir.

(** [collectStoreFiles] of [store.cpp]. *)
Fixpoint collect_files (fuel : nat) (d : F) (root dir : str) : res (list StoreFile) :=
  match fs_readdir d dir with
  | None => Err (lit "cannot open store entry '" ++ dir ++ lit "'")
  | Some names =>
      (fix go (names : list str) : res (list StoreFile) :=
         match names with
         | [] => Ok []
         | name :: names' =>
             if dotted name then go names'
             else
               let path := dir ++ lit "/" ++ name in
               let rel := substr path (length root + 1) (length path) in
               let? here :=
                 match fs_lstat d path with
                 | None => Err (lit "cannot inspect store path '" ++ path ++ lit "'")
                 | Some Directory => match fuel with 0 => Ok [] | S n => collect_files n d root path end
                 | Some RegularFile => Ok [MkStoreFile rel path]
                 | Some OtherFile => Err (lit "store entry contains a symlink or special file at '" ++ rel ++ lit "'")
                 end in
               let? more := go names' in Ok (here ++ more)
         end) names
  end.
Definition collectStoreFiles (d : F) (root : str) : res (list StoreFile) := collect_files kPathMax d root root.

(** ** Environment *)

Definition trident_home (leaf : string) : str :=
  match os_getenv (lit "TRIDENT_HOME") with
  | Some home => home ++ lit "/" ++ lit leaf
  | None => match os_getenv (lit "HOME") with
            | Some h => h ++ lit "/.trident/" ++ lit leaf
            | None => lit "./.trident/" ++ lit leaf
            end
  end.
Definition storeRoot : str := trident_home "store".
Definition checksumDbPath : str := trident_home "checksum.db".

(** ** The store *)

Definition verifyStoreEntry (d : F) (storeDir expectedHash : str) : res unit :=
  let? stored := collectStoreFiles d storeDir in
  let? actual := canonicalContentHash (read_file d) stored in
  if negb (eqs actual expectedHash) then
    Err (lit "content-addressed store entry '" ++ storeDir ++ lit "' is corrupt (directory key sha256:" ++ expectedHash ++
         lit ", actual sha256:" ++ actual ++ lit ")")
  else Ok tt.

(** [dir.substr(0, slash)] when the path has a slash. *)
Definition parent (path : str) : option str :=
  match find_last_of "/" path with Some i => Some (substr path 0 i) | None => None end.

(** [::mkdir(...) == 0 || errno == EEXIST] *)
Definition mkdir_or_exists (dir : str) (d : F) : F * bool :=
  let '(d', r) := fs_mkdir dir d in (d', match r with MkdirFailed => false | _ => true end).

Fixpoint ensure_dir (fuel : nat) (dir : str) (d : F) : F * bool :=
  if eqs dir [] || eqs dir (lit "/") then (d, true)
  else match fs_stat d dir with
       | Some Directory => (d, true)
       | Some _ => (d, false)
       | None =>
           let '(d1, ok) :=
             match parent dir, fuel with Some p, S n => ensure_dir n p d | _, _ => (d, true) end in
           if ok then mkdir_or_exists dir d1 else (d1, false)
       end.
(** Every level makes the path shorter. *)
Definition ensureDirRec (dir : str) (d : F) : F * bool := ensure_dir (length dir) dir d.

Definition ensure_parent (path : str) (d : F) : F * bool :=
  match parent path with Some p => ensureDirRec p d | None => (d, true) end.

(** [out.good()] is the result; a stream that is not good sets no message. *)
Definition stream_result (path : str) (r : IoResult) : res unit :=
  match r with IoGood | IoLost => Ok tt | IoNotOpen => Err (lit "cannot write '" ++ path ++ lit "'") | IoBad => Err [] end.

Definition put_file (put : str -> str -> F -> F * IoResult) (path data : str) : DM unit := fun d =>
  match ensure_parent path d with
  | (d1, false) => (d1, Err (lit "cannot create directory for '" ++ path ++ lit "'"))
  | (d1, true) => let '(d2, r) := put path data d1 in (d2, stream_result path r)
  end.
Definition writeWholeFile (path data : str) : DM unit := put_file fs_write path data.

Fixpoint copy_to_store (tmpDir : str) (files : list StoreFile) : DM unit :=
  match files with
  | [] => dm_ret tt
  | f :: files' =>
      let! d := dm_get in
      let! data := dm_res (read_file d (absPath f)) in
      let! _ := writeWholeFile (tmpDir ++ lit "/" ++ relPath f) data in
      copy_to_store tmpDir files'
  end.

(** The result is the store directory and the content hash. *)
Definition materializeToStore (files : list StoreFile) : DM (str * str) := fun d =>
  match canonicalContentHash (read_file d) files with
  | Err e => (d, Err e)
  | Ok contentHash =>
      let storeDir := storeRoot ++ lit "/" ++ contentHash in
      if is_dir d storeDir then
        match verifyStoreEntry d storeDir contentHash with
        | Err e => (d, Err e)
        | Ok _ => (d, Ok (storeDir, contentHash))
        end
      else
        let tmpDir := storeDir ++ lit ".tmp." ++ to_string os_getpid in
        match copy_to_store tmpDir files d with
        | (d1, Err e) => (d1, Err e)
        | (d1, Ok _) =>
            match fs_rename tmpDir storeDir d1 with
            | (d2, true) => (d2, Ok (storeDir, contentHash))
            | (d2, false) => (d2, Err (lit "cannot finalize store entry '" ++ storeDir ++ lit "'"))
            end
        end
  end.

(** ** The checksum database file *)

(** A database that does not open is empty. *)
Definition db_text (d : F) : str := match fs_read d checksumDbPath with Some t => t | None => [] end.

(** Write what an operation added to the text, if anything. *)
Definition db_store (text : str) (r : res str) : DM unit := fun d =>
  match r with
  | Err e => (d, Err e)
  | Ok text' => if eqs text' text then (d, Ok tt) else put_file fs_append checksumDbPath (drop (length text) text') d
  end.
Definition db_verify_or_record (md : ModuleId) (v : Version) (h : str) : DM unit := fun d =>
  db_store (db_text d) (checksumDbVerifyOrRecord checksumDbPath (db_text d) md v h) d.
Definition db_yank (md : ModuleId) (v : Version) : DM unit := fun d =>
  db_store (db_text d) (checksumDbYank checksumDbPath (db_text d) md v) d.
Definition db_is_yanked (d : F) (md : ModuleId) (v : Version) : res bool :=
  checksumDbIsYanked checksumDbPath (db_text d) md v.

(** ** A package's declared sources *)

Definition has_glob (rel : str) : bool := existsb (fun c => eqc c "*" || eqc c "?" || eqc c "[") rel.
Definition ends_slash (p : str) : bool := match last p with Some c => eqc c "/" | None => false end.

Definition addRegularFile (d : F) (base path : str) (acc : gset str * list StoreFile) : res (gset str * list StoreFile) :=
  match fs_lstat d path with
  | None => Err (lit "declared source '" ++ path ++ lit "' does not exist")
  | Some RegularFile =>
      let baseNoSlash := if (1 <? length base)%nat && ends_slash base then substr base 0 (length base - 1) else base in
      match fs_realpath d baseNoSlash, fs_realpath d path with
      | Some baseReal, Some pathReal =>
          if negb (has_at pathReal 0 (baseReal ++ lit "/")) then
            Err (lit "declared source '" ++ path ++ lit "' escapes the package root through a symlink")
          else if negb (has_at path 0 base) then
            Err (lit "declared source '" ++ path ++ lit "' escapes the package root")
          else
            let rel := substr path (length base) (length path) in
            if unsafeRelativePath rel then Err (lit "declared source '" ++ rel ++ lit "' escapes the package root")
            else if bool_decide (rel ∈ acc.1) then Ok acc
            else Ok ({[rel]} ∪ acc.1, acc.2 ++ [MkStoreFile rel path])
      | _, _ => Err (lit "cannot canonicalize declared source '" ++ path ++ lit "'")
      end
  | Some _ =>
      Err (lit "declared source '" ++ path ++
           lit "' is not a regular file (directories and symlinks are not package sources)")
  end.

Fixpoint add_globbed (d : F) (base : str) (paths : list str) (acc : gset str * list StoreFile) : res (gset str * list StoreFile) :=
  match paths with
  | [] => Ok acc
  | p :: paths' =>
      if ends_slash p then add_globbed d base paths' acc
      else let? acc' := addRegularFile d base p acc in add_globbed d base paths' acc'
  end.

Fixpoint add_patterns (d : F) (base : str) (patterns : list str) (acc : gset str * list StoreFile) : res (gset str * list StoreFile) :=
  match patterns with
  | [] => Ok acc
  | rel :: patterns' =>
      if unsafeRelativePath rel then Err (lit "source path '" ++ rel ++ lit "' must stay inside the package root")
      else
        let pattern := base ++ rel in
        let? acc' :=
          if negb (has_glob rel) then addRegularFile d base pattern acc
          else match fs_glob d pattern with
               | GlobNoMatch => Err (lit "source pattern '" ++ rel ++ lit "' matched no files")
               | GlobError => Err (lit "failed to expand source pattern '" ++ rel ++ lit "'")
               | GlobPaths ps => add_globbed d base ps acc
               end in
        add_patterns d base patterns' acc'
  end.

Definition collectDeclaredSources (d : F) (baseDir : str) (patterns : list str) : res (list StoreFile) :=
  let base := slash_dir (match baseDir with [] => lit "." | _ => baseDir end) in
  let? (_, files) := add_patterns d base patterns (∅, []) in
  match files with
  | [] => Err (lit "manifest's source set is empty")
  | _ => Ok (merge_sort file_le files)
  end.

(** ** Finding the manifest *)

Definition discoverManifestPath (d : F) (dir : str) : str :=
  let candidate := slash_dir (match dir with [] => lit "." | _ => dir end) ++ lit "trident.toml" in
  if exists_ d candidate then candidate else [].

Definition resolveManifestArg (d : F) (arg : str) : str :=
  let target := match arg with [] => lit "." | _ => arg end in
  match fs_stat d target with Some RegularFile => target | _ => discoverManifestPath d target end.

End Files.
