(* ===== verification/Resolve.v ===== *)
(** * Resolving a project

    Models [tools/trident/resolve.cpp]: gathering sources and assets, the
    recursive walk over local dependencies, the resolution of VCS dependencies
    against the lock or by version selection with fetching and verification,
    and the assembly of a resolved project.  The package source a build
    fetches from is the interface [Source]; standard error is a list of
    lines. *)

From S2P Require Import Prelude Token Lexer Toml BuildPlan Manifest Semver Mvs Lock LockCheck Sha256 Checksum Store Disk.

(** The rest of [provider.hpp]'s [ModuleProvider]: fetching into the store and
    listing versions. *)
Class Source (F : Type) := {
  source_provider :: ModuleProvider;
  materialize : ModuleId -> Version -> F -> F * res (str * str);
  versions : ModuleId -> res (list Version)
}.

(** Standard error, as a state. *)
Abbreviation Log A := (@DM (list str) A).
Definition eprint (line : str) : Log unit := fun l => (l ++ [line], Ok tt).

Fixpoint dm_fold {S A B} (f : A -> B -> @DM S B) (l : list A) (b : B) : @DM S B :=
  match l with [] => dm_ret b | a :: l' => dm_bind (f a b) (fun b' => dm_fold f l' b') end.

(** [std::set<std::string>::insert], in iteration order. *)
Fixpoint oset_insert (x : str) (s : list str) : list str :=
  match s with
  | [] => [x]
  | y :: s' => if str_ltb x y then x :: s else if str_ltb y x then y :: oset_insert x s' else s
  end.

Definition ModuleDeps := list (str * list str).
(** [moduleDeps[from].insert(to)]. *)
Definition add_edge (from to : str) (md : ModuleDeps) : ModuleDeps :=
  omap_set str_ltb from (oset_insert to (match omap_find str_ltb from md with Some s => s | None => [] end)) md.

(** [s.find(p)]. *)
Fixpoint find_sub (p s : str) : option nat :=
  if is_prefix p s then Some 0
  else match s with [] => None | _ :: s' => S <$> find_sub p s' end.

Definition dirOf (path : str) : str :=
  match find_last_of "/" path with None => [] | Some i => substr path 0 (i + 1) end.

Section Gather.
Context {F : Type} {FS : FileSystem F} (disk : F).

Definition canon (p : str) : str := match fs_realpath disk p with Some r => r | None => p end.

(** [if (seen.insert(canon(p)).second) out.push_back(p)]. *)
Definition Gathered : Type := gset str * list str.
Definition add_seen (p : str) (acc : Gathered) : Gathered :=
  if bool_decide (canon p ∈ acc.1) then acc else ({[canon p]} ∪ acc.1, acc.2 ++ [p]).
Definition add_globbed_seen (ps : list str) (acc : Gathered) : Gathered :=
  fold_left (fun acc p => if ends_slash p then acc else add_seen p acc) ps acc.

Fixpoint expandSources (base : str) (sources : list str) (acc : Gathered) : res Gathered :=
  match sources with
  | [] => Ok acc
  | rel :: sources' =>
      let pattern := base ++ rel in
      if negb (has_glob rel) then expandSources base sources' (add_seen pattern acc)
      else match fs_glob disk pattern with
           | GlobNoMatch => Err (lit "source pattern '" ++ rel ++ lit "' matched no files")
           | GlobError => Err (lit "failed to expand source pattern '" ++ rel ++ lit "'")
           | GlobPaths ps => expandSources base sources' (add_globbed_seen ps acc)
           end
  end.

Definition gatherSources (base : str) (sources : list str) (origin moduleId : str) (seen : gset str)
    (gather : list ResolvedSource) : res (gset str * list ResolvedSource) :=
  let? (seen', paths) := expandSources base sources (seen, []) in
  Ok (seen', gather ++ map (fun p => MkRSource p moduleId origin) paths).

(** ** Assets *)

Definition no_files (rel : str) : Log unit := eprint (lit "warning: asset pattern '" ++ rel ++ lit "' matched no files").

Definition strip_back (s : str) : str := if ends_slash s then removelast s else s.
Definition strip_front (s : str) : str := match s with c :: s' => if eqc c "/" then s' else s | [] => [] end.

Definition str_le (a b : str) : Prop := str_ltb b a = false.
#[export] Instance str_le_dec : RelDecision str_le.
Proof. intros a b. unfold str_le. apply _. Defined.

(** One file of the recursive match; the flag is [any]. *)
Definition match_asset (rootDir suffix f : str) (st : Gathered * bool) : Gathered * bool :=
  let rel := if (length rootDir + 1 <? length f)%nat then substr f (length rootDir + 1) (length f) else f in
  if (eqs suffix [] || fs_fnmatch suffix rel) && negb (bool_decide (canon f ∈ st.1.1)) then (add_seen f st.1, true) else st.

Definition expandRecursiveAssetGlob (base pattern : str) (starstar : nat) (acc : Gathered) : Log Gathered :=
  let prefix := strip_back (substr pattern 0 starstar) in
  let suffix := strip_front (substr pattern (starstar + 2) (length pattern)) in
  let rootDir := base ++ prefix in
  let allFiles := merge_sort str_le (listFilesRecursive disk rootDir) in
  let '(acc', any) := fold_left (fun st f => match_asset rootDir suffix f st) allFiles (acc, false) in
  let! _ := if any then dm_ret tt else no_files pattern in
  dm_ret acc'.

Definition expand_asset (base rel : str) (acc : Gathered) : Log Gathered :=
  match find_sub (lit "**") rel with
  | Some starstar => expandRecursiveAssetGlob base rel starstar acc
  | None =>
      let pattern := base ++ rel in
      if negb (has_glob rel) then
        if negb (exists_ disk pattern) then dm_err (lit "asset '" ++ rel ++ lit "' does not name an existing file")
        else dm_ret (add_seen pattern acc)
      else match fs_glob disk pattern with
           | GlobError => dm_err (lit "failed to expand asset pattern '" ++ rel ++ lit "'")
           | GlobNoMatch => let! _ := no_files rel in dm_ret acc
           | GlobPaths ps =>
               let! _ := match ps with [] => no_files rel | _ => dm_ret tt end in
               dm_ret (add_globbed_seen ps acc)
           end
  end.
Definition expandAssets (base : str) (assets : list str) : Gathered -> Log Gathered := dm_fold (expand_asset base) assets.

Definition gather_asset (base moduleId p : str) (out : list ResolvedAsset) : Log (list ResolvedAsset) :=
  match fs_read disk p with
  | None => dm_err (lit "cannot read asset '" ++ p ++ lit "'")
  | Some content =>
      let rel := if (length base <? length p)%nat then substr p (length base) (length p) else p in
      dm_ret (out ++ [MkRAsset rel p moduleId (lit "sha256:" ++ sha256Hex content)])
  end.
Definition gatherAssets (base : str) (assetPatterns : list str) (moduleId : str) (out : list ResolvedAsset) : Log (list ResolvedAsset) :=
  let! (_, paths) := expandAssets base assetPatterns (∅, []) in
  dm_fold (gather_asset base moduleId) paths out.

(** ** Local dependencies *)

Definition set_kind (k : DepKind) (d : Dependency) : Dependency := MkDep (dep_path d) (dep_version d) (dep_as d) (dep_dev d) k.
Definition dep_dir (base : str) (d : Dependency) : str := slash_dir (base ++ dep_path d).

Fixpoint inferAndValidateDependencyKinds (deps : list Dependency) (base : str) : res (list Dependency) :=
  match deps with
  | [] => Ok []
  | d :: deps' =>
      let isLocalDir := is_dir disk (dep_dir base d) in
      if negb isLocalDir && eqs (dep_version d) [] then
        Err (lit "dependency '" ++ dep_path d ++ lit "' is not a local directory, so it is treated as a VCS dependency, " ++
             lit "which requires 'version' (e.g. version = " ++ [c_quote] ++ lit "1.2.0" ++ [c_quote] ++ lit ")")
      else
        let? rest := inferAndValidateDependencyKinds deps' base in
        Ok (set_kind (if isLocalDir then Local_ else Vcs) d :: rest)
  end.

Record Gather := MkGather {
  g_visited : gset str; g_seen : gset str; g_sources : list ResolvedSource; g_assets : list ResolvedAsset; g_deps : ModuleDeps
}.

(** The body of the loop of [loadDepsRec]; [rec] is the recursive call. *)
Definition load_dep (rec : list Dependency -> str -> str -> Gather -> Log Gather) (base parentModule : str)
    (dep : Dependency) (g : Gather) : Log Gather :=
  match dep_kind dep with
  | Vcs => dm_ret g
  | Local_ =>
      let depDir := dep_dir base dep in
      let depModule := canon depDir in
      let deps := add_edge parentModule depModule (g_deps g) in
      match discoverManifestPath disk depDir with
      | [] => dm_err (lit "cannot find a manifest in dependency directory '" ++ depDir ++ lit "' (looked for trident.toml)")
      | depManifest =>
          if bool_decide (canon depManifest ∈ g_visited g) then
            dm_ret (MkGather (g_visited g) (g_seen g) (g_sources g) (g_assets g) deps)
          else
            match fs_read disk depManifest with
            | None => dm_err (lit "cannot read dependency manifest '" ++ depManifest ++ lit "'")
            | Some mtext =>
                match parseManifest depManifest mtext with
                | Err perr => dm_err (lit "dependency '" ++ dep_path dep ++ lit "' has manifest errors: " ++ perr)
                | Ok dm =>
                    let! (seen, sources) := dm_res (gatherSources depDir (pm_sources dm) (dep_path dep) depModule (g_seen g) (g_sources g)) in
                    let! depAssets := gatherAssets depDir (pm_assets dm) depModule [] in
                    let! deps' := dm_res (inferAndValidateDependencyKinds (pm_deps dm) depDir) in
                    rec deps' depDir depModule
                      (MkGather ({[canon depManifest]} ∪ g_visited g) seen sources (g_assets g ++ depAssets) deps)
                end
            end
      end
  end.

(** [fuel] bounds the depth of the recursion, which [visited] keeps below the
    number of manifests ([load_deps_total]). *)
Fixpoint loadDepsRec (fuel : nat) (deps : list Dependency) (base parentModule : str) (g : Gather) : Log Gather :=
  match fuel with
  | 0 => dm_err []
  | S n => dm_fold (load_dep (loadDepsRec n) base parentModule) deps g
  end.

(** ** Exported namespaces *)

Fixpoint scan_tokens (depth : Z) (toks : list Token) (out : list str) : list str :=
  match toks with
  | [] => out
  | t :: toks' =>
      match kind t with
      | TkLBrace => scan_tokens (depth + 1) toks' out
      | TkRBrace => scan_tokens (depth - 1) toks' out
      | TkKwNamespace =>
          match toks' with
          | t2 :: _ =>
              match kind t2 with
              | TkIdentifier => scan_tokens depth toks' (if (depth =? 0)%Z then oset_insert (text t2) out else out)
              | _ => scan_tokens depth toks' out
              end
          | [] => out
          end
      | _ => scan_tokens depth toks' out
      end
  end.

(** [None]: an exception of the lexer escapes. *)
Definition scanExportedNamespaces (source : str) : option (list str) :=
  match tokenize source false empty_sink with
  | LexDone toks _ => Some (scan_tokens 0 toks [])
  | _ => None
  end.

Fixpoint exports_of (depModule : str) (gather : list ResolvedSource) (ns : list str) : option (list str) :=
  match gather with
  | [] => Some ns
  | e :: gather' =>
      if eqs (rs_moduleId e) depModule then
        match fs_read disk (rs_path e) with
        | None => exports_of depModule gather' ns
        | Some source =>
            match scanExportedNamespaces source with
            | None => None
            | Some fileNs => exports_of depModule gather' (fold_left (fun s x => oset_insert x s) fileNs ns)
            end
        end
      else exports_of depModule gather' ns
  end.

Definition depModuleFor (d : Dependency) (base : str) (storeDirByModule : list (ModuleId * str)) : option str :=
  match dep_kind d with
  | Local_ => Some (canon (dep_dir base d))
  | Vcs => match dependencyToRequire d with
           | Err _ => None
           | Ok r => omap_find moduleId_ltb (req_mod r) storeDirByModule
           end
  end.

Abbreviation Exports := (list (str * list str)).
Fixpoint exports_by_module (deps : list Dependency) (base : str) (stores : list (ModuleId * str))
    (gather : list ResolvedSource) (acc : Exports) : option Exports :=
  match deps with
  | [] => Some acc
  | d :: deps' =>
      match dep_as d, depModuleFor d base stores with
      | _ :: _, Some depModule =>
          match omap_find str_ltb depModule acc with
          | Some _ => exports_by_module deps' base stores gather acc
          | None =>
              match exports_of depModule gather [] with
              | None => None
              | Some ns => exports_by_module deps' base stores gather (omap_set str_ltb depModule ns acc)
              end
          end
      | _, _ => exports_by_module deps' base stores gather acc
      end
  end.

End Gather.

(** ** VCS dependencies *)

Definition wrap_err {F A} (prefix : str) (m : @DM F A) : @DM F A :=
  fun d => match m d with (d', Err e) => (d', Err (prefix ++ e)) | r => r end.

Fixpoint root_requires (deps : list Dependency) (includeDevDeps : bool) : res (list Require_) :=
  match deps with
  | [] => Ok []
  | d :: deps' =>
      match dep_kind d with
      | Local_ => root_requires deps' includeDevDeps
      | Vcs =>
          if dep_dev d && negb includeDevDeps then root_requires deps' includeDevDeps
          else let? r := dependencyToRequire d in let? rs := root_requires deps' includeDevDeps in Ok (r :: rs)
      end
  end.

Definition run_lock : str := lit " — run `trident lock`".
Definition hex_of (hash : str) : str := if has_at hash 0 (lit "sha256:") then substr hash 7 (length hash) else hash.
Abbreviation Hashes := (list (ModuleId * str)).

Section Vcs.
Context {F : Type} {FS : FileSystem F}.

(** The build list and pinned hashes a lock stands for; [None] when a selected
    version does not parse, which makes the code resolve anew. *)
Fixpoint lock_entries (ms : list LockedModule) (selected_ : list BuildListEntry) (hashes : Hashes)
  : option (list BuildListEntry * Hashes) :=
  match ms with
  | [] => Some (selected_, hashes)
  | m :: ms' =>
      match parseSemVer (lm_selected m) with
      | Err _ => None
      | Ok v =>
          let hexHash := hex_of (lm_hash m) in
          let e := MkEntry (lm_mod m) v hexHash (storeRoot ++ lit "/" ++ hexHash) (omap parseRequireEdge (lm_requires m)) in
          lock_entries ms' (selected_ ++ [e]) (omap_set moduleId_ltb (lm_mod m) hexHash hashes)
      end
  end.

(** The lock to use verbatim: [Ok None] when there is none. *)
Definition use_lock (d : F) (lockPath : str) (rootRequires : list Require_) : res (option (list BuildListEntry * Hashes)) :=
  if eqs lockPath [] then Ok None
  else match fs_read d lockPath with
       | None => Ok None
       | Some lockText =>
           match parseLockfile lockPath lockText with
           | Err lerr => Err (lerr ++ run_lock)
           | Ok lock =>
               match lockSatisfiesRootRequires lock rootRequires with
               | Err lerr => Err (lit "trident.lock is stale: " ++ lerr ++ run_lock)
               | Ok _ => Ok (lock_entries (lk_modules lock) [] [])
               end
           end
       end.

Definition at_version (e : BuildListEntry) : str := mid_path (ble_mod e) ++ lit "@" ++ formatSemVer (selected e).

Fixpoint check_yanked (d : F) (es : list BuildListEntry) : res unit :=
  match es with
  | [] => Ok tt
  | e :: es' =>
      match db_is_yanked d (ble_mod e) (selected e) with
      | Err yerr => Err (lit "cannot check yank policy for " ++ at_version e ++ lit ": " ++ yerr)
      | Ok true =>
          Err (at_version e ++ lit " is yanked and cannot be selected by a new resolution; an existing consistent trident.lock may continue to use it (run `trident why "
               ++ mid_path (ble_mod e) ++ lit "` to inspect the chain)")
      | Ok false => check_yanked d es'
      end
  end.

(** [VendorProvider::materialize]. *)
Definition vendor_materialize (vendorDir : str) (md : ModuleId) : @DM F (str * str) := fun d =>
  let storeDir := vendorDir ++ lit "/" ++ serializeModuleId md in
  if negb (is_dir d storeDir) then
    (d, Err (lit "module '" ++ serializeModuleId md ++ lit "' is not vendored under '" ++ vendorDir ++ lit "' (run `trident vendor` first)"))
  else
    let base := storeDir ++ lit "/" in
    let sf := map (fun f => MkStoreFile (if has_at f 0 base then substr f (length base) (length f) else f) f)
                  (listFilesRecursive d storeDir) in
    match canonicalContentHash (read_file d) sf with
    | Err e => (d, Err e)
    | Ok contentHash => (d, Ok (storeDir, contentHash))
    end.

(** The cached store entry of a pinned hash, verified; [Ok None] when the store
    has no directory for it. *)
Definition warm_store (d : F) (e : BuildListEntry) (pinned : option str) : res (option (str * str)) :=
  match pinned with
  | None => Ok None
  | Some h =>
      let storeDir := storeRoot ++ lit "/" ++ h in
      if is_dir d storeDir then
        match verifyStoreEntry d storeDir h with
        | Err merr => Err (lit "verifying cached " ++ at_version e ++ lit ": " ++ merr)
        | Ok _ => Ok (Some (storeDir, h))
        end
      else Ok None
  end.

Context {SRC : Source F}.

Definition fetch (vendorDir : str) (md : ModuleId) (v : Version) : @DM F (str * str) :=
  if eqs vendorDir [] then materialize md v else vendor_materialize vendorDir md.

(** The body of the materialize loop; [lockHashes] is [None] when the lock was not used. *)
Definition fetch_entry (vendorDir : str) (lockHashes : option Hashes) (e : BuildListEntry) : @DM F BuildListEntry :=
  let pinned := match lockHashes with Some hs => omap_find moduleId_ltb (ble_mod e) hs | None => None end in
  let! d := dm_get in
  let! warm := dm_res (warm_store d e (if eqs vendorDir [] then pinned else None)) in
  let! (sd, h) :=
    match warm with
    | Some x => dm_ret x
    | None => wrap_err (lit "materializing " ++ at_version e ++ lit ": ") (fetch vendorDir (ble_mod e) (selected e))
    end in
  let! _ :=
    if eqs vendorDir [] then
      wrap_err (lit "checksum verification failed for " ++ at_version e ++ lit ": ") (db_verify_or_record (ble_mod e) (selected e) h)
    else dm_ret tt in
  match pinned with
  | Some expected =>
      if negb (eqs expected h) then
        dm_err (lit "content for " ++ at_version e ++ lit " does not match trident.lock (expected sha256:" ++ expected ++
                lit ", got sha256:" ++ h ++ lit ") — possible tampering; if this is an intentional dependency change, run `trident lock`")
      else dm_ret (MkEntry (ble_mod e) (selected e) h sd (requires_ e))
  | None => dm_ret (MkEntry (ble_mod e) (selected e) h sd (requires_ e))
  end.

Fixpoint fetch_all (vendorDir : str) (lockHashes : option Hashes) (es : list BuildListEntry) : @DM F (list BuildListEntry) :=
  match es with
  | [] => dm_ret []
  | e :: es' =>
      let! e' := fetch_entry vendorDir lockHashes e in
      let! rest := fetch_all vendorDir lockHashes es' in
      dm_ret (e' :: rest)
  end.

(** A manifest without (visible) VCS dependencies. *)
Definition no_vcs (d : F) (includeDevDeps : bool) (lockPath : str) : res (list BuildListEntry) :=
  if includeDevDeps && negb (eqs lockPath []) then
    match fs_read d lockPath with
    | None => Ok []
    | Some lockText =>
        match parseLockfile lockPath lockText with
        | Err lerr => Err (lerr ++ run_lock)
        | Ok lock =>
            match lk_modules lock with
            | [] => Ok []
            | _ => Err (lit "trident.lock is stale: the manifest no longer has VCS dependencies" ++ run_lock)
            end
        end
    end
  else Ok [].

(** Version selection, when no lock is used. *)
Definition resolve_fresh (d : F) (vendorDir : str) (rootRequires : list Require_) : res (list BuildListEntry) :=
  if negb (eqs vendorDir []) then
    Err (lit "vendor mode requires a valid, up-to-date trident.lock — run `trident lock` (with network) first, then `trident vendor`, then rebuild with --vendor")
  else
    let mvs := selectVersions rootRequires in
    if negb (mvs_ok mvs) then Err (mvs_err mvs)
    else let? _ := check_yanked d (buildList mvs) in Ok (buildList mvs).

(** The lock's cycle check; [findRequireCycle] always answers. *)
Definition check_cycle (es : list BuildListEntry) : res unit :=
  match findRequireCycle es with
  | Some [] => Ok tt
  | Some cycle =>
      Err (lit "trident.lock declares a require cycle (" ++ cycle ++
           lit ") — a trident-written lock is always acyclic, so this file was hand-edited or corrupted — run `trident lock`")
  | None => Err []
  end.

Definition resolveVcsDeps (manifest : ProjectManifest) (includeDevDeps : bool) (lockPath vendorDir : str)
  : @DM F (list BuildListEntry) :=
  let! d := dm_get in
  let! rootRequires := dm_res (root_requires (pm_deps manifest) includeDevDeps) in
  match rootRequires with
  | [] => dm_res (no_vcs d includeDevDeps lockPath)
  | _ =>
      if negb (eqs vendorDir []) && eqs lockPath [] then dm_err (lit "internal error: vendor mode requires a lock path")
      else
        let! locked := dm_res (use_lock d lockPath rootRequires) in
        match locked with
        | Some (selected_, hashes) =>
            let! _ := dm_res (check_cycle selected_) in
            fetch_all vendorDir (Some hashes) selected_
        | None =>
            let! selected_ := dm_res (resolve_fresh d vendorDir rootRequires) in
            fetch_all vendorDir None selected_
        end
  end.

(** ** The whole project *)

Inductive Resolution := Resolved (manifest : ProjectManifest) (rp : ResolvedProject) | Unresolved | Threw.

(** The files and edges of the materialized modules. *)
Definition add_module (stores : list (ModuleId * str)) (d : F) (g : list ResolvedSource * ModuleDeps) (e : BuildListEntry)
  : list ResolvedSource * ModuleDeps :=
  let files := merge_sort str_le (listFilesRecursive d (storeDir e)) in
  (g.1 ++ map (fun f => MkRSource f (storeDir e) (mid_path (ble_mod e))) files,
   fold_left (fun md r => match omap_find moduleId_ltb (req_mod r) stores with
                          | Some to => add_edge (storeDir e) to md | None => md end) (requires_ e) g.2).

Definition add_root_edges (d : F) (base : str) (stores : list (ModuleId * str)) (deps : list Dependency) (md : ModuleDeps) : ModuleDeps :=
  fold_left (fun md dep => match dep_kind dep with
                           | Local_ => md
                           | Vcs => match depModuleFor d dep base stores with Some m => add_edge [] m md | None => md end
                           end) deps md.

Definition alias_body (as_ : str) (ns : list str) : str :=
  concat (map (fun n => if eqs n as_ then [] else lit " uses " ++ n ++ lit ";") ns).

(** The alias files, written under [aliasDir]; the streams are not checked. *)
Fixpoint write_aliases (aliasDir base : str) (stores : list (ModuleId * str)) (exports : list (str * list str))
    (index : nat) (deps : list Dependency) (d : F) : F * list ResolvedSource :=
  match deps with
  | [] => (d, [])
  | dep :: deps' =>
      match dep_as dep, depModuleFor d dep base stores with
      | _ :: _, Some depModule =>
          let body := match omap_find str_ltb depModule exports with Some ns => alias_body (dep_as dep) ns | None => [] end in
          match body with
          | [] => write_aliases aliasDir base stores exports index deps' d
          | _ =>
              let aliasText := lit "namespace " ++ dep_as dep ++ lit " {" ++ body ++ lit " }" ++ [c_nl] in
              let aliasPath := aliasDir ++ lit "/trident-alias-" ++ to_string (Z.of_nat index) ++ lit "-" ++ dep_as dep ++ lit ".lev" in
              let d1 := fst (fs_write aliasPath aliasText d) in
              let '(d2, more) := write_aliases aliasDir base stores exports (S index) deps' d1 in
              (d2, MkRSource (canon d1 aliasPath) [] [] :: more)
          end
      | _, _ => write_aliases aliasDir base stores exports index deps' d
      end
  end.

Definition has_suffix (s suffix : str) : bool :=
  (length suffix <=? length s)%nat && has_at s (length s - length suffix) suffix.

(** [entryKind] and [entryTarget]. *)
Definition classify_entry (base entry : str) : str * str :=
  match entry with
  | [] => (lit "script", [])
  | _ => if has_suffix entry (lit ".ext") || has_suffix entry (lit ".lev") then (lit "file", base ++ entry)
         else (lit "function", entry)
  end.

(** The part of [resolveProject] that only reads the disk. *)
Definition gather_local (d : F) (fuel : nat) (manifestPath : str) (m : ProjectManifest) : Log (list Dependency * Gather) :=
  let base := dirOf manifestPath in
  let! (seen, sources) := dm_res (gatherSources d base (pm_sources m) [] [] ∅ []) in
  let! assets := gatherAssets d base (pm_assets m) [] [] in
  let! deps := dm_res (inferAndValidateDependencyKinds d (pm_deps m) base) in
  let! g := loadDepsRec d fuel deps base [] (MkGather {[canon d manifestPath]} seen sources assets []) in
  dm_ret (deps, g).

Definition print_error (e : str) : str := lit "error: " ++ e.

Definition resolveProject (fuel : nat) (manifestPath aliasDir : str) (includeDevDeps : bool) (vendorDir : str)
    (d : F) (stderr : list str) : F * list str * Resolution :=
  match fs_read d manifestPath with
  | None => (d, stderr ++ [print_error (lit "cannot read manifest '" ++ manifestPath ++ lit "'")], Unresolved)
  | Some mtext =>
      match parseManifest manifestPath mtext with
      | Err perr => (d, stderr ++ [print_error perr], Unresolved)
      | Ok m0 =>
          match gather_local d fuel manifestPath m0 stderr with
          | (stderr1, Err err) => (d, stderr1 ++ [print_error err], Unresolved)
          | (stderr1, Ok (deps, g)) =>
              let base := dirOf manifestPath in
              let m := set_deps deps m0 in
              match resolveVcsDeps m includeDevDeps (lockfilePathFor manifestPath) vendorDir d with
              | (d1, Err err) => (d1, stderr1 ++ [print_error err], Unresolved)
              | (d1, Ok bl) =>
                  let stores := fold_left (fun s e => omap_set moduleId_ltb (ble_mod e) (storeDir e) s) bl [] in
                  let '(gather, md) := fold_left (add_module stores d1) bl (g_sources g, g_deps g) in
                  let md' := add_root_edges d1 base stores deps md in
                  match exports_by_module d1 deps base stores gather [] with
                  | None => (d1, stderr1, Threw)
                  | Some exports =>
                      let '(d2, aliases) := write_aliases aliasDir base stores exports 0 deps d1 in
                      let '(kind, target) := classify_entry base (pm_entry m) in
                      (d2, stderr1, Resolved m (MkRProject (aliases ++ gather) md' (g_assets g) kind target))
                  end
              end
          end
      end
  end.

End Vcs.

(** ** The provider for local directories *)

Section Local.
Context {F : Type} {FS : FileSystem F} (disk : F).

Definition LocalProvider : ModuleProvider := {|
  manifestOf md _ :=
    match discoverManifestPath disk (mid_path md) with
    | [] => Err (lit "cannot find a manifest in dependency directory '" ++ mid_path md ++ lit "' (looked for trident.toml)")
    | manifestPath =>
        match fs_read disk manifestPath with
        | None => Err (lit "cannot read dependency manifest '" ++ manifestPath ++ lit "'")
        | Some mtext => parseManifest manifestPath mtext
        end
    end
|}.

End Local.
