(* ===== verification/ResolveFacts.v ===== *)
(** * What resolving a project guarantees

    Theorems on [resolveVcsDeps]: a successful resolution is either the lock's,
    verbatim and with the lock's hashes, or a fresh selection without a yanked
    version; vendor mode asks no provider and changes nothing on disk; every
    module fetched into a build is recorded in the checksum database; and a
    build right after [trident lock] takes the lock.  The second part is on
    gathering sources. *)

From S2P Require Import Prelude Toml BuildPlan Manifest Semver Mvs MvsCycle MvsFacts Lock LockCheck Sha256 Checksum Store Disk Resolve.

(** ** The state-and-error monad *)

Lemma dm_bind_ok {S A B} (m : @DM S A) (k : A -> @DM S B) d d' b :
  dm_bind m k d = (d', Ok b) <-> exists d1 a, m d = (d1, Ok a) /\ k a d1 = (d', Ok b).
Proof.
  unfold dm_bind. destruct (m d) as [d1 [a|e]]; split.
  - intros H. exists d1, a. done.
  - by intros (d2 & a2 & [= <- <-] & H).
  - done.
  - by intros (d2 & a2 & ? & _).
Qed.

Lemma wrap_err_ok {S A} p (m : @DM S A) d d' a : wrap_err p m d = (d', Ok a) <-> m d = (d', Ok a).
Proof. unfold wrap_err. by destruct (m d) as [d1 [x|e]]. Qed.

Lemma dm_bind_res {S A B} (r : res A) (k : A -> @DM S B) d :
  dm_bind (dm_res r) k d = match r with Ok a => k a d | Err e => (d, Err e) end.
Proof. by destruct r. Qed.

Lemma dm_bind_get {S B} (k : S -> @DM S B) d : dm_bind dm_get k d = k d d.
Proof. done. Qed.

(** Open a run that succeeded into the steps it took. *)
Ltac dm_open H :=
  let d1 := fresh "d" in let a := fresh "a" in let H1 := fresh "Hm" in
  apply dm_bind_ok in H as (d1 & a & H1 & H).

(** ** Vendor mode *)

Section Vendor.
Context {F : Type} {FS : FileSystem F} (vendorDir : str) (Hv : eqs vendorDir [] = false).

Lemma vendor_keeps_disk md d : fst (vendor_materialize vendorDir md d) = d.
Proof. unfold vendor_materialize. destruct (negb _); [done|]. by destruct (canonicalContentHash _ _). Qed.

Lemma fetch_entry_vendor (S1 S2 : Source F) hs e d :
  fetch_entry (SRC := S1) vendorDir hs e d = fetch_entry (SRC := S2) vendorDir hs e d /\
  fst (fetch_entry (SRC := S1) vendorDir hs e d) = d.
Proof.
  unfold fetch_entry, fetch. rewrite Hv, !dm_bind_get. cbn [warm_store]. rewrite !dm_bind_res.
  split; [done|]. unfold dm_bind, wrap_err.
  pose proof (vendor_keeps_disk (ble_mod e) d) as Hk.
  destruct (vendor_materialize vendorDir (ble_mod e) d) as [d1 [[sd h]|x]]; cbn in Hk; subst d1; [|done].
  cbn [dm_ret]. destruct (match hs with Some hs => _ | None => None end); [|done]. by destruct (negb _).
Qed.

Lemma fetch_all_vendor (S1 S2 : Source F) hs es d :
  fetch_all (SRC := S1) vendorDir hs es d = fetch_all (SRC := S2) vendorDir hs es d /\
  fst (fetch_all (SRC := S1) vendorDir hs es d) = d.
Proof.
  revert d. induction es as [|e es IH]; intros d; [done|]. cbn [fetch_all]. unfold dm_bind.
  destruct (fetch_entry_vendor S1 S2 hs e d) as [<- Hd].
  destruct (fetch_entry vendorDir hs e d) as [d1 [e'|x]]; cbn in Hd; subst d1; [|done].
  destruct (IH d) as [<- Hd]. destruct (fetch_all vendorDir hs es d) as [d1 [es'|x]]; cbn in Hd; subst d1; done.
Qed.

End Vendor.

(** [C24] Vendored builds are hermetic: with a vendor directory, resolving the
    VCS dependencies gives the same answer whatever the package source says,
    and leaves the disk as it was: nothing is fetched, stored or recorded. *)
Theorem vendor_hermetic {F} {FS : FileSystem F} (S1 S2 : Source F) m dev lockPath vendorDir d :
  vendorDir <> [] ->
  resolveVcsDeps (SRC := S1) m dev lockPath vendorDir d = resolveVcsDeps (SRC := S2) m dev lockPath vendorDir d /\
  fst (resolveVcsDeps (SRC := S1) m dev lockPath vendorDir d) = d.
Proof.
  intros Hv. apply eqs_neq in Hv. unfold resolveVcsDeps, resolve_fresh. rewrite Hv. cbn [negb].
  rewrite !dm_bind_get, !dm_bind_res.
  destruct (root_requires (pm_deps m) dev) as [[|r rs]|e]; [done| |done].
  destruct (eqs lockPath []); cbn [andb]; [done|]. rewrite !dm_bind_res.
  destruct (use_lock d lockPath (r :: rs)) as [[[sel hs]|]|e]; [|done|done].
  rewrite !dm_bind_res. destruct (check_cycle sel); [|done]. by apply fetch_all_vendor.
Qed.

(** ** Lock or selection *)

Section Sound.
Context {F : Type} {FS : FileSystem F}.

(** What a lock row makes of a build-list entry. *)
Definition locks (m : LockedModule) (e : BuildListEntry) : Prop :=
  ble_mod e = lm_mod m /\ parseSemVer (lm_selected m) = Ok (selected e) /\ contentHash e = hex_of (lm_hash m) /\
  requires_ e = omap parseRequireEdge (lm_requires m).

Lemma lock_entries_spec ms sel hs sel' hs' :
  lock_entries ms sel hs = Some (sel', hs') -> NoDup (map lm_mod ms) ->
  (exists more, sel' = sel ++ more /\ Forall2 locks ms more) /\
  (forall m, In m ms -> omap_find moduleId_ltb (lm_mod m) hs' = Some (hex_of (lm_hash m))) /\
  (forall k, k ∉ map lm_mod ms -> omap_find moduleId_ltb k hs' = omap_find moduleId_ltb k hs).
Proof.
  revert sel hs. induction ms as [|m ms IH]; intros sel hs; cbn [lock_entries map].
  - intros [= <- <-] _. split; [exists []; by rewrite app_nil_r|done].
  - destruct (parseSemVer (lm_selected m)) as [v|] eqn:Ev; [|done]. intros H Hd. inversion_clear Hd as [|? ? Hm Hd'].
    destruct (IH _ _ H Hd') as ((more & -> & Hmore) & Hin & Hout). split; [|split].
    + eexists (_ :: more). split; [by rewrite <- app_assoc|]. constructor; [|done]. by repeat split.
    + intros x [<-|Hx]; [|by apply Hin]. rewrite Hout by done. by rewrite (omap_find_set_eq moduleId_ltb).
    + intros k Hk. apply not_elem_of_cons in Hk as [Hk1 Hk2]. rewrite Hout by done. by rewrite (omap_find_set_ne moduleId_ltb).
Qed.

Context {SRC : Source F}.

Lemma fetch_entry_ok vd hs e d d' e' : fetch_entry vd hs e d = (d', Ok e') ->
  chosen e' = chosen e /\
  (forall hashes h, hs = Some hashes -> omap_find moduleId_ltb (ble_mod e) hashes = Some h -> contentHash e' = h).
Proof.
  unfold fetch_entry. intros H. dm_open H. dm_open H. dm_open H. destruct a1 as [sd h]. dm_open H.
  assert (d' = d3 /\ chosen e' = chosen e /\ contentHash e' = h) as (-> & Hc & <-).
  { destruct (match hs with Some _ => _ | None => None end); [destruct (negb _); [done|]|]; by injection H as <- <-. }
  split; [done|]. intros hashes x -> Hx. rewrite Hx in H. destruct (eqs x (contentHash e')) eqn:E; [|done]. by apply eqs_eq in E.
Qed.

Lemma fetch_all_ok vd hs es d d' es' : fetch_all vd hs es d = (d', Ok es') ->
  Forall2 (fun e e' => chosen e' = chosen e /\
    forall hashes h, hs = Some hashes -> omap_find moduleId_ltb (ble_mod e) hashes = Some h -> contentHash e' = h) es es'.
Proof.
  revert d es'. induction es as [|e es IH]; intros d es' H; cbn [fetch_all] in H; [by injection H as <- <-|].
  dm_open H. dm_open H. injection H as <- <-. constructor; [by eapply fetch_entry_ok|by eapply IH].
Qed.

Lemma fetch_all_chosen vd hs es d d' es' : fetch_all vd hs es d = (d', Ok es') -> map chosen es' = map chosen es.
Proof.
  intros H. apply fetch_all_ok in H. induction H as [|e e' es es' [He _] _ IH]; [done|]. cbn [map]. by rewrite He, IH.
Qed.

Lemma fetch_all_locked vd ms es hashes d d' es' :
  Forall2 locks ms es -> (forall m, In m ms -> omap_find moduleId_ltb (lm_mod m) hashes = Some (hex_of (lm_hash m))) ->
  fetch_all vd (Some hashes) es d = (d', Ok es') -> Forall2 locks ms es'.
Proof.
  intros Hl Hh H. apply fetch_all_ok in H. revert ms Hl Hh.
  induction H as [|e e' es es' [Hc Hp] _ IH]; intros ms Hl Hh; inversion Hl as [|m ? ms' ? Hm Hms]; subst; constructor.
  - destruct Hm as (H1 & H2 & H3 & H4). injection Hc as C1 C2 C3.
    split; [congruence|]. split; [by rewrite C2|]. split; [|by rewrite C3].
    apply (Hp hashes); [done|]. rewrite H1. apply Hh. by left.
  - apply IH; [done|]. intros x Hx. apply Hh. by right.
Qed.

Lemma use_lock_some d lockPath roots sel hs : use_lock d lockPath roots = Ok (Some (sel, hs)) ->
  lockPath <> [] /\ exists lockText lock rows, fs_read d lockPath = Some lockText /\ parseLockfile lockPath lockText = Ok lock /\
    Forall2 reads (lk_modules lock) rows /\ NoDup (map lm_mod (lk_modules lock)) /\ selects_needed rows roots /\
    lock_entries (lk_modules lock) [] [] = Some (sel, hs).
Proof.
  unfold use_lock. destruct (eqs lockPath []) eqn:Ep; [done|]. apply eqs_neq in Ep.
  destruct (fs_read d lockPath) as [t|] eqn:Er; [|done]. destruct (parseLockfile lockPath t) as [lock|] eqn:El; [|done].
  destruct (lockSatisfiesRootRequires lock roots) as [[]|] eqn:Es; [|done]. intros [= He].
  apply lock_check_spec in Es as (rows & H1 & H2 & H3). split; [done|]. exists t, lock, rows. repeat (split; [done|]).
  assert (map fst rows = map lm_mod (lk_modules lock)) as <-; [|done].
  clear -H1. induction H1 as [|m kc ms rows (Hk & _) _ IH]; [done|]. cbn [map]. by rewrite Hk, IH.
Qed.

Lemma use_lock_none d lockPath roots : use_lock d lockPath roots = Ok None -> lockPath = [] \/ fs_read d lockPath = None.
Proof.
  unfold use_lock. destruct (eqs lockPath []) eqn:Ep; [left; by apply eqs_eq|].
  destruct (fs_read d lockPath) as [t|]; [|auto]. destruct (parseLockfile lockPath t) as [lock|]; [|done].
  destruct (lockSatisfiesRootRequires lock roots) as [[]|] eqn:Es; [|done]. intros [= He].
  apply lock_check_spec in Es as (rows & H1 & _ & _). exfalso. revert He. generalize (@nil BuildListEntry), (@nil (ModuleId * str)).
  induction H1 as [|m kc ms rows (_ & Hs & _) _ IH]; intros sel hs; cbn [lock_entries]; [done|]. rewrite Hs. apply IH.
Qed.

Lemma selected_result roots : mvs_ok (selectVersions roots) = true ->
  selectVersions roots = MkMvsResult true (buildList (selectVersions roots)) [].
Proof.
  unfold selectVersions. destruct (mvs_loop _ _ _) as [es|]; [|done]. by destruct (findRequireCycle _) as [[|]|].
Qed.

Lemma check_yanked_ok d es : check_yanked d es = Ok tt ->
  Forall (fun e => db_is_yanked d (ble_mod e) (selected e) = Ok false) es.
Proof.
  induction es as [|e es IH]; cbn [check_yanked]; [constructor|].
  destruct (db_is_yanked d (ble_mod e) (selected e)) as [[]|] eqn:E; [done| |done]. constructor; auto.
Qed.

Lemma resolve_fresh_ok d vd roots bl : resolve_fresh d vd roots = Ok bl ->
  vd = [] /\ selectVersions roots = MkMvsResult true bl [] /\
  Forall (fun e => db_is_yanked d (ble_mod e) (selected e) = Ok false) bl.
Proof.
  unfold resolve_fresh. destruct (eqs vd []) eqn:Ev; cbn [negb]; [|done]. apply eqs_eq in Ev.
  destruct (mvs_ok (selectVersions roots)) eqn:Em; cbn [negb]; [|done].
  destruct (check_yanked d (buildList (selectVersions roots))) as [[]|] eqn:Ey; cbn [res_bind]; [|done]. intros [= <-].
  split; [done|]. split; [by apply selected_result|by apply check_yanked_ok].
Qed.

Lemma vcs_resolution m dev lockPath vendorDir d d' bl :
  resolveVcsDeps m dev lockPath vendorDir d = (d', Ok bl) ->
  exists roots, root_requires (pm_deps m) dev = Ok roots /\
    ((roots = [] /\ bl = []) \/
     (lockPath <> [] /\ exists lockText lock rows, fs_read d lockPath = Some lockText /\ parseLockfile lockPath lockText = Ok lock /\
        Forall2 reads (lk_modules lock) rows /\ selects_needed rows roots /\ Forall2 locks (lk_modules lock) bl) \/
     ((lockPath = [] \/ fs_read d lockPath = None) /\ vendorDir = [] /\
        exists fresh, selectVersions roots = MkMvsResult true fresh [] /\ map chosen bl = map chosen fresh /\
          Forall (fun e => db_is_yanked d (ble_mod e) (selected e) = Ok false) bl)).
Proof.
  unfold resolveVcsDeps. rewrite dm_bind_get, dm_bind_res.
  destruct (root_requires (pm_deps m) dev) as [roots|e] eqn:Er; [|done]. intros H. exists roots. split; [done|].
  destruct roots as [|r rs].
  { left. split; [done|]. unfold dm_res, no_vcs in H. repeat split_match; simplify_eq; done. }
  right. revert H. generalize (r :: rs). clear r rs Er. intros roots H.
  destruct (negb (eqs vendorDir []) && eqs lockPath []); [done|]. rewrite dm_bind_res in H.
  destruct (use_lock d lockPath roots) as [[[sel hs]|]|e] eqn:Eu; [| |done].
  - left. rewrite dm_bind_res in H. destruct (check_cycle sel); [|done].
    apply use_lock_some in Eu as (Hne & t & lock & rows & H1 & H2 & H3 & H4 & H5 & H6).
    split; [done|]. exists t, lock, rows. repeat (split; [done|]). apply lock_entries_spec in H6 as ((more & -> & Hm) & Hh & _); [|done].
    by eapply fetch_all_locked.
  - right. split; [by eapply use_lock_none|]. rewrite dm_bind_res in H.
    destruct (resolve_fresh d vendorDir roots) as [fresh|] eqn:Ef; [|done].
    apply resolve_fresh_ok in Ef as (-> & Hs & Hy). split; [done|]. exists fresh. split; [done|].
    pose proof (fetch_all_chosen _ _ _ _ _ _ H) as Hc. split; [done|].
    clear -Hc Hy. revert bl Hc. induction Hy as [|e es He Hy IH]; intros [|e' bl] Hc; try done.
    cbn [map] in Hc. injection Hc as C1 C2 C3 C4. constructor; [by rewrite C1, C2|by apply IH].
Qed.

(** [C17] What a resolution is: when [resolveVcsDeps] succeeds, either no VCS
    dependency is visible and the list is empty; or the lock file was read, is
    the current selection for the manifest's requirements, and every entry of
    the result has the module, version and content hash of its lock row; or
    there was no lock, no vendor directory, and the result is a fresh selection
    in which no version is yanked. *)
Theorem vcs_resolution_sound m dev lockPath vendorDir d d' bl :
  resolveVcsDeps m dev lockPath vendorDir d = (d', Ok bl) ->
  exists roots, root_requires (pm_deps m) dev = Ok roots /\
    ((roots = [] /\ bl = []) \/
     (lockPath <> [] /\ exists lockText lock rows, fs_read d lockPath = Some lockText /\ parseLockfile lockPath lockText = Ok lock /\
        Forall2 reads (lk_modules lock) rows /\ selects_needed rows roots /\ Forall2 locks (lk_modules lock) bl) \/
     ((lockPath = [] \/ fs_read d lockPath = None) /\ vendorDir = [] /\
        exists fresh, selectVersions roots = MkMvsResult true fresh [] /\ map chosen bl = map chosen fresh /\
          Forall (fun e => db_is_yanked d (ble_mod e) (selected e) = Ok false) bl)).
Proof. apply vcs_resolution. Qed.

End Sound.

(** ** Every fetched module is recorded *)

(** What the commands rely on: appending extends the file, making a
    directory changes no file, a file written reads back, and a stream that is good when the
    code tests it is not lost when its destructor flushes it.  The code cannot
    know the last one: where it fails, a command reports success without having
    written its file ([lost_lock_goes_unnoticed]). *)
Class DiskLaws (F : Type) {FS : FileSystem F} : Prop := {
  append_read : forall p s d d', fs_append p s d = (d', IoGood) ->
    fs_read d' p = Some (match fs_read d p with Some t => t | None => [] end ++ s);
  mkdir_read : forall dir d d' b p, fs_mkdir dir d = (d', b) -> fs_read d' p = fs_read d p;
  write_read : forall p s d d', fs_write p s d = (d', IoGood) -> fs_read d' p = Some s;
  write_flushed : forall p s d d', fs_write p s d <> (d', IoLost);
  append_flushed : forall p s d d', fs_append p s d <> (d', IoLost)
}.

(** What a package source promises: it does not touch the checksum database,
    and the content hash it answers is a word. *)
Class SourceLaws (F : Type) {FS : FileSystem F} {SRC : Source F} : Prop := {
  materialize_db : forall md v d d' r, materialize md v d = (d', r) -> db_text d' = db_text d;
  materialize_token : forall md v d d' sd h, materialize md v d = (d', Ok (sd, h)) -> token h
}.

Lemma hash_files_some read h files h' : sha_wf h -> hash_files read h files = Ok h' -> exists s, h' = sha_update h s.
Proof.
  revert h. induction files as [|f files IH]; intros h Hw; cbn [hash_files].
  - intros [= <-]. exists []. by rewrite sha_update_nil.
  - destruct (read (absPath f)) as [data|]; cbn [res_bind]; [|done]. intros H.
    apply IH in H as [s ->]; [|by repeat apply sha_update_wf].
    eexists. by rewrite !sha_update_app_lemma by auto using sha_update_wf.
Qed.

Lemma content_hash_token read files h : canonicalContentHash read files = Ok h -> token h.
Proof.
  unfold canonicalContentHash. destruct (hash_files read sha_init _) as [h'|] eqn:E; cbn [res_bind]; [|done]. intros [= <-].
  destruct (hash_files_some _ _ _ _ sha_init_wf E) as [s ->]. fold (sha256Hex s). destruct (sha256Hex_shape s) as [H1 H2]. split.
  - intros E0. by rewrite E0 in H2.
  - eapply Forall_impl; [exact H1|]. by intros c [? _].
Qed.

Section Recorded.
Context {F : Type} {FS : FileSystem F} {DL : DiskLaws F}.

Lemma mkdir_or_exists_read dir d p : fs_read (fst (mkdir_or_exists dir d)) p = fs_read d p.
Proof. unfold mkdir_or_exists. destruct (fs_mkdir dir d) as [d2 r] eqn:E. exact (mkdir_read _ _ _ _ _ E). Qed.

Lemma ensure_dir_read fuel dir d p : fs_read (fst (ensure_dir fuel dir d)) p = fs_read d p.
Proof.
  revert dir d. induction fuel as [|n IH]; intros dir d; cbn [ensure_dir].
  all: destruct (eqs dir [] || eqs dir (lit "/")); [done|]; destruct (fs_stat d dir) as [[]|]; try done.
  - destruct (parent dir); apply mkdir_or_exists_read.
  - destruct (parent dir) as [q|].
    + specialize (IH q d). destruct (ensure_dir n q d) as [d1 [|]]; cbn [fst] in IH; [|done].
      by rewrite mkdir_or_exists_read.
    + apply mkdir_or_exists_read.
Qed.

Lemma append_text path s d d' : put_file fs_append path s d = (d', Ok tt) ->
  fs_read d' path = Some (match fs_read d path with Some t => t | None => [] end ++ s).
Proof.
  unfold put_file. assert (fs_read (fst (ensure_parent path d)) path = fs_read d path) as Hr.
  { unfold ensure_parent. destruct (parent path); [apply ensure_dir_read|done]. }
  destruct (ensure_parent path d) as [d1 [|]]; [|done]. cbn [fst] in Hr.
  destruct (fs_append path s d1) as [d2 []] eqn:E; [|done|done|by apply append_flushed in E].
  intros [= <-]. by rewrite (append_read _ _ _ _ E), Hr.
Qed.

(** The log grows only, and the module version recorded is in it. *)
Definition db_grown (es : list ChecksumEntry) (d' : F) (es' : list ChecksumEntry) : Prop :=
  (exists more, es' = es ++ more) /\ exists last', db_ok checksumDbPath (db_text d') es' last'.

Lemma db_record_ok d d' md v h es last :
  db_ok checksumDbPath (db_text d) es last -> args_ok md v -> token h -> db_verify_or_record md v h d = (d', Ok tt) ->
  exists es', db_grown es d' es' /\ recorded md (formatSemVer v) es' = Some h.
Proof.
  intros Hdb Ha Hh. pose proof (verify_result _ _ _ _ md v h (proj2 Hdb)) as Hv.
  unfold db_verify_or_record, db_store. destruct (recorded md (formatSemVer v) es) as [h0|] eqn:Er.
  - destruct (eqs h0 h) eqn:E; [|destruct (checksumDbVerifyOrRecord _ _ _ _ _); done]. apply eqs_eq in E as ->.
    rewrite Hv, eqs_refl. intros [= <-]. exists es. split; [split; [exists []; by rewrite app_nil_r|eauto]|done].
  - rewrite Hv. rewrite append_content_text. set (line := content_line _ _ _ _ _).
    destruct (eqs _ _) eqn:E.
    { apply eqs_eq in E. apply (f_equal length) in E. rewrite !length_app in E. cbn in E. lia. }
    rewrite drop_app_length. intros H. apply append_text in H.
    pose proof (append_content_ok _ _ _ _ md v h Hdb Ha Hh) as Hok. rewrite append_content_text in Hok.
    eexists. split.
    + split; [eexists; reflexivity|]. eexists. replace (db_text d') with (db_text d ++ line ++ [c_nl]); [exact Hok|].
      unfold db_text at 2. by rewrite H.
    + rewrite recorded_snoc, Er. cbn [is_content ce_kind andb]. by rewrite names_self.
Qed.

Context {SRC : Source F} {SL : SourceLaws F}.

(** The regular files below a directory, taken in the order of their paths,
    each path followed by a zero byte and the file's bytes, have the hash [h]. *)
Definition holds_content (d : F) (dir h : str) : Prop :=
  exists found files datas, collectStoreFiles d dir = Ok found /\ Permutation files found /\ StronglySorted file_le files /\
    Forall2 (fun f data => fs_read d (absPath f) = Some data) files datas /\
    h = Fips.sha256 (concat (zip_with (fun f data => relPath f ++ [c_nul] ++ data) files datas)).

Lemma hash_files_datas d h files h' : sha_wf h -> hash_files (read_file d) h files = Ok h' -> exists datas,
  Forall2 (fun f data => fs_read d (absPath f) = Some data) files datas /\
  h' = sha_update h (concat (zip_with (fun f data => relPath f ++ [c_nul] ++ data) files datas)).
Proof.
  revert h. induction files as [|f files IH]; intros h Hw; cbn [hash_files].
  - intros [= <-]. exists []. split; [done|]. cbn. by rewrite sha_update_nil.
  - unfold read_file at 1. destruct (fs_read d (absPath f)) as [data|] eqn:E; cbn [res_bind]; [|done]. intros H.
    apply IH in H as (datas & H1 & ->); [|by repeat apply sha_update_wf]. exists (data :: datas). split; [by constructor|].
    cbn [zip_with concat]. rewrite !sha_update_app_lemma by auto using sha_update_wf. by rewrite <- !app_assoc.
Qed.

Lemma verified_content d sd h : verifyStoreEntry d sd h = Ok tt -> holds_content d sd h.
Proof.
  unfold verifyStoreEntry. destruct (collectStoreFiles d sd) as [found|] eqn:Ef; cbn [res_bind]; [|done].
  destruct (canonicalContentHash (read_file d) found) as [actual|] eqn:Ec; cbn [res_bind]; [|done].
  destruct (eqs actual h) eqn:E; cbn [negb]; [|done]. apply eqs_eq in E as <-. intros _.
  unfold canonicalContentHash in Ec. destruct (hash_files _ _ _) as [h'|] eqn:Eh; cbn [res_bind] in Ec; [|done]. injection Ec as <-.
  apply hash_files_datas in Eh as (datas & Hd & ->); [|apply sha_init_wf].
  exists found, (merge_sort file_le found), datas. split; [done|]. split; [apply merge_sort_Permutation|].
  split; [apply Sorted_StronglySorted; [apply file_le_trans|by apply Sorted_merge_sort, file_le_total]|]. split; [done|].
  rewrite <- sha256Hex_spec_lemma. done.
Qed.

(** How the entries of a build list were obtained, one after the other: each one
    is a directory of the store whose bytes, as they are on the disk then, have the
    hash of its name, or comes from the package source; and the log accepts
    its hash before the next one is looked at. *)
Inductive obtained : F -> list BuildListEntry -> F -> Prop :=
| obtained_nil d : obtained d [] d
| obtained_cons d dm d1 e bl d' :
    (dm = d /\ storeDir e = storeRoot ++ lit "/" ++ contentHash e /\ holds_content d (storeDir e) (contentHash e)) \/
    materialize (ble_mod e) (selected e) d = (dm, Ok (storeDir e, contentHash e)) ->
    db_verify_or_record (ble_mod e) (selected e) (contentHash e) dm = (d1, Ok tt) ->
    obtained d1 bl d' -> obtained d (e :: bl) d'.

Lemma fetch_entry_obtained hs e d d' e' : fetch_entry [] hs e d = (d', Ok e') -> forall bl d2, obtained d' bl d2 -> obtained d (e' :: bl) d2.
Proof.
  intros H bl d2 Ho. unfold fetch_entry in H. rewrite (eqs_refl []), dm_bind_get, dm_bind_res in H.
  destruct (warm_store d e _) as [warm|] eqn:Ew; [|done].
  dm_open H. destruct a as [sd h]. dm_open H. apply wrap_err_ok in Hm0. destruct a.
  assert (d' = d1 /\ ble_mod e' = ble_mod e /\ selected e' = selected e /\ contentHash e' = h /\ storeDir e' = sd) as (-> & E1 & E2 & E3 & E4).
  { destruct (match hs with Some _ => _ | None => None end); [destruct (negb _); [done|]|]; by injection H as <- <-. }
  clear H. eapply (obtained_cons d d0 d1); [|by rewrite E1, E2, E3|exact Ho]. rewrite E1, E2, E3, E4.
  destruct warm as [[sd0 h0]|].
  - left. injection Hm as <- -> ->. split; [done|]. unfold warm_store in Ew. destruct (match hs with Some _ => _ | None => None end) as [s|]; [|done].
    destruct (is_dir d _); [|done]. destruct (verifyStoreEntry d _ s) as [[]|] eqn:Ev; [|done].
    injection Ew as <- <-. split; [done|]. by apply verified_content.
  - right. apply wrap_err_ok in Hm. unfold fetch in Hm. by rewrite eqs_refl in Hm.
Qed.

Lemma fetch_all_obtained hs entries d d' bl : fetch_all [] hs entries d = (d', Ok bl) -> obtained d bl d'.
Proof.
  revert d bl. induction entries as [|e entries IH]; intros d bl H; cbn [fetch_all] in H.
  - injection H as <- <-. constructor.
  - dm_open H. dm_open H. injection H as <- <-. eapply fetch_entry_obtained; [exact Hm|]. by apply IH.
Qed.

(** Every module an obtained list names is in the log afterwards, with its hash. *)
Lemma obtained_records d bl d' es last :
  db_ok checksumDbPath (db_text d) es last -> Forall (fun e => args_ok (ble_mod e) (selected e)) bl -> obtained d bl d' ->
  exists es', db_grown es d' es' /\
    Forall (fun e => recorded (ble_mod e) (formatSemVer (selected e)) es' = Some (contentHash e)) bl.
Proof.
  intros Hdb Ha Ho. revert es last Hdb Ha. induction Ho as [d|d dm d1 e bl d' Hp Hr Ho IH]; intros es last Hdb Ha.
  - exists es. split; [|done]. split; [exists []; by rewrite app_nil_r|eauto].
  - apply Forall_cons_1 in Ha as [He Ha]. assert (db_text dm = db_text d /\ token (contentHash e)) as [Hdm Ht].
    { destruct Hp as [(-> & _ & Hc)|Hm]; [|split; [by eapply materialize_db|by eapply materialize_token]].
      split; [done|]. destruct Hc as (_ & files & datas & _ & _ & _ & _ & ->). rewrite <- sha256Hex_spec_lemma.
      set (text := concat _). destruct (sha256Hex_shape text) as [H1 H2]. split; [intros E0; by rewrite E0 in H2|].
      eapply Forall_impl; [exact H1|]. by intros c [? _]. }
    rewrite <- Hdm in Hdb. destruct (db_record_ok _ _ _ _ _ _ _ Hdb He Ht Hr) as (es1 & G1 & R1). pose proof G1 as [_ [last1 Hdb1]].
    destruct (IH _ _ Hdb1 Ha) as (es2 & G2 & R2). exists es2. split.
    { destruct G1 as [[m1 ->] _], G2 as [[m2 ->] H2]. split; [exists (m1 ++ m2); by rewrite app_assoc|done]. }
    constructor; [|done]. destruct G2 as [[more ->] _]. by apply recorded_app.
Qed.


End Recorded.

(** ** A build right after [trident lock] *)

(** The module and the modules it requires: all the cycle check looks at. *)
Definition shape (e : BuildListEntry) : ModuleId * list ModuleId := (ble_mod e, map req_mod (requires_ e)).

Lemma index_shape es es' : map shape es = map shape es' -> indexByModule es = indexByModule es'.
Proof.
  intros H. unfold indexByModule.
  assert (length es = length es') as -> by (apply (f_equal length) in H; by rewrite !length_map in H).
  generalize (seq 0 (length es')) (@nil (ModuleId * nat)). revert es' H.
  induction es as [|e es IH]; intros [|e' es'] H; try done; intros [|k ks] acc; try done.
  cbn [map] in H. injection H as H1 H2 H3. cbn [combine fold_left]. unfold emplace_index at 2 4. cbn [fst snd].
  rewrite H1. by apply IH.
Qed.

Lemma edges_shape es es' i : map shape es = map shape es' -> map req_mod (edges_of es i) = map req_mod (edges_of es' i).
Proof.
  intros H. unfold edges_of. pose proof (f_equal (fun l => l !! i) H) as Hi. cbn in Hi. rewrite !list_lookup_fmap in Hi.
  destruct (es !! i), (es' !! i); try done. by injection Hi as _ ->.
Qed.

Lemma acyclic_shape es es' : map shape es = map shape es' -> acyclic es -> acyclic es'.
Proof.
  intros H Ha i Hi. apply (Ha i). eapply tc_congruence with (f := fun x => x) in Hi; [exact Hi|].
  intros x y (r & Hr & Hf). apply (in_map req_mod) in Hr. rewrite <- (edges_shape es es') in Hr by done.
  apply in_map_iff in Hr as (q & Hq & Hin). exists q. split; [done|]. by rewrite Hq, (index_shape es es').
Qed.

Lemma check_cycle_ok es : acyclic es -> check_cycle es = Ok tt.
Proof.
  intros Ha. unfold check_cycle. pose proof (find_spec es) as Hf. destruct (findRequireCycle es) as [[|c0 c]|]; [done| |done].
  destruct Hf as (vs & Hvs & _). destruct (real_cycle_tc _ _ Hvs) as [i Hi]. by apply Ha in Hi.
Qed.

Lemma hex_of_sha h : hex_of (lit "sha256:" ++ h) = h.
Proof.
  unfold hex_of. change (has_at (lit "sha256:" ++ h) 0 (lit "sha256:")) with true. cbv iota.
  unfold substr. change (drop 7 (lit "sha256:" ++ h)) with h. apply take_ge. rewrite length_app. lia.
Qed.

(** What the lock pins of an entry. *)
Definition pins (e : BuildListEntry) : ModuleId * Version * str := (ble_mod e, selected e, contentHash e).

Section Relock.
Context {F : Type} {FS : FileSystem F} {SRC : Source F}.

Lemma omap_edges rs : Forall edge_ok rs -> omap parseRequireEdge (map serializeRequireEdge rs) = map bare rs.
Proof.
  induction 1 as [|r rs Hr Hrs IH]; [done|].
  cbn [map]. change (omap parseRequireEdge (?x :: ?l)) with
    (match parseRequireEdge x with Some y => y :: omap parseRequireEdge l | None => omap parseRequireEdge l end).
  by rewrite edge_roundtrip, IH.
Qed.

Lemma relocked bl sel : Forall2 locks (map locked_of bl) sel -> Forall printable bl ->
  Forall (fun e => Forall edge_ok (requires_ e)) bl ->
  map pins sel = map pins bl /\ map shape sel = map shape bl.
Proof.
  revert sel. induction bl as [|e bl IH]; intros sel Hl Hp He; cbn [map] in Hl;
    inversion Hl as [|? e' ? sel' (H1 & H2 & H3 & H4) Hl']; subst; [done|].
  inversion_clear Hp as [|? ? [Hv _] Hp']. inversion_clear He as [|? ? He1 He'].
  destruct (IH sel' Hl' Hp' He') as [IH1 IH2]. cbn [map]. rewrite IH1, IH2. cbn [locked_of lm_mod lm_selected lm_hash lm_requires] in *.
  pose proof (parse_format [] (selected e) ltac:(by left) Hv) as Hf. cbn [app] in Hf. rewrite Hf in H2. injection H2 as H2.
  unfold pins at 1 3, shape at 1 3. rewrite H1, <- H2, H3, hex_of_sha, H4, omap_edges, map_map by done. done.
Qed.

Lemma lock_entries_total ms rows sel hs : Forall2 reads ms rows -> exists sel' hs', lock_entries ms sel hs = Some (sel', hs').
Proof.
  intros H. revert sel hs. induction H as [|m kc ms rows (_ & Hs & _) _ IH]; intros sel hs; cbn [lock_entries]; [eauto|].
  rewrite Hs. apply IH.
Qed.

Lemma fresh_edges_ok roots bl bl' : selectVersions roots = MkMvsResult true bl [] -> map chosen bl' = map chosen bl ->
  Forall printable bl' -> Forall (fun e => Forall edge_ok (requires_ e)) bl'.
Proof.
  intros H Hc Hp. apply select_inv in H as (entries & -> & HI & _).
  assert (forall e, In e (map snd entries) -> Forall (fun r => mid_major (req_mod r) = identity_major (req_min r)) (requires_ e)) as Hin.
  { intros e He. apply (entry_in _ _ (inv_keyed _ _ _ HI) (inv_sorted _ _ _ HI)) in He.
    eapply reqs_identity. by apply (inv_entry _ _ _ HI). }
  clear HI. revert Hin Hc. generalize (map snd entries).
  induction Hp as [|e' bl' [_ He'] Hp IH]; intros [|e bl] Hin Hc; try done.
  cbn [map] in Hc. injection Hc as C1 C2 C3 C4. constructor.
  - specialize (Hin e (or_introl eq_refl)). rewrite <- C3 in Hin. rewrite List.Forall_forall in *. intros r Hr. split; auto.
  - apply (IH bl); [|done]. intros x Hx. apply Hin. by right.
Qed.

(** Suppose newer versions require at least what older ones do, a manifest was
    resolved afresh to a build list, and the lock file holds that list's lock.
    Then a later resolution of the same manifest takes the lock, whatever else
    changed on disk. *)
Lemma lock_then_build m lockPath d d1 d2 bl :
  monotone -> resolveVcsDeps m true [] [] d = (d1, Ok bl) ->
  bl <> [] -> Forall printable bl -> Forall (fun e => id_ok (ble_mod e)) bl ->
  lockPath <> [] -> fs_read d2 lockPath = Some (writeLockfile (lockfileFromBuildList bl)) ->
  exists entries hashes,
    resolveVcsDeps m true lockPath [] d2 = fetch_all [] (Some hashes) entries d2 /\
    map pins entries = map pins bl /\
    Forall (fun e => omap_find moduleId_ltb (ble_mod e) hashes = Some (contentHash e)) bl.
Proof.
  intros Hmono H Hne Hp Hid Hlp Hr.
  apply vcs_resolution in H as (roots & Hroots & [[-> ->]|[[? _]|(_ & _ & fresh & Hs & Hc & _)]]); [done|done|].
  assert (parseLockfile lockPath (writeLockfile (lockfileFromBuildList bl)) = Ok (lockfileFromBuildList bl)) as Hparse.
  { apply lock_read_back; [split; cbn; lia|]. cbn [lockfileFromBuildList lk_modules]. by rewrite Forall_map. }
  destruct (fresh_lock_rows roots fresh bl Hmono Hs Hc Hp) as (H1 & H2 & H3).
  destruct (lock_entries_total _ _ [] [] H1) as (sel & hs & Hle).
  assert (use_lock d2 lockPath roots = Ok (Some (sel, hs))) as Hu.
  { unfold use_lock. rewrite (proj2 (eqs_neq _ _) Hlp), Hr, Hparse, (proj2 (lock_check_spec _ _)) by eauto. by rewrite Hle. }
  assert (NoDup (map lm_mod (map locked_of bl))) as Hd by (rewrite map_map in H2 |- *; exact H2).
  destruct (lock_entries_spec _ _ _ _ _ Hle Hd) as ((more & -> & Hm) & Hh & _). cbn [app] in *.
  destruct (relocked bl more Hm Hp (fresh_edges_ok roots fresh bl Hs Hc Hp)) as [Hpins Hshape].
  exists more, hs. split; [|split; [done|]].
  - unfold resolveVcsDeps. rewrite dm_bind_get, dm_bind_res, Hroots. destruct roots as [|r rs].
    { apply select_inv in Hs as (entries & -> & HI & _). destruct bl as [|e bl]; [done|]. destruct entries as [|[k x] entries]; [done|].
      destruct (inv_entry _ _ _ HI k x) as (_ & (r & Hr2 & _) & _); [apply (omap_In_find moduleId_ltb); [apply HI|by left]|].
      exfalso. clear -Hr2. by induction Hr2. }
    cbn [eqs]. rewrite (eqs_refl []). cbn [negb andb]. rewrite dm_bind_res, Hu, dm_bind_res, check_cycle_ok; [done|].
    apply (acyclic_shape fresh).
    { rewrite Hshape. clear -Hc. revert bl Hc. induction fresh as [|e fresh IH]; intros [|e' bl] Hc; try done.
      cbn [map] in *. injection Hc as C1 C2 C3 C4. unfold shape at 1 3. rewrite C1, C3. by rewrite (IH bl C4). }
    apply select_inv in Hs as (entries & -> & _ & Hcyc). pose proof (find_spec (map snd entries)) as Hf. by rewrite Hcyc in Hf.
  - rewrite List.Forall_forall. intros e He. specialize (Hh (locked_of e) (in_map _ _ _ He)).
    cbn [locked_of lm_mod lm_hash] in Hh. by rewrite hex_of_sha in Hh.
Qed.

End Relock.

(** * What gathering a project guarantees

    No file is gathered twice, the walk over local dependencies ends, listing a
    directory is its recursive listing, and a package's declared sources stay
    inside the package. *)

(** ** Folding an operation over a list *)

Lemma dm_fold_inv {S A B} (P : B -> Prop) (f : A -> B -> @DM S B) l b s s' b' :
  (forall a b s s' b', P b -> f a b s = (s', Ok b') -> P b') -> P b -> dm_fold f l b s = (s', Ok b') -> P b'.
Proof.
  intros Hf. revert b s. induction l as [|a l IH]; intros b s Hb H; cbn [dm_fold] in H; [by injection H as _ <-|].
  dm_open H. eauto.
Qed.

Lemma dm_fold_agree {S A B} (P : B -> Prop) (f g : A -> B -> @DM S B) l b s :
  (forall a b s s' b', P b -> f a b s = (s', Ok b') -> P b') ->
  (forall a b s, P b -> f a b s = g a b s) -> P b -> dm_fold f l b s = dm_fold g l b s.
Proof.
  intros Hinv Hag. revert b s. induction l as [|a l IH]; intros b s Hb; cbn [dm_fold]; [done|]. unfold dm_bind.
  rewrite <- (Hag a b s Hb). destruct (f a b s) as [s1 [b1|e]] eqn:E; [|done]. eauto.
Qed.

Section Listing.
Context {F : Type} {FS : FileSystem F}.

(** No path as long as [kPathMax] can be looked up. *)
Hypothesis path_limit : forall d p, kPathMax <= length p -> fs_stat d p = None.

Lemma list_files_fuel n n' d dir : kPathMax <= length dir + n -> kPathMax <= length dir + n' -> list_files n d dir = list_files n' d dir.
Proof.
  revert n' dir. induction n as [|n IH]; intros n' dir Hn Hn'.
  all: destruct n' as [|n']; cbn [list_files]; destruct (fs_readdir d dir) as [names|]; try done; f_equal; apply map_ext; intros name.
  all: destruct (dotted name); [done|]; set (path := dir ++ lit "/" ++ name).
  all: assert (length dir < length path) by (unfold path; rewrite !length_app; cbn; lia).
  all: destruct (decide (kPathMax <= length path)) as [Hl|Hl]; [by rewrite path_limit|].
  all: try lia.
  destruct (fs_stat d path) as [[]|]; try done. apply IH; lia.
Qed.

(** The recursive equation of the source. *)
Lemma list_files_unfold d dir : listFilesRecursive d dir =
  match fs_readdir d dir with
  | None => []
  | Some names =>
      concat (map (fun name =>
        if dotted name then []
        else match fs_stat d (dir ++ lit "/" ++ name) with
             | None => []
             | Some Directory => listFilesRecursive d (dir ++ lit "/" ++ name)
             | Some _ => [dir ++ lit "/" ++ name]
             end) names)
  end.
Proof.
  unfold listFilesRecursive at 1. rewrite (list_files_fuel kPathMax (S kPathMax)) by lia. cbn [list_files].
  destruct (fs_readdir d dir); done.
Qed.

End Listing.

(** ** No file twice *)

Section Distinct.
Context {F : Type} {FS : FileSystem F} (disk : F).

(** The gathered paths are distinct after resolving links and all are marked. *)
Definition marked (seen : gset str) (paths : list str) : Prop :=
  NoDup (map (canon disk) paths) /\ Forall (fun p => canon disk p ∈ seen) paths.

Lemma marked_add p seen paths : marked seen paths -> canon disk p ∉ seen -> marked ({[canon disk p]} ∪ seen) (paths ++ [p]).
Proof.
  intros [H1 H2] Hn. split.
  - rewrite map_app. cbn [map]. apply NoDup_app. split; [done|]. split; [|apply NoDup_singleton].
    intros x Hx Hx2. apply list_elem_of_singleton in Hx2 as ->. apply list_elem_of_In, in_map_iff in Hx as (q & Hq & Hin).
    rewrite List.Forall_forall in H2. apply H2 in Hin. congruence.
  - apply Forall_app. split; [|repeat constructor; set_solver]. eapply Forall_impl; [exact H2|]. set_solver.
Qed.

Lemma add_seen_marked p acc pre : marked acc.1 (pre ++ acc.2) ->
  marked (add_seen disk p acc).1 (pre ++ (add_seen disk p acc).2).
Proof.
  intros H. unfold add_seen. case_bool_decide; [done|]. cbn [fst snd]. rewrite app_assoc. by apply marked_add.
Qed.

Lemma add_globbed_marked ps acc pre : marked acc.1 (pre ++ acc.2) ->
  marked (add_globbed_seen disk ps acc).1 (pre ++ (add_globbed_seen disk ps acc).2).
Proof.
  unfold add_globbed_seen. revert acc. induction ps as [|p ps IH]; intros acc H; cbn [fold_left]; [done|].
  apply IH. destruct (ends_slash p); [done|by apply add_seen_marked].
Qed.

Lemma expandSources_marked base sources acc acc' pre : marked acc.1 (pre ++ acc.2) ->
  expandSources disk base sources acc = Ok acc' -> marked acc'.1 (pre ++ acc'.2).
Proof.
  revert acc. induction sources as [|rel sources IH]; intros acc H; cbn [expandSources]; [by intros [= <-]|].
  destruct (negb (has_glob rel)); [by apply IH, add_seen_marked|].
  destruct (fs_glob disk (base ++ rel)); [|done|done]. by apply IH, add_globbed_marked.
Qed.

Lemma gatherSources_marked base sources origin moduleId seen gather seen' gather' :
  marked seen (map rs_path gather) ->
  gatherSources disk base sources origin moduleId seen gather = Ok (seen', gather') -> marked seen' (map rs_path gather').
Proof.
  intros H. unfold gatherSources. destruct (expandSources disk base sources (seen, [])) as [[seen1 paths]|] eqn:E; [|done].
  cbn [res_bind]. intros [= <- <-]. rewrite map_app, map_map. cbn [rs_path]. rewrite map_id.
  apply (expandSources_marked base sources (seen, []) (seen1, paths) (map rs_path gather)); [|done].
  cbn [fst snd]. by rewrite app_nil_r.
Qed.

Definition gather_ok (g : Gather) : Prop := marked (g_seen g) (map rs_path (g_sources g)).

Lemma load_deps_marked fuel deps base parent g log log' g' :
  gather_ok g -> loadDepsRec disk fuel deps base parent g log = (log', Ok g') -> gather_ok g'.
Proof.
  revert deps base parent g log log' g'. induction fuel as [|n IH]; intros deps base parent g log log' g' Hg; cbn [loadDepsRec]; [done|].
  apply dm_fold_inv; [|done]. intros dep g0 l1 l2 g2 H0. unfold load_dep.
  destruct (dep_kind dep); [|by intros [= _ <-]].
  destruct (discoverManifestPath disk (dep_dir base dep)) as [|c path]; [done|]. case_bool_decide as Hvis; [by intros [= _ <-]|].
  destruct (fs_read disk (c :: path)) as [mtext|]; [|done]. destruct (parseManifest (c :: path) mtext) as [dm|]; [|done].
  rewrite dm_bind_res. destruct (gatherSources _ _ _ _ _ _ _) as [[seen sources]|] eqn:E; [|done].
  intros H. dm_open H. rewrite dm_bind_res in H. destruct (inferAndValidateDependencyKinds _ _ _); [|done].
  eapply IH; [|exact H]. by eapply gatherSources_marked.
Qed.

(** No file is compiled twice: when the sources of a project and of its
    local dependencies are gathered, the files are pairwise distinct after
    resolving links, however the manifests, globs and dependency paths that
    name them overlap. *)
Theorem sources_distinct fuel manifestPath m log log' deps g :
  gather_local disk fuel manifestPath m log = (log', Ok (deps, g)) ->
  NoDup (map (fun s => canon disk (rs_path s)) (g_sources g)).
Proof.
  unfold gather_local. rewrite dm_bind_res.
  destruct (gatherSources disk _ _ [] [] ∅ []) as [[seen sources]|] eqn:E; [|done].
  intros H. dm_open H. rewrite dm_bind_res in H. destruct (inferAndValidateDependencyKinds _ _ _) as [ds|]; [|done].
  dm_open H. injection H as _ <- <-. apply load_deps_marked in Hm0.
  - destruct Hm0 as [Hn _]. by rewrite map_map in Hn.
  - eapply gatherSources_marked; [|exact E]. split; constructor.
Qed.

End Distinct.

(** ** The walk over local dependencies ends *)

Section Ends.
Context {F : Type} {FS : FileSystem F} (disk : F) (manifests : gset str).

(** The manifests on the disk, by canonical path, are among finitely many. *)
Hypothesis manifests_finite : forall dir, discoverManifestPath disk dir <> [] ->
  canon disk (discoverManifestPath disk dir) ∈ manifests.

Definition unvisited (g : Gather) : nat := size (manifests ∖ g_visited g).

Lemma load_dep_visits rec base parent dep g log log' g' :
  (forall deps base parent g log log' g', rec deps base parent g log = (log', Ok g') -> g_visited g ⊆ g_visited g') ->
  load_dep disk rec base parent dep g log = (log', Ok g') -> g_visited g ⊆ g_visited g'.
Proof.
  intros Hrec. unfold load_dep. destruct (dep_kind dep); [|by intros [= _ <-]].
  destruct (discoverManifestPath disk (dep_dir base dep)) as [|c path]; [done|]. case_bool_decide as Hvis; [by intros [= _ <-]|].
  destruct (fs_read disk (c :: path)) as [mtext|]; [|done]. destruct (parseManifest (c :: path) mtext) as [dm|]; [|done].
  rewrite dm_bind_res. destruct (gatherSources _ _ _ _ _ _ _) as [[seen sources]|] eqn:E; [|done].
  intros Hm. dm_open Hm. rewrite dm_bind_res in Hm. destruct (inferAndValidateDependencyKinds _ _ _); [|done].
  apply Hrec in Hm. cbn [g_visited] in Hm. set_solver.
Qed.

Lemma load_deps_visits fuel deps base parent g log log' g' :
  loadDepsRec disk fuel deps base parent g log = (log', Ok g') -> g_visited g ⊆ g_visited g'.
Proof.
  revert deps base parent g log log' g'. induction fuel as [|n IH]; intros deps base parent g log log' g'; cbn [loadDepsRec]; [done|].
  apply (dm_fold_inv (fun g' => g_visited g ⊆ g_visited g')); [|done].
  intros dep g1 l1 l2 g2 H1 H2. apply load_dep_visits in H2; [set_solver|exact IH].
Qed.

Lemma unvisited_le g g' : g_visited g ⊆ g_visited g' -> unvisited g' <= unvisited g.
Proof. intros H. unfold unvisited. apply subseteq_size. set_solver. Qed.

Lemma load_deps_fuel n n' deps base parent g log : unvisited g < n -> unvisited g < n' ->
  loadDepsRec disk n deps base parent g log = loadDepsRec disk n' deps base parent g log.
Proof.
  revert n' deps base parent g log. induction n as [|n IH]; intros [|n'] deps base parent g log Hn Hn'; try lia.
  cbn [loadDepsRec]. apply (dm_fold_agree (fun g' => unvisited g' <= unvisited g)); [| |done].
  - intros dep g1 l1 l2 g2 H1 H2. apply load_dep_visits in H2; [|apply load_deps_visits]. apply unvisited_le in H2. lia.
  - intros dep g1 l1 H1. unfold load_dep. destruct (dep_kind dep); [|done].
    destruct (discoverManifestPath disk (dep_dir base dep)) as [|c path] eqn:Ed; [done|]. case_bool_decide as Hv; [done|].
    destruct (fs_read disk (c :: path)) as [mtext|]; [|done]. destruct (parseManifest (c :: path) mtext) as [dm|]; [|done].
    rewrite !dm_bind_res. destruct (gatherSources _ _ _ _ _ _ _) as [[seen sources]|]; [|done].
    unfold dm_bind at 1 3. destruct (gatherAssets disk _ _ _ _ _) as [l2 [assets|e]]; [|done].
    rewrite !dm_bind_res. destruct (inferAndValidateDependencyKinds _ _ _); [|done].
    set (g2 := MkGather _ _ _ _ _). assert (unvisited g2 < unvisited g1); [|apply IH; lia].
    unfold unvisited, g2. cbn [g_visited]. apply subset_size.
    pose proof (manifests_finite (dep_dir base dep)) as Hin. rewrite Ed in Hin. specialize (Hin ltac:(done)).
    set (x := canon disk (c :: path)) in *. split; [set_solver|]. intros Hsub.
    assert (x ∈ manifests ∖ g_visited g1) as Hx by set_solver. apply Hsub in Hx. set_solver.
Qed.

(** [C26] Resolving a project ends: on a disk with finitely many manifests, the
    recursion over local dependencies is never deeper than their number, however
    they point at each other; past that bound the depth limit of the model
    changes neither the disk, the messages nor the result. *)
Theorem resolve_project_ends {SRC : Source F} fuel fuel' manifestPath aliasDir dev vendorDir stderr :
  size manifests < fuel -> size manifests < fuel' ->
  resolveProject fuel manifestPath aliasDir dev vendorDir disk stderr =
  resolveProject fuel' manifestPath aliasDir dev vendorDir disk stderr.
Proof.
  intros H H'. unfold resolveProject. destruct (fs_read disk manifestPath) as [mtext|]; [|done].
  destruct (parseManifest manifestPath mtext) as [m|]; [|done].
  assert (gather_local disk fuel manifestPath m stderr = gather_local disk fuel' manifestPath m stderr) as ->; [|done].
  unfold gather_local. rewrite !dm_bind_res. destruct (gatherSources _ _ _ _ _ _ _) as [[seen sources]|]; [|done].
  unfold dm_bind at 1 4. destruct (gatherAssets disk _ _ _ _ _) as [l2 [assets|e]]; [|done].
  rewrite !dm_bind_res. destruct (inferAndValidateDependencyKinds _ _ _); [|done]. unfold dm_bind.
  rewrite (load_deps_fuel fuel fuel'); [done| |].
  all: unfold unvisited; cbn [g_visited]; eapply Nat.le_lt_trans; [apply subseteq_size; apply subseteq_difference_l; reflexivity|done].
Qed.

End Ends.

(** ** Declared sources stay inside the package *)

Lemma has_at_prefix s p : has_at s 0 p = true -> s = p ++ substr s (length p) (length s).
Proof.
  unfold has_at, substr. rewrite eqs_eq, drop_0. intros H. rewrite <- (take_drop (length p) s) at 1. rewrite H. f_equal.
  symmetry. apply take_ge. rewrite length_drop. lia.
Qed.

Section Declared.
Context {F : Type} {FS : FileSystem F} (d : F) (base : str).

(** The package root without its final slash. *)
Definition root_path : str := if (1 <? length base)%nat && ends_slash base then substr base 0 (length base - 1) else base.

(** A regular file, named by a safe path below the root, and below it also after
    resolving links. *)
Definition contained (f : StoreFile) : Prop :=
  absPath f = base ++ relPath f /\ unsafeRelativePath (relPath f) = false /\
  fs_lstat d (absPath f) = Some RegularFile /\
  exists root below, fs_realpath d root_path = Some root /\ fs_realpath d (absPath f) = Some (root ++ lit "/" ++ below).

Definition declared_ok (acc : gset str * list StoreFile) : Prop :=
  NoDup (map relPath acc.2) /\ Forall (fun f => relPath f ∈ acc.1) acc.2 /\ Forall contained acc.2.

Lemma addRegularFile_ok path acc acc' : declared_ok acc -> addRegularFile d base path acc = Ok acc' -> declared_ok acc'.
Proof.
  intros (H1 & H2 & H3). unfold addRegularFile. destruct (fs_lstat d path) as [[]|] eqn:El; try done. fold root_path.
  destruct (fs_realpath d root_path) as [root|] eqn:Er; [|done]. destruct (fs_realpath d path) as [real|] eqn:Ep; [|done].
  destruct (has_at real 0 (root ++ lit "/")) eqn:E1; cbn [negb]; [|done].
  destruct (has_at path 0 base) eqn:E2; cbn [negb]; [|done]. apply has_at_prefix in E1, E2.
  set (rel := substr path (length base) (length path)) in *. destruct (unsafeRelativePath rel) eqn:E3; [done|].
  case_bool_decide as Hin; intros [= <-]; [done|]. unfold declared_ok. cbn [fst snd]. split; [|split].
  - rewrite map_app. cbn [map relPath]. apply NoDup_app. split; [done|]. split; [|apply NoDup_singleton].
    intros x Hx Hx2. apply list_elem_of_singleton in Hx2 as ->. apply list_elem_of_In, in_map_iff in Hx as (f & Hf & Hin2).
    rewrite List.Forall_forall in H2. apply H2 in Hin2. congruence.
  - apply Forall_app. split; [|repeat constructor; set_solver]. eapply Forall_impl; [exact H2|]. set_solver.
  - apply Forall_app. split; [done|]. repeat constructor; cbn [absPath relPath]; auto.
    exists root. eexists. split; [done|]. rewrite Ep, E1 at 1. by rewrite <- app_assoc.
Qed.

Lemma add_globbed_ok paths acc acc' : declared_ok acc -> add_globbed d base paths acc = Ok acc' -> declared_ok acc'.
Proof.
  revert acc. induction paths as [|p paths IH]; intros acc H; cbn [add_globbed]; [by intros [= <-]|].
  destruct (ends_slash p); [by apply IH|]. destruct (addRegularFile d base p acc) as [acc1|] eqn:E; cbn [res_bind]; [|done].
  apply IH. by eapply addRegularFile_ok.
Qed.

Lemma add_patterns_ok patterns acc acc' : declared_ok acc -> add_patterns d base patterns acc = Ok acc' -> declared_ok acc'.
Proof.
  revert acc. induction patterns as [|rel patterns IH]; intros acc H; cbn [add_patterns]; [by intros [= <-]|].
  destruct (unsafeRelativePath rel); [done|].
  match goal with |- context [res_bind ?r _] => destruct r as [acc1|] eqn:E end; cbn [res_bind]; [|done].
  apply IH. destruct (negb (has_glob rel)); [by eapply addRegularFile_ok|].
  destruct (fs_glob d (base ++ rel)); [by eapply add_globbed_ok|done|done].
Qed.

End Declared.

Definition package_base (baseDir : str) : str := slash_dir (match baseDir with [] => lit "." | _ => baseDir end).

(** [C27] A package's sources stay inside it: when [collectDeclaredSources]
    accepts a manifest's patterns, the files are some, sorted and distinct, each is a
    regular file named by a path below the package root without a parent
    component, and each still lies below the root after resolving links. *)
Theorem declared_sources_contained {F} {FS : FileSystem F} d baseDir patterns files :
  collectDeclaredSources d baseDir patterns = Ok files ->
  files <> [] /\ Sorted file_le files /\ NoDup (map relPath files) /\ Forall (contained d (package_base baseDir)) files /\
  Forall (fun f => forall dir, exists below, resolve dir (parts (relPath f)) = dir ++ below) files.
Proof.
  unfold collectDeclaredSources. fold (package_base baseDir).
  destruct (add_patterns d (package_base baseDir) patterns (∅, [])) as [[seen acc]|] eqn:E; cbn [res_bind]; [|done].
  apply add_patterns_ok in E as (H1 & _ & H3); [|repeat split; constructor]. cbn [snd] in H1, H3.
  destruct acc as [|f acc]; [done|]. intros [= <-]. set (l := f :: acc) in *.
  pose proof (merge_sort_Permutation file_le l) as Hp. pose proof file_le_total. pose proof file_le_trans. split_and!.
  - intros E. rewrite E in Hp. apply Permutation_nil_l in Hp. done.
  - by apply Sorted_merge_sort.
  - by rewrite Hp.
  - by rewrite Hp.
  - rewrite Hp. eapply Forall_impl; [exact H3|]. intros x (_ & Hx & _). by apply relative_paths_contained.
Qed.
