(* ===== verification/Commands.v ===== *)
(** * The commands of the package manager

    Models [tools/trident/commands.cpp] (dependency management: [add], [remove],
    [update], [lock], [fetch], [why], [audit] up to its policy file, [vendor],
    [yank]), the git-backed package source of [fetch.cpp] over the git calls of
    [vcs.hpp], and the build driver of [main.cpp] up to the compiler's
    invocation.  A command ends with an exit code and what it printed. *)

From S2P Require Import Prelude Toml BuildPlan Manifest Semver Mvs Lock LockCheck Sha256 Checksum Store Disk Resolve.

(** The exit code, standard output and standard error. *)
Inductive CmdExit := Exit (code : Z) (out err : list str).

Definition error_line (e : str) : str := lit "error: " ++ e.

(** A command whose failures print one line and exit with 1. *)
Definition command {F} (m : @DM F (list str)) : F -> F * CmdExit := fun d =>
  match m d with
  | (d', Ok out) => (d', Exit 0 out [])
  | (d', Err e) => (d', Exit 1 [] [error_line e])
  end.

(** [spec.rfind('@')] splits a module spec. *)
Definition split_spec (spec : str) : str * str :=
  match find_last_of "@" spec with
  | None => (spec, [])
  | Some i => (substr spec 0 i, substr spec (i + 1) (length spec))
  end.

Definition parseVersionedSpec (spec : str) : res (str * Version) :=
  let bad := Err (lit "expected <path>@<MAJOR.MINOR.PATCH>, got '" ++ spec ++ lit "'") in
  match find_last_of "@" spec with
  | None => bad
  | Some i =>
      if (i =? 0)%nat || (i + 1 =? length spec)%nat then bad
      else match parseSemVer (substr spec (i + 1) (length spec)) with
           | Err e => Err (lit "invalid version in '" ++ spec ++ lit "': " ++ e)
           | Ok v => Ok (substr spec 0 i, v)
           end
  end.

(** ** The git source *)

(** The git calls: a clone of a tag gives a checkout directory. *)
Class Git (F : Type) := {
  gitCloneTag : str -> str -> F -> F * res str;
  gitListTags : str -> res (list str);
  removeTree : str -> F -> F
}.

Section GitSource.
Context {F : Type} {FS : FileSystem F} {GIT : Git F}.

Definition remoteUrlFor (modulePath : str) : str :=
  match find_sub (lit "://") modulePath with
  | Some _ => modulePath
  | None => if starts_slash modulePath then modulePath else lit "https://" ++ modulePath
  end.

Definition cloneTagAndReadManifest (remote tag : str) : @DM F (str * ProjectManifest) :=
  let! checkoutDir := gitCloneTag remote tag in
  fun d =>
    let manifestPath := checkoutDir ++ lit "/trident.toml" in
    match fs_read d manifestPath with
    | None => (removeTree checkoutDir d, Err (lit "fetched tag '" ++ tag ++ lit "' of '" ++ remote ++ lit "' has no trident.toml"))
    | Some text => match parseManifest manifestPath text with
                   | Err e => (removeTree checkoutDir d, Err e)
                   | Ok pm => (d, Ok (checkoutDir, pm))
                   end
    end.

Definition git_manifestOf (md : ModuleId) (v : Version) : @DM F ProjectManifest :=
  let! (checkoutDir, pm) := cloneTagAndReadManifest (remoteUrlFor (mid_path md)) (formatSemVerTag v) in
  fun d => (removeTree checkoutDir d, Ok pm).

Definition git_materialize (md : ModuleId) (v : Version) : @DM F (str * str) :=
  let! (checkoutDir, pm) := cloneTagAndReadManifest (remoteUrlFor (mid_path md)) (formatSemVerTag v) in
  fun d =>
    match collectDeclaredSources d checkoutDir (pm_sources pm) with
    | Err e => (removeTree checkoutDir d, Err e)
    | Ok files => let '(d1, r) := materializeToStore files d in (removeTree checkoutDir d1, r)
    end.

Definition same_identity (md : ModuleId) (v : Version) : bool :=
  if (mid_major md <=? 1)%Z then (major v <=? 1)%Z else (major v =? mid_major md)%Z.

Definition git_versions (md : ModuleId) : res (list Version) :=
  let? tags := gitListTags (remoteUrlFor (mid_path md)) in
  Ok (filter (fun v => same_identity md v = true) (omap (fun t => match parseSemVer t with Ok v => Some v | Err _ => None end) tags)).

(** [GitProvider]; manifests are read with the disk as it was when selection began. *)
Definition GitSource (d : F) : Source F := {|
  source_provider := {| manifestOf md v := snd (git_manifestOf md v d) |};
  materialize := git_materialize;
  versions := git_versions
|}.

End GitSource.

Section Commands.
Context {F : Type} {FS : FileSystem F} {SRC : Source F} (httpGet : str -> res (option str)).

Definition loadManifestForCommand (d : F) (manifestArg : str) : res (str * ProjectManifest) :=
  match resolveManifestArg d manifestArg with
  | [] => Err (lit "no manifest found (looked for trident.toml in '" ++ (match manifestArg with [] => lit "." | _ => manifestArg end) ++ lit "')")
  | manifestPath =>
      match fs_read d manifestPath with
      | None => Err (lit "cannot read manifest '" ++ manifestPath ++ lit "'")
      | Some mtext =>
          let? pm := parseManifest manifestPath mtext in
          let? deps := inferAndValidateDependencyKinds d (pm_deps pm) (dirOf manifestPath) in
          Ok (manifestPath, set_deps deps pm)
      end
  end.

(** An output file that is opened, written and checked. *)
Definition write_text (what : string) (path contents : str) : @DM F unit := fun d =>
  match fs_write path contents d with
  | (d', IoGood) | (d', IoLost) => (d', Ok tt)
  | (d', IoNotOpen) => (d', Err (lit "cannot write " ++ lit what ++ lit " '" ++ path ++ lit "'"))
  | (d', IoBad) => (d', Err [])
  end.
Definition write_manifest (path : str) (pm : ProjectManifest) : @DM F unit := write_text "manifest" path (writeManifest pm).

Definition regenerateLock (manifestPath : str) (pm : ProjectManifest) : @DM F (list BuildListEntry) :=
  let! buildList := resolveVcsDeps pm true [] [] in
  let! _ := write_text "lockfile" (lockfilePathFor manifestPath) (writeLockfile (lockfileFromBuildList buildList)) in
  dm_ret buildList.

Fixpoint best_version (d : F) (md : ModuleId) (vs : list Version) (best : option Version) : res (option Version) :=
  match vs with
  | [] => Ok best
  | v :: vs' =>
      let? yanked := db_is_yanked d md v in
      if yanked then best_version d md vs' best
      else best_version d md vs'
             (match best with
              | None => Some v
              | Some b => if (0 <? compareSemVer v b)%Z then Some v else best
              end)
  end.

Definition highestVersion (d : F) (path : str) (mj : Z) : res Version :=
  let md := MkModuleId path mj in
  let? vs := versions md in
  match vs with
  | [] => Err (lit "no tags found for '" ++ path ++ lit "'")
  | _ =>
      let? best := best_version d md vs None in
      match best with
      | None => Err (lit "every published version of '" ++ path ++ lit "' in this major is yanked")
      | Some v => Ok v
      end
  end.

(** ** The name index over the disk *)

Definition tridentIndexEndpoint : str := match os_getenv (lit "TRIDENT_INDEX") with Some v => v | None => [] end.

(** The one file of a directory index that resolving [name] reads. *)
Definition index_files (d : F) (endpoint name : str) : gmap str str :=
  let p := joined (localRoot endpoint) (indexPath name) in
  match fs_read d p with Some t => {[p := t]} | None => ∅ end.
Definition lookup_name (d : F) (endpoint name : str) : res (option str) :=
  indexResolveName httpGet (index_files d endpoint name) endpoint name.

Definition uses_index (path : str) : bool := negb (eqs tridentIndexEndpoint []) && isFriendlyPackageName path.

(** ** The commands *)

Definition set_version (version : str) (dep : Dependency) : Dependency :=
  MkDep (dep_path dep) version (dep_as dep) (dep_dev dep) (dep_kind dep).

(** Update the first dependency on [path], or add one. *)
Fixpoint put_dep (path version asName : str) (dev : bool) (deps : list Dependency) : list Dependency :=
  match deps with
  | [] => [MkDep path version asName dev Local_]
  | dep :: deps' =>
      if eqs (dep_path dep) path
      then MkDep (dep_path dep) version (match asName with [] => dep_as dep | _ => asName end) dev (dep_kind dep) :: deps'
      else dep :: put_dep path version asName dev deps'
  end.

Definition add_path (d : F) (path : str) : res str :=
  if uses_index path then
    let? found := lookup_name d tridentIndexEndpoint path in
    match found with
    | None => Err (lit "package name '" ++ path ++ lit "' is not registered in TRIDENT_INDEX")
    | Some resolved => Ok resolved
    end
  else Ok path.

Definition cmdAdd (manifestArg depSpec asName : str) (dev : bool) : F -> F * CmdExit := command (
  let! d := dm_get in
  let! (manifestPath, pm) := dm_res (loadManifestForCommand d manifestArg) in
  let '(spec, version0) := split_spec depSpec in
  let! path := dm_res (add_path d spec) in
  let! version := match version0 with
                  | [] => dm_res (let? best := highestVersion d path 1 in Ok (formatSemVer best))
                  | _ => dm_ret version0
                  end in
  let! _ := write_manifest manifestPath (set_deps (put_dep path version asName dev (pm_deps pm)) pm) in
  let! d1 := dm_get in
  let! (manifestPath1, fresh) := dm_res (loadManifestForCommand d1 manifestArg) in
  let! _ := regenerateLock manifestPath1 fresh in
  dm_ret [lit "added " ++ path ++ lit "@" ++ version ++ (match asName with [] => [] | _ => lit " as " ++ asName end)]).

Fixpoint remove_dep (path : str) (deps : list Dependency) : option (list Dependency) :=
  match deps with
  | [] => None
  | dep :: deps' => if eqs (dep_path dep) path then Some deps' else cons dep <$> remove_dep path deps'
  end.

Definition cmdRemove (manifestArg path : str) : F -> F * CmdExit := command (
  let! d := dm_get in
  let! (manifestPath, pm) := dm_res (loadManifestForCommand d manifestArg) in
  match remove_dep path (pm_deps pm) with
  | None => dm_err (lit "no dependency '" ++ path ++ lit "' in the manifest")
  | Some deps =>
      let pm' := set_deps deps pm in
      let! _ := write_manifest manifestPath pm' in
      let! _ := regenerateLock manifestPath pm' in
      dm_ret [lit "removed " ++ path]
  end).

(** The loop over the dependencies; the flag is [any]. *)
Fixpoint update_deps (d : F) (path : str) (deps : list Dependency) : res (list Dependency * bool) :=
  match deps with
  | [] => Ok ([], false)
  | dep :: deps' =>
      match dep_kind dep with
      | Local_ => let? (rest, any) := update_deps d path deps' in Ok (dep :: rest, any)
      | Vcs =>
          if negb (eqs path []) && negb (eqs (dep_path dep) path) then
            let? (rest, any) := update_deps d path deps' in Ok (dep :: rest, any)
          else
            let mj := match parseSemVer (dep_version dep) with
                      | Ok cur => if (major cur <=? 1)%Z then 1%Z else major cur | Err _ => 1%Z end in
            let? best := highestVersion d (dep_path dep) mj in
            let? (rest, _) := update_deps d path deps' in
            Ok (set_version (formatSemVer best) dep :: rest, true)
      end
  end.

Definition cmdUpdate (manifestArg path : str) : F -> F * CmdExit := command (
  let! d := dm_get in
  let! (manifestPath, pm) := dm_res (loadManifestForCommand d manifestArg) in
  let! (deps, any) := dm_res (update_deps d path (pm_deps pm)) in
  if negb any then
    dm_err (match path with [] => lit "no VCS dependencies to update" | _ => lit "no VCS dependency '" ++ path ++ lit "'" end)
  else
    let pm' := set_deps deps pm in
    let! _ := write_manifest manifestPath pm' in
    let! _ := regenerateLock manifestPath pm' in
    dm_ret [lit "updated"]).

Definition cmdLock (manifestArg : str) : F -> F * CmdExit := command (
  let! d := dm_get in
  let! (manifestPath, pm) := dm_res (loadManifestForCommand d manifestArg) in
  let! _ := regenerateLock manifestPath pm in
  dm_ret [lockfilePathFor manifestPath]).

Definition cmdFetch (manifestArg : str) : F -> F * CmdExit := command (
  let! d := dm_get in
  let! (manifestPath, pm) := dm_res (loadManifestForCommand d manifestArg) in
  let! buildList := regenerateLock manifestPath pm in
  dm_ret [lit "fetched " ++ to_string (Z.of_nat (length buildList)) ++ lit " module(s)"]).

(** Who requires [path]: the root, then the selected modules. *)
Definition why_root (path : str) (deps : list Dependency) : list str :=
  map (fun dep => lit "  required by root (>= " ++ dep_version dep ++ lit ")")
      (filter (fun dep => (match dep_kind dep with Vcs => eqs (dep_path dep) path | Local_ => false end) = true) deps).
Definition why_entries (path : str) (bl : list BuildListEntry) : list str :=
  concat (map (fun e => map (fun r => lit "  required by " ++ at_version e ++ lit " (>= " ++ formatSemVer (req_min r) ++ lit ")")
                            (filter (fun r => eqs (mid_path (req_mod r)) path = true) (requires_ e))) bl).

Definition cmdWhy (manifestArg path : str) : F -> F * CmdExit := command (
  let! d := dm_get in
  let! (manifestPath, pm) := dm_res (loadManifestForCommand d manifestArg) in
  let! bl := resolveVcsDeps pm true (lockfilePathFor manifestPath) [] in
  match List.find (fun e => eqs (mid_path (ble_mod e)) path) bl with
  | None => dm_err (lit "'" ++ path ++ lit "' is not a selected dependency")
  | Some target =>
      let reasons := why_root path (pm_deps pm) ++ why_entries path bl in
      dm_ret (at_version target ::
              match reasons with
              | [] => [lit "  (not directly required by name — pulled in transitively; see the other selected modules' own requires)"]
              | _ => reasons
              end)
  end).

(** The manifest and the lock have to be there before anything is resolved. *)
Definition load_locked (d : F) (manifestArg : str) : res (str * ProjectManifest) :=
  let? (manifestPath, pm) := loadManifestForCommand d manifestArg in
  match fs_read d (lockfilePathFor manifestPath) with
  | None => Err (lit "no lock found at '" ++ lockfilePathFor manifestPath ++ lit "' — run `trident lock` first")
  | Some _ => Ok (manifestPath, pm)
  end.

(** ** Vendoring *)

(** Unlike [ensureDirRec], without a case for the empty path and the root. *)
Fixpoint make_dirs (fuel : nat) (dir : str) (d : F) : F * bool :=
  match fs_stat d dir with
  | Some Directory => (d, true)
  | Some _ => (d, false)
  | None =>
      let '(d1, ok) := match parent dir, fuel with Some p, S n => make_dirs n p d | _, _ => (d, true) end in
      if ok then mkdir_or_exists dir d1 else (d1, false)
  end.

Definition copyFile (src dst : str) : @DM F unit := fun d =>
  match fs_read d src with
  | None => (d, Err (lit "cannot read '" ++ src ++ lit "'"))
  | Some data =>
      match (match parent dst with Some p => make_dirs (length p) p d | None => (d, true) end) with
      | (d1, false) => (d1, Err (lit "cannot create directory for '" ++ dst ++ lit "'"))
      | (d1, true) => let '(d2, r) := fs_write dst data d1 in (d2, stream_result dst r)
      end
  end.

Fixpoint copy_tree (fuel : nat) (srcDir dstDir : str) : @DM F unit := fun d =>
  match fs_readdir d srcDir with
  | None => (d, Err (lit "cannot open '" ++ srcDir ++ lit "'"))
  | Some names =>
      (fix go (names : list str) : @DM F unit :=
         match names with
         | [] => dm_ret tt
         | name :: names' =>
             if dotted name then go names'
             else
               let sp := srcDir ++ lit "/" ++ name in
               let dp := dstDir ++ lit "/" ++ name in
               let! d1 := dm_get in
               let! _ := match fs_stat d1 sp with
                         | None => dm_err (lit "cannot stat '" ++ sp ++ lit "'")
                         | Some Directory => match fuel with 0 => dm_ret tt | S n => copy_tree n sp dp end
                         | Some _ => copyFile sp dp
                         end in
               go names'
         end) names d
  end.
Definition copyTree (srcDir dstDir : str) : @DM F unit := copy_tree kPathMax srcDir dstDir.

Fixpoint vendor_all (vendorDir : str) (bl : list BuildListEntry) : @DM F unit :=
  match bl with
  | [] => dm_ret tt
  | e :: bl' =>
      let! _ := wrap_err (lit "vendoring " ++ mid_path (ble_mod e) ++ lit ": ")
                  (copyTree (storeDir e) (vendorDir ++ lit "/" ++ serializeModuleId (ble_mod e))) in
      vendor_all vendorDir bl'
  end.

Definition cmdVendor (manifestArg : str) : F -> F * CmdExit := command (
  let! d := dm_get in
  let! (manifestPath, pm) := dm_res (load_locked d manifestArg) in
  let! bl := resolveVcsDeps pm true (lockfilePathFor manifestPath) [] in
  let vendorDir := dirOf manifestPath ++ lit "vendor" in
  let! _ := vendor_all vendorDir bl in
  dm_ret [lit "vendored " ++ to_string (Z.of_nat (length bl)) ++ lit " module(s) into " ++ vendorDir]).

(** ** Yanking *)

Definition yank_module (path : str) (v : Version) : @DM F (list str) :=
  let! d := dm_get in
  let! path' :=
    if uses_index path then
      match lookup_name d tridentIndexEndpoint path with
      | Ok (Some resolved) => dm_ret resolved
      | Ok None => dm_err (lit "package name '" ++ path ++ lit "' is not registered")
      | Err [] => dm_err (lit "package name '" ++ path ++ lit "' is not registered")
      | Err e => dm_err e
      end
    else dm_ret path in
  let! _ := db_yank (MkModuleId path' (if (major v <=? 1)%Z then 1%Z else major v)) v in
  dm_ret [lit "yanked " ++ path' ++ lit "@" ++ formatSemVer v ++ lit " (existing locks remain valid)"].

Definition cmdYank (moduleSpec : str) : F -> F * CmdExit := fun d =>
  match parseVersionedSpec moduleSpec with
  | Err e => (d, Exit 2 [] [error_line e])
  | Ok (path, v) => command (yank_module path v) d
  end.

(** ** Auditing *)

(** [enforceAuditPolicy] of [provenance.cpp], over the effective policy file. *)
Context (enforceAuditPolicy : F -> str -> list BuildListEntry -> res (list str)).

Definition audit_failed (e : str) : str := lit "audit FAILED: " ++ e.

Definition cmdAudit (manifestArg policyPath : str) : F -> F * CmdExit := fun d =>
  match load_locked d manifestArg with
  | Err e => (d, Exit 1 [] [error_line e])
  | Ok (manifestPath, pm) =>
      match resolveVcsDeps pm true (lockfilePathFor manifestPath) [] d with
      | (d1, Err e) => (d1, Exit 1 [] [audit_failed e])
      | (d1, Ok bl) =>
          let oks := map (fun e => lit "OK   " ++ at_version e ++ lit "  sha256:" ++ contentHash e) bl in
          let companion := dirOf manifestPath ++ lit "trident.audit.toml" in
          let effective := match policyPath with
                           | [] => match fs_stat d1 companion with Some RegularFile => companion | _ => [] end
                           | _ => policyPath
                           end in
          let passed := [lit "audit passed: " ++ to_string (Z.of_nat (length bl)) ++ lit " module(s) verified"] in
          match effective with
          | [] => (d1, Exit 0 (oks ++ passed) [])
          | _ => match enforceAuditPolicy d1 effective bl with
                 | Err e => (d1, Exit 1 oks [audit_failed e])
                 | Ok report => (d1, Exit 0 (oks ++ report ++ [lit "policy passed: " ++ effective] ++ passed) [])
                 end
          end
      end
  end.

End Commands.

(** ** The build driver *)

Record Options := MkOptions {
  o_manifestArg : str; o_outOverride : str; o_targetTriple : str; o_planOverride : str;
  o_leviathanOverride : str; o_optLevel : Z; o_useVendor : bool
}.

(** What [dispatch] ends with: an exit code, or the compiler run with arguments. *)
Inductive Dispatched := Code (code : Z) (out : list str) | Invoke (bin : str) (args : list str) | Terminated.

Section Driver.
Context {F : Type} {FS : FileSystem F}.

(** *** Finding the compiler *)

Definition isExecutableFile (d : F) (path : str) : bool := exists_ d path && fs_executable d path.

Fixpoint split_on (sep : ascii) (acc s : str) : list str :=
  match s with
  | [] => [acc]
  | c :: s' => if eqc c sep then acc :: split_on sep [] s' else split_on sep (acc ++ [c]) s'
  end.

Fixpoint first_on_path (d : F) (name : str) (dirs : list str) : str :=
  match dirs with
  | [] => []
  | dir :: dirs' =>
      if negb (eqs dir []) && isExecutableFile d (dir ++ lit "/" ++ name) then dir ++ lit "/" ++ name
      else first_on_path d name dirs'
  end.
Definition findOnPath (d : F) (name : str) : str :=
  match os_getenv (lit "PATH") with None => [] | Some paths => first_on_path d name (split_on ":" [] paths) end.

Definition exeDir : str :=
  match os_self with None | Some [] => [] | Some exe => match parent exe with None => [] | Some dir => dir end end.

(** A candidate with how [tried] names it; the compiler's path, or the names of all the places tried. *)
Fixpoint first_candidate (d : F) (cands : list (str * str)) (tried : list str) : str + list str :=
  match cands with
  | [] => inr tried
  | (note, path) :: cands' =>
      if isExecutableFile d path then inl path else first_candidate d cands' (tried ++ [note])
  end.
Definition findLeviathan (d : F) (flagOverride : str) : str + str :=
  let cands :=
    (match flagOverride with [] => [] | _ => [(lit "--leviathan " ++ flagOverride, flagOverride)] end) ++
    (match os_getenv (lit "LEVIATHAN") with None => [] | Some env => [(lit "$LEVIATHAN=" ++ env, env)] end) ++
    (match exeDir with [] => [] | dir => [(dir ++ lit "/leviathan", dir ++ lit "/leviathan")] end) in
  match first_candidate d cands [] with
  | inl path => inl path
  | inr tried =>
      match findOnPath d (lit "leviathan") with
      | [] => inr (List.concat (List.map (fun n => n ++ lit ", ") tried) ++ lit "PATH")
      | path => inl path
      end
  end.

(** *** Building *)

Context {SRC : Source F} (fuel : nat).

(** Unlike the helpers of the other files, [::mkdir(...) == 0] alone. *)
Definition ensureDir (dir : str) (d : F) : F * bool :=
  match fs_stat d dir with
  | Some Directory => (d, true)
  | Some _ => (d, false)
  | None => let '(d', r) := fs_mkdir dir d in (d', match r with MkdirDone => true | _ => false end)
  end.

Definition build_paths (o : Options) : str * str :=
  match o_planOverride o with
  | [] => (lit "build", lit "build/plan.lvplan")
  | p => (match parent p with None => lit "." | Some dir => dir end, p)
  end.

(** The plan's mode and the compiler's arguments after [--plan <path>]. *)
Definition mode_of (sub : str) (o : Options) (out_ : str) : option (str * list str) :=
  if eqs sub (lit "build") then
    Some (lit "build-native",
          [lit "--build-native"; out_] ++ (match o_targetTriple o with [] => [] | t => [lit "--target"; t] end) ++
          [lit "--opt-level"; to_string (o_optLevel o)])
  else if eqs sub (lit "run") then Some (lit "run", [lit "--run"])
  else if eqs sub (lit "check") then Some (lit "check", [])
  else if eqs sub (lit "emit-llvm") then Some (lit "emit-llvm", [lit "--emit-llvm"])
  else None.

Definition includes_dev (sub : str) : bool :=
  negb (eqs sub (lit "build")) && negb (eqs sub (lit "run")) && negb (eqs sub (lit "emit-llvm")).

Definition default_out (pm : ProjectManifest) : str :=
  match pm_out pm with [] => match pm_name pm with [] => lit "a.out" | n => n end | p => p end.

(** [writeBuildPlan]: the exit code 1 is the result of a stream that is not good. *)
Definition write_plan (planPath : str) (rp : ResolvedProject) (opts : WritePlanOptions) (d : F) (err : list str) : F * list str * bool :=
  match fs_write planPath (writeBuildPlan rp opts) d with
  | (d', IoGood) | (d', IoLost) => (d', err, true)
  | (d', IoNotOpen) => (d', err ++ [error_line (lit "cannot write build plan '" ++ planPath ++ lit "'")], false)
  | (d', IoBad) => (d', err, false)
  end.

Definition run_plan (sub : str) (o : Options) (planPath : str) (pm : ProjectManifest) (rp : ResolvedProject)
    (d : F) (err : list str) : F * list str * Dispatched :=
  let out_ := match o_outOverride o with [] => default_out pm | p => p end in
  let opts mode_ := MkPlanOptions out_ mode_ (o_targetTriple o) (o_optLevel o) in
  if eqs sub (lit "plan") then
    match write_plan planPath rp (opts []) d err with
    | (d1, err1, false) => (d1, err1, Code 1 [])
    | (d1, err1, true) => (d1, err1, Code 0 [planPath])
    end
  else match mode_of sub o out_ with
       | None => (d, err ++ [error_line (lit "unknown subcommand '" ++ sub ++ lit "'")], Code 2 [])
       | Some (mode_, args) =>
           match write_plan planPath rp (opts mode_) d err with
           | (d1, err1, false) => (d1, err1, Code 1 [])
           | (d1, err1, true) =>
               match findLeviathan d1 (o_leviathanOverride o) with
               | inr tried => (d1, err1 ++ [error_line (lit "cannot locate the 'leviathan' executable (tried: " ++ tried ++ lit ")")], Code 1 [])
               | inl bin => (d1, err1, Invoke bin ([lit "--plan"; planPath] ++ args))
               end
           end
       end.

Definition dispatch (sub : str) (o : Options) (d : F) (err : list str) : F * list str * Dispatched :=
  match resolveManifestArg d (o_manifestArg o) with
  | [] => (d, err ++ [error_line (lit "no manifest found (looked for trident.toml in '" ++
                 (match o_manifestArg o with [] => lit "." | a => a end) ++ lit "')")], Code 1 [])
  | manifestPath =>
      let '(buildDir, planPath) := build_paths o in
      match ensureDir buildDir d with
      | (d1, false) => (d1, err ++ [error_line (lit "cannot create build directory '" ++ buildDir ++ lit "'")], Code 1 [])
      | (d1, true) =>
          let vendorDir := if o_useVendor o then dirOf manifestPath ++ lit "vendor" else [] in
          match resolveProject fuel manifestPath buildDir (includes_dev sub) vendorDir d1 err with
          | (d2, err2, Resolved pm rp) => run_plan sub o planPath pm rp d2 err2
          | (d2, err2, Unresolved) => (d2, err2, Code 1 [])
          | (d2, err2, Threw) => (d2, err2, Terminated)
          end
      end
  end.

End Driver.
