(* ===== verification/CommandProps.v ===== *)
(** * What the commands guarantee

    The newest version [update] and a bare [add] pick, what [lock] writes and
    how later commands use it, what a yank blocks, and what the compiler is
    handed by a build; then these and the theorems on resolving, applied on a
    small disk. *)

From S2P Require Import Prelude Token Lexer Toml BuildPlan BuildPlanFacts Manifest Semver Mvs MvsCycle MvsFacts Lock LockCheck Sha256 Checksum Store Disk Resolve ResolveFacts Commands.

Section Facts.
Context {F : Type} {FS : FileSystem F} {DL : DiskLaws F} {SRC : Source F}.

(** ** The newest version *)

Definition unyanked (d : F) (md : ModuleId) (v : Version) : Prop := db_is_yanked d md v = Ok false.

Lemma best_version_spec d md vs best r : best_version d md vs best = Ok r ->
  (forall b, best = Some b -> exists v, r = Some v /\ version_le b v) /\
  (forall v, In v vs -> unyanked d md v -> exists w, r = Some w /\ version_le v w) /\
  (forall w, r = Some w -> best = Some w \/ (In w vs /\ unyanked d md w)).
Proof.
  revert best. induction vs as [|v vs IH]; intros best; cbn [best_version].
  - intros [= <-]. split; [intros b ->; eauto using version_le_refl|]. split; [done|auto].
  - destruct (db_is_yanked d md v) as [[|]|] eqn:Ey; cbn [res_bind]; [| |done]; intros H; apply IH in H as (H1 & H2 & H3).
    + split; [done|]. split.
      * intros x [<-|Hx] Hu; [unfold unyanked in Hu; congruence|auto].
      * intros w Hw. destruct (H3 w Hw) as [?|[? ?]]; [by left|]. right. split; [by right|done].
    + set (b' := match best with None => _ | Some b => _ end) in *.
      assert (exists x, b' = Some x /\ version_le v x /\ (forall b, best = Some b -> version_le b x) /\ (x = v \/ best = Some x)) as (x & Hb' & Hv & Hb & Hx).
      { unfold b'. destruct best as [b|]; [|exists v; split; [done|]; split; [apply version_le_refl|]; split; [done|by left]].
        destruct (0 <? compareSemVer v b)%Z eqn:C.
        - exists v. split; [done|]. split; [apply version_le_refl|]. split; [|auto]. intros ? [= <-]. apply compare_pos in C.
          destruct (version_le_total v b); [done|done].
        - exists b. split; [done|]. apply Z.ltb_ge in C. split; [done|]. split; [intros ? [= <-]; apply version_le_refl|auto]. }
      destruct (H1 x Hb') as (w & Hw & Hle). split; [|split].
      * intros b Eb. exists w. split; [done|]. eapply version_le_trans; [by apply Hb|done].
      * intros y [<-|Hy] Hu; [|auto]. exists w. split; [done|]. by eapply version_le_trans.
      * intros y Hr. destruct (H3 y Hr) as [E|[? ?]]; [|right; split; [by right|done]]. rewrite Hb' in E. injection E as <-.
        destruct Hx as [->|Hx]; [right; split; [by left|done]|by left].
Qed.

(** The version [update] moves a dependency to, and a bare [add] starts
    with, is published, not yanked, and no unyanked version is newer. *)
Theorem highest_version_spec d path mj v :
  highestVersion d path mj = Ok v ->
  exists vs, versions (MkModuleId path mj) = Ok vs /\ In v vs /\ unyanked d (MkModuleId path mj) v /\
    forall w, In w vs -> unyanked d (MkModuleId path mj) w -> version_le w v.
Proof.
  unfold highestVersion. destruct (versions (MkModuleId path mj)) as [[|v0 vs]|]; cbn [res_bind]; [done| |done].
  destruct (best_version d (MkModuleId path mj) (v0 :: vs) None) as [[w|]|] eqn:E; cbn [res_bind]; [|done|done].
  intros [= <-]. apply best_version_spec in E as (_ & H2 & H3). exists (v0 :: vs). split; [done|].
  destruct (H3 w eq_refl) as [?|[Hin Hu]]; [done|]. split; [done|]. split; [done|].
  intros x Hx Hxu. destruct (H2 x Hx Hxu) as (y & [= <-] & Hle). done.
Qed.

(** ** Locking *)

Lemma command_ok (m : @DM F (list str)) d d' out err : command m d = (d', Exit 0 out err) -> m d = (d', Ok out) /\ err = [].
Proof. unfold command. destruct (m d) as [d1 [o|e]]; [|done]. by intros [= <- <- <-]. Qed.

Lemma write_text_ok what path contents d d' : write_text what path contents d = (d', Ok tt) -> fs_read d' path = Some contents.
Proof. unfold write_text. destruct (fs_write path contents d) as [d1 []] eqn:E; [|done|done|by apply write_flushed in E]. intros [= <-]. by eapply write_read. Qed.

Lemma regenerateLock_ok path pm d d' bl : regenerateLock path pm d = (d', Ok bl) ->
  (exists d1, resolveVcsDeps pm true [] [] d = (d1, Ok bl)) /\
  fs_read d' (lockfilePathFor path) = Some (writeLockfile (lockfileFromBuildList bl)).
Proof.
  unfold regenerateLock. intros H. dm_open H. dm_open H. injection H as <- ->. destruct a0. split; [eauto|by eapply write_text_ok].
Qed.

Lemma lock_path_nonempty path : lockfilePathFor path <> [].
Proof. unfold lockfilePathFor. intros E. apply app_eq_nil in E as [_ E]. apply app_eq_nil in E as [_ E]. done. Qed.


(** ** Yanking *)

Lemma db_yank_ok d d' md v es last :
  db_ok checksumDbPath (db_text d) es last -> args_ok md v -> db_yank md v d = (d', Ok tt) -> db_is_yanked d' md v = Ok true.
Proof.
  intros Hdb Ha. pose proof (yank_spec _ _ _ _ md v Hdb Ha) as Hy. unfold db_yank, db_store.
  destruct (existsb _ es); [|by destruct (checksumDbYank _ _ _ _)].
  destruct Hy as (text' & es2 & last' & Hk & _ & Hy & _ & _). rewrite Hk. destruct (eqs text' (db_text d)) eqn:E.
  - apply eqs_eq in E as ->. intros [= <-]. done.
  - intros H. apply append_text in H. unfold db_is_yanked, db_text at 1. rewrite H.
    fold (db_text d). replace (db_text d ++ drop (length (db_text d)) text') with text'; [done|].
    assert (exists more, text' = db_text d ++ more) as [more ->]; [|by rewrite drop_app_length].
    pose proof Hdb as [_ Hl]. unfold checksumDbYank in Hk. rewrite Hl in Hk. cbn [res_bind] in Hk.
    destruct (negb _); [done|]. destruct (yanked _ _ es); injection Hk as <-; [exists []; by rewrite app_nil_r|].
    rewrite append_yank_text. eauto.
Qed.

Lemma check_yanked_fails d es e : In e es -> db_is_yanked d (ble_mod e) (selected e) = Ok true -> is_ok (check_yanked d es) = false.
Proof.
  intros Hin Hy. induction es as [|x es IH]; [done|]. cbn [check_yanked]. destruct Hin as [->|Hin]; [by rewrite Hy|].
  destruct (db_is_yanked d (ble_mod x) (selected x)) as [[]|]; [done|auto|done].
Qed.

(** A yank blocks new resolutions: after [trident yank] succeeds, every
    fresh selection that would use the version fails, while locks are taken as
    before, since the check of a lock does not read the log. *)
Theorem yank_blocks_selection d d' md v es last :
  db_ok checksumDbPath (db_text d) es last -> args_ok md v -> db_yank md v d = (d', Ok tt) ->
  forall roots bl e, selectVersions roots = MkMvsResult true bl [] -> In e bl -> ble_mod e = md -> selected e = v ->
    is_ok (resolve_fresh d' [] roots) = false.
Proof.
  intros Hdb Ha Hy roots bl e Hs Hin <- <-. pose proof (db_yank_ok _ _ _ _ _ _ Hdb Ha Hy) as Hyk.
  unfold resolve_fresh. rewrite eqs_refl, Hs. cbn [negb mvs_ok buildList].
  pose proof (check_yanked_fails d' bl e Hin Hyk) as Hf. by destruct (check_yanked d' bl).
Qed.

(** ** What the compiler is handed *)

Lemma classify_legal base entry : exists ek, parse_entry_kind (classify_entry base entry).1 = Some ek.
Proof. unfold classify_entry. destruct entry; [by exists EntryScript|]. destruct (_ || _); [by exists EntryFile|by exists EntryFunction]. Qed.

Lemma write_plan_ok planPath rp opts d err d' err' : write_plan planPath rp opts d err = (d', err', true) ->
  fs_read d' planPath = Some (writeBuildPlan rp opts).
Proof. unfold write_plan. destruct (fs_write planPath _ d) as [d1 []] eqn:E; [|done|done|by apply write_flushed in E]. intros [= <- _]. by eapply write_read. Qed.

(** The outcomes of [dispatch] that leave a plan behind. *)
Definition planned (r : Dispatched) : Prop :=
  match r with Code code _ => code = 0%Z | Invoke _ _ => True | Terminated => False end.

(** What each command writes as the plan's mode and tells the compiler. *)
Definition plan_mode (sub : str) : option str :=
  snd <$> List.find (fun row => eqs sub (fst row))
    [(lit "plan", []); (lit "build", lit "build-native"); (lit "run", lit "run"); (lit "check", lit "check"); (lit "emit-llvm", lit "emit-llvm")].
Definition compiler_flags (sub : str) (o : Options) (out_ : str) : list str :=
  if decide (sub = lit "build") then
    [lit "--build-native"; out_] ++ (if decide (o_targetTriple o = []) then [] else [lit "--target"; o_targetTriple o])
      ++ [lit "--opt-level"; to_string (o_optLevel o)]
  else if decide (sub = lit "run") then [lit "--run"] else if decide (sub = lit "emit-llvm") then [lit "--emit-llvm"] else [].
Definition output_path (o : Options) (pm : ProjectManifest) : str :=
  match o_outOverride o with [] => default_out pm | p => p end.

Lemma mode_of_spec sub o out_ mode_ args : mode_of sub o out_ = Some (mode_, args) ->
  plan_mode sub = Some mode_ /\ args = compiler_flags sub o out_.
Proof.
  unfold mode_of. destruct (eqs sub (lit "build")) eqn:E1; [apply eqs_eq in E1 as ->; intros [= <- <-]; split; [done|]; unfold compiler_flags;
    rewrite decide_True by done; destruct (o_targetTriple o); [by rewrite decide_True|by rewrite decide_False]|].
  destruct (eqs sub (lit "run")) eqn:E2; [apply eqs_eq in E2 as ->; by intros [= <- <-]|].
  destruct (eqs sub (lit "check")) eqn:E3; [apply eqs_eq in E3 as ->; by intros [= <- <-]|].
  destruct (eqs sub (lit "emit-llvm")) eqn:E4; [apply eqs_eq in E4 as ->; by intros [= <- <-]|done].
Qed.

Lemma findLeviathan_executable d override bin : findLeviathan d override = inl bin -> isExecutableFile d bin = true.
Proof.
  intros Ef. unfold findLeviathan in Ef. set (cands := _ ++ _) in Ef. clearbody cands.
  assert (forall cs tried, match first_candidate d cs tried with inl p => isExecutableFile d p = true | inr _ => True end) as Hc.
  { induction cs as [|[n p] cs IH]; intros tried; cbn [first_candidate]; [done|]. destruct (isExecutableFile d p) eqn:Ex; [done|apply IH]. }
  specialize (Hc cands []). destruct (first_candidate d cands []) as [p|tried]; [by injection Ef as <-|].
  unfold findOnPath in Ef. destruct (os_getenv (lit "PATH")) as [paths|]; [|done].
  assert (forall dirs, first_on_path d (lit "leviathan") dirs = [] \/
    isExecutableFile d (first_on_path d (lit "leviathan") dirs) = true) as Hd.
  { induction dirs as [|dir dirs IH]; cbn [first_on_path]; [by left|].
    destruct (negb (eqs dir []) && isExecutableFile d (dir ++ lit "/" ++ lit "leviathan")) eqn:Ex; [|done].
    right. by apply andb_prop in Ex as [_ ?]. }
  destruct (Hd (split_on ":" [] paths)) as [Hd2|Hd2]; [by rewrite Hd2 in Ef|].
  destruct (first_on_path d (lit "leviathan") (split_on ":" [] paths)); [done|by injection Ef as <-].
Qed.

Lemma run_plan_ok sub o planPath pm rp d err d' err' r :
  run_plan sub o planPath pm rp d err = (d', err', r) -> planned r ->
  exists mode_, plan_mode sub = Some mode_ /\
    fs_read d' planPath = Some (writeBuildPlan rp (MkPlanOptions (output_path o pm) mode_ (o_targetTriple o) (o_optLevel o))) /\
    ((sub = lit "plan" /\ r = Code 0 [planPath]) \/
     exists bin, r = Invoke bin ([lit "--plan"; planPath] ++ compiler_flags sub o (output_path o pm)) /\ isExecutableFile d' bin = true).
Proof.
  unfold run_plan. fold (output_path o pm). destruct (eqs sub (lit "plan")) eqn:Es.
  - apply eqs_eq in Es as ->. destruct (write_plan _ _ _ _ _) as [[d1 e1] [|]] eqn:E; intros [= <- <- <-] Hp; [|done].
    exists []. split; [done|]. split; [by eapply write_plan_ok|]. by left.
  - destruct (mode_of sub o _) as [[mode_ args]|] eqn:Em; [|by intros [= <- <- <-]]. apply mode_of_spec in Em as [Hm ->].
    destruct (write_plan _ _ _ _ _) as [[d1 e1] [|]] eqn:E; [|by intros [= <- <- <-]].
    destruct (findLeviathan d1 (o_leviathanOverride o)) as [bin|tried] eqn:Ef; [|by intros [= <- <- <-]].
    intros [= <- <- <-] _. exists mode_. split; [done|]. split; [by eapply write_plan_ok|]. right. exists bin. split; [done|].
    by eapply findLeviathan_executable.
Qed.

(** The resolved entry is one the plan reader accepts. *)
Lemma resolved_entry fuel manifestPath aliasDir dev vd d err d' err' pm rp :
  resolveProject fuel manifestPath aliasDir dev vd d err = (d', err', Resolved pm rp) ->
  exists ek, parse_entry_kind (rp_entryKind rp) = Some ek.
Proof.
  unfold resolveProject. destruct (fs_read d manifestPath) as [mt|]; [|done]. destruct (parseManifest _ _) as [m0|]; [|done].
  destruct (gather_local _ _ _ _ _) as [e1 [[deps g]|x]]; [|done]. destruct (resolveVcsDeps _ _ _ _ _) as [d1 [bl|x]]; [|done].
  destruct (fold_left _ _ _) as [gather md]. destruct (exports_by_module _ _ _ _ _ _) as [exports|]; [|done].
  destruct (write_aliases _ _ _ _ _ _ _) as [d2 aliases]. destruct (classify_entry _ _) as [kind target] eqn:E.
  intros [= _ _ _ <-]. cbn [rp_entryKind]. pose proof (classify_legal (dirOf manifestPath) (pm_entry (set_deps deps m0))) as H.
  by rewrite E in H.
Qed.

Lemma includes_dev_modes sub mode_ : plan_mode sub = Some mode_ ->
  includes_dev sub = bool_decide (sub = lit "check" \/ sub = lit "plan").
Proof.
  unfold plan_mode. cbn [List.find fst].
  destruct (eqs sub (lit "plan")) eqn:E1; [apply eqs_eq in E1 as ->; done|]. destruct (eqs sub (lit "build")) eqn:E2; [apply eqs_eq in E2 as ->; done|].
  destruct (eqs sub (lit "run")) eqn:E3; [apply eqs_eq in E3 as ->; done|]. destruct (eqs sub (lit "check")) eqn:E4; [apply eqs_eq in E4 as ->; done|].
  destruct (eqs sub (lit "emit-llvm")) eqn:E5; [apply eqs_eq in E5 as ->; done|done].
Qed.

(** The plans of which the reader's acceptance is claimed. *)
Definition readable (rp : ResolvedProject) (opts : WritePlanOptions) : Prop :=
  (0 <= wo_optLevel opts < 2 ^ 31)%Z /\ rp_sources rp <> [] /\ Forall (fun s => rs_path s <> []) (rp_sources rp) /\
  Forall (fun a => ra_rel a <> [] /\ ra_path a <> []) (rp_assets rp) /\
  Forall (fun s => plain_str s /\ no_newline s) (plan_strings rp opts).

Lemma readable_wf rp opts ek : parse_entry_kind (rp_entryKind rp) = Some ek -> readable rp opts ->
  plan_wf rp opts ek /\ Forall plain_str (plan_strings rp opts).
Proof.
  intros Hk (H1 & H2 & H3 & H4 & H5). split; [|eapply Forall_impl; [exact H5|]; by intros s [? _]].
  assert (Forall no_newline (plan_strings rp opts)) as Hn by (eapply Forall_impl; [exact H5|]; by intros s [_ ?]).
  unfold plan_strings in Hn. rewrite !Forall_app in Hn. destruct Hn as (N1 & N2 & N3 & N4).
  apply Forall_concat_map in N2, N3, N4. constructor; [|unfold in_s; lia|done|split; [done|]| |].
  - assert (no_newline (rp_entryKind rp)) as Hkind.
    { unfold parse_entry_kind in Hk. destruct (eqs _ (lit "script")) eqn:E1; [apply eqs_eq in E1 as ->; by repeat constructor|].
      destruct (eqs _ (lit "file")) eqn:E2; [apply eqs_eq in E2 as ->; by repeat constructor|].
      destruct (eqs _ (lit "function")) eqn:E3; [apply eqs_eq in E3 as ->; by repeat constructor|done]. }
    repeat (apply Forall_cons_1 in N1 as [? N1]). by repeat constructor.
  - rewrite Forall_forall in *. eauto.
  - eapply Forall_impl; [exact N3|]. intros e He. repeat (apply Forall_cons_1 in He as [? He]). done.
  - rewrite Forall_forall in *. intros a Ha. destruct (H4 a Ha). eauto.
Qed.


End Facts.

(** * The package manager on a small disk

    A disk held in a finite map and a package source over it, on which the
    theorems on resolving and on the commands are applied, and the projects that
    show where the commands do not do what they mean to. *)

(** ** A disk of files; a directory is a prefix of a file's path *)

Abbreviation ToyDisk := (gmap str str).

Definition below (dir p : str) : option str :=
  let pre := slash_dir dir in if has_at p 0 pre then Some (substr p (length pre) (length p)) else None.
Definition toy_names (d : ToyDisk) (dir : str) : list str :=
  remove_dups (omap (fun kv => match below dir kv.1 with Some r => head (split_slash [] r) | None => None end) (map_to_list d)).
Definition toy_stat (d : ToyDisk) (p : str) : option FileKind :=
  match d !! p with
  | Some _ => Some RegularFile
  | None => match toy_names d p with [] => None | _ => Some Directory end
  end.
Definition toy_rename (from to : str) (d : ToyDisk) : ToyDisk :=
  list_to_map (map (fun kv => (match below from kv.1 with Some r => to ++ lit "/" ++ r | None => kv.1 end, kv.2)) (map_to_list d)).

#[export] Instance ToyFs : FileSystem ToyDisk := {|
  fs_read d p := d !! p;
  fs_stat := toy_stat;
  fs_lstat := toy_stat;
  fs_realpath d p := match toy_stat d p with Some _ => Some p | None => None end;
  fs_readdir d dir := match toy_names d dir with [] => None | names => Some names end;
  fs_glob d pattern := GlobNoMatch;
  fs_write p s d := (<[p := s]> d, IoGood);
  fs_append p s d := (<[p := match d !! p with Some t => t | None => [] end ++ s]> d, IoGood);
  fs_mkdir dir d := (d, MkdirDone);
  fs_rename from to d := (toy_rename from to d, true);
  fs_executable d p := true;
  fs_fnmatch := eqs;
  os_getenv name := if eqs name (lit "TRIDENT_HOME") then Some (lit "/t")
                    else if eqs name (lit "PATH") then Some (lit "/bin") else None;
  os_getpid := 1;
  os_self := None
|}.

#[export] Instance ToyLaws : DiskLaws ToyDisk.
Proof.
  split.
  - intros p s d d' [= <-]. cbn. apply lookup_insert_eq.
  - by intros dir d d' b p [= <- _].
  - intros p s d d' [= <-]. cbn. apply lookup_insert_eq.
  - done.
  - done.
Qed.

(** A source that stores one file per module; the manifests are [mp]'s. *)
Definition toy_fetch (md : ModuleId) (v : Version) (d : ToyDisk) : ToyDisk * res (str * str) :=
  let data := lit "namespace " ++ mid_path md ++ lit " { }" in
  match canonicalContentHash (fun _ => Ok data) [MkStoreFile (lit "lib.lev") []] with
  | Err e => (d, Err e)
  | Ok h => (<[storeRoot ++ lit "/" ++ h ++ lit "/lib.lev" := data]> d, Ok (storeRoot ++ lit "/" ++ h, h))
  end.
Definition toy_source (mp : ModuleProvider) : Source ToyDisk := {|
  source_provider := mp;
  materialize := toy_fetch;
  versions md := Ok [MkVersion 1 0 0; MkVersion 1 1 0]
|}.

#[export] Instance toy_source_laws mp : SourceLaws ToyDisk (SRC := toy_source mp).
Proof.
  split; cbn [materialize toy_source]; intros md v d d'; unfold toy_fetch; destruct (canonicalContentHash _ _) as [h|e] eqn:E.
  - intros r [= <- _]. unfold db_text. cbn [fs_read ToyFs]. rewrite lookup_insert_ne; [done|].
    intros Eq. apply (f_equal (fun s => char_at s 3)) in Eq. done.
  - by intros r [= <- _].
  - intros sd h' [= _ _ <-]. by eapply content_hash_token.
  - done.
Qed.

(** ** A project with two VCS dependencies *)

Definition app_manifest (dev : bool) : ProjectManifest :=
  MkManifest (lit "app") (lit "main") [lit "main.lev"] []
    [MkDep (lit "a") (lit "1.0.0") [] false Local_; MkDep (lit "b") (lit "1.0.0") [] dev Local_] [] [].
Definition app_disk (dev : bool) : ToyDisk :=
  {[lit "/p/trident.toml" := writeManifest (app_manifest dev); lit "/p/main.lev" := lit "int main() { return 0; }";
    lit "/bin/leviathan" := []]}.

Definition lock_app (dev : bool) : ToyDisk * CmdExit := cmdLock (SRC := toy_source diamond) (lit "/p") (app_disk dev).

Example lock_app_succeeds : snd (lock_app false) = Exit 0 [lit "/p/trident.lock"] [].
Proof. vm_compute. reflexivity. Qed.

Definition app_options : Options := MkOptions (lit "/p") [] [] (lit "/p/plan") [] 2 false.
Definition run_app (dev : bool) (sub : string) : ToyDisk * list str * Dispatched :=
  dispatch (SRC := toy_source diamond) 3 (lit sub) app_options (fst (lock_app dev)) [].

(** A development dependency beside another VCS dependency makes the project
    impossible to build: [trident lock] records both, [trident check] accepts the
    lock, and [trident build], which leaves development dependencies out,
    reports the lock as stale; locking again writes the same lock.  Without the
    [dev] flag the same project builds. *)
Theorem dev_dependency_blocks_build :
  snd (lock_app true) = Exit 0 [lit "/p/trident.lock"] [] /\
  snd (run_app true "check") = Invoke (lit "/bin/leviathan") [lit "--plan"; lit "/p/plan"] /\
  (let '(_, err, r) := run_app true "build" in (err, r)) =
    ([lit "error: trident.lock is stale: lock contains modules no longer reachable from the manifest — run `trident lock`"], Code 1 []) /\
  exists args, snd (run_app false "build") = Invoke (lit "/bin/leviathan") args.
Proof.
  split; [vm_compute; reflexivity|]. split; [vm_compute; reflexivity|]. split; [vm_compute; reflexivity|]. eexists. vm_compute. reflexivity.
Qed.

(** A dependency whose path looks like one with a major version, [a@v2] at
    version 1.0.0: its module id is written as [a@v2] and read back as major 2 of
    [a], so [trident lock] succeeds and [trident check] refuses the lock. *)
Definition leaves : ModuleProvider := {| manifestOf _ _ := Ok (manifest_with []) |}.
Definition versioned_disk : ToyDisk :=
  {[lit "/p/trident.toml" := writeManifest (MkManifest (lit "app") (lit "main") [lit "main.lev"] []
      [MkDep (lit "a@v2") (lit "1.0.0") [] false Local_] [] []);
    lit "/p/main.lev" := lit "int main() { return 0; }"; lit "/bin/leviathan" := []]}.

Theorem version_like_path_breaks_lock :
  let locked := cmdLock (SRC := toy_source leaves) (lit "/p") versioned_disk in
  snd locked = Exit 0 [lit "/p/trident.lock"] [] /\
  snd (dispatch (SRC := toy_source leaves) 3 (lit "check") app_options (fst locked) []) = Code 1 [].
Proof. split; vm_compute; reflexivity. Qed.

(** A negative optimisation level is not checked: the plan is written and the compiler
    is run, and its reader does not accept the plan. *)
Definition negative_run : ToyDisk * list str * Dispatched :=
  dispatch (SRC := toy_source diamond) 3 (lit "build") (MkOptions (lit "/p") [] [] (lit "/p/plan") [] (-1) false) (fst (lock_app false)) [].

Theorem negative_opt_level_refused :
  (exists args, snd negative_run = Invoke (lit "/bin/leviathan") args) /\
  exists text, fs_read (fst (fst negative_run)) (lit "/p/plan") = Some text /\
    match readBuildPlan text empty_sink with Some (pl, _) => ok pl = false | None => True end.
Proof.
  split; [eexists; vm_compute; reflexivity|]. eexists. split; [vm_compute; reflexivity|]. vm_compute. reflexivity.
Qed.

(** A disk on which every written file is empty when its stream is destroyed, as a
    full disk leaves it, while the stream was good when it was tested. *)
Definition FullFs : FileSystem ToyDisk := {|
  fs_read := fs_read (FileSystem := ToyFs); fs_stat := fs_stat (FileSystem := ToyFs); fs_lstat := fs_lstat (FileSystem := ToyFs);
  fs_realpath := fs_realpath (FileSystem := ToyFs); fs_readdir := fs_readdir (FileSystem := ToyFs); fs_glob := fs_glob (FileSystem := ToyFs);
  fs_write p s d := (<[p := []]> d, IoLost);
  fs_append p s d := (d, IoLost);
  fs_mkdir := fs_mkdir (FileSystem := ToyFs); fs_rename := fs_rename (FileSystem := ToyFs);
  fs_executable := fs_executable (FileSystem := ToyFs); fs_fnmatch := fs_fnmatch (FileSystem := ToyFs);
  os_getenv := os_getenv (FileSystem := ToyFs); os_getpid := 1; os_self := None
|}.

(** Success is reported for a lock that was not written: [out.good()] is tested
    before the stream is flushed, so a write that fails then goes unnoticed. *)
Theorem lost_lock_goes_unnoticed :
  let '(d, r) := cmdLock (FS := FullFs) (SRC := toy_source diamond) (lit "/p") (app_disk false) in
  r = Exit 0 [lit "/p/trident.lock"] [] /\ d !! lit "/p/trident.lock" = Some [].
Proof. vm_compute. split; reflexivity. Qed.

(** ** The theorems applied *)

(** The manifest as the commands see it, and what it resolves to. *)
Definition app_loaded : ProjectManifest := set_deps (map (set_kind Vcs) (pm_deps (app_manifest false))) (app_manifest false).
Definition app_list : list BuildListEntry := Eval vm_compute in
  match snd (resolveVcsDeps (SRC := toy_source diamond) app_loaded true [] [] (app_disk false)) with Ok bl => bl | Err _ => [] end.

Lemma lock_app_run : cmdLock (SRC := toy_source diamond) (lit "/p") (app_disk false) =
  (fst (lock_app false), Exit 0 [lit "/p/trident.lock"] []).
Proof. rewrite <- lock_app_succeeds. apply surjective_pairing. Qed.

Lemma app_load : loadManifestForCommand (app_disk false) (lit "/p") = Ok (lit "/p/trident.toml", app_loaded).
Proof. vm_compute. reflexivity. Qed.

Lemma app_resolves : snd (resolveVcsDeps (SRC := toy_source diamond) app_loaded true [] [] (app_disk false)) = Ok app_list.
Proof. vm_compute. reflexivity. Qed.

Lemma app_list_printable : Forall printable app_list.
Proof. repeat constructor; cbn; lia. Qed.

Lemma app_list_ids : Forall (fun e => id_ok (ble_mod e)) app_list.
Proof.
  repeat (apply Forall_cons; split; [split; [discriminate|right; split; [reflexivity|by apply plain_no_at]]|]). constructor.
Qed.


Lemma vcs_resolution_sound_witness :
  exists roots, root_requires (pm_deps app_loaded) true = Ok roots /\
    ((roots = [] /\ app_list = []) \/
     (@nil ascii <> [] /\ exists lockText lock rows, fs_read (app_disk false) [] = Some lockText /\ parseLockfile [] lockText = Ok lock /\
        Forall2 reads (lk_modules lock) rows /\ selects_needed rows roots /\ Forall2 locks (lk_modules lock) app_list) \/
     ((@nil ascii = [] \/ fs_read (app_disk false) [] = None) /\ @nil ascii = [] /\
        exists fresh, selectVersions (MP := diamond) roots = MkMvsResult true fresh [] /\ map chosen app_list = map chosen fresh /\
          Forall (fun e => db_is_yanked (app_disk false) (ble_mod e) (selected e) = Ok false) app_list)).
Proof.
  apply (vcs_resolution_sound (SRC := toy_source diamond) app_loaded true [] [] (app_disk false)
    (fst (resolveVcsDeps (SRC := toy_source diamond) app_loaded true [] [] (app_disk false))) app_list).
  rewrite <- app_resolves. apply surjective_pairing.
Defined.

Lemma app_list_args : Forall (fun e => args_ok (ble_mod e) (selected e)) app_list.
Proof.
  repeat (apply Forall_cons; split; [split; [split; [done|repeat constructor]|done|split; cbn; lia|repeat split; cbn; lia]|]). constructor.
Qed.


Lemma vendor_hermetic_witness :
  resolveVcsDeps (SRC := toy_source diamond) app_loaded true (lit "/p/trident.lock") (lit "/p/vendor") (fst (lock_app false)) =
  resolveVcsDeps (SRC := toy_source lowering) app_loaded true (lit "/p/trident.lock") (lit "/p/vendor") (fst (lock_app false)).
Proof.
  exact (proj1 (vendor_hermetic (toy_source diamond) (toy_source lowering) app_loaded true (lit "/p/trident.lock") (lit "/p/vendor")
    (fst (lock_app false)) ltac:(discriminate))).
Defined.

(** Every path the small disk knows is a prefix of a file's path. *)
Definition known_paths (d : ToyDisk) : gset str :=
  list_to_set (concat (map (fun kv => map (fun n => take n kv.1) (seq 0 (S (length kv.1)))) (map_to_list d))).

Lemma known_prefix (d : ToyDisk) k p q : is_Some (d !! k) -> k = p ++ q -> p ∈ known_paths d.
Proof.
  intros [v Hk] ->. apply elem_of_list_to_set, list_elem_of_In, in_concat. eexists. split.
  - apply in_map_iff. exists (p ++ q, v). split; [reflexivity|]. apply list_elem_of_In. by apply elem_of_map_to_list.
  - apply in_map_iff. exists (length p). split; [cbn; apply take_app_length|]. apply in_seq. cbn. rewrite length_app. lia.
Qed.

Lemma toy_stat_known (d : ToyDisk) p k : toy_stat d p = Some k -> p ∈ known_paths d.
Proof.
  unfold toy_stat. destruct (d !! p) as [t|] eqn:E; intros H.
  - apply (known_prefix d p p []); [by rewrite E|by rewrite app_nil_r].
  - destruct (toy_names d p) as [|n ns] eqn:En; [done|].
    assert (n ∈ toy_names d p) as Hn by (rewrite En; by left). apply elem_of_remove_dups, list_elem_of_omap in Hn as ([key v] & Hin & Hb).
    apply elem_of_map_to_list in Hin. cbn [fst] in Hb. unfold below in Hb.
    destruct (has_at key 0 (slash_dir p)) eqn:Eh; [|done]. apply has_at_prefix in Eh.
    assert (exists r, slash_dir p = p ++ r) as [r Hr].
    { unfold slash_dir. destruct (last p) as [c|] eqn:El; [destruct (eqc c "/"); [exists []; by rewrite app_nil_r|eauto]|].
      apply last_None in El as ->. eauto. }
    rewrite Hr, <- app_assoc in Eh. apply (known_prefix d key p (r ++ substr key (length (p ++ r)) (length key))); [by rewrite Hin|exact Eh].
Qed.

Lemma toy_manifests (d : ToyDisk) dir : discoverManifestPath d dir <> [] -> canon d (discoverManifestPath d dir) ∈ known_paths d.
Proof.
  unfold discoverManifestPath, exists_, canon. cbn [fs_stat fs_realpath ToyFs]. set (c := slash_dir _ ++ _).
  destruct (toy_stat d c) as [k|] eqn:E; [|done]. intros _. rewrite E. by eapply toy_stat_known.
Qed.

Lemma resolve_project_ends_witness :
  resolveProject (SRC := toy_source diamond) (S (size (known_paths (app_disk false)))) (lit "/p/trident.toml") (lit "/p/build") true []
    (app_disk false) [] =
  resolveProject (SRC := toy_source diamond) (S (S (size (known_paths (app_disk false))))) (lit "/p/trident.toml") (lit "/p/build") true []
    (app_disk false) [].
Proof.
  exact (resolve_project_ends (app_disk false) (known_paths (app_disk false)) (toy_manifests (app_disk false)) (SRC := toy_source diamond)
    (S (size (known_paths (app_disk false)))) (S (S (size (known_paths (app_disk false))))) (lit "/p/trident.toml") (lit "/p/build") true [] []
    (Nat.lt_succ_diag_r _) (Nat.lt_lt_succ_r _ _ (Nat.lt_succ_diag_r _))).
Defined.

Lemma declared_sources_contained_witness :
  Forall (contained (app_disk false) (package_base (lit "/p"))) [MkStoreFile (lit "main.lev") (lit "/p/main.lev")].
Proof.
  apply (declared_sources_contained (app_disk false) (lit "/p") [lit "main.lev"]). vm_compute. reflexivity.
Defined.

Lemma plan_app_code : snd (run_app false "plan") = Code 0 [lit "/p/plan"].
Proof. vm_compute. reflexivity. Qed.

