(* ===== verification/Value.v ===== *)
(** * Runtime values

    Models the parts of [src/runtime/RuntimeValue.hpp] both engines share:
    values and the heap they point into, stringification, canonical floats,
    Map-key equality, default values and primitive arithmetic.

    A [Value] of the source is a tagged struct; here it is an inductive type,
    and the field readers ([v_i], [v_b], [v_s]) return what the struct holds in
    a field its kind never populates.  [shared_ptr]s are heap locations ([None]
    for null).  A [double] is its 64 bits; arithmetic is that of the Standard
    Library's [SpecFloat] at binary64, up to the bit pattern [nan] of a NaN
    result, which the hardware chooses. *)

From S2P Require Import Prelude Token Utf8.
From Stdlib Require Import SpecFloat.

Local Open Scope Z_scope.

(** A method, accessor or function declaration; [d_id] is its address. *)
Record Decl := MkDecl { d_id : nat; d_nparams : nat; d_name : str }.
Record Slot := MkSlot {
  sl_name : str; sl_source : option str; sl_decl : option Decl; sl_isMethod : bool; sl_distinct : bool; sl_isWeak : bool
}.
Record Symbol := MkSymbol { sy_id : nat; sy_name : str; sy_isValue : bool; sy_slots : list Slot }.

(** A class symbol is compared by address; [sy_id] is that address. *)
#[export] Instance Decl_eq_dec : EqDecision Decl.
Proof. solve_decision. Defined.
#[export] Instance Slot_eq_dec : EqDecision Slot.
Proof. solve_decision. Defined.
#[export] Instance Symbol_eq_dec : EqDecision Symbol.
Proof. solve_decision. Defined.

Abbreviation loc := nat.

Inductive Value :=
| VVoid | VInt (i : Z) | VFloat (bits : Z) | VBool (b : bool) | VString (s : str)
| VObject (p : option loc) | VClosure (p : option loc) | VArray (p : option loc) | VMap (p : option loc)
| VNone | VChar (i : Z) | VBlock (p : option loc) | VAst (p : option loc) (s : str).

Record Object := MkObject { o_cls : option Symbol; fields : gmap str Value; weakFields : gmap str loc }.

(** A lambda with the environment it closed over; the IR's closures have no
    [lambda] and keep their function's index in [env[0]]. *)
Record Closure := MkClosure {
  c_lambda : option nat; c_env : list (gmap str Value); c_thisObj : option loc; c_thisClass : option Symbol
}.
(** A window into a shared byte buffer. *)
Record BlockData := MkBlockData { b_bytes : option loc; b_off : Z; b_len : Z }.

(** What a [shared_ptr] owns. *)
Inductive Cell :=
| CObj (o : Object) | CArr (xs : list Value) | CMap (es : list (Value * Value)) | CClos (c : Closure)
| CBlock (b : BlockData) | CBytes (bs : list Z) | CAst.

Abbreviation Heap := (gmap loc Cell).
Definition h_obj (h : Heap) (p : loc) : option Object := match h !! p with Some (CObj o) => Some o | _ => None end.
Definition h_arr (h : Heap) (p : loc) : option (list Value) := match h !! p with Some (CArr xs) => Some xs | _ => None end.
Definition h_map (h : Heap) (p : loc) : option (list (Value * Value)) := match h !! p with Some (CMap es) => Some es | _ => None end.
Definition h_clos (h : Heap) (p : loc) : option Closure := match h !! p with Some (CClos c) => Some c | _ => None end.
Definition h_block (h : Heap) (p : loc) : option BlockData := match h !! p with Some (CBlock b) => Some b | _ => None end.

(** [a.kind != b.kind]. *)
Definition kind (v : Value) : Z :=
  match v with
  | VVoid => 0 | VInt _ => 1 | VFloat _ => 2 | VBool _ => 3 | VString _ => 4 | VObject _ => 5 | VClosure _ => 6
  | VArray _ => 7 | VMap _ => 8 | VNone => 9 | VChar _ => 10 | VBlock _ => 11 | VAst _ _ => 12
  end.
Definition same_kind (a b : Value) : bool := kind a =? kind b.

Definition v_i (v : Value) : Z := match v with VInt i | VChar i => i | _ => 0 end.
Definition v_b (v : Value) : bool := match v with VBool b => b | _ => false end.
Definition v_s (v : Value) : str := match v with VString s | VAst _ s => s | _ => [] end.

(** ** Floats *)

Definition kPrec : Z := 53.
Definition kEmax : Z := 1024.
Definition kNaN : Z := 9221120237041090560.   (* 0x7FF8000000000000 *)
Definition kExpMask : Z := 9218868437227405312. (* 0x7FF0000000000000 *)
Definition kFracMask : Z := 4503599627370495. (* 0x000FFFFFFFFFFFFF *)

Definition of_bits (b : Z) : spec_float :=
  let sign := Z.testbit b 63 in
  let e := Z.land (Z.shiftr b 52) 2047 in
  let m := Z.land b kFracMask in
  if e =? 2047 then if m =? 0 then S754_infinity sign else S754_nan
  else if e =? 0 then match m with Zpos p => S754_finite sign p (-1074) | _ => S754_zero sign end
  else match m + 2 ^ 52 with Zpos p => S754_finite sign p (e - 1075) | _ => S754_zero sign end.

Definition to_bits (nan : Z) (x : spec_float) : Z :=
  let s (b : bool) := if b then 2 ^ 63 else 0 in
  match x with
  | S754_zero b => s b
  | S754_infinity b => s b + kExpMask
  | S754_nan => nan
  | S754_finite b p e => s b + if Zpos p <? 2 ^ 52 then Zpos p else (e + 1075) * 2 ^ 52 + (Zpos p - 2 ^ 52)
  end.

(** [(double)i]. *)
Definition f_of_int (i : Z) : spec_float := binary_normalize kPrec kEmax i 0 false.

(** [std::to_string(double)]: [%f], six decimals of the exact value, half to even. *)
Definition div_half_even (n d : Z) : Z :=
  let q := n / d in
  let r := n mod d in
  if 2 * r <? d then q else if d <? 2 * r then q + 1 else if Z.even q then q else q + 1.
Definition sign_text (b : bool) : str := if b then lit "-" else [].
Definition pad6 (s : str) : str := repeat ("0"%char) (6 - length s) ++ s.
Definition float_text (b : Z) : str :=
  match of_bits b with
  | S754_nan => sign_text (Z.testbit b 63) ++ lit "nan"
  | S754_infinity s => sign_text s ++ lit "inf"
  | S754_zero s => sign_text s ++ lit "0.000000"
  | S754_finite s p e =>
      let micro := if 0 <=? e then Zpos p * 2 ^ e * 1000000 else div_half_even (Zpos p * 1000000) (2 ^ (- e)) in
      sign_text s ++ dec_nat (micro / 1000000) ++ lit "." ++ pad6 (dec_nat (micro mod 1000000))
  end.

(** [lv_canon]: integer tests only. *)
Definition lv_canon (b : Z) : Z :=
  let is_nan := (Z.land b kExpMask =? kExpMask) && negb (Z.land b kFracMask =? 0) in
  let is_zero := wrap_u 64 (Z.shiftl b 1) =? 0 in
  if is_nan then kNaN else if is_zero then 0 else b.

(** ** Stringification; [None] when the fuel (nesting depth) runs out. *)

Fixpoint join (sep : str) (l : list str) : str :=
  match l with [] => [] | [x] => x | x :: l' => x ++ sep ++ join sep l' end.

Fixpoint sequence {A} (l : list (option A)) : option (list A) :=
  match l with
  | [] => Some []
  | None :: _ => None
  | Some x :: l' => match sequence l' with Some xs => Some (x :: xs) | None => None end
  end.

Definition range_text (o : Object) : option str :=
  match o_cls o with
  | Some c => if eqs (sy_name c) (lit "Range") then
      match fields o !! lit "start", fields o !! lit "end" with
      | Some s, Some e => Some (to_string (v_i s) ++ lit ".." ++ to_string (v_i e))
      | _, _ => None
      end else None
  | None => None
  end.

Fixpoint valueToString (fuel : nat) (h : Heap) (v : Value) : option str :=
  match fuel with
  | O => None
  | S f =>
      match v with
      | VInt i => Some (to_string i)
      | VChar i => Some (utf8Encode i)
      | VBool b => Some (if b then lit "true" else lit "false")
      | VFloat b => Some (float_text b)
      | VString s => Some s
      | VObject p =>
          match p with
          | Some a => match h_obj h a with
                      | Some o => Some (match range_text o with Some t => t | None => lit "<object>" end)
                      | None => None
                      end
          | None => Some (lit "<object>")
          end
      | VClosure _ => Some (lit "<closure>")
      | VArray p =>
          match p with
          | Some a => match h_arr h a with
                      | Some xs => option_map (fun ts => lit "[" ++ join (lit ", ") ts ++ lit "]") (sequence (map (valueToString f h) xs))
                      | None => None
                      end
          | None => Some (lit "[]")
          end
      | VMap p =>
          match p with
          | Some a => match h_map h a with
                      | Some es => option_map (fun ts => lit "{" ++ join (lit ", ") ts ++ lit "}")
                          (sequence (map (fun kv => match valueToString f h (fst kv), valueToString f h (snd kv) with
                                                    | Some k, Some x => Some (k ++ lit ": " ++ x)
                                                    | _, _ => None
                                                    end) es))
                      | None => None
                      end
          | None => Some (lit "{}")
          end
      | VNone => Some (lit "None")
      | VVoid => Some []
      | VBlock p =>
          match p with
          | Some a => option_map (fun b => lit "Block(len=" ++ to_string (b_len b) ++ lit ")") (h_block h a)
          | None => Some (lit "Block(len=0)")
          end
      | VAst _ s => Some (lit "Ast(" ++ (match s with [] => lit "empty" | _ => s end) ++ lit ")")
      end
  end.

(** ** Map-key equality *)

Definition same_class (a b : Object) : bool :=
  match o_cls a, o_cls b with Some c, Some d => bool_decide (c = d) && sy_isValue c | _, _ => false end.

(** The loop over [a.obj->fields], with its early exits. *)
Fixpoint fields_equal (eq : Value -> Value -> option bool) (l : list (str * Value)) (m : gmap str Value) : option bool :=
  match l with
  | [] => Some true
  | (k, av) :: l' =>
      match m !! k with
      | None => Some false
      | Some bv => match eq av bv with Some true => fields_equal eq l' m | r => r end
      end
  end.

Fixpoint keyEquals (fuel : nat) (h : Heap) (a b : Value) : option bool :=
  match fuel with
  | O => None
  | S f =>
      if negb (same_kind a b) then Some false
      else
        match a, b with
        | VInt x, VInt y => Some (x =? y)
        | VChar x, VChar y => Some (x =? y)
        | VString x, VString y => Some (eqs x y)
        | VBool x, VBool y => Some (Bool.eqb x y)
        | VFloat x, VFloat y => Some (lv_canon x =? lv_canon y)
        | VObject p, VObject q =>
            match p, q with
            | Some pa, Some pb =>
                match h_obj h pa, h_obj h pb with
                | Some oa, Some ob =>
                    if same_class oa ob then
                      if (size (fields oa) =? size (fields ob))%nat
                      then fields_equal (keyEquals f h) (map_to_list (fields oa)) (fields ob) else Some false
                    else Some (bool_decide (p = q))
                | _, _ => None
                end
            | _, _ => Some (bool_decide (p = q))
            end
        | VNone, VNone => Some true
        | VBlock p, VBlock q => Some (bool_decide (p = q))
        | VAst p _, VAst q _ => Some (bool_decide (p = q))
        | _, _ => Some false
        end
  end.

(** ** Default values *)

(** [unionMembersOf]: one character; the state is the depth, the start of the
    current member and the members found.  [i - 1 - start] is a [size_t]: when
    it wraps, [substr] takes the rest of the text. *)
Definition bracket (c : ascii) : Z := if eqc c "<" || eqc c "(" then 1 else if eqc c ">" || eqc c ")" then -1 else 0.
Definition union_step (s : str) (st : Z * nat * list str) (i : nat) : Z * nat * list str :=
  let '(depth, start, out) := st in
  let c := char_at s i in
  if eqc c "<" || eqc c "(" then (depth + 1, start, out)
  else if eqc c ">" || eqc c ")" then (depth - 1, start, out)
  else if (depth =? 0) && eqc c "|" && (0 <? i)%nat && eqc (char_at s (i - 1)) c_sp
          && (i + 1 <? length s)%nat && eqc (char_at s (i + 1)) c_sp
  then (depth, (i + 2)%nat, out ++ [if (i - 1 <? start)%nat then drop start s else substr s start (i - 1 - start)])
  else st.
Definition unionMembersOf (canonical : str) : list str :=
  let '(_, start, out) := fold_left (union_step canonical) (seq 0 (length canonical)) (0, 0%nat, []) in
  out ++ [drop start canonical].

(** A default value; arrays and maps are fresh and empty. *)
Inductive Default := DVal (v : Value) | DArray | DMap.

Definition scalar_default (c : str) : Default :=
  if eqs c (lit "None") then DVal VNone
  else if eqs c (lit "int") then DVal (VInt 0)
  else if eqs c (lit "char") then DVal (VChar 0)
  else if eqs c (lit "bool") then DVal (VBool false)
  else if eqs c (lit "float") then DVal (VFloat 0)
  else if eqs c (lit "string") then DVal (VString [])
  else if has_at c 0 (lit "Array") then DArray
  else if has_at c 0 (lit "Map") then DMap
  else DVal VVoid.

Fixpoint defaultForCanonical (fuel : nat) (c : str) : option Default :=
  match fuel with
  | O => None
  | S f =>
      match unionMembersOf c with
      | (m0 :: _ :: _) as members =>
          if existsb (eqs (lit "None")) members then Some (DVal VNone) else defaultForCanonical f m0
      | _ => Some (scalar_default c)
      end
  end.

(** ** Primitive arithmetic *)

(** What an operation does: a value, an exception the caller raises, undefined
    behaviour of the host (signed overflow, [LLONG_MIN / -1]), or no answer
    within the stringification fuel. *)
Inductive Outcome := Ret_ (v : Value) | Raise (msg : str) | Undef | NoFuel.

Definition int64 (z : Z) : Outcome := if (- 2 ^ 63 <=? z) && (z <? 2 ^ 63) then Ret_ (VInt z) else Undef.

(** The fallback on the [i] fields. *)
Definition arith_int (op : TokenKind) (a b : Z) : Outcome :=
  match op with
  | TkPlus => int64 (a + b)
  | TkMinus => int64 (a - b)
  | TkStar => int64 (a * b)
  | TkSlash => if b =? 0 then Raise (lit "division by zero") else int64 (Z.quot a b)
  | TkPercent => if b =? 0 then Raise (lit "modulo by zero") else if (a =? - 2 ^ 63) && (b =? -1) then Undef else Ret_ (VInt (Z.rem a b))
  | TkEqEq => Ret_ (VBool (a =? b))
  | TkBangEq => Ret_ (VBool (negb (a =? b)))
  | TkLt => Ret_ (VBool (a <? b))
  | TkGt => Ret_ (VBool (b <? a))
  | TkLe => Ret_ (VBool (a <=? b))
  | TkGe => Ret_ (VBool (b <=? a))
  | TkPipe => Ret_ (VInt (Z.lor a b))
  | TkAmp => Ret_ (VInt (Z.land a b))
  | TkCaret => Ret_ (VInt (Z.lxor a b))
  | TkLtLt => if (b <? 0) || (63 <? b) then Raise (lit "shift count out of range") else Ret_ (VInt (wrap_s 64 (Z.shiftl a b)))
  | TkGtGt => if (b <? 0) || (63 <? b) then Raise (lit "shift count out of range") else Ret_ (VInt (Z.shiftr a b))
  | _ => Ret_ VVoid
  end.

Definition arith_char (op : TokenKind) (a b : Z) : Outcome :=
  match op with
  | TkEqEq | TkBangEq | TkLt | TkGt | TkLe | TkGe => arith_int op a b
  | _ => Ret_ VVoid
  end.

Section Float.
Context (nan : Z).

Definition f_cmp (test : comparison -> bool) (a b : spec_float) : bool :=
  match SFcompare a b with Some c => test c | None => false end.
Definition arith_float (op : TokenKind) (a b : spec_float) : Outcome :=
  match op with
  | TkPlus => Ret_ (VFloat (to_bits nan (SFadd kPrec kEmax a b)))
  | TkMinus => Ret_ (VFloat (to_bits nan (SFsub kPrec kEmax a b)))
  | TkStar => Ret_ (VFloat (to_bits nan (SFmul kPrec kEmax a b)))
  | TkSlash => Ret_ (VFloat (to_bits nan (SFdiv kPrec kEmax a b)))
  | TkEqEq => Ret_ (VBool (f_cmp (fun c => match c with Eq => true | _ => false end) a b))
  | TkBangEq => Ret_ (VBool (negb (f_cmp (fun c => match c with Eq => true | _ => false end) a b)))
  | TkLt => Ret_ (VBool (f_cmp (fun c => match c with Lt => true | _ => false end) a b))
  | TkGt => Ret_ (VBool (f_cmp (fun c => match c with Gt => true | _ => false end) a b))
  | TkLe => Ret_ (VBool (f_cmp (fun c => match c with Gt => false | _ => true end) a b))
  | TkGe => Ret_ (VBool (f_cmp (fun c => match c with Lt => false | _ => true end) a b))
  | _ => Ret_ VVoid
  end.

(** The operand pairs of the float branch, promoted. *)
Definition float_operands (l r : Value) : option (spec_float * spec_float) :=
  match l, r with
  | VFloat a, VFloat b => Some (of_bits a, of_bits b)
  | VFloat a, VInt b => Some (of_bits a, f_of_int b)
  | VInt a, VFloat b => Some (f_of_int a, of_bits b)
  | _, _ => None
  end.

Definition is_none (v : Value) : bool := match v with VNone => true | _ => false end.
Definition is_string (v : Value) : bool := match v with VString _ => true | _ => false end.

Definition arith_rest (op : TokenKind) (l r : Value) : Outcome :=
  match float_operands l r with
  | Some (a, b) => arith_float op a b
  | None => arith_int op (v_i l) (v_i r)
  end.

Definition arithPrim (fuel : nat) (h : Heap) (op : TokenKind) (l r : Value) : Outcome :=
  if is_none l || is_none r then
    match op with
    | TkEqEq => Ret_ (VBool (same_kind l r))
    | TkBangEq => Ret_ (VBool (negb (same_kind l r)))
    | TkLt | TkGt | TkLe | TkGe => Ret_ (VBool false)
    | _ => Ret_ VVoid
    end
  else
    match l, r with
    | VBool a, VBool b =>
        match op with
        | TkEqEq => Ret_ (VBool (Bool.eqb a b)) | TkBangEq => Ret_ (VBool (negb (Bool.eqb a b))) | _ => Ret_ VVoid
        end
    | VBlock p, VBlock q =>
        match op with
        | TkEqEq => Ret_ (VBool (bool_decide (p = q))) | TkBangEq => Ret_ (VBool (negb (bool_decide (p = q)))) | _ => Ret_ VVoid
        end
    | VChar a, VChar b => arith_char op a b
    | _, _ =>
        if is_string l || is_string r then
          match op with
          | TkPlus => match valueToString fuel h l, valueToString fuel h r with
                      | Some a, Some b => Ret_ (VString (a ++ b))
                      | _, _ => NoFuel
                      end
          | TkEqEq => Ret_ (VBool (eqs (v_s l) (v_s r)))
          | TkBangEq => Ret_ (VBool (negb (eqs (v_s l) (v_s r))))
          | TkLt => Ret_ (VBool (str_ltb (v_s l) (v_s r)))
          | TkGt => Ret_ (VBool (str_ltb (v_s r) (v_s l)))
          | TkLe => Ret_ (VBool (negb (str_ltb (v_s r) (v_s l))))
          | TkGe => Ret_ (VBool (negb (str_ltb (v_s l) (v_s r))))
          | _ => arith_rest op l r
          end
        else arith_rest op l r
    end.

End Float.
