(* ===== verification/ValueFacts.v ===== *)
(** * Facts about runtime values

    Key equality is symmetric and transitive, canonical floats are exactly the
    classes it should have, integer arithmetic is exact or says so, and default
    values exist for every type text. *)

From S2P Require Import Prelude Token Utf8 Value.
From Stdlib Require Import SpecFloat.

Local Open Scope Z_scope.

(** ** Key equality *)

Lemma fields_equal_true eq l m : fields_equal eq l m = Some true <->
  forall k av, In (k, av) l -> exists bv, m !! k = Some bv /\ eq av bv = Some true.
Proof.
  induction l as [|[k av] l IH]; cbn [fields_equal]; [by split|]. split.
  - destruct (m !! k) as [bv|] eqn:E; [|done]. destruct (eq av bv) as [[]|] eqn:Eq; try done. rewrite IH.
    intros H k' av' [[= <- <-]|Hin]; [by exists bv|by apply H].
  - intros H. destruct (H k av) as (bv & -> & ->); [by left|]. apply IH. intros. apply H. by right.
Qed.

(** Two objects whose fields are compared one by one. *)
Definition fields_match (eq : Value -> Value -> option bool) (m1 m2 : gmap str Value) : Prop :=
  size m1 = size m2 /\ forall k av, m1 !! k = Some av -> exists bv, m2 !! k = Some bv /\ eq av bv = Some true.

Lemma fields_match_dom eq m1 m2 : fields_match eq m1 m2 -> forall k, is_Some (m1 !! k) <-> is_Some (m2 !! k).
Proof.
  intros [Hs Hm] k. assert (dom m1 = dom m2) as Hd.
  { apply set_eq_subseteq. assert (dom m1 ⊆ dom m2) as Hsub.
    { intros j. rewrite !elem_of_dom. intros [av Hj]. destruct (Hm j av Hj) as (bv & -> & _). by eexists. }
    split; [done|]. destruct (decide (dom m2 ⊆ dom m1)) as [|Hn]; [done|]. exfalso.
    assert (dom m1 ⊂ dom m2) as Hlt by done. apply subset_size in Hlt. rewrite !size_dom in Hlt. lia. }
  by rewrite <- !elem_of_dom, Hd.
Qed.

Lemma keyEquals_S f h a b : keyEquals (S f) h a b = Some true <->
  match a, b with
  | VInt x, VInt y | VChar x, VChar y => x = y
  | VString x, VString y => x = y
  | VBool x, VBool y => x = y
  | VFloat x, VFloat y => lv_canon x = lv_canon y
  | VObject (Some p), VObject (Some q) =>
      exists oa ob, h_obj h p = Some oa /\ h_obj h q = Some ob /\
        (same_class oa ob = true /\ fields_match (keyEquals f h) (fields oa) (fields ob) \/
         same_class oa ob = false /\ p = q)
  | VObject p, VObject q | VBlock p, VBlock q | VAst p _, VAst q _ => p = q
  | VNone, VNone => True
  | _, _ => False
  end.
Proof.
  assert (forall x y : bool, Some x = Some y <-> x = y) as Hso by (split; [by intros [=]|by intros ->]).
  destruct a as [|x|x|x|x|p|p|p|p| |x|p|p x], b as [|y|y|y|y|q|q|q|q| |y|q|q y]; cbn [keyEquals]; try (cbn; split; [discriminate|done]);
    try (destruct p; cbn; (split; [discriminate|done]));
    try (change (negb (same_kind _ _)) with false; cbv iota; rewrite Hso, ?Z.eqb_eq, ?eqs_eq, ?eqb_true_iff, ?bool_decide_eq_true; done).
  - destruct p as [p|], q as [q|]; cbn [same_kind kind Z.eqb Pos.eqb negb];
      try (rewrite Hso, bool_decide_eq_true; done).
    destruct (h_obj h p) as [oa|] eqn:Ea; [|split; [done|intros (? & ? & ? & _); done]].
    destruct (h_obj h q) as [ob|] eqn:Eb; [|split; [done|intros (? & ? & _ & ? & _); done]].
    assert (fields_equal (keyEquals f h) (map_to_list (fields oa)) (fields ob) = Some true <->
      forall k av, fields oa !! k = Some av -> exists bv, fields ob !! k = Some bv /\ keyEquals f h av bv = Some true) as Hf.
    { rewrite fields_equal_true. split; intros H k av Hk; apply H.
      - by apply list_elem_of_In, elem_of_map_to_list.
      - by apply list_elem_of_In, elem_of_map_to_list in Hk. }
    split.
    + intros H. exists oa, ob. split; [done|]. split; [done|]. destruct (same_class oa ob); [left|right].
      * split; [done|]. destruct (Nat.eqb_spec (size (fields oa)) (size (fields ob))); [|done]. split; [done|]. by apply Hf.
      * rewrite Hso, bool_decide_eq_true in H. split; [done|congruence].
    + intros (oa' & ob' & [= <-] & [= <-] & [[-> [Hs Hm]]|[-> ->]]).
      * rewrite Hs, Nat.eqb_refl. by apply Hf.
      * by rewrite bool_decide_eq_true_2.
Qed.

Lemma same_class_spec oa ob : same_class oa ob = true <-> exists c, o_cls oa = Some c /\ o_cls ob = Some c /\ sy_isValue c = true.
Proof.
  unfold same_class. destruct (o_cls oa) as [c|], (o_cls ob) as [d|].
  - rewrite andb_true_iff, bool_decide_eq_true. split; [intros [-> H]; eauto|]. intros (e & [= <-] & [= <-] & H). done.
  - split; [done|]. by intros (? & _ & ? & _).
  - split; [done|]. by intros (? & ? & _).
  - split; [done|]. by intros (? & ? & _).
Qed.

Lemma keyEquals_sym n h a b : keyEquals n h a b = Some true -> keyEquals n h b a = Some true.
Proof.
  revert a b. induction n as [|n IH]; intros a b; [done|]. rewrite !keyEquals_S.
  destruct a as [| | | | |[p|]| | | | | | |], b as [| | | | |[q|]| | | | | | |]; try done.
  intros (oa & ob & Ha & Hb & H). exists ob, oa. split; [done|]. split; [done|]. destruct H as [[Hc Hm]|[Hc ->]].
  - left. apply same_class_spec in Hc as (c & E1 & E2 & E3). split; [apply same_class_spec; eauto|].
    pose proof (fields_match_dom _ _ _ Hm) as Hd. destruct Hm as [Hs Hm]. split; [done|]. intros k bv Hk.
    destruct (proj2 (Hd k)) as [av Hav]; [by exists bv|]. exists av. split; [done|].
    destruct (Hm k av Hav) as (bv' & E & Heq). rewrite Hk in E. injection E as <-. by apply IH.
  - right. rewrite Ha in Hb. injection Hb as <-. done.
Qed.

Lemma keyEquals_trans n h a b c : keyEquals n h a b = Some true -> keyEquals n h b c = Some true -> keyEquals n h a c = Some true.
Proof.
  revert a b c. induction n as [|n IH]; intros a b c; [done|]. rewrite !keyEquals_S.
  destruct a as [| | | | |[p|]| | | | | | |], b as [| | | | |[q|]| | | | | | |], c as [| | | | |[r|]| | | | | | |]; try done;
    try (intros; congruence).
  intros (oa & ob & Ha & Hb & H1) (ob' & oc & Hb' & Hc & H2). rewrite Hb in Hb'. injection Hb' as <-.
  exists oa, oc. split; [done|]. split; [done|]. destruct H1 as [[Hc1 [Hs1 Hm1]]|[Hc1 ->]].
  - left. apply same_class_spec in Hc1 as (c & E1 & E2 & E3). destruct H2 as [[Hc2 [Hs2 Hm2]]|[Hc2 ->]].
    + apply same_class_spec in Hc2 as (d & F1 & F2 & _). split; [apply same_class_spec; exists c; split_and!; congruence|].
      split; [lia|]. intros k av Hk. destruct (Hm1 k av Hk) as (bv & Hbv & Hab). destruct (Hm2 k bv Hbv) as (cv & Hcv & Hbc).
      exists cv. split; [done|]. by eapply IH.
    + rewrite Hb in Hc. injection Hc as <-. split; [apply same_class_spec; eauto|]. split; [done|]. apply Hm1.
  - rewrite Ha in Hb. injection Hb as <-. exact H2.
Qed.

Definition scalar (a : Value) : bool :=
  match a with VInt _ | VChar _ | VString _ | VBool _ | VFloat _ | VNone => true | _ => false end.

(** Map keys are compared by an equivalence: [keyEquals] is symmetric and
    transitive on all values (structs compared field by field, to any depth,
    included), and every number, character, string, boolean, [None] and float,
    NaN too, equals itself, so a map never holds a scalar key it cannot find
    again. *)
Theorem key_equals_equivalence (h : Heap) (fuel : nat) :
  (forall a b, keyEquals fuel h a b = Some true -> keyEquals fuel h b a = Some true) /\
  (forall a b c, keyEquals fuel h a b = Some true -> keyEquals fuel h b c = Some true -> keyEquals fuel h a c = Some true) /\
  (forall a, scalar a = true -> keyEquals (S fuel) h a a = Some true).
Proof.
  split_and!; [apply keyEquals_sym|apply keyEquals_trans|]. intros a Ha. apply keyEquals_S. by destruct a.
Qed.

(** ** Canonical floats *)

Lemma land_exp b : Z.land b kExpMask = Z.shiftl (Z.land (Z.shiftr b 52) 2047) 52.
Proof.
  change kExpMask with (Z.shiftl 2047 52). apply Z.bits_inj'. intros n Hn.
  rewrite Z.land_spec. destruct (Z.ltb_spec n 52).
  - rewrite !Z.shiftl_spec_low by lia. apply andb_false_r.
  - rewrite !Z.shiftl_spec, Z.land_spec, Z.shiftr_spec by lia. do 2 f_equal. lia.
Qed.

Lemma is_nan_spec b : (Z.land b kExpMask =? kExpMask) && negb (Z.land b kFracMask =? 0) =
  match of_bits b with S754_nan => true | _ => false end.
Proof.
  unfold of_bits. rewrite land_exp. change kExpMask with (Z.shiftl 2047 52). rewrite !Z.shiftl_mul_pow2 by lia.
  destruct (Z.eqb_spec (Z.land (Z.shiftr b 52) 2047) 2047) as [->|Hne].
  - rewrite Z.eqb_refl. cbn [andb]. by destruct (Z.land b kFracMask =? 0).
  - destruct (Z.eqb_spec (Z.land (Z.shiftr b 52) 2047 * 2 ^ 52) (2047 * 2 ^ 52)); [lia|]. cbn [andb].
    destruct (Z.land (Z.shiftr b 52) 2047 =? 0); [by destruct (Z.land b kFracMask)|]. by destruct (_ + _).
Qed.

Lemma is_zero_spec b : in_u 64 b -> (wrap_u 64 (Z.shiftl b 1) =? 0) = true <-> b = 0 \/ b = 2 ^ 63.
Proof.
  unfold in_u, wrap_u. intros Hb. rewrite Z.eqb_eq, Z.shiftl_mul_pow2 by lia. change (2 ^ 1) with 2.
  change (2 ^ 64) with 18446744073709551616 in *. change (2 ^ 63) with 9223372036854775808. dlia.
Qed.

Definition is_nan (b : Z) : Prop := of_bits b = S754_nan.
Definition is_zero (b : Z) : Prop := b = 0 \/ b = 2 ^ 63.

Lemma canon_cases b : in_u 64 b ->
  is_nan b /\ lv_canon b = kNaN \/ is_zero b /\ ~ is_nan b /\ lv_canon b = 0 \/ ~ is_nan b /\ ~ is_zero b /\ lv_canon b = b.
Proof.
  intros Hb. unfold lv_canon, is_nan. rewrite is_nan_spec. pose proof (is_zero_spec b Hb) as Hz.
  destruct (of_bits b) eqn:E; try (by left); right;
    (destruct (wrap_u 64 (Z.shiftl b 1) =? 0); [left; split_and!; [by apply Hz|done|done]|right; split_and!; [done| |done]]);
    intros H; apply Hz in H; done.
Qed.

(** The canonical float relation: two floats are the same Map key exactly
    when both are NaN (whatever the sign and payload), both are zero (whatever
    the sign), or they have the same bits. *)
Theorem canon_classes (a b : Z) : in_u 64 a -> in_u 64 b ->
  lv_canon a = lv_canon b <-> is_nan a /\ is_nan b \/ is_zero a /\ is_zero b \/ a = b.
Proof.
  intros Ha Hb. assert (is_nan kNaN) as Hk by (vm_compute; reflexivity).
  assert (forall z, is_zero z -> ~ is_nan z) as Hzn by (intros z [-> | ->]; vm_compute; discriminate).
  assert (kNaN <> 0) as Hk0 by done.
  assert (is_zero 0) as Hz0 by by left.
  destruct (canon_cases a Ha) as [[A1 Ea]|[[A1 [A2 Ea]]|[A1 [A2 Ea]]]], (canon_cases b Hb) as [[B1 Eb]|[[B1 [B2 Eb]]|[B1 [B2 Eb]]]];
    rewrite Ea, Eb; (split; [intros E|intros [[P Q]|[[P Q]|P]]]); subst; try discriminate; try tauto; exfalso; first [by apply (Hzn a)|by apply (Hzn b)].
Qed.

Lemma canon_classes_witness : lv_canon 0 = lv_canon (2 ^ 63) /\ lv_canon kNaN = lv_canon (2 ^ 64 - 1) /\ lv_canon 1 <> lv_canon 2.
Proof.
  split; [|split].
  - apply (canon_classes 0 (2 ^ 63)); [unfold in_u; lia|unfold in_u; lia|]. right. left. split; [by left|by right].
  - apply (canon_classes kNaN (2 ^ 64 - 1)); [unfold in_u, kNaN; lia|unfold in_u; lia|]. left. split; vm_compute; reflexivity.
  - intros H. apply (canon_classes 1 2) in H; [|unfold in_u; lia|unfold in_u; lia].
    destruct H as [[H _]|[[[H|H] _]|H]]; [vm_compute in H; discriminate|lia|lia|lia].
Defined.

(** ** Integer arithmetic *)

Abbreviation in64 := (in_s 64).

Lemma int64_ret z : in64 z -> int64 z = Ret_ (VInt z).
Proof. unfold in_s, int64. intros H. destruct (Z.leb_spec (- 2 ^ 63) z), (Z.ltb_spec z (2 ^ 63)); cbn [andb]; [done|lia..]. Qed.

Lemma int64_undef z : ~ in64 z -> int64 z = Undef.
Proof. unfold in_s, int64. intros H. destruct (Z.leb_spec (- 2 ^ 63) z), (Z.ltb_spec z (2 ^ 63)); cbn [andb]; [lia|done..]. Qed.

Lemma quot_in64 a b : in64 a -> b <> 0 -> ~ (a = - 2 ^ 63 /\ b = -1) -> in64 (Z.quot a b).
Proof.
  unfold in_s. intros Ha Hb Hn. change (2 ^ (64 - 1)) with 9223372036854775808 in *. change (2 ^ 63) with 9223372036854775808 in *.
  destruct (decide (b = -1)) as [->|H1].
  - replace (Z.quot a (-1)) with (- a) by (change (-1) with (Z.opp 1); rewrite Z.quot_opp_r, Z.quot_1_r by done; lia). lia.
  - pose proof (Z.quot_rem' a b). destruct (decide (b = 1)) as [->|H2]; [rewrite Z.quot_1_r; lia|].
    assert (Z.abs (Z.quot a b) <= Z.abs a / 2) as Hq; [|dlia].
    rewrite <- Z.quot_abs by done. rewrite Z.quot_div_nonneg by lia. apply Z.div_le_compat_l; lia.
Qed.

Lemma rem_in64 a b : in64 a -> in64 b -> b <> 0 -> in64 (Z.rem a b).
Proof.
  unfold in_s. intros Ha Hb H0. change (2 ^ (64 - 1)) with 9223372036854775808 in *.
  pose proof (Z.rem_bound_abs a b H0). lia.
Qed.

Lemma bitwise_in64 (f : Z -> Z -> Z) (g : bool -> bool -> bool) a b :
  (forall x y n, Z.testbit (f x y) n = g (Z.testbit x n) (Z.testbit y n)) -> in64 a -> in64 b -> in64 (f a b).
Proof.
  intros Hf Ha Hb.
  assert (forall z, in64 z <-> Z.shiftr z 63 = 0 \/ Z.shiftr z 63 = -1) as Hs.
  { intros z. unfold in_s. rewrite shiftr_div by lia. change (2 ^ (64 - 1)) with 9223372036854775808. change (2 ^ 63) with 9223372036854775808. dlia. }
  apply Hs. apply Hs in Ha, Hb. assert (Z.shiftr (f a b) 63 = f (Z.shiftr a 63) (Z.shiftr b 63)) as ->.
  { apply Z.bits_inj'. intros n Hn. rewrite Hf, !Z.shiftr_spec by done. apply Hf. }
  assert (forall z c, (forall n, 0 <= n -> Z.testbit z n = c) -> z = 0 \/ z = -1) as Hall.
  { intros z [] Hz; [right|left]; apply Z.bits_inj'; intros n Hn; rewrite Hz by done; symmetry; [by apply Z.bits_m1|apply Z.bits_0]. }
  apply (Hall _ (g (if decide (Z.shiftr a 63 = 0) then false else true) (if decide (Z.shiftr b 63 = 0) then false else true))).
  intros n Hn. rewrite Hf. destruct Ha as [-> | ->], Hb as [-> | ->]; cbn [decide]; by rewrite ?Z.bits_0, ?Z.bits_m1.
Qed.

(** What an integer operation is meant to be: the exact result, when there is one. *)
Definition int_meaning (op : TokenKind) (a b : Z) : option Z :=
  match op with
  | TkPlus => Some (a + b) | TkMinus => Some (a - b) | TkStar => Some (a * b)
  | TkSlash => Some (Z.quot a b) | TkPercent => Some (Z.rem a b)
  | TkPipe => Some (Z.lor a b) | TkAmp => Some (Z.land a b) | TkCaret => Some (Z.lxor a b)
  | TkLtLt => Some (wrap_s 64 (a * 2 ^ b)) | TkGtGt => Some (a / 2 ^ b)
  | _ => None
  end.

(** The operand pairs an integer operation refuses. *)
Definition refused (op : TokenKind) (b : Z) : bool :=
  match op with TkSlash | TkPercent => b =? 0 | TkLtLt | TkGtGt => (b <? 0) || (63 <? b) | _ => false end.

(** [LLONG_MIN / -1] and [LLONG_MIN % -1]. *)
Definition min_by_minus_one (op : TokenKind) (a b : Z) : bool :=
  match op with TkSlash | TkPercent => (a =? - 2 ^ 63) && (b =? -1) | _ => false end.

Definition refusal (op : TokenKind) : str :=
  match op with
  | TkSlash => lit "division by zero" | TkPercent => lit "modulo by zero" | _ => lit "shift count out of range"
  end.
Definition fits (z : Z) : bool := (- 2 ^ 63 <=? z) && (z <? 2 ^ 63).

Lemma fits_spec z : fits z = true <-> in64 z.
Proof. unfold fits, in_s. rewrite andb_true_iff, Z.leb_le, Z.ltb_lt. done. Qed.

Lemma int64_fits z : int64 z = if fits z then Ret_ (VInt z) else Undef.
Proof. reflexivity. Qed.

(** Only sums, differences and products can leave the 64-bit range. *)
Lemma meaning_fits op a b z : in64 a -> in64 b -> int_meaning op a b = Some z -> refused op b = false ->
  min_by_minus_one op a b = false -> In op [TkPlus; TkMinus; TkStar] \/ in64 z.
Proof.
  intros Ha Hb Hz Hr Hm. destruct op; try discriminate Hz; cbn in Hz; injection Hz as <-; cbn in Hr, Hm; try (left; cbn; auto; fail); right.
  - apply quot_in64; [done|by apply Z.eqb_neq|]. intros [-> ->]. discriminate Hm.
  - apply rem_in64; [done|done|by apply Z.eqb_neq].
  - apply wrap_s_range. lia.
  - apply orb_false_iff in Hr as [H1 H2]. unfold in_s in *. change (2 ^ (64 - 1)) with 9223372036854775808 in *.
    assert (1 <= 2 ^ b) by (apply (Z.pow_le_mono_r 2 0 b); lia).
    split; [apply Z.div_le_lower_bound; nia|apply Z.div_lt_upper_bound; nia].
  - by apply (bitwise_in64 Z.land andb); [apply Z.land_spec|..].
  - by apply (bitwise_in64 Z.lor orb); [apply Z.lor_spec|..].
  - by apply (bitwise_in64 Z.lxor xorb); [apply Z.lxor_spec|..].
Qed.

(** [C30] Integer arithmetic is exact or says so.  On two 64-bit integers an
    arithmetic, bitwise or shift operator raises its exception exactly when
    the divisor is zero or the shift count is outside 0..63; otherwise its
    result is the mathematical one (truncating division and remainder, floor
    shift right, wrapping shift left).  The operands left to the host's
    undefined behaviour are the minimum divided by -1, and sums, differences
    and products, and no others, that do not fit 64 bits. *)
Theorem arith_int_exact (nan : Z) (fuel : nat) (h : Heap) (op : TokenKind) (a b z : Z) :
  in64 a -> in64 b -> int_meaning op a b = Some z ->
  arithPrim nan fuel h op (VInt a) (VInt b) =
    (if refused op b then Raise (refusal op)
     else if min_by_minus_one op a b || negb (fits z) then Undef else Ret_ (VInt z)) /\
  (refused op b = false -> min_by_minus_one op a b = false -> fits z = false -> In op [TkPlus; TkMinus; TkStar]).
Proof.
  intros Ha Hb Hz. change (arithPrim nan fuel h op (VInt a) (VInt b)) with (arith_int op a b). split.
  2: { intros Hr Hm Hf. destruct (meaning_fits op a b z Ha Hb Hz Hr Hm) as [H|H]; [done|]. apply fits_spec in H. congruence. }
  pose proof (meaning_fits op a b z Ha Hb Hz) as Hfit.
  destruct op; try discriminate Hz; cbn [int_meaning] in Hz; injection Hz as <-;
    cbn [arith_int refused min_by_minus_one refusal orb] in *; rewrite ?int64_fits;
    try (match goal with |- _ = if ?c then _ else _ => destruct c eqn:Er; [done|] end);
    try (match goal with |- context [if ?c || _ then _ else _] => destruct c eqn:Em; cbn [orb] end).
  all: try reflexivity; try (by destruct (fits _)).
  - apply andb_prop in Em as [E1%Z.eqb_eq E2%Z.eqb_eq]. by subst.
  - destruct (Hfit eq_refl eq_refl) as [[|[|[|]]]|H]; [done..|]. apply fits_spec in H. by rewrite H.
  - destruct (Hfit eq_refl eq_refl) as [[|[|[|]]]|H]; [done..|]. apply fits_spec in H. rewrite H.
    apply orb_false_iff in Er as [E1 E2]. by rewrite Z.shiftl_mul_pow2 by lia.
  - destruct (Hfit eq_refl eq_refl) as [[|[|[|]]]|H]; [done..|]. apply fits_spec in H. rewrite H.
    apply orb_false_iff in Er as [E1 E2]. by rewrite shiftr_div by lia.
  - destruct (Hfit eq_refl eq_refl) as [[|[|[|]]]|H]; [done..|]. apply fits_spec in H. by rewrite H.
  - destruct (Hfit eq_refl eq_refl) as [[|[|[|]]]|H]; [done..|]. apply fits_spec in H. by rewrite H.
  - destruct (Hfit eq_refl eq_refl) as [[|[|[|]]]|H]; [done..|]. apply fits_spec in H. by rewrite H.
Qed.

Lemma arith_int_exact_witness :
  let h : Heap := ∅ in
  arithPrim kNaN 1 h TkSlash (VInt (-7)) (VInt 2) = Ret_ (VInt (-3)) /\
  arithPrim kNaN 1 h TkSlash (VInt (-7)) (VInt 0) = Raise (lit "division by zero") /\
  arithPrim kNaN 1 h TkSlash (VInt (- 2 ^ 63)) (VInt (-1)) = Undef.
Proof.
  intros h. split_and!.
  - apply (arith_int_exact kNaN 1 h TkSlash (-7) 2 (-3)); [unfold in_s; lia|unfold in_s; lia|reflexivity].
  - apply (arith_int_exact kNaN 1 h TkSlash (-7) 0 0); [unfold in_s; lia|unfold in_s; lia|reflexivity].
  - apply (arith_int_exact kNaN 1 h TkSlash (- 2 ^ 63) (-1) (2 ^ 63)); [unfold in_s; lia|unfold in_s; lia|reflexivity].
Defined.

(** ** Unions and default values *)

Definition depth_at (s : str) (n : nat) : Z := fold_left (fun d i => d + bracket (char_at s i)) (seq 0 n) 0.

(** Position [i] is a top-level [" | "]. *)
Definition sep_at (s : str) (i : nat) : bool :=
  (depth_at s i =? 0) && eqc (char_at s i) "|" && (0 <? i)%nat && eqc (char_at s (i - 1)) c_sp
  && (i + 1 <? length s)%nat && eqc (char_at s (i + 1)) c_sp.

Lemma depth_at_S s n : depth_at s (S n) = depth_at s n + bracket (char_at s n).
Proof. unfold depth_at. by rewrite seq_S, fold_left_app. Qed.

Lemma union_step_eq s i start out : union_step s (depth_at s i, start, out) i =
  (depth_at s (S i), if sep_at s i then (i + 2)%nat else start,
   if sep_at s i then out ++ [if (i - 1 <? start)%nat then drop start s else substr s start (i - 1 - start)] else out).
Proof.
  rewrite depth_at_S. unfold union_step, sep_at, bracket. generalize (depth_at s i). intros d.
  destruct (eqc (char_at s i) "<" || eqc (char_at s i) "(") eqn:E1.
  - assert (eqc (char_at s i) "|" = false) as ->.
    { apply orb_prop in E1 as [E|E]; apply eqc_eq in E; rewrite E; reflexivity. }
    by rewrite andb_false_r.
  - destruct (eqc (char_at s i) ">" || eqc (char_at s i) ")") eqn:E2.
    + assert (eqc (char_at s i) "|" = false) as ->.
      { apply orb_prop in E2 as [E|E]; apply eqc_eq in E; rewrite E; reflexivity. }
      by rewrite andb_false_r.
    + rewrite Z.add_0_r. by destruct (_ && _).
Qed.

Lemma union_fold s n : exists start out,
  fold_left (union_step s) (seq 0 n) (0, 0%nat, []) = (depth_at s n, start, out) /\
  ((out = [] /\ start = 0%nat /\ forall i, (i < n)%nat -> sep_at s i = false) \/
   exists j rest, sep_at s j = true /\ (forall i, (i < j)%nat -> sep_at s i = false) /\ out = take (j - 1) s :: rest).
Proof.
  induction n as [|n (start & out & E & H)].
  - exists 0%nat, []. split; [done|]. left. split_and!; [done|done|lia].
  - rewrite seq_S, fold_left_app, E. cbn [fold_left Nat.add]. rewrite union_step_eq. do 2 eexists. split; [reflexivity|].
    destruct H as [(-> & -> & Hn)|(j & rest & Hj & Hb & ->)].
    + destruct (sep_at s n) eqn:Es.
      * right. exists n, []. split_and!; [done|done|]. cbn [app]. f_equal. destruct (Nat.ltb_spec (n - 1) 0); [lia|].
        unfold substr. by rewrite drop_0, Nat.sub_0_r.
      * left. split_and!; [done|done|]. intros i Hi. destruct (decide (i = n)) as [->|]; [done|]. apply Hn. lia.
    + right. destruct (sep_at s n); [exists j|exists j, rest; done]. eexists. split_and!; [done|done|reflexivity].
Qed.

Lemma char_at_take s n i : (i < n)%nat -> char_at (take n s) i = char_at s i.
Proof. intros H. unfold char_at. by rewrite lookup_take_lt. Qed.

Lemma depth_at_take s n i : (i <= n)%nat -> depth_at (take n s) i = depth_at s i.
Proof.
  induction i as [|i IH]; intros H; [done|]. rewrite !depth_at_S, IH, char_at_take by lia. done.
Qed.

Lemma sep_at_take s n i : sep_at (take n s) i = true -> sep_at s i = true /\ (i < n)%nat.
Proof.
  unfold sep_at. rewrite !andb_true_iff, !Nat.ltb_lt. intros (((((H1 & H2) & H3) & H4) & H5) & H6).
  pose proof (length_take_le s n) as Hl. rewrite length_take in H5.
  rewrite depth_at_take in H1 by lia. rewrite char_at_take in H2, H4, H6 by lia. split; [|lia]. split_and!; try done. lia.
Qed.

(** The first member of a union is not itself a union. *)
Lemma union_first s m0 m1 ms : unionMembersOf s = m0 :: m1 :: ms -> unionMembersOf m0 = [m0].
Proof.
  unfold unionMembersOf at 1. destruct (union_fold s (length s)) as (start & out & -> & [(-> & -> & _)|(j & rest & _ & Hb & ->)]); [done|].
  cbn [app]. intros [= <- _]. unfold unionMembersOf. set (p := take (j - 1) s).
  destruct (union_fold p (length p)) as (start' & out' & -> & [(-> & -> & _)|(k & rest' & Hk & _)]); [done|].
  apply sep_at_take in Hk as [Hk Hlt]. rewrite Hb in Hk by lia. done.
Qed.

(** Every type text has a default value: the recursion through unions is
    at most one deep, whatever the text (a nested [" | "] inside a generic
    argument included); a union with a [None] member defaults to [None], any
    other union to the default of its first member, and a text that is not a
    top-level union to the default of its own spelling. *)
Theorem default_total (c : str) (fuel : nat) :
  defaultForCanonical (S (S fuel)) c =
    Some (match unionMembersOf c with
          | m0 :: _ :: _ => if existsb (eqs (lit "None")) (unionMembersOf c) then DVal VNone else scalar_default m0
          | _ => scalar_default c
          end).
Proof.
  cbn [defaultForCanonical]. destruct (unionMembersOf c) as [|m0 [|m1 ms]] eqn:E; [done|done|].
  rewrite (union_first _ _ _ _ E). by destruct (existsb (eqs (lit "None")) (m0 :: m1 :: ms)).
Qed.
