(* ===== verification/RefHeap.v ===== *)
(** * Reference counts

    The ownership half of the runtime values: which locations a value, a cell
    and a heap refer to, [shared_ptr::use_count] as the number of those
    references, and the release of every cell whose count is zero.  A cell of a
    location is the object behind one [shared_ptr] control block: locations are
    never reused, while the addresses [malloc] hands out are. *)

From S2P Require Import Prelude Token Value.

Local Open Scope Z_scope.

(** ** References *)

Definition refs (v : Value) : list loc :=
  match v with
  | VObject p | VClosure p | VArray p | VMap p | VBlock p | VAst p _ => option_list p
  | _ => []
  end.
Definition vrefs (vs : list Value) : list loc := vs ≫= refs.

(** The values a cell owns; weak fields own nothing. *)
Definition env_values (e : gmap str Value) : list Value := (map_to_list e).*2.
Definition cell_values (c : Cell) : list Value :=
  match c with
  | CObj o => env_values (fields o)
  | CArr xs => xs
  | CMap es => es ≫= (fun kv => [fst kv; snd kv])
  | CClos c => (c_env c ≫= env_values) ++ match c_thisObj c with Some p => [VObject (Some p)] | None => [] end
  | CBlock _ | CBytes _ | CAst => []
  end.
Definition cell_refs (c : Cell) : list loc :=
  match c with CBlock b => option_list (b_bytes b) | _ => vrefs (cell_values c) end.
Definition heap_refs (h : Heap) : list loc := map_to_list h ≫= (fun kv => cell_refs (snd kv)).

(** [use_count], with [roots] the references held outside the heap. *)
Definition occurrences (p : loc) (l : list loc) : nat := length (List.filter (Nat.eqb p) l).
Definition use_count (roots : list loc) (h : Heap) (p : loc) : nat := occurrences p (roots ++ heap_refs h).

(** One round of releases, and the cascade. *)
Definition held (roots : list loc) (h : Heap) (p : loc) : bool := existsb (Nat.eqb p) (roots ++ heap_refs h).
Definition release_pass (roots : list loc) (h : Heap) : Heap := filter (fun kv => held roots h (fst kv) = true) h.
Fixpoint release (n : nat) (roots : list loc) (h : Heap) : Heap :=
  match n with
  | O => h
  | S n' => let h' := release_pass roots h in if (size h' =? size h)%nat then h else release n' roots h'
  end.
Definition collect (roots : list loc) (h : Heap) : Heap := release (S (size h)) roots h.

(** ** Facts about counts *)

Lemma occurrences_app p l k : occurrences p (l ++ k) = (occurrences p l + occurrences p k)%nat.
Proof. unfold occurrences. by rewrite List.filter_app, length_app. Qed.

Lemma occurrences_zero p l : occurrences p l = 0%nat <-> p ∉ l.
Proof.
  unfold occurrences. rewrite length_zero_iff_nil. split.
  - intros H Hin. assert (p ∈ List.filter (Nat.eqb p) l) as Hp
      by (rewrite list_elem_of_In, List.filter_In, <- list_elem_of_In, Nat.eqb_eq; done). by rewrite H in Hp; apply elem_of_nil in Hp.
  - intros H. apply List.incl_l_nil. intros x [Hx Hp]%List.filter_In. apply Nat.eqb_eq in Hp. subst.
    by apply list_elem_of_In in Hx.
Qed.

Lemma held_spec roots h p : held roots h p = true <-> p ∈ roots ++ heap_refs h.
Proof.
  unfold held. rewrite List.existsb_exists. split.
  - intros (x & Hx & E). apply Nat.eqb_eq in E. subst. by apply list_elem_of_In.
  - intros H. exists p. by rewrite Nat.eqb_refl, <- list_elem_of_In.
Qed.

Lemma elem_of_vrefs p vs : p ∈ vrefs vs <-> exists v, v ∈ vs /\ p ∈ refs v.
Proof. unfold vrefs. rewrite list_elem_of_bind. naive_solver. Qed.

Lemma elem_of_heap_refs p h : p ∈ heap_refs h <-> exists q c, h !! q = Some c /\ p ∈ cell_refs c.
Proof.
  unfold heap_refs. rewrite list_elem_of_bind. split.
  - intros ([q c] & Hp & Hqc). apply elem_of_map_to_list in Hqc. eauto.
  - intros (q & c & Hqc & Hp). exists (q, c). by rewrite elem_of_map_to_list.
Qed.

Lemma heap_refs_mono h h' p : h' ⊆ h -> p ∈ heap_refs h' -> p ∈ heap_refs h.
Proof.
  intros Hs. rewrite !elem_of_heap_refs. intros (q & c & Hq & Hp). exists q, c. split; [|done].
  by eapply lookup_weaken.
Qed.

(** ** What the release keeps *)

Lemma release_pass_lookup roots h p c :
  release_pass roots h !! p = Some c <-> h !! p = Some c /\ p ∈ roots ++ heap_refs h.
Proof. unfold release_pass. rewrite map_lookup_filter_Some. cbn [fst]. by rewrite held_spec. Qed.

Lemma release_subseteq n roots h : release n roots h ⊆ h.
Proof.
  revert h. induction n as [|n IH]; intros h; cbn [release]; [done|].
  destruct (_ =? _)%nat; [done|]. etrans; [apply IH|]. apply map_filter_subseteq.
Qed.

Lemma release_held n roots h p c :
  p ∈ roots ++ heap_refs (release n roots h) -> h !! p = Some c -> release n roots h !! p = Some c.
Proof.
  revert h. induction n as [|n IH]; intros h Hp Hc; cbn [release] in *; [done|].
  destruct (_ =? _)%nat; [done|]. apply IH; [done|]. apply release_pass_lookup. split; [done|].
  rewrite elem_of_app in Hp |- *. destruct Hp as [Hp|Hp]; [by left|right].
  eapply heap_refs_mono; [|exact Hp]. etrans; [apply release_subseteq|]. apply map_filter_subseteq.
Qed.

Inductive reachable (roots : list loc) (h : Heap) : loc -> Prop :=
| reach_root p : p ∈ roots -> reachable roots h p
| reach_cell p c q : reachable roots h p -> h !! p = Some c -> q ∈ cell_refs c -> reachable roots h q.

Lemma release_reachable n roots h p c : reachable roots h p -> h !! p = Some c -> release n roots h !! p = Some c.
Proof.
  revert h p c. induction n as [|n IH]; intros h p c Hr Hc; cbn [release]; [done|].
  destruct (_ =? _)%nat; [done|].
  assert (forall q d, reachable roots h q -> h !! q = Some d -> release_pass roots h !! q = Some d) as Hkeep.
  { intros q d Hq Hd. apply release_pass_lookup. split; [done|]. apply elem_of_app.
    destruct Hq as [q Hq|q' d' q Hq Hd' Hin]; [by left|right]. apply elem_of_heap_refs. eauto. }
  apply IH; [|by apply Hkeep]. clear Hc.
  induction Hr as [q Hq|q d q' Hq IHq Hd Hin]; [by constructor|]. eapply reach_cell; [exact IHq| |exact Hin]. by apply Hkeep.
Qed.

Lemma release_fixpoint n roots h : (size h < n)%nat ->
  forall p, is_Some (release n roots h !! p) -> p ∈ roots ++ heap_refs (release n roots h).
Proof.
  revert h. induction n as [|n IH]; intros h Hn p; [lia|]. cbn [release].
  destruct (Nat.eqb_spec (size (release_pass roots h)) (size h)) as [E|E].
  - intros [c Hc].
    assert (release_pass roots h = h) as Heq.
    { apply map_subseteq_size_eq; [apply map_filter_subseteq|lia]. }
    rewrite <- Heq in Hc. by apply release_pass_lookup in Hc as [_ ?].
  - apply IH. assert (size (release_pass roots h) <= size h)%nat by (apply map_subseteq_size, map_filter_subseteq). lia.
Qed.

Lemma collect_subseteq roots h : collect roots h ⊆ h.
Proof. apply release_subseteq. Qed.
Lemma collect_reachable roots h p c : reachable roots h p -> h !! p = Some c -> collect roots h !! p = Some c.
Proof. apply release_reachable. Qed.
Lemma collect_held roots h p c : p ∈ roots ++ heap_refs (collect roots h) -> h !! p = Some c -> collect roots h !! p = Some c.
Proof. apply release_held. Qed.
(** After the cascade every remaining cell has a positive count. *)
Lemma collect_counts roots h p : is_Some (collect roots h !! p) -> (0 < use_count roots (collect roots h) p)%nat.
Proof.
  unfold collect. intros H. apply release_fixpoint in H; [|lia]. fold (collect roots h) in H |- *.
  destruct (use_count roots (collect roots h) p) eqn:E; [|lia]. by apply occurrences_zero in E.
Qed.
