(* ===== verification/MemVerify.v ===== *)
(** * The memory verifier

    Models [src/ir/MemVerify.hpp] and [MemVerify.cpp]: the census the IR
    interpreter keeps of its heap allocations, the sweep that records the
    operation at which a cell became unreachable, and the report.  A cell is
    known by its address; a [weak_ptr] is the location it watches, expired when
    that location is no longer allocated.

    The sweep walks an index of the cells not yet seen dead, removing by
    swap-and-pop; it is proved to do what a scan of every entry does. *)

From S2P Require Import Prelude Token Value RefHeap.

Local Open Scope Z_scope.

Record Tracked := MkTracked {
  tr_id : Z; tr_fn : Z; tr_pc : Z; tr_kind : ascii; weak : loc; shadowRc : Z; shadowFreed : bool; gone : bool; deadAtOp : Z
}.

Record MemVerifier := MkMem {
  objs : gmap Z Tracked; live_ : list Z; nextId : Z; opClock : Z; liveNow : Z; peakLive : Z; totalAllocs : Z;
  shadow : bool; errors : list str
}.
Definition mem_init : MemVerifier := MkMem ∅ [] 1 0 0 0 0 false [].

(** [spOf], [kindOf]. *)
Definition spOf (v : Value) : option loc :=
  match v with VObject p | VArray p | VMap p | VClosure p => p | _ => None end.
Definition kindOf (v : Value) : ascii :=
  match v with VObject _ => "o" | VArray _ => "a" | VMap _ => "m" | VClosure _ => "c" | _ => "?" end%char.

Section Verifier.
Context (expired : loc -> bool).

Definition onAlloc (addr : loc -> Z) (v : Value) (fn pc : Z) (m : MemVerifier) : MemVerifier :=
  match spOf v with
  | None => m
  | Some p =>
      let k := addr p in
      let fresh_entry :=
        let t := MkTracked (nextId m) fn pc (kindOf v) p 1 false false (-1) in
        let n := liveNow m + 1 in
        MkMem (<[k := t]> (objs m)) (live_ m ++ [k]) (nextId m + 1) (opClock m) n
          (if peakLive m <? n then n else peakLive m) (totalAllocs m + 1) (shadow m) (errors m) in
      match objs m !! k with
      | Some t => if gone t then fresh_entry else m
      | None => fresh_entry
      end
  end.

Definition siteStr (t : Tracked) : str :=
  lit "#" ++ to_string (tr_id t) ++ lit " " ++ [tr_kind t] ++ lit " @fn" ++ to_string (tr_fn t) ++ lit ":" ++ to_string (tr_pc t).

Definition leak_error (t : Tracked) (clock : Z) : str :=
  siteStr t ++ lit " unreachable at op " ++ to_string clock ++
  lit " but the shadow ARC still holds it (refcount " ++ to_string (shadowRc t) ++ lit ") -> LEAK".

Definition bury (clock : Z) (t : Tracked) : Tracked :=
  MkTracked (tr_id t) (tr_fn t) (tr_pc t) (tr_kind t) (weak t) (shadowRc t) (shadowFreed t) true clock.

Definition set_live (l : list Z) (m : MemVerifier) : MemVerifier :=
  MkMem (objs m) l (nextId m) (opClock m) (liveNow m) (peakLive m) (totalAllocs m) (shadow m) (errors m).
Definition record_death (k : Z) (t : Tracked) (m : MemVerifier) : MemVerifier :=
  MkMem (<[k := bury (opClock m) t]> (objs m)) (live_ m) (nextId m) (opClock m) (liveNow m - 1) (peakLive m) (totalAllocs m)
    (shadow m) (if shadow m && negb (shadowFreed t) then errors m ++ [leak_error t (opClock m)] else errors m).

(** [live_[i] = live_.back(); live_.pop_back()]. *)
Definition swap_pop_live (i : nat) (l : list Z) : list Z :=
  match last l with Some x => take (length l - 1) (<[i := x]> l) | None => l end.

(** The loop; every turn shortens the index or moves past one of its entries. *)
Fixpoint sweep_from (fuel i : nat) (m : MemVerifier) : MemVerifier :=
  match fuel with
  | O => m
  | S f =>
      match live_ m !! i with
      | None => m
      | Some k =>
          match objs m !! k with
          | None => sweep_from f i (set_live (swap_pop_live i (live_ m)) m)
          | Some t =>
              if gone t || expired (weak t) then
                let m := if gone t then m else record_death k t m in
                sweep_from f i (set_live (swap_pop_live i (live_ m)) m)
              else sweep_from f (S i) m
          end
      end
  end.
Definition sweep (m : MemVerifier) : MemVerifier := sweep_from (length (live_ m)) 0 m.

(** [++mem_.opClock], done by the interpreter before it sweeps. *)
Definition tick_clock (m : MemVerifier) : MemVerifier :=
  MkMem (objs m) (live_ m) (nextId m) (opClock m + 1) (liveNow m) (peakLive m) (totalAllocs m) (shadow m) (errors m).

(** ** The report *)

Record SiteStat := MkSiteStat { allocated : Z; aliveAtExit : Z; ss_kind : ascii }.
Definition site_lt (a b : Z * Z) : bool := (fst a <? fst b) || ((fst a =? fst b) && (snd a <? snd b)).

Definition count_site (acc : list ((Z * Z) * SiteStat) * Z) (t : Tracked) : list ((Z * Z) * SiteStat) * Z :=
  let '(sites, alive) := acc in
  let s := match omap_find site_lt (tr_fn t, tr_pc t) sites with Some s => s | None => MkSiteStat 0 0 "?" end in
  let a := if expired (weak t) then 0 else 1 in
  (omap_set site_lt (tr_fn t, tr_pc t) (MkSiteStat (allocated s + 1) (aliveAtExit s + a) (tr_kind t)) sites, alive + a).
Definition census (m : MemVerifier) : list ((Z * Z) * SiteStat) * Z :=
  fold_left count_site (map_to_list (objs m)).*2 ([], 0).

Definition nl : str := [c_nl].
Definition site_line (e : (Z * Z) * SiteStat) : str :=
  let '((fn, pc), s) := e in
  lit "[mem]   fn" ++ to_string fn ++ lit ":" ++ to_string pc ++ lit " (" ++ [ss_kind s] ++ lit ") x" ++ to_string (allocated s) ++
  (if aliveAtExit s =? 0 then [] else lit "  [" ++ to_string (aliveAtExit s) ++ lit " reachable at exit]") ++ nl.

Definition report (m : MemVerifier) : str :=
  let '(sites, alive) := census m in
  lit "[mem] " ++ to_string (totalAllocs m) ++ lit " heap allocation(s), peak " ++ to_string (peakLive m) ++
  lit " live concurrently, " ++ to_string alive ++ lit " reachable at exit (the root set)." ++ nl ++
  lit "[mem] " ++ to_string (totalAllocs m - alive) ++ lit " allocation(s) become unreachable mid-run " ++
  lit "(the ARC's free obligation); " ++ to_string alive ++ lit " persist to exit." ++ nl ++
  concat (map site_line sites) ++
  (if shadow m then
     match errors m with
     | [] => lit "[mem] shadow ARC: OK (refcount tracked true reachability at every op; no leak, no premature free)" ++ nl
     | es => lit "[mem] shadow ARC: " ++ to_string (Z.of_nat (length es)) ++ lit " violation(s):" ++ nl ++
             concat (map (fun e => lit "[mem]   " ++ e ++ nl) es)
     end
   else []).

(** ** The index is exact *)

Definition alive (m : MemVerifier) (k : Z) : Prop := exists t, objs m !! k = Some t /\ gone t = false.

Record mem_ok (m : MemVerifier) : Prop := {
  ok_nodup : NoDup (live_ m);
  ok_index : forall k, k ∈ live_ m <-> alive m k;
  ok_now : liveNow m = Z.of_nat (length (live_ m));
  ok_peak : liveNow m <= peakLive m;
  ok_total : totalAllocs m = nextId m - 1
}.

(** The sweep without the index: every entry of [objs] is looked at. *)
Definition scan_entry (clock : Z) (t : Tracked) : Tracked :=
  if gone t then t else if expired (weak t) then bury clock t else t.
Definition survives (m : MemVerifier) (k : Z) : bool :=
  match objs m !! k with Some t => negb (gone t) && negb (expired (weak t)) | None => false end.

Lemma swap_pop_live_perm i l x : l !! i = Some x -> x :: swap_pop_live i l ≡ₚ l.
Proof.
  intros Hx. unfold swap_pop_live. destruct l as [|y l0] using rev_ind; [done|]. clear IHl0.
  rewrite last_snoc, length_app. cbn [length]. replace (length l0 + 1 - 1)%nat with (length l0) by lia.
  assert (i <= length l0)%nat as Hi by (apply lookup_lt_Some in Hx; rewrite length_app in Hx; cbn in Hx; lia).
  destruct (decide (i = length l0)) as [->|Hne].
  - rewrite lookup_app_r, Nat.sub_diag in Hx by lia. injection Hx as <-.
    rewrite insert_app_r_alt, Nat.sub_diag by lia. cbn. rewrite take_app_length. apply Permutation_cons_append.
  - rewrite lookup_app_l in Hx by lia. rewrite insert_app_l by lia. rewrite take_app_length' by by rewrite length_insert.
    rewrite <- (Permutation_cons_append l0 y). rewrite insert_take_drop by lia.
    rewrite <- (take_drop_middle l0 i x Hx) at 3. rewrite <- Permutation_middle.
    rewrite (Permutation_swap y). apply perm_skip. by rewrite <- Permutation_middle.
Qed.

Lemma perm_elem (l k : list Z) x : l ≡ₚ k -> x ∈ l <-> x ∈ k.
Proof. intros H. rewrite !list_elem_of_In. split; apply Permutation_in; [done|by symmetry]. Qed.
Lemma perm_nodup (l k : list Z) : l ≡ₚ k -> NoDup k -> NoDup l.
Proof. intros H. rewrite !NoDup_ListNoDup. apply Permutation_NoDup. by symmetry. Qed.

(** The walk in progress: [i] entries of the index are known to survive. *)
Record sweeping (m0 : MemVerifier) (i : nat) (m : MemVerifier) : Prop := {
  sw_nodup : NoDup (live_ m);
  sw_sub : forall k, k ∈ live_ m -> k ∈ live_ m0;
  sw_gone : forall k, k ∈ live_ m0 -> k ∉ live_ m -> survives m0 k = false;
  sw_objs : forall k, objs m !! k = if decide (k ∈ live_ m) then objs m0 !! k else scan_entry (opClock m0) <$> objs m0 !! k;
  sw_past : forall j k, (j < i)%nat -> live_ m !! j = Some k -> survives m0 k = true;
  sw_now : liveNow m = Z.of_nat (length (live_ m));
  sw_rest : nextId m = nextId m0 /\ opClock m = opClock m0 /\ peakLive m = peakLive m0 /\ totalAllocs m = totalAllocs m0
}.

Lemma swap_pop_before i j l k : (j < i)%nat -> l !! j = Some k -> is_Some (l !! i) -> swap_pop_live i l !! j = Some k.
Proof.
  intros Hj Hk [x Hx]. apply lookup_lt_Some in Hx. unfold swap_pop_live. destruct (last l) eqn:E; [|done].
  rewrite lookup_take_lt by lia. by rewrite list_lookup_insert_ne by lia.
Qed.

Lemma swap_pop_length i l : is_Some (l !! i) -> S (length (swap_pop_live i l)) = length l.
Proof. intros [x Hx]. apply swap_pop_live_perm, Permutation_length in Hx. done. Qed.

Lemma sweeping_start m : mem_ok m -> sweeping m 0 m.
Proof.
  intros [H1 H2 H3 H4 H5]. split; try done; [|intros; lia].
  intros k. destruct (decide _) as [|Hk]; [done|]. rewrite H2 in Hk. destruct (objs m !! k) as [t|] eqn:E; [|done].
  cbn. f_equal. unfold scan_entry. destruct (gone t) eqn:G; [done|]. exfalso. apply Hk. exists t. done.
Qed.

Lemma sweeping_skip m0 i m k : sweeping m0 i m -> live_ m !! i = Some k -> survives m0 k = true -> sweeping m0 (S i) m.
Proof.
  intros [H1 H2 H3 H4 H5 H6 H7] Hi Hk. split; try done. intros j k' Hj Hjk.
  destruct (decide (j = i)) as [->|]; [congruence|]. apply (H5 j); [lia|done].
Qed.

Lemma sweeping_drop m0 i m k t : mem_ok m0 -> sweeping m0 i m -> live_ m !! i = Some k -> objs m0 !! k = Some t ->
  gone t = false -> expired (weak t) = true ->
  let m' := record_death k t m in sweeping m0 i (set_live (swap_pop_live i (live_ m')) m').
Proof.
  intros Hok [H1 H2 H3 H4 H5 H6 (H7 & H8 & H9 & H10)] Hi Ht Hg He m'.
  assert (k :: swap_pop_live i (live_ m) ≡ₚ live_ m) as Hp by by apply swap_pop_live_perm.
  assert (k ∉ swap_pop_live i (live_ m)) as Hk by (apply (perm_nodup _ _ Hp), NoDup_cons in H1 as [? _]; done).
  assert (forall x, x ∈ swap_pop_live i (live_ m) <-> x ∈ live_ m /\ x <> k) as Hin.
  { intros x. rewrite <- (perm_elem _ _ x Hp), elem_of_cons. split; [|naive_solver]. intros Hx. split; [by right|]. by intros ->. }
  split; cbn [m' record_death set_live live_ objs liveNow nextId opClock peakLive totalAllocs].
  - by apply (perm_nodup _ _ Hp), NoDup_cons in H1 as [_ ?].
  - intros x [Hx _]%Hin. by apply H2.
  - intros x Hx Hn. destruct (decide (x = k)) as [->|Hne]; [unfold survives; by rewrite Ht, Hg, He|].
    apply H3; [done|]. intros Hl. apply Hn. by apply Hin.
  - intros x. destruct (decide (x = k)) as [->|Hne].
    + rewrite decide_False by done. rewrite lookup_insert_eq, Ht. cbn. unfold scan_entry. by rewrite Hg, He, H8.
    + rewrite lookup_insert_ne, H4 by done. destruct (decide (x ∈ live_ m)) as [Hl|Hl].
      * rewrite decide_True; [done|by apply Hin].
      * rewrite decide_False; [done|]. by intros [? _]%Hin.
  - intros j x Hj Hx. apply (H5 j); [done|].
    assert (is_Some (live_ m !! j)) as [y Hy] by (apply lookup_lt_is_Some; apply lookup_lt_Some in Hi; lia).
    rewrite (swap_pop_before i j (live_ m) y) in Hx; [congruence|done|done|by eexists].
  - assert (S (length (swap_pop_live i (live_ m))) = length (live_ m)) by (apply swap_pop_length; by eexists). lia.
  - done.
Qed.

Lemma sweep_from_inv m0 fuel i m : mem_ok m0 -> sweeping m0 i m -> (length (live_ m) <= i + fuel)%nat ->
  exists n, sweeping m0 n (sweep_from fuel i m) /\ (length (live_ (sweep_from fuel i m)) <= n)%nat.
Proof.
  intros Hok. revert i m. induction fuel as [|f IH]; intros i m Hs Hlen; cbn [sweep_from]; [exists i; split; [done|lia]|].
  destruct (live_ m !! i) as [k|] eqn:Hi; [|exists i; split; [done|by apply lookup_ge_None in Hi]].
  assert (k ∈ live_ m) as Hk by by eapply list_elem_of_lookup_2.
  assert (alive m0 k) as (t & Ht & Hg) by (apply (ok_index _ Hok), (sw_sub _ _ _ Hs); done).
  rewrite (sw_objs _ _ _ Hs k), decide_True, Ht, Hg by done. cbn [orb].
  destruct (expired (weak t)) eqn:He.
  - apply IH; [by apply sweeping_drop|].
    cbn [set_live live_ record_death]. pose proof (swap_pop_length i (live_ m) (mk_is_Some _ _ Hi)). lia.
  - apply IH; [|lia]. eapply sweeping_skip; [done|done|]. unfold survives. by rewrite Ht, Hg, He.
Qed.

(** The sweep is a scan of every entry, and keeps the index exact. *)
Lemma sweep_scan m : mem_ok m ->
  objs (sweep m) = scan_entry (opClock m) <$> objs m /\
  live_ (sweep m) ≡ₚ List.filter (survives m) (live_ m) /\
  opClock (sweep m) = opClock m /\ totalAllocs (sweep m) = totalAllocs m /\ peakLive (sweep m) = peakLive m /\ mem_ok (sweep m).
Proof.
  intros Hok. destruct (sweep_from_inv m (length (live_ m)) 0 m Hok (sweeping_start m Hok)) as (n & Hs & Hn); [lia|].
  fold (sweep m) in Hs, Hn. destruct Hs as [H1 H2 H3 H4 H5 H6 (H7 & H8 & H9 & H10)].
  assert (forall k, k ∈ live_ (sweep m) -> survives m k = true) as Hsurv.
  { intros k [j Hj]%list_elem_of_lookup_1. apply (H5 j); [|done]. apply lookup_lt_Some in Hj. lia. }
  assert (forall k, k ∈ live_ (sweep m) <-> k ∈ live_ m /\ survives m k = true) as Hin.
  { intros k. split; [by auto|]. intros [Hk Hv]. destruct (decide (k ∈ live_ (sweep m))) as [|Hk']; [done|].
    by rewrite (H3 _ Hk Hk') in Hv. }
  assert (objs (sweep m) = scan_entry (opClock m) <$> objs m) as Hobjs.
  { apply map_eq. intros k. rewrite lookup_fmap, H4. destruct (decide _) as [Hk|]; [|done].
    apply Hsurv in Hk. unfold survives in Hk. destruct (objs m !! k) as [t|]; [|done]. apply andb_prop in Hk as [Hg He].
    cbn. f_equal. unfold scan_entry. destruct (gone t); [done|]. by destruct (expired (weak t)). }
  assert (live_ (sweep m) ≡ₚ List.filter (survives m) (live_ m)) as Hperm.
  { apply NoDup_Permutation; [done| |].
    - apply NoDup_ListNoDup, List.NoDup_filter, NoDup_ListNoDup, Hok.
    - intros k. rewrite Hin, (list_elem_of_In (List.filter _ _) k), List.filter_In, <- list_elem_of_In. done. }
  assert (length (live_ (sweep m)) <= length (live_ m))%nat as Hle by (rewrite Hperm; apply List.filter_length_le).
  destruct Hok as [O1 O2 O3 O4 O5]. split_and!; try done. split; [done| |done|lia|congruence].
  intros k. rewrite Hin. unfold alive. rewrite Hobjs, lookup_fmap, O2. unfold alive, survives. split.
  - intros [(t & Ht & Hg) Hv]. rewrite Ht in *. cbn. exists t. split; [|done]. f_equal. unfold scan_entry.
    rewrite Hg in *. by destruct (expired (weak t)).
  - intros (t' & Ht & Hg). destruct (objs m !! k) as [t|] eqn:E; [|done]. cbn in Ht. injection Ht as <-.
    unfold scan_entry in Hg. destruct (gone t) eqn:Hgt; [congruence|]. destruct (expired (weak t)) eqn:He; [done|].
    split; [by exists t|done].
Qed.

End Verifier.

Lemma onAlloc_ok addr v fn pc m : mem_ok m -> mem_ok (onAlloc addr v fn pc m).
Proof.
  intros Hok. unfold onAlloc. destruct (spOf v) as [p|]; [|done].
  assert (~ alive m (addr p) -> forall t, gone t = false ->
    mem_ok (MkMem (<[addr p := t]> (objs m)) (live_ m ++ [addr p]) (nextId m + 1) (opClock m) (liveNow m + 1)
      (if peakLive m <? liveNow m + 1 then liveNow m + 1 else peakLive m) (totalAllocs m + 1) (shadow m) (errors m))) as Hnew.
  { destruct Hok as [O1 O2 O3 O4 O5]. intros Hn t Ht. split; cbn [live_ objs liveNow peakLive totalAllocs nextId].
    - apply NoDup_app. split; [done|]. split; [|apply NoDup_singleton]. intros k Hk ->%list_elem_of_singleton. by apply Hn, O2.
    - intros k. rewrite elem_of_app, list_elem_of_singleton, O2. unfold alive. cbn [objs].
      destruct (decide (k = addr p)) as [->|Hne].
      + rewrite lookup_insert_eq. split; [intros _; by exists t|by right].
      + rewrite lookup_insert_ne by done. naive_solver.
    - rewrite length_app. cbn. lia.
    - destruct (Z.ltb_spec (peakLive m) (liveNow m + 1)); lia.
    - lia. }
  destruct (objs m !! addr p) as [t|] eqn:E; [destruct (gone t) eqn:G; [|done]|].
  - apply Hnew; [|done]. intros (t' & Ht & Hg). congruence.
  - apply Hnew; [|done]. intros (t' & Ht & Hg). congruence.
Qed.

Lemma mem_init_ok : mem_ok mem_init.
Proof. split; cbn; try lia; [apply NoDup_nil_2|]. intros k. rewrite elem_of_nil. split; [done|]. by intros (t & Ht & _). Qed.

Lemma tick_clock_ok m : mem_ok m -> mem_ok (tick_clock m).
Proof. by intros []. Qed.

(** ** Over a whole run *)

(** The calls the interpreter makes, each with the addresses and the liveness of its moment. *)
Inductive mem_reaches : MemVerifier -> Prop :=
| mem_start : mem_reaches mem_init
| mem_alloc addr v fn pc m : mem_reaches m -> mem_reaches (onAlloc addr v fn pc m)
| mem_tick m : mem_reaches m -> mem_reaches (tick_clock m)
| mem_sweep expired m : mem_reaches m -> mem_reaches (sweep expired m).

Lemma mem_reaches_ok m : mem_reaches m -> mem_ok m.
Proof.
  induction 1 as [|addr v fn pc m _ IH|m _ IH|expired m _ IH]; [apply mem_init_ok|by apply onAlloc_ok|by apply tick_clock_ok|].
  by apply sweep_scan.
Qed.

(** [C36] The sweep over the index of live cells does what a scan of every entry
    would.  After any history of allocations, ticks and sweeps: an entry not yet
    dead whose cell has expired is marked dead at the current operation, every
    other entry is unchanged; the index then holds, once each, exactly the
    entries that are not dead; and the live count is its length, never above the
    recorded peak. *)
Theorem sweep_is_scan (m : MemVerifier) (expired : loc -> bool) : mem_reaches m ->
  objs (sweep expired m) = scan_entry expired (opClock m) <$> objs m /\
  NoDup (live_ (sweep expired m)) /\
  (forall k, k ∈ live_ (sweep expired m) <-> exists t, objs m !! k = Some t /\ gone t = false /\ expired (weak t) = false) /\
  liveNow (sweep expired m) = Z.of_nat (length (live_ (sweep expired m))) /\
  liveNow (sweep expired m) <= peakLive (sweep expired m) /\ totalAllocs (sweep expired m) = totalAllocs m.
Proof.
  intros Hm%mem_reaches_ok. destruct (sweep_scan expired m Hm) as (H1 & _ & _ & H4 & _ & [O1 O2 O3 O4 _]).
  split_and!; try done. intros k. rewrite O2. unfold alive. rewrite H1, lookup_fmap. destruct (objs m !! k) as [t|]; cbn.
  - split.
    + intros (t' & [= <-] & Hg). exists t. unfold scan_entry in Hg. destruct (gone t) eqn:G; [congruence|].
      by destruct (expired (weak t)).
    + intros (t' & [= <-] & Hg & He). exists (scan_entry expired (opClock m) t). split; [done|]. unfold scan_entry. by rewrite Hg, He.
  - split; intros (t & Ht & _); done.
Qed.

(** Two cells, the first of which has died. *)
Definition two_cells : MemVerifier :=
  tick_clock (onAlloc Z.of_nat (VArray (Some 2%nat)) 0 1 (onAlloc Z.of_nat (VObject (Some 1%nat)) 0 0 mem_init)).

Lemma sweep_is_scan_witness :
  liveNow (sweep (Nat.eqb 1) two_cells) = Z.of_nat (length (live_ (sweep (Nat.eqb 1) two_cells))) /\
  live_ (sweep (Nat.eqb 1) two_cells) = [2] /\ option_map deadAtOp (objs (sweep (Nat.eqb 1) two_cells) !! 1) = Some 1.
Proof.
  split; [|split; vm_compute; reflexivity].
  apply (sweep_is_scan two_cells (Nat.eqb 1)). apply mem_tick, mem_alloc, mem_alloc, mem_start.
Defined.
