(* ===== verification/Ir.v ===== *)
(** * The bytecode IR

    The instruction set and module structure of [src/ir/Ir.hpp].  Registers,
    windows and targets are [int]s ([Z]); [Symbol*] and [Stmt*] are the symbols
    and declarations of the runtime values.  Of a function's descriptor the
    [hasThis] flag, and of a module's the compile-time tables ([initByClass],
    [globalIndex], [columnar]), are read by the code generators only and are
    left out. *)

From S2P Require Import Prelude Token Value.

Inductive Op :=
| LoadConst | Default_ | Move | MoveClear | CopyVal | Arith | Not_ | Neg
| Jump | JumpIfFalse | JumpIfTrue | Ret | RetVoid | Throw
| Call | CallDyn | CallValue | CallNativeFn
| NewObject | GetMember | SetMember | RawGet | RawSet | RawGetWeak | RawSetWeak
| NewArray | NewArraySized | NewMap | NewBlock | NewBlockStr | MakeRange | GetIndex | IndexStore
| IterLen | IterAt | ColGet | IsType | Await | LoadGlobal | StoreGlobal
| MakeClosure | CaptureVar | LoadCapture | Print_ | PrintNl | VFree.

#[export] Instance Op_eq_dec : EqDecision Op.
Proof. solve_decision. Defined.

Record Inst := MkInst {
  op : Op; ia : Z; ib : Z; ic : Z; id_ : Z; tk : TokenKind; sname : str; sym : option Symbol; decl : option Decl
}.

(** One catch clause of a try range, in clause order. *)
Record Handler := MkHandler { h_start : Z; h_end : Z; handlerPc : Z; bindReg : Z; h_type : option Symbol }.

Record IrFunction := MkIrFunction {
  fname : str; nparams : nat; nregs : nat; icode : list Inst; consts : list Value; handlers : list Handler
}.
Record IrModule := MkIrModule {
  functions : list IrFunction; byDecl : list (nat * nat); entry : Z; ginit : Z; nglobals : nat
}.

(** A function without constants and handlers, a module without an entry. *)
Definition plain_fn (name : str) (np nr : nat) (code : list Inst) : IrFunction := MkIrFunction name np nr code [] [].
Definition plain_module (fns : list IrFunction) (by_ : list (nat * nat)) : IrModule := MkIrModule fns by_ (-1) (-1) 0.

(** [mod.byDecl.find(decl)]. *)
Fixpoint find_decl (d : nat) (l : list (nat * nat)) : option nat :=
  match l with [] => None | (k, v) :: l' => if (k =? d)%nat then Some v else find_decl d l' end.

Definition inst (o : Op) (a b c d : Z) : Inst := MkInst o a b c d TkEnd [] None None.

(** ** Global references of a function (bug #35)

    [computeFnGlobalRefs]: the global slots a function names, with those of the
    closures it creates.  [state] is the visit mark; a function being visited
    contributes what it has so far (nothing). *)

Inductive Mark := Unvisited | InProgress | Done.

Record GlobalRefs := MkGlobalRefs { grefs : list (list Z); gmark : list Mark }.

(** [std::sort] and [std::unique]. *)
Fixpoint insert_sorted (x : Z) (l : list Z) : list Z :=
  match l with
  | [] => [x]
  | y :: l' => if (x <? y)%Z then x :: l else if (x =? y)%Z then l else y :: insert_sorted x l'
  end.
Definition sort_unique (l : list Z) : list Z := foldr insert_sorted [] l.

Section GlobalRefs.
Context (m : IrModule).

Definition refs_of (fi : nat) (g : GlobalRefs) : list Z := match grefs g !! fi with Some r => r | None => [] end.

(** [visit(fi)]; the bound on the depth is the number of functions. *)
Fixpoint visit (fuel : nat) (fi : nat) (g : GlobalRefs) : GlobalRefs :=
  match fuel with
  | 0 => g
  | S f =>
      match gmark g !! fi with
      | Some Unvisited =>
          let g1 := MkGlobalRefs (grefs g) (<[fi := InProgress]> (gmark g)) in
          let code_ := match functions m !! fi with Some fn => icode fn | None => [] end in
          let '(g2, slots) := fold_left (fun acc i =>
            let '(g', slots) := acc in
            match op i with
            | LoadGlobal | StoreGlobal => (g', slots ++ [ib i])
            | MakeClosure =>
                if (0 <=? ib i)%Z && (ib i <? Z.of_nat (length (functions m)))%Z then
                  let g'' := visit f (Z.to_nat (ib i)) g' in (g'', slots ++ refs_of (Z.to_nat (ib i)) g'')
                else (g', slots)
            | _ => (g', slots)
            end) code_ (g1, []) in
          MkGlobalRefs (<[fi := sort_unique slots]> (grefs g2)) (<[fi := Done]> (gmark g2))
      | _ => g
      end
  end.

Definition computeFnGlobalRefs : list (list Z) :=
  let n := length (functions m) in
  grefs (fold_left (fun g i => visit (S n) i g) (seq 0 n) (MkGlobalRefs (replicate n []) (replicate n Unvisited))).

End GlobalRefs.
