(* ===== verification/Ownership.v ===== *)
(** * Ownership and escape analysis

    Models [src/ir/Ownership.cpp]: the native annotations, the per-function
    alias fixpoint and sinks ([Analyzer::analyzeFn]), the interprocedural
    rounds and the classification of allocation sites ([analyzeOwnership]).
    A [std::set<int>] of sites is a [gset Z] (non-negative: the pc of an
    allocation; negative: a parameter); a register outside the file reads as
    the empty set. *)

From S2P Require Import Prelude Token Value Ir.

Definition isAlloc (o : Op) : bool :=
  match o with NewObject | NewArray | NewArraySized | NewMap | MakeRange | MakeClosure => true | _ => false end.

Record Summary := MkSummary { paramEscapes : list bool; paramToRet : list bool }.
Record NativeInfo := MkNative { selfToResult : bool; argsToResult : bool }.

Definition plain_natives : list str := map lit
  ["length"; "at"; "has"; "keys"; "values"; "isEmpty"; "contains"; "indexOf"; "toString"; "charAt"; "subStr";
   "toUpper"; "toLower"; "trim"; "startsWith"; "endsWith"; "abs"; "max"; "min"]%string.

Definition nativeInfo (name : str) : option NativeInfo :=
  if existsb (eqs name) plain_natives then Some (MkNative false false)
  else if eqs name (lit "add") || eqs name (lit "with") then Some (MkNative true true)
  else if eqs name (lit "without") then Some (MkNative true false)
  else None.

Abbreviation Sites := (gset Z).
Abbreviation Escapes := (gmap Z str).

(** The analyzer's mutable state while one function is analysed. *)
Record AState := MkAState {
  regs : list Sites; esc : Escapes; sums : list Summary; summaryChanged : bool; changed : bool
}.

Definition set_regs (r : list Sites) (c : bool) (st : AState) : AState :=
  MkAState r (esc st) (sums st) (summaryChanged st) c.

Definition reg (i : Z) (st : AState) : Sites :=
  if (0 <=? i)%Z then match regs st !! Z.to_nat i with Some s => s | None => ∅ end else ∅.

Definition sum_of (fi : nat) (s : list Summary) : Summary := match s !! fi with Some x => x | None => MkSummary [] [] end.
Definition flag (l : list bool) (k : nat) : bool := match l !! k with Some b => b | None => false end.

Definition is_value_copy (i : Inst) : bool := bool_decide (op i = CopyVal) && (ic i =? 1)%Z.
Definition is_value_new (i : Inst) : bool :=
  bool_decide (op i = NewObject) && match sym i with Some s => sy_isValue s | None => false end.

Definition int_range (n : Z) : list Z := map Z.of_nat (seq 0 (Z.to_nat n)).

Section AnalyzeFn.
Context (m : IrModule) (fi : nat) (fn : IrFunction).

(** [escapeSet], one id: allocations record the first reason, parameters the summary flag. *)
Definition escape_one (why : str) (st : AState) (i : Z) : AState :=
  if (0 <=? i)%Z then
    match esc st !! i with
    | Some _ => st
    | None => MkAState (regs st) (<[i := why]> (esc st)) (sums st) (summaryChanged st) (changed st)
    end
  else
    let p := Z.to_nat (- i - 1) in
    let s := sum_of fi (sums st) in
    if (p <? length (paramEscapes s))%nat && negb (flag (paramEscapes s) p) then
      MkAState (regs st) (esc st) (<[fi := MkSummary (<[p := true]> (paramEscapes s)) (paramToRet s)]> (sums st)) true (changed st)
    else st.
Definition escapeSet (s : Sites) (why : str) (st : AState) : AState := fold_left (escape_one why) (elements s) st.

(** [merge(regs[i], from)]. *)
Definition merge (i : Z) (from : Sites) (st : AState) : AState :=
  let into := reg i st in
  if (i <? 0)%Z || bool_decide (from ⊆ into) then st
  else set_regs (<[Z.to_nat i := into ∪ from]> (regs st)) true st.

Definition retaining : str := lit "passed to a retaining callee".

(** [callSinks]: one argument, then the window; the second component is [dstAliases]. *)
Definition call_arg (callee : nat) (base : Z) (acc : AState * Sites) (k : Z) : AState * Sites :=
  let '(st, alias) := acc in
  let cs := sum_of callee (sums st) in
  let r := reg (base + k) st in
  let st' := if flag (paramEscapes cs) (Z.to_nat k) then escapeSet r retaining st else st in
  (st', if flag (paramToRet cs) (Z.to_nat k) then alias ∪ r else alias).
Definition callSinks (callee : nat) (base argc : Z) (st : AState) : AState * Sites :=
  fold_left (call_arg callee base) (int_range argc) (st, ∅).

Definition argIsValueStruct (s : Sites) : bool :=
  bool_decide (s <> ∅) &&
  forallb (fun i => (0 <=? i)%Z &&
    match icode fn !! Z.to_nat i with Some si => is_value_copy si || is_value_new si | None => false end) (elements s).

Definition callee_of (i : Inst) : option nat := match decl i with Some d => find_decl (d_id d) (byDecl m) | None => None end.

(** The alias rules of one instruction. *)
Definition alias_step (st : AState) (pi : Z * Inst) : AState :=
  let '(pc, i) := pi in
  if isAlloc (op i) || is_value_copy i then
    let st1 := merge (ia i) {[pc]} st in
    let st2 := if bool_decide (op i = NewArray)
               then fold_left (fun s k => merge (ia i) (reg (ic i + k) s) s) (int_range (id_ i)) st1 else st1 in
    if bool_decide (op i = NewArraySized) && (id_ i =? 2)%Z then merge (ia i) (reg (ic i + 1) st2) st2 else st2
  else
    match op i with
    | Move | MoveClear | CopyVal | IndexStore => merge (ia i) (reg (ib i) st) st
    | Call => let '(st1, alias) := callSinks (Z.to_nat (ib i)) (ic i) (id_ i) st in merge (ia i) alias st1
    | CallDyn =>
        match callee_of i with
        | Some callee => let '(st1, alias) := callSinks callee (ic i) (id_ i) st in merge (ia i) alias st1
        | None =>
            match nativeInfo (sname i) with
            | Some ni =>
                let a0 := if selfToResult ni then reg (ic i) st else ∅ in
                let a1 := if argsToResult ni then
                            fold_left (fun a k => let r := reg (ic i + k) st in
                              if argIsValueStruct r then a else a ∪ r) (tail (int_range (id_ i))) a0
                          else a0 in
                merge (ia i) a1 st
            | None => st
            end
        end
    | _ => st
    end.

Definition indexed_code : list (Z * Inst) := combine (map Z.of_nat (seq 0 (length (icode fn)))) (icode fn).

Definition alias_pass (st : AState) : AState :=
  fold_left alias_step indexed_code (set_regs (regs st) false st).

(** [while (changed)]: the bound on the turns is the room the alias sets have. *)
Fixpoint alias_loop (fuel : nat) (st : AState) : AState :=
  match fuel with
  | 0 => st
  | S f => let st' := alias_pass st in if changed st' then alias_loop f st' else st'
  end.
Definition alias_fuel : nat := S (nregs fn * (length (icode fn) + nparams fn)).

(** [Ret]: allocations escape to the caller, parameters alias the result. *)
Definition ret_one (st : AState) (i : Z) : AState :=
  if (0 <=? i)%Z then escape_one (lit "returned to caller") st i
  else
    let p := Z.to_nat (- i - 1) in
    let s := sum_of fi (sums st) in
    if (p <? length (paramToRet s))%nat && negb (flag (paramToRet s) p) then
      MkAState (regs st) (esc st) (<[fi := MkSummary (paramEscapes s) (<[p := true]> (paramToRet s))]> (sums st)) true (changed st)
    else st.

(** The window [base, base + n) escapes, each argument [k] the callee retains. *)
Definition escape_args (base n : Z) (why : str) (keep : AState -> Z -> bool) (st : AState) : AState :=
  fold_left (fun s k => if keep s k then escapeSet (reg (base + k) s) why s else s) (int_range n) st.
Definition retains (callee : nat) (st : AState) (k : Z) : bool := flag (paramEscapes (sum_of callee (sums st))) (Z.to_nat k).

Definition sink_step (st : AState) (i : Inst) : AState :=
  match op i with
  | Ret => fold_left ret_one (elements (reg (ia i) st)) st
  | Throw => escapeSet (reg (ia i) st) (lit "thrown") st
  | SetMember | RawSet => escapeSet (reg (ia i) st) (lit "stored in an object") st
  | IndexStore => escapeSet (reg (id_ i) st) (lit "stored by index") st
  | CaptureVar => escapeSet (reg (ib i) st) (lit "captured by a closure") st
  | StoreGlobal => escapeSet (reg (ia i) st) (lit "stored in a global") st
  | CallNativeFn => escape_args (ic i) (id_ i) (lit "passed to a native") (fun _ _ => true) st
  | Call => escape_args (ic i) (id_ i) retaining (retains (Z.to_nat (ib i))) st
  | CallDyn =>
      match callee_of i with
      | Some callee => escape_args (ic i) (id_ i) retaining (retains callee) st
      | None => match nativeInfo (sname i) with
                | Some _ => st
                | None => escape_args (ic i) (id_ i) (lit "passed to an unknown callee") (fun _ _ => true) st
                end
      end
  | CallValue => escape_args (ic i) (id_ i) (lit "passed through a function value") (fun _ _ => true) st
  | Arith =>
      match decl i with
      | None =>
          if (bool_decide (reg (ib i) st <> ∅) || bool_decide (reg (ic i) st <> ∅))
             && negb (String.eqb (tokenKindName (tk i)) (tokenKindName TkEnd)) then
            let why := lit "operand of an unresolved operator" in
            let st1 := escapeSet (reg (ib i) st) why st in escapeSet (reg (ic i) st1) why st1
          else st
      | Some _ =>
          match callee_of i with
          | Some callee =>
              let why := lit "passed to a retaining operator" in
              let st1 := if retains callee st 0 then escapeSet (reg (ib i) st) why st else st in
              if retains callee st1 1 then escapeSet (reg (ic i) st1) why st1 else st1
          | None => st
          end
      end
  | _ => st
  end.

Definition param_sites (p : nat) : Sites := if (p <? nparams fn)%nat then {[ (- (Z.of_nat p + 1))%Z ]} else ∅.
Definition init_state (s : list Summary) : AState :=
  MkAState (map param_sites (seq 0 (nregs fn))) ∅ s false false.

Definition analyzeFn (s : list Summary) : AState :=
  fold_left sink_step (icode fn) (alias_loop alias_fuel (init_state s)).

End AnalyzeFn.

(** ** The rounds *)

Section Module_.
Context (m : IrModule).

Definition init_summaries : list Summary :=
  map (fun f => MkSummary (replicate (nparams f) false) (replicate (nparams f) false)) (functions m).

(** One round: every function in order, over the summaries as they stand. *)
Fixpoint round_from (fi : nat) (fns : list IrFunction) (s : list Summary) : list Summary * list Escapes * bool :=
  match fns with
  | [] => (s, [], false)
  | f :: fns' =>
      let st := analyzeFn m fi f s in
      let '(s', es, ch) := round_from (S fi) fns' (sums st) in
      (s', esc st :: es, summaryChanged st || ch)
  end.

(** [while (changed && rounds < cap)]; returns the last round's escapes. *)
Fixpoint rounds_loop (cap : nat) (s : list Summary) (es : list Escapes) : list Summary * list Escapes :=
  match cap with
  | 0 => (s, es)
  | S n => let '(s', es', ch) := round_from 0 (functions m) s in if ch then rounds_loop n s' es' else (s', es')
  end.

Definition kRounds : nat := 32.

Record AllocSite := MkAllocSite { as_fn : nat; as_pc : Z; as_op : Op; escapes : bool; reason : str }.

(** Classify one site; [reason.rfind("passed t", 0) == 0] is a prefix test. *)
Definition classify (fi : nat) (es : Escapes) (pi : Z * Inst) : list AllocSite :=
  let '(pc, i) := pi in
  let cvAlloc := is_value_copy i in
  if isAlloc (op i) || cvAlloc then
    let valueStruct := is_value_new i || cvAlloc in
    let own := match es !! pc with
               | None => true
               | Some r => valueStruct && has_at r 0 (lit "passed t")
               end in
    [MkAllocSite fi pc (op i) (negb own) (if own then [] else default [] (es !! pc))]
  else [].

Definition sites_of (fe : nat * (IrFunction * Escapes)) : list AllocSite :=
  concat (map (classify fe.1 fe.2.2) (indexed_code fe.2.1)).

Definition analyzeOwnership_capped (cap : nat) : list AllocSite :=
  let '(_, es) := rounds_loop cap init_summaries (map (fun _ => ∅) (functions m)) in
  concat (map sites_of (combine (seq 0 (length (functions m))) (combine (functions m) es))).

Definition analyzeOwnership : list AllocSite := analyzeOwnership_capped kRounds.

End Module_.

(** ** A call chain longer than the round limit *)

(** Function [k] of the chain passes its parameter on to function [k + 1]; the
    last one stores it in a global; the first one allocates the value. *)
Definition chain_first : IrFunction :=
  plain_fn (lit "f0") 0 2 [inst NewArray 0 0 0 0; inst Call 1 1 0 1; inst RetVoid 0 0 0 0].
Definition chain_middle (k : nat) : IrFunction :=
  plain_fn (lit "f") 1 2 [inst Call 1 (Z.of_nat (S k)) 0 1; inst RetVoid 0 0 0 0].
Definition chain_last : IrFunction := plain_fn (lit "fn") 1 1 [inst StoreGlobal 0 0 0 0; inst RetVoid 0 0 0 0].
Definition chain (n : nat) : IrModule :=
  plain_module (chain_first :: map chain_middle (seq 1 n) ++ [chain_last]) [].

(** The interprocedural iteration stops at 32 rounds whether or not the
    summaries are stable: along a chain of 40 calls to a function that stores
    its argument in a global, the array the first function allocates is
    reported scope-owned, although iterating to the fixpoint reports that it
    escapes. *)
Theorem ownership_rounds_cap :
  exists site, In site (analyzeOwnership (chain 40)) /\ as_fn site = 0 /\ as_pc site = 0%Z /\ escapes site = false /\
    exists site', In site' (analyzeOwnership_capped (chain 40) 64) /\ as_fn site' = 0 /\ as_pc site' = 0%Z /\
      escapes site' = true.
Proof.
  eexists. split; [|split; [|split; [|split]]].
  - vm_compute. left. reflexivity.
  - reflexivity.
  - reflexivity.
  - reflexivity.
  - eexists. split; [|split; [|split]]; [vm_compute; left; reflexivity|reflexivity..].
Qed.

(** Elements read back out of a container are not tracked: a function
    that puts a fresh array into another array, reads it back by index and
    returns it has that inner array reported scope-owned. *)
Theorem ownership_element_escape :
  let fn := plain_fn (lit "f") 0 4
    [inst NewMap 1 0 0 0; inst NewArray 0 0 1 1; inst LoadConst 2 0 0 0; inst GetIndex 3 0 2 0; inst Ret 3 0 0 0] in
  exists site, In site (analyzeOwnership (plain_module [fn] [])) /\ as_op site = NewMap /\ escapes site = false.
Proof.
  intros fn. eexists. split; [|split]; [vm_compute; left; reflexivity|reflexivity..].
Qed.
