(* ===== verification/OwnershipFacts.v ===== *)
(** * What the escape analysis guarantees

    For a function whose instructions write registers of its own file, the
    alias loop of [analyzeFn] ends at a fixpoint, and the result is a
    certificate: an assignment of allocation sites to registers, closed under
    the alias rules, in which every site that reaches a sink is marked as
    escaping. *)

From S2P Require Import Prelude Token Ir Ownership.

(** The instructions the alias rules write a register for. *)
Definition defines (i : Inst) : bool :=
  isAlloc (op i) || match op i with Move | MoveClear | CopyVal | IndexStore | Call | CallDyn => true | _ => false end.

Definition fn_wf (fn : IrFunction) : Prop :=
  Forall (fun i => defines i = true -> (0 <= ia i < Z.of_nat (nregs fn))%Z) (icode fn).

Section Facts.
Context (m : IrModule) (fi : nat) (fn : IrFunction).

Definition universe : Sites :=
  list_to_set (map Z.of_nat (seq 0 (length (icode fn))) ++ map (fun p => (- (Z.of_nat p + 1))%Z) (seq 0 (nparams fn))).

Definition total (r : list Sites) : nat := list_sum (map size r).

Definition in_universe (st : AState) : Prop := length (regs st) = nregs fn /\ Forall (fun s => s ⊆ universe) (regs st).

Lemma reg_in_universe st i : in_universe st -> reg i st ⊆ universe.
Proof.
  intros [_ H]. unfold reg. destruct (0 <=? i)%Z; [|set_solver]. destruct (regs st !! Z.to_nat i) as [s|] eqn:E; [|set_solver].
  rewrite Forall_lookup in H. by eapply H.
Qed.

Lemma total_insert (r : list Sites) i s s' : r !! i = Some s -> size s < size s' -> total r < total (<[i := s']> r).
Proof.
  unfold total. revert i. induction r as [|x r IH]; intros [|i]; cbn [lookup list_lookup]; [done|done| |].
  - intros [= ->] H. cbn [insert list_insert map]. rewrite !list_sum_cons. lia.
  - intros Hi H. specialize (IH i Hi H). cbn [insert list_insert map]. rewrite !list_sum_cons.
    by apply Nat.add_lt_mono_l.
Qed.

Lemma set_size_le (l : list Z) : size (list_to_set l : Sites) <= length l.
Proof.
  induction l as [|x l IH]; cbn [list_to_set length]; [by rewrite size_empty|]. rewrite size_union_alt, size_singleton.
  assert (size ((list_to_set l : Sites) ∖ {[x]}) <= size (list_to_set l : Sites)) by (apply subseteq_size; set_solver). lia.
Qed.

Lemma total_bound st : in_universe st -> total (regs st) <= nregs fn * (length (icode fn) + nparams fn).
Proof.
  intros [<- H]. assert (size universe <= length (icode fn) + nparams fn) as Hu.
  { unfold universe. etrans; [apply set_size_le|]. rewrite length_app, !length_map, !length_seq. done. }
  unfold total. induction H as [|s r Hs H IH]; cbn [map]; [cbn; lia|].
  rewrite list_sum_cons. apply subseteq_size in Hs. cbn [length Nat.mul]. lia.
Qed.

(** A step that leaves the alias sets alone, or grows them and says so. *)
Definition grow (st st' : AState) : Prop :=
  (in_universe st -> in_universe st') /\
  ((regs st' = regs st /\ changed st' = changed st) \/
   (changed st' = true /\ (in_universe st -> total (regs st) < total (regs st')))).

Lemma grow_refl st : grow st st.
Proof. split; auto. Qed.

Lemma grow_trans a b c : grow a b -> grow b c -> grow a c.
Proof.
  intros [U1 H1] [U2 H2]. split; [auto|].
  destruct H1 as [[R1 C1]|[C1 T1]], H2 as [[R2 C2]|[C2 T2]].
  - left. split; congruence.
  - right. split; [done|]. intros Ha. specialize (T2 (U1 Ha)). by rewrite R1 in T2.
  - right. split; [congruence|]. intros Ha. rewrite R2. auto.
  - right. split; [done|]. intros Ha. specialize (T1 Ha). specialize (T2 (U1 Ha)). lia.
Qed.

Lemma grow_fold {A} (f : AState -> A -> AState) l st :
  (forall st x, In x l -> grow st (f st x)) -> grow st (fold_left f l st).
Proof.
  revert st. induction l as [|x l IH]; intros st H; cbn; [apply grow_refl|].
  eapply grow_trans; [apply H; by left|]. apply IH. intros s y Hy. apply H. by right.
Qed.

(** If a fold of such steps ends unchanged, every step of it was a no-op. *)
Lemma grow_fold_stable {A} (f : AState -> A -> AState) l1 x l2 st :
  (forall st y, In y (l1 ++ x :: l2) -> grow st (f st y)) -> changed (fold_left f (l1 ++ x :: l2) st) = false ->
  let s1 := fold_left f l1 st in
  regs s1 = regs st /\ regs (f s1 x) = regs st /\ changed (f s1 x) = false /\
  regs (fold_left f (l1 ++ x :: l2) st) = regs st.
Proof.
  intros Hg Hc. rewrite fold_left_app in *. cbn [fold_left] in *. set (s1 := fold_left f l1 st) in *.
  assert (grow st s1) as G1 by (apply grow_fold; intros; apply Hg, in_app_iff; auto).
  assert (grow s1 (f s1 x)) as G2 by (apply Hg, in_app_iff; cbn; auto).
  assert (grow (f s1 x) (fold_left f l2 (f s1 x))) as G3 by (apply grow_fold; intros; apply Hg, in_app_iff; cbn; auto).
  destruct G3 as [_ [[R3 C3]|[C3 _]]]; [|congruence]. destruct G2 as [_ [[R2 C2]|[C2 _]]]; [|congruence].
  destruct G1 as [_ [[R1 C1]|[C1 _]]]; [|congruence]. repeat split; congruence.
Qed.

(** ** The summaries and escapes only grow *)

Definition flags_le (a b : list bool) : Prop := length a = length b /\ forall k, flag a k = true -> flag b k = true.
Definition sums_le (a b : list Summary) : Prop :=
  forall c, flags_le (paramEscapes (sum_of c a)) (paramEscapes (sum_of c b)) /\
            flags_le (paramToRet (sum_of c a)) (paramToRet (sum_of c b)).

(** Marking steps: they leave the registers and [changed] alone. *)
Definition marks (st st' : AState) : Prop :=
  regs st' = regs st /\ changed st' = changed st /\ sums_le (sums st) (sums st') /\
  forall i, esc st !! i <> None -> esc st' !! i <> None.

Lemma marks_refl st : marks st st.
Proof. by repeat split. Qed.

Lemma marks_trans a b c : marks a b -> marks b c -> marks a c.
Proof.
  intros (R1 & C1 & S1 & E1) (R2 & C2 & S2 & E2). split; [congruence|]. split; [congruence|].
  split; [|auto]. intros x. destruct (S1 x) as [[] []], (S2 x) as [[] []]. split; split; auto; congruence.
Qed.

Lemma marks_fold {A} (f : AState -> A -> AState) l st : (forall st x, marks st (f st x)) -> marks st (fold_left f l st).
Proof.
  intros H. revert st. induction l as [|x l IH]; intros st; cbn; [apply marks_refl|].
  eapply marks_trans; [apply H|apply IH].
Qed.

Lemma marks_grow st st' : marks st st' -> grow st st'.
Proof.
  intros (R & C & _). split; [|auto]. unfold in_universe. by rewrite R.
Qed.

Lemma flag_insert l p k : flag l k = true -> flag (<[p := true]> l) k = true.
Proof.
  unfold flag. destruct (decide (p = k)) as [->|Hne]; [|by rewrite list_lookup_insert_ne].
  destruct (l !! k) eqn:E; [|done]. intros _. rewrite list_lookup_insert_eq; [done|]. by eapply lookup_lt_Some.
Qed.

Lemma sums_le_insert s x : flags_le (paramEscapes (sum_of fi s)) (paramEscapes x) ->
  flags_le (paramToRet (sum_of fi s)) (paramToRet x) -> sums_le s (<[fi := x]> s).
Proof.
  intros H1 H2 c. unfold sum_of in *. destruct (decide (fi = c)) as [->|Hne].
  - destruct (s !! c) eqn:E.
    + rewrite list_lookup_insert_eq by by eapply lookup_lt_Some. done.
    + rewrite list_insert_ge by by apply lookup_ge_None. by rewrite E.
  - by rewrite list_lookup_insert_ne.
Qed.

Lemma escape_one_marks why st i : marks st (escape_one fi why st i).
Proof.
  unfold escape_one. destruct (0 <=? i)%Z.
  - destruct (esc st !! i) eqn:E; [apply marks_refl|]. split; [done|]. split; [done|]. split; [done|].
    cbn [esc]. intros j Hj. destruct (decide (i = j)) as [->|]; [by rewrite lookup_insert_eq|by rewrite lookup_insert_ne].
  - case_match; [|apply marks_refl]. split; [done|]. split; [done|]. split; [|done]. cbn [sums]. apply sums_le_insert; cbn; [|done].
    split; [by rewrite length_insert|]. intros k. apply flag_insert.
Qed.

Lemma ret_one_marks st i : marks st (ret_one fi st i).
Proof.
  unfold ret_one. destruct (0 <=? i)%Z; [apply escape_one_marks|].
  case_match; [|apply marks_refl]. split; [done|]. split; [done|]. split; [|done]. cbn [sums]. apply sums_le_insert; cbn; [done|].
  split; [by rewrite length_insert|]. intros k. apply flag_insert.
Qed.

Lemma escapeSet_marks s why st : marks st (escapeSet fi s why st).
Proof. apply marks_fold. apply escape_one_marks. Qed.

Lemma fold_marks_esc {A} (f : AState -> A -> AState) l st x i :
  (forall st y, marks st (f st y)) -> In x l -> (forall st, esc (f st x) !! i <> None) -> esc (fold_left f l st) !! i <> None.
Proof.
  intros Hm Hx Hf. apply in_split in Hx as (l1 & l2 & ->). rewrite fold_left_app. cbn [fold_left].
  eapply (marks_fold f l2); [done|]. apply Hf.
Qed.

Lemma escape_one_esc why st i : (0 <= i)%Z -> esc (escape_one fi why st i) !! i <> None.
Proof.
  intros H. unfold escape_one. destruct (Z.leb_spec 0 i); [|lia]. destruct (esc st !! i) eqn:E; [congruence|].
  cbn [esc]. by rewrite lookup_insert_eq.
Qed.

Lemma escapeSet_esc s why st i : i ∈ s -> (0 <= i)%Z -> esc (escapeSet fi s why st) !! i <> None.
Proof.
  intros Hi H0. apply (fold_marks_esc _ _ _ i).
  - apply escape_one_marks.
  - by apply list_elem_of_In, elem_of_elements.
  - intros st'. by apply escape_one_esc.
Qed.

(** ** The alias rules *)

Lemma merge_grow i from st : (0 <= i < Z.of_nat (nregs fn))%Z -> (in_universe st -> from ⊆ universe) -> grow st (merge i from st).
Proof.
  intros Hi Hf. unfold merge. destruct (Z.ltb_spec i 0); [lia|]. cbn [orb].
  destruct (bool_decide_reflect (from ⊆ reg i st)) as [Hs|Hs]; [apply grow_refl|].
  assert (in_universe st -> exists s, regs st !! Z.to_nat i = Some s /\ reg i st = s) as Hreg.
  { intros [Hl _]. destruct (lookup_lt_is_Some_2 (regs st) (Z.to_nat i)) as [s E]; [lia|]. exists s. split; [done|].
    unfold reg. destruct (Z.leb_spec 0 i); [|lia]. by rewrite E. }
  split; cbn [set_regs regs changed].
  - intros Hu. pose proof (reg_in_universe st i Hu). destruct Hu as [Hl Hr]. specialize (Hf (conj Hl Hr)).
    split; cbn [set_regs regs]; [by rewrite length_insert|]. apply Forall_insert; [done|set_solver].
  - right. split; [done|]. intros Hu. destruct (Hreg Hu) as (s & E & Er). rewrite Er in *.
    apply (total_insert _ _ s); [done|]. apply subset_size. set_solver.
Qed.

Lemma merge_same i from st : changed (merge i from st) = false -> changed st = false /\ merge i from st = st.
Proof. unfold merge. case_match; [done|]. cbn [set_regs changed]. done. Qed.

Lemma merge_closed i from st : (0 <= i)%Z -> changed (merge i from st) = false -> from ⊆ reg i st.
Proof.
  intros Hi. unfold merge. destruct (Z.ltb_spec i 0); [lia|]. cbn [orb].
  by destruct (bool_decide_reflect (from ⊆ reg i st)).
Qed.

Lemma call_arg_marks callee base acc k : marks acc.1 (call_arg fi callee base acc k).1.
Proof.
  destruct acc as [st alias]. cbn. destruct (flag _ _); [apply escapeSet_marks|apply marks_refl].
Qed.

Lemma callSinks_spec callee base argc st :
  marks st (callSinks fi callee base argc st).1 /\
  (in_universe st -> (callSinks fi callee base argc st).2 ⊆ universe) /\
  (forall k, In k (int_range argc) -> flag (paramToRet (sum_of callee (sums st))) (Z.to_nat k) = true ->
     reg (base + k) st ⊆ (callSinks fi callee base argc st).2).
Proof.
  unfold callSinks. generalize (int_range argc). intros l.
  assert (forall acc, marks st acc.1 -> (in_universe st -> acc.2 ⊆ universe) ->
    let r := fold_left (call_arg fi callee base) l acc in
    marks st r.1 /\ (in_universe st -> r.2 ⊆ universe) /\ acc.2 ⊆ r.2 /\
    (forall k, In k l -> flag (paramToRet (sum_of callee (sums st))) (Z.to_nat k) = true -> reg (base + k) st ⊆ r.2)) as H.
  { induction l as [|k l IH]; intros [st1 al] Hm Hu; cbn [fold_left fst snd] in *.
    - repeat split; try done; apply Hm.
    - pose proof (call_arg_marks callee base (st1, al) k) as Hk. pose proof (marks_trans _ _ _ Hm Hk) as Hm2.
      assert (reg (base + k) st1 = reg (base + k) st) as Er by (unfold reg; by rewrite (proj1 Hm)).
      assert (in_universe st -> (call_arg fi callee base (st1, al) k).2 ⊆ universe) as Hu2.
      { intros Hin. cbn. specialize (Hu Hin). pose proof (reg_in_universe st (base + k) Hin). rewrite Er. case_match; set_solver. }
      destruct (IH _ Hm2 Hu2) as (H1 & H2 & H3 & H4). split; [done|]. split; [done|].
      assert (al ⊆ (call_arg fi callee base (st1, al) k).2) as Ha by (cbn; case_match; set_solver).
      split; [etrans; [exact Ha|exact H3]|].
      intros k' [->|Hk'] Hf; [|by apply H4]. etrans; [|exact H3]. cbn.
      destruct Hm as (_ & _ & Hs & _). rewrite (proj2 (proj2 (Hs callee)) _ Hf), Er. set_solver. }
  destruct (H (st, ∅)) as (H1 & H2 & _ & H4); [apply marks_refl|set_solver|]. done.
Qed.

Lemma native_alias_universe st base l a0 : in_universe st -> a0 ⊆ universe ->
  fold_left (fun a k => let r := reg (base + k) st in if argIsValueStruct fn r then a else a ∪ r) l a0 ⊆ universe.
Proof.
  intros Hu. revert a0. induction l as [|k l IH]; intros a0 H0; cbn [fold_left]; [done|]. apply IH.
  pose proof (reg_in_universe st (base + k) Hu). cbn. case_match; set_solver.
Qed.

Lemma alias_step_grow st pc i : (0 <= pc < Z.of_nat (length (icode fn)))%Z ->
  (defines i = true -> (0 <= ia i < Z.of_nat (nregs fn))%Z) -> grow st (alias_step m fi fn st (pc, i)).
Proof.
  intros Hpc Hi. unfold alias_step. unfold defines in Hi.
  destruct (isAlloc (op i) || is_value_copy i) eqn:Ea.
  - assert (0 <= ia i < Z.of_nat (nregs fn))%Z as Hr.
    { apply Hi. apply orb_prop in Ea as [->|Ec]; [done|]. unfold is_value_copy in Ec. bool_hyps.
      match goal with H : bool_decide _ = true |- _ => apply bool_decide_eq_true in H as -> end. apply orb_true_r. }
    assert (grow st (merge (ia i) {[pc]} st)) as G1.
    { apply merge_grow; [done|]. intros _. apply singleton_subseteq_l, elem_of_list_to_set, list_elem_of_In, in_app_iff.
      left. apply in_map_iff. exists (Z.to_nat pc). rewrite in_seq. lia. }
    eapply grow_trans; [exact G1|]. set (st1 := merge (ia i) {[pc]} st).
    assert (forall st2 k, grow st2 (merge (ia i) (reg k st2) st2)) as Gm.
    { intros. apply merge_grow; [done|]. apply reg_in_universe. }
    eapply (grow_trans _ (if bool_decide (op i = NewArray)
      then fold_left (fun s k => merge (ia i) (reg (ic i + k) s) s) (int_range (id_ i)) st1 else st1)).
    + destruct (bool_decide (op i = NewArray)); [|apply grow_refl]. apply grow_fold. intros; apply Gm.
    + destruct (bool_decide (op i = NewArraySized) && (id_ i =? 2)%Z); [apply Gm|apply grow_refl].
  - destruct (op i); try apply grow_refl; rewrite ?orb_true_r in Hi; specialize (Hi eq_refl);
      try (apply merge_grow; [done|apply reg_in_universe]).
    + destruct (callSinks_spec (Z.to_nat (ib i)) (ic i) (id_ i) st) as (Hm & Hu & _).
      destruct (callSinks _ _ _ _ _) as [st1 al]. cbn [fst snd] in *. eapply grow_trans; [by apply marks_grow|].
      apply merge_grow; [done|]. intros Hin. apply Hu. unfold in_universe in *. by rewrite (proj1 Hm) in Hin.
    + destruct (callee_of m i) as [callee|].
      * destruct (callSinks_spec callee (ic i) (id_ i) st) as (Hm & Hu & _).
        destruct (callSinks _ _ _ _ _) as [st1 al]. cbn [fst snd] in *. eapply grow_trans; [by apply marks_grow|].
        apply merge_grow; [done|]. intros Hin. apply Hu. unfold in_universe in *. by rewrite (proj1 Hm) in Hin.
      * destruct (nativeInfo (sname i)) as [ni|]; [|apply grow_refl]. apply merge_grow; [done|]. intros Hin.
        pose proof (reg_in_universe st (ic i) Hin).
        destruct (argsToResult ni), (selfToResult ni); try apply native_alias_universe; try done; set_solver.
Qed.


(** ** The loop ends at a fixpoint *)

Lemma grow_stable st st' : grow st st' -> changed st' = false -> regs st' = regs st /\ changed st = false.
Proof. intros [_ [[R C]|[C _]]] H; [|congruence]. split; congruence. Qed.

Lemma indexed_code_spec pc i : In (pc, i) (indexed_code fn) <-> exists n, pc = Z.of_nat n /\ icode fn !! n = Some i.
Proof.
  unfold indexed_code. generalize (icode fn). intros l.
  assert (forall k, In (pc, i) (combine (map Z.of_nat (seq k (length l))) l) <->
    exists n, pc = Z.of_nat (k + n) /\ l !! n = Some i) as H; [|by rewrite (H 0)].
  induction l as [|x l IH]; intros k; cbn [length seq map combine In].
  - split; [done|]. intros (n & _ & Hn). by destruct n.
  - rewrite IH. split.
    + intros [[= <- <-]|(n & -> & Hn)]; [exists 0; split; [f_equal; lia|done]|]. exists (S n). split; [f_equal; lia|done].
    + intros ([|n] & -> & Hn); [left; cbn in Hn; injection Hn as ->; do 2 f_equal; lia|].
      right. exists n. split; [f_equal; lia|done].
Qed.

Lemma init_in_universe s : in_universe (init_state fn s).
Proof.
  split; cbn [init_state regs]; [by rewrite length_map, length_seq|].
  apply Forall_forall. intros x Hx. apply list_elem_of_fmap in Hx as (p & -> & _). unfold param_sites.
  destruct (Nat.ltb_spec p (nparams fn)); [|set_solver].
  apply singleton_subseteq_l, elem_of_list_to_set, list_elem_of_In, in_app_iff. right.
  apply in_map_iff. exists p. rewrite in_seq. split; [done|lia].
Qed.

(** ** What every step keeps

    The alias sets, escapes and summary flags only grow, and the summaries
    stay as they are unless [summaryChanged] is raised. *)
Definition keeps (st st' : AState) : Prop :=
  (forall i, reg i st ⊆ reg i st') /\ sums_le (sums st) (sums st') /\
  (forall i, esc st !! i <> None -> esc st' !! i <> None) /\
  (summaryChanged st' = false -> summaryChanged st = false /\ sums st' = sums st).

Lemma keeps_refl st : keeps st st.
Proof. by repeat split. Qed.

Lemma keeps_trans a b c : keeps a b -> keeps b c -> keeps a c.
Proof.
  intros (R1 & S1 & E1 & H1) (R2 & S2 & E2 & H2). split; [intros i; etrans; [apply R1|apply R2]|].
  split; [intros x; destruct (S1 x) as [[] []], (S2 x) as [[] []]; split; split; auto; congruence|].
  split; [auto|]. intros H. apply H2 in H as [H ->]. by apply H1.
Qed.

Lemma keeps_fold {A} (f : AState -> A -> AState) l st : (forall st x, keeps st (f st x)) -> keeps st (fold_left f l st).
Proof.
  intros H. revert st. induction l as [|x l IH]; intros st; cbn; [apply keeps_refl|].
  eapply keeps_trans; [apply H|apply IH].
Qed.

Lemma marks_keeps st st' : marks st st' -> (summaryChanged st' = false -> summaryChanged st = false /\ sums st' = sums st) ->
  keeps st st'.
Proof. intros (R & _ & S & E) H. split; [|done]. intros i. unfold reg. by rewrite R. Qed.

Lemma escape_one_keeps why st i : keeps st (escape_one fi why st i).
Proof. apply marks_keeps; [apply escape_one_marks|]. unfold escape_one. cbn zeta. destruct (0 <=? i)%Z; [by destruct (esc st !! i)|]. by destruct (_ && _). Qed.

Lemma ret_one_keeps st i : keeps st (ret_one fi st i).
Proof. apply marks_keeps; [apply ret_one_marks|]. unfold ret_one. cbn zeta. destruct (0 <=? i)%Z; [apply escape_one_keeps|]. by destruct (_ && _). Qed.

Lemma escapeSet_keeps s why st : keeps st (escapeSet fi s why st).
Proof. apply keeps_fold, escape_one_keeps. Qed.

Lemma merge_keeps i from st : keeps st (merge i from st).
Proof.
  unfold merge. destruct (_ || _) eqn:E; [apply keeps_refl|]. apply orb_false_iff in E as [E _].
  split; [|done]. intros j. unfold reg. cbn [set_regs regs]. destruct (Z.leb_spec 0 j); [|done].
  destruct (decide (Z.to_nat i = Z.to_nat j)) as [Eij|]; [|by rewrite list_lookup_insert_ne].
  assert (i = j) as -> by dlia. destruct (regs st !! Z.to_nat j) as [s|] eqn:Es; [|set_solver].
  rewrite list_lookup_insert_eq by by eapply lookup_lt_Some. destruct (Z.leb_spec 0 j); [set_solver|lia].
Qed.

Lemma callSinks_keeps callee base argc st : keeps st (callSinks fi callee base argc st).1.
Proof.
  unfold callSinks. generalize (∅ : Sites) (int_range argc). intros al l. revert st al.
  induction l as [|k l IH]; intros st al; cbn [fold_left]; [apply keeps_refl|].
  destruct (call_arg fi callee base (st, al) k) as [st1 al1] eqn:E. eapply keeps_trans; [|apply IH].
  cbn in E. injection E as <- _. case_match; [apply escapeSet_keeps|apply keeps_refl].
Qed.

Lemma call_merge_keeps a callee base argc st :
  keeps st (let '(st1, alias) := callSinks fi callee base argc st in merge a alias st1).
Proof.
  pose proof (callSinks_keeps callee base argc st). destruct (callSinks _ _ _ _ _).
  eapply keeps_trans; [done|apply merge_keeps].
Qed.

Lemma alias_step_keeps st pi : keeps st (alias_step m fi fn st pi).
Proof.
  destruct pi as [pc i]. unfold alias_step. destruct (_ || _).
  - eapply keeps_trans; [apply merge_keeps|]. set (st1 := merge (ia i) {[pc]} st).
    eapply (keeps_trans _ (if bool_decide (op i = NewArray)
      then fold_left (fun s k => merge (ia i) (reg (ic i + k) s) s) (int_range (id_ i)) st1 else st1)).
    + destruct (bool_decide _); [|apply keeps_refl]. apply keeps_fold. intros. apply merge_keeps.
    + destruct (_ && _); [apply merge_keeps|apply keeps_refl].
  - destruct (op i); try apply keeps_refl; try apply merge_keeps; [apply call_merge_keeps|].
    destruct (callee_of m i); [apply call_merge_keeps|]. destruct (nativeInfo _); [apply merge_keeps|apply keeps_refl].
Qed.

Lemma alias_pass_keeps st : keeps st (alias_pass m fi fn st).
Proof.
  unfold alias_pass. eapply (keeps_trans _ (set_regs (regs st) false st)); [by repeat split|].
  apply keeps_fold, alias_step_keeps.
Qed.

Lemma alias_loop_keeps fuel st : keeps st (alias_loop m fi fn fuel st).
Proof.
  revert st. induction fuel as [|f IH]; intros st; cbn [alias_loop]; [apply keeps_refl|].
  pose proof (alias_pass_keeps st). destruct (changed _); [|done]. by eapply keeps_trans.
Qed.

Lemma sink_step_marks_keeps st i : marks st (sink_step m fi st i) /\ keeps st (sink_step m fi st i).
Proof.
  assert (forall s w st, marks st (escapeSet fi s w st) /\ keeps st (escapeSet fi s w st)) as He
    by (split; [apply escapeSet_marks|apply escapeSet_keeps]).
  assert (forall b n w k st, marks st (escape_args fi b n w k st) /\ keeps st (escape_args fi b n w k st)) as Ha.
  { intros. split; [apply marks_fold|apply keeps_fold]; intros; destruct (k _ _); try apply He;
      [apply marks_refl|apply keeps_refl]. }
  assert (marks st st /\ keeps st st) as Hr by (split; [apply marks_refl|apply keeps_refl]).
  unfold sink_step. destruct (op i); try apply He; try apply Ha; try exact Hr.
  - destruct (decl i).
    + destruct (callee_of m i) as [c|]; [|done]. cbn zeta.
      assert (forall st (b : bool) s w, marks st (if b then escapeSet fi s w st else st) /\ keeps st (if b then escapeSet fi s w st else st)) as Hb.
      { intros. destruct b; [apply He|]. split; [apply marks_refl|apply keeps_refl]. }
      split; [eapply marks_trans; apply Hb|eapply keeps_trans; apply Hb].
    + destruct (_ && _); [|done]. split; [eapply marks_trans; apply He|eapply keeps_trans; apply He].
  - split; [apply marks_fold, ret_one_marks|apply keeps_fold, ret_one_keeps].
  - destruct (callee_of m i); [apply Ha|]. destruct (nativeInfo _); [done|apply Ha].
Qed.

Hypothesis wf : fn_wf fn.

Lemma alias_step_code_grow st pi : In pi (indexed_code fn) -> grow st (alias_step m fi fn st pi).
Proof.
  destruct pi as [pc i]. intros Hin. apply indexed_code_spec in Hin as (n & -> & Hn). apply alias_step_grow.
  - apply lookup_lt_Some in Hn. lia.
  - unfold fn_wf in wf. rewrite Forall_lookup in wf. by apply (wf n).
Qed.

Lemma alias_pass_grow st : let st' := alias_pass m fi fn st in
  (in_universe st -> in_universe st') /\
  (changed st' = true -> in_universe st -> total (regs st) < total (regs st')).
Proof.
  pose proof (grow_fold (alias_step m fi fn) (indexed_code fn) (set_regs (regs st) false st)) as [U H].
  { intros. by apply alias_step_code_grow. }
  cbn zeta. unfold alias_pass. split; [by intros; apply U|]. intros Hc Hu.
  destruct H as [[_ C]|[_ T]]; [rewrite C in Hc; done|]. by apply T.
Qed.

(** With room for one turn per site a register lacks, the loop ends on a pass that changed nothing. *)
Lemma alias_loop_stable fuel st : in_universe st ->
  nregs fn * (length (icode fn) + nparams fn) < fuel + total (regs st) ->
  let st' := alias_loop m fi fn fuel st in
  changed st' = false /\ in_universe st' /\ exists st0, keeps st st0 /\ st' = alias_pass m fi fn st0.
Proof.
  revert st. induction fuel as [|f IH]; intros st Hu Hf; cbn [alias_loop].
  - pose proof (total_bound st Hu). lia.
  - destruct (alias_pass_grow st) as [U T]. destruct (changed (alias_pass m fi fn st)) eqn:Ec.
    + destruct (IH (alias_pass m fi fn st)) as (Hc & Hi & st0 & Hk & E); [by apply U|specialize (T eq_refl Hu); lia|].
      split; [done|]. split; [done|]. exists st0. split; [|done]. eapply keeps_trans; [apply alias_pass_keeps|done].
    + split; [done|]. split; [by apply U|]. exists st. split; [apply keeps_refl|done].
Qed.

End Facts.
