(* ===== verification/OwnershipSound.v ===== *)
(** * Soundness of the escape analysis

    The specification is declarative and needs no summaries: [flows] says that in
    a function a register can be, or hold, an object allocated there or an
    argument, by what each instruction of the interpreter does (operators,
    constructors, accessors and reads out of containers included), and [leaks]
    that the object outlives the call.  The analysis follows only a part of this,
    and [exposed] names the rest.  When the summaries settle within the 32
    rounds, a site that [analyzeOwnership] reports scope-owned leaks only if it
    is exposed. *)

From S2P Require Import Prelude Token Value Ir Ownership OwnershipFacts.

Definition allocates (i : Inst) : bool := isAlloc (op i) || is_value_copy i.

Section Spec.
Context (m : IrModule).

Definition code_at (fi pc : nat) (i : Inst) : Prop :=
  exists fn, functions m !! fi = Some fn /\ icode fn !! pc = Some i.

Definition window (i : Inst) : list Z := map (fun k => ic i + k)%Z (int_range (id_ i)).

(** *** What is followed

    In a function: the object an instruction allocates, the value of an
    argument, and something the value of an argument holds.  A register either
    is what is followed ([false]) or holds it somewhere inside ([true]). *)
Inductive Site := Alloc (pc : nat) | Param (k : nat) | Inside (k : nat).
Definition passed (b : bool) (k : nat) : Site := if b then Inside k else Param k.

(** The natives that keep no argument; of these, some answer what they are given
    or what it holds. *)
Definition harmless : list str := map lit
  ["add"; "with"; "without"; "at"; "keys"; "values"; "length"; "has"; "isEmpty"; "contains"; "indexOf"; "toString"; "charAt";
   "subStr"; "toUpper"; "toLower"; "trim"; "startsWith"; "endsWith"; "abs"; "max"; "min"]%string.
Definition native_dyn (i : Inst) : bool := bool_decide (op i = CallDyn) && match callee_of m i with None => true | _ => false end.

Definition same (r : Z) : list (Z * (bool * bool)) := [(r, (false, false)); (r, (true, true))].
Definition wrap (r : Z) : list (Z * (bool * bool)) := [(r, (false, true)); (r, (true, true))].
Definition unwrap (r : Z) : list (Z * (bool * bool)) := [(r, (true, false)); (r, (true, true))].

Definition native_transfers (i : Inst) : list (Z * (bool * bool)) :=
  if eqs (sname i) (lit "add") || eqs (sname i) (lit "with") then same (ic i) ++ (tail (window i) ≫= wrap)
  else if eqs (sname i) (lit "without") then same (ic i)
  else if eqs (sname i) (lit "at") then unwrap (ic i)
  else if eqs (sname i) (lit "keys") || eqs (sname i) (lit "values") then [(ic i, (true, true))]
  else [].

(** How the result comes to be or to hold what an operand is or holds, by the
    instruction itself.  What is stored in an object, a global or a closure is
    taken to have leaked, and is not followed further. *)
Definition moves (i : Inst) : list (Z * (bool * bool)) :=
  match op i with
  | Move | MoveClear | CopyVal => same (ib i)
  | NewArray => window i ≫= wrap
  | NewArraySized => if (id_ i =? 2)%Z then wrap (ic i + 1) else []
  | MakeRange => wrap (ib i) ++ wrap (ic i)
  | IndexStore => same (ib i) ++ wrap (ic i)
  | GetIndex | IterAt | GetMember | RawGet => unwrap (ib i)
  | Await => same (ib i) ++ unwrap (ib i)
  | CallDyn => if native_dyn i then native_transfers i else []
  | _ => []
  end.

(** [ColGet] reads an element and then a field of it; the element is in a
    register of its own, numbered below zero. *)
Definition temp (pc : nat) : Z := (- Z.of_nat pc - 1)%Z.
Definition into (d : Z) (l : list (Z * (bool * bool))) : list (Z * (bool * bool) * Z) := map (fun t => (t, d)) l.
Definition transfers (pc : nat) (i : Inst) : list (Z * (bool * bool) * Z) :=
  if bool_decide (op i = ColGet) then into (temp pc) (unwrap (ib i)) ++ into (ia i) (unwrap (temp pc)) else into (ia i) (moves i).

(** The registers whose value an instruction puts where it outlives the call: a
    weak reference counts, since it can be read back through any alias. *)
Definition sinks (i : Inst) : list Z :=
  match op i with
  | Throw | SetMember | RawSet | RawSetWeak | StoreGlobal => [ia i]
  | IndexStore => [id_ i]
  | CaptureVar => [ib i]
  | CallNativeFn | CallValue => window i
  | CallDyn => if native_dyn i && negb (existsb (eqs (sname i)) harmless) then window i else []
  | Arith => match decl i with None => [ib i; ic i] | Some _ => [] end
  | _ => []
  end.

(** *** Functions an instruction can run

    A member or index access runs an accessor when the object's class has one
    of that name, a call without a declaration the method (or the closure in the
    field) of that name: [getter], [setter] and [method] say which functions of
    the module these can be.  The last argument of [may_run] is the register the
    answer goes to. *)
Context (getter setter method : str -> nat -> Prop).

Inductive may_run (pc : nat) (i : Inst) : nat -> list Z -> option Z -> Prop :=
| run_call : op i = Call -> may_run pc i (Z.to_nat (ib i)) (window i) (Some (ia i))
| run_method g : op i = CallDyn -> callee_of m i = Some g -> may_run pc i g (window i) (Some (ia i))
| run_operator g : op i = Arith -> callee_of m i = Some g -> may_run pc i g [ib i; ic i] (Some (ia i))
| run_named g : op i = CallDyn -> decl i = None -> method (sname i) g -> may_run pc i g (window i) (Some (ia i))
| run_init : op i = NewObject -> (0 <= ib i)%Z -> may_run pc i (Z.to_nat (ib i)) [ia i] None
| run_getter g : op i = GetMember -> getter (sname i) g -> may_run pc i g [ib i] (Some (ia i))
| run_setter g : op i = SetMember -> setter (sname i) g -> may_run pc i g [ib i; ia i] None
| run_index g : op i = GetIndex -> getter (lit "[]") g -> may_run pc i g [ib i; ic i] (Some (ia i))
| run_element g : op i = ColGet -> getter (lit "[]") g -> may_run pc i g [ib i; ic i] (Some (temp pc))
| run_field g : op i = ColGet -> getter (sname i) g -> may_run pc i g [temp pc] (Some (ia i))
| run_index_set g : op i = IndexStore -> setter (lit "[]") g -> may_run pc i g [ib i; ic i; id_ i] None.

(** In function [fi], register [r] can be [x], or hold it. *)
Inductive flows : nat -> Site -> bool -> Z -> Prop :=
| flow_param fi fn b k : functions m !! fi = Some fn -> k < nregs fn -> flows fi (passed b k) b (Z.of_nat k)
| flow_alloc fi pc i : code_at fi pc i -> allocates i = true -> flows fi (Alloc pc) false (ia i)
| flow_transfer fi pc i r b b' d x : code_at fi pc i -> In (r, (b, b'), d) (transfers pc i) -> flows fi x b r -> flows fi x b' d
| flow_call fi pc i g args d k r b b' x pc' j : code_at fi pc i -> may_run pc i g args (Some d) -> args !! k = Some r ->
    flows fi x b r -> code_at g pc' j -> op j = Ret -> flows g (passed b k) b' (ia j) -> flows fi x b' d.

(** It outlives the call of [fi]. *)
Inductive leaks : nat -> Site -> Prop :=
| leak_sink fi pc i r b x : code_at fi pc i -> In r (sinks i) -> flows fi x b r -> leaks fi x
| leak_ret fi pc i b n : code_at fi pc i -> op i = Ret -> flows fi (Alloc n) b (ia i) -> leaks fi (Alloc n)
| leak_call fi pc i g args d k r b x : code_at fi pc i -> may_run pc i g args d -> args !! k = Some r -> flows fi x b r ->
    leaks g (passed b k) -> leaks fi x.

(** *** What the analysis does not follow *)

(** Calls whose summary it uses: for what the callee answers, for what it keeps. *)
Definition follows_result (i : Inst) : bool :=
  match op i with Call => true | CallDyn => match callee_of m i with Some _ => true | None => false end | _ => false end.
Definition follows_arguments (i : Inst) : bool :=
  follows_result i || bool_decide (op i = Arith) && match callee_of m i with Some _ => true | None => false end.

Definition either (r : Z) : list (Z * bool) := [(r, false); (r, true)].
(** Operands from which it loses a value: what a container or an object holds
    and is read out again, a key of a map, the bounds of a range, an awaited
    value that is no promise, a weak reference, and what is copied as a value
    struct (which the lowering promises it is). *)
Definition blind (i : Inst) : list (Z * bool) :=
  match op i with
  | GetIndex | IterAt | ColGet | GetMember | RawGet => [(ib i, true)]
  | IndexStore => either (ic i)
  | MakeRange => either (ib i) ++ either (ic i)
  | Await => either (ib i)
  | RawSetWeak => either (ia i)
  | CopyVal => if is_value_copy i then either (ib i) else []
  | CallDyn => if native_dyn i && existsb (eqs (sname i)) (map lit ["at"; "keys"; "values"]%string) then [(ic i, true)] else []
  | Arith => if String.eqb (tokenKindName (tk i)) (tokenKindName TkEnd) then either (ib i) ++ either (ic i) else []
  | _ => []
  end.

(** [x] comes to one of these operands; or to a function run otherwise than by a
    resolved call (a constructor, an accessor, a method found by name) that keeps
    it, or that answers it (there an operator too); or to a parameter that the
    function does not declare; here or in a function it is handed to. *)
Inductive exposed : nat -> Site -> Prop :=
| exposed_at fi pc i r b x : code_at fi pc i -> In (r, b) (blind i) -> flows fi x b r -> exposed fi x
| exposed_kept fi pc i g args d k r b x : code_at fi pc i -> may_run pc i g args d -> follows_arguments i = false -> args !! k = Some r ->
    flows fi x b r -> leaks g (passed b k) -> exposed fi x
| exposed_result fi pc i g args d k r b b' x pc' j : code_at fi pc i -> may_run pc i g args (Some d) -> follows_result i = false ->
    args !! k = Some r -> flows fi x b r -> code_at g pc' j -> op j = Ret -> flows g (passed b k) b' (ia j) -> exposed fi x
| exposed_extra fi pc i g fn args d k r b x : code_at fi pc i -> may_run pc i g args d -> functions m !! g = Some fn -> nparams fn <= k ->
    args !! k = Some r -> flows fi x b r -> exposed fi x
| exposed_callee fi pc i g args d k r b x : code_at fi pc i -> may_run pc i g args d -> args !! k = Some r -> flows fi x b r ->
    exposed g (passed b k) -> exposed fi x.

(** *** What the analysis does follow *)

Definition call_target (i : Inst) : option nat :=
  match op i with Call => Some (Z.to_nat (ib i)) | CallDyn => callee_of m i | _ => None end.
Definition native_call (i : Inst) : option (option NativeInfo) :=
  match op i, callee_of m i with CallDyn, None => Some (nativeInfo (sname i)) | _, _ => None end.
Definition direct_sinks (i : Inst) : list Z :=
  match op i with
  | Throw | SetMember | RawSet | StoreGlobal => [ia i]
  | IndexStore => [id_ i]
  | CaptureVar => [ib i]
  | CallNativeFn | CallValue => window i
  | CallDyn => match native_call i with Some None => window i | _ => [] end
  | Arith => match decl i with
             | None => if String.eqb (tokenKindName (tk i)) (tokenKindName TkEnd) then [] else [ib i; ic i]
             | Some _ => []
             end
  | _ => []
  end.
(** The (argument index, register) pairs it hands to a function of the module. *)
Definition arguments (i : Inst) : option (nat * list (Z * Z)) :=
  match op i with
  | Arith => match callee_of m i with Some c => Some (c, [(0, ib i); (1, ic i)]%Z) | None => None end
  | _ => match call_target i with
         | Some c => Some (c, map (fun k => (k, ic i + k)%Z) (int_range (id_ i)))
         | None => None
         end
  end.

End Spec.

(** ** One function *)

Lemma reg_ext r st st' : regs st' = regs st -> reg r st' = reg r st.
Proof. unfold reg. by intros ->. Qed.

Section OneFunction.
Context (m : IrModule) (fi : nat) (fn : IrFunction) (s : list Summary) (wf : fn_wf fn).

Abbreviation final := (analyzeFn m fi fn s).

Lemma sinks_marks st l : marks st (fold_left (sink_step m fi) l st) /\ keeps st (fold_left (sink_step m fi) l st).
Proof. split; [apply marks_fold|apply keeps_fold]; intros; apply sink_step_marks_keeps. Qed.

Lemma analyzeFn_keeps : keeps (init_state fn s) final.
Proof. unfold analyzeFn. eapply keeps_trans; [apply alias_loop_keeps|apply sinks_marks]. Qed.

Lemma stable_facts : let st := alias_loop m fi fn (alias_fuel fn) (init_state fn s) in
  changed st = false /\ in_universe fn st /\ exists st0, keeps (init_state fn s) st0 /\ st = alias_pass m fi fn st0.
Proof. apply alias_loop_stable; [done|apply init_in_universe|unfold alias_fuel; lia]. Qed.

Lemma final_reg r : reg r final = reg r (alias_loop m fi fn (alias_fuel fn) (init_state fn s)).
Proof. apply reg_ext, sinks_marks. Qed.

Lemma final_universe r : reg r final ⊆ universe fn.
Proof. rewrite final_reg. apply reg_in_universe, stable_facts. Qed.

(** Every instruction's alias rule holds of the final registers. *)
Lemma final_step pc i : icode fn !! pc = Some i -> exists st,
  (forall r, reg r st = reg r final) /\ sums_le s (sums st) /\
  changed (alias_step m fi fn st (Z.of_nat pc, i)) = false /\ regs (alias_step m fi fn st (Z.of_nat pc, i)) = regs st.
Proof.
  intros Hi. destruct stable_facts as (Hc & _ & st0 & Hk & E). rewrite E in Hc.
  assert (In (Z.of_nat pc, i) (indexed_code fn)) as Hin by (apply indexed_code_spec; eauto).
  apply in_split in Hin as (l1 & l2 & El).
  destruct (grow_fold_stable fn (alias_step m fi fn) l1 (Z.of_nat pc, i) l2 (set_regs (regs st0) false st0))
    as (H1 & H2 & H3 & H4).
  - intros st y Hy. apply alias_step_code_grow; [done|]. by rewrite El.
  - unfold alias_pass in Hc. by rewrite <- El.
  - eexists. split_and!; [| |exact H3|by rewrite H2, H1].
    + intros r. rewrite final_reg, E. unfold alias_pass, reg. by rewrite El, H4, H1.
    + destruct Hk as (_ & Hs & _). 
      assert (keeps st0 (fold_left (alias_step m fi fn) l1 (set_regs (regs st0) false st0))) as (_ & Hs2 & _).
      { eapply (keeps_trans _ (set_regs (regs st0) false st0)); [by repeat split|]. apply keeps_fold, alias_step_keeps. }
      intros c. destruct (Hs c) as [[] []], (Hs2 c) as [[] []]. split; split; auto; etrans; eauto.
Qed.

Lemma dest_range pc i : icode fn !! pc = Some i -> defines i = true -> (0 <= ia i < Z.of_nat (nregs fn))%Z.
Proof. unfold fn_wf in wf. rewrite Forall_lookup in wf. apply wf. Qed.

Lemma allocates_defines i : allocates i = true -> defines i = true.
Proof.
  unfold allocates, defines, is_value_copy. intros [->|H]%orb_prop; [done|]. bool_hyps.
  match goal with H : bool_decide _ = true |- _ => apply bool_decide_eq_true in H as -> end. apply orb_true_r.
Qed.

(** The three stages of an allocation's rule, each of which changed nothing. *)
Lemma alloc_rule pc i : icode fn !! pc = Some i -> allocates i = true ->
  Z.of_nat pc ∈ reg (ia i) final /\
  (op i = NewArray -> forall k, In k (int_range (id_ i)) -> reg (ic i + k) final ⊆ reg (ia i) final) /\
  (op i = NewArraySized -> id_ i = 2%Z -> reg (ic i + 1) final ⊆ reg (ia i) final).
Proof.
  intros Hi Ha. pose proof (dest_range pc i Hi (allocates_defines i Ha)) as Hd.
  destruct (final_step pc i Hi) as (st & Hr & _ & Hc & _). rewrite <- !Hr.
  unfold alias_step in Hc. change (isAlloc (op i) || is_value_copy i) with (allocates i) in Hc. rewrite Ha in Hc.
  set (st1 := merge (ia i) {[Z.of_nat pc]} st) in *.
  set (st2 := if bool_decide (op i = NewArray)
      then fold_left (fun s k => merge (ia i) (reg (ic i + k) s) s) (int_range (id_ i)) st1 else st1) in *.
  assert (grow fn st2 (if bool_decide (op i = NewArraySized) && (id_ i =? 2)%Z then merge (ia i) (reg (ic i + 1) st2) st2 else st2)) as G3.
  { destruct (_ && _); [|apply grow_refl]. apply merge_grow; [done|apply reg_in_universe]. }
  destruct (grow_stable _ _ _ G3 Hc) as [R3 C3].
  assert (forall st k, grow fn st (merge (ia i) (reg (ic i + k) st) st)) as Gm
    by (intros; apply merge_grow; [done|apply reg_in_universe]).
  assert (changed st1 = false /\ regs st2 = regs st1) as [C1 R2].
  { assert (grow fn st1 st2) as G2; [|destruct (grow_stable _ _ _ G2 C3); done].
    unfold st2. destruct (bool_decide _); [|apply grow_refl]. apply grow_fold. intros; apply Gm. }
  destruct (merge_same _ _ _ C1) as [C0 E1]. pose proof (merge_closed _ _ _ (proj1 Hd) C1) as M1.
  fold st1 in E1. split; [set_solver|]. split.
  - intros Eo k Hk. unfold st2 in C3. rewrite Eo in C3. rewrite bool_decide_eq_true_2 in C3 by done.
    apply in_split in Hk as (l1 & l2 & El). rewrite El in C3.
    destruct (grow_fold_stable fn (fun s k => merge (ia i) (reg (ic i + k) s) s) l1 k l2 st1) as (H1 & _ & H3 & _); [intros; apply Gm|done|].
    apply (merge_closed _ _ _ (proj1 Hd)) in H3. rewrite !(reg_ext _ _ _ H1), E1 in H3. by rewrite <- Hr.
  - intros Eo E2. rewrite Eo, E2 in Hc. rewrite bool_decide_eq_true_2 in Hc by done. cbn [andb Z.eqb Pos.eqb] in Hc.
    apply (merge_closed _ _ _ (proj1 Hd)) in Hc. by rewrite !(reg_ext _ _ _ R2), E1 in Hc.
Qed.

Lemma copy_rule pc i : icode fn !! pc = Some i -> In (op i) [Move; MoveClear; CopyVal; IndexStore] ->
  is_value_copy i = false -> reg (ib i) final ⊆ reg (ia i) final.
Proof.
  intros Hi Ho Hv. destruct (final_step pc i Hi) as (st & Hr & _ & Hc & _). rewrite <- !Hr.
  assert (defines i = true) as Hd by (unfold defines; destruct Ho as [<-|[<-|[<-|[<-|[]]]]]; done).
  apply (dest_range pc i Hi) in Hd. apply (merge_closed _ _ st (proj1 Hd)).
  unfold alias_step in Hc. rewrite Hv in Hc. destruct Ho as [E|[E|[E|[E|[]]]]]; rewrite <- E in Hc; done.
Qed.

Lemma call_rule pc i callee k : icode fn !! pc = Some i -> call_target m i = Some callee -> In k (int_range (id_ i)) ->
  flag (paramToRet (sum_of callee s)) (Z.to_nat k) = true -> reg (ic i + k) final ⊆ reg (ia i) final.
Proof.
  intros Hi Ht Hk Hf. destruct (final_step pc i Hi) as (st & Hr & Hs & Hc & _). rewrite <- !Hr.
  assert (defines i = true) as Hd.
  { unfold defines, call_target in *. destruct (op i); try done. }
  apply (dest_range pc i Hi) in Hd.
  destruct (callSinks_spec fi fn callee (ic i) (id_ i) st) as (Hm & _ & Hal).
  assert (changed (let '(st1, alias) := callSinks fi callee (ic i) (id_ i) st in merge (ia i) alias st1) = false) as Hc'.
  { unfold alias_step, call_target, is_value_copy in *. destruct (op i); try done; cbn [isAlloc orb] in Hc;
      [injection Ht as <-; exact Hc|]. rewrite Ht in Hc. exact Hc. }
  destruct (callSinks _ _ _ _ _) as [st1 al]. cbn [fst snd] in *.
  apply (merge_closed _ _ _ (proj1 Hd)) in Hc'. etrans; [apply Hal; [done|by apply Hs]|].
  by rewrite (reg_ext _ _ _ (proj1 Hm)) in Hc'.
Qed.

Lemma native_rule pc i ni : icode fn !! pc = Some i -> native_call m i = Some (Some ni) ->
  (selfToResult ni = true -> reg (ic i) final ⊆ reg (ia i) final) /\
  (argsToResult ni = true -> forall k, In k (tail (int_range (id_ i))) ->
     argIsValueStruct fn (reg (ic i + k) final) = false -> reg (ic i + k) final ⊆ reg (ia i) final).
Proof.
  intros Hi Hn. destruct (final_step pc i Hi) as (st & Hr & _ & Hc & _).
  assert (op i = CallDyn /\ callee_of m i = None /\ nativeInfo (sname i) = Some ni) as (Eo & Ec & En).
  { unfold native_call in Hn. destruct (op i); try done. destruct (callee_of m i); [done|]. by injection Hn. }
  assert (defines i = true) as Hd by (unfold defines; by rewrite Eo). apply (dest_range pc i Hi) in Hd.
  unfold alias_step, is_value_copy in Hc. rewrite Eo, Ec, En in Hc. cbn [isAlloc orb] in Hc.
  rewrite bool_decide_eq_false_2 in Hc by done. cbn [andb] in Hc.
  apply (merge_closed _ _ _ (proj1 Hd)) in Hc.
  assert (forall l a, a ⊆ fold_left (fun a k => let r := reg (ic i + k) st in if argIsValueStruct fn r then a else a ∪ r) l a /\
    forall k, In k l -> argIsValueStruct fn (reg (ic i + k) st) = false ->
      reg (ic i + k) st ⊆ fold_left (fun a k => let r := reg (ic i + k) st in if argIsValueStruct fn r then a else a ∪ r) l a) as Hfold.
  { induction l as [|k l IH]; intros a; cbn [fold_left]; [split; [done|by intros]|]. split.
    - etrans; [|exact (proj1 (IH _))]. cbn zeta. destruct (argIsValueStruct _ _); set_solver.
    - intros k' [->|Hk'] Hv; [|by apply IH]. etrans; [|exact (proj1 (IH _))]. cbn zeta. rewrite Hv. set_solver. }
  rewrite <- !Hr. split.
  - intros Hself. rewrite Hself in Hc. etrans; [|exact Hc]. destruct (argsToResult ni); [apply Hfold|done].
  - intros Hargs k Hk. rewrite <- !Hr. intros Hv. rewrite Hargs in Hc. etrans; [|exact Hc]. by apply Hfold.
Qed.

End OneFunction.

(** ** What the sinks record *)

Section Sinks.
Context (m : IrModule) (fi : nat).

Definition pindex (x : Z) : nat := Z.to_nat (- x - 1).

(** Site [x] is marked: an allocation in [esc], a parameter in the summary. *)
Definition recorded (st : AState) (x : Z) : Prop :=
  if (0 <=? x)%Z then esc st !! x <> None else flag (paramEscapes (sum_of fi (sums st))) (pindex x) = true.
Definition room (l : list Summary) (x : Z) : Prop :=
  (0 <= x)%Z \/ pindex x < length (paramEscapes (sum_of fi l)) /\ pindex x < length (paramToRet (sum_of fi l)).

Lemma recorded_keeps st st' x : keeps st st' -> recorded st x -> recorded st' x.
Proof.
  intros (_ & Hs & He & _). unfold recorded. destruct (0 <=? x)%Z; [apply He|apply Hs].
Qed.

Lemma room_le l l' x : sums_le l l' -> room l x -> room l' x.
Proof. intros Hs. destruct (Hs fi) as [[E1 _] [E2 _]]. unfold room. by rewrite E1, E2. Qed.

Lemma sum_of_insert l x : fi < length l -> sum_of fi (<[fi := x]> l) = x.
Proof. intros H. unfold sum_of. by rewrite list_lookup_insert_eq. Qed.

Lemma sum_room l p : p < length (paramEscapes (sum_of fi l)) \/ p < length (paramToRet (sum_of fi l)) -> fi < length l.
Proof.
  unfold sum_of. destruct (l !! fi) eqn:E; [intros _; by eapply lookup_lt_Some|]. cbn. lia.
Qed.

Lemma escape_one_recorded why st x : room (sums st) x -> recorded (escape_one fi why st x) x.
Proof.
  intros Hr. unfold recorded. destruct (Z.leb_spec 0 x); [by apply escape_one_esc|].
  destruct Hr as [?|[Hr _]]; [lia|]. unfold escape_one. destruct (Z.leb_spec 0 x); [lia|]. fold (pindex x).
  destruct (Nat.ltb_spec (pindex x) (length (paramEscapes (sum_of fi (sums st))))); [|lia]. cbn [andb].
  destruct (flag (paramEscapes (sum_of fi (sums st))) (pindex x)) eqn:Ef; cbn [negb]; [done|]. cbn [sums]. rewrite sum_of_insert by (eapply sum_room; eauto).
  cbn [paramEscapes]. unfold flag. by rewrite list_lookup_insert_eq.
Qed.

Lemma fold_recorded {A} (f : AState -> A -> AState) l st x (y : A) :
  (forall st z, marks st (f st z) /\ keeps st (f st z)) -> In y l ->
  (forall st', marks st st' -> keeps st st' -> recorded (f st' y) x) -> recorded (fold_left f l st) x.
Proof.
  intros Hf Hy Hr. apply in_split in Hy as (l1 & l2 & ->). rewrite fold_left_app. cbn [fold_left].
  eapply recorded_keeps; [apply keeps_fold; intros; apply Hf|]. apply Hr; [apply marks_fold|apply keeps_fold]; intros; apply Hf.
Qed.

Lemma escapeSet_recorded t why st x : room (sums st) x -> x ∈ t -> recorded (escapeSet fi t why st) x.
Proof.
  intros Hr Hx. apply (fold_recorded _ _ _ _ x).
  - split; [apply escape_one_marks|apply escape_one_keeps].
  - by apply list_elem_of_In, elem_of_elements.
  - intros st' Hm _. apply escape_one_recorded. eapply room_le; [apply Hm|done].
Qed.

Lemma escapeSet_both t why st : marks st (escapeSet fi t why st) /\ keeps st (escapeSet fi t why st).
Proof. split; [apply escapeSet_marks|apply escapeSet_keeps]. Qed.

Lemma cond_both (b : bool) t why st :
  marks st (if b then escapeSet fi t why st else st) /\ keeps st (if b then escapeSet fi t why st else st).
Proof. destruct b; [apply escapeSet_both|]. split; [apply marks_refl|apply keeps_refl]. Qed.

Lemma escape_args_recorded base n why keep st x k : room (sums st) x -> In k (int_range n) ->
  (forall st', marks st st' -> keep st' k = true) -> x ∈ reg (base + k) st ->
  recorded (escape_args fi base n why keep st) x.
Proof.
  intros Hr Hk Hkeep Hx. apply (fold_recorded _ _ _ _ k); [intros; apply cond_both|done|].
  intros st' Hm _. rewrite Hkeep by done. apply escapeSet_recorded; [eapply room_le; [apply Hm|done]|].
  by rewrite (reg_ext _ _ _ (proj1 Hm)).
Qed.

Lemma retains_marks callee k st st' : marks st st' -> flag (paramEscapes (sum_of callee (sums st))) (Z.to_nat k) = true ->
  retains callee st' k = true.
Proof. intros (_ & _ & Hs & _) H. unfold retains. by apply Hs. Qed.

Lemma direct_sink_recorded st i r x : In r (direct_sinks m i) -> x ∈ reg r st -> room (sums st) x ->
  recorded (sink_step m fi st i) x.
Proof.
  intros Hr Hx Hroom. unfold direct_sinks, window in Hr. unfold sink_step.
  destruct (op i) eqn:Eo; try done;
    try (destruct Hr as [<-|[]]; by apply escapeSet_recorded);
    try (apply in_map_iff in Hr as (k & <- & Hk); by apply (escape_args_recorded _ _ _ _ _ _ k)).
  - destruct (decl i); [done|]. destruct (String.eqb _ _); [done|]. cbn [negb]. rewrite andb_true_r.
    assert (bool_decide (reg (ib i) st <> ∅) || bool_decide (reg (ic i) st <> ∅) = true) as ->.
    { apply orb_true_iff. destruct Hr as [<-|[<-|[]]]; [left|right]; apply bool_decide_eq_true; set_solver. }
    cbn zeta. destruct Hr as [<-|[<-|[]]].
    + eapply recorded_keeps; [apply escapeSet_keeps|]. by apply escapeSet_recorded.
    + pose proof (escapeSet_marks fi (reg (ib i) st) (lit "operand of an unresolved operator") st) as Hm.
      apply escapeSet_recorded; [eapply room_le; [apply Hm|done]|]. by rewrite (reg_ext _ _ _ (proj1 Hm)).
  - unfold native_call in Hr. rewrite Eo in Hr. destruct (callee_of m i); [done|].
    destruct (nativeInfo _); [done|]. apply in_map_iff in Hr as (k & <- & Hk).
    by apply (escape_args_recorded _ _ _ _ _ _ k).
Qed.

Lemma argument_recorded st i callee args k r x : arguments m i = Some (callee, args) -> In (k, r) args ->
  x ∈ reg r st -> room (sums st) x -> flag (paramEscapes (sum_of callee (sums st))) (Z.to_nat k) = true ->
  recorded (sink_step m fi st i) x.
Proof.
  intros Ha Hin Hx Hroom Hf. unfold arguments, call_target in Ha. unfold sink_step.
  assert (forall n why, args = map (fun k => (k, ic i + k)%Z) (int_range n) ->
    recorded (escape_args fi (ic i) n why (retains callee) st) x) as Hargs.
  { intros n why ->. apply in_map_iff in Hin as (k' & [= -> <-] & Hk).
    apply (escape_args_recorded _ _ _ _ _ _ k); try done. intros st' Hm. by eapply retains_marks. }
  destruct (op i) eqn:Eo; try done.
  - destruct (callee_of m i) as [c|] eqn:Ec; [|done]. injection Ha as -> <-.
    assert (exists d, decl i = Some d) as [d ->] by (unfold callee_of in Ec; destruct (decl i); eauto; done). cbn zeta.
    set (st1 := if retains callee st 0 then _ else _).
    assert (marks st st1 /\ keeps st st1) as [Hm Hk1] by apply cond_both.
    destruct Hin as [[= <- <-]|[[= <- <-]|[]]].
    + eapply recorded_keeps; [apply cond_both|]. unfold st1, retains.
      rewrite Hf. by apply escapeSet_recorded.
    + rewrite (retains_marks _ _ _ _ Hm Hf). apply escapeSet_recorded; [eapply room_le; [apply Hm|done]|].
      by rewrite (reg_ext _ _ _ (proj1 Hm)).
  - injection Ha as <- <-. by apply Hargs.
  - destruct (callee_of m i) as [c|]; [|done]. injection Ha as -> <-. by apply Hargs.
Qed.

Lemma ret_recorded st i x : op i = Ret -> x ∈ reg (ia i) st -> room (sums st) x ->
  if (0 <=? x)%Z then recorded (sink_step m fi st i) x
  else flag (paramToRet (sum_of fi (sums (sink_step m fi st i)))) (pindex x) = true.
Proof.
  intros Eo Hx Hroom. unfold sink_step. rewrite Eo.
  apply elem_of_elements, list_elem_of_In, in_split in Hx as (l1 & l2 & ->).
  rewrite fold_left_app. cbn [fold_left]. set (st1 := fold_left (ret_one fi) l1 st).
  assert (keeps st st1) as Hk by (apply keeps_fold, ret_one_keeps).
  pose proof (keeps_fold (ret_one fi) l2 (ret_one fi st1 x) (ret_one_keeps fi)) as Hk2.
  apply (room_le _ _ x (proj1 (proj2 Hk))) in Hroom.
  destruct (Z.leb_spec 0 x).
  - eapply recorded_keeps; [exact Hk2|]. unfold ret_one. destruct (Z.leb_spec 0 x); [|lia]. by apply escape_one_recorded.
  - apply Hk2. unfold ret_one. destruct (Z.leb_spec 0 x); [lia|]. fold (pindex x).
    destruct Hroom as [?|[_ Hroom]]; [lia|].
    destruct (Nat.ltb_spec (pindex x) (length (paramToRet (sum_of fi (sums st1))))); [|lia]. cbn [andb].
    destruct (flag (paramToRet (sum_of fi (sums st1))) (pindex x)) eqn:Ef; cbn [negb]; [done|]. cbn [sums].
    rewrite sum_of_insert by (eapply sum_room; eauto). cbn [paramToRet]. unfold flag. by rewrite list_lookup_insert_eq.
Qed.

End Sinks.

(** A fact some sink step establishes holds of the final state. *)
Lemma final_sink m fi fn s (wf : fn_wf fn) pc i (P : AState -> Prop) : icode fn !! pc = Some i ->
  (forall st, (forall r, reg r st = reg r (analyzeFn m fi fn s)) -> sums_le s (sums st) -> P (sink_step m fi st i)) ->
  (forall st st', keeps st st' -> P st -> P st') -> P (analyzeFn m fi fn s).
Proof.
  intros Hi Hstep Hkeep. unfold analyzeFn. apply list_elem_of_lookup_2, list_elem_of_In, in_split in Hi as (l1 & l2 & El).
  rewrite El, fold_left_app. cbn [fold_left]. eapply Hkeep; [apply sinks_marks|]. apply Hstep.
  - intros r. rewrite final_reg. apply reg_ext, sinks_marks.
  - eapply (keeps_trans (init_state fn s)); [apply alias_loop_keeps|apply sinks_marks].
Qed.

(** ** The rounds *)

Section Rounds.
Context (m : IrModule).

(** The rounds stop because a round changed no summary, not at the cap. *)
Fixpoint rounds_converge (cap : nat) (s : list Summary) : bool :=
  match cap with
  | 0 => false
  | S n => let '(s', _, ch) := round_from m 0 (functions m) s in if ch then rounds_converge n s' else true
  end.

Lemma sums_le_refl s : sums_le s s.
Proof. by repeat split. Qed.

Lemma sums_le_trans a b c : sums_le a b -> sums_le b c -> sums_le a c.
Proof. intros H1 H2 x. destruct (H1 x) as [[] []], (H2 x) as [[] []]. split; split; auto; congruence. Qed.

Lemma round_from_le fi fns s : sums_le s (round_from m fi fns s).1.1.
Proof.
  revert fi s. induction fns as [|f fns IH]; intros fi s; cbn [round_from]; [apply sums_le_refl|].
  specialize (IH (S fi) (sums (analyzeFn m fi f s))). destruct (round_from _ _ _ _) as [[s' es] ch]. cbn [fst] in *.
  eapply sums_le_trans; [|exact IH]. apply analyzeFn_keeps.
Qed.

Lemma round_from_stable fi fns s s' es : round_from m fi fns s = (s', es, false) -> s' = s /\
  forall k fn, fns !! k = Some fn ->
    es !! k = Some (esc (analyzeFn m (fi + k) fn s)) /\ sums (analyzeFn m (fi + k) fn s) = s.
Proof.
  revert fi s s' es. induction fns as [|f fns IH]; intros fi s s' es; cbn [round_from].
  - intros [= <- <-]. split; [done|]. by intros [|k].
  - destruct (round_from m (S fi) fns _) as [[s1 es1] ch] eqn:E. intros [= <- <- Hch].
    apply orb_false_iff in Hch as [Hf ->]. destruct (analyzeFn_keeps m fi f s) as (_ & _ & _ & Hk).
    destruct (Hk Hf) as [_ Es]. cbn [init_state sums] in Es. rewrite Es in E.
    destruct (IH _ _ _ _ E) as [-> H]. split; [done|]. intros [|k] fn; cbn [lookup list_lookup].
    + intros [= ->]. rewrite Nat.add_0_r. done.
    + intros Hl. rewrite Nat.add_succ_r. by apply (H k).
Qed.

Lemma rounds_converged cap s es0 : rounds_converge cap s = true -> exists t es,
  rounds_loop m cap s es0 = (t, es) /\ sums_le s t /\ round_from m 0 (functions m) t = (t, es, false).
Proof.
  revert s es0. induction cap as [|n IH]; intros s es0; cbn [rounds_converge rounds_loop]; [done|].
  pose proof (round_from_le 0 (functions m) s) as Hle.
  destruct (round_from m 0 (functions m) s) as [[s' es'] ch] eqn:E. destruct ch.
  - intros H. destruct (IH s' es' H) as (t & es & -> & Hle2 & Hr). exists t, es. split; [done|]. split; [|done].
    by eapply sums_le_trans.
  - intros _. destruct (round_from_stable _ _ _ _ _ E) as [-> _]. exists s, es'. split; [done|]. split; [apply sums_le_refl|done].
Qed.

Lemma init_lengths fi fn : functions m !! fi = Some fn ->
  length (paramEscapes (sum_of fi (init_summaries m))) = nparams fn /\
  length (paramToRet (sum_of fi (init_summaries m))) = nparams fn.
Proof.
  intros H. unfold sum_of, init_summaries. rewrite list_lookup_fmap, H. cbn. by rewrite !length_replicate.
Qed.

End Rounds.

(** ** Summaries at a fixpoint *)

(** The analysis keeps an argument and what it holds under one number. *)
Definition id_of (x : Site) : Z := match x with Alloc pc => Z.of_nat pc | Param k | Inside k => (- (Z.of_nat k + 1))%Z end.
Definition declared (fn : IrFunction) (x : Site) : Prop := match x with Alloc _ => True | Param k | Inside k => k < nparams fn end.
(** The site is a value struct: it is copied, so handing it to a callee is no escape. *)
Definition value_at (m : IrModule) (fi : nat) (x : Site) : Prop :=
  match x with Alloc pc => exists i, code_at m fi pc i /\ is_value_copy i || is_value_new i = true | _ => False end.

Lemma id_passed b k : id_of (passed b k) = (- (Z.of_nat k + 1))%Z.
Proof. by destruct b. Qed.
Lemma pindex_passed b k : pindex (id_of (passed b k)) = k.
Proof. rewrite id_passed. unfold pindex. lia. Qed.

Lemma window_lookup i k r : window i !! k = Some r -> r = (ic i + Z.of_nat k)%Z /\ In (Z.of_nat k) (int_range (id_ i)).
Proof.
  unfold window, int_range. intros H. rewrite list_lookup_fmap in H. destruct (map Z.of_nat (seq 0 _) !! k) as [z|] eqn:E; [|done].
  injection H as <-. assert (z = Z.of_nat k) as ->; [|split; [done|]; by eapply list_elem_of_In, list_elem_of_lookup_2].
  change (map Z.of_nat (seq 0 (Z.to_nat (id_ i)))) with (Z.of_nat <$> seq 0 (Z.to_nat (id_ i))) in E. rewrite list_lookup_fmap in E.
  destruct (seq 0 (Z.to_nat (id_ i)) !! k) as [n|] eqn:En; [|done]. apply lookup_seq in En as [-> _]. by injection E as <-.
Qed.
Lemma in_bind {A B} (f : A -> list B) l y : In y (l ≫= f) -> exists x, In x l /\ In y (f x).
Proof. intros (x & Hy & Hx)%list_elem_of_In%list_elem_of_bind. exists x. by rewrite <- !list_elem_of_In. Qed.
Lemma in_window i r : In r (window i) -> exists k, r = (ic i + k)%Z /\ In k (int_range (id_ i)).
Proof. intros (k & <- & Hk)%in_map_iff. eauto. Qed.
Lemma in_window_tail i r : In r (tail (window i)) -> exists k, r = (ic i + k)%Z /\ In k (tail (int_range (id_ i))).
Proof.
  unfold window. destruct (int_range (id_ i)) as [|k ks]; cbn [map tail]; [done|]. intros (k' & <- & Hk)%in_map_iff. eauto.
Qed.
Lemma wrap_reg r r' p : In (r', p) (wrap r) -> r' = r.
Proof. by intros [[= <- _]|[[= <- _]|[]]]. Qed.
Lemma same_reg r r' p : In (r', p) (same r) -> r' = r.
Proof. by intros [[= <- _]|[[= <- _]|[]]]. Qed.
Lemma unwrap_reg r r' b b' : In (r', (b, b')) (unwrap r) -> (r', b) = (r, true).
Proof. by intros [[= <- <- _]|[[= <- <- _]|[]]]. Qed.
Lemma in_either r b : In (r, b) (either r).
Proof. destruct b; cbn; auto. Qed.

(** What the annotated natives are, seen from the names. *)
Lemma native_known name : nativeInfo name <> None -> existsb (eqs name) harmless = true.
Proof.
  assert (forall n, In n (plain_natives ++ map lit ["add"; "with"; "without"]%string) -> existsb (eqs n) harmless = true) as H.
  { apply forallb_forall. vm_compute. reflexivity. }
  unfold nativeInfo. intros Hn. apply H, in_app_iff. destruct (existsb (eqs name) plain_natives) eqn:E.
  - left. apply existsb_exists in E as (y & Hy & Ey). apply bool_decide_eq_true in Ey as ->. done.
  - right. unfold eqs in Hn. cbn. repeat (case_bool_decide; [subst; by auto|]). done.
Qed.

Lemma native_transfer_cases i r b b' : In (r, (b, b')) (native_transfers i) ->
  (In (sname i) (map lit ["at"; "keys"; "values"]%string) /\ (r, b) = (ic i, true)) \/
  exists ni, nativeInfo (sname i) = Some ni /\
    (selfToResult ni = true /\ r = ic i \/ argsToResult ni = true /\ exists k, r = (ic i + k)%Z /\ In k (tail (int_range (id_ i)))).
Proof.
  unfold native_transfers, eqs.
  assert (forall n, sname i = n -> (n = lit "add" \/ n = lit "with") -> In (r, (b, b')) (same (ic i) ++ (tail (window i) ≫= wrap)) ->
    exists ni, nativeInfo (sname i) = Some ni /\
      (selfToResult ni = true /\ r = ic i \/ argsToResult ni = true /\ exists k, r = (ic i + k)%Z /\ In k (tail (int_range (id_ i))))) as Hb.
  { intros n -> Hn H. exists (MkNative true true). split; [destruct Hn as [->| ->]; reflexivity|]. cbn.
    apply in_app_iff in H as [->%same_reg|(y & Hy & ->%wrap_reg)%in_bind]; [by left|]. right. split; [done|]. by apply in_window_tail. }
  destruct (decide (sname i = lit "add")) as [E|N1]; [rewrite bool_decide_eq_true_2 by done; cbn [orb]; intros H; right; by eapply Hb; eauto|].
  rewrite (bool_decide_eq_false_2 (sname i = lit "add")) by done. cbn [orb].
  destruct (decide (sname i = lit "with")) as [E|N2]; [rewrite bool_decide_eq_true_2 by done; intros H; right; by eapply Hb; eauto|].
  rewrite (bool_decide_eq_false_2 (sname i = lit "with")) by done.
  destruct (decide (sname i = lit "without")) as [E|N3].
  { rewrite bool_decide_eq_true_2 by done. intros ->%same_reg. right. exists (MkNative true false). rewrite E. split; [reflexivity|]. by left. }
  rewrite (bool_decide_eq_false_2 (sname i = lit "without")) by done.
  destruct (decide (sname i = lit "at")) as [E|N4].
  { rewrite bool_decide_eq_true_2 by done. intros H%unwrap_reg. left. split; [rewrite E; by left|done]. }
  rewrite (bool_decide_eq_false_2 (sname i = lit "at")) by done.
  destruct (bool_decide (sname i = lit "keys") || _) eqn:E; [|done]. intros [[= <- <- _]|[]]. left. split; [|done].
  apply orb_true_iff in E as [->%bool_decide_eq_true| ->%bool_decide_eq_true]; cbn; auto.
Qed.

(** A move is one the alias rules make, or one of the blind operands. *)
Lemma move_cases m i r b b' : In (r, (b, b')) (moves m i) ->
  In (r, b) (blind m i) \/
  (op i = NewArray /\ exists k, r = (ic i + k)%Z /\ In k (int_range (id_ i))) \/
  (op i = NewArraySized /\ id_ i = 2%Z /\ r = (ic i + 1)%Z) \/
  (In (op i) [Move; MoveClear; CopyVal; IndexStore] /\ is_value_copy i = false /\ r = ib i) \/
  (exists ni, native_call m i = Some (Some ni) /\
     (selfToResult ni = true /\ r = ic i \/ argsToResult ni = true /\ exists k, r = (ic i + k)%Z /\ In k (tail (int_range (id_ i))))).
Proof.
  unfold moves, blind. destruct (op i) eqn:Eo; try done.
  - intros ->%same_reg. do 3 right. left. split; [cbn; auto|]. split; [unfold is_value_copy; by rewrite Eo|done].
  - intros ->%same_reg. do 3 right. left. split; [cbn; auto|]. split; [unfold is_value_copy; by rewrite Eo|done].
  - intros ->%same_reg. destruct (is_value_copy i) eqn:E; [left; apply in_either|]. do 3 right. left. cbn. auto.
  - unfold native_dyn, native_call. rewrite Eo, bool_decide_eq_true_2 by done. cbn [andb]. destruct (callee_of m i) eqn:Ec; [done|].
    intros [[Hn [= -> ->]]|(ni & Hni & H)]%native_transfer_cases; [left|do 4 right; exists ni; by rewrite Hni].
    assert (existsb (eqs (sname i)) (map lit ["at"; "keys"; "values"]%string) = true) as ->; [|by left].
    apply existsb_exists. exists (sname i). split; [done|]. unfold eqs. by apply bool_decide_eq_true_2.
  - intros H%unwrap_reg. injection H as -> ->. left. by left.
  - intros H%unwrap_reg. injection H as -> ->. left. by left.
  - intros (y & Hy & ->%wrap_reg)%in_bind. right. left. split; [done|]. by apply in_window.
  - destruct (Z.eqb_spec (id_ i) 2); [|done]. intros ->%wrap_reg. auto 8.
  - intros [->%wrap_reg| ->%wrap_reg]%in_app_iff; left; apply in_app_iff; [left|right]; apply in_either.
  - intros H%unwrap_reg. injection H as -> ->. left. by left.
  - intros [->%same_reg| ->%wrap_reg]%in_app_iff; [|left; apply in_either]. do 3 right. left. split; [cbn; auto 6|]. split; [|done].
    unfold is_value_copy. by rewrite Eo.
  - intros H%unwrap_reg. injection H as -> ->. left. by left.
  - intros [->%same_reg|H%unwrap_reg]%in_app_iff; [left; apply in_either|]. injection H as -> ->. left. apply in_either.
Qed.

(** A sink is one the analysis records, or one of the blind operands. *)
Lemma sink_cases m i r b : In r (sinks m i) -> In r (direct_sinks m i) \/ In (r, b) (blind m i).
Proof.
  unfold sinks, direct_sinks, blind. destruct (op i) eqn:Eo; try (by left).
  - destruct (decl i); [done|]. intros H. destruct (String.eqb _ _); [|by left]. right. apply in_app_iff.
    destruct H as [<-|[<-|[]]]; [left|right]; apply in_either.
  - unfold native_dyn, native_call. rewrite Eo, bool_decide_eq_true_2 by done. cbn [andb]. destruct (callee_of m i); [done|]. cbn [andb].
    destruct (existsb (eqs (sname i)) harmless) eqn:Eh; [done|]. intros H. left.
    destruct (nativeInfo (sname i)) eqn:En; [|done]. rewrite native_known in Eh; [done|]. by rewrite En.
  - intros [<-|[]]. right. apply in_either.
Qed.

Section Fixpoint_.
Context (m : IrModule) (s : list Summary).
Hypothesis wf : Forall fn_wf (functions m).
Hypothesis fixed : forall fi fn, functions m !! fi = Some fn -> sums (analyzeFn m fi fn s) = s.
Hypothesis sized : forall fi fn, functions m !! fi = Some fn ->
  length (paramEscapes (sum_of fi s)) = nparams fn /\ length (paramToRet (sum_of fi s)) = nparams fn.

Lemma fn_wf_at fi fn : functions m !! fi = Some fn -> fn_wf fn.
Proof. rewrite Forall_lookup in wf. apply wf. Qed.

Lemma reg_room fi fn x r : functions m !! fi = Some fn -> x ∈ reg r (analyzeFn m fi fn s) -> room fi s x.
Proof.
  intros Hf Hx. destruct (sized fi fn Hf) as [E1 E2]. unfold room. rewrite E1, E2.
  apply (final_universe m fi fn s (fn_wf_at _ _ Hf)) in Hx. unfold universe in Hx.
  apply elem_of_list_to_set, list_elem_of_In, in_app_iff in Hx as [Hx|Hx]; apply in_map_iff in Hx as (n & <- & Hn);
    apply in_seq in Hn; [left; lia|right]. unfold pindex. lia.
Qed.

Lemma ret_flag fi fn pc i x : functions m !! fi = Some fn -> icode fn !! pc = Some i -> op i = Ret ->
  x ∈ reg (ia i) (analyzeFn m fi fn s) ->
  if (0 <=? x)%Z then recorded fi (analyzeFn m fi fn s) x else flag (paramToRet (sum_of fi s)) (pindex x) = true.
Proof.
  intros Hf Hi Eo Hx. pose proof (reg_room _ _ _ _ Hf Hx) as Hroom.
  pose proof (final_sink m fi fn s (fn_wf_at _ _ Hf) pc i (fun st => if (0 <=? x)%Z then recorded fi st x else flag (paramToRet (sum_of fi (sums st))) (pindex x) = true) Hi) as H.
  cbn beta in H. rewrite (fixed _ _ Hf) in H. apply H.
  - intros st Hr Hs. apply ret_recorded; [done|by rewrite Hr|by eapply room_le].
  - intros st st' Hk. destruct (0 <=? x)%Z; [by apply recorded_keeps|]. apply Hk.
Qed.

Context (getter setter method : str -> nat -> Prop).
Abbreviation flows := (flows m getter setter method).
Abbreviation leaks := (leaks m getter setter method).
Abbreviation exposed := (exposed m getter setter method).
Abbreviation may_run := (may_run m getter setter method).

Lemma value_not_struct fi fn x r : functions m !! fi = Some fn -> ~ value_at m fi x -> id_of x ∈ reg r (analyzeFn m fi fn s) ->
  argIsValueStruct fn (reg r (analyzeFn m fi fn s)) = false.
Proof.
  intros Hf Hv Hx. unfold argIsValueStruct. apply andb_false_iff. right. apply not_true_is_false. intros Hall.
  rewrite forallb_forall in Hall. apply elem_of_elements, list_elem_of_In, Hall in Hx. apply andb_true_iff in Hx as [H0 Hm].
  apply Z.leb_le in H0. destruct x as [pc|k|k]; cbn [id_of] in *; [|lia..]. rewrite Nat2Z.id in Hm. apply Hv.
  destruct (icode fn !! pc) as [si|] eqn:E; [|done]. exists si. split; [by exists fn|done].
Qed.

(** The instruction's own transfers. *)
Lemma move_sound fi fn pc i r b b' x : functions m !! fi = Some fn -> icode fn !! pc = Some i -> In (r, (b, b')) (moves m i) ->
  ~ value_at m fi x -> id_of x ∈ reg r (analyzeFn m fi fn s) -> id_of x ∈ reg (ia i) (analyzeFn m fi fn s) \/ In (r, b) (blind m i).
Proof.
  intros Hf Hi Ht Hv Hx. pose proof (fn_wf_at _ _ Hf) as Hwf.
  destruct (move_cases m i r b b' Ht) as [H|[(Eo & k & -> & Hk)|[(Eo & Ed & ->)|[(Eo & Ev & ->)|(ni & Hn & Hor)]]]]; [by right|left..].
  - destruct (alloc_rule m fi fn s Hwf pc i Hi) as (_ & H & _); [unfold allocates; by rewrite Eo|]. by apply (H Eo k Hk).
  - destruct (alloc_rule m fi fn s Hwf pc i Hi) as (_ & _ & H); [unfold allocates; by rewrite Eo|]. by apply (H Eo Ed).
  - by apply (copy_rule m fi fn s Hwf pc i Hi Eo Ev).
  - destruct (native_rule m fi fn s Hwf pc i ni Hi Hn) as [Hs Ha]. destruct Hor as [[E ->]|(E & k & -> & Hk)]; [by apply (Hs E)|].
    apply (Ha E k Hk); [|done]. by eapply value_not_struct.
Qed.

Lemma transfer_sound fi fn pc i r b b' d x : functions m !! fi = Some fn -> icode fn !! pc = Some i -> In (r, (b, b'), d) (transfers m pc i) ->
  ~ value_at m fi x -> id_of x ∈ reg r (analyzeFn m fi fn s) -> id_of x ∈ reg d (analyzeFn m fi fn s) \/ In (r, b) (blind m i).
Proof.
  unfold transfers. intros Hf Hi Ht Hv Hx. destruct (bool_decide (op i = ColGet)) eqn:E.
  - apply bool_decide_eq_true in E. unfold blind. rewrite E.
    apply in_app_iff in Ht as [Ht|Ht]; apply in_map_iff in Ht as (t & [= -> <-] & H%unwrap_reg); injection H as -> ->; [right; by left|].
    exfalso. unfold reg, temp in Hx. destruct (Z.leb_spec 0 (- Z.of_nat pc - 1)); [lia|]. set_solver.
  - apply in_map_iff in Ht as (t & [= -> <-] & Ht). by eapply move_sound.
Qed.

(** A call whose answer is followed: the argument is one of the window. *)
Lemma run_followed pc i g args d k r : may_run pc i g args d -> follows_result m i = true -> args !! k = Some r ->
  call_target m i = Some g /\ d = Some (ia i) /\ r = (ic i + Z.of_nat k)%Z /\ In (Z.of_nat k) (int_range (id_ i)).
Proof.
  unfold follows_result, call_target. intros Hr Hf Hk.
  destruct Hr as [Eo|g Eo Ec|g Eo Ec|g Eo Ed _|Eo _|g Eo _|g Eo _|g Eo _|g Eo _|g Eo _|g Eo _]; rewrite Eo in Hf |- *; try done;
    try (split; [done|]; split; [done|by apply window_lookup]). unfold callee_of in Hf. by rewrite Ed in Hf.
Qed.

Lemma flows_sound fi x b r : flows fi x b r -> forall fn, functions m !! fi = Some fn -> declared fn x -> ~ value_at m fi x ->
  id_of x ∈ reg r (analyzeFn m fi fn s) \/ exposed fi x.
Proof.
  induction 1 as [fi fn0 b k Hf Hr|fi pc i (fn0 & Hf & Hi) Ha|fi pc i r b b' d x (fn0 & Hf & Hi) Ht Hx IH
    |fi pc i g args d k r b b' x pc' j (fn0 & Hf & Hi) Hrun Hk Hx IH (fn1 & Hf1 & Hj) Eo Hret IH1];
    intros fn Hf' Hd Hv; rewrite Hf in Hf'; injection Hf' as <-; pose proof (fn_wf_at _ _ Hf) as Hwf.
  - left. destruct (analyzeFn_keeps m fi fn0 s) as (Hreg & _). apply Hreg. unfold reg, init_state. cbn [regs].
    destruct (Z.leb_spec 0 (Z.of_nat k)); [|lia]. rewrite Nat2Z.id, list_lookup_fmap, lookup_seq_lt by done. rewrite id_passed.
    assert (k < nparams fn0) as Hp by (by destruct b). cbn. unfold param_sites. destruct (Nat.ltb_spec k (nparams fn0)); [set_solver|lia].
  - left. exact (proj1 (alloc_rule m fi fn0 s Hwf pc i Hi Ha)).
  - destruct (IH fn0 Hf Hd Hv) as [H|H]; [|by right].
    destruct (transfer_sound fi fn0 pc i r b b' d x Hf Hi Ht Hv H) as [?|Hb]; [by left|]. right. eapply exposed_at; [by exists fn0|exact Hb|done].
  - destruct (IH fn0 Hf Hd Hv) as [H|H]; [|by right].
    destruct (decide (k < nparams fn1)) as [Hp|Hp]; [|right; apply (exposed_extra _ _ _ _ fi pc i g fn1 args (Some d) k r b); [by exists fn0|done|done|lia|done..]].
    destruct (IH1 fn1 Hf1) as [H1|H1]; [by destruct b|destruct b; by intros []| |right; eapply exposed_callee; [by exists fn0|done..]].
    destruct (follows_result m i) eqn:Ef; [|right; eapply exposed_result; [by exists fn0|done..|by exists fn1|done|done]].
    left. destruct (run_followed pc i g args _ k r Hrun Ef Hk) as (Ht & [= ->] & -> & Hin).
    eapply (call_rule m fi fn0 s Hwf pc i g (Z.of_nat k) Hi Ht Hin); [|exact H].
    pose proof (ret_flag _ _ _ _ _ Hf1 Hj Eo H1) as Hfl. rewrite Nat2Z.id.
    rewrite pindex_passed, id_passed in Hfl. by destruct (Z.leb_spec 0 (- (Z.of_nat k + 1))); [lia|].
Qed.

(** A call whose arguments are followed. *)
Lemma run_arguments pc i g args d k r : may_run pc i g args d -> follows_arguments m i = true -> args !! k = Some r ->
  exists l, arguments m i = Some (g, l) /\ In (Z.of_nat k, r) l.
Proof.
  unfold follows_arguments. intros Hr Hf Hk. destruct (follows_result m i) eqn:Ef.
  - destruct (run_followed pc i g args d k r Hr Ef Hk) as (Ht & _ & -> & Hin). unfold arguments. rewrite Ht.
    unfold call_target in Ht. destruct (op i); try done; (eexists; split; [done|]; apply in_map_iff; by exists (Z.of_nat k)).
  - cbn [orb] in Hf. apply andb_prop in Hf as [Eo Hc]. apply bool_decide_eq_true in Eo.
    destruct Hr as [E|g E Ec|g E Ec|g E Ed _|E _|g E _|g E _|g E _|g E _|g E _|g E _]; try congruence. unfold arguments. rewrite Eo, Ec.
    eexists. split; [done|]. destruct k as [|[|k]]; cbn in Hk; [injection Hk as <-; by left|injection Hk as <-; right; by left|done].
Qed.

Lemma leaks_fn fi x : leaks fi x -> exists fn, functions m !! fi = Some fn.
Proof. intros H. by destruct H as [?????? (fn & ? & _)|????? (fn & ? & _)|?????????? (fn & ? & _)]; exists fn. Qed.

Lemma leaks_sound fi x : leaks fi x -> forall fn, functions m !! fi = Some fn -> declared fn x -> ~ value_at m fi x ->
  recorded fi (analyzeFn m fi fn s) (id_of x) \/ exposed fi x.
Proof.
  induction 1 as [fi pc i r b x (fn0 & Hf & Hi) Hr Hx|fi pc i b n (fn0 & Hf & Hi) Eo Hx
    |fi pc i g args d k r b x (fn0 & Hf & Hi) Hrun Hk Hx Hl IH];
    intros fn Hf' Hd Hv; rewrite Hf in Hf'; injection Hf' as <-;
    (destruct (flows_sound _ _ _ _ Hx fn0 Hf Hd Hv) as [Hx'|He]; [|by right]); pose proof (reg_room _ _ _ _ Hf Hx') as Hroom.
  - destruct (sink_cases m i r b Hr) as [Hr'|Hb]; [left|right; eapply exposed_at; [by exists fn0|exact Hb|done]].
    apply (final_sink m fi fn0 s (fn_wf_at _ _ Hf) pc i (fun st => recorded fi st (id_of x)) Hi).
    + intros st Hreg Hs. eapply direct_sink_recorded; [exact Hr'|by rewrite Hreg|by eapply room_le].
    + intros st st' Hkp. by apply recorded_keeps.
  - left. pose proof (ret_flag _ _ _ _ _ Hf Hi Eo Hx') as H. cbn [id_of] in *. by destruct (Z.leb_spec 0 (Z.of_nat n)); [|lia].
  - destruct (leaks_fn _ _ Hl) as [fn1 Hf1].
    destruct (decide (k < nparams fn1)) as [Hp|Hp]; [|right; apply (exposed_extra _ _ _ _ fi pc i g fn1 args d k r b); [by exists fn0|done|done|lia|done..]].
    destruct (IH fn1 Hf1) as [H1|H1]; [by destruct b|destruct b; by intros []| |right; eapply exposed_callee; [by exists fn0|done..]].
    destruct (follows_arguments m i) eqn:Ef; [left|right; eapply exposed_kept; [by exists fn0|done..]].
    destruct (run_arguments pc i g args d k r Hrun Ef Hk) as (l & Ha & Hin).
    apply (final_sink m fi fn0 s (fn_wf_at _ _ Hf) pc i (fun st => recorded fi st (id_of x)) Hi).
    + intros st Hreg Hs. eapply argument_recorded; [exact Ha|exact Hin|by rewrite Hreg|by eapply room_le|]. apply Hs.
      unfold recorded in H1. rewrite pindex_passed, id_passed in H1. destruct (Z.leb_spec 0 (- (Z.of_nat k + 1))); [lia|].
      rewrite (fixed _ _ Hf1) in H1. by rewrite Nat2Z.id.
    + intros st st' Hkp. by apply recorded_keeps.
Qed.

End Fixpoint_.

(** The site is a value struct: it is copied, so handing it to a callee is no escape. *)
Definition value_site (m : IrModule) (fi : nat) (pc : Z) : bool :=
  match functions m !! fi with
  | Some fn => match icode fn !! Z.to_nat pc with Some i => is_value_copy i || is_value_new i | None => false end
  | None => false
  end.

Lemma sites_of_spec fi fn es site : In site (sites_of (fi, (fn, es))) -> escapes site = false ->
  as_fn site = fi /\ exists pc i, as_pc site = Z.of_nat pc /\ icode fn !! pc = Some i /\
    (es !! as_pc site = None \/ is_value_copy i || is_value_new i = true).
Proof.
  unfold sites_of. cbn [fst snd]. intros H He. apply in_concat in H as (l & Hl & Hs).
  apply in_map_iff in Hl as ([pc i] & <- & Hin). apply indexed_code_spec in Hin as (n & -> & Hn).
  unfold classify in Hs. destruct (_ || _); [|done]. destruct Hs as [<-|[]]. cbn [escapes as_fn as_pc] in *.
  split; [done|]. exists n, i. split; [done|]. split; [done|]. apply negb_false_iff in He.
  destruct (es !! Z.of_nat n); [|by left]. right. apply andb_true_iff in He as [He _]. by rewrite orb_comm.
Qed.

Lemma analyzeOwnership_sites m cap site : In site (analyzeOwnership_capped m cap) ->
  exists fi fn es, functions m !! fi = Some fn /\
    (rounds_loop m cap (init_summaries m) (map (fun _ => ∅) (functions m))).2 !! fi = Some es /\
    In site (sites_of (fi, (fn, es))).
Proof.
  unfold analyzeOwnership_capped. destruct (rounds_loop _ _ _ _) as [t es]. cbn [snd]. intros H.
  apply in_concat in H as (l & Hl & Hs). apply in_map_iff in Hl as ([fi [fn e]] & <- & Hin).
  exists fi, fn, e. apply list_elem_of_In, list_elem_of_lookup in Hin as [n Hn].
  change (zip (seq 0 (length (functions m))) (zip (functions m) es) !! n = Some (fi, (fn, e))) in Hn.
  rewrite lookup_zip_with_Some in Hn. destruct Hn as (a & b & [= <- Hb] & Ha & Hz). subst b.
  apply lookup_seq in Ha as [-> _]. rewrite lookup_zip_with_Some in Hz. destruct Hz as (x & y & [= <- <-] & Hx & Hy). done.
Qed.


(** Modules in which nothing is exposed, whatever the classes of the program are. *)
Definition quiet (m : IrModule) (i : Inst) : bool :=
  match blind m i with [] => true | _ => false end &&
  match op i with
  | Call | CallDyn =>
      match call_target m i with
      | Some g => match functions m !! g with Some fn => (Z.to_nat (id_ i) <=? nparams fn)%nat | None => true end
      | None => false
      end
  | Arith => match callee_of m i with Some _ => false | None => true end
  | NewObject => (ib i <? 0)%Z
  | GetMember | ColGet | SetMember | GetIndex | IndexStore => false
  | _ => true
  end.

Lemma quiet_runs m getter setter method pc i g args d : may_run m getter setter method pc i g args d -> quiet m i = true ->
  follows_result m i = true /\ follows_arguments m i = true /\
  forall fn k r, functions m !! g = Some fn -> args !! k = Some r -> k < nparams fn.
Proof.
  unfold quiet, follows_arguments, follows_result. intros Hr [_ Hq]%andb_prop.
  assert (forall fn k r, (Z.to_nat (id_ i) <=? nparams fn) = true -> window i !! k = Some r -> k < nparams fn) as Hw.
  { intros fn k r Hn Hk. apply Nat.leb_le in Hn. apply lookup_lt_Some in Hk. unfold window, int_range in Hk.
    rewrite !length_map, length_seq in Hk. lia. }
  destruct Hr as [Eo|g Eo Ec|g Eo Ec|g Eo Ed _|Eo Hi|g Eo _|g Eo _|g Eo _|g Eo _|g Eo _|g Eo _]; rewrite Eo in *; try done.
  - split; [done|]. split; [done|]. intros fn k r Hf. unfold call_target in Hq. rewrite Eo, Hf in Hq. by apply Hw.
  - rewrite Ec. split; [done|]. split; [done|]. intros fn k r Hf. unfold call_target in Hq. rewrite Eo, Ec, Hf in Hq. by apply Hw.
  - by rewrite Ec in Hq.
  - unfold call_target, callee_of in Hq. by rewrite Eo, Ed in Hq.
  - apply Z.ltb_lt in Hq. lia.
Qed.

Lemma quiet_unexposed m getter setter method : forallb (fun fn => forallb (quiet m) (icode fn)) (functions m) = true ->
  forall fi x, ~ exposed m getter setter method fi x.
Proof.
  intros Hall. assert (forall fi pc i, code_at m fi pc i -> quiet m i = true) as Hq.
  { intros fi pc i (fn & Hf & Hi). rewrite forallb_forall in Hall. apply list_elem_of_lookup_2, list_elem_of_In, Hall in Hf.
    rewrite forallb_forall in Hf. by apply Hf, list_elem_of_In, (list_elem_of_lookup_2 _ pc). }
  intros fi x. induction 1 as [fi pc i r b x Hi Hb _|fi pc i g args d k r b x Hi Hr Hf _ _ _|fi pc i g args d k r b b' x pc' j Hi Hr Hf _ _ _ _ _
    |fi pc i g fn args d k r b x Hi Hr Hf Hk Ha _|]; try done; pose proof (Hq _ _ _ Hi) as Hqi.
  - unfold quiet in Hqi. by destruct (blind m i).
  - destruct (quiet_runs _ _ _ _ _ _ _ _ _ Hr Hqi) as (_ & E & _). congruence.
  - destruct (quiet_runs _ _ _ _ _ _ _ _ _ Hr Hqi) as (E & _ & _). congruence.
  - destruct (quiet_runs _ _ _ _ _ _ _ _ _ Hr Hqi) as (_ & _ & H). specialize (H fn k r Hf Ha). lia.
Qed.

(** A module with a kept array, an array returned through an identity function, and that function. *)
Definition sound_example : IrModule := plain_module
  [plain_fn (lit "main") 0 4
     [inst NewArray 0 0 0 0; inst NewArray 1 0 0 0; inst Call 2 1 1 1; inst Move 3 0 0 0; inst Ret 2 0 0 0];
   plain_fn (lit "id") 1 1 [inst Ret 0 0 0 0]] [].


(** The first reason recorded for a site wins, and a value struct whose
    reason starts with "passed t" is kept scope-owned: a value struct handed
    to a native and then returned is reported scope-owned although it is
    returned to the caller. *)
Theorem ownership_reason_masked :
  let obj := MkInst NewObject 0 (-1) 0 0 TkEnd [] (Some (MkSymbol 0 (lit "S") true [])) None in
  let m := plain_module [plain_fn (lit "f") 0 2 [obj; inst CallNativeFn 1 0 0 1; inst Ret 0 0 0 0]] [] in
  analyzeOwnership m = [MkAllocSite 0 0 NewObject false []] /\ leaks m (fun _ _ => False) (fun _ _ => False) (fun _ _ => False) 0 (Alloc 0) /\
  map escapes (analyzeOwnership (plain_module [plain_fn (lit "f") 0 2 [obj; inst Ret 0 0 0 0]] [])) = [true].
Proof.
  intros obj m. split; [vm_compute; reflexivity|]. split; [|vm_compute; reflexivity].
  assert (functions m !! 0 = Some (plain_fn (lit "f") 0 2 [obj; inst CallNativeFn 1 0 0 1; inst Ret 0 0 0 0])) as Hf
    by reflexivity.
  apply (leak_ret m _ _ _ 0 2 (inst Ret 0 0 0 0) false 0); [by eexists|done|].
  apply (flow_alloc m _ _ _ 0 0 obj); [by eexists|done].
Qed.
