(* ===== verification/X64.v ===== *)
(** * The x86-64 assembler and ELF writer

    Models [src/X64.hpp] and [src/X64.cpp]: the methods of [class Asm] (each
    one as the list of bytes it pushes on [code]), the back-patching of jump
    displacements, and [makeElf].  A byte is a [Z] in [0, 256); register
    numbers are the [int]s of the source. *)

From S2P Require Import Prelude.

Abbreviation Bytes := (list Z).
Local Open Scope Z_scope.

Definition RAX : Z := 0.
Definition RBP : Z := 5.

(** [void u8(uint8_t b)], [u32], [u64]: the conversions to unsigned wrap. *)
Definition u8 (b : Z) : Bytes := [wrap_u 8 b].
Definition le_bytes (n : nat) (v : Z) : Bytes := map (fun i => Z.land (Z.shiftr v (8 * Z.of_nat i)) 255) (seq 0 n).
Definition u32 (v : Z) : Bytes := le_bytes 4 (wrap_u 32 v).
Definition u64 (v : Z) : Bytes := le_bytes 8 (wrap_u 64 v).

Definition low3 (r : Z) : Z := Z.land r 7.
Definition orb_list (l : list Z) : Z := fold_left Z.lor l 0.

Definition rex (w : bool) (reg rm idx : Z) : Z :=
  orb_list [64; if w then 8 else 0; if 8 <=? reg then 4 else 0; if 8 <=? idx then 2 else 0; if 8 <=? rm then 1 else 0].
Definition rex3 (reg rm : Z) : Bytes := u8 (rex true reg rm 0).

(** The ModRM byte [mod | ((reg & 7) << 3) | (rm & 7)]. *)
Definition modrm (md reg rm : Z) : Bytes := u8 (orb_list [md; Z.shiftl (low3 reg) 3; low3 rm]).

Definition memRbp (reg disp : Z) : Bytes := u8 (orb_list [128; Z.shiftl (low3 reg) 3; 5]) ++ u32 disp.

Definition movImm (r imm : Z) : Bytes := rex3 0 r ++ u8 (Z.lor 184 (low3 r)) ++ u64 imm.
Definition load (r disp : Z) : Bytes := rex3 r RBP ++ u8 139 ++ memRbp r disp.
Definition store (r disp : Z) : Bytes := rex3 r RBP ++ u8 137 ++ memRbp r disp.
Definition movRR (dst src : Z) : Bytes := rex3 src dst ++ u8 137 ++ modrm 192 src dst.
Definition alu (op dst src : Z) : Bytes := rex3 src dst ++ u8 op ++ modrm 192 src dst.
Definition addRR := alu 1.
Definition subRR := alu 41.
Definition cmpRR := alu 57.
Definition xorRR := alu 49.
Definition andRR := alu 33.
Definition orRR := alu 9.
Definition imulRR (dst src : Z) : Bytes := rex3 dst src ++ u8 15 ++ u8 175 ++ modrm 192 dst src.
Definition cqo : Bytes := u8 72 ++ u8 153.
Definition idiv (r : Z) : Bytes := rex3 0 r ++ u8 247 ++ u8 (Z.lor 248 (low3 r)).
Definition neg (r : Z) : Bytes := rex3 0 r ++ u8 247 ++ u8 (Z.lor 216 (low3 r)).
Definition incR (r : Z) : Bytes := rex3 0 r ++ u8 255 ++ u8 (Z.lor 192 (low3 r)).
Definition decR (r : Z) : Bytes := rex3 0 r ++ u8 255 ++ u8 (Z.lor 200 (low3 r)).
Definition testRR (r : Z) : Bytes := rex3 r r ++ u8 133 ++ modrm 192 r r.
Definition setccAx (cc : Z) : Bytes := u8 15 ++ u8 cc ++ u8 192 ++ u8 72 ++ u8 15 ++ u8 182 ++ u8 192.
Definition addImm (r imm : Z) : Bytes := rex3 0 r ++ u8 129 ++ u8 (Z.lor 192 (low3 r)) ++ u32 imm.
Definition subImm (r imm : Z) : Bytes := rex3 0 r ++ u8 129 ++ u8 (Z.lor 232 (low3 r)) ++ u32 imm.
Definition loadInd (dst base : Z) : Bytes := rex3 dst base ++ u8 139 ++ modrm 0 dst base.
Definition storeInd (base src : Z) : Bytes := rex3 src base ++ u8 137 ++ modrm 0 src base.
Definition lea (dst base disp : Z) : Bytes := rex3 dst base ++ u8 141 ++ modrm 128 dst base ++ u32 disp.
Definition loadMem (dst base disp : Z) : Bytes := rex3 dst base ++ u8 139 ++ modrm 128 dst base ++ u32 disp.
Definition storeMem (base disp src : Z) : Bytes := rex3 src base ++ u8 137 ++ modrm 128 src base ++ u32 disp.
Definition cmpImm (r imm : Z) : Bytes := rex3 0 r ++ u8 129 ++ u8 (Z.lor 248 (low3 r)) ++ u32 imm.
Definition shlImm (r imm : Z) : Bytes := rex3 0 r ++ u8 193 ++ u8 (Z.lor 224 (low3 r)) ++ u8 imm.
Definition shlCl (r : Z) : Bytes := rex3 0 r ++ u8 211 ++ u8 (Z.lor 224 (low3 r)).
Definition shrImm (r imm : Z) : Bytes := rex3 0 r ++ u8 193 ++ u8 (Z.lor 232 (low3 r)) ++ u8 imm.
Definition sarCl (r : Z) : Bytes := rex3 0 r ++ u8 211 ++ u8 (Z.lor 248 (low3 r)).
Definition loadByte (dst base disp : Z) : Bytes := rex3 dst base ++ u8 15 ++ u8 182 ++ modrm 64 dst base ++ u8 disp.
Definition movqXmmR (x r : Z) : Bytes := u8 102 ++ rex3 x r ++ u8 15 ++ u8 110 ++ modrm 192 x r.
Definition movqRXmm (r x : Z) : Bytes := u8 102 ++ rex3 x r ++ u8 15 ++ u8 126 ++ modrm 192 x r.
Definition sseArith (op d s : Z) : Bytes := u8 242 ++ u8 15 ++ u8 op ++ modrm 192 d s.
Definition addsd := sseArith 88.
Definition subsd := sseArith 92.
Definition mulsd := sseArith 89.
Definition divsd := sseArith 94.
Definition sqrtsd := sseArith 81.
Definition comisd (a b : Z) : Bytes := u8 102 ++ u8 15 ++ u8 47 ++ modrm 192 a b.
Definition cvtsi2sd (x r : Z) : Bytes := u8 242 ++ rex3 x r ++ u8 15 ++ u8 42 ++ modrm 192 x r.
Definition cvttsd2si (r x : Z) : Bytes := u8 242 ++ rex3 r x ++ u8 15 ++ u8 44 ++ modrm 192 r x.
Definition roundsd (d s imm : Z) : Bytes := u8 102 ++ u8 15 ++ u8 58 ++ u8 11 ++ modrm 192 d s ++ u8 imm.
Definition repMovsb : Bytes := u8 243 ++ u8 164.
Definition repStosb : Bytes := u8 243 ++ u8 170.
Definition repeCmpsb : Bytes := u8 243 ++ u8 166.
Definition push (r : Z) : Bytes := (if 8 <=? r then u8 65 else []) ++ u8 (Z.lor 80 (low3 r)).
Definition pop (r : Z) : Bytes := (if 8 <=? r then u8 65 else []) ++ u8 (Z.lor 88 (low3 r)).
Definition ret : Bytes := u8 195.
Definition syscall_ : Bytes := u8 15 ++ u8 5.
Definition leave : Bytes := u8 201.

(** Jumps return the offset of the rel32 field in the code they extend. *)
Definition jmp (code : Bytes) : Bytes * nat := (code ++ u8 233 ++ u32 0, (length code + 1)%nat).
Definition jcc (cc : Z) (code : Bytes) : Bytes * nat := (code ++ u8 15 ++ u8 (Z.lor 128 cc) ++ u32 0, (length code + 2)%nat).
Definition call (code : Bytes) : Bytes * nat := (code ++ u8 232 ++ u32 0, (length code + 1)%nat).
Definition je := jcc 4.
Definition jne := jcc 5.
Definition jl := jcc 12.
Definition jge := jcc 13.
Definition jle := jcc 14.
Definition jg := jcc 15.

(** [patchRel]: the displacement wraps to [int32_t]; the four bytes at [at_] are overwritten. *)
Definition patchRel (at_ target : nat) (code : Bytes) : Bytes :=
  let rel := wrap_s 32 (Z.of_nat target - Z.of_nat (at_ + 4)) in
  fold_left (fun c i => <[(at_ + i)%nat := Z.land (Z.shiftr rel (8 * Z.of_nat i)) 255]> c) (seq 0 4) code.

(** ** ELF *)

Definition put (off : nat) (p out : Bytes) : Bytes := take off out ++ p ++ drop (off + length p) out.

Definition BASE : Z := 4194304.
Definition EHSIZE : nat := 64.
Definition PHSIZE : nat := 56.

(** The stores of the two headers, in program order. *)
Definition header_stores (entry fileSize : Z) : list (nat * Bytes) := map (fun st => (Z.to_nat (fst st), snd st))
  [(0, [127]); (1, [69]); (2, [76]); (3, [70]); (4, [2]); (5, [1]); (6, [1]);
   (16, le_bytes 2 2); (18, le_bytes 2 62); (20, le_bytes 4 1); (24, le_bytes 8 entry); (32, le_bytes 8 64);
   (40, le_bytes 8 0); (48, le_bytes 4 0); (52, le_bytes 2 64); (54, le_bytes 2 56); (56, le_bytes 2 1);
   (58, le_bytes 2 0); (60, le_bytes 2 0); (62, le_bytes 2 0);
   (64, le_bytes 4 1); (68, le_bytes 4 7); (72, le_bytes 8 0); (80, le_bytes 8 BASE); (88, le_bytes 8 BASE);
   (96, le_bytes 8 fileSize); (104, le_bytes 8 fileSize); (112, le_bytes 8 4096)].

Definition makeElf (code : Bytes) (entryOffset : nat) (data : Bytes) : Bytes * Z :=
  let codeOff := (EHSIZE + PHSIZE)%nat in
  let dataOff := (codeOff + length code)%nat in
  let fileSize := (dataOff + length data)%nat in
  let entry := wrap_u 64 (BASE + Z.of_nat codeOff + Z.of_nat entryOffset) in
  let out := replicate fileSize 0 in
  let out := fold_left (fun o st => put (fst st) (snd st) o) (header_stores entry (Z.of_nat fileSize)) out in
  let out := match code with [] => out | _ => put codeOff code out end in
  let out := match data with [] => out | _ => put dataOff data out end in
  (out, wrap_u 64 (BASE + Z.of_nat dataOff)).
