(* ===== verification/X64Facts.v ===== *)
(** * What the assembler emits

    An instruction decoder for the subset of x86-64 the backend uses, written
    from the instruction formats (prefixes, REX, opcode, ModRM, displacement,
    immediate) and independent of the emitters; the emitted bytes decode to the
    instruction each method is documented to emit; a patched jump lands on its
    target; the ELF image maps code and data where its headers say. *)

From S2P Require Import Prelude X64.

Local Open Scope Z_scope.

(** ** A decoder *)

Inductive AluOp := Add | Or | And_ | Sub | Xor | Cmp | Test_ | MovOp.
Inductive UnOp := Neg_ | Idiv | Inc | Dec.
Inductive ShOp := Shl | Shr | Sar.
Inductive SseOp := Addsd | Subsd | Mulsd | Divsd | Sqrtsd.
Inductive RepOp := Movsb | Stosb | Cmpsb.
Inductive Operand := OReg (r : Z) | OMem (base disp : Z).

Inductive Width := W32 | W64.

Inductive Ins :=
| IMovImm (w : Width) (r imm : Z) | IAlu (w : Width) (o : AluOp) (dst : Operand) (src : Z) | ILoad (w : Width) (dst : Z) (src : Operand)
| ILea (w : Width) (dst : Z) (src : Operand) | IImul (w : Width) (dst : Z) (src : Operand) | IMovzx8 (w : Width) (dst : Z) (src : Operand)
| ICqo (w : Width) | IUn (w : Width) (o : UnOp) (r : Operand) | IAluImm (w : Width) (o : AluOp) (r : Operand) (imm : Z)
| IShImm (w : Width) (o : ShOp) (r : Operand) (imm : Z) | IShCl (w : Width) (o : ShOp) (r : Operand)
| ISetcc (cc : Z) (r : Operand)
| IMovqToX (w : Width) (x : Z) (src : Operand) | IMovqFromX (w : Width) (dst : Operand) (x : Z)
| ISse (o : SseOp) (d : Z) (s : Operand) | IComisd (a : Z) (b : Operand)
| ICvtsi2sd (w : Width) (x : Z) (src : Operand) | ICvttsd2si (w : Width) (r : Z) (src : Operand) | IRoundsd (d : Z) (s : Operand) (imm : Z)
| IRep (o : RepOp) | IPush (r : Z) | IPop (r : Z) | IRet | ISyscall | ILeave
| IJmp (rel : Z) | IJcc (cc rel : Z) | ICall (rel : Z).

(** Little-endian reads. *)
Fixpoint le_value (l : Bytes) : Z := match l with [] => 0 | b :: l' => b + 256 * le_value l' end.
Definition read_le (n : nat) (s : Bytes) : option (Z * Bytes) :=
  if (length s <? n)%nat then None else Some (le_value (take n s), drop n s).
Definition read_s (n : nat) (s : Bytes) : option (Z * Bytes) :=
  match read_le n s with Some (v, s') => Some (wrap_s (8 * Z.of_nat n) v, s') | None => None end.

Record Rex := MkRex { rexW : bool; rexR : bool; rexX : bool; rexB : bool }.
Definition take_rex (s : Bytes) : Rex * Bytes :=
  match s with
  | b :: s' => if Z.shiftr b 4 =? 4
               then (MkRex (Z.testbit b 3) (Z.testbit b 2) (Z.testbit b 1) (Z.testbit b 0), s')
               else (MkRex false false false false, s)
  | [] => (MkRex false false false false, s)
  end.
(** The operand size: REX.W makes the operation 64 bits wide; without it
    integer operations are on 32 bits ([movq] is [movd], [cqo] is [cdq], and a
    32-bit immediate follows [mov]). *)
Definition width (rx : Rex) : Width := if rexW rx then W64 else W32.
Definition ext (hi : bool) (lo : Z) : Z := if hi then 8 + lo else lo.

(** ModRM: register number, operand.  [rm = 4] (a SIB byte) and the
    RIP-relative form are outside the subset. *)
Definition take_modrm (rx : Rex) (s : Bytes) : option (Z * Operand * Bytes) :=
  match s with
  | [] => None
  | b :: s1 =>
      let md := Z.shiftr b 6 in
      let reg := Z.land (Z.shiftr b 3) 7 in
      let rm := Z.land b 7 in
      let base := ext (rexB rx) rm in
      let g := ext (rexR rx) reg in
      if md =? 3 then Some (g, OReg base, s1)
      else if rm =? 4 then None
      else if md =? 0 then if rm =? 5 then None else Some (g, OMem base 0, s1)
      else match read_s (if md =? 1 then 1 else 4) s1 with
           | Some (d, s2) => Some (g, OMem base d, s2)
           | None => None
           end
  end.

(** Byte registers 4 to 7 depend on whether there is a REX prefix: outside the subset. *)
Definition byte_operand (o : Operand) : bool := match o with OReg r => r <? 4 | OMem _ _ => true end.

(** The opcode-extension digit of ModRM is its bare [reg] field. *)
Definition no_r (rx : Rex) : Rex := MkRex (rexW rx) false (rexX rx) (rexB rx).

Definition mr_op (o : Z) : option AluOp :=
  if o =? 1 then Some Add else if o =? 9 then Some Or else if o =? 33 then Some And_ else if o =? 41 then Some Sub
  else if o =? 49 then Some Xor else if o =? 57 then Some Cmp else if o =? 133 then Some Test_
  else if o =? 137 then Some MovOp else None.
Definition imm_op (digit : Z) : option AluOp :=
  if digit =? 0 then Some Add else if digit =? 5 then Some Sub else if digit =? 7 then Some Cmp else None.
Definition sh_op (digit : Z) : option ShOp :=
  if digit =? 4 then Some Shl else if digit =? 5 then Some Shr else if digit =? 7 then Some Sar else None.
Definition sse_op (o : Z) : option SseOp :=
  if o =? 88 then Some Addsd else if o =? 92 then Some Subsd else if o =? 89 then Some Mulsd
  else if o =? 94 then Some Divsd else if o =? 81 then Some Sqrtsd else None.

Definition with_rm (rx : Rex) (s : Bytes) (k : Z -> Operand -> option Ins) : option (Ins * Bytes) :=
  match take_modrm rx s with
  | Some (g, o, s') => match k g o with Some i => Some (i, s') | None => None end
  | None => None
  end.
Definition with_rm_imm (read : Bytes -> option (Z * Bytes)) (rx : Rex) (s : Bytes) (k : Z -> Operand -> Z -> option Ins) : option (Ins * Bytes) :=
  match take_modrm rx s with
  | Some (g, o, s') =>
      match read s' with
      | Some (v, s2) => match k g o v with Some i => Some (i, s2) | None => None end
      | None => None
      end
  | None => None
  end.
Definition rel32 (s : Bytes) (k : Z -> Ins) : option (Ins * Bytes) :=
  match read_s 4 s with Some (v, s') => Some (k v, s') | None => None end.

(** Two-byte opcodes (after 0F), by mandatory prefix. *)
Definition decode_0f (prefix : Z) (rx : Rex) (s : Bytes) : option (Ins * Bytes) :=
  match s with
  | [] => None
  | o :: s1 =>
      if prefix =? 102 then
        if o =? 110 then with_rm rx s1 (fun g m => Some (IMovqToX (width rx) g m))
        else if o =? 126 then with_rm rx s1 (fun g m => Some (IMovqFromX (width rx) m g))
        else if o =? 47 then with_rm rx s1 (fun g m => Some (IComisd g m))
        else if o =? 58 then
          match s1 with
          | o2 :: s2 => if o2 =? 11 then with_rm_imm (read_le 1) rx s2 (fun g m v => Some (IRoundsd g m v)) else None
          | [] => None
          end
        else None
      else if prefix =? 242 then
        if o =? 42 then with_rm rx s1 (fun g m => Some (ICvtsi2sd (width rx) g m))
        else if o =? 44 then with_rm rx s1 (fun g m => Some (ICvttsd2si (width rx) g m))
        else with_rm rx s1 (fun g m => option_map (fun p => ISse p g m) (sse_op o))
      else if o =? 5 then Some (ISyscall, s1)
      else if o =? 175 then with_rm rx s1 (fun g m => Some (IImul (width rx) g m))
      else if o =? 182 then with_rm rx s1 (fun g m => if byte_operand m then Some (IMovzx8 (width rx) g m) else None)
      else if Z.shiftr o 4 =? 8 then rel32 s1 (IJcc (Z.land o 15))
      else if Z.shiftr o 4 =? 9 then with_rm rx s1 (fun _ m => if byte_operand m then Some (ISetcc (Z.land o 15) m) else None)
      else None
  end.

Definition decode_1 (rx : Rex) (o : Z) (s : Bytes) : option (Ins * Bytes) :=
  let hi := Z.land o 248 in
  let r := ext (rexB rx) (Z.land o 7) in
  if hi =? 184 then match read_le (if rexW rx then 8 else 4) s with Some (v, s') => Some (IMovImm (width rx) r v, s') | None => None end
  else if hi =? 80 then Some (IPush r, s)
  else if hi =? 88 then Some (IPop r, s)
  else if o =? 195 then Some (IRet, s)
  else if o =? 201 then Some (ILeave, s)
  else if o =? 153 then Some (ICqo (width rx), s)
  else if o =? 233 then rel32 s IJmp
  else if o =? 232 then rel32 s ICall
  else if o =? 139 then with_rm rx s (fun g m => Some (ILoad (width rx) g m))
  else if o =? 141 then with_rm rx s (fun g m => Some (ILea (width rx) g m))
  else if o =? 247 then
    with_rm (no_r rx) s (fun g m => if g =? 3 then Some (IUn (width rx) Neg_ m) else if g =? 7 then Some (IUn (width rx) Idiv m) else None)
  else if o =? 255 then
    with_rm (no_r rx) s (fun g m => if g =? 0 then Some (IUn (width rx) Inc m) else if g =? 1 then Some (IUn (width rx) Dec m) else None)
  else if o =? 129 then with_rm_imm (read_s 4) (no_r rx) s (fun g m v => option_map (fun a => IAluImm (width rx) a m v) (imm_op g))
  else if o =? 193 then with_rm_imm (read_le 1) (no_r rx) s (fun g m v => option_map (fun a => IShImm (width rx) a m v) (sh_op g))
  else if o =? 211 then with_rm (no_r rx) s (fun g m => option_map (fun a => IShCl (width rx) a m) (sh_op g))
  else with_rm rx s (fun g m => option_map (fun a => IAlu (width rx) a m g) (mr_op o)).

Definition rep_op (b : Z) : option RepOp :=
  if b =? 164 then Some Movsb else if b =? 170 then Some Stosb else if b =? 166 then Some Cmpsb else None.

Definition decode (s : Bytes) : option (Ins * Bytes) :=
  match s with
  | [] => None
  | p :: s1 =>
      if p =? 243 then match s1 with b :: s2 => option_map (fun o => (IRep o, s2)) (rep_op b) | [] => None end
      else
        let prefix := if (p =? 102) || (p =? 242) then p else 0 in
        let '(rx, s2) := take_rex (if prefix =? 0 then s else s1) in
        match s2 with
        | [] => None
        | o :: s3 => if o =? 15 then decode_0f prefix rx s3 else if prefix =? 0 then decode_1 rx o s3 else None
        end
  end.

(** ** What each method is documented to emit *)

Inductive AsmCall :=
| CMovImm (r imm : Z) | CLoad (r disp : Z) | CStore (r disp : Z) | CMovRR (d s : Z)
| CAddRR (d s : Z) | CSubRR (d s : Z) | CCmpRR (d s : Z) | CXorRR (d s : Z) | CAndRR (d s : Z) | COrRR (d s : Z)
| CImulRR (d s : Z) | CCqo | CIdiv (r : Z) | CNeg (r : Z) | CIncR (r : Z) | CDecR (r : Z) | CTestRR (r : Z)
| CSetccAx (cc : Z) | CAddImm (r imm : Z) | CSubImm (r imm : Z) | CCmpImm (r imm : Z)
| CLoadInd (d b : Z) | CStoreInd (b s : Z) | CLea (d b disp : Z) | CLoadMem (d b disp : Z) | CStoreMem (b disp s : Z)
| CShlImm (r imm : Z) | CShlCl (r : Z) | CShrImm (r imm : Z) | CSarCl (r : Z) | CLoadByte (d b disp : Z)
| CMovqXmmR (x r : Z) | CMovqRXmm (r x : Z) | CAddsd (d s : Z) | CSubsd (d s : Z) | CMulsd (d s : Z) | CDivsd (d s : Z)
| CSqrtsd (d s : Z) | CComisd (a b : Z) | CCvtsi2sd (x r : Z) | CCvttsd2si (r x : Z) | CRoundsd (d s imm : Z)
| CRepMovsb | CRepStosb | CRepeCmpsb | CPush (r : Z) | CPop (r : Z) | CRet | CSyscall | CLeave.

(** The bytes of one method call. *)
Definition emit (c : AsmCall) : Bytes :=
  match c with
  | CMovImm r imm => movImm r imm | CLoad r d => load r d | CStore r d => store r d | CMovRR d s => movRR d s
  | CAddRR d s => addRR d s | CSubRR d s => subRR d s | CCmpRR d s => cmpRR d s | CXorRR d s => xorRR d s
  | CAndRR d s => andRR d s | COrRR d s => orRR d s | CImulRR d s => imulRR d s | CCqo => cqo | CIdiv r => idiv r
  | CNeg r => neg r | CIncR r => incR r | CDecR r => decR r | CTestRR r => testRR r | CSetccAx cc => setccAx cc
  | CAddImm r v => addImm r v | CSubImm r v => subImm r v | CCmpImm r v => cmpImm r v
  | CLoadInd d b => loadInd d b | CStoreInd b s => storeInd b s | CLea d b v => lea d b v
  | CLoadMem d b v => loadMem d b v | CStoreMem b v s => storeMem b v s
  | CShlImm r v => shlImm r v | CShlCl r => shlCl r | CShrImm r v => shrImm r v | CSarCl r => sarCl r
  | CLoadByte d b v => loadByte d b v | CMovqXmmR x r => movqXmmR x r | CMovqRXmm r x => movqRXmm r x
  | CAddsd d s => addsd d s | CSubsd d s => subsd d s | CMulsd d s => mulsd d s | CDivsd d s => divsd d s
  | CSqrtsd d s => sqrtsd d s | CComisd a b => comisd a b | CCvtsi2sd x r => cvtsi2sd x r
  | CCvttsd2si r x => cvttsd2si r x | CRoundsd d s v => roundsd d s v
  | CRepMovsb => repMovsb | CRepStosb => repStosb | CRepeCmpsb => repeCmpsb
  | CPush r => push r | CPop r => pop r | CRet => ret | CSyscall => syscall_ | CLeave => leave
  end.

(** The instructions the comments of [X64.hpp] name. *)
Definition intended (c : AsmCall) : list Ins :=
  match c with
  | CMovImm r imm => [IMovImm W64 r imm]
  | CLoad r d => [ILoad W64 r (OMem RBP d)] | CStore r d => [IAlu W64 MovOp (OMem RBP d) r]
  | CMovRR d s => [IAlu W64 MovOp (OReg d) s]
  | CAddRR d s => [IAlu W64 Add (OReg d) s] | CSubRR d s => [IAlu W64 Sub (OReg d) s] | CCmpRR d s => [IAlu W64 Cmp (OReg d) s]
  | CXorRR d s => [IAlu W64 Xor (OReg d) s] | CAndRR d s => [IAlu W64 And_ (OReg d) s] | COrRR d s => [IAlu W64 Or (OReg d) s]
  | CImulRR d s => [IImul W64 d (OReg s)] | CCqo => [ICqo W64] | CIdiv r => [IUn W64 Idiv (OReg r)]
  | CNeg r => [IUn W64 Neg_ (OReg r)] | CIncR r => [IUn W64 Inc (OReg r)] | CDecR r => [IUn W64 Dec (OReg r)]
  | CTestRR r => [IAlu W64 Test_ (OReg r) r]
  | CSetccAx cc => [ISetcc (Z.land cc 15) (OReg RAX); IMovzx8 W64 RAX (OReg RAX)]
  | CAddImm r v => [IAluImm W64 Add (OReg r) v] | CSubImm r v => [IAluImm W64 Sub (OReg r) v]
  | CCmpImm r v => [IAluImm W64 Cmp (OReg r) v]
  | CLoadInd d b => [ILoad W64 d (OMem b 0)] | CStoreInd b s => [IAlu W64 MovOp (OMem b 0) s]
  | CLea d b v => [ILea W64 d (OMem b v)] | CLoadMem d b v => [ILoad W64 d (OMem b v)]
  | CStoreMem b v s => [IAlu W64 MovOp (OMem b v) s]
  | CShlImm r v => [IShImm W64 Shl (OReg r) v] | CShlCl r => [IShCl W64 Shl (OReg r)]
  | CShrImm r v => [IShImm W64 Shr (OReg r) v] | CSarCl r => [IShCl W64 Sar (OReg r)]
  | CLoadByte d b v => [IMovzx8 W64 d (OMem b v)]
  | CMovqXmmR x r => [IMovqToX W64 x (OReg r)] | CMovqRXmm r x => [IMovqFromX W64 (OReg r) x]
  | CAddsd d s => [ISse Addsd d (OReg s)] | CSubsd d s => [ISse Subsd d (OReg s)] | CMulsd d s => [ISse Mulsd d (OReg s)]
  | CDivsd d s => [ISse Divsd d (OReg s)] | CSqrtsd d s => [ISse Sqrtsd d (OReg s)] | CComisd a b => [IComisd a (OReg b)]
  | CCvtsi2sd x r => [ICvtsi2sd W64 x (OReg r)] | CCvttsd2si r x => [ICvttsd2si W64 r (OReg x)]
  | CRoundsd d s v => [IRoundsd d (OReg s) v]
  | CRepMovsb => [IRep Movsb] | CRepStosb => [IRep Stosb] | CRepeCmpsb => [IRep Cmpsb]
  | CPush r => [IPush r] | CPop r => [IPop r] | CRet => [IRet] | CSyscall => [ISyscall] | CLeave => [ILeave]
  end.

(** The operands a method is documented to take: general registers, xmm 0-7,
    bases without a SIB byte ([loadInd]/[storeInd] also not rbp/r13), and
    immediates of the parameter's width. *)
Definition gpr (r : Z) : bool := (0 <=? r) && (r <? 16).
Definition xmm (x : Z) : bool := (0 <=? x) && (x <? 8).
Definition base_ok (b : Z) : bool := gpr b && negb (low3 b =? 4).
Definition ind_ok (b : Z) : bool := base_ok b && negb (low3 b =? 5).
Definition s_ok (w v : Z) : bool := (- 2 ^ (w - 1) <=? v) && (v <? 2 ^ (w - 1)).
Definition u_ok (w v : Z) : bool := (0 <=? v) && (v <? 2 ^ w).

Definition ok_call (c : AsmCall) : bool :=
  match c with
  | CMovImm r v => gpr r && u_ok 64 v
  | CLoad r d | CStore r d => gpr r && s_ok 32 d
  | CMovRR d s | CAddRR d s | CSubRR d s | CCmpRR d s | CXorRR d s | CAndRR d s | COrRR d s | CImulRR d s => gpr d && gpr s
  | CIdiv r | CNeg r | CIncR r | CDecR r | CTestRR r | CShlCl r | CSarCl r | CPush r | CPop r => gpr r
  | CSetccAx cc => (144 <=? cc) && (cc <? 160)
  | CAddImm r v | CSubImm r v | CCmpImm r v => gpr r && s_ok 32 v
  | CLoadInd d b | CStoreInd b d => gpr d && ind_ok b
  | CLea d b v | CLoadMem d b v | CStoreMem b v d => gpr d && base_ok b && s_ok 32 v
  | CShlImm r v | CShrImm r v => gpr r && u_ok 8 v
  | CLoadByte d b v => gpr d && base_ok b && s_ok 8 v
  | CMovqXmmR x r | CMovqRXmm r x | CCvtsi2sd x r | CCvttsd2si r x => xmm x && gpr r
  | CAddsd d s | CSubsd d s | CMulsd d s | CDivsd d s | CSqrtsd d s | CComisd d s => xmm d && xmm s
  | CRoundsd d s v => xmm d && xmm s && u_ok 8 v
  | _ => true
  end.

(** ** Fields *)

Lemma low3_mod r : low3 r = r mod 8.
Proof. exact (land_ones_mod r 3 ltac:(lia)). Qed.

Lemma land_255 x : Z.land x 255 = x mod 256.
Proof. exact (land_ones_mod x 8 ltac:(lia)). Qed.

Lemma ext_low3 r : gpr r = true -> ext (8 <=? r) (low3 r) = r.
Proof.
  unfold gpr, ext. rewrite low3_mod. intros H. bool_hyps.
  destruct (Z.leb_spec 8 r); dlia.
Qed.

Lemma ext_xmm r : xmm r = true -> (8 <=? r) = false /\ low3 r = r /\ gpr r = true.
Proof.
  unfold xmm, gpr. rewrite low3_mod. intros H. bool_hyps.
  split_and!; [by apply Z.leb_gt|dlia|]. apply andb_true_iff. lia.
Qed.

Lemma low3_range r : 0 <= low3 r < 8.
Proof. rewrite low3_mod. dlia. Qed.

Definition upto (n : nat) : list Z := map Z.of_nat (seq 0 n).

Lemma upto_In n z : 0 <= z < Z.of_nat n -> In z (upto n).
Proof. intros H. apply in_map_iff. exists (Z.to_nat z). rewrite in_seq. split; lia. Qed.

(** Facts about bytes built from two 3-bit fields, by enumeration. *)
Lemma fields_all (P : Z -> Z -> bool) : forallb (fun a => forallb (P a) (upto 8)) (upto 8) = true ->
  forall a b, P (low3 a) (low3 b) = true.
Proof.
  intros H a b. rewrite forallb_forall in H. pose proof (upto_In 8 _ (low3_range a)) as Ha. apply H in Ha. rewrite forallb_forall in Ha.
  apply Ha, (upto_In 8), low3_range.
Qed.

Definition modrm_ok (md a b : Z) : bool :=
  let m := orb_list [md; Z.shiftl a 3; b] in
  (wrap_u 8 m =? m) && (Z.shiftr m 6 =? md / 64) && (Z.land (Z.shiftr m 3) 7 =? a) && (Z.land m 7 =? b).

Lemma modrm_spec md : In md [0; 64; 128; 192] -> forall reg rm s, exists m, modrm md reg rm ++ s = m :: s /\
  Z.shiftr m 6 = md / 64 /\ Z.land (Z.shiftr m 3) 7 = low3 reg /\ Z.land m 7 = low3 rm.
Proof.
  intros Hm reg rm s. assert (modrm_ok md (low3 reg) (low3 rm) = true) as H.
  { apply fields_all. destruct Hm as [<-|[<-|[<-|[<-|[]]]]]; vm_compute; reflexivity. }
  unfold modrm_ok in H. cbv zeta in H. bool_hyps. exists (wrap_u 8 (orb_list [md; Z.shiftl (low3 reg) 3; low3 rm])).
  split; [reflexivity|]. split_and!; congruence.
Qed.

Lemma opcode_spec hi : In hi [80; 88; 184] -> forall r s, exists o, u8 (Z.lor hi (low3 r)) ++ s = o :: s /\
  Z.land o 248 = hi /\ Z.land o 7 = low3 r /\ Z.shiftr o 4 <> 4 /\ o <> 15 /\ o <> 102 /\ o <> 242 /\ o <> 243.
Proof.
  intros Hi r s. exists (wrap_u 8 (Z.lor hi (low3 r))). split; [reflexivity|].
  set (P := fun (a _ : Z) => let o := wrap_u 8 (Z.lor hi a) in (Z.land o 248 =? hi) && (Z.land o 7 =? a) &&
    negb (Z.shiftr o 4 =? 4) && negb (o =? 15) && negb (o =? 102) && negb (o =? 242) && negb (o =? 243)).
  assert (P (low3 r) (low3 r) = true) as H.
  { apply fields_all. destruct Hi as [<-|[<-|[<-|[]]]]; vm_compute; reflexivity. }
  unfold P in H. cbv zeta in H. bool_hyps. split_and!; try assumption; by apply Z.eqb_neq.
Qed.

(** ** Immediates *)

Lemma le_bytes_value k n v : 0 <= v ->
  le_value (map (fun i => Z.land (Z.shiftr v (8 * Z.of_nat i)) 255) (seq k n)) = (v / 2 ^ (8 * Z.of_nat k)) mod 2 ^ (8 * Z.of_nat n).
Proof.
  intros Hv. revert k. induction n as [|n IH]; intros k; cbn [seq map le_value].
  - change (8 * Z.of_nat 0) with 0. by rewrite Z.pow_0_r, Z.mod_1_r.
  - rewrite IH, !Nat2Z.inj_succ, land_255, shiftr_div by lia.
    replace (8 * Z.succ (Z.of_nat k)) with (8 * Z.of_nat k + 8) by lia. rewrite Z.pow_add_r by lia.
    replace (8 * Z.succ (Z.of_nat n)) with (8 + 8 * Z.of_nat n) by lia. rewrite (Z.pow_add_r 2 8) by lia.
    rewrite <- Z.div_div by lia. change (2 ^ 8) with 256. set (q := v / 2 ^ (8 * Z.of_nat k)).
    by rewrite Z.rem_mul_r by lia.
Qed.

Lemma le_bytes_length n v : length (le_bytes n v) = n.
Proof. unfold le_bytes. by rewrite length_map, length_seq. Qed.

Lemma read_le_bytes n v s : 0 <= v -> read_le n (le_bytes n v ++ s) = Some (v mod 2 ^ (8 * Z.of_nat n), s).
Proof.
  intros Hv. unfold read_le. rewrite length_app, le_bytes_length. destruct (Nat.ltb_spec (n + length s) n); [lia|].
  rewrite take_app_length', drop_app_length' by by rewrite le_bytes_length.
  unfold le_bytes. rewrite le_bytes_value by done. change (8 * Z.of_nat 0) with 0. by rewrite Z.div_1_r.
Qed.

Lemma wrap_s_u w v : 0 < w -> in_s w v -> wrap_s w (wrap_u w v mod 2 ^ w) = v.
Proof.
  intros Hw Hv. unfold wrap_u. rewrite Z.mod_mod by (apply Z.pow_nonzero; lia).
  rewrite <- (wrap_s_id w v) at 2 by done. unfold wrap_s. by rewrite !Zdiv.Zmod_mod.
Qed.

Lemma read_s32 v s : s_ok 32 v = true -> read_s 4 (u32 v ++ s) = Some (v, s).
Proof.
  intros H. unfold read_s, u32. rewrite read_le_bytes by (unfold wrap_u; dlia). unfold s_ok in H. bool_hyps.
  change (8 * Z.of_nat 4) with 32. rewrite wrap_s_u; [done|lia|]. unfold in_s. lia.
Qed.

Lemma u8_le v : u8 v = le_bytes 1 (wrap_u 8 v).
Proof.
  unfold u8, le_bytes. cbn [seq map]. change (8 * Z.of_nat 0) with 0. rewrite Z.shiftr_0_r, land_255.
  unfold wrap_u. by rewrite Zdiv.Zmod_mod.
Qed.

Lemma read_s8 v s : s_ok 8 v = true -> read_s 1 (u8 v ++ s) = Some (v, s).
Proof.
  intros H. unfold read_s. rewrite u8_le, read_le_bytes by (unfold wrap_u; dlia). unfold s_ok in H. bool_hyps.
  change (8 * Z.of_nat 1) with 8. rewrite wrap_s_u; [done|lia|]. unfold in_s. lia.
Qed.

Lemma read_u n w v s : w = 8 * Z.of_nat n -> u_ok w v = true -> read_le n (le_bytes n (wrap_u w v) ++ s) = Some (v, s).
Proof.
  intros -> H. unfold u_ok in H. bool_hyps. unfold wrap_u. rewrite (Z.mod_small v) by lia.
  rewrite read_le_bytes by lia. by rewrite Z.mod_small by lia.
Qed.

Lemma read_u8 v s : u_ok 8 v = true -> read_le 1 (u8 v ++ s) = Some (v, s).
Proof. intros H. rewrite u8_le. by apply read_u. Qed.

(** ** Decoding what one method pushed *)

Definition rx (reg rm : Z) : Rex := MkRex true (8 <=? reg) false (8 <=? rm).
Definition rx0 : Rex := MkRex false false false false.

Lemma decode_rex reg rm o s : decode (rex3 reg rm ++ o :: s) =
  if o =? 15 then decode_0f 0 (rx reg rm) s else decode_1 (rx reg rm) o s.
Proof. unfold rex3, rex, rx. destruct (8 <=? reg), (8 <=? rm); reflexivity. Qed.

Lemma decode_prefix p reg rm s : In p [102; 242] ->
  decode (u8 p ++ rex3 reg rm ++ u8 15 ++ s) = decode_0f p (rx reg rm) s.
Proof. unfold rex3, rex, rx. intros [<-|[<-|[]]]; destruct (8 <=? reg), (8 <=? rm); reflexivity. Qed.

Lemma decode_prefix0 p s : In p [102; 242] -> decode (u8 p ++ u8 15 ++ s) = decode_0f p rx0 s.
Proof. intros [<-|[<-|[]]]; reflexivity. Qed.

Section ModRM.
Context (x : Rex) (reg rm : Z) (rest : Bytes).

Lemma take_reg : take_modrm x (modrm 192 reg rm ++ rest) = Some (ext (rexR x) (low3 reg), OReg (ext (rexB x) (low3 rm)), rest).
Proof.
  destruct (modrm_spec 192 ltac:(cbn; auto) reg rm rest) as (m & -> & H1 & H2 & H3).
  unfold take_modrm. by rewrite H1, H2, H3.
Qed.

Lemma take_mem32 d : (low3 rm =? 4) = false -> s_ok 32 d = true ->
  take_modrm x (modrm 128 reg rm ++ u32 d ++ rest) = Some (ext (rexR x) (low3 reg), OMem (ext (rexB x) (low3 rm)) d, rest).
Proof.
  intros Hb Hd. destruct (modrm_spec 128 ltac:(cbn; auto) reg rm (u32 d ++ rest)) as (m & -> & H1 & H2 & H3).
  unfold take_modrm. rewrite H1, H2, H3, Hb. change (128 / 64 =? 3) with false. change (128 / 64 =? 0) with false.
  change (128 / 64 =? 1) with false. cbv iota. by rewrite read_s32.
Qed.

Lemma take_mem8 d : (low3 rm =? 4) = false -> s_ok 8 d = true ->
  take_modrm x (modrm 64 reg rm ++ u8 d ++ rest) = Some (ext (rexR x) (low3 reg), OMem (ext (rexB x) (low3 rm)) d, rest).
Proof.
  intros Hb Hd. destruct (modrm_spec 64 ltac:(cbn; auto) reg rm (u8 d ++ rest)) as (m & -> & H1 & H2 & H3).
  unfold take_modrm. rewrite H1, H2, H3, Hb. change (64 / 64 =? 3) with false. change (64 / 64 =? 0) with false.
  change (64 / 64 =? 1) with true. cbv iota. by rewrite read_s8.
Qed.

Lemma take_ind : (low3 rm =? 4) = false -> (low3 rm =? 5) = false ->
  take_modrm x (modrm 0 reg rm ++ rest) = Some (ext (rexR x) (low3 reg), OMem (ext (rexB x) (low3 rm)) 0, rest).
Proof.
  intros Hb Hd. destruct (modrm_spec 0 ltac:(cbn; auto) reg rm rest) as (m & -> & H1 & H2 & H3).
  unfold take_modrm. rewrite H1, H2, H3, Hb, Hd. reflexivity.
Qed.
End ModRM.

Section WithRm.
Context (reg rm : Z) (f : Z -> Operand -> option Ins) (i : Ins) (rest : Bytes).
Hypothesis (Hreg : gpr reg = true) (Hrm : gpr rm = true).

Lemma with_rr : f reg (OReg rm) = Some i -> with_rm (rx reg rm) (modrm 192 reg rm ++ rest) f = Some (i, rest).
Proof. intros Hf. unfold with_rm. rewrite take_reg. cbn [rx rexR rexB]. by rewrite !ext_low3, Hf. Qed.

Lemma with_mem d : low3 rm <> 4 -> s_ok 32 d = true -> f reg (OMem rm d) = Some i ->
  with_rm (rx reg rm) (modrm 128 reg rm ++ u32 d ++ rest) f = Some (i, rest).
Proof. intros Hb Hd Hf. apply Z.eqb_neq in Hb. unfold with_rm. rewrite take_mem32 by done. cbn [rx rexR rexB]. by rewrite !ext_low3, Hf. Qed.

Lemma with_mem8 d : low3 rm <> 4 -> s_ok 8 d = true -> f reg (OMem rm d) = Some i ->
  with_rm (rx reg rm) (modrm 64 reg rm ++ u8 d ++ rest) f = Some (i, rest).
Proof. intros Hb Hd Hf. apply Z.eqb_neq in Hb. unfold with_rm. rewrite take_mem8 by done. cbn [rx rexR rexB]. by rewrite !ext_low3, Hf. Qed.

Lemma with_ind : low3 rm <> 4 -> low3 rm <> 5 -> f reg (OMem rm 0) = Some i ->
  with_rm (rx reg rm) (modrm 0 reg rm ++ rest) f = Some (i, rest).
Proof. intros Hb Hd Hf. apply Z.eqb_neq in Hb, Hd. unfold with_rm. rewrite take_ind by done. cbn [rx rexR rexB]. by rewrite !ext_low3, Hf. Qed.
End WithRm.

Section WithDigit.
Context (k rm : Z) (i : Ins) (rest : Bytes).
Hypothesis (Hk : low3 k = k) (Hrm : gpr rm = true).

Lemma with_digit f : f k (OReg rm) = Some i -> with_rm (no_r (rx 0 rm)) (modrm 192 k rm ++ rest) f = Some (i, rest).
Proof. intros Hf. unfold with_rm. rewrite take_reg. cbn [rx no_r rexR rexB ext]. by rewrite ext_low3, Hk, Hf. Qed.

Lemma with_digit_imm read v tail f : read tail = Some (v, rest) -> f k (OReg rm) v = Some i ->
  with_rm_imm read (no_r (rx 0 rm)) (modrm 192 k rm ++ tail) f = Some (i, rest).
Proof. intros Hv Hf. unfold with_rm_imm. rewrite take_reg. cbn [rx no_r rexR rexB ext]. by rewrite ext_low3, Hk, Hv, Hf. Qed.
End WithDigit.

Lemma with_xmm d s f i rest : xmm d = true -> xmm s = true -> f d (OReg s) = Some i ->
  with_rm rx0 (modrm 192 d s ++ rest) f = Some (i, rest).
Proof.
  intros Hd Hs Hf. unfold with_rm. rewrite take_reg. cbn [rx0 rexR rexB ext].
  apply ext_xmm in Hd as (_ & -> & _), Hs as (_ & -> & _). by rewrite Hf.
Qed.

Lemma with_xmm_imm d s i rest read v tail f : xmm d = true -> xmm s = true -> read tail = Some (v, rest) ->
  f d (OReg s) v = Some i -> with_rm_imm read rx0 (modrm 192 d s ++ tail) f = Some (i, rest).
Proof.
  intros Hd Hs Hv Hf. unfold with_rm_imm. rewrite take_reg. cbn [rx0 rexR rexB ext].
  apply ext_xmm in Hd as (_ & -> & _), Hs as (_ & -> & _). by rewrite Hv, Hf.
Qed.

(** The instructions at the front of a byte string. *)
Fixpoint disasm (n : nat) (s : Bytes) : option (list Ins * Bytes) :=
  match n with
  | O => Some ([], s)
  | S n' => match decode s with
            | Some (i, s') => match disasm n' s' with Some (l, r) => Some (i :: l, r) | None => None end
            | None => None
            end
  end.

Lemma disasm_one s i rest : decode s = Some (i, rest) -> disasm 1 s = Some ([i], rest).
Proof. intros H. cbn [disasm]. by rewrite H. Qed.

Lemma decode_opcode hi r s : In hi [80; 88] -> gpr r = true ->
  decode ((if 8 <=? r then u8 65 else []) ++ u8 (Z.lor hi (low3 r)) ++ s) = decode_1 (MkRex false false false (8 <=? r)) (wrap_u 8 (Z.lor hi (low3 r))) s.
Proof.
  intros Hi Hr. destruct (opcode_spec hi ltac:(destruct Hi as [<-|[<-|[]]]; cbn; auto) r s) as (o & E & _ & _ & H4 & H5 & H6 & H7 & H8).
  assert (o = wrap_u 8 (Z.lor hi (low3 r))) as <- by (unfold u8 in E; by injection E). rewrite E.
  apply Z.eqb_neq in H4, H5, H6, H7, H8.
  destruct (8 <=? r); cbn [u8 app].
  - transitivity (if o =? 15 then decode_0f 0 (MkRex false false false true) s else decode_1 (MkRex false false false true) o s);
      [reflexivity|]. by rewrite H5.
  - unfold decode. rewrite H6, H7, H8. cbn [orb]. change (0 =? 0) with true. unfold take_rex. by rewrite H4, H5.
Qed.

Lemma push_pop_decode hi r s mk : In (hi, mk) [(80, IPush); (88, IPop)] -> gpr r = true ->
  decode ((if 8 <=? r then u8 65 else []) ++ u8 (Z.lor hi (low3 r)) ++ s) = Some (mk r, s).
Proof.
  intros Hi Hr. assert (In hi [80; 88]) as Hi' by (destruct Hi as [[= <- <-]|[[= <- <-]|[]]]; cbn; auto).
  rewrite decode_opcode by done.
  destruct (opcode_spec hi ltac:(destruct Hi' as [<-|[<-|[]]]; cbn; auto) r s) as (o & E & H1 & H2 & _).
  assert (o = wrap_u 8 (Z.lor hi (low3 r))) as <- by (unfold u8 in E; by injection E).
  unfold decode_1. rewrite H1, H2. cbn [rexB]. rewrite ext_low3 by done.
  destruct Hi as [[= <- <-]|[[= <- <-]|[]]]; reflexivity.
Qed.

Lemma movImm_decode r v s : gpr r = true -> u_ok 64 v = true -> decode (movImm r v ++ s) = Some (IMovImm W64 r v, s).
Proof.
  intros Hr Hv. unfold movImm. rewrite <- !app_assoc.
  destruct (opcode_spec 184 ltac:(cbn; auto) r (u64 v ++ s)) as (o & -> & H1 & H2 & _ & H5 & _).
  apply Z.eqb_neq in H5. rewrite decode_rex, H5. unfold decode_1. rewrite H1, H2. cbn [rx rexB]. rewrite ext_low3 by done.
  change (184 =? 184) with true. cbv iota. unfold u64. by rewrite (read_u 8 64).
Qed.

Lemma d1 reg rm o s r : (wrap_u 8 o =? 15) = false -> decode_1 (rx reg rm) (wrap_u 8 o) s = r ->
  decode (rex3 reg rm ++ u8 o ++ s) = r.
Proof. intros Ho <-. etrans; [apply decode_rex|]. by rewrite Ho. Qed.

Lemma d2 reg rm s r : decode_0f 0 (rx reg rm) s = r -> decode (rex3 reg rm ++ u8 15 ++ s) = r.
Proof. intros <-. apply decode_rex. Qed.

(** Entering a family of instructions with the operand function it decodes with. *)
Ltac one := apply disasm_one; cbn [emit]; unfold addRR, subRR, cmpRR, xorRR, andRR, orRR, addsd, subsd, mulsd, divsd, sqrtsd,
  movRR, alu, imulRR, idiv, neg, incR, decR, testRR, addImm, subImm, loadInd, storeInd, lea, loadMem, storeMem, cmpImm,
  shlImm, shlCl, shrImm, sarCl, loadByte, movqXmmR, movqRXmm, sseArith, comisd, cvtsi2sd, cvttsd2si, roundsd, push, pop;
  rewrite <- ?app_assoc.
Ltac rr f := one; apply d1; [reflexivity|]; apply (with_rr _ _ f); [assumption|assumption|reflexivity].
Ltac rr2 f := one; apply d2; apply (with_rr _ _ f); [assumption|assumption|reflexivity].
Ltac digit k f r rest := one; apply d1; [reflexivity|];
  apply (with_digit k r _ rest eq_refl ltac:(assumption) f); reflexivity.
Ltac digit_imm k f r L := one; apply d1; [reflexivity|];
  apply (with_digit_imm k r _ _ eq_refl ltac:(assumption) _ _ _ f L); reflexivity.

Ltac gx f := one; etrans; [apply decode_prefix; cbn; auto|];
  apply (with_rr _ _ f); [first [assumption|by apply ext_xmm]..|reflexivity].
Ltac xx f := one; etrans; [apply decode_prefix0; cbn; auto|]; apply (with_xmm _ _ f); [assumption|assumption|reflexivity].

Lemma emit_decodes c rest : ok_call c = true -> disasm (length (intended c)) (emit c ++ rest) = Some (intended c, rest).
Proof.
  destruct c; cbn [ok_call intended length]; unfold ind_ok, base_ok; intros H; bool_hyps.
  - one. by apply movImm_decode.
  - one. unfold load, memRbp. rewrite <- !app_assoc. apply d1; [reflexivity|].
    by apply (with_mem r 5 (fun g m => Some (ILoad W64 g m))).
  - one. unfold store, memRbp. rewrite <- !app_assoc. apply d1; [reflexivity|].
    by apply (with_mem r 5 (fun g m => Some (IAlu W64 MovOp m g))).
  - rr (fun g m => Some (IAlu W64 MovOp m g)).
  - rr (fun g m => Some (IAlu W64 Add m g)).
  - rr (fun g m => Some (IAlu W64 Sub m g)).
  - rr (fun g m => Some (IAlu W64 Cmp m g)).
  - rr (fun g m => Some (IAlu W64 Xor m g)).
  - rr (fun g m => Some (IAlu W64 And_ m g)).
  - rr (fun g m => Some (IAlu W64 Or m g)).
  - one. apply d2. by apply (with_rr d s (fun g m => Some (IImul W64 g m))).
  - reflexivity.
  - digit 7 (fun g m => if g =? 3 then Some (IUn W64 Neg_ m) else if g =? 7 then Some (IUn W64 Idiv m) else None) r rest.
  - digit 3 (fun g m => if g =? 3 then Some (IUn W64 Neg_ m) else if g =? 7 then Some (IUn W64 Idiv m) else None) r rest.
  - digit 0 (fun g m => if g =? 0 then Some (IUn W64 Inc m) else if g =? 1 then Some (IUn W64 Dec m) else None) r rest.
  - digit 1 (fun g m => if g =? 0 then Some (IUn W64 Inc m) else if g =? 1 then Some (IUn W64 Dec m) else None) r rest.
  - rr (fun g m => Some (IAlu W64 Test_ m g)).
  - assert (forall x, 0 <= x < 16 -> disasm 2 (setccAx (144 + x) ++ rest) =
      Some ([ISetcc (Z.land (144 + x) 15) (OReg RAX); IMovzx8 W64 RAX (OReg RAX)], rest)) as Hs.
    { intros x Hx. apply (upto_In 16) in Hx. cbv [upto map seq] in Hx. cbn [In] in Hx.
      repeat (destruct Hx as [<-|Hx]; [reflexivity|]). done. }
    replace cc with (144 + (cc - 144)) by lia. apply Hs. lia.
  - digit_imm 0 (fun g m v => option_map (fun a => IAluImm W64 a m v) (imm_op g)) r (read_s32 imm rest ltac:(assumption)).
  - digit_imm 5 (fun g m v => option_map (fun a => IAluImm W64 a m v) (imm_op g)) r (read_s32 imm rest ltac:(assumption)).
  - digit_imm 7 (fun g m v => option_map (fun a => IAluImm W64 a m v) (imm_op g)) r (read_s32 imm rest ltac:(assumption)).
  - one. apply d1; [reflexivity|]. by apply (with_ind d b (fun g m => Some (ILoad W64 g m))).
  - one. apply d1; [reflexivity|]. by apply (with_ind s b (fun g m => Some (IAlu W64 MovOp m g))).
  - one. apply d1; [reflexivity|]. by apply (with_mem d b (fun g m => Some (ILea W64 g m))).
  - one. apply d1; [reflexivity|]. by apply (with_mem d b (fun g m => Some (ILoad W64 g m))).
  - one. apply d1; [reflexivity|]. by apply (with_mem s b (fun g m => Some (IAlu W64 MovOp m g))).
  - digit_imm 4 (fun g m v => option_map (fun a => IShImm W64 a m v) (sh_op g)) r (read_u8 imm rest ltac:(assumption)).
  - digit 4 (fun g m => option_map (fun a => IShCl W64 a m) (sh_op g)) r rest.
  - digit_imm 5 (fun g m v => option_map (fun a => IShImm W64 a m v) (sh_op g)) r (read_u8 imm rest ltac:(assumption)).
  - digit 7 (fun g m => option_map (fun a => IShCl W64 a m) (sh_op g)) r rest.
  - one. apply d2. by apply (with_mem8 d b (fun g m => if byte_operand m then Some (IMovzx8 W64 g m) else None)).
  - gx (fun g m => Some (IMovqToX W64 g m)).
  - gx (fun g m => Some (IMovqFromX W64 m g)).
  - xx (fun g m => Some (ISse Addsd g m)).
  - xx (fun g m => Some (ISse Subsd g m)).
  - xx (fun g m => Some (ISse Mulsd g m)).
  - xx (fun g m => Some (ISse Divsd g m)).
  - xx (fun g m => Some (ISse Sqrtsd g m)).
  - xx (fun g m => Some (IComisd g m)).
  - gx (fun g m => Some (ICvtsi2sd W64 g m)).
  - gx (fun g m => Some (ICvttsd2si W64 g m)).
  - one. etrans; [apply decode_prefix0; cbn; auto|].
    by apply (with_xmm_imm d s _ rest (read_le 1) imm (u8 imm ++ rest) (fun g m v => Some (IRoundsd g m v))); [..|apply read_u8|].
  - reflexivity.
  - reflexivity.
  - reflexivity.
  - one. apply push_pop_decode; cbn; auto.
  - one. apply push_pop_decode; cbn; auto.
  - reflexivity.
  - reflexivity.
  - reflexivity.
Qed.

Lemma disasm_app n1 n2 s1 l1 l2 s2 s3 : disasm n1 s1 = Some (l1, s2) -> disasm n2 s2 = Some (l2, s3) ->
  disasm (n1 + n2) s1 = Some (l1 ++ l2, s3).
Proof.
  revert s1 l1. induction n1 as [|n1 IH]; intros s1 l1; cbn [disasm Nat.add]; [by intros [= <- <-] ->|].
  destruct (decode s1) as [[i s']|]; [|done]. destruct (disasm n1 s') as [[l r]|] eqn:E; [|done].
  intros [= <- <-] H2. by rewrite (IH s' l E H2).
Qed.

(** [C20] The assembler emits what it says.  The bytes of any sequence of
    emitter calls with operands in their documented ranges disassemble, as a
    stream with no separators, to exactly the instructions the calls name, each
    integer operation 64 bits wide: prefixes, the REX bits W, R and B, ModRM
    fields, displacements and immediates agree with the instruction formats. *)
Theorem asm_decodes (cs : list AsmCall) (rest : Bytes) : Forall (fun c => ok_call c = true) cs ->
  disasm (length (concat (map intended cs))) (concat (map emit cs) ++ rest) = Some (concat (map intended cs), rest).
Proof.
  induction 1 as [|c cs Hc Hcs IH]; cbn [map concat]; [done|].
  rewrite length_app, <- app_assoc. eapply disasm_app; [by apply emit_decodes|exact IH].
Qed.

Lemma asm_decodes_witness :
  let cs := [CPush 5; CMovRR 5 4; CMovImm 10 (2 ^ 63); CLoadMem 9 13 (-8); CImulRR 8 0; CSetccAx 156; CSyscall; CRet] in
  disasm 9 (concat (map emit cs)) =
    Some ([IPush 5; IAlu W64 MovOp (OReg 5) 4; IMovImm W64 10 (2 ^ 63); ILoad W64 9 (OMem 13 (-8)); IImul W64 8 (OReg 0);
           ISetcc 12 (OReg 0); IMovzx8 W64 0 (OReg 0); ISyscall; IRet], []).
Proof.
  intros cs. rewrite <- (app_nil_r (concat (map emit cs))).
  apply (asm_decodes cs []). repeat (apply Forall_cons_2; [reflexivity|]). apply Forall_nil_2.
Defined.

(** ** Patched jumps *)

Lemma rel_byte rel k : In k [0; 8; 16; 24] -> Z.land (Z.shiftr rel k) 255 = Z.land (Z.shiftr (wrap_u 32 rel) k) 255.
Proof.
  intros Hk. rewrite !land_255. unfold wrap_u. change (2 ^ 32) with 4294967296.
  destruct Hk as [<-|[<-|[<-|[<-|[]]]]]; rewrite !shiftr_div by lia;
    [change (2 ^ 0) with 1|change (2 ^ 8) with 256|change (2 ^ 16) with 65536|change (2 ^ 24) with 16777216]; dlia.
Qed.

Lemma patchRel_spec pre tail target :
  patchRel (length pre) target (pre ++ u32 0 ++ tail) =
  pre ++ u32 (wrap_s 32 (Z.of_nat target - Z.of_nat (length pre + 4))) ++ tail.
Proof.
  unfold patchRel. set (rel := wrap_s 32 _). change (u32 0) with [0; 0; 0; 0]. cbn [seq fold_left].
  rewrite !insert_app_r. f_equal. unfold u32, le_bytes. cbn [seq map app].
  change (8 * Z.of_nat 0) with 0. change (8 * Z.of_nat 1) with 8. change (8 * Z.of_nat 2) with 16. change (8 * Z.of_nat 3) with 24.
  rewrite <- !rel_byte by (cbn; auto). reflexivity.
Qed.

Inductive JumpKind := KJmp | KCall | KJcc (cc : Z).
Definition emit_jump (k : JumpKind) : Bytes -> Bytes * nat :=
  match k with KJmp => jmp | KCall => call | KJcc cc => jcc cc end.
Definition jump_ins (k : JumpKind) : Z -> Ins := match k with KJmp => IJmp | KCall => ICall | KJcc cc => IJcc cc end.
Definition jump_ok (k : JumpKind) : Prop := match k with KJcc cc => 0 <= cc < 16 | _ => True end.

Lemma jump_opcode k code : jump_ok k -> exists op, emit_jump k code = ((code ++ op) ++ u32 0, length (code ++ op)) /\
  forall v s, s_ok 32 v = true -> decode (op ++ u32 v ++ s) = Some (jump_ins k v, s).
Proof.
  intros Hk. destruct k as [| |cc].
  - exists (u8 233). split; [cbn; by rewrite length_app, <- app_assoc|]. intros v s Hv.
    transitivity (rel32 (u32 v ++ s) IJmp); [reflexivity|]. unfold rel32. by rewrite read_s32.
  - exists (u8 232). split; [cbn; by rewrite length_app, <- app_assoc|]. intros v s Hv.
    transitivity (rel32 (u32 v ++ s) ICall); [reflexivity|]. unfold rel32. by rewrite read_s32.
  - exists (u8 15 ++ u8 (Z.lor 128 cc)). split; [cbn; by rewrite length_app, <- !app_assoc|]. intros v s Hv.
    transitivity (rel32 (u32 v ++ s) (IJcc cc)); [|unfold rel32; by rewrite read_s32].
    apply (upto_In 16) in Hk. cbv [upto map seq] in Hk. cbn [In] in Hk.
    repeat (destruct Hk as [<-|Hk]; [reflexivity|]). done.
Qed.

(** [C37] Jumps land on their targets: emit a jump, conditional jump or call,
    keep emitting, then patch the offset it returned.  The code before and
    after the displacement is unchanged, and the instruction decodes to a
    displacement that, added to the address after the instruction, is the
    target, whenever the distance fits 32 bits. *)
Theorem patched_jump_lands (k : JumpKind) (code tail : Bytes) (target : nat) :
  jump_ok k ->
  let '(code1, at_) := emit_jump k code in
  s_ok 32 (Z.of_nat target - Z.of_nat (at_ + 4)) = true ->
  let final := patchRel at_ target (code1 ++ tail) in
  take (length code) final = code /\ drop (at_ + 4) final = tail /\
  exists rel, decode (drop (length code) final) = Some (jump_ins k rel, tail) /\ Z.of_nat (at_ + 4) + rel = Z.of_nat target.
Proof.
  intros Hk. destruct (jump_opcode k code Hk) as (op & E & Hdec). rewrite E. intros Hfit.
  assert (in_s 32 (Z.of_nat target - Z.of_nat (length (code ++ op) + 4))) as Hin
    by (unfold s_ok in Hfit; bool_hyps; unfold in_s; lia).
  cbv zeta. rewrite <- app_assoc, patchRel_spec, wrap_s_id by (done || lia). set (rel := _ - _) in *. split_and!.
  - rewrite <- app_assoc. by rewrite take_app_length.
  - rewrite (app_assoc (code ++ op)). apply drop_app_length'. rewrite !length_app. unfold u32. by rewrite le_bytes_length.
  - exists rel. split; [|unfold rel; lia]. rewrite <- app_assoc, drop_app_length. by apply Hdec.
Qed.

Lemma patched_jump_lands_witness :
  let '(code1, at_) := emit_jump (KJcc 5) (emit CRet) in
  let final := patchRel at_ 0 (code1 ++ emit CLeave) in
  final = [195; 15; 133; 249; 255; 255; 255; 201] /\
  exists rel, decode (drop 1 final) = Some (IJcc 5 rel, emit CLeave) /\ Z.of_nat (at_ + 4) + rel = 0.
Proof.
  split; [vm_compute; reflexivity|].
  apply (patched_jump_lands (KJcc 5) (emit CRet) (emit CLeave) 0); [cbn; lia|vm_compute; reflexivity].
Defined.

(** ** The ELF image *)

(** The loader's view: a little-endian header field, and the byte the single
    segment maps at a virtual address. *)
Definition field (off n : nat) (out : Bytes) : Z := le_value (take n (drop off out)).
Definition mapped (out : Bytes) (a : Z) : option Z :=
  let p_offset := field 72 8 out in let p_vaddr := field 80 8 out in let p_filesz := field 96 8 out in
  if (p_vaddr <=? a) && (a <? p_vaddr + p_filesz) then out !! Z.to_nat (a - p_vaddr + p_offset) else None.

(** What [execve] requires of the headers. *)
Definition elf_header_ok (out : Bytes) : Prop :=
  take 7 out = [127; 69; 76; 70; 2; 1; 1] /\ field 16 2 out = 2 /\ field 18 2 out = 62 /\
  field 32 8 out = Z.of_nat EHSIZE /\ field 54 2 out = Z.of_nat PHSIZE /\ field 56 2 out = 1 /\
  field 64 4 out = 1 /\ field 68 4 out = 7 /\ field 96 8 out = Z.of_nat (length out) /\ field 104 8 out = field 96 8 out.

Lemma put_app off p h z : (off + length p <= length h)%nat -> put off p (h ++ z) = put off p h ++ z.
Proof. intros H. unfold put. rewrite take_app_le, drop_app_le by lia. by rewrite <- !app_assoc. Qed.

Lemma put_length off p h : (off + length p <= length h)%nat -> length (put off p h) = length h.
Proof. intros H. unfold put. rewrite !length_app, length_take, length_drop. lia. Qed.

Lemma puts_app stores h z : Forall (fun st => (fst st + length (snd st) <= length h)%nat) stores ->
  fold_left (fun o st => put (fst st) (snd st) o) stores (h ++ z) =
  fold_left (fun o st => put (fst st) (snd st) o) stores h ++ z.
Proof.
  revert h. induction stores as [|[off p] l IH]; intros h H; cbn [fold_left]; [done|]. inversion_clear H as [|?? H1 H2].
  cbn [fst snd] in *. rewrite put_app by done. apply IH. by rewrite put_length.
Qed.

Lemma put_at h p z z' : length p = length z -> put (length h) p (h ++ z ++ z') = h ++ p ++ z'.
Proof.
  intros H. unfold put. rewrite take_app_length. f_equal. f_equal. rewrite H.
  rewrite app_assoc. apply drop_app_length'. by rewrite length_app.
Qed.

Definition header (entry fileSize : Z) : Bytes :=
  fold_left (fun o st => put (fst st) (snd st) o) (header_stores entry fileSize) (replicate 120 0).

Lemma header_eq entry size :
  header entry size = fold_left (fun o st => put (fst st) (snd st) o) (header_stores entry size) (replicate 120 0).
Proof. reflexivity. Qed.

Lemma header_bytes entry size : header entry size =
  [127; 69; 76; 70; 2; 1; 1] ++ replicate 9 0 ++ [2; 0; 62; 0; 1; 0; 0; 0] ++ le_bytes 8 entry ++ le_bytes 8 64 ++
  replicate 12 0 ++ [64; 0; 56; 0; 1; 0] ++ replicate 6 0 ++ [1; 0; 0; 0; 7; 0; 0; 0] ++ replicate 8 0 ++
  le_bytes 8 BASE ++ le_bytes 8 BASE ++ le_bytes 8 size ++ le_bytes 8 size ++ le_bytes 8 4096.
Proof. vm_compute. reflexivity. Qed.

Lemma header_length entry size : length (header entry size) = 120%nat.
Proof. reflexivity. Qed.

Lemma makeElf_layout code e data :
  fst (makeElf code e data) =
  header (wrap_u 64 (BASE + 120 + Z.of_nat e)) (Z.of_nat (120 + length code + length data)) ++ code ++ data.
Proof.
  unfold makeElf. change (EHSIZE + PHSIZE)%nat with 120%nat. cbn [fst]. change (Z.of_nat 120) with 120.
  set (entry := wrap_u 64 _). set (size := Z.of_nat _).
  rewrite <- Nat.add_assoc, !replicate_add. rewrite puts_app; [|cbn; repeat (apply Forall_cons_2; [cbn; lia|]); apply Forall_nil_2].
  rewrite <- header_eq.
  assert (forall h p z', length h = 120%nat ->
    match p with [] => h ++ replicate (length p) 0 ++ z' | _ => put 120 p (h ++ replicate (length p) 0 ++ z') end = h ++ p ++ z') as H1.
  { intros h p z' Hh. destruct p; [done|]. rewrite <- Hh. apply put_at. by rewrite length_replicate. }
  rewrite (H1 (header entry size) code (replicate (length data) 0)) by apply header_length.
  destruct data as [|b data]; [done|]. rewrite !(app_assoc _ code).
  replace (120 + length code)%nat with (length (header entry size ++ code)) by by rewrite length_app, header_length.
  rewrite <- (app_nil_r (replicate _ 0)), put_at by by rewrite length_replicate. by rewrite app_nil_r.
Qed.

Lemma field_le off n v h rest : (off + n <= length h)%nat -> take n (drop off h) = le_bytes n v ->
  0 <= v < 2 ^ (8 * Z.of_nat n) -> field off n (h ++ rest) = v.
Proof.
  intros Hl Ht Hv. unfold field. rewrite drop_app_le, take_app_le, Ht by (try rewrite length_drop; lia).
  unfold le_bytes. rewrite le_bytes_value by lia. change (8 * Z.of_nat 0) with 0. rewrite Z.div_1_r. by apply Z.mod_small.
Qed.

Lemma header_fields entry size rest : 0 <= entry < 2 ^ 64 -> 0 <= size < 2 ^ 64 ->
  let out := header entry size ++ rest in
  field 24 8 out = entry /\ field 72 8 out = 0 /\ field 80 8 out = BASE /\ field 96 8 out = size /\
  (size = Z.of_nat (length out) -> elf_header_ok out).
Proof.
  intros He Hs. cbv zeta.
  assert (forall off n v, (off + n <= 120)%nat -> take n (drop off (header entry size)) = le_bytes n v ->
    0 <= v < 2 ^ (8 * Z.of_nat n) -> field off n (header entry size ++ rest) = v) as F.
  { intros off n v Hl. apply field_le. by rewrite header_length. }
  assert (field 96 8 (header entry size ++ rest) = size) as F96 by (apply F; [lia|by rewrite header_bytes|exact Hs]).
  split_and!; [apply F; [lia|by rewrite header_bytes|exact He] | apply F; [lia|by rewrite header_bytes|by split]
    | apply F; [lia|by rewrite header_bytes|by split] | exact F96 | intros Hsize].
  unfold elf_header_ok. rewrite F96, <- Hsize.
  split_and!; [by rewrite header_bytes|apply F; [lia|by rewrite header_bytes|by split]..|done|].
  apply F; [lia|by rewrite header_bytes|exact Hs].
Qed.

(** The executable is well formed and maps what was generated: for code
    and data whose addresses fit 64 bits, the headers are those of a static
    x86-64 ELF executable with one loadable segment covering the whole file;
    at the entry address the loader finds the code byte at [entryOffset] (and
    the rest of the code around it), and at the returned data address the
    data. *)
Theorem elf_image (code data : Bytes) (entryOffset : nat) :
  BASE + 120 + Z.of_nat entryOffset + Z.of_nat (length code + length data) < 2 ^ 64 ->
  let '(out, dataVAddr) := makeElf code entryOffset data in
  elf_header_ok out /\ length out = (120 + length code + length data)%nat /\
  (forall i, (i < length code)%nat -> mapped out (field 24 8 out - Z.of_nat entryOffset + Z.of_nat i) = code !! i) /\
  (forall j, (j < length data)%nat -> mapped out (dataVAddr + Z.of_nat j) = data !! j).
Proof.
  intros Hfit. pose proof (makeElf_layout code entryOffset data) as Hl.
  assert (snd (makeElf code entryOffset data) = BASE + 120 + Z.of_nat (length code)) as Hd.
  { unfold makeElf. cbn [snd]. unfold wrap_u. change (EHSIZE + PHSIZE)%nat with 120%nat. rewrite Z.mod_small; unfold BASE in *; lia. }
  destruct (makeElf code entryOffset data) as [out dv]. cbn [fst snd] in *. subst dv.
  unfold wrap_u in Hl. rewrite Z.mod_small in Hl by (unfold BASE in *; lia).
  set (entry := BASE + 120 + Z.of_nat entryOffset) in *. set (size := Z.of_nat (120 + length code + length data)) in *.
  assert (length out = (120 + length code + length data)%nat) as Hlen by (rewrite Hl, !length_app, header_length; lia).
  assert (0 <= entry < 2 ^ 64 /\ 0 <= size < 2 ^ 64) as [He Hs] by (unfold entry, size, BASE in *; lia).
  destruct (header_fields entry size (code ++ data) He Hs) as (F24 & F72 & F80 & F96 & Hok).
  rewrite <- Hl in F24, F72, F80, F96, Hok. pose proof (header_length entry size) as Hh.
  assert (forall n, (n < length code + length data)%nat -> mapped out (BASE + 120 + Z.of_nat n) = (code ++ data) !! n) as Hm.
  { intros n Hn. unfold mapped. rewrite F72, F80, F96.
    replace ((BASE <=? BASE + 120 + Z.of_nat n) && (BASE + 120 + Z.of_nat n <? BASE + size)) with true
      by (symmetry; apply andb_true_iff; split; [apply Z.leb_le|apply Z.ltb_lt; unfold size]; lia).
    replace (Z.to_nat (BASE + 120 + Z.of_nat n - BASE + 0)) with (120 + n)%nat by lia.
    rewrite Hl, lookup_app_r by lia. f_equal. lia. }
  split_and!; [|done| |].
  - apply Hok. unfold size. by rewrite Hlen.
  - intros i Hi. rewrite F24. unfold entry. replace (_ - _ + _) with (BASE + 120 + Z.of_nat i) by lia.
    rewrite Hm by lia. by apply lookup_app_l.
  - intros j Hj. replace (_ + _) with (BASE + 120 + Z.of_nat (length code + j)) by lia. rewrite Hm by lia.
    rewrite lookup_app_r by lia. f_equal. lia.
Qed.

Lemma elf_image_witness :
  let '(out, dataVAddr) := makeElf (emit CSyscall ++ emit CRet) 2 [104; 105] in
  elf_header_ok out /\ length out = 125%nat /\ mapped out (field 24 8 out) = Some 195 /\
  mapped out (dataVAddr + 1) = Some 105.
Proof.
  pose proof (elf_image (emit CSyscall ++ emit CRet) [104; 105] 2 ltac:(unfold BASE; cbn; lia)) as H.
  destruct (makeElf _ _ _) as [out dv]. destruct H as (H1 & H2 & H3 & H4). split_and!; [done|done| |].
  - specialize (H3 2%nat ltac:(cbn; lia)). change (Z.of_nat 2) with 2 in H3. by replace (field 24 8 out - 2 + 2) with (field 24 8 out) in H3 by lia.
  - exact (H4 1%nat ltac:(cbn; lia)).
Defined.
