(* ===== verification/RuntimeLoop.v ===== *)
(** * The event loop

    Models [src/runtime/RuntimeLoop.cpp]: the registry of timers and
    descriptor watches and [nextBatch].  The clock counts nanoseconds in 64 bits
    (as [steady_clock] does); [milliseconds(x)] becomes [x * 10^6] of them.  The
    code checks neither that product nor the sums and differences of times; they
    overflow here as two's complement does ([s64]).  Ids and tick counts are
    64-bit counters that start at 1 and 0 and grow by one: 2^63 steps are out of
    reach and they are not wrapped.  The operating system and the TLS layer are the environment of one call: the
    two clock readings, what [poll] answers, and the two TLS queries. *)

From S2P Require Import Prelude.

Local Open Scope Z_scope.

Lemma filter_all {A} (f : A -> bool) l : (forall x, In x l -> f x = true) -> List.filter f l = l.
Proof.
  induction l as [|x l IH]; intros H; [done|]. cbn [List.filter]. rewrite H by by left. f_equal. apply IH.
  intros y Hy. apply H. by right.
Qed.

Lemma filter_filter {A} (f g : A -> bool) l : List.filter f (List.filter g l) = List.filter (fun x => g x && f x) l.
Proof.
  induction l as [|x l IH]; [done|]. cbn [List.filter]. destruct (g x); cbn [andb List.filter]; by rewrite IH.
Qed.

Definition kMs : Z := 1000000.
(** A result of 64-bit signed arithmetic. *)
Definition s64 (z : Z) : Z := wrap_s 64 z.
Definition POLLIN : Z := 1.
Definition POLLOUT : Z := 4.
Definition POLLERR : Z := 8.
Definition POLLHUP : Z := 16.
Definition POLLNVAL : Z := 32.

Section Loop.
Context {V : Type}.   (* closures *)

Record LoopCallback := MkCallback { lc_callback : V; lc_argument : Z }.
Record Timer := MkTimer { t_id : Z; t_due : Z; intervalMs : Z; ticks : Z; t_callback : V }.
Record Watch := MkWatch { w_id : Z; w_fd : Z; w_write : bool; w_callback : V }.
Record RuntimeLoop := MkLoop { timers_ : list Timer; watches_ : list Watch; nextId_ : Z }.

Definition reset (l : RuntimeLoop) : RuntimeLoop := MkLoop [] [] 1.

Definition addTimer (now delayMs interval : Z) (cb : V) (l : RuntimeLoop) : RuntimeLoop * Z :=
  let t := MkTimer (nextId_ l) (s64 (now + s64 (delayMs * kMs))) interval 0 cb in
  (MkLoop (timers_ l ++ [t]) (watches_ l) (nextId_ l + 1), t_id t).

(** [erase] of the first element with the id. *)
Fixpoint erase_first {A} (key : A -> Z) (i : Z) (l : list A) : list A :=
  match l with [] => [] | x :: l' => if key x =? i then l' else x :: erase_first key i l' end.

Definition cancelTimer (i : Z) (l : RuntimeLoop) : RuntimeLoop :=
  MkLoop (erase_first t_id i (timers_ l)) (watches_ l) (nextId_ l).

Definition add_watch (fd : Z) (wr : bool) (cb : V) (l : RuntimeLoop) : RuntimeLoop * Z :=
  (MkLoop (timers_ l) (watches_ l ++ [MkWatch (nextId_ l) fd wr cb]) (nextId_ l + 1), nextId_ l).
Definition addWatch (fd : Z) (cb : V) (l : RuntimeLoop) := add_watch fd false cb l.
Definition addWriteWatch (fd : Z) (cb : V) (l : RuntimeLoop) := add_watch fd true cb l.

Definition cancelWatch (i : Z) (l : RuntimeLoop) : RuntimeLoop :=
  MkLoop (timers_ l) (erase_first w_id i (watches_ l)) (nextId_ l).

Definition hasWork (l : RuntimeLoop) : bool :=
  negb (match timers_ l with [] => true | _ => false end) || negb (match watches_ l with [] => true | _ => false end).

(** The environment of one [nextBatch]: the clock when the timeout is computed
    and when the due timers are collected, [poll] (its result and the
    [revents] of each entry), and the TLS queries. *)
Record LoopEnv := MkEnv {
  now_before : Z; now_after : Z; poll : list (Z * Z) -> Z -> Z * list Z; tlsWants : Z -> Z; tlsPending : Z -> bool
}.

Section Batch.
Context (e : LoopEnv).

Definition earliest (t : Timer) (ts : list Timer) : Z :=
  fold_left (fun m t => if t_due t <? m then t_due t else m) (t :: ts) (t_due t).

(** [duration_cast<milliseconds>] truncates; the cast to [int] wraps. *)
Definition timeoutMs (ts : list Timer) : Z :=
  match ts with
  | [] => -1
  | t :: ts' => let ms := Z.quot (s64 (earliest t ts' - now_before e)) kMs in if ms <? 0 then 0 else wrap_s 32 ms
  end.

Definition watch_mask (w : Watch) : Z :=
  let base := if w_write w then POLLOUT else POLLIN in
  if tlsWants e (w_fd w) =? 1 then Z.lor base POLLIN
  else if tlsWants e (w_fd w) =? 2 then Z.lor base POLLOUT else base.

Definition pendingIds (ws : list Watch) : list Z :=
  map w_id (List.filter (fun w => negb (w_write w) && tlsPending e (w_fd w)) ws).

Definition polled (ws : list Watch) (revents : list Z) : list (Watch * Z) := combine ws revents.
Definition is_ready (wr : Watch * Z) : bool :=
  negb (Z.land (snd wr) (Z.lor (watch_mask (fst wr)) (Z.lor POLLHUP (Z.lor POLLERR POLLNVAL))) =? 0).
Definition is_dead (wr : Watch * Z) : bool := negb (Z.land (snd wr) POLLNVAL =? 0).

Definition add_pending (ready : list Z) (i : Z) : list Z := if existsb (Z.eqb i) ready then ready else ready ++ [i].

Fixpoint find_watch (i : Z) (ws : list Watch) : option Watch :=
  match ws with [] => None | w :: ws' => if w_id w =? i then Some w else find_watch i ws' end.

Definition fire (ws : list Watch) (i : Z) : list LoopCallback :=
  match find_watch i ws with Some w => [MkCallback (w_callback w) (w_fd w)] | None => [] end.

(** The watches' part: the callbacks to run and the loop without its dead watches. *)
Definition poll_watches (l : RuntimeLoop) : list LoopCallback * RuntimeLoop :=
  match watches_ l with
  | [] => ([], l)
  | ws =>
      let pend := pendingIds ws in
      let tmo := match pend with [] => timeoutMs (timers_ l) | _ => 0 end in
      let '(n, revents) := poll e (map (fun w => (w_fd w, watch_mask w)) ws) tmo in
      if (0 <? n) || negb (match pend with [] => true | _ => false end) then
        let ready := map (fun wr => w_id (fst wr)) (List.filter is_ready (polled ws revents)) in
        let dead := map (fun wr => w_id (fst wr)) (List.filter is_dead (polled ws revents)) in
        let ready := fold_left add_pending pend ready in
        (concat (map (fire ws) ready), fold_left (fun l i => cancelWatch i l) dead l)
      else ([], l)
  end.

(** The comparator of the [stable_sort], on positions in [timers_]. *)
Definition timer_before (a b : Timer) : bool := if t_due a =? t_due b then t_id a <? t_id b else t_due a <? t_due b.
Definition timer_le (ts : list Timer) (i j : nat) : Prop :=
  match ts !! i, ts !! j with Some a, Some b => timer_before b a = false | _, _ => True end.
#[export] Instance timer_le_dec ts : RelDecision (timer_le ts).
Proof. intros i j. unfold timer_le. destruct (ts !! i), (ts !! j); apply _. Defined.

Definition due_positions (ts : list Timer) : list nat :=
  List.filter (fun i => match ts !! i with Some t => t_due t <=? now_after e | None => false end) (seq 0 (length ts)).

(** One due timer, through its pointer: tick, fire, re-arm or expire. *)
Definition tick (t : Timer) : Timer :=
  MkTimer (t_id t) (if 0 <? intervalMs t then s64 (t_due t + s64 (intervalMs t * kMs)) else t_due t) (intervalMs t) (ticks t + 1) (t_callback t).
Definition run_timer (st : list Timer * list LoopCallback * list Z) (i : nat) : list Timer * list LoopCallback * list Z :=
  let '(ts, batch, expired) := st in
  match ts !! i with
  | Some t => (<[i := tick t]> ts, batch ++ [MkCallback (t_callback t) (ticks t + 1)],
               if 0 <? intervalMs t then expired else expired ++ [t_id t])
  | None => st
  end.

Definition nextBatch (l : RuntimeLoop) : list LoopCallback * RuntimeLoop :=
  if hasWork l then
    let '(batch, l1) := poll_watches l in
    let order := merge_sort (timer_le (timers_ l1)) (due_positions (timers_ l1)) in
    let '(ts, batch, expired) := fold_left run_timer order (timers_ l1, batch, []) in
    (batch, fold_left (fun l i => cancelTimer i l) expired (MkLoop ts (watches_ l1) (nextId_ l1)))
  else ([], l).

End Batch.

(** ** The registry as a state machine *)

Inductive loop_step : RuntimeLoop -> RuntimeLoop -> Prop :=
| step_timer now d i cb l : loop_step l (fst (addTimer now d i cb l))
| step_cancelTimer i l : loop_step l (cancelTimer i l)
| step_watch fd cb l : loop_step l (fst (addWatch fd cb l))
| step_writeWatch fd cb l : loop_step l (fst (addWriteWatch fd cb l))
| step_cancelWatch i l : loop_step l (cancelWatch i l)
| step_batch e l : loop_step l (snd (nextBatch e l))
| step_reset l : loop_step l (reset l).

Definition ids (l : RuntimeLoop) : list Z := map t_id (timers_ l) ++ map w_id (watches_ l).

(** Ids are positive, below the counter, and never shared. *)
Definition loop_ok (l : RuntimeLoop) : Prop := NoDup (ids l) /\ Forall (fun i => 0 < i < nextId_ l) (ids l) /\ 0 < nextId_ l.

(** ** Removal by id *)

Definition without {A} (key : A -> Z) (is_ : list Z) (l : list A) : list A :=
  List.filter (fun x => negb (existsb (Z.eqb (key x)) is_)) l.

Lemma erase_first_filter {A} (key : A -> Z) i (l : list A) : NoDup (map key l) ->
  erase_first key i l = without key [i] l.
Proof.
  unfold without. induction l as [|x l IH]; intros Hnd; [done|]. cbn [map] in Hnd. apply NoDup_cons in Hnd as [Hx Hnd].
  cbn [erase_first List.filter existsb]. destruct (Z.eqb_spec (key x) i) as [<-|Hne]; cbn [orb negb].
  - symmetry. apply filter_all. intros y Hy. destruct (Z.eqb_spec (key y) (key x)) as [E|]; [|done].
    exfalso. apply Hx. rewrite <- E. apply list_elem_of_In, in_map_iff. eauto.
  - by rewrite IH.
Qed.

Lemma without_NoDup {A} (key : A -> Z) is_ (l : list A) : NoDup (map key l) -> NoDup (map key (without key is_ l)).
Proof.
  unfold without. induction l as [|x l IH]; intros Hnd; [done|]. cbn [map] in Hnd. apply NoDup_cons in Hnd as [Hx Hnd].
  cbn [List.filter]. destruct (negb _); [|auto]. cbn [map]. apply NoDup_cons. split; [|auto].
  intros H. apply Hx. apply list_elem_of_In, in_map_iff in H as (y & <- & Hy). apply filter_In in Hy as [Hy _].
  apply list_elem_of_In, in_map_iff. eauto.
Qed.

Lemma without_cons {A} (key : A -> Z) i is_ (l : list A) : without key is_ (without key [i] l) = without key (i :: is_) l.
Proof.
  unfold without. rewrite filter_filter. apply filter_ext. intros x. cbn [existsb]. by destruct (key x =? i).
Qed.

Lemma erase_all {A} (key : A -> Z) is_ (l : list A) : NoDup (map key l) ->
  fold_left (fun l i => erase_first key i l) is_ l = without key is_ l.
Proof.
  revert l. induction is_ as [|i is_ IH]; intros l Hnd; cbn [fold_left].
  - unfold without. symmetry. by apply filter_all.
  - rewrite erase_first_filter, IH by auto using without_NoDup. apply without_cons.
Qed.

Lemma cancel_timers is_ l : fold_left (fun l i => cancelTimer i l) is_ l =
  MkLoop (fold_left (fun l i => erase_first t_id i l) is_ (timers_ l)) (watches_ l) (nextId_ l).
Proof. revert l. induction is_ as [|i is_ IH]; intros l; cbn [fold_left]; [by destruct l|]. by rewrite IH. Qed.

Lemma cancel_watches is_ l : fold_left (fun l i => cancelWatch i l) is_ l =
  MkLoop (timers_ l) (fold_left (fun l i => erase_first w_id i l) is_ (watches_ l)) (nextId_ l).
Proof. revert l. induction is_ as [|i is_ IH]; intros l; cbn [fold_left]; [by destruct l|]. by rewrite IH. Qed.

End Loop.
Arguments RuntimeLoop : clear implicits.
