(* ===== verification/RuntimeLoopFacts.v ===== *)
(** * What a turn of the event loop does

    Ids stay unique; [nextBatch] runs every ready watch and every due timer
    exactly once, watches first, timers in due order; repeating timers are
    re-armed, one-shots and dead watches are gone. *)

From S2P Require Import Prelude RuntimeLoop.

Local Open Scope Z_scope.

Section Facts.
Context {V : Type}.
Implicit Types (l : RuntimeLoop V) (t : Timer (V := V)) (w : Watch (V := V)).

(** ** The specification of one turn *)

Definition timer_call t := MkCallback (t_callback t) (ticks t + 1).
Definition watch_call w := MkCallback (w_callback w) (w_fd w).

Section Spec.
Context (e : LoopEnv).

Definition is_due t : bool := t_due t <=? now_after e.

(** What becomes of a timer: untouched, re-armed one interval on, or removed. *)
Definition rearmed t : Timer :=
  MkTimer (t_id t) (t_due t + intervalMs t * 1000000) (intervalMs t) (ticks t + 1) (t_callback t).
Definition survive t : option Timer :=
  if is_due t then if 0 <? intervalMs t then Some (rearmed t) else None else Some t.

(** No time of this turn leaves the 64 bits of the clock. *)
Definition times_fit l : Prop :=
  Forall (fun t => in_s 64 (t_due t - now_before e) /\
    (is_due t = true -> 0 < intervalMs t -> in_s 64 (intervalMs t * 1000000) /\ in_s 64 (t_due t + intervalMs t * 1000000))) (timers_ l).

(** A watch waits for its own direction, and for the other one when the TLS
    session of its descriptor asks for it. *)
Definition waits_in w : bool := negb (w_write w) || (tlsWants e (w_fd w) =? 1).
Definition waits_out w : bool := w_write w || (tlsWants e (w_fd w) =? 2).
Definition wait_mask w : Z := (if waits_in w then 1 else 0) + (if waits_out w then 4 else 0).
Definition has_plaintext w : bool := negb (w_write w) && tlsPending e (w_fd w).

(** How long to wait: not at all with undelivered plaintext, without end with no
    timer, and else the whole milliseconds up to the first due time, as an [int]. *)
Definition wait_ms l : Z :=
  if existsb has_plaintext (watches_ l) then 0
  else match map t_due (timers_ l) with
       | [] => -1
       | d :: ds => let left := fold_right Z.min d ds - now_before e in if left <=? 0 then 0 else wrap_s 32 (left / 1000000)
       end.

(** What [poll] answers when asked to wait [tmo], and what the bits of an answer mean:
    readable 0, writable 2, error 3, hang-up 4, closed descriptor 5. *)
Definition poll_answer tmo l : Z * list Z := poll e (map (fun w => (w_fd w, wait_mask w)) (watches_ l)) tmo.
Definition closed (r : Z) : bool := Z.testbit r 5.
Definition wakes w (r : Z) : bool :=
  waits_in w && Z.testbit r 0 || waits_out w && Z.testbit r 2 || Z.testbit r 3 || Z.testbit r 4 || closed r.

Definition ready_watches tmo l : list Watch :=
  map fst (List.filter (fun wr => wakes (fst wr) (snd wr)) (combine (watches_ l) (snd (poll_answer tmo l)))).
Definition dead_watches tmo l : list Watch :=
  map fst (List.filter (fun wr => closed (snd wr)) (combine (watches_ l) (snd (poll_answer tmo l)))).
Definition woken tmo l : bool := (0 <? fst (poll_answer tmo l)) || existsb has_plaintext (watches_ l).

(** The watches to run: those [poll] reports, in registration order, then those
    with buffered plaintext that it did not report. *)
Definition fired_watches tmo l : list Watch :=
  if woken tmo l then
    ready_watches tmo l ++ List.filter (fun w => has_plaintext w && negb (existsb (Z.eqb (w_id w)) (map w_id (ready_watches tmo l)))) (watches_ l)
  else [].
Definition kept_watches tmo l : list Watch :=
  if woken tmo l then without w_id (map w_id (dead_watches tmo l)) (watches_ l) else watches_ l.

End Spec.

(** ** Watches *)

Lemma add_pending_fold pend ready : NoDup pend ->
  fold_left add_pending pend ready = ready ++ List.filter (fun i => negb (existsb (Z.eqb i) ready)) pend.
Proof.
  intros Hnd. revert ready. induction Hnd as [|i pend Hi Hnd IH]; intros ready; cbn [fold_left List.filter]; [by rewrite app_nil_r|].
  unfold add_pending at 2. destruct (existsb (Z.eqb i) ready) eqn:E; cbn [negb]; [apply IH|].
  rewrite IH, <- app_assoc. cbn [app]. do 2 f_equal. apply filter_ext_in. intros j Hj. rewrite existsb_app. cbn [existsb].
  destruct (Z.eqb_spec j i) as [->|]; [exfalso; by apply Hi, list_elem_of_In|]. by rewrite !orb_false_r.
Qed.

Lemma find_watch_In w ws : NoDup (map w_id ws) -> In w ws -> find_watch (w_id w) ws = Some w.
Proof.
  induction ws as [|x ws IH]; intros Hnd Hw; [done|]. cbn [map] in Hnd. apply NoDup_cons in Hnd as [Hx Hnd]. cbn [find_watch].
  destruct Hw as [->|Hw]; [by rewrite Z.eqb_refl|]. destruct (Z.eqb_spec (w_id x) (w_id w)) as [E|]; [|auto].
  exfalso. apply Hx. rewrite E. apply list_elem_of_In, in_map_iff. eauto.
Qed.

Lemma fire_all ws sub : NoDup (map w_id ws) -> (forall w, In w sub -> In w ws) ->
  concat (map (fire ws) (map w_id sub)) = map watch_call sub.
Proof.
  intros Hnd. induction sub as [|w sub IH]; intros Hsub; [done|]. cbn [map concat].
  rewrite IH by (intros; apply Hsub; by right). unfold fire at 1. rewrite find_watch_In; [done|done|]. apply Hsub. by left.
Qed.

Lemma polled_In w r ws rv : In (w, r) (polled ws rv) -> In w ws.
Proof. apply in_combine_l. Qed.

Lemma filter_map_comm {A B} (f : A -> B) (p : B -> bool) xs : List.filter p (map f xs) = map f (List.filter (fun x => p (f x)) xs).
Proof. induction xs as [|x xs IH]; [done|]. cbn [map List.filter]. destruct (p (f x)); cbn [map]; by rewrite IH. Qed.

Lemma pending_empty e ws : match pendingIds e ws with [] => true | _ => false end = negb (existsb (has_plaintext e) ws).
Proof.
  unfold pendingIds. fold (has_plaintext e). induction ws as [|w ws IH]; [done|]. cbn [List.filter existsb].
  change (negb (w_write w) && tlsPending e (w_fd w)) with (has_plaintext e w). destruct (has_plaintext e w); [done|]. exact IH.
Qed.

Lemma filter_NoDup_ids (f : Watch (V := V) -> bool) ws : NoDup (map w_id ws) -> NoDup (map w_id (List.filter f ws)).
Proof.
  induction ws as [|w ws IH]; intros Hnd; [done|]. cbn [map] in Hnd. apply NoDup_cons in Hnd as [Hx Hnd].
  cbn [List.filter]. destruct (f w); [|auto]. cbn [map]. apply NoDup_cons. split; [|auto]. intros H. apply Hx.
  apply list_elem_of_In, in_map_iff in H as (y & <- & Hy). apply filter_In in Hy as [Hy _]. apply list_elem_of_In, in_map_iff. eauto.
Qed.

(** ** The bits of the code's masks *)

Lemma land_bit r k : 0 <= k -> (Z.land r (2 ^ k) =? 0) = negb (Z.testbit r k).
Proof.
  intros Hk. apply eq_bool_prop_intro. rewrite !Is_true_true, Z.eqb_eq, negb_true_iff. split; intros H.
  - apply (f_equal (fun z => Z.testbit z k)) in H. by rewrite Z.land_spec, Z.pow2_bits_true, andb_true_r, Z.bits_0 in H.
  - apply Z.bits_inj'. intros i Hi. rewrite Z.land_spec, Z.bits_0. destruct (decide (i = k)) as [->|].
    + by rewrite H.
    + by rewrite Z.pow2_bits_false, andb_false_r.
Qed.

Lemma land_lor_zero r a b : (Z.land r (Z.lor a b) =? 0) = (Z.land r a =? 0) && (Z.land r b =? 0).
Proof.
  rewrite Z.land_lor_distr_r. apply eq_bool_prop_intro. rewrite !Is_true_true, andb_true_iff, !Z.eqb_eq. apply Z.lor_eq_0_iff.
Qed.

Lemma is_dead_bits (wr : Watch (V := V) * Z) : is_dead wr = closed (snd wr).
Proof. unfold is_dead, closed. change POLLNVAL with (2 ^ 5). rewrite land_bit by lia. apply negb_involutive. Qed.

Lemma watch_mask_bits e w : watch_mask e w = wait_mask e w.
Proof.
  unfold watch_mask, wait_mask, waits_in, waits_out. destruct (Z.eqb_spec (tlsWants e (w_fd w)) 1) as [->|];
    [by destruct (w_write w)|]. by destruct (tlsWants e (w_fd w) =? 2), (w_write w).
Qed.

Lemma is_ready_bits e (wr : Watch * Z) : is_ready e wr = wakes e (fst wr) (snd wr).
Proof.
  destruct wr as [w r]. unfold is_ready, wakes, closed. cbn [fst snd]. rewrite watch_mask_bits, !land_lor_zero.
  change POLLERR with (2 ^ 3). change POLLHUP with (2 ^ 4). change POLLNVAL with (2 ^ 5). rewrite !land_bit by lia.
  unfold wait_mask. assert ((Z.land r (1 + 4) =? 0) = negb (Z.testbit r 0 || Z.testbit r 2)) as H5.
  { change (1 + 4) with (Z.lor (2 ^ 0) (2 ^ 2)). rewrite land_lor_zero, !land_bit by lia. by rewrite negb_orb. }
  destruct (waits_in e w), (waits_out e w); cbn [andb orb].
  - rewrite H5. by destruct (Z.testbit r 0), (Z.testbit r 2), (Z.testbit r 3), (Z.testbit r 4), (Z.testbit r 5).
  - change (1 + 0) with (2 ^ 0). rewrite land_bit by lia. by destruct (Z.testbit r 0), (Z.testbit r 3), (Z.testbit r 4), (Z.testbit r 5).
  - change (0 + 4) with (2 ^ 2). rewrite land_bit by lia. by destruct (Z.testbit r 2), (Z.testbit r 3), (Z.testbit r 4), (Z.testbit r 5).
  - rewrite Z.land_0_r. by destruct (Z.testbit r 3), (Z.testbit r 4), (Z.testbit r 5).
Qed.

(** ** The timeout *)

Lemma earliest_min t ts : earliest t ts = fold_right Z.min (t_due t) (map t_due ts).
Proof.
  unfold earliest. cbn [fold_left]. destruct (Z.ltb_spec (t_due t) (t_due t)); [lia|]. generalize (t_due t). clear t H.
  induction ts as [|t ts IH]; intros m; [done|]. cbn [fold_left map fold_right]. rewrite IH.
  assert (forall a b ds, fold_right Z.min (Z.min a b) ds = Z.min a (fold_right Z.min b ds)) as Hm.
  { intros a b ds. induction ds as [|d ds IHd]; [done|]. cbn [fold_right]. rewrite IHd. lia. }
  replace (if t_due t <? m then t_due t else m) with (Z.min (t_due t) m) by (destruct (Z.ltb_spec (t_due t) m); lia). apply Hm.
Qed.

Lemma min_due_in (P : Z -> Prop) d ds : P d -> Forall P ds -> P (fold_right Z.min d ds).
Proof.
  intros Hd Hs. induction Hs as [|x ds Hx Hs IH]; [done|]. cbn [fold_right]. by destruct (Z.min_dec x (fold_right Z.min d ds)) as [->| ->].
Qed.

Lemma timeoutMs_spec e l : times_fit e l ->
  (if existsb (has_plaintext e) (watches_ l) then 0 else timeoutMs e (timers_ l)) = wait_ms e l.
Proof.
  intros Hf. unfold wait_ms. destruct (existsb _ _); [done|]. unfold timeoutMs, times_fit in *.
  destruct (timers_ l) as [|t ts]; [done|]. cbn [map]. rewrite earliest_min.
  assert (in_s 64 (fold_right Z.min (t_due t) (map t_due ts) - now_before e)) as Hd.
  { apply (min_due_in (fun d => in_s 64 (d - now_before e))); [by apply Forall_cons_1 in Hf as [[? _] _]|].
    apply Forall_cons_1 in Hf as [_ Hf]. apply Forall_map. eapply Forall_impl; [exact Hf|]. by intros u [? _]. }
  unfold s64. rewrite wrap_s_id by (done || lia). set (d := fold_right Z.min _ _ - _) in *. clearbody d. unfold kMs.
  destruct (Z.leb_spec d 0).
  - destruct (Z.ltb_spec (Z.quot d 1000000) 0) as [|Hq]; [done|]. assert (Z.quot d 1000000 = 0) as -> by (Z.quot_rem_to_equations; lia). done.
  - destruct (Z.ltb_spec (Z.quot d 1000000) 0) as [Hq|]; [Z.quot_rem_to_equations; lia|]. by rewrite Z.quot_div_nonneg by lia.
Qed.

(** The timeout the code computes. *)
Definition code_wait e l : Z := if existsb (has_plaintext e) (watches_ l) then 0 else timeoutMs e (timers_ l).

Lemma poll_watches_spec e l : NoDup (map w_id (watches_ l)) -> let tmo := code_wait e l in
  poll_watches e l = (map watch_call (fired_watches e tmo l), MkLoop (timers_ l) (kept_watches e tmo l) (nextId_ l)).
Proof.
  intros Hnd tmo. destruct (watches_ l) as [|w0 ws0] eqn:Ews.
  { unfold poll_watches, fired_watches, kept_watches, ready_watches, dead_watches. rewrite Ews. cbn.
    destruct l as [ts ws n]. cbn in Ews. subst. by destruct (woken _ _ _). }
  assert (poll_watches e l =
    (if woken e tmo l then
       (concat (map (fire (watches_ l)) (fold_left add_pending (pendingIds e (watches_ l)) (map w_id (ready_watches e tmo l)))),
        fold_left (fun l i => cancelWatch i l) (map w_id (dead_watches e tmo l)) l)
     else ([], l))) as ->.
  { unfold poll_watches, woken, ready_watches, dead_watches, poll_answer, tmo, code_wait.
    rewrite !map_map, Ews, <- Ews. erewrite (map_ext (fun w => (w_fd w, wait_mask e w))) by (intros w; by rewrite <- watch_mask_bits).
    pose proof (pending_empty e (watches_ l)) as Hp. rewrite <- (negb_involutive (existsb _ _)), <- Hp.
    replace (match pendingIds e (watches_ l) with [] => timeoutMs e (timers_ l) | _ => 0 end) with
      (if negb (match pendingIds e (watches_ l) with [] => true | _ => false end) then 0 else timeoutMs e (timers_ l))
      by by destruct (pendingIds e (watches_ l)).
    destruct (poll e _ _) as [n rv]. cbn [fst snd]. unfold polled. rewrite (filter_ext _ _ (is_ready_bits e)), (filter_ext _ _ is_dead_bits).
    by destruct (_ || _). }
  unfold fired_watches, kept_watches. destruct (woken e tmo l); [|by destruct l].
  rewrite <- Ews in Hnd. f_equal.
  - rewrite add_pending_fold by (apply filter_NoDup_ids; done). unfold pendingIds.
    rewrite filter_map_comm, filter_filter, <- map_app, fire_all; [done|done|].
    intros w Hw. apply in_app_iff in Hw as [Hw|Hw].
    + unfold ready_watches in Hw. apply in_map_iff in Hw as ([w' r] & <- & Hw). apply filter_In in Hw as [Hw _]. by eapply polled_In.
    + by apply filter_In in Hw as [Hw _].
  - rewrite cancel_watches. f_equal. by apply erase_all.
Qed.


(** ** Timers *)

Definition one_shot t : bool := negb (0 <? intervalMs t).
Definition tle t t' : Prop := t_due t < t_due t' \/ t_due t = t_due t' /\ t_id t <= t_id t'.

Lemma tle_code t t' : timer_before t' t = false -> tle t t'.
Proof. unfold tle, timer_before. destruct (Z.eqb_spec (t_due t') (t_due t)); lia. Qed.

Lemma tle_trans : Transitive tle.
Proof.
  intros a b c. unfold tle. lia.
Qed.

Lemma timer_le_total (ts : list (Timer (V := V))) : Total (timer_le ts).
Proof.
  intros i j. unfold timer_le. destruct (ts !! i) as [a|], (ts !! j) as [b|]; auto. unfold timer_before.
  destruct (Z.eqb_spec (t_due b) (t_due a)), (Z.eqb_spec (t_due a) (t_due b)); lia.
Qed.

(** The timers at a list of positions. *)
Definition pick (ts : list (Timer (V := V))) (order : list nat) : list Timer :=
  concat (map (fun i => match ts !! i with Some t => [t] | None => [] end) order).

Lemma pick_insert ts i t order : i ∉ order -> pick (<[i := t]> ts) order = pick ts order.
Proof.
  intros Hi. unfold pick. f_equal. apply map_ext_in. intros j Hj. rewrite list_lookup_insert_ne; [done|].
  intros ->. by apply Hi, list_elem_of_In.
Qed.

Lemma run_timers order : NoDup order -> forall ts b ex, exists ts',
  fold_left run_timer order (ts, b, ex) =
    (ts', b ++ map timer_call (pick ts order), ex ++ map t_id (List.filter one_shot (pick ts order))) /\
  forall j, ts' !! j = if decide (j ∈ order) then tick <$> ts !! j else ts !! j.
Proof.
  induction 1 as [|i order Hi Hnd IH]; intros ts b ex; cbn [fold_left].
  - exists ts. split; [unfold pick; cbn; by rewrite !app_nil_r|]. intros j. destruct (decide (j ∈ [])) as [H|]; [|done]. set_solver.
  - unfold run_timer at 2. destruct (ts !! i) as [t|] eqn:E.
    + destruct (IH (<[i := tick t]> ts) (b ++ [MkCallback (t_callback t) (ticks t + 1)])
        (if 0 <? intervalMs t then ex else ex ++ [t_id t])) as (ts' & -> & Hts'). exists ts'.
      rewrite pick_insert by done. split.
      * unfold pick at 3 4. cbn [map concat]. rewrite E. cbn [app map List.filter]. fold (pick ts order).
        rewrite <- app_assoc. f_equal. unfold one_shot at 2. destruct (0 <? intervalMs t); cbn [negb map]; [done|]. by rewrite <- app_assoc.
      * intros j. rewrite Hts'. destruct (decide (j = i)) as [->|Hne].
        -- rewrite decide_False, decide_True by set_solver. rewrite list_lookup_insert_eq by by eapply lookup_lt_Some. by rewrite E.
        -- rewrite list_lookup_insert_ne by done. destruct (decide (j ∈ order)); [rewrite decide_True by set_solver; done|].
           by rewrite decide_False by set_solver.
    + destruct (IH ts b ex) as (ts' & -> & Hts'). exists ts'. split.
      * unfold pick at 3 4. cbn [map concat]. by rewrite E.
      * intros j. rewrite Hts'. destruct (decide (j = i)) as [->|Hne].
        -- rewrite decide_False, decide_True by set_solver. by rewrite E.
        -- destruct (decide (j ∈ order)); [by rewrite decide_True by set_solver|by rewrite decide_False by set_solver].
Qed.

Lemma due_positions_pick e ts : pick ts (due_positions e ts) = List.filter (is_due e) ts.
Proof.
  unfold due_positions. assert (forall pre suf, pick (pre ++ suf) (List.filter (fun i => match (pre ++ suf) !! i with
    Some t => t_due t <=? now_after e | None => false end) (seq (length pre) (length suf))) = List.filter (is_due e) suf) as H.
  { intros pre suf. revert pre. induction suf as [|t suf IH]; intros pre; [done|]. cbn [length seq List.filter].
    rewrite (list_lookup_middle pre suf t) by done. specialize (IH (pre ++ [t])). rewrite <- app_assoc, length_app in IH.
    cbn [app length] in IH. rewrite Nat.add_1_r in IH. fold (is_due e t). destruct (is_due e t); [|exact IH].
    unfold pick in *. cbn [map concat]. rewrite (list_lookup_middle pre suf t) by done. cbn [app]. by rewrite IH. }
  exact (H [] ts).
Qed.

Lemma due_positions_In e ts j : j ∈ due_positions e ts <-> exists t, ts !! j = Some t /\ is_due e t = true.
Proof.
  unfold due_positions. rewrite list_elem_of_In, filter_In, in_seq. split.
  - intros [_ H]. destruct (ts !! j) as [t|]; [|done]. by exists t.
  - intros (t & E & H). rewrite E. split; [|done]. apply lookup_lt_Some in E. lia.
Qed.

Lemma pick_perm ts o1 o2 : Permutation o1 o2 -> Permutation (pick ts o1) (pick ts o2).
Proof.
  unfold pick. induction 1 as [|x o1 o2 _ IH|x y o|o1 o2 o3 _ IH1 _ IH2]; cbn [map concat]; [done| | |by etrans].
  - by apply Permutation_app.
  - rewrite !app_assoc. apply Permutation_app; [apply Permutation_app_comm|done].
Qed.

Lemma pick_sorted ts order : Forall (fun i => is_Some (ts !! i)) order -> Sorted (timer_le ts) order -> Sorted tle (pick ts order).
Proof.
  intros Hin Hs. induction Hs as [|i order Hs IH Hd]; [constructor|]. inversion_clear Hin as [|?? [t Ht] Hin'].
  specialize (IH Hin'). unfold pick. cbn [map concat]. rewrite Ht. cbn [app]. constructor; [done|].
  destruct order as [|j order]; [constructor|]. inversion_clear Hin' as [|?? [u Hu] _]. cbn [map concat]. rewrite Hu.
  cbn [app]. constructor. inversion_clear Hd as [|?? Hle]. unfold timer_le in Hle. rewrite Ht, Hu in Hle. by apply tle_code.
Qed.

Lemma id_inj {A} (key : A -> Z) (xs : list A) x y : NoDup (map key xs) -> In x xs -> In y xs -> key x = key y -> x = y.
Proof.
  intros Hnd Hx Hy E. apply list_elem_of_In, list_elem_of_lookup in Hx as [i Hi], Hy as [j Hj].
  assert (i = j) as <-; [|congruence]. apply (NoDup_lookup (map key xs) i j (key x)); [done|by rewrite list_lookup_fmap, Hi|].
  rewrite list_lookup_fmap, Hj. cbn. by rewrite E.
Qed.

(** What the code makes of a timer: the re-armed time wraps. *)
Definition survive_code e t : option Timer :=
  if is_due e t then if 0 <? intervalMs t then Some (tick t) else None else Some t.

(** Removing the expired one-shots leaves exactly the survivors. *)
Lemma survivors e ts ds : NoDup (map t_id ts) -> Permutation ds (List.filter (is_due e) ts) ->
  without t_id (map t_id (List.filter one_shot ds)) (map (fun t => if is_due e t then tick t else t) ts) = omap (survive_code e) ts.
Proof.
  intros Hnd Hp.
  assert (forall t, In t ts -> existsb (Z.eqb (t_id t)) (map t_id (List.filter one_shot ds)) = is_due e t && one_shot t) as Hex.
  { intros t Ht. apply eq_bool_prop_intro. rewrite !Is_true_true, existsb_exists, andb_true_iff. split.
    - intros (i & Hi & E). apply Z.eqb_eq in E as <-. apply in_map_iff in Hi as (u & Hu & Hin).
      apply filter_In in Hin as [Hin Ho]. rewrite Hp in Hin. apply filter_In in Hin as [Hin Hd].
      by rewrite <- (id_inj t_id ts u t).
    - intros [Hd Ho]. exists (t_id t). rewrite Z.eqb_refl. split; [|done]. apply in_map, filter_In. split; [|done].
      rewrite Hp. by apply filter_In. }
  unfold without. revert Hex. generalize (map t_id (List.filter one_shot ds)). intros E Hex. clear Hnd Hp.
  induction ts as [|t ts IH]; [done|]. cbn [map List.filter]. rewrite IH by (intros; apply Hex; by right).
  specialize (Hex t (or_introl eq_refl)). cbn [omap list_omap].
  assert (survive_code e t = if is_due e t then if 0 <? intervalMs t then Some (tick t) else None else Some t) as -> by done.
  destruct (is_due e t); cbn [andb] in Hex; [change (t_id (tick t)) with (t_id t)|]; rewrite Hex; [|done].
  unfold one_shot. by destruct (0 <? intervalMs t).
Qed.

Lemma loop_ok_parts l : loop_ok l -> NoDup (map t_id (timers_ l)) /\ NoDup (map w_id (watches_ l)).
Proof. intros [H _]. apply NoDup_app in H as (? & _ & ?). done. Qed.

Lemma nextBatch_result e l : loop_ok l -> exists ds,
  Permutation ds (List.filter (is_due e) (timers_ l)) /\ StronglySorted tle ds /\
  nextBatch e l = (map watch_call (fired_watches e (code_wait e l) l) ++ map timer_call ds,
                   MkLoop (omap (survive_code e) (timers_ l)) (kept_watches e (code_wait e l) l) (nextId_ l)).
Proof.
  intros Hok. destruct (loop_ok_parts l Hok) as [Ht Hw]. pose proof (timer_le_total (timers_ l)).
  set (order := merge_sort (timer_le (timers_ l)) (due_positions e (timers_ l))).
  assert (Permutation order (due_positions e (timers_ l))) as Hperm by apply merge_sort_Permutation.
  assert (NoDup order) as Hnd.
  { rewrite Hperm. unfold due_positions. apply NoDup_ListNoDup, List.NoDup_filter, seq_NoDup. }
  exists (pick (timers_ l) order). split_and!.
  - rewrite <- due_positions_pick. by apply pick_perm.
  - apply Sorted_StronglySorted; [exact tle_trans|]. apply pick_sorted; [|by apply Sorted_merge_sort].
    apply Forall_forall. intros j Hj. rewrite Hperm in Hj. apply due_positions_In in Hj as (t & E & _). by exists t.
  - unfold nextBatch. destruct (hasWork l) eqn:Ew.
    + rewrite poll_watches_spec by done. cbn [timers_ watches_ nextId_]. fold order.
      destruct (run_timers order Hnd (timers_ l) (map watch_call (fired_watches e (code_wait e l) l)) []) as (ts' & -> & Hts').
      rewrite cancel_timers. cbn [timers_ watches_ nextId_]. do 2 f_equal.
      assert (ts' = map (fun t => if is_due e t then tick t else t) (timers_ l)) as ->.
      { apply list_eq. intros j. rewrite Hts', list_lookup_fmap. destruct (timers_ l !! j) as [t|] eqn:E; [|by destruct (decide _)].
        cbn. destruct (decide (j ∈ order)) as [Hj|Hj]; rewrite Hperm, due_positions_In in Hj.
        - destruct Hj as (u & E' & Hd). rewrite E in E'. injection E' as <-. by rewrite Hd.
        - destruct (is_due e t) eqn:Hd; [|done]. exfalso. apply Hj. eauto. }
      rewrite app_nil_l, erase_all; [apply survivors; [done|]|].
      * rewrite <- due_positions_pick. by apply pick_perm.
      * rewrite map_map. erewrite map_ext; [exact Ht|]. intros t. by destruct (is_due e t).
    + destruct l as [[|? ?] [|? ?] n]; try done. unfold order, fired_watches, kept_watches, ready_watches. cbn.
      by destruct (woken e _ _).
Qed.

Lemma survive_exact e l : times_fit e l -> omap (survive_code e) (timers_ l) = omap (survive e) (timers_ l).
Proof.
  unfold times_fit. induction 1 as [|t ts [_ Ht] _ IH]; [done|]. cbn [omap list_omap]. fold (omap (M := list) (survive_code e) ts) (omap (M := list) (survive e) ts).
  assert (survive_code e t = survive e t) as ->; [|by rewrite <- IH].
  unfold survive_code, survive. destruct (is_due e t); [|done]. destruct (Z.ltb_spec 0 (intervalMs t)) as [Hi|]; [|done].
  destruct (Ht eq_refl Hi) as [H1 H2]. unfold tick, rearmed, s64, kMs. destruct (Z.ltb_spec 0 (intervalMs t)); [|lia].
  by rewrite (wrap_s_id 64 (intervalMs t * _)), wrap_s_id by (done || lia).
Qed.


(** ** The invariant *)

Lemma loop_ok_sub l l' : loop_ok l -> sublist (ids l') (ids l) -> nextId_ l' = nextId_ l -> loop_ok l'.
Proof.
  intros (H1 & H2 & H3) Hs E. unfold loop_ok. rewrite E. split_and!; [by eapply sublist_NoDup| |done].
  eapply Forall_forall. intros x Hx. rewrite Forall_forall in H2. apply H2. by eapply elem_of_sublist.
Qed.

Lemma loop_ok_fresh l l' : loop_ok l -> nextId_ l' = nextId_ l + 1 -> Permutation (ids l') (nextId_ l :: ids l) -> loop_ok l'.
Proof.
  intros (H1 & H2 & H3) E Hp. unfold loop_ok. rewrite E, Hp. rewrite Forall_forall in H2. split_and!; [|apply Forall_cons; split|]; try lia.
  - apply NoDup_cons. split; [|done]. intros Hin. apply H2 in Hin. lia.
  - apply Forall_forall. intros x Hx. apply H2 in Hx. lia.
Qed.

Lemma erase_sublist {A} (key : A -> Z) i (xs : list A) : sublist (erase_first key i xs) xs.
Proof.
  induction xs as [|x xs IH]; [done|]. cbn [erase_first]. destruct (key x =? i); [by apply sublist_cons|by apply sublist_skip].
Qed.

Lemma filter_sublist {A} (f : A -> bool) (xs : list A) : sublist (List.filter f xs) xs.
Proof. induction xs as [|x xs IH]; [done|]. cbn [List.filter]. destruct (f x); [by apply sublist_skip|by apply sublist_cons]. Qed.

Lemma survive_ids e (ts : list Timer) : sublist (map t_id (omap (survive_code e) ts)) (map t_id ts).
Proof.
  induction ts as [|t ts IH]; [done|]. cbn [omap list_omap map].
  assert (survive_code e t = if is_due e t then if 0 <? intervalMs t then Some (tick t) else None else Some t) as -> by done.
  destruct (is_due e t); [destruct (0 <? intervalMs t)|]; cbn [map]; first [by apply sublist_skip|by apply sublist_cons].
Qed.

Lemma kept_sublist e tmo l : sublist (kept_watches e tmo l) (watches_ l).
Proof. unfold kept_watches, without. destruct (woken e tmo l); [apply filter_sublist|done]. Qed.

Lemma loop_step_ok l l' : loop_step l l' -> loop_ok l -> loop_ok l'.
Proof.
  destruct 1 as [now d i cb l|i l|fd cb l|fd cb l|i l|e l|l]; intros Hok.
  - apply (loop_ok_fresh l); [done|done|]. unfold ids. cbn. rewrite map_app. cbn.
    rewrite <- app_assoc. cbn. symmetry. apply Permutation_middle.
  - apply (loop_ok_sub l); [done| |done]. unfold ids. cbn. apply sublist_app; [apply fmap_sublist, erase_sublist|done].
  - apply (loop_ok_fresh l); [done|done|]. unfold ids. cbn. rewrite map_app. cbn.
    rewrite app_assoc. rewrite Permutation_app_comm. done.
  - apply (loop_ok_fresh l); [done|done|]. unfold ids. cbn. rewrite map_app. cbn.
    rewrite app_assoc. rewrite Permutation_app_comm. done.
  - apply (loop_ok_sub l); [done| |done]. unfold ids. cbn. apply sublist_app; [done|apply fmap_sublist, erase_sublist].
  - destruct (nextBatch_result e l Hok) as (ds & _ & _ & ->). apply (loop_ok_sub l); [done| |done].
    unfold ids. cbn. apply sublist_app; [apply survive_ids|apply fmap_sublist, kept_sublist].
  - unfold loop_ok, ids. cbn. split_and!; [constructor|constructor|lia].
Qed.

End Facts.

(** [C35] Ids identify.  In every state the loop can reach, by any sequence of
    registrations, cancellations, turns and resets, the timers and watches
    share no id; so a cancellation removes exactly the timer or watch the id
    was returned for, and a registration returns an id no live entry has. *)
Theorem loop_ids_identify {V} (l : RuntimeLoop V) : rtc loop_step (MkLoop [] [] 1) l ->
  loop_ok l /\
  (forall i, timers_ (cancelTimer i l) = List.filter (fun t => negb (t_id t =? i)) (timers_ l)) /\
  (forall i, watches_ (cancelWatch i l) = List.filter (fun w => negb (w_id w =? i)) (watches_ l)) /\
  (forall now d iv cb, (snd (addTimer now d iv cb l)) ∉ ids l) /\
  (forall fd cb, (snd (addWatch fd cb l)) ∉ ids l /\ (snd (addWriteWatch fd cb l)) ∉ ids l).
Proof.
  intros Hr. assert (loop_ok l) as Hok.
  { assert (loop_ok (MkLoop (V := V) [] [] 1)) as H0 by (split_and!; [constructor|constructor|cbn; lia]).
    induction Hr as [|x y z Hs _ IH]; [done|]. apply IH. by eapply loop_step_ok. }
  destruct (loop_ok_parts l Hok) as [Ht Hw].
  assert (forall i, i = nextId_ l -> i ∉ ids l) as Hfresh.
  { intros i -> Hin. destruct Hok as (_ & H & _). rewrite Forall_forall in H. apply H in Hin. lia. }
  split_and!; [done| | |by intros; apply Hfresh|by split; apply Hfresh].
  - intros i. cbn [cancelTimer timers_]. rewrite erase_first_filter by done. apply filter_ext. intros t. cbn. by rewrite orb_false_r.
  - intros i. cbn [cancelWatch watches_]. rewrite erase_first_filter by done. apply filter_ext. intros t. cbn. by rewrite orb_false_r.
Qed.

(** Two timers and a watch; the first timer repeats every 10 ms and both are due at 25 ms. *)
Definition sample_loop : RuntimeLoop string :=
  let l1 := fst (addTimer 0 20 10 "tick"%string (MkLoop [] [] 1)) in
  let l2 := fst (addTimer 0 5 0 "once"%string l1) in
  fst (addWatch 7 "data"%string l2).
Definition sample_env : LoopEnv := MkEnv 0 (25 * kMs) (fun _ _ => (1, [POLLIN])) (fun _ => 0) (fun _ => false).

Lemma loop_ids_identify_witness : loop_ok sample_loop /\
  timers_ (cancelTimer 1 sample_loop) = [MkTimer 2 (5 * kMs) 0 0 "once"%string].
Proof.
  assert (rtc loop_step (MkLoop [] [] 1) sample_loop) as H.
  { eapply rtc_l; [apply (step_timer 0 20 10 "tick"%string)|]. eapply rtc_l; [apply (step_timer 0 5 0 "once"%string)|].
    eapply rtc_l; [apply (step_watch 7 "data"%string)|]. apply rtc_refl. }
  destruct (loop_ids_identify sample_loop H) as (H1 & H2 & _). split; [exact H1|]. by rewrite (H2 1).
Defined.

Lemma sample_loop_ok : loop_ok sample_loop.
Proof.
  eapply loop_step_ok; [apply (step_watch 7 "data"%string)|]. eapply loop_step_ok; [apply (step_timer 0 5 0 "once"%string)|].
  eapply loop_step_ok; [apply (step_timer 0 20 10 "tick"%string)|]. split_and!; [constructor|constructor|cbn; lia].
Qed.


(** The loop does not always block: a timer half a millisecond away gives
    [poll] a zero timeout (the conversion to milliseconds truncates), and one
    that is 2^31 ms away gives a negative one (the cast to [int] wraps), which
    without watches is no wait at all.  In both cases [nextBatch] returns an
    empty batch at once, with the work still registered. *)
Theorem next_batch_empty_with_work : Forall (fun due =>
  let l := MkLoop [MkTimer 1 due 0 0 tt] [] 2 in
  let e := MkEnv 0 0 (fun _ _ => (0, [])) (fun _ => 0) (fun _ => false) in
  hasWork l = true /\ timeoutMs e (timers_ l) <= 0 /\ nextBatch e l = ([], l)) [500000; 2 ^ 31 * kMs].
Proof. repeat constructor; vm_compute; done. Qed.

(** Ready watches run in the order of registration, not of their descriptors. *)
Theorem batch_registration_order :
  let l := fst (addWatch 5 "b"%string (fst (addWatch 9 "a"%string (MkLoop [] [] 1)))) in
  let e := MkEnv 0 0 (fun _ _ => (2, [POLLIN; POLLIN])) (fun _ => 0) (fun _ => false) in
  map (fun c => lc_argument c) (fst (nextBatch e l)) = [9; 5].
Proof. vm_compute. reflexivity. Qed.

(** A delay of 2^63 nanoseconds or more (292 years, in milliseconds) overflows the
    conversion to nanoseconds: the timer is due in the past and runs at once. *)
Theorem timer_delay_wraps :
  let l := fst (addTimer 1000 9223372036855 0 "later"%string (MkLoop [] [] 1)) in
  let e := MkEnv 1000 1000 (fun _ _ => (0, [])) (fun _ => 0) (fun _ => false) in
  nextBatch e l = ([MkCallback "later"%string 1], MkLoop [] [] 2).
Proof. vm_compute. reflexivity. Qed.
