(* ===== verification/TaskSched.v ===== *)
(** * The task scheduler

    Models [runtime/lv_task.c], the stackful tasks behind [await]: the task
    objects with their intrusive lists, the id registry, spawning, yielding,
    the three kinds of park, cancellation with its mark and shield, and the
    carrier loop [lv_sched_run].

    A task pointer is an address in the store [tasks]; [next] links are kept as
    the code keeps them.  What a task computes between two calls into this file
    is the engine's business: an [Engine] gives, for a suspended computation
    and the answer it waits for, the next call it makes.  A saved stack is that
    suspended computation ([frame]), so a context switch is the step that
    resumes it.  The hooks ([poll], [loop_step], [throwing]) are the engine's,
    each of them absent when not installed.  A failed [assert] is [None].  The
    sanitizer annotations, the guard page handler and the statistics line have
    no effect on scheduling and are left out. *)

From S2P Require Import Prelude.

Local Open Scope Z_scope.

Abbreviation ptr := nat.

(** An awaited object; [None] is the null pointer. *)
Abbreviation key := Z.

(** ** Data *)

Inductive TState := RUNNABLE | RUNNING | PARKED | DONE | POOLED.

Definition LV_PARK_SETTLED : Z := 1.
Definition LV_PARK_DRAINED : Z := 2.
Definition LV_PARK_CANCELLED : Z := 3.

(** The calls a task makes into the scheduler; [CCompute]: a part of its
    computation without one. *)
Inductive Cmd (L : Type) :=
| CSpawn (l : L) | CSpawnRegistered (l : L)
| CYield | CParkOn (obj : option key) | CParkAny2 (a b : option key) | CParkJoin (ids : list Z)
| CCancel (id : Z) | CShield (delta : Z)
| CCompute | CReturn.
Arguments CSpawn {L} l.
Arguments CSpawnRegistered {L} l.
Arguments CYield {L}.
Arguments CParkOn {L} obj.
Arguments CParkAny2 {L} a b.
Arguments CParkJoin {L} ids.
Arguments CCancel {L} id.
Arguments CShield {L} delta.
Arguments CCompute {L}.
Arguments CReturn {L}.

(** What it gets back: nothing, an id or a flag, a wake reason with the index
    [park_any2] stores through [which]. *)
Inductive Reply := RUnit | RInt (n : Z) | RPark (reason : Z) (which : option Z).

Record Engine (W L : Type) := MkEngine {
  body : L -> Reply -> W -> Cmd L * L * W;
  e_poll : option (W -> key -> Z);
  e_loop_step : option (W -> Z * list L * W);
  e_throwing : option (W -> bool);
  now_ns : W -> Z;
  env_uncancellable : W -> option str
}.
Arguments body {W L} e l r w.
Arguments e_poll {W L} e.
Arguments e_loop_step {W L} e.
Arguments e_throwing {W L} e.
Arguments now_ns {W L} e w.
Arguments env_uncancellable {W L} e w.

(** The park keys of a task, in their two shapes: one or two objects, or the
    ids of a join. *)
Record Park := MkPark {
  parked_on : option key; parked_on2 : option key; join_ids : option (list Z); park_ns : Z; reported : bool
}.
Definition no_park : Park := MkPark None None None 0 false.

Inductive Counter :=
| NSpawned | NCompleted | NSwitches | NLive | NPeakLive | NParked | NPeakParked | NMapped | NPooled
| DrainedWakes | NCancelled | NCancelWakes | NReports.
#[export] Instance Counter_eq_dec : EqDecision Counter.
Proof. solve_decision. Defined.

Record Queue := MkQueue { q_head : option ptr; q_tail : option ptr }.

Section Sched.
Context {W L : Type} (E : Engine W L).

(** A saved stack: a fresh task's function, or the computation behind a yield
    or a park ([any2]: one that reports which key woke it). *)
Inductive Frame := FFresh (l : L) | FYield (l : L) | FPark (l : L) (any2 : bool) | FDead.

Record Task := MkTask {
  next : option ptr; park : Park; frame : Frame; tstate : TState; wake_reason : Z; woke_ix : Z;
  cancelled : bool; shield : Z; registered : bool; tid : Z
}.

Record Sched := MkSched {
  tasks : gmap ptr Task; current : option ptr; runq : Queue; parked : Queue; pool : option ptr;
  main_task : option ptr; main_done : bool; reg : list (Z * ptr); count : Counter -> Z; reports : list Z
}.

(** ** Field updates *)

Definition set_next (n : option ptr) (t : Task) : Task :=
  MkTask n (park t) (frame t) (tstate t) (wake_reason t) (woke_ix t) (cancelled t) (shield t) (registered t) (tid t).
Definition set_park (k : Park) (t : Task) : Task :=
  MkTask (next t) k (frame t) (tstate t) (wake_reason t) (woke_ix t) (cancelled t) (shield t) (registered t) (tid t).
Definition set_frame (f : Frame) (t : Task) : Task :=
  MkTask (next t) (park t) f (tstate t) (wake_reason t) (woke_ix t) (cancelled t) (shield t) (registered t) (tid t).
Definition set_tstate (x : TState) (t : Task) : Task :=
  MkTask (next t) (park t) (frame t) x (wake_reason t) (woke_ix t) (cancelled t) (shield t) (registered t) (tid t).
Definition set_wake (r : Z) (t : Task) : Task :=
  MkTask (next t) (park t) (frame t) (tstate t) r (woke_ix t) (cancelled t) (shield t) (registered t) (tid t).
Definition set_woke_ix (i : Z) (t : Task) : Task :=
  MkTask (next t) (park t) (frame t) (tstate t) (wake_reason t) i (cancelled t) (shield t) (registered t) (tid t).
Definition set_cancelled (b : bool) (t : Task) : Task :=
  MkTask (next t) (park t) (frame t) (tstate t) (wake_reason t) (woke_ix t) b (shield t) (registered t) (tid t).
Definition set_shield (n : Z) (t : Task) : Task :=
  MkTask (next t) (park t) (frame t) (tstate t) (wake_reason t) (woke_ix t) (cancelled t) n (registered t) (tid t).
Definition set_registered (b : bool) (t : Task) : Task :=
  MkTask (next t) (park t) (frame t) (tstate t) (wake_reason t) (woke_ix t) (cancelled t) (shield t) b (tid t).

Definition set_tasks (m : gmap ptr Task) (s : Sched) : Sched :=
  MkSched m (current s) (runq s) (parked s) (pool s) (main_task s) (main_done s) (reg s) (count s) (reports s).
Definition set_current (c : option ptr) (s : Sched) : Sched :=
  MkSched (tasks s) c (runq s) (parked s) (pool s) (main_task s) (main_done s) (reg s) (count s) (reports s).
Definition set_runq (q : Queue) (s : Sched) : Sched :=
  MkSched (tasks s) (current s) q (parked s) (pool s) (main_task s) (main_done s) (reg s) (count s) (reports s).
Definition set_parked (q : Queue) (s : Sched) : Sched :=
  MkSched (tasks s) (current s) (runq s) q (pool s) (main_task s) (main_done s) (reg s) (count s) (reports s).
Definition set_pool (p : option ptr) (s : Sched) : Sched :=
  MkSched (tasks s) (current s) (runq s) (parked s) p (main_task s) (main_done s) (reg s) (count s) (reports s).
Definition set_main (m : option ptr) (d : bool) (s : Sched) : Sched :=
  MkSched (tasks s) (current s) (runq s) (parked s) (pool s) m d (reg s) (count s) (reports s).
Definition set_reg (r : list (Z * ptr)) (s : Sched) : Sched :=
  MkSched (tasks s) (current s) (runq s) (parked s) (pool s) (main_task s) (main_done s) r (count s) (reports s).
Definition set_count (c : Counter) (n : Z) (s : Sched) : Sched :=
  MkSched (tasks s) (current s) (runq s) (parked s) (pool s) (main_task s) (main_done s) (reg s)
    (fun d => if decide (d = c) then n else count s d) (reports s).
Definition set_reports (r : list Z) (s : Sched) : Sched :=
  MkSched (tasks s) (current s) (runq s) (parked s) (pool s) (main_task s) (main_done s) (reg s) (count s) r.

Definition upd (p : ptr) (f : Task -> Task) (s : Sched) : Sched := set_tasks (alter f p (tasks s)) s.
Definition add (c : Counter) (n : Z) (s : Sched) : Sched := set_count c (count s c + n) s.
(** [if (n > peak) peak = n]. *)
Definition raise_peak (c peak : Counter) (s : Sched) : Sched :=
  if count s peak <? count s c then set_count peak (count s c) s else s.

Definition next_of (p : ptr) (s : Sched) : option ptr := match tasks s !! p with Some t => next t | None => None end.

(** ** Intrusive queues *)

Definition runq_append (p : ptr) (s : Sched) : Sched :=
  let s := upd p (set_next None) s in
  let s := match q_tail (runq s) with
           | Some q => upd q (set_next (Some p)) s
           | None => set_runq (MkQueue (Some p) (q_tail (runq s))) s
           end in
  set_runq (MkQueue (q_head (runq s)) (Some p)) s.

Definition runq_pop (s : Sched) : option ptr * Sched :=
  match q_head (runq s) with
  | None => (None, s)
  | Some p =>
      let h := next_of p s in
      let s := set_runq (MkQueue h (match h with None => None | Some _ => q_tail (runq s) end)) s in
      (Some p, upd p (set_next None) s)
  end.

Definition parked_append (p : ptr) (s : Sched) : Sched :=
  let s := upd p (set_next None) s in
  let s := match q_tail (parked s) with
           | Some q => upd q (set_next (Some p)) s
           | None => set_parked (MkQueue (Some p) (q_tail (parked s))) s
           end in
  set_parked (MkQueue (q_head (parked s)) (Some p)) s.

(** Unlink [p], whose predecessor in the parked list is [prev]: the pointer
    surgery of [parked_remove] and of [poll_parked]. *)
Definition parked_unlink (prev : option ptr) (p : ptr) (nx : option ptr) (s : Sched) : Sched :=
  let s := match prev with
           | Some q => upd q (set_next nx) s
           | None => set_parked (MkQueue nx (q_tail (parked s))) s
           end in
  if decide (q_tail (parked s) = Some p) then set_parked (MkQueue (q_head (parked s)) prev) s else s.

(** The search of [parked_remove]; [fuel] bounds the length of the list. *)
Fixpoint parked_search (fuel : nat) (prev it : option ptr) (p : ptr) (s : Sched) : option Sched :=
  match fuel, it with
  | S f, Some i =>
      if decide (i = p) then
        let s := parked_unlink prev i (next_of i s) s in
        Some (add NParked (-1) (upd i (set_next None) s))
      else parked_search f it (next_of i s) p s
  | _, _ => None
  end.
Definition list_fuel (s : Sched) : nat := S (size (tasks s)).
Definition parked_remove (p : ptr) (s : Sched) : option Sched :=
  parked_search (list_fuel s) None (q_head (parked s)) p s.

(** ** The registry *)

Definition tid_of (p : ptr) (s : Sched) : Z := match tasks s !! p with Some t => tid t | None => 0 end.

Definition reg_add (p : ptr) (s : Sched) : Sched :=
  upd p (set_registered true) (set_reg (reg s ++ [(tid_of p s, p)]) s).

Fixpoint reg_lookup (id : Z) (l : list (Z * ptr)) : option ptr :=
  match l with [] => None | (i, p) :: l' => if i =? id then Some p else reg_lookup id l' end.
Definition reg_find (id : Z) (s : Sched) : option ptr := reg_lookup id (reg s).

(** [reg[i] = reg[--reg_len]]. *)
Definition swap_pop {A} (i : nat) (l : list A) : list A :=
  match last l with Some x => take (length l - 1) (<[i := x]> l) | None => l end.
Fixpoint reg_index (p : ptr) (l : list (Z * ptr)) : option nat :=
  match l with [] => None | (_, q) :: l' => if decide (q = p) then Some O else S <$> reg_index p l' end.
Definition reg_remove (p : ptr) (s : Sched) : Sched :=
  upd p (set_registered false)
    (match reg_index p (reg s) with Some i => set_reg (swap_pop i (reg s)) s | None => s end).

(** ** Spawning *)

Definition throwing_now (w : W) : bool := match e_throwing E with Some f => f w | None => false end.

(** [calloc] and [mmap]: an address that is not in use. *)
Definition fresh_task (l : L) (n : Z) : Task :=
  MkTask None no_park (FFresh l) RUNNABLE LV_PARK_SETTLED 0 false 0 false n.

Definition lv_task_spawn (l : L) (w : W) (s : Sched) : option Sched :=
  if throwing_now w then None
  else
    let '(p, s) := match pool s with
                   | Some p => (p, add NPooled (-1) (set_pool (next_of p s) s))
                   | None => (fresh (dom (tasks s)), add NMapped 1 s)
                   end in
    let s := add NSpawned 1 s in
    let s := set_tasks (<[p := fresh_task l (count s NSpawned)]> (tasks s)) s in
    Some (raise_peak NLive NPeakLive (add NLive 1 (runq_append p s))).

Definition lv_task_spawn_registered (l : L) (w : W) (s : Sched) : option (Z * Sched) :=
  match lv_task_spawn l w s with
  | Some s => match q_tail (runq s) with
              | Some p => Some (tid_of p s, reg_add p s)
              | None => None
              end
  | None => None
  end.

(** ** Park keys *)

Definition join_all_done (ids : list Z) (s : Sched) : bool :=
  forallb (fun i => match reg_find i s with Some _ => false | None => true end) ids.

Definition poll_key (w : W) (k : option key) : bool :=
  match e_poll E, k with Some f, Some a => negb (f w a =? 0) | _, _ => false end.

(** [park_keys_settled]: the answer, and the task with [woke_ix] recorded. *)
Definition park_keys_settled (p : ptr) (w : W) (s : Sched) : bool * Sched :=
  match tasks s !! p with
  | None => (false, s)
  | Some t =>
      match join_ids (park t) with
      | Some ids => (join_all_done ids s, s)
      | None =>
          if poll_key w (parked_on (park t)) then (true, upd p (set_woke_ix 0) s)
          else if poll_key w (parked_on2 (park t)) then (true, upd p (set_woke_ix 1) s)
          else (false, s)
      end
  end.

(** [park_common]: [Some r] when it returns at once, [None] when the task has
    left to the scheduler with [f] as its saved stack. *)
Definition park_common (p : ptr) (f : Frame) (w : W) (s : Sched) : option (option Z * Sched) :=
  if throwing_now w then None
  else
    match tasks s !! p with
    | None => None
    | Some t =>
        if cancelled t && (shield t =? 0) then
          Some (Some LV_PARK_CANCELLED,
                add NCancelWakes 1 (upd p (fun t => set_park no_park (set_cancelled false t)) s))
        else
          let s := upd p (fun t => set_frame f (set_tstate PARKED (set_woke_ix 0 (set_wake LV_PARK_SETTLED t)))) s in
          let s := add NParked 1 (parked_append p s) in
          Some (None, add NSwitches 1 (raise_peak NParked NPeakParked s))
    end.

(** Its tail, when the task is switched to again. *)
Definition park_resume (p : ptr) (s : Sched) : option (Z * Sched) :=
  match tasks s !! p with
  | None => None
  | Some t =>
      let r := wake_reason t in
      Some (r, upd p (fun t => set_park no_park (if r =? LV_PARK_CANCELLED then set_cancelled false t else t)) s)
  end.

(** ** Cancellation *)

Definition lv_task_cancel (id : Z) (w : W) (s : Sched) : Z * Sched :=
  match reg_find id s with
  | None => (0, s)
  | Some p =>
      match tasks s !! p with
      | None => (0, s)
      | Some t =>
          if cancelled t then (1, s)
          else
            let s := add NCancelled 1 (upd p (set_cancelled true) s) in
            match tstate t with
            | PARKED =>
                if shield t =? 0 then
                  let '(settled, s) := park_keys_settled p w s in
                  if settled then (1, s)
                  else match parked_remove p s with
                       | Some s =>
                           let s := upd p (fun t => set_tstate RUNNABLE (set_wake LV_PARK_CANCELLED t)) s in
                           (1, add NCancelWakes 1 (runq_append p s))
                       | None => (1, s)
                       end
                else (1, s)
            | _ => (1, s)
            end
      end
  end.

(** The counter is a [uint16_t]. *)
Definition lv_task_shield (delta : Z) (s : Sched) : option Sched :=
  match current s with
  | None => Some s
  | Some p =>
      match tasks s !! p with
      | None => Some s
      | Some t =>
          if 0 <? delta then Some (upd p (set_shield (wrap_u 16 (shield t + delta))) s)
          else if wrap_u 16 (- delta) <=? shield t then Some (upd p (set_shield (wrap_u 16 (shield t + delta))) s)
          else None
      end
  end.

(** ** Waking parked tasks *)

Definition uncancellable_ms (w : W) : Z :=
  match env_uncancellable E w with None | Some [] => 5000 | Some v => atoll v end.

Definition join_report_check (p : ptr) (w : W) (s : Sched) : Sched :=
  match tasks s !! p with
  | None => s
  | Some t =>
      let k := park t in
      if reported k || (park_ns k =? 0) then s
      else
        let ms := uncancellable_ms w in
        if (ms <=? 0) || (now_ns E w - park_ns k <? ms * 1000000) then s
        else
          let stuck := List.filter (fun i => match reg_find i s with
                                             | Some c => match tasks s !! c with Some tc => cancelled tc | None => false end
                                             | None => false
                                             end) (default [] (join_ids k)) in
          match stuck with
          | [] => s
          | _ => let s := upd p (set_park (MkPark (parked_on k) (parked_on2 k) (join_ids k) (park_ns k) true)) s in
                 set_reports (reports s ++ [Z.of_nat (length stuck)]) (add NReports 1 s)
          end
  end.

Definition is_join (p : ptr) (s : Sched) : bool :=
  match tasks s !! p with Some t => match join_ids (park t) with Some _ => true | None => false end | None => false end.

(** The loop of [poll_parked] from the task [it], with [prev] before it. *)
Fixpoint poll_from (fuel : nat) (prev it : option ptr) (w : W) (woke : bool) (s : Sched) : bool * Sched :=
  match fuel, it with
  | S f, Some p =>
      let nx := next_of p s in
      let '(settled, s) := park_keys_settled p w s in
      if settled then
        let s := add NParked (-1) (parked_unlink prev p nx s) in
        let s := upd p (fun t => set_tstate RUNNABLE (set_wake LV_PARK_SETTLED t)) s in
        poll_from f prev nx w true (runq_append p s)
      else poll_from f it nx w woke (if is_join p s then join_report_check p w s else s)
  | _, _ => (woke, s)
  end.
Definition poll_parked (w : W) (s : Sched) : bool * Sched :=
  poll_from (list_fuel s) None (q_head (parked s)) w false s.

Fixpoint drain_from (fuel : nat) (it : option ptr) (s : Sched) : Sched :=
  match fuel, it with
  | S f, Some p =>
      let nx := next_of p s in
      let s := upd p (fun t => set_tstate RUNNABLE (set_wake LV_PARK_DRAINED t)) s in
      drain_from f nx (add DrainedWakes 1 (runq_append p s))
  | _, _ => s
  end.
Definition drain_wake_all (s : Sched) : Sched :=
  let s := drain_from (list_fuel s) (q_head (parked s)) s in
  set_count NParked 0 (set_parked (MkQueue None None) s).

(** ** The carrier loop *)

(** Where the thread is: popping the run queue, on a task's stack, past the
    empty run queue, or returned ([gated]: by the throw gate). *)
Inductive Phase := Dispatch | OnTask (p : ptr) (l : L) (r : Reply) | Quiet | Exited (gated : bool).

Record Sys := MkSys { sch : Sched; world : W; phase : Phase }.

Definition pool_return (p : ptr) (s : Sched) : Sched :=
  let s := upd p (fun t => set_next (pool s) (set_tstate POOLED t)) s in
  add NPooled 1 (set_pool (Some p) s).

(** [switch_to] up to the point where the task's own code continues. *)
Definition switch_in (p : ptr) (s : Sched) (w : W) : option Sys :=
  match tasks s !! p with
  | None => None
  | Some t =>
      let s := add NSwitches 1 (set_current (Some p) (upd p (set_tstate RUNNING) s)) in
      match frame t with
      | FFresh l | FYield l => Some (MkSys s w (OnTask p l RUnit))
      | FPark l any2 =>
          match park_resume p s with
          | Some (r, s) =>
              let which := if any2 && (r =? LV_PARK_SETTLED) then Some (woke_ix t) else None in
              Some (MkSys s w (OnTask p l (RPark r which)))
          | None => None
          end
      | FDead => None
      end
  end.

(** Back on the scheduler's stack: the end of [switch_to] and the throw gate. *)
Definition switched_out (s : Sched) (w : W) : Sys :=
  MkSys (set_current None s) w (if throwing_now w then Exited true else Dispatch).

(** The trampoline after [fn] returned, then [switch_to]'s epilogue. *)
Definition finish (p : ptr) (s : Sched) (w : W) : Sys :=
  let s := if decide (main_task s = Some p) then set_main None true s else s in
  let s := match tasks s !! p with Some t => if registered t then reg_remove p s else s | None => s end in
  let s := upd p (fun t => set_frame FDead (set_tstate DONE t)) s in
  let s := add NSwitches 1 (add NLive (-1) (add NCompleted 1 s)) in
  switched_out (pool_return p s) w.

Definition lv_task_yield (p : ptr) (l : L) (s : Sched) : Sched :=
  add NSwitches 1 (runq_append p (upd p (fun t => set_frame (FYield l) (set_tstate RUNNABLE t)) s)).

(** A park: the answer at once, or the task has left. *)
Definition parking (p : ptr) (l : L) (any2 : bool) (w : W) (s : Sched) : option Sys :=
  match park_common p (FPark l any2) w s with
  | None => None
  | Some (Some r, s) => Some (MkSys s w (OnTask p l (RPark r None)))
  | Some (None, s) => Some (switched_out s w)
  end.

Definition lv_task_park_on (p : ptr) (l : L) (obj : option key) (w : W) (s : Sched) : option Sys :=
  parking p l false w (upd p (fun t => let k := park t in
    set_park (MkPark obj (parked_on2 k) (join_ids k) (park_ns k) (reported k)) t) s).
Definition lv_task_park_any2 (p : ptr) (l : L) (a b : option key) (w : W) (s : Sched) : option Sys :=
  parking p l true w (upd p (fun t => let k := park t in
    set_park (MkPark a b (join_ids k) (park_ns k) (reported k)) t) s).
Definition lv_task_park_join (p : ptr) (l : L) (ids : list Z) (w : W) (s : Sched) : option Sys :=
  if match ids with [] => true | _ => false end || join_all_done ids s
  then Some (MkSys s w (OnTask p l (RPark LV_PARK_SETTLED None)))
  else parking p l false w (upd p (fun t => let k := park t in
    set_park (MkPark (parked_on k) (parked_on2 k) (Some ids) (now_ns E w) (reported k)) t) s).

(** One call of the running task. *)
Definition exec (p : ptr) (c : Cmd L) (l : L) (w : W) (s : Sched) : option Sys :=
  match c with
  | CSpawn b => match lv_task_spawn b w s with Some s => Some (MkSys s w (OnTask p l RUnit)) | None => None end
  | CSpawnRegistered b =>
      match lv_task_spawn_registered b w s with
      | Some (n, s) => Some (MkSys s w (OnTask p l (RInt n)))
      | None => None
      end
  | CYield => Some (switched_out (lv_task_yield p l s) w)
  | CParkOn obj => lv_task_park_on p l obj w s
  | CParkAny2 a b => lv_task_park_any2 p l a b w s
  | CParkJoin ids => lv_task_park_join p l ids w s
  | CCancel id => let '(r, s) := lv_task_cancel id w s in Some (MkSys s w (OnTask p l (RInt r)))
  | CShield d => match lv_task_shield d s with Some s => Some (MkSys s w (OnTask p l RUnit)) | None => None end
  | CCompute => Some (MkSys s w (OnTask p l RUnit))
  | CReturn => Some (finish p s w)
  end.

Fixpoint spawn_all (ls : list L) (w : W) (s : Sched) : option Sched :=
  match ls with
  | [] => Some s
  | l :: ls' => match lv_task_spawn l w s with Some s => spawn_all ls' w s | None => None end
  end.

(** The loop had no work: over, or every parked task is woken drained. *)
Definition no_work (s : Sched) (w : W) : Sys :=
  match q_head (parked s) with
  | None => MkSys s w (Exited false)
  | Some _ => MkSys (drain_wake_all s) w Dispatch
  end.

(** Past the empty run queue: scan the parked tasks, else step the loop. *)
Definition quiet (s : Sched) (w : W) : option Sys :=
  let '(woke, s) := poll_parked w s in
  if woke then Some (MkSys s w Dispatch)
  else
    match e_loop_step E with
    | None => Some (no_work s w)
    | Some f =>
        let '(r, ls, w) := f w in
        match spawn_all ls w s with
        | None => None
        | Some s => Some (if r =? 0 then no_work s w else MkSys s w Dispatch)
        end
    end.

(** One step of the thread; [None] is a failed assertion. *)
Definition step (x : Sys) : option Sys :=
  match phase x with
  | Exited _ => Some x
  | Dispatch =>
      match runq_pop (sch x) with
      | (Some p, s) => switch_in p s (world x)
      | (None, s) => Some (MkSys s (world x) Quiet)
      end
  | Quiet => quiet (sch x) (world x)
  | OnTask p l r => let '(c, l, w) := body E l r (world x) in exec p c l w (sch x)
  end.

Fixpoint steps (n : nat) (x : Sys) : option Sys :=
  match n with O => Some x | S n => match step x with Some y => steps n y | None => None end end.

Definition empty_sched : Sched :=
  MkSched ∅ None (MkQueue None None) (MkQueue None None) None None false [] (fun _ => 0) [].

(** [lv_sched_run] up to its loop; then [steps]. *)
Definition lv_sched_run (l : L) (w : W) (s : Sched) : option Sys :=
  match current s with
  | Some _ => None
  | None =>
      match lv_task_spawn l w s with
      | Some s => Some (MkSys (set_main (q_tail (runq s)) false s) w Dispatch)
      | None => None
      end
  end.

(** [lv_sched_teardown]: the pooled tasks are unmapped and freed. *)
Fixpoint free_pool (fuel : nat) (it : option ptr) (s : Sched) : Sched :=
  match fuel, it with
  | S f, Some p =>
      let nx := next_of p s in
      let s := add NPooled (-1) (add NMapped (-1) s) in
      free_pool f nx (set_tasks (delete p (tasks s)) s)
  | _, _ => s
  end.
Definition lv_sched_teardown (s : Sched) : option Sched :=
  match current s with
  | Some _ => None
  | None => Some (set_reg [] (set_pool None (free_pool (list_fuel s) (pool s) s)))
  end.

End Sched.

(** ** The size of a stack *)

Definition LV_TASK_STACK_DEFAULT : Z := 2 ^ 20.
Definition LV_TASK_STACK_MIN : Z := 64 * 2 ^ 10.

(** [strtoull(s, &end, 10)]: [None] when no digits were read; a negative number
    is negated in [unsigned long long], an out-of-range one is its maximum. *)
Definition strtoull10 (s : str) : option Z :=
  let '(neg, rest) := match skip_spaces s with
                      | c :: s' => if eqc c "-" then (true, s') else if eqc c "+" then (false, s') else (false, c :: s')
                      | [] => (false, [])
                      end in
  match digits_prefix rest with
  | [] => None
  | ds => let v := digits_value ds in
          Some (if 2 ^ 64 <=? v then 2 ^ 64 - 1 else if (neg : bool) then wrap_u 64 (- v) else v)
  end.

(** The stack size [lv_sched_init] settles on: [(sz + pg - 1) & ~(pg - 1)]. *)
Definition page_round (pg sz : Z) : Z := Z.land (wrap_u 64 (sz + pg - 1)) (2 ^ 64 - 1 - (pg - 1)).
Definition default_stack (pg : Z) (env : option str) : Z :=
  page_round pg
    (match env with
     | Some (c :: s) =>
         match strtoull10 (c :: s) with
         | Some v => if 0 <? v then (if v <? LV_TASK_STACK_MIN then LV_TASK_STACK_MIN else v) else LV_TASK_STACK_DEFAULT
         | None => LV_TASK_STACK_DEFAULT
         end
     | _ => LV_TASK_STACK_DEFAULT
     end).
