(* ===== verification/TaskLists.v ===== *)
(** * The scheduler's intrusive lists

    The run queue, the parked list and the pool of [lv_task.c] are threaded
    through one [next] field.  [linked] says which lists they spell; each queue
    operation is the list operation its name promises as long as no task is on
    two lists, and leaves everything but the links alone ([same_info]). *)

From S2P Require Import Prelude TaskSched.

Local Open Scope Z_scope.

Section Lists.
Context {W L : Type}.

Abbreviation Task := (@Task L).
Abbreviation Sched := (@Sched L).

Implicit Types (s : Sched) (m : gmap ptr Task) (p q : ptr) (l : list ptr).

(** ** Linked lists *)

Fixpoint chain m (h : option ptr) l : Prop :=
  match l with
  | [] => h = None
  | p :: l' => h = Some p /\ exists t, m !! p = Some t /\ chain m (next t) l'
  end.

(** The lists, as the scheduler's fields spell them. *)
Record Lists := MkLists { l_run : list ptr; l_parked : list ptr; l_pool : list ptr }.

(** All tasks: on a list, or in the hands [x] of whoever is running. *)
Definition everyone (a : Lists) (x : list ptr) : list ptr := l_run a ++ l_parked a ++ l_pool a ++ x.

Record linked s (a : Lists) (x : list ptr) : Prop := {
  lk_run : chain (tasks s) (q_head (runq s)) (l_run a);
  lk_run_tail : q_tail (runq s) = last (l_run a);
  lk_parked : chain (tasks s) (q_head (parked s)) (l_parked a);
  lk_parked_tail : q_tail (parked s) = last (l_parked a);
  lk_pool : chain (tasks s) (pool s) (l_pool a);
  lk_nodup : NoDup (everyone a x);
  lk_dom : forall p, is_Some (tasks s !! p) <-> p ∈ everyone a x
}.

(** What a task holds besides its link. *)
Definition info m : gmap ptr Task := set_next None <$> m.
Definition same_info s s' : Prop := info (tasks s') = info (tasks s).

Lemma info_lookup m p : info m !! p = set_next None <$> m !! p.
Proof. apply lookup_fmap. Qed.

Lemma info_some m p t : m !! p = Some t -> info m !! p = Some (set_next None t).
Proof. intros H. by rewrite info_lookup, H. Qed.

Lemma info_is_some m m' p : info m' = info m -> is_Some (m' !! p) <-> is_Some (m !! p).
Proof. intros H. by rewrite <- (fmap_is_Some (set_next None) (m' !! p)), <- (fmap_is_Some (set_next None) (m !! p)), <- !info_lookup, H. Qed.

Lemma info_relink m p n : info (alter (set_next n) p m) = info m.
Proof.
  apply map_eq. intros q. rewrite !info_lookup. destruct (decide (q = p)) as [->|]; [|by rewrite lookup_alter_ne].
  rewrite lookup_alter_eq. by destruct (m !! p).
Qed.

Lemma same_info_upd p n s : same_info s (upd p (set_next n) s).
Proof. apply info_relink. Qed.

(** ** Segments *)

(** The links of [l] and the link that leaves it. *)
Lemma chain_ext m m' h l : (forall p, p ∈ l -> next <$> m' !! p = next <$> m !! p) -> chain m h l -> chain m' h l.
Proof.
  revert h. induction l as [|p l IH]; intros h Hx; cbn [chain]; [done|]. intros (-> & t & Ht & Hc). split; [done|].
  pose proof (Hx p (list_elem_of_here p l)) as Hp. rewrite Ht in Hp. destruct (m' !! p) as [t'|]; [|done].
  exists t'. split; [done|]. cbn in Hp. injection Hp as ->. apply IH; [|done]. intros q Hq. apply Hx. by right.
Qed.

Lemma chain_alter_ne m f p h l : p ∉ l -> chain m h l -> chain (alter f p m) h l.
Proof. intros Hp. apply chain_ext. intros q Hq. by rewrite lookup_alter_ne by (intros ->; done). Qed.

Lemma chain_fun m h l l' : chain m h l -> chain m h l' -> l = l'.
Proof.
  revert h l'. induction l as [|p l IH]; intros h [|p' l']; cbn [chain]; [done|by intros -> [? _]|by intros [-> _]|].
  intros (-> & t & Ht & Hc) (H & t' & Ht' & Hc'). injection H as <-. simplify_eq. f_equal. by apply (IH (next t)).
Qed.

Lemma chain_head m h l : chain m h l -> h = head l.
Proof. destruct l as [|p l]; cbn; [done|]. by intros [-> _]. Qed.

Lemma chain_in m h l p : chain m h l -> p ∈ l -> is_Some (m !! p).
Proof.
  revert h. induction l as [|q l IH]; intros h; cbn [chain]; [by intros _ ?%elem_of_nil|].
  intros (_ & t & Ht & Hc) [->|Hp]%elem_of_cons; [by exists t|]. by apply (IH (next t)).
Qed.

(** A chain through the middle. *)
Lemma chain_middle m h l1 p l2 : chain m h (l1 ++ p :: l2) -> exists t, m !! p = Some t /\ chain m (next t) l2.
Proof.
  revert h. induction l1 as [|q l1 IH]; intros h; cbn [app chain]; [intros (_ & t & ? & ?); by exists t|].
  intros (_ & t & _ & Hc). by apply (IH (next t)).
Qed.

(** Relinking the last task of a segment replaces what follows it. *)
Lemma chain_relink m h l1 q l2 l3 n : chain m h (l1 ++ q :: l2) -> q ∉ l1 -> chain m n l3 -> q ∉ l3 ->
  chain (alter (set_next n) q m) h (l1 ++ q :: l3).
Proof.
  revert h. induction l1 as [|x l1 IH]; intros h; cbn [app chain].
  - intros (-> & t & Ht & _) _ Hn Hq. split; [done|]. exists (set_next n t). rewrite lookup_alter_eq, Ht. split; [done|].
    by apply chain_alter_ne.
  - intros (-> & t & Ht & Hc) [Hx Hq]%not_elem_of_cons Hn Hq3. split; [done|]. exists t. rewrite lookup_alter_ne by done.
    split; [done|]. by apply IH.
Qed.

Lemma chain_single m p t : m !! p = Some t -> next t = None -> chain m (Some p) [p].
Proof. intros Hp Hn. split; [done|]. by exists t. Qed.

(** ** Appending *)

(** Both append functions: the new head and the new store. *)
Lemma chain_append m h l p : chain m h l -> p ∉ l -> is_Some (m !! p) ->
  let m1 := alter (set_next None) p m in
  match last l with
  | Some q => chain (alter (set_next (Some p)) q m1) h (l ++ [p])
  | None => chain m1 (Some p) (l ++ [p])
  end.
Proof.
  intros Hc Hp [t Ht] m1.
  assert (chain m1 (Some p) [p]) as H1 by (apply (chain_single m1 p (set_next None t)); [unfold m1; by rewrite lookup_alter_eq, Ht|done]).
  destruct (last l) as [q|] eqn:El.
  - apply last_Some in El as [l' ->]. apply not_elem_of_app in Hp as [Hp1 Hp2].
    rewrite <- app_assoc. cbn [app].
    assert (q <> p) as Hqp by (intros ->; apply Hp2; by left).
    destruct (decide (q ∈ l')) as [Hin|Hout].
    + exfalso. apply list_elem_of_split in Hin as (a & b & ->).
      (* a repeated task would make the chain infinite *)
      assert (forall l2 l3 n, chain m n (l2 ++ q :: l3) -> exists t, m !! q = Some t /\ chain m (next t) l3) as Hm
        by (intros ? ? ?; apply chain_middle).
      rewrite <- app_assoc in Hc. cbn [app] in Hc.
      destruct (Hm a (b ++ [q]) h Hc) as (t1 & Ht1 & Hc1).
      rewrite app_comm_cons, app_assoc in Hc.
      destruct (Hm (a ++ q :: b) [] h Hc) as (t2 & Ht2 & Hc2). simplify_eq.
      pose proof (chain_fun _ _ _ _ Hc1 Hc2) as Hl. by destruct b.
    + apply (chain_relink m1 h l' q [] [p]); [|done|done|by intros ->%list_elem_of_singleton].
      apply chain_alter_ne; [|done]. intros [?|?%list_elem_of_singleton]%elem_of_app; [done|by subst].
  - apply last_None in El as ->. exact H1.
Qed.

(** ** The operations on [linked] *)

Lemma linked_fields s s' a x : tasks s' = tasks s -> runq s' = runq s -> parked s' = parked s -> pool s' = pool s ->
  linked s a x -> linked s' a x.
Proof. intros H1 H2 H3 H4 []. split; rewrite ?H1, ?H2, ?H3, ?H4; done. Qed.

(** Updates that leave the links alone. *)
Lemma linked_upd p f s a x : (forall t, next (f t) = next t) -> linked s a x -> linked (upd p f s) a x.
Proof.
  intros Hf []. assert (forall q, next <$> alter f p (tasks s) !! q = next <$> tasks s !! q) as Hx.
  { intros q. destruct (decide (q = p)) as [->|]; [|by rewrite lookup_alter_ne]. rewrite lookup_alter_eq.
    destruct (tasks s !! p); cbn; by rewrite ?Hf. }
  split; cbn [upd set_tasks tasks runq parked pool]; try done; try (eapply chain_ext; [intros q _; apply Hx|done]).
  intros q. rewrite <- lk_dom0, <- (fmap_is_Some next), Hx. apply fmap_is_Some.
Qed.

Lemma everyone_perm a x a' x' : everyone a x ≡ₚ everyone a' x' ->
  (NoDup (everyone a x) <-> NoDup (everyone a' x')) /\ (forall p, p ∈ everyone a x <-> p ∈ everyone a' x').
Proof. intros H. split; [by rewrite H|intros p; by rewrite H]. Qed.

(** Moving a task between a list and the hand. *)
Lemma linked_perm s a x x' : x ≡ₚ x' -> linked s a x -> linked s a x'.
Proof.
  intros Hx []. assert (everyone a x ≡ₚ everyone a x') as He by (unfold everyone; by rewrite Hx).
  split; try done; [by rewrite <- He|]. intros p. by rewrite <- He.
Qed.

Lemma held_out s a p x : linked s a (p :: x) -> (p ∉ l_run a) /\ (p ∉ l_parked a) /\ (p ∉ l_pool a) /\ (p ∉ x) /\ is_Some (tasks s !! p).
Proof.
  intros []. assert (everyone a (p :: x) ≡ₚ p :: everyone a x) as He by (unfold everyone; solve_Permutation).
  assert (is_Some (tasks s !! p)) by (apply lk_dom0; rewrite He; by left).
  rewrite He in lk_nodup0. apply NoDup_cons in lk_nodup0 as [Hp _]. unfold everyone in Hp.
  apply not_elem_of_app in Hp as (? & (? & (? & ?)%not_elem_of_app)%not_elem_of_app). done.
Qed.

(** The last task of one list is on no other. *)
Lemma last_apart s a x : linked s a x ->
  (forall q, last (l_run a) = Some q -> (q ∉ l_parked a) /\ (q ∉ l_pool a)) /\
  (forall q, last (l_parked a) = Some q -> (q ∉ l_run a) /\ (q ∉ l_pool a)).
Proof.
  intros []. unfold everyone in lk_nodup0. apply NoDup_app in lk_nodup0 as (_ & H1 & H). apply NoDup_app in H as (_ & H2 & _).
  split; intros q Hq%last_Some_elem_of.
  - specialize (H1 q Hq). apply not_elem_of_app in H1 as (? & (? & ?)%not_elem_of_app). done.
  - specialize (H2 q Hq). apply not_elem_of_app in H2 as [? ?]. split; [|done]. intros Hr. apply (H1 q Hr).
    apply elem_of_app. by left.
Qed.

Definition run_add (p : ptr) (a : Lists) : Lists := MkLists (l_run a ++ [p]) (l_parked a) (l_pool a).
Definition park_add (p : ptr) (a : Lists) : Lists := MkLists (l_run a) (l_parked a ++ [p]) (l_pool a).

(** The store after an append behind [q], and the queue. *)
Definition append_store m p (q : option ptr) : gmap ptr Task :=
  match q with
  | Some q => alter (set_next (Some p)) q (alter (set_next None) p m)
  | None => alter (set_next None) p m
  end.
Definition append_queue p (q : Queue) : Queue :=
  MkQueue (match q_tail q with Some _ => q_head q | None => Some p end) (Some p).

Lemma runq_append_eq p s :
  runq_append p s = set_tasks (append_store (tasks s) p (q_tail (runq s))) (set_runq (append_queue p (runq s)) s).
Proof. unfold runq_append, append_queue. cbn [upd set_tasks runq]. by destruct (q_tail (runq s)). Qed.

Lemma parked_append_eq p s :
  parked_append p s = set_tasks (append_store (tasks s) p (q_tail (parked s))) (set_parked (append_queue p (parked s)) s).
Proof. unfold parked_append, append_queue. cbn [upd set_tasks parked]. by destruct (q_tail (parked s)). Qed.

Lemma chain_append_other m h l l' p : chain m h l -> p ∉ l -> (forall q, last l' = Some q -> q ∉ l) ->
  chain (append_store m p (last l')) h l.
Proof.
  intros Hc Hp Hq. assert (chain (alter (set_next None) p m) h l) by by apply chain_alter_ne. unfold append_store.
  destruct (last l') as [q|]; [|done]. apply chain_alter_ne; auto.
Qed.

Lemma info_append m p (q : option ptr) : info (append_store m p q) = info m.
Proof. destruct q; cbn [append_store]; by rewrite ?info_relink. Qed.

Lemma linked_runq_append s a x p : linked s a (p :: x) -> linked (runq_append p s) (run_add p a) x.
Proof.
  intros H. destruct (held_out _ _ _ _ H) as (H1 & H2 & H3 & _ & Hs). destruct (last_apart _ _ _ H) as [Ha _].
  destruct H as [Hr Ht Hk Hkt Hp Hn Hd]. rewrite runq_append_eq, Ht.
  assert (everyone (run_add p a) x ≡ₚ everyone a (p :: x)) as He by (unfold everyone, run_add; cbn; solve_Permutation).
  split; cbn [set_tasks set_runq tasks runq parked pool q_head q_tail append_queue run_add l_run l_parked l_pool].
  - pose proof (chain_append _ _ _ _ Hr H1 Hs) as Hc. rewrite Ht. by destruct (last (l_run a)).
  - by rewrite last_snoc.
  - apply chain_append_other; try done. intros q Hq. by apply (Ha q).
  - done.
  - apply chain_append_other; try done. intros q Hq. by apply (Ha q).
  - by rewrite He.
  - intros q. rewrite (info_is_some _ _ q (info_append _ p _)), He. apply Hd.
Qed.

Lemma linked_parked_append s a x p : linked s a (p :: x) -> linked (parked_append p s) (park_add p a) x.
Proof.
  intros H. destruct (held_out _ _ _ _ H) as (H1 & H2 & H3 & _ & Hs). destruct (last_apart _ _ _ H) as [_ Ha].
  destruct H as [Hr Ht Hk Hkt Hp Hn Hd]. rewrite parked_append_eq, Hkt.
  assert (everyone (park_add p a) x ≡ₚ everyone a (p :: x)) as He by (unfold everyone, park_add; cbn; solve_Permutation).
  split; cbn [set_tasks set_parked tasks runq parked pool q_head q_tail append_queue park_add l_run l_parked l_pool].
  - apply chain_append_other; try done. intros q Hq. by apply (Ha q).
  - done.
  - pose proof (chain_append _ _ _ _ Hk H2 Hs) as Hc. rewrite Hkt. by destruct (last (l_parked a)).
  - by rewrite last_snoc.
  - apply chain_append_other; try done. intros q Hq. by apply (Ha q).
  - by rewrite He.
  - intros q. rewrite (info_is_some _ _ q (info_append _ p _)), He. apply Hd.
Qed.

(** ** What a queue operation leaves alone *)

Record relinked s s' : Prop := {
  rl_info : info (tasks s') = info (tasks s);
  rl_current : current s' = current s;
  rl_main : main_task s' = main_task s;
  rl_done : main_done s' = main_done s;
  rl_reg : reg s' = reg s;
  rl_count : count s' = count s;
  rl_reports : reports s' = reports s
}.

Lemma relinked_refl s : relinked s s.
Proof. by split. Qed.

Lemma relinked_trans s1 s2 s3 : relinked s1 s2 -> relinked s2 s3 -> relinked s1 s3.
Proof. intros [] []. split; congruence. Qed.

Lemma relinked_upd p n s : relinked s (upd p (set_next n) s).
Proof. split; try done. apply info_relink. Qed.

Lemma relinked_runq (q : Queue) s : relinked s (set_runq q s).
Proof. by split. Qed.

Lemma relinked_parked (q : Queue) s : relinked s (set_parked q s).
Proof. by split. Qed.

Lemma relinked_pool (q : option ptr) s : relinked s (set_pool q s).
Proof. by split. Qed.

Lemma relinked_runq_append p s : relinked s (runq_append p s).
Proof. rewrite runq_append_eq. split; try done. apply info_append. Qed.

Lemma relinked_parked_append p s : relinked s (parked_append p s).
Proof. rewrite parked_append_eq. split; try done. apply info_append. Qed.

(** ** Taking a task off a list *)

Lemma next_of_chain s h l1 p l2 : chain (tasks s) h (l1 ++ p :: l2) -> chain (tasks s) (next_of p s) l2.
Proof. intros (t & Ht & Hc)%chain_middle. unfold next_of. by rewrite Ht. Qed.

Lemma linked_runq_pop s a x p rq : linked s a x -> l_run a = p :: rq ->
  exists s', runq_pop s = (Some p, s') /\ linked s' (MkLists rq (l_parked a) (l_pool a)) (p :: x) /\ relinked s s'.
Proof.
  intros [Hr Ht Hk Hkt Hp Hn Hd] Ea. unfold runq_pop. rewrite Ea in *. pose proof (chain_head _ _ _ Hr) as Hh.
  cbn in Hh. rewrite Hh in *. pose proof (next_of_chain s (Some p) [] p rq Hr) as Hc.
  eexists. split; [done|]. split; [|eapply relinked_trans; [apply relinked_runq|apply relinked_upd]].
  assert (everyone a x ≡ₚ p :: everyone (MkLists rq (l_parked a) (l_pool a)) x) as He
    by (unfold everyone; rewrite Ea; cbn; done).
  assert (everyone (MkLists rq (l_parked a) (l_pool a)) (p :: x) ≡ₚ everyone a x) as He'
    by (rewrite He; unfold everyone; cbn; solve_Permutation).
  pose proof Hn as Hpo. rewrite He in Hpo. apply NoDup_cons in Hpo as [Hpo _]. unfold everyone in Hpo. cbn in Hpo.
  apply not_elem_of_app in Hpo as (H1 & (H2 & (H3 & _)%not_elem_of_app)%not_elem_of_app).
  split; cbn [upd set_tasks set_runq tasks runq parked pool q_head q_tail l_run l_parked l_pool].
  - by apply chain_alter_ne.
  - destruct rq as [|q rq]; [by rewrite Hc|]. destruct Hc as [-> _]. rewrite Ht. done.
  - by apply chain_alter_ne.
  - done.
  - by apply chain_alter_ne.
  - by rewrite He'.
  - intros q. rewrite He', (info_is_some _ _ q (info_relink _ p None)). apply Hd.
Qed.

(** A list without its last task, with one, and around one. *)
Lemma last_middle l1 p l2 : NoDup (l1 ++ p :: l2) -> last (l1 ++ p :: l2) = Some p <-> l2 = [].
Proof.
  intros Hn. split; [|by intros ->; rewrite last_snoc]. destruct (last l2) as [q|] eqn:El.
  - apply last_Some in El as [l2' ->]. rewrite app_comm_cons, app_assoc, last_snoc. intros [= ->].
    apply NoDup_app in Hn as (_ & _ & [Hp _]%NoDup_cons). exfalso. apply Hp, elem_of_app. right. by left.
  - by apply last_None in El.
Qed.

Lemma last_without l1 p l2 : l2 <> [] -> last (l1 ++ p :: l2) = last (l1 ++ l2).
Proof.
  intros H. destruct (last l2) as [q|] eqn:El; [|by apply last_None in El].
  apply last_Some in El as [l ->]. by rewrite app_comm_cons, !app_assoc, !last_snoc.
Qed.

Lemma chain_unlink m h l1 p l2 n : chain m h (l1 ++ p :: l2) -> chain m n l2 -> NoDup (l1 ++ p :: l2) ->
  match last l1 with
  | Some q => chain (alter (set_next n) q m) h (l1 ++ l2)
  | None => chain m n (l1 ++ l2)
  end.
Proof.
  intros Hk Hc Hnk. destruct (last l1) as [q|] eqn:El; [|by apply last_None in El as ->].
  apply last_Some in El as [l ->]. rewrite <- app_assoc in Hk |- *. cbn [app] in Hk |- *.
  apply NoDup_app in Hnk as (Hnl & Hq & [_ Hn2]%NoDup_cons). apply NoDup_app in Hnl as (_ & Hql & _).
  apply (chain_relink _ _ l q (p :: l2) l2); [done| |done|].
  - intros Hin. apply (Hql q Hin). by left.
  - intros Hin. apply (Hq q); [apply elem_of_app; right; by left|by right].
Qed.

Definition without_parked (l1 l2 : list ptr) (a : Lists) : Lists := MkLists (l_run a) (l1 ++ l2) (l_pool a).

Lemma linked_unlink s a x l1 p l2 : linked s a x -> l_parked a = l1 ++ p :: l2 ->
  let s' := parked_unlink (last l1) p (next_of p s) s in
  linked s' (without_parked l1 l2 a) (p :: x) /\ relinked s s'.
Proof.
  intros [Hr Ht Hk Hkt Hp Hn Hd] Ea s'. rewrite Ea in *. pose proof (next_of_chain _ _ _ _ _ Hk) as Hc.
  assert (everyone (without_parked l1 l2 a) (p :: x) ≡ₚ everyone a x) as He
    by (unfold everyone; rewrite Ea; cbn; solve_Permutation).
  assert (NoDup (l1 ++ p :: l2)) as Hnk by (unfold everyone in Hn; rewrite Ea in Hn; by apply NoDup_app in Hn as (_ & _ & [? _]%NoDup_app)).
  assert (forall q, last l1 = Some q -> (q ∉ l_run a) /\ (q ∉ l_pool a)) as Hap.
  { intros q Hq%last_Some_elem_of. unfold everyone in Hn. rewrite Ea in Hn.
    apply NoDup_app in Hn as (_ & H1 & (_ & H2 & _)%NoDup_app).
    assert (q ∈ l1 ++ p :: l2) as Hin by (apply elem_of_app; by left). specialize (H2 q Hin).
    apply not_elem_of_app in H2 as [? _]. split; [|done]. intros Hr'. apply (H1 q Hr'). apply elem_of_app. by left. }
  set (s1 := match last l1 with Some q => upd q (set_next (next_of p s)) s
             | None => set_parked (MkQueue (next_of p s) (q_tail (parked s))) s end).
  assert (relinked s s1) as Hrel by (unfold s1; destruct (last l1); [apply relinked_upd|apply relinked_parked]).
  assert (chain (tasks s1) (q_head (parked s1)) (l1 ++ l2)) as Hck.
  { pose proof (chain_unlink _ _ _ _ _ _ Hk Hc Hnk) as H. unfold s1. by destruct (last l1). }
  assert (q_tail (parked s1) = last (l1 ++ p :: l2)) as Ht1 by (unfold s1; by destruct (last l1)).
  assert (chain (tasks s1) (q_head (runq s1)) (l_run a) /\ chain (tasks s1) (pool s1) (l_pool a)) as [Hcr Hcp].
  { unfold s1. destruct (last l1) as [q|] eqn:El; [|done]. destruct (Hap q eq_refl). split; by apply chain_alter_ne. }
  assert (s' = if decide (l2 = []) then set_parked (MkQueue (q_head (parked s1)) (last l1)) s1 else s1) as Hs'.
  { unfold s', parked_unlink. fold s1. rewrite Ht1. destruct (decide (l2 = [])) as [E|E].
    - by rewrite decide_True by by apply last_middle.
    - rewrite decide_False; [done|]. intros ?%last_middle; done. }
  assert (relinked s s') as Hrel' by (rewrite Hs'; destruct (decide (l2 = [])); [eapply relinked_trans; [done|apply relinked_parked]|done]).
  split; [|done].
  assert (tasks s' = tasks s1 /\ runq s' = runq s1 /\ pool s' = pool s1 /\ q_head (parked s') = q_head (parked s1) /\
          q_tail (parked s') = last (l1 ++ l2)) as (E0 & E2 & E3 & E4 & E5).
  { rewrite Hs'. destruct (decide (l2 = [])) as [->|E]; cbn; [by rewrite app_nil_r|].
    repeat split. by rewrite Ht1, last_without. }
  assert (runq s1 = runq s) as E1 by (unfold s1; by destruct (last l1)).
  split; rewrite ?E0, ?E2, ?E3, ?E4, ?E5; cbn [without_parked l_run l_parked l_pool]; try done.
  - by rewrite E1.
  - by rewrite He.
  - intros q. rewrite He, (info_is_some _ _ q (rl_info _ _ Hrel)). apply Hd.
Qed.

(** ** The bound on the walks *)

Lemma linked_size s a x : linked s a x -> size (tasks s) = length (everyone a x).
Proof.
  intros []. rewrite <- size_dom. assert (dom (tasks s) = list_to_set (everyone a x) :> gset ptr) as ->.
  { apply set_eq. intros p. by rewrite elem_of_dom, elem_of_list_to_set, lk_dom0. }
  by apply size_list_to_set.
Qed.

Lemma linked_fuel s a x : linked s a x -> (length (l_parked a) <= list_fuel s)%nat /\ (length (l_pool a) <= list_fuel s)%nat.
Proof. intros H. unfold list_fuel. rewrite (linked_size _ _ _ H). unfold everyone. rewrite !length_app. lia. Qed.

(** [parked_remove] finds a parked task and takes it off the list. *)
Lemma parked_search_spec fuel l1 l2 p s a x : linked s a x -> l_parked a = l1 ++ l2 -> p ∈ l2 -> (length l2 <= fuel)%nat ->
  exists la lb s', l_parked a = la ++ p :: lb /\
    parked_search fuel (last l1) (head l2) p s = Some (add NParked (-1) s') /\
    linked s' (without_parked la lb a) (p :: x) /\ relinked s s'.
Proof.
  revert l1 l2. induction fuel as [|f IH]; intros l1 l2 Hl Ea Hin Hlen; [by destruct l2; [apply elem_of_nil in Hin|cbn in Hlen; lia]|].
  destruct l2 as [|i l2]; [by apply elem_of_nil in Hin|]. cbn [parked_search head]. destruct (decide (i = p)) as [->|Hne].
  - destruct (linked_unlink s a x l1 p l2 Hl Ea) as [H1 H2]. cbv zeta in H1, H2. eexists l1, l2, _. split; [done|]. split; [done|].
    destruct (held_out _ _ _ _ H1) as (N1 & N2 & N3 & N4 & _).
    split; [|eapply relinked_trans; [exact H2|apply relinked_upd]].
    revert H1. set (s1 := parked_unlink _ _ _ _). intros [Hr Ht Hk Hkt Hp Hn Hd].
    split; cbn [upd set_tasks tasks runq parked pool]; try done; try by apply chain_alter_ne.
    intros q. rewrite (info_is_some _ _ q (info_relink _ p None)). apply Hd.
  - apply elem_of_cons in Hin as [->|Hin]; [done|].
    assert (next_of i s = head l2) as Hx by (eapply chain_head, next_of_chain; rewrite <- Ea; apply (lk_parked _ _ _ Hl)).
    rewrite Hx. destruct (IH (l1 ++ [i]) l2) as (la & lb & s' & H1 & H2 & H3); try done; [by rewrite <- app_assoc|cbn in Hlen; lia|].
    rewrite last_snoc in H2. by exists la, lb, s'.
Qed.

Lemma parked_remove_spec p s a x : linked s a x -> p ∈ l_parked a ->
  exists la lb s', l_parked a = la ++ p :: lb /\ parked_remove p s = Some (add NParked (-1) s') /\
    linked s' (without_parked la lb a) (p :: x) /\ relinked s s'.
Proof.
  intros Hl Hin. unfold parked_remove. rewrite (chain_head _ _ _ (lk_parked _ _ _ Hl)).
  apply (parked_search_spec _ [] (l_parked a)); [done..|]. apply (linked_fuel _ _ _ Hl).
Qed.

(** ** The pool and the store *)

Lemma linked_pool_pop s a x p pl : linked s a x -> l_pool a = p :: pl ->
  pool s = Some p /\ linked (set_pool (next_of p s) s) (MkLists (l_run a) (l_parked a) pl) (p :: x).
Proof.
  intros [Hr Ht Hk Hkt Hp Hn Hd] Ea. rewrite Ea in *. pose proof (next_of_chain s _ [] p pl Hp) as Hc.
  split; [by destruct Hp as [-> _]|].
  assert (everyone (MkLists (l_run a) (l_parked a) pl) (p :: x) ≡ₚ everyone a x) as He
    by (unfold everyone; rewrite Ea; cbn; solve_Permutation).
  split; cbn; try done; [by rewrite He|]. intros q. by rewrite He.
Qed.

Lemma linked_pool_push s a x p f : linked s a (p :: x) -> (forall t, next (f t) = pool s) ->
  linked (set_pool (Some p) (upd p f s)) (MkLists (l_run a) (l_parked a) (p :: l_pool a)) x.
Proof.
  intros Hl Hf. destruct (held_out _ _ _ _ Hl) as (N1 & N2 & N3 & N4 & t & Hs). destruct Hl as [Hr Ht Hk Hkt Hp Hn Hd].
  assert (everyone (MkLists (l_run a) (l_parked a) (p :: l_pool a)) x ≡ₚ everyone a (p :: x)) as He
    by (unfold everyone; cbn; solve_Permutation).
  split; cbn [upd set_tasks set_pool tasks runq parked pool l_run l_parked l_pool]; try done; try by apply chain_alter_ne.
  - split; [done|]. exists (f t). rewrite lookup_alter_eq, Hs. split; [done|]. rewrite Hf. by apply chain_alter_ne.
  - by rewrite He.
  - intros q. rewrite He, <- Hd. destruct (decide (q = p)) as [->|]; [|by rewrite lookup_alter_ne].
    rewrite lookup_alter_eq. apply fmap_is_Some.
Qed.

Lemma linked_write s a x p t : linked s a (p :: x) -> linked (set_tasks (<[p := t]> (tasks s)) s) a (p :: x).
Proof.
  intros Hl. destruct (held_out _ _ _ _ Hl) as (N1 & N2 & N3 & N4 & Hs). destruct Hl as [Hr Ht Hk Hkt Hp Hn Hd].
  assert (forall h l, p ∉ l -> chain (tasks s) h l -> chain (<[p := t]> (tasks s)) h l) as Hc.
  { intros h l Hp'. apply chain_ext. intros q Hq. by rewrite lookup_insert_ne by (intros ->; done). }
  split; cbn [set_tasks tasks runq parked pool]; auto.
  intros q. rewrite <- Hd. destruct (decide (q = p)) as [->|]; [|by rewrite lookup_insert_ne].
  rewrite lookup_insert_eq. split; [done|by eexists].
Qed.

Lemma linked_new s a x p t : linked s a x -> tasks s !! p = None -> linked (set_tasks (<[p := t]> (tasks s)) s) a (p :: x).
Proof.
  intros [Hr Ht Hk Hkt Hp Hn Hd] Hnone.
  assert (everyone a (p :: x) ≡ₚ p :: everyone a x) as He by (unfold everyone; solve_Permutation).
  assert (p ∉ everyone a x) as Hout by (intros [? ?]%Hd; congruence).
  assert (forall h l, chain (tasks s) h l -> chain (<[p := t]> (tasks s)) h l) as Hc.
  { intros h l Hl. eapply chain_ext; [|done]. intros q Hq. rewrite lookup_insert_ne; [done|]. intros <-.
    destruct (chain_in _ _ _ _ Hl Hq). congruence. }
  split; cbn [set_tasks tasks runq parked pool]; auto; [rewrite He; by apply NoDup_cons|].
  intros q. rewrite He, elem_of_cons, <- Hd. destruct (decide (q = p)) as [->|].
  - rewrite lookup_insert_eq. split; [by left|by eexists].
  - rewrite lookup_insert_ne by done. naive_solver.
Qed.

Lemma linked_free s a x p : linked s a (p :: x) -> linked (set_tasks (delete p (tasks s)) s) a x.
Proof.
  intros Hl. destruct (held_out _ _ _ _ Hl) as (N1 & N2 & N3 & N4 & Hs). destruct Hl as [Hr Ht Hk Hkt Hp Hn Hd].
  assert (everyone a (p :: x) ≡ₚ p :: everyone a x) as He by (unfold everyone; solve_Permutation).
  assert (forall h l, p ∉ l -> chain (tasks s) h l -> chain (delete p (tasks s)) h l) as Hc.
  { intros h l Hp'. apply chain_ext. intros q Hq. by rewrite lookup_delete_ne by (intros ->; done). }
  rewrite He in Hn. apply NoDup_cons in Hn as [Hout Hn].
  split; cbn [set_tasks tasks runq parked pool]; auto.
  intros q. specialize (Hd q). rewrite He, elem_of_cons in Hd. destruct (decide (q = p)) as [->|].
  - rewrite lookup_delete_eq. split; [by intros []|done].
  - rewrite lookup_delete_ne by done. naive_solver.
Qed.

End Lists.
