(* ===== verification/TaskInv.v ===== *)
(** * The scheduler's invariant

    A task is in exactly one place: on the run queue, parked, pooled, or
    running; its state says which, the registry holds exactly the live
    registered tasks under ids that are never reused, and the counters count.
    Each helper of [lv_task.c] keeps this ([wf]) and moves tasks between the
    lists in the way stated here. *)

From S2P Require Import Prelude TaskSched TaskLists.

Local Open Scope Z_scope.

Section Counters.
Context {L : Type}.
Implicit Types (s : @Sched L).

Lemma count_set c n s d : count (set_count c n s) d = if decide (d = c) then n else count s d.
Proof. done. Qed.

Lemma count_add c n s d : count (add c n s) d = if decide (d = c) then count s c + n else count s d.
Proof. done. Qed.

End Counters.

(** Read counters through the operations that do not move them. *)
Ltac counts :=
  repeat (rewrite count_add || rewrite count_set); repeat first [rewrite decide_True by done | rewrite decide_False by done].

Section Invariant.
Context {W L : Type} (E : Engine W L).

Abbreviation Task := (@Task L).
Abbreviation Sched := (@Sched L).

Implicit Types (s : Sched) (p q : ptr) (a : Lists) (x l : list ptr).

(** ** The invariant *)

Abbreviation look s p := (info (tasks s) !! p).

Definition runnable (t : Task) : Prop := tstate t = RUNNABLE /\ frame t <> FDead.
Definition is_parked (t : Task) : Prop := tstate t = PARKED /\ exists k b, frame t = FPark k b.

Definition all_are s (P : Task -> Prop) l : Prop := forall p, p ∈ l -> exists t, look s p = Some t /\ P t.

Record tagged s a : Prop := {
  tg_run : all_are s runnable (l_run a);
  tg_parked : all_are s is_parked (l_parked a);
  tg_pool : all_are s (fun t => tstate t = POOLED) (l_pool a)
}.

Definition live a x : list ptr := l_run a ++ l_parked a ++ x.

Record registry s a x : Prop := {
  rg_nodup : NoDup (reg s);
  rg_exact : forall i p, (i, p) ∈ reg s <-> p ∈ live a x /\ exists t, look s p = Some t /\ registered t = true /\ tid t = i;
  rg_ids : forall p t, p ∈ live a x -> look s p = Some t -> 0 < tid t <= count s NSpawned;
  rg_inj : forall p q tp tq, p ∈ live a x -> q ∈ live a x -> look s p = Some tp -> look s q = Some tq ->
    tid tp = tid tq -> p = q
}.

Record wf s a x : Prop := { wf_linked : linked s a x; wf_tagged : tagged s a; wf_registry : registry s a x }.

Record counted s a x : Prop := {
  ct_live : count s NLive = Z.of_nat (length (live a x));
  ct_parked : count s NParked = Z.of_nat (length (l_parked a));
  ct_pooled : count s NPooled = Z.of_nat (length (l_pool a));
  ct_mapped : count s NMapped = Z.of_nat (length (everyone a x));
  ct_completed : 0 <= count s NCompleted;
  ct_spawned : count s NSpawned = count s NCompleted + count s NLive;
  ct_peak_live : count s NLive <= count s NPeakLive;
  ct_peak_parked : count s NParked <= count s NPeakParked
}.

(** ** Changes that keep it *)

Lemma tagged_info s s' a : info (tasks s') = info (tasks s) -> tagged s a -> tagged s' a.
Proof. intros H []. split; unfold all_are; by rewrite H. Qed.

Lemma registry_info s s' a x : info (tasks s') = info (tasks s) -> reg s' = reg s -> count s' NSpawned = count s NSpawned ->
  registry s a x -> registry s' a x.
Proof. intros H1 H2 H3 []. split; rewrite ?H1, ?H2, ?H3; done. Qed.

Lemma registry_live s a x a' x' : live a x ≡ₚ live a' x' -> registry s a x -> registry s a' x'.
Proof.
  intros H []. assert (forall p, p ∈ live a' x' <-> p ∈ live a x) as He by (intros p; by rewrite H).
  split; try done; intros; rewrite ?He in *; eauto.
Qed.

Lemma wf_relinked s s' a x a' x' : relinked s s' -> linked s' a' x' -> live a x ≡ₚ live a' x' ->
  all_are s runnable (l_run a') -> all_are s is_parked (l_parked a') -> all_are s (fun t => tstate t = POOLED) (l_pool a') ->
  wf s a x -> wf s' a' x'.
Proof.
  intros [] Hl Hp H1 H2 H3 []. split; [done| |].
  - apply (tagged_info s); [done|]. by split.
  - apply (registry_live _ a x); [done|]. apply (registry_info s); congruence.
Qed.

Lemma wf_fields s s' a x : tasks s' = tasks s -> runq s' = runq s -> parked s' = parked s -> pool s' = pool s -> reg s' = reg s ->
  count s' NSpawned = count s NSpawned -> wf s a x -> wf s' a x.
Proof.
  intros H1 H2 H3 H4 H5 H6 [Hl Ht Hr]. split; [by apply (linked_fields s)|apply (tagged_info s); by rewrite ?H1|].
  apply (registry_info s); by rewrite ?H1.
Qed.

Lemma wf_set_count c n s a x : c <> NSpawned -> wf s a x -> wf (set_count c n s) a x.
Proof. intros Hc. apply wf_fields; try done. rewrite count_set. by rewrite decide_False. Qed.

Lemma wf_add c n s a x : c <> NSpawned -> wf s a x -> wf (add c n s) a x.
Proof. apply wf_set_count. Qed.

Lemma wf_raise_peak c d s a x : d <> NSpawned -> wf s a x -> wf (raise_peak c d s) a x.
Proof. intros Hd H. unfold raise_peak. destruct (_ <? _); [by apply wf_set_count|done]. Qed.

(** An update of one task, seen through [look]. *)
Lemma look_upd p f s q : (forall t, set_next None (f t) = f (set_next None t)) ->
  look (upd p f s) q = if decide (q = p) then f <$> look s p else look s q.
Proof.
  intros Hf. cbn [upd set_tasks tasks]. rewrite !info_lookup. destruct (decide (q = p)) as [->|]; [|by rewrite lookup_alter_ne].
  rewrite lookup_alter_eq. destruct (tasks s !! p); cbn; by rewrite ?Hf.
Qed.

(** Updates of what the invariant does not look at. *)
Record soft (f : Task -> Task) : Prop := {
  so_next : forall t, set_next None (f t) = f (set_next None t);
  so_link : forall t, next (f t) = next t;
  so_state : forall t, tstate (f t) = tstate t;
  so_frame : forall t, frame (f t) = frame t;
  so_reg : forall t, registered (f t) = registered t;
  so_id : forall t, tid (f t) = tid t
}.

Lemma registry_upd p f s a x : (forall t, set_next None (f t) = f (set_next None t)) ->
  (forall t, registered (f t) = registered t) -> (forall t, tid (f t) = tid t) -> registry s a x -> registry (upd p f s) a x.
Proof.
  intros Hf Hg Hi []. 
  assert (forall q, (fun t => (registered t, tid t)) <$> look (upd p f s) q = (fun t => (registered t, tid t)) <$> look s q) as Hx.
  { intros q. rewrite look_upd by done. destruct (decide (q = p)) as [->|]; [|done]. destruct (look s p); cbn; by rewrite ?Hg, ?Hi. }
  assert (forall q t, look (upd p f s) q = Some t -> exists t', look s q = Some t' /\ registered t' = registered t /\ tid t' = tid t) as Hd.
  { intros q t Ht. specialize (Hx q). rewrite Ht in Hx. destruct (look s q) as [t'|]; [|done]. exists t'. by injection Hx. }
  assert (forall q t, look s q = Some t -> exists t', look (upd p f s) q = Some t' /\ registered t' = registered t /\ tid t' = tid t) as Hu.
  { intros q t Ht. specialize (Hx q). rewrite Ht in Hx. destruct (look (upd p f s) q) as [t'|]; [|done]. exists t'. by injection Hx. }
  split; [done| | |].
  - intros i q. cbn [upd set_tasks reg]. rewrite rg_exact0. split; intros (Hq & t & Ht & Hr & Ht').
    + split; [done|]. destruct (Hu q t Ht) as (t' & ? & ? & ?). exists t'. split; [done|]. split; congruence.
    + split; [done|]. destruct (Hd q t Ht) as (t' & ? & ? & ?). exists t'. split; [done|]. split; congruence.
  - intros q t Hq (t' & Ht' & _ & <-)%Hd. by apply (rg_ids0 q).
  - intros q1 q2 t1 t2 H1 H2 (t1' & Ht1 & _ & <-)%Hd (t2' & Ht2 & _ & <-)%Hd. by apply rg_inj0.
Qed.

Lemma tagged_upd p f s a : (forall t, set_next None (f t) = f (set_next None t)) -> (forall t, tstate (f t) = tstate t) ->
  (forall t, frame (f t) = frame t) -> tagged s a -> tagged (upd p f s) a.
Proof.
  intros Hn Hs Hf [T1 T2 T3].
  assert (forall P : Task -> Prop, (forall t, P t -> P (f t)) -> forall l, all_are s P l -> all_are (upd p f s) P l) as Ha.
  { intros P HP l Hall q Hq. destruct (Hall q Hq) as (t & Ht & Hp). rewrite look_upd by done.
    destruct (decide (q = p)) as [->|]; [|by exists t]. rewrite Ht. exists (f t). split; [done|]. by apply HP. }
  split; (apply Ha; [|done]); intros t; unfold runnable, is_parked; by rewrite ?Hs, ?Hf.
Qed.

Lemma wf_soft p f s a x : soft f -> wf s a x -> wf (upd p f s) a x.
Proof. intros [] []. split; [by apply linked_upd|by apply tagged_upd|by apply registry_upd]. Qed.

(** Updates of a task in hand that keep its link and its identity. *)
Lemma wf_firm p f s a x : (forall t, set_next None (f t) = f (set_next None t)) -> (forall t, next (f t) = next t) ->
  (forall t, registered (f t) = registered t) -> (forall t, tid (f t) = tid t) -> wf s a (p :: x) -> wf (upd p f s) a (p :: x).
Proof.
  intros H1 H2 H3 H4 [Hl [T1 T2 T3] Hr]. destruct (held_out _ _ _ _ Hl) as (N1 & N2 & N3 & _).
  split; [by apply linked_upd| |by apply registry_upd].
  assert (forall (P : Task -> Prop) l, p ∉ l -> all_are s P l -> all_are (upd p f s) P l) as Ha.
  { intros P l Hp Hall q Hq. destruct (Hall q Hq) as (t & Ht & HP). rewrite look_upd, decide_False by (done || by intros ->). by exists t. }
  split; by apply Ha.
Qed.

(** ** Moves between the lists *)

Ltac live_perm := unfold live; cbn [l_run l_parked l_pool run_add park_add without_parked]; solve_Permutation.

Lemma all_are_sub s P l l' : (forall p, p ∈ l' -> p ∈ l) -> all_are s P l -> all_are s P l'.
Proof. intros H Ha p Hp. auto. Qed.

Lemma all_are_app s P l l' : all_are s P l -> all_are s P l' -> all_are s P (l ++ l').
Proof. intros H1 H2 p [Hp|Hp]%elem_of_app; auto. Qed.

Lemma all_are_one s (P : Task -> Prop) p t : look s p = Some t -> P t -> all_are s P [p].
Proof. intros H1 H2 q ->%list_elem_of_singleton. by exists t. Qed.

Lemma wf_runq_pop s a x : wf s a x ->
  match l_run a with
  | [] => runq_pop s = (None, s)
  | p :: rq => exists s' t, runq_pop s = (Some p, s') /\ wf s' (MkLists rq (l_parked a) (l_pool a)) (p :: x) /\ relinked s s' /\
      look s' p = Some t /\ runnable t
  end.
Proof.
  intros H. destruct (l_run a) as [|p rq] eqn:Ea.
  - pose proof (chain_head _ _ _ (lk_run _ _ _ (wf_linked _ _ _ H))) as Hh. rewrite Ea in Hh. unfold runq_pop. by rewrite Hh.
  - destruct (linked_runq_pop s a x p rq (wf_linked _ _ _ H) Ea) as (s' & E1 & Hl & Hr).
    destruct (wf_tagged _ _ _ H) as [T1 T2 T3]. destruct (T1 p) as (t & Ht & Hrun); [rewrite Ea; by left|].
    exists s', t. split; [done|]. rewrite (rl_info _ _ Hr). split; [|done].
    eapply (wf_relinked s _ a x); try done; cbn [l_run l_parked l_pool]; [unfold live; rewrite Ea; cbn; solve_Permutation|].
    eapply all_are_sub; [|exact T1]. intros q Hq. rewrite Ea. by right.
Qed.

Lemma wf_runq_append s a x p t : wf s a (p :: x) -> look s p = Some t -> runnable t -> wf (runq_append p s) (run_add p a) x.
Proof.
  intros H Ht Hp. destruct (wf_tagged _ _ _ H) as [T1 T2 T3].
  eapply (wf_relinked s _ a (p :: x)); try exact H; try done; [apply relinked_runq_append|by apply linked_runq_append, (wf_linked _ _ _ H)|live_perm|].
  apply all_are_app; [done|by apply (all_are_one _ _ _ t)].
Qed.

Lemma wf_parked_append s a x p t : wf s a (p :: x) -> look s p = Some t -> is_parked t -> wf (parked_append p s) (park_add p a) x.
Proof.
  intros H Ht Hp. destruct (wf_tagged _ _ _ H) as [T1 T2 T3].
  eapply (wf_relinked s _ a (p :: x)); try exact H; try done; [apply relinked_parked_append|by apply linked_parked_append, (wf_linked _ _ _ H)|live_perm|].
  apply all_are_app; [done|by apply (all_are_one _ _ _ t)].
Qed.

Lemma wf_without s s' a x l1 p l2 : wf s a x -> l_parked a = l1 ++ p :: l2 -> relinked s s' ->
  linked s' (without_parked l1 l2 a) (p :: x) -> wf s' (without_parked l1 l2 a) (p :: x).
Proof.
  intros H Ea Hr Hl. destruct (wf_tagged _ _ _ H) as [T1 T2 T3].
  eapply (wf_relinked s _ a x); try exact H; try done; [unfold live; rewrite Ea; cbn; solve_Permutation|].
  eapply all_are_sub; [|exact T2]. intros q. rewrite Ea. cbn. rewrite !elem_of_app, elem_of_cons. tauto.
Qed.

(** ** Spawning *)

(** The registry after a spawn: one more live task, under the next id. *)
Lemma registry_new s s' a x p t : registry s a x -> p ∉ live a x -> tasks s' = <[p := t]> (tasks s) -> reg s' = reg s ->
  registered t = false -> tid t = count s NSpawned + 1 -> count s' NSpawned = count s NSpawned + 1 ->
  0 <= count s NSpawned -> registry s' a (p :: x).
Proof.
  intros [] Hp Et Er Hreg Hid Hn H0.
  assert (forall q, q ∈ live a (p :: x) <-> q = p \/ q ∈ live a x) as Hlv.
  { intros q. assert (live a (p :: x) ≡ₚ p :: live a x) as -> by live_perm. apply elem_of_cons. }
  assert (look s' p = Some (set_next None t)) as Hlp by (rewrite Et; apply info_some, lookup_insert_eq).
  assert (forall q, q <> p -> look s' q = look s q) as Hlo by (intros q Hq; by rewrite Et, !info_lookup, lookup_insert_ne).
  assert (forall q, q ∈ live a x -> q <> p) as Hne by (intros q Hq ->; done).
  split.
  - by rewrite Er.
  - intros i q. rewrite Er, rg_exact0, Hlv. split.
    + intros (Hq & Ht). split; [by right|]. rewrite Hlo by auto. done.
    + intros ([->|Hq] & t' & Ht' & Hr & Hi); [rewrite Hlp in Ht'; simplify_eq; cbn in Hr; congruence|].
      split; [done|]. rewrite Hlo in Ht' by auto. by exists t'.
  - intros q t' [->|Hq]%Hlv Ht'; [rewrite Hlp in Ht'; simplify_eq; cbn; lia|].
    rewrite Hlo in Ht' by auto. specialize (rg_ids0 q t' Hq Ht'). lia.
  - intros q1 q2 t1 t2 [->|H1]%Hlv [->|H2]%Hlv E1 E2 Hids; [done| | |].
    + rewrite Hlp in E1. rewrite Hlo in E2 by auto. simplify_eq. cbn in Hids. specialize (rg_ids0 q2 t2 H2 E2). lia.
    + rewrite Hlp in E2. rewrite Hlo in E1 by auto. simplify_eq. cbn in Hids. specialize (rg_ids0 q1 t1 H1 E1). lia.
    + rewrite Hlo in E1 by auto. rewrite Hlo in E2 by auto. by apply (rg_inj0 q1 q2 t1 t2).
Qed.

(** A fresh task in hand. *)
Lemma wf_new s s' a x p t : linked s' a (p :: x) -> tagged s a -> registry s a x -> p ∉ live a x ->
  tasks s' = <[p := t]> (tasks s) -> reg s' = reg s -> registered t = false -> tid t = count s NSpawned + 1 ->
  count s' NSpawned = count s NSpawned + 1 -> 0 <= count s NSpawned -> wf s' a (p :: x).
Proof.
  intros Hl [T1 T2 T3] Hr Hp Et Er H1 H2 H3 H4. split; [done| |by apply (registry_new s _ _ _ _ t)].
  destruct (held_out _ _ _ _ Hl) as (N1 & N2 & N3 & _).
  assert (forall (P : Task -> Prop) l, p ∉ l -> all_are s P l -> all_are s' P l) as Ha.
  { intros P l Hn Hall q Hq. destruct (Hall q Hq) as (t' & Ht' & HP). exists t'. split; [|done].
    rewrite Et, info_lookup, lookup_insert_ne by (by intros ->). by rewrite <- info_lookup. }
  split; by apply Ha.
Qed.

Inductive spawned (p : ptr) (a : Lists) : Lists -> Prop :=
| spawned_pooled pl : l_pool a = p :: pl -> spawned p a (MkLists (l_run a ++ [p]) (l_parked a) pl)
| spawned_mapped : l_pool a = [] -> (p ∉ live a []) -> spawned p a (MkLists (l_run a ++ [p]) (l_parked a) []).

(** The list a spawn takes its task from, and the counters it moves. *)
Definition spawn_source s : ptr * Sched :=
  match pool s with
  | Some p => (p, add NPooled (-1) (set_pool (next_of p s) s))
  | None => (fresh (dom (tasks s)), add NMapped 1 s)
  end.

Definition pooled_or (m n : Z) s : Z := match pool s with Some _ => m | None => n end.

Lemma spawn_source_spec s a x k n : wf s a x -> 0 <= count s NSpawned -> n = count s NSpawned + 1 ->
  let '(p, s1) := spawn_source s in
  let s2 := add NSpawned 1 s1 in
  exists a1, spawned p a (run_add p a1) /\ wf (set_tasks (<[p := fresh_task k n]> (tasks s2)) s2) a1 (p :: x) /\
    (p ∉ live a x) /\ length (live a1 x) = length (live a x) /\
    count s1 NMapped = count s NMapped + pooled_or 0 1 s /\
    Z.of_nat (length (l_pool a1)) = Z.of_nat (length (l_pool a)) - pooled_or 1 0 s /\
    l_parked a1 = l_parked a /\
    count s1 NPooled = count s NPooled - pooled_or 1 0 s.
Proof.
  intros [Hl Ht Hr] H0 ->. unfold spawn_source, pooled_or. pose proof (chain_head _ _ _ (lk_pool _ _ _ Hl)) as Hh.
  destruct (l_pool a) as [|p pl] eqn:Ea; rewrite Hh; cbn [head].
  - set (p := fresh (dom (tasks s))). assert (tasks s !! p = None) as Hnone.
    { apply not_elem_of_dom. apply is_fresh. }
    assert (p ∉ live a x) as Hp.
    { intros Hin. assert (is_Some (tasks s !! p)) as [? ?]; [|congruence]. apply (lk_dom _ _ _ Hl).
      unfold everyone. rewrite Ea. unfold live in Hin. cbn. rewrite !elem_of_app in *. tauto. }
    exists a. split_and!; try done; try lia.
    + unfold run_add. rewrite Ea. apply spawned_mapped; [done|]. intros Hin. apply Hp. unfold live in *.
      rewrite app_nil_r in Hin. rewrite !elem_of_app in *. tauto.
    + eapply (wf_new s); try done. apply linked_new; [|done]. by apply (linked_fields s).
    + rewrite Ea. cbn [length]. lia.
    + counts. lia.
  - destruct (linked_pool_pop s a x p pl Hl Ea) as [_ Hl1].
    destruct (held_out _ _ _ _ Hl1) as (N1 & N2 & N3 & N4 & Hs). cbn in N1, N2.
    assert (p ∉ live a x) as Hp by (unfold live; rewrite !not_elem_of_app; done).
    exists (MkLists (l_run a) (l_parked a) pl). split_and!; try done; try (counts; cbn [count set_pool length]; lia).
    + exact (spawned_pooled p a pl Ea).
    + eapply (wf_new s); try done.
      * apply linked_write. eapply (linked_fields (set_pool (next_of p s) s)); done.
      * destruct Ht. split; try done. eapply all_are_sub; [|done]. intros q Hq. rewrite Ea. by right.
      * by apply (registry_live s a x).
    + cbn [l_pool length]. lia.
Qed.

Lemma count_raise_peak c d s e : count (raise_peak c d s) e = if decide (e = d) then Z.max (count s d) (count s c) else count s e.
Proof. unfold raise_peak. destruct (Z.ltb_spec (count s d) (count s c)); [rewrite count_set|]; case_decide; subst; lia. Qed.

Lemma raise_peak_tasks c d s : tasks (raise_peak c d s) = tasks s.
Proof. unfold raise_peak. by destruct (_ <? _). Qed.

(** The fields no list operation touches. *)
Record same_rest s s' : Prop := {
  sr_reg : reg s' = reg s;
  sr_current : current s' = current s;
  sr_main : main_task s' = main_task s;
  sr_done : main_done s' = main_done s
}.

Lemma same_rest_trans s1 s2 s3 : same_rest s1 s2 -> same_rest s2 s3 -> same_rest s1 s3.
Proof. intros [] []. split; congruence. Qed.

Lemma relinked_rest s s' : relinked s s' -> same_rest s s'.
Proof. by intros []. Qed.

Lemma add_rest c n s : same_rest s (add c n s).
Proof. done. Qed.

Lemma raise_peak_rest c d s : same_rest s (raise_peak c d s).
Proof. unfold raise_peak. by destruct (_ <? _). Qed.

(** Everything but the lists, the new task and the counters is as before. *)
Record spawn_post s s' a x p a' : Prop := {
  sp_lists : spawned p a a';
  sp_wf : wf s' a' x;
  sp_counted : counted s' a' x;
  sp_new : p ∉ live a x;
  sp_task : exists t, look s' p = Some t /\ registered t = false /\ tid t = count s' NSpawned;
  sp_other : forall q, q <> p -> look s' q = look s q;
  sp_rest : same_rest s s'
}.

Lemma counted_spawned s a x : counted s a x -> 0 <= count s NSpawned.
Proof. intros []. lia. Qed.

Lemma spawn_spec k w s s' a x : wf s a x -> counted s a x -> lv_task_spawn E k w s = Some s' ->
  exists p a', spawn_post s s' a x p a'.
Proof.
  intros Hwf Hct. unfold lv_task_spawn. destruct (throwing_now E w); [done|].
  pose proof (spawn_source_spec s a x k _ Hwf (counted_spawned _ _ _ Hct) eq_refl) as Hsp.
  fold (spawn_source s). destruct (spawn_source s) as [p s1] eqn:Es.
  assert (count s1 = count (spawn_source s).2 /\ reg s1 = reg s /\ current s1 = current s /\ main_task s1 = main_task s /\ main_done s1 = main_done s /\
    (forall c, c <> NPooled -> c <> NMapped -> count s1 c = count s c)) as (_ & Er & Ec & Em & Ed & En).
  { rewrite Es. split; [done|]. unfold spawn_source in Es. destruct (pool s); injection Es as <- <-; split_and!; try done;
      intros c Hc1 Hc2; by counts. }
  assert (count (add NSpawned 1 s1) NSpawned = count s NSpawned + 1) as EN by (counts; by rewrite En).
  rewrite EN. cbv zeta in Hsp. destruct Hsp as (a1 & H1 & H2 & H3 & H4 & H5 & H7 & H8 & H9).
  set (s2 := set_tasks _ _) in *. intros [= <-]. exists p, (run_add p a1).
  assert (look s2 p = Some (fresh_task k (count s NSpawned + 1))) as Hlk.
  { unfold s2. cbn [set_tasks tasks]. by rewrite (info_some _ _ _ (lookup_insert_eq _ _ _)). }
  assert (forall c, count s2 c = count (add NSpawned 1 s1) c) as E2 by done.
  assert (forall c, count (runq_append p s2) c = count (add NSpawned 1 s1) c) as E3
    by (intros c; by rewrite (rl_count _ _ (relinked_runq_append p s2))).
  split; try done.
  - apply wf_raise_peak; [done|]. apply wf_add; [done|]. apply (wf_runq_append _ _ _ _ _ H2 Hlk). by split.
  - destruct Hct. assert (length (live (run_add p a1) x) = S (length (live a x))) as EL.
    { rewrite <- H4. unfold live, run_add. cbn. rewrite !length_app. cbn. lia. }
    assert (length (everyone (run_add p a1) x) = S (length (live a x) + length (l_pool a1)))%nat as EE.
    { rewrite <- H4. unfold everyone, live, run_add. cbn. rewrite !length_app. cbn. lia. }
    assert (length (everyone a x) = length (live a x) + length (l_pool a))%nat as EA
      by (unfold everyone, live; rewrite !length_app; lia).
    assert (pooled_or 0 1 s = 1 - pooled_or 1 0 s) as EP by (unfold pooled_or; by destruct (pool s)).
    split; repeat first [rewrite count_raise_peak | rewrite E3 | progress counts];
      rewrite ?EL, ?EE, ?H5, ?H9, ?En by done; cbn [run_add l_parked l_pool]; rewrite ?H8; lia.
  - exists (fresh_task k (count s NSpawned + 1)). split; [|split; [done|]].
    + rewrite <- Hlk, <- (rl_info _ _ (relinked_runq_append p s2)). by rewrite raise_peak_tasks.
    + repeat first [rewrite count_raise_peak | rewrite E3 | progress counts]. by rewrite En.
  - intros q Hq. rewrite raise_peak_tasks. change (tasks (add NLive 1 ?z)) with (tasks z).
    rewrite (rl_info _ _ (relinked_runq_append p s2)). unfold s2. cbn [set_tasks tasks]. rewrite !info_lookup, lookup_insert_ne by done.
    unfold spawn_source in Es. destruct (pool s); by injection Es as <- <-.
  - apply (same_rest_trans _ s1); [by split|]. apply (same_rest_trans _ s2); [done|].
    eapply same_rest_trans; [apply relinked_rest, relinked_runq_append|].
    eapply same_rest_trans; [apply add_rest|apply raise_peak_rest].
Qed.

(** ** Joining and leaving the registry *)

Lemma registry_join p s a x t : registry s a x -> p ∈ live a x -> look s p = Some t -> registered t = false ->
  registry (reg_add p s) a x.
Proof.
  intros [] Hp Ht Hreg. set (f := @set_registered L true).
  assert (forall q, look (reg_add p s) q = if decide (q = p) then f <$> look s p else look s q) as Hl
    by (intros q; unfold reg_add; by rewrite look_upd).
  assert (tid_of p s = tid t) as Hid.
  { unfold tid_of. rewrite info_lookup in Ht. destruct (tasks s !! p); [|done]. cbn in Ht. by injection Ht as <-. }
  assert (reg (reg_add p s) = reg s ++ [(tid t, p)]) as Er by (cbn; by rewrite Hid).
  assert (forall q t', look (reg_add p s) q = Some t' -> exists t0, look s q = Some t0 /\ tid t0 = tid t') as Hd.
  { intros q t' Hq. rewrite Hl in Hq. case_decide; [subst|by exists t']. rewrite Ht in Hq. injection Hq as <-. by exists t. }
  split.
  - rewrite Er. apply NoDup_app. split; [done|]. split; [|apply NoDup_singleton].
    intros [i q] Hin [= -> ->]%list_elem_of_singleton. apply rg_exact0 in Hin as (_ & t' & Ht' & Hr' & _). simplify_eq. congruence.
  - intros i q. rewrite Er, elem_of_app, rg_exact0, list_elem_of_singleton, Hl. case_decide as Hq.
    + subst q. rewrite Ht. split.
      * intros [(_ & t' & Ht' & Hr' & _)|[= ->]]; [simplify_eq; congruence|]. split; [done|]. by exists (f t).
      * intros (_ & t' & [= <-] & _ & <-). by right.
    + split; [intros [?|[= ? ?]]; done|]. by left.
  - intros q t' Hq (t0 & Ht0 & <-)%Hd. by apply (rg_ids0 q).
  - intros q1 q2 t1 t2 H1 H2 (u1 & Hu1 & <-)%Hd (u2 & Hu2 & <-)%Hd. by apply rg_inj0.
Qed.

Lemma wf_reg_add p s a x t : wf s a x -> p ∈ live a x -> look s p = Some t -> registered t = false -> wf (reg_add p s) a x.
Proof.
  intros [Hl Ht Hr] Hp Hlk Hreg. split; [|apply tagged_upd; try done; by apply (tagged_info s)|by apply (registry_join p s a x t)].
  unfold reg_add. apply linked_upd; [done|]. by apply (linked_fields s).
Qed.

Lemma swap_pop_perm {A} (i : nat) (y : A) (l : list A) : l !! i = Some y -> l ≡ₚ y :: swap_pop i l.
Proof.
  intros Hi. unfold swap_pop. destruct (last l) as [z|] eqn:El; [|by apply last_None in El as ->].
  apply last_Some in El as [l' ->]. rewrite length_app. cbn [length]. replace (length l' + 1 - 1)%nat with (length l') by lia.
  destruct (decide (i < length l')%nat) as [Hlt|Hge].
  - rewrite lookup_app_l in Hi by done. rewrite insert_app_l by done. rewrite take_app_length' by by rewrite length_insert.
    destruct (list_elem_of_split_length l' i y Hi) as (k1 & k2 & -> & ->). rewrite insert_app_r_alt, Nat.sub_diag by done. cbn. solve_Permutation.
  - rewrite lookup_app_r in Hi by lia. apply lookup_lt_Some in Hi as Hlt'. cbn in Hlt'. assert (i - length l' = 0)%nat as E0 by lia.
    rewrite E0 in Hi. cbn in Hi. injection Hi as ->. rewrite insert_app_r_alt by lia. rewrite take_app_length. solve_Permutation.
Qed.

Lemma reg_index_some p (l : list (Z * ptr)) i : reg_index p l = Some i -> exists n, l !! i = Some (n, p).
Proof.
  revert i. induction l as [|[n q] l IH]; intros i; [done|]. cbn. destruct (decide (q = p)) as [->|]; [intros [= <-]; by exists n|].
  destruct (reg_index p l) as [j|]; [|done]. intros [= <-]. by apply IH.
Qed.

Lemma reg_index_none p (l : list (Z * ptr)) : reg_index p l = None -> forall n, (n, p) ∉ l.
Proof.
  induction l as [|[m q] l IH]; cbn; [intros _ n; apply not_elem_of_nil|]. destruct (decide (q = p)) as [->|]; [done|].
  destruct (reg_index p l); [done|]. intros _ i [[= -> ->]|Hn]%elem_of_cons; [done|]. by apply (IH eq_refl i).
Qed.

(** The entries that are left when [p] is removed. *)
Definition without_reg p s : list (Z * ptr) := match reg_index p (reg s) with Some i => swap_pop i (reg s) | None => reg s end.

Lemma without_reg_spec p s a x : registry s a x ->
  NoDup (without_reg p s) /\ (forall i q, (i, q) ∈ without_reg p s <-> (i, q) ∈ reg s /\ q <> p).
Proof.
  intros []. unfold without_reg. destruct (reg_index p (reg s)) as [i|] eqn:Ei.
  - apply reg_index_some in Ei as [n Hn]. pose proof (swap_pop_perm _ _ _ Hn) as Hp. rewrite Hp in rg_nodup0.
    apply NoDup_cons in rg_nodup0 as [Hout Hnd]. split; [done|].
    assert (forall e, e ∈ reg s <-> e = (n, p) \/ e ∈ swap_pop i (reg s)) as Hm by (intros e; rewrite <- elem_of_cons; by rewrite <- Hp).
    intros j q. rewrite Hm. split.
    + intros Hin. split; [by right|]. intros ->.
      destruct (proj1 (rg_exact0 j p) (proj2 (Hm _) (or_intror Hin))) as (_ & t & Ht & _ & Hid).
      destruct (proj1 (rg_exact0 n p) (proj2 (Hm _) (or_introl eq_refl))) as (_ & t' & Ht' & _ & Hid'). simplify_eq. done.
    + intros [[[= -> ->]|?] ?]; done.
  - split; [done|]. intros j q. split; [|by intros [? _]]. intros Hin. split; [done|]. intros ->. by apply (reg_index_none _ _ Ei j).
Qed.

(** A task in hand that leaves for good takes its registration with it. *)
Lemma registry_leave p s s' a x : registry s a (p :: x) -> p ∉ live a x -> (forall q, q <> p -> look s' q = look s q) ->
  count s' NSpawned = count s NSpawned -> reg s' = without_reg p s -> registry s' a x.
Proof.
  intros Hr Hp Hl Hn Er. destruct (without_reg_spec p s a (p :: x) Hr) as [H1 H2]. destruct Hr.
  assert (forall q, q ∈ live a (p :: x) <-> q = p \/ q ∈ live a x) as Hlv.
  { intros q. assert (live a (p :: x) ≡ₚ p :: live a x) as -> by live_perm. apply elem_of_cons. }
  assert (forall q, q ∈ live a x -> look s' q = look s q /\ q ∈ live a (p :: x)) as Hin.
  { intros q Hq. split; [apply Hl; by intros ->|]. apply Hlv. by right. }
  split.
  - by rewrite Er.
  - intros i q. rewrite Er, H2, rg_exact0, Hlv. split.
    + intros (([->|Hq] & Ht) & Hne); [done|]. rewrite (proj1 (Hin q Hq)). done.
    + intros (Hq & Ht). rewrite (proj1 (Hin q Hq)) in Ht. split; [|by intros ->]. split; [by right|done].
  - intros q t Hq Ht. destruct (Hin q Hq) as [E1 E2]. rewrite E1 in Ht. rewrite Hn. by apply (rg_ids0 q).
  - intros q1 q2 t1 t2 Hq1 Hq2. destruct (Hin q1 Hq1) as [-> ?], (Hin q2 Hq2) as [-> ?]. by apply rg_inj0.
Qed.

End Invariant.
