(* ===== verification/TaskWake.v ===== *)
(** * Waking parked tasks

    What [poll_parked], [drain_wake_all] and [lv_task_cancel] do to the lists:
    the settled tasks join the run queue in park order and only they do; a
    drain wakes everyone in park order; a cancel takes out the one task it
    names, unless its park has already settled. *)

From S2P Require Import Prelude TaskSched TaskLists TaskInv.

Local Open Scope Z_scope.

Section Wake.
Context {W L : Type} (E : Engine W L).

Abbreviation Task := (@Task L).
Abbreviation Sched := (@Sched L).
Abbreviation look s p := (info (tasks s) !! p).

Implicit Types (s : Sched) (p q : ptr) (a : Lists) (x l : list ptr) (w : W).

(** ** Settled parks *)

Definition settled_at s w p : bool := fst (park_keys_settled E p w s).

Definition keys (t : Task) := (parked_on (park t), parked_on2 (park t), join_ids (park t)).

Definition keys_settled s w (k : option key * option key * option (list Z)) : bool :=
  let '(k1, k2, j) := k in
  match j with Some ids => join_all_done ids s | None => poll_key E w k1 || poll_key E w k2 end.

Lemma settled_at_keys s w p : settled_at s w p = match keys <$> look s p with Some k => keys_settled s w k | None => false end.
Proof.
  unfold settled_at, park_keys_settled. rewrite info_lookup. destruct (tasks s !! p) as [t|]; [|done]. cbn.
  destruct (join_ids (park t)); [done|]. by destruct (poll_key E w (parked_on (park t))), (poll_key E w (parked_on2 (park t))).
Qed.

Lemma settled_at_ext s s' w p : reg s' = reg s -> keys <$> look s' p = keys <$> look s p -> settled_at s' w p = settled_at s w p.
Proof.
  intros H1 H2. rewrite !settled_at_keys, H2. destruct (keys <$> look s p) as [[[k1 k2] [ids|]]|]; [|done..]. cbn.
  unfold join_all_done, reg_find. by rewrite H1.
Qed.

Lemma soft_woke_ix n : soft (@set_woke_ix L n).
Proof. by split. Qed.
Lemma soft_wake n : soft (@set_wake L n).
Proof. by split. Qed.
Lemma soft_cancelled b : soft (@set_cancelled L b).
Proof. by split. Qed.
Lemma soft_shield n : soft (@set_shield L n).
Proof. by split. Qed.
Lemma soft_park k : soft (@set_park L k).
Proof. by split. Qed.

(** What touches only task [p]: its soft fields and the counters in [cs]. *)
Record touches (cs : list Counter) p s s' : Prop := {
  to_wf : forall a x, wf s a x -> wf s' a x;
  to_other : forall q, q <> p -> look s' q = look s q;
  to_keys : keys <$> look s' p = keys <$> look s p;
  to_state : tstate <$> look s' p = tstate <$> look s p;
  to_next : next_of p s' = next_of p s;
  to_rest : same_rest s s';
  to_count : forall c, c ∉ cs -> count s' c = count s c
}.

Lemma touches_refl cs p s : touches cs p s s.
Proof. by split. Qed.

Lemma next_of_upd p f s : (forall t, next (f t) = next t) -> next_of p (upd p f s) = next_of p s.
Proof. intros Hf. unfold next_of. cbn. rewrite lookup_alter_eq. destruct (tasks s !! p); cbn; by rewrite ?Hf. Qed.

Lemma touches_upd cs p f s : soft f -> (forall t, tasks s !! p = Some t -> keys (f t) = keys t) -> touches cs p s (upd p f s).
Proof.
  intros Hf Hk. split; try done.
  - intros a x. by apply wf_soft.
  - intros q Hq. rewrite look_upd by apply Hf. by rewrite decide_False.
  - cbn [upd set_tasks tasks]. rewrite !info_lookup, lookup_alter_eq. destruct (tasks s !! p) as [t|] eqn:Et; [|done].
    cbn. f_equal. exact (Hk t eq_refl).
  - rewrite look_upd by apply Hf. rewrite decide_True by done. destruct (look s p); [|done]. cbn. by rewrite (so_state _ Hf).
  - apply next_of_upd, Hf.
Qed.

Lemma settled_touches p w s : touches [] p s (park_keys_settled E p w s).2.
Proof.
  unfold park_keys_settled. destruct (tasks s !! p) as [t|]; [|apply touches_refl].
  destruct (join_ids (park t)); [apply touches_refl|].
  destruct (poll_key E w (parked_on (park t))); [by apply touches_upd; [apply soft_woke_ix|]|].
  destruct (poll_key E w (parked_on2 (park t))); [by apply touches_upd; [apply soft_woke_ix|]|apply touches_refl].
Qed.

Lemma report_touches p w s : touches [NReports] p s (join_report_check E p w s).
Proof.
  unfold join_report_check. destruct (tasks s !! p) as [t|] eqn:Et; [|apply touches_refl].
  destruct (reported (park t) || (park_ns (park t) =? 0)); [apply touches_refl|].
  destruct (_ || _); [apply touches_refl|]. destruct (List.filter _ _) as [|i st]; [apply touches_refl|].
  set (k := MkPark _ _ _ _ _).
  destruct (touches_upd [NReports] p (set_park k) s) as [H1 H2 H3 HS H4 H5 H6]; [apply soft_park|intros t' ?; by simplify_eq|].
  split; try done.
  - intros a x Hwf. eapply wf_fields; [..|apply (wf_add NReports 1), H1, Hwf]; done.
  - intros c Hc. cbn [set_reports count]. rewrite count_add, decide_False; [done|]. intros ->. apply Hc. by left.
Qed.

(** ** The scan *)

Abbreviation unsettled s w := (fun p => negb (settled_at s w p)).

Definition settle s w (l1 l2 : list ptr) a : Lists :=
  MkLists (l_run a ++ List.filter (settled_at s w) l2) (l1 ++ List.filter (unsettled s w) l2) (l_pool a).

Lemma filter_ext_in' {A} (f g : A -> bool) (l : list A) : (forall y, y ∈ l -> f y = g y) -> List.filter f l = List.filter g l.
Proof. intros H. apply filter_ext_in. intros y Hy. apply H. by apply list_elem_of_In. Qed.

(** One parked task taken off its list joins the run queue. *)
Lemma rewake r s s1 a x l1 p l2 : wf s a x -> l_parked a = l1 ++ p :: l2 -> relinked s s1 ->
  linked s1 (without_parked l1 l2 a) (p :: x) ->
  let s' := runq_append p (upd p (fun t => set_tstate RUNNABLE (set_wake r t)) (add NParked (-1) s1)) in
  wf s' (run_add p (without_parked l1 l2 a)) x /\ same_rest s s' /\ (forall q, q <> p -> look s' q = look s q) /\
  (forall c, count s' c = count (add NParked (-1) s) c).
Proof.
  intros Hwf Ea Hr Hl. pose proof (wf_without _ _ _ _ _ _ _ Hwf Ea Hr Hl) as Hwf1.
  destruct (tg_parked _ _ (wf_tagged _ _ _ Hwf) p) as (t & Ht & Hst & k & b & Hf);
    [rewrite Ea; apply elem_of_app; right; by left|].
  set (f := fun t : Task => set_tstate RUNNABLE (set_wake r t)). set (s2 := upd p f (add NParked (-1) s1)).
  assert (forall q, look s2 q = if decide (q = p) then f <$> look s p else look s q) as Hlk.
  { intros q. unfold s2. rewrite look_upd by done. change (tasks (add NParked (-1) s1)) with (tasks s1). by rewrite (rl_info _ _ Hr). }
  pose proof (relinked_runq_append p s2) as Hra. cbv zeta.
  split; [|split; [|split]].
  - apply (wf_runq_append _ _ _ _ (f t)).
    + apply wf_firm; try done. by apply wf_add.
    + rewrite Hlk, decide_True, Ht by done. done.
    + split; [done|]. cbn. by rewrite Hf.
  - eapply same_rest_trans; [apply (relinked_rest _ _ Hr)|]. by eapply same_rest_trans; [|apply relinked_rest, Hra].
  - intros q Hq. rewrite (rl_info _ _ Hra), Hlk. by rewrite decide_False.
  - intros c. rewrite (rl_count _ _ Hra). unfold s2. cbn [upd set_tasks count]. counts. by rewrite (rl_count _ _ Hr).
Qed.

Lemma wake_one r s a x l1 p l2 : wf s a x -> l_parked a = l1 ++ p :: l2 ->
  let s' := runq_append p (upd p (fun t => set_tstate RUNNABLE (set_wake r t)) (add NParked (-1) (parked_unlink (last l1) p (next_of p s) s))) in
  wf s' (run_add p (without_parked l1 l2 a)) x /\ same_rest s s' /\ (forall q, q <> p -> look s' q = look s q) /\
  (forall c, count s' c = count (add NParked (-1) s) c).
Proof. intros Hwf Ea. destruct (linked_unlink s a x l1 p l2 (wf_linked _ _ _ Hwf) Ea) as [Hl Hr]. by apply rewake. Qed.

Record polled (woke : bool) w (l1 l2 : list ptr) s a x (r : bool * Sched) : Prop := {
  pd_wf : wf r.2 (settle s w l1 l2 a) x;
  pd_rest : same_rest s r.2;
  pd_woke : r.1 = woke || existsb (settled_at s w) l2;
  pd_parked : count r.2 NParked = count s NParked - Z.of_nat (length (List.filter (settled_at s w) l2));
  pd_count : forall c, (c ∉ [NParked; NReports]) -> count r.2 c = count s c
}.

Lemma parked_next s a x l1 p l2 : wf s a x -> l_parked a = l1 ++ p :: l2 -> next_of p s = head l2.
Proof. intros H Ea. eapply chain_head, next_of_chain. rewrite <- Ea. apply (lk_parked _ _ _ (wf_linked _ _ _ H)). Qed.

(** The scan of the tasks behind [p] does not see what happened to [p]. *)
Lemma filters_ext s s' w p l : same_rest s s' -> (forall q, q <> p -> keys <$> look s' q = keys <$> look s q) -> (p ∉ l) ->
  List.filter (settled_at s' w) l = List.filter (settled_at s w) l /\
  List.filter (unsettled s' w) l = List.filter (unsettled s w) l /\ existsb (settled_at s' w) l = existsb (settled_at s w) l.
Proof.
  intros [Hr _ _ _] Hk Hp. assert (forall q, q ∈ l -> settled_at s' w q = settled_at s w q) as He.
  { intros q Hq. apply settled_at_ext; [done|]. apply Hk. by intros ->. }
  split_and!; [by apply filter_ext_in'|apply filter_ext_in'; intros q Hq; by rewrite He|].
  clear -He. induction l as [|y l IHl]; [done|]. cbn. rewrite He by by left. f_equal. apply IHl. intros q Hq. apply He. by right.
Qed.

Lemma poll_from_spec w fuel l1 l2 woke s a x : wf s a x -> l_parked a = l1 ++ l2 -> (length l2 <= fuel)%nat ->
  polled woke w l1 l2 s a x (poll_from E fuel (last l1) (head l2) w woke s).
Proof.
  revert l1 l2 woke s a. induction fuel as [|f IH]; intros l1 l2 woke s a Hwf Ea Hlen.
  { destruct l2; [|cbn in Hlen; lia]. split; cbn; try done; [|by destruct woke|lia].
    unfold settle. cbn. rewrite !app_nil_r in *. rewrite <- Ea. by destruct a. }
  destruct l2 as [|p l2]; [split; cbn; try done; [|by destruct woke|lia]; unfold settle; cbn; rewrite !app_nil_r in *; rewrite <- Ea; by destruct a|].
  cbn [poll_from head]. cbn in Hlen. pose proof (parked_next _ _ _ _ _ _ Hwf Ea) as Hnx.
  pose proof (settled_touches p w s) as [T1 T2 T3 _ T4 T5 T6]. assert (NoDup (l1 ++ p :: l2)) as Hnd.
  { pose proof (lk_nodup _ _ _ (wf_linked _ _ _ Hwf)) as H. unfold everyone in H. rewrite Ea in H.
    by apply NoDup_app in H as (_ & _ & (? & _)%NoDup_app). }
  assert (p ∉ l2) as Hout by (by apply NoDup_app in Hnd as (_ & _ & [? _]%NoDup_cons)).
  assert (settled_at s w p = (park_keys_settled E p w s).1) as Hset by done.
  destruct (park_keys_settled E p w s) as [b s0] eqn:Es. cbn [fst snd] in *. rewrite <- T4.
  destruct b; cbn match.
  - destruct (wake_one LV_PARK_SETTLED s0 a x l1 p l2 (T1 a x Hwf) Ea) as (H1 & H2 & H3 & H4). set (s1 := runq_append _ _) in *.
    rewrite T4, Hnx. destruct (IH l1 l2 true s1 (run_add p (without_parked l1 l2 a)) H1 eq_refl) as [G1 G2 G3 G4 G5]; [lia|].
    destruct (filters_ext s s1 w p l2) as (X1 & X2 & X3); [by eapply same_rest_trans|intros q Hq; by rewrite H3, T2|done|].
    split.
    + unfold settle in *. cbn [List.filter]. rewrite Hset. cbn [negb]. cbn in G1. rewrite X1, X2, <- app_assoc in G1. exact G1.
    + eapply same_rest_trans; [|exact G2]. by eapply same_rest_trans.
    + rewrite G3. cbn [existsb]. rewrite Hset. by rewrite orb_true_r.
    + rewrite G4, X1, H4. counts. cbn [List.filter]. rewrite Hset. cbn [length]. rewrite T6 by set_solver. lia.
    + intros c Hc. rewrite G5, H4 by done. rewrite count_add, decide_False by set_solver. apply T6. set_solver.
  - set (s1 := if is_join p s0 then _ else _).
    assert (touches [NReports] p s0 s1) as [U1 U2 U3 _ U4 U5 U6] by (unfold s1; destruct (is_join p s0); [apply report_touches|apply touches_refl]).
    rewrite T4, Hnx. destruct (IH (l1 ++ [p]) l2 woke s1 a (U1 _ _ (T1 _ _ Hwf))) as [G1 G2 G3 G4 G5]; [by rewrite <- app_assoc|lia|].
    destruct (filters_ext s s1 w p l2) as (X1 & X2 & X3); [by eapply same_rest_trans|intros q Hq; by rewrite U2, T2|done|].
    rewrite last_snoc in G1, G2, G3, G4, G5. split.
    + unfold settle in *. cbn [List.filter]. rewrite Hset. cbn [negb]. rewrite X1, X2, <- app_assoc in G1. exact G1.
    + eapply same_rest_trans; [|exact G2]. by eapply same_rest_trans.
    + rewrite G3, X3. cbn [existsb]. by rewrite Hset.
    + rewrite G4, X1, U6, T6 by set_solver. cbn [List.filter]. by rewrite Hset.
    + intros c Hc. rewrite G5, U6, T6 by set_solver. done.
Qed.

(** [poll_parked] moves exactly the settled tasks, in park order. *)
Lemma poll_parked_spec w s a x : wf s a x -> polled false w [] (l_parked a) s a x (poll_parked E w s).
Proof.
  intros H. unfold poll_parked. rewrite (chain_head _ _ _ (lk_parked _ _ _ (wf_linked _ _ _ H))).
  apply (poll_from_spec w _ [] (l_parked a)); [done|done|]. apply (linked_fuel _ _ _ (wf_linked _ _ _ H)).
Qed.

(** ** The drain *)

Lemma runq_append_set_parked p (q : Queue) s : runq_append p (set_parked q s) = set_parked q (runq_append p s).
Proof. by rewrite !runq_append_eq. Qed.

(** The walk does not read the parked list: it may as well be emptied first. *)
Lemma drain_from_set_parked fuel it (q : Queue) s : drain_from fuel it (set_parked q s) = set_parked q (drain_from fuel it s).
Proof.
  revert it s. induction fuel as [|f IH]; intros [p|] s; try done. cbn [drain_from].
  change (next_of p (set_parked q s)) with (next_of p s).
  change (upd p ?g (set_parked q s)) with (set_parked q (upd p g s)). rewrite runq_append_set_parked.
  change (add DrainedWakes 1 (set_parked q ?z)) with (set_parked q (add DrainedWakes 1 z)). apply IH.
Qed.

Lemma wf_hold_parked s a x : wf s a x -> wf (set_parked (MkQueue None None) s) (MkLists (l_run a) [] (l_pool a)) (l_parked a ++ x).
Proof.
  intros [[Hr Ht Hk Hkt Hp Hn Hd] [T1 T2 T3] Hg]. unfold everyone in *.
  assert (l_run a ++ [] ++ l_pool a ++ l_parked a ++ x ≡ₚ l_run a ++ l_parked a ++ l_pool a ++ x) as He by (cbn; solve_Permutation).
  split; [split; cbn; try done| |].
  - unfold everyone. cbn [l_run l_parked l_pool]. by rewrite He.
  - intros p. unfold everyone. cbn [l_run l_parked l_pool]. by rewrite He.
  - split; try done. by intros p ?%elem_of_nil.
  - apply (registry_live _ a x); [unfold live; cbn; solve_Permutation|]. by apply (registry_info s).
Qed.

Lemma drain_from_spec fuel l2 s a x : wf s a (l2 ++ x) -> l_parked a = [] -> chain (tasks s) (head l2) l2 -> all_are s is_parked l2 ->
  (length l2 <= fuel)%nat ->
  let s' := drain_from fuel (head l2) s in
  wf s' (MkLists (l_run a ++ l2) [] (l_pool a)) x /\ same_rest s s' /\ (forall c, c <> DrainedWakes -> count s' c = count s c).
Proof.
  revert l2 s a. induction fuel as [|f IH]; intros [|p l2] s a Hwf Ea Hc Hall Hlen; cbn [head] in *;
    try (cbn in Hlen; lia); try (cbn [drain_from]; rewrite app_nil_r, <- Ea; by destruct a).
  cbn [drain_from]. destruct Hc as (_ & t0 & Ht0 & Hc). assert (next_of p s = head l2) as -> by (unfold next_of; by rewrite Ht0, (chain_head _ _ _ Hc)).
  set (f' := fun t : Task => set_tstate RUNNABLE (set_wake LV_PARK_DRAINED t)). set (s1 := upd p f' s).
  destruct (Hall p) as (t & Ht & Hst & k & b & Hf); [by left|].
  assert (p ∉ l2 ++ x) as Hout by (cbn in Hwf; by destruct (held_out _ _ _ _ (wf_linked _ _ _ Hwf)) as (_ & _ & _ & ? & _)).
  apply not_elem_of_app in Hout as [Hout _].
  assert (look s1 p = Some (f' t)) as Hl1 by (unfold s1; rewrite look_upd, decide_True, Ht by done; done).
  assert (wf (runq_append p s1) (run_add p a) (l2 ++ x)) as Hwf2.
  { eapply wf_runq_append; [|exact Hl1|split; [done|by cbn; rewrite Hf]]. by apply wf_firm. }
  assert (forall q, last (l_run a) = Some q -> q ∉ l2) as Hrun.
  { intros q Hq%last_Some_elem_of Hin. pose proof (lk_nodup _ _ _ (wf_linked _ _ _ Hwf)) as Hn. unfold everyone in Hn.
    apply NoDup_app in Hn as (_ & Hn & _). apply (Hn q Hq). rewrite !elem_of_app. do 2 right. left. by right. }
  pose proof (relinked_runq_append p s1) as Hrl. cbv zeta.
  destruct (IH l2 (add DrainedWakes 1 (runq_append p s1)) (run_add p a)) as (G1 & G2 & G3).
  - by apply wf_add.
  - done.
  - change (tasks (add DrainedWakes 1 (runq_append p s1))) with (tasks (runq_append p s1)). rewrite runq_append_eq. cbn [set_tasks tasks].
    change (q_tail (runq s1)) with (q_tail (runq s)). rewrite (lk_run_tail _ _ _ (wf_linked _ _ _ Hwf)).
    apply chain_append_other; [|done|done]. rewrite <- (chain_head _ _ _ Hc). by apply chain_alter_ne.
  - intros q Hq. destruct (Hall q) as (t' & Ht' & Hp'); [by right|]. exists t'. split; [|done].
    change (tasks (add DrainedWakes 1 (runq_append p s1))) with (tasks (runq_append p s1)). rewrite (rl_info _ _ Hrl).
    unfold s1. rewrite look_upd, decide_False by (done || by intros ->). done.
  - cbn in Hlen. lia.
  - cbn [run_add l_run l_pool] in G1. rewrite <- app_assoc in G1. split; [exact G1|]. split.
    + eapply same_rest_trans; [|exact G2]. destruct (relinked_rest _ _ Hrl). by split.
    + intros c Hne. rewrite G3 by done. counts. by rewrite (rl_count _ _ Hrl).
Qed.

Lemma drain_wake_all_spec s a x : wf s a x ->
  let s' := drain_wake_all s in
  wf s' (MkLists (l_run a ++ l_parked a) [] (l_pool a)) x /\ same_rest s s' /\ count s' NParked = 0 /\
  (forall c, c <> DrainedWakes -> c <> NParked -> count s' c = count s c).
Proof.
  intros H. unfold drain_wake_all. rewrite <- drain_from_set_parked.
  pose proof (wf_linked _ _ _ H) as Hl. pose proof (lk_parked _ _ _ Hl) as Hk. rewrite (chain_head _ _ _ Hk) in Hk |- *.
  destruct (drain_from_spec (list_fuel s) (l_parked a) _ _ x (wf_hold_parked _ _ _ H)) as (G1 & G2 & G3); try done.
  - apply (tg_parked _ _ (wf_tagged _ _ _ H)).
  - apply (linked_fuel _ _ _ Hl).
  - cbv zeta. split; [by apply wf_set_count|]. split; [destruct G2; by split|]. split; [by counts|].
    intros c H1 H2. counts. by rewrite G3.
Qed.

(** ** Cancellation *)

Definition running (t : Task) : Prop := tstate t = RUNNING.

(** The registered task an id names, by where it is. *)
Lemma reg_find_some id s a x p : registry s a x -> reg_find id s = Some p ->
  p ∈ live a x /\ exists t, look s p = Some t /\ registered t = true /\ tid t = id.
Proof.
  intros Hr Hf. apply (rg_exact _ _ _ Hr). unfold reg_find in Hf. induction (reg s) as [|[i q] l IH]; [done|]. cbn in Hf.
  destruct (Z.eqb_spec i id) as [->|]; [injection Hf as ->; by left|]. right. auto.
Qed.

Inductive cancel_post w s a x s' : Prop :=
| cancel_marked : wf s' a x -> same_rest s s' -> (forall c, c <> NCancelled -> count s' c = count s c) ->
    (forall q, tstate <$> look s' q = tstate <$> look s q) -> cancel_post w s a x s'
| cancel_woken p l1 l2 : l_parked a = l1 ++ p :: l2 -> settled_at s w p = false ->
    wf s' (run_add p (without_parked l1 l2 a)) x -> same_rest s s' ->
    (forall c, c <> NCancelled -> c <> NCancelWakes -> count s' c = count (add NParked (-1) s) c) ->
    (forall q, q <> p -> tstate <$> look s' q = tstate <$> look s q) -> cancel_post w s a x s'.

Lemma touches_trans cs p s1 s2 s3 : touches cs p s1 s2 -> touches cs p s2 s3 -> touches cs p s1 s3.
Proof.
  intros [] []. split; try congruence; auto.
  - intros q Hq. rewrite to_other1, to_other0; done.
  - by eapply same_rest_trans.
  - intros c Hc. rewrite to_count1, to_count0; done.
Qed.

Lemma touches_states cs p s s' q : touches cs p s s' -> tstate <$> look s' q = tstate <$> look s q.
Proof. intros []. destruct (decide (q = p)) as [->|]; [done|]. by rewrite to_other0. Qed.

Lemma touches_marked p w s a x s' : touches [NCancelled] p s s' -> wf s a x -> cancel_post w s a x s'.
Proof.
  intros H Hwf. apply cancel_marked; [by apply (to_wf _ _ _ _ H)|apply (to_rest _ _ _ _ H)| |].
  - intros c Hc. apply (to_count _ _ _ _ H). by intros ->%list_elem_of_singleton.
  - intros q. by apply (touches_states _ _ _ _ q H).
Qed.

Lemma cancel_spec id w s a x : wf s a x -> all_are s running x -> cancel_post w s a x (lv_task_cancel E id w s).2.
Proof.
  intros Hwf Hrun. unfold lv_task_cancel. destruct (reg_find id s) as [p|] eqn:Ef; [|by apply cancel_marked].
  destruct (reg_find_some _ _ _ _ _ (wf_registry _ _ _ Hwf) Ef) as (Hp & t' & Ht' & _).
  destruct (tasks s !! p) as [t|] eqn:Et; [|by apply cancel_marked].
  destruct (cancelled t); [by apply cancel_marked|].
  set (s1 := add NCancelled 1 (upd p (set_cancelled true) s)).
  assert (touches [NCancelled] p s s1) as H1.
  { destruct (touches_upd [NCancelled] p (set_cancelled true) s) as [T1 T2 T3 TS T4 T5 T6]; [apply soft_cancelled|done|].
    split; try done; [intros a' x' H'; by apply wf_add, T1|].
    intros c Hc. unfold s1. rewrite count_add, decide_False; [done|]. intros ->. apply Hc. by left. }
  destruct (tstate t) eqn:Est; try by apply (touches_marked p).
  destruct (shield t =? 0); [|by apply (touches_marked p)].
  pose proof (settled_touches p w s1) as H2. assert (settled_at s1 w p = (park_keys_settled E p w s1).1) as Hset by done.
  rewrite (settled_at_ext s s1) in Hset by (apply (to_rest _ _ _ _ H1) || apply (to_keys _ _ _ _ H1)).
  destruct (park_keys_settled E p w s1) as [b s2] eqn:Es. cbn [fst snd] in Hset, H2.
  assert (touches [NCancelled] p s s2) as H3.
  { eapply touches_trans; [exact H1|]. destruct H2. split; try done. intros c _. apply to_count0, not_elem_of_nil. }
  destruct b; [by apply (touches_marked p)|].
  assert (p ∈ l_parked a) as Hin.
  { rewrite info_lookup, Et in Ht'. cbn in Ht'. injection Ht' as <-. unfold live in Hp. rewrite !elem_of_app in Hp.
    destruct Hp as [Hp|[Hp|Hp]]; [|done|].
    - destruct (tg_run _ _ (wf_tagged _ _ _ Hwf) p Hp) as (t2 & Ht2 & Hr2 & _). rewrite info_lookup, Et in Ht2. cbn in Ht2. simplify_eq. cbn in Hr2. congruence.
    - destruct (Hrun p Hp) as (t2 & Ht2 & Hr2). rewrite info_lookup, Et in Ht2. cbn in Ht2. simplify_eq. unfold running in Hr2. cbn in Hr2. congruence. }
  pose proof (to_wf _ _ _ _ H3 a x Hwf) as Hwf2.
  destruct (parked_remove_spec p s2 a x (wf_linked _ _ _ Hwf2) Hin) as (l1 & l2 & s3 & Ea & -> & Hl & Hrl). cbn [snd].
  destruct (rewake LV_PARK_CANCELLED s2 s3 a x l1 p l2 Hwf2 Ea Hrl Hl) as (G1 & G2 & G3 & G4).
  eapply (cancel_woken w s a x _ p l1 l2); [done|done|by apply wf_add| | |].
  - eapply same_rest_trans; [apply (to_rest _ _ _ _ H3)|]. destruct G2. by split.
  - intros c Hc1 Hc2. rewrite count_add, decide_False by done. rewrite G4, !count_add.
    assert (NParked ∉ [NCancelled]) as N1 by (by intros ?%list_elem_of_singleton).
    rewrite (to_count _ _ _ _ H3 _ N1). case_decide; [done|]. apply (to_count _ _ _ _ H3). by intros ->%list_elem_of_singleton.
  - intros q Hq. change (tasks (add NCancelWakes 1 ?z)) with (tasks z). rewrite G3 by done. apply (touches_states _ _ _ _ q H3).
Qed.

End Wake.
