(* ===== verification/TaskRun.v ===== *)
(** * The carrier loop against its specification

    [sched_step] is what the scheduler promises, on lists: first in, first out
    on the run queue; spawned, yielded, settled, cancelled and drained tasks go
    to its end; only settled or cancelled parks are woken while there is work,
    and all of them when there is none.  Every step of the code is a sequence
    of such events, from every state reachable from the empty scheduler. *)

From S2P Require Import Prelude TaskSched TaskLists TaskInv TaskWake.

Local Open Scope Z_scope.

(** ** Specification *)

Record AState := MkA { a_lists : Lists; a_cur : option ptr }.

Inductive Event :=
| EDispatch (p : ptr) | ESpawn (p : ptr) | EYield (p : ptr) | EPark (p : ptr) | ECancel (p : ptr) | EFinish (p : ptr)
| ESettle | EDrain.

Section Spec.
Context (settled : ptr -> bool).

Inductive sched_step : AState -> Event -> AState -> Prop :=
| st_dispatch p rq pk pl :
    sched_step (MkA (MkLists (p :: rq) pk pl) None) (EDispatch p) (MkA (MkLists rq pk pl) (Some p))
| st_spawn p a a' c : spawned p a a' -> sched_step (MkA a c) (ESpawn p) (MkA a' c)
| st_yield p a : sched_step (MkA a (Some p)) (EYield p) (MkA (run_add p a) None)
| st_park p a : sched_step (MkA a (Some p)) (EPark p) (MkA (park_add p a) None)
| st_cancel p l1 l2 a c : l_parked a = l1 ++ p :: l2 -> settled p = false ->
    sched_step (MkA a c) (ECancel p) (MkA (run_add p (without_parked l1 l2 a)) c)
| st_finish p rq pk pl : sched_step (MkA (MkLists rq pk pl) (Some p)) (EFinish p) (MkA (MkLists rq pk (p :: pl)) None)
| st_settle rq pk pl : existsb settled pk = true ->
    sched_step (MkA (MkLists rq pk pl) None) ESettle
      (MkA (MkLists (rq ++ List.filter settled pk) (List.filter (fun p => negb (settled p)) pk) pl) None)
| st_drain rq pk pl : existsb settled pk = false -> pk <> [] ->
    sched_step (MkA (MkLists rq pk pl) None) EDrain (MkA (MkLists (rq ++ pk) [] pl) None).

Inductive sched_steps : AState -> list Event -> AState -> Prop :=
| ss_nil a : sched_steps a [] a
| ss_cons a e b es c : sched_step a e b -> sched_steps b es c -> sched_steps a (e :: es) c.

End Spec.

(** Which events a phase of the loop may cause. *)
Definition allowed {L} (ph : @Phase L) (e : Event) : Prop :=
  match ph with
  | Dispatch => exists p, e = EDispatch p
  | OnTask p _ _ => match e with EYield q | EPark q | EFinish q => q = p | ESpawn _ | ECancel _ => True | _ => False end
  | Quiet => match e with ESettle | ESpawn _ | EDrain => True | _ => False end
  | Exited _ => False
  end.

Section Run.
Context {W L : Type} (E : Engine W L).

Abbreviation Task := (@Task L).
Abbreviation Sched := (@Sched L).
Abbreviation look s p := (info (tasks s) !! p).
Abbreviation held s := (option_list (current s)).

Implicit Types (s : Sched) (p q : ptr) (a : Lists) (x l : list ptr) (w : W).

(** ** The invariant of the loop *)

(** The engine's promise: a loop step without work has spawned nothing. *)
Definition idle_loop : Prop :=
  forall f w n ls w', e_loop_step E = Some f -> f w = (n, ls, w') -> n = 0 -> ls = [].

Record good (y : @Sys W L) a : Prop := {
  gd_wf : wf (sch y) a (held (sch y));
  gd_counted : counted (sch y) a (held (sch y));
  gd_running : all_are (sch y) running (held (sch y));
  gd_phase : match phase y with
             | OnTask p _ _ => current (sch y) = Some p
             | Quiet => current (sch y) = None /\ l_run a = []
             | Exited false => current (sch y) = None /\ l_parked a = [] /\ (idle_loop -> l_run a = [])
             | _ => current (sch y) = None
             end
}.

Definition view (y : @Sys W L) a : AState := MkA a (current (sch y)).

(** Counters: a move between lists keeps the totals. *)
Lemma counted_move s s' a a' x x' : counted s a x ->
  length (live a' x') = length (live a x) -> length (l_pool a') = length (l_pool a) ->
  count s' NParked = Z.of_nat (length (l_parked a')) ->
  (forall c, c ∈ [NLive; NPooled; NMapped; NSpawned; NCompleted; NPeakLive] -> count s' c = count s c) ->
  count s' NParked <= count s' NPeakParked -> counted s' a' x'.
Proof.
  intros [] H1 H2 H3 H4 H5.
  assert (length (everyone a' x') = length (everyone a x)) as He.
  { unfold everyone, live in *. rewrite !length_app in *. lia. }
  split; rewrite ?H1, ?H2, ?H3, ?He; rewrite ?H4 by set_solver; try done. lia.
Qed.

Lemma all_are_ext (P : Task -> Prop) s s' l : (forall q, q ∈ l -> look s' q = look s q) -> all_are s P l -> all_are s' P l.
Proof. intros H Ha p Hp. rewrite H by done. auto. Qed.

Lemma running_states s s' l : (forall q, q ∈ l -> tstate <$> look s' q = tstate <$> look s q) -> all_are s running l -> all_are s' running l.
Proof.
  intros H Ha p Hp. specialize (H p Hp). destruct (Ha p Hp) as (t & Ht & Hr). rewrite Ht in H.
  destruct (look s' p) as [t'|]; [|done]. exists t'. split; [done|]. unfold running in *. injection H as ->. done.
Qed.

(** ** Leaving the task *)

(** A park that leaves: the task joins the parked list. *)
Lemma park_common_spec p k b w s a x r s' : wf s a (p :: x) -> counted s a (p :: x) ->
  park_common E p (FPark k b) w s = Some (r, s') ->
  match r with
  | Some _ => wf s' a (p :: x) /\ counted s' a (p :: x) /\ (forall q, tstate <$> look s' q = tstate <$> look s q)
  | None => wf s' (park_add p a) x /\ counted s' (park_add p a) x
  end /\ same_rest s s'.
Proof.
  intros Hwf Hct. unfold park_common. destruct (throwing_now E w); [done|].
  destruct (held_out _ _ _ _ (wf_linked _ _ _ Hwf)) as (_ & _ & _ & _ & t & Et). rewrite Et.
  destruct (cancelled t && (shield t =? 0)); intros [= <- <-].
  - set (f := fun t : Task => set_park no_park (set_cancelled false t)). assert (soft f) as Hf by by split.
    split; [|done]. split; [apply wf_add; [done|]; by apply wf_soft|]. split.
    + destruct Hct. by split; counts.
    + intros q. change (tasks (add NCancelWakes 1 ?z)) with (tasks z). rewrite look_upd by done. case_decide; [subst|done].
      by destruct (look s p).
  - set (f := fun t : Task => set_frame (FPark k b) (set_tstate PARKED (set_woke_ix 0 (set_wake LV_PARK_SETTLED t)))).
    set (s1 := upd p f s). pose proof (relinked_parked_append p s1) as Hrl.
    assert (look s1 p = Some (set_next None (f t))) as Hl.
    { unfold s1. rewrite look_upd, decide_True, (info_some _ _ _ Et) by done. done. }
    assert (wf (parked_append p s1) (park_add p a) x) as Hwf1.
    { eapply wf_parked_append; [|exact Hl|split; [done|by exists k, b]]. by apply wf_firm. }
    assert (forall c, count (parked_append p s1) c = count s c) as Hcn by (intros c; by rewrite (rl_count _ _ Hrl)).
    split; [|destruct (relinked_rest _ _ Hrl); eapply same_rest_trans; [|apply add_rest]; eapply same_rest_trans; [|apply raise_peak_rest]; by split].
    split; [by apply wf_add; [done|]; apply wf_raise_peak; [done|]; apply wf_add|].
    eapply (counted_move s); [exact Hct| | | | |]; counts; rewrite ?count_raise_peak; counts; rewrite ?Hcn.
    + unfold live, park_add. cbn. rewrite !length_app. cbn. lia.
    + done.
    + destruct Hct. cbn [park_add l_parked]. rewrite length_app. cbn [length]. lia.
    + intros c Hc. rewrite count_add, decide_False by set_solver. rewrite count_raise_peak, decide_False by set_solver.
      rewrite count_add, decide_False by set_solver. apply Hcn.
    + lia.
Qed.

(** A task in hand is switched to. *)
Lemma switch_in_spec p s w a t y : wf s a [p] -> look s p = Some t -> runnable t -> current s = None ->
  switch_in p s w = Some y ->
  exists k r, y = MkSys (sch y) w (OnTask p k r) /\ wf (sch y) a [p] /\ all_are (sch y) running [p] /\ current (sch y) = Some p /\
    (forall c, c <> NSwitches -> count (sch y) c = count s c).
Proof.
  intros Hwf Hl [Hst Hfr] Hc. unfold switch_in. rewrite info_lookup in Hl. destruct (tasks s !! p) as [t'|] eqn:Et; [|done].
  cbn in Hl. injection Hl as <-. cbn in Hfr.
  set (s1 := add NSwitches 1 (set_current (Some p) (upd p (set_tstate RUNNING) s))).
  assert (wf s1 a [p]) as Hwf1.
  { apply wf_add; [done|]. eapply (wf_fields (upd p (set_tstate RUNNING) s)); try done. by apply wf_firm. }
  assert (tasks s1 !! p = Some (set_tstate RUNNING t')) as Et1 by (cbn; by rewrite lookup_alter_eq, Et).
  assert (all_are s1 running [p]) as Hrun1 by (eapply all_are_one; [by apply info_some|done]).
  assert (forall c, c <> NSwitches -> count s1 c = count s c) as Hcn by (intros c Hne; unfold s1; rewrite count_add, decide_False by done; done).
  destruct (frame t') as [k|k|k any2|] eqn:Ef; [| | |done].
  - intros [= <-]. by exists k, RUnit.
  - intros [= <-]. by exists k, RUnit.
  - unfold park_resume. rewrite Et1. intros [= <-]. eexists k, _. split; [done|]. cbn [sch].
    set (f := fun t : Task => set_park no_park _). assert (soft f) as Hf by (split; intros u; unfold f; cbn; by destruct (wake_reason t' =? LV_PARK_CANCELLED)).
    split; [by apply wf_soft|]. split; [|done]. apply (running_states s1); [|done].
    intros q _. rewrite look_upd by apply Hf. case_decide as Hq; [subst q|done]. destruct (look s1 p); [|done].
    exact (f_equal Some (so_state _ Hf _)).
Qed.

(** The trampoline's registry clean-up. *)
Definition deregister p s : Sched :=
  match tasks s !! p with Some t => if registered t then reg_remove p s else s | None => s end.

Lemma deregister_spec p s a : wf s a [p] ->
  let s' := deregister p s in
  linked s' a [p] /\ (forall q, q <> p -> look s' q = look s q) /\ count s' = count s /\ reg s' = without_reg p s.
Proof.
  intros Hwf. cbv zeta. pose proof (wf_linked _ _ _ Hwf) as Hl. unfold deregister.
  destruct (held_out _ _ _ _ Hl) as (_ & _ & _ & _ & t & Et). rewrite Et. destruct (registered t) eqn:Ereg.
  - unfold reg_remove. split_and!.
    + apply linked_upd; [done|]. eapply (linked_fields s); [..|exact Hl]; by destruct (reg_index p (reg s)).
    + intros q Hq. rewrite look_upd, decide_False by done. by destruct (reg_index p (reg s)).
    + cbn. by destruct (reg_index p (reg s)).
    + unfold without_reg. cbn. by destruct (reg_index p (reg s)).
  - split_and!; try done. unfold without_reg. destruct (reg_index p (reg s)) as [i|] eqn:Ei; [|done]. exfalso.
    apply reg_index_some in Ei as [n Hn]. apply list_elem_of_lookup_2, (rg_exact _ _ _ (wf_registry _ _ _ Hwf)) in Hn as (_ & t' & Ht' & Hrg & _).
    rewrite (info_some _ _ _ Et) in Ht'. simplify_eq. cbn in Hrg. congruence.
Qed.

(** A task that returned goes to the pool and out of the registry. *)
Lemma finish_spec p s w a : wf s a [p] -> counted s a [p] ->
  let y := finish E p s w in
  let a' := MkLists (l_run a) (l_parked a) (p :: l_pool a) in
  wf (sch y) a' [] /\ counted (sch y) a' [] /\ current (sch y) = None /\
  phase y = (if throwing_now E w then Exited true else Dispatch) /\ world y = w.
Proof.
  intros Hwf Hct. unfold finish. cbv zeta. set (s0 := if decide (main_task s = Some p) then _ else _).
  assert (tasks s0 = tasks s /\ runq s0 = runq s /\ parked s0 = parked s /\ pool s0 = pool s /\ reg s0 = reg s /\ count s0 = count s) as (E1 & E2 & E3 & E4 & E5 & E6)
    by (unfold s0; by destruct (decide _)).
  assert (wf s0 a [p]) as Hwf0 by (eapply (wf_fields s); [..|exact Hwf]; try done; by rewrite E6).
  fold (deregister p s0). destruct (deregister_spec p s0 a Hwf0) as (Hl1 & Ho1 & Hc1 & Hr1). cbv zeta in *. set (s1 := deregister p s0) in *.
  set (f1 := fun t : Task => set_frame FDead (set_tstate DONE t)).
  set (s2 := add NSwitches 1 (add NLive (-1) (add NCompleted 1 (upd p f1 s1)))).
  set (f2 := fun t : Task => set_next (pool s2) (set_tstate POOLED t)).
  assert (linked s2 a [p]) as Hl2 by (eapply (linked_fields (upd p f1 s1)); try done; by apply linked_upd).
  destruct (held_out _ _ _ _ Hl2) as (N1 & N2 & N3 & _ & t & Et).
  set (s3 := set_pool (Some p) (upd p f2 s2)).
  assert (linked s3 (MkLists (l_run a) (l_parked a) (p :: l_pool a)) []) as Hl3 by by apply linked_pool_push.
  assert (forall q, q <> p -> look s3 q = look s q) as Ho3.
  { intros q Hq. rewrite <- E1, <- Ho1 by done. change (tasks s3) with (alter f2 p (alter f1 p (tasks s1))).
    by rewrite !info_lookup, !lookup_alter_ne by done. }
  split; [|split; [|done]].
  - eapply (wf_fields s3); try done. split; [done| |].
    + destruct (wf_tagged _ _ _ Hwf) as [T1 T2 T3].
      assert (forall P l, p ∉ l -> all_are s P l -> all_are s3 P l) as Ha
        by (intros P l Hpl; apply all_are_ext; intros q Hq; apply Ho3; by intros ->).
      split; [by apply Ha|by apply Ha|]. cbn [l_pool]. apply (all_are_app _ _ [p]); [|by apply Ha].
      apply (all_are_one _ _ _ (set_next None (f2 t))); [|done]. cbn [s3 set_pool upd set_tasks tasks].
      apply info_some. by rewrite lookup_alter_eq, Et.
    + apply (registry_leave p s0 _ _ []); [by apply (registry_live _ a [p]), (wf_registry _ _ _ Hwf0)|unfold live; cbn; rewrite app_nil_r, not_elem_of_app; done| | |by rewrite <- Hr1].
      * intros q Hq. rewrite Ho3, E1 by done. done.
      * transitivity (count s1 NSpawned); [|by rewrite Hc1]. unfold s3, s2. cbn [set_pool count upd set_tasks]. by counts.
  - assert (forall c, count (pool_return p s2) c = count (add NPooled 1 (add NSwitches 1 (add NLive (-1) (add NCompleted 1 s)))) c) as Hcn.
    { intros c. unfold pool_return, s2. counts. cbn [set_pool upd set_tasks count]. counts. cbn [upd set_tasks count]. by rewrite Hc1, E6. }
    destruct Hct. unfold everyone, live in *. rewrite !length_app in *. cbn [length] in *.
    split; unfold everyone, live; cbn [l_run l_parked l_pool switched_out sch set_current count];
      rewrite ?Hcn; counts; rewrite ?length_app; cbn [length]; lia.
Qed.

(** ** One call of the running task *)

Lemma good_out s w a : wf s a [] -> counted s a [] -> good (switched_out E s w) a.
Proof.
  intros H1 H2. split; cbn [switched_out sch set_current current option_list phase].
  - by eapply (wf_fields s).
  - destruct H2. by split.
  - by intros q ?%elem_of_nil.
  - by destruct (throwing_now E w).
Qed.

Lemma good_on p k r s w a : wf s a [p] -> counted s a [p] -> all_are s running [p] -> current s = Some p ->
  good (MkSys s w (OnTask p k r)) a.
Proof. intros H1 H2 H3 H4. split; cbn [sch phase]; rewrite ?H4; done. Qed.

(** What one step shows: events of the specification, and the invariant. *)
Definition simulated (settled : ptr -> bool) (ph : @Phase L) (b : AState) (y : @Sys W L) : Prop :=
  exists a es, sched_steps settled b es (view y a) /\ Forall (allowed ph) es /\ good y a.

Lemma simulated_none settled ph a y : good y a -> simulated settled ph (view y a) y.
Proof. intros H. exists a, []. split; [constructor|]. by split. Qed.

Lemma simulated_one settled ph b e y a : sched_step settled b e (view y a) -> allowed ph e -> good y a -> simulated settled ph b y.
Proof.
  intros H1 H2 H3. exists a, [e]. split; [econstructor; [exact H1|constructor]|]. split; [|done]. by apply Forall_singleton.
Qed.

Lemma spawn_sound settled p q k r (k' : L) r' w s s' a a' : all_are s running [p] -> current s = Some p -> (p <> q) ->
  spawn_post s s' a [p] q a' -> simulated settled (OnTask p k r) (MkA a (Some p)) (MkSys s' w (OnTask p k' r')).
Proof.
  intros Hr Hc Hne [S1 S2 S3 S4 S5 S6 [R1 R2 R3 R4]]. eapply (simulated_one _ _ _ (ESpawn q)); [|done|apply good_on; try done].
  - unfold view. cbn [sch]. rewrite R2, Hc. by constructor.
  - apply (all_are_ext _ s); [|done]. intros z ->%list_elem_of_singleton. by apply S6.
  - by rewrite R2.
Qed.

Lemma parking_sound settled p k r (k' : L) b w s a y : wf s a [p] -> counted s a [p] -> all_are s running [p] -> current s = Some p ->
  parking E p k' b w s = Some y -> simulated settled (OnTask p k r) (MkA a (Some p)) y.
Proof.
  intros Hwf Hct Hr Hc. unfold parking. destruct (park_common E p (FPark k' b) w s) as [[[r'|] s']|] eqn:Ep; [| |done]; intros [= <-];
    destruct (park_common_spec _ _ _ _ _ _ _ _ _ Hwf Hct Ep) as [H1 [R1 R2 R3 R4]].
  - destruct H1 as (H1 & H2 & H3). rewrite <- Hc, <- R2. apply (simulated_none _ _ _ (MkSys s' w _)).
    apply good_on; try done; [|by rewrite R2]. by apply (running_states s).
  - destruct H1 as (H1 & H2). eapply (simulated_one _ _ _ (EPark p)); [|done|by apply good_out]. constructor.
Qed.

(** The keys a park call stores. *)
Lemma store_keys p f s a : soft f -> wf s a [p] -> counted s a [p] -> all_are s running [p] ->
  wf (upd p f s) a [p] /\ counted (upd p f s) a [p] /\ all_are (upd p f s) running [p].
Proof.
  intros Hf H1 H2 H3. split; [by apply wf_soft|]. split; [destruct H2; by split|]. apply (running_states s); [|done].
  intros q _. rewrite look_upd by apply Hf. case_decide; [subst|done]. destruct (look s p); [|done]. exact (f_equal Some (so_state _ Hf _)).
Qed.

Lemma cancel_sound p k r (k' : L) n w id s a : wf s a [p] -> counted s a [p] -> all_are s running [p] -> current s = Some p ->
  simulated (settled_at E s w) (OnTask p k r) (MkA a (Some p)) (MkSys (lv_task_cancel E id w s).2 w (OnTask p k' n)).
Proof.
  intros Hwf Hct Hr Hc. destruct (cancel_spec E id w s a [p] Hwf Hr) as [H1 R H3 H4|q l1 l2 Ea Hs H1 R H3 H4];
    set (s' := (lv_task_cancel E id w s).2) in *; destruct R as [R1 R2 R3 R4].
  - rewrite <- Hc, <- R2. apply (simulated_none _ _ _ (MkSys s' w _)). apply good_on; try done; [|by apply (running_states s)|by rewrite R2].
    destruct Hct. split; rewrite ?H3 by done; done.
  - assert (p <> q) as Hne.
    { intros <-. destruct (held_out _ _ _ _ (wf_linked _ _ _ Hwf)) as (_ & N & _). apply N. rewrite Ea. apply elem_of_app. right. by left. }
    eapply (simulated_one _ _ _ (ECancel q)); [|done|apply good_on; try done; [|apply (running_states s); [|done]|by rewrite R2]].
    + unfold view. cbn [sch]. rewrite R2, Hc. by constructor.
    + apply (counted_move s s' a _ [p]); [done| |done| | |].
      * unfold live, run_add, without_parked. cbn [l_run l_parked]. rewrite Ea, !length_app. cbn [length]. lia.
      * rewrite H3 by done. counts. rewrite (ct_parked _ _ _ Hct), Ea. cbn [run_add without_parked l_parked]. rewrite !length_app. cbn [length]. lia.
      * intros c Hin. rewrite H3 by set_solver. rewrite count_add, decide_False by set_solver. done.
      * rewrite !H3 by done. counts. destruct Hct. lia.
    + intros z ->%list_elem_of_singleton. by apply H4.
Qed.

Lemma shield_sound settled p k r (k' : L) n w d s s' a : wf s a [p] -> counted s a [p] -> all_are s running [p] -> current s = Some p ->
  lv_task_shield d s = Some s' -> simulated settled (OnTask p k r) (MkA a (Some p)) (MkSys s' w (OnTask p k' n)).
Proof.
  intros Hwf Hct Hr Hc Hs. assert (wf s' a [p] /\ counted s' a [p] /\ all_are s' running [p] /\ current s' = Some p) as (H1 & H2 & H3 & H4).
  { revert Hs. unfold lv_task_shield. rewrite Hc. destruct (tasks s !! p) as [t|]; [|intros [= <-]; done].
    destruct (store_keys p (set_shield (wrap_u 16 (shield t + d))) s a (soft_shield _) Hwf Hct Hr) as (? & ? & ?).
    destruct (0 <? d); [intros [= <-]; done|]. destruct (wrap_u 16 (- d) <=? shield t); [intros [= <-]; done|done]. }
  rewrite <- H4. apply (simulated_none _ _ _ (MkSys s' w _)). by apply good_on.
Qed.

Lemma spawned_run q a a' : spawned q a a' -> l_run a' = l_run a ++ [q].
Proof. by intros []. Qed.

Lemma spawn_registered_sound settled p k r (k' : L) b n w s s' a : wf s a [p] -> counted s a [p] -> all_are s running [p] -> current s = Some p ->
  lv_task_spawn_registered E b w s = Some (n, s') -> simulated settled (OnTask p k r) (MkA a (Some p)) (MkSys s' w (OnTask p k' (RInt n))).
Proof.
  intros Hwf Hct Hr Hc. unfold lv_task_spawn_registered. destruct (lv_task_spawn E b w s) as [s1|] eqn:Es; [|done].
  destruct (spawn_spec E _ _ _ _ _ _ Hwf Hct Es) as (q & a' & [S1 S2 S3 S4 (t & Ht & Hreg & _) S6 [R1 R2 R3 R4]]).
  rewrite (lk_run_tail _ _ _ (wf_linked _ _ _ S2)), (spawned_run _ _ _ S1), last_snoc. intros [= <- <-].
  assert (p <> q) as Hne by (intros <-; apply S4; unfold live; rewrite !elem_of_app; do 2 right; by left).
  assert (q ∈ live a' [p]) as Hq by (unfold live; rewrite (spawned_run _ _ _ S1), !elem_of_app; left; right; by left).
  eapply (simulated_one _ _ _ (ESpawn q)); [|done|apply good_on].
  - unfold view. cbn [sch]. change (current (reg_add q s1)) with (current s1). rewrite R2, Hc. by constructor.
  - by apply (wf_reg_add q s1 a' [p] t).
  - destruct S3. by split.
  - apply (all_are_ext _ s); [|done]. intros z ->%list_elem_of_singleton. unfold reg_add. rewrite look_upd, decide_False by done. by apply S6.
  - change (current (reg_add q s1)) with (current s1). by rewrite R2.
Qed.

Lemma yield_sound settled p k r (k' : L) w s a : wf s a [p] -> counted s a [p] ->
  simulated settled (OnTask p k r) (MkA a (Some p)) (switched_out E (lv_task_yield p k' s) w).
Proof.
  intros Hwf Hct. eapply (simulated_one _ _ _ (EYield p)); [constructor|done|].
  set (f := fun t : Task => set_frame (FYield k') (set_tstate RUNNABLE t)). set (s1 := upd p f s).
  destruct (held_out _ _ _ _ (wf_linked _ _ _ Hwf)) as (_ & _ & _ & _ & t & Et).
  assert (look s1 p = Some (set_next None (f t))) as Hl by (unfold s1; rewrite look_upd, decide_True, (info_some _ _ _ Et) by done; done).
  pose proof (relinked_runq_append p s1) as Hrl. apply good_out.
  - apply wf_add; [done|]. eapply wf_runq_append; [|exact Hl|by split]. by apply wf_firm.
  - assert (forall c, c <> NSwitches -> count (lv_task_yield p k' s) c = count s c) as Hcn.
    { intros c Hne. unfold lv_task_yield. rewrite count_add, decide_False by done. fold f. fold s1. by rewrite (rl_count _ _ Hrl). }
    destruct Hct. unfold everyone, live in *. rewrite !length_app in *. cbn [length] in *.
    split; unfold everyone, live; cbn [run_add l_run l_parked l_pool]; rewrite ?Hcn by done; rewrite ?length_app; cbn [length]; lia.
Qed.

Lemma finish_sound settled p k r w s a : wf s a [p] -> counted s a [p] ->
  simulated settled (OnTask p k r) (MkA a (Some p)) (finish E p s w).
Proof.
  intros Hwf Hct. destruct a as [rq pk pl]. destruct (finish_spec p s w _ Hwf Hct) as (H1 & H2 & H3 & H4 & _). cbn in H1, H2.
  apply (simulated_one _ _ _ (EFinish p) _ (MkLists rq pk (p :: pl))).
  - unfold view. rewrite H3. apply st_finish.
  - done.
  - split; rewrite ?H3; cbn [option_list]; try done; [by intros q ?%elem_of_nil|]. rewrite H4. by destruct (throwing_now E w).
Qed.

Lemma exec_sound p k r c (k' : L) w s a y : wf s a [p] -> counted s a [p] -> all_are s running [p] -> current s = Some p ->
  exec E p c k' w s = Some y -> simulated (settled_at E s w) (OnTask p k r) (MkA a (Some p)) y.
Proof.
  intros Hwf Hct Hr Hc. assert (forall q, q ∉ live a [p] -> p <> q) as Hne.
  { intros q Hq <-. apply Hq. unfold live. rewrite !elem_of_app. do 2 right. by left. }
  assert (forall f b, soft f -> parking E p k' b w (upd p f s) = Some y -> simulated (settled_at E s w) (OnTask p k r) (MkA a (Some p)) y) as Hpark.
  { intros f b Hf. destruct (store_keys p f s a Hf Hwf Hct Hr) as (? & ? & ?). by apply parking_sound. }
  assert (forall r', simulated (settled_at E s w) (OnTask p k r) (MkA a (Some p)) (MkSys s w (OnTask p k' r'))) as Hsame.
  { intros r'. rewrite <- Hc. apply (simulated_none _ _ _ (MkSys s w _)). by apply good_on. }
  destruct c as [b|b| |obj|o1 o2|ids|id|d| |]; cbn [exec].
  - destruct (lv_task_spawn E b w s) as [s'|] eqn:Es; [|done]. intros [= <-].
    destruct (spawn_spec E _ _ _ _ _ _ Hwf Hct Es) as (q & a' & Hsp).
    apply (spawn_sound _ p q k r k' RUnit w s s' a a'); [done|done|apply Hne, (sp_new _ _ _ _ _ _ Hsp)|done].
  - destruct (lv_task_spawn_registered E b w s) as [[n s']|] eqn:Es; [|done]. intros [= <-]. by apply (spawn_registered_sound _ p k r k' b n w s s' a).
  - intros [= <-]. by apply yield_sound.
  - by apply Hpark.
  - by apply Hpark.
  - unfold lv_task_park_join. destruct (_ || _); [|by apply Hpark]. intros [= <-]. apply Hsame.
  - destruct (lv_task_cancel E id w s) as [n s'] eqn:Es. intros [= <-].
    pose proof (cancel_sound p k r k' (RInt n) w id s a Hwf Hct Hr Hc) as H. by rewrite Es in H.
  - destruct (lv_task_shield d s) as [s'|] eqn:Es; [|done]. intros [= <-]. by apply (shield_sound _ p k r k' RUnit w d s s' a).
  - intros [= <-]. apply Hsame.
  - intros [= <-]. by apply finish_sound.
Qed.

(** ** Past the empty run queue *)

Lemma sched_steps_app settled b1 es1 b2 es2 b3 : sched_steps settled b1 es1 b2 -> sched_steps settled b2 es2 b3 ->
  sched_steps settled b1 (es1 ++ es2) b3.
Proof. induction 1 as [|b e c es d H H' IH]; [done|]. intros H2. cbn. econstructor; [exact H|by apply IH]. Qed.

Lemma spawn_all_sound settled (ls : list L) w s s' a : wf s a [] -> counted s a [] -> spawn_all E ls w s = Some s' ->
  exists a' es, sched_steps settled (MkA a None) es (MkA a' None) /\ Forall (allowed (@Quiet L)) es /\ wf s' a' [] /\ counted s' a' [] /\
    current s' = current s /\ l_parked a' = l_parked a /\ (ls = [] -> a' = a).
Proof.
  revert s a. induction ls as [|k ls IH]; intros s a Hwf Hct; cbn [spawn_all].
  - intros [= <-]. exists a, []. split; [constructor|]. by split_and!.
  - destruct (lv_task_spawn E k w s) as [s1|] eqn:Es; [|done]. intros Hs.
    destruct (spawn_spec E _ _ _ _ _ _ Hwf Hct Es) as (q & a1 & [S1 S2 S3 S4 S5 S6 [R1 R2 R3 R4]]).
    destruct (IH s1 a1 S2 S3 Hs) as (a' & es & H1 & H2 & H3 & H4 & H5 & H6 & H7).
    exists a', (ESpawn q :: es). split; [econstructor; [by constructor|exact H1]|]. split; [by constructor|]. split_and!; try done.
    + by rewrite H5, R2.
    + rewrite H6. by destruct S1.
Qed.

Lemma filter_split_length {A} (f : A -> bool) (l : list A) :
  (length (List.filter f l) + length (List.filter (fun y => negb (f y)) l) = length l)%nat.
Proof. induction l as [|y l IH]; [done|]. cbn. destruct (f y); cbn; lia. Qed.

Lemma filter_none {A} (f : A -> bool) (l : list A) : existsb f l = false -> List.filter f l = [] /\ List.filter (fun y => negb (f y)) l = l.
Proof.
  induction l as [|y l IH]; [done|]. cbn. destruct (f y); [done|]. cbn. intros H. destruct (IH H) as [-> ->]. done.
Qed.

(** Nothing left to do: the end, or every parked task is woken. *)
Lemma no_work_sound settled s w a : wf s a [] -> counted s a [] -> current s = None -> existsb settled (l_parked a) = false ->
  (idle_loop -> l_run a = []) ->
  simulated settled (@Quiet L) (MkA a None) (no_work s w).
Proof.
  intros Hwf Hct Hc Hs Hidle. unfold no_work. rewrite (chain_head _ _ _ (lk_parked _ _ _ (wf_linked _ _ _ Hwf))).
  destruct (l_parked a) as [|p pk] eqn:Ea; cbn [head].
  - rewrite <- Hc. apply (simulated_none _ _ _ (MkSys s w _)). split; cbn [sch phase]; rewrite ?Hc; try done. by intros q ?%elem_of_nil.
  - destruct (drain_wake_all_spec s a [] Hwf) as (H1 & [R1 R2 R3 R4] & H3 & H4). cbv zeta in *. rewrite Ea in H1.
    eapply (simulated_one _ _ _ EDrain _ (MkLists (l_run a ++ p :: pk) [] (l_pool a))); [|done|].
    + unfold view. cbn [sch]. rewrite R2, Hc. destruct a as [rq pk' pl]. cbn in Ea. subst pk'. by apply st_drain.
    + split; cbn [sch phase]; rewrite ?R2, ?Hc; try done; [|by intros q ?%elem_of_nil].
      cbn [option_list]. apply (counted_move s _ a _ []); [done| |done|by rewrite H3| |].
      * unfold live. cbn [l_run l_parked]. rewrite Ea, !length_app. cbn. lia.
      * intros c Hin. apply H4; set_solver.
      * rewrite H3, H4 by done. destruct Hct. lia.
Qed.

(** A scan that wakes nobody. *)
Lemma poll_idle s w a s1 : wf s a [] -> counted s a [] -> poll_parked E w s = (false, s1) -> wf s1 a [] /\ counted s1 a [].
Proof.
  intros Hwf Hct Ep. pose proof (poll_parked_spec E w s a [] Hwf) as [P1 _ P3 P4 P5]. rewrite Ep in *. cbn [fst snd orb] in *.
  unfold settle in P1. cbn [app] in P1. symmetry in P3. destruct (filter_none _ _ P3) as [F1 F2]. rewrite F1, F2, app_nil_r in P1.
  rewrite F1 in P4. split; [by destruct a|].
  assert (forall c, c ∈ [NLive; NPooled; NMapped; NSpawned; NCompleted; NPeakLive; NPeakParked] -> count s1 c = count s c) as Hcn
    by (intros c Hin; apply P5; set_solver).
  destruct Hct. cbn in P4. split; rewrite ?P4, ?Hcn by set_solver; try done; lia.
Qed.

Lemma quiet_sound s w a y : wf s a [] -> counted s a [] -> current s = None -> l_run a = [] -> quiet E s w = Some y ->
  simulated (settled_at E s w) (@Quiet L) (MkA a None) y.
Proof.
  intros Hwf Hct Hc Hrun. unfold quiet. pose proof (poll_parked_spec E w s a [] Hwf) as [P1 [R1 R2 R3 R4] P3 P4 P5].
  destruct (poll_parked E w s) as [woke s1] eqn:Epoll. cbn [fst snd orb] in *. unfold settle in P1. cbn [app] in P1.
  assert (forall c, c ∈ [NLive; NPooled; NMapped; NSpawned; NCompleted; NPeakLive; NPeakParked] -> count s1 c = count s c) as Hcn
    by (intros c Hin; apply P5; set_solver).
  destruct woke; cbn match.
  - intros [= <-]. destruct a as [rq pk pl]. cbn [l_run l_parked l_pool] in *.
    apply (simulated_one _ _ _ ESettle _ (MkLists (rq ++ List.filter (settled_at E s w) pk) (List.filter (fun p => negb (settled_at E s w p)) pk) pl)); [|done|].
    + unfold view. cbn [sch]. rewrite R2, Hc. by apply st_settle.
    + pose proof (filter_split_length (settled_at E s w) pk) as Hlen.
      split; cbn [sch phase]; rewrite ?R2, ?Hc; try done; [|by intros q ?%elem_of_nil].
      apply (counted_move s s1 (MkLists rq pk pl) _ []); [done| |done| | |].
      * unfold live. cbn [l_run l_parked]. rewrite !length_app. cbn. lia.
      * cbn [l_parked]. rewrite P4. pose proof (ct_parked _ _ _ Hct) as Hp. cbn [l_parked] in Hp. lia.
      * intros c Hin. apply Hcn. set_solver.
      * rewrite P4, (Hcn NPeakParked) by set_solver. destruct Hct. lia.
  - destruct (poll_idle s w a s1 Hwf Hct Epoll) as [Hwf1 Hct1].
    destruct (e_loop_step E) as [f|] eqn:Ef; [|intros [= <-]; apply no_work_sound; try done; by rewrite R2].
    destruct (f w) as [[n ls] w'] eqn:Efw. destruct (spawn_all E ls w' s1) as [s2|] eqn:Es; [|done]. intros [= <-].
    destruct (spawn_all_sound (settled_at E s w) ls w' s1 s2 a Hwf1 Hct1 Es) as (a' & es & H1 & H2 & H3 & H4 & H5 & H6 & H7).
    assert (current s2 = None) as Hc2 by (by rewrite H5, R2).
    destruct (Z.eqb_spec n 0) as [En|].
    + destruct (no_work_sound (settled_at E s w) s2 w' a' H3 H4 Hc2) as (a2 & es2 & G1 & G2 & G3);
        [by rewrite H6|intros Hid; by rewrite (H7 (Hid f w n ls w' Ef Efw En))|].
      exists a2, (es ++ es2). split; [by eapply sched_steps_app|]. split; [by apply Forall_app|done].
    + exists a', es. split; [|split; [done|]].
      * unfold view. cbn [sch]. by rewrite Hc2.
      * split; cbn [sch phase]; rewrite ?Hc2; try done. by intros q ?%elem_of_nil.
Qed.

End Run.
