(* ===== verification/TaskSlots.v ===== *)
(** * What the scheduler does to the suspended computations

    A task keeps its saved stack and its park keys through every operation of
    the scheduler on other tasks: appending, unlinking, scanning, draining,
    cancelling and registering change only links, states and wake reasons.  A
    spawn puts a fresh task where there was none or a dead one. *)

From S2P Require Import Prelude TaskSched TaskLists TaskInv.

Local Open Scope Z_scope.

Section Slots.
Context {W L : Type} (E : Engine W L).
Implicit Types (s : @Sched L) (p q : ptr) (t : @Task L) (w : W).

(** The same stack and keys; nothing goes to the pool. *)
Definition slot_like t t' : Prop :=
  frame t' = frame t /\ parked_on (park t') = parked_on (park t) /\ parked_on2 (park t') = parked_on2 (park t) /\
  (tstate t' = POOLED -> tstate t = POOLED).
Definition evolves s s' : Prop := forall p, option_Forall2 slot_like (tasks s !! p) (tasks s' !! p).

Lemma slot_like_refl t : slot_like t t.
Proof. done. Qed.

Lemma evolves_same s s' : tasks s' = tasks s -> evolves s s'.
Proof. intros H p. rewrite H. destruct (tasks s !! p); by constructor. Qed.
Lemma evolves_trans s1 s2 s3 : evolves s1 s2 -> evolves s2 s3 -> evolves s1 s3.
Proof.
  intros H1 H2 p. specialize (H1 p). specialize (H2 p). destruct H1 as [t1 t2 (A1 & A2 & A3 & A4)|].
  - inversion H2 as [? t3 (B1 & B2 & B3 & B4) Ea Eb|]. constructor. repeat split; [congruence..|auto].
  - inversion H2. by constructor.
Qed.
Lemma evolves_upd p f s : (forall t, tasks s !! p = Some t -> slot_like t (f t)) -> evolves s (upd p f s).
Proof.
  intros Hf q. cbn. destruct (decide (q = p)) as [->|Hq].
  - rewrite lookup_alter_eq. destruct (tasks s !! p) as [t|]; cbn; constructor; auto.
  - rewrite lookup_alter_ne by done. destruct (tasks s !! q); by constructor.
Qed.
Lemma evolves_lookup s s' p t : evolves s s' -> tasks s' !! p = Some t -> exists t0, tasks s !! p = Some t0 /\ slot_like t0 t.
Proof. intros H Ht. specialize (H p). rewrite Ht in H. inversion H as [t0 ? Hl E1 E2|]; subst. by exists t0. Qed.
Lemma evolves_lookup_l s s' p t : evolves s s' -> tasks s !! p = Some t -> exists t', tasks s' !! p = Some t' /\ slot_like t t'.
Proof. intros H Ht. specialize (H p). rewrite Ht in H. inversion H as [? t' Hl E1 E2|]; subst. by exists t'. Qed.

(** Chains of updates. *)
Lemma evolves_then s1 s2 (g : @Sched L -> @Sched L) : evolves s1 s2 -> (forall s, evolves s (g s)) -> evolves s1 (g s2).
Proof. intros H Hg. by eapply evolves_trans. Qed.

Lemma evolves_next p n s : evolves s (upd p (set_next n) s).
Proof. by apply evolves_upd. Qed.
Lemma evolves_runq_append p s : evolves s (runq_append p s).
Proof.
  unfold runq_append. eapply evolves_trans; [apply (evolves_next p None)|]. set (s1 := upd p _ s).
  eapply evolves_trans; [|by apply evolves_same]. destruct (q_tail (runq s1)); [apply evolves_next|by apply evolves_same].
Qed.
Lemma evolves_parked_append p s : evolves s (parked_append p s).
Proof.
  unfold parked_append. eapply evolves_trans; [apply (evolves_next p None)|]. set (s1 := upd p _ s).
  eapply evolves_trans; [|by apply evolves_same]. destruct (q_tail (parked s1)); [apply evolves_next|by apply evolves_same].
Qed.
Lemma evolves_runq_pop s : evolves s (snd (runq_pop s)).
Proof.
  unfold runq_pop. destruct (q_head (runq s)) as [p|]; [|by apply evolves_same]. cbn [snd].
  eapply evolves_trans; [|apply evolves_next]. by apply evolves_same.
Qed.
Lemma evolves_unlink prev p nx s : evolves s (parked_unlink prev p nx s).
Proof.
  unfold parked_unlink. set (s1 := match prev with Some _ => _ | None => _ end).
  assert (evolves s s1) as H by (unfold s1; destruct prev; [apply evolves_next|by apply evolves_same]).
  case_decide; [|done]. eapply evolves_trans; [exact H|by apply evolves_same].
Qed.
Lemma evolves_raise_peak c d s : evolves s (raise_peak c d s).
Proof. unfold raise_peak. case_match; by apply evolves_same. Qed.

Lemma evolves_search fuel prev it p s s' : parked_search fuel prev it p s = Some s' -> evolves s s'.
Proof.
  revert prev it. induction fuel as [|n IH]; intros prev [i|]; cbn [parked_search]; try done. case_decide as Hd; [|apply IH].
  intros [= <-]. eapply evolves_trans; [apply evolves_unlink|]. eapply evolves_trans; [apply (evolves_next i None)|by apply evolves_same].
Qed.

Lemma slot_wake r t : slot_like t (set_tstate RUNNABLE (set_wake r t)).
Proof. by repeat split. Qed.

Lemma evolves_wake p r s : evolves s (runq_append p (upd p (fun t => set_tstate RUNNABLE (set_wake r t)) s)).
Proof. eapply evolves_trans; [|apply evolves_runq_append]. apply evolves_upd. intros t _. apply slot_wake. Qed.

Lemma evolves_settled p w s : evolves s (snd (park_keys_settled E p w s)).
Proof.
  assert (forall n, evolves s (upd p (set_woke_ix n) s)) as H by (intros n; by apply evolves_upd).
  unfold park_keys_settled. repeat case_match; try (by apply evolves_same); apply H.
Qed.

Lemma evolves_report p w s : evolves s (join_report_check E p w s).
Proof.
  unfold join_report_check. destruct (tasks s !! p) as [t|] eqn:Et; [|by apply evolves_same].
  destruct (_ || _); [by apply evolves_same|]. destruct (_ || _); [by apply evolves_same|]. case_match; [by apply evolves_same|].
  set (s1 := upd p _ s). assert (evolves s s1) as H1 by (apply evolves_upd; intros t' Ht'; by simplify_eq).
  eapply evolves_trans; [exact H1|]. by apply evolves_same.
Qed.

Lemma evolves_poll_from fuel prev it w woke s : evolves s (snd (poll_from E fuel prev it w woke s)).
Proof.
  revert prev it woke s. induction fuel as [|n IH]; intros prev [p|] woke s; cbn [poll_from]; try (by apply evolves_same).
  pose proof (evolves_settled p w s) as H. destruct (park_keys_settled E p w s) as [b s1]. cbn [snd] in H. destruct b.
  - eapply evolves_trans; [exact H|]. eapply evolves_trans; [|apply IH]. eapply evolves_trans; [|apply evolves_wake].
    eapply evolves_trans; [apply (evolves_unlink prev p)|]. by apply evolves_same.
  - eapply evolves_trans; [exact H|]. eapply evolves_trans; [|apply IH]. destruct (is_join p s1); [apply evolves_report|by apply evolves_same].
Qed.
Lemma evolves_poll w s : evolves s (snd (poll_parked E w s)).
Proof. apply evolves_poll_from. Qed.

Lemma evolves_drain_from fuel it s : evolves s (drain_from fuel it s).
Proof.
  revert it s. induction fuel as [|n IH]; intros [p|] s; cbn [drain_from]; try (by apply evolves_same).
  eapply evolves_trans; [|apply IH]. eapply evolves_trans; [apply evolves_wake|]. by apply evolves_same.
Qed.
Lemma evolves_drain s : evolves s (drain_wake_all s).
Proof. eapply evolves_trans; [apply evolves_drain_from|by apply evolves_same]. Qed.

Lemma evolves_cancel id w s : evolves s (snd (lv_task_cancel E id w s)).
Proof.
  unfold lv_task_cancel. destruct (reg_find id s) as [p|]; [|by apply evolves_same]. destruct (tasks s !! p) as [t|]; [|by apply evolves_same].
  destruct (cancelled t); [by apply evolves_same|]. set (s1 := add NCancelled 1 _).
  assert (evolves s s1) as H1.
  { eapply evolves_trans; [apply (evolves_upd p (set_cancelled true)); intros; by repeat split|by apply evolves_same]. }
  destruct (tstate t); try done. destruct (shield t =? 0); [|done]. pose proof (evolves_settled p w s1) as H2.
  destruct (park_keys_settled E p w s1) as [[] s2]; cbn [snd] in *; [by eapply evolves_trans|].
  destruct (parked_remove p s2) as [s3|] eqn:Er; cbn [snd]; [|by eapply evolves_trans]. apply evolves_search in Er.
  eapply evolves_trans; [exact H1|]. eapply evolves_trans; [exact H2|]. eapply evolves_trans; [exact Er|].
  eapply evolves_trans; [apply evolves_wake|by apply evolves_same].
Qed.

Lemma evolves_reg_add p s : evolves s (reg_add p s).
Proof. unfold reg_add. eapply evolves_trans; [|by apply evolves_upd]. by apply evolves_same. Qed.
Lemma evolves_reg_remove p s : evolves s (reg_remove p s).
Proof. unfold reg_remove. eapply evolves_trans; [|by apply evolves_upd]. case_match; by apply evolves_same. Qed.
Lemma evolves_shield d s s' : lv_task_shield d s = Some s' -> evolves s s'.
Proof.
  unfold lv_task_shield. repeat case_match; intros [= <-]; try (by apply evolves_same); by apply evolves_upd.
Qed.

(** ** Spawning *)

(** The pool holds dead stacks. *)
Definition pool_dead s : Prop := forall p t, tasks s !! p = Some t -> tstate t = POOLED -> frame t = FDead.

Lemma pool_dead_evolves s s' : evolves s s' -> pool_dead s -> pool_dead s'.
Proof. intros He H p t Ht Hp. destruct (evolves_lookup _ _ _ _ He Ht) as (t0 & H0 & A1 & _ & _ & A4). rewrite A1. by eapply H; [|apply A4]. Qed.

Lemma spawn_slot l w s s' a x : wf s a x -> counted s a x -> pool_dead s -> lv_task_spawn E l w s = Some s' ->
  exists q n, (forall t, tasks s !! q = Some t -> frame t = FDead) /\ (q ∉ x) /\
    evolves (set_tasks (<[q := fresh_task l n]> (tasks s)) s) s'.
Proof.
  intros Hwf Hct Hpd. unfold lv_task_spawn. destruct (throwing_now E w); [done|]. fold (spawn_source s).
  pose proof (spawn_source_spec s a x l _ Hwf (counted_spawned _ _ _ Hct) eq_refl) as Hsp.
  assert (forall t, tasks s !! fst (spawn_source s) = Some t -> frame t = FDead) as Hd.
  { unfold spawn_source. pose proof (chain_head _ _ _ (lk_pool _ _ _ (wf_linked _ _ _ Hwf))) as Hh.
    destruct (l_pool a) as [|p pl] eqn:Ea; rewrite Hh; cbn [head fst]; intros t Ht.
    - assert (tasks s !! fresh (dom (tasks s)) = None) as Hn by (apply not_elem_of_dom, is_fresh). congruence.
    - apply (Hpd p t Ht). destruct (tg_pool _ _ (wf_tagged _ _ _ Hwf) p) as (t' & Ht' & Hs); [rewrite Ea; by left|].
      rewrite info_lookup, Ht in Ht'. by injection Ht' as <-. }
  assert (tasks (snd (spawn_source s)) = tasks s) as Hts by (unfold spawn_source; by destruct (pool s)).
  destruct (spawn_source s) as [q s1]. cbn [fst snd] in *. destruct Hsp as (a1 & _ & _ & Hq & _). intros [= <-].
  exists q, (count (add NSpawned 1 s1) NSpawned). split; [done|]. split.
  { intros Hin. apply Hq. unfold live. rewrite !elem_of_app. auto. }
  eapply evolves_trans; [|apply evolves_raise_peak]. eapply evolves_trans; [|by apply evolves_same].
  eapply evolves_trans; [|apply evolves_runq_append]. apply evolves_same. cbn [tasks set_tasks]. by rewrite <- Hts.
Qed.

Lemma pool_dead_insert q (l : L) n s : pool_dead s -> pool_dead (set_tasks (<[q := fresh_task l n]> (tasks s)) s).
Proof.
  intros H p t. cbn. destruct (decide (p = q)) as [->|Hne]; [rewrite lookup_insert_eq; by intros [= <-]|]. rewrite lookup_insert_ne by done. apply H.
Qed.
End Slots.
