(* ===== verification/TaskProps.v ===== *)
(** * What the scheduler guarantees

    Along every run of [lv_sched_run] from the empty scheduler: the code
    simulates the list specification and keeps its invariant; a runnable task
    is switched to; when the loop ends by itself every task has completed; and
    the only way to a failed assertion is an engine that spawns or parks while
    a throw is pending or lowers a shield it does not hold. *)

From S2P Require Import Prelude TaskSched TaskLists TaskInv TaskWake TaskRun.

Local Open Scope Z_scope.

Section Props.
Context {W L : Type} (E : Engine W L).

Abbreviation Task := (@Task L).
Abbreviation Sched := (@Sched L).
Abbreviation Sys := (@Sys W L).
Abbreviation look s p := (info (tasks s) !! p).

Implicit Types (s : Sched) (y z : Sys) (p q : ptr) (a : Lists) (w : W).

(** The world in which the next call is made. *)
Definition acting_world y : W := match phase y with OnTask p k r => snd (body E k r (world y)) | _ => world y end.

Lemma dispatch_cases y a : good E y a -> phase y = Dispatch ->
  match l_run a with
  | [] => step E y = Some (MkSys (sch y) (world y) Quiet)
  | p :: rq => exists z k r, step E y = Some z /\ phase z = OnTask p k r /\ good E z (MkLists rq (l_parked a) (l_pool a)) /\ current (sch z) = Some p
  end.
Proof.
  intros [Hwf Hct Hr Hp] Ep. unfold step. rewrite Ep in *. rewrite Hp in *. change (option_list (@None ptr)) with (@nil ptr) in *.
  pose proof (wf_runq_pop _ _ _ Hwf) as H. destruct (l_run a) as [|p rq] eqn:Ea; [by rewrite H|].
  destruct H as (s' & t & -> & Hwf' & Hrl & Ht & Hrun).
  assert (current s' = None) as Hc by (by rewrite (rl_current _ _ Hrl)).
  destruct (switch_in p s' (world y)) as [z|] eqn:Es.
  - destruct (switch_in_spec p s' (world y) _ t z Hwf' Ht Hrun Hc Es) as (k & r & Ez & H1 & H2 & H3 & H4).
    exists z, k, r. split; [done|]. rewrite Ez. cbn [phase sch]. split; [done|]. split; [|done]. apply good_on; try done.
    assert (forall c, c <> NSwitches -> count (sch z) c = count (sch y) c) as Hcn by (intros c Hne; rewrite H4, (rl_count _ _ Hrl); done).
    destruct Hct. unfold everyone, live in *. rewrite Ea in *. rewrite !length_app in *. cbn [length] in *.
    split; unfold everyone, live; cbn [l_run l_parked l_pool]; rewrite ?Hcn by done; rewrite ?length_app; cbn [length]; lia.
  - exfalso. revert Es. unfold switch_in. rewrite info_lookup in Ht. destruct (tasks s' !! p) as [t'|] eqn:Et; [|done]. cbn in Ht. injection Ht as <-.
    destruct Hrun as [_ Hf]. cbn in Hf. destruct (frame t'); try done. unfold park_resume. cbn. by rewrite lookup_alter_eq, Et.
Qed.

(** Every step is a sequence of specified events. *)
Lemma step_sound y a z : good E y a -> step E y = Some z ->
  simulated E (settled_at E (sch y) (acting_world y)) (phase y) (view y a) z.
Proof.
  intros Hg Hs. unfold acting_world, view. destruct (phase y) as [|p k r| |gated] eqn:Ep.
  - pose proof (dispatch_cases y a Hg Ep) as H. pose proof (gd_phase _ _ _ Hg) as Hc. rewrite Ep in Hc. rewrite Hc. destruct (l_run a) as [|p rq] eqn:Ea.
    + rewrite Hs in H. injection H as ->. rewrite <- Hc. apply (simulated_none _ _ _ _ (MkSys (sch y) (world y) Quiet)).
      destruct Hg as [G1 G2 G3 _]. by split.
    + destruct H as (z' & k & r & Hz & Hph & Hg' & Hc'). rewrite Hs in Hz. injection Hz as <-.
      eapply (simulated_one _ _ _ _ (EDispatch p)); [|by eexists|exact Hg']. unfold view. rewrite Hc'.
      destruct a as [rq' pk pl]. cbn in Ea. subst rq'. constructor.
  - destruct Hg as [G1 G2 G3 G4]. rewrite Ep in G4. unfold step in Hs. rewrite Ep in Hs. rewrite G4 in *. cbn [option_list] in *.
    destruct (body E k r (world y)) as [[c k'] w']. cbn [snd]. by apply (exec_sound E p k r c k' w' (sch y) a z).
  - destruct Hg as [G1 G2 G3 G4]. rewrite Ep in G4. destruct G4 as [G4 G5]. unfold step in Hs. rewrite Ep in Hs. rewrite G4 in *. cbn [option_list] in *.
    by apply quiet_sound.
  - unfold step in Hs. rewrite Ep in Hs. injection Hs as <-. by apply simulated_none.
Qed.

Lemma empty_wf : wf (@empty_sched L) (MkLists [] [] []) [] /\ counted (@empty_sched L) (MkLists [] [] []) [].
Proof.
  split; [|by split]. split.
  - split; cbn; try done; [constructor|]. intros p. unfold everyone. cbn. rewrite lookup_empty. split; [by intros []|by intros ?%elem_of_nil].
  - split; by intros p ?%elem_of_nil.
  - split; cbn; try constructor; intros; unfold live in *; cbn in *; try (by intros ?%elem_of_nil); set_solver.
Qed.

Lemma start_good k w y : lv_sched_run E k w empty_sched = Some y -> exists a, good E y a.
Proof.
  destruct empty_wf as [Hwf Hct]. unfold lv_sched_run. cbn [current empty_sched].
  destruct (lv_task_spawn E k w empty_sched) as [s|] eqn:Es; [|done]. intros [= <-].
  destruct (spawn_spec E _ _ _ _ _ _ Hwf Hct Es) as (p & a & [S1 S2 S3 S4 S5 S6 [R1 R2 R3 R4]]).
  exists a. split; cbn [sch phase set_main current]; rewrite ?R2; try done; [|destruct S3; by split|by intros q ?%elem_of_nil].
  eapply (wf_fields s); [..|exact S2]; done.
Qed.

Definition reachable y : Prop := exists k w n y0, lv_sched_run E k w empty_sched = Some y0 /\ steps E n y0 = Some y.

Lemma steps_good n y z a : good E y a -> steps E n y = Some z -> exists a', good E z a'.
Proof.
  revert y a. induction n as [|n IH]; intros y a Hg; cbn [steps]; [intros [= <-]; by exists a|].
  destruct (step E y) as [y'|] eqn:Es; [|done]. destruct (step_sound y a y' Hg Es) as (a' & _ & _ & _ & Hg'). by apply IH with (a := a').
Qed.

Lemma reachable_good y : reachable y -> exists a, good E y a.
Proof. intros (k & w & n & y0 & H0 & Hn). destruct (start_good _ _ _ H0) as [a Ha]. by apply (steps_good n y0 y a). Qed.

(** ** Where a task is *)

Lemma everyone_cases y a p t : good E y a -> tasks (sch y) !! p = Some t ->
  (p ∈ l_run a /\ tstate t = RUNNABLE) \/ (p ∈ l_parked a /\ tstate t = PARKED) \/ (p ∈ l_pool a /\ tstate t = POOLED) \/
  (current (sch y) = Some p /\ tstate t = RUNNING).
Proof.
  intros [Hwf _ Hr _] Ht. destruct (wf_tagged _ _ _ Hwf) as [T1 T2 T3]. pose proof (info_some _ _ _ Ht) as Hl.
  assert (p ∈ everyone a (option_list (current (sch y)))) as Hin by (apply (lk_dom _ _ _ (wf_linked _ _ _ Hwf)); by exists t).
  unfold everyone in Hin. rewrite !elem_of_app in Hin. destruct Hin as [H|[H|[H|H]]].
  - destruct (T1 p H) as (t' & Ht' & Hs & _). rewrite Hl in Ht'. injection Ht' as <-. by left.
  - destruct (T2 p H) as (t' & Ht' & Hs & _). rewrite Hl in Ht'. injection Ht' as <-. right. by left.
  - destruct (T3 p H) as (t' & Ht' & Hs). rewrite Hl in Ht'. injection Ht' as <-. do 2 right. by left.
  - destruct (Hr p H) as (t' & Ht' & Hs). rewrite Hl in Ht'. injection Ht' as <-. do 3 right.
    destruct (current (sch y)) as [q|]; [|by apply elem_of_nil in H]. apply list_elem_of_singleton in H as ->. done.
Qed.

(** ** First in, first out *)

(** Only a dispatch takes from the run queue, and it takes the head. *)
Lemma event_runq settled b e c : sched_step settled b e c ->
  (exists p, e = EDispatch p /\ l_run (a_lists b) = p :: l_run (a_lists c)) \/
  (exists l, l_run (a_lists c) = l_run (a_lists b) ++ l).
Proof.
  intros H. destruct H as [| ? ? ? ? Hsp | | | | | |]; cbn; try (right; eexists; done).
  - left. by eexists.
  - right. exists [p]. by apply spawned_run.
  - right. exists []. by rewrite app_nil_r.
  - right. exists []. by rewrite app_nil_r.
Qed.

Definition on_task y : Prop := match phase y with OnTask _ _ _ => True | _ => False end.

Lemma events_runq settled (ph : @Phase L) b es c : sched_steps settled b es c -> Forall (allowed ph) es -> ph <> Dispatch ->
  exists l, l_run (a_lists c) = l_run (a_lists b) ++ l.
Proof.
  induction 1 as [b|b e b' es c H _ IH]; intros Ha Hph; [exists []; by rewrite app_nil_r|].
  apply Forall_cons in Ha as [He Ha]. destruct (IH Ha Hph) as [l Hl]. destruct (event_runq _ _ _ _ H) as [(p & -> & _)|[l' Hl']].
  - exfalso. destruct ph as [| | |]; cbn in He; done.
  - exists (l' ++ l). by rewrite Hl, Hl', app_assoc.
Qed.

(** A call returns to the task, or leaves it for the scheduler. *)
Lemma exec_phase p c k w s y : exec E p c k w s = Some y ->
  (exists k' r, phase y = OnTask p k' r) \/ phase y = Dispatch \/ phase y = Exited true.
Proof.
  assert (forall s' w', phase (switched_out E s' w') = Dispatch \/ phase (switched_out E s' w') = Exited true) as Hout
    by (intros s' w'; cbn; destruct (throwing_now E w'); auto).
  assert (forall b s', parking E p k b w s' = Some y -> (exists k' r, phase y = OnTask p k' r) \/ phase y = Dispatch \/ phase y = Exited true) as Hpark.
  { intros b s'. unfold parking. destruct (park_common E p (FPark k b) w s') as [[[r|] s2]|]; intros [= <-]; [left; by eexists _, _|right; apply Hout]. }
  destruct c; cbn [exec]; try (by apply Hpark).
  - destruct (lv_task_spawn E l w s); intros [= <-]. left. by eexists _, _.
  - destruct (lv_task_spawn_registered E l w s) as [[n s']|]; intros [= <-]. left. by eexists _, _.
  - intros [= <-]. right. apply Hout.
  - unfold lv_task_park_join. destruct (_ || _); [intros [= <-]; left; by eexists _, _|apply Hpark].
  - destruct (lv_task_cancel E id w s) as [n s']; intros [= <-]. left. by eexists _, _.
  - destruct (lv_task_shield delta s); intros [= <-]. left. by eexists _, _.
  - intros [= <-]. left. by eexists _, _.
  - intros [= <-]. right. apply Hout.
Qed.

(** A task segment keeps the run queue as a prefix until it leaves. *)
Lemma segment_runq n y z a : good E y a -> on_task y -> steps E n y = Some z -> ~ on_task z ->
  exists m z' a' l, steps E m y = Some z' /\ good E z' a' /\ l_run a' = l_run a ++ l /\ (phase z' = Dispatch \/ phase z' = Exited true).
Proof.
  revert y a. induction n as [|n IH]; intros y a Hg Hon; cbn [steps]; [intros [= <-]; done|].
  destruct (step E y) as [y'|] eqn:Es; [|done]. intros Hs Hoff.
  destruct (step_sound y a y' Hg Es) as (a1 & es & H1 & H2 & Hg1).
  unfold on_task in Hon. destruct (phase y) as [|p k r| |g] eqn:Ep; try done.
  destruct (events_runq _ _ _ _ _ H1 H2) as [l Hl]; [done|]. cbn [view a_lists] in Hl.
  assert ((exists k' r', phase y' = OnTask p k' r') \/ phase y' = Dispatch \/ phase y' = Exited true) as Hph.
  { unfold step in Es. rewrite Ep in Es. destruct (body E k r (world y)) as [[c k'] w']. by apply exec_phase in Es. }
  destruct Hph as [(k' & r' & Ep')|Hph]; [|exists 1%nat, y', a1, l; cbn [steps]; by rewrite Es].
  destruct (IH y' a1 Hg1) as (m & z' & a' & l' & G1 & G2 & G3 & G4); [unfold on_task; by rewrite Ep'|done|done|].
  exists (S m), z', a', (l ++ l'). cbn [steps]. rewrite Es. split_and!; try done. by rewrite G3, Hl, app_assoc.
Qed.

(** ** Runnable tasks run *)

(** Tasks give the processor back: a segment ends by parking, yielding or returning. *)
Definition cooperative : Prop := forall y, reachable y -> on_task y -> exists n z, steps E n y = Some z /\ ~ on_task z.

Lemma steps_app n m y z : steps E n y = Some z -> steps E (n + m) y = steps E m z.
Proof. revert y. induction n as [|n IH]; intros y; cbn [steps Nat.add]; [by intros [= <-]|]. destruct (step E y); [apply IH|done]. Qed.

Lemma reachable_steps n y z : reachable y -> steps E n y = Some z -> reachable z.
Proof. intros (k & w & m & y0 & H0 & Hm) Hn. exists k, w, (m + n)%nat, y0. split; [done|]. by rewrite (steps_app _ _ _ _ Hm). Qed.

Definition runs_from p y : Prop :=
  exists n z, steps E n y = Some z /\ ((exists k r, phase z = OnTask p k r) \/ phase z = Exited true).

Lemma runs_later p n y z : steps E n y = Some z -> runs_from p z -> runs_from p y.
Proof. intros Hn (m & x & Hm & Hx). exists (n + m)%nat, x. by rewrite (steps_app _ _ _ _ Hn). Qed.

Lemma dispatched l1 p l2 y a : cooperative -> reachable y -> good E y a -> phase y = Dispatch -> l_run a = l1 ++ p :: l2 -> runs_from p y.
Proof.
  intros Hco. revert l2 y a. induction l1 as [|q l1 IH]; intros l2 y a Hre Hg Hp Ha; pose proof (dispatch_cases y a Hg Hp) as H; rewrite Ha in H; cbn [app] in H;
    destruct H as (z & k & r & Hs & Hz & Hgz & _).
  - exists 1%nat, z. cbn [steps]. rewrite Hs. split; [done|]. left. by exists k, r.
  - assert (steps E 1 y = Some z) as H1 by (cbn [steps]; by rewrite Hs).
    assert (reachable z) as Hrz by by apply (reachable_steps 1 y). assert (on_task z) as Hon by (unfold on_task; by rewrite Hz).
    destruct (Hco z Hrz Hon) as (n & x & Hn & Hx). destruct (segment_runq n z x _ Hgz Hon Hn Hx) as (m & z' & a' & l & G1 & G2 & G3 & [G4|G4]).
    + apply (runs_later p 1 y z H1), (runs_later p m z z' G1). eapply (IH (l2 ++ l)); [by apply (reachable_steps m z)|exact G2|done|].
      rewrite G3. cbn [l_run]. by rewrite <- app_assoc.
    + apply (runs_later p 1 y z H1). exists m, z'. split; [done|]. by right.
Qed.

(** [C5] The scheduler refines its list specification.  In every state a run of
    [lv_sched_run] reaches, the intrusive links spell three disjoint lists (run
    queue, parked, pool) that with the running task hold every task once; states,
    registry and counters agree with them; and whatever the next step does is a
    sequence of specified events that this phase of the loop may cause, ending
    in such a state again: the queue is first in, first out, a scan wakes the
    settled parks in park order and no others, a cancel wakes only an unsettled
    park, a drain wakes all when nothing settled. *)
Theorem scheduler_refines y : reachable y ->
  exists a, good E y a /\
    forall z, step E y = Some z ->
      exists a' es, sched_steps (settled_at E (sch y) (acting_world y)) (view y a) es (view z a') /\
        Forall (allowed (phase y)) es /\ good E z a'.
Proof. intros H. destruct (reachable_good y H) as [a Ha]. exists a. split; [done|]. intros z. by apply step_sound. Qed.

(** [C6] No runnable task starves.  If every task eventually parks, yields or
    returns, then from every state of a run whose loop has not ended, each task
    that is marked runnable is switched to after finitely many steps, unless
    the loop first stops because a task returned with a throw pending. *)
Theorem runnable_runs y p t : cooperative -> reachable y -> (forall g, phase y <> Exited g) ->
  tasks (sch y) !! p = Some t -> tstate t = RUNNABLE -> runs_from p y.
Proof.
  intros Hco Hre Hne Ht Hst. destruct (reachable_good y Hre) as [a Ha].
  assert (p ∈ l_run a) as Hin by (destruct (everyone_cases y a p t Ha Ht) as [[? _]|[[_ ?]|[[_ ?]|[_ ?]]]]; [done|congruence..]).
  apply list_elem_of_split in Hin as (l1 & l2 & Hl). destruct (phase y) as [|q k r| |g] eqn:Ep.
  - by apply (dispatched l1 p l2 y a).
  - assert (on_task y) as Hon by (unfold on_task; by rewrite Ep). destruct (Hco y Hre Hon) as (n & x & Hn & Hx).
    destruct (segment_runq n y x a Ha Hon Hn Hx) as (m & z & a' & l & G1 & G2 & G3 & [G4|G4]); [|exists m, z; split; [done|by right]].
    apply (runs_later p m y z G1). eapply (dispatched l1 p (l2 ++ l)); [done|by apply (reachable_steps m y)|exact G2|done|].
    by rewrite G3, Hl, <- app_assoc.
  - pose proof (gd_phase _ _ _ Ha) as Hph. rewrite Ep, Hl in Hph. destruct Hph as [_ Hph]. by destruct l1.
  - by destruct (Hne g).
Qed.

(** [C32] The loop ends only when all is done.  When [lv_sched_run] returns on its
    own (not through the throw gate), over a loop that spawns nothing when it
    has no work, every task ever spawned has run to completion: all task
    objects are in the pool, none is runnable, parked or registered, and the
    completed count equals the spawned count. *)
Theorem quiescent_exit y : idle_loop E -> reachable y -> phase y = Exited false ->
  (forall p t, tasks (sch y) !! p = Some t -> tstate t = POOLED) /\ reg (sch y) = [] /\
  count (sch y) NCompleted = count (sch y) NSpawned /\ count (sch y) NLive = 0.
Proof.
  intros Hid Hre Hp. destruct (reachable_good y Hre) as [a Ha]. pose proof (gd_phase _ _ _ Ha) as Hph. rewrite Hp in Hph.
  destruct Hph as (Hc & Hpk & Hrun). specialize (Hrun Hid). pose proof Ha as [Hwf Hct _ _]. rewrite Hc in Hwf, Hct.
  change (option_list (@None ptr)) with (@nil ptr) in Hwf, Hct.
  assert (live a [] = []) as Hlv by (unfold live; by rewrite Hrun, Hpk). destruct Hct as [C1 _ _ _ _ C6 _ _]. rewrite Hlv in C1. cbn [length] in C1. split_and!; [|..|lia|lia].
  - intros p t Ht. destruct (everyone_cases y a p t Ha Ht) as [[Hin _]|[[Hin _]|[[_ ?]|[Hin _]]]]; [..|done|congruence].
    + rewrite Hrun in Hin. by apply elem_of_nil in Hin.
    + rewrite Hpk in Hin. by apply elem_of_nil in Hin.
  - destruct (reg (sch y)) as [|[i p] l] eqn:Er; [done|]. assert ((i, p) ∈ reg (sch y)) as Hin by (rewrite Er; by left).
    apply (rg_exact _ _ _ (wf_registry _ _ _ Hwf)) in Hin as [Hin _]. rewrite Hlv in Hin. by apply elem_of_nil in Hin.
Qed.

(** ** Failed assertions *)

(** The calls an engine must not make. *)
Definition misuse y : Prop :=
  match phase y with
  | OnTask p k r =>
      let '(c, _, w) := body E k r (world y) in
      match c with
      | CSpawn _ | CSpawnRegistered _ | CParkOn _ | CParkAny2 _ _ | CParkJoin _ => throwing_now E w = true
      | CShield d => d <= 0 /\ exists t, tasks (sch y) !! p = Some t /\ shield t < wrap_u 16 (- d)
      | _ => False
      end
  | Quiet => exists f n ls w, e_loop_step E = Some f /\ f (world y) = (n, ls, w) /\ ls <> [] /\ throwing_now E w = true
  | _ => False
  end.

Lemma spawn_none k w s : lv_task_spawn E k w s = None -> throwing_now E w = true.
Proof. unfold lv_task_spawn. destruct (throwing_now E w); [done|]. by destruct (match pool s with Some _ => _ | None => _ end). Qed.

Lemma parking_none p k b w s a : linked s a [p] -> parking E p k b w s = None -> throwing_now E w = true.
Proof.
  intros Hl. unfold parking, park_common. destruct (throwing_now E w); [done|].
  destruct (held_out _ _ _ _ Hl) as (_ & _ & _ & _ & t & ->). by destruct (cancelled t && (shield t =? 0)).
Qed.

Lemma spawn_all_none (ls : list L) w s : spawn_all E ls w s = None -> ls <> [] /\ throwing_now E w = true.
Proof.
  revert s. induction ls as [|k ls IH]; intros s; cbn [spawn_all]; [done|]. destruct (lv_task_spawn E k w s) as [s'|] eqn:Es.
  - intros H. split; [done|]. by apply (IH s').
  - intros _. split; [done|]. by apply spawn_none in Es.
Qed.

Lemma step_none y : reachable y -> step E y = None -> misuse y.
Proof.
  intros Hre. destruct (reachable_good y Hre) as [a Ha]. unfold misuse. destruct (phase y) as [|p k r| |g] eqn:Ep.
  - pose proof (dispatch_cases y a Ha Ep) as H. destruct (l_run a); [by rewrite H|]. destruct H as (z & _ & _ & H & _). by rewrite H.
  - destruct Ha as [Hwf Hct Hr Hc]. rewrite Ep in Hc. rewrite Hc in *. unfold step. rewrite Ep.
    destruct (body E k r (world y)) as [[c k'] w]. change (option_list (Some p)) with [p] in *.
    assert (forall f b, soft f -> parking E p k' b w (upd p f (sch y)) = None -> throwing_now E w = true) as Hpark.
    { intros f b Hf. apply (parking_none _ _ _ _ _ a). apply linked_upd; [apply Hf|apply (wf_linked _ _ _ Hwf)]. }
    destruct c as [b|b| |obj|o1 o2|ids|id|d| |]; cbn [exec]; try done; try (by apply Hpark).
    + destruct (lv_task_spawn E b w (sch y)) eqn:Es; [done|]. intros _. by apply spawn_none in Es.
    + destruct (lv_task_spawn_registered E b w (sch y)) as [[n s']|] eqn:Es; [done|]. intros _. unfold lv_task_spawn_registered in Es.
      destruct (lv_task_spawn E b w (sch y)) as [s1|] eqn:Es1; [|by apply spawn_none in Es1].
      destruct (spawn_spec E _ _ _ _ _ _ Hwf Hct Es1) as (q & a' & [S1 S2 _ _ _ _ _]).
      rewrite (lk_run_tail _ _ _ (wf_linked _ _ _ S2)), (spawned_run _ _ _ S1), last_snoc in Es. done.
    + unfold lv_task_park_join. destruct (_ || _); [done|]. by apply Hpark.
    + destruct (lv_task_cancel E id w (sch y)) as [? ?]. done.
    + unfold lv_task_shield. rewrite Hc. destruct (held_out _ _ _ _ (wf_linked _ _ _ Hwf)) as (_ & _ & _ & _ & t & Et). rewrite Et.
      destruct (Z.ltb_spec 0 d); [done|]. destruct (Z.leb_spec (wrap_u 16 (- d)) (shield t)); [done|]. intros _. split; [done|]. by exists t.
  - unfold step. rewrite Ep. unfold quiet. destruct (poll_parked E (world y) (sch y)) as [[|] s1]; [done|].
    destruct (e_loop_step E) as [f|]; [|done]. destruct (f (world y)) as [[n ls] w] eqn:Ef.
    destruct (spawn_all E ls w s1) as [s2|] eqn:Es; [done|]. intros _. destruct (spawn_all_none _ _ _ Es). by exists f, n, ls, w.
  - unfold step. rewrite Ep. done.
Qed.

(** [C33] The scheduler's own assertions never fail.  A step of a run can stop on
    an assertion only when the engine breaks its side: it spawns or parks with
    a throw pending, or lowers the shield counter below zero.  An engine that
    never does either runs for ever or to the end of the loop. *)
Theorem assertions_blame_engine y : reachable y ->
  (step E y = None -> misuse y) /\ ((forall z, reachable z -> ~ misuse z) -> forall n, exists z, steps E n y = Some z).
Proof.
  intros Hre. split; [by apply step_none|]. intros Hno n. revert y Hre. induction n as [|n IH]; intros y Hre; [by exists y|].
  cbn [steps]. destruct (step E y) as [z|] eqn:Es; [|by destruct (Hno y Hre (step_none y Hre Es))].
  apply IH, (reachable_steps 1 y); [done|]. cbn [steps]. by rewrite Es.
Qed.

End Props.

(** ** A small engine

    Tasks are lists of numbers: [0] yields, [1] awaits object 7, [n + 2] spawns
    a task that yields [n] times.  Object 7 is never settled, so that a park on
    it ends by a drain. *)

Definition toy_body (k : list nat) (r : Reply) (w : unit) : Cmd (list nat) * list nat * unit :=
  match k with
  | [] => (CReturn, [], w)
  | 0%nat :: k' => (CYield, k', w)
  | 1%nat :: k' => (CParkOn (Some 7), k', w)
  | S (S n) :: k' => (CSpawn (repeat 0%nat n), k', w)
  end.
Definition toy : Engine unit (list nat) :=
  MkEngine _ _ toy_body (Some (fun _ _ => 0)) (Some (fun _ => (0, [], tt))) None (fun _ => 0) (fun _ => None).

(** The state after [n] steps of a program. *)
Definition toy_run (k : list nat) (n : nat) : option Sys :=
  match lv_sched_run toy k tt empty_sched with Some y => steps toy n y | None => None end.

Definition toy_state (k : list nat) (n : nat) : Sys :=
  match toy_run k n with Some y => y | None => MkSys empty_sched tt (Exited true) end.

Lemma toy_reachable k n : toy_run k n <> None -> reachable toy (toy_state k n).
Proof.
  unfold toy_state, toy_run. destruct (lv_sched_run toy k tt empty_sched) as [y0|] eqn:E0; [|done].
  destruct (steps toy n y0) as [y|] eqn:Es; [|done]. intros _. by exists k, tt, n, y0.
Qed.

Lemma toy_cooperative : cooperative toy.
Proof.
  intros y Hre Hon. unfold on_task in Hon. destruct (phase y) as [|p k r| |] eqn:Ep; try done. revert y r Hre Hon Ep.
  induction k as [|c k IH]; intros y r Hre _ Ep; (destruct (step toy y) as [z|] eqn:Es;
    [|exfalso; apply (step_none toy y Hre) in Es; unfold misuse in Es; rewrite Ep in Es; cbn in Es; first [done|destruct c as [|[|c]]; cbn in Es; done]]).
  - exists 1%nat, z. cbn [steps]. rewrite Es. split; [done|]. unfold step in Es. rewrite Ep in Es. cbn in Es. injection Es as <-. intros Hx. cbn in Hx. exact Hx.
  - assert (steps toy 1 y = Some z) as H1 by (cbn [steps]; by rewrite Es).
    assert (reachable toy z) as Hrz by by apply (reachable_steps toy 1 y).
    unfold step in Es. rewrite Ep in Es. destruct c as [|[|c]]; cbn [body toy toy_body] in Es.
    + exists 1%nat, z. split; [done|]. cbn in Es. injection Es as <-. intros Hx. cbn in Hx. exact Hx.
    + destruct (exec_phase _ _ _ _ _ _ _ Es) as [(k' & r' & Hz)|[Hz|Hz]]; [|exists 1%nat, z; (split; [done|]); unfold on_task; rewrite Hz; tauto..].
      cbn [exec] in Es. unfold lv_task_park_on, parking in Es. destruct (park_common _ _ _ _ _) as [[[r2|] s2]|]; [injection Es as <-|injection Es as <-; cbn in Hz; done|done].
      destruct (IH (MkSys s2 (world y) (OnTask p k (RPark r2 None))) (RPark r2 None) Hrz I eq_refl) as (n & x & Hn & Hx).
      exists (1 + n)%nat, x. by rewrite (steps_app toy _ _ _ _ H1).
    + cbn [exec] in Es. destruct (lv_task_spawn toy (repeat 0%nat c) (world y) (sch y)) as [s2|]; [injection Es as <-|done].
      destruct (IH (MkSys s2 (world y) (OnTask p k RUnit)) RUnit Hrz I eq_refl) as (n & x & Hn & Hx).
      exists (1 + n)%nat, x. by rewrite (steps_app toy _ _ _ _ H1).
Qed.

Lemma toy_idle : idle_loop toy.
Proof. intros f w n ls w' [= <-] [= <- <- <-]. done. Qed.

Lemma scheduler_refines_witness : exists a, good toy (toy_state [4; 1; 0]%nat 5) a /\
  forall z, step toy (toy_state [4; 1; 0]%nat 5) = Some z ->
    exists a' es, sched_steps (settled_at toy (sch (toy_state [4; 1; 0]%nat 5)) (acting_world toy (toy_state [4; 1; 0]%nat 5)))
      (view (toy_state [4; 1; 0]%nat 5) a) es (view z a') /\ Forall (allowed (phase (toy_state [4; 1; 0]%nat 5))) es /\ good toy z a'.
Proof. apply (scheduler_refines toy). apply toy_reachable. vm_compute. discriminate. Defined.

(** The spawned task (address 1 is the second one mapped) is runnable after two steps and is switched to. *)
Lemma runnable_runs_witness : runs_from toy 1%nat (toy_state [4; 1; 0]%nat 2).
Proof.
  destruct (tasks (sch (toy_state [4; 1; 0]%nat 2)) !! 1%nat) as [t|] eqn:Et; [|vm_compute in Et; discriminate].
  apply (runnable_runs toy (toy_state [4; 1; 0]%nat 2) 1%nat t).
  - apply toy_cooperative.
  - apply toy_reachable. vm_compute. discriminate.
  - intros g. vm_compute. discriminate.
  - exact Et.
  - vm_compute in Et. injection Et as <-. reflexivity.
Defined.

(** A main task that spawns, awaits an object nobody settles and yields: it is
    woken by the drain, and both tasks complete. *)
Lemma quiescent_exit_witness : phase (toy_state [4; 1; 0]%nat 40) = Exited false /\
  count (sch (toy_state [4; 1; 0]%nat 40)) NSpawned = 2 /\ count (sch (toy_state [4; 1; 0]%nat 40)) DrainedWakes = 1 /\
  count (sch (toy_state [4; 1; 0]%nat 40)) NCompleted = count (sch (toy_state [4; 1; 0]%nat 40)) NSpawned.
Proof.
  assert (phase (toy_state [4; 1; 0]%nat 40) = Exited false) as Hp by (vm_compute; reflexivity).
  split; [exact Hp|]. split; [vm_compute; reflexivity|]. split; [vm_compute; reflexivity|].
  apply (quiescent_exit toy (toy_state [4; 1; 0]%nat 40) toy_idle); [|exact Hp]. apply toy_reachable. vm_compute. discriminate.
Defined.

Lemma assertions_blame_engine_witness : exists z, steps toy 1000 (toy_state [4; 1; 0]%nat 5) = Some z.
Proof.
  apply (proj2 (assertions_blame_engine toy (toy_state [4; 1; 0]%nat 5) ltac:(apply toy_reachable; vm_compute; discriminate))).
  intros z _ Hm. unfold misuse in Hm. destruct (phase z) as [|p [|[|[|c]] k] r| |]; cbn in Hm; try done.
  destruct Hm as (f & n & ls & w & [= <-] & [= <- <- <-] & Hls & _). by apply Hls.
Defined.

(** ** The size of a task's stack *)

(** Rounding up to a page of [2 ^ k] bytes, while the sum does not wrap. *)
Lemma page_round_spec k sz : 0 <= k < 64 -> 0 <= sz <= 2 ^ 64 - 2 ^ k -> page_round (2 ^ k) sz = 2 ^ k * ((sz + 2 ^ k - 1) / 2 ^ k).
Proof.
  intros Hk Hsz. assert (0 < 2 ^ k) as Hp by (apply Z.pow_pos_nonneg; lia).
  unfold page_round, wrap_u. rewrite Z.mod_small by lia. set (x := sz + 2 ^ k - 1). assert (0 <= x < 2 ^ 64) as Hx by lia.
  replace (2 ^ 64 - 1 - (2 ^ k - 1)) with (Z.shiftl (Z.ones (64 - k)) k)
    by (rewrite Z.shiftl_mul_pow2, Z.ones_equiv by lia; rewrite Z.mul_pred_l, <- Z.pow_add_r by lia; replace (64 - k + k) with 64 by lia; lia).
  rewrite Z.mul_comm, <- Z.shiftr_div_pow2, <- Z.shiftl_mul_pow2 by lia. apply Z.bits_inj'. intros n Hn.
  rewrite Z.land_spec, !Z.shiftl_spec by done. destruct (Z.ltb_spec n k).
  - rewrite (Z.testbit_neg_r _ (n - k)), (Z.testbit_neg_r (Z.shiftr x k) (n - k)) by lia. apply andb_false_r.
  - rewrite Z.shiftr_spec, Z.testbit_ones_nonneg by lia. replace (n - k + k) with n by lia.
    destruct (Z.ltb_spec (n - k) (64 - k)); [by rewrite andb_true_r|]. rewrite andb_false_r. symmetry.
    destruct (Z.eq_dec x 0) as [->|]; [apply Z.testbit_0_l|]. apply Z.bits_above_log2; [lia|].
    apply Z.log2_lt_pow2; [lia|]. apply (Z.lt_le_trans _ (2 ^ 64)); [lia|]. apply Z.pow_le_mono_r; lia.
Qed.

(** What [LANG_TASK_STACK] asks for. *)
Definition requested_stack (env : option str) : Z :=
  match env with
  | Some (c :: s) => match strtoull10 (c :: s) with
                     | Some v => if 0 <? v then Z.max v LV_TASK_STACK_MIN else LV_TASK_STACK_DEFAULT
                     | None => LV_TASK_STACK_DEFAULT
                     end
  | _ => LV_TASK_STACK_DEFAULT
  end.

(** A stack is whole pages, at least the floor of 64 KiB and at least what was
    asked for, unless the request is within a page of the end of the address
    space. *)
Lemma default_stack_bounds k env : 0 <= k < 64 -> requested_stack env <= 2 ^ 64 - 2 ^ k ->
  LV_TASK_STACK_MIN <= requested_stack env <= default_stack (2 ^ k) env /\ (2 ^ k | default_stack (2 ^ k) env) /\
  default_stack (2 ^ k) env < requested_stack env + 2 ^ k.
Proof.
  intros Hk Hle. assert (default_stack (2 ^ k) env = page_round (2 ^ k) (requested_stack env)) as ->.
  { unfold default_stack, requested_stack. destruct env as [[|c s]|]; try done. destruct (strtoull10 (c :: s)) as [v|]; [|done].
    destruct (0 <? v); [|done]. f_equal. destruct (Z.ltb_spec v LV_TASK_STACK_MIN); lia. }
  assert (LV_TASK_STACK_MIN <= requested_stack env) as Hmin.
  { unfold requested_stack, LV_TASK_STACK_DEFAULT, LV_TASK_STACK_MIN.
    destruct env as [[|c s]|]; try lia. destruct (strtoull10 (c :: s)) as [v|]; [|lia]. destruct (0 <? v); lia. }
  assert (0 <= requested_stack env) as H0 by (unfold LV_TASK_STACK_MIN in Hmin; lia).
  rewrite page_round_spec by lia. assert (0 < 2 ^ k) as Hp by (apply Z.pow_pos_nonneg; lia).
  pose proof (Z.div_mod (requested_stack env + 2 ^ k - 1) (2 ^ k)). pose proof (Z.mod_pos_bound (requested_stack env + 2 ^ k - 1) (2 ^ k) Hp).
  split; [lia|]. split; [apply Z.divide_factor_l|lia].
Qed.

(** A negative or huge [LANG_TASK_STACK] wraps in the rounding: the stack has no bytes at all. *)
Lemma stack_override_wraps : default_stack 4096 (Some (lit "-1")) = 0 /\ default_stack 4096 (Some (lit "18446744073709551615")) = 0.
Proof. split; vm_compute; reflexivity. Qed.
