(* ===== verification/RuntimeCore.v ===== *)
(** * Shared runtime semantics

    Models [src/runtime/RuntimeCore.cpp] and the weak-slot helpers of
    [RuntimeValue.hpp]: method lookup, object operators, raw slot access,
    promise polling, the loop-drain step and the capture of a termination.
    Engine callbacks are functions over an engine state. *)

From S2P Require Import Prelude Token Value RuntimeLoop.

Local Open Scope Z_scope.

(** ** Method lookup and operators *)

(** [(first, arityHit, arityHits)] over the slot list. *)
Definition find_step (name : str) (argc : Z) (st : option Decl * option Decl * Z) (s : Slot) : option Decl * option Decl * Z :=
  let '(first, hit, hits) := st in
  if negb (sl_isMethod s) || negb (eqs (sl_name s) name) then st
  else
    let first := match first with None => sl_decl s | Some _ => first end in
    match sl_decl s with
    | Some d => if (0 <=? argc) && (Z.of_nat (d_nparams d) =? argc) then (first, Some d, hits + 1) else (first, hit, hits)
    | None => (first, hit, hits)
    end.

Definition rtFindMethod (cls : option Symbol) (name : str) (argc : Z) : option Decl :=
  match cls with
  | None => None
  | Some c =>
      let '(first, hit, hits) := fold_left (find_step name argc) (sy_slots c) (None, None, 0) in
      if hits =? 1 then hit else first
  end.

Definition rtOpSymbol (op : TokenKind) : str :=
  match op with
  | TkPlus => lit "+" | TkMinus => lit "-" | TkStar => lit "*" | TkSlash => lit "/" | TkPercent => lit "%"
  | TkEqEq => lit "==" | TkBangEq => lit "!=" | TkLt => lit "<" | TkGt => lit ">" | TkLe => lit "<=" | TkGe => lit ">="
  | TkLtLt => lit "<<" | TkGtGt => lit ">>" | TkPipe => lit "|" | TkAmp => lit "&" | _ => lit "?"
  end.

Definition is_eqeq (op : TokenKind) : bool := match op with TkEqEq => true | _ => false end.
Definition is_bangeq (op : TokenKind) : bool := match op with TkBangEq => true | _ => false end.
Definition obj_of (v : Value) : option loc := match v with VObject p => p | _ => None end.
Definition is_object (v : Value) : bool := match v with VObject _ => true | _ => false end.

(** What an operator on objects does: call the method, call [==] and negate,
    answer by identity, or raise. *)
Inductive ArithPlan := PlInvoke (m : Decl) | PlNegate (m : Decl) | PlSame (b : bool) | PlNoOp (sym : str).

Definition object_arith_plan (op : TokenKind) (cls : option Symbol) (resolved : option Decl) (l r : Value) : ArithPlan :=
  let sym := rtOpSymbol op in
  match (match resolved with Some d => Some d | None => rtFindMethod cls sym (-1) end) with
  | Some m => PlInvoke m
  | None =>
      match (if is_bangeq op then rtFindMethod cls (lit "==") (-1) else None) with
      | Some eq => PlNegate eq
      | None =>
          match cls with
          | Some c =>
              if (is_eqeq op || is_bangeq op) && negb (sy_isValue c) then
                let same := is_object r && bool_decide (obj_of l = obj_of r) in
                PlSame (if is_eqeq op then same else negb same)
              else PlNoOp sym
          | None => PlNoOp sym
          end
      end
  end.

Section Engine.
Context {E : Type} (invoke : Decl -> Value -> Value -> E -> Value * E) (raiseNoOp : str -> E -> Value * E).

Definition rtObjectArith (op : TokenKind) (cls : option Symbol) (resolved : option Decl) (l r : Value) (e : E) : Value * E :=
  match object_arith_plan op cls resolved l r with
  | PlInvoke m => invoke m l r e
  | PlNegate eq => let '(res, e') := invoke eq l r e in (VBool (negb (v_b res)), e')
  | PlSame b => (VBool b, e)
  | PlNoOp sym => raiseNoOp sym e
  end.

End Engine.

(** ** Slots *)

Lemma h_obj_insert h p o : h_obj (<[p := CObj o]> h) p = Some o.
Proof. unfold h_obj. by rewrite lookup_insert_eq. Qed.
Lemma h_obj_insert_ne h p q c : p <> q -> h_obj (<[p := c]> h) q = h_obj h q.
Proof. intros H. unfold h_obj. by rewrite lookup_insert_ne. Qed.

Fixpoint key_from (slots : list Slot) (name source : str) : option str :=
  match slots with
  | [] => None
  | s :: slots' =>
      if sl_isMethod s || negb (eqs (sl_name s) name) then key_from slots' name source
      else if negb (eqs source []) && match sl_source s with None => true | Some n => negb (eqs n source) end
      then key_from slots' name source
      else match sl_source s with
           | Some n => if sl_distinct s then Some (n ++ lit "::" ++ name) else Some name
           | None => Some name
           end
  end.

Definition rtKeyFor (cls : option Symbol) (name source : str) : str :=
  match match cls with Some c => key_from (sy_slots c) name source | None => None end with
  | Some k => k
  | None => match source with [] => name | _ => source ++ lit "::" ++ name end
  end.

(** Whether a storage key names a weak slot of the class. *)
Definition weak_slot (storageKey : str) (s : Slot) : bool :=
  negb (sl_isMethod s) && sl_isWeak s &&
  (eqs storageKey (sl_name s) || match sl_source s with Some n => eqs storageKey (n ++ lit "::" ++ sl_name s) | None => false end).
Definition is_weak_key (c : Symbol) (storageKey : str) : bool := existsb (weak_slot storageKey) (sy_slots c).

(** [weak_ptr::lock]: the target, while it is allocated. *)
Definition weakObjectRead (h : Heap) (o : Object) (key : str) : Value :=
  match weakFields o !! key with
  | Some q => match h_obj h q with Some _ => VObject (Some q) | None => VNone end
  | None => VNone
  end.
Definition weakObjectWrite (o : Object) (key : str) (v : Value) : Object :=
  match v with
  | VObject (Some q) => MkObject (o_cls o) (fields o) (<[key := q]> (weakFields o))
  | _ => MkObject (o_cls o) (fields o) (delete key (weakFields o))
  end.

(** Both walk [obj->cls->shape.slots] without a test of [obj] or [cls]: [None]
    is a null pointer followed. *)
Definition rtRawFieldGet (h : Heap) (p : loc) (storageKey : str) : option Value :=
  match h_obj h p with
  | Some o =>
      match o_cls o with
      | Some c => Some (if is_weak_key c storageKey then weakObjectRead h o storageKey
                        else match fields o !! storageKey with Some v => v | None => VVoid end)
      | None => None
      end
  | None => None
  end.

Definition rtRawFieldSet (h : Heap) (p : loc) (storageKey : str) (v : Value) : option Heap :=
  match h_obj h p with
  | Some o =>
      match o_cls o with
      | Some c =>
          let o' := if is_weak_key c storageKey then weakObjectWrite o storageKey v
                    else MkObject (o_cls o) (<[storageKey := v]> (fields o)) (weakFields o) in
          Some (<[p := CObj o']> h)
      | None => None
      end
  | None => None
  end.

(** ** Tasks and promises *)

Definition rtPollPromise (o : Object) : Z :=
  let bit (k : string) (n : Z) := match fields o !! lit k with Some v => if v_b v then n else 0 | None => 0 end in
  Z.lor (bit "ready"%string 1) (bit "failed"%string 2).

Definition is_closure (v : Value) : bool := match v with VClosure (Some _) => true | _ => false end.

(** One loop batch drained into tasks: the result code, the jobs spawned and the loop. *)
Definition rtTaskLoopStep (termStashed : bool) (e : LoopEnv) (l : RuntimeLoop Value) : Z * list LoopCallback * RuntimeLoop Value :=
  if termStashed then (0, [], l)
  else if negb (hasWork l) then (0, [], l)
  else let '(batch, l') := nextBatch e l in (1, List.filter (fun job => is_closure (lc_callback job)) batch, l').

Record TermState := MkTerm {
  throwing : bool; exiting : bool; thrown : Value; termStashed : bool; termThrown : Value; termExiting : bool
}.
Definition rtCaptureTermination (t : TermState) : TermState :=
  if negb (throwing t) then t
  else if termStashed t then MkTerm false false (thrown t) true (termThrown t) (termExiting t)
  else MkTerm false false (thrown t) true (thrown t) (exiting t).

(** ** Facts *)

(** Slots read back what was written.  Storing a value under a key of an
    object that has a class succeeds; reading that key then gives the value, or,
    through a weak slot, the object while it is allocated and [None] otherwise;
    every other key and every other object is as before. *)
Theorem raw_field_set_get (h : Heap) (p : loc) (o : Object) (c : Symbol) (key : str) (v : Value) :
  h_obj h p = Some o -> o_cls o = Some c -> exists h', rtRawFieldSet h p key v = Some h' /\
  rtRawFieldGet h' p key =
    Some (if is_weak_key c key then
       match v with VObject (Some q) => match h_obj h q with Some _ => v | None => VNone end | _ => VNone end
     else v) /\
  (forall key', key' <> key -> rtRawFieldGet h' p key' = rtRawFieldGet h p key') /\
  (forall p' key', p' <> p -> rtRawFieldGet h' p' key' = rtRawFieldGet h p' key').
Proof.
  intros Ho Hcls. unfold rtRawFieldSet. rewrite Ho, Hcls. eexists. split; [reflexivity|].
  set (o' := if is_weak_key c key then _ else _).
  assert (o_cls o' = Some c) as Hc by (unfold o', weakObjectWrite; by destruct (is_weak_key c key), v as [| | | | |[]| | | | | | |]).
  assert (forall x k, weakObjectRead (<[p:=CObj o']> h) x k = weakObjectRead h x k) as Hread.
  { intros x k. unfold weakObjectRead. destruct (weakFields x !! k) as [q|]; [|done].
    destruct (decide (q = p)) as [->|]; [by rewrite h_obj_insert, Ho|by rewrite h_obj_insert_ne]. }
  split_and!.
  - unfold rtRawFieldGet. rewrite h_obj_insert, Hc, Hread. f_equal. unfold o'. destruct (is_weak_key c key); cbn [fields].
    + unfold weakObjectRead, weakObjectWrite. destruct v as [| | | | |[q|]| | | | | | |]; cbn [weakFields];
        by rewrite ?lookup_delete_eq, ?lookup_insert_eq.
    + by rewrite lookup_insert_eq.
  - intros key' Hne. unfold rtRawFieldGet. rewrite Ho, h_obj_insert, Hc, Hcls, Hread. f_equal. unfold o', weakObjectRead, weakObjectWrite.
    destruct (is_weak_key c key'), (is_weak_key c key), v as [| | | | |[q|]| | | | | | |]; cbn [fields weakFields];
      by rewrite ?lookup_delete_ne, ?lookup_insert_ne.
  - intros p' key' Hne. unfold rtRawFieldGet. rewrite h_obj_insert_ne by done.
    destruct (h_obj h p') as [x|]; [|done]. by rewrite Hread.
Qed.

Definition link_class : Symbol :=
  MkSymbol 1 (lit "Node") false [MkSlot (lit "value") None None false false false; MkSlot (lit "parent") None None false false true].
Definition link_heap : Heap :=
  <[1%nat := CObj (MkObject (Some link_class) ∅ ∅)]> (<[2%nat := CObj (MkObject (Some link_class) ∅ ∅)]> ∅).

Lemma raw_field_set_get_witness :
  exists h', rtRawFieldSet link_heap 1 (lit "parent") (VObject (Some 2%nat)) = Some h' /\
    rtRawFieldGet h' 1 (lit "parent") = Some (VObject (Some 2%nat)).
Proof.
  destruct (raw_field_set_get link_heap 1 (MkObject (Some link_class) ∅ ∅) link_class (lit "parent") (VObject (Some 2%nat)) eq_refl eq_refl)
    as (h' & H1 & H2 & _).
  exists h'. split; [exact H1|]. rewrite H2. reflexivity.
Defined.

(** What a finished task reports: nothing, or the value it threw and whether it was an exit. *)
Definition task_end : Type := option (Value * bool).
Definition finish_task (t : TermState) (e : task_end) : TermState :=
  rtCaptureTermination (match e with
                        | Some (v, ex) => MkTerm true ex v (termStashed t) (termThrown t) (termExiting t)
                        | None => t
                        end).
Fixpoint first_end (es : list task_end) : task_end :=
  match es with [] => None | Some x :: _ => Some x | None :: es' => first_end es' end.

Lemma finish_stashed es t : throwing t = false -> termStashed t = true ->
  let t' := fold_left finish_task es t in
  throwing t' = false /\ termStashed t' = true /\ termThrown t' = termThrown t /\ termExiting t' = termExiting t.
Proof.
  revert t. induction es as [|[[v ex]|] es IH]; intros t Ht Hs; cbn [fold_left]; [done| |].
  - assert (finish_task t (Some (v, ex)) = MkTerm false false v true (termThrown t) (termExiting t)) as ->
      by (unfold finish_task, rtCaptureTermination; cbn; by rewrite Hs).
    by apply (IH (MkTerm false false v true (termThrown t) (termExiting t))).
  - assert (finish_task t None = t) as -> by (unfold finish_task, rtCaptureTermination; by rewrite Ht). by apply IH.
Qed.

(** The first termination wins: whatever sequence of tasks finishes, no
    throw is left live across a task boundary, and what is stashed is the value
    and the exit flag of the first task that threw; nothing is stashed when
    none did. *)
Theorem first_termination_wins (es : list task_end) :
  let t := fold_left finish_task es (MkTerm false false VVoid false VVoid false) in
  throwing t = false /\ (if termStashed t then Some (termThrown t, termExiting t) else None) = first_end es.
Proof.
  cbv zeta. induction es as [|[[v ex]|] es IH]; cbn [fold_left first_end]; [done| |exact IH].
  change (finish_task _ (Some (v, ex))) with (MkTerm false false v true v ex).
  destruct (finish_stashed es (MkTerm false false v true v ex)) as (H1 & H2 & H3 & H4); [done|done|].
  by rewrite H2, H3, H4.
Qed.

(** ** Method lookup against its description *)

Definition named (name : str) (s : Slot) : bool := sl_isMethod s && eqs (sl_name s) name.
Definition decls_named (name : str) (slots : list Slot) : list Decl :=
  concat (map (fun s => match sl_decl s with Some d => [d] | None => [] end) (List.filter (named name) slots)).
Definition has_arity (argc : Z) (d : Decl) : bool := (0 <=? argc) && (Z.of_nat (d_nparams d) =? argc).

Lemma decls_named_cons name s slots : decls_named name (s :: slots) =
  if named name s then match sl_decl s with Some d => d :: decls_named name slots | None => decls_named name slots end
  else decls_named name slots.
Proof. unfold decls_named. cbn [List.filter]. destruct (named name s); [|done]. cbn [map concat]. by destruct (sl_decl s). Qed.

Lemma find_fold name argc slots first hit hits : fold_left (find_step name argc) slots (first, hit, hits) =
  (match first with Some d => Some d | None => head (decls_named name slots) end,
   match last (List.filter (has_arity argc) (decls_named name slots)) with Some d => Some d | None => hit end,
   hits + Z.of_nat (length (List.filter (has_arity argc) (decls_named name slots)))).
Proof.
  revert first hit hits. induction slots as [|s slots IH]; intros first hit hits; cbn [fold_left].
  - cbn. rewrite Z.add_0_r. by destruct first.
  - rewrite decls_named_cons. unfold find_step at 2. rewrite <- negb_andb. fold (named name s).
    destruct (named name s); cbn [negb]; [|apply IH]. destruct (sl_decl s) as [d|]; [|rewrite IH; by destruct first].
    fold (has_arity argc d). cbn [List.filter head]. destruct (has_arity argc d); rewrite IH.
    + cbn [length]. f_equal; [f_equal|lia]; [by destruct first|].
      destruct (List.filter (has_arity argc) (decls_named name slots)) as [|y l]; [done|].
      change (last (d :: y :: l)) with (last (y :: l)). destruct (last (y :: l)) eqn:El; [done|]. by apply last_None in El.
    + by destruct first.
Qed.

(** Method lookup by arity: the methods of that name are tried in slot
    order; when exactly one of them takes the given number of arguments it is
    chosen, otherwise (none, several, or no count given) the first one of that
    name is. *)
Theorem find_method_spec (c : Symbol) (name : str) (argc : Z) :
  rtFindMethod (Some c) name argc =
    match List.filter (has_arity argc) (decls_named name (sy_slots c)) with
    | [d] => Some d
    | _ => head (decls_named name (sy_slots c))
    end.
Proof.
  unfold rtFindMethod. rewrite find_fold. destruct (List.filter _ _) as [|d [|d' l]]; cbn [length last]; [done|done|].
  destruct (Z.eqb_spec (0 + Z.of_nat (S (S (length l)))) 1); [lia|done].
Qed.
