(* ===== verification/IrInterp.v ===== *)
(** * The IR interpreter

    Models [src/backend/IrInterp.cpp] and [IrInterp.hpp]: the register machine
    that executes an [IrModule].

    The recursion of [call] and [frameExec] is an explicit stack: a frame that
    has called another one is suspended with what the instruction does when the
    call returns ([Kont]) and with the values the C++ temporaries of that
    instruction keep alive ([pins]).  So one [step] is one instruction, one
    return, one turn of the pump or one top-level call, and what is referenced
    when a reference count is read is what the program references: the
    registers and temporaries of every frame, globals, pending exceptions, loop
    callbacks and [others], the values held by suspended tasks.

    A [Fault] is what C++ leaves undefined: an index outside a vector, a
    location that is not a cell of the right kind, signed overflow; [FDepth]
    is a recursion deeper than [depth] (class hierarchies, nested values).
    The natives, [malloc], the clock and [poll] are a [Platform]. *)

From S2P Require Import TaskSched.
From S2P Require Import Prelude Token Value RefHeap Ir RuntimeLoop RuntimeCore MemVerify.

Local Open Scope Z_scope.

Inductive Fault := FRange | FDangling | FNull | FOverflow | FDepth | FMemory.
Inductive Run (A : Type) := Go (a : A) | Stop (f : Fault).
Arguments Go {A} a.
Arguments Stop {A} f.
Definition run_bind {A B} (r : Run A) (f : A -> Run B) : Run B := match r with Go a => f a | Stop e => Stop e end.
Notation "'let!' x ':=' r 'in' k" := (run_bind r (fun x => k)) (at level 10, x pattern, r at level 100, k at level 200).
Definition from_option {A} (e : Fault) (o : option A) : Run A := match o with Some a => Go a | None => Stop e end.

(** An allocation of a size the program chose: beyond the 2^47 bytes of a user
    address space [std::vector] and [std::string] throw ([length_error] or
    [bad_alloc]) and nothing catches it.  Smaller requests are taken to be met, as
    every other allocation is. *)
Definition sized (n : Z) : Run unit := if n <=? 2 ^ 47 then Go tt else Stop FMemory.

(** [v[i]] with an [int] index. *)
Definition at_index {A} (l : list A) (i : Z) : Run A :=
  if i <? 0 then Stop FRange else from_option FRange (l !! Z.to_nat i).
Definition put_index {A} (l : list A) (i : Z) (x : A) : Run (list A) :=
  if (i <? 0) || (Z.of_nat (length l) <=? i) then Stop FRange else Go (<[Z.to_nat i := x]> l).
(** [vector(begin + c, begin + c + d)]. *)
Definition window {A} (l : list A) (c d : Z) : Run (list A) :=
  if (c <? 0) || (d <? 0) || (Z.of_nat (length l) <? c + d) then Stop FRange else Go (take (Z.to_nat d) (drop (Z.to_nat c) l)).

(** ** The semantic model *)

Record Member := MkMember { m_decl : Decl; m_isGet : bool; m_isSet : bool }.
Record ClassDecl := MkClassDecl { cd_body : list Member; cd_bases : list (option Symbol) }.
Record Sema := MkSema { global_lookup : str -> option Symbol; class_decl : Symbol -> option ClassDecl }.

(** ** State *)

(** What a native can reach: the heap, the loop, the captured output and what
    was written through in raw mode, the requested exit. *)
Record Host (X : Type) := MkHost {
  heap : Heap; next_loc : loc; addr : gmap loc Z; loop_ : RuntimeLoop Value; out_ : str; ttyRaw : bool; written : str;
  exitRequested : bool; interpExitCode : Z; ext : X
}.
Arguments MkHost {X}.
Arguments heap {X} h.
Arguments next_loc {X} h.
Arguments addr {X} h.
Arguments loop_ {X} h.
Arguments out_ {X} h.
Arguments ttyRaw {X} h.
Arguments written {X} h.
Arguments exitRequested {X} h.
Arguments interpExitCode {X} h.
Arguments ext {X} h.

(** [nativeCall] and [nativeFreeCall] answer [None] for a name they do not know,
    otherwise the result, the error text and the host they leave. *)
Record Platform (X : Type) := MkPlatform {
  nativeCall : str -> str -> Value -> list Value -> bool -> Host X -> Run (option (Value * str * Host X));
  nativeFreeCall : str -> list Value -> Host X -> Run (option (Value * str * Host X));
  malloc : gset Z -> nat -> Z;
  loop_env : Host X -> LoopEnv * Host X;
  nan_bits : Z;
  lv_tasks_enabled : bool
}.
Arguments nativeCall {X} p.
Arguments nativeFreeCall {X} p.
Arguments malloc {X} p.
Arguments loop_env {X} p.
Arguments nan_bits {X} p.
Arguments lv_tasks_enabled {X} p.

(** [make_shared]: a new location at an address no allocated cell has. *)
Definition used_addresses {X} (h : Host X) : gset Z :=
  list_to_set (omap (fun p => addr h !! p) (map_to_list (heap h)).*1).
Definition host_alloc {X} (mal : gset Z -> nat -> Z) (c : Cell) (h : Host X) : loc * Host X :=
  let p := next_loc h in
  (p, MkHost (<[p := c]> (heap h)) (S p) (<[p := mal (used_addresses h) p]> (addr h)) (loop_ h) (out_ h)
        (ttyRaw h) (written h) (exitRequested h) (interpExitCode h) (ext h)).
(** [interpEmitStdout]. *)
Definition host_emit {X} (text : str) (h : Host X) : Host X :=
  let '(o, wr) := if ttyRaw h then ([], written h ++ out_ h ++ text) else (out_ h ++ text, written h) in
  MkHost (heap h) (next_loc h) (addr h) (loop_ h) o (ttyRaw h) wr (exitRequested h) (interpExitCode h) (ext h).

(** The members of the interpreter; [term] has the throw and exit flags and the
    termination stash. *)
Record Interp (X : Type) := MkInterp {
  host : Host X; globals_ : list Value; term : TermState; mem_ : MemVerifier; tracked_ : Z; violations_ : list str;
  others : list Value
}.
Arguments MkInterp {X}.
Arguments host {X} i.
Arguments globals_ {X} i.
Arguments term {X} i.
Arguments mem_ {X} i.
Arguments tracked_ {X} i.
Arguments violations_ {X} i.
Arguments others {X} i.

Record Frame := MkFrame { f_fn : nat; pc : Z; regs : list Value; extra : list Value; weaks : list (Z * loc) }.

(** A call into the task scheduler and its answer. *)
Inductive TaskCmd :=
| TcSpawn (cb : Value) | TcParkOn (p : loc) | TcParkAny2 (p q : loc) | TcJoin (ids : list Z) | TcCancel (id : Z) | TcShield (delta : Z).
Record TaskReply := MkReply { reply_code : Z; reply_which : Z }.

(** What an instruction does with the answer of the call it made. *)
Inductive Kont :=
| KSet (a : Z)                                   (* regs[a] = result *)
| KDrop                                          (* result unused *)
| KNot (a : Z)                                   (* regs[a] = !result *)
| KKeep (a : Z) (base : Value)                   (* regs[a] = base *)
| KColMember (a : Z) (key : str)                 (* regs[a] = getMember(result, key) *)
| KFieldCall (a : Z) (win : list Value) (name : str)   (* call the closure read from a field *)
| KPump (a : Z) (p : Value) (batch : list (LoopCallback (V := Value))) (done : nat)
| KAwait (a : Z) (p : Value) (saved : Value)
| KSpawned (a : Z)
| KJoin (a : Z) (n : Z) (saved : Value)
| KAny2 (a : Z) (saved : Value)
| KRegistry (a : Z).

Record Susp := MkSusp { s_frame : Frame; s_kont : Kont; s_pins : list Value }.

(** How an instruction leaves the dispatch switch. *)
Inductive Ctl :=
| Next | Goto (target : Z) | Return (v : Value)
| Enter (fn : Z) (args : list Value) (k : Kont) (pins : list Value)
| Sched (c : TaskCmd) (k : Kont) (pins : list Value)
| Spin (k : Kont).

(** The value of an operation, or the call that computes it. *)
Inductive Act := ADone (v : Value) | ACall (fn : Z) (args : list Value).

(** ** What is referenced *)

Definition callback_of (j : LoopCallback (V := Value)) : Value := lc_callback j.
Definition loop_values (l : RuntimeLoop Value) : list Value := map t_callback (timers_ l) ++ map w_callback (watches_ l).
Definition kont_values (k : Kont) : list Value :=
  match k with
  | KKeep _ v => [v]
  | KFieldCall _ win _ => win
  | KPump _ p batch _ => p :: map callback_of batch
  | KAwait _ p saved => [p; saved]
  | KJoin _ _ saved | KAny2 _ saved => [saved]
  | _ => []
  end.
Definition frame_values (f : Frame) : list Value := regs f ++ extra f.
Definition susp_values (s : Susp) : list Value := frame_values (s_frame s) ++ kont_values (s_kont s) ++ s_pins s.
Definition term_values (t : TermState) : list Value := [thrown t; termThrown t].

Section Machine.
Context {X : Type} (P : Platform X) (mod_ : IrModule) (sema : Sema) (own : option (list (nat * Z))) (memOn : bool) (depth : nat).

Definition interp_values (w : Interp X) : list Value :=
  globals_ w ++ term_values (term w) ++ others w ++ loop_values (loop_ (host w)).

(** ** Field updates *)

Definition set_host (h : Host X) (w : Interp X) : Interp X :=
  MkInterp h (globals_ w) (term w) (mem_ w) (tracked_ w) (violations_ w) (others w).
Definition set_globals (g : list Value) (w : Interp X) : Interp X :=
  MkInterp (host w) g (term w) (mem_ w) (tracked_ w) (violations_ w) (others w).
Definition set_term (t : TermState) (w : Interp X) : Interp X :=
  MkInterp (host w) (globals_ w) t (mem_ w) (tracked_ w) (violations_ w) (others w).
Definition set_mem (m : MemVerifier) (w : Interp X) : Interp X :=
  MkInterp (host w) (globals_ w) (term w) m (tracked_ w) (violations_ w) (others w).
Definition set_tracked (n : Z) (w : Interp X) : Interp X :=
  MkInterp (host w) (globals_ w) (term w) (mem_ w) n (violations_ w) (others w).
Definition set_violations (v : list str) (w : Interp X) : Interp X :=
  MkInterp (host w) (globals_ w) (term w) (mem_ w) (tracked_ w) v (others w).

Definition host_heap (hp : Heap) (h : Host X) : Host X :=
  MkHost hp (next_loc h) (addr h) (loop_ h) (out_ h) (ttyRaw h) (written h) (exitRequested h) (interpExitCode h) (ext h).
Definition host_loop (l : RuntimeLoop Value) (h : Host X) : Host X :=
  MkHost (heap h) (next_loc h) (addr h) l (out_ h) (ttyRaw h) (written h) (exitRequested h) (interpExitCode h) (ext h).
Definition host_out (o wr : str) (h : Host X) : Host X :=
  MkHost (heap h) (next_loc h) (addr h) (loop_ h) o (ttyRaw h) wr (exitRequested h) (interpExitCode h) (ext h).
Definition set_heap (hp : Heap) (w : Interp X) : Interp X := set_host (host_heap hp (host w)) w.
Definition w_heap (w : Interp X) : Heap := heap (host w).

Definition set_throw (b : bool) (v : Value) (t : TermState) : TermState :=
  MkTerm b (exiting t) v (termStashed t) (termThrown t) (termExiting t).
(** [exiting_ = true; throwing_ = true]. *)
Definition exit_throw (w : Interp X) : Interp X :=
  let t := term w in set_term (MkTerm true true (thrown t) (termStashed t) (termThrown t) (termExiting t)) w.
Definition set_thrown (v : Value) (w : Interp X) : Interp X := set_term (set_throw (throwing (term w)) v (term w)) w.
Definition is_throwing (w : Interp X) : bool := throwing (term w).

Definition set_regs (r : list Value) (f : Frame) : Frame := MkFrame (f_fn f) (pc f) r (extra f) (weaks f).
Definition set_pc (n : Z) (f : Frame) : Frame := MkFrame (f_fn f) n (regs f) (extra f) (weaks f).
Definition set_weaks (l : list (Z * loc)) (f : Frame) : Frame := MkFrame (f_fn f) (pc f) (regs f) (extra f) l.

Definition getr (f : Frame) (i : Z) : Run Value := at_index (regs f) i.
Definition setr (f : Frame) (i : Z) (v : Value) : Run Frame := let! r := put_index (regs f) i v in Go (set_regs r f).

Definition alloc (c : Cell) (w : Interp X) : loc * Interp X :=
  let '(p, h) := host_alloc (malloc P) c (host w) in (p, set_host h w).

Definition object_at (w : Interp X) (p : loc) : Run Object := from_option FDangling (h_obj (w_heap w) p).
Definition array_at (w : Interp X) (p : loc) : Run (list Value) := from_option FDangling (h_arr (w_heap w) p).
Definition map_at (w : Interp X) (p : loc) : Run (list (Value * Value)) := from_option FDangling (h_map (w_heap w) p).
Definition closure_at (w : Interp X) (p : loc) : Run Closure := from_option FDangling (h_clos (w_heap w) p).

Definition emit (text : str) (w : Interp X) : Interp X := set_host (host_emit text (host w)) w.

(** ** Dynamic dispatch over the semantic model *)

Definition classOfValue (w : Interp X) (v : Value) : Run (option Symbol) :=
  match v with
  | VObject (Some p) => let! o := object_at w p in Go (o_cls o)
  | VArray _ => Go (global_lookup sema (lit "Array"))
  | VMap _ => Go (global_lookup sema (lit "Map"))
  | VBlock _ => Go (global_lookup sema (lit "Block"))
  | VInt _ => Go (global_lookup sema (lit "int"))
  | VChar _ => Go (global_lookup sema (lit "char"))
  | VString _ => Go (global_lookup sema (lit "string"))
  | VBool _ => Go (global_lookup sema (lit "bool"))
  | VFloat _ => Go (global_lookup sema (lit "float"))
  | _ => Go None
  end.

Definition findMethodByName (cls : option Symbol) (name : str) (argc : Z) : option Decl := rtFindMethod cls name argc.

Definition accessor_here (name : str) (wantGet : bool) (ms : list Member) : option Decl :=
  option_map m_decl
    (find (fun m => ((wantGet && m_isGet m) || (negb wantGet && m_isSet m)) && eqs (d_name (m_decl m)) name) ms).

(** The first base that answers. *)
Fixpoint first_base {A} (f : Symbol -> Run (option A)) (bases : list (option Symbol)) : Run (option A) :=
  match bases with
  | [] => Go None
  | None :: bs => first_base f bs
  | Some b :: bs => let! r := f b in match r with Some a => Go (Some a) | None => first_base f bs end
  end.

Fixpoint find_accessor (fuel : nat) (name : str) (wantGet : bool) (cls : Symbol) : Run (option Decl) :=
  match fuel with
  | O => Stop FDepth
  | S f =>
      match class_decl sema cls with
      | None => Go None
      | Some cd =>
          match accessor_here name wantGet (cd_body cd) with
          | Some d => Go (Some d)
          | None => first_base (find_accessor f name wantGet) (cd_bases cd)
          end
      end
  end.
Definition findAccessor (cls : option Symbol) (name : str) (wantGet : bool) : Run (option Decl) :=
  match cls with Some c => find_accessor depth name wantGet c | None => Go None end.

Fixpoint subclass (fuel : nat) (a b : Symbol) : Run bool :=
  if decide (a = b) then Go true
  else
    match fuel with
    | O => Stop FDepth
    | S f =>
        match class_decl sema a with
        | None => Go false
        | Some cd =>
            let! r := first_base (fun s => let! r := subclass f s b in Go (if r then Some tt else None)) (cd_bases cd) in
            Go (match r with Some _ => true | None => false end)
        end
    end.
Definition isSubclassOrSelf (a b : option Symbol) : Run bool :=
  match a, b with Some a, Some b => subclass depth a b | _, _ => Go false end.

(** [s.find(p)]. *)
Fixpoint find_str (p s : str) : option nat :=
  if has_at s 0 p then Some O else match s with [] => None | _ :: s' => option_map S (find_str p s') end.

Definition keyFor (cls : option Symbol) (nameOrQualified : str) : str :=
  match find_str (lit "::") nameOrQualified with
  | Some p => rtKeyFor cls (drop (p + 2) nameOrQualified) (take p nameOrQualified)
  | None => rtKeyFor cls nameOrQualified []
  end.
Definition plain_name (key : str) : str :=
  match find_str (lit "::") key with Some p => drop (p + 2) key | None => key end.

(** ** Exceptions *)

Definition raiseClass (clsName message : str) (w : Interp X) : Interp X :=
  match (match global_lookup sema clsName with Some c => Some c | None => global_lookup sema (lit "RuntimeException") end) with
  | Some c =>
      let '(p, w) := alloc (CObj (MkObject (Some c) {[lit "message" := VString message]} ∅)) w in
      set_term (set_throw true (VObject (Some p)) (term w)) w
  | None => set_term (set_throw true (VString message) (term w)) w
  end.
Definition raise (message : str) (w : Interp X) : Interp X := raiseClass (lit "RuntimeException") message w.

(** ** Calls *)

Definition nonempty {A} (l : list A) : bool := match l with [] => false | _ => true end.

Definition callDecl (d : Decl) (args : list Value) (cowReceiver : bool) (w : Interp X) : Run (Act * Interp X) :=
  match find_decl (d_id d) (byDecl mod_) with
  | Some fi => Go (ACall (Z.of_nat fi) args, w)
  | None =>
      match args with
      | [] => Go (ADone VVoid, w)
      | self :: rest =>
          let! rc := classOfValue w self in
          match rc with
          | None => Go (ADone VVoid, w)
          | Some c =>
              let! r := nativeCall P (sy_name c) (d_name d) self rest cowReceiver (host w) in
              match r with
              | Some (out, err, h) =>
                  let w := set_host h w in
                  if nonempty err then Go (ADone VVoid, raise err w) else Go (ADone out, w)
              | None => Go (ADone VVoid, w)
              end
          end
      end
  end.

(** [call]: the callee's frame; arguments past the last register stay in the argument vector. *)
Definition enter_frame (fi : Z) (args : list Value) : Run Frame :=
  let! fn := at_index (functions mod_) fi in
  let n := nregs fn in
  Go (MkFrame (Z.to_nat fi) 0 (take n args ++ replicate (n - length args) VVoid) (drop n args) []).

(** The function index an IR closure keeps under ["@fn"]. *)
Definition closure_fn (w : Interp X) (v : Value) : Run (option Z) :=
  match v with
  | VClosure (Some p) =>
      let! c := closure_at w p in
      Go (match c_env c with e :: _ => option_map v_i (e !! lit "@fn") | [] => None end)
  | _ => Go None
  end.

(** ** Members, indices, iteration, operators *)

Definition getMember (base : Value) (key : str) (w : Interp X) : Run (Act * Interp X) :=
  match base with
  | VObject (Some p) =>
      let! o := object_at w p in
      let! g := findAccessor (o_cls o) (plain_name key) true in
      match g with
      | Some d => callDecl d [base] false w
      | None => let! v := from_option FNull (rtRawFieldGet (w_heap w) p (keyFor (o_cls o) key)) in Go (ADone v, w)
      end
  | _ => Go (ADone VVoid, w)
  end.

Definition setMember (base : Value) (key : str) (v : Value) (w : Interp X) : Run (Act * Interp X) :=
  match base with
  | VObject (Some p) =>
      let! o := object_at w p in
      let! s := findAccessor (o_cls o) (plain_name key) false in
      match s with
      | Some d => callDecl d [base; v] false w
      | None => let! h := from_option FNull (rtRawFieldSet (w_heap w) p (keyFor (o_cls o) key) v) in Go (ADone VVoid, set_heap h w)
      end
  | _ => Go (ADone VVoid, w)
  end.

Definition bounds_error (i : Z) (len : nat) : str :=
  lit "index " ++ to_string i ++ lit " out of bounds (length " ++ to_string (Z.of_nat len) ++ lit ")".

(** The element at [i] when [i] is in range. *)
Definition element {A} (xs : list A) (i : Z) : option A := if i <? 0 then None else xs !! Z.to_nat i.

Definition getIndex (base idx : Value) (w : Interp X) : Run (Act * Interp X) :=
  let! cls := classOfValue w base in
  let! g := findAccessor cls (lit "[]") true in
  match g with
  | Some d => callDecl d [base; idx] false w
  | None =>
      match base with
      | VArray (Some p) =>
          let! xs := array_at w p in
          match element xs (v_i idx) with
          | Some v => Go (ADone v, w)
          | None => Go (ADone VVoid, raise (bounds_error (v_i idx) (length xs)) w)
          end
      | _ => Go (ADone VVoid, w)
      end
  end.

Definition store_element (xs : list Value) (i : Z) (v : Value) : list Value := if i <? 0 then xs else <[Z.to_nat i := v]> xs.

(** The map's entry for a key replaced, or appended. *)
Fixpoint upsert (h : Heap) (idx v : Value) (es : list (Value * Value)) : Run (list (Value * Value)) :=
  match es with
  | [] => Go [(idx, v)]
  | (k, x) :: es' =>
      let! eq := from_option FDepth (keyEquals depth h k idx) in
      if eq then Go ((k, v) :: es') else let! r := upsert h idx v es' in Go ((k, x) :: r)
  end.

(** [indexStore]; [roots] are the references outside the heap. *)
Definition indexStore (roots : list loc) (base idx v : Value) (w : Interp X) : Run (Act * Interp X) :=
  match base with
  | VObject (Some p) =>
      let! o := object_at w p in
      let! s := findAccessor (o_cls o) (lit "[]") false in
      match s with
      | Some d => callDecl d [base; idx; v] false w
      | None => Go (ADone base, w)
      end
  | VArray None => let '(q, w) := alloc (CArr []) w in Go (ADone (VArray (Some q)), w)
  | VArray (Some p) =>
      let! xs := array_at w p in
      let ys := store_element xs (v_i idx) v in
      if (use_count roots (w_heap w) p =? 1)%nat then Go (ADone base, set_heap (<[p := CArr ys]> (w_heap w)) w)
      else let '(q, w) := alloc (CArr ys) w in Go (ADone (VArray (Some q)), w)
  | VMap None => let '(q, w) := alloc (CMap [(idx, v)]) w in Go (ADone (VMap (Some q)), w)
  | VMap (Some p) =>
      let! es := map_at w p in
      let! es' := upsert (w_heap w) idx v es in
      if (use_count roots (w_heap w) p =? 1)%nat then Go (ADone base, set_heap (<[p := CMap es']> (w_heap w)) w)
      else let '(q, w) := alloc (CMap es') w in Go (ADone (VMap (Some q)), w)
  | _ => Go (ADone base, w)
  end.

Definition checked64 (z : Z) : Run Z := if (- 2 ^ 63 <=? z) && (z <? 2 ^ 63) then Go z else Stop FOverflow.

Definition is_range (o : Object) : bool := match o_cls o with Some c => eqs (sy_name c) (lit "Range") | None => false end.

(** [obj->fields[key].i]: a missing field is created. *)
Definition touch_field (key : str) (o : Object) : Object :=
  match fields o !! key with Some _ => o | None => MkObject (o_cls o) (<[key := VVoid]> (fields o)) (weakFields o) end.
Definition field_i (key : str) (o : Object) : Z := match fields o !! key with Some v => v_i v | None => 0 end.
Definition touch (keys : list str) (p : loc) (o : Object) (w : Interp X) : Interp X :=
  set_heap (<[p := CObj (fold_left (fun o k => touch_field k o) keys o)]> (w_heap w)) w.

Definition iterLen (v : Value) (w : Interp X) : Run (Value * Interp X) :=
  match v with
  | VArray (Some p) => let! xs := array_at w p in Go (VInt (Z.of_nat (length xs)), w)
  | VMap (Some p) => let! es := map_at w p in Go (VInt (Z.of_nat (length es)), w)
  | VObject (Some p) =>
      let! o := object_at w p in
      if is_range o then
        let lo := field_i (lit "start") o in
        let hi := field_i (lit "end") o in
        let w := touch [lit "start"; lit "end"] p o w in
        if lo <=? hi then let! d := checked64 (hi - lo) in let! n := checked64 (d + 1) in Go (VInt n, w) else Go (VInt 0, w)
      else Go (VInt 0, w)
  | _ => Go (VInt 0, w)
  end.

Definition iterAt (v : Value) (idx : Z) (w : Interp X) : Run (Value * Interp X) :=
  match v with
  | VArray (Some p) => let! xs := array_at w p in Go (match element xs idx with Some x => x | None => VVoid end, w)
  | VMap (Some p) =>
      let! es := map_at w p in
      match element es idx with
      | None => Go (VVoid, w)
      | Some (k, x) =>
          let o := MkObject (global_lookup sema (lit "Pair")) (<[lit "second" := x]> {[lit "first" := k]}) ∅ in
          let '(q, w) := alloc (CObj o) w in Go (VObject (Some q), w)
      end
  | VObject (Some p) =>
      let! o := object_at w p in
      if is_range o then
        let w := touch [lit "start"] p o w in let! n := checked64 (field_i (lit "start") o + idx) in Go (VInt n, w)
      else Go (VVoid, w)
  | _ => Go (VVoid, w)
  end.

(** [copyValue]; the nested copies are made before the wrapper's location is taken. *)
Fixpoint copy_fields (copy : Value -> Interp X -> Run (Value * Interp X)) (l : list (str * Value)) (w : Interp X)
  : Run (gmap str Value * Interp X) :=
  match l with
  | [] => Go (∅, w)
  | (k, v) :: l' =>
      let! (v', w) := copy v w in
      let! (m, w) := copy_fields copy l' w in
      Go (<[k := v']> m, w)
  end.
Fixpoint copy_value (fuel : nat) (v : Value) (w : Interp X) : Run (Value * Interp X) :=
  match fuel with
  | O => Stop FDepth
  | S f =>
      match v with
      | VObject (Some p) =>
          let! o := object_at w p in
          match o_cls o with
          | Some c =>
              if sy_isValue c then
                let! (m, w) := copy_fields (copy_value f) (map_to_list (fields o)) w in
                let '(q, w) := alloc (CObj (MkObject (Some c) m ∅)) w in Go (VObject (Some q), w)
              else Go (v, w)
          | None => Go (v, w)
          end
      | _ => Go (v, w)
      end
  end.
Definition copyValue (v : Value) (w : Interp X) : Run (Value * Interp X) := copy_value depth v w.

(** The elements of an array literal; a range spreads. *)
Definition spread (v : Value) (w : Interp X) : Run (list Value * Interp X) :=
  match v with
  | VObject (Some p) =>
      let! o := object_at w p in
      if is_range o then
        let lo := field_i (lit "start") o in
        let hi := field_i (lit "end") o in
        let w := touch [lit "start"; lit "end"] p o w in
        let! _ := sized (hi - lo + 1) in
        if (lo <=? hi) && (hi =? 2 ^ 63 - 1) then Stop FOverflow
        else Go (map (fun k => VInt (lo + Z.of_nat k)) (seq 0 (Z.to_nat (hi - lo + 1))), w)
      else Go ([v], w)
  | _ => Go ([v], w)
  end.
Fixpoint spread_all (vs : list Value) (w : Interp X) : Run (list Value * Interp X) :=
  match vs with
  | [] => Go ([], w)
  | v :: vs' =>
      let! (xs, w) := spread v w in
      let! (ys, w) := spread_all vs' w in
      Go (xs ++ ys, w)
  end.

(** [vblockNew] and a block over given bytes. *)
Definition new_block (bs : list Z) (w : Interp X) : Value * Interp X :=
  let '(b, w) := alloc (CBytes bs) w in
  let '(q, w) := alloc (CBlock (MkBlockData (Some b) 0 (Z.of_nat (length bs)))) w in
  (VBlock (Some q), w).

(** ** [IsType] *)

Definition match1 (w : Interp X) (s : option Symbol) (v : Value) (n : str) : Run bool :=
  if eqs n (lit "None") then Go (match v with VNone => true | _ => false end)
  else if eqs n (lit "int") then Go (match v with VInt _ => true | _ => false end)
  else if eqs n (lit "char") then Go (match v with VChar _ => true | _ => false end)
  else if eqs n (lit "string") then Go (match v with VString _ => true | _ => false end)
  else if eqs n (lit "bool") then Go (match v with VBool _ => true | _ => false end)
  else if eqs n (lit "float") then Go (match v with VFloat _ => true | _ => false end)
  else if has_at n 0 (lit "Array") then Go (match v with VArray _ => true | _ => false end)
  else if has_at n 0 (lit "Map") then Go (match v with VMap _ => true | _ => false end)
  else if eqs n (lit "Block") then Go (match v with VBlock _ => true | _ => false end)
  else match s, v with
       | Some c, VObject (Some p) => let! o := object_at w p in isSubclassOrSelf (o_cls o) (Some c)
       | _, _ => Go false
       end.
Fixpoint any_match (w : Interp X) (s : option Symbol) (v : Value) (ns : list str) : Run bool :=
  match ns with
  | [] => Go false
  | n :: ns' => let! b := match1 w s v n in if b then Go true else any_match w s v ns'
  end.
Definition is_type (w : Interp X) (s : option Symbol) (v : Value) (n : str) : Run bool :=
  match find_str (lit " | ") n with Some _ => any_match w s v (unionMembersOf n) | None => match1 w s v n end.

(** ** Promises reached through globals *)

(** [seen] is the pointer set; [Some err] is a hit. *)
Fixpoint scan_values (f : Value -> list loc -> Run (option str * list loc)) (vs : list Value) (seen : list loc)
  : Run (option str * list loc) :=
  match vs with
  | [] => Go (None, seen)
  | v :: vs' =>
      let! (r, seen) := f v seen in
      match r with Some e => Go (Some e, seen) | None => scan_values f vs' seen end
  end.
(** [lvThreadIsPromiseDerived], [lvThreadIsPortal]: the class or a base has the name. *)
Fixpoint derived_from (fuel : nat) (names : list str) (c : Symbol) : Run bool :=
  match fuel with
  | O => Stop FDepth
  | S f =>
      if existsb (eqs (sy_name c)) names then Go true
      else match class_decl sema c with
           | None => Go false
           | Some cd =>
               let! r := first_base (fun s => let! r := derived_from f names s in Go (if r then Some tt else None)) (cd_bases cd) in
               Go (match r with Some _ => true | None => false end)
           end
  end.

Definition mark_seen (p : loc) (vs : list Value) (f : Value -> list loc -> Run (option str * list loc)) (seen : list loc)
  : Run (option str * list loc) :=
  if existsb (Nat.eqb p) seen then Go (None, seen) else scan_values f vs (p :: seen).

(** [lvThreadValueHasPromise]: the reject message of the first promise reached. *)
Fixpoint value_has_promise (fuel : nat) (w : Interp X) (v : Value) (seen : list loc) : Run (option str * list loc) :=
  match fuel with
  | O => Stop FDepth
  | S f =>
      match v with
      | VObject (Some p) =>
          let! o := object_at w p in
          let! portal := match o_cls o with Some c => derived_from depth [lit "Channel"] c | None => Go false end in
          if portal then Go (None, seen) else
          let! promise := match o_cls o with Some c => derived_from depth [lit "Promise"] c | None => Go false end in
          if promise then
            Go (Some (lit "value of type " ++ match o_cls o with Some c => sy_name c | None => [] end ++
                      lit " cannot cross a thread boundary (v1); pass a Channel"), seen)
          else mark_seen p (env_values (fields o)) (value_has_promise f w) seen
      | VArray (Some p) => let! xs := array_at w p in mark_seen p xs (value_has_promise f w) seen
      | VMap (Some p) =>
          let! es := map_at w p in mark_seen p (cell_values (CMap es)) (value_has_promise f w) seen
      | _ => Go (None, seen)
      end
  end.

Fixpoint scan_globals (w : Interp X) (slots : list Z) : Run (option str) :=
  match slots with
  | [] => Go None
  | s :: slots' =>
      match element (globals_ w) s with
      | None => scan_globals w slots'
      | Some v =>
          let! (r, _) := value_has_promise depth w v [] in
          match r with Some e => Go (Some e) | None => scan_globals w slots' end
      end
  end.
Definition spawnBodyGlobalPromise (w : Interp X) (body : Value) : Run (option str) :=
  let! fi := closure_fn w body in
  match fi with
  | Some i => match element (computeFnGlobalRefs mod_) i with Some slots => scan_globals w slots | None => Go None end
  | None => Go None
  end.

(** ** Instructions *)

Abbreviation Out := (Run (Ctl * Frame * Interp X)).

Definition put (f : Frame) (w : Interp X) (a : Z) (v : Value) : Out := let! f := setr f a v in Go (Next, f, w).
Definition raised (f : Frame) (w : Interp X) (message : str) : Out := Go (Next, f, raise message w).

(** [track]: the frame's weak reference to a scope-owned allocation. *)
Definition track (f : Frame) (w : Interp X) (v : Value) : Frame * Interp X :=
  match own with
  | None => (f, w)
  | Some sites =>
      if existsb (fun s => (fst s =? f_fn f)%nat && (snd s =? pc f)) sites then
        (match spOf v with Some p => set_weaks (weaks f ++ [(pc f, p)]) f | None => f end, set_tracked (tracked_ w + 1) w)
      else (f, w)
  end.
(** [regs[a] = v; track(pc, v);] *)
Definition put_tracked (f : Frame) (w : Interp X) (a : Z) (v : Value) : Out :=
  let! f := setr f a v in let '(f, w) := track f w v in Go (Next, f, w).
Definition new_cell (f : Frame) (w : Interp X) (a : Z) (v : loc -> Value) (c : Cell) : Out :=
  let '(p, w) := alloc c w in put_tracked f w a (v p).

(** The end of an instruction whose operand is computed by an [Act]; [pins] are
    its temporaries. *)
Definition settle (k : Kont) (v : Value) (f : Frame) (w : Interp X) : Out :=
  match k with
  | KSet a => put f w a v
  | KNot a => put f w a (VBool (negb (v_b v)))
  | KKeep a base => put f w a base
  | _ => Go (Next, f, w)
  end.
Definition act (r : Run (Act * Interp X)) (k : Kont) (pins : list Value) (f : Frame) : Out :=
  let! (a, w) := r in
  match a with
  | ADone v => settle k v f w
  | ACall fn args => Go (Enter fn args k (pins ++ args), f, w)
  end.

(** [int] of a [long long]. *)
Definition int_of (z : Z) : Z := wrap_s 32 z.

Definition call_field (a : Z) (win : list Value) (name : str) (fieldVal : Value) (f : Frame) (w : Interp X) : Out :=
  let! fi := closure_fn w fieldVal in
  match fi with
  | Some i =>
      if 0 <=? i then Go (Enter (int_of i) (fieldVal :: tail win) (KSet a) [fieldVal], f, w)
      else raised f w (lit "cannot resolve call target '" ++ name ++ lit "'")
  | None => raised f w (lit "cannot resolve call target '" ++ name ++ lit "'")
  end.

Definition exec_call_dyn (i : Inst) (uniq : Value -> bool) (f : Frame) (w : Interp X) : Out :=
  let! recv := getr f (ic i) in
  let cow := negb (ib i =? 0) && match recv with VArray (Some _) => uniq recv | _ => false end in
  let! win := window (regs f) (ic i) (id_ i) in
  let! self := at_index win 0 in
  let! rc := classOfValue w self in
  let d := match decl i with Some d => Some d | None => findMethodByName rc (sname i) (Z.of_nat (length win) - 1) end in
  match d with
  | Some d =>
      let! (a, w) := callDecl d win cow w in
      match a with
      | ADone v => put f w (ia i) v
      | ACall fn args => Go (Enter fn args (KSet (ia i)) [], f, w)
      end
  | None =>
      let! (a, w) := getMember self (sname i) w in
      match a with
      | ADone v => call_field (ia i) win (sname i) v f w
      | ACall fn args => Go (Enter fn args (KFieldCall (ia i) win (sname i)) args, f, w)
      end
  end.

Definition exec_call_value (i : Inst) (f : Frame) (w : Interp X) : Out :=
  let! win := window (regs f) (ic i) (id_ i) in
  let! self := at_index win 0 in
  let! fi := closure_fn w self in
  match fi with
  | Some n => if 0 <=? n then Go (Enter (int_of n) win (KSet (ia i)) [], f, w) else raised f w (lit "cannot resolve call target")
  | None => raised f w (lit "cannot resolve call target")
  end.

(** ** Task natives and [await] *)

Definition save_thrown (w : Interp X) : Value * Interp X := (thrown (term w), set_thrown VVoid w).

(** The tail of a park: the saved exception, an exit fired meanwhile, the reason. *)
Inductive Wake := WExit | WDrained | WCancelled | WSettled.
Definition woken (saved : Value) (r : TaskReply) (w : Interp X) : Wake * Interp X :=
  let w := set_thrown saved w in
  if termStashed (term w) && termExiting (term w) then (WExit, exit_throw w)
  else if reply_code r =? LV_PARK_DRAINED then (WDrained, w)
  else if reply_code r =? LV_PARK_CANCELLED then (WCancelled, w)
  else (WSettled, w).
Definition raise_cancelled (w : Interp X) : Interp X := raiseClass (lit "CancelledException") (lit "task cancelled") w.
Definition drained_text : str := lit "await: event loop drained with promise unresolved".

Definition promise_ready (w : Interp X) (p : loc) (mask : Z) : Run bool :=
  let! o := object_at w p in Go (negb (Z.land (rtPollPromise o) mask =? 0)).

(** The tail of [Await]: a failed worker rethrows, otherwise the value. *)
Definition await_value (a : Z) (p : loc) (f : Frame) (w : Interp X) : Out :=
  let! o := object_at w p in
  if negb (is_throwing w) && match fields o !! lit "failed" with Some v => v_b v | None => false end then
    raised f w (match fields o !! lit "failMessage" with Some (VString s) => s | _ => lit "worker failed" end)
  else put f w a (match fields o !! lit "value" with Some v => v | None => VVoid end).

(** [invokeClosure]: nothing happens for what is not an IR closure. *)
Definition invoke_closure (cb arg : Value) (k : Kont) (f : Frame) (w : Interp X) : Out :=
  let! fi := closure_fn w cb in
  match fi with
  | Some i => Go (Enter (int_of i) [cb; arg] k [cb; arg], f, w)
  | None => Go (Spin k, f, w)
  end.

(** One turn of the pump: a throw ends it, then the batch's next job, then the
    loop condition and a new batch. *)
Definition pump (a : Z) (p : Value) (batch : list (LoopCallback (V := Value))) (done : nat) (f : Frame) (w : Interp X) : Out :=
  match p with
  | VObject (Some l) =>
      if is_throwing w then await_value a l f w
      else
        match drop done batch with
        | j :: _ => invoke_closure (lc_callback j) (VInt (lc_argument j)) (KPump a p batch (S done)) f w
        | [] =>
            let! ready := promise_ready w l 1 in
            if ready || negb (hasWork (loop_ (host w))) then await_value a l f w
            else
              let '(e, h) := loop_env P (host w) in
              let '(batch, lp) := nextBatch e (loop_ h) in
              Go (Spin (KPump a p batch 0), f, set_host (host_loop lp h) w)
        end
  | _ => put f w a p
  end.

Definition exec_await (i : Inst) (f : Frame) (w : Interp X) : Out :=
  let! p := getr f (ib i) in
  match p with
  | VObject (Some l) =>
      if lv_tasks_enabled P then
        let! ready := promise_ready w l 1 in
        if ready then await_value (ia i) l f w
        else let '(saved, w) := save_thrown w in Go (Sched (TcParkOn l) (KAwait (ia i) p saved) [], f, w)
      else pump (ia i) p [] 0 f w
  | _ => put f w (ia i) p
  end.

Definition task_natives : list str := [lit "sysTaskRun"; lit "sysTaskJoinAll"; lit "sysAwaitAny2"].

Definition join_ids_of (args : list Value) (w : Interp X) : Run (list Z) :=
  match args with
  | VArray (Some p) :: _ => let! xs := array_at w p in Go (map (fun v => wrap_u 64 (v_i v)) xs)
  | _ => Go []
  end.

(** [taskNative], for one of its three names; [regs[a]] gets [out]. *)
Definition task_native (name : str) (a : Z) (args : list Value) (f : Frame) (w : Interp X) : Out :=
  if negb (lv_tasks_enabled P) then put f (raise (lit "TaskGroup requires tasks (running under LANG_PUMP=1)") w) a VVoid
  else if eqs name (lit "sysTaskRun") then
    match args with
    | VClosure (Some p) :: _ => Go (Sched (TcSpawn (VClosure (Some p))) (KSpawned a) args, f, w)
    | _ => put f (raise (lit "sysTaskRun: body must be a closure") w) a VVoid
    end
  else if eqs name (lit "sysTaskJoinAll") then
    let! ids := join_ids_of args w in
    let '(saved, w) := save_thrown w in
    Go (Sched (TcJoin ids) (KJoin a (Z.of_nat (length ids)) saved) args, f, w)
  else
    match args with
    | VObject (Some p) :: VObject (Some q) :: _ =>
        let! rp := promise_ready w p 3 in
        if rp then put f w a (VInt 0)
        else
          let! rq := promise_ready w q 3 in
          if rq then put f w a (VInt 1)
          else let '(saved, w) := save_thrown w in Go (Sched (TcParkAny2 p q) (KAny2 a saved) args, f, w)
    | _ => put f (raise (lit "sysAwaitAny2: both arguments must be promises") w) a VVoid
    end.

(** [sysTaskCancel] and [sysTaskShield] of [nativeFreeCall]: they go to the
    scheduler, which under the pump has no task to find. *)
Definition registry_natives : list str := [lit "sysTaskCancel"; lit "sysTaskShield"].
Definition first_int (args : list Value) : option Z := match args with [] => None | v :: _ => Some (v_i v) end.
Definition registry_cmd (name : str) (args : list Value) : option TaskCmd :=
  if eqs name (lit "sysTaskCancel") then option_map (fun n => TcCancel (wrap_u 64 n)) (first_int args)
  else Some (TcShield (match first_int args with Some n => int_of n | None => 0 end)).

(** After a native: [env.exit] rides the unwind. *)
Definition exit_check (w : Interp X) : Interp X :=
  if exitRequested (host w) && negb (exiting (term w)) then exit_throw w else w.
Definition native_int (a n : Z) (f : Frame) (w : Interp X) : Out :=
  let! f := setr f a (VInt n) in Go (Next, f, exit_check w).

Definition registry_native (name : str) (a : Z) (args : list Value) (f : Frame) (w : Interp X) : Out :=
  match registry_cmd name args with
  | Some c => if lv_tasks_enabled P then Go (Sched c (KRegistry a) args, f, w) else native_int a 0 f w
  | None => native_int a 0 f w
  end.

(** The scheduler has answered. *)
Definition reply (k : Kont) (r : TaskReply) (f : Frame) (w : Interp X) : Out :=
  match k with
  | KSpawned a => put f w a (VInt (wrap_s 64 (reply_code r)))
  | KRegistry a => native_int a (reply_code r) f w
  | KAwait a p saved =>
      let '(wake, w) := woken saved r w in
      match wake with
      | WExit => Go (Next, f, w)
      | WDrained => raised f w drained_text
      | WCancelled => Go (Next, f, raise_cancelled w)
      | WSettled => match p with VObject (Some l) => await_value a l f w | _ => put f w a p end
      end
  | KJoin a n saved =>
      let '(wake, w) := woken saved r w in
      match wake with
      | WExit => put f w a VVoid
      | WDrained => put f (raise (lit "TaskGroup.close: event loop drained with tasks unjoined") w) a VVoid
      | WCancelled => put f (raise_cancelled w) a VVoid
      | WSettled => put f w a (VInt n)
      end
  | KAny2 a saved =>
      let '(wake, w) := woken saved r w in
      match wake with
      | WExit => put f w a VVoid
      | WDrained => put f (raise drained_text w) a VVoid
      | WCancelled => put f (raise_cancelled w) a VVoid
      | WSettled => put f w a (VInt (reply_which r))
      end
  | _ => Go (Next, f, w)
  end.

Definition exec_native (i : Inst) (f : Frame) (w : Interp X) : Out :=
  let! args := window (regs f) (ic i) (id_ i) in
  let! reject := match args with
                 | body :: _ => if eqs (sname i) (lit "sysThreadStart") then spawnBodyGlobalPromise w body else Go None
                 | [] => Go None
                 end in
  match reject with
  | Some e => raised f w e
  | None =>
      if existsb (eqs (sname i)) task_natives then task_native (sname i) (ia i) args f w
      else if existsb (eqs (sname i)) registry_natives then registry_native (sname i) (ia i) args f w
      else
        let! r := nativeFreeCall P (sname i) args (host w) in
        match r with
        | Some (out, err, h) =>
            let w := set_host h w in
            if nonempty err then raised f w err
            else
              let! f := setr f (ia i) out in
              Go (Next, f, exit_check w)
        | None => raised f w (lit "unknown native '" ++ sname i ++ lit "'")
        end
  end.

(** ** The dispatch switch *)

Definition of_outcome (f : Frame) (w : Interp X) (a : Z) (o : Outcome) : Out :=
  match o with
  | Ret_ v => put f w a v
  | Raise msg => let! f := setr f a VVoid in raised f w msg
  | Undef => Stop FOverflow
  | NoFuel => Stop FDepth
  end.

Definition is_eq_op (t : TokenKind) : bool := is_eqeq t || is_bangeq t.

Definition exec_arith (i : Inst) (f : Frame) (w : Interp X) : Out :=
  let! l := getr f (ib i) in
  let! r := getr f (ic i) in
  let prim := of_outcome f w (ia i) (arithPrim (nan_bits P) depth (w_heap w) (tk i) l r) in
  if is_eq_op (tk i) && (is_none l || is_none r) then prim
  else
    match l with
    | VObject (Some p) =>
        let! o := object_at w p in
        match o_cls o with
        | Some c =>
            if eqs (sy_name c) (lit "Range") then prim
            else
              match object_arith_plan (tk i) (Some c) (decl i) l r with
              | PlInvoke m => act (callDecl m [l; r] false w) (KSet (ia i)) [] f
              | PlNegate m => act (callDecl m [l; r] false w) (KNot (ia i)) [] f
              | PlSame b => put f w (ia i) (VBool b)
              | PlNoOp sym =>
                  let! f := setr f (ia i) VVoid in raised f w (lit "no operator '" ++ sym ++ lit "' on '" ++ sy_name c ++ lit "'")
              end
        | None => prim
        end
    | _ => prim
    end.

Definition exec_default (i : Inst) (f : Frame) (w : Interp X) : Out :=
  match defaultForCanonical 2 (sname i) with
  | Some (DVal v) => put f w (ia i) v
  | Some DArray => let '(p, w) := alloc (CArr []) w in put f w (ia i) (VArray (Some p))
  | Some DMap => let '(p, w) := alloc (CMap []) w in put f w (ia i) (VMap (Some p))
  | None => Stop FDepth
  end.

Definition exec_index_store (outer : list Value) (insts : list Inst) (i : Inst) (f : Frame) (w : Interp X) : Out :=
  let! f := setr f (ia i) VVoid in
  let! f := match insts !! Z.to_nat (pc f + 1), insts !! Z.to_nat (pc f + 2) with
            | Some n1, Some n2 =>
                if bool_decide (op n1 = CopyVal) && (ib n1 =? ia i) && bool_decide (op n2 = Move) && (ib n2 =? ia n1)
                   && negb (ia n1 =? ib i) && negb (ia n1 =? ic i) && negb (ia n1 =? id_ i)
                then setr f (ia n1) VVoid else Go f
            | _, _ => Go f
            end in
  let roots := vrefs (frame_values f ++ outer ++ interp_values w) in
  let w := set_heap (collect roots (w_heap w)) w in
  let! base := getr f (ib i) in
  let! idx := getr f (ic i) in
  let! v := getr f (id_ i) in
  act (indexStore roots base idx v w) (match base with VObject _ => KKeep (ia i) base | _ => KSet (ia i) end) [] f.

Definition exec_capture (i : Inst) (f : Frame) (w : Interp X) : Out :=
  let! self := getr f (ia i) in
  match self with
  | VClosure (Some p) =>
      let! c := closure_at w p in
      let! v := getr f (ib i) in
      match c_env c with
      | e :: es =>
          let c' := MkClosure (c_lambda c) (<[sname i := v]> e :: es) (c_thisObj c) (c_thisClass c) in
          Go (Next, f, set_heap (<[p := CClos c']> (w_heap w)) w)
      | [] => Stop FRange
      end
  | _ => Go (Next, f, w)
  end.

Definition exec_load_capture (i : Inst) (f : Frame) (w : Interp X) : Out :=
  let! f := setr f (ia i) VVoid in
  let! self := getr f 0 in
  match self with
  | VClosure (Some p) =>
      let! c := closure_at w p in
      match c_env c with
      | e :: _ => match e !! sname i with Some v => put f w (ia i) v | None => Go (Next, f, w) end
      | [] => Go (Next, f, w)
      end
  | _ => Go (Next, f, w)
  end.

(** Raw slots. *)
Definition on_object (f : Frame) (w : Interp X) (r : Z) (k : loc -> Object -> str -> Out) (otherwise : Out) (name : str) : Out :=
  let! o := getr f r in
  match o with
  | VObject (Some p) => let! ob := object_at w p in k p ob (keyFor (o_cls ob) name)
  | _ => otherwise
  end.

Definition exec_inst (outer : list Value) (insts : list Inst) (consts_ : list Value) (i : Inst) (f : Frame) (w : Interp X) : Out :=
  let a := ia i in
  match op i with
  | LoadConst => let! v := at_index consts_ (ib i) in put f w a v
  | Default_ => exec_default i f w
  | Move => let! v := getr f (ib i) in put f w a v
  | MoveClear => let! v := getr f (ib i) in let! f := setr f a v in put f w (ib i) VVoid
  | CopyVal => let! v := getr f (ib i) in let! (v, w) := copyValue v w in put f w a v
  | Arith => exec_arith i f w
  | Not_ => let! v := getr f (ib i) in put f w a (VBool (negb (v_b v)))
  | Neg =>
      let! v := getr f (ib i) in
      match v with
      | VFloat b => put f w a (VFloat (Z.lxor b (2 ^ 63)))
      | _ => let! n := checked64 (- v_i v) in put f w a (VInt n)
      end
  | Jump => Go (Goto a, f, w)
  | JumpIfFalse => let! v := getr f a in Go (Goto (if v_b v then pc f + 1 else ib i), f, w)
  | JumpIfTrue => let! v := getr f a in Go (Goto (if v_b v then ib i else pc f + 1), f, w)
  | Ret => let! v := getr f a in Go (Return v, f, w)
  | RetVoid => Go (Return VVoid, f, w)
  | Throw => let! v := getr f a in Go (Next, f, set_term (set_throw true v (term w)) w)
  | Call => let! args := window (regs f) (ic i) (id_ i) in Go (Enter (ib i) args (KSet a) [], f, w)
  | CallDyn =>
      let uniq v := match v with
                    | VArray (Some p) => (use_count (vrefs (frame_values f ++ outer ++ interp_values w)) (w_heap w) p =? 1)%nat
                    | _ => false
                    end in
      exec_call_dyn i uniq f w
  | CallValue => exec_call_value i f w
  | CallNativeFn => exec_native i f w
  | NewObject =>
      let '(p, w) := alloc (CObj (MkObject (sym i) ∅ ∅)) w in
      let v := VObject (Some p) in
      let! f := setr f a v in
      let '(f, w) := track f w v in
      if 0 <=? ib i then Go (Enter (ib i) [v] KDrop [v; v; v], f, w) else Go (Next, f, w)
  | GetMember => let! o := getr f (ib i) in act (getMember o (sname i) w) (KSet a) [] f
  | SetMember => let! o := getr f (ib i) in let! v := getr f a in act (setMember o (sname i) v w) KDrop [] f
  | RawGet =>
      on_object f w (ib i) (fun p o key => put f w a (match fields o !! key with Some v => v | None => VVoid end))
        (put f w a VVoid) (sname i)
  | RawGetWeak =>
      on_object f w (ib i) (fun p o key => put f w a (weakObjectRead (w_heap w) o key)) (put f w a VNone) (sname i)
  | RawSet =>
      let! v := getr f a in
      on_object f w (ib i) (fun p o key =>
        Go (Next, f, set_heap (<[p := CObj (MkObject (o_cls o) (<[key := v]> (fields o)) (weakFields o))]> (w_heap w)) w))
        (Go (Next, f, w)) (sname i)
  | RawSetWeak =>
      let! v := getr f a in
      on_object f w (ib i) (fun p o key => Go (Next, f, set_heap (<[p := CObj (weakObjectWrite o key v)]> (w_heap w)) w))
        (Go (Next, f, w)) (sname i)
  | NewArray =>
      let! vs := if id_ i <=? 0 then Go [] else window (regs f) (ic i) (id_ i) in
      let! (xs, w) := spread_all vs w in
      new_cell f w a (fun p => VArray (Some p)) (CArr xs)
  | NewArraySized =>
      let! xs := if id_ i =? 2 then
                   let! n := getr f (ic i) in let! v := getr f (ic i + 1) in
                   let! _ := sized (v_i n) in Go (replicate (Z.to_nat (v_i n)) v)
                 else Go [] in
      new_cell f w a (fun p => VArray (Some p)) (CArr xs)
  | NewMap => new_cell f w a (fun p => VMap (Some p)) (CMap [])
  | NewBlock =>
      let! n := getr f (ic i) in
      let! _ := sized (v_i n) in
      let '(v, w) := new_block (replicate (Z.to_nat (v_i n)) 0) w in put_tracked f w a v
  | NewBlockStr =>
      let! s := getr f (ic i) in let '(v, w) := new_block (map code (v_s s)) w in put_tracked f w a v
  | MakeRange =>
      let! lo := getr f (ib i) in
      let! hi := getr f (ic i) in
      new_cell f w a (fun p => VObject (Some p)) (CObj (MkObject (sym i) (<[lit "end" := hi]> {[lit "start" := lo]}) ∅))
  | GetIndex => let! b := getr f (ib i) in let! x := getr f (ic i) in act (getIndex b x w) (KSet a) [] f
  | ColGet =>
      let! b := getr f (ib i) in
      let! x := getr f (ic i) in
      let! (r, w) := getIndex b x w in
      match r with
      | ADone v => act (getMember v (sname i) w) (KSet a) [v] f
      | ACall fn args => Go (Enter fn args (KColMember a (sname i)) args, f, w)
      end
  | IndexStore => exec_index_store outer insts i f w
  | IterLen => let! v := getr f (ib i) in let! (n, w) := iterLen v w in put f w a n
  | IterAt => let! v := getr f (ib i) in let! n := getr f (ic i) in let! (x, w) := iterAt v (v_i n) w in put f w a x
  | IsType => let! v := getr f (ib i) in let! b := is_type w (sym i) v (sname i) in put f w a (VBool b)
  | Await => exec_await i f w
  | LoadGlobal => let! v := at_index (globals_ w) (ib i) in put f w a v
  | StoreGlobal => let! v := getr f a in let! g := put_index (globals_ w) (ib i) v in Go (Next, f, set_globals g w)
  | MakeClosure =>
      new_cell f w a (fun p => VClosure (Some p)) (CClos (MkClosure None [{[lit "@fn" := VInt (ib i)]}] None None))
  | CaptureVar => exec_capture i f w
  | LoadCapture => exec_load_capture i f w
  | Print_ => let! v := getr f a in let! t := from_option FDepth (valueToString depth (w_heap w) v) in Go (Next, f, emit t w)
  | PrintNl => Go (Next, f, emit [c_nl] w)
  | VFree => Go (Next, f, w)
  end.

(** The call an instruction made has returned [v]. *)
Definition resume (k : Kont) (v : Value) (f : Frame) (w : Interp X) : Out :=
  match k with
  | KColMember a key => act (getMember v key w) (KSet a) [v] f
  | KFieldCall a win name => call_field a win name v f w
  | KPump a p batch done => pump a p batch done f w
  | _ => settle k v f w
  end.

(** ** Frames, handlers, top level *)

(** What follows the outermost call. *)
Inductive Drive :=
| DGinit | DEntry | DJob (cb arg : Value) | DGroup (cb : Value)
| DCapture (held : list Value)
| DPump (batch : list (LoopCallback (V := Value))) (done : nat)
| DTail.
Definition drive_values (d : Drive) : list Value :=
  match d with
  | DJob cb arg => [cb; arg]
  | DGroup cb => [cb]
  | DCapture l => l
  | DPump batch _ => map callback_of batch
  | _ => []
  end.

Inductive Config :=
| CRun (w : Interp X) (f : Frame) (below : list Susp) (d : Drive)
| CResume (w : Interp X) (v : Value) (k : Kont) (f : Frame) (below : list Susp) (d : Drive)
| CPark (w : Interp X) (c : TaskCmd) (k : Kont) (pins : list Value) (f : Frame) (below : list Susp) (d : Drive)
| CTop (w : Interp X) (d : Drive)
| CHalt (w : Interp X).

Definition outer_values (below : list Susp) (d : Drive) : list Value := (below ≫= susp_values) ++ drive_values d.

(** Every release that is due when only [vals] and the interpreter's own values are held. *)
Definition settle_heap (vals : list Value) (w : Interp X) : Interp X :=
  set_heap (collect (vrefs (vals ++ interp_values w)) (w_heap w)) w.

Definition expired_in (w : Interp X) (p : loc) : bool := match w_heap w !! p with Some _ => false | None => true end.
Definition address (w : Interp X) (p : loc) : Z := match addr (host w) !! p with Some z => z | None => 0 end.

(** The frame is gone; a scope-owned allocation that is still there is a violation. *)
Definition violation (f : Frame) (n : Z) : str :=
  match functions mod_ !! f_fn f with Some fn => fname fn | None => [] end ++ lit " @" ++ to_string n ++
  lit ": scope-owned allocation survived its frame".
Definition check_weaks (f : Frame) (w : Interp X) : Interp X :=
  set_violations (violations_ w ++ map (fun x => violation f (fst x)) (List.filter (fun x => negb (expired_in w (snd x))) (weaks f))) w.

Definition leave (v : Value) (f : Frame) (w : Interp X) (below : list Susp) (d : Drive) : Run Config :=
  let w := check_weaks f (settle_heap (v :: extra f ++ outer_values below d) w) in
  let w := settle_heap (v :: outer_values below d) w in
  match below with
  | s :: below' => Go (CResume w v (s_kont s) (s_frame s) below' d)
  | [] => Go (CTop w d)
  end.

(** The first handler, in clause order, whose range and type match. *)
Fixpoint find_handler (at_ : Z) (cls : option Symbol) (hs : list Handler) : Run (option Handler) :=
  match hs with
  | [] => Go None
  | h :: hs' =>
      if (at_ <? h_start h) || (h_end h <=? at_) then find_handler at_ cls hs'
      else
        let! sub := isSubclassOrSelf cls (h_type h) in
        if sub then Go (Some h) else find_handler at_ cls hs'
  end.
Definition thrown_class (w : Interp X) : Run (option Symbol) :=
  match thrown (term w) with VObject (Some p) => let! o := object_at w p in Go (o_cls o) | _ => Go None end.

Definition dispatch (f : Frame) (w : Interp X) (below : list Susp) (d : Drive) : Run Config :=
  if is_throwing w then
    let! fn := at_index (functions mod_) (Z.of_nat (f_fn f)) in
    let! cls := thrown_class w in
    let! h := find_handler (wrap_s 32 (if 0 <? pc f then pc f - 1 else 0)) cls (handlers fn) in
    match h with
    | Some h =>
        let! f := setr f (bindReg h) (thrown (term w)) in
        let w := set_term (set_throw false (thrown (term w)) (term w)) w in
        let f := set_pc (wrap_u 64 (handlerPc h)) f in
        Go (CRun (settle_heap (frame_values f ++ outer_values below d) w) f below d)
    | None => leave VVoid f w below d
    end
  else Go (CRun w f below d).

Definition verified_alloc (o : Op) : bool :=
  match o with NewObject | NewArray | NewArraySized | NewMap | MakeRange | MakeClosure => true | _ => false end.

(** What follows the switch: the releases the instruction caused, the memory
    verifier, [++pc], the throw check. *)
Definition finish_inst (i : Inst) (f : Frame) (w : Interp X) (below : list Susp) (d : Drive) : Run Config :=
  let w := settle_heap (frame_values f ++ outer_values below d) w in
  let! w := if memOn then
              let! m := if verified_alloc (op i) then
                          let! v := getr f (ia i) in
                          Go (onAlloc (address w) v (Z.of_nat (f_fn f)) (pc f) (mem_ w))
                        else Go (mem_ w) in
              Go (set_mem (sweep (expired_in w) (tick_clock m)) w)
            else Go w in
  dispatch (set_pc (pc f + 1) f) w below d.

Definition perform (i : Inst) (out : Ctl * Frame * Interp X) (below : list Susp) (d : Drive) : Run Config :=
  let '(c, f, w) := out in
  match c with
  | Next => finish_inst i f w below d
  | Goto t => dispatch (set_pc (wrap_u 64 t) f) w below d
  | Return v => leave v f w below d
  | Enter fn args k pins =>
      let! g := enter_frame fn args in
      let below := MkSusp f k pins :: below in
      Go (CRun (settle_heap (frame_values g ++ outer_values below d) w) g below d)
  | Sched c k pins => Go (CPark (settle_heap (pins ++ kont_values k ++ frame_values f ++ outer_values below d) w) c k pins f below d)
  | Spin k => Go (CResume w VVoid k f below d)
  end.

(** The instruction the frame is at. *)
Definition current_inst (f : Frame) : Run (IrFunction * option Inst) :=
  let! fn := at_index (functions mod_) (Z.of_nat (f_fn f)) in
  Go (fn, if pc f <? 0 then None else icode fn !! Z.to_nat (pc f)).

Definition top_enter (fi : Z) (args : list Value) (w : Interp X) (d : Drive) : Run Config :=
  let! f := enter_frame fi args in Go (CRun (settle_heap (frame_values f ++ drive_values d) w) f [] d).

(** [rtCaptureTermination] at the end of a task's body. *)
Definition capture (w : Interp X) : Interp X := set_term (rtCaptureTermination (term w)) w.

Definition after_entry : Drive := if lv_tasks_enabled P then DCapture [] else DPump [] 0.

(** The end of [run]: the report of an uncaught exception. *)
Definition uncaught_text (w : Interp X) : Run str :=
  match thrown (term w) with
  | VObject (Some p) =>
      let! o := object_at w p in
      let msg := match fields o !! lit "message" with Some v => v_s v | None => [] end in
      Go (lit "Uncaught " ++ match o_cls o with Some c => sy_name c | None => lit "value" end ++
          (match msg with [] => [] | _ => lit ": " ++ msg end) ++ [c_nl])
  | _ => Go (lit "Uncaught value" ++ [c_nl])
  end.
Definition uncaught (w : Interp X) : bool := is_throwing w && negb (exiting (term w)).
Definition run_tail (w : Interp X) : Run (Interp X) :=
  if uncaught w then let! t := uncaught_text w in Go (set_host (host_out (out_ (host w) ++ t) (written (host w)) (host w)) w) else Go w.
Definition exit_code (w : Interp X) : Z := if uncaught w then 1 else interpExitCode (host w).

Definition step_top (w : Interp X) (d : Drive) : Run Config :=
  match d with
  | DGinit => if 0 <=? ginit mod_ then top_enter (ginit mod_) [] w DEntry else Go (CTop w DEntry)
  | DEntry => if 0 <=? entry mod_ then top_enter (entry mod_) [] w after_entry else Go (CTop w after_entry)
  | DJob cb arg =>
      if termStashed (term w) then Go (CHalt w)
      else
        let! fi := closure_fn w cb in
        match fi with
        | Some i => top_enter (int_of i) [cb; arg] w (DCapture [cb; arg])
        | None => Go (CTop w (DCapture [cb; arg]))
        end
  | DGroup cb =>
      if termStashed (term w) then Go (CHalt w)
      else
        let! fi := closure_fn w cb in
        match fi with
        | Some i => top_enter (int_of i) [cb] w (DCapture [cb])
        | None => Go (CTop w (DCapture [cb]))
        end
  | DCapture _ => Go (CHalt (capture w))
  | DPump batch done =>
      if is_throwing w then Go (CTop w DTail)
      else
        match drop done batch with
        | j :: _ =>
            let! fi := closure_fn w (lc_callback j) in
            match fi with
            | Some i => top_enter (int_of i) [lc_callback j; VInt (lc_argument j)] w (DPump batch (S done))
            | None => Go (CTop w (DPump batch (S done)))
            end
        | [] =>
            if hasWork (loop_ (host w)) then
              let '(e, h) := loop_env P (host w) in
              let '(batch, lp) := nextBatch e (loop_ h) in
              Go (CTop (set_host (host_loop lp h) w) (DPump batch 0))
            else Go (CTop w DTail)
        end
  | DTail => let! w := run_tail w in Go (CHalt w)
  end.

Definition step (c : Config) : Run Config :=
  match c with
  | CRun w f below d =>
      let! (fn, i) := current_inst f in
      match i with
      | Some i => let! out := exec_inst (outer_values below d) (icode fn) (consts fn) i f w in perform i out below d
      | None => leave VVoid f w below d
      end
  | CResume w v k f below d =>
      let! (fn, i) := current_inst f in
      let! i := from_option FRange i in
      let! out := resume k v f w in perform i out below d
  | CTop w d => step_top w d
  | CPark _ _ _ _ _ _ _ | CHalt _ => Go c
  end.

(** The scheduler switches back to a parked task with the world as the others left it. *)
Definition wake (w : Interp X) (r : TaskReply) (k : Kont) (f : Frame) (below : list Susp) (d : Drive) : Run Config :=
  let! (fn, i) := current_inst f in
  let! i := from_option FRange i in
  let! out := reply k r f w in perform i out below d.

Fixpoint steps (n : nat) (c : Config) : Run Config :=
  match n with O => Go c | S n' => let! c := step c in steps n' c end.

(** The state in which [run] starts the program. *)
Definition run_init (h : Host X) : Interp X :=
  MkInterp (MkHost (heap h) (next_loc h) (addr h) (reset (loop_ h)) (out_ h) (ttyRaw h) (written h) false 0 (ext h))
    (replicate (nglobals mod_) VVoid) (MkTerm false false VVoid false VVoid false) mem_init 0 [] [].
Definition start (h : Host X) : Config := CTop (run_init h) DGinit.

End Machine.
