(* ===== verification/Natives.v ===== *)
(** * The native methods of the prelude's classes

    Models [nativeCall] of [src/runtime/RuntimeNatives.cpp]: the methods of
    string, char, Block, Array, Map, int, bool and float that have no body in
    the prelude.  A native reads the receiver and the arguments through the
    fields of the [Value] struct whatever their kind, mutates or allocates cells
    of the heap, and answers a value, a value and the text of the exception the
    caller raises, or [None] for a name it does not know.  Undefined behaviour
    of the host is a [Stop] of the interpreter's run monad: an unchecked index
    out of its vector, a dangling cell, signed overflow of [long long].

    [strtod] is modelled exactly (decimal and hexadecimal, rounded to nearest
    even); of libm only [pow] is a parameter here. *)

From S2P Require Import TaskSched.
From S2P Require Import Prelude Token Utf8 Value RefHeap Ir RuntimeLoop RuntimeCore MemVerify IrInterp.
From Stdlib Require Import SpecFloat.

Local Open Scope Z_scope.

Abbreviation NativeRun X := (Run (option (Value * str * Host X))).
Definition ret {X} (v : Value) (h : Host X) : NativeRun X := Go (Some (v, [], h)).
(** [err = ...; out = vvoid(); return true;] *)
Definition fails {X} (err : str) (h : Host X) : NativeRun X := Go (Some (VVoid, err, h)).
Definition unknown {X} : NativeRun X := Go None.

(** ** Fields of the struct *)

Definition v_f (v : Value) : Z := match v with VFloat b => b | _ => 0 end.
Definition v_arr (v : Value) : option loc := match v with VArray p => p | _ => None end.
Definition v_map (v : Value) : option loc := match v with VMap p => p | _ => None end.
Definition v_block (v : Value) : option loc := match v with VBlock p => p | _ => None end.

Definition argS (args : list Value) (i : nat) : str := match args !! i with Some v => v_s v | None => [] end.
Definition argI (args : list Value) (i : nat) : Z := match args !! i with Some v => v_i v | None => 0 end.
Definition argF (args : list Value) (i : nat) : Z := match args !! i with Some v => v_f v | None => 0 end.

(** [a + b] of [long long]. *)
Definition add64 (a b : Z) : Run Z :=
  if (- 2 ^ 63 <=? a + b) && (a + b <? 2 ^ 63) then Go (a + b) else Stop FOverflow.

Definition oob_text (i len : Z) : str :=
  lit "index " ++ to_string i ++ lit " out of bounds (length " ++ to_string len ++ lit ")".
Definition byte_text (v : Z) : str := lit "byte value " ++ to_string v ++ lit " out of range 0..255".
Definition size_of {A} (l : list A) : Z := Z.of_nat (length l).

(** ** Numbers from text *)

(** [strtoll] of digits after an optional sign; [ERANGE] is an answer out of range. *)
Definition strictParseInt (s : str) : option Z :=
  match s with
  | [] => None
  | c :: rest =>
      let digits := if eqc c "-" then rest else s in
      match digits with
      | [] => None
      | _ =>
          if forallb isdigit digits then
            let v := strtol10 s in
            if (- 2 ^ 63 <=? v) && (v <? 2 ^ 63) then Some v else None
          else None
      end
  end.

Definition lower (c : ascii) : ascii := if in_range "A" "Z" c then chr (code c + 32) else c.
Definition upper (c : ascii) : ascii := if in_range "a" "z" c then chr (code c - 32) else c.

Definition hex_val (c : ascii) : option Z :=
  if isdigit c then Some (digit_val c)
  else if in_range "a" "f" (lower c) then Some (code (lower c) - 87) else None.
Definition base_val (base : Z) (c : ascii) : option Z :=
  if base =? 16 then hex_val c else if isdigit c then Some (digit_val c) else None.

(** The leading digits in the base: their value, their number, the rest. *)
Fixpoint mantissa (base : Z) (s : str) (acc : Z) (n : nat) : Z * nat * str :=
  match s with
  | c :: s' => match base_val base c with Some d => mantissa base s' (acc * base + d) (S n) | None => (acc, n, s) end
  | [] => (acc, n, [])
  end.

(** [n / d] rounded to nearest even: the quotient to 2^-1200 with a sticky bit. *)
Definition sf_ratio (neg : bool) (n d : Z) : spec_float :=
  let n' := n * 2 ^ 1200 in
  let q := 2 * (n' / d) + (if n' mod d =? 0 then 0 else 1) in
  binary_normalize kPrec kEmax (if neg then - q else q) (-1201) neg.

(** An exponent part, if the text has one, and what follows. *)
Definition exponent (mark : ascii) (s : str) : Z * str :=
  match s with
  | c :: s' =>
      if eqc (lower c) mark then
        let '(neg, t) := match s' with
                         | d :: t => if eqc d "-" then (true, t) else if eqc d "+" then (false, t) else (false, s')
                         | [] => (false, [])
                         end in
        let '(v, n, rest) := mantissa 10 t 0 0 in
        match n with O => (0, s) | _ => (if neg then - v else v, rest) end
      else (0, s)
  | [] => (0, [])
  end.

(** The number [base]-digits . digits exponent, when it is all of the text. *)
Definition number_text (base : Z) (neg : bool) (s : str) : option spec_float :=
  let '(v0, n0, s0) := mantissa base s 0 0 in
  let '(v, n1, s1) := match s0 with
                      | c :: t => if eqc c "." then mantissa base t v0 0 else (v0, O, s0)
                      | [] => (v0, O, [])
                      end in
  if (n0 + n1 =? 0)%nat then None
  else
    let '(e, s2) := exponent (if base =? 16 then "p"%char else "e"%char) s1 in
    match s2 with
    | [] =>
        let scale := if base =? 16 then 2 else 10 in
        let e := e - Z.of_nat n1 * (if base =? 16 then 4 else 1) in
        Some (if 0 <=? e then sf_ratio neg (v * scale ^ e) 1 else sf_ratio neg v (scale ^ (- e)))
    | _ => None
    end.

(** [strtod] when it consumes the whole text and the value is a number: [inf] and
    [nan] texts are refused by the caller. *)
Definition strtod (s : str) : option spec_float :=
  let '(neg, t) := match s with
                   | c :: t => if eqc c "-" then (true, t) else if eqc c "+" then (false, t) else (false, s)
                   | [] => (false, [])
                   end in
  match t with
  | z :: x :: u => if eqc z "0" && eqc (lower x) "x" then number_text 16 neg u else number_text 10 neg t
  | _ => number_text 10 neg t
  end.

Definition is_finite (x : spec_float) : bool :=
  match x with S754_zero _ | S754_finite _ _ _ => true | _ => false end.
Definition strictParseFloat (s : str) : option spec_float :=
  match s, last s with
  | c :: _, Some d =>
      if isspace c || isspace d then None
      else match strtod s with Some v => if is_finite v then Some v else None | None => None end
  | _, _ => None
  end.

(** ** Text *)

Definition is_trim (c : ascii) : bool := eqc c c_sp || eqc c c_tab || eqc c c_nl || eqc c c_cr.
Fixpoint find_not (f : ascii -> bool) (s : str) : option nat :=
  match s with [] => None | c :: s' => if f c then option_map S (find_not f s') else Some O end.
Definition find_last_not (f : ascii -> bool) (s : str) : option nat :=
  option_map (fun k => (length s - 1 - k)%nat) (find_not f (rev s)).
Definition trim (s : str) : str :=
  match find_not is_trim s, find_last_not is_trim s with
  | Some a, Some b => substr s a (b - a + 1)
  | _, _ => []
  end.

(** [s.substr((size_t)a, (size_t)n)]: a negative [n] is a huge one. *)
Definition subStr (s : str) (a n : Z) : str :=
  if (0 <=? a) && (a <=? size_of s) then
    let t := drop (Z.to_nat a) s in if n <? 0 then t else take (Z.to_nat n) t
  else [].
Definition ends_with (s p : str) : bool :=
  (length p <=? length s)%nat && eqs (substr s (length s - length p) (length p)) p.

(** The decoding loop. *)
Fixpoint decode_all (fuel : nat) (s : str) (i : nat) : list Z :=
  match fuel with
  | O => []
  | S f =>
      if (i <? length s)%nat then let '(cp, len, _) := utf8DecodeAt s i in cp :: decode_all f s (i + len) else []
  end.

Section Natives.
Context {X : Type} (mal : gset Z -> nat -> Z) (nan : Z) (pow : Z -> Z -> Z) (depth : nat).
Implicit Types (h : Host X).

(** A fresh cell and the value that refers to it. *)
Definition ret_new (v : loc -> Value) (c : Cell) (h : Host X) : NativeRun X :=
  let '(p, h) := host_alloc mal c h in ret (v p) h.
Definition put_cell (p : loc) (c : Cell) (h : Host X) : Host X := host_heap (<[p := c]> (heap h)) h.

Definition string_native (m : str) (self : Value) (args : list Value) (h : Host X) : NativeRun X :=
  let s := v_s self in
  let i := argI args 0 in
  let outside := (i <? 0) || (size_of s <=? i) in
  if eqs m (lit "length") then ret (VInt (size_of s)) h
  else if eqs m (lit "isEmpty") then ret (VBool (negb (nonempty s))) h
  else if eqs m (lit "toUpper") then ret (VString (map upper s)) h
  else if eqs m (lit "toLower") then ret (VString (map lower s)) h
  else if eqs m (lit "charAt") then ret (VString (if outside then [] else [char_at s (Z.to_nat i)])) h
  else if eqs m (lit "subStr") then ret (VString (subStr s i (argI args 1))) h
  else if eqs m (lit "contains") then ret (VBool (match find_str (argS args 0) s with Some _ => true | None => false end)) h
  else if eqs m (lit "indexOf") then ret (VInt (match find_str (argS args 0) s with Some p => Z.of_nat p | None => -1 end)) h
  else if eqs m (lit "startsWith") then ret (VBool (has_at s 0 (argS args 0))) h
  else if eqs m (lit "endsWith") then ret (VBool (ends_with s (argS args 0))) h
  else if eqs m (lit "trim") then ret (VString (trim s)) h
  else if eqs m (lit "toInt") then ret (match strictParseInt s with Some v => VInt v | None => VNone end) h
  else if eqs m (lit "toFloat") then ret (match strictParseFloat s with Some v => VFloat (to_bits nan v) | None => VNone end) h
  else if eqs m (lit "byteAt") then
    if outside then fails (oob_text i (size_of s)) h else ret (VInt (code (char_at s (Z.to_nat i)))) h
  else if eqs m (lit "at") then
    if outside then fails (oob_text i (size_of s)) h
    else
      let '(cp, _, boundary) := utf8DecodeAt s (Z.to_nat i) in
      if boundary then ret (VChar cp) h
      else fails (lit "byte offset " ++ to_string i ++ lit " is not a scalar boundary") h
  else if eqs m (lit "chars") then
    ret_new (fun p => VArray (Some p)) (CArr (map VChar (decode_all (length s) s 0))) h
  else unknown.

Definition char_native (m : str) (self : Value) (h : Host X) : NativeRun X :=
  if eqs m (lit "code") then ret (VInt (v_i self)) h
  else if eqs m (lit "toString") then ret (VString (utf8Encode (v_i self))) h
  else unknown.

(** ** Block *)

(** [*v.block] and the bytes of its store, when both pointers are set. *)
Definition block_at (h : Host X) (v : Value) : Run (option (BlockData * loc * list Z)) :=
  match v_block v with
  | None => Go None
  | Some p =>
      let! b := from_option FDangling (h_block (heap h) p) in
      match b_bytes b with
      | None => Go None
      | Some q => match heap h !! q with Some (CBytes bs) => Go (Some (b, q, bs)) | _ => Stop FDangling end
      end
  end.

(** [bytes[o .. o + n)], and overwriting it. *)
Definition read_bytes (bs : list Z) (o n : Z) : Run (list Z) := window bs o n.
Definition write_bytes (bs : list Z) (o : Z) (new : list Z) : Run (list Z) :=
  let! _ := window bs o (size_of new) in
  Go (take (Z.to_nat o) bs ++ new ++ drop (Z.to_nat o + length new) bs).

(** Little-endian words. *)
Fixpoint le_combine (k : Z) (bs : list Z) : Z :=
  match bs with [] => 0 | b :: bs' => Z.lor (Z.shiftl b (8 * k)) (le_combine (k + 1) bs') end.
Definition le_split (n : nat) (u : Z) : list Z := map (fun k => wrap_u 8 (Z.shiftr u (8 * Z.of_nat k))) (seq 0 n).

(** [std::memcmp] and the byte loop of [mismatch]: from the first, over windows
    of 64 equal bytes, then byte by byte. *)
Fixpoint skip_equal (fuel : nat) (step : nat) (a b : list Z) (i : nat) : nat :=
  match fuel with
  | O => i
  | S f =>
      if (i + step <=? length a)%nat && bool_decide (take step (drop i a) = take step (drop i b))
      then skip_equal f step a b (i + step) else i
  end.
Definition mismatch (a b : list Z) (from : nat) : Z :=
  let i := skip_equal (length a) 64 a b from in
  let i := skip_equal (length a) 1 a b i in
  if (i =? length a)%nat then -1 else Z.of_nat i.

Definition window_oob (o l len : Z) : Run bool :=
  if (o <? 0) || (l <? 0) then Go true else let! e := add64 o l in Go (len <? e).
Definition word_oob (i n len : Z) : Run bool :=
  if i <? 0 then Go true else let! e := add64 i n in Go (len <? e).

Definition block_read (n : nat) (signed : Z -> Z) (bd : BlockData) (bytes : list Z) (args : list Value) (h : Host X) : NativeRun X :=
  let i := argI args 0 in
  let! bad := word_oob i (Z.of_nat n) (b_len bd) in
  if bad then fails (oob_text i (b_len bd)) h
  else let! w := read_bytes bytes (b_off bd + i) (Z.of_nat n) in ret (VInt (signed (le_combine 0 w))) h.
Definition block_write (n : nat) (bd : BlockData) (q : loc) (bytes : list Z) (args : list Value) (h : Host X) : NativeRun X :=
  let i := argI args 0 in
  let! bad := word_oob i (Z.of_nat n) (b_len bd) in
  if bad then fails (oob_text i (b_len bd)) h
  else
    let! bs := write_bytes bytes (b_off bd + i) (le_split n (wrap_u (8 * Z.of_nat n) (argI args 1))) in
    ret VVoid (put_cell q (CBytes bs) h).

Definition block_setByte (bd : BlockData) (q : loc) (bytes : list Z) (args : list Value) (h : Host X) : NativeRun X :=
  let i := argI args 0 in
  let v := argI args 1 in
  if (i <? 0) || (b_len bd <=? i) then fails (oob_text i (b_len bd)) h
  else if (v <? 0) || (255 <? v) then fails (byte_text v) h
  else let! bs := put_index bytes (b_off bd + i) v in ret VVoid (put_cell q (CBytes bs) h).

Definition block_slice (bd : BlockData) (args : list Value) (h : Host X) : NativeRun X :=
  let o := argI args 0 in
  let l := argI args 1 in
  let! bad := window_oob o l (b_len bd) in
  if bad then fails (oob_text o (b_len bd)) h
  else ret_new (fun p => VBlock (Some p)) (CBlock (MkBlockData (b_bytes bd) (b_off bd + o) l)) h.

Definition block_toString (bd : BlockData) (bytes : list Z) (args : list Value) (h : Host X) : NativeRun X :=
  let o := argI args 0 in
  let l := argI args 1 in
  let! bad := window_oob o l (b_len bd) in
  if bad then fails (oob_text o (b_len bd)) h
  else let! w := read_bytes bytes (b_off bd + o) l in ret (VString (map chr w)) h.

Definition block_fill (bd : BlockData) (q : loc) (bytes : list Z) (args : list Value) (h : Host X) : NativeRun X :=
  let o := argI args 0 in
  let l := argI args 1 in
  let v := argI args 2 in
  if (o <? 0) || (l <? 0) || (b_len bd <? o) || (b_len bd - o <? l) then fails (oob_text o (b_len bd)) h
  else if (v <? 0) || (255 <? v) then fails (byte_text v) h
  else if l =? 0 then ret VVoid h
  else let! bs := write_bytes bytes (b_off bd + o) (replicate (Z.to_nat l) v) in ret VVoid (put_cell q (CBytes bs) h).

Definition block_blit (bd : BlockData) (q : loc) (bytes : list Z) (args : list Value) (h : Host X) : NativeRun X :=
  let d := argI args 0 in
  let s := argI args 2 in
  let l := argI args 3 in
  if (d <? 0) || (l <? 0) || (b_len bd <? d) || (b_len bd - d <? l) then fails (oob_text d (b_len bd)) h
  else
    let! src := match args !! 1%nat with Some v => block_at h v | None => Go None end in
    match src with
    | None => fails (lit "null block") h
    | Some (sb, _, sbytes) =>
        if (s <? 0) || (b_len sb <? s) || (b_len sb - s <? l) then fails (oob_text s (b_len sb)) h
        else if l =? 0 then ret VVoid h
        else
          let! w := read_bytes sbytes (b_off sb + s) l in
          let! bs := write_bytes bytes (b_off bd + d) w in
          ret VVoid (put_cell q (CBytes bs) h)
    end.

(** The other operand of [equals] and [mismatch]. *)
Definition other_block (args : list Value) (h : Host X) : Run (option (BlockData * loc * list Z)) :=
  match args with v :: _ => block_at h v | [] => Go None end.

Definition block_equals (bd : BlockData) (bytes : list Z) (args : list Value) (h : Host X) : NativeRun X :=
  let! ob := other_block args h in
  match ob with
  | None => fails (lit "null block") h
  | Some (ob, _, obytes) =>
      if b_len bd =? b_len ob then
        if b_len bd =? 0 then ret (VBool true) h
        else
          let! a := read_bytes bytes (b_off bd) (b_len bd) in
          let! b := read_bytes obytes (b_off ob) (b_len bd) in
          ret (VBool (bool_decide (a = b))) h
      else ret (VBool false) h
  end.

Definition block_mismatch (bd : BlockData) (bytes : list Z) (args : list Value) (h : Host X) : NativeRun X :=
  let! ob := other_block args h in
  match ob with
  | None => fails (lit "null block") h
  | Some (ob, _, obytes) =>
      if negb (b_len bd =? b_len ob) then fails (lit "Block.mismatch requires equal lengths") h
      else
        let from := argI args 1 in
        if (from <? 0) || (b_len bd <? from) then fails (oob_text from (b_len bd)) h
        else
          let! a := read_bytes bytes (b_off bd) (b_len bd) in
          let! b := read_bytes obytes (b_off ob) (b_len bd) in
          ret (VInt (mismatch a b (Z.to_nat from))) h
  end.

Definition block_native (m : str) (self : Value) (args : list Value) (h : Host X) : NativeRun X :=
  let! b := block_at h self in
  match b with
  | None => fails (lit "null block") h
  | Some (bd, q, bytes) =>
      let i := argI args 0 in
      if eqs m (lit "length") then ret (VInt (b_len bd)) h
      else if eqs m (lit "byteAt") then
        if (i <? 0) || (b_len bd <=? i) then fails (oob_text i (b_len bd)) h
        else let! b := at_index bytes (b_off bd + i) in ret (VInt b) h
      else if eqs m (lit "setByte") then block_setByte bd q bytes args h
      else if eqs m (lit "slice") then block_slice bd args h
      else if eqs m (lit "toString") then block_toString bd bytes args h
      else if eqs m (lit "int32At") then block_read 4 (wrap_s 32) bd bytes args h
      else if eqs m (lit "setInt32") then block_write 4 bd q bytes args h
      else if eqs m (lit "int64At") then block_read 8 (wrap_s 64) bd bytes args h
      else if eqs m (lit "setInt64") then block_write 8 bd q bytes args h
      else if eqs m (lit "fill") then block_fill bd q bytes args h
      else if eqs m (lit "blit") then block_blit bd q bytes args h
      else if eqs m (lit "equals") then block_equals bd bytes args h
      else if eqs m (lit "mismatch") then block_mismatch bd bytes args h
      else unknown
  end.

(** ** Array *)

Definition elements (h : Host X) (v : Value) : Run (list Value) :=
  match v_arr v with Some p => from_option FDangling (h_arr (heap h) p) | None => Go [] end.

(** In place when the caller transferred its only reference, otherwise a copy. *)
Definition array_add (self : Value) (a : list Value) (args : list Value) (cowReceiver : bool) (h : Host X) : NativeRun X :=
  let a' := a ++ take 1 args in
  match v_arr self with
  | Some p => if cowReceiver then ret self (put_cell p (CArr a') h) else ret_new (fun q => VArray (Some q)) (CArr a') h
  | None => ret_new (fun q => VArray (Some q)) (CArr a') h
  end.

Definition array_native (m : str) (self : Value) (args : list Value) (cowReceiver : bool) (h : Host X) : NativeRun X :=
  let! a := elements h self in
  let i := argI args 0 in
  if eqs m (lit "length") then ret (VInt (size_of a)) h
  else if eqs m (lit "at") then
    if (i <? 0) || (size_of a <=? i) then fails (oob_text i (size_of a)) h
    else let! v := at_index a i in ret v h
  else if eqs m (lit "add") then array_add self a args cowReceiver h
  else if eqs m (lit "concatAll") then ret (VString (concat (map v_s a))) h
  else unknown.

(** ** Map *)

Definition entries (h : Host X) (v : Value) : Run (list (Value * Value)) :=
  match v_map v with Some p => from_option FDangling (h_map (heap h) p) | None => Go [] end.
Definition key_eq (h : Host X) (k k' : Value) : Run bool := from_option FDepth (keyEquals depth (heap h) k k').

(** The first entry with the key. *)
Fixpoint map_find (h : Host X) (k : Value) (es : list (Value * Value)) : Run (option Value) :=
  match es with
  | [] => Go None
  | (k', v) :: es' => let! e := key_eq h k' k in if e then Go (Some v) else map_find h k es'
  end.
(** The entries with the key's first entry replaced; [None] if there is none. *)
Fixpoint map_replace (h : Host X) (k v : Value) (es : list (Value * Value)) : Run (option (list (Value * Value))) :=
  match es with
  | [] => Go None
  | (k', v') :: es' =>
      let! e := key_eq h k' k in
      if e then Go (Some ((k', v) :: es'))
      else let! r := map_replace h k v es' in Go (option_map (cons (k', v')) r)
  end.
Fixpoint map_without (h : Host X) (k : Value) (es : list (Value * Value)) : Run (list (Value * Value)) :=
  match es with
  | [] => Go []
  | (k', v') :: es' => let! e := key_eq h k' k in let! r := map_without h k es' in Go (if e then r else (k', v') :: r)
  end.
Definition map_with (h : Host X) (args : list Value) (es : list (Value * Value)) : Run (list (Value * Value)) :=
  match args with
  | [k; v] => let! r := map_replace h k v es in Go (match r with Some es' => es' | None => es ++ [(k, v)] end)
  | _ => Go es
  end.

Definition map_native (m : str) (self : Value) (args : list Value) (h : Host X) : NativeRun X :=
  let! es := entries h self in
  if eqs m (lit "length") then ret (VInt (size_of es)) h
  else if eqs m (lit "at") then
    match args with
    | [] => fails (lit "key not found: <none>") h
    | k :: _ =>
        let! r := map_find h k es in
        match r with
        | Some v => ret v h
        | None => let! t := from_option FDepth (valueToString depth (heap h) k) in fails (lit "key not found: " ++ t) h
        end
    end
  else if eqs m (lit "has") then
    match args with
    | [] => ret (VBool false) h
    | k :: _ => let! r := map_find h k es in ret (VBool (match r with Some _ => true | None => false end)) h
    end
  else if eqs m (lit "with") then
    let! es' := map_with h args es in ret_new (fun p => VMap (Some p)) (CMap es') h
  else if eqs m (lit "without") then
    let! es' := match args with [] => Go es | k :: _ => map_without h k es end in
    ret_new (fun p => VMap (Some p)) (CMap es') h
  else if eqs m (lit "keys") then ret_new (fun p => VArray (Some p)) (CArr (map fst es)) h
  else if eqs m (lit "values") then ret_new (fun p => VArray (Some p)) (CArr (map snd es)) h
  else unknown.

(** ** int, bool, float *)

Definition int_native (m : str) (self : Value) (h : Host X) : NativeRun X :=
  if eqs m (lit "toString") then ret (VString (to_string (v_i self))) h
  else if eqs m (lit "toFloat") then ret (VFloat (to_bits nan (f_of_int (v_i self)))) h
  else unknown.
Definition bool_native (m : str) (self : Value) (h : Host X) : NativeRun X :=
  if eqs m (lit "toString") then ret (VString (if v_b self then lit "true" else lit "false")) h else unknown.

(** The integer [std::floor] and the others choose for a magnitude [p / d] with
    the sign [neg]. *)
Inductive Rounding := Floor | Ceil | RoundAway | Trunc.
Definition round_mag (r : Rounding) (neg : bool) (p d : Z) : Z :=
  let q := p / d in
  let up := q + (if p mod d =? 0 then 0 else 1) in
  match r with
  | Floor => if neg then up else q
  | Ceil => if neg then q else up
  | RoundAway => (2 * p + d) / (2 * d)
  | Trunc => q
  end.
Definition sf_round (r : Rounding) (x : spec_float) : spec_float :=
  match x with
  | S754_finite s p e =>
      if 0 <=? e then x
      else let q := round_mag r s (Zpos p) (2 ^ (- e)) in binary_normalize kPrec kEmax (if s then - q else q) 0 s
  | _ => x
  end.
Definition float_round (r : Rounding) (self : Value) : Value := VFloat (to_bits nan (sf_round r (of_bits (v_f self)))).

(** [(long long)f], where the test before it has made sure of the range. *)
Definition sf_trunc (x : spec_float) : Z :=
  match x with
  | S754_finite s p e =>
      let q := if 0 <=? e then Zpos p * 2 ^ e else Zpos p / 2 ^ (- e) in if s then - q else q
  | _ => 0
  end.
Definition min64 : spec_float := S754_finite true 4503599627370496 11.
Definition max64 : spec_float := S754_finite false 4503599627370496 11.
Definition float_toInt (self : Value) (h : Host X) : NativeRun X :=
  let f := of_bits (v_f self) in
  if negb (is_finite f) || SFltb f min64 || SFleb max64 f
  then fails (lit "float is not finite or out of int64 range for toInt()") h
  else ret (VInt (sf_trunc f)) h.

Definition float_native (m : str) (self : Value) (args : list Value) (h : Host X) : NativeRun X :=
  if eqs m (lit "toString") then ret (VString (float_text (v_f self))) h
  else if eqs m (lit "floor") then ret (float_round Floor self) h
  else if eqs m (lit "ceil") then ret (float_round Ceil self) h
  else if eqs m (lit "round") then ret (float_round RoundAway self) h
  else if eqs m (lit "trunc") then ret (float_round Trunc self) h
  else if eqs m (lit "sqrt") then ret (VFloat (to_bits nan (SFsqrt kPrec kEmax (of_bits (v_f self))))) h
  else if eqs m (lit "pow") then ret (VFloat (pow (v_f self) (argF args 0))) h
  else if eqs m (lit "bits") then ret (VInt (wrap_s 64 (v_f self))) h
  else if eqs m (lit "canonEq") then ret (VBool (lv_canon (v_f self) =? lv_canon (argF args 0))) h
  else if eqs m (lit "toInt") then float_toInt self h
  else unknown.

(** [nativeCall]. *)
Definition native_call (cls m : str) (self : Value) (args : list Value) (cowReceiver : bool) (h : Host X) : NativeRun X :=
  if eqs cls (lit "string") then string_native m self args h
  else if eqs cls (lit "char") then char_native m self h
  else if eqs cls (lit "Block") then block_native m self args h
  else if eqs cls (lit "Array") then array_native m self args cowReceiver h
  else if eqs cls (lit "Map") then map_native m self args h
  else if eqs cls (lit "int") then int_native m self h
  else if eqs cls (lit "bool") then bool_native m self h
  else if eqs cls (lit "float") then float_native m self args h
  else unknown.

End Natives.
