(* ===== verification/ThreadCopy.v ===== *)
(** * Values across a thread boundary

    Models the flatten/rebuild walk of [src/runtime/RuntimeNatives.cpp]:
    [lvThreadCopy] and what it asks about classes.  The walk carries a map from
    the cells already copied to their copies, registered before their contents
    are walked, so that shared structure is copied once and cycles end.

    An [unordered_map] is walked in the order of its model's list; the order
    decides only which of several rejected values the message names. *)

From S2P Require Import TaskSched.
From S2P Require Import Prelude Token Ast Utf8 Value RefHeap Ir RuntimeLoop RuntimeCore MemVerify IrInterp Natives.

Local Open Scope Z_scope.

(** ** The names a lambda's body refers to *)

Definition opt_names {A} (f : A -> list str) (o : option A) : list str := match o with Some a => f a | None => [] end.

Definition name_of (t : str) : list str := if nonempty t then [t] else [].

Fixpoint lvCollectExprNames (e : Expr) : list str :=
  match e with
  | MkExpr _ _ _ _ n =>
      match n with
      | EName t => name_of t
      | EMember b _ _ t => name_of t ++ lvCollectExprNames b
      | ECall c _ args => lvCollectExprNames c ++ flat_map lvCollectExprNames args
      | EIndex a b | EBinary _ a b | ERange a b => lvCollectExprNames a ++ lvCollectExprNames b
      | EUnary _ a | EAwait a | EExtract a | EIs a _ => lvCollectExprNames a
      | ETernary a b c => lvCollectExprNames a ++ lvCollectExprNames b ++ lvCollectExprNames c
      | EArray es => flat_map lvCollectExprNames es
      | ELambda ps b => flat_map param_names ps ++ body_names b
      | EMatch a arms => lvCollectExprNames a ++ flat_map arm_names arms
      | EForSplice _ a b => lvCollectExprNames a ++ lvCollectExprNames b
      | EForkSplice a b c => lvCollectExprNames a ++ lvCollectExprNames b ++ opt_names lvCollectExprNames c
      | _ => []
      end
  end
with param_names (p : Param) : list str :=
  match p with MkParam _ _ _ _ d => opt_names lvCollectExprNames d end
with body_names (b : Body) : list str :=
  match b with BExpr e => lvCollectExprNames e | BBlock s => lvCollectStmtNames s end
with arm_names (a : MatchArm) : list str :=
  match a with
  | MkArm p b _ => match p with PValue e => lvCollectExprNames e | _ => [] end ++ body_names b
  end
with lvCollectStmtNames (s : Stmt) : list str :=
  match s with
  | MkStmt _ _ _ _ _ _ n =>
      match n with
      | SNamespace b | SClass _ _ _ _ b | SEnum _ b | SBlock b => flat_map lvCollectStmtNames b
      | SMember _ _ _ _ _ _ b i | SBind _ b i => opt_names lvCollectExprNames i ++ opt_names lvCollectStmtNames b
      | SMacro _ _ b _ => opt_names lvCollectStmtNames b
      | SVar _ _ _ _ i => opt_names lvCollectExprNames i
      | SExprStmt e | SThrow e => lvCollectExprNames e
      | SReturn e => opt_names lvCollectExprNames e
      | SIf e t f | SForkSplice e t f =>
          lvCollectExprNames e ++ opt_names lvCollectStmtNames t ++ opt_names lvCollectStmtNames f
      | SWhile e b | SForIn _ _ _ e b | SForSplice e b => lvCollectExprNames e ++ opt_names lvCollectStmtNames b
      | SDoWhile b e => lvCollectExprNames e ++ opt_names lvCollectStmtNames b
      | SFor i c st b =>
          opt_names lvCollectExprNames c ++ opt_names lvCollectExprNames st ++ opt_names lvCollectStmtNames b ++
          opt_names lvCollectStmtNames i
      | STry b cs => opt_names lvCollectStmtNames b ++ flat_map catch_names cs
      | _ => []
      end
  end
with catch_names (c : CatchClause) : list str :=
  match c with MkCatch _ _ b => opt_names lvCollectStmtNames b end.

(** ** Classes that do not cross, or cross as they are *)

Section Copy.
Context {X : Type} (mal : gset Z -> nat -> Z) (sema : Sema) (depth : nat) (lambdas : nat -> Expr).
Implicit Types (h : Host X).

Definition lvThreadNonTransferable (cls : str) : bool :=
  existsb (eqs cls) [lit "TcpStream"; lit "TcpListener"; lit "Timer"; lit "Process"; lit "TcpConnector"].
Definition lvThreadIsPortal (c : Symbol) : Run bool := derived_from sema depth [lit "Channel"] c.
Definition lvThreadIsPromiseDerived (c : Symbol) : Run bool := derived_from sema depth [lit "Promise"] c.
Definition lvThreadIsInStream (c : Symbol) : Run bool := derived_from sema depth [lit "InStream"] c.
Definition lvThreadIsDisposableStream (c : Symbol) (o : Object) : Run bool :=
  let! s := lvThreadIsInStream c in
  Go (s && match fields o !! lit "hasDispose" with Some (VBool b) => b | _ => false end).

Definition cannot_cross (name : str) : str := lit "value of type " ++ name ++ lit " cannot cross a thread boundary (v1)".

(** What the walk does with an object. *)
Inductive Verdict := Share | Reject (e : str) | Copy.
Definition verdict (o : Object) : Run Verdict :=
  match o_cls o with
  | None => Go Copy
  | Some c =>
      let! portal := lvThreadIsPortal c in
      if portal then Go Share else
      let! promise := lvThreadIsPromiseDerived c in
      if promise then Go (Reject (cannot_cross (sy_name c) ++ lit "; pass a Channel")) else
      if lvThreadNonTransferable (sy_name c) then Go (Reject (cannot_cross (sy_name c))) else
      let! disposable := lvThreadIsDisposableStream c o in
      Go (if disposable then Reject (cannot_cross (sy_name c)) else Copy)
  end.

(** ** The walk *)

Record CopyState := MkCopy { seen : gmap loc Value; c_err : str; c_host : Host X }.
Definition rejected (e : str) (st : CopyState) : Run (Value * CopyState) := Go (VVoid, MkCopy (seen st) e (c_host st)).
Definition no_err (st : CopyState) : bool := negb (nonempty (c_err st)).
Definition write_copy (q : loc) (c : Cell) (st : CopyState) : CopyState := MkCopy (seen st) (c_err st) (put_cell q c (c_host st)).

(** [make_shared], and the copy registered under the original's address. *)
Definition begin_copy (p : loc) (r : loc -> Value) (c : Cell) (st : CopyState) : loc * CopyState :=
  let '(q, h) := host_alloc mal c (c_host st) in (q, MkCopy (<[p := r q]> (seen st)) (c_err st) h).

Section Loops.
Context (copy : Value -> CopyState -> Run (Value * CopyState)).

(** [o->fields[k] = lvThreadCopy(fv, ...)]. *)
Fixpoint copy_fields (q : loc) (cls : option Symbol) (l : list (str * Value)) (acc : gmap str Value) (st : CopyState) : Run CopyState :=
  match l with
  | [] => Go st
  | (k, fv) :: l' =>
      let! (v, st) := copy fv st in
      let acc := <[k := v]> acc in
      let st := write_copy q (CObj (MkObject cls acc ∅)) st in
      if no_err st then copy_fields q cls l' acc st else Go st
  end.

(** [a->push_back(lvThreadCopy(el, ...))]. *)
Fixpoint copy_elements (q : loc) (l acc : list Value) (st : CopyState) : Run CopyState :=
  match l with
  | [] => Go st
  | el :: l' =>
      let! (v, st) := copy el st in
      let acc := acc ++ [v] in
      let st := write_copy q (CArr acc) st in
      if no_err st then copy_elements q l' acc st else Go st
  end.

Fixpoint copy_entries (q : loc) (l acc : list (Value * Value)) (st : CopyState) : Run CopyState :=
  match l with
  | [] => Go st
  | (k, val) :: l' =>
      let! (ck, st) := copy k st in
      if no_err st then
        let! (cv, st) := copy val st in
        if no_err st then
          let acc := acc ++ [(ck, cv)] in copy_entries q l' acc (write_copy q (CMap acc) st)
        else Go st
      else Go st
  end.

(** One scope of a closure's environment; [mk] is the closure with that scope last. *)
Fixpoint copy_scope (q : loc) (mk : gmap str Value -> Closure) (free : option (list str)) (l : list (str * Value))
  (acc : gmap str Value) (st : CopyState) : Run (gmap str Value * CopyState) :=
  match l with
  | [] => Go (acc, st)
  | (nm, cv) :: l' =>
      if match free with Some names => existsb (eqs nm) names | None => true end then
        let! (v, st) := copy cv st in
        if no_err st then
          let acc := <[nm := v]> acc in
          copy_scope q mk free l' acc (write_copy q (CClos (mk acc)) st)
        else Go (acc, st)
      else copy_scope q mk free l' acc st
  end.
Fixpoint copy_env (q : loc) (c : Closure) (free : option (list str)) (l env : list (gmap str Value)) (st : CopyState)
  : Run (list (gmap str Value) * CopyState) :=
  match l with
  | [] => Go (env, st)
  | scope :: l' =>
      let mk acc := MkClosure (c_lambda c) (env ++ [acc]) None (c_thisClass c) in
      let st := write_copy q (CClos (mk ∅)) st in
      let! (acc, st) := copy_scope q mk free (map_to_list scope) ∅ st in
      if no_err st then copy_env q c free l' (env ++ [acc]) st else Go (env, st)
  end.
End Loops.

(** [r], or [Value{}] after an error. *)
Definition copied (r : Value) (st : CopyState) : Run (Value * CopyState) := Go (if no_err st then r else VVoid, st).

Fixpoint lvThreadCopy (fuel : nat) (rootClosureOk : bool) (v : Value) (st : CopyState) : Run (Value * CopyState) :=
  if no_err st then
    match fuel with
    | O => Stop FDepth
    | S f =>
        let h := heap (c_host st) in
        let again (p : loc) (k : Run (Value * CopyState)) := match seen st !! p with Some r => Go (r, st) | None => k end in
        match v with
        | VObject (Some p) =>
            let! o := from_option FDangling (h_obj h p) in
            let! vd := verdict o in
            match vd with
            | Share => Go (v, st)
            | Reject e => rejected e st
            | Copy =>
                again p (
                  let '(q, st) := begin_copy p (fun q => VObject (Some q)) (CObj (MkObject (o_cls o) ∅ ∅)) st in
                  let! st := copy_fields (lvThreadCopy f false) q (o_cls o) (map_to_list (fields o)) ∅ st in
                  copied (VObject (Some q)) st)
            end
        | VArray (Some p) =>
            let! xs := from_option FDangling (h_arr h p) in
            again p (
              let '(q, st) := begin_copy p (fun q => VArray (Some q)) (CArr []) st in
              let! st := copy_elements (lvThreadCopy f false) q xs [] st in
              copied (VArray (Some q)) st)
        | VMap (Some p) =>
            let! es := from_option FDangling (h_map h p) in
            again p (
              let '(q, st) := begin_copy p (fun q => VMap (Some q)) (CMap []) st in
              let! st := copy_entries (lvThreadCopy f false) q es [] st in
              copied (VMap (Some q)) st)
        | VClosure (Some p) =>
            if rootClosureOk then
              let! c := from_option FDangling (h_clos h p) in
              again p (
                let '(q, st) := begin_copy p (fun q => VClosure (Some q)) (CClos (MkClosure (c_lambda c) [] None (c_thisClass c))) st in
                let free := option_map (fun l => lvCollectExprNames (lambdas l)) (c_lambda c) in
                let! (env, st) := copy_env (lvThreadCopy f false) q c free (c_env c) [] st in
                if no_err st then
                  match c_thisObj c with
                  | None => Go (VClosure (Some q), st)
                  | Some o =>
                      let! (ct, st) := lvThreadCopy f false (VObject (Some o)) st in
                      if no_err st then
                        let this := match ct with VObject r => r | _ => None end in
                        Go (VClosure (Some q), write_copy q (CClos (MkClosure (c_lambda c) env this (c_thisClass c))) st)
                      else Go (VVoid, st)
                  end
                else Go (VVoid, st))
            else rejected (lit "a closure cannot cross a thread boundary (v1)") st
        | VBlock _ => rejected (lit "a Block cannot cross a thread boundary (v1)") st
        | VAst _ _ => rejected (lit "an Ast value is compile-time-only") st
        | _ => Go (v, st)
        end
    end
  else Go (VVoid, st).

(** [sysThreadTransfer]: one walk over the first argument, whose root may be the
    body of a spawn.  The recursion registers a cell of the heap before each
    descent, so it is no deeper than the heap is large. *)
Definition sysThreadTransfer (args : list Value) (h : Host X) : NativeRun X :=
  let v := match args with v :: _ => v | [] => VVoid end in
  let! (out, st) := lvThreadCopy (S (S (size (heap h)))) true v (MkCopy ∅ [] h) in
  Go (Some (out, c_err st, c_host st)).

End Copy.
Arguments MkCopy {X}.
Arguments seen {X} c.
Arguments c_err {X} c.
Arguments c_host {X} c.
