(* ===== verification/NativesSys.v ===== *)
(** * The free natives

    Models [nativeFreeCall] of [src/runtime/RuntimeNatives.cpp] and the terminal,
    signal, socket and exit state behind it, as built for Linux without OpenSSL
    (the TLS natives are then the stubs of the [#else] branches).  Every system
    or library call the code makes is a constructor of [Sys]; what the system
    answers is a parameter, a handler of those calls over a state of its own.  A
    call that can fail answers a negative error number; the code mostly collapses
    it to -1.  Loops the outside world keeps going (short reads, interrupted
    calls) are bounded by [fuel]. *)

From S2P Require Import TaskSched.
From S2P Require Import Prelude Token Ast Utf8 Value RefHeap Ir RuntimeLoop RuntimeCore MemVerify IrInterp Natives ThreadCopy.

Local Open Scope Z_scope.

(** ** Constants of the platform *)

Definition O_RDONLY : Z := 0.
Definition O_WRONLY : Z := 1.
Definition O_RDWR : Z := 2.
Definition O_CREAT : Z := 64.
Definition O_NOCTTY : Z := 256.
Definition O_TRUNC : Z := 512.
Definition O_APPEND : Z := 1024.
Definition O_CLOEXEC : Z := 524288.
Definition EPERM : Z := 1.
Definition EINTR : Z := 4.
Definition EIO : Z := 5.
Definition EAGAIN : Z := 11.
Definition EISDIR : Z := 21.
Definition ENOTSOCK : Z := 88.
Definition EINPROGRESS : Z := 115.
Definition SIGHUP : Z := 1.
Definition SIGINT : Z := 2.
Definition SIGQUIT : Z := 3.
Definition SIGKILL : Z := 9.
Definition SIGPIPE : Z := 13.
Definition SIGTERM : Z := 15.
Definition SIGSTOP : Z := 19.
Definition AF_INET : Z := 2.
Definition AF_INET6 : Z := 10.

(** [struct termios]: the four flag words and the control characters by index. *)
Record Termios := MkTermios { c_iflag : Z; c_oflag : Z; c_cflag : Z; c_lflag : Z; c_cc : gmap Z Z }.
Definition VINTR : Z := 0.
Definition VQUIT : Z := 1.
Definition VERASE : Z := 2.
Definition VKILL : Z := 3.
Definition VEOF : Z := 4.
Definition VTIME : Z := 5.
Definition VMIN : Z := 6.
Definition VSUSP : Z := 10.
Definition ICRNL : Z := 256.
Definition IXON : Z := 1024.
Definition OPOST : Z := 1.
Definition ONLCR : Z := 4.
Definition CS8 : Z := 48.
Definition CREAD : Z := 128.
Definition ISIG : Z := 1.
Definition ICANON : Z := 2.
Definition ECHO : Z := 8.
Definition ECHOE : Z := 16.
Definition ECHOK : Z := 32.
Definition IEXTEN : Z := 32768.

Record SockAddr := MkAddr { a_family : Z; a_port : Z; a_ip : str }.

(** The calls a forked child makes. *)
Inductive ChildCall :=
| Setsid | Ctty (fd : Z) | Dup2 (fd to : Z) | CloseFd (fd : Z) | Execve (path : str) (argv : list str) | ExitNow (code : Z).

(** ** System and library calls *)

Inductive Sys : Set -> Type :=
| Write (fd : Z) (data : str) : Sys Z
| Read (fd max : Z) : Sys (Z * str)                       (* bytes read or an error, and the bytes *)
| Getline : Sys (option str)                              (* std::getline(std::cin, line) *)
| Open (path : str) (flags : Z) : Sys Z
| Close (fd : Z) : Sys Z
| Realtime : Sys (Z * Z)
| Monotonic : Sys (Z * Z)
| SteadyNow : Sys Z                                       (* steady_clock, in nanoseconds *)
| Stat (path : str) : Sys (option (Z * Z * bool))         (* size, mtime, is a directory *)
| Tcgetattr (fd : Z) : Sys (option Termios)
| Tcsetattr (fd : Z) (flush : bool) (t : Termios) : Sys Z
| WinSize (fd : Z) : Sys (option (Z * Z))
| SetWinSize (fd rows cols : Z) : Sys Z
| AtExit : Sys unit                                       (* std::atexit(termRestoreAtexit) *)
| SafetyHandlers (sigs : list Z) : Sys unit               (* sigaction to termSafetyHandler *)
| IgnoreSig (sig : Z) : Sys unit
| MaskSigs (block : bool) (mask : gset Z) : Sys Z         (* sigprocmask *)
| SignalFd (mask : gset Z) : Sys Z
| ReadSignal (fd : Z) : Sys (option Z)                    (* a whole signalfd_siginfo, or not *)
| InetPton (family : Z) (host : str) : Sys (option str)
| GetAddrInfo (family : Z) (host : str) : Sys (option (list (Z * str * bool)))  (* family, address, fits *)
| InetNtop (ip : str) : Sys str
| Socket (family : Z) : Sys Z
| Connect (fd : Z) (a : SockAddr) : Sys Z
| NonBlock (fd : Z) : Sys unit                            (* fcntl F_GETFL, F_SETFL | O_NONBLOCK *)
| SoError (fd : Z) : Sys (option Z)
| ReuseAddr (fd : Z) : Sys Z
| ReusePort (fd : Z) : Sys Z
| SndBuf (fd n : Z) : Sys Z
| RcvBuf (fd n : Z) : Sys Z
| Bind (fd : Z) (a : SockAddr) : Sys Z
| Listen (fd backlog : Z) : Sys Z
| Accept (fd : Z) : Sys Z
| Send (fd : Z) (data : str) : Sys Z
| Recv (fd max : Z) : Sys (Z * str)
| CpuCount : Sys Z
| GetRandom (n : Z) : Sys (Z * str)
| IsATty (fd : Z) : Sys bool
| GetEnv (key : str) : Sys (option str)
| Mkdir (path : str) : Sys Z
| Unlink (path : str) : Sys Z
| Rmdir (path : str) : Sys Z
| Rename (from to : str) : Sys Z
| ListDir (path : str) : Sys (option (list str))          (* opendir, readdir to the end, closedir *)
| Pipe2 : Sys (option (Z * Z))
| Fork (child : list ChildCall) : Sys Z
| PidfdOpen (pid : Z) : Sys Z
| WaitId (pid : Z) : Sys (option (bool * Z))              (* exited normally, status *)
| Kill (pid sig : Z) : Sys Z
| OpenPt : Sys Z
| GrantPt (fd : Z) : Sys Z
| UnlockPt (fd : Z) : Sys Z
| PtsName (fd : Z) : Sys (option str)
| OpenPts (name : str) : Sys Z.

(** ** State of the natives *)

Record SigFdRec := MkSigFd { sg_fd : Z; sg_mask : gset Z }.
Record Ext (W : Type) := MkExt {
  g_programArgs : list str; g_ttySaved : Termios; g_ttyFd : Z; g_atexit : bool; g_sigfds : list SigFdRec;
  sigpipeIgnored : bool; sigpipeIgnored2 : bool; os : W
}.
Arguments MkExt {W}.
Arguments g_programArgs {W} e.
Arguments g_ttySaved {W} e.
Arguments g_ttyFd {W} e.
Arguments g_atexit {W} e.
Arguments g_sigfds {W} e.
Arguments sigpipeIgnored {W} e.
Arguments sigpipeIgnored2 {W} e.
Arguments os {W} e.

(** [setProgramArgs]. *)
Definition setProgramArgs {W} (args : list str) (e : Ext W) : Ext W :=
  MkExt (match args with [] => [[]] | _ => args end) (g_ttySaved e) (g_ttyFd e) (g_atexit e) (g_sigfds e) (sigpipeIgnored e)
    (sigpipeIgnored2 e) (os e).

(** Libm, whose results are the platform's. *)
Record Libm := MkLibm { f_pow : Z -> Z -> Z; f_log : Z -> Z; f_log2 : Z -> Z; f_exp : Z -> Z; f_sin : Z -> Z; f_cos : Z -> Z; f_tan : Z -> Z; f_atan2 : Z -> Z -> Z }.

(** [s.c_str()]: the text up to the first NUL. *)
Fixpoint c_str (s : str) : str :=
  match s with [] => [] | c :: s' => if eqc c c_nul then [] else c :: c_str s' end.

Section SysNatives.
Context {W : Type} (handle : forall A : Set, Sys A -> W -> A * W).
Context (mal : gset Z -> nat -> Z) (sema : Sema) (depth fuel : nat) (lambdas : nat -> Expr) (libm : Libm).
Abbreviation NHost := (Host (Ext W)).
Abbreviation Ret := (NativeRun (Ext W)).

Definition set_ext (e : Ext W) (h : NHost) : NHost :=
  MkHost (heap h) (next_loc h) (addr h) (loop_ h) (out_ h) (ttyRaw h) (written h) (exitRequested h) (interpExitCode h) e.
Definition set_os (o : W) (e : Ext W) : Ext W :=
  MkExt (g_programArgs e) (g_ttySaved e) (g_ttyFd e) (g_atexit e) (g_sigfds e) (sigpipeIgnored e) (sigpipeIgnored2 e) o.
Definition set_sigfds (l : list SigFdRec) (e : Ext W) : Ext W :=
  MkExt (g_programArgs e) (g_ttySaved e) (g_ttyFd e) (g_atexit e) l (sigpipeIgnored e) (sigpipeIgnored2 e) (os e).

Definition sys {A : Set} (c : Sys A) (h : NHost) : A * NHost :=
  let '(r, o) := handle A c (os (ext h)) in (r, set_ext (set_os o (ext h)) h).
Definition run {A : Set} (c : Sys A) (h : NHost) : NHost := snd (sys c h).
(** The answer as the program sees it. *)
Definition minus1 (r : Z) : Z := if r <? 0 then -1 else r.
Definition zero_or_minus1 (r : Z) : Z := if r =? 0 then 0 else -1.
Definition close_all (fds : list Z) (h : NHost) : NHost := fold_left (fun h fd => run (Close fd) h) fds h.

Definition arg_or (args : list Value) (i : nat) (d : Z) : Z := match args !! i with Some v => v_i v | None => d end.
Definition new_array (vs : list Value) (h : NHost) : Ret := ret_new mal (fun p => VArray (Some p)) (CArr vs) h.
Definition or_else (a b : Ret) : Ret := match a with Go None => b | _ => a end.

(** ** Threads, channels, mathematics *)

Definition thread_native (name : str) (args : list Value) (h : NHost) : Ret :=
  if eqs name (lit "sysThreadTransfer") then sysThreadTransfer mal sema depth lambdas args h
  else if eqs name (lit "sysThreadStart") then ret (VInt (-1)) h
  else if eqs name (lit "sysThreadResult") then ret VVoid h
  else if eqs name (lit "sysChannelNew") then ret (VInt (-1)) h
  else if eqs name (lit "sysChannelSend") then ret (VInt 0) h
  else if eqs name (lit "sysChannelReceive") then ret VNone h
  else if eqs name (lit "sysChannelClose") then ret (VInt 0) h
  else unknown.

Definition math_native (name : str) (args : list Value) (h : NHost) : Ret :=
  let x := argF args 0 in
  if eqs name (lit "log") then ret (VFloat (f_log libm x)) h
  else if eqs name (lit "log2") then ret (VFloat (f_log2 libm x)) h
  else if eqs name (lit "exp") then ret (VFloat (f_exp libm x)) h
  else if eqs name (lit "sin") then ret (VFloat (f_sin libm x)) h
  else if eqs name (lit "cos") then ret (VFloat (f_cos libm x)) h
  else if eqs name (lit "tan") then ret (VFloat (f_tan libm x)) h
  else if eqs name (lit "atan2") then ret (VFloat (f_atan2 libm x (argF args 1))) h
  else unknown.

Definition is_scalar_code (c : Z) : bool := (0 <=? c) && (c <=? 0x10FFFF) && negb ((0xD800 <=? c) && (c <=? 0xDFFF)).
Definition convert_native (name : str) (args : list Value) (h : NHost) : Ret :=
  let x := argI args 0 in
  if eqs name (lit "byteToString") then
    if (x <? 0) || (255 <? x) then fails (byte_text x) h else ret (VString [chr x]) h
  else if eqs name (lit "floatFromBits") then ret (VFloat (wrap_u 64 x)) h
  else if eqs name (lit "charFromCode") then
    if is_scalar_code x then ret (VChar x) h
    else fails (lit "code point " ++ to_string x ++ lit " is not a valid Unicode scalar (0..0x10FFFF minus surrogates)") h
  else unknown.

(** ** Descriptors *)

Definition is_block (args : list Value) (i : nat) : bool := match args !! i with Some (VBlock _) => true | _ => false end.
Definition block_arg (args : list Value) (i : nat) (h : NHost) : Run (option (BlockData * loc * list Z)) :=
  match args !! i with Some v => block_at h v | None => Go None end.

(** The window [off, off + len) of a block, or the message. *)
Definition block_window (bd : BlockData) (bytes : list Z) (off len : Z) : Run (str + str) :=
  let! bad := window_oob off len (b_len bd) in
  if bad then
    let! e := add64 off len in
    Go (inl (lit "block window [" ++ to_string off ++ lit "," ++ to_string e ++ lit ") out of bounds (length " ++
             to_string (b_len bd) ++ lit ")"))
  else let! w := read_bytes bytes (b_off bd + off) len in Go (inr (map chr w)).

Definition emit_fd (fd : Z) (data : str) (h : NHost) : NHost :=
  if (fd =? 1) || (fd =? 2) then host_emit data h else run (Write (int_of fd) data) h.

Definition sysWrite (args : list Value) (h : NHost) : Ret :=
  let fd := arg_or args 0 1 in
  if is_block args 1 then
    let! b := block_arg args 1 h in
    match b with
    | None => fails (lit "null block") h
    | Some (bd, _, bytes) =>
        let off := arg_or args 2 0 in
        let len := arg_or args 3 0 in
        let! w := block_window bd bytes off len in
        match w with inl e => fails e h | inr data => ret (VInt len) (emit_fd fd data h) end
    end
  else let data := argS args 1 in ret (VInt (size_of data)) (emit_fd fd data h).

(** [while (read(fd, &c, 1) == 1 && c != '\n') line.push_back(c)]. *)
Fixpoint read_line (n : nat) (fd : Z) (line : str) (h : NHost) : Run (str * NHost) :=
  match n with
  | O => Stop FDepth
  | S n' =>
      let '((r, d), h) := sys (Read fd 1) h in
      match d with
      | c :: _ => if (r =? 1) && negb (eqc c c_nl) then read_line n' fd (line ++ [c]) h else Go (line, h)
      | [] => Go (line, h)
      end
  end.
Definition sysReadLine (args : list Value) (h : NHost) : Ret :=
  let fd := argI args 0 in
  if fd =? 0 then let '(l, h) := sys Getline h in ret (VString (match l with Some s => s | None => [] end)) h
  else let! (line, h) := read_line fuel (int_of fd) [] h in ret (VString line) h.

Definition open_flags (bits : Z) : Z :=
  let rd := Z.testbit bits 0 in
  let wr := Z.testbit bits 1 in
  let ap := Z.testbit bits 2 in
  let flags := if rd && wr then Z.lor O_RDWR O_CREAT else if wr then Z.lor (Z.lor O_WRONLY O_CREAT) O_TRUNC else O_RDONLY in
  if ap then Z.lor (Z.lor (Z.lor (Z.ldiff flags O_TRUNC) O_APPEND) O_CREAT) (if rd then O_RDWR else O_WRONLY) else flags.
Definition sysOpen (args : list Value) (h : NHost) : Ret :=
  let '(r, h) := sys (Open (c_str (argS args 0)) (open_flags (arg_or args 1 1))) h in ret (VInt (minus1 r)) h.

(** What a read or receive of at most [max] bytes leaves in a block. *)
Definition fill_block (bd : BlockData) (q : loc) (bytes : list Z) (data : str) (h : NHost) : Run NHost :=
  let! bs := write_bytes bytes (b_off bd) (map code data) in Go (put_cell q (CBytes bs) h).
Definition clip (max len : Z) : Z := if max <? 0 then 0 else if len <? max then len else max.

Definition sysRead (args : list Value) (h : NHost) : Ret :=
  let fd := argI args 0 in
  if is_block args 1 then
    let! b := block_arg args 1 h in
    match b with
    | None => fails (lit "null block") h
    | Some (bd, q, bytes) =>
        let max := clip (arg_or args 2 0) (b_len bd) in
        if 0 <? max then
          let '((n, d), h) := sys (Read (int_of fd) max) h in
          if 0 <? n then let! h := fill_block bd q bytes d h in ret (VInt n) h else ret (VInt 0) h
        else ret (VInt 0) h
    end
  else
    let max := argI args 1 in
    if 0 <? max then
      let! _ := sized max in
      let '((n, d), h) := sys (Read (int_of fd) max) h in ret (VString (if 0 <? n then d else [])) h
    else ret (VString []) h.

Definition millis (t : Z * Z) : Run Z := if (- 2 ^ 63 <=? fst t * 1000 + snd t / 1000000) && (fst t * 1000 + snd t / 1000000 <? 2 ^ 63)
  then Go (fst t * 1000 + snd t / 1000000) else Stop FOverflow.
Definition clock_native (c : Sys (Z * Z)) (h : NHost) : Ret :=
  let '(t, h) := sys c h in let! n := millis t in ret (VInt n) h.

Definition stat_field (st : option (Z * Z * bool)) (field : Z) : Z :=
  if field =? 0 then match st with Some _ => 1 | None => 0 end
  else match st with
       | None => -1
       | Some (size, mtime, dir) =>
           if field =? 1 then size else if field =? 2 then mtime else if field =? 3 then (if dir then 1 else 0) else -1
       end.

Definition io_native (name : str) (args : list Value) (h : NHost) : Ret :=
  if eqs name (lit "sysWrite") then sysWrite args h
  else if eqs name (lit "sysReadLine") then sysReadLine args h
  else if eqs name (lit "sysOpen") then sysOpen args h
  else if eqs name (lit "sysClose") then let '(r, h) := sys (Close (int_of (arg_or args 0 (-1)))) h in ret (VInt (minus1 r)) h
  else if eqs name (lit "sysNow") then clock_native Realtime h
  else if eqs name (lit "sysMonotonic") then clock_native Monotonic h
  else if eqs name (lit "sysStat") then
    let '(st, h) := sys (Stat (c_str (argS args 0))) h in ret (VInt (stat_field st (argI args 1))) h
  else if eqs name (lit "sysArgs") then new_array (map VString (g_programArgs (ext h))) h
  else if eqs name (lit "sysRead") then sysRead args h
  else unknown.

(** ** The event loop *)

Definition arg_value (args : list Value) (i : nat) : Value := match args !! i with Some v => v | None => VVoid end.

Definition loop_native (name : str) (args : list Value) (h : NHost) : Ret :=
  if eqs name (lit "sysTimerStart") then
    let '(now, h) := sys SteadyNow h in
    let '(l, i) := addTimer now (arg_or args 0 0) (arg_or args 1 0) (arg_value args 2) (loop_ h) in
    ret (VInt i) (host_loop l h)
  else if eqs name (lit "sysTimerCancel") then ret (VInt 0) (host_loop (cancelTimer (arg_or args 0 (-1)) (loop_ h)) h)
  else if eqs name (lit "sysWatch") then
    let '(l, i) := addWatch (int_of (arg_or args 0 (-1))) (arg_value args 1) (loop_ h) in ret (VInt i) (host_loop l h)
  else if eqs name (lit "sysWatchWrite") then
    let '(l, i) := addWriteWatch (int_of (arg_or args 0 (-1))) (arg_value args 1) (loop_ h) in ret (VInt i) (host_loop l h)
  else if eqs name (lit "sysUnwatch") then ret (VInt 0) (host_loop (cancelWatch (arg_or args 0 (-1)) (loop_ h)) h)
  else unknown.

(** ** Terminal *)

Definition set_tty (raw : bool) (saved : Termios) (fd : Z) (h : NHost) : NHost :=
  let e := ext h in
  MkHost (heap h) (next_loc h) (addr h) (loop_ h) (out_ h) raw (written h) (exitRequested h) (interpExitCode h)
    (MkExt (g_programArgs e) saved fd (g_atexit e) (g_sigfds e) (sigpipeIgnored e) (sigpipeIgnored2 e) (os e)).
Definition set_saved (t : Termios) (h : NHost) : NHost := set_tty (ttyRaw h) t (g_ttyFd (ext h)) h.

Definition raw_mode (t : Termios) : Termios :=
  MkTermios (Z.ldiff (c_iflag t) (2 + ICRNL + 16 + 32 + IXON)) (Z.ldiff (c_oflag t) OPOST) (Z.lor (c_cflag t) CS8)
    (Z.ldiff (c_lflag t) (ECHO + ICANON + IEXTEN + ISIG)) (<[VTIME := 0]> (<[VMIN := 1]> (c_cc t))).

Definition termInstallSafety (h : NHost) : NHost := run (SafetyHandlers [SIGTERM; SIGHUP; SIGINT; SIGQUIT]) h.

Definition register_atexit (h : NHost) : NHost :=
  if g_atexit (ext h) then h
  else
    let h := run AtExit h in
    let e := ext h in
    set_ext (MkExt (g_programArgs e) (g_ttySaved e) (g_ttyFd e) true (g_sigfds e) (sigpipeIgnored e) (sigpipeIgnored2 e) (os e)) h.

Definition termRaw (fd : Z) (h : NHost) : Z * NHost :=
  if ttyRaw h then (0, h)
  else
    let '(t, h) := sys (Tcgetattr fd) h in
    match t with
    | None => (-1, h)
    | Some t =>
        let h := register_atexit (set_saved t h) in
        let '(r, h) := sys (Tcsetattr fd true (raw_mode t)) h in
        if r =? 0 then (0, termInstallSafety (set_tty true t fd h)) else (-1, h)
    end.

Definition termRestoreRc (h : NHost) : Z * NHost :=
  if ttyRaw h then
    let '(r, h) := sys (Tcsetattr (g_ttyFd (ext h)) true (g_ttySaved (ext h))) h in
    (zero_or_minus1 r, set_tty false (g_ttySaved (ext h)) (g_ttyFd (ext h)) h)
  else (0, h).

Definition win_field (ws : option (Z * Z)) (field : Z) : Z :=
  match ws with
  | Some (rows, cols) => if (rows =? 0) || (cols =? 0) then -1 else if field =? 0 then rows else if field =? 1 then cols else -1
  | None => -1
  end.

Definition term_native (name : str) (args : list Value) (h : NHost) : Ret :=
  if eqs name (lit "sysTermRaw") then let '(r, h) := termRaw (int_of (argI args 0)) h in ret (VInt r) h
  else if eqs name (lit "sysTermRestore") then let '(r, h) := termRestoreRc h in ret (VInt r) h
  else if eqs name (lit "sysWinSize") then
    let '(ws, h) := sys (WinSize (int_of (arg_or args 0 1))) h in ret (VInt (win_field ws (argI args 1))) h
  else if eqs name (lit "sysTermIsRaw") then ret (VBool (ttyRaw h)) h
  else if eqs name (lit "sysIsTty") then let '(b, h) := sys (IsATty (int_of (argI args 0))) h in ret (VBool b) h
  else unknown.

(** ** Signals *)

(** What [sigaddset] accepts: not glibc's own two signals. *)
Definition valid_sig (s : Z) : bool := (1 <=? s) && (s <=? 64) && negb (s =? 32) && negb (s =? 33).
Definition interpSignalOpen (sigs : list Z) (h : NHost) : Z * NHost :=
  match sigs with
  | [] => (-1, h)
  | _ =>
      if existsb (fun s => (s =? SIGKILL) || (s =? SIGSTOP)) sigs then (-1, h)
      else
        let mask : gset Z := list_to_set (List.filter valid_sig (map int_of sigs)) in
        let '(r, h) := sys (MaskSigs true mask) h in
        if negb (r =? 0) then (-1, h)
        else
          let '(fd, h) := sys (SignalFd mask) h in
          if fd <? 0 then (-1, run (MaskSigs false mask) h)
          else (fd, set_ext (set_sigfds (g_sigfds (ext h) ++ [MkSigFd fd mask]) (ext h)) h)
  end.

Definition interpSignalNext (fd : Z) (h : NHost) : Z * NHost :=
  let '(r, h) := sys (ReadSignal fd) h in (match r with Some s => s | None => -1 end, h).

(** The record with the descriptor, and the table without it. *)
Fixpoint take_sigfd (fd : Z) (l : list SigFdRec) : option (gset Z * list SigFdRec) :=
  match l with
  | [] => None
  | r :: l' => if sg_fd r =? fd then Some (sg_mask r, l') else option_map (fun '(m, l) => (m, r :: l)) (take_sigfd fd l')
  end.
Definition interpSignalClose (fd : Z) (h : NHost) : NHost :=
  let h := match take_sigfd fd (g_sigfds (ext h)) with
           | Some (mask, l) => let h := run (MaskSigs false mask) h in set_ext (set_sigfds l (ext h)) h
           | None => h
           end in
  run (Close fd) h.

Definition interpSignalCleanup (h : NHost) : NHost :=
  let h := fold_left (fun h r => run (Close (sg_fd r)) (run (MaskSigs false (sg_mask r)) h)) (g_sigfds (ext h)) h in
  set_ext (set_sigfds [] (ext h)) h.

Definition signal_native (name : str) (args : list Value) (h : NHost) : Ret :=
  if eqs name (lit "sysSignalOpen") then
    let! vs := match args with v :: _ => elements h v | [] => Go [] end in
    let '(r, h) := interpSignalOpen (map v_i vs) h in ret (VInt r) h
  else if eqs name (lit "sysSignalNext") then
    let '(r, h) := interpSignalNext (int_of (arg_or args 0 (-1))) h in ret (VInt r) h
  else if eqs name (lit "sysSignalClose") then ret (VInt 0) (interpSignalClose (int_of (arg_or args 0 (-1))) h)
  else unknown.

(** ** Exit codes *)

Definition set_exit (code : Z) (requested : bool) (h : NHost) : NHost :=
  MkHost (heap h) (next_loc h) (addr h) (loop_ h) (out_ h) (ttyRaw h) (written h) requested code (ext h).
Definition interpResetExit (h : NHost) : NHost := set_exit 0 false h.

Definition exit_code_native (name : str) (args : list Value) (h : NHost) : Ret :=
  let code := Z.land (argI args 0) 255 in
  if eqs name (lit "sysSetExitCode") then ret (VInt 0) (set_exit code (exitRequested h) h)
  else if eqs name (lit "sysExit") then ret (VInt 0) (set_exit code true h)
  else unknown.

(** ** Sockets *)

Definition has_colon (s : str) : bool := existsb (fun c => eqc c ":") s.

(** The first resolved address that fits. *)
Fixpoint pick_addr (port : Z) (l : list (Z * str * bool)) : option SockAddr :=
  match l with
  | [] => None
  | (family, ip, fits) :: l' => if fits then Some (MkAddr family (wrap_u 16 port) ip) else pick_addr port l'
  end.
Definition fillSockAddr (host : str) (port : Z) (h : NHost) : option SockAddr * NHost :=
  let family := if has_colon host then AF_INET6 else AF_INET in
  let '(a, h) := sys (InetPton family (c_str host)) h in
  match a with
  | Some ip => (Some (MkAddr family (wrap_u 16 port) ip), h)
  | None =>
      let '(l, h) := sys (GetAddrInfo 0 (c_str host)) h in
      (match l with Some l => pick_addr port l | None => None end, h)
  end.

Definition sysTcpConnect (args : list Value) (h : NHost) : Ret :=
  let '(a, h) := fillSockAddr (argS args 0) (argI args 1) h in
  match a with
  | None => ret (VInt (-1)) h
  | Some a =>
      let '(fd, h) := sys (Socket (a_family a)) h in
      if fd <? 0 then ret (VInt (-1)) h
      else
        let '(r, h) := sys (Connect fd a) h in
        if r <? 0 then ret (VInt (-1)) (run (Close fd) h) else ret (VInt fd) (run (NonBlock fd) h)
  end.

Definition sysTcpConnectNb (args : list Value) (h : NHost) : Ret :=
  let '(a, h) := fillSockAddr (argS args 0) (argI args 1) h in
  match a with
  | None => ret (VInt (-1)) h
  | Some a =>
      let '(fd, h) := sys (Socket (a_family a)) h in
      if fd <? 0 then ret (VInt (-1)) h
      else
        let h := run (NonBlock fd) h in
        let '(r, h) := sys (Connect fd a) h in
        if (r <? 0) && negb (r =? - EINPROGRESS) then ret (VInt (-1)) (run (Close fd) h) else ret (VInt fd) h
  end.

Definition sysTcpListen (args : list Value) (h : NHost) : Ret :=
  let port := argI args 0 in
  let reusePort := negb (argI args 1 =? 0) in
  let '(fd, h) := sys (Socket AF_INET) h in
  if fd <? 0 then ret (VInt (-1)) h
  else
    let h := run (ReuseAddr fd) h in
    let '(r, h) := if reusePort then sys (ReusePort fd) h else (0, h) in
    if negb (r =? 0) then ret (VInt (-1)) (run (Close fd) h)
    else
      let '(r, h) := sys (Bind fd (MkAddr AF_INET (wrap_u 16 port) (map chr [127; 0; 0; 1]))) h in
      let '(r, h) := if r <? 0 then (r, h) else sys (Listen fd 16) h in
      if r <? 0 then ret (VInt (-1)) (run (Close fd) h) else ret (VInt fd) (run (NonBlock fd) h).

Definition sysSocketBuffer (args : list Value) (h : NHost) : Ret :=
  let fd := int_of (arg_or args 0 (-1)) in
  let snd_ := argI args 1 in
  let rcv := argI args 2 in
  let '(r1, h) := if 0 <? snd_ then sys (SndBuf fd (int_of snd_)) h else (0, h) in
  let '(r2, h) := if 0 <? rcv then sys (RcvBuf fd (int_of rcv)) h else (0, h) in
  ret (VInt (if (r1 =? 0) && (r2 =? 0) then 0 else -1)) h.

(** [send], then [write] for what is not a socket; -1 to retry, -2 when the peer is gone. *)
Definition send_bytes (fd : Z) (data : str) (h : NHost) : Z * NHost :=
  let '(n, h) := sys (Send fd data) h in
  let '(n, h) := if n =? - ENOTSOCK then sys (Write fd data) h else (n, h) in
  (if n <? 0 then if (n =? - EAGAIN) || (n =? - EINTR) then -1 else -2 else n, h).

Definition sysSend (args : list Value) (h : NHost) : Ret :=
  let fd := int_of (arg_or args 0 (-1)) in
  if is_block args 1 then
    let! b := block_arg args 1 h in
    match b with
    | None => fails (lit "null block") h
    | Some (bd, _, bytes) =>
        let! w := block_window bd bytes (arg_or args 2 0) (arg_or args 3 0) in
        match w with inl e => fails e h | inr data => let '(n, h) := send_bytes fd data h in ret (VInt n) h end
    end
  else let '(n, h) := send_bytes fd (argS args 1) h in ret (VInt n) h.

(** [recv], then [read] for what is not a socket, where [EIO] is the end of a pty. *)
Definition recv_bytes (fd max : Z) (h : NHost) : Z * str * NHost :=
  let '((n, d), h) := sys (Recv fd max) h in
  if n =? - ENOTSOCK then
    let '((n, d), h) := sys (Read fd max) h in (if n =? - EIO then 0 else n, d, h)
  else (n, d, h).

Definition sysRecv (args : list Value) (h : NHost) : Ret :=
  let fd := int_of (arg_or args 0 (-1)) in
  if is_block args 1 then
    let! b := block_arg args 1 h in
    match b with
    | None => fails (lit "null block") h
    | Some (bd, q, bytes) =>
        let max := clip (arg_or args 2 (b_len bd)) (b_len bd) in
        let '(n, d, h) := recv_bytes fd max h in
        if n =? 0 then ret VNone h
        else if n <? 0 then ret (VInt 0) h
        else let! h := fill_block bd q bytes d h in ret (VInt n) h
    end
  else
    let max := arg_or args 1 4096 in
    let! _ := sized (if 0 <? max then max else 4096) in
    let '(n, d, h) := recv_bytes fd (if 0 <? max then max else 4096) h in
    if n =? 0 then ret VNone h else ret (VString (if n <? 0 then [] else d)) h.

Definition net_native (name : str) (args : list Value) (h : NHost) : Ret :=
  if eqs name (lit "sysTcpConnect") then sysTcpConnect args h
  else if eqs name (lit "sysTcpConnectNb") then sysTcpConnectNb args h
  else if eqs name (lit "sysConnectResult") then
    let '(e, h) := sys (SoError (int_of (arg_or args 0 (-1)))) h in ret (VInt (match e with Some e => e | None => -1 end)) h
  else if eqs name (lit "sysTcpListen") then sysTcpListen args h
  else if eqs name (lit "sysSocketBuffer") then sysSocketBuffer args h
  else if eqs name (lit "sysCpuCount") then let '(n, h) := sys CpuCount h in ret (VInt (if 0 <? n then n else 1)) h
  else if eqs name (lit "sysAccept") then
    let '(fd, h) := sys (Accept (int_of (arg_or args 0 (-1)))) h in
    if 0 <=? fd then ret (VInt fd) (run (NonBlock fd) h) else ret (VInt (-1)) h
  else if eqs name (lit "sysSend") then sysSend args h
  else if eqs name (lit "sysRecv") then sysRecv args h
  else unknown.

(** The stubs of a build without OpenSSL. *)
Definition kTlsNotBuilt : str := lit "TLS support not built into this runtime".
Definition tls_native (name : str) (h : NHost) : Ret :=
  if eqs name (lit "sysTlsConnect") then ret (VInt (-1)) h
  else if eqs name (lit "sysTlsAccept") then ret (VInt (-1)) h
  else if eqs name (lit "sysTlsHandshake") then ret (VInt (-1)) h
  else if eqs name (lit "sysTlsError") then ret (VString kTlsNotBuilt) h
  else if eqs name (lit "sysTlsAlpn") then ret (VString []) h
  else if eqs name (lit "sysTlsVersion") then ret (VInt 0) h
  else if eqs name (lit "sysRsaEncrypt") then ret VNone h
  else unknown.

(** ** Files, environment, randomness *)

Definition kMaxRandom : Z := 2 ^ 20.
Fixpoint get_random (n : nat) (want : Z) (buf : str) (h : NHost) : Run (option str * NHost) :=
  if size_of buf <? want then
    match n with
    | O => Stop FDepth
    | S n' =>
        let '((r, d), h) := sys (GetRandom (want - size_of buf)) h in
        if r <? 0 then if r =? - EINTR then get_random n' want buf h else Go (None, h)
        else get_random n' want (buf ++ d) h
    end
  else Go (Some buf, h).
Definition sysRandom (args : list Value) (h : NHost) : Ret :=
  let n := argI args 0 in
  if n <=? 0 then ret (VString []) h
  else if kMaxRandom <? n then
    fails (lit "sysRandom: requested " ++ to_string n ++ lit " bytes exceeds the 1MB sanity bound") h
  else
    let! (r, h) := get_random (Z.to_nat n + fuel) n [] h in
    match r with Some buf => ret (VString buf) h | None => fails (lit "sysRandom: getrandom failed") h end.

Definition sysRemove (args : list Value) (h : NHost) : Ret :=
  let path := c_str (argS args 0) in
  let '(r, h) := sys (Unlink path) h in
  if r =? 0 then ret (VInt 0) h
  else if (r =? - EISDIR) || (r =? - EPERM) then let '(r, h) := sys (Rmdir path) h in ret (VInt (zero_or_minus1 r)) h
  else ret (VInt (-1)) h.

Definition sysListDir (args : list Value) (h : NHost) : Ret :=
  let '(l, h) := sys (ListDir (c_str (argS args 0))) h in
  match l with
  | None => ret VNone h
  | Some names => new_array (map VString (List.filter (fun n => negb (eqs n (lit ".") || eqs n (lit ".."))) names)) h
  end.

Definition sysResolve (args : list Value) (h : NHost) : Ret :=
  let '(l, h) := sys (GetAddrInfo AF_INET (c_str (argS args 0))) h in
  match l with
  | Some ((_, ip, _) :: _) => let '(t, h) := sys (InetNtop ip) h in ret (VString t) h
  | _ => ret VNone h
  end.

Definition fs_native (name : str) (args : list Value) (h : NHost) : Ret :=
  if eqs name (lit "sysRandom") then sysRandom args h
  else if eqs name (lit "sysEnv") then
    let '(v, h) := sys (GetEnv (c_str (argS args 0))) h in ret (match v with Some s => VString s | None => VNone end) h
  else if eqs name (lit "sysMkdir") then let '(r, h) := sys (Mkdir (c_str (argS args 0))) h in ret (VInt (zero_or_minus1 r)) h
  else if eqs name (lit "sysRemove") then sysRemove args h
  else if eqs name (lit "sysRename") then
    let '(r, h) := sys (Rename (c_str (argS args 0)) (c_str (argS args 1))) h in ret (VInt (zero_or_minus1 r)) h
  else if eqs name (lit "sysListDir") then sysListDir args h
  else if eqs name (lit "sysResolve") then sysResolve args h
  else unknown.

(** ** Processes *)

Definition ignore_sigpipe (h : NHost) : NHost :=
  if sigpipeIgnored (ext h) then h
  else
    let h := run (IgnoreSig SIGPIPE) h in
    let e := ext h in
    set_ext (MkExt (g_programArgs e) (g_ttySaved e) (g_ttyFd e) (g_atexit e) (g_sigfds e) true (sigpipeIgnored2 e) (os e)) h.
Definition ignore_sigpipe2 (h : NHost) : NHost :=
  if sigpipeIgnored2 (ext h) then h
  else
    let h := run (IgnoreSig SIGPIPE) h in
    let e := ext h in
    set_ext (MkExt (g_programArgs e) (g_ttySaved e) (g_ttyFd e) (g_atexit e) (g_sigfds e) (sigpipeIgnored e) true (os e)) h.

(** [argv]: the path, then the texts of the array. *)
Definition argv_of (path : str) (args : list Value) (h : NHost) : Run (list str) :=
  let! vs := match args !! 1%nat with Some v => elements h v | None => Go [] end in
  Go (map c_str (path :: map v_s vs)).

Definition spawn_child (path : str) (argv : list str) (inR outW errW : Z) : list ChildCall :=
  [Dup2 inR 0; Dup2 outW 1; Dup2 errW 2; Execve (c_str path) argv; ExitNow 127].

Definition sysSpawn (args : list Value) (h : NHost) : Ret :=
  let path := argS args 0 in
  match path with
  | [] => new_array [] h
  | _ =>
      let h := ignore_sigpipe h in
      let! argv := argv_of path args h in
      let '(p1, h) := sys Pipe2 h in
      match p1 with
      | None => new_array [] h
      | Some (inR, inW) =>
          let '(p2, h) := sys Pipe2 h in
          match p2 with
          | None => new_array [] (close_all [inR; inW] h)
          | Some (outR, outW) =>
              let '(p3, h) := sys Pipe2 h in
              match p3 with
              | None => new_array [] (close_all [inR; inW; outR; outW] h)
              | Some (errR, errW) =>
                  let '(pid, h) := sys (Fork (spawn_child path argv inR outW errW)) h in
                  if pid <? 0 then new_array [] (close_all [inR; inW; outR; outW; errR; errW] h)
                  else
                    let h := close_all [inR; outW; errW] h in
                    let h := fold_left (fun h fd => run (NonBlock fd) h) [inW; outR; errR] h in
                    new_array [VInt pid; VInt inW; VInt outR; VInt errR] h
              end
          end
      end
  end.

Definition sysReap (args : list Value) (h : NHost) : Ret :=
  let pid := arg_or args 0 (-1) in
  if pid <=? 0 then ret (VInt (-1)) h
  else
    let '(r, h) := sys (WaitId (wrap_u 32 pid)) h in
    ret (VInt (match r with
               | None => -1
               | Some (exited, status) => if (exited : bool) then Z.land status 255 else 128 + status
               end)) h.

Definition sysKill (args : list Value) (h : NHost) : Ret :=
  let pid := arg_or args 0 (-1) in
  let sig := arg_or args 1 SIGTERM in
  if (pid <=? 0) || (sig <? 0) then ret (VInt (-1)) h
  else let '(r, h) := sys (Kill (int_of pid) (int_of sig)) h in ret (VInt (zero_or_minus1 r)) h.

(** The profile stamped on the slave side. *)
Definition pty_profile (flags : Z) : Termios :=
  let l := ISIG + ICANON + ECHOE + ECHOK + IEXTEN in
  MkTermios (ICRNL + IXON) (OPOST + ONLCR) (CS8 + CREAD)
    (if Z.testbit flags 0 then Z.ldiff l (ECHOE + ECHOK) else Z.lor l (ECHO + ECHOE + ECHOK))
    (list_to_map [(VMIN, 1); (VTIME, 0); (VEOF, 4); (VINTR, 3); (VSUSP, 26); (VERASE, 127); (VKILL, 21); (VQUIT, 28)]).

Definition pty_child (path : str) (argv : list str) (sfd : Z) : list ChildCall :=
  [Setsid; Ctty sfd; Dup2 sfd 0; Dup2 sfd 1; Dup2 sfd 2] ++ (if 2 <? sfd then [CloseFd sfd] else []) ++
  [Execve (c_str path) argv; ExitNow 127].

(** [grantpt], [unlockpt], [ptsname_r], each only if the one before succeeded. *)
Definition pty_name (mfd : Z) (h : NHost) : option str * NHost :=
  let '(r, h) := sys (GrantPt mfd) h in
  if negb (r =? 0) then (None, h)
  else
    let '(r, h) := sys (UnlockPt mfd) h in
    if negb (r =? 0) then (None, h) else sys (PtsName mfd) h.

(** [tcsetattr], then the window size. *)
Definition pty_setup (sfd flags rows cols : Z) (h : NHost) : bool * NHost :=
  let '(r, h) := sys (Tcsetattr sfd false (pty_profile flags)) h in
  if negb (r =? 0) then (false, h)
  else let '(r, h) := sys (SetWinSize sfd (wrap_u 16 rows) (wrap_u 16 cols)) h in (r =? 0, h).

Definition sysPtySpawn (args : list Value) (h : NHost) : Ret :=
  let path := argS args 0 in
  let rows := argI args 2 in
  let cols := argI args 3 in
  if negb (nonempty path) || (rows <=? 0) || (cols <=? 0) then new_array [] h
  else
    let h := ignore_sigpipe2 h in
    let! argv := argv_of path args h in
    let '(mfd, h) := sys OpenPt h in
    if mfd <? 0 then new_array [] h
    else
      let '(name, h) := pty_name mfd h in
      match name with
      | None => new_array [] (run (Close mfd) h)
      | Some name =>
          let '(sfd, h) := sys (OpenPts name) h in
          if sfd <? 0 then new_array [] (run (Close mfd) h)
          else
            let '(ok, h) := pty_setup sfd (argI args 4) rows cols h in
            if negb ok then new_array [] (close_all [sfd; mfd] h)
            else
              let '(pid, h) := sys (Fork (pty_child path argv sfd)) h in
              if pid <? 0 then new_array [] (close_all [sfd; mfd] h)
              else new_array [VInt pid; VInt mfd] (run (NonBlock mfd) (run (Close sfd) h))
      end.

Definition sysPtyResize (args : list Value) (h : NHost) : Ret :=
  let fd := int_of (arg_or args 0 (-1)) in
  let rows := argI args 1 in
  let cols := argI args 2 in
  if (fd <? 0) || (rows <=? 0) || (cols <=? 0) then ret (VInt (-1)) h
  else let '(r, h) := sys (SetWinSize fd (wrap_u 16 rows) (wrap_u 16 cols)) h in ret (VInt (zero_or_minus1 r)) h.

Definition process_native (name : str) (args : list Value) (h : NHost) : Ret :=
  if eqs name (lit "sysSpawn") then sysSpawn args h
  else if eqs name (lit "sysPidfdOpen") then
    let pid := arg_or args 0 (-1) in
    if pid <=? 0 then ret (VInt (-1)) h
    else let '(r, h) := sys (PidfdOpen (int_of pid)) h in ret (VInt (minus1 r)) h
  else if eqs name (lit "sysReap") then sysReap args h
  else if eqs name (lit "sysKill") then sysKill args h
  else if eqs name (lit "sysPtySpawn") then sysPtySpawn args h
  else if eqs name (lit "sysPtyResize") then sysPtyResize args h
  else unknown.

(** [nativeFreeCall]. *)
Definition free_groups (name : str) (args : list Value) (h : NHost) : list Ret :=
  [thread_native name args h; math_native name args h; convert_native name args h; io_native name args h;
   loop_native name args h; term_native name args h; signal_native name args h; exit_code_native name args h;
   net_native name args h; tls_native name h; fs_native name args h; process_native name args h].
Definition native_free_call (name : str) (args : list Value) (h : NHost) : Ret :=
  fold_right or_else unknown (free_groups name args h).

End SysNatives.
