(* ===== verification/IrTyping.v ===== *)
(** * Well-formed modules and states of the IR interpreter

    What the lowering guarantees of a module ([module_ok], a decidable check of
    every operand against the register file, constant pool, function table and
    globals, of the classes of the objects the code makes), what a state of the interpreter keeps ([I]: every reference is to
    an allocated cell of its kind, every object has a class, every closure names
    a function), and the
    predicate [safe] on runs that never index out of range nor follow a
    dangling reference. *)

From S2P Require Import TaskSched.
From S2P Require Import Prelude Token Value RefHeap Ir RuntimeLoop RuntimeCore MemVerify IrInterp.

Local Open Scope Z_scope.

(** ** Modules *)

Section Module_.
Context (m : IrModule).

Definition is_fn (i : Z) : bool := (0 <=? i) && (i <? Z.of_nat (length (functions m))).

Section Fn.
Context (fn : IrFunction).
Definition is_reg (r : Z) : bool := (0 <=? r) && (r <? Z.of_nat (nregs fn)).
Definition is_window (c d : Z) : bool := (0 <=? c) && (0 <=? d) && (c + d <=? Z.of_nat (nregs fn)).
Definition is_slot (s : Z) : bool := (0 <=? s) && (s <? Z.of_nat (nglobals m)).

(** The instructions that make an object name its class. *)
Definition has_class (i : Inst) : bool := match sym i with Some _ => true | None => false end.

Definition inst_ok (i : Inst) : bool :=
  let a := is_reg (ia i) in
  let b := is_reg (ib i) in
  let c := is_reg (ic i) in
  match op i with
  | LoadConst => a && (0 <=? ib i) && (ib i <? Z.of_nat (length (consts fn)))
  | Default_ | NewMap => a
  | Move | MoveClear | CopyVal | Not_ | Neg | IterLen | IsType | Await => a && b
  | GetMember | SetMember | RawGet | RawSet | RawGetWeak | RawSetWeak => a && b
  | Arith | GetIndex | ColGet | IterAt => a && b && c
  | MakeRange => a && b && c && has_class i
  | Jump | RetVoid | PrintNl | VFree => true
  | JumpIfFalse | JumpIfTrue | Ret | Throw | Print_ => a
  | Call => a && is_fn (ib i) && is_window (ic i) (id_ i)
  | CallDyn | CallValue => a && is_window (ic i) (id_ i) && (1 <=? id_ i)
  | CallNativeFn | NewArray => a && is_window (ic i) (id_ i)
  | NewObject => a && ((ib i <? 0) || is_fn (ib i)) && has_class i
  | NewArraySized => a && (negb (id_ i =? 2) || (c && is_reg (ic i + 1)))
  | NewBlock | NewBlockStr => a && c
  | IndexStore => a && b && c && is_reg (id_ i)
  | LoadGlobal | StoreGlobal => a && is_slot (ib i)
  | MakeClosure => a && is_fn (ib i)
  | CaptureVar => a && b && negb (eqs (sname i) (lit "@fn"))
  | LoadCapture => a
  end.

Definition fn_ok : bool :=
  forallb inst_ok (icode fn) && forallb (fun v => match refs v with [] => true | _ => false end) (consts fn) &&
  forallb (fun h => is_reg (bindReg h)) (handlers fn).
End Fn.

(** The class of the objects that iterating a map makes is looked up by name. *)
Definition module_ok (sema : Sema) : bool :=
  match global_lookup sema (lit "Pair") with Some _ => true | None => false end &&
  forallb fn_ok (functions m) && forallb (fun kv => (snd kv <? length (functions m))%nat) (byDecl m) &&
  (Z.of_nat (length (functions m)) <? 2 ^ 31) && ((entry m <? 0) || is_fn (entry m)) && ((ginit m <? 0) || is_fn (ginit m)).

(** ** Heaps *)

Definition v_ok (h : Heap) (v : Value) : Prop :=
  match v with
  | VObject (Some p) => is_Some (h_obj h p)
  | VClosure (Some p) => exists c, h_clos h p = Some c /\ c_env c <> []
  | VArray (Some p) => is_Some (h_arr h p)
  | VMap (Some p) => is_Some (h_map h p)
  | VBlock (Some p) => is_Some (h_block h p)
  | VAst (Some p) _ => h !! p = Some CAst
  | _ => True
  end.

(** The function index in a closure's environment is one. *)
Definition clos_ok (c : Closure) : Prop :=
  match c_env c with e :: _ => forall v, e !! lit "@fn" = Some v -> is_fn (v_i v) = true | [] => True end.

Definition cell_ok (h : Heap) (c : Cell) : Prop :=
  Forall (v_ok h) (cell_values c) /\
  match c with
  | CObj o => is_Some (o_cls o)
  | CClos c => clos_ok c
  | CBlock b =>
      match b_bytes b with
      | Some p => exists bs, h !! p = Some (CBytes bs) /\ 0 <= b_off b /\ 0 <= b_len b /\ b_off b + b_len b <= Z.of_nat (length bs)
      | None => True
      end
  | CBytes bs => Forall (in_u 8) bs
  | _ => True
  end.
Definition heap_ok (h : Heap) : Prop := forall p c, h !! p = Some c -> cell_ok h c.

Definition host_ok {X} (h : Host X) (vals : list Value) : Prop :=
  heap_ok (heap h) /\ (forall p, is_Some (heap h !! p) -> (p < next_loc h)%nat) /\
  Forall (v_ok (heap h)) (loop_values (loop_ h) ++ vals).

(** The interpreter's state, and the values [vals] held outside it. *)
Definition I {X} (w : Interp X) (vals : list Value) : Prop :=
  host_ok (host w) (globals_ w ++ term_values (term w) ++ others w ++ vals) /\ length (globals_ w) = nglobals m.

End Module_.

(** ** Runs without undefined behaviour *)

Definition safe {A} (Q : A -> Prop) (r : Run A) : Prop :=
  match r with Go a => Q a | Stop e => e = FOverflow \/ e = FDepth \/ e = FMemory end.

Definition native_result {X} (m : IrModule) (vals : list Value) (r : option (Value * str * Host X)) : Prop :=
  match r with Some (out, _, h') => host_ok m h' (out :: vals) | None => True end.

(** What the natives and the loop environment are relied on for: they read
    nothing out of range, whatever is held stays valid, and what they return is. *)
Class PlatformOk {X} (m : IrModule) (P : Platform X) : Prop := {
  native_ok cls name self args cow h vals :
    host_ok m h (self :: args ++ vals) -> safe (native_result m vals) (nativeCall P cls name self args cow h);
  native_free_ok name args h vals :
    host_ok m h (args ++ vals) -> safe (native_result m vals) (nativeFreeCall P name args h);
  loop_env_ok h vals : host_ok m h vals -> host_ok m (snd (loop_env P h)) vals
}.

Lemma safe_bind {A B} (Q : B -> Prop) (r : Run A) (k : A -> Run B) :
  safe (fun a => safe Q (k a)) r -> safe Q (run_bind r k).
Proof. by destruct r. Qed.

Lemma safe_mono {A} (Q Q' : A -> Prop) (r : Run A) : safe Q r -> (forall a, Q a -> Q' a) -> safe Q' r.
Proof. destruct r; cbn; eauto. Qed.

Lemma safe_at {A} (l : list A) (i : Z) : 0 <= i < Z.of_nat (length l) -> safe (fun x => x ∈ l) (at_index l i).
Proof.
  intros [H1 H2]. unfold at_index. destruct (Z.ltb_spec i 0); [lia|].
  destruct (lookup_lt_is_Some_2 l (Z.to_nat i)) as [x Hx]; [lia|]. rewrite Hx. cbn. by eapply list_elem_of_lookup_2.
Qed.

Lemma safe_window {A} (l : list A) (c d : Z) : 0 <= c -> 0 <= d -> c + d <= Z.of_nat (length l) ->
  safe (fun w => w ⊆ l /\ length w = Z.to_nat d) (window l c d).
Proof.
  intros H1 H2 H3. unfold window. destruct (Z.ltb_spec c 0); [lia|]. destruct (Z.ltb_spec d 0); [lia|].
  destruct (Z.ltb_spec (Z.of_nat (length l)) (c + d)); [lia|]. cbn. split.
  - intros x [n Hn]%list_elem_of_lookup_1. apply lookup_take_Some in Hn as [Hn _]. rewrite lookup_drop in Hn.
    by eapply list_elem_of_lookup_2.
  - rewrite length_take, length_drop. lia.
Qed.

(** ** Keeping references valid *)

Definition same_kind_cell (c c' : Cell) : Prop :=
  match c, c' with
  | CObj _, CObj _ | CArr _, CArr _ | CMap _, CMap _ | CBlock _, CBlock _ | CAst, CAst => True
  | CClos a, CClos b => c_env a <> [] -> c_env b <> []
  | CBytes a, CBytes b => length a = length b
  | _, _ => False
  end.
(** Every cell is still there, with its kind. *)
Definition kept (h h' : Heap) : Prop := forall p c, h !! p = Some c -> exists c', h' !! p = Some c' /\ same_kind_cell c c'.

Lemma same_kind_refl c : same_kind_cell c c.
Proof. destruct c; cbn; auto. Qed.

Lemma v_ok_kind h h' v : (forall p c, h !! p = Some c -> p ∈ refs v -> exists c', h' !! p = Some c' /\ same_kind_cell c c') ->
  v_ok h v -> v_ok h' v.
Proof.
  intros Hk. unfold v_ok, h_obj, h_arr, h_map, h_clos, h_block.
  destruct v as [| | | | |[p|]|[p|]|[p|]|[p|]| | |[p|]|[p|] s]; try done; cbn [refs option_list] in Hk;
    destruct (h !! p) as [c|] eqn:E; try (by intros [? ?]); try (by intros ?); try (by intros (? & ? & ?)).
  all: destruct (Hk p c E) as (c' & -> & Hc); [apply list_elem_of_singleton; done|].
  all: destruct c, c'; try done; intros Hv; try (by destruct Hv as (? & ? & _)); try (by destruct Hv); try (by eexists).
  destruct Hv as (? & [= <-] & ?). eexists. split; [done|]. by apply Hc.
Qed.

Lemma kept_v h h' v : kept h h' -> v_ok h v -> v_ok h' v.
Proof. intros H. apply v_ok_kind. eauto. Qed.

Lemma kept_cell m h h' c : kept h h' -> cell_ok m h c -> cell_ok m h' c.
Proof.
  intros H [H1 H2]. split; [eapply Forall_impl; [exact H1|]; eauto using kept_v|].
  destruct c as [| | | |[[p|] ? ?]| |]; cbn [b_bytes] in *; try done. destruct H2 as (bs & Hp & Hb).
  destruct (H _ _ Hp) as (c' & Hc' & Hk). destruct c'; try done. cbn in Hk. rewrite Hk in Hb. eauto.
Qed.

Lemma kept_insert h p c c' : h !! p = Some c -> same_kind_cell c c' -> kept h (<[p := c']> h).
Proof.
  intros Hp Hk q d Hq. destruct (decide (q = p)) as [->|].
  - rewrite lookup_insert_eq. exists c'. split; [done|]. congruence.
  - rewrite lookup_insert_ne by done. eauto using same_kind_refl.
Qed.

Lemma kept_fresh h p c : h !! p = None -> kept h (<[p := c]> h).
Proof. intros Hp q d Hq. rewrite lookup_insert_ne by congruence. eauto using same_kind_refl. Qed.

Lemma heap_ok_insert m h p c : heap_ok m h -> kept h (<[p := c]> h) -> cell_ok m h c -> heap_ok m (<[p := c]> h).
Proof.
  intros Hh Hk Hc q d Hq. apply lookup_insert_Some in Hq as [[_ <-]|[_ Hq]]; eauto using kept_cell.
Qed.

Lemma v_ok_alloc h v p : v_ok h v -> p ∈ refs v -> is_Some (h !! p).
Proof.
  unfold v_ok, h_obj, h_arr, h_map, h_clos, h_block.
  destruct v as [| | | | |[q|]|[q|]|[q|]|[q|]| | |[q|]|[q|] s]; cbn [refs option_list]; intros Hv Hp;
    try (by apply elem_of_nil in Hp); apply list_elem_of_singleton in Hp as ->; destruct (h !! q); try done; by destruct Hv as [? Hv]; try destruct Hv.
Qed.

Lemma cell_refs_values c p v : v ∈ cell_values c -> p ∈ refs v -> p ∈ cell_refs c.
Proof. intros Hv Hp. destruct c; cbn [cell_refs cell_values] in *; try (by apply elem_of_nil in Hv); apply elem_of_vrefs; eauto. Qed.

(** Releasing what nothing refers to leaves no reference dangling. *)
Lemma collect_ok m h vals : heap_ok m h -> Forall (v_ok h) vals ->
  let h' := collect (vrefs vals) h in heap_ok m h' /\ Forall (v_ok h') vals /\ h' ⊆ h.
Proof.
  intros Hh Hv h'. assert (h' ⊆ h) as Hs by apply collect_subseteq.
  assert (forall p c, p ∈ vrefs vals ++ heap_refs h' -> h !! p = Some c -> h' !! p = Some c) as Hheld by (intros; by apply collect_held).
  split; [|split; [|done]].
  - intros p c Hp. assert (h !! p = Some c) as Hp0 by by eapply lookup_weaken. destruct (Hh _ _ Hp0) as [H1 H2].
    assert (forall q, q ∈ cell_refs c -> q ∈ vrefs vals ++ heap_refs h') as Hin.
    { intros q Hq. apply elem_of_app. right. apply elem_of_heap_refs. eauto. }
    split.
    + rewrite Forall_forall in H1 |- *. intros v Hvin. apply (v_ok_kind h); [|by apply H1].
      intros q d Hq Hqv. exists d. split; [|apply same_kind_refl]. apply Hheld; [|done]. apply Hin. by eapply cell_refs_values.
    + destruct c as [| | | |[[q|] ? ?]| |]; cbn [b_bytes] in *; try done. destruct H2 as (bs & Hq & Hb). exists bs. split; [|done].
      apply Hheld; [|done]. apply Hin. cbn. by apply list_elem_of_singleton.
  - rewrite Forall_forall in Hv |- *. intros v Hvin. apply (v_ok_kind h); [|by apply Hv].
    intros q d Hq Hqv. exists d. split; [|apply same_kind_refl]. apply Hheld; [|done]. apply elem_of_app. left.
    apply elem_of_vrefs. eauto.
Qed.

(** ** The state *)

Section State.
Context {X : Type} (P : Platform X) (m : IrModule).
Implicit Types (w : Interp X) (vals : list Value).

Lemma I_sub w vals vals' : I m w vals -> vals' ⊆ vals -> I m w vals'.
Proof.
  intros [(H1 & H2 & H3) H4] Hs. split; [|done]. split; [done|]. split; [done|].
  rewrite !Forall_app in *. destruct H3 as (? & ? & ? & ? & H3). split_and!; try done.
  rewrite Forall_forall in *. set_solver.
Qed.

Lemma I_in w vals v : I m w vals -> v ∈ vals -> v_ok (w_heap w) v.
Proof.
  intros [(_ & _ & H) _] Hv. rewrite !Forall_app in H. destruct H as (_ & _ & _ & _ & H). rewrite Forall_forall in H. by apply H.
Qed.

Lemma I_cons w vals v : I m w vals -> v_ok (w_heap w) v -> I m w (v :: vals).
Proof.
  intros [(H1 & H2 & H3) H4] Hv. split; [|done]. split; [done|]. split; [done|].
  rewrite !Forall_app in *. destruct H3 as (? & ? & ? & ? & H3). split_and!; try done. by apply Forall_cons.
Qed.

Lemma I_app w vals vs : I m w vals -> Forall (v_ok (w_heap w)) vs -> I m w (vs ++ vals).
Proof. intros H Hf. induction Hf as [|v vs Hv Hf IH]; [done|]. by apply I_cons. Qed.

Lemma I_forall w vals : I m w vals -> Forall (v_ok (w_heap w)) vals.
Proof. intros H. rewrite Forall_forall. eauto using I_in. Qed.

Lemma I_cell w vals p c : I m w vals -> w_heap w !! p = Some c -> cell_ok m (w_heap w) c.
Proof. intros [(H & _) _]. apply H. Qed.

Lemma I_interp w vals v : I m w vals -> v ∈ interp_values w -> v_ok (w_heap w) v.
Proof.
  intros [(_ & _ & H) _] Hv. rewrite Forall_forall in H. apply H. unfold interp_values in Hv. set_solver.
Qed.

Lemma I_heap w vals h : I m w vals -> heap_ok m h -> (forall p, is_Some (h !! p) -> is_Some (w_heap w !! p)) ->
  (forall v, v ∈ vals \/ v ∈ interp_values w -> v_ok h v) -> I m (set_heap h w) vals.
Proof.
  intros [(H1 & H2 & H3) H4] Hh Hd Hv. split; [|done]. split; [done|]. split; [intros p Hp; by apply H2, Hd|].
  rewrite Forall_forall. intros v Hin. apply Hv. unfold interp_values. cbn in Hin. set_solver.
Qed.

(** A cell is overwritten by one of its kind. *)
Lemma I_update w vals p c c' : I m w vals -> w_heap w !! p = Some c -> same_kind_cell c c' -> cell_ok m (w_heap w) c' ->
  I m (set_heap (<[p := c']> (w_heap w)) w) vals.
Proof.
  intros H Hp Hk Hc. assert (kept (w_heap w) (<[p := c']> (w_heap w))) as Hkept by by eapply kept_insert.
  apply I_heap; [done| | |].
  - apply heap_ok_insert; [apply H|done|done].
  - intros q [d Hq]. apply lookup_insert_Some in Hq as [[<- _]|[_ Hq]]; by eexists.
  - intros v Hv. eapply kept_v; [done|]. destruct Hv; eauto using I_in, I_interp.
Qed.

Lemma I_alloc w vals c : I m w vals -> cell_ok m (w_heap w) c ->
  I m (snd (alloc P c w)) vals /\ w_heap (snd (alloc P c w)) !! fst (alloc P c w) = Some c /\
  kept (w_heap w) (w_heap (snd (alloc P c w))).
Proof.
  intros [(H1 & H2 & H3) H4] Hc. unfold w_heap in *. cbn.
  assert (heap (host w) !! next_loc (host w) = None) as Hn.
  { apply eq_None_not_Some. intros Hp. specialize (H2 _ Hp). lia. }
  assert (kept (heap (host w)) (<[next_loc (host w) := c]> (heap (host w)))) as Hk by by apply kept_fresh.
  split; [|split; [by rewrite lookup_insert_eq|done]]. split; [|done]. cbn. split; [by apply heap_ok_insert|]. split.
  - intros p [d Hp]. cbn in Hp |- *. apply lookup_insert_Some in Hp as [[<- _]|[_ Hp]]; [lia|]. specialize (H2 p (mk_is_Some _ _ Hp)). lia.
  - eapply Forall_impl; [exact H3|]. eauto using kept_v.
Qed.

Lemma I_term w vals t : I m w vals -> Forall (v_ok (w_heap w)) (term_values t) -> I m (set_term t w) vals.
Proof.
  intros [(H1 & H2 & H3) H4] Ht. split; [|done]. split; [done|]. split; [done|]. rewrite !Forall_app in *. naive_solver.
Qed.

Lemma I_globals w vals n v : I m w vals -> v_ok (w_heap w) v -> I m (set_globals (<[n := v]> (globals_ w)) w) vals.
Proof.
  intros [(H1 & H2 & H3) H4] Hv. split; [|cbn; by rewrite length_insert]. split; [done|]. split; [done|].
  cbn [host set_globals globals_ term others]. rewrite !Forall_app in *. destruct H3 as (? & ? & ? & ? & ?). split_and!; try done. by apply Forall_insert.
Qed.

Lemma I_term_ok w vals : I m w vals -> v_ok (w_heap w) (thrown (term w)) /\ v_ok (w_heap w) (termThrown (term w)).
Proof. intros H. split; apply (I_interp w vals); try done; unfold interp_values, term_values; set_solver. Qed.

Lemma I_settle w vals vs : I m w vals -> vals ⊆ vs -> I m w vs -> I m (settle_heap vs w) vals.
Proof.
  intros H Hsub Hvs. unfold settle_heap.
  destruct (collect_ok m (w_heap w) (vs ++ interp_values w)) as (H1 & H2 & H3); [apply Hvs| |].
  { apply Forall_app. split; [by eapply I_forall|]. rewrite Forall_forall. intros v. by eapply I_interp. }
  apply I_heap; [done|done| |].
  - intros p [c Hp]. exists c. by eapply lookup_weaken.
  - rewrite Forall_forall in H2. intros v Hv. apply H2. set_solver.
Qed.

Lemma I_host w vals h' vs : I m w vals ->
  (forall r, host_ok m (host w) (vals ++ r) -> host_ok m h' (vs ++ r)) -> I m (set_host h' w) vs.
Proof.
  intros [H1 H2] Hh. split; [|done]. specialize (Hh (globals_ w ++ term_values (term w) ++ others w)).
  assert (forall h l l', host_ok m h l -> (forall x, x ∈ l' -> x ∈ l) -> host_ok (X := X) m h l') as Hperm.
  { intros h l l' (? & ? & Hf) Hin. split_and!; try done. rewrite !Forall_app, !Forall_forall in *. naive_solver. }
  eapply Hperm; [apply Hh; eapply Hperm; [exact H1|]|]; cbn; set_solver.
Qed.

(** A native's run, for whatever else is held. *)
Lemma safe_host w ins vals (r : Run (option (Value * str * Host X))) : I m w ins ->
  (forall l, host_ok m (host w) (ins ++ l) -> safe (native_result m (vals ++ l)) r) ->
  safe (fun o => match o with Some (out, _, h) => I m (set_host h w) (out :: vals) | None => True end) r.
Proof.
  intros H Hr. destruct r as [[[[out err] h]|]|e]; cbn in *; [|done|].
  - by apply (I_host w ins).
  - destruct H as [H _]. apply (Hr (globals_ w ++ term_values (term w) ++ others w)).
    destruct H as (? & ? & Hf). split_and!; try done. rewrite !Forall_app in *. naive_solver.
Qed.

End State.
