(* ===== verification/IrSafe.v ===== *)
(** * The operations of the IR interpreter are safe

    One lemma per operation of [src/backend/IrInterp.cpp]: in a well-formed
    state, with its operands among the values held, it does not index out of
    range or follow a dangling reference, and leaves a well-formed state in
    which its result is valid and everything held still is. *)

From S2P Require Import TaskSched.
From S2P Require Import Prelude Token Value ValueFacts RefHeap Ir RuntimeLoop RuntimeCore MemVerify IrInterp IrTyping.

Local Open Scope Z_scope.

Section Safe.
Context {X : Type} (P : Platform X) (m : IrModule) (sema : Sema) (own : option (list (nat * Z))) (depth : nat).
Context `{HP : !PlatformOk m P} (Hm : module_ok m sema = true).
Implicit Types (w : Interp X) (vals : list Value).

Definition act_values (a : Act) : list Value := match a with ADone v => [v] | ACall _ args => args end.
Definition act_ok (a : Act) : Prop := match a with ADone _ => True | ACall fn _ => is_fn m fn = true end.
Definition act_post vals (r : Act * Interp X) : Prop := act_ok (fst r) /\ I m (snd r) (act_values (fst r) ++ vals).
Definition value_post vals (r : Value * Interp X) : Prop := I m (snd r) (fst r :: vals).

(** ** Cells behind values *)

Lemma safe_object w vals p : I m w vals -> VObject (Some p) ∈ vals -> safe (fun o => w_heap w !! p = Some (CObj o)) (object_at w p).
Proof.
  intros H Hv. apply (I_in _ _ _ _ H) in Hv. unfold object_at. cbn in Hv. unfold h_obj in *.
  destruct (w_heap w !! p) as [[]|]; try (by destruct Hv); done.
Qed.
Lemma safe_array w vals p : I m w vals -> VArray (Some p) ∈ vals -> safe (fun xs => w_heap w !! p = Some (CArr xs)) (array_at w p).
Proof.
  intros H Hv. apply (I_in _ _ _ _ H) in Hv. unfold array_at. cbn in Hv. unfold h_arr in *.
  destruct (w_heap w !! p) as [[]|]; try (by destruct Hv); done.
Qed.
Lemma safe_map w vals p : I m w vals -> VMap (Some p) ∈ vals -> safe (fun es => w_heap w !! p = Some (CMap es)) (map_at w p).
Proof.
  intros H Hv. apply (I_in _ _ _ _ H) in Hv. unfold map_at. cbn in Hv. unfold h_map in *.
  destruct (w_heap w !! p) as [[]|]; try (by destruct Hv); done.
Qed.
Lemma safe_closure w vals p : I m w vals -> VClosure (Some p) ∈ vals -> safe (fun c => w_heap w !! p = Some (CClos c) /\ c_env c <> []) (closure_at w p).
Proof.
  intros H Hv. apply (I_in _ _ _ _ H) in Hv. unfold closure_at. cbn in Hv. unfold h_clos in *.
  destruct Hv as (c & Hv & Hc). rewrite Hv. destruct (w_heap w !! p) as [[]|]; try done. injection Hv as ->. done.
Qed.

Lemma I_content w vals p c v : I m w vals -> w_heap w !! p = Some c -> v ∈ cell_values c -> v_ok (w_heap w) v.
Proof. intros H Hp Hv. destruct (I_cell _ _ _ _ _ H Hp) as [Hc _]. rewrite Forall_forall in Hc. by apply Hc. Qed.

Lemma field_value (o : Object) k v : fields o !! k = Some v -> v ∈ cell_values (CObj o).
Proof.
  intros H. cbn. unfold env_values. apply list_elem_of_fmap. exists (k, v). split; [done|]. by apply elem_of_map_to_list.
Qed.
Lemma env_value (e : gmap str Value) k v : e !! k = Some v -> v ∈ env_values e.
Proof. intros H. unfold env_values. apply list_elem_of_fmap. exists (k, v). split; [done|]. by apply elem_of_map_to_list. Qed.
Lemma env_insert (e : gmap str Value) k v x : x ∈ env_values (<[k := v]> e) -> x = v \/ x ∈ env_values e.
Proof.
  unfold env_values. rewrite !list_elem_of_fmap. intros ([k' y] & -> & H). apply elem_of_map_to_list in H.
  apply lookup_insert_Some in H as [[_ <-]|[_ H]]; [by left|right]. exists (k', y). split; [done|]. by apply elem_of_map_to_list.
Qed.
Lemma env_singleton k v x : x ∈ env_values {[k := v]} -> x = v.
Proof. unfold env_values. rewrite map_to_list_singleton. cbn. by intros ->%list_elem_of_singleton. Qed.

Lemma I_field w vals p o k v : I m w vals -> w_heap w !! p = Some (CObj o) -> fields o !! k = Some v -> v_ok (w_heap w) v.
Proof. intros H Hp Hk. eapply I_content; [done|done|]. by eapply field_value. Qed.

(** ** Dispatch: only the depth can run out *)

Lemma safe_first_base {A} (f : Symbol -> Run (option A)) bs : (forall s, safe (fun _ => True) (f s)) -> safe (fun _ => True) (first_base f bs).
Proof.
  intros Hf. induction bs as [|[b|] bs IH]; cbn [first_base]; [done| |done].
  apply safe_bind. eapply safe_mono; [apply Hf|]. intros [a|] _; done.
Qed.
Lemma safe_accessor cls name g : safe (fun _ => True) (findAccessor sema depth cls name g).
Proof.
  destruct cls as [c|]; [|done]. cbn [findAccessor]. generalize depth. intros n. revert c. induction n as [|n IH]; intros c; cbn [find_accessor]; [by right; left|].
  destruct (class_decl sema c) as [cd|]; [|done]. destruct (accessor_here name g (cd_body cd)); [done|]. by apply safe_first_base.
Qed.
Lemma safe_subclass n a b : safe (fun _ => True) (subclass sema n a b).
Proof.
  revert a. induction n as [|n IH]; intros a; cbn [subclass]; (destruct (decide (a = b)); [done|]); [by right; left|].
  destruct (class_decl sema a) as [cd|]; [|done]. apply safe_bind. eapply safe_mono; [apply safe_first_base|done].
  intros s. apply safe_bind. eapply safe_mono; [apply IH|done].
Qed.
Lemma safe_is_subclass a b : safe (fun _ => True) (isSubclassOrSelf sema depth a b).
Proof. destruct a, b; try done. apply safe_subclass. Qed.
Lemma safe_derived n names c : safe (fun _ => True) (derived_from sema n names c).
Proof.
  revert c. induction n as [|n IH]; intros c; cbn [derived_from]; [by right; left|]. destruct (existsb _ _); [done|].
  destruct (class_decl sema c) as [cd|]; [|done]. apply safe_bind. eapply safe_mono; [apply safe_first_base|done].
  intros s. apply safe_bind. eapply safe_mono; [apply IH|done].
Qed.

Lemma safe_derived_class n names (c : option Symbol) :
  safe (fun _ => True) (match c with Some c => derived_from sema n names c | None => Go false end).
Proof. destruct c; [apply safe_derived|done]. Qed.

Lemma safe_class w vals v : I m w vals -> v ∈ vals -> safe (fun _ => True) (classOfValue sema w v).
Proof.
  intros H Hv. destruct v as [| | | | |[p|]| | | | | | |]; try done. cbn [classOfValue]. apply safe_bind.
  eapply safe_mono; [by eapply safe_object|done].
Qed.

(** ** Allocation and exceptions *)

Lemma I_new w vals c (v : loc -> Value) : I m w vals -> cell_ok m (w_heap w) c ->
  (forall h p, h !! p = Some c -> v_ok h (v p)) ->
  I m (snd (alloc P c w)) (v (fst (alloc P c w)) :: vals).
Proof. intros H Hc Hv. destruct (I_alloc P m w vals c H Hc) as (H1 & H2 & _). apply I_cons; [done|]. by apply Hv. Qed.

Lemma cell_ok_obj h o : Forall (v_ok h) (env_values (fields o)) -> is_Some (o_cls o) -> cell_ok m h (CObj o).
Proof. done. Qed.

Lemma safe_sized n : safe (fun _ => True) (sized n).
Proof. unfold sized. destruct (n <=? 2 ^ 47); cbn; auto. Qed.
Lemma v_ok_obj h p o : h !! p = Some (CObj o) -> v_ok h (VObject (Some p)).
Proof. intros H. cbn. unfold h_obj. rewrite H. by eexists. Qed.
Lemma v_ok_arr h p xs : h !! p = Some (CArr xs) -> v_ok h (VArray (Some p)).
Proof. intros H. cbn. unfold h_arr. rewrite H. by eexists. Qed.
Lemma v_ok_map h p es : h !! p = Some (CMap es) -> v_ok h (VMap (Some p)).
Proof. intros H. cbn. unfold h_map. rewrite H. by eexists. Qed.
Lemma v_ok_clos h p c : c_env c <> [] -> h !! p = Some (CClos c) -> v_ok h (VClosure (Some p)).
Proof. intros Hc H. cbn. unfold h_clos. rewrite H. by eexists. Qed.
Lemma v_ok_block h p b : h !! p = Some (CBlock b) -> v_ok h (VBlock (Some p)).
Proof. intros H. cbn. unfold h_block. rewrite H. by eexists. Qed.

Lemma I_set_throw w vals b v : I m w vals -> v_ok (w_heap w) v -> I m (set_term (set_throw b v (term w)) w) vals.
Proof.
  intros H Hv. apply I_term; [done|]. cbn. apply Forall_cons. split; [done|]. apply Forall_singleton. by eapply I_term_ok.
Qed.

Lemma I_raise_class w vals cls msg : I m w vals -> I m (raiseClass P sema cls msg w) vals.
Proof.
  intros H. unfold raiseClass. set (o := match global_lookup sema cls with Some c => _ | None => _ end). destruct o as [c|].
  - pose (cell := CObj (MkObject (Some c) {[lit "message" := VString msg]} ∅)). fold cell.
    assert (cell_ok m (w_heap w) cell) as Hc.
    { split; [|by eexists]. cbn. rewrite Forall_forall. by intros v ->%env_singleton. }
    destruct (I_alloc P m w vals cell H Hc) as (H1 & H2 & _). rewrite (surjective_pairing (alloc P cell w)).
    apply I_set_throw; [done|]. by eapply v_ok_obj.
  - by apply I_set_throw.
Qed.
Lemma I_raise w vals msg : I m w vals -> I m (raise P sema msg w) vals.
Proof. apply I_raise_class. Qed.

Lemma I_exit w vals : I m w vals -> I m (exit_throw w) vals.
Proof. intros H. apply I_term; [done|]. cbn. destruct (I_term_ok m w vals H). by repeat constructor. Qed.
Lemma I_thrown w vals v : I m w vals -> v_ok (w_heap w) v -> I m (set_thrown v w) vals.
Proof. apply I_set_throw. Qed.

Lemma I_emit w vals t : I m w vals -> I m (emit t w) vals.
Proof. intros [(H1 & H2 & H3) H4]. unfold emit, host_emit. by destruct (ttyRaw (host w)). Qed.

(** ** Calls *)

Lemma fn_of_decl d fi : find_decl d (byDecl m) = Some fi -> is_fn m (Z.of_nat fi) = true.
Proof.
  intros H. unfold module_ok in Hm. bool_hyps. rewrite forallb_forall in *.
  assert (In (d, fi) (byDecl m)) as Hin.
  { clear - H. induction (byDecl m) as [|[k v] l IH]; [done|]. cbn in H. destruct (Nat.eqb_spec k d) as [->|]; [left; congruence|right; auto]. }
  match goal with H : forall x, In x (byDecl m) -> _ |- _ => apply H in Hin end. cbn in Hin. apply Nat.ltb_lt in Hin.
  unfold is_fn. apply andb_true_intro. split; [apply Z.leb_le|apply Z.ltb_lt]; lia.
Qed.

Lemma safe_callDecl d args cow w vals : I m w vals -> args ⊆ vals -> safe (act_post vals) (callDecl P m sema d args cow w).
Proof.
  intros H Hargs. unfold callDecl. destruct (find_decl (d_id d) (byDecl m)) as [fi|] eqn:E.
  { cbn. split; [by eapply fn_of_decl|]. cbn. eapply I_sub; [exact H|]. set_solver. }
  destruct args as [|self rest]; [split; [done|by apply I_cons]|]. apply safe_bind.
  eapply safe_mono; [eapply safe_class; [exact H|set_solver]|]. intros [c|] _; [|split; [done|by apply I_cons]].
  assert (I m w (self :: rest ++ vals)) as Hin by (eapply I_sub; [exact H|set_solver]).
  apply safe_bind. eapply safe_mono; [apply (safe_host m w (self :: rest ++ vals) vals _ Hin)|].
  { intros r Hr. apply native_ok. cbn in Hr |- *. by rewrite <- app_assoc in Hr. }
  intros [[[out err] h]|] Hout; [|split; [done|by apply I_cons]]. cbn in Hout.
  destruct (nonempty err); cbn [safe]; split; try done. cbn [fst snd act_values app]. apply I_cons; [|done]. apply I_raise.
  eapply I_sub; [exact Hout|]. set_solver.
Qed.

(** ** Members and slots *)

Lemma v_ok_weak_read h o k : v_ok h (weakObjectRead h o k).
Proof.
  unfold weakObjectRead. destruct (weakFields o !! k) as [q|]; [|done]. unfold h_obj.
  destruct (h !! q) as [[]|] eqn:E; try done. by eapply v_ok_obj.
Qed.

Lemma I_class w vals p o : I m w vals -> w_heap w !! p = Some (CObj o) -> is_Some (o_cls o).
Proof. intros H Hp. by destruct (I_cell _ _ _ _ _ H Hp) as [_ Hc]. Qed.

Lemma safe_raw_get w vals p o k : I m w vals -> w_heap w !! p = Some (CObj o) ->
  safe (v_ok (w_heap w)) (from_option FNull (rtRawFieldGet (w_heap w) p k)).
Proof.
  intros H Hp. destruct (I_class w vals p o H Hp) as [c Hc]. unfold rtRawFieldGet, h_obj. rewrite Hp, Hc. cbn [from_option safe].
  destruct (is_weak_key c k); [apply v_ok_weak_read|]. destruct (fields o !! k) eqn:Ek; [|done]. by eapply I_field.
Qed.

Lemma cell_ok_weak_write w vals p o k v : I m w vals -> w_heap w !! p = Some (CObj o) -> cell_ok m (w_heap w) (CObj (weakObjectWrite o k v)).
Proof. intros H Hp. pose proof (I_cell _ _ _ _ _ H Hp) as Hc. unfold weakObjectWrite. by destruct v as [| | | | |[q|]| | | | | | |]. Qed.

Lemma cell_ok_field w vals p o k v : I m w vals -> w_heap w !! p = Some (CObj o) -> v_ok (w_heap w) v ->
  cell_ok m (w_heap w) (CObj (MkObject (o_cls o) (<[k := v]> (fields o)) (weakFields o))).
Proof.
  intros H Hp Hv. split; [|exact (I_class w vals p o H Hp)]. cbn. rewrite Forall_forall. intros x [->|Hx]%env_insert; [done|].
  eapply I_content; [done|exact Hp|done].
Qed.

Lemma safe_raw_set w vals p o k v : I m w vals -> w_heap w !! p = Some (CObj o) -> v_ok (w_heap w) v ->
  safe (fun h => I m (set_heap h w) vals) (from_option FNull (rtRawFieldSet (w_heap w) p k v)).
Proof.
  intros H Hp Hv. destruct (I_class w vals p o H Hp) as [c Hc]. unfold rtRawFieldSet, h_obj. rewrite Hp, Hc. cbn [from_option safe].
  eapply I_update; [done|exact Hp|done|]. destruct (is_weak_key c k); [exact (cell_ok_weak_write w vals p o k v H Hp)|].
  pose proof (cell_ok_field w vals p o k v H Hp Hv) as Hf. by rewrite Hc in Hf.
Qed.

Lemma safe_getMember base key w vals : I m w vals -> base ∈ vals -> safe (act_post vals) (getMember P m sema depth base key w).
Proof.
  intros H Hb. unfold getMember. destruct base as [| | | | |[p|]| | | | | | |]; try (split; [done|by apply I_cons]).
  apply safe_bind. eapply safe_mono; [by eapply safe_object|]. intros o Ho. apply safe_bind.
  eapply safe_mono; [apply safe_accessor|]. intros [d|] _; [apply safe_callDecl; [done|set_solver]|].
  apply safe_bind. eapply safe_mono; [exact (safe_raw_get w vals p o _ H Ho)|]. intros v Hv. split; [done|]. by apply I_cons.
Qed.

Lemma safe_setMember base key v w vals : I m w vals -> base ∈ vals -> v ∈ vals ->
  safe (act_post vals) (setMember P m sema depth base key v w).
Proof.
  intros H Hb Hv. unfold setMember. destruct base as [| | | | |[p|]| | | | | | |]; try (split; [done|by apply I_cons]).
  apply safe_bind. eapply safe_mono; [by eapply safe_object|]. intros o Ho. apply safe_bind.
  eapply safe_mono; [apply safe_accessor|]. intros [d|] _; [apply safe_callDecl; [done|set_solver]|].
  apply safe_bind. eapply safe_mono; [apply (safe_raw_set w vals p o _ v H Ho); by eapply I_in|]. intros h Hh. split; [done|]. by apply I_cons.
Qed.

(** ** Indices *)

Lemma element_in {A} (xs : list A) i x : element xs i = Some x -> x ∈ xs.
Proof. unfold element. destruct (i <? 0); [done|]. apply list_elem_of_lookup_2. Qed.

Lemma safe_getIndex base idx w vals : I m w vals -> base ∈ vals -> idx ∈ vals ->
  safe (act_post vals) (getIndex P m sema depth base idx w).
Proof.
  intros H Hb Hi. unfold getIndex. apply safe_bind. eapply safe_mono; [by eapply safe_class|]. intros cls _. apply safe_bind.
  eapply safe_mono; [apply safe_accessor|]. intros [d|] _; [apply safe_callDecl; [done|set_solver]|].
  destruct base as [| | | | | | |[p|]| | | | |]; try (split; [done|by apply I_cons]).
  apply safe_bind. eapply safe_mono; [by eapply safe_array|]. intros xs Hxs.
  destruct (element xs (v_i idx)) as [v|] eqn:E; split; try done; cbn.
  - apply I_cons; [done|]. eapply I_content; [done|exact Hxs|]. cbn. by eapply element_in.
  - apply I_cons; [|done]. by apply I_raise.
Qed.

Lemma safe_upsert h idx v es : safe (fun es' => forall x, x ∈ cell_values (CMap es') -> x = idx \/ x = v \/ x ∈ cell_values (CMap es))
  (upsert depth h idx v es).
Proof.
  induction es as [|[k y] es IH]; cbn [upsert]; [cbn; intros x; rewrite !elem_of_cons; naive_solver|].
  apply safe_bind. destruct (keyEquals depth h k idx) as [[]|]; cbn [from_option safe]; [| |by right; left].
  - cbn. intros x. rewrite !elem_of_cons. naive_solver.
  - apply safe_bind. eapply safe_mono; [exact IH|]. cbn. intros es' Hes x. rewrite !elem_of_cons. intros [->|[->|Hx]]; auto.
    destruct (Hes x Hx) as [|[|]]; auto.
Qed.

Lemma store_element_in xs i v x : x ∈ store_element xs i v -> x = v \/ x ∈ xs.
Proof.
  unfold store_element. destruct (i <? 0); [by right|]. intros [n Hn]%list_elem_of_lookup_1.
  apply list_lookup_insert_Some in Hn as [(_ & <- & _)|[_ Hn]]; [by left|right]. by eapply list_elem_of_lookup_2.
Qed.

Lemma cell_ok_values h c : match c with CObj o => is_Some (o_cls o) | CClos _ | CBlock _ | CBytes _ => False | _ => True end ->
  (forall x, x ∈ cell_values c -> v_ok h x) -> cell_ok m h c.
Proof. intros Hc Hv. split; [by rewrite Forall_forall|by destruct c]. Qed.

Lemma safe_indexStore roots base idx v w vals : I m w vals -> base ∈ vals -> idx ∈ vals -> v ∈ vals ->
  safe (act_post vals) (indexStore P m sema depth roots base idx v w).
Proof.
  intros H Hb Hi Hv. unfold indexStore.
  destruct base as [| | | | |[p|]| |[p|]|[p|]| | | |]; try (split; [done|apply I_cons; [done|by eapply I_in]]).
  - apply safe_bind. eapply safe_mono; [by eapply safe_object|]. intros o Ho. apply safe_bind.
    eapply safe_mono; [apply safe_accessor|]. intros [d|] _; [apply safe_callDecl; [done|set_solver]|].
    split; [done|]. apply I_cons; [done|by eapply I_in].
  - apply safe_bind. eapply safe_mono; [by eapply safe_array|]. intros xs Hxs.
    assert (cell_ok m (w_heap w) (CArr (store_element xs (v_i idx) v))) as Hc.
    { apply cell_ok_values; [done|]. intros x [->|Hx]%store_element_in; [by eapply I_in|]. by eapply (I_content _ _ _ _ _ H Hxs). }
    destruct (_ =? _)%nat; split; try done; cbn.
    + assert (I m (set_heap (<[p := CArr (store_element xs (v_i idx) v)]> (w_heap w)) w) vals) as H' by by apply (I_update m w vals p (CArr xs)).
      apply I_cons; [done|by eapply I_in].
    + apply (I_new w vals _ (fun p => VArray (Some p))); [done|done|]. intros h q. apply v_ok_arr.
  - split; [done|]. apply (I_new w vals (CArr []) (fun p => VArray (Some p))); [done|by split; [apply Forall_nil_2|]|]. intros h q. apply v_ok_arr.
  - apply safe_bind. eapply safe_mono; [by eapply safe_map|]. intros es Hes. apply safe_bind.
    eapply safe_mono; [apply safe_upsert|]. intros es' Hes'.
    assert (cell_ok m (w_heap w) (CMap es')) as Hc.
    { apply cell_ok_values; [done|]. intros x Hx. destruct (Hes' x Hx) as [->|[->|Hx']]; [by eapply I_in..|].
      by eapply (I_content _ _ _ _ _ H Hes). }
    destruct (_ =? _)%nat; split; try done; cbn.
    + assert (I m (set_heap (<[p := CMap es']> (w_heap w)) w) vals) as H' by by apply (I_update m w vals p (CMap es)).
      apply I_cons; [done|by eapply I_in].
    + apply (I_new w vals _ (fun p => VMap (Some p))); [done|done|]. intros h q. apply v_ok_map.
  - split; [done|]. apply (I_new w vals (CMap [(idx, v)]) (fun p => VMap (Some p))); [done| |intros h q; apply v_ok_map].
    apply cell_ok_values; [done|]. cbn. intros x. rewrite !elem_of_cons, elem_of_nil. intros [->|[->|[]]]; by eapply I_in.
Qed.

(** ** Iteration, copies, literals *)

Lemma safe_checked z : safe (fun _ => True) (checked64 z).
Proof. unfold checked64. destruct (_ && _); [done|by left]. Qed.

Lemma touch_values keys o x : x ∈ cell_values (CObj (fold_left (fun o k => touch_field k o) keys o)) -> x = VVoid \/ x ∈ cell_values (CObj o).
Proof.
  revert o. induction keys as [|k keys IH]; intros o; cbn [fold_left]; [by right|]. intros [->|Hx]%IH; [by left|].
  unfold touch_field in Hx. destruct (fields o !! k); [by right|]. cbn in *. by apply env_insert in Hx.
Qed.
Lemma touch_class keys o : o_cls (fold_left (fun o k => touch_field k o) keys o) = o_cls o.
Proof.
  revert o. induction keys as [|k keys IH]; intros o; cbn [fold_left]; [done|]. rewrite IH. unfold touch_field. by destruct (fields o !! k).
Qed.
Lemma I_touch keys p o w vals : I m w vals -> w_heap w !! p = Some (CObj o) -> I m (touch keys p o w) vals.
Proof.
  intros H Hp. unfold touch. apply (I_update m w vals p (CObj o)); [done|done|done|]. apply cell_ok_values; [rewrite touch_class; by eapply I_class|].
  intros x [->|Hx]%touch_values; [done|]. by eapply (I_content _ _ _ _ _ H Hp).
Qed.

Lemma safe_iterLen v w vals : I m w vals -> v ∈ vals -> safe (value_post vals) (iterLen v w).
Proof.
  intros H Hv. unfold iterLen. destruct v as [| | | | |[p|]| |[p|]|[p|]| | | |]; try (by apply I_cons).
  - apply safe_bind. eapply safe_mono; [by eapply safe_object|]. intros o Ho. destruct (is_range o); [|by apply I_cons].
    destruct (_ <=? _); [|apply I_cons; [by apply I_touch|done]]. apply safe_bind. eapply safe_mono; [apply safe_checked|]. intros d _.
    apply safe_bind. eapply safe_mono; [apply safe_checked|]. intros n _. apply I_cons; [by apply I_touch|done].
  - apply safe_bind. eapply safe_mono; [by eapply safe_array|]. intros xs _. by apply I_cons.
  - apply safe_bind. eapply safe_mono; [by eapply safe_map|]. intros es _. by apply I_cons.
Qed.

Lemma pair_class : is_Some (global_lookup sema (lit "Pair")).
Proof. unfold module_ok in Hm. destruct (global_lookup sema (lit "Pair")); [by eexists|done]. Qed.

Lemma safe_iterAt v i w vals : I m w vals -> v ∈ vals -> safe (value_post vals) (iterAt P sema v i w).
Proof.
  intros H Hv. unfold iterAt. destruct v as [| | | | |[p|]| |[p|]|[p|]| | | |]; try (by apply I_cons).
  - apply safe_bind. eapply safe_mono; [by eapply safe_object|]. intros o Ho. destruct (is_range o); [|by apply I_cons].
    apply safe_bind. eapply safe_mono; [apply safe_checked|]. intros d _. apply I_cons; [by apply I_touch|done].
  - apply safe_bind. eapply safe_mono; [by eapply safe_array|]. intros xs Hxs. apply I_cons; [done|]. cbn.
    destruct (element xs i) eqn:E; [|done]. eapply (I_content _ _ _ _ _ H Hxs). cbn. by eapply element_in.
  - apply safe_bind. eapply safe_mono; [by eapply safe_map|]. intros es Hes.
    destruct (element es i) as [[k x]|] eqn:E; [|by apply I_cons]. apply element_in in E.
    assert (forall y, y ∈ [k; x] -> v_ok (w_heap w) y) as Hkx.
    { intros y Hy. eapply (I_content _ _ _ _ _ H Hes). cbn. apply list_elem_of_bind. exists (k, x). done. }
    apply (I_new w vals (CObj _) (fun p => VObject (Some p))); [done| |intros h q; apply v_ok_obj].
    apply cell_ok_values; [exact pair_class|]. cbn. intros y [->|Hy]%env_insert; [apply Hkx; set_solver|].
    apply env_singleton in Hy as ->. apply Hkx. set_solver.
Qed.

Lemma safe_copy_fields copy l w vals :
  (forall v w vals, I m w vals -> v ∈ vals -> safe (value_post vals) (copy v w)) ->
  I m w vals -> (forall k v, (k, v) ∈ l -> v ∈ vals) ->
  safe (fun r => I m (snd r) (env_values (fst r) ++ vals)) (copy_fields copy l w).
Proof.
  intros Hc. revert w vals. induction l as [|[k v] l IH]; intros w vals H Hl; cbn [copy_fields].
  { cbn. unfold env_values. by rewrite map_to_list_empty. }
  apply safe_bind. eapply safe_mono; [apply Hc; [exact H|apply (Hl k); set_solver]|]. intros [v' w1] H1. unfold value_post in H1. cbn in H1.
  apply safe_bind. eapply safe_mono; [apply (IH w1 (v' :: vals) H1)|]; [set_solver|]. intros [mm w2] H2. cbn in H2 |- *.
  eapply I_sub; [exact H2|]. intros x [[->|Hx]%env_insert|Hx]%elem_of_app; set_solver.
Qed.

Lemma safe_copy_value n v w vals : I m w vals -> v ∈ vals -> safe (value_post vals) (copy_value P n v w).
Proof.
  revert v w vals. induction n as [|n IH]; intros v w vals H Hv; cbn [copy_value]; [by right; left|].
  destruct v as [| | | | |[p|]| | | | | | |]; try (by apply I_cons); try (by apply I_cons; [|eapply I_in]).
  apply safe_bind. eapply safe_mono; [by eapply safe_object|]. intros o Ho.
  destruct (o_cls o) as [c|]; [|apply I_cons; [done|by eapply I_in]].
  destruct (sy_isValue c); [|apply I_cons; [done|by eapply I_in]]. apply safe_bind.
  assert (I m w (cell_values (CObj o) ++ vals)) as H1.
  { apply I_app; [done|]. rewrite Forall_forall. intros x. by apply (I_content _ _ _ _ _ H Ho). }
  eapply safe_mono; [apply (safe_copy_fields _ _ _ _ IH H1)|].
  { intros k x Hkx. apply elem_of_app. left. apply elem_of_map_to_list in Hkx. by eapply field_value. }
  intros [mm w2] H2. cbn in H2.
  apply (I_new w2 vals (CObj _) (fun p => VObject (Some p))); [eapply I_sub; [exact H2|set_solver]| |intros h q; apply v_ok_obj].
  apply cell_ok_values; [by eexists|]. cbn. intros x Hx. eapply I_in; [exact H2|]. set_solver.
Qed.

Lemma safe_spread v w vals : I m w vals -> v ∈ vals -> safe (fun r => I m (snd r) (fst r ++ vals)) (spread v w).
Proof.
  intros H Hv. unfold spread. assert (I m w ([v] ++ vals)) as H1 by (apply I_cons; [done|by eapply I_in]).
  destruct v as [| | | | |[p|]| | | | | | |]; try done.
  apply safe_bind. eapply safe_mono; [eapply safe_object; [exact H|done]|]. intros o Ho. destruct (is_range o); [|done].
  apply safe_bind. eapply safe_mono; [apply safe_sized|]. intros _ _.
  destruct (_ && _); [by left|]. cbn. apply I_app; [by apply I_touch|]. rewrite Forall_forall.
  intros x Hx. apply list_elem_of_In, in_map_iff in Hx as (k & <- & _). done.
Qed.
Lemma safe_spread_all vs w vals : I m w vals -> vs ⊆ vals -> safe (fun r => I m (snd r) (fst r ++ vals)) (spread_all vs w).
Proof.
  revert w vals. induction vs as [|v vs IH]; intros w vals H Hs; cbn [spread_all]; [done|].
  apply safe_bind. eapply safe_mono; [apply safe_spread; [exact H|set_solver]|]. intros [xs w1] H1. cbn in H1.
  apply safe_bind. eapply safe_mono; [apply IH; [exact H1|set_solver]|]. intros [ys w2] H2. cbn in H2 |- *.
  eapply I_sub; [exact H2|]. set_solver.
Qed.

Lemma I_new_block bs w vals : Forall (in_u 8) bs -> I m w vals -> value_post vals (new_block P bs w).
Proof.
  intros Hbs H. unfold new_block, value_post.
  destruct (I_alloc P m w vals (CBytes bs) H) as (H1 & H2 & _); [by split; [apply Forall_nil_2|]|].
  destruct (alloc P (CBytes bs) w) as [b w1] eqn:E. cbn in H1, H2.
  apply (I_new w1 vals (CBlock _) (fun p => VBlock (Some p))); [done| |intros h q; apply v_ok_block].
  split; [apply Forall_nil_2|]. cbn. exists bs. split; [done|lia].
Qed.

(** ** Type tests, promises, closures, batches *)

Lemma safe_match1 w vals s v n : I m w vals -> v ∈ vals -> safe (fun _ => True) (match1 sema depth w s v n).
Proof.
  intros H Hv. unfold match1. repeat (case_match; [done|]).
  destruct s as [c|]; [|done]. destruct v as [| | | | |[p|]| | | | | | |]; try done.
  apply safe_bind. eapply safe_mono; [by eapply safe_object|]. intros o _. apply safe_is_subclass.
Qed.
Lemma safe_is_type w vals s v n : I m w vals -> v ∈ vals -> safe (fun _ => True) (is_type sema depth w s v n).
Proof.
  intros H Hv. unfold is_type. destruct (find_str _ _); [|by eapply safe_match1].
  induction (unionMembersOf n) as [|x l IH]; cbn [any_match]; [done|]. apply safe_bind.
  eapply safe_mono; [by eapply safe_match1|]. by intros [] _.
Qed.

Lemma safe_scan f vs seen : (forall v seen, v ∈ vs -> safe (fun _ => True) (f v seen)) -> safe (fun _ => True) (scan_values f vs seen).
Proof.
  revert seen. induction vs as [|v vs IH]; intros seen Hf; cbn [scan_values]; [done|]. apply safe_bind.
  eapply safe_mono; [apply Hf; set_solver|]. intros [[e|] seen'] _; [done|]. apply IH. set_solver.
Qed.
Lemma safe_has_promise n w vals v seen : I m w vals -> v_ok (w_heap w) v -> safe (fun _ => True) (value_has_promise sema depth n w v seen).
Proof.
  revert v seen. induction n as [|n IH]; intros v seen H Hv; cbn [value_has_promise]; [by right; left|].
  assert (I m w (v :: vals)) as H1 by by apply I_cons.
  assert (forall p c, w_heap w !! p = Some c -> safe (fun _ => True) (mark_seen p (cell_values c) (value_has_promise sema depth n w) seen)) as Hscan.
  { intros p c Hp. unfold mark_seen. destruct (existsb _ _); [done|]. apply safe_scan. intros x s Hx. apply IH; [done|].
    by eapply (I_content _ _ _ _ _ H Hp). }
  destruct v as [| | | | |[p|]| |[p|]|[p|]| | | |]; try done.
  - apply safe_bind. eapply safe_mono; [eapply safe_object; [exact H1|set_solver]|]. intros o Ho. apply safe_bind.
    eapply safe_mono; [apply safe_derived_class|]. intros [] _; [done|]. apply safe_bind.
    eapply safe_mono; [apply safe_derived_class|]. intros [] _; [done|]. by apply (Hscan p (CObj o)).
  - apply safe_bind. eapply safe_mono; [eapply safe_array; [exact H1|set_solver]|]. intros xs Hxs. by apply (Hscan p (CArr xs)).
  - apply safe_bind. eapply safe_mono; [eapply safe_map; [exact H1|set_solver]|]. intros es Hes. by apply (Hscan p (CMap es)).
Qed.

Lemma safe_closure_fn w vals v : I m w vals -> v ∈ vals ->
  safe (fun r => match r with Some i => is_fn m i = true | None => True end) (closure_fn w v).
Proof.
  intros H Hv. unfold closure_fn. destruct v as [| | | | | |[p|]| | | | | |]; try done. apply safe_bind.
  eapply safe_mono; [by eapply safe_closure|]. intros c [Hc _]. cbn [safe]. destruct (I_cell _ _ _ _ _ H Hc) as [_ Hok]. unfold clos_ok in Hok.
  destruct (c_env c) as [|e es]; [done|]. destruct (e !! lit "@fn") as [x|] eqn:E; [|done]. by apply Hok.
Qed.

Lemma safe_spawn_body w vals v : I m w vals -> v ∈ vals -> safe (fun _ => True) (spawnBodyGlobalPromise m sema depth w v).
Proof.
  intros H Hv. unfold spawnBodyGlobalPromise. apply safe_bind. eapply safe_mono; [by eapply safe_closure_fn|].
  intros [i|] _; [|done]. destruct (element _ i) as [slots|]; [|done].
  induction slots as [|s slots IH]; cbn [scan_globals]; [done|]. destruct (element (globals_ w) s) as [x|] eqn:E; [|done].
  apply safe_bind. eapply safe_mono; [eapply safe_has_promise; [exact H|]|].
  - apply (I_interp m w vals); [done|]. unfold interp_values. apply element_in in E. set_solver.
  - by intros [[e|] seen] _.
Qed.

Lemma int_of_fn i : is_fn m i = true -> int_of i = i.
Proof.
  intros H. unfold int_of, module_ok, is_fn in *. bool_hyps. apply wrap_s_id; [lia|]. unfold in_s. cbn. lia.
Qed.
End Safe.
