(* ===== verification/NativesSafe.v ===== *)
(** * The native methods keep the heap well formed

    Every native of [Natives.v], called on a receiver and arguments that refer
    to allocated cells of their kinds, reads no vector out of range and follows
    no dangling pointer; the host it leaves is well formed and its result refers
    to an allocated cell. *)

From S2P Require Import TaskSched.
From S2P Require Import Prelude Token Utf8 Value RefHeap Ir RuntimeLoop RuntimeCore MemVerify IrInterp IrTyping IrSafe Natives.

Local Open Scope Z_scope.

Section Safe.
Context {X : Type} (m : IrModule).
Implicit Types (h : Host X) (vals : list Value).

Lemma host_sub h vals vals' : host_ok m h vals -> vals' ⊆ vals -> host_ok m h vals'.
Proof.
  intros (H1 & H2 & H3) Hs. split_and!; try done. rewrite !Forall_app, !Forall_forall in *. naive_solver.
Qed.

Lemma host_in h vals v : host_ok m h vals -> v ∈ vals -> v_ok (heap h) v.
Proof. intros (_ & _ & H) Hv. rewrite Forall_app, !Forall_forall in H. by apply H. Qed.

Lemma host_cons h vals v : host_ok m h vals -> v_ok (heap h) v -> host_ok m h (v :: vals).
Proof. intros (H1 & H2 & H3) Hv. split_and!; try done. rewrite Forall_app in *. split; [apply H3|]. apply Forall_cons. naive_solver. Qed.

Lemma host_cell h vals p c : host_ok m h vals -> heap h !! p = Some c -> cell_ok m (heap h) c.
Proof. intros (H & _) Hp. by eapply H. Qed.

(** A cell is overwritten by one of its kind. *)
Lemma host_put h vals p c c' : host_ok m h vals -> heap h !! p = Some c -> same_kind_cell c c' -> cell_ok m (heap h) c' ->
  host_ok m (put_cell p c' h) vals.
Proof.
  intros (H1 & H2 & H3) Hp Hk Hc. assert (kept (heap h) (<[p := c']> (heap h))) as Hkept by by eapply kept_insert.
  split; [by apply heap_ok_insert|]. split; cbn.
  - intros q [d Hq]. apply lookup_insert_Some in Hq as [[<- _]|[_ Hq]]; eauto.
  - eapply Forall_impl; [exact H3|]. eauto using kept_v.
Qed.

(** A cell is allocated. *)
Lemma host_new mal h vals c : host_ok m h vals -> cell_ok m (heap h) c ->
  host_ok m (snd (host_alloc mal c h)) vals /\
  heap (snd (host_alloc mal c h)) !! fst (host_alloc mal c h) = Some c /\
  kept (heap h) (heap (snd (host_alloc mal c h))) /\ heap h !! fst (host_alloc mal c h) = None.
Proof.
  intros (H1 & H2 & H3) Hc. cbn.
  assert (heap h !! next_loc h = None) as Hn.
  { apply eq_None_not_Some. intros Hp. specialize (H2 _ Hp). lia. }
  assert (kept (heap h) (<[next_loc h := c]> (heap h))) as Hk by by apply kept_fresh.
  split; [|split; [by rewrite lookup_insert_eq|done]]. split; [by apply heap_ok_insert|]. split; cbn.
  - intros p [d Hp]. apply lookup_insert_Some in Hp as [[<- _]|[_ Hp]]; [lia|]. specialize (H2 p (mk_is_Some _ _ Hp)). lia.
  - eapply Forall_impl; [exact H3|]. eauto using kept_v.
Qed.

(** ** Results *)

Lemma safe_ret h vals v : host_ok m h vals -> v_ok (heap h) v -> safe (native_result m vals) (ret v h).
Proof. intros H Hv. by apply host_cons. Qed.
Lemma safe_fails h vals e : host_ok m h vals -> safe (native_result m vals) (fails e h).
Proof. intros H. by apply host_cons. Qed.
Lemma safe_unknown vals : safe (native_result m vals) (unknown (X := X)).
Proof. done. Qed.

Lemma safe_ret_new mal h vals (v : loc -> Value) c : host_ok m h vals -> cell_ok m (heap h) c ->
  (forall (hp : Heap) p, hp !! p = Some c -> v_ok hp (v p)) -> safe (native_result m vals) (ret_new mal v c h).
Proof.
  intros H Hc Hv. destruct (host_new mal h vals c H Hc) as (H1 & H2 & _). unfold ret_new.
  destruct (host_alloc mal c h) as [p h']. apply safe_ret; [done|]. by apply Hv.
Qed.
Lemma safe_ret_put h vals p c c' : host_ok m h vals -> heap h !! p = Some c -> same_kind_cell c c' -> cell_ok m (heap h) c' ->
  safe (native_result m vals) (ret VVoid (put_cell p c' h)).
Proof. intros. apply safe_ret; [by eapply host_put|done]. Qed.

Lemma safe_option {A} (o : option A) : safe (fun a => o = Some a) (from_option FDepth o).
Proof. destruct o; cbn; auto. Qed.
Lemma safe_some {A} e (o : option A) : is_Some o -> safe (fun a => o = Some a) (from_option e o).
Proof. by intros [a ->]. Qed.
Lemma safe_add64 a b : safe (fun c => c = a + b) (add64 a b).
Proof. unfold add64. case_match; cbn; auto. Qed.

End Safe.

(** Branches on tests and on the class or method name; the easy results. *)
Ltac native_step :=
  lazymatch goal with
  | |- safe _ (ret _ _) => apply safe_ret; [done|try done]
  | |- safe _ (fails _ _) => by apply safe_fails
  | |- safe _ unknown => apply safe_unknown
  | |- safe _ (if ?b then _ else _) => let E := fresh "E" in destruct b eqn:E
  end.
Ltac natives := repeat native_step.

Lemma entry_values (P : Value -> Prop) k v es :
  Forall P (cell_values (CMap ((k, v) :: es))) <-> P k /\ P v /\ Forall P (cell_values (CMap es)).
Proof. cbn. by rewrite !Forall_cons. Qed.
Lemma entries_app (P : Value -> Prop) es es' :
  Forall P (cell_values (CMap (es ++ es'))) <-> Forall P (cell_values (CMap es)) /\ Forall P (cell_values (CMap es')).
Proof. induction es as [|[k v] es IH]; [by cbn; rewrite Forall_nil; tauto|]. rewrite <- app_comm_cons, !entry_values, IH. tauto. Qed.

Lemma map_keys (P : Value -> Prop) es : Forall P (cell_values (CMap es)) -> Forall P (map fst es) /\ Forall P (map snd es).
Proof. induction es as [|[k v] es IH]; [done|]. rewrite entry_values. cbn. rewrite !Forall_cons. tauto. Qed.

Section Calls.
Context {X : Type} (m : IrModule) (mal : gset Z -> nat -> Z) (nan : Z) (pow : Z -> Z -> Z) (depth : nat).
Implicit Types (h : Host X) (vals : list Value).

Lemma cell_ok_arr (hp : Heap) xs : Forall (v_ok hp) xs -> cell_ok m hp (CArr xs).
Proof. done. Qed.
Lemma cell_ok_map (hp : Heap) es : Forall (v_ok hp) (cell_values (CMap es)) -> cell_ok m hp (CMap es).
Proof. done. Qed.

Lemma safe_string n self args h vals : host_ok m h vals -> safe (native_result m vals) (string_native mal nan n self args h).
Proof.
  intros H. unfold string_native. natives.
  - destruct (strictParseInt _); done.
  - destruct (strictParseFloat _); done.
  - destruct (utf8DecodeAt _ _) as [[cp len] bd]. natives.
  - apply safe_ret_new; [done| |intros; by eapply v_ok_arr]. apply cell_ok_arr. rewrite Forall_map. by apply Forall_true.
Qed.

Lemma safe_char n self h vals : host_ok m h vals -> safe (native_result m vals) (char_native n self h).
Proof. intros H. unfold char_native. natives. Qed.

(** ** Block *)

Definition window_ok (b : BlockData) (bs : list Z) : Prop :=
  0 <= b_off b /\ 0 <= b_len b /\ b_off b + b_len b <= Z.of_nat (length bs).

Definition block_post h (r : option (BlockData * loc * list Z)) : Prop :=
  match r with
  | Some (b, q, bs) => b_bytes b = Some q /\ heap h !! q = Some (CBytes bs) /\ window_ok b bs /\ Forall (in_u 8) bs
  | None => True
  end.

Lemma safe_block_at h vals v : host_ok m h vals -> v ∈ vals -> safe (block_post h) (block_at h v).
Proof.
  intros H Hv. pose proof (host_in m h vals v H Hv) as Hok. unfold block_at.
  destruct v as [| | | | | | | | | | |[p|]|]; try done. cbn in Hok |- *. apply safe_bind.
  eapply safe_mono; [by apply safe_some|]. intros b Hb. unfold h_block in Hb.
  destruct (heap h !! p) as [[]|] eqn:Ep; try done. injection Hb as ->.
  destruct (host_cell m h vals p _ H Ep) as [_ Hc]. cbn in Hc. destruct (b_bytes b) as [q|] eqn:Eb; [|done].
  destruct Hc as (bs & Hq & Hw). rewrite Hq. cbn. split_and!; try done; try apply Hw. apply (host_cell m h vals q _ H Hq).
Qed.

Lemma safe_read bs o n : 0 <= o -> 0 <= n -> o + n <= Z.of_nat (length bs) ->
  safe (fun w => w = take (Z.to_nat n) (drop (Z.to_nat o) bs) /\ length w = Z.to_nat n) (read_bytes bs o n).
Proof.
  intros H1 H2 H3. unfold read_bytes, window. destruct (Z.ltb_spec o 0); [lia|]. destruct (Z.ltb_spec n 0); [lia|].
  destruct (Z.ltb_spec (Z.of_nat (length bs)) (o + n)); [lia|]. cbn. split; [done|]. rewrite length_take, length_drop. lia.
Qed.

Lemma safe_write bs o new : 0 <= o -> o + size_of new <= Z.of_nat (length bs) ->
  safe (fun w => length w = length bs /\ (Forall (in_u 8) bs -> Forall (in_u 8) new -> Forall (in_u 8) w)) (write_bytes bs o new).
Proof.
  unfold size_of. intros H1 H2. unfold write_bytes. apply safe_bind.
  eapply safe_mono; [apply (safe_read bs o (size_of new)); unfold size_of; lia|]. intros ? _. cbn. split.
  - rewrite !length_app, length_take, length_drop. lia.
  - intros Hb Hn. rewrite !Forall_app. split_and!; [by apply Forall_take|done|by apply Forall_drop].
Qed.

Lemma cell_ok_bytes (hp : Heap) bs : Forall (in_u 8) bs -> cell_ok m hp (CBytes bs).
Proof. intros H. by split. Qed.
Lemma le_split_bytes n u : Forall (in_u 8) (le_split n u).
Proof. unfold le_split. rewrite Forall_map. apply Forall_true. intros k. apply Z.mod_pos_bound. lia. Qed.
Lemma length_le_split n u : length (le_split n u) = n.
Proof. unfold le_split. by rewrite length_map, length_seq. Qed.

Lemma safe_window_oob o l len : safe (fun bad => bad = false -> 0 <= o /\ 0 <= l /\ o + l <= len) (window_oob o l len).
Proof.
  unfold window_oob. destruct (Z.ltb_spec o 0); [done|]. destruct (Z.ltb_spec l 0); [done|]. cbn [orb].
  apply safe_bind. eapply safe_mono; [apply safe_add64|]. intros e ->. cbn. rewrite Z.ltb_ge. lia.
Qed.
Lemma safe_word_oob i n len : safe (fun bad => bad = false -> 0 <= i /\ i + n <= len) (word_oob i n len).
Proof.
  unfold word_oob. destruct (Z.ltb_spec i 0); [done|].
  apply safe_bind. eapply safe_mono; [apply safe_add64|]. intros e ->. cbn. rewrite Z.ltb_ge. lia.
Qed.

Section Block.
Context (bd : BlockData) (q : loc) (bytes : list Z) (args : list Value) (h : Host X) (vals : list Value).
Context (H : host_ok m h vals) (Hb : block_post h (Some (bd, q, bytes))) (Hargs : args ⊆ vals).

Lemma safe_store bs : safe (fun w => length w = length bytes /\ Forall (in_u 8) w) bs ->
  safe (native_result m vals) (let! bs := bs in ret VVoid (put_cell q (CBytes bs) h)).
Proof.
  intros Hs. apply safe_bind. eapply safe_mono; [exact Hs|]. intros w [Hl Hf].
  eapply safe_ret_put; [done|apply Hb|by cbn|by apply cell_ok_bytes].
Qed.
Lemma safe_stored o new : 0 <= o -> o + size_of new <= b_len bd -> Forall (in_u 8) new ->
  safe (fun w => length w = length bytes /\ Forall (in_u 8) w) (write_bytes bytes (b_off bd + o) new).
Proof.
  destruct Hb as (_ & _ & (? & ? & ?) & Hf). intros Ho Hl Hn. eapply safe_mono; [apply safe_write; lia|].
  intros w [Hw1 Hw2]. auto.
Qed.

Lemma safe_block_read n f : safe (native_result m vals) (block_read n f bd bytes args h).
Proof.
  unfold block_read. apply safe_bind. eapply safe_mono; [apply safe_word_oob|]. intros [] Hi; [by apply safe_fails|].
  specialize (Hi eq_refl). destruct Hb as (_ & _ & (? & ? & ?) & _). apply safe_bind.
  eapply safe_mono; [apply safe_read; lia|]. intros w _. natives.
Qed.

Lemma safe_block_write n : safe (native_result m vals) (block_write n bd q bytes args h).
Proof.
  unfold block_write. apply safe_bind. eapply safe_mono; [apply safe_word_oob|]. intros [] Hi; [by apply safe_fails|].
  specialize (Hi eq_refl). apply safe_store, safe_stored; [lia| |apply le_split_bytes]. unfold size_of. rewrite length_le_split. lia.
Qed.

Lemma safe_block_setByte : safe (native_result m vals) (block_setByte bd q bytes args h).
Proof.
  unfold block_setByte. natives. bool_hyps. apply safe_store. destruct Hb as (_ & _ & (? & ? & ?) & Hf). unfold put_index.
  destruct (_ || _) eqn:E'; [bool_hyps; rewrite orb_true_iff in *; lia|]. cbn. rewrite length_insert. split; [done|].
  apply Forall_insert; [done|]. unfold in_u. lia.
Qed.

Lemma safe_block_slice : safe (native_result m vals) (block_slice mal bd args h).
Proof.
  unfold block_slice. apply safe_bind. eapply safe_mono; [apply safe_window_oob|]. intros [] Hi; [by apply safe_fails|].
  specialize (Hi eq_refl). destruct Hb as (Hq & Hbs & (? & ? & ?) & _).
  apply safe_ret_new; [done| |intros; by eapply v_ok_block]. split; [apply Forall_nil_2|]. cbn. rewrite Hq. exists bytes. split; [done|lia].
Qed.

Lemma safe_block_toString : safe (native_result m vals) (block_toString bd bytes args h).
Proof.
  unfold block_toString. apply safe_bind. eapply safe_mono; [apply safe_window_oob|]. intros [] Hi; [by apply safe_fails|].
  specialize (Hi eq_refl). destruct Hb as (_ & _ & (? & ? & ?) & _). apply safe_bind.
  eapply safe_mono; [apply safe_read; lia|]. intros w _. natives.
Qed.

Lemma safe_block_fill : safe (native_result m vals) (block_fill bd q bytes args h).
Proof.
  unfold block_fill. natives. bool_hyps. apply safe_store, safe_stored; [lia|unfold size_of; rewrite length_replicate; lia|].
  apply Forall_replicate. unfold in_u. lia.
Qed.

Lemma safe_block_blit : safe (native_result m vals) (block_blit bd q bytes args h).
Proof.
  unfold block_blit. natives. bool_hyps. apply safe_bind.
  assert (safe (block_post h) (match args !! 1%nat with Some v => block_at h v | None => Go None end)) as Hsrc.
  { destruct (args !! 1%nat) as [v|] eqn:Ev; [|done]. eapply safe_block_at; [done|]. apply Hargs. by eapply list_elem_of_lookup_2. }
  eapply safe_mono; [exact Hsrc|]. intros [[[sb r] sbytes]|] Hs; [|by apply safe_fails]. natives. bool_hyps.
  destruct Hs as (_ & _ & (? & ? & ?) & Hf). apply safe_bind. eapply safe_mono; [apply safe_read; lia|]. intros w [-> Hw].
  apply safe_store, safe_stored; [lia|unfold size_of; rewrite Hw; lia|]. by apply Forall_take, Forall_drop.
Qed.

Lemma safe_other_block : safe (block_post h) (other_block args h).
Proof. unfold other_block. destruct args as [|v vs]; [done|]. eapply safe_block_at; [done|]. set_solver. Qed.

Lemma safe_block_equals : safe (native_result m vals) (block_equals bd bytes args h).
Proof.
  unfold block_equals. apply safe_bind. eapply safe_mono; [apply safe_other_block|].
  intros [[[ob r] obytes]|] Ho; [|by apply safe_fails]. natives.
  destruct Hb as (_ & _ & (? & ? & ?) & _). destruct Ho as (_ & _ & (? & ? & ?) & _). bool_hyps. apply safe_bind.
  eapply safe_mono; [apply safe_read; lia|]. intros a _. apply safe_bind. eapply safe_mono; [apply safe_read; lia|]. intros b _. natives.
Qed.

Lemma safe_block_mismatch : safe (native_result m vals) (block_mismatch bd bytes args h).
Proof.
  unfold block_mismatch. apply safe_bind. eapply safe_mono; [apply safe_other_block|].
  intros [[[ob r] obytes]|] Ho; [|by apply safe_fails]. natives.
  destruct Hb as (_ & _ & (? & ? & ?) & _). destruct Ho as (_ & _ & (? & ? & ?) & _). bool_hyps. apply safe_bind.
  eapply safe_mono; [apply safe_read; lia|]. intros a _. apply safe_bind. eapply safe_mono; [apply safe_read; lia|]. intros b _. natives.
Qed.
End Block.

Lemma safe_block n self args h vals : host_ok m h vals -> self ∈ vals -> args ⊆ vals ->
  safe (native_result m vals) (block_native mal n self args h).
Proof.
  intros H Hs Ha. unfold block_native. apply safe_bind. eapply safe_mono; [by eapply safe_block_at|].
  intros [[[bd q] bytes]|] Hb; [|by apply safe_fails]. natives.
  - bool_hyps. destruct Hb as (_ & _ & (? & ? & ?) & _). apply safe_bind. eapply safe_mono; [apply safe_at; lia|]. intros. natives.
  - by apply safe_block_setByte.
  - by eapply safe_block_slice.
  - by eapply safe_block_toString.
  - by eapply safe_block_read.
  - by apply safe_block_write.
  - by eapply safe_block_read.
  - by apply safe_block_write.
  - by apply safe_block_fill.
  - by apply safe_block_blit.
  - by eapply safe_block_equals.
  - by eapply safe_block_mismatch.
Qed.

(** ** Array and Map *)

Lemma safe_elements h vals v : host_ok m h vals -> v ∈ vals ->
  safe (fun a => Forall (v_ok (heap h)) a /\ forall p, v = VArray (Some p) -> heap h !! p = Some (CArr a)) (elements h v).
Proof.
  intros H Hv. pose proof (host_in m h vals v H Hv) as Hok. unfold elements.
  destruct v as [| | | | | | |[p|]| | | | |]; try (by split; [apply Forall_nil_2|]). cbn in Hok |- *.
  eapply safe_mono; [by apply safe_some|]. intros a Ha. unfold h_arr in Ha. destruct (heap h !! p) as [[]|] eqn:Ep; try done.
  injection Ha as ->. split; [apply (host_cell m h vals p _ H Ep)|]. congruence.
Qed.

Lemma safe_array_add self a args cow h vals : host_ok m h vals -> args ⊆ vals -> v_ok (heap h) self -> Forall (v_ok (heap h)) a ->
  (forall p, self = VArray (Some p) -> heap h !! p = Some (CArr a)) ->
  safe (native_result m vals) (array_add mal self a args cow h).
Proof.
  intros H Hargs Hself Ha Hp. unfold array_add.
  assert (Forall (v_ok (heap h)) (a ++ take 1 args)) as Hall.
  { apply Forall_app. split; [done|]. rewrite Forall_forall. intros v Hv. eapply host_in; [done|]. apply Hargs. by eapply subseteq_take. }
  destruct (v_arr self) as [p|] eqn:Es; [|apply safe_ret_new; [done|done|intros; by eapply v_ok_arr]].
  destruct cow; [|apply safe_ret_new; [done|done|intros; by eapply v_ok_arr]].
  destruct self; try done. cbn in Es. subst. specialize (Hp p eq_refl).
  apply safe_ret; [eapply host_put; [done|exact Hp|done|done]|]. eapply v_ok_arr. apply lookup_insert_eq.
Qed.

Lemma safe_array_native n self args cow h vals : host_ok m h vals -> self ∈ vals -> args ⊆ vals ->
  safe (native_result m vals) (array_native mal n self args cow h).
Proof.
  intros H Hs Ha. unfold array_native. apply safe_bind. eapply safe_mono; [by eapply safe_elements|]. intros a [Hall Hp]. natives.
  - bool_hyps. apply safe_bind. eapply safe_mono; [apply safe_at; unfold size_of in *; lia|]. intros v Hv. natives.
    rewrite Forall_forall in Hall. by apply Hall.
  - apply safe_array_add; try done. by eapply host_in.
Qed.

Lemma safe_entries h vals v : host_ok m h vals -> v ∈ vals -> safe (fun es => Forall (v_ok (heap h)) (cell_values (CMap es))) (entries h v).
Proof.
  intros H Hv. pose proof (host_in m h vals v H Hv) as Hok. unfold entries.
  destruct v as [| | | | | | | |[p|]| | | |]; try apply Forall_nil_2. cbn in Hok |- *.
  eapply safe_mono; [by apply safe_some|]. intros a Ha. unfold h_map in Ha. destruct (heap h !! p) as [[]|] eqn:Ep; try done.
  injection Ha as ->. apply (host_cell m h vals p _ H Ep).
Qed.

Lemma safe_map_find (P : Value -> Prop) h k es : Forall P (cell_values (CMap es)) ->
  safe (fun r => match r with Some v => P v | None => True end) (map_find depth h k es).
Proof.
  induction es as [|[k' v] es IH]; [done|]. rewrite entry_values. intros (_ & Hv & Hes). cbn. apply safe_bind.
  eapply safe_mono; [apply safe_option|]. intros [] _; [done|]. by apply IH.
Qed.
Lemma safe_map_replace (P : Value -> Prop) h k v es : P v -> Forall P (cell_values (CMap es)) ->
  safe (fun r => match r with Some es' => Forall P (cell_values (CMap es')) | None => True end) (map_replace depth h k v es).
Proof.
  intros Hv. induction es as [|[k' v'] es IH]; [done|]. rewrite entry_values. intros (Hk' & Hv' & Hes). cbn [map_replace]. apply safe_bind.
  eapply safe_mono; [apply safe_option|]. intros [] _; [by apply entry_values|]. apply safe_bind.
  eapply safe_mono; [by apply IH|]. intros [r|] Hr; [by apply entry_values|done].
Qed.
Lemma safe_map_without (P : Value -> Prop) h k es : Forall P (cell_values (CMap es)) ->
  safe (fun r => Forall P (cell_values (CMap r))) (map_without depth h k es).
Proof.
  induction es as [|[k' v'] es IH]; [done|]. rewrite entry_values. intros (Hk' & Hv' & Hes). cbn [map_without]. apply safe_bind.
  eapply safe_mono; [apply safe_option|]. intros e _. apply safe_bind.
  eapply safe_mono; [by apply IH|]. intros r Hr. destruct e; [done|by apply entry_values].
Qed.
Lemma safe_map_with (P : Value -> Prop) h args es : Forall P args -> Forall P (cell_values (CMap es)) ->
  safe (fun r => Forall P (cell_values (CMap r))) (map_with depth h args es).
Proof.
  intros Ha Hes. unfold map_with. destruct args as [|k [|v [|]]]; try done. rewrite !Forall_cons in Ha. destruct Ha as (Hk & Hv & _).
  apply safe_bind. eapply safe_mono; [by apply safe_map_replace|]. intros [r|] Hr; [done|].
  apply entries_app. split; [done|]. by apply entry_values.
Qed.

Lemma safe_map_native n self args h vals : host_ok m h vals -> self ∈ vals -> args ⊆ vals ->
  safe (native_result m vals) (map_native mal depth n self args h).
Proof.
  intros H Hs Ha. unfold map_native. apply safe_bind. eapply safe_mono; [by eapply safe_entries|]. intros es Hes. cbv beta in Hes.
  assert (Forall (v_ok (heap h)) args) as Hargs by (rewrite Forall_forall; intros v Hv; eapply host_in; [done|by apply Ha]). natives.
  - destruct args as [|k args']; [natives|]. apply safe_bind. eapply safe_mono; [by apply (safe_map_find (v_ok (heap h)))|].
    intros [v|] Hv; [natives|]. apply safe_bind. eapply safe_mono; [apply safe_option|]. intros t _. natives.
  - destruct args as [|k args']; [natives|]. apply safe_bind. eapply safe_mono; [by apply (safe_map_find (v_ok (heap h)))|]. intros r _. natives.
  - apply safe_bind. eapply safe_mono; [by apply (safe_map_with (v_ok (heap h)))|]. intros es' Hes'.
    apply safe_ret_new; [done|done|intros; by eapply v_ok_map].
  - apply safe_bind. eapply safe_mono; [|intros es' Hes'; apply safe_ret_new; [done|exact Hes'|intros; by eapply v_ok_map]].
    destruct args as [|k args']; [done|]. eapply safe_mono; [by apply (safe_map_without (v_ok (heap h)))|]. intros; by apply cell_ok_map.
  - apply safe_ret_new; [done|by apply cell_ok_arr, map_keys|intros; by eapply v_ok_arr].
  - apply safe_ret_new; [done|by apply cell_ok_arr, map_keys|intros; by eapply v_ok_arr].
Qed.

Lemma safe_float n self args h vals : host_ok m h vals -> safe (native_result m vals) (float_native nan pow n self args h).
Proof. intros H. unfold float_native. natives. unfold float_toInt. natives. Qed.

(** [nativeCall] as a whole. *)
Lemma safe_native_call cls n self args cow h vals : host_ok m h (self :: args ++ vals) ->
  safe (native_result m vals) (native_call mal nan pow depth cls n self args cow h).
Proof.
  intros H. apply (safe_mono (native_result m (self :: args ++ vals))).
  2: { intros [[[out e] h']|] Hr; [|done]. eapply host_sub; [exact Hr|]. set_solver. }
  assert (self ∈ self :: args ++ vals) by set_solver. assert (args ⊆ self :: args ++ vals) by set_solver.
  unfold native_call, int_native, bool_native. natives.
  - by apply safe_string.
  - by apply safe_char.
  - by apply safe_block.
  - by apply safe_array_native.
  - by apply safe_map_native.
  - by apply safe_float.
Qed.

End Calls.
