(* ===== verification/ThreadCopyFacts.v ===== *)
(** * The copy of a value graph

    What [lvThreadCopy] does: it ends, and when nothing reachable is of a kind
    that may not cross it builds a graph isomorphic to the original, in fresh
    cells, that shares with it only channel portals; otherwise it reports why. *)

From S2P Require Import TaskSched.
From S2P Require Import Prelude Token Ast Utf8 Value RefHeap Ir RuntimeLoop RuntimeCore MemVerify IrInterp IrTyping IrSafe Natives NativesSafe ThreadCopy.

Local Open Scope Z_scope.

(** Runs that end in [Q] or fail with an [E]. *)
Definition wp {A} (E : Fault -> Prop) (Q : A -> Prop) (r : Run A) : Prop := match r with Go a => Q a | Stop e => E e end.
Lemma run_wp_bind {A B} E (Q : B -> Prop) (r : Run A) k : wp E (fun a => wp E Q (k a)) r -> wp E Q (run_bind r k).
Proof. by destruct r. Qed.
Lemma run_wp_mono {A} E (Q Q' : A -> Prop) (r : Run A) : wp E Q r -> (forall a, Q a -> Q' a) -> wp E Q' r.
Proof. destruct r; cbn; auto. Qed.

Definition tag (c : Cell) : nat :=
  match c with CObj _ => 0 | CArr _ => 1 | CMap _ => 2 | CClos _ => 3 | CBlock _ => 4 | CBytes _ => 5 | CAst => 6 end%nat.
(** The value that refers to a cell. *)
Definition ref_of (c : Cell) (q : loc) : Value :=
  match c with
  | CObj _ => VObject (Some q) | CArr _ => VArray (Some q) | CMap _ => VMap (Some q) | CClos _ => VClosure (Some q) | _ => VVoid
  end.

Section Facts.
Context {X : Type} (m : IrModule) (mal : gset Z -> nat -> Z) (sema : Sema) (depth : nat) (lambdas : nat -> Expr).
Context (h0 : Heap) (vals : list Value).
Implicit Types (st : @CopyState X) (σ : gmap loc Value).

(** ** What crosses, and what is in the way *)

(** [r] is what [v] becomes, when [σ] gives the copies; only the root may be a
    closure. *)
Definition crosses (root : bool) (σ : gmap loc Value) (v r : Value) : Prop :=
  match v with
  | VObject (Some p) =>
      exists o, h0 !! p = Some (CObj o) /\
        ((verdict sema depth o = Go Share /\ r = v) \/ (verdict sema depth o = Go Copy /\ σ !! p = Some r))
  | VArray (Some p) | VMap (Some p) => σ !! p = Some r
  | VClosure (Some p) => root = true /\ σ !! p = Some r
  | VBlock _ | VAst _ _ => False
  | _ => r = v
  end.

Definition captured (c : Closure) (k : str) : bool :=
  match c_lambda c with Some l => existsb (eqs k) (lvCollectExprNames (lambdas l)) | None => true end.

Definition map_crosses σ (keep : str -> bool) (f g : gmap str Value) : Prop :=
  forall k, match f !! k with
            | Some v => if keep k then exists r, g !! k = Some r /\ crosses false σ v r else g !! k = None
            | None => g !! k = None
            end.

Definition cell_crosses σ (c c' : Cell) : Prop :=
  match c, c' with
  | CObj o, CObj o' => o_cls o' = o_cls o /\ map_crosses σ (fun _ => true) (fields o) (fields o') /\ weakFields o' = ∅
  | CArr xs, CArr ys => Forall2 (crosses false σ) xs ys
  | CMap es, CMap fs => Forall2 (fun e f => crosses false σ e.1 f.1 /\ crosses false σ e.2 f.2) es fs
  | CClos c, CClos c' =>
      c_lambda c' = c_lambda c /\ c_thisClass c' = c_thisClass c /\
      Forall2 (map_crosses σ (captured c)) (c_env c) (c_env c') /\
      match c_thisObj c with None => c_thisObj c' = None | Some o => crosses false σ (VObject (Some o)) (VObject (c_thisObj c')) end
  | _, _ => False
  end.

(** The copy of the cell at [p] is finished. *)
Definition complete σ (h : Heap) (p : loc) (r : Value) : Prop :=
  exists c q c', h0 !! p = Some c /\ r = ref_of c q /\ h !! q = Some c' /\ cell_crosses σ c c'.

(** The values the walk looks at in a cell, and the cells it enters. *)
Definition children (c : Cell) : list Value :=
  match c with
  | CClos cl =>
      (c_env cl ≫= fun e => map snd (filter (fun kv => captured cl kv.1 = true) (map_to_list e))) ++
      match c_thisObj cl with Some p => [VObject (Some p)] | None => [] end
  | _ => cell_values c
  end.
Definition enters (root : bool) (v : Value) (c : Cell) : Prop :=
  match v with
  | VObject (Some p) => exists o, c = CObj o /\ h0 !! p = Some c /\ verdict sema depth o = Go Copy
  | VArray (Some p) => exists xs, c = CArr xs /\ h0 !! p = Some c
  | VMap (Some p) => exists es, c = CMap es /\ h0 !! p = Some c
  | VClosure (Some p) => root = true /\ exists cl, c = CClos cl /\ h0 !! p = Some c
  | _ => False
  end.
Definition bad (root : bool) (v : Value) : Prop :=
  match v with
  | VBlock _ | VAst _ _ => True
  | VClosure (Some _) => root = false
  | VObject (Some p) => exists o e, h0 !! p = Some (CObj o) /\ verdict sema depth o = Go (Reject e)
  | _ => False
  end.
Inductive blocked : bool -> Value -> Prop :=
| blocked_here root v : bad root v -> blocked root v
| blocked_in root v c w : enters root v c -> w ∈ children c -> blocked false w -> blocked root v.

(** ** The state of the walk *)

Record inv st : Prop := MkInv {
  i_host : host_ok m (c_host st) vals;
  i_old : h0 ⊆ heap (c_host st);
  i_seen p r : seen st !! p = Some r ->
    exists c q c', h0 !! p = Some c /\ h0 !! q = None /\ r = ref_of c q /\ heap (c_host st) !! q = Some c' /\ tag c = tag c' /\ (tag c < 4)%nat;
  i_inj p p' r : seen st !! p = Some r -> seen st !! p' = Some r -> p = p'
}.

Definition done σ st : Prop :=
  no_err st = true -> forall p r, seen st !! p = Some r -> σ !! p = None -> complete (seen st) (heap (c_host st)) p r.

Definition post (root : bool) (v : Value) st (out : Value * @CopyState X) : Prop :=
  let '(r, st') := out in
  inv st' /\ heap (c_host st) ⊆ heap (c_host st') /\ seen st ⊆ seen st' /\ done (seen st) st' /\
  if no_err st' then crosses root (seen st') v r else r = VVoid /\ blocked root v.

(** While the copy at [q] is being filled. *)
Record filling (q : loc) st0 st : Prop := MkFill {
  l_inv : inv st;
  l_seen : seen st0 ⊆ seen st;
  l_frame q' c : q' <> q -> heap (c_host st0) !! q' = Some c -> heap (c_host st) !! q' = Some c;
  l_done : done (seen st0) st;
  l_own : exists p c, seen st0 !! p = Some (ref_of c q) /\ (tag c < 4)%nat
}.

Lemma ref_of_inj c c' q q' : (tag c < 4)%nat -> ref_of c q = ref_of c' q' -> q = q'.
Proof. destruct c, c'; cbn; intros; try lia; congruence. Qed.

Lemma crosses_mono root σ σ' v r : σ ⊆ σ' -> crosses root σ v r -> crosses root σ' v r.
Proof.
  intros Hs. destruct v as [| | | | |[p|]|[p|]|[p|]|[p|]| | | |]; cbn; try done; try (intros ?; by eapply lookup_weaken).
  - intros (o & Ho & [?|[Hc Hr]]); exists o; split; auto. right. split; [done|]. by eapply lookup_weaken.
  - intros [Hr Hp]. split; [done|]. by eapply lookup_weaken.
Qed.
Lemma map_crosses_mono σ σ' keep f g : σ ⊆ σ' -> map_crosses σ keep f g -> map_crosses σ' keep f g.
Proof.
  intros Hs H k. specialize (H k). destruct (f !! k); [|done]. destruct (keep k); [|done]. destruct H as (r & Hr & Hc).
  eauto using crosses_mono.
Qed.
Lemma cell_crosses_mono σ σ' c c' : σ ⊆ σ' -> cell_crosses σ c c' -> cell_crosses σ' c c'.
Proof.
  intros Hs. destruct c, c'; cbn; try done.
  - intros (H1 & H2 & H3). split_and!; [done| |done]. by eapply map_crosses_mono.
  - intros H. eapply Forall2_impl; [done|]. intros. by eapply crosses_mono.
  - intros H. eapply Forall2_impl; [done|]. intros e f []. split; by eapply crosses_mono.
  - intros (H1 & H2 & H3 & H4). split_and!; [done..| |].
    + eapply Forall2_impl; [done|]. intros. by eapply map_crosses_mono.
    + destruct (c_thisObj c) as [o|]; [|done]. apply (crosses_mono false σ σ' (VObject (Some o))); [done|]. exact H4.
Qed.
Lemma complete_mono σ σ' h h' p r : σ ⊆ σ' -> (forall c q, h0 !! p = Some c -> r = ref_of c q -> forall c', h !! q = Some c' -> h' !! q = Some c') ->
  complete σ h p r -> complete σ' h' p r.
Proof.
  intros Hs Hh (c & q & c' & H1 & H2 & H3 & H4). exists c, q, c'. split_and!; try done; [by eapply Hh|by eapply cell_crosses_mono].
Qed.

Lemma crosses_i σ v r : crosses false σ v r -> (forall p r', σ !! p = Some r' -> exists c q, r' = ref_of c q) -> v_i r = v_i v.
Proof.
  intros H Hs. assert (forall p r', σ !! p = Some r' -> v_i r' = 0) as Hz.
  { intros p r' Hp. destruct (Hs _ _ Hp) as (c & q & ->). by destruct c. }
  destruct v as [| | | | |[p|]|[p|]|[p|]|[p|]| | | |]; cbn in *; try (by subst); try (by eapply Hz); try done; try (by destruct H).
  destruct H as (o & _ & [[_ ->]|[_ Hr]]); [done|by eapply Hz].
Qed.

(** A value that crossed refers to a cell of its kind. *)
Lemma crosses_ok st v r : inv st -> v_ok h0 v -> crosses false (seen st) v r -> v_ok (heap (c_host st)) r.
Proof.
  intros Hi Hv Hc. assert (kept h0 (heap (c_host st))) as Hk.
  { intros p c Hp. exists c. split; [|apply same_kind_refl]. by eapply lookup_weaken; [|apply Hi]. }
  assert (forall p r c, seen st !! p = Some r -> h0 !! p = Some c -> (tag c <> 3)%nat -> v_ok (heap (c_host st)) r) as Hs.
  { intros p r' c Hp Hp0 Ht. destruct (i_seen _ Hi _ _ Hp) as (c1 & q & c' & H1 & H2 & -> & H4 & H5 & H6). simplify_eq.
    destruct c, c'; cbn in *; try lia; unfold h_obj, h_arr, h_map; rewrite H4; by eexists. }
  destruct v as [| | | | |[p|]|[p|]|[p|]|[p|]| | | |]; cbn in *; try (by subst); try (by destruct Hc).
  - destruct Hc as (o & Ho & [[_ ->]|[_ Hr]]); [|by eapply Hs]. eapply (kept_v h0); [done|]. cbn. unfold h_obj. rewrite Ho. by eexists.
  - unfold h_arr in Hv. destruct (h0 !! p) as [[]|] eqn:E; try (by destruct Hv). by eapply Hs.
  - unfold h_map in Hv. destruct (h0 !! p) as [[]|] eqn:E; try (by destruct Hv). by eapply Hs.
Qed.

(** ** Filling a copy *)

Section Fill.
Context (q : loc) (st0 : @CopyState X).

Lemma filling_refl : inv st0 -> (exists p c, seen st0 !! p = Some (ref_of c q) /\ (tag c < 4)%nat) -> filling q st0 st0.
Proof. intros Hi Ho. split; try done. intros _ p r H1 H2. congruence. Qed.

Lemma filling_fresh st : filling q st0 st -> h0 !! q = None.
Proof.
  intros [Hi Hs _ _ (p & c & Hp & Ht)]. assert (seen st !! p = Some (ref_of c q)) as Hp' by by eapply lookup_weaken.
  destruct (i_seen _ Hi _ _ Hp') as (c1 & q' & ? & _ & Hq & E & _). apply ref_of_inj in E; [|done]. by subst.
Qed.

Lemma owner_only st p d : filling q st0 st -> seen st !! p = Some (ref_of d q) -> h0 !! p = Some d -> seen st0 !! p = None -> False.
Proof.
  intros [Hi Hs _ _ (p1 & c1 & Hp1 & Ht1)] Hp Hpd Hp0. assert (seen st !! p1 = Some (ref_of c1 q)) as Hp1' by by eapply lookup_weaken.
  destruct (i_seen _ Hi _ _ Hp) as (d1 & q1 & e1 & Hd1 & _ & E1 & Hh1 & Ht1' & Hlt1).
  assert (d1 = d) as -> by congruence.
  destruct (i_seen _ Hi _ _ Hp1') as (d2 & q2 & e2 & Hd2 & _ & E2 & Hh2 & Ht2 & Hlt2).
  assert (q2 = q) as -> by (symmetry; by apply (ref_of_inj c1 d2)).
  assert (q1 = q) as -> by (symmetry; by apply (ref_of_inj d d)).
  assert (p = p1) as ->; [|congruence]. eapply (i_inj _ Hi); [exact Hp|]. rewrite Hp1', E2.
  assert (tag d = tag d2) as Et by congruence. f_equal. clear - Et Hlt1 Hlt2. destruct d, d2; cbn in *; try lia; done.
Qed.

(** A nested walk. *)
Lemma filling_copy st v r st1 : filling q st0 st -> no_err st = true -> post false v st (r, st1) ->
  filling q st0 st1 /\ (forall c, heap (c_host st) !! q = Some c -> heap (c_host st1) !! q = Some c) /\ seen st ⊆ seen st1.
Proof.
  intros [Hi Hs Hf Hd Ho] He (Hi1 & Hh1 & Hs1 & Hd1 & _). split; [|split; [intros; by eapply lookup_weaken|done]]. split; [done|by etrans| | |done].
  - intros q' c Hq Hc. eapply lookup_weaken; [|done]. by apply Hf.
  - intros He1 p r' Hp Hp0. destruct (seen st !! p) as [r1|] eqn:E; [|by apply Hd1].
    assert (r1 = r') as -> by (eapply lookup_weaken in E; [|exact Hs1]; congruence).
    eapply complete_mono; [exact Hs1| |by apply Hd]. intros; by eapply lookup_weaken.
Qed.

(** The copy's own cell is written. *)
Lemma filling_write st c c' : filling q st0 st -> heap (c_host st) !! q = Some c -> same_kind_cell c c' -> tag c = tag c' ->
  cell_ok m (heap (c_host st)) c' -> filling q st0 (write_copy q c' st).
Proof.
  intros Hfill Hq Hk Ht Hc. pose proof (filling_fresh _ Hfill) as Hq0. destruct Hfill as [Hi Hs Hf Hd Ho].
  assert (forall q' d, q' <> q -> heap (c_host st) !! q' = Some d -> heap (c_host (write_copy q c' st)) !! q' = Some d) as Hfr.
  { intros q' d Hn Hd'. cbn. by rewrite lookup_insert_ne. }
  split; [|done| |..].
  - destruct Hi as [H1 H2 H3 H4]. split; [by eapply host_put| | |done].
    + apply map_subseteq_spec. intros p d Hp. apply Hfr; [congruence|]. by eapply lookup_weaken.
    + intros p r Hp. destruct (H3 _ _ Hp) as (d & q' & d' & ? & ? & ? & Hd' & Htd & ?).
      destruct (decide (q' = q)) as [->|]; [exists d, q, c'|exists d, q', d']; split_and!; try done; cbn;
        [by rewrite lookup_insert_eq|congruence|by rewrite lookup_insert_ne].
  - intros q' d Hn Hd'. apply Hfr; [done|]. by apply Hf.
  - intros He p r Hp Hp0. apply (complete_mono (seen st) (seen st) (heap (c_host st))); [done| |by apply Hd].
    intros d q' Hpd -> d' Hd'. apply Hfr; [|done]. intros ->. eapply owner_only; [by split|done..].
  - done.
Qed.
End Fill.

Lemma filling_ok q st0 st v r : filling q st0 st -> v_ok h0 v -> crosses false (seen st) v r -> v_ok (heap (c_host st)) r.
Proof. intros [Hi _ _ _ _]. by apply crosses_ok. Qed.

(** An object of the heap whose class hierarchy is deeper than the bound. *)
Definition deep (e : Fault) : Prop := (e = FOverflow \/ e = FDepth \/ e = FMemory) /\ exists p o, h0 !! p = Some (CObj o) /\ verdict sema depth o = Stop e.

Section Loops.
Context (copy : Value -> @CopyState X -> Run (Value * @CopyState X)) (n : nat).
Context (Hcopy : forall v st, inv st -> no_err st = true -> v_ok h0 v -> (size h0 < n + size (seen st))%nat ->
  wp deep (post false v st) (copy v st)).
Context (q : loc) (st0 : @CopyState X).

Definition ready st : Prop := filling q st0 st /\ no_err st = true /\ (size h0 < n + size (seen st))%nat.

Lemma ready_size st st' : (size h0 < n + size (seen st))%nat -> seen st ⊆ seen st' -> (size h0 < n + size (seen st'))%nat.
Proof. intros H Hs. apply map_subseteq_size in Hs. lia. Qed.

(** A nested walk from a state in which the copy at [q] holds [c]. *)
Definition nested v st c (out : Value * @CopyState X) : Prop :=
  let '(r, st') := out in
  filling q st0 st' /\ heap (c_host st') !! q = Some c /\ cell_ok m (heap (c_host st')) c /\ v_ok (heap (c_host st')) r /\
  seen st ⊆ seen st' /\ (if no_err st' then crosses false (seen st') v r /\ ready st' else blocked false v).

Lemma nested_copy v st c : ready st -> heap (c_host st) !! q = Some c -> v_ok h0 v -> wp deep (nested v st c) (copy v st).
Proof.
  intros (Hf & He & Hn) Hq Hv. eapply run_wp_mono; [apply Hcopy; [apply Hf|done..]|]. intros [r st1] Hp.
  destruct (filling_copy q st0 st v r st1 Hf He Hp) as (Hf1 & Hq1 & Hs1). apply Hq1 in Hq. cbn.
  split_and!; try done; [by eapply host_cell; [apply Hf1|]| |].
  - destruct Hp as (_ & _ & _ & _ & Hp). destruct (no_err st1) eqn:E; [|by destruct Hp as [-> _]]. by eapply filling_ok.
  - destruct Hp as (_ & _ & _ & _ & Hp). destruct (no_err st1) eqn:E; [|by destruct Hp as [_ Hp]]. split; [done|].
    split_and!; [done..|]. by eapply ready_size.
Qed.

Lemma ready_write st c c' : ready st -> heap (c_host st) !! q = Some c -> same_kind_cell c c' -> tag c = tag c' ->
  cell_ok m (heap (c_host st)) c' -> ready (write_copy q c' st) /\ heap (c_host (write_copy q c' st)) !! q = Some c'.
Proof.
  intros (Hf & He & Hn) Hq Hk Ht Hc. split; [split_and!; [by eapply filling_write|done..]|]. cbn. by rewrite lookup_insert_eq.
Qed.

(** ** Arrays *)

Definition elements_post st l acc st' : Prop :=
  filling q st0 st' /\ seen st ⊆ seen st' /\
  if no_err st' then exists ys, heap (c_host st') !! q = Some (CArr (acc ++ ys)) /\ Forall2 (crosses false (seen st')) l ys
  else exists v, v ∈ l /\ blocked false v.

Lemma fill_elements l acc st : ready st -> heap (c_host st) !! q = Some (CArr acc) -> Forall (v_ok h0) l ->
  wp deep (elements_post st l acc) (copy_elements copy q l acc st).
Proof.
  revert acc st. induction l as [|v l IH]; intros acc st Hr Hq Hl; cbn [copy_elements].
  { destruct Hr as (Hf & He & _). split_and!; [done..|]. rewrite He. exists []. rewrite app_nil_r. done. }
  apply Forall_cons in Hl as [Hv Hl]. apply run_wp_bind. eapply run_wp_mono; [by eapply nested_copy|]. intros [r st1] (Hf1 & Hq1 & Hc1 & Hr1 & Hs1 & He1).
  assert (cell_ok m (heap (c_host st1)) (CArr (acc ++ [r]))) as Hc2.
  { split; [|done]. cbn. apply Forall_app. split; [apply Hc1|]. by apply Forall_singleton. }
  change (no_err (write_copy q (CArr (acc ++ [r])) st1)) with (no_err st1). destruct (no_err st1) eqn:E.
  - destruct He1 as [Hx Hr1']. destruct (ready_write st1 _ (CArr (acc ++ [r])) Hr1' Hq1) as [Hr2 Hq2]; [done..|].
    eapply run_wp_mono; [by apply IH|]. intros st' (Hf' & Hs' & Hp). split_and!; [done|by etrans|].
    destruct (no_err st') eqn:E'; [|set_solver]. destruct Hp as (ys & Hy & H2). exists (r :: ys). rewrite <- app_assoc in Hy. split; [done|].
    constructor; [|done]. eapply crosses_mono; [|exact Hx]. exact Hs'.
  - cbn. split_and!; [by eapply filling_write|done|]. change (no_err (write_copy q (CArr (acc ++ [r])) st1)) with (no_err st1).
    rewrite E. set_solver.
Qed.

(** ** Maps *)

Definition entries_post st l acc st' : Prop :=
  filling q st0 st' /\ seen st ⊆ seen st' /\
  if no_err st' then exists ys, heap (c_host st') !! q = Some (CMap (acc ++ ys)) /\
    Forall2 (fun e f => crosses false (seen st') e.1 f.1 /\ crosses false (seen st') e.2 f.2) l ys
  else exists v, v ∈ cell_values (CMap l) /\ blocked false v.

Lemma fill_entries l acc st : ready st -> heap (c_host st) !! q = Some (CMap acc) -> Forall (v_ok h0) (cell_values (CMap l)) ->
  wp deep (entries_post st l acc) (copy_entries copy q l acc st).
Proof.
  revert acc st. induction l as [|[k v] l IH]; intros acc st Hr Hq Hl; cbn [copy_entries].
  { destruct Hr as (Hf & He & _). split_and!; [done..|]. rewrite He. exists []. rewrite app_nil_r. done. }
  apply entry_values in Hl as (Hk & Hv & Hl).
  apply run_wp_bind. eapply run_wp_mono; [by eapply nested_copy|]. intros [r st1] (Hf1 & Hq1 & Hc1 & Hr1 & Hs1 & He1).
  destruct (no_err st1) eqn:E1; [|cbn; split_and!; [done..|]; rewrite E1; exists k; split; [cbn; set_solver|done]].
  destruct He1 as [Hx1 Hr1'].
  apply run_wp_bind. eapply run_wp_mono; [by eapply nested_copy|]. intros [r2 st2] (Hf2 & Hq2 & Hc2 & Hr2 & Hs2 & He2).
  destruct (no_err st2) eqn:E2; [|cbn; split_and!; [done|by etrans|]; rewrite E2; exists v; split; [cbn; set_solver|done]].
  destruct He2 as [Hx2 Hr2']. assert (crosses false (seen st2) k r) as Hx1' by by eapply crosses_mono.
  assert (v_ok (heap (c_host st2)) r) as Hr1'' by (apply (filling_ok q st0 st2 k r); done).
  destruct (ready_write st2 _ (CMap (acc ++ [(r, r2)])) Hr2' Hq2) as [Hr3 Hq3]; [done..| |].
  { apply cell_ok_map, entries_app. split; [apply Hc2|]. by apply entry_values. }
  eapply run_wp_mono; [by apply IH|]. intros st' (Hf' & Hs' & Hp). split_and!; [done|by transitivity (seen st1); [|transitivity (seen st2)]|].
  destruct (no_err st') eqn:E'; [|destruct Hp as (w & Hw & ?); exists w; split; [cbn; set_solver|done]].
  destruct Hp as (ys & Hy & H2). exists ((r, r2) :: ys). rewrite <- app_assoc in Hy. split; [done|].
  constructor; [|done]. split; (eapply crosses_mono; [exact Hs'|done]).
Qed.

(** ** Fields and captured scopes *)

Definition pairs_cross σ (keep : str -> bool) (l : list (str * Value)) (acc fs : gmap str Value) : Prop :=
  (forall k v, (k, v) ∈ l -> keep k = true -> exists r, fs !! k = Some r /\ crosses false σ v r) /\
  (forall k, k ∉ l.*1 \/ keep k = false -> fs !! k = acc !! k).

Lemma pairs_nil σ keep acc : pairs_cross σ keep [] acc acc.
Proof. split; [intros k v Hk; by apply elem_of_nil in Hk|done]. Qed.
Lemma pairs_skip σ keep k v l acc fs : keep k = false -> pairs_cross σ keep l acc fs -> pairs_cross σ keep ((k, v) :: l) acc fs.
Proof.
  intros Hk [H1 H2]. split.
  - intros k' v' [[= -> ->]|Hin]%elem_of_cons Hk'; [congruence|by apply H1].
  - intros k' [Hn|Hn]; apply H2; [|by right]. left. cbn in Hn. set_solver.
Qed.
Lemma pairs_cons σ keep k v r l acc fs : k ∉ l.*1 -> keep k = true -> crosses false σ v r ->
  pairs_cross σ keep l (<[k := r]> acc) fs -> pairs_cross σ keep ((k, v) :: l) acc fs.
Proof.
  intros Hn Hk Hx [H1 H2]. split.
  - intros k' v' [[= -> ->]|Hin]%elem_of_cons Hk'; [|by apply H1]. exists r. split; [|done].
    rewrite (H2 k) by (by left). by rewrite lookup_insert_eq.
  - intros k' Hk'. assert (k' <> k) as Hne by (intros ->; destruct Hk' as [Hk'|?]; [cbn in Hk'; set_solver|congruence]).
    rewrite H2; [by rewrite lookup_insert_ne|]. destruct Hk' as [Hk'|?]; [left; cbn in Hk'; set_solver|by right].
Qed.
Lemma pairs_map σ (keep : str -> bool) (f g : gmap str Value) : pairs_cross σ keep (map_to_list f) ∅ g -> map_crosses σ keep f g.
Proof.
  intros [H1 H2] k. destruct (f !! k) as [v|] eqn:E.
  - destruct (keep k) eqn:Ek; [|rewrite H2 by (by right); done]. apply H1; [|done]. by apply elem_of_map_to_list.
  - rewrite H2; [done|]. left. intros ([k' v] & -> & Hk)%list_elem_of_fmap. apply elem_of_map_to_list in Hk. cbn in *. congruence.
Qed.

Definition fields_post st (cls : option Symbol) (l : list (str * Value)) (acc : gmap str Value) st' : Prop :=
  filling q st0 st' /\ seen st ⊆ seen st' /\
  if no_err st' then exists fs, heap (c_host st') !! q = Some (CObj (MkObject cls fs ∅)) /\ pairs_cross (seen st') (fun _ => true) l acc fs
  else exists v, v ∈ l.*2 /\ blocked false v.

Lemma fill_fields cls l acc st : ready st -> heap (c_host st) !! q = Some (CObj (MkObject cls acc ∅)) -> Forall (v_ok h0) l.*2 -> NoDup l.*1 ->
  wp deep (fields_post st cls l acc) (copy_fields copy q cls l acc st).
Proof.
  revert acc st. induction l as [|[k v] l IH]; intros acc st Hr Hq Hl Hnd; cbn [copy_fields].
  { destruct Hr as (Hf & He & _). split_and!; [done..|]. rewrite He. exists acc. split; [done|apply pairs_nil]. }
  cbn in Hl, Hnd. apply Forall_cons in Hl as [Hv Hl]. apply NoDup_cons in Hnd as [Hk Hnd].
  apply run_wp_bind. eapply run_wp_mono; [by eapply nested_copy|]. intros [r st1] (Hf1 & Hq1 & Hc1 & Hr1 & Hs1 & He1).
  set (c' := CObj (MkObject cls (<[k := r]> acc) ∅)).
  assert (cell_ok m (heap (c_host st1)) c') as Hc2.
  { destruct Hc1 as [Hc1 Hcls]. split; [|done]. cbn. rewrite Forall_forall. intros x [->|Hx]%env_insert; [done|].
    rewrite Forall_forall in Hc1. by apply Hc1. }
  change (no_err (write_copy q c' st1)) with (no_err st1). destruct (no_err st1) eqn:E.
  - destruct He1 as [Hx Hr1']. destruct (ready_write st1 _ c' Hr1' Hq1) as [Hr2 Hq2]; [done..|].
    eapply run_wp_mono; [by apply IH|]. intros st' (Hf' & Hs' & Hp). split_and!; [done|by etrans|].
    destruct (no_err st') eqn:E'; [|destruct Hp as (w & Hw & ?); exists w; split; [cbn; set_solver|done]].
    destruct Hp as (fs & Hfs & H2). exists fs. split; [done|].
    apply (pairs_cons _ _ _ _ r); [done|done| |done]. eapply crosses_mono; [|exact Hx]. exact Hs'.
  - cbn. split_and!; [by eapply filling_write|done|]. change (no_err (write_copy q c' st1)) with (no_err st1). rewrite E.
    exists v. split; [cbn; set_solver|done].
Qed.

Definition keeps (free : option (list str)) (k : str) : bool :=
  match free with Some names => existsb (eqs k) names | None => true end.
Definition scope_post st (mk : gmap str Value -> Closure) (free : option (list str)) (l : list (str * Value)) (acc : gmap str Value) (out : gmap str Value * @CopyState X) : Prop :=
  let '(fs, st') := out in
  filling q st0 st' /\ seen st ⊆ seen st' /\
  if no_err st' then ready st' /\ heap (c_host st') !! q = Some (CClos (mk fs)) /\ pairs_cross (seen st') (keeps free) l acc fs
  else exists v k, (k, v) ∈ l /\ keeps free k = true /\ blocked false v.

Section Scope.
Context (lam : option nat) (env : list (gmap str Value)) (cls : option Symbol) (free : option (list str)).
Let mk acc := MkClosure lam (env ++ [acc]) None cls.

Lemma cell_ok_scope (h : Heap) acc k r : cell_ok m h (CClos (mk acc)) -> v_ok h r ->
  (env = [] -> k = lit "@fn" -> is_fn m (v_i r) = true) -> cell_ok m h (CClos (mk (<[k := r]> acc))).
Proof.
  intros [Hc Hok] Hr Hfn. unfold mk in *. cbn [cell_values c_env c_thisObj] in *. rewrite app_nil_r in *. split.
  - rewrite Forall_forall in *. cbn [cell_values c_env c_thisObj]. rewrite app_nil_r. intros x. rewrite bind_app. cbn. rewrite app_nil_r.
    rewrite elem_of_app. rewrite bind_app in Hc. cbn in Hc. rewrite app_nil_r in Hc.
    intros [Hx|[->|Hx]%env_insert]; [|done|]; apply Hc; apply elem_of_app; auto.
  - unfold clos_ok in *. cbn [c_env] in *. destruct env as [|e es]; cbn in *; [|done]. intros v.
    destruct (decide (k = lit "@fn")) as [->|Hne]; [rewrite lookup_insert_eq; intros [= <-]; by apply Hfn|].
    rewrite lookup_insert_ne by done. apply Hok.
Qed.

Lemma fill_scope l acc st : ready st -> heap (c_host st) !! q = Some (CClos (mk acc)) -> Forall (v_ok h0) l.*2 -> NoDup l.*1 ->
  (env = [] -> forall v, (lit "@fn", v) ∈ l -> is_fn m (v_i v) = true) ->
  wp deep (scope_post st mk free l acc) (copy_scope copy q mk free l acc st).
Proof.
  revert acc st. induction l as [|[k v] l IH]; intros acc st Hr Hq Hl Hnd Hfn; cbn [copy_scope].
  { pose proof Hr as (Hf & He & _). cbn. split_and!; [done..|]. rewrite He. split_and!; [done..|apply pairs_nil]. }
  cbn in Hl, Hnd. apply Forall_cons in Hl as [Hv Hl]. apply NoDup_cons in Hnd as [Hk Hnd]. fold (keeps free k).
  assert (env = [] -> forall v, (lit "@fn", v) ∈ l -> is_fn m (v_i v) = true) as Hfn' by (intros; apply Hfn; [done|set_solver]).
  destruct (keeps free k) eqn:Ek.
  2: { eapply run_wp_mono; [by apply IH|]. intros [fs st'] (Hf' & Hs' & Hp). cbn. split_and!; [done..|].
       destruct (no_err st'); [destruct Hp as (? & ? & ?); split_and!; [done..|]; by apply pairs_skip|].
       destruct Hp as (w & k' & ? & ?). exists w, k'. split; [set_solver|done]. }
  apply run_wp_bind. eapply run_wp_mono; [by eapply nested_copy|]. intros [r st1] (Hf1 & Hq1 & Hc1 & Hr1 & Hs1 & He1).
  destruct (no_err st1) eqn:E1; [|cbn; split_and!; [done..|]; rewrite E1; exists v, k; split; [set_solver|done]].
  destruct He1 as [Hx Hr1']. destruct (ready_write st1 _ (CClos (mk (<[k := r]> acc))) Hr1' Hq1) as [Hr2 Hq2]; [by destruct env|done| |].
  { apply cell_ok_scope; [done..|]. intros Henv ->. rewrite (crosses_i (seen st1) v); [apply Hfn; [done|set_solver]|done|].
    intros p r' Hp. destruct (i_seen _ (l_inv _ _ _ Hf1) _ _ Hp) as (c & q' & _ & _ & _ & -> & _). eauto. }
  eapply run_wp_mono; [by apply IH|]. intros [fs st'] (Hf' & Hs' & Hp). cbn. split_and!; [done|by etrans|].
  destruct (no_err st'); [|destruct Hp as (w & k' & ? & ?); exists w, k'; split; [set_solver|done]].
  destruct Hp as (? & ? & ?). split_and!; [done..|]. apply (pairs_cons _ _ _ _ r); [done..| |done]. eapply crosses_mono; [|exact Hx]. exact Hs'.
Qed.
End Scope.

Definition env_post st (c : Closure) (l env : list (gmap str Value)) (out : list (gmap str Value) * @CopyState X) : Prop :=
  let '(env', st') := out in
  filling q st0 st' /\ seen st ⊆ seen st' /\
  if no_err st' then
    ready st' /\ heap (c_host st') !! q = Some (CClos (MkClosure (c_lambda c) env' None (c_thisClass c))) /\
    exists es, env' = env ++ es /\ Forall2 (map_crosses (seen st') (captured c)) l es
  else exists scope v k, scope ∈ l /\ scope !! k = Some v /\ captured c k = true /\ blocked false v.

Lemma cell_ok_new_scope (h : Heap) lam env cls : cell_ok m h (CClos (MkClosure lam env None cls)) ->
  cell_ok m h (CClos (MkClosure lam (env ++ [∅]) None cls)).
Proof.
  intros [Hc Hok]. cbn [cell_values c_env c_thisObj] in *. rewrite app_nil_r in Hc. split.
  - cbn [cell_values c_env c_thisObj]. rewrite app_nil_r, bind_app. cbn. unfold env_values. rewrite map_to_list_empty. cbn.
    by rewrite app_nil_r.
  - unfold clos_ok in *. cbn [c_env] in *. destruct env; [|done]. cbn. intros v. by rewrite lookup_empty.
Qed.

Lemma fill_env (c : Closure) l env st : ready st ->
  heap (c_host st) !! q = Some (CClos (MkClosure (c_lambda c) env None (c_thisClass c))) ->
  Forall (fun e => Forall (v_ok h0) (env_values e)) l ->
  (env = [] -> forall e l', l = e :: l' -> forall v, e !! lit "@fn" = Some v -> is_fn m (v_i v) = true) ->
  wp deep (env_post st c l env) (copy_env copy q c (option_map (fun l => lvCollectExprNames (lambdas l)) (c_lambda c)) l env st).
Proof.
  revert env st. induction l as [|e l IH]; intros env st Hr Hq Hl Hfn; cbn [copy_env].
  { pose proof Hr as (Hf & He & _). cbn. split_and!; [done..|]. rewrite He. split_and!; [done..|]. exists []. rewrite app_nil_r. done. }
  apply Forall_cons in Hl as [He Hl].
  assert (forall k, keeps (option_map (fun l => lvCollectExprNames (lambdas l)) (c_lambda c)) k = captured c k) as Hkeep.
  { intros k. unfold captured. by destruct (c_lambda c). }
  destruct (ready_write st _ (CClos (MkClosure (c_lambda c) (env ++ [∅]) None (c_thisClass c))) Hr Hq) as [Hr1 Hq1]; [by destruct env|done| |].
  { apply cell_ok_new_scope. eapply host_cell; [apply Hr|done]. }
  apply run_wp_bind. eapply run_wp_mono; [eapply (fill_scope _ env); [done|exact Hq1|exact He|apply NoDup_fst_map_to_list|]|].
  { intros Henv v Hv%elem_of_map_to_list. by eapply Hfn. }
  intros [fs st2] (Hf2 & Hs2 & Hp2). destruct (no_err st2) eqn:E2.
  2: { cbn. split_and!; [done..|]. rewrite E2. destruct Hp2 as (v & k & Hk & Hkk & Hb). apply elem_of_map_to_list in Hk.
       exists e, v, k. rewrite <- Hkeep. split; [set_solver|done]. }
  destruct Hp2 as (Hr2 & Hq2 & Hx). eapply run_wp_mono; [apply IH; [exact Hr2|exact Hq2|done|by destruct env]|].
  intros [env' st'] (Hf' & Hs' & Hp). cbn. split_and!; [done|by etrans|]. destruct (no_err st').
  - destruct Hp as (Hr' & Hq' & es & -> & Hes). split_and!; [done..|]. exists (fs :: es). rewrite <- app_assoc. split; [done|].
    constructor; [|done]. apply pairs_map in Hx. intros k. specialize (Hx k). rewrite Hkeep in Hx.
    destruct (e !! k); [|done]. destruct (captured c k); [|done]. destruct Hx as (r & ? & ?). exists r. split; [done|]. by eapply crosses_mono.
  - destruct Hp as (sc & v & k & ? & ?). exists sc, v, k. split; [set_solver|done].
Qed.
End Loops.

(** ** Starting and finishing a copy *)

Lemma seen_bound st : inv st -> (size (seen st) <= size h0)%nat.
Proof.
  intros Hi. rewrite <- !size_dom. apply subseteq_size. intros p Hp%elem_of_dom. destruct Hp as [r Hr].
  destruct (i_seen _ Hi _ _ Hr) as (c & _ & _ & Hc & _). apply elem_of_dom. by eexists.
Qed.

Record begun (p : loc) (c : Cell) st (q : loc) st1 : Prop := MkBegun {
  b_fill : filling q st1 st1;
  b_heap : heap (c_host st) ⊆ heap (c_host st1);
  b_new : heap (c_host st) !! q = None;
  b_seen : seen st1 = <[p := ref_of c q]> (seen st);
  b_err : c_err st1 = c_err st
}.

Lemma begin_fill st p c c1 : inv st -> seen st !! p = None -> h0 !! p = Some c -> (tag c < 4)%nat -> tag c1 = tag c ->
  cell_ok m (heap (c_host st)) c1 ->
  exists q st1, begin_copy mal p (ref_of c) c1 st = (q, st1) /\ begun p c st q st1 /\ heap (c_host st1) !! q = Some c1.
Proof.
  intros Hi Hp Hc Ht Ht1 Hok. destruct (host_new m mal (c_host st) vals c1 (i_host _ Hi) Hok) as (H1 & H2 & _ & H4).
  unfold begin_copy. destruct (host_alloc mal c1 (c_host st)) as [q hs] eqn:E. cbn in H1, H2, H4. eexists _, _. split; [done|].
  assert (heap (c_host st) ⊆ heap hs) as Hsub.
  { unfold host_alloc in E. injection E as <- <-. cbn. by apply insert_subseteq. }
  split; [|done]. split; try done; cbn. apply filling_refl; [|exists p, c; cbn; by rewrite lookup_insert_eq].
  pose proof (i_old _ Hi) as Hold. split; cbn; [done|by etrans|..].
  - intros p' r [[<- <-]|[_ Hp']]%lookup_insert_Some.
    + exists c, q, c1. split_and!; try done. apply eq_None_not_Some. intros [d Hd]. eapply lookup_weaken in Hd; [|exact Hold]. congruence.
    + destruct (i_seen _ Hi _ _ Hp') as (d & q' & d' & ? & ? & ? & ? & ?). exists d, q', d'. split_and!; try done; try naive_solver.
      by eapply lookup_weaken.
  - assert (forall p' d, seen st !! p' = Some (ref_of d q) -> (tag d < 4)%nat -> False) as Hfresh.
    { intros p' d Hp' Hd. destruct (i_seen _ Hi _ _ Hp') as (d2 & q' & d' & _ & _ & E2 & Hq' & _).
      apply ref_of_inj in E2; [|done]. subst. congruence. }
    intros p1 p2 r. rewrite !lookup_insert_Some. intros [[<- <-]|[_ H5]] [[<- E6]|[_ H6]]; try done.
    + by destruct (Hfresh _ _ H6 Ht).
    + subst. by destruct (Hfresh _ _ H5 Ht).
    + by eapply (i_inj _ Hi).
Qed.

Lemma finish st p c q st1 st2 : seen st !! p = None -> begun p c st q st1 -> filling q st1 st2 ->
  (no_err st2 = true -> complete (seen st2) (heap (c_host st2)) p (ref_of c q)) ->
  inv st2 /\ heap (c_host st) ⊆ heap (c_host st2) /\ seen st ⊆ seen st2 /\ done (seen st) st2 /\ seen st2 !! p = Some (ref_of c q).
Proof.
  intros Hp [Hf Hh Hn Hs He] [Hi Hs2 Hf2 Hd2 _] Hc.
  assert (seen st2 !! p = Some (ref_of c q)) as Hp2 by (eapply lookup_weaken; [|exact Hs2]; rewrite Hs; by rewrite lookup_insert_eq).
  split_and!; [done| | | |done].
  - apply map_subseteq_spec. intros q' d Hq'. apply Hf2; [congruence|]. by eapply lookup_weaken.
  - etrans; [|exact Hs2]. rewrite Hs. by apply insert_subseteq.
  - intros E p' r Hp' Hp0. destruct (decide (p' = p)) as [->|Hne].
    + assert (r = ref_of c q) as -> by congruence. by apply Hc.
    + apply Hd2; [done..|]. rewrite Hs. by rewrite lookup_insert_ne.
Qed.

(** ** The walk *)

Context (Hh0 : heap_ok m h0).

Lemma safe_verdict o : safe (fun _ => True) (verdict sema depth o).
Proof.
  unfold verdict. destruct (o_cls o) as [c|]; [|done]. apply safe_bind. eapply safe_mono; [apply safe_derived|]. intros [] _; [done|].
  apply safe_bind. eapply safe_mono; [apply safe_derived|]. intros [] _; [done|]. destruct (lvThreadNonTransferable _); [done|].
  unfold lvThreadIsDisposableStream. apply safe_bind, safe_bind. eapply safe_mono; [apply safe_derived|]. done.
Qed.
Lemma reject_text o e : verdict sema depth o = Go (Reject e) -> nonempty e = true.
Proof.
  unfold verdict. destruct (o_cls o) as [c|]; [|done].
  destruct (lvThreadIsPortal _ _ _) as [[]|]; try done. cbn [run_bind]. destruct (lvThreadIsPromiseDerived _ _ _) as [[]|]; try done; cbn [run_bind].
  - by intros [= <-].
  - destruct (lvThreadNonTransferable _); [by intros [= <-]|].
    destruct (lvThreadIsDisposableStream _ _ _ _) as [[]|]; try done. by intros [= <-].
Qed.

Lemma post_here root v st r : inv st -> no_err st = true -> crosses root (seen st) v r -> post root v st (r, st).
Proof. intros Hi He Hc. split_and!; [done..| |by rewrite He]. intros _ p r' H1 H2. congruence. Qed.
Lemma post_reject root v st e : inv st -> nonempty e = true -> bad root v -> wp deep (post root v st) (rejected e st).
Proof.
  intros [] He Hb. assert (no_err (MkCopy (seen st) e (c_host st)) = false) as E by (unfold no_err; cbn; by rewrite He).
  cbn. split_and!; [done|done|done| |]; [intros E'; congruence|]. rewrite E. split; [done|by apply blocked_here].
Qed.

Lemma finish_post root v st p c q st1 st2 : seen st !! p = None -> begun p c st q st1 -> filling q st1 st2 -> enters root v c ->
  (forall σ, σ !! p = Some (ref_of c q) -> crosses root σ v (ref_of c q)) ->
  (if no_err st2 then complete (seen st2) (heap (c_host st2)) p (ref_of c q) else exists w, w ∈ children c /\ blocked false w) ->
  wp deep (post root v st) (copied (ref_of c q) st2).
Proof.
  intros Hp Hb Hf He Hx Hc. destruct (finish st p c q st1 st2 Hp Hb Hf) as (H1 & H2 & H3 & H4 & H5).
  { intros E. by rewrite E in Hc. }
  cbn. split_and!; [done..|]. destruct (no_err st2); [by apply Hx|]. split; [done|]. destruct Hc as (w & Hw & ?). by eapply blocked_in.
Qed.

Lemma begun_ready n st p c q st1 : seen st !! p = None -> begun p c st q st1 -> no_err st = true -> (size h0 < S n + size (seen st))%nat ->
  ready n q st1 st1.
Proof.
  intros Hp [Hf Hh Hn Hs He] E Hsz. split_and!; [done|unfold no_err in *; by rewrite He|].
  rewrite Hs, map_size_insert_None by done. lia.
Qed.

Lemma old_cell st p c : inv st -> h0 !! p = Some c -> heap (c_host st) !! p = Some c.
Proof. intros Hi Hp. by eapply lookup_weaken; [|apply Hi]. Qed.

Section Step.
Context (n : nat) (IH : forall root v st, inv st -> no_err st = true -> v_ok h0 v -> (size h0 < n + size (seen st))%nat ->
  wp deep (post root v st) (lvThreadCopy mal sema depth lambdas n root v st)).
Context (st : @CopyState X) (Hi : inv st) (He : no_err st = true) (Hsz : (size h0 < S n + size (seen st))%nat).

Lemma copy_object root p : v_ok h0 (VObject (Some p)) ->
  wp deep (post root (VObject (Some p)) st) (lvThreadCopy mal sema depth lambdas (S n) root (VObject (Some p)) st).
Proof.
  intros Hv. cbn [lvThreadCopy]. rewrite He. cbn in Hv. unfold h_obj in Hv. destruct (h0 !! p) as [[o| | | | | |]|] eqn:Ep; try (by destruct Hv).
  unfold h_obj. rewrite (old_cell st p _ Hi Ep). cbn [from_option run_bind]. pose proof (safe_verdict o) as Hsv.
  destruct (verdict sema depth o) as [vd|e] eqn:Evd; [|split; [exact Hsv|eauto]]. cbn [run_bind]. destruct vd as [|e|].
  - apply post_here; [done..|]. exists o. auto.
  - apply post_reject; [done|by eapply reject_text|]. cbn. eauto.
  - destruct (seen st !! p) as [r|] eqn:Es; [apply post_here; [done..|]; exists o; auto|].
    destruct (begin_fill st p (CObj o) (CObj (MkObject (o_cls o) ∅ ∅)) Hi Es Ep) as (q & st1 & Eb & Hb & Hq); [cbn; lia|done| |].
    { split; [|exact (proj2 (Hh0 _ _ Ep))]. cbn. unfold env_values. rewrite map_to_list_empty. apply Forall_nil_2. }
    change (ref_of (CObj o)) with (fun q => VObject (Some q)) in Eb. rewrite Eb. apply run_wp_bind. eapply run_wp_mono.
    { apply (fill_fields _ n (IH false) q st1); [by eapply begun_ready|exact Hq|apply (Hh0 _ _ Ep)|apply NoDup_fst_map_to_list]. }
    intros st2 (Hf2 & _ & Hc2). apply (finish_post root _ st p (CObj o) q st1); try done.
    + by exists o.
    + intros σ Hσ. exists o. auto.
    + destruct (no_err st2).
      * destruct Hc2 as (fs & Hfs & Hx). exists (CObj o), q, (CObj (MkObject (o_cls o) fs ∅)). split_and!; try done. split_and!; [done| |done].
        by apply pairs_map.
      * destruct Hc2 as (w & Hw & Hbl). by exists w.
Qed.

Lemma copy_array root p : v_ok h0 (VArray (Some p)) ->
  wp deep (post root (VArray (Some p)) st) (lvThreadCopy mal sema depth lambdas (S n) root (VArray (Some p)) st).
Proof.
  intros Hv. cbn [lvThreadCopy]. rewrite He. cbn in Hv. unfold h_arr in Hv. destruct (h0 !! p) as [[|xs| | | | |]|] eqn:Ep; try (by destruct Hv).
  unfold h_arr. rewrite (old_cell st p _ Hi Ep). cbn [from_option run_bind].
  destruct (seen st !! p) as [r|] eqn:Es; [by apply post_here|].
  destruct (begin_fill st p (CArr xs) (CArr []) Hi Es Ep) as (q & st1 & Eb & Hb & Hq); [cbn; lia|done|by split; [apply Forall_nil_2|]|].
  change (ref_of (CArr xs)) with (fun q => VArray (Some q)) in Eb. rewrite Eb. apply run_wp_bind. eapply run_wp_mono.
  { apply (fill_elements _ n (IH false) q st1 xs []); [by eapply begun_ready|exact Hq|apply (Hh0 _ _ Ep)]. }
  intros st2 (Hf2 & _ & Hc2). apply (finish_post root _ st p (CArr xs) q st1); try done; [by exists xs|].
  destruct (no_err st2); [|done]. destruct Hc2 as (ys & Hys & Hx). by exists (CArr xs), q, (CArr ys).
Qed.

Lemma copy_map root p : v_ok h0 (VMap (Some p)) ->
  wp deep (post root (VMap (Some p)) st) (lvThreadCopy mal sema depth lambdas (S n) root (VMap (Some p)) st).
Proof.
  intros Hv. cbn [lvThreadCopy]. rewrite He. cbn in Hv. unfold h_map in Hv. destruct (h0 !! p) as [[| |es| | | |]|] eqn:Ep; try (by destruct Hv).
  unfold h_map. rewrite (old_cell st p _ Hi Ep). cbn [from_option run_bind].
  destruct (seen st !! p) as [r|] eqn:Es; [by apply post_here|].
  destruct (begin_fill st p (CMap es) (CMap []) Hi Es Ep) as (q & st1 & Eb & Hb & Hq); [cbn; lia|done|by split; [apply Forall_nil_2|]|].
  change (ref_of (CMap es)) with (fun q => VMap (Some q)) in Eb. rewrite Eb. apply run_wp_bind. eapply run_wp_mono.
  { apply (fill_entries _ n (IH false) q st1 es []); [by eapply begun_ready|exact Hq|apply (Hh0 _ _ Ep)]. }
  intros st2 (Hf2 & _ & Hc2). apply (finish_post root _ st p (CMap es) q st1); try done; [by exists es|].
  destruct (no_err st2); [|done]. destruct Hc2 as (ys & Hys & Hx). by exists (CMap es), q, (CMap ys).
Qed.

(** The closure at the root, with its environment copied and [this] next. *)
Lemma copy_this c q st1 st2 env p : seen st !! p = None -> h0 !! p = Some (CClos c) -> begun p (CClos c) st q st1 -> filling q st1 st2 ->
  ready n q st1 st2 -> heap (c_host st2) !! q = Some (CClos (MkClosure (c_lambda c) env None (c_thisClass c))) ->
  Forall2 (map_crosses (seen st2) (captured c)) (c_env c) env ->
  wp deep (post true (VClosure (Some p)) st)
    match c_thisObj c with
    | None => Go (VClosure (Some q), st2)
    | Some o =>
        let! (ct, st3) := lvThreadCopy mal sema depth lambdas n false (VObject (Some o)) st2 in
        if no_err st3 then
          let this := match ct with VObject r => r | _ => None end in
          Go (VClosure (Some q), write_copy q (CClos (MkClosure (c_lambda c) env this (c_thisClass c))) st3)
        else Go (VVoid, st3)
    end.
Proof.
  intros Hp Ep Hb Hf2 Hr2 Hq2 Hx. assert (enters true (VClosure (Some p)) (CClos c)) as Hent by (split; [done|by exists c]).
  assert (forall st3, filling q st1 st3 -> no_err st3 = true -> complete (seen st3) (heap (c_host st3)) p (VClosure (Some q)) ->
    post true (VClosure (Some p)) st (VClosure (Some q), st3)) as Hgood.
  { intros st3 Hf3 E3 Hc3. destruct (finish st p (CClos c) q st1 st3 Hp Hb Hf3) as (? & ? & ? & ? & ?); [done|]. split_and!; [done..|]. by rewrite E3. }
  destruct (c_thisObj c) as [o|] eqn:Eo.
  2: { apply Hgood; [done|apply Hr2|]. exists (CClos c), q, (CClos (MkClosure (c_lambda c) env None (c_thisClass c))). split_and!; try done.
       cbn. split_and!; try done. by rewrite Eo. }
  assert (v_ok h0 (VObject (Some o))) as Hvo.
  { destruct (Hh0 _ _ Ep) as [Hc _]. rewrite Forall_forall in Hc. apply Hc. cbn. rewrite Eo. set_solver. }
  apply run_wp_bind. eapply run_wp_mono; [by apply (nested_copy _ n (IH false) q st1)|]. intros [ct st3] (Hf3 & Hq3 & Hc3 & Hv3 & Hs3 & Hp3).
  destruct (no_err st3) eqn:E3.
  - destruct Hp3 as [Hct Hr3]. assert (exists r, ct = VObject r) as [r ->].
    { destruct Hct as (o' & Ho & [[_ ->]|[_ Hct]]); [by eexists|]. destruct (i_seen _ (l_inv _ _ _ Hf3) _ _ Hct) as (c' & q' & _ & Hc' & _ & -> & _).
      simplify_eq. by eexists. }
    set (c' := CClos (MkClosure (c_lambda c) env r (c_thisClass c))).
    assert (cell_ok m (heap (c_host st3)) c') as Hok.
    { destruct Hc3 as [Ha Hb3]. split; [|exact Hb3]. cbn in Ha |- *. rewrite app_nil_r in Ha. apply Forall_app. split; [done|].
      destruct r; [|apply Forall_nil_2]. by apply Forall_singleton. }
    destruct (ready_write n q st1 st3 _ c' Hr3 Hq3) as [Hr4 Hq4]; [intros H; exact H|done|done|]. apply Hgood; [apply Hr4|done|].
    exists (CClos c), q, c'. split_and!; try done. cbn. split_and!; try done; [|rewrite Eo; exact Hct].
    eapply Forall2_impl; [exact Hx|]. intros. by eapply map_crosses_mono.
  - destruct (finish st p (CClos c) q st1 st3 Hp Hb Hf3) as (? & ? & ? & ? & ?); [congruence|]. cbn. split_and!; [done..|]. rewrite E3. split; [done|].
    eapply blocked_in; [exact Hent| |exact Hp3]. cbn. rewrite Eo. set_solver.
Qed.

Lemma copy_closure root p : v_ok h0 (VClosure (Some p)) ->
  wp deep (post root (VClosure (Some p)) st) (lvThreadCopy mal sema depth lambdas (S n) root (VClosure (Some p)) st).
Proof.
  intros Hv. cbn [lvThreadCopy]. rewrite He. destruct root; [|by apply post_reject].
  cbn in Hv. unfold h_clos in Hv. destruct (h0 !! p) as [[| | |c| | |]|] eqn:Ep; try (by destruct Hv as (? & ? & _)).
  unfold h_clos. rewrite (old_cell st p _ Hi Ep). cbn [from_option run_bind].
  destruct (seen st !! p) as [r|] eqn:Es; [by apply post_here|]. destruct (Hh0 _ _ Ep) as [Hcells Hok].
  destruct (begin_fill st p (CClos c) (CClos (MkClosure (c_lambda c) [] None (c_thisClass c))) Hi Es Ep) as (q & st1 & Eb & Hb & Hq);
    [cbn; lia|done|by split; [apply Forall_nil_2|]|].
  change (ref_of (CClos c)) with (fun q => VClosure (Some q)) in Eb. rewrite Eb. apply run_wp_bind. eapply run_wp_mono.
  { apply (fill_env _ n (IH false) q st1 c (c_env c) []); [by eapply begun_ready|exact Hq| |].
    - rewrite Forall_forall. intros e Hin. rewrite Forall_forall in Hcells |- *. intros v Hvin. apply Hcells. cbn. apply elem_of_app. left.
      apply list_elem_of_bind. eauto.
    - intros _ e l' El v Hfn. unfold clos_ok in Hok. rewrite El in Hok. by apply Hok. }
  intros [env st2] (Hf2 & _ & Hc2). destruct (no_err st2) eqn:E2.
  - destruct Hc2 as (Hr2 & Hq2 & es & -> & Hx). cbn [app] in *. by apply (copy_this c q st1 st2 es p).
  - destruct (finish st p (CClos c) q st1 st2 Es Hb Hf2) as (? & ? & ? & ? & ?); [congruence|]. cbn. split_and!; [done..|]. rewrite E2. split; [done|].
    destruct Hc2 as (sc & v & k & Hsc & Hk & Hcap & Hbl). eapply (blocked_in true _ (CClos c) v); [split; [done|by exists c]| |done].
    cbn. apply elem_of_app. left. apply list_elem_of_bind. exists sc. split; [|done]. apply list_elem_of_fmap. exists (k, v). split; [done|].
    apply list_elem_of_filter. split; [done|]. by apply elem_of_map_to_list.
Qed.
End Step.

Lemma copy_ok n root v st : inv st -> no_err st = true -> v_ok h0 v -> (size h0 < n + size (seen st))%nat ->
  wp deep (post root v st) (lvThreadCopy mal sema depth lambdas n root v st).
Proof.
  revert root v st. induction n as [|n IH]; intros root v st Hi He Hv Hsz.
  { pose proof (seen_bound st Hi). lia. }
  destruct v as [| | | | |[p|]|[p|]|[p|]|[p|]| | | |].
  all: try (cbn [lvThreadCopy]; rewrite He; by apply post_here).
  - by apply copy_object.
  - by apply copy_closure.
  - by apply copy_array.
  - by apply copy_map.
  - cbn [lvThreadCopy]. rewrite He. by apply post_reject.
  - cbn [lvThreadCopy]. rewrite He. by apply post_reject.
Qed.

End Facts.

(** ** The transfer *)

Section Transfer.
Context {X : Type} (m : IrModule) (mal : gset Z -> nat -> Z) (sema : Sema) (depth : nat) (lambdas : nat -> Expr).
Implicit Types (h : Host X).

Definition first (args : list Value) : Value := match args with v :: _ => v | [] => VVoid end.

Lemma start_inv h vals : host_ok m h vals -> inv m (heap h) vals (MkCopy ∅ [] h).
Proof. intros H. by split. Qed.

(** What a transfer leaves: [σ] gives the copies of the cells it walked. *)
Definition transferred h v vals (out : Value) (err : str) h' : Prop :=
  host_ok m h' vals /\ heap h ⊆ heap h' /\
  if nonempty err then out = VVoid /\ blocked sema depth lambdas (heap h) true v
  else exists σ,
    crosses sema depth (heap h) true σ v out /\
    (forall p r, σ !! p = Some r -> complete sema depth lambdas (heap h) σ (heap h') p r) /\
    (forall p c q, σ !! p = Some (ref_of c q) -> heap h !! p = Some c -> (tag c < 4)%nat /\ heap h !! q = None) /\
    (forall p p' r, σ !! p = Some r -> σ !! p' = Some r -> p = p').

Lemma transfer_runs args h vals : host_ok m h (first args :: vals) ->
  wp (deep sema depth (heap h)) (fun o => exists out err h', o = Some (out, err, h') /\ transferred h (first args) (first args :: vals) out err h')
    (sysThreadTransfer mal sema depth lambdas args h).
Proof.
  intros H. unfold sysThreadTransfer. apply run_wp_bind.
  eapply run_wp_mono; [apply (copy_ok m mal sema depth lambdas (heap h) (first args :: vals)); [apply H|by apply start_inv|done| |]|].
  { eapply host_in; [exact H|set_solver]. }
  { cbn. lia. }
  intros [out st] (Hi & Hh & _ & Hd & Hr). cbn in *. eexists _, _, _. split; [done|]. split; [apply Hi|]. split; [done|].
  unfold no_err, done, no_err in *. destruct (nonempty (c_err st)); cbn in *; [done|]. exists (seen st). split; [done|].
  split; [intros p r Hp; by apply Hd|]. split; [|apply (i_inj _ _ _ _ Hi)].
  intros p c q Hp Hc. destruct (i_seen _ _ _ _ Hi _ _ Hp) as (c' & q' & ? & ? & ? & E & _ & _ & Ht). simplify_eq.
  apply ref_of_inj in E as ->; [|done]. done.
Qed.

(** The result refers to a cell of its kind. *)
Lemma transferred_ok h v vals out err h' : v_ok (heap h) v -> transferred h v vals out err h' -> v_ok (heap h') out.
Proof.
  intros Hv (_ & Hh & Hr). destruct (nonempty err); [by destruct Hr as [-> _]|]. destruct Hr as (σ & Hx & Hc & _).
  assert (kept (heap h) (heap h')) as Hk. { intros p c Hp. exists c. split; [by eapply lookup_weaken|apply same_kind_refl]. }
  assert (forall p, σ !! p = Some out -> (forall cl, heap h !! p = Some (CClos cl) -> c_env cl <> []) -> v_ok (heap h') out) as Hs.
  { intros p Hp Hcl. destruct (Hc _ _ Hp) as (c & q & c' & Hc1 & -> & Hq & Hx').
    destruct c as [| | |cl| | |], c'; cbn in *; try done; unfold h_obj, h_arr, h_map, h_clos; rewrite Hq; try (by eexists).
    exists c. split; [done|]. destruct Hx' as (_ & _ & He & _). intros E. rewrite E in He. apply Forall2_nil_inv_r in He. by eapply Hcl. }
  destruct v as [| | | | |[p|]|[p|]|[p|]|[p|]| | | |]; cbn in Hx, Hv; try (by subst); try done.
  - destruct Hx as (o & Ho & [[_ ->]|[_ Hp]]); [by eapply kept_v|]. eapply Hs; [done|]. intros. congruence.
  - destruct Hx as [_ Hp]. eapply Hs; [done|]. intros cl Hcl. unfold h_clos in Hv. rewrite Hcl in Hv. by destruct Hv as (? & [= <-] & ?).
  - eapply Hs; [done|]. intros cl Hcl. unfold h_arr in Hv. rewrite Hcl in Hv. by destruct Hv.
  - eapply Hs; [done|]. intros cl Hcl. unfold h_map in Hv. rewrite Hcl in Hv. by destruct Hv.
Qed.

Lemma safe_transfer args h vals : host_ok m h (args ++ vals) ->
  safe (native_result m vals) (sysThreadTransfer mal sema depth lambdas args h).
Proof.
  intros H. assert (host_ok m h (first args :: vals)) as Hf.
  { destruct args as [|v args]; [by apply host_cons|]. eapply host_sub; [exact H|]. set_solver. }
  pose proof (transfer_runs args h vals Hf) as Hr. destruct (sysThreadTransfer _ _ _ _ _ _) as [o|e]; [|apply Hr].
  destruct Hr as (out & err & h' & -> & Ht). cbn. apply host_cons.
  - eapply host_sub; [apply Ht|]. set_solver.
  - eapply transferred_ok; [|exact Ht]. eapply host_in; [exact Hf|set_solver].
Qed.

(** ** What the copy shares with the original *)

Section Shared.
Context (h : Host X) (σ : gmap loc Value) (h' : Heap).
Context (Hc : forall p r, σ !! p = Some r -> complete sema depth lambdas (heap h) σ h' p r).

Lemma map_crosses_values keep f g r : map_crosses sema depth (heap h) σ keep f g -> r ∈ env_values g ->
  exists v, crosses sema depth (heap h) false σ v r.
Proof.
  intros Hx ([k v] & -> & Hk%elem_of_map_to_list)%list_elem_of_fmap. cbn. specialize (Hx k). rewrite Hk in Hx.
  destruct (f !! k) as [u|]; [|done]. destruct (keep k); [|done]. destruct Hx as (r & [= <-] & Hx). eauto.
Qed.

Lemma cell_crosses_values c c' r : cell_crosses sema depth lambdas (heap h) σ c c' -> r ∈ cell_values c' ->
  exists v, crosses sema depth (heap h) false σ v r.
Proof.
  destruct c, c'; cbn; try done.
  - intros (_ & Hx & _) Hr. by eapply map_crosses_values.
  - intros Hx (i & Hi)%list_elem_of_lookup_1. destruct (Forall2_lookup_r _ _ _ _ _ Hx Hi) as (v & _ & ?). eauto.
  - intros Hx ([k v] & Hr & Hin)%list_elem_of_bind. apply list_elem_of_lookup_1 in Hin as [i Hi].
    destruct (Forall2_lookup_r _ _ _ _ _ Hx Hi) as (e & _ & ? & ?). set_solver.
  - intros (_ & _ & He & Ht) [Hr|Hr]%elem_of_app.
    + apply list_elem_of_bind in Hr as (e & Hr & Hin). apply list_elem_of_lookup_1 in Hin as [i Hi].
      destruct (Forall2_lookup_r _ _ _ _ _ He Hi) as (e0 & _ & Hx). by eapply map_crosses_values.
    + destruct (c_thisObj c0) as [p|]; [|by apply elem_of_nil in Hr]. apply list_elem_of_singleton in Hr as ->.
      destruct (c_thisObj c) as [o|]; [|done]. by exists (VObject (Some o)).
Qed.

(** A location is a copy, or is reached through a portal. *)
Definition copy_or_portal (p : loc) : Prop :=
  (exists p0 c, σ !! p0 = Some (ref_of c p) /\ heap h !! p0 = Some c) \/
  (exists p0 o, heap h !! p0 = Some (CObj o) /\ verdict sema depth o = Go Share /\ reachable [p0] h' p).

Lemma crosses_refs root v r p : crosses sema depth (heap h) root σ v r -> p ∈ refs r -> copy_or_portal p.
Proof.
  intros Hx Hp. assert (forall p0, σ !! p0 = Some r -> copy_or_portal p) as Hs.
  { intros p0 Hp0. destruct (Hc _ _ Hp0) as (c & q & c' & H1 & -> & _). left. exists p0, c. split; [|done].
    destruct c; cbn in Hp; try (by apply elem_of_nil in Hp); apply list_elem_of_singleton in Hp as ->; done. }
  destruct v as [| | | | |[q|]|[q|]|[q|]|[q|]| | | |]; cbn in Hx; try done; try (by subst; apply elem_of_nil in Hp); try (by eapply Hs).
  - destruct Hx as (o & Ho & [[Hv ->]|[_ Hq]]); [|by eapply Hs]. right. exists q, o. split_and!; try done.
    apply list_elem_of_singleton in Hp as ->. apply reach_root. set_solver.
  - by eapply Hs, Hx.
Qed.

Lemma reachable_copies root v r p : crosses sema depth (heap h) root σ v r -> reachable (refs r) h' p -> copy_or_portal p.
Proof.
  intros Hx Hr. induction Hr as [p Hp|p c q _ IH Hp Hq]; [by eapply crosses_refs|].
  destruct IH as [(p0 & c0 & H0 & Hc0)|(p0 & o & ? & ? & ?)].
  - destruct (Hc _ _ H0) as (c1 & q1 & c' & H1 & E & Hq1 & Hcx). assert (c1 = c0) as -> by congruence.
    destruct (decide (tag c0 < 4)%nat) as [Ht|Ht]; [|destruct c0, c'; cbn in *; try done; lia].
    assert (q1 = p) as -> by (symmetry; by apply (ref_of_inj c0 c0)). assert (c' = c) as -> by congruence.
    assert (exists r, r ∈ cell_values c /\ q ∈ refs r) as (r1 & Hr1 & Hqr).
    { destruct c; cbn [cell_refs] in Hq; try (by apply elem_of_vrefs in Hq). by destruct c0. }
    destruct (cell_crosses_values _ _ _ Hcx Hr1) as (v1 & Hv1). by eapply crosses_refs.
  - right. exists p0, o. split_and!; try done. by eapply reach_cell.
Qed.

(** Nothing in the way of a walk that succeeded. *)
Lemma map_crosses_keys (keep : str -> bool) f g k v : map_crosses sema depth (heap h) σ keep f g -> f !! k = Some v -> keep k = true ->
  exists r, crosses sema depth (heap h) false σ v r.
Proof. intros Hx Hk E. specialize (Hx k). rewrite Hk, E in Hx. destruct Hx as (r & _ & Hx). by exists r. Qed.

Lemma cell_crosses_children c c' v : cell_crosses sema depth lambdas (heap h) σ c c' -> v ∈ children lambdas c ->
  exists r, crosses sema depth (heap h) false σ v r.
Proof.
  destruct c, c'; cbn; try done.
  - intros (_ & Hx & _) ([k u] & -> & Hk%elem_of_map_to_list)%list_elem_of_fmap. by eapply map_crosses_keys.
  - intros Hx (i & Hi)%list_elem_of_lookup_1. destruct (Forall2_lookup_l _ _ _ _ _ Hx Hi) as (r & _ & ?). eauto.
  - intros Hx ([k u] & Hv & Hin)%list_elem_of_bind. apply list_elem_of_lookup_1 in Hin as [i Hi].
    destruct (Forall2_lookup_l _ _ _ _ _ Hx Hi) as ([k' u'] & _ & ? & ?). cbn in *. set_solver.
  - intros (_ & _ & He & Ht) [Hv|Hv]%elem_of_app.
    + apply list_elem_of_bind in Hv as (e & Hv & Hin). apply list_elem_of_lookup_1 in Hin as [i Hi].
      destruct (Forall2_lookup_l _ _ _ _ _ He Hi) as (e' & _ & Hx). apply list_elem_of_fmap in Hv as ([k u] & -> & Hv).
      apply list_elem_of_filter in Hv as [Hk Hv%elem_of_map_to_list]. by eapply map_crosses_keys.
    + destruct (c_thisObj c) as [o|]; [|by apply elem_of_nil in Hv]. apply list_elem_of_singleton in Hv as ->. eauto.
Qed.

Lemma crosses_free root v r : crosses sema depth (heap h) root σ v r -> ~ blocked sema depth lambdas (heap h) root v.
Proof.
  intros Hx Hb. revert r Hx. induction Hb as [root v Hb|root v c u He Hu Hb IH]; intros r Hx.
  - destruct v as [| | | | |[p|]|[p|]| | | | | |]; cbn in Hb, Hx; try done.
    + destruct Hb as (o & e & Ho & Hv). destruct Hx as (o' & Ho' & Hx). assert (o' = o) as -> by congruence. destruct Hx as [[]|[]]; congruence.
    + destruct Hx. congruence.
  - assert (exists p, σ !! p = Some r /\ heap h !! p = Some c) as (p & Hp & Hc').
    { destruct v as [| | | | |[p|]|[p|]|[p|]|[p|]| | | |]; cbn in He, Hx; try done; exists p.
      - destruct He as (o & -> & Ho & Hv). destruct Hx as (o' & Ho' & Hx). assert (o' = o) as -> by congruence. destruct Hx as [[]|[]]; [congruence|done].
      - destruct He as (_ & cl & -> & ?), Hx. done.
      - by destruct He as (xs & -> & ?).
      - by destruct He as (xs & -> & ?). }
    destruct (Hc _ _ Hp) as (c1 & q & c2 & H1 & _ & _ & Hcx). assert (c1 = c) as -> by congruence.
    destruct (cell_crosses_children _ _ _ Hcx Hu) as (r' & Hr'). by eapply IH.
Qed.
End Shared.
End Transfer.
