(* ===== verification/NativesSysSafe.v ===== *)
(** * The free natives keep the heap well formed

    The natives of [NativesSys.v], whatever the system answers, read nothing out
    of range and leave a well-formed host, provided a read never delivers more
    bytes than it was asked for.  With [NativesSafe.v] this makes the runtime's
    own natives a platform on which the theorems about the interpreter hold. *)

From S2P Require Import TaskSched.
From S2P Require Import Prelude Token Ast Utf8 Value RefHeap Ir RuntimeLoop RuntimeCore MemVerify IrInterp IrTyping IrSafe Natives NativesSafe ThreadCopy ThreadCopyFacts NativesSys.

Local Open Scope Z_scope.

(** What [read(2)], [recv(2)] promise: at most the bytes asked for. *)
Class OsOk {W : Type} (handle : forall A : Set, Sys A -> W -> A * W) : Prop := {
  read_short fd max w : 0 <= max -> size_of (snd (fst (handle _ (Read fd max) w))) <= max;
  recv_short fd max w : 0 <= max -> size_of (snd (fst (handle _ (Recv fd max) w))) <= max
}.

Section Safe.
Context {W : Type} (handle : forall A : Set, Sys A -> W -> A * W) `{HO : !OsOk handle}.
Context (m : IrModule) (mal : gset Z -> nat -> Z) (sema : Sema) (depth fuel : nat) (lambdas : nat -> Expr) (libm : Libm).
Implicit Types (h : Host (Ext W)) (vals : list Value).

Lemma host_ext h vals e : host_ok m h vals -> host_ok m (set_ext e h) vals.
Proof. done. Qed.
Lemma sys_ok {A : Set} (c : Sys A) h vals : host_ok m h vals -> host_ok m (snd (sys handle c h)) vals /\ heap (snd (sys handle c h)) = heap h.
Proof. intros H. unfold sys. by destruct (handle A c (os (ext h))) as [r o]. Qed.
Lemma run_ok {A : Set} (c : Sys A) h vals : host_ok m h vals -> host_ok m (run handle c h) vals.
Proof. intros H. by apply sys_ok. Qed.
Lemma close_ok fds h vals : host_ok m h vals -> host_ok m (close_all handle fds h) vals.
Proof. revert h. induction fds as [|fd fds IH]; intros h H; [done|]. by apply IH, run_ok. Qed.

Lemma host_same h h' vals : heap h' = heap h -> next_loc h' = next_loc h -> loop_ h' = loop_ h -> host_ok m h vals -> host_ok m h' vals.
Proof. unfold host_ok. by intros -> -> ->. Qed.

Lemma emit_ok fd d h vals : host_ok m h vals -> host_ok m (emit_fd handle fd d h) vals.
Proof.
  intros H. unfold emit_fd. destruct (_ || _); [|by apply run_ok]. unfold host_emit. by destruct (ttyRaw h).
Qed.

Lemma safe_or_else vals a b : safe (native_result m vals) a -> safe (native_result m vals) b ->
  safe (native_result m vals) (or_else (W := W) a b).
Proof. destruct a as [[[[? ?] ?]|]|]; done. Qed.

Lemma safe_new_array h vals vs : host_ok m h vals -> Forall (v_ok (heap h)) vs -> safe (native_result m vals) (new_array mal vs h).
Proof. intros H Hv. apply safe_ret_new; [done|done|intros; by eapply v_ok_arr]. Qed.
Lemma safe_scalars h vals (vs : list Value) : host_ok m h vals -> Forall (fun v => refs v = []) vs ->
  safe (native_result m vals) (new_array mal vs h).
Proof.
  intros H Hv. apply safe_new_array; [done|]. eapply Forall_impl; [exact Hv|].
  intros [| | | | |[?|]|[?|]|[?|]|[?|]| | |[?|]|[?|]]; done.
Qed.
End Safe.

Create HintDb native.
#[export] Hint Resolve run_ok close_ok emit_ok host_ext : native.

(** A system call in the goal, and the easy ends. *)
Ltac sys_step :=
  match goal with
  | Hh : host_ok ?m ?h ?vals |- safe _ (let '(_, _) := sys ?hd ?c ?h in _) =>
      let r := fresh "r" in let h' := fresh "h" in let E := fresh "Esys" in let Hok := fresh "Hok" in let Hhp := fresh "Hhp" in
      destruct (sys_ok hd m c h vals Hh) as [Hok Hhp]; destruct (sys hd c h) as [r h'] eqn:E; cbn [fst snd] in Hok, Hhp
  | |- safe _ (ret _ _) => apply safe_ret; [by eauto 8 with native|try done]
  | |- safe _ (fails _ _) => by apply safe_fails
  | |- safe _ unknown => apply safe_unknown
  | |- safe _ (run_bind (sized _) _) => apply safe_bind; eapply safe_mono; [apply safe_sized|]; intros _ _
  | |- safe _ (new_array _ _ _) => apply safe_scalars; [by eauto 8 with native|try (by repeat constructor)]
  | |- safe _ (if ?b then _ else _) => let E := fresh "E" in destruct b eqn:E
  | |- safe _ (let '(_, _) := (_, _) in _) => cbv beta iota
  | |- safe _ (let '(_, _) := (if ?b then _ else _) in _) => let E := fresh "E" in destruct b eqn:E
  | |- safe _ (match ?x with Some _ => _ | None => _ end) => destruct x
  | |- safe _ (match ?x with (_, _) => _ end) => destruct x
  end.
Ltac sys_steps := repeat sys_step.

Section Groups.
Context {W : Type} (handle : forall A : Set, Sys A -> W -> A * W) `{HO : !OsOk handle}.
Context (m : IrModule) (mal : gset Z -> nat -> Z) (sema : Sema) (depth fuel : nat) (lambdas : nat -> Expr) (libm : Libm).
Implicit Types (h : Host (Ext W)) (vals : list Value).

Lemma safe_block_arg args i h vals : host_ok m h vals -> args ⊆ vals -> safe (block_post h) (block_arg args i h).
Proof.
  intros H Ha. unfold block_arg. destruct (args !! i) as [v|] eqn:E; [|done]. eapply safe_block_at; [done|]. apply Ha.
  by eapply list_elem_of_lookup_2.
Qed.

Lemma safe_block_window bd q bytes off len h : block_post h (Some (bd, q, bytes)) ->
  safe (fun _ => True) (block_window bd bytes off len).
Proof.
  intros (_ & _ & (? & ? & ?) & _). unfold block_window. apply safe_bind. eapply safe_mono; [apply safe_window_oob|]. intros [] Hi.
  - apply safe_bind. eapply safe_mono; [apply safe_add64|done].
  - specialize (Hi eq_refl). apply safe_bind. eapply safe_mono; [apply safe_read; lia|done].
Qed.

Lemma safe_fill_block bd q bytes d h vals : host_ok m h vals -> block_post h (Some (bd, q, bytes)) -> size_of d <= b_len bd ->
  safe (fun h' => host_ok m h' vals) (fill_block bd q bytes d h).
Proof.
  intros H (_ & Hq & (? & ? & ?) & Hf) Hd. unfold fill_block. apply safe_bind. eapply safe_mono.
  { apply safe_write; [lia|]. unfold size_of in *. rewrite length_map. lia. }
  intros w [Hw1 Hw2]. eapply host_put; [done|exact Hq|by cbn|]. apply cell_ok_bytes. apply Hw2; [done|].
  rewrite Forall_map. apply Forall_true. intros c. apply code_range.
Qed.

Lemma safe_sysWrite args h vals : host_ok m h vals -> args ⊆ vals -> safe (native_result m vals) (sysWrite handle args h).
Proof.
  intros H Ha. unfold sysWrite. destruct (is_block args 1); [|sys_steps]. apply safe_bind.
  eapply safe_mono; [by eapply safe_block_arg|]. intros [[[bd q] bytes]|] Hb; [|sys_steps]. apply safe_bind.
  eapply safe_mono; [by eapply safe_block_window|]. intros [e|d] _; sys_steps.
Qed.

Lemma safe_read_line n fd line h vals : host_ok m h vals -> safe (fun r => host_ok m (snd r) vals) (read_line handle n fd line h).
Proof.
  revert line h. induction n as [|n IH]; intros line h H; cbn [read_line]; [by right; left|]. sys_step. destruct r as [r [|c d]]; [done|].
  destruct (_ && _); [by apply IH|done].
Qed.

Lemma clip_range max len : 0 <= len -> 0 <= clip max len <= len.
Proof. intros H. unfold clip. destruct (Z.ltb_spec max 0); [lia|]. destruct (Z.ltb_spec len max); lia. Qed.

Lemma read_data fd max h r h' : 0 <= max -> sys handle (Read fd max) h = (r, h') -> size_of (snd r) <= max.
Proof. intros Hm. unfold sys. pose proof (read_short fd max (os (ext h)) Hm) as Hr. destruct (handle _ _ _) as [x o]. by intros [= <- _]. Qed.
Lemma recv_data fd max h r h' : 0 <= max -> sys handle (Recv fd max) h = (r, h') -> size_of (snd r) <= max.
Proof. intros Hm. unfold sys. pose proof (recv_short fd max (os (ext h)) Hm) as Hr. destruct (handle _ _ _) as [x o]. by intros [= <- _]. Qed.

Lemma block_post_heap h h' b : heap h' = heap h -> block_post h b -> block_post h' b.
Proof. unfold block_post. by intros ->. Qed.

Lemma safe_sysRead args h vals : host_ok m h vals -> args ⊆ vals -> safe (native_result m vals) (sysRead handle args h).
Proof.
  intros H Ha. unfold sysRead. destruct (is_block args 1); [|sys_steps]. apply safe_bind.
  eapply safe_mono; [by eapply safe_block_arg|]. intros [[[bd q] bytes]|] Hb; [|sys_steps].
  pose proof (clip_range (arg_or args 2 0) (b_len bd)) as Hc. pose proof Hb as (_ & _ & (? & Hl & ?) & _). specialize (Hc Hl).
  sys_step; [|sys_steps]. sys_step. pose proof (read_data _ _ _ _ _ (proj1 Hc) Esys) as Hd. destruct r as [n d]. sys_step; [|sys_steps].
  cbn in Hd. apply safe_bind. eapply safe_mono; [apply (safe_fill_block _ _ _ _ _ vals); [done|by eapply block_post_heap|lia]|].
  intros h' Hh'. sys_steps.
Qed.

Lemma safe_clock c h vals : host_ok m h vals -> safe (native_result m vals) (clock_native handle c h).
Proof. intros H. unfold clock_native. sys_step. apply safe_bind. unfold millis. case_match; cbn; [|by left]. by apply host_cons. Qed.

Lemma safe_io name args h vals : host_ok m h vals -> args ⊆ vals -> safe (native_result m vals) (io_native handle mal fuel name args h).
Proof.
  intros H Ha. unfold io_native. repeat (sys_step; [|]). all: try (by sys_steps).
  - by apply safe_sysWrite.
  - unfold sysReadLine. sys_step; [sys_steps|]. apply safe_bind. eapply safe_mono; [by eapply safe_read_line|]. intros [line h'] Hh'. sys_steps.
  - unfold sysOpen. sys_steps.
  - by apply safe_clock.
  - by apply safe_clock.
  - apply safe_scalars; [done|]. rewrite Forall_map. by apply Forall_true.
  - by apply safe_sysRead.
Qed.

Lemma safe_thread name args h vals : host_ok m h (args ++ vals) ->
  safe (native_result m vals) (thread_native mal sema depth lambdas name args h).
Proof.
  intros H. assert (host_ok m h vals) as Hv by (eapply host_sub; [exact H|set_solver]). unfold thread_native. sys_steps.
  by apply safe_transfer.
Qed.

Lemma safe_math name args h vals : host_ok m h vals -> safe (native_result m vals) (math_native libm name args h).
Proof. intros H. unfold math_native. sys_steps. Qed.
Lemma safe_convert name args h vals : host_ok m h vals -> safe (native_result m vals) (convert_native name args h).
Proof. intros H. unfold convert_native. sys_steps. Qed.
Lemma safe_tls name h vals : host_ok m h vals -> safe (native_result m vals) (tls_native name h).
Proof. intros H. unfold tls_native. sys_steps. Qed.
Lemma safe_exit_code name args h vals : host_ok m h vals -> safe (native_result m vals) (exit_code_native name args h).
Proof. intros H. unfold exit_code_native. cbv zeta. do 2 (destruct (eqs _ _); [by apply safe_ret|]). done. Qed.

Lemma host_loop_ok h vals l : host_ok m h vals -> Forall (v_ok (heap h)) (loop_values l) -> host_ok m (host_loop l h) vals.
Proof. intros (H1 & H2 & H3) Hl. split_and!; try done. cbn. rewrite Forall_app in *. split; [done|apply H3]. Qed.
Lemma loop_values_ok h vals : host_ok m h vals -> Forall (v_ok (heap h)) (loop_values (loop_ h)).
Proof. intros (_ & _ & H). rewrite Forall_app in H. apply H. Qed.
Lemma arg_value_ok args i h vals : host_ok m h vals -> args ⊆ vals -> v_ok (heap h) (arg_value args i).
Proof.
  intros H Ha. unfold arg_value. destruct (args !! i) as [v|] eqn:E; [|done]. eapply host_in; [done|]. apply Ha. by eapply list_elem_of_lookup_2.
Qed.
Lemma erase_first_in {A} (key : A -> Z) i l x : x ∈ erase_first key i l -> x ∈ l.
Proof. induction l as [|y l IH]; [done|]. cbn. destruct (key y =? i); set_solver. Qed.

Lemma safe_loop name args h vals : host_ok m h vals -> args ⊆ vals -> safe (native_result m vals) (loop_native handle name args h).
Proof.
  intros H Ha. unfold loop_native. pose proof (loop_values_ok h vals H) as Hl. pose proof (arg_value_ok args) as Harg.
  assert (forall i h', host_ok m h' vals -> Forall (v_ok (heap h')) (loop_values (loop_ h')) /\ v_ok (heap h') (arg_value args i)) as Hh.
  { intros i h' H'. split; [by eapply loop_values_ok|by eapply arg_value_ok]. }
  unfold loop_values in *.
  sys_step; [|sys_step; [|sys_step; [|sys_step; [|sys_step; [|apply safe_unknown]]]]].
  - sys_step. apply safe_ret; [|done]. destruct (Hh 2%nat h0 Hok) as [Hl' Hv]. apply host_loop_ok; [done|].
    unfold loop_values. cbn. rewrite map_app. rewrite !Forall_app in *. split_and!; try naive_solver; by apply Forall_singleton.
  - apply safe_ret; [|done]. apply host_loop_ok; [done|]. unfold loop_values. cbn. rewrite !Forall_app, !Forall_map in *.
    split; [|apply Hl]. rewrite !Forall_forall in *. intros x Hx%erase_first_in. by apply Hl.
  - apply safe_ret; [|done]. destruct (Hh 1%nat h H) as [Hl' Hv]. apply host_loop_ok; [done|].
    unfold loop_values. cbn. rewrite map_app. rewrite !Forall_app in *. split_and!; try naive_solver; by apply Forall_singleton.
  - apply safe_ret; [|done]. destruct (Hh 1%nat h H) as [Hl' Hv]. apply host_loop_ok; [done|].
    unfold loop_values. cbn. rewrite map_app. rewrite !Forall_app in *. split_and!; try naive_solver; by apply Forall_singleton.
  - apply safe_ret; [|done]. apply host_loop_ok; [done|]. unfold loop_values. cbn. rewrite !Forall_app, !Forall_map in *.
    split; [apply Hl|]. rewrite !Forall_forall in *. intros x Hx%erase_first_in. by apply Hl.
Qed.

Lemma register_ok h vals : host_ok m h vals -> host_ok m (register_atexit handle h) vals.
Proof. intros H. unfold register_atexit. destruct (g_atexit _); [done|]. apply host_ext. by apply run_ok. Qed.
Lemma termRaw_ok fd h vals : host_ok m h vals -> host_ok m (snd (termRaw handle fd h)) vals.
Proof.
  intros H. unfold termRaw. destruct (ttyRaw h); [done|]. destruct (sys_ok handle m (Tcgetattr fd) h vals H) as [H1 _].
  destruct (sys handle _ h) as [t h1]. destruct t as [t|]; [|done]. cbn [snd] in H1.
  assert (host_ok m (register_atexit handle (set_saved t h1)) vals) as H2 by by apply register_ok.
  destruct (sys_ok handle m (Tcsetattr fd true (raw_mode t)) _ vals H2) as [H3 _]. destruct (sys handle _ _) as [r h3]. cbn [snd] in H3.
  destruct (r =? 0); [|done]. unfold termInstallSafety. cbn [snd]. by apply run_ok.
Qed.
Lemma termRestore_ok h vals : host_ok m h vals -> host_ok m (snd (termRestoreRc handle h)) vals.
Proof.
  intros H. unfold termRestoreRc. destruct (ttyRaw h); [|done].
  destruct (sys_ok handle m (Tcsetattr (g_ttyFd (ext h)) true (g_ttySaved (ext h))) h vals H) as [H1 _]. by destruct (sys handle _ h) as [t h1].
Qed.
Lemma safe_term name args h vals : host_ok m h vals -> safe (native_result m vals) (term_native handle name args h).
Proof.
  intros H. unfold term_native. repeat (sys_step; [|]). all: try (by sys_steps).
  - pose proof (termRaw_ok (int_of (argI args 0)) h vals H) as Hr. destruct (termRaw _ _ _). sys_steps.
  - pose proof (termRestore_ok h vals H) as Hr. destruct (termRestoreRc _ _). sys_steps.
Qed.

Lemma signalOpen_ok sigs h vals : host_ok m h vals -> host_ok m (snd (interpSignalOpen handle sigs h)) vals.
Proof.
  intros H. unfold interpSignalOpen. destruct sigs as [|s sigs]; [done|]. destruct (existsb _ _); [done|].
  match goal with |- context [sys _ (MaskSigs true ?k) h] => set (mask := k); destruct (sys_ok handle m (MaskSigs true mask) h vals H) as [H1 _] end.
  destruct (sys handle _ h) as [r h1]. cbn [snd] in H1. destruct (negb _); [done|].
  destruct (sys_ok handle m (SignalFd mask) h1 vals H1) as [H2 _]. destruct (sys handle _ h1) as [fd h2]. cbn [snd] in H2.
  destruct (fd <? 0); [|done]. cbn. by apply run_ok.
Qed.
Lemma signalClose_ok fd h vals : host_ok m h vals -> host_ok m (interpSignalClose handle fd h) vals.
Proof. intros H. unfold interpSignalClose. apply run_ok. destruct (take_sigfd _ _) as [[mask l]|]; [|done]. apply host_ext. by apply run_ok. Qed.

Lemma safe_signal name args h vals : host_ok m h vals -> args ⊆ vals -> safe (native_result m vals) (signal_native handle name args h).
Proof.
  intros H Ha. unfold signal_native, interpSignalNext. repeat (sys_step; [|]). all: try (by sys_steps).
  - apply safe_bind. apply (safe_mono (fun _ => True)).
    + destruct args as [|v args']; [done|]. eapply safe_mono; [eapply safe_elements; [done|set_solver]|done].
    + intros vs _. pose proof (signalOpen_ok (map v_i vs) h vals H) as Hr. destruct (interpSignalOpen _ _ _). sys_steps.
  - destruct (sys_ok handle m (ReadSignal (int_of (arg_or args 0 (-1)))) h vals H) as [Hok _]. destruct (sys handle _ h) as [r h1].
    by apply safe_ret.
  - apply safe_ret; [by apply signalClose_ok|done].
Qed.

Lemma fillSockAddr_ok host port h vals : host_ok m h vals -> host_ok m (snd (fillSockAddr handle host port h)) vals.
Proof.
  intros H. unfold fillSockAddr. match goal with |- context [sys _ ?c h] => destruct (sys_ok handle m c h vals H) as [H1 _] end.
  destruct (sys handle _ h) as [a h1]. cbn [snd] in H1. destruct a; [done|].
  match goal with |- context [sys _ ?c h1] => destruct (sys_ok handle m c h1 vals H1) as [H2 _] end. by destruct (sys handle _ h1).
Qed.
Lemma send_ok fd d h vals : host_ok m h vals -> host_ok m (snd (send_bytes handle fd d h)) vals.
Proof.
  intros H. unfold send_bytes. destruct (sys_ok handle m (Send fd d) h vals H) as [H1 _]. destruct (sys handle _ h) as [n h1]. cbn [snd] in H1.
  destruct (n =? _); [|done]. destruct (sys_ok handle m (Write fd d) h1 vals H1) as [H2 _]. by destruct (sys handle _ h1).
Qed.
Lemma recv_ok fd max h vals : host_ok m h vals -> 0 <= max ->
  let '(n, d, h') := recv_bytes handle fd max h in host_ok m h' vals /\ heap h' = heap h /\ size_of d <= max.
Proof.
  intros H Hm. unfold recv_bytes. destruct (sys_ok handle m (Recv fd max) h vals H) as [H1 E1].
  destruct (sys handle (Recv fd max) h) as [[n d] h1] eqn:Es. cbn [snd] in H1, E1. pose proof (recv_data _ _ _ _ _ Hm Es) as Hd. cbn in Hd.
  destruct (n =? _); [|done]. destruct (sys_ok handle m (Read fd max) h1 vals H1) as [H2 E2].
  destruct (sys handle (Read fd max) h1) as [[n' d'] h2] eqn:Es2. cbn [snd] in H2, E2. pose proof (read_data _ _ _ _ _ Hm Es2) as Hd2. cbn in Hd2.
  split_and!; try done. congruence.
Qed.

Lemma safe_sysSend args h vals : host_ok m h vals -> args ⊆ vals -> safe (native_result m vals) (sysSend handle args h).
Proof.
  intros H Ha. unfold sysSend.
  assert (forall fd d, safe (native_result m vals) (let '(n, h) := send_bytes handle fd d h in ret (VInt n) h)) as Hs.
  { intros fd d. pose proof (send_ok fd d h vals H) as Hr. destruct (send_bytes _ _ _ _). sys_steps. }
  destruct (is_block args 1); [|apply Hs]. apply safe_bind.
  eapply safe_mono; [by eapply safe_block_arg|]. intros [[[bd q] bytes]|] Hb; [|sys_steps]. apply safe_bind.
  eapply safe_mono; [by eapply safe_block_window|]. intros [e|d] _; [sys_steps|apply Hs].
Qed.

Lemma safe_sysRecv args h vals : host_ok m h vals -> args ⊆ vals -> safe (native_result m vals) (sysRecv handle args h).
Proof.
  intros H Ha. unfold sysRecv. destruct (is_block args 1).
  - apply safe_bind. eapply safe_mono; [by eapply safe_block_arg|]. intros [[[bd q] bytes]|] Hb; [|sys_steps].
    pose proof Hb as (_ & _ & (? & Hl & ?) & _). pose proof (clip_range (arg_or args 2 (b_len bd)) (b_len bd) Hl) as Hc.
    pose proof (recv_ok (int_of (arg_or args 0 (-1))) _ h vals H (proj1 Hc)) as Hr. cbv zeta.
    destruct (recv_bytes _ _ _ _) as [[n d] h1]. destruct Hr as (Hh1 & E1 & Hd). sys_steps.
    apply safe_bind. eapply safe_mono; [apply (safe_fill_block _ _ _ _ _ vals); [done|by eapply block_post_heap|lia]|].
    intros h' Hh'. sys_steps.
  - cbv zeta. assert (0 <= (if 0 <? arg_or args 1 4096 then arg_or args 1 4096 else 4096)) as Hm by (destruct (Z.ltb_spec 0 (arg_or args 1 4096)); lia).
    sys_step. pose proof (recv_ok (int_of (arg_or args 0 (-1))) _ h vals H Hm) as Hr. destruct (recv_bytes _ _ _ _) as [[n d] h1].
    destruct Hr as (Hh1 & E1 & Hd). sys_steps.
Qed.

Lemma safe_net name args h vals : host_ok m h vals -> args ⊆ vals -> safe (native_result m vals) (net_native handle name args h).
Proof.
  intros H Ha. unfold net_native. repeat (sys_step; [|]). all: try (by sys_steps).
  - unfold sysTcpConnect. pose proof (fillSockAddr_ok (argS args 0) (argI args 1) h vals H) as Hr. destruct (fillSockAddr _ _ _ _) as [a h1].
    cbn [snd] in Hr. sys_steps.
  - unfold sysTcpConnectNb. pose proof (fillSockAddr_ok (argS args 0) (argI args 1) h vals H) as Hr. destruct (fillSockAddr _ _ _ _) as [a h1].
    cbn [snd] in Hr. destruct a as [a|]; [|sys_steps]. sys_step. sys_step; [sys_steps|]. cbv zeta.
    pose proof (run_ok handle m (NonBlock r) h0 vals Hok) as Hn. sys_steps.
  - unfold sysTcpListen. cbv zeta. sys_step. sys_step; [sys_steps|]. pose proof (run_ok handle m (ReuseAddr r) h0 vals Hok) as Hn. sys_steps.
  - unfold sysSocketBuffer. cbv zeta. sys_steps.
  - by apply safe_sysSend.
  - by apply safe_sysRecv.
Qed.

Lemma get_random_ok n want buf h vals : host_ok m h vals -> safe (fun r => host_ok m (snd r) vals) (get_random handle n want buf h).
Proof.
  revert buf h. induction n as [|n IH]; intros buf h H; cbn [get_random]; destruct (size_of buf <? want); try done; [by right; left|].
  sys_step. destruct r as [r d]. destruct (r <? 0); [destruct (r =? _); [by apply IH|done]|by apply IH].
Qed.
Lemma safe_fs name args h vals : host_ok m h vals -> safe (native_result m vals) (fs_native handle mal fuel name args h).
Proof.
  intros H. unfold fs_native. repeat (sys_step; [|]). all: try (by sys_steps).
  - unfold sysRandom. cbv zeta. sys_step; [sys_steps|]. sys_step; [sys_steps|]. apply safe_bind. eapply safe_mono; [by eapply get_random_ok|].
    intros [r h'] Hh'. cbn in Hh'. destruct r; sys_steps.
  - sys_step. apply safe_ret; [done|]. by destruct r.
  - unfold sysRemove. cbv zeta. sys_steps.
  - unfold sysListDir. sys_step. destruct r; [|sys_steps]. apply safe_scalars; [done|]. rewrite Forall_map. by apply Forall_true.
  - unfold sysResolve. sys_step. destruct r as [[|[[? ip] ?] ?]|]; sys_steps.
Qed.

Lemma safe_argv path args h vals : host_ok m h vals -> args ⊆ vals -> safe (fun _ => True) (argv_of path args h).
Proof.
  intros H Ha. unfold argv_of. apply safe_bind. destruct (args !! 1%nat) as [v|] eqn:E; [|done].
  eapply safe_mono; [eapply safe_elements; [done|apply Ha; by eapply list_elem_of_lookup_2]|done].
Qed.
Lemma sigpipe_ok h vals : host_ok m h vals -> host_ok m (ignore_sigpipe handle h) vals /\ host_ok m (ignore_sigpipe2 handle h) vals.
Proof.
  intros H. unfold ignore_sigpipe, ignore_sigpipe2. split.
  - destruct (sigpipeIgnored _); [done|]. exact (run_ok handle m (IgnoreSig SIGPIPE) h vals H).
  - destruct (sigpipeIgnored2 _); [done|]. exact (run_ok handle m (IgnoreSig SIGPIPE) h vals H).
Qed.

Lemma safe_sysSpawn args h vals : host_ok m h vals -> args ⊆ vals -> safe (native_result m vals) (sysSpawn handle mal args h).
Proof.
  intros H Ha. unfold sysSpawn. cbv zeta. destruct (argS args 0) as [|c p] eqn:Ep; [sys_steps|]. rewrite <- Ep.
  destruct (sigpipe_ok h vals H) as [H1 _].
  apply safe_bind. eapply safe_mono; [by eapply safe_argv|]. intros argv _.
  sys_step. destruct r as [[inR inW]|]; [|sys_steps]. sys_step. destruct r as [[outR outW]|]; [|sys_steps].
  sys_step. destruct r as [[errR errW]|]; [|sys_steps]. sys_step. sys_step; [sys_steps|]. cbn [fold_left]. sys_steps.
Qed.

Lemma pty_name_ok fd h vals : host_ok m h vals -> host_ok m (snd (pty_name handle fd h)) vals.
Proof.
  intros H. unfold pty_name. destruct (sys_ok handle m (GrantPt fd) h vals H) as [H1 _]. destruct (sys handle _ h) as [r1 h1]. cbn [snd] in H1.
  destruct (negb _); [done|]. destruct (sys_ok handle m (UnlockPt fd) h1 vals H1) as [H2 _]. destruct (sys handle _ h1) as [r2 h2]. cbn [snd] in H2.
  destruct (negb _); [done|]. by apply sys_ok.
Qed.
Lemma pty_setup_ok fd fl r c h vals : host_ok m h vals -> host_ok m (snd (pty_setup handle fd fl r c h)) vals.
Proof.
  intros H. unfold pty_setup. match goal with |- context [sys _ ?c h] => destruct (sys_ok handle m c h vals H) as [H1 _] end.
  destruct (sys handle _ h) as [r1 h1]. cbn [snd] in H1. destruct (negb _); [done|].
  match goal with |- context [sys _ ?c h1] => destruct (sys_ok handle m c h1 vals H1) as [H2 _] end. by destruct (sys handle _ h1).
Qed.

Lemma safe_sysPtySpawn args h vals : host_ok m h vals -> args ⊆ vals -> safe (native_result m vals) (sysPtySpawn handle mal args h).
Proof.
  intros H Ha. unfold sysPtySpawn. cbv zeta. sys_step; [sys_steps|]. destruct (sigpipe_ok h vals H) as [_ H1].
  apply safe_bind. eapply safe_mono; [by eapply safe_argv|]. intros argv _. sys_step. sys_step; [sys_steps|].
  pose proof (pty_name_ok r h0 vals Hok) as Hn. destruct (pty_name _ _ _) as [name h2]. cbn [snd] in Hn. destruct name as [name|]; [|sys_steps].
  sys_step. sys_step; [sys_steps|]. pose proof (pty_setup_ok r0 (argI args 4) (argI args 2) (argI args 3) h1 vals Hok0) as Hs.
  destruct (pty_setup _ _ _ _ _ _) as [ok h3]. cbn [snd] in Hs. sys_steps.
Qed.

Lemma safe_process name args h vals : host_ok m h vals -> args ⊆ vals -> safe (native_result m vals) (process_native handle mal name args h).
Proof.
  intros H Ha. unfold process_native. repeat (sys_step; [|]). all: try (by sys_steps).
  - by apply safe_sysSpawn.
  - unfold sysReap. cbv zeta. sys_steps.
  - unfold sysKill. cbv zeta. sys_steps.
  - by apply safe_sysPtySpawn.
  - unfold sysPtyResize. cbv zeta. sys_steps.
Qed.

(** [nativeFreeCall] as a whole. *)
Lemma safe_native_free_call name args h vals : host_ok m h (args ++ vals) ->
  safe (native_result m vals) (native_free_call handle mal sema depth fuel lambdas libm name args h).
Proof.
  intros H. unfold native_free_call, free_groups. cbn [fold_right].
  assert (args ⊆ args ++ vals) as Ha by set_solver.
  assert (forall r, safe (native_result (X := Ext W) m (args ++ vals)) r -> safe (native_result m vals) r) as Hw.
  { intros r Hr. eapply safe_mono; [exact Hr|]. intros [[[out e] h']|] Hx; [|done]. eapply host_sub; [exact Hx|]. set_solver. }
  apply safe_or_else; [by apply safe_thread|]. apply Hw.
  repeat (apply safe_or_else; [first [by apply safe_math|by apply safe_convert|by apply safe_io|by apply safe_loop|by apply safe_term|
    by apply safe_signal|by apply safe_exit_code|by apply safe_net|by apply safe_tls|by apply safe_fs|by apply safe_process]|]).
  apply safe_unknown.
Qed.

End Groups.

(** ** The platform *)

Section Platform.
Context {W : Type} (handle : forall A : Set, Sys A -> W -> A * W).
Context (mal : gset Z -> nat -> Z) (sema : Sema) (depth fuel : nat) (lambdas : nat -> Expr) (libm : Libm).
Context (poll_ : W -> LoopEnv * W) (nan : Z) (tasks : bool).

(** The natives of the runtime, with the system behind them. *)
Definition native_platform : Platform (Ext W) :=
  MkPlatform (Ext W) (native_call mal nan (f_pow libm) depth) (native_free_call handle mal sema depth fuel lambdas libm) mal
    (fun h => let '(e, w) := poll_ (os (ext h)) in (e, set_ext (set_os w (ext h)) h)) nan tasks.

#[export] Instance native_platform_ok `{!OsOk handle} m : PlatformOk m native_platform.
Proof.
  split; cbn.
  - intros. by apply safe_native_call.
  - intros. by apply safe_native_free_call.
  - intros h vals H. destruct (poll_ _) as [e w]. done.
Qed.
End Platform.
