(* ===== verification/NativesFds.v ===== *)
(** * Descriptors and signals

    No native leaks a descriptor: against any system whose calls change the table
    of open descriptors as documented ([FdLaws]), a free native leaves open what
    was open, and every descriptor it opens and does not close again is in its
    result: the error paths of connecting, listening and spawning close what they
    opened.  The second part is on signals as descriptors. *)

From S2P Require Import TaskSched.
From S2P Require Import Prelude Token Ast Utf8 Value RefHeap Ir RuntimeLoop RuntimeCore MemVerify IrInterp Natives ThreadCopy NativesSys.
Local Open Scope Z_scope.

(** How a call changes the table of open descriptors. *)
Definition opens (r : Z) (s s' : gset Z) : Prop := if r <? 0 then s' = s else (r ∉ s) /\ s' = {[r]} ∪ s.
Definition fd_step {A : Set} (c : Sys A) : A -> gset Z -> gset Z -> Prop :=
  match c in Sys A return A -> gset Z -> gset Z -> Prop with
  | Open _ _ | Socket _ | Accept _ | SignalFd _ | PidfdOpen _ | OpenPt | OpenPts _ => opens
  | Close fd => fun _ s s' => s' = s ∖ {[fd]}
  | Pipe2 => fun r s s' => match r with Some (a, b) => (a ∉ s) /\ (b ∉ s) /\ a <> b /\ s' = {[a; b]} ∪ s | None => s' = s end
  | _ => fun _ s s' => s' = s
  end.
Class FdLaws {W : Type} (handle : forall A : Set, Sys A -> W -> A * W) (fds : W -> gset Z) : Prop :=
  fd_law (A : Set) (c : Sys A) w : fd_step c (fst (handle A c w)) (fds w) (fds (snd (handle A c w))).

(** What holds of a native's result, if it returns one. *)
Definition gives {X} (Q : Value -> Host X -> Prop) (r : NativeRun X) : Prop :=
  match r with Go (Some (out, _, h)) => Q out h | _ => True end.

Section Tidy.
Context {W : Type} (fds : W -> gset Z) (mal : gset Z -> nat -> Z).
Implicit Types (h : Host (Ext W)).

Definition fds_of h : gset Z := fds (os (ext h)).
(** The numbers in a result: an integer, or the integers of a new array. *)
Definition handed h (out : Value) : gset Z :=
  match out with
  | VInt i => {[i]}
  | VArray (Some p) => match heap h !! p with Some (CArr vs) => list_to_set (map v_i vs) | _ => ∅ end
  | _ => ∅
  end.
Definition tidy h (out : Value) h' : Prop := fds_of h ⊆ fds_of h' /\ fds_of h' ⊆ fds_of h ∪ handed h' out.

Lemma gives_same h out h' : fds_of h' = fds_of h -> gives (tidy h) (Go (Some (out, [], h'))).
Proof. intros E. cbn. unfold tidy. rewrite E. set_solver. Qed.
Lemma gives_ret h out h' : fds_of h' = fds_of h -> gives (tidy h) (ret out h').
Proof. apply gives_same. Qed.
Lemma gives_fails h e h' : fds_of h' = fds_of h -> gives (tidy h) (fails e h').
Proof. intros E. cbn. unfold tidy. rewrite E. set_solver. Qed.
Lemma gives_new h (v : loc -> Value) c h' : fds_of h' = fds_of h -> gives (tidy h) (ret_new mal v c h').
Proof. intros E. cbn. unfold tidy. change (fds_of h' = fds_of h) in E. unfold fds_of in *. cbn. rewrite E. set_solver. Qed.
(** A descriptor handed out. *)
Lemma gives_fd h fd h' : fds_of h' = {[fd]} ∪ fds_of h -> gives (tidy h) (ret (VInt fd) h').
Proof. intros E. cbn. unfold tidy. rewrite E. cbn. set_solver. Qed.
Lemma gives_array h (ns : list Z) h' (s : gset Z) : fds_of h' = s ∪ fds_of h -> s ⊆ list_to_set ns ->
  gives (tidy h) (new_array mal (map VInt ns) h').
Proof.
  intros E Hs. assert (map v_i (map VInt ns) = ns) as Hn by (rewrite map_map; apply map_id).
  cbn. unfold tidy, fds_of in *. cbn. rewrite lookup_insert_eq, Hn, E. set_solver.
Qed.
Lemma gives_bind {A} h (r : Run A) k : (forall a, gives (tidy h) (k a)) -> gives (tidy h) (run_bind r k).
Proof. intros H. destruct r as [a|]; cbn; [apply H|done]. Qed.
Lemma gives_or h (a b : NativeRun (Ext W)) : gives (tidy h) a -> gives (tidy h) b -> gives (tidy h) (or_else a b).
Proof. destruct a as [[[[? ?] ?]|]|]; cbn; auto. Qed.
End Tidy.

Section Fds.
Context {W : Type} (handle : forall A : Set, Sys A -> W -> A * W) (fds : W -> gset Z) `{HF : !FdLaws handle fds}.
Implicit Types (h : Host (Ext W)).
Local Abbreviation fds_of := (fds_of fds).

Lemma sys_fds {A : Set} (c : Sys A) h : fd_step c (fst (sys handle c h)) (fds_of h) (fds_of (snd (sys handle c h))).
Proof. unfold sys, fds_of. pose proof (fd_law A c (os (ext h))) as H. by destruct (handle A c (os (ext h))). Qed.
Lemma run_fds {A : Set} (c : Sys A) h : exists r, fd_step c r (fds_of h) (fds_of (run handle c h)).
Proof. eexists. apply sys_fds. Qed.
Lemma close_fds fd h : fds_of (run handle (Close fd) h) = fds_of h ∖ {[fd]}.
Proof. apply (sys_fds (Close fd)). Qed.
Lemma nonblock_fds fd h : fds_of (run handle (NonBlock fd) h) = fds_of h.
Proof. apply (sys_fds (NonBlock fd)). Qed.

End Fds.

(** Calls that open nothing; the simple ends. *)
Ltac fd_step_ :=
  match goal with
  | |- gives _ (let '(_, _) := sys ?hd ?c ?h in _) =>
      let r := fresh "r" in let h' := fresh "h" in let E := fresh "Efd" in
      match goal with HF : FdLaws hd ?fs |- _ => pose proof (sys_fds hd fs c h) as E end;
      destruct (sys hd c h) as [r h']; cbn [fst snd fd_step] in E
  | |- gives _ (run_bind _ _) => apply gives_bind; intros ?
  | |- gives _ (ret _ _) => apply gives_ret; congruence
  | |- gives _ (fails _ _) => apply gives_fails; congruence
  | |- gives _ (new_array _ _ _) => apply gives_new; congruence
  | |- gives _ (ret_new _ _ _ _) => apply gives_new; congruence
  | |- gives _ unknown => exact Logic.I
  | |- gives _ (if ?b then _ else _) => let E := fresh "E" in destruct b eqn:E
  | |- gives _ (let '(_, _) := (_, _) in _) => cbv beta iota
  | |- gives _ (let '(_, _) := (if ?b then _ else _) in _) => let E := fresh "E" in destruct b eqn:E
  | |- gives _ (match ?x with Some _ => _ | None => _ end) => destruct x
  | |- gives _ (match ?x with inl _ => _ | inr _ => _ end) => destruct x
  | |- gives _ (match ?x with (_, _) => _ end) => destruct x
  | |- gives _ (match ?x with [] => _ | _ :: _ => _ end) => destruct x
  end.
Ltac fd_steps := repeat fd_step_.

(** The walk that copies a value leaves everything but the heap alone. *)
Section Walk.
Context {X : Type} (mal : gset Z -> nat -> Z) (sema : Sema) (depth : nat) (lambdas : nat -> Expr) (e : X).
Implicit Types (st : @CopyState X).

Definition at_ext st : Prop := ext (c_host st) = e.
Definition keeps_ext {A} (r : Run (A * @CopyState X)) : Prop := match r with Go (_, st) => at_ext st | Stop _ => True end.
Definition ends_ext (r : Run (@CopyState X)) : Prop := match r with Go st => at_ext st | Stop _ => True end.

Lemma ext_bind {A B} (r : Run (A * @CopyState X)) (k : A * @CopyState X -> Run (B * @CopyState X)) :
  keeps_ext r -> (forall a st, at_ext st -> keeps_ext (k (a, st))) -> keeps_ext (run_bind r k).
Proof. destruct r as [[a st]|]; cbn; auto. Qed.
Lemma ext_bind_end {A} (r : Run (A * @CopyState X)) (k : A * @CopyState X -> Run (@CopyState X)) :
  keeps_ext r -> (forall a st, at_ext st -> ends_ext (k (a, st))) -> ends_ext (run_bind r k).
Proof. destruct r as [[a st]|]; cbn; auto. Qed.
Lemma ext_ends_bind {B} (r : Run (@CopyState X)) (k : @CopyState X -> Run (B * @CopyState X)) :
  ends_ext r -> (forall st, at_ext st -> keeps_ext (k st)) -> keeps_ext (run_bind r k).
Proof. destruct r as [st|]; cbn; auto. Qed.
Lemma ext_read {A B} (r : Run A) (k : A -> Run (B * @CopyState X)) : (forall a, keeps_ext (k a)) -> keeps_ext (run_bind r k).
Proof. intros H. destruct r; cbn; [apply H|done]. Qed.

Section Loops.
Context (copy : Value -> @CopyState X -> Run (Value * @CopyState X)) (Hcopy : forall v st, at_ext st -> keeps_ext (copy v st)).

Lemma ext_fields q cls l acc st : at_ext st -> ends_ext (copy_fields copy q cls l acc st).
Proof.
  revert acc st. induction l as [|[k v] l IH]; intros acc st H; [done|]. cbn [copy_fields]. apply ext_bind_end; [by apply Hcopy|].
  intros r st1 H1. destruct (no_err _); [by apply IH|done].
Qed.
Lemma ext_elements q l acc st : at_ext st -> ends_ext (copy_elements copy q l acc st).
Proof.
  revert acc st. induction l as [|v l IH]; intros acc st H; [done|]. cbn [copy_elements]. apply ext_bind_end; [by apply Hcopy|].
  intros r st1 H1. destruct (no_err _); [by apply IH|done].
Qed.
Lemma ext_entries q l acc st : at_ext st -> ends_ext (copy_entries copy q l acc st).
Proof.
  revert acc st. induction l as [|[k v] l IH]; intros acc st H; [done|]. cbn [copy_entries]. apply ext_bind_end; [by apply Hcopy|].
  intros r st1 H1. destruct (no_err st1); [|done]. apply ext_bind_end; [by apply Hcopy|]. intros r2 st2 H2. destruct (no_err st2); [by apply IH|done].
Qed.
Lemma ext_scope q mk free l acc st : at_ext st -> keeps_ext (copy_scope copy q mk free l acc st).
Proof.
  revert acc st. induction l as [|[k v] l IH]; intros acc st H; [done|]. cbn [copy_scope].
  destruct (match free with Some _ => _ | None => _ end); [|by apply IH]. apply ext_bind; [by apply Hcopy|].
  intros r st1 H1. destruct (no_err st1); [by apply IH|done].
Qed.
Lemma ext_env q c free l env st : at_ext st -> keeps_ext (copy_env copy q c free l env st).
Proof.
  revert env st. induction l as [|sc l IH]; intros env st H; [done|]. cbn [copy_env]. apply ext_bind; [by apply ext_scope|].
  intros acc st1 H1. destruct (no_err st1); [by apply IH|done].
Qed.
End Loops.

Lemma ext_copy n root v st : at_ext st -> keeps_ext (lvThreadCopy mal sema depth lambdas n root v st).
Proof.
  revert root v st. induction n as [|n IH]; intros root v st H; cbn [lvThreadCopy]; destruct (no_err st); try done.
  destruct v as [| | | | |[p|]|[p|]|[p|]|[p|]| | | |]; try done.
  - apply ext_read. intros o. apply ext_read. intros [| |]; try done. destruct (seen st !! p); [done|].
    apply ext_ends_bind; [by apply ext_fields; [apply IH|]|]. done.
  - destruct root; [|done]. apply ext_read. intros c. destruct (seen st !! p); [done|].
    apply ext_bind; [by apply ext_env; [apply IH|]|]. intros env st1 H1. destruct (no_err st1); [|done]. destruct (c_thisObj c); [|done].
    apply ext_bind; [by apply IH|]. intros ct st2 H2. by destruct (no_err st2).
  - apply ext_read. intros xs. destruct (seen st !! p); [done|]. apply ext_ends_bind; [by apply ext_elements; [apply IH|]|]. done.
  - apply ext_read. intros xs. destruct (seen st !! p); [done|]. apply ext_ends_bind; [by apply ext_entries; [apply IH|]|]. done.
Qed.
End Walk.

Section Natives.
Context {W : Type} (handle : forall A : Set, Sys A -> W -> A * W) (fds : W -> gset Z) `{HF : !FdLaws handle fds}.
Context (mal : gset Z -> nat -> Z) (sema : Sema) (depth fuel : nat) (lambdas : nat -> Expr) (libm : Libm).
Implicit Types (h : Host (Ext W)).
Local Abbreviation F := (fds_of fds).

Lemma opened fd s s' : opens fd s s' -> (fd <? 0) = false -> (fd ∉ s) /\ s' = {[fd]} ∪ s.
Proof. unfold opens. intros H E. by rewrite E in H. Qed.
Lemma not_opened fd s s' : opens fd s s' -> (fd <? 0) = true -> s' = s.
Proof. unfold opens. intros H E. by rewrite E in H. Qed.

Lemma emit_fds fd d h : F (emit_fd handle fd d h) = F h.
Proof.
  unfold emit_fd. destruct (_ || _); [|apply (sys_fds handle fds (Write (int_of fd) d))].
  unfold host_emit, fds_of. by destruct (ttyRaw h).
Qed.

(** ** Connecting and listening *)

Lemma fillSockAddr_fds host port h : F (snd (fillSockAddr handle host port h)) = F h.
Proof.
  unfold fillSockAddr. match goal with |- context [sys _ ?c h] => pose proof (sys_fds handle fds c h) as E1 end.
  destruct (sys handle _ h) as [a h1]. cbn in E1. destruct a; [done|].
  match goal with |- context [sys _ ?c h1] => pose proof (sys_fds handle fds c h1) as E2 end.
  destruct (sys handle _ h1) as [l h2]. cbn in *. congruence.
Qed.

(** The socket is closed again. *)
Lemma closed_again h h1 fd : (fd ∉ F h) -> F h1 = {[fd]} ∪ F h -> F (run handle (Close fd) h1) = F h.
Proof. intros Hn E. rewrite (close_fds handle fds), E. set_solver. Qed.

Lemma connect_fds args h : gives (tidy fds h) (sysTcpConnect handle args h).
Proof.
  unfold sysTcpConnect. pose proof (fillSockAddr_fds (argS args 0) (argI args 1) h) as E0.
  destruct (fillSockAddr _ _ _ _) as [a h1]. cbn in E0. destruct a as [a|]; [|fd_steps]. fd_step_. destruct (r <? 0) eqn:Er.
  - apply gives_ret. apply not_opened in Efd; congruence.
  - apply opened in Efd as [Hn E1]; [|done]. rewrite E0 in Hn, E1. fd_step_. destruct (r0 <? 0).
    + apply gives_ret. apply closed_again; congruence.
    + apply gives_fd. rewrite (nonblock_fds handle fds). congruence.
Qed.

Lemma connect_nb_fds args h : gives (tidy fds h) (sysTcpConnectNb handle args h).
Proof.
  unfold sysTcpConnectNb. pose proof (fillSockAddr_fds (argS args 0) (argI args 1) h) as E0.
  destruct (fillSockAddr _ _ _ _) as [a h1]. cbn in E0. destruct a as [a|]; [|fd_steps]. fd_step_. destruct (r <? 0) eqn:Er.
  - apply gives_ret. apply not_opened in Efd; congruence.
  - apply opened in Efd as [Hn E1]; [|done]. rewrite E0 in Hn, E1. cbv zeta.
    pose proof (nonblock_fds handle fds r h0) as E2. fd_step_. destruct (_ && _).
    + apply gives_ret. apply closed_again; congruence.
    + apply gives_fd. congruence.
Qed.

Lemma listen_fds args h : gives (tidy fds h) (sysTcpListen handle args h).
Proof.
  unfold sysTcpListen. cbv zeta. fd_step_. destruct (r <? 0) eqn:Er.
  - apply gives_ret. by apply not_opened in Efd.
  - apply opened in Efd as [Hn E1]; [|done]. pose proof (sys_fds handle fds (ReuseAddr r) h0) as E2. cbn in E2.
    change (snd (sys handle (ReuseAddr r) h0)) with (run handle (ReuseAddr r) h0) in E2. set (h1 := run handle (ReuseAddr r) h0) in *.
    set (x := if negb (argI args 1 =? 0) then _ else _).
    assert (F (snd x) = F h1) as E3 by (unfold x; destruct (negb _); [apply (sys_fds handle fds (ReusePort r))|done]).
    destruct x as [r1 h2]. cbn in E3. destruct (negb _); [apply gives_ret, closed_again; congruence|]. fd_step_.
    set (y := if r0 <? 0 then _ else _).
    assert (F (snd y) = F h3) as E4 by (unfold y; destruct (r0 <? 0); [done|apply (sys_fds handle fds (Listen r 16))]).
    destruct y as [r2 h4]. cbn in E4. destruct (r2 <? 0); [apply gives_ret, closed_again; congruence|].
    apply gives_fd. rewrite (nonblock_fds handle fds). congruence.
Qed.

(** ** Spawning *)

Lemma sigpipe_fds h : F (ignore_sigpipe handle h) = F h /\ F (ignore_sigpipe2 handle h) = F h.
Proof.
  unfold ignore_sigpipe, ignore_sigpipe2. pose proof (sys_fds handle fds (IgnoreSig SIGPIPE) h) as E. cbn in E.
  split; [destruct (sigpipeIgnored (ext h))|destruct (sigpipeIgnored2 (ext h))]; try done; exact E.
Qed.

Lemma spawn_fds args h : gives (tidy fds h) (sysSpawn handle mal args h).
Proof.
  unfold sysSpawn. cbv zeta. destruct (argS args 0) as [|c p]; [fd_steps|]. destruct (sigpipe_fds h) as [E0 _].
  set (h1 := ignore_sigpipe handle h) in *. clearbody h1. fd_step_. fd_step_. destruct r as [[inR inW]|]; [|fd_steps].
  destruct Efd as (Ha & Hb & Hab & E1). fd_step_. destruct r as [[outR outW]|].
  2: { apply gives_new. cbn. rewrite !(close_fds handle fds), Efd, E1. set_solver. }
  destruct Efd as (Hc & Hd & Hcd & E2). fd_step_. destruct r as [[errR errW]|].
  2: { apply gives_new. cbn. rewrite !(close_fds handle fds), Efd, E2, E1. set_solver. }
  destruct Efd as (He & Hf & Hef & E3). fd_step_. destruct (r <? 0).
  - apply gives_new. cbn. rewrite !(close_fds handle fds), Efd, E3, E2, E1. set_solver.
  - cbn [fold_left close_all]. change [VInt r; VInt inW; VInt outR; VInt errR] with (map VInt [r; inW; outR; errR]).
    apply (gives_array fds mal h [r; inW; outR; errR] _ {[inW; outR; errR]}); [|set_solver].
    rewrite !(nonblock_fds handle fds), !(close_fds handle fds), Efd, E3, E2, E1, E0 in *. set_solver.
Qed.

Lemma pty_name_fds fd h : F (snd (pty_name handle fd h)) = F h.
Proof.
  unfold pty_name. pose proof (sys_fds handle fds (GrantPt fd) h) as E1. destruct (sys handle _ h) as [r1 h1]. cbn in E1.
  destruct (negb _); [done|]. pose proof (sys_fds handle fds (UnlockPt fd) h1) as E2. destruct (sys handle _ h1) as [r2 h2]. cbn in E2.
  destruct (negb _); [cbn; congruence|]. pose proof (sys_fds handle fds (PtsName fd) h2) as E3. cbn in E3. congruence.
Qed.
Lemma pty_setup_fds fd fl r c h : F (snd (pty_setup handle fd fl r c h)) = F h.
Proof.
  unfold pty_setup. match goal with |- context [sys _ ?c h] => pose proof (sys_fds handle fds c h) as E1 end.
  destruct (sys handle _ h) as [r1 h1]. cbn in E1. destruct (negb _); [done|].
  match goal with |- context [sys _ ?c h1] => pose proof (sys_fds handle fds c h1) as E2 end. destruct (sys handle _ h1). cbn in *. congruence.
Qed.

Lemma pty_fds args h : gives (tidy fds h) (sysPtySpawn handle mal args h).
Proof.
  unfold sysPtySpawn. cbv zeta. fd_step_; [fd_steps|]. destruct (sigpipe_fds h) as [_ E0].
  set (h1 := ignore_sigpipe2 handle h) in *. clearbody h1. fd_step_. fd_step_. destruct (r <? 0) eqn:Er.
  { apply gives_new. apply not_opened in Efd; congruence. }
  apply opened in Efd as [Hn E1]; [|done]. rewrite E0 in Hn, E1. pose proof (pty_name_fds r h0) as E2. destruct (pty_name _ _ _) as [name h2]. cbn in E2.
  destruct name as [name|]; [|apply gives_new, closed_again; congruence]. fd_step_. destruct (r0 <? 0) eqn:Er0.
  { apply gives_new, closed_again; [done|]. apply not_opened in Efd; congruence. }
  apply opened in Efd as [Hn2 E3]; [|done]. pose proof (pty_setup_fds r0 (argI args 4) (argI args 2) (argI args 3) h3) as E4.
  destruct (pty_setup _ _ _ _ _ _) as [ok h4]. cbn in E4. destruct ok; cbn [negb].
  2: { apply gives_new. cbn. rewrite !(close_fds handle fds), E4, E3, E2, E1. set_solver. }
  fd_step_. destruct (r1 <? 0).
  - apply gives_new. cbn. rewrite !(close_fds handle fds), Efd, E4, E3, E2, E1. set_solver.
  - change [VInt r1; VInt r] with (map VInt [r1; r]). apply (gives_array fds mal h [r1; r] _ {[r]}); [|set_solver].
    rewrite (nonblock_fds handle fds), (close_fds handle fds), Efd, E4, E3, E2, E1 in *. set_solver.
Qed.

(** ** The other groups *)

Lemma fd_result h r h' : opens r (F h) (F h') -> gives (tidy fds h) (ret (VInt (minus1 r)) h').
Proof.
  unfold opens, minus1. destruct (r <? 0); [intros E; by apply gives_ret|]. intros [_ E]. by apply gives_fd.
Qed.

Lemma thread_fds name args h : gives (tidy fds h) (thread_native mal sema depth lambdas name args h).
Proof.
  unfold thread_native. fd_steps. unfold sysThreadTransfer.
  pose proof (ext_copy mal sema depth lambdas (ext h) (S (S (size (heap h)))) true (match args with v :: _ => v | [] => VVoid end)
    (MkCopy ∅ [] h) eq_refl) as Ex.
  destruct (lvThreadCopy _ _ _ _ _ _ _ _) as [[out st]|]; [|done]. cbn in Ex |- *. unfold tidy, fds_of. rewrite Ex. set_solver.
Qed.
Lemma math_fds name args h : gives (tidy fds h) (math_native libm name args h).
Proof. unfold math_native. cbv zeta. fd_steps. Qed.
Lemma convert_fds name args h : gives (tidy fds h) (convert_native name args h).
Proof. unfold convert_native. cbv zeta. fd_steps. Qed.
Lemma tls_fds name h : gives (tidy fds h) (tls_native name h).
Proof. unfold tls_native. fd_steps. Qed.
Lemma exit_fds name args h : gives (tidy fds h) (exit_code_native name args h).
Proof. unfold exit_code_native. cbv zeta. do 2 (destruct (eqs _ _); [by apply gives_ret|]). done. Qed.
Lemma loop_fds name args h : gives (tidy fds h) (loop_native handle name args h).
Proof. unfold loop_native. destruct (eqs name _); [fd_step_; by apply gives_ret|]. do 4 (destruct (eqs name _); [by apply gives_ret|]). done. Qed.

Lemma fill_fds bd q bytes d h : match fill_block bd q bytes d h with Go h' => F h' = F h | Stop _ => True end.
Proof. unfold fill_block. by destruct (write_bytes _ _ _). Qed.

Lemma io_fds name args h : eqs name (lit "sysClose") = false -> gives (tidy fds h) (io_native handle mal fuel name args h).
Proof.
  intros Hn. unfold io_native. rewrite Hn. clear Hn.
  destruct (eqs name _).
  { unfold sysWrite. cbv zeta. destruct (is_block args 1); [|apply gives_ret, emit_fds]. fd_step_. destruct a as [[[bd q] bytes]|]; [|fd_steps].
    fd_step_. destruct a; [fd_steps|]. apply gives_ret, emit_fds. }
  destruct (eqs name _).
  { unfold sysReadLine. cbv zeta. fd_step_; [fd_steps|].
    assert (forall n fd line h1, match read_line handle n fd line h1 with Go (_, h') => F h' = F h1 | Stop _ => True end) as Hr.
    { induction n as [|n IH]; intros fd line h1; cbn [read_line]; [done|]. pose proof (sys_fds handle fds (Read fd 1) h1) as E1.
      destruct (sys handle _ h1) as [[r d] h2]. cbn in E1. destruct d as [|c d]; [done|]. destruct (_ && _); [|done].
      specialize (IH fd (line ++ [c]) h2). destruct (read_line _ _ _ _ _) as [[? ?]|]; [congruence|done]. }
    specialize (Hr fuel (int_of (argI args 0)) [] h). destruct (read_line _ _ _ _ _) as [[line h']|]; [|done]. by apply gives_ret. }
  destruct (eqs name _). { unfold sysOpen. fd_step_. by apply fd_result. }
  destruct (eqs name _). { unfold clock_native. fd_steps. }
  destruct (eqs name _). { unfold clock_native. fd_steps. }
  destruct (eqs name _). { fd_steps. }
  destruct (eqs name _). { fd_steps. }
  destruct (eqs name _); [|done]. unfold sysRead. cbv zeta. destruct (is_block args 1); [|fd_steps].
  fd_step_. destruct a as [[[bd q] bytes]|]; [|fd_steps]. fd_step_; [|fd_steps]. fd_step_. destruct r as [n d]. fd_step_; [|fd_steps].
  pose proof (fill_fds bd q bytes d h0) as E1. destruct (fill_block _ _ _ _ _); [|done]. apply gives_ret. congruence.
Qed.

Lemma term_fds name args h : gives (tidy fds h) (term_native handle name args h).
Proof.
  unfold term_native. destruct (eqs name _).
  { unfold termRaw. destruct (ttyRaw h); [by apply gives_ret|]. pose proof (sys_fds handle fds (Tcgetattr (int_of (argI args 0))) h) as E1.
    destruct (sys handle _ h) as [t h1]. cbn in E1. destruct t as [t|]; [|by apply gives_ret].
    assert (F (register_atexit handle (set_saved t h1)) = F h1) as E2.
    { unfold register_atexit. cbn. destruct (g_atexit _); [done|]. exact (sys_fds handle fds AtExit (set_saved t h1)). }
    match goal with |- context [sys _ ?c ?x] => pose proof (sys_fds handle fds c x) as E3; destruct (sys handle c x) as [r h3] end. cbn in E3.
    destruct (r =? 0); [|apply gives_ret; congruence]. apply gives_ret. unfold termInstallSafety.
    match goal with |- F (run _ ?c ?x) = _ => pose proof (sys_fds handle fds c x) as E4; cbn in E4; change (fds_of fds (run handle c x) = fds_of fds h) end.
    unfold run. rewrite E4. unfold fds_of in *. cbn in *. congruence. }
  destruct (eqs name _).
  { unfold termRestoreRc. destruct (ttyRaw h); [|by apply gives_ret].
    match goal with |- context [sys _ ?c h] => pose proof (sys_fds handle fds c h) as E1; destruct (sys handle c h) as [r h1] end. by apply gives_ret. }
  fd_steps.
Qed.

Lemma signal_fds name args h : eqs name (lit "sysSignalClose") = false -> gives (tidy fds h) (signal_native handle name args h).
Proof.
  intros Hn. unfold signal_native. rewrite Hn. clear Hn. destruct (eqs name _).
  { fd_step_. unfold interpSignalOpen. destruct (map v_i a) as [|s sigs]; [by apply gives_ret|]. destruct (existsb _ _); [by apply gives_ret|].
    match goal with |- context [sys _ ?c h] => pose proof (sys_fds handle fds c h) as E1; destruct (sys handle c h) as [r h1] end. cbn in E1.
    destruct (negb _); [by apply gives_ret|].
    match goal with |- context [sys _ ?c h1] => pose proof (sys_fds handle fds c h1) as E2; destruct (sys handle c h1) as [fd h2] end. cbn in E2.
    destruct (fd <? 0) eqn:Efd.
    - apply not_opened in E2; [|done]. apply gives_ret.
      transitivity (F h2); [|congruence]. exact (sys_fds handle fds (MaskSigs false _) h2).
    - apply opened in E2 as [_ E2]; [|done]. apply gives_fd. change (F h2 = {[fd]} ∪ F h). congruence. }
  destruct (eqs name _); [|done]. unfold interpSignalNext.
  match goal with |- context [sys _ ?c h] => pose proof (sys_fds handle fds c h) as E1; destruct (sys handle c h) as [r h1] end. by apply gives_ret.
Qed.

Lemma recv_fds fd max h : let '(_, _, h') := recv_bytes handle fd max h in F h' = F h.
Proof.
  unfold recv_bytes. pose proof (sys_fds handle fds (Recv fd max) h) as E1. destruct (sys handle _ h) as [[n d] h1]. cbn in E1.
  destruct (n =? _); [|done]. pose proof (sys_fds handle fds (Read fd max) h1) as E2. destruct (sys handle _ h1) as [[n' d'] h2]. cbn in E2. congruence.
Qed.
Lemma send_fds fd d h : F (snd (send_bytes handle fd d h)) = F h.
Proof.
  unfold send_bytes. pose proof (sys_fds handle fds (Send fd d) h) as E1. destruct (sys handle _ h) as [n h1]. cbn in E1.
  destruct (n =? _); [|done]. pose proof (sys_fds handle fds (Write fd d) h1) as E2. destruct (sys handle _ h1) as [n' h2]. cbn in *. congruence.
Qed.

Lemma net_fds name args h : gives (tidy fds h) (net_native handle name args h).
Proof.
  unfold net_native. destruct (eqs name _); [apply connect_fds|]. destruct (eqs name _); [apply connect_nb_fds|]. destruct (eqs name _); [fd_steps|].
  destruct (eqs name _); [apply listen_fds|]. destruct (eqs name _); [unfold sysSocketBuffer; cbv zeta; fd_steps|]. destruct (eqs name _); [fd_steps|].
  destruct (eqs name _).
  { fd_step_. destruct (Z.leb_spec 0 r) as [Hr|Hr].
    - apply opened in Efd as [_ E1]; [|lia]. apply gives_fd. rewrite (nonblock_fds handle fds). done.
    - apply not_opened in Efd; [|lia]. by apply gives_ret. }
  destruct (eqs name _).
  { unfold sysSend. cbv zeta.
    assert (forall fd d, gives (tidy fds h) (let '(n, h) := send_bytes handle fd d h in ret (VInt n) h)) as Hs.
    { intros fd d. pose proof (send_fds fd d h) as E. destruct (send_bytes _ _ _ _). by apply gives_ret. }
    destruct (is_block args 1); [|apply Hs]. fd_step_. destruct a as [[[bd q] bytes]|]; [|fd_steps]. fd_step_. destruct a; [fd_steps|apply Hs]. }
  destruct (eqs name _); [|done]. unfold sysRecv. cbv zeta. destruct (is_block args 1).
  - fd_step_. destruct a as [[[bd q] bytes]|]; [|fd_steps].
    match goal with |- context [recv_bytes _ ?fd ?mx h] => pose proof (recv_fds fd mx h) as E; destruct (recv_bytes handle fd mx h) as [[n d] h1] end.
    fd_step_; [fd_steps|]. fd_step_; [fd_steps|].
    pose proof (fill_fds bd q bytes d h1) as Ef. destruct (fill_block _ _ _ _ _); [|done]. apply gives_ret. congruence.
  - match goal with |- context [recv_bytes _ ?fd ?mx h] => pose proof (recv_fds fd mx h) as E; destruct (recv_bytes handle fd mx h) as [[n d] h1] end.
    fd_steps.
Qed.

Lemma fs_fds name args h : gives (tidy fds h) (fs_native handle mal fuel name args h).
Proof.
  unfold fs_native. destruct (eqs name _).
  { unfold sysRandom. cbv zeta. do 2 (fd_step_; [fd_steps|]).
    assert (forall n want buf h1, match get_random handle n want buf h1 with Go (_, h') => F h' = F h1 | Stop _ => True end) as Hr.
    { induction n as [|n IH]; intros want buf h1; cbn [get_random]; destruct (_ <? want); try done.
      match goal with |- context [sys _ ?c h1] => pose proof (sys_fds handle fds c h1) as E1; destruct (sys handle c h1) as [[r d] h2] end. cbn in E1.
      destruct (r <? 0); [destruct (r =? _); [|done]|];
        match goal with |- context [get_random _ _ ?w ?b h2] => specialize (IH w b h2); destruct (get_random handle n w b h2) as [[? ?]|] end;
        congruence. }
    specialize (Hr (Z.to_nat (argI args 0) + fuel)%nat (argI args 0) [] h). destruct (get_random _ _ _ _ _) as [[r h']|]; [|done].
    cbn [run_bind]. destruct r; [by apply gives_ret|by apply gives_fails]. }
  do 2 (destruct (eqs name _); [fd_steps|]). destruct (eqs name _); [unfold sysRemove; cbv zeta; fd_steps|].
  destruct (eqs name _); [fd_steps|]. destruct (eqs name _); [unfold sysListDir; fd_steps|]. destruct (eqs name _); [|done].
  unfold sysResolve. fd_step_. destruct r as [[|[[? ?] ?] ?]|]; fd_steps.
Qed.

Lemma process_fds name args h : gives (tidy fds h) (process_native handle mal name args h).
Proof.
  unfold process_native. destruct (eqs name _); [apply spawn_fds|]. destruct (eqs name _).
  { cbv zeta. fd_step_; [fd_steps|]. fd_step_. by apply fd_result. }
  destruct (eqs name _); [unfold sysReap; cbv zeta; fd_steps|]. destruct (eqs name _); [unfold sysKill; cbv zeta; fd_steps|].
  destruct (eqs name _); [apply pty_fds|]. destruct (eqs name _); [unfold sysPtyResize; cbv zeta; fd_steps|done].
Qed.

Lemma free_call_fds name args h : eqs name (lit "sysClose") = false -> eqs name (lit "sysSignalClose") = false ->
  gives (tidy fds h) (native_free_call handle mal sema depth fuel lambdas libm name args h).
Proof.
  intros H1 H2. unfold native_free_call, free_groups. cbn [fold_right].
  apply gives_or; [apply thread_fds|]. apply gives_or; [apply math_fds|]. apply gives_or; [apply convert_fds|].
  apply gives_or; [by apply io_fds|]. apply gives_or; [apply loop_fds|]. apply gives_or; [apply term_fds|].
  apply gives_or; [by apply signal_fds|]. apply gives_or; [apply exit_fds|]. apply gives_or; [apply net_fds|].
  apply gives_or; [apply tls_fds|]. apply gives_or; [apply fs_fds|]. apply gives_or; [apply process_fds|done].
Qed.

End Natives.

(** * Signals as descriptors

    The table of signal descriptors and the process's signal mask.  The
    interpreter runs inside a process that outlives the program, so at the end
    of a run [interpSignalCleanup] closes every signal descriptor and unblocks
    its signals; this file shows that the table always accounts for what is open
    and blocked, so that nothing is left over. *)

(** How the calls used here change the set of blocked signals: [sigprocmask]
    blocks or does nothing, unblocking does not fail, and the others leave the
    mask alone. *)
Class MaskLaws {W : Type} (handle : forall A : Set, Sys A -> W -> A * W) (blocked : W -> gset Z) : Prop := {
  mask_block ss w : let '(r, w') := handle _ (MaskSigs true ss) w in
    blocked w' = if r =? 0 then blocked w ∪ ss else blocked w;
  mask_unblock ss w : blocked (snd (handle _ (MaskSigs false ss) w)) = blocked w ∖ ss;
  mask_signalfd ss w : blocked (snd (handle _ (SignalFd ss) w)) = blocked w;
  mask_read fd w : blocked (snd (handle _ (ReadSignal fd) w)) = blocked w;
  mask_close fd w : blocked (snd (handle _ (Close fd) w)) = blocked w
}.

Section Signals.
Context {W : Type} (handle : forall A : Set, Sys A -> W -> A * W) (fds blocked : W -> gset Z).
Context `{HF : !FdLaws handle fds} `{HM : !MaskLaws handle blocked}.
Implicit Types (h : Host (Ext W)).
Local Abbreviation F := (fds_of fds).

Definition blocked_of h : gset Z := blocked (os (ext h)).
Definition table h : list SigFdRec := g_sigfds (ext h).

(** The signals and the descriptors the table records. *)
Definition table_signals (l : list SigFdRec) : gset Z := ⋃ map sg_mask l.
Definition table_fds (l : list SigFdRec) : gset Z := list_to_set (map sg_fd l).

(** What is open and blocked beyond [fs] and [bs] is in the table. *)
Definition accounted (fs bs : gset Z) h : Prop :=
  F h ⊆ fs ∪ table_fds (table h) /\ blocked_of h ⊆ bs ∪ table_signals (table h).

Lemma table_sys {A : Set} (c : Sys A) h : table (snd (sys handle c h)) = table h.
Proof. unfold sys, table. by destruct (handle A c (os (ext h))). Qed.
Lemma blocked_sys {A : Set} (c : Sys A) h : blocked_of (snd (sys handle c h)) = blocked (snd (handle A c (os (ext h)))).
Proof. unfold sys, blocked_of. by destruct (handle A c (os (ext h))). Qed.
Lemma unblock_run ss h : blocked_of (run handle (MaskSigs false ss) h) = blocked_of h ∖ ss.
Proof. unfold run. rewrite blocked_sys. exact (mask_unblock ss (os (ext h))). Qed.
Lemma block_sys ss h : let '(r, h') := sys handle (MaskSigs true ss) h in blocked_of h' = if r =? 0 then blocked_of h ∪ ss else blocked_of h.
Proof. unfold sys, blocked_of. pose proof (mask_block ss (os (ext h))) as M. by destruct (handle _ (MaskSigs true ss) (os (ext h))). Qed.
Lemma close_run fd h : blocked_of (run handle (Close fd) h) = blocked_of h.
Proof. unfold run. rewrite blocked_sys. exact (mask_close fd (os (ext h))). Qed.
Lemma unblock_fds ss h : F (run handle (MaskSigs false ss) h) = F h.
Proof. exact (sys_fds handle fds (MaskSigs false ss) h). Qed.

Lemma table_fds_app l r : table_fds (l ++ [r]) = table_fds l ∪ {[sg_fd r]}.
Proof. unfold table_fds. rewrite map_app, list_to_set_app_L. set_solver. Qed.
Lemma table_signals_app l r : table_signals (l ++ [r]) = table_signals l ∪ sg_mask r.
Proof. unfold table_signals. rewrite map_app. induction (map sg_mask l) as [|a l' IH]; cbn in *; set_solver. Qed.

Lemma open_accounted fs bs sigs h : accounted fs bs h -> accounted fs bs (snd (interpSignalOpen handle sigs h)).
Proof.
  intros Ha. unfold interpSignalOpen. destruct sigs as [|s sigs]; [done|]. destruct (existsb _ _); [done|].
  set (mask := list_to_set _). pose proof (sys_fds handle fds (MaskSigs true mask) h) as E1.
  pose proof (table_sys (MaskSigs true mask) h) as T1. pose proof (block_sys mask h) as B1.
  destruct (sys handle (MaskSigs true mask) h) as [r h1]. cbn [fst snd fd_step] in *. destruct Ha as [Hf Hb]. destruct (Z.eqb_spec r 0) as [->|Hr]; cbn [negb].
  2: { cbn [snd]. split; [by rewrite E1, T1|]. by rewrite B1, T1. }
  pose proof (sys_fds handle fds (SignalFd mask) h1) as E2. pose proof (table_sys (SignalFd mask) h1) as T2. pose proof (blocked_sys (SignalFd mask) h1) as B2.
  rewrite (mask_signalfd (handle := handle)) in B2. destruct (sys handle (SignalFd mask) h1) as [fd h2]. cbn [fst snd fd_step] in *.
  destruct (fd <? 0) eqn:Efd; cbn [snd].
  - apply not_opened in E2; [|done]. split; [rewrite unblock_fds, E2, E1|rewrite unblock_run, B2].
    + by rewrite (table_sys (MaskSigs false mask) h2 : table (run handle _ _) = _), T2, T1.
    + rewrite (table_sys (MaskSigs false mask) h2 : table (run handle _ _) = _), T2, T1. change (blocked (os (ext h1))) with (blocked_of h1). rewrite B1.
      unfold blocked_of in Hb. set_solver.
  - apply opened in E2 as [_ E2]; [|done]. split.
    + change (F h2 ⊆ fs ∪ table_fds (table h2 ++ [MkSigFd fd mask])). rewrite E2, E1, T2, T1, table_fds_app. clear -Hf. set_solver.
    + change (blocked_of h2 ⊆ bs ∪ table_signals (table h2 ++ [MkSigFd fd mask])). rewrite B2. change (blocked (os (ext h1))) with (blocked_of h1).
      rewrite B1, T2, T1, table_signals_app. unfold blocked_of in Hb. cbn [sg_mask]. clear -Hb. set_solver.
Qed.

Lemma take_sigfd_table fd l mask l' : take_sigfd fd l = Some (mask, l') ->
  table_fds l ⊆ {[fd]} ∪ table_fds l' /\ table_signals l ⊆ mask ∪ table_signals l'.
Proof.
  revert l'. induction l as [|r l IH]; intros l'; [done|]. cbn [take_sigfd]. destruct (Z.eqb_spec (sg_fd r) fd) as [E|_].
  - intros [= <- <-]. unfold table_fds, table_signals. cbn. set_solver.
  - destruct (take_sigfd fd l) as [[m0 l0]|]; [|done]. intros [= <- <-]. destruct (IH l0 eq_refl) as [H1 H2].
    unfold table_fds, table_signals in *. cbn. set_solver.
Qed.
Lemma close_accounted fs bs fd h : accounted fs bs h -> accounted fs bs (interpSignalClose handle fd h).
Proof.
  intros [Hf Hb]. unfold interpSignalClose. destruct (take_sigfd fd (g_sigfds (ext h))) as [[mask l]|] eqn:E.
  - apply take_sigfd_table in E as [H1 H2]. set (h1 := run handle (MaskSigs false mask) h).
    set (h2 := set_ext _ h1).
    assert (F h2 = F h) as E1 by apply unblock_fds. assert (blocked_of h2 = blocked_of h ∖ mask) as B1 by apply unblock_run.
    assert (table h2 = l) as T1 by done. clearbody h2. split.
    + rewrite close_fds by apply HF. rewrite (table_sys (Close fd) h2 : table (run handle _ _) = _), E1, T1. unfold table in Hf. clear -Hf H1. set_solver.
    + rewrite close_run, B1, (table_sys (Close fd) h2 : table (run handle _ _) = _), T1. unfold table in Hb. clear -Hb H2. set_solver.
  - split.
    + rewrite close_fds by apply HF. rewrite (table_sys (Close fd) h : table (run handle _ _) = _). set_solver.
    + by rewrite close_run, (table_sys (Close fd) h : table (run handle _ _) = _).
Qed.

(** Cleaning up leaves nothing of what the table recorded. *)
Lemma cleanup_loop l h :
  let h' := fold_left (fun h r => run handle (Close (sg_fd r)) (run handle (MaskSigs false (sg_mask r)) h)) l h in
  F h' = F h ∖ table_fds l /\ blocked_of h' = blocked_of h ∖ table_signals l.
Proof.
  revert h. induction l as [|r l IH]; intros h; cbn [fold_left].
  - unfold table_fds, table_signals. cbn. split; set_solver.
  - destruct (IH (run handle (Close (sg_fd r)) (run handle (MaskSigs false (sg_mask r)) h))) as [-> ->].
    rewrite close_run, unblock_run, close_fds, unblock_fds by apply HF. unfold table_fds, table_signals. cbn. split; set_solver.
Qed.
Lemma cleanup_accounted fs bs h : accounted fs bs h ->
  let h' := interpSignalCleanup handle h in table h' = [] /\ F h' ⊆ fs /\ blocked_of h' ⊆ bs.
Proof.
  intros [Hf Hb]. unfold interpSignalCleanup. cbv zeta. destruct (cleanup_loop (g_sigfds (ext h)) h) as [E1 E2]. cbv zeta in *.
  set (h1 := fold_left _ _ _) in *. split; [done|]. change (F h1 ⊆ fs /\ blocked_of h1 ⊆ bs). rewrite E1, E2. unfold table in *. split; set_solver.
Qed.

(** A program's calls of the signal natives, in order. *)
Inductive signal_calls h : Host (Ext W) -> Prop :=
| calls_none : signal_calls h h
| calls_one h1 name args out err h2 : signal_calls h h1 -> signal_native handle name args h1 = Go (Some (out, err, h2)) -> signal_calls h h2.

Lemma call_accounted fs bs name args h out err h' : signal_native handle name args h = Go (Some (out, err, h')) -> accounted fs bs h -> accounted fs bs h'.
Proof.
  intros E Ha. unfold signal_native in E. destruct (eqs name _).
  - destruct (match args with v :: _ => elements h v | [] => Go [] end) as [vs|]; [|done]. cbn [run_bind] in E.
    pose proof (open_accounted fs bs (map v_i vs) h Ha) as Ho. destruct (interpSignalOpen _ _ _). by injection E as _ _ <-.
  - destruct (eqs name _).
    + unfold interpSignalNext in E. set (c := ReadSignal _) in *. pose proof (sys_fds handle fds c h) as E1.
      pose proof (table_sys c h) as T1. pose proof (blocked_sys c h) as B1. unfold c in B1. rewrite (mask_read (handle := handle)) in B1. fold c in B1.
      destruct (sys handle c h) as [r h1]. injection E as _ _ <-. cbn in E1, T1, B1. unfold accounted. rewrite E1, T1, B1. done.
    + destruct (eqs name _); [|done]. injection E as _ _ <-. by apply close_accounted.
Qed.
Lemma calls_accounted fs bs h h' : signal_calls h h' -> accounted fs bs h -> accounted fs bs h'.
Proof. induction 1; [done|]. intros Ha. eapply call_accounted; eauto. Qed.
End Signals.
