(* ===== verification/NativesData.v ===== *)
(** * The data natives: blocks, maps, texts

    What the natives of [Block] promise: a block is a window on a shared store,
    and each native is an operation on the sequence of bytes in the window.  The
    reference operations are arithmetic ([le_value], [le_bytes]) and byte by byte
    ([first_difference]); the code shifts and masks, and compares 64 bytes at a
    time.  The parts after it are on maps and on texts. *)

From S2P Require Import TaskSched.
From S2P Require Import Prelude Token Utf8 Value ValueFacts RefHeap Ir RuntimeLoop RuntimeCore MemVerify IrInterp Natives IrTyping IrSafe NativesSafe.
Local Open Scope Z_scope.

(** ** Byte sequences *)

(** [w] written over [bs] from [o] on. *)
Definition splice (bs : list Z) (o : nat) (w : list Z) : list Z := take o bs ++ w ++ drop (o + length w) bs.

Fixpoint le_value (bs : list Z) : Z := match bs with [] => 0 | b :: bs' => b + 256 * le_value bs' end.
Fixpoint le_bytes (n : nat) (u : Z) : list Z := match n with O => [] | S n' => u mod 256 :: le_bytes n' (u / 256) end.

Fixpoint first_difference (a b : list Z) (i : Z) : Z :=
  match a, b with
  | x :: a', y :: b' => if x =? y then first_difference a' b' (i + 1) else i
  | _, _ => -1
  end.

(** What an operation does: an answer and the new bytes of the window, a block on
    part of the window, or an exception. *)
Inductive BlockOut := Answer (v : Value) (w : list Z) | Part (o l : nat) | Throws (err : str).

Definition inside (i n len : Z) : bool := (0 <=? i) && (0 <=? n) && (i + n <=? len).
Definition is_byte (v : Z) : bool := (0 <=? v) && (v <=? 255).

Section Spec.
Context (w : list Z) (other : option (list Z)) (args : list Value).
Let len := size_of w.
Let arg := argI args.

Definition guarded (i n : Z) (r : BlockOut) : BlockOut := if inside i n len then r else Throws (oob_text i len).
Definition byte_guard (v : Z) (r : BlockOut) : BlockOut := if is_byte v then r else Throws (byte_text v).
Definition with_other (f : list Z -> BlockOut) : BlockOut := match other with Some o => f o | None => Throws (lit "null block") end.
Definition part (i n : Z) : list Z := take (Z.to_nat n) (drop (Z.to_nat i) w).

Definition block_spec (name : str) : option BlockOut :=
  let i := arg 0%nat in
  let l := arg 1%nat in
  if eqs name (lit "length") then Some (Answer (VInt len) w)
  else if eqs name (lit "byteAt") then Some (guarded i 1 (Answer (VInt (nth (Z.to_nat i) w 0)) w))
  else if eqs name (lit "setByte") then Some (guarded i 1 (byte_guard l (Answer VVoid (<[Z.to_nat i := l]> w))))
  else if eqs name (lit "slice") then Some (guarded i l (Part (Z.to_nat i) (Z.to_nat l)))
  else if eqs name (lit "toString") then Some (guarded i l (Answer (VString (map chr (part i l))) w))
  else if eqs name (lit "int32At") then Some (guarded i 4 (Answer (VInt (wrap_s 32 (le_value (part i 4)))) w))
  else if eqs name (lit "setInt32") then Some (guarded i 4 (Answer VVoid (splice w (Z.to_nat i) (le_bytes 4 l))))
  else if eqs name (lit "int64At") then Some (guarded i 8 (Answer (VInt (wrap_s 64 (le_value (part i 8)))) w))
  else if eqs name (lit "setInt64") then Some (guarded i 8 (Answer VVoid (splice w (Z.to_nat i) (le_bytes 8 l))))
  else if eqs name (lit "fill") then
    Some (guarded i l (byte_guard (arg 2%nat) (Answer VVoid (splice w (Z.to_nat i) (replicate (Z.to_nat l) (arg 2%nat))))))
  else if eqs name (lit "blit") then
    let s := arg 2%nat in
    let n := arg 3%nat in
    Some (guarded i n (with_other (fun o =>
      if inside s n (size_of o) then Answer VVoid (splice w (Z.to_nat i) (take (Z.to_nat n) (drop (Z.to_nat s) o)))
      else Throws (oob_text s (size_of o)))))
  else if eqs name (lit "equals") then Some (with_other (fun o => Answer (VBool (bool_decide (w = o))) w))
  else if eqs name (lit "mismatch") then
    Some (with_other (fun o =>
      if size_of o =? len then
        guarded l 0 (Answer (VInt (first_difference (drop (Z.to_nat l) w) (drop (Z.to_nat l) o) l)) w)
      else Throws (lit "Block.mismatch requires equal lengths")))
  else None.
End Spec.

(** The sums the bounds tests compute fit in [long long]. *)
Definition sums_fit (name : str) (args : list Value) : Prop :=
  let i := argI args 0 in
  let l := argI args 1 in
  if eqs name (lit "slice") || eqs name (lit "toString") then i + l < 2 ^ 63
  else if eqs name (lit "int32At") || eqs name (lit "setInt32") then i + 4 < 2 ^ 63
  else if eqs name (lit "int64At") || eqs name (lit "setInt64") then i + 8 < 2 ^ 63
  else True.

(** ** Words *)

Lemma le_combine_value k bs : 0 <= k -> Forall (in_u 8) bs -> le_combine k bs = 2 ^ (8 * k) * le_value bs.
Proof.
  intros Hk Hb. revert k Hk. induction Hb as [|b bs Hb Hbs IH]; intros k Hk; cbn [le_combine le_value]; [lia|].
  rewrite IH by lia. rewrite Z.lor_comm.
  replace (2 ^ (8 * (k + 1)) * le_value bs) with (Z.shiftl (Z.shiftl (le_value bs) 8) (8 * k)).
  - rewrite <- Z.shiftl_lor, lor_shiftl_add by (unfold in_u in Hb; lia). rewrite Z.shiftl_mul_pow2 by lia. lia.
  - rewrite !Z.shiftl_mul_pow2 by lia. replace (8 * (k + 1)) with (8 * k + 8) by lia. rewrite Z.pow_add_r by lia. lia.
Qed.

Lemma le_split_seq n k u : map (fun j => wrap_u 8 (Z.shiftr u (8 * Z.of_nat j))) (seq k n) = le_bytes n (u / 2 ^ (8 * Z.of_nat k)).
Proof.
  revert k. induction n as [|n IH]; intros k; [done|]. cbn [seq map le_bytes]. rewrite IH, shiftr_div by lia. f_equal. f_equal.
  rewrite Z.div_div by lia. f_equal. replace (8 * Z.of_nat (S k)) with (8 * Z.of_nat k + 8) by lia. rewrite Z.pow_add_r by lia. done.
Qed.
Lemma le_split_bytes_of n u : le_split n u = le_bytes n u.
Proof. unfold le_split. rewrite le_split_seq. f_equal. cbn. apply Z.div_1_r. Qed.

Lemma le_bytes_mod n u : le_bytes n (wrap_u (8 * Z.of_nat n) u) = le_bytes n u.
Proof.
  unfold wrap_u. revert u. induction n as [|n IH]; intros u; [done|]. cbn [le_bytes].
  replace (8 * Z.of_nat (S n)) with (8 + 8 * Z.of_nat n) by lia. rewrite Z.pow_add_r by lia. f_equal.
  - rewrite Z.rem_mul_r by lia. change (2 ^ 8) with 256. rewrite (Z.mul_comm 256), Z.mod_add by lia. apply Z.mod_mod. lia.
  - rewrite <- (IH (u / 256)). f_equal. rewrite Z.rem_mul_r by lia. change (2 ^ 8) with 256.
    rewrite (Z.mul_comm 256), Z.div_add by lia. rewrite (Z.div_small (u mod 256)) by (apply Z.mod_pos_bound; lia). lia.
Qed.
Lemma le_value_bytes n u : le_value (le_bytes n u) = wrap_u (8 * Z.of_nat n) u.
Proof.
  unfold wrap_u. revert u. induction n as [|n IH]; intros u; cbn [le_bytes le_value]; [by rewrite Z.mod_1_r|].
  rewrite IH. replace (8 * Z.of_nat (S n)) with (8 + 8 * Z.of_nat n) by lia. rewrite Z.pow_add_r by lia. rewrite Z.rem_mul_r by lia. done.
Qed.
Lemma length_le_bytes n u : length (le_bytes n u) = n.
Proof. revert u. induction n as [|n IH]; intros u; cbn; [done|]. by rewrite IH. Qed.

(** ** Splicing *)

Lemma splice_lookup bs o w i : (o + length w <= length bs)%nat ->
  splice bs o w !! i = if decide (o <= i < o + length w)%nat then w !! (i - o)%nat else bs !! i.
Proof.
  intros Hl. unfold splice. destruct (decide (i < o)%nat) as [Hi|Hi].
  - rewrite lookup_app_l by (rewrite length_take; lia). rewrite lookup_take_lt by done. by rewrite decide_False by lia.
  - rewrite lookup_app_r by (rewrite length_take; lia). rewrite length_take, Nat.min_l by lia. destruct (decide (i < o + length w)%nat).
    + rewrite lookup_app_l by lia. by rewrite decide_True by lia.
    + rewrite lookup_app_r by lia. rewrite lookup_drop, decide_False by lia. f_equal. lia.
Qed.
Lemma length_splice bs o w : (o + length w <= length bs)%nat -> length (splice bs o w) = length bs.
Proof. intros H. unfold splice. rewrite !length_app, length_take, length_drop. lia. Qed.
Lemma splice_same bs o n : splice bs o (take n (drop o bs)) = bs.
Proof.
  unfold splice. rewrite length_take, length_drop. destruct (decide (o + n <= length bs)%nat).
  - rewrite Nat.min_l by lia. rewrite <- drop_drop. by rewrite !take_drop.
  - rewrite (take_ge (drop o bs)) by (rewrite length_drop; lia). rewrite (drop_ge bs (_ + _)) by lia. by rewrite app_nil_r, take_drop.
Qed.
(** A write inside the window is a write to the store. *)
Lemma splice_splice bs o n i w : (o + n <= length bs)%nat -> (i + length w <= n)%nat ->
  splice bs o (splice (take n (drop o bs)) i w) = splice bs (o + i) w.
Proof.
  intros Hn Hi. assert (length (take n (drop o bs)) = n) as Hl by (rewrite length_take, length_drop; lia).
  assert (length (splice (take n (drop o bs)) i w) = n) as Hs by (rewrite length_splice; lia).
  apply list_eq. intros j. rewrite (splice_lookup bs o), (splice_lookup bs (o + i)) by lia. rewrite Hs. destruct (decide (o <= j < o + n)%nat).
  - rewrite splice_lookup by lia. destruct (decide (i <= j - o < i + length w)%nat).
    + rewrite decide_True by lia. f_equal. lia.
    + rewrite decide_False by lia. rewrite lookup_take_lt, lookup_drop by lia. f_equal. lia.
  - by rewrite decide_False by lia.
Qed.
Lemma insert_splice bs (i : nat) (x : Z) : (i < length bs)%nat -> <[i := x]> bs = splice bs i [x].
Proof. intros Hi. unfold splice. cbn. rewrite insert_take_drop by done. do 3 f_equal. lia. Qed.
Lemma splice_read bs o w : (o + length w <= length bs)%nat -> take (length w) (drop o (splice bs o w)) = w.
Proof.
  intros H. unfold splice. rewrite drop_app_length' by (rewrite length_take; lia). by rewrite take_app_length.
Qed.

(** ** The first difference *)

Lemma skip_equal_spec n step a b i : (0 < step)%nat -> length a = length b -> (i <= length a)%nat ->
  let j := skip_equal n step a b i in
  (i <= j <= length a)%nat /\ take (j - i) (drop i a) = take (j - i) (drop i b) /\
  ((length a <= n + i)%nat -> (j + step <= length a)%nat -> take step (drop j a) <> take step (drop j b)).
Proof.
  intros Hs Hl. revert i. induction n as [|n IH]; intros i Hi; cbn [skip_equal].
  - rewrite Nat.sub_diag. split_and!; [lia|lia|done|]. lia.
  - destruct (Nat.leb_spec (i + step) (length a)) as [Hle|Hgt]; cbn [andb]; [|rewrite Nat.sub_diag; split_and!; [lia|lia|done|lia]].
    case_bool_decide as E; [|rewrite Nat.sub_diag; split_and!; [lia|lia|done|done]].
    destruct (IH (i + step)%nat ltac:(lia)) as (H1 & H2 & H3). set (j := skip_equal n step a b (i + step)) in *. split_and!; [lia|lia| |intros; apply H3; lia].
    replace (j - i)%nat with (step + (j - (i + step)))%nat by lia. rewrite <- !take_take_drop, !drop_drop. by rewrite E, H2.
Qed.

Lemma first_difference_skip n a b i : take n a = take n b -> (n <= length a)%nat -> length a = length b ->
  first_difference a b i = first_difference (drop n a) (drop n b) (i + Z.of_nat n).
Proof.
  revert a b i. induction n as [|n IH]; intros a b i E Hn Hl; [by rewrite Z.add_0_r|].
  destruct a as [|x a], b as [|y b]; try done. cbn in E, Hl. injection E as -> E. cbn [first_difference drop].
  rewrite Z.eqb_refl, (IH a b) by (cbn in *; auto with lia). f_equal. lia.
Qed.

(** Comparing 64 bytes at a time finds the first difference. *)
Lemma mismatch_first a b from : length a = length b -> (from <= length a)%nat ->
  mismatch a b from = first_difference (drop from a) (drop from b) (Z.of_nat from).
Proof.
  intros Hl Hf. unfold mismatch. destruct (skip_equal_spec (length a) 64 a b from) as (H1 & H2 & _); [lia|done|done|].
  set (i := skip_equal (length a) 64 a b from) in *. destruct (skip_equal_spec (length a) 1 a b i) as (H3 & H4 & H5); [lia|done|lia|].
  set (j := skip_equal (length a) 1 a b i) in *. specialize (H5 ltac:(lia)).
  rewrite (first_difference_skip (i - from)) by (rewrite ?length_drop; auto with lia). rewrite !drop_drop.
  replace (from + (i - from))%nat with i by lia. rewrite (first_difference_skip (j - i)) by (rewrite ?length_drop; auto with lia).
  rewrite !drop_drop. replace (i + (j - i))%nat with j by lia. replace (_ + _ + _) with (Z.of_nat j) by lia.
  destruct (Nat.eqb_spec j (length a)) as [E|E]; [by rewrite (drop_ge a) by lia|]. specialize (H5 ltac:(lia)).
  destruct (drop j a) as [|x a'] eqn:Ea; [apply (f_equal length) in Ea; rewrite length_drop in Ea; cbn in Ea; lia|].
  destruct (drop j b) as [|y b'] eqn:Eb; [apply (f_equal length) in Eb; rewrite length_drop in Eb; cbn in Eb; lia|].
  cbn in H5 |- *. destruct (Z.eqb_spec x y) as [->|]; [by destruct H5|done].
Qed.
Lemma first_difference_none a b i : length a = length b -> 0 <= i -> first_difference a b i = -1 <-> a = b.
Proof.
  revert b i. induction a as [|x a IH]; intros [|y b] i Hl Hi; cbn in *; try done.
  destruct (Z.eqb_spec x y) as [->|Hn]; [|split; [lia|congruence]]. rewrite IH by lia. split; congruence.
Qed.

(** ** The natives *)

Section Refines.
Context {X : Type} (m : IrModule) (mal : gset Z -> nat -> Z).
Context (h : Host X) (bd : BlockData) (q : loc) (bytes : list Z) (Hb : block_post h (Some (bd, q, bytes))).

(** The window of a block in its store. *)
Definition view (bd : BlockData) (bytes : list Z) : list Z := take (Z.to_nat (b_len bd)) (drop (Z.to_nat (b_off bd)) bytes).

Definition refines (r : NativeRun X) (o : BlockOut) : Prop :=
  match o with
  | Answer v w =>
      length w = Z.to_nat (b_len bd) /\ r = ret v (put_cell q (CBytes (splice bytes (Z.to_nat (b_off bd)) w)) h)
  | Part o l =>
      r = ret_new mal (fun p => VBlock (Some p)) (CBlock (MkBlockData (Some q) (b_off bd + Z.of_nat o) (Z.of_nat l))) h
  | Throws e => r = fails e h
  end.

Lemma bounds : 0 <= b_off bd /\ 0 <= b_len bd /\ b_off bd + b_len bd <= Z.of_nat (length bytes).
Proof. apply Hb. Qed.
Lemma length_view : length (view bd bytes) = Z.to_nat (b_len bd).
Proof. destruct bounds as (? & ? & ?). unfold view. rewrite length_take, length_drop. lia. Qed.
Lemma size_view : size_of (view bd bytes) = b_len bd.
Proof. destruct bounds as (? & ? & ?). unfold size_of. rewrite length_view. lia. Qed.

Lemma put_same : put_cell q (CBytes bytes) h = h.
Proof. unfold put_cell, host_heap. rewrite insert_id by apply Hb. by destruct h. Qed.
Lemma refines_read v : refines (ret v h) (Answer v (view bd bytes)).
Proof. split; [apply length_view|]. unfold view. by rewrite splice_same, put_same. Qed.

(** Reads and writes of the store, through the window. *)
Lemma window_read o n : 0 <= o -> 0 <= n -> o + n <= b_len bd ->
  read_bytes bytes (b_off bd + o) n = Go (part (view bd bytes) o n).
Proof.
  intros Ho Hn Hl. destruct bounds as (? & ? & ?). unfold read_bytes, window, part, view.
  destruct (Z.ltb_spec (b_off bd + o) 0); [lia|]. destruct (Z.ltb_spec n 0); [lia|].
  destruct (Z.ltb_spec (Z.of_nat (length bytes)) (b_off bd + o + n)); [lia|]. cbn. f_equal.
  rewrite skipn_firstn_comm, take_take, drop_drop. f_equal; [lia|]. f_equal. lia.
Qed.
Lemma window_write o w : 0 <= o -> o + size_of w <= b_len bd ->
  write_bytes bytes (b_off bd + o) w = Go (splice bytes (Z.to_nat (b_off bd)) (splice (view bd bytes) (Z.to_nat o) w)).
Proof.
  unfold size_of. intros Ho Hl. destruct bounds as (? & ? & ?). unfold write_bytes, window. unfold size_of.
  destruct (Z.ltb_spec (b_off bd + o) 0); [lia|]. destruct (Z.ltb_spec (Z.of_nat (length w)) 0); [lia|].
  destruct (Z.ltb_spec (Z.of_nat (length bytes)) (b_off bd + o + Z.of_nat (length w))); [lia|]. cbn. f_equal.
  unfold view. rewrite splice_splice by lia. unfold splice. by rewrite Z2Nat.inj_add by lia.
Qed.

Lemma inside_spec i n len : inside i n len = true <-> 0 <= i /\ 0 <= n /\ i + n <= len.
Proof. unfold inside. rewrite !andb_true_iff, !Z.leb_le. tauto. Qed.
Lemma outside_spec i n len : inside i n len = false <-> ~ (0 <= i /\ 0 <= n /\ i + n <= len).
Proof. rewrite <- inside_spec. by destruct (inside i n len). Qed.
Lemma is_byte_spec v : is_byte v = negb ((v <? 0) || (255 <? v)).
Proof. unfold is_byte. rewrite negb_orb. by rewrite <- !Z.leb_antisym. Qed.

(** The bounds tests of the code. *)
Lemma index_test i : (i <? 0) || (b_len bd <=? i) = negb (inside i 1 (b_len bd)).
Proof. unfold inside. destruct (Z.ltb_spec i 0), (Z.leb_spec (b_len bd) i), (Z.leb_spec 0 i), (Z.leb_spec (i + 1) (b_len bd)); cbn; try done; lia. Qed.
Lemma range_test o l len : 0 <= len -> (o <? 0) || (l <? 0) || (len <? o) || (len - o <? l) = negb (inside o l len).
Proof.
  intros H. unfold inside. destruct (Z.ltb_spec o 0), (Z.ltb_spec l 0), (Z.ltb_spec len o), (Z.ltb_spec (len - o) l), (Z.leb_spec 0 o), (Z.leb_spec 0 l), (Z.leb_spec (o + l) len);
    cbn; try done; lia.
Qed.
Lemma window_test o l : o + l < 2 ^ 63 -> window_oob o l (b_len bd) = Go (negb (inside o l (b_len bd))).
Proof.
  intros H. unfold window_oob, inside, add64. destruct (Z.ltb_spec o 0), (Z.ltb_spec l 0), (Z.leb_spec 0 o), (Z.leb_spec 0 l); cbn [orb andb negb]; try done; try lia.
  destruct (Z.leb_spec (- 2 ^ 63) (o + l)); [|lia]. destruct (Z.ltb_spec (o + l) (2 ^ 63)); [|lia]. cbn. by rewrite Z.ltb_antisym.
Qed.
Lemma word_test i n : 0 <= n -> i + n < 2 ^ 63 -> word_oob i n (b_len bd) = Go (negb (inside i n (b_len bd))).
Proof.
  intros Hn H. rewrite <- window_test by done. unfold word_oob, window_oob. destruct (Z.ltb_spec n 0); [lia|]. by rewrite orb_false_r.
Qed.

(** ** Each native *)

Context (args : list Value).
Let w := view bd bytes.

Lemma size_w : size_of w = b_len bd.
Proof. apply size_view. Qed.
Ltac split_guard i n := unfold guarded; rewrite size_w; destruct (inside i n (b_len bd)) eqn:Eg; cbn [negb];
  [apply inside_spec in Eg as (? & ? & ?)|try done].

Lemma part_bytes o n : Forall (in_u 8) (part w o n).
Proof. unfold part, w, view. apply Forall_take, Forall_drop, Forall_take, Forall_drop. apply Hb. Qed.
Lemma refines_write o x : 0 <= o -> o + size_of x <= b_len bd ->
  refines (let! bs := write_bytes bytes (b_off bd + o) x in ret VVoid (put_cell q (CBytes bs) h)) (Answer VVoid (splice w (Z.to_nat o) x)).
Proof.
  intros Ho Hl. rewrite window_write by done. unfold w. split; [|done]. unfold size_of in Hl. rewrite length_splice; [apply length_view|].
  rewrite length_view. lia.
Qed.

Lemma byteAt_refines : refines
  (let i := argI args 0 in if (i <? 0) || (b_len bd <=? i) then fails (oob_text i (b_len bd)) h else let! b := at_index bytes (b_off bd + i) in ret (VInt b) h)
  (guarded w (argI args 0) 1 (Answer (VInt (nth (Z.to_nat (argI args 0)) w 0)) w)).
Proof.
  cbv zeta. rewrite index_test. split_guard (argI args 0) 1. destruct bounds as (? & ? & ?). unfold at_index.
  destruct (Z.ltb_spec (b_off bd + argI args 0) 0); [lia|].
  destruct (nth_lookup_or_length w (Z.to_nat (argI args 0)) 0) as [E|E]; [|unfold w in E; rewrite length_view in E; lia].
  assert (bytes !! Z.to_nat (b_off bd + argI args 0) = w !! Z.to_nat (argI args 0)) as ->; [|rewrite E; apply refines_read].
  unfold w, view. rewrite lookup_take_lt, lookup_drop by lia. f_equal. lia.
Qed.
Lemma setByte_refines : refines (block_setByte bd q bytes args h)
  (guarded w (argI args 0) 1 (byte_guard (argI args 1) (Answer VVoid (<[Z.to_nat (argI args 0) := argI args 1]> w)))).
Proof.
  unfold block_setByte. cbv zeta. rewrite index_test. split_guard (argI args 0) 1. unfold byte_guard. rewrite is_byte_spec.
  destruct (_ || _); [done|]. cbn [negb]. pose proof length_view as Hl. rewrite insert_splice by (unfold w; lia).
  assert (put_index bytes (b_off bd + argI args 0) (argI args 1) = write_bytes bytes (b_off bd + argI args 0) [argI args 1]) as ->.
  { destruct bounds as (? & ? & ?). rewrite window_write by (unfold size_of; cbn [length]; lia). unfold put_index. destruct (Z.ltb_spec (b_off bd + argI args 0) 0); [lia|].
    destruct (Z.leb_spec (Z.of_nat (length bytes)) (b_off bd + argI args 0)); [lia|]. cbn [orb]. f_equal. unfold view.
    rewrite splice_splice by (cbn [length]; lia). rewrite <- insert_splice by lia. f_equal. lia. }
  apply refines_write; unfold size_of; cbn [length]; lia.
Qed.
Lemma slice_refines : argI args 0 + argI args 1 < 2 ^ 63 -> refines (block_slice mal bd args h)
  (guarded w (argI args 0) (argI args 1) (Part (Z.to_nat (argI args 0)) (Z.to_nat (argI args 1)))).
Proof.
  intros Hs. unfold block_slice. cbv zeta. rewrite window_test by done. cbn [run_bind]. split_guard (argI args 0) (argI args 1).
  cbn. destruct Hb as [-> _]. by rewrite !Z2Nat.id by done.
Qed.
Lemma toString_refines : argI args 0 + argI args 1 < 2 ^ 63 -> refines (block_toString bd bytes args h)
  (guarded w (argI args 0) (argI args 1) (Answer (VString (map chr (part w (argI args 0) (argI args 1)))) w)).
Proof.
  intros Hs. unfold block_toString. cbv zeta. rewrite window_test by done. cbn [run_bind]. split_guard (argI args 0) (argI args 1).
  rewrite window_read by done. apply refines_read.
Qed.
Lemma get_refines n f : argI args 0 + Z.of_nat n < 2 ^ 63 -> refines (block_read n f bd bytes args h)
  (guarded w (argI args 0) (Z.of_nat n) (Answer (VInt (f (le_value (part w (argI args 0) (Z.of_nat n))))) w)).
Proof.
  intros Hs. unfold block_read. cbv zeta. rewrite word_test by lia. cbn [run_bind]. split_guard (argI args 0) (Z.of_nat n).
  rewrite window_read by done. cbn [run_bind]. rewrite le_combine_value; [|done|apply part_bytes]. change (2 ^ (8 * 0)) with 1. rewrite Z.mul_1_l. apply refines_read.
Qed.
Lemma set_refines n : argI args 0 + Z.of_nat n < 2 ^ 63 -> refines (block_write n bd q bytes args h)
  (guarded w (argI args 0) (Z.of_nat n) (Answer VVoid (splice w (Z.to_nat (argI args 0)) (le_bytes n (argI args 1))))).
Proof.
  intros Hs. unfold block_write. cbv zeta. rewrite word_test by lia. cbn [run_bind]. split_guard (argI args 0) (Z.of_nat n).
  rewrite le_split_bytes_of, le_bytes_mod. apply refines_write; [done|]. unfold size_of. by rewrite length_le_bytes.
Qed.
Lemma splice_nothing bs o : splice bs o [] = bs.
Proof. unfold splice. cbn. rewrite Nat.add_0_r. apply take_drop. Qed.
Lemma fill_refines : refines (block_fill bd q bytes args h)
  (guarded w (argI args 0) (argI args 1) (byte_guard (argI args 2) (Answer VVoid (splice w (Z.to_nat (argI args 0)) (replicate (Z.to_nat (argI args 1)) (argI args 2)))))).
Proof.
  unfold block_fill. cbv zeta. rewrite range_test by apply bounds. split_guard (argI args 0) (argI args 1). unfold byte_guard. rewrite is_byte_spec.
  destruct (_ || _); [done|]. cbn [negb]. destruct (Z.eqb_spec (argI args 1) 0) as [->|_].
  - cbn [Z.to_nat replicate]. rewrite splice_nothing. apply refines_read.
  - apply refines_write; [done|]. unfold size_of. rewrite length_replicate. lia.
Qed.
End Refines.

(** The other operand, when the native takes one. *)
Definition block_view (r : Run (option (BlockData * loc * list Z))) : option (list Z) :=
  match r with Go (Some (b, _, bs)) => Some (view b bs) | _ => None end.

Section Other.
Context {X : Type} (m : IrModule) (mal : gset Z -> nat -> Z).
Context (h : Host X) (bd : BlockData) (q : loc) (bytes : list Z) (Hb : block_post h (Some (bd, q, bytes))) (args : list Value).
Context (o : option (BlockData * loc * list Z)) (Ho : block_post h o).
Local Abbreviation w := (view bd bytes).
Local Abbreviation refines := (refines mal h bd q bytes).

Lemma blit_refines : match args !! 1%nat with Some v => block_at h v | None => Go None end = Go o ->
  refines (block_blit bd q bytes args h)
    (guarded w (argI args 0) (argI args 3) (with_other (block_view (Go o)) (fun o =>
      if inside (argI args 2) (argI args 3) (size_of o)
      then Answer VVoid (splice w (Z.to_nat (argI args 0)) (take (Z.to_nat (argI args 3)) (drop (Z.to_nat (argI args 2)) o)))
      else Throws (oob_text (argI args 2) (size_of o))))).
Proof.
  intros E. unfold block_blit, guarded. cbv zeta. rewrite range_test, (size_view h bd q bytes Hb) by apply (bounds h bd q bytes Hb).
  destruct (inside (argI args 0) _ _) eqn:Eg; cbn [negb]; [|done]. apply inside_spec in Eg as (? & ? & ?). rewrite E. cbn [run_bind block_view].
  destruct o as [[[sb sq] sbytes]|]; cbn [with_other]; [|done]. rewrite (size_view h sb sq sbytes Ho).
  pose proof (range_test (argI args 2) (argI args 3) (b_len sb) ltac:(apply (bounds h sb sq sbytes Ho))) as Ht.
  destruct (Z.ltb_spec (argI args 3) 0); [lia|]. rewrite orb_false_r in Ht. rewrite Ht.
  destruct (inside (argI args 2) _ _) eqn:Es; cbn [negb]; [|done]. apply inside_spec in Es as (? & ? & ?).
  destruct (Z.eqb_spec (argI args 3) 0) as [->|_]; [rewrite splice_nothing; by apply refines_read|].
  rewrite (window_read h sb sq sbytes Ho) by done. cbn [run_bind]. apply refines_write; [done|done|].
  pose proof (length_view h sb sq sbytes Ho). unfold size_of. rewrite length_take, length_drop. lia.
Qed.

Lemma whole_view b p bs : block_post h (Some (b, p, bs)) -> read_bytes bs (b_off b) (b_len b) = Go (view b bs).
Proof.
  intros Hw. destruct (bounds h b p bs Hw) as (? & ? & ?). pose proof (length_view h b p bs Hw) as Hl.
  rewrite <- (Z.add_0_r (b_off b)) at 1. rewrite (window_read h b p bs Hw) by lia. f_equal. unfold part. cbn [Z.to_nat].
  rewrite drop_0. apply take_ge. lia.
Qed.

Lemma equals_refines : other_block args h = Go o ->
  refines (block_equals bd bytes args h) (with_other (block_view (Go o)) (fun o => Answer (VBool (bool_decide (w = o))) w)).
Proof.
  intros E. unfold block_equals. rewrite E. cbn [run_bind block_view]. destruct o as [[[ob oq] obytes]|]; cbn [with_other]; [|done].
  pose proof (length_view h bd q bytes Hb) as H1. pose proof (length_view h ob oq obytes Ho) as H2.
  destruct (bounds h bd q bytes Hb) as (? & ? & ?), (bounds h ob oq obytes Ho) as (? & ? & ?).
  destruct (Z.eqb_spec (b_len bd) (b_len ob)) as [El|En].
  - destruct (Z.eqb_spec (b_len bd) 0) as [E0|_].
    + rewrite (bool_decide_true (view bd bytes = view ob obytes)); [by apply refines_read|].
      destruct (view bd bytes), (view ob obytes); cbn in H1, H2; try lia; done.
    + rewrite (whole_view bd q bytes Hb), El, (whole_view ob oq obytes Ho). by apply refines_read.
  - rewrite (bool_decide_false (view bd bytes = view ob obytes)); [by apply refines_read|]. intros E'. rewrite E' in H1. lia.
Qed.

Lemma mismatch_refines : other_block args h = Go o ->
  refines (block_mismatch bd bytes args h) (with_other (block_view (Go o)) (fun o =>
    if size_of o =? size_of w then
      guarded w (argI args 1) 0 (Answer (VInt (first_difference (drop (Z.to_nat (argI args 1)) w) (drop (Z.to_nat (argI args 1)) o) (argI args 1))) w)
    else Throws (lit "Block.mismatch requires equal lengths"))).
Proof.
  intros E. unfold block_mismatch. rewrite E. cbn [run_bind block_view]. destruct o as [[[ob oq] obytes]|]; cbn [with_other]; [|done].
  rewrite (size_view h bd q bytes Hb), (size_view h ob oq obytes Ho), (Z.eqb_sym (b_len bd)). destruct (Z.eqb_spec (b_len ob) (b_len bd)) as [El|]; cbn [negb]; [|done].
  pose proof (length_view h bd q bytes Hb) as H1. pose proof (length_view h ob oq obytes Ho) as H2. cbv zeta. unfold guarded. rewrite (size_view h bd q bytes Hb).
  assert ((argI args 1 <? 0) || (b_len bd <? argI args 1) = negb (inside (argI args 1) 0 (b_len bd))) as ->.
  { unfold inside. rewrite Z.add_0_r. destruct (Z.ltb_spec (argI args 1) 0), (Z.ltb_spec (b_len bd) (argI args 1)), (Z.leb_spec 0 (argI args 1)), (Z.leb_spec (argI args 1) (b_len bd)); cbn; try done; lia. }
  destruct (inside _ _ _) eqn:Eg; cbn [negb]; [|done]. apply inside_spec in Eg as (? & ? & ?).
  rewrite (whole_view bd q bytes Hb), <- El, (whole_view ob oq obytes Ho). cbn [run_bind].
  rewrite mismatch_first by lia. rewrite Z2Nat.id by done. by apply refines_read.
Qed.
End Other.

Lemma block_at_go {X} m (h : Host X) vals v : host_ok m h vals -> v ∈ vals -> exists o, block_at h v = Go o /\ block_post h o.
Proof.
  intros H Hv. pose proof (safe_block_at m h vals v H Hv) as Hs. destruct (block_at h v) as [o|e] eqn:E; [by exists o|]. exfalso.
  unfold block_at in E. destruct (v_block v) as [p|]; [|done]. destruct (h_block (heap h) p) as [b|]; cbn in E; [|injection E as <-; by destruct Hs as [|[]]].
  destruct (b_bytes b) as [q|]; [|done]. destruct (heap h !! q) as [[]|]; try done; injection E as <-; by destruct Hs as [|[]].
Qed.
(** The block a native takes as an argument. *)
Definition other_view {X} (name : str) (args : list Value) (h : Host X) : option (list Z) :=
  match args !! (if eqs name (lit "blit") then 1 else 0)%nat with Some v => block_view (block_at h v) | None => None end.

(** The branch of a given name. *)
Ltac eval_names :=
  repeat match goal with
         | H : context [eqs (lit ?a) (lit ?b)] |- _ =>
             let r := eval vm_compute in (eqs (lit a) (lit b)) in change (eqs (lit a) (lit b)) with r in H
         | |- context [eqs (lit ?a) (lit ?b)] =>
             let r := eval vm_compute in (eqs (lit a) (lit b)) in change (eqs (lit a) (lit b)) with r
         end; cbn [orb] in *; cbv iota in *.
Ltac by_name name a :=
  let E := fresh "En" in destruct (eqs name (lit a)) eqn:E; [apply eqs_eq in E; subst name; eval_names|].

(** Each native does to the window what the specification says. *)
Lemma block_native_spec {X} m mal name self args (h : Host X) bd q bytes : host_ok m h (self :: args) -> sums_fit name args ->
  block_at h self = Go (Some (bd, q, bytes)) ->
  match block_spec (view bd bytes) (other_view name args h) args name with
  | Some o => refines mal h bd q bytes (block_native mal name self args h) o
  | None => block_native mal name self args h = unknown
  end.
Proof.
  intros H Hs E. destruct (block_at_go m h (self :: args) self H ltac:(set_solver)) as (o & Eo & Hb). rewrite E in Eo. injection Eo as <-.
  assert (forall i : nat, exists o, match args !! i with Some v => block_at h v | None => Go None end = Go o /\ block_post h o) as Ho.
  { intros i. destruct (args !! i) as [v|] eqn:Ei; [|by exists None]. apply (block_at_go m h (self :: args)); [done|].
    apply list_elem_of_lookup_2 in Ei. set_solver. }
  assert (other_block args h = match args !! 0%nat with Some v => block_at h v | None => Go None end) as E0 by (by destruct args).
  unfold sums_fit in Hs. unfold block_native, block_spec, other_view. rewrite E. cbn [run_bind]. cbv zeta in *.
  assert (forall i : nat, match args !! i with Some v => block_view (block_at h v) | None => None end =
    block_view (match args !! i with Some v => block_at h v | None => Go None end)) as Ev by (intros i; by destruct (args !! i)).
  rewrite Ev. clear Ev.
  by_name name "length"%string; [rewrite (size_view h bd q bytes Hb); by apply refines_read|]. by_name name "byteAt"%string; [by apply byteAt_refines|]. by_name name "setByte"%string; [by apply setByte_refines|].
  by_name name "slice"%string; [by apply slice_refines|]. by_name name "toString"%string; [by apply toString_refines|]. by_name name "int32At"%string; [by apply (get_refines mal h bd q bytes Hb args 4)|].
  by_name name "setInt32"%string; [by apply (set_refines mal h bd q bytes Hb args 4)|]. by_name name "int64At"%string; [by apply (get_refines mal h bd q bytes Hb args 8)|].
  by_name name "setInt64"%string; [by apply (set_refines mal h bd q bytes Hb args 8)|]. by_name name "fill"%string; [by apply fill_refines|].
  by_name name "blit"%string; [destruct (Ho 1%nat) as (o & E1 & Ho1); rewrite E1; by apply blit_refines|].
  destruct (Ho 0%nat) as (o & E1 & Ho1). rewrite E1 in *.
  by_name name "equals"%string; [by apply equals_refines|]. by_name name "mismatch"%string; [by apply mismatch_refines|done].
Qed.

(** * Maps as finite maps up to key equality

    What the natives of [Map] promise: [with] and [without] answer a new map that
    differs from the receiver at the keys equal to the given one and nowhere
    else, and leave the receiver as it was. *)

(** ** Key equality in a larger heap *)

Lemma fields_equal_mono (eq eq' : Value -> Value -> option bool) l m r : (forall a b r, eq a b = Some r -> eq' a b = Some r) ->
  fields_equal eq l m = Some r -> fields_equal eq' l m = Some r.
Proof.
  intros He. induction l as [|[k av] l IH]; cbn [fields_equal]; [done|]. destruct (m !! k) as [bv|]; [|done].
  destruct (eq av bv) as [[]|] eqn:E; [|intros [= <-]; by rewrite (He _ _ _ E)|done]. rewrite (He _ _ _ E). apply IH.
Qed.
Lemma h_obj_mono (h h' : Heap) p o : h ⊆ h' -> h_obj h p = Some o -> h_obj h' p = Some o.
Proof. intros Hs. unfold h_obj. destruct (h !! p) eqn:E; [|done]. by rewrite (lookup_weaken _ _ _ _ E Hs). Qed.
Lemma keyEquals_mono n (h h' : Heap) a b r : h ⊆ h' -> keyEquals n h a b = Some r -> keyEquals n h' a b = Some r.
Proof.
  intros Hs. revert a b r. induction n as [|n IH]; intros a b r; [done|]. cbn [keyEquals]. destruct (negb (same_kind a b)); [done|].
  destruct a as [| | | | |[p|]| | | | | | |], b as [| | | | |[q|]| | | | | | |]; try done.
  destruct (h_obj h p) as [oa|] eqn:Ea; [|done]. destruct (h_obj h q) as [ob|] eqn:Eb; [|done].
  rewrite (h_obj_mono _ _ _ _ Hs Ea), (h_obj_mono _ _ _ _ Hs Eb). destruct (same_class oa ob); [|done].
  destruct (_ =? _)%nat; [|done]. apply fields_equal_mono. intros ? ? ?. apply IH.
Qed.

(** ** Association lists up to an equivalence *)

Section Pure.
Context (eqk : Value -> Value -> bool).
Implicit Types (es : list (Value * Value)).

Fixpoint find_key (k : Value) es : option Value :=
  match es with [] => None | (k', v) :: es' => if eqk k' k then Some v else find_key k es' end.
Fixpoint set_key (k v : Value) es : list (Value * Value) :=
  match es with [] => [(k, v)] | (k', v') :: es' => if eqk k' k then (k', v) :: es' else (k', v') :: set_key k v es' end.
Definition drop_key (k : Value) es : list (Value * Value) := filter (fun e => eqk e.1 k = false) es.
Definition distinct es : Prop := forall i j a b, es !! i = Some a -> es !! j = Some b -> (i < j)%nat -> eqk a.1 b.1 = false.

Context (Hsym : forall a b, eqk a b = true -> eqk b a = true) (Htrans : forall a b c, eqk a b = true -> eqk b c = true -> eqk a c = true).

Lemma find_set k v k' es : find_key k' (set_key k v es) = if eqk k k' then Some v else find_key k' es.
Proof using Hsym Htrans.
  induction es as [|[a b] es IH]; cbn [set_key find_key]; [done|]. destruct (eqk a k) eqn:E; cbn [find_key].
  - destruct (eqk a k') eqn:E1; destruct (eqk k k') eqn:E2; try done.
    + rewrite (Htrans k a k') in E2; [done|by apply Hsym|done].
    + by rewrite (Htrans a k k' E E2) in E1.
  - rewrite IH. destruct (eqk a k') eqn:E1; [|done]. destruct (eqk k k') eqn:E2; [|done].
    by rewrite (Htrans a k' k E1 (Hsym _ _ E2)) in E.
Qed.
Lemma find_drop k k' es : find_key k' (drop_key k es) = if eqk k k' then None else find_key k' es.
Proof using Hsym Htrans.
  unfold drop_key. induction es as [|[a b] es IH]; [by destruct (eqk k k')|]. rewrite filter_cons. cbn [fst find_key].
  destruct (decide (eqk a k = false)) as [E|E].
  - cbn [find_key]. rewrite IH. destruct (eqk a k') eqn:E1; [|done]. destruct (eqk k k') eqn:E2; [|done].
    by rewrite (Htrans a k' k E1 (Hsym _ _ E2)) in E.
  - apply not_false_is_true in E. rewrite IH. destruct (eqk k k') eqn:E2; [done|]. destruct (eqk a k') eqn:E1; [|done].
    by rewrite (Htrans k a k' (Hsym _ _ E) E1) in E2.
Qed.

Lemma distinct_cons a es : distinct (a :: es) <-> Forall (fun b => eqk a.1 b.1 = false) es /\ distinct es.
Proof.
  split.
  - intros H. split.
    + apply Forall_lookup. intros j b Hj. apply (H 0%nat (S j)); [done|done|lia].
    + intros i j x y Hi Hj Hij. apply (H (S i) (S j)); [done|done|lia].
  - intros [H1 H2] [|i] [|j] x y Hi Hj Hij; try lia; cbn in Hi, Hj.
    + injection Hi as <-. rewrite Forall_lookup in H1. by apply (H1 j).
    + apply (H2 i j); [done|done|lia].
Qed.
Lemma set_fresh a k v es : eqk a k = false -> Forall (fun b => eqk a b.1 = false) es -> Forall (fun b => eqk a b.1 = false) (set_key k v es).
Proof.
  intros Hk H. induction H as [|[a' b] es E H IH]; cbn [set_key]; [by repeat constructor|]. destruct (eqk a' k); by constructor.
Qed.
Lemma distinct_set k v es : distinct es -> distinct (set_key k v es).
Proof.
  induction es as [|[a b] es IH]; cbn [set_key]; rewrite ?distinct_cons; cbn.
  - intros _. split; [done|]. intros i j ? ? Hi. by rewrite lookup_nil in Hi.
  - intros [H1 H2]. destruct (eqk a k) eqn:E; rewrite distinct_cons; cbn; [done|]. split; [by apply set_fresh|by apply IH].
Qed.
Lemma distinct_drop k es : distinct es -> distinct (drop_key k es).
Proof.
  unfold drop_key. induction es as [|[a b] es IH]; [done|]. rewrite distinct_cons. intros [H1 H2]. rewrite filter_cons.
  destruct (decide _); [|by apply IH]. rewrite distinct_cons. split; [|by apply IH]. cbn in *. rewrite Forall_forall in *.
  intros c [_ Hc]%list_elem_of_filter. by apply H1.
Qed.
Lemma length_set k v es : length (set_key k v es) = (length es + (match find_key k es with Some _ => 0 | None => 1 end))%nat.
Proof.
  induction es as [|[a b] es IH]; cbn [set_key find_key length]; [done|]. destruct (eqk a k); cbn [length]; [lia|]. rewrite IH. lia.
Qed.
End Pure.

(** ** The loops of the natives *)

Section Loops.
Context {X : Type} (depth : nat).
Implicit Types (h : Host X) (es : list (Value * Value)).

Definition same_key h (a b : Value) : bool := bool_decide (keyEquals depth (heap h) a b = Some true).
(** The depth of the keys is within the recursion's bound. *)
Definition comparable h (ks : list Value) : Prop := forall a b, a ∈ ks -> b ∈ ks -> is_Some (keyEquals depth (heap h) a b).

Lemma same_key_sym h a b : same_key h a b = true -> same_key h b a = true.
Proof. unfold same_key. rewrite !bool_decide_eq_true. apply keyEquals_sym. Qed.
Lemma same_key_trans h a b c : same_key h a b = true -> same_key h b c = true -> same_key h a c = true.
Proof. unfold same_key. rewrite !bool_decide_eq_true. apply keyEquals_trans. Qed.
Lemma same_key_mono h h' a b : heap h ⊆ heap h' -> is_Some (keyEquals depth (heap h) a b) -> same_key h' a b = same_key h a b.
Proof. intros Hs [r Hr]. unfold same_key. by rewrite (keyEquals_mono _ _ _ _ _ _ Hs Hr), Hr. Qed.
Lemma comparable_mono h h' ks : heap h ⊆ heap h' -> comparable h ks -> comparable h' ks.
Proof. intros Hs H a b Ha Hb. destruct (H a b Ha Hb) as [r Hr]. exists r. by eapply keyEquals_mono. Qed.
Lemma comparable_sub h ks ks' : comparable h ks -> ks' ⊆ ks -> comparable h ks'.
Proof. intros H Hs a b Ha Hb. apply H; by apply Hs. Qed.

Lemma key_eq_go h a b : is_Some (keyEquals depth (heap h) a b) -> key_eq depth h a b = Go (same_key h a b).
Proof. intros [r Hr]. unfold key_eq, same_key. rewrite Hr. cbn. by destruct r. Qed.

Lemma comparable_tail h k e es : comparable h (k :: map fst (e :: es)) ->
  key_eq depth h e.1 k = Go (same_key h e.1 k) /\ comparable h (k :: map fst es).
Proof.
  intros H. split; [apply key_eq_go, H; cbn; set_solver|]. eapply comparable_sub; [exact H|]. cbn. set_solver.
Qed.
Lemma map_find_go h k es : comparable h (k :: map fst es) -> map_find depth h k es = Go (find_key (same_key h) k es).
Proof.
  induction es as [|[a b] es IH]; [done|]. intros H. apply comparable_tail in H as [E H]. cbn [map_find find_key fst] in *.
  rewrite E. cbn [run_bind]. destruct (same_key h a k); [done|by apply IH].
Qed.
Lemma map_with_go h k v es : comparable h (k :: map fst es) -> map_with depth h [k; v] es = Go (set_key (same_key h) k v es).
Proof.
  intros H. cbn [map_with].
  assert (map_replace depth h k v es = Go (match find_key (same_key h) k es with Some _ => Some (set_key (same_key h) k v es) | None => None end) /\
    (find_key (same_key h) k es = None -> es ++ [(k, v)] = set_key (same_key h) k v es)) as [-> E].
  { induction es as [|[a b] es IH]; [done|]. apply comparable_tail in H as [E H]. cbn [map_replace find_key set_key fst app] in *.
    rewrite E. cbn [run_bind]. destruct (same_key h a k); [done|]. destruct (IH H) as [-> IH']. cbn [run_bind option_map].
    split; [by destruct (find_key _ _ _)|]. intros Hn. by rewrite IH'. }
  cbn [run_bind]. destruct (find_key _ _ _); [done|]. by rewrite E.
Qed.
Lemma map_without_go h k es : comparable h (k :: map fst es) -> map_without depth h k es = Go (drop_key (same_key h) k es).
Proof.
  unfold drop_key. induction es as [|[a b] es IH]; [done|]. intros H. apply comparable_tail in H as [E H]. cbn [map_without fst] in *.
  rewrite E, IH by done. cbn [run_bind]. rewrite filter_cons. cbn [fst]. by destruct (same_key h a k).
Qed.
End Loops.

(** ** The natives *)

Section Maps.
Context {X : Type} (mal : gset Z -> nat -> Z) (depth : nat).
Implicit Types (h : Host X) (es : list (Value * Value)).
Local Abbreviation mcall := (@map_native X mal depth).

(** What a program can find out about a key: [has] tells whether there is an
    entry, [at] answers its value or raises an exception. *)
Definition observed h (mp k : Value) (found : option Value) : Prop :=
  mcall (lit "has") mp [k] h = ret (VBool (match found with Some _ => true | None => false end)) h /\
  match found with
  | Some v => mcall (lit "at") mp [k] h = ret v h
  | None =>
      match mcall (lit "at") mp [k] h with
      | Go (Some (out, e, h')) => out = VVoid /\ h' = h /\ has_at e 0 (lit "key not found: ") = true
      | Go None => False
      | Stop e => e = FDepth
      end
  end.

Lemma observe h mp k es : entries h mp = Go es -> comparable depth h (k :: map fst es) -> observed h mp k (find_key (same_key depth h) k es).
Proof.
  intros He Hc. unfold observed, map_native. rewrite He. cbn [run_bind]. eval_names. rewrite (map_find_go depth h k es Hc). cbn [run_bind].
  split; [done|]. destruct (find_key _ _ _); [done|]. destruct (valueToString _ _ _); cbn; [|done]. split_and!; try done.
Qed.

Lemma find_key_mono h h' k es : heap h ⊆ heap h' -> comparable depth h (k :: map fst es) ->
  find_key (same_key depth h') k es = find_key (same_key depth h) k es.
Proof.
  intros Hs. induction es as [|[a b] es IH]; [done|]. intros H. cbn [find_key].
  rewrite (same_key_mono depth h h' a k) by (done || (apply H; cbn; set_solver)).
  destruct (same_key depth h a k); [done|]. apply IH. by apply comparable_tail in H as [_ H].
Qed.

(** A new map is not a cell the program had. *)
Definition answers h (r : NativeRun X) es' : Prop :=
  exists p h', r = ret (VMap (Some p)) h' /\ heap h !! p = None /\ heap h' = <[p := CMap es']> (heap h).
Lemma answers_new m h vals es : host_ok m h vals -> answers h (ret_new mal (fun p => VMap (Some p)) (CMap es) h) es.
Proof.
  intros (_ & Hn & _). cbn. eexists _, _. split; [done|]. split; [|done].
  destruct (heap h !! next_loc h) eqn:E; [|done]. assert (next_loc h < next_loc h)%nat by (apply Hn; by eexists). lia.
Qed.

Lemma with_new m h vals mp k v es : host_ok m h vals -> entries h mp = Go es -> comparable depth h (k :: map fst es) ->
  answers h (mcall (lit "with") mp [k; v] h) (set_key (same_key depth h) k v es).
Proof.
  intros H He Hc. unfold map_native. rewrite He. cbn [run_bind]. eval_names. rewrite (map_with_go depth h k v es Hc). cbn [run_bind].
  by eapply answers_new.
Qed.
Lemma without_new m h vals mp k es : host_ok m h vals -> entries h mp = Go es -> comparable depth h (k :: map fst es) ->
  answers h (mcall (lit "without") mp [k] h) (drop_key (same_key depth h) k es).
Proof.
  intros H He Hc. unfold map_native. rewrite He. cbn [run_bind]. eval_names. rewrite (map_without_go depth h k es Hc). cbn [run_bind].
  by eapply answers_new.
Qed.

(** The receiver and the new map in the new heap. *)
Lemma answers_entries h r es es' mp : answers h r es' -> entries h mp = Go es ->
  exists out h', r = ret out h' /\ heap h ⊆ heap h' /\ entries h' mp = Go es /\ entries h' out = Go es'.
Proof.
  intros (p & h' & -> & Hp & Eh) He. exists (VMap (Some p)), h'. split; [done|]. rewrite Eh. split; [by apply insert_subseteq|]. split.
  - revert He. unfold entries, h_map. rewrite Eh. destruct (v_map mp) as [q|]; [|done]. destruct (decide (q = p)) as [->|]; [by rewrite Hp|].
    by rewrite lookup_insert_ne.
  - unfold entries, h_map. cbn. by rewrite Eh, lookup_insert_eq.
Qed.
Lemma keys_set k v es h : map fst (set_key (same_key depth h) k v es) ⊆ k :: map fst es.
Proof. induction es as [|[a b] es IH]; cbn; [done|]. destruct (same_key depth h a k); cbn; set_solver. Qed.
Lemma keys_drop k es h : map fst (drop_key (same_key depth h) k es) ⊆ map fst es.
Proof.
  intros x (e & -> & He)%list_elem_of_fmap. apply list_elem_of_filter in He as [_ He]. apply list_elem_of_fmap. by exists e.
Qed.
End Maps.

(** * Texts of numbers and scalars

    What the conversions between text and values promise each other: the text of
    an integer reads back as that integer, what [toInt] accepts is a decimal
    numeral in range, and a text built of encoded scalars has those scalars as
    its characters. *)

(** A decimal numeral: digits after an optional minus sign. *)
Definition numeral (s : str) : Prop :=
  exists ds, ds <> [] /\ Forall (fun c => isdigit c = true) ds /\ (s = ds \/ s = "-"%char :: ds).
Definition numeral_value (s : str) : Z :=
  match s with c :: ds => if eqc c "-" then - digits_value ds else digits_value s | [] => 0 end.

Lemma to_string_numeral z : numeral (to_string z) /\ numeral_value (to_string z) = z.
Proof.
  unfold to_string. destruct (Z.ltb_spec z 0).
  - destruct (dec_nat_spec (- z)) as (Ha & Hv & Hn); [lia|]. split; [exists (dec_nat (- z)); auto|]. change (- digits_value (dec_nat (- z)) = z). lia.
  - destruct (dec_nat_spec z) as (Ha & Hv & Hn); [lia|]. split; [exists (dec_nat z); auto|]. unfold numeral_value.
    destruct (dec_nat z) as [|c ds] eqn:E; [done|]. apply Forall_cons in Ha as [Hc _]. destruct (isdigit_plain c Hc) as (_ & -> & _). done.
Qed.
Lemma numeral_strtol s : numeral s -> strtol10 s = numeral_value s.
Proof.
  intros (ds & Hn & Hd & [->| ->]).
  - rewrite strtol10_digits by done. destruct ds as [|c ds]; [done|]. cbn [numeral_value]. apply Forall_cons in Hd as [Hc _].
    by destruct (isdigit_plain c Hc) as (_ & -> & _).
  - change (- digits_value (digits_prefix ds) = - digits_value ds). rewrite <- (app_nil_r ds) at 1. by rewrite digits_prefix_all.
Qed.

(** Exactly the numerals in range are accepted. *)
Lemma strictParseInt_spec s v : strictParseInt s = Some v <-> numeral s /\ numeral_value s = v /\ in_s 64 v.
Proof.
  assert (forall z, (- 2 ^ 63 <=? z) && (z <? 2 ^ 63) = true <-> in_s 64 z) as Hr.
  { intros z. rewrite andb_true_iff, Z.leb_le, Z.ltb_lt. unfold in_s. cbn. lia. }
  assert (forall ds, forallb isdigit ds = true <-> Forall (fun c => isdigit c = true) ds) as Hfb.
  { intros ds. rewrite forallb_forall, Forall_forall. by setoid_rewrite list_elem_of_In. }
  split.
  - unfold strictParseInt. destruct s as [|c s]; [done|].
    assert (forall ds, ds <> [] -> (c :: s = ds \/ c :: s = "-"%char :: ds) -> (if forallb isdigit ds then
      if (- 2 ^ 63 <=? strtol10 (c :: s)) && (strtol10 (c :: s) <? 2 ^ 63) then Some (strtol10 (c :: s)) else None else None) = Some v ->
      numeral (c :: s) /\ numeral_value (c :: s) = v /\ in_s 64 v) as Hx.
    { intros ds Hn Hs. destruct (forallb isdigit ds) eqn:Ed; [|done]. apply Hfb in Ed.
      assert (numeral (c :: s)) as Hnum by (exists ds; auto). destruct (_ && _) eqn:Ev; [|done]. intros [= <-]. apply Hr in Ev.
      by rewrite <- numeral_strtol. }
    destruct (eqc c "-") eqn:Ec.
    + apply eqc_eq in Ec as ->. destruct s as [|d s]; [done|]. apply Hx; [done|by right].
    + apply Hx; [done|by left].
  - intros (Hn & <- & Hv). apply Hr in Hv. pose proof (numeral_strtol s Hn) as Es. destruct Hn as (ds & Hne & Hd & Hs). apply Hfb in Hd.
    unfold strictParseInt. destruct ds as [|d ds]; [done|]. destruct Hs as [->| ->].
    + assert (eqc d "-" = false) as Em. { cbn in Hd. apply andb_prop in Hd as [Hd _]. by destruct (isdigit_plain d Hd) as (_ & ? & _). }
      rewrite Em, Hd, Es, Hv. done.
    + change (eqc "-" "-") with true. cbv iota. by rewrite Hd, Es, Hv.
Qed.

(** ** Characters *)

Definition encode_all (cps : list Z) : str := concat (map utf8Encode cps).

Lemma decode_encoded cps pre n : Forall is_scalar cps -> (length cps <= n)%nat ->
  decode_all n (pre ++ encode_all cps) (length pre) = cps.
Proof.
  intros Hs. revert pre n. induction Hs as [|cp cps Hcp Hcps IH]; intros pre n Hn.
  - unfold encode_all. cbn. rewrite app_nil_r. destruct n as [|n]; cbn [decode_all]; [done|]. by rewrite Nat.ltb_irrefl.
  - destruct n as [|n]; cbn in Hn; [lia|]. cbn [decode_all]. unfold encode_all. cbn [map concat]. rewrite utf8_roundtrip by done.
    assert (0 < length (utf8Encode cp))%nat as Hl.
    { rewrite utf8Encode_bytes by apply Hcp. rewrite length_fmap. unfold utf8_bytes. repeat case_match; cbn; lia. }
    destruct (Nat.ltb_spec (length pre) (length (pre ++ utf8Encode cp ++ concat (map utf8Encode cps)))) as [_|H]; [|rewrite !length_app in H; lia].
    f_equal. specialize (IH (pre ++ utf8Encode cp) n ltac:(lia)). rewrite length_app, <- app_assoc in IH. exact IH.
Qed.
Lemma length_encode_all cps : Forall is_scalar cps -> (length cps <= length (encode_all cps))%nat.
Proof.
  induction 1 as [|cp cps Hcp _ IH]; [done|]. unfold encode_all in *. cbn [map concat length]. rewrite length_app.
  rewrite utf8Encode_bytes by apply Hcp. rewrite length_fmap. unfold utf8_bytes. repeat case_match; cbn [length]; lia.
Qed.
Lemma chars_encoded cps : Forall is_scalar cps -> decode_all (length (encode_all cps)) (encode_all cps) 0 = cps.
Proof. intros Hs. apply (decode_encoded cps []); [done|by apply length_encode_all]. Qed.

(** Only scalars come out, whatever the text. *)
Lemma decode_scalars n s i : Forall is_scalar (decode_all n s i).
Proof.
  revert i. induction n as [|n IH]; intros i; cbn [decode_all]; [done|]. destruct (Nat.ltb_spec i (length s)) as [Hi|]; [|done].
  destruct (utf8DecodeAt s i) as [[cp len] b] eqn:E. rewrite utf8DecodeAt_drop in E.
  constructor; [|apply IH]. eapply utf8_decode_front; [|exact E]. intros E'. apply (f_equal length) in E'. rewrite length_drop in E'. cbn in E'. lia.
Qed.
