(* ===== verification/IrSound.v ===== *)
(** * The IR interpreter does not go wrong

    Every instruction of a well-formed module keeps a configuration of the
    machine well formed: registers, frames, continuations and everything the
    heap holds.  So no run reads outside a register file, a constant pool, the
    function table or the globals, and no reference dangles. *)

From S2P Require Import TaskSched.
From S2P Require Import Prelude Token Value ValueFacts RefHeap Ir RuntimeLoop RuntimeCore MemVerify IrInterp IrTyping IrSafe.

Local Open Scope Z_scope.

(** ** A batch's callbacks are the loop's *)

Section Batch.
Context {V : Type} (Q : V -> Prop).

Definition loop_all (l : RuntimeLoop V) : Prop :=
  Forall (fun t => Q (t_callback t)) (timers_ l) /\ Forall (fun w => Q (w_callback w)) (watches_ l).

Lemma erase_Forall {A} (R : A -> Prop) key i l : Forall R l -> Forall R (erase_first key i l).
Proof. induction 1 as [|x l Hx Hl IH]; cbn [erase_first]; [done|]. destruct (key x =? i); [done|by constructor]. Qed.
Lemma erase_fold {A} (R : A -> Prop) key is_ l : Forall R l -> Forall R (fold_left (fun l i => erase_first key i l) is_ l).
Proof. revert l. induction is_ as [|i is_ IH]; intros l H; cbn [fold_left]; [done|]. by apply IH, erase_Forall. Qed.

Lemma fire_all_Q ws is_ : Forall (fun w => Q (w_callback w)) ws -> Forall (fun j => Q (lc_callback j)) (concat (map (fire ws) is_)).
Proof.
  intros H. induction is_ as [|i is_ IH]; cbn; [done|]. apply Forall_app. split; [|done]. clear IH. unfold fire.
  induction H as [|x ws Hx Hws IHw]; cbn [find_watch]; [done|]. destruct (w_id x =? i); [by apply Forall_singleton|done].
Qed.

Lemma poll_watches_all e l : loop_all l ->
  Forall (fun j => Q (lc_callback j)) (fst (poll_watches e l)) /\ loop_all (snd (poll_watches e l)).
Proof.
  intros [Ht Hw]. unfold poll_watches. assert (loop_all l) as Hl by done.
  destruct (watches_ l) as [|x ws] eqn:E; [done|]. rewrite <- E in *. destruct (poll e _ _) as [n rv]. destruct (_ || _); [|done]. cbn [fst snd]. split; [by apply fire_all_Q|].
  rewrite cancel_watches. split; [done|]. by apply erase_fold.
Qed.

Lemma run_timer_all order ts b ex : Forall (fun t => Q (t_callback t)) ts -> Forall (fun j => Q (lc_callback j)) b ->
  let '(ts', b', _) := fold_left run_timer order (ts, b, ex) in
  Forall (fun t => Q (t_callback t)) ts' /\ Forall (fun j => Q (lc_callback j)) b'.
Proof.
  revert ts b ex. induction order as [|i order IH]; intros ts b ex Ht Hb; cbn [fold_left]; [done|].
  unfold run_timer at 2. destruct (ts !! i) as [t|] eqn:E; [|by apply IH].
  assert (Q (t_callback t)) by (rewrite Forall_forall in Ht; apply Ht; by eapply list_elem_of_lookup_2).
  apply IH; [by apply Forall_insert|]. apply Forall_app. split; [done|]. by apply Forall_singleton.
Qed.

Lemma nextBatch_all e l : loop_all l ->
  Forall (fun j => Q (lc_callback j)) (fst (nextBatch e l)) /\ loop_all (snd (nextBatch e l)).
Proof.
  intros H. unfold nextBatch. destruct (hasWork l); [|done]. destruct (poll_watches_all e l H) as [Hb [Ht Hw]].
  destruct (poll_watches e l) as [b l1]. cbn [fst snd] in *.
  pose proof (run_timer_all (merge_sort (timer_le (timers_ l1)) (due_positions e (timers_ l1))) _ _ [] Ht Hb) as Hr.
  destruct (fold_left run_timer _ _) as [[ts b'] ex]. destruct Hr as [Hr1 Hr2]. cbn [fst snd]. split; [done|].
  rewrite cancel_timers. split; [by apply erase_fold|done].
Qed.
End Batch.

(** ** Primitive operations produce no references *)

Definition flat (o : Outcome) : Prop := match o with Ret_ v => refs v = [] | _ => True end.

Lemma arith_int_flat op a b : flat (arith_int op a b).
Proof. unfold arith_int, int64. destruct op; try done; by repeat case_match. Qed.
Lemma arith_rest_flat nan op l r : flat (arith_rest nan op l r).
Proof. unfold arith_rest. destruct (float_operands l r) as [[a b]|]; [|apply arith_int_flat]. by destruct op. Qed.
Lemma arith_flat nan fuel h op l r : flat (arithPrim nan fuel h op l r).
Proof.
  pose proof (arith_rest_flat nan op l r) as Hrest. unfold arithPrim. destruct (_ || _); [by destruct op|].
  set (tail := if is_string l || is_string r then _ else _). assert (flat tail) as Ht.
  { unfold tail. destruct (_ || _); [|done]. destruct op; try done. by destruct (valueToString fuel h l), (valueToString fuel h r). }
  clearbody tail. clear Hrest. destruct l, r; try exact Ht; try (by destruct op).
Qed.
Lemma flat_ok o v h : flat o -> o = Ret_ v -> v_ok h v.
Proof.
  intros H ->. cbn in H. by destruct v as [| | | | |[]|[]|[]|[]| | |[]|[]].
Qed.

Section Sound.
Context {X : Type} (P : Platform X) (m : IrModule) (sema : Sema) (own : option (list (nat * Z))) (memOn : bool) (depth : nat).
Context `{HP : !PlatformOk m P} (Hm : module_ok m sema = true).
Implicit Types (w : Interp X) (vals outer : list Value) (f : Frame).

(** ** Shapes *)

Definition like f f0 : Prop := f_fn f = f_fn f0 /\ pc f = pc f0 /\ length (regs f) = length (regs f0) /\ extra f = extra f0.
Definition reg_in (n : nat) (a : Z) : Prop := 0 <= a < Z.of_nat n.
Definition is_window_in (n : nat) (c d : Z) : Prop := 0 <= c /\ 0 <= d /\ c + d <= Z.of_nat n.
Definition kont_ok (n : nat) (k : Kont) : Prop :=
  match k with
  | KSet a | KNot a | KKeep a _ | KColMember a _ | KFieldCall a _ _ | KPump a _ _ _ | KAwait a _ _ | KSpawned a | KJoin a _ _
  | KAny2 a _ | KRegistry a => reg_in n a
  | KDrop => True
  end.
Definition cmd_values (c : TaskCmd) : list Value :=
  match c with
  | TcSpawn cb => [cb]
  | TcParkOn p => [VObject (Some p)]
  | TcParkAny2 p q => [VObject (Some p); VObject (Some q)]
  | TcJoin _ | TcCancel _ | TcShield _ => []
  end.
Definition ctl_values (c : Ctl) : list Value :=
  match c with
  | Next | Goto _ => []
  | Return v => [v]
  | Enter _ args k pins => args ++ kont_values k ++ pins
  | Sched c k pins => cmd_values c ++ kont_values k ++ pins
  | Spin k => kont_values k
  end.
Definition ctl_ok (n : nat) (c : Ctl) : Prop :=
  match c with
  | Enter fn _ k _ => is_fn m fn = true /\ kont_ok n k
  | Sched c k pins => kont_ok n k /\ cmd_values c ⊆ kont_values k ++ pins
  | Spin k => kont_ok n k
  | _ => True
  end.
Definition out_post f0 outer (o : Ctl * Frame * Interp X) : Prop :=
  let '(c, f, w) := o in like f f0 /\ ctl_ok (length (regs f0)) c /\ I m w (ctl_values c ++ frame_values f ++ outer).

Lemma like_refl f : like f f.
Proof. done. Qed.
Lemma like_trans f g k : like f g -> like g k -> like f k.
Proof. unfold like. intros (? & ? & ? & ?) (? & ? & ? & ?). split_and!; congruence. Qed.

Lemma safe_getr f a : reg_in (length (regs f)) a -> safe (fun v => v ∈ frame_values f) (getr f a).
Proof. intros H. eapply safe_mono; [by apply safe_at|]. intros v Hv. unfold frame_values. set_solver. Qed.

Lemma safe_setr f a v : reg_in (length (regs f)) a -> safe (fun f' => like f' f /\ frame_values f' ⊆ v :: frame_values f) (setr f a v).
Proof.
  intros [H1 H2]. unfold setr, put_index. destruct (Z.ltb_spec a 0); [lia|]. destruct (Z.leb_spec (Z.of_nat (length (regs f))) a); [lia|].
  cbn. split; [unfold like; cbn; by rewrite length_insert|]. unfold frame_values. cbn. intros x.
  rewrite elem_of_app, elem_of_cons, elem_of_app. intros [[n Hn]%list_elem_of_lookup_1|Hx]; [|by right; right].
  apply list_lookup_insert_Some in Hn as [(_ & <- & _)|[_ Hn]]; [by left|right; left]. by eapply list_elem_of_lookup_2.
Qed.

Lemma safe_put f0 outer f w a v : like f f0 -> reg_in (length (regs f0)) a -> I m w (v :: frame_values f ++ outer) ->
  safe (out_post f0 outer) (put f w a v).
Proof.
  intros Hl Ha H. unfold put. apply safe_bind. assert (length (regs f) = length (regs f0)) as Hlen by apply Hl.
  eapply safe_mono; [apply safe_setr; by rewrite Hlen|]. intros f' [Hl' Hs]. split; [by eapply like_trans|]. split; [done|]. cbn.
  eapply I_sub; [exact H|]. set_solver.
Qed.

Lemma next_post f0 outer f w : like f f0 -> I m w (frame_values f ++ outer) -> safe (out_post f0 outer) (Go (Next, f, w)).
Proof. done. Qed.

Lemma safe_raised f0 outer f w msg : like f f0 -> I m w (frame_values f ++ outer) -> safe (out_post f0 outer) (raised P sema f w msg).
Proof. intros Hl H. apply next_post; [done|]. by apply I_raise. Qed.

Lemma safe_settle f0 outer f w k v : like f f0 -> kont_ok (length (regs f0)) k -> kont_values k ⊆ frame_values f ++ outer ->
  I m w (v :: frame_values f ++ outer) -> safe (out_post f0 outer) (settle k v f w).
Proof.
  intros Hl Hk Hkv H. assert (I m w (frame_values f ++ outer)) as H0 by (eapply I_sub; [exact H|set_solver]).
  destruct k; cbn [settle]; try (by apply next_post); (apply safe_put; [done|done|]); try done; [by apply I_cons|].
  apply I_cons; [done|]. eapply I_in; [exact H0|]. apply Hkv. cbn. set_solver.
Qed.

Lemma safe_act f0 outer f k pins r : like f f0 -> kont_ok (length (regs f0)) k ->
  kont_values k ++ pins ⊆ frame_values f ++ outer -> safe (act_post m (frame_values f ++ outer)) r ->
  safe (out_post f0 outer) (act r k pins f).
Proof.
  intros Hl Hk Hkv Hr. unfold act. apply safe_bind. eapply safe_mono; [exact Hr|]. intros [[v|fn args] w] [Ha H]; cbn in Ha, H.
  - apply safe_settle; [done|done|set_solver|done].
  - cbn. split; [done|]. split; [done|]. eapply I_sub; [exact H|]. set_solver.
Qed.

Lemma out_weaken f0 outer outer' r : outer ⊆ outer' -> safe (out_post f0 outer') r -> safe (out_post f0 outer) r.
Proof.
  intros Hs H. eapply safe_mono; [exact H|]. intros [[c f] w] (H1 & H2 & H3). split; [done|]. split; [done|].
  eapply I_sub; [exact H3|]. set_solver.
Qed.

(** ** Calls *)

Lemma safe_win f c d : is_window_in (length (regs f)) c d -> safe (fun l => l ⊆ frame_values f /\ length l = Z.to_nat d) (window (regs f) c d).
Proof.
  intros (H1 & H2 & H3). eapply safe_mono; [by apply safe_window|]. intros l [Hl Hn]. split; [|done]. unfold frame_values. set_solver.
Qed.

Lemma safe_call_field f0 outer f w a win name v : like f f0 -> reg_in (length (regs f0)) a -> win ⊆ frame_values f ++ outer ->
  I m w (v :: frame_values f ++ outer) -> safe (out_post f0 outer) (call_field P sema a win name v f w).
Proof.
  intros Hl Ha Hw H. assert (I m w (frame_values f ++ outer)) as H0 by (eapply I_sub; [exact H|set_solver]).
  unfold call_field. apply safe_bind. eapply safe_mono; [eapply safe_closure_fn; [exact H|set_solver]|].
  intros [i|] Hi; [|by apply safe_raised]. destruct (0 <=? i); [|by apply safe_raised].
  rewrite (int_of_fn m sema Hm i Hi). cbn. split; [done|]. split; [done|]. eapply I_sub; [exact H|].
  destruct win as [|x win]; cbn; set_solver.
Qed.

Lemma safe_call_dyn outer f w i u : I m w (frame_values f ++ outer) -> reg_in (length (regs f)) (ia i) ->
  is_window_in (length (regs f)) (ic i) (id_ i) -> 1 <= id_ i -> safe (out_post f outer) (exec_call_dyn P m sema depth i u f w).
Proof.
  intros H Ha Hw Hd. unfold exec_call_dyn. apply safe_bind.
  eapply safe_mono; [apply safe_getr; unfold is_window_in in Hw; unfold reg_in; lia|]. intros recv _. apply safe_bind.
  eapply safe_mono; [by apply safe_win|]. intros win [Hwin Hlen]. apply safe_bind.
  eapply safe_mono; [apply safe_at; lia|]. intros self Hself. apply safe_bind.
  eapply safe_mono; [eapply safe_class; [exact H|set_solver]|]. intros rc _. cbv zeta.
  set (d := match decl i with Some d => Some d | None => _ end). destruct d as [d|].
  - apply safe_bind. eapply safe_mono; [apply (safe_callDecl P m sema Hm); [exact H|set_solver]|].
    intros [[v|fn args] w1] [Hok H1]; cbn in Hok, H1; [by apply safe_put|]. cbn. split; [done|]. split; [done|].
    eapply I_sub; [exact H1|]. set_solver.
  - apply safe_bind. eapply safe_mono; [apply (safe_getMember P m sema depth Hm); [exact H|set_solver]|].
    intros [[v|fn args] w1] [Hok H1]; cbn in Hok, H1; [apply safe_call_field; [done|done|set_solver|done]|].
    cbn. split; [done|]. split; [done|]. eapply I_sub; [exact H1|]. set_solver.
Qed.

Lemma safe_call_value outer f w i : I m w (frame_values f ++ outer) -> reg_in (length (regs f)) (ia i) ->
  is_window_in (length (regs f)) (ic i) (id_ i) -> 1 <= id_ i -> safe (out_post f outer) (exec_call_value P sema i f w).
Proof.
  intros H Ha Hw Hd. unfold exec_call_value. apply safe_bind.
  eapply safe_mono; [by apply safe_win|]. intros win [Hwin Hlen]. apply safe_bind.
  eapply safe_mono; [apply safe_at; lia|]. intros self Hself. apply safe_bind.
  eapply safe_mono; [eapply safe_closure_fn; [exact H|set_solver]|]. intros [n|] Hn; [|by apply safe_raised].
  destruct (0 <=? n); [|by apply safe_raised]. rewrite (int_of_fn m sema Hm n Hn). cbn. split; [done|]. split; [done|].
  eapply I_sub; [exact H|]. set_solver.
Qed.

(** ** Tasks *)

Lemma I_save w vals : I m w vals -> I m (snd (save_thrown w)) (fst (save_thrown w) :: vals).
Proof. intros H. apply I_cons; [by apply I_thrown|]. exact (proj1 (I_term_ok m w vals H)). Qed.

Lemma I_woken w vals saved r : I m w (saved :: vals) -> I m (snd (woken saved r w)) vals.
Proof.
  intros H. assert (I m (set_thrown saved w) vals) as H1.
  { apply I_thrown; [eapply I_sub; [exact H|set_solver]|]. eapply I_in; [exact H|set_solver]. }
  unfold woken. cbv zeta. destruct (_ && _); [by apply I_exit|]. destruct (_ =? _); [done|]. by destruct (_ =? _).
Qed.

Lemma safe_ready w vals p k : I m w vals -> VObject (Some p) ∈ vals -> safe (fun _ => True) (promise_ready w p k).
Proof. intros H Hp. apply safe_bind. eapply safe_mono; [by eapply safe_object|done]. Qed.

Lemma safe_await_value f0 outer f w a p : like f f0 -> reg_in (length (regs f0)) a -> I m w (frame_values f ++ outer) ->
  v_ok (w_heap w) (VObject (Some p)) -> safe (out_post f0 outer) (await_value P sema a p f w).
Proof.
  intros Hl Ha H Hp. unfold await_value. apply safe_bind.
  eapply safe_mono; [eapply (safe_object m w (VObject (Some p) :: frame_values f ++ outer)); [by apply I_cons|set_solver]|].
  intros o Ho. destruct (_ && _); [by apply safe_raised|]. apply safe_put; [done|done|]. apply I_cons; [done|].
  destruct (fields o !! lit "value") eqn:E; [|done]. exact (I_field m w _ p o _ _ H Ho E).
Qed.

Lemma safe_invoke f0 outer f w cb z k : like f f0 -> kont_ok (length (regs f0)) k ->
  I m w (cb :: kont_values k ++ frame_values f ++ outer) -> safe (out_post f0 outer) (invoke_closure cb (VInt z) k f w).
Proof.
  intros Hl Hk H. unfold invoke_closure. apply safe_bind. eapply safe_mono; [eapply safe_closure_fn; [exact H|set_solver]|].
  intros [i|] Hi.
  - rewrite (int_of_fn m sema Hm i Hi). cbn. split; [done|]. split; [done|]. assert (I m w (VInt z :: cb :: kont_values k ++ frame_values f ++ outer)) as H1 by by apply I_cons.
    eapply I_sub; [exact H1|]. set_solver.
  - split; [done|]. split; [done|]. eapply I_sub; [exact H|]. cbn. set_solver.
Qed.

Lemma I_batch w vals : I m w vals ->
  let '(e, h) := loop_env P (host w) in
  let '(batch, lp) := nextBatch e (loop_ h) in
  I m (set_host (host_loop lp h) w) (map callback_of batch ++ vals).
Proof.
  intros H. pose proof (loop_env_ok (host w)) as He. destruct (loop_env P (host w)) as [e h] eqn:E. cbn [snd] in He.
  destruct (nextBatch e (loop_ h)) as [batch lp] eqn:Eb.
  apply (I_host m w vals); [done|]. intros r Hr. apply He in Hr as (H1 & H2 & H3). rewrite !Forall_app in H3.
  destruct H3 as [Hl [Hv Hr]]. unfold loop_values in Hl. rewrite Forall_app, !Forall_map in Hl. destruct Hl as [Hl1 Hl2].
  destruct (nextBatch_all (v_ok (heap h)) e (loop_ h)) as [Hb [Ht Hw]]; [by split|]. rewrite Eb in Hb, Ht, Hw. cbn [fst snd] in *.
  split; [done|]. split; [done|]. cbn. unfold loop_values. rewrite !Forall_app, !Forall_map. split_and!; done.
Qed.

Lemma safe_pump f0 outer f w a p batch done_ : like f f0 -> reg_in (length (regs f0)) a ->
  I m w (p :: map callback_of batch ++ frame_values f ++ outer) -> safe (out_post f0 outer) (pump P sema a p batch done_ f w).
Proof.
  intros Hl Ha H. assert (I m w (frame_values f ++ outer)) as H0 by (eapply I_sub; [exact H|set_solver]).
  assert (v_ok (w_heap w) p) as Hp by (eapply I_in; [exact H|set_solver]).
  unfold pump. destruct p as [| | | | |[l|]| | | | | | |]; try (apply safe_put; [done|done|by apply I_cons]).
  destruct (is_throwing w); [by apply safe_await_value|]. destruct (drop done_ batch) as [|j js] eqn:E.
  - apply safe_bind. eapply safe_mono; [eapply safe_ready; [exact H|set_solver]|]. intros ready _.
    destruct (_ || _); [by apply safe_await_value|].
    pose proof (I_batch w _ (I_cons _ _ _ _ H0 Hp)) as Hb. destruct (loop_env P (host w)) as [e h].
    destruct (nextBatch e (loop_ h)) as [b lp]. split; [done|]. split; [done|]. cbn. eapply I_sub; [exact Hb|]. set_solver.
  - assert (lc_callback j ∈ map callback_of batch) as Hj.
    { apply list_elem_of_In, in_map_iff. exists j. split; [done|]. apply list_elem_of_In.
      rewrite <- (take_drop done_ batch), E. set_solver. }
    apply safe_invoke; [done|done|]. cbn. eapply I_sub; [exact H|]. set_solver.
Qed.

Lemma safe_await outer f w i : I m w (frame_values f ++ outer) -> reg_in (length (regs f)) (ia i) -> reg_in (length (regs f)) (ib i) ->
  safe (out_post f outer) (exec_await P sema i f w).
Proof.
  intros H Ha Hb. unfold exec_await. apply safe_bind. eapply safe_mono; [by apply safe_getr|]. intros p Hp.
  assert (v_ok (w_heap w) p) as Hok by (eapply I_in; [exact H|set_solver]).
  assert (I m w (p :: frame_values f ++ outer)) as H1 by by apply I_cons.
  destruct p as [| | | | |[l|]| | | | | | |]; try (by apply safe_put).
  destruct (lv_tasks_enabled P); [|by apply safe_pump]. apply safe_bind.
  eapply safe_mono; [eapply safe_ready; [exact H1|set_solver]|]. intros [] _; [by apply safe_await_value|].
  rewrite (surjective_pairing (save_thrown w)). split; [done|]. split; [split; [done|cbn; clear; set_solver]|].
  cbn [ctl_values cmd_values kont_values]. eapply I_sub; [apply I_save, H1|]. set_solver.
Qed.

Lemma safe_task_native outer f w name a args : I m w (frame_values f ++ outer) -> reg_in (length (regs f)) a ->
  args ⊆ frame_values f -> safe (out_post f outer) (task_native P sema name a args f w).
Proof.
  intros H Ha Hargs. assert (forall w, I m w (frame_values f ++ outer) -> I m w (VVoid :: frame_values f ++ outer)) as Hvoid
    by (intros; by apply I_cons).
  unfold task_native. destruct (negb _); [by apply safe_put, Hvoid, I_raise|]. destruct (eqs _ _).
  { destruct args as [|[| | | | | |[p|]| | | | | |] args]; try (by apply safe_put, Hvoid, I_raise).
    split; [done|]. split; [split; [done|cbn; clear; set_solver]|]. cbn. eapply I_sub; [exact H|]. set_solver. }
  destruct (eqs _ _).
  { apply safe_bind. assert (safe (fun _ => True) (join_ids_of args w)) as Hj.
    { unfold join_ids_of. destruct args as [|[| | | | | | |[p|]| | | | |] args]; try done. apply safe_bind.
      eapply safe_mono; [eapply safe_array; [exact H|set_solver]|done]. }
    eapply safe_mono; [exact Hj|]. intros ids _. rewrite (surjective_pairing (save_thrown w)). split; [done|]. split; [split; [done|by intros ? ?%elem_of_nil]|].
    cbn [ctl_values cmd_values kont_values]. eapply I_sub; [apply I_save, H|]. set_solver. }
  destruct args as [|[| | | | |[p|]| | | | | | |] args]; try (by apply safe_put, Hvoid, I_raise).
  destruct args as [|[| | | | |[q|]| | | | | | |] args]; try (by apply safe_put, Hvoid, I_raise).
  apply safe_bind. eapply safe_mono; [eapply safe_ready; [exact H|set_solver]|]. intros [] _; [by apply safe_put, I_cons|].
  apply safe_bind. eapply safe_mono; [eapply safe_ready; [exact H|set_solver]|]. intros [] _; [by apply safe_put, I_cons|].
  rewrite (surjective_pairing (save_thrown w)). split; [done|]. split; [split; [done|cbn; clear; set_solver]|].
  cbn [ctl_values cmd_values kont_values]. eapply I_sub; [apply I_save, H|]. set_solver.
Qed.

Lemma I_exit_check w vals : I m w vals -> I m (exit_check w) vals.
Proof. intros H. unfold exit_check. destruct (_ && _); [by apply I_exit|done]. Qed.

Lemma safe_native_int outer f w a n : I m w (frame_values f ++ outer) -> reg_in (length (regs f)) a ->
  safe (out_post f outer) (native_int a n f w).
Proof.
  intros H Ha. apply safe_bind. eapply safe_mono; [by apply safe_setr|]. intros f' [Hl Hs]. split; [done|]. split; [done|].
  apply I_exit_check. eapply I_sub; [apply (I_cons _ _ _ (VInt n) H); done|]. cbn [ctl_values app]. set_solver.
Qed.

Lemma safe_registry_native outer f w name a args : I m w (frame_values f ++ outer) -> reg_in (length (regs f)) a ->
  args ⊆ frame_values f -> safe (out_post f outer) (registry_native P name a args f w).
Proof.
  intros H Ha Hargs. unfold registry_native, registry_cmd, first_int.
  assert (forall c, cmd_values c = [] -> safe (out_post f outer) (if lv_tasks_enabled P then Go (Sched c (KRegistry a) args, f, w) else native_int a 0 f w)) as Hc.
  { intros c Hc. destruct (lv_tasks_enabled P); [|by apply safe_native_int]. split; [done|]. split; [split; [done|rewrite Hc; by intros ? ?%elem_of_nil]|].
    cbn [ctl_values kont_values]. eapply I_sub; [exact H|]. rewrite Hc. set_solver. }
  destruct (eqs _ _); [destruct args as [|v args]; [by apply safe_native_int|]|]; by apply Hc.
Qed.

Lemma safe_reply outer f w k r : kont_ok (length (regs f)) k -> I m w (kont_values k ++ frame_values f ++ outer) ->
  safe (out_post f outer) (reply P sema k r f w).
Proof.
  intros Hk H. assert (I m w (frame_values f ++ outer)) as H0 by (eapply I_sub; [exact H|set_solver]).
  assert (forall w, I m w (frame_values f ++ outer) -> I m w (VVoid :: frame_values f ++ outer)) as Hvoid by (intros; by apply I_cons).
  destruct k; cbn [reply kont_values] in *; try (by apply next_post).
  - pose proof (I_woken w (p :: frame_values f ++ outer) saved r) as H1. destruct (woken saved r w) as [[] w1]; cbn [snd] in H1.
    all: assert (I m w1 (p :: frame_values f ++ outer)) as H2 by (apply H1; eapply I_sub; [exact H|set_solver]).
    all: assert (I m w1 (frame_values f ++ outer)) as H3 by (eapply I_sub; [exact H2|set_solver]).
    + by apply next_post.
    + by apply safe_raised.
    + apply next_post; [done|]. by apply I_raise_class.
    + destruct p as [| | | | |[l|]| | | | | | |]; try (by apply safe_put). apply safe_await_value; [done|done|done|].
      eapply I_in; [exact H2|set_solver].
  - apply safe_put; [done|done|]. by apply I_cons.
  - pose proof (I_woken w (frame_values f ++ outer) saved r H) as H1. destruct (woken saved r w) as [[] w1]; cbn [snd] in H1;
      apply safe_put; try done; apply I_cons; try done; [by apply I_raise|by apply I_raise_class].
  - pose proof (I_woken w (frame_values f ++ outer) saved r H) as H1. destruct (woken saved r w) as [[] w1]; cbn [snd] in H1;
      apply safe_put; try done; apply I_cons; try done; [by apply I_raise|by apply I_raise_class].
  - by apply safe_native_int.
Qed.

Lemma safe_native outer f w i : I m w (frame_values f ++ outer) -> reg_in (length (regs f)) (ia i) ->
  is_window_in (length (regs f)) (ic i) (id_ i) -> safe (out_post f outer) (exec_native P m sema depth i f w).
Proof.
  intros H Ha Hw. unfold exec_native. apply safe_bind. eapply safe_mono; [by apply safe_win|]. intros args [Hargs _].
  apply safe_bind. set (rej := match args with [] => _ | _ => _ end).
  assert (safe (fun _ => True) rej) as Hrej.
  { unfold rej. destruct args as [|body args]; [done|]. destruct (eqs _ _); [|done].
    apply (safe_spawn_body P m sema depth Hm w _ _ H). set_solver. }
  eapply safe_mono; [exact Hrej|]. intros [e|] _; [by apply safe_raised|].
  destruct (existsb _ _); [by apply safe_task_native|]. destruct (existsb _ _); [by apply safe_registry_native|].
  assert (I m w (args ++ frame_values f ++ outer)) as Hin by (eapply I_sub; [exact H|set_solver]).
  apply safe_bind. eapply safe_mono; [apply (safe_host m w _ (frame_values f ++ outer) _ Hin)|].
  { intros r Hr. apply native_free_ok. by rewrite <- app_assoc in Hr. }
  intros [[[out err] h]|] Hout; [|by apply safe_raised]. cbn in Hout.
  destruct (nonempty err). { apply safe_raised; [done|]. eapply I_sub; [exact Hout|]. set_solver. }
  apply safe_bind. eapply safe_mono; [by apply safe_setr|]. intros f' [Hl Hs]. split; [done|]. split; [done|]. cbn [ctl_values app].
  apply I_exit_check. eapply I_sub; [exact Hout|]. set_solver.
Qed.

(** ** The other instructions *)

Lemma safe_outcome f w a o outer : I m w (frame_values f ++ outer) -> reg_in (length (regs f)) a ->
  (forall v, o = Ret_ v -> v_ok (w_heap w) v) -> safe (out_post f outer) (of_outcome P sema f w a o).
Proof.
  intros H Ha Ho. destruct o as [v|msg| |]; cbn [of_outcome]; [|..].
  - apply safe_put; [done|done|]. apply I_cons; [done|]. by apply Ho.
  - apply safe_bind. eapply safe_mono; [by apply safe_setr|]. intros f' [Hl Hs]. apply safe_raised; [done|].
    eapply I_sub; [apply (I_cons _ _ _ VVoid H); done|]. set_solver.
  - by left.
  - by right; left.
Qed.


Lemma safe_arith outer f w i : I m w (frame_values f ++ outer) -> reg_in (length (regs f)) (ia i) ->
  reg_in (length (regs f)) (ib i) -> reg_in (length (regs f)) (ic i) -> safe (out_post f outer) (exec_arith P m sema depth i f w).
Proof.
  intros H Ha Hb Hc. unfold exec_arith. apply safe_bind. eapply safe_mono; [by apply safe_getr|]. intros l Hl.
  apply safe_bind. eapply safe_mono; [by apply safe_getr|]. intros r Hr. cbv zeta.
  assert (safe (out_post f outer) (of_outcome P sema f w (ia i) (arithPrim (nan_bits P) depth (w_heap w) (tk i) l r))) as Hprim.
  { apply safe_outcome; [done|done|]. intros v. apply flat_ok, arith_flat. }
  destruct (_ && _); [done|]. destruct l as [| | | | |[p|]| | | | | | |]; try done.
  apply safe_bind. eapply safe_mono; [eapply safe_object; [exact H|set_solver]|]. intros o Ho.
  destruct (o_cls o) as [c|]; [|done]. destruct (eqs _ _); [done|].
  destruct (object_arith_plan _ _ _ _ _) as [d|d|b|sym].
  - apply safe_act; [done|done|set_solver|]. apply (safe_callDecl P m sema Hm); [exact H|set_solver].
  - apply safe_act; [done|done|set_solver|]. apply (safe_callDecl P m sema Hm); [exact H|set_solver].
  - apply safe_put; [done|done|]. by apply I_cons.
  - apply safe_bind. eapply safe_mono; [by apply safe_setr|]. intros f' [Hl' Hs]. apply safe_raised; [done|].
    eapply I_sub; [apply (I_cons _ _ _ VVoid H); done|]. set_solver.
Qed.

Lemma default_scalar c v h : scalar_default c = DVal v -> v_ok h v.
Proof. unfold scalar_default. intros H. by repeat (case_match; [simplify_eq; done|]); simplify_eq. Qed.

Lemma safe_default outer f w i : I m w (frame_values f ++ outer) -> reg_in (length (regs f)) (ia i) ->
  safe (out_post f outer) (exec_default P i f w).
Proof.
  intros H Ha. unfold exec_default.
  assert (match defaultForCanonical 2 (sname i) with Some (DVal v) => v_ok (w_heap w) v | Some _ => True | None => True end) as Hd.
  { cbn [defaultForCanonical]. repeat case_match; try done; simplify_eq; try done; by eapply default_scalar. }
  destruct (defaultForCanonical 2 (sname i)) as [[v| |]|]; [| | |by right; left].
  - apply safe_put; [done|done|by apply I_cons].
  - apply safe_put; [done|done|]. apply (I_new P m w _ (CArr []) (fun p => VArray (Some p))); [done|by split; [apply Forall_nil_2|]|].
    intros h p. apply v_ok_arr.
  - apply safe_put; [done|done|]. apply (I_new P m w _ (CMap []) (fun p => VMap (Some p))); [done|by split; [apply Forall_nil_2|]|].
    intros h p. apply v_ok_map.
Qed.

Lemma store_kont_values a base : kont_values (match base with VObject _ => KKeep a base | _ => KSet a end) ++ [] ⊆ [base].
Proof. intros x. destruct base; cbn; try (by intros ?%elem_of_nil). done. Qed.

Lemma safe_index_store outer f w i insts : I m w (frame_values f ++ outer) -> reg_in (length (regs f)) (ia i) ->
  reg_in (length (regs f)) (ib i) -> reg_in (length (regs f)) (ic i) -> reg_in (length (regs f)) (id_ i) ->
  (forall j, j ∈ insts -> op j = CopyVal -> reg_in (length (regs f)) (ia j)) ->
  safe (out_post f outer) (exec_index_store P m sema depth outer insts i f w).
Proof.
  intros H Ha Hb Hc Hd Hins. unfold exec_index_store. apply safe_bind. eapply safe_mono; [by apply safe_setr|]. intros f1 [Hl1 Hs1].
  assert (length (regs f1) = length (regs f)) as Hn1 by apply Hl1.
  assert (I m w (frame_values f1 ++ outer)) as H1 by (eapply I_sub; [apply (I_cons _ _ _ VVoid H); done|]; set_solver).
  apply safe_bind. set (clear_temp := match insts !! _ with Some _ => _ | None => _ end).
  assert (safe (fun f2 => like f2 f1 /\ I m w (frame_values f2 ++ outer)) clear_temp) as Hct.
  { unfold clear_temp. destruct (insts !! Z.to_nat (pc f1 + 1)) as [n1|] eqn:E1; [|done].
    destruct (insts !! Z.to_nat (pc f1 + 2)) as [n2|]; [|done].
    destruct (bool_decide (op n1 = CopyVal)) eqn:Eop; [|done]. apply bool_decide_eq_true in Eop. case_match; [|done].
    eapply safe_mono; [apply safe_setr; rewrite Hn1; apply (Hins n1); [by eapply list_elem_of_lookup_2|done]|].
    intros f2 [Hl2 Hs2]. split; [done|]. eapply I_sub; [apply (I_cons _ _ _ VVoid H1); done|]. set_solver. }
  eapply safe_mono; [exact Hct|]. intros f2 [Hl2 H2]. cbv zeta. assert (length (regs f2) = length (regs f)) as Hn2.
  { destruct Hl2 as (_ & _ & -> & _). done. }
  assert (I m (settle_heap (frame_values f2 ++ outer) w) (frame_values f2 ++ outer)) as H3 by by apply I_settle.
  unfold settle_heap in H3. rewrite <- app_assoc in H3. set (w3 := set_heap _ w) in *.
  apply safe_bind. eapply safe_mono; [apply safe_getr; by rewrite Hn2|]. intros base Hbase.
  apply safe_bind. eapply safe_mono; [apply safe_getr; by rewrite Hn2|]. intros idx Hidx.
  apply safe_bind. eapply safe_mono; [apply safe_getr; by rewrite Hn2|]. intros v Hv.
  apply safe_act; [by eapply like_trans| | |].
  - by destruct base.
  - intros x Hx%store_kont_values. apply elem_of_app. left. by apply list_elem_of_singleton in Hx as ->.
  - apply (safe_indexStore P m sema depth Hm); [exact H3|apply elem_of_app; by left..].
Qed.

Lemma clos_ok_insert (e : gmap str Value) k v : k <> lit "@fn" ->
  (forall x, e !! lit "@fn" = Some x -> is_fn m (v_i x) = true) -> forall x, <[k := v]> e !! lit "@fn" = Some x -> is_fn m (v_i x) = true.
Proof. intros Hk H x. rewrite lookup_insert_ne by done. apply H. Qed.

Lemma safe_capture outer f w i : I m w (frame_values f ++ outer) -> reg_in (length (regs f)) (ia i) ->
  reg_in (length (regs f)) (ib i) -> sname i <> lit "@fn" ->
  safe (out_post f outer) (exec_capture i f w).
Proof.
  intros H Ha Hb Hn. unfold exec_capture. apply safe_bind. eapply safe_mono; [by apply safe_getr|]. intros self Hself.
  destruct self as [| | | | | |[p|]| | | | | |]; try (by apply next_post).
  apply safe_bind. eapply safe_mono; [eapply safe_closure; [exact H|set_solver]|]. intros c [Hc Hne].
  apply safe_bind. eapply safe_mono; [by apply safe_getr|]. intros v Hv.
  destruct (I_cell _ _ _ _ _ H Hc) as [Hvals Hok]. unfold clos_ok in Hok. rewrite Forall_forall in Hvals. cbn [cell_values] in Hvals.
  destruct (c_env c) as [|e es] eqn:E; [done|]. apply next_post; [done|].
  apply (I_update m w _ p (CClos c)); [done|done|by cbn|]. split.
  - rewrite Forall_forall. cbn [cell_values c_env c_thisObj mbind list_bind]. intros x. rewrite !elem_of_app.
    intros [[[->|Hx]%env_insert|Hx]|Hx]; [eapply I_in; [exact H|set_solver]|..]; apply Hvals; cbn [mbind list_bind]; set_solver.
  - unfold clos_ok. cbn [c_env]. by apply clos_ok_insert.
Qed.

Lemma safe_load_capture outer f w i : I m w (frame_values f ++ outer) -> reg_in (length (regs f)) (ia i) ->
  safe (out_post f outer) (exec_load_capture i f w).
Proof.
  intros H Ha. unfold exec_load_capture. apply safe_bind. eapply safe_mono; [by apply safe_setr|]. intros f1 [Hl1 Hs1].
  assert (length (regs f1) = length (regs f)) as Hn1 by apply Hl1.
  assert (I m w (frame_values f1 ++ outer)) as H1 by (eapply I_sub; [apply (I_cons _ _ _ VVoid H); done|]; set_solver).
  apply safe_bind. eapply safe_mono; [apply safe_getr; rewrite Hn1; unfold reg_in in *; lia|]. intros self Hself.
  destruct self as [| | | | | |[p|]| | | | | |]; try (by apply next_post).
  apply safe_bind. eapply safe_mono; [eapply safe_closure; [exact H1|set_solver]|]. intros c [Hc _].
  destruct (c_env c) as [|e es] eqn:E; [by apply next_post|]. destruct (e !! sname i) as [v|] eqn:Ev; [|by apply next_post].
  apply safe_put; [done|done|]. apply I_cons; [done|]. eapply (I_content m w _ p); [exact H1|exact Hc|]. cbn [cell_values].
  rewrite E. apply elem_of_app. left. cbn [mbind list_bind]. apply elem_of_app. left. by eapply env_value.
Qed.

Lemma safe_on_object outer f w r k other name : I m w (frame_values f ++ outer) -> reg_in (length (regs f)) r ->
  (forall p o key, w_heap w !! p = Some (CObj o) -> safe (out_post f outer) (k p o key)) -> safe (out_post f outer) other ->
  safe (out_post f outer) (on_object f w r k other name).
Proof.
  intros H Hr Hk Ho. unfold on_object. apply safe_bind. eapply safe_mono; [by apply safe_getr|]. intros v Hv.
  destruct v as [| | | | |[p|]| | | | | | |]; try done. apply safe_bind.
  eapply safe_mono; [eapply safe_object; [exact H|set_solver]|]. intros o Hob. by apply Hk.
Qed.

Lemma safe_put_tracked outer f w a v : I m w (v :: frame_values f ++ outer) -> reg_in (length (regs f)) a ->
  safe (out_post f outer) (put_tracked own f w a v).
Proof.
  intros H Ha. unfold put_tracked. apply safe_bind. eapply safe_mono; [by apply safe_setr|]. intros f1 [Hl1 Hs1].
  assert (I m w (frame_values f1 ++ outer)) as H1 by (eapply I_sub; [exact H|]; set_solver).
  unfold track. destruct own as [sites|]; [|done]. destruct (existsb _ _); [|done]. by destruct (spOf v).
Qed.

Lemma track_ok f w v vals : I m w vals ->
  like (fst (track own f w v)) f /\ frame_values (fst (track own f w v)) = frame_values f /\ I m (snd (track own f w v)) vals.
Proof. intros H. unfold track. destruct own as [sites|]; [|done]. destruct (existsb _ _); [|done]. by destruct (spOf v). Qed.

Lemma safe_new_cell outer f w a v c : I m w (frame_values f ++ outer) -> reg_in (length (regs f)) a -> cell_ok m (w_heap w) c ->
  (forall h p, h !! p = Some c -> v_ok h (v p)) -> safe (out_post f outer) (new_cell P own f w a v c).
Proof.
  intros H Ha Hc Hv. unfold new_cell. rewrite (surjective_pairing (alloc P c w)). apply safe_put_tracked; [|done]. by apply I_new.
Qed.

(** ** Every instruction *)

Lemma fn_in_ok fn : fn ∈ functions m -> fn_ok m fn = true.
Proof.
  intros H. unfold module_ok in Hm. bool_hyps. match goal with H : forallb (fn_ok m) _ = true |- _ => rewrite forallb_forall in H; apply H end.
  by apply list_elem_of_In.
Qed.
Lemma inst_in_ok fn i : fn ∈ functions m -> i ∈ icode fn -> inst_ok m fn i = true.
Proof.
  intros Hfn%fn_in_ok Hi. unfold fn_ok in Hfn. bool_hyps. match goal with H : forallb (inst_ok m fn) _ = true |- _ => rewrite forallb_forall in H; apply H end.
  by apply list_elem_of_In.
Qed.
Lemma const_in_ok fn v h : fn ∈ functions m -> v ∈ consts fn -> v_ok h v.
Proof.
  intros Hfn%fn_in_ok Hv. unfold fn_ok in Hfn. bool_hyps.
  match goal with H : forallb (fun v => match refs v with _ => _ end) _ = true |- _ => rewrite forallb_forall in H; apply list_elem_of_In, H in Hv end.
  by destruct v as [| | | | |[]|[]|[]|[]| | |[]|[]].
Qed.
Lemma handler_in_ok fn h : fn ∈ functions m -> h ∈ handlers fn -> reg_in (nregs fn) (bindReg h).
Proof.
  intros Hfn%fn_in_ok Hh. unfold fn_ok in Hfn. bool_hyps.
  match goal with H : forallb (fun h => is_reg fn (bindReg h)) _ = true |- _ => rewrite forallb_forall in H; apply list_elem_of_In, H in Hh end.
  unfold is_reg, reg_in in *. lia.
Qed.

Lemma is_reg_in fn n r : n = nregs fn -> is_reg fn r = true -> reg_in n r.
Proof. intros ->. unfold is_reg, reg_in. lia. Qed.
Lemma is_window_spec fn n c d : n = nregs fn -> is_window fn c d = true -> is_window_in n c d.
Proof. intros ->. unfold is_window, is_window_in. lia. Qed.

Ltac operands Hn :=
  repeat match goal with
         | H : is_reg _ _ = true |- _ => apply (is_reg_in _ _ _ Hn) in H
         | H : is_window _ _ _ = true |- _ => apply (is_window_spec _ _ _ _ Hn) in H
         end.
Ltac read := apply safe_bind; eapply safe_mono; [by apply safe_getr|].

Lemma held_first v f w outer : I m w (frame_values f ++ outer) -> v ∈ frame_values f -> I m w (v :: frame_values f ++ outer).
Proof. intros H Hv. apply I_cons; [done|]. eapply I_in; [exact H|]. apply elem_of_app. by left. Qed.
Lemma held_in v f outer : v ∈ frame_values f -> v ∈ frame_values f ++ outer.
Proof. intros H. apply elem_of_app. by left. Qed.
Lemma cell_ok_nil h c : cell_values c = [] ->
  match c with CObj o => is_Some (o_cls o) | CClos _ | CBlock _ | CBytes _ => False | _ => True end -> cell_ok m h c.
Proof. intros H Hc. split; [rewrite H; apply Forall_nil_2|by destruct c]. Qed.

Lemma has_class_sym i : has_class i = true -> is_Some (sym i).
Proof. unfold has_class. by destruct (sym i). Qed.

(** The instructions in four groups. *)
Inductive OpGroup := GData | GCall | GObject | GCollection.
Definition op_group (o : Op) : OpGroup :=
  match o with
  | LoadConst | Default_ | Move | MoveClear | CopyVal | Arith | Not_ | Neg | LoadGlobal | StoreGlobal | Print_ | PrintNl | VFree => GData
  | Jump | JumpIfFalse | JumpIfTrue | Ret | RetVoid | Throw | Call | CallDyn | CallValue | CallNativeFn | Await | IsType => GCall
  | NewObject | GetMember | SetMember | RawGet | RawSet | RawGetWeak | RawSetWeak | MakeClosure | CaptureVar | LoadCapture => GObject
  | NewArray | NewArraySized | NewMap | NewBlock | NewBlockStr | MakeRange | GetIndex | IndexStore | IterLen | IterAt | ColGet => GCollection
  end.

Section Inst.
Context (fn : IrFunction) (i : Inst) (f : Frame) (w : Interp X) (outer : list Value).
Context (Hfn : fn ∈ functions m) (Hi : i ∈ icode fn) (Hn : length (regs f) = nregs fn) (H : I m w (frame_values f ++ outer)).
Abbreviation Goal_ := (safe (out_post f outer) (exec_inst P m sema own depth outer (icode fn) (consts fn) i f w)).

Ltac start_inst Hg :=
  pose proof (inst_in_ok fn i Hfn Hi) as Hok; unfold inst_ok in Hok; unfold exec_inst; cbv zeta;
  destruct (op i) eqn:Eop; try discriminate Hg; clear Hg; bool_hyps; operands Hn.

Lemma safe_exec_data : op_group (op i) = GData -> Goal_.
Proof.
  intros Hg. start_inst Hg.
  - (* LoadConst *) apply safe_bind. eapply safe_mono; [apply safe_at; lia|]. intros v Hv. apply safe_put; [done|done|].
    apply I_cons; [done|]. by apply (const_in_ok fn).
  - by apply safe_default.
  - read. intros v Hv. by apply safe_put; [| |apply held_first].
  - (* MoveClear *) read. intros v Hv. apply safe_bind. eapply safe_mono; [by apply safe_setr|]. intros f1 [Hl1 Hs1].
    apply safe_put; [done|done|]. apply I_cons; [|done]. eapply I_sub; [by apply (held_first v)|]. clear - Hs1. set_solver.
  - (* CopyVal *) read. intros v Hv. apply safe_bind.
    eapply safe_mono; [apply (safe_copy_value P m sema Hm depth v w (frame_values f ++ outer)); [done|by apply held_in]|].
    intros [v' w'] Hv'. by apply safe_put.
  - by apply safe_arith.
  - read. intros v Hv. apply safe_put; [done|done|]. by apply I_cons.
  - (* Neg *) read. intros v Hv. destruct v; try (apply safe_put; [done|done|by apply I_cons]);
      (apply safe_bind; eapply safe_mono; [apply safe_checked|]; intros n _; apply safe_put; [done|done|by apply I_cons]).
  - (* LoadGlobal *) unfold is_slot in *. bool_hyps. assert (length (globals_ w) = nglobals m) as Hg by apply H.
    apply safe_bind. eapply safe_mono; [apply safe_at; lia|]. intros v Hv. apply safe_put; [done|done|].
    apply I_cons; [done|]. apply (I_interp m w _ v H). unfold interp_values. apply elem_of_app. by left.
  - (* StoreGlobal *) unfold is_slot in *. bool_hyps. assert (length (globals_ w) = nglobals m) as Hg by apply H.
    read. intros v Hv. apply safe_bind. unfold put_index. destruct (Z.ltb_spec (ib i) 0); [lia|].
    destruct (Z.leb_spec (Z.of_nat (length (globals_ w))) (ib i)); [lia|]. cbn. split; [done|]. split; [done|].
    by apply I_globals; [|eapply I_in; [exact H|apply held_in]].
  - read. intros v Hv. apply safe_bind. destruct (valueToString _ _ _); [|by right; left]. apply next_post; [done|]. by apply I_emit.
  - apply next_post; [done|]. by apply I_emit.
  - by apply next_post.
Qed.

Lemma safe_exec_call : op_group (op i) = GCall -> Goal_.
Proof.
  intros Hg. start_inst Hg.
  - by apply next_post.
  - read. by intros v Hv.
  - read. by intros v Hv.
  - read. intros v Hv. split; [done|]. split; [done|]. by apply held_first.
  - split; [done|]. split; [done|]. by apply I_cons.
  - (* Throw *) read. intros v Hv. apply next_post; [done|]. apply I_set_throw; [done|]. eapply I_in; [exact H|by apply held_in].
  - (* Call *) apply safe_bind. eapply safe_mono; [by apply safe_win|]. intros args [Hargs _]. split; [done|]. split; [done|]. cbn.
    eapply I_sub; [exact H|]. clear - Hargs. set_solver.
  - apply safe_call_dyn; [done|done|done|lia].
  - apply safe_call_value; [done|done|done|lia].
  - by apply safe_native.
  - (* IsType *) read. intros v Hv. apply safe_bind. eapply safe_mono; [eapply safe_is_type; [exact H|by apply held_in]|]. intros b _.
    apply safe_put; [done|done|by apply I_cons].
  - by apply safe_await.
Qed.

Lemma safe_exec_object : op_group (op i) = GObject -> Goal_.
Proof.
  intros Hg. start_inst Hg.
  - (* NewObject *) set (c := CObj _).
    pose proof (I_new P m w (frame_values f ++ outer) c (fun p => VObject (Some p)) H) as Hnew.
    assert (cell_ok m (w_heap w) c) as Hc by (apply cell_ok_nil; [cbn; unfold env_values; by rewrite map_to_list_empty|by apply has_class_sym]).
    rewrite (surjective_pairing (alloc P c w)). specialize (Hnew Hc (fun h p => v_ok_obj h p _)).
    apply safe_bind. eapply safe_mono; [by apply safe_setr|]. intros f1 [Hl1 Hs1].
    assert (I m (snd (alloc P c w)) (VObject (Some (fst (alloc P c w))) :: frame_values f1 ++ outer)) as Hw1
      by (eapply I_sub; [exact Hnew|]; clear - Hs1; set_solver).
    pose proof (track_ok f1 (snd (alloc P c w)) (VObject (Some (fst (alloc P c w)))) _ Hw1) as (Hlt & Hfv & Hw2).
    destruct (track own f1 _ _) as [f2 w2]. cbn [fst snd] in Hlt, Hfv, Hw2.
    assert (like f2 f) as Hl2 by by eapply like_trans.
    destruct (Z.leb_spec 0 (ib i)) as [Hb|Hb].
    + split; [done|]. split; [split; [|done]; destruct (Z.ltb_spec (ib i) 0); [lia|done]|]. cbn. rewrite Hfv.
      eapply I_sub; [exact Hw2|]. clear. set_solver.
    + split; [done|]. split; [done|]. cbn. rewrite Hfv. eapply I_sub; [exact Hw2|]. clear. set_solver.
  - read. intros o Ho. apply safe_act; [done|done|by intros ? ?%elem_of_nil|]. apply (safe_getMember P m sema depth Hm); [exact H|by apply held_in].
  - read. intros o Ho. read. intros v Hv. apply safe_act; [done|done|by intros ? ?%elem_of_nil|].
    apply (safe_setMember P m sema depth Hm); [exact H|by apply held_in..].
  - apply safe_on_object; [done|done| |apply safe_put; [done|done|by apply I_cons]]. intros p o key Hob.
    apply safe_put; [done|done|]. apply I_cons; [done|]. destruct (fields o !! key) eqn:E; [|done]. exact (I_field m w _ p o _ _ H Hob E).
  - read. intros v Hv. apply safe_on_object; [done|done| |by apply next_post]. intros p o key Hob. apply next_post; [done|].
    apply (I_update m w _ p (CObj o)); [done|done|done|]. eapply cell_ok_field; [exact H|exact Hob|]. eapply I_in; [exact H|by apply held_in].
  - apply safe_on_object; [done|done| |apply safe_put; [done|done|by apply I_cons]]. intros p o key Hob.
    apply safe_put; [done|done|]. apply I_cons; [done|]. apply v_ok_weak_read.
  - read. intros v Hv. apply safe_on_object; [done|done| |by apply next_post]. intros p o key Hob. apply next_post; [done|].
    apply (I_update m w _ p (CObj o)); [done|done|by destruct v as [| | | | |[]| | | | | | |]|]. by eapply cell_ok_weak_write.
  - (* MakeClosure *) apply safe_new_cell; [done|done| |intros h p; by apply v_ok_clos]. split.
    + rewrite Forall_forall. cbn [cell_values c_env c_thisObj mbind list_bind]. intros x.
      rewrite !app_nil_r. by intros ->%env_singleton.
    + unfold clos_ok. cbn [c_env]. intros v Hv. rewrite lookup_singleton_eq in Hv. by injection Hv as <-.
  - apply safe_capture; [done|done|done|]. by apply eqs_neq.
  - by apply safe_load_capture.
Qed.

Lemma safe_exec_collection : op_group (op i) = GCollection -> Goal_.
Proof.
  intros Hg. start_inst Hg.
  - (* NewArray *) apply safe_bind. apply (safe_mono (fun vs => vs ⊆ frame_values f)).
    { case_match; [apply list_subseteq_nil|]. eapply safe_mono; [by apply safe_win|]. by intros vs [Hvs _]. }
    intros vs Hvs. apply safe_bind.
    eapply safe_mono; [apply (safe_spread_all P m sema Hm vs w (frame_values f ++ outer)); [done|clear - Hvs; set_solver]|].
    intros [xs w1] H1'. cbn [fst snd] in H1'. apply safe_new_cell; [|done| |intros h p; apply v_ok_arr].
    + eapply I_sub; [exact H1'|]. clear. set_solver.
    + apply cell_ok_values; [done|]. intros x Hx. eapply I_in; [exact H1'|]. apply elem_of_app. by left.
  - (* NewArraySized *) apply safe_bind. set (r := if id_ i =? 2 then _ else _).
    assert (safe (fun xs => forall x, x ∈ xs -> x ∈ frame_values f) r) as Hr.
    { unfold r. destruct (Z.eqb_spec (id_ i) 2) as [Hd|Hd]; [|by intros ? ?%elem_of_nil]. cbn [negb orb] in *. bool_hyps. operands Hn.
      read. intros n _. read. intros v Hv. apply safe_bind. eapply safe_mono; [apply safe_sized|]. intros _ _ x Hx. by apply elem_of_replicate in Hx as [-> _]. }
    eapply safe_mono; [exact Hr|]. intros xs Hxs. apply safe_new_cell; [done|done| |intros h p; apply v_ok_arr].
    apply cell_ok_values; [done|]. intros x Hx. eapply I_in; [exact H|]. apply held_in. by apply Hxs.
  - apply safe_new_cell; [done|done| |intros h p; apply v_ok_map]. by apply cell_ok_nil.
  - read. intros n _. apply safe_bind. eapply safe_mono; [apply safe_sized|]. intros _ _. rewrite (surjective_pairing (new_block P _ w)).
    apply safe_put_tracked; [apply I_new_block; [by apply Forall_replicate|done]|done].
  - read. intros v _. rewrite (surjective_pairing (new_block P _ w)).
    apply safe_put_tracked; [apply I_new_block; [apply Forall_map, Forall_true; apply code_range|done]|done].
  - (* MakeRange *) read. intros lo Hlo. read. intros hi Hhi. apply safe_new_cell; [done|done| |intros h p; apply v_ok_obj].
    apply cell_ok_values; [by apply has_class_sym|]. cbn. intros x [->|Hx]%env_insert; [eapply I_in; [exact H|by apply held_in]|].
    apply env_singleton in Hx as ->. eapply I_in; [exact H|by apply held_in].
  - read. intros b Hb. read. intros x Hx. apply safe_act; [done|done|by intros ? ?%elem_of_nil|].
    apply (safe_getIndex P m sema depth Hm); [exact H|by apply held_in..].
  - apply safe_index_store; try done. intros j Hj Ej. pose proof (inst_in_ok fn j Hfn Hj) as Hjok. unfold inst_ok in Hjok.
    rewrite Ej in Hjok. bool_hyps. by eapply is_reg_in.
  - read. intros v Hv. apply safe_bind. eapply safe_mono; [eapply safe_iterLen; [exact H|by apply held_in]|]. intros [n w1] H1'.
    by apply safe_put.
  - read. intros v Hv. read. intros n _. apply safe_bind.
    eapply safe_mono; [apply (safe_iterAt P m sema Hm v (v_i n) w _ H); by apply held_in|]. intros [x w1] H1'. by apply safe_put.
  - (* ColGet *) read. intros b Hb. read. intros x Hx. apply safe_bind.
    eapply safe_mono; [apply (safe_getIndex P m sema depth Hm); [exact H|by apply held_in..]|].
    intros [[v|fi args] w1] [Hok1 H1']; cbn [fst snd act_values act_ok] in *.
    + apply (out_weaken f outer (v :: outer)); [by right|]. apply safe_act; [done|done|clear; set_solver|].
      apply (safe_getMember P m sema depth Hm); [eapply I_sub; [exact H1'|clear; set_solver]|clear; set_solver].
    + split; [done|]. split; [done|]. cbn. eapply I_sub; [exact H1'|]. clear. set_solver.
Qed.

Lemma safe_exec : Goal_.
Proof.
  destruct (op_group (op i)) eqn:E; [by apply safe_exec_data|by apply safe_exec_call|by apply safe_exec_object|by apply safe_exec_collection].
Qed.
End Inst.

Lemma safe_resume outer f w k v : kont_ok (length (regs f)) k -> I m w (v :: kont_values k ++ frame_values f ++ outer) ->
  safe (out_post f outer) (resume P m sema depth k v f w).
Proof.
  intros Hk H. assert (I m w (v :: frame_values f ++ (kont_values k ++ outer))) as H1 by (eapply I_sub; [exact H|clear; set_solver]).
  apply (out_weaken f outer (v :: kont_values k ++ outer)); [clear; set_solver|].
  destruct k; cbn [resume kont_values] in *;
    try (apply safe_settle; [done|done|clear; set_solver|eapply I_sub; [exact H1|clear; set_solver]]).
  - apply safe_act; [done|done|clear; set_solver|]. apply (safe_getMember P m sema depth Hm); [|clear; set_solver].
    eapply I_sub; [exact H1|clear; set_solver].
  - apply safe_call_field; [done|done|clear; set_solver|]. eapply I_sub; [exact H1|clear; set_solver].
  - apply safe_pump; [done|done|]. eapply I_sub; [exact H1|clear; set_solver].
Qed.

(** ** Frames *)

Definition frame_ok f : Prop := exists fn, functions m !! f_fn f = Some fn /\ length (regs f) = nregs fn.
(** The frame is inside an instruction. *)
Definition in_inst f : Prop := exists fn i, functions m !! f_fn f = Some fn /\ 0 <= pc f /\ icode fn !! Z.to_nat (pc f) = Some i.
Definition susp_ok (s : Susp) : Prop := frame_ok (s_frame s) /\ in_inst (s_frame s) /\ kont_ok (length (regs (s_frame s))) (s_kont s).

Definition config_ok (c : @Config X) : Prop :=
  match c with
  | CRun w f below d => frame_ok f /\ Forall susp_ok below /\ I m w (frame_values f ++ outer_values below d)
  | CResume w v k f below d =>
      susp_ok (MkSusp f k []) /\ Forall susp_ok below /\ I m w (v :: kont_values k ++ frame_values f ++ outer_values below d)
  | CPark w c k pins f below d =>
      susp_ok (MkSusp f k pins) /\ Forall susp_ok below /\ cmd_values c ⊆ kont_values k ++ pins /\
      I m w (pins ++ kont_values k ++ frame_values f ++ outer_values below d)
  | CTop w d => I m w (drive_values d)
  | CHalt w => I m w []
  end.

Lemma fn_at fi : is_fn m fi = true -> exists fn, functions m !! Z.to_nat fi = Some fn /\ at_index (functions m) fi = Go fn.
Proof.
  unfold is_fn. intros H. bool_hyps. destruct (lookup_lt_is_Some_2 (functions m) (Z.to_nat fi)) as [fn Hfn]; [lia|].
  exists fn. split; [done|]. unfold at_index. destruct (Z.ltb_spec fi 0); [lia|]. by rewrite Hfn.
Qed.

Lemma enter_spec fi args : is_fn m fi = true ->
  exists g, enter_frame m fi args = Go g /\ frame_ok g /\ (forall x, x ∈ frame_values g -> x = VVoid \/ x ∈ args).
Proof.
  intros (fn & Hfn & Hat)%fn_at. unfold enter_frame. rewrite Hat. cbn. eexists. split; [done|]. split.
  - exists fn. split; [done|]. cbn. rewrite length_app, length_take, length_replicate. lia.
  - assert (forall y, y ∈ take (nregs fn) args \/ y ∈ drop (nregs fn) args -> y ∈ args) as Htd
      by (intros y; by rewrite <- elem_of_app, take_drop).
    intros x. unfold frame_values. cbn. rewrite !elem_of_app. intros [[Hx|Hx]|Hx]; auto. left. by apply elem_of_replicate in Hx as [-> _].
Qed.

(** ** Leaving, catching, stepping *)

Lemma I_settled w vals vs : I m w vs -> vals ⊆ vs -> I m (settle_heap vs w) vals.
Proof. intros H Hs. apply I_settle; [by eapply I_sub|done|done]. Qed.

Lemma safe_leave v f w below d : Forall susp_ok below -> I m w (v :: extra f ++ outer_values below d) ->
  safe config_ok (leave m v f w below d).
Proof.
  intros Hb H. unfold leave. set (w1 := check_weaks m f _). set (w2 := settle_heap _ w1).
  assert (I m w1 (v :: outer_values below d)) as H1.
  { apply (I_settled w (v :: outer_values below d)) in H; [|clear; set_solver]. exact H. }
  assert (I m w2 (v :: outer_values below d)) as H2 by by apply I_settled.
  destruct below as [|s below]; cbn [safe config_ok].
  - eapply I_sub; [exact H2|]. unfold outer_values. clear. set_solver.
  - apply Forall_cons in Hb as [(Hs1 & Hs2 & Hs3) Hb]. split; [done|]. split; [done|]. eapply I_sub; [exact H2|].
    unfold outer_values. cbn [mbind list_bind]. unfold susp_values. clear. set_solver.
Qed.

Lemma safe_find_handler at_ cls hs : safe (fun r => match r with Some h => h ∈ hs | None => True end) (find_handler sema depth at_ cls hs).
Proof.
  induction hs as [|h hs IH]; cbn [find_handler]; [done|].
  assert (safe (fun r => match r with Some x => x ∈ h :: hs | None => True end) (find_handler sema depth at_ cls hs)) as IH'.
  { eapply safe_mono; [exact IH|]. intros [x|] Hx; [by right|done]. }
  destruct (_ || _); [done|]. apply safe_bind. eapply safe_mono; [apply safe_is_subclass|]. intros [] _; [by left|done].
Qed.

Lemma safe_thrown_class w vals : I m w vals -> safe (fun _ => True) (thrown_class w).
Proof.
  intros H. unfold thrown_class. destruct (I_term_ok m w vals H) as [Ht _].
  destruct (thrown (term w)) as [| | | | |[p|]| | | | | | |]; try done. apply safe_bind.
  eapply safe_mono; [eapply (safe_object m w (VObject (Some p) :: vals)); [by apply I_cons|by left]|done].
Qed.

Lemma at_fn f fn : functions m !! f_fn f = Some fn -> at_index (functions m) (Z.of_nat (f_fn f)) = Go fn.
Proof. intros H. unfold at_index. destruct (Z.ltb_spec (Z.of_nat (f_fn f)) 0); [lia|]. rewrite Nat2Z.id. by rewrite H. Qed.

Lemma frame_extra f : extra f ⊆ frame_values f.
Proof. unfold frame_values. set_solver. Qed.

Lemma safe_dispatch f w below d : frame_ok f -> Forall susp_ok below -> I m w (frame_values f ++ outer_values below d) ->
  safe config_ok (dispatch m sema depth f w below d).
Proof.
  intros (fn & Hfn & Hlen) Hb H. unfold dispatch. destruct (is_throwing w); [|split; [by exists fn|done]].
  rewrite (at_fn f fn Hfn). apply safe_bind. cbn [safe]. apply safe_bind. eapply safe_mono; [by eapply safe_thrown_class|]. intros cls _.
  apply safe_bind. eapply safe_mono; [apply safe_find_handler|]. intros [h|] Hh.
  - assert (reg_in (length (regs f)) (bindReg h)) as Hr.
    { rewrite Hlen. apply handler_in_ok; [by eapply list_elem_of_lookup_2|done]. }
    apply safe_bind. eapply safe_mono; [by apply safe_setr|]. intros f1 [Hl1 Hs1]. destruct (I_term_ok m w _ H) as [Ht _].
    assert (I m (set_term (set_throw false (thrown (term w)) (term w)) w) (frame_values f1 ++ outer_values below d)) as H1.
    { apply I_set_throw; [|done]. eapply I_sub; [apply (I_cons _ _ _ _ H Ht)|]. clear - Hs1. set_solver. }
    destruct Hl1 as (Hf & _ & Hn & _). split; [exists fn; cbn; split; congruence|]. split; [done|]. by apply I_settled.
  - apply safe_leave; [done|]. eapply I_sub; [apply (I_cons _ _ _ VVoid H); done|]. pose proof (frame_extra f) as He. clear - He. set_solver.
Qed.

Lemma I_mem w vals mv : I m w vals -> I m (set_mem mv w) vals.
Proof. done. Qed.

Lemma safe_finish i fn f w below d : functions m !! f_fn f = Some fn -> i ∈ icode fn -> length (regs f) = nregs fn ->
  Forall susp_ok below -> I m w (frame_values f ++ outer_values below d) ->
  safe config_ok (finish_inst m sema memOn depth i f w below d).
Proof.
  intros Hfn Hi Hlen Hb H. unfold finish_inst. set (w1 := settle_heap _ w).
  assert (I m w1 (frame_values f ++ outer_values below d)) as H1 by by apply I_settled.
  assert (forall w', I m w' (frame_values f ++ outer_values below d) -> safe config_ok (dispatch m sema depth (set_pc (pc f + 1) f) w' below d)) as Hd.
  { intros w' H'. apply safe_dispatch; [by exists fn|done|done]. }
  apply safe_bind. destruct memOn; [|by apply Hd]. apply safe_bind. destruct (verified_alloc (op i)) eqn:Ev; [|by apply Hd, I_mem].
  apply safe_bind. eapply safe_mono; [apply safe_getr|intros v _; by apply Hd, I_mem].
  assert (inst_ok m fn i = true) as Hok by (apply inst_in_ok; [by eapply list_elem_of_lookup_2|done]).
  apply (is_reg_in fn); [done|]. unfold inst_ok in Hok. destruct (op i); try done; bool_hyps; done.
Qed.

Lemma safe_perform i fn f o below d : functions m !! f_fn f = Some fn -> 0 <= pc f -> icode fn !! Z.to_nat (pc f) = Some i ->
  length (regs f) = nregs fn -> Forall susp_ok below -> out_post f (outer_values below d) o ->
  safe config_ok (perform m sema memOn depth i o below d).
Proof.
  intros Hfn Hpc Hi Hlen Hb. destruct o as [[c g] w]. intros (Hl & Hc & H). destruct Hl as (Hf & Hp & Hn & He).
  assert (functions m !! f_fn g = Some fn) as Hg by congruence.
  assert (i ∈ icode fn) as Hin by by eapply list_elem_of_lookup_2.
  assert (forall k pins, kont_ok (length (regs f)) k -> susp_ok (MkSusp g k pins)) as Hsusp.
  { intros k pins Hk. split; [exists fn; split; cbn; congruence|]. split; [exists fn, i; cbn; rewrite Hp; done|]. cbn. by rewrite Hn. }
  destruct c as [|t|v|fi args k pins|tc k pins|k]; cbn [perform ctl_ok ctl_values app] in *.
  - apply (safe_finish i fn); [done|done|congruence|done|done].
  - apply safe_dispatch; [exists fn; split; cbn; congruence|done|done].
  - apply safe_leave; [done|]. eapply I_sub; [exact H|]. pose proof (frame_extra g) as Hx. clear - Hx. set_solver.
  - destruct Hc as [Hfi Hk]. destruct (enter_spec fi args Hfi) as (g' & -> & Hg' & Hv). cbn [run_bind safe config_ok].
    split; [done|]. split; [apply Forall_cons; auto|]. apply I_settled; [|done].
    eapply I_sub; [apply (I_cons _ _ _ VVoid H); done|]. unfold outer_values. cbn [mbind list_bind]. unfold susp_values. cbn [s_frame s_kont s_pins].
    intros x. rewrite !elem_of_cons, !elem_of_app. intros [Hx|Hx]; [apply Hv in Hx|]; tauto.
  - destruct Hc as [Hk Hcmd]. split; [by apply Hsusp|]. split; [done|]. split; [done|].
    apply I_settled; [eapply I_sub; [exact H|clear; set_solver]|done].
  - split; [by apply Hsusp|]. split; [done|]. by apply I_cons.
Qed.

Lemma current_spec f : frame_ok f -> exists fn, functions m !! f_fn f = Some fn /\ length (regs f) = nregs fn /\
  current_inst m f = Go (fn, if pc f <? 0 then None else icode fn !! Z.to_nat (pc f)).
Proof. intros (fn & Hfn & Hlen). exists fn. split; [done|]. split; [done|]. unfold current_inst. by rewrite (at_fn f fn Hfn). Qed.

Lemma safe_top_enter fi args w d : is_fn m fi = true -> I m w (args ++ drive_values d) ->
  safe config_ok (top_enter m fi args w d).
Proof.
  intros Hfi H. unfold top_enter. destruct (enter_spec fi args Hfi) as (g & -> & Hg & Hv). cbn [run_bind safe config_ok].
  split; [done|]. split; [apply Forall_nil_2|]. unfold outer_values. cbn [mbind list_bind app]. apply I_settled; [|done].
  eapply I_sub; [apply (I_cons _ _ _ VVoid H); done|]. clear - Hv. set_solver.
Qed.

Lemma fn_field (z : Z) : (z <? 0) || is_fn m z = true -> 0 <= z -> is_fn m z = true.
Proof. intros H Hz. destruct (Z.ltb_spec z 0); [lia|done]. Qed.

Lemma I_capture w vals : I m w vals -> I m (capture w) vals.
Proof.
  intros H. apply I_term; [done|]. destruct (I_term_ok m w vals H) as [H1 H2]. unfold rtCaptureTermination.
  destruct (negb _); [|destruct (termStashed _)]; cbn; by repeat constructor.
Qed.

Lemma safe_run_tail w vals : I m w vals -> safe (fun w => I m w vals) (run_tail w).
Proof.
  intros H. unfold run_tail. destruct (uncaught w); [|done]. apply safe_bind.
  assert (safe (fun _ => True) (uncaught_text w)) as Ht; [|eapply safe_mono; [exact Ht|done]].
  unfold uncaught_text. destruct (I_term_ok m w vals H) as [Ht _].
  destruct (thrown (term w)) as [| | | | |[p|]| | | | | | |]; try done. apply safe_bind.
  eapply safe_mono; [eapply (safe_object m w (VObject (Some p) :: vals)); [by apply I_cons|by left]|done].
Qed.

Lemma safe_top w d : I m w (drive_values d) -> safe config_ok (step_top P m w d).
Proof.
  intros H. assert (Hm' := Hm). unfold module_ok in Hm'. bool_hyps. unfold step_top.
  assert (forall d', drive_values d' = [] -> I m w (drive_values d')) as Hnil.
  { intros d' ->. eapply I_sub; [exact H|]. by intros ? ?%elem_of_nil. }
  assert (drive_values (after_entry P) = []) as Hae by (unfold after_entry; by destruct (lv_tasks_enabled P)).
  destruct d as [| |cb arg|cb|l|batch n|]; cbn [drive_values] in H.
  - destruct (Z.leb_spec 0 (ginit m)); [|by apply Hnil]. apply safe_top_enter; [by apply fn_field|by apply Hnil].
  - destruct (Z.leb_spec 0 (entry m)); [|by apply Hnil]. apply safe_top_enter; [by apply fn_field|by apply Hnil].
  - destruct (termStashed (term w)); [by apply Hnil with (d' := DTail)|]. apply safe_bind.
    eapply safe_mono; [eapply safe_closure_fn; [exact H|by left]|]. intros [i|] Hi; [|done].
    rewrite (int_of_fn m sema Hm i Hi). apply safe_top_enter; [done|]. eapply I_sub; [exact H|]. clear. set_solver.
  - destruct (termStashed (term w)); [by apply Hnil with (d' := DTail)|]. apply safe_bind.
    eapply safe_mono; [eapply safe_closure_fn; [exact H|by left]|]. intros [i|] Hi; [|done].
    rewrite (int_of_fn m sema Hm i Hi). apply safe_top_enter; [done|]. eapply I_sub; [exact H|]. clear. set_solver.
  - apply I_capture. by apply Hnil with (d' := DTail).
  - destruct (is_throwing w); [by apply Hnil|]. destruct (drop n batch) as [|j js] eqn:E.
    + destruct (hasWork (loop_ (host w))); [|by apply Hnil]. pose proof (I_batch w [] (Hnil DTail eq_refl)) as Hb.
      destruct (loop_env P (host w)) as [e h]. destruct (nextBatch e (loop_ h)) as [b lp]. cbn [safe config_ok drive_values].
      by rewrite app_nil_r in Hb.
    + assert (lc_callback j ∈ map callback_of batch) as Hj.
      { apply list_elem_of_In, in_map_iff. exists j. split; [done|]. apply list_elem_of_In.
        rewrite <- (take_drop n batch), E. apply elem_of_app. right. by left. }
      apply safe_bind. eapply safe_mono; [eapply safe_closure_fn; [exact H|done]|]. intros [i|] Hi; [|done].
      rewrite (int_of_fn m sema Hm i Hi). apply safe_top_enter; [done|].
      eapply I_sub; [apply (I_cons _ _ _ (VInt (lc_argument j)) H); done|]. clear - Hj. set_solver.
  - eapply safe_bind, safe_mono; [by apply safe_run_tail|done].
Qed.

(** One step, from any well-formed configuration. *)
Lemma safe_step c : config_ok c -> safe config_ok (step P m sema own memOn depth c).
Proof.
  destruct c as [w f below d|w v k f below d|w tc k pins f below d|w d|w]; intros Hc.
  - destruct Hc as (Hf & Hb & H). cbn [step]. destruct (current_spec f Hf) as (fn & Hfn & Hlen & ->). cbn [run_bind].
    assert (safe config_ok (leave m VVoid f w below d)) as Hleave.
    { apply safe_leave; [done|]. eapply I_sub; [apply (I_cons _ _ _ VVoid H); done|]. pose proof (frame_extra f) as He. clear - He. set_solver. }
    destruct (Z.ltb_spec (pc f) 0); [done|]. destruct (icode fn !! Z.to_nat (pc f)) as [i|] eqn:Ei; [|done].
    apply safe_bind. eapply safe_mono; [apply safe_exec; [by eapply list_elem_of_lookup_2..|done|done]|].
    intros o Ho. by apply (safe_perform i fn f).
  - destruct Hc as ((Hf & (fn' & i & Hfn' & Hpc & Hi) & Hk) & Hb & H). cbn [s_frame s_kont s_pins] in *. cbn [step].
    destruct (current_spec f Hf) as (fn & Hfn & Hlen & ->). assert (fn' = fn) as -> by congruence. cbn [run_bind].
    destruct (Z.ltb_spec (pc f) 0); [lia|]. rewrite Hi. cbn [from_option run_bind]. apply safe_bind.
    eapply safe_mono; [by apply safe_resume|]. intros o Ho. by apply (safe_perform i fn f).
  - done.
  - by apply safe_top.
  - done.
Qed.

Lemma safe_wake w r tc k pins f below d : config_ok (CPark w tc k pins f below d) -> safe config_ok (wake P m sema memOn depth w r k f below d).
Proof.
  intros ((Hf & (fn' & i & Hfn' & Hpc & Hi) & Hk) & Hb & _ & H). cbn [s_frame s_kont s_pins] in *. unfold wake.
  destruct (current_spec f Hf) as (fn & Hfn & Hlen & ->). assert (fn' = fn) as -> by congruence. cbn [run_bind].
  destruct (Z.ltb_spec (pc f) 0); [lia|]. rewrite Hi. cbn [from_option run_bind]. apply safe_bind.
  eapply safe_mono; [apply (safe_reply (outer_values below d)); [done|eapply I_sub; [exact H|clear; set_solver]]|]. intros o Ho. by apply (safe_perform i fn f).
Qed.

(** A task of a program: it starts as the program itself or as a callback,
    steps, and when it is parked it is woken in whatever state the other tasks
    have left, as long as that state keeps what the task holds. *)
Inductive task_reaches : @Config X -> Prop :=
| task_program h : host_ok m h [] -> task_reaches (start m h)
| task_body w d : I m w (drive_values d) -> task_reaches (CTop w d)
| task_step c c' : task_reaches c -> step P m sema own memOn depth c = Go c' -> task_reaches c'
| task_wake w w' r tc k pins f below d c' : task_reaches (CPark w tc k pins f below d) ->
    I m w' (pins ++ kont_values k ++ frame_values f ++ outer_values below d) ->
    wake P m sema memOn depth w' r k f below d = Go c' -> task_reaches c'.

Lemma start_ok h : host_ok m h [] -> config_ok (start m h).
Proof.
  intros (H1 & H2 & H3). unfold start, config_ok, run_init. split; [|cbn; by rewrite length_replicate]. split; [done|]. split; [done|].
  cbn. apply Forall_app. split; [rewrite Forall_forall; by intros x [-> _]%elem_of_replicate|by repeat constructor].
Qed.

Lemma task_reaches_ok c : task_reaches c -> config_ok c.
Proof.
  induction 1 as [h Hh|w d H|c c' _ IH Hs|w w' r tc k pins f below d c' _ IH H Hw].
  - by apply start_ok.
  - done.
  - apply safe_step in IH. by rewrite Hs in IH.
  - destruct IH as (Hs & Hb & Ht & _). assert (config_ok (CPark w' tc k pins f below d)) as Hc by done.
    apply (safe_wake w' r) in Hc. by rewrite Hw in Hc.
Qed.

(** Everything a configuration holds. *)
Definition config_values (c : @Config X) : list Value :=
  match c with
  | CRun w f below d => frame_values f ++ outer_values below d ++ interp_values w
  | CResume w v k f below d => v :: kont_values k ++ frame_values f ++ outer_values below d ++ interp_values w
  | CPark w tc k pins f below d => cmd_values tc ++ pins ++ kont_values k ++ frame_values f ++ outer_values below d ++ interp_values w
  | CTop w d => drive_values d ++ interp_values w
  | CHalt w => interp_values w
  end.
Definition config_heap (c : @Config X) : Heap :=
  match c with CRun w _ _ _ | CResume w _ _ _ _ _ | CPark w _ _ _ _ _ _ | CTop w _ | CHalt w => w_heap w end.

Lemma config_values_ok c : config_ok c -> heap_ok m (config_heap c) /\ forall v, v ∈ config_values c -> v_ok (config_heap c) v.
Proof.
  assert (forall w vals, I m w vals -> heap_ok m (w_heap w) /\ forall v, v ∈ vals ++ interp_values w -> v_ok (w_heap w) v) as HI.
  { intros w vals H. split; [apply H|]. intros v [Hv|Hv]%elem_of_app; [by eapply I_in|by eapply I_interp]. }
  destruct c as [w f below d|w v k f below d|w tc k pins f below d|w d|w]; cbn [config_ok config_heap config_values].
  - intros (_ & _ & H). apply HI in H. by rewrite <- app_assoc in H.
  - intros (_ & _ & H). apply HI in H. cbn in H. by rewrite <- !app_assoc in H.
  - intros (_ & _ & Ht & H). apply HI in H as [H1 H2]. split; [done|]. intros v Hv. apply H2. revert Hv. rewrite !elem_of_app. specialize (Ht v).
    rewrite !elem_of_app in Ht. tauto.
  - apply HI.
  - intros H. by apply HI in H.
Qed.

Lemma reachable_ok (h : Heap) vals : heap_ok m h -> (forall v, v ∈ vals -> v_ok h v) ->
  forall p, reachable (vrefs vals) h p -> is_Some (h !! p).
Proof.
  intros Hh Hv p Hr. induction Hr as [p Hp|p c q _ _ Hc Hq].
  - apply elem_of_vrefs in Hp as (v & Hin & Hp). eapply v_ok_alloc; [by apply Hv|done].
  - destruct (Hh _ _ Hc) as [H1 H2]. destruct c as [o|xs|es|cl|[bs ? ?]|bs|]; cbn [cell_refs b_bytes] in *;
      try (apply elem_of_vrefs in Hq as (v & Hin & Hq); rewrite Forall_forall in H1; eapply v_ok_alloc; [by apply H1|done]).
    destruct bs as [b|]; [|by apply elem_of_nil in Hq]. apply list_elem_of_singleton in Hq as ->. destruct H2 as (x & Hx & _). by eexists.
Qed.
End Sound.
