(* ===== verification/IrCow.v ===== *)
(** * Copy on write in the IR interpreter

    An array is a value: a store through one name is not seen through another.
    The interpreter implements the store in place when the register it reads
    the array from holds the only reference ([use_count() == 1]) and by a copy
    otherwise.  Here: whichever it does, the result holds the updated elements,
    every other cell is as before, and nothing but the result and the register
    the array was read from refers to the cell that was written. *)

From S2P Require Import TaskSched.
From S2P Require Import Prelude Token Value RefHeap Ir RuntimeLoop RuntimeCore MemVerify IrInterp IrTyping IrSafe IrSound.

Local Open Scope Z_scope.

(** ** Registers *)

Lemma getr_lookup f a v : getr f a = Go v <-> 0 <= a /\ regs f !! Z.to_nat a = Some v.
Proof.
  unfold getr, at_index. destruct (Z.ltb_spec a 0) as [Ha|Ha]; [split; [done|intros [? _]; lia]|].
  destruct (regs f !! Z.to_nat a) eqn:E; cbn; [|split; [done|by intros [_ ?]]]. split; [intros [= ->]; done|intros [_ [= ->]]; done].
Qed.

Lemma setr_spec f a v f' : setr f a v = Go f' -> 0 <= a < Z.of_nat (length (regs f)) /\ f' = set_regs (<[Z.to_nat a := v]> (regs f)) f.
Proof.
  unfold setr, put_index. destruct (Z.ltb_spec a 0); [done|]. destruct (Z.leb_spec (Z.of_nat (length (regs f))) a); [done|].
  cbn. intros [= <-]. done.
Qed.

Lemma setr_total f a v : reg_in (length (regs f)) a -> setr f a v = Go (set_regs (<[Z.to_nat a := v]> (regs f)) f).
Proof.
  intros [H1 H2]. unfold setr, put_index. destruct (Z.ltb_spec a 0); [lia|].
  by destruct (Z.leb_spec (Z.of_nat (length (regs f))) a); [lia|].
Qed.

Lemma getr_set f a b v : 0 <= a -> a <> b -> getr (set_regs (<[Z.to_nat a := v]> (regs f)) f) b = getr f b.
Proof.
  intros Ha Hne. unfold getr, at_index. destruct (Z.ltb_spec b 0); [done|]. cbn [regs set_regs].
  by rewrite list_lookup_insert_ne by lia.
Qed.

(** ** Counting *)

(** The only reference is the one in register [b]. *)
Lemma unique_register p f rest h b v : regs f !! b = Some v -> refs v = [p] ->
  use_count (vrefs (frame_values f ++ rest)) h p = 1%nat ->
  (forall j u, j <> b -> regs f !! j = Some u -> (p ∉ refs u)) /\ (p ∉ vrefs (extra f ++ rest)) /\ (p ∉ heap_refs h).
Proof.
  intros Hb Hv Hu. unfold use_count, frame_values in Hu. rewrite occurrences_app in Hu.
  rewrite <- (take_drop_middle _ _ _ Hb) in Hu. rewrite <- !app_assoc in Hu. unfold vrefs in Hu. rewrite bind_app in Hu.
  cbn [mbind list_bind app] in Hu. rewrite !occurrences_app, Hv in Hu.
  assert (occurrences p [p] = 1%nat) as H1 by (unfold occurrences; cbn; by rewrite Nat.eqb_refl). rewrite H1 in Hu.
  fold vrefs in Hu.
  assert (occurrences p (vrefs (take b (regs f))) = 0%nat /\ occurrences p (vrefs (drop (S b) (regs f) ++ extra f ++ rest)) = 0%nat /\
          occurrences p (heap_refs h) = 0%nat) as (Hl & Hr & Hh) by (unfold vrefs; lia).
  rewrite occurrences_zero in Hl, Hr, Hh. unfold vrefs in Hr. rewrite bind_app, not_elem_of_app in Hr. destruct Hr as [Hr1 Hr2].
  split; [|done]. intros j u Hj Hju Hp. destruct (decide (j < b)%nat) as [Hlt|Hge].
  - apply Hl, elem_of_vrefs. exists u. split; [|done]. apply list_elem_of_lookup_2 with (i := j). by rewrite lookup_take_lt.
  - apply Hr1, elem_of_vrefs. exists u. split; [|done]. apply list_elem_of_lookup_2 with (i := (j - S b)%nat).
    rewrite lookup_drop. by replace (S b + (j - S b))%nat with j by lia.
Qed.

Section Cow.
Context {X : Type} (P : Platform X) (m : IrModule) (sema : Sema) (depth : nat).
Context `{HP : !PlatformOk m P} (Hm : module_ok m sema = true).
Implicit Types (w : Interp X) (f : Frame) (outer : list Value).

(** The two temporaries cleared before the count is read. *)
Lemma cleared_temps insts i f : reg_in (length (regs f)) (ia i) ->
  ia i <> ib i -> ia i <> ic i -> ia i <> id_ i -> (forall j, j ∈ insts -> op j = CopyVal -> reg_in (length (regs f)) (ia j)) ->
  exists f2, like f2 f /\ frame_values f2 ⊆ VVoid :: frame_values f /\
    getr f2 (ib i) = getr f (ib i) /\ getr f2 (ic i) = getr f (ic i) /\ getr f2 (id_ i) = getr f (id_ i) /\
    forall outer w, exec_index_store P m sema depth outer insts i f w =
      let roots := vrefs (frame_values f2 ++ outer ++ interp_values w) in
      let w := set_heap (collect roots (w_heap w)) w in
      let! base := getr f2 (ib i) in
      let! idx := getr f2 (ic i) in
      let! v := getr f2 (id_ i) in
      act (indexStore P m sema depth roots base idx v w) (match base with VObject _ => KKeep (ia i) base | _ => KSet (ia i) end) [] f2.
Proof.
  intros Ha Hab Hac Had Hins. pose (f1 := set_regs (<[Z.to_nat (ia i) := VVoid]> (regs f)) f).
  assert (forall g a, reg_in (length (regs g)) a -> like (set_regs (<[Z.to_nat a := VVoid]> (regs g)) g) g /\
    frame_values (set_regs (<[Z.to_nat a := VVoid]> (regs g)) g) ⊆ VVoid :: frame_values g) as Hset.
  { intros g a Hr. pose proof (safe_setr g a VVoid Hr) as Hs. by rewrite (setr_total g a VVoid Hr) in Hs. }
  destruct (Hset f (ia i) Ha) as [Hl1 Hs1]. fold f1 in Hl1, Hs1.
  assert (forall b, ia i <> b -> getr f1 b = getr f b) as Hget1 by (intros b Hb; apply getr_set; [unfold reg_in in Ha; lia|done]).
  unfold exec_index_store. rewrite (setr_total f (ia i) VVoid Ha). cbn [run_bind]. fold f1.
  set (ct := match insts !! _ with Some _ => _ | None => _ end).
  assert (exists f2, ct = Go f2 /\ like f2 f1 /\ frame_values f2 ⊆ VVoid :: frame_values f1 /\
    forall b, b = ib i \/ b = ic i \/ b = id_ i -> getr f2 b = getr f1 b) as (f2 & Hct & Hl2 & Hs2 & Hget2).
  { assert (exists f2, Go f1 = Go f2 /\ like f2 f1 /\ frame_values f2 ⊆ VVoid :: frame_values f1 /\
      forall b, b = ib i \/ b = ic i \/ b = id_ i -> getr f2 b = getr f1 b) as Hsame.
    { exists f1. split_and!; try done. clear. set_solver. }
    unfold ct. destruct (insts !! Z.to_nat (pc f1 + 1)) as [n1|] eqn:E1; [|done].
    destruct (insts !! Z.to_nat (pc f1 + 2)) as [n2|]; [|done].
    destruct (bool_decide (op n1 = CopyVal)) eqn:Eop; [|done]. apply bool_decide_eq_true in Eop. case_match eqn:Et; [|done].
    assert (reg_in (length (regs f1)) (ia n1)) as Hr1.
    { destruct Hl1 as (_ & _ & -> & _). apply (Hins n1); [by eapply list_elem_of_lookup_2|done]. }
    destruct (Hset f1 (ia n1) Hr1) as [Hl Hs]. rewrite (setr_total f1 _ _ Hr1). eexists. split; [done|]. split; [exact Hl|]. split; [exact Hs|].
    intros b Hb. cbn [andb] in Et. bool_hyps. apply getr_set; [unfold reg_in in Hr1; lia|]. destruct Hb as [->|[->| ->]]; done. }
  exists f2. split; [by eapply like_trans|]. split; [clear - Hs1 Hs2; set_solver|].
  do 3 (split; [rewrite Hget2, Hget1 by auto; done|]). intros outer w. by rewrite Hct.
Qed.

(** [ys] is [xs] with [v] at [k]; an index that is not in [xs] changes nothing. *)
Definition replaced (xs : list Value) (k : Z) (v : Value) (ys : list Value) : Prop :=
  length ys = length xs /\
  forall n, (n < length xs)%nat -> ys !! n = if Z.of_nat n =? k then Some v else xs !! n.

Lemma store_element_replaced xs k v : replaced xs k v (store_element xs k v).
Proof.
  unfold replaced, store_element. destruct (Z.ltb_spec k 0) as [Hk|Hk].
  - split; [done|]. intros n _. by destruct (Z.eqb_spec (Z.of_nat n) k); [lia|].
  - split; [apply length_insert|]. intros n Hn. destruct (Z.eqb_spec (Z.of_nat n) k) as [<-|Hne].
    + rewrite Nat2Z.id. by apply list_lookup_insert_eq.
    + apply list_lookup_insert_ne. lia.
Qed.

(** What a store leaves: [q] is the array it returns.  Only an array stored into
    itself, from the register it is read from, can come to refer to itself. *)
Record stored (xs : list Value) (idx v : Value) (i : Inst) outer (w : Interp X) (f' : Frame) (w' : Interp X) (q : loc) : Prop := {
  st_result : getr f' (ia i) = Go (VArray (Some q));
  st_elems : exists ys, w_heap w' !! q = Some (CArr ys) /\ replaced xs (v_i idx) v ys;
  st_others : forall r c, r <> q -> w_heap w' !! r = Some c -> w_heap w !! r = Some c;
  st_regs : forall j u, 0 <= j -> j <> ia i -> j <> ib i -> getr f' j = Go u -> (q ∉ refs u);
  st_outer : forall u, u ∈ extra f' ++ outer ++ interp_values w' -> (q ∉ refs u);
  st_cells : forall r c, w_heap w' !! r = Some c -> q ∈ cell_refs c -> r = q /\ ib i = id_ i
}.

Lemma fresh_unreferenced w vals v : I m w vals -> v_ok (w_heap w) v -> next_loc (host w) ∉ refs v.
Proof.
  intros [(_ & H & _) _] Hv Hp. apply (v_ok_alloc _ _ _ Hv), H in Hp. lia.
Qed.
Lemma fresh_cells w vals r c : I m w vals -> w_heap w !! r = Some c -> next_loc (host w) ∉ cell_refs c.
Proof.
  intros H Hc Hp. assert (H' := H). destruct H as [(Hh & Hn & _) _].
  destruct (Hh _ _ Hc) as [H1 H2]. destruct c as [o|xs|es|cl|[bs ? ?]|bs|]; cbn [cell_refs b_bytes] in *;
    try (apply elem_of_vrefs in Hp as (v & Hin & Hp); rewrite Forall_forall in H1; exact (fresh_unreferenced w vals v H' (H1 v Hin) Hp)).
  destruct bs as [b|]; [|by apply elem_of_nil in Hp]. apply list_elem_of_singleton in Hp as <-. destruct H2 as (x & Hx & _).
  specialize (Hn (next_loc (host w)) (mk_is_Some _ _ Hx)). lia.
Qed.

Lemma array_refs xs q v i : (forall x, x ∈ xs -> q ∉ refs x) -> q ∉ refs v -> q ∉ cell_refs (CArr (store_element xs i v)).
Proof.
  intros Hx Hv Hq. cbn in Hq. apply elem_of_vrefs in Hq as (x & Hin & Hq). apply store_element_in in Hin as [->|Hin]; [done|].
  by apply (Hx x).
Qed.

(** The register file after the store. *)
Lemma put_result f w a q : reg_in (length (regs f)) a ->
  put f w a (VArray (Some q)) = Go (Next, set_regs (<[Z.to_nat a := VArray (Some q)]> (regs f)) f, w).
Proof. intros Ha. unfold put. by rewrite (setr_total f a _ Ha). Qed.

Section Store.
Context (i : Inst) (f : Frame) (w : Interp X) (outer : list Value) (p : loc) (xs : list Value) (idx v : Value).
Context (Ha : reg_in (length (regs f)) (ia i)) (Hab : ia i <> ib i) (Hb0 : 0 <= ib i).
Context (HI : I m w (frame_values f ++ outer)) (Hbase : getr f (ib i) = Go (VArray (Some p))).
Context (Hidx : getr f (ic i) = Go idx) (Hv : getr f (id_ i) = Go v) (Hxs : w_heap w !! p = Some (CArr xs)).
Abbreviation f' q := (set_regs (<[Z.to_nat (ia i) := VArray (Some q)]> (regs f)) f).

Lemma value_in_frame j u : getr f j = Go u -> u ∈ frame_values f.
Proof. intros [_ Hj]%getr_lookup. unfold frame_values. apply elem_of_app. left. by eapply list_elem_of_lookup_2. Qed.

Lemma result_in q : getr (f' q) (ia i) = Go (VArray (Some q)).
Proof.
  apply getr_lookup. unfold reg_in in Ha. split; [lia|]. cbn [regs set_regs]. apply list_lookup_insert_eq. lia.
Qed.

Lemma store_in_place : use_count (vrefs (frame_values f ++ outer ++ interp_values w)) (w_heap w) p = 1%nat ->
  stored xs idx v i outer w (f' p) (set_heap (<[p := CArr (store_element xs (v_i idx) v)]> (w_heap w)) w) p.
Proof.
  intros Hu. apply getr_lookup in Hbase as [_ Hb]. destruct (unique_register p f _ _ _ _ Hb eq_refl Hu) as (H1 & H2 & H3).
  assert (p ∈ refs v -> ib i = id_ i) as Hpv.
  { intros Hp. apply getr_lookup in Hv as [Hd Hv']. destruct (decide (ib i = id_ i)) as [|Hne]; [done|].
    exfalso. apply (H1 (Z.to_nat (id_ i)) v); [lia|done|done]. }
  split.
  - apply result_in.
  - eexists. split; [apply lookup_insert_eq|apply store_element_replaced].
  - intros r c Hr. cbn [w_heap set_heap set_host host host_heap heap]. by rewrite lookup_insert_ne.
  - intros j u Hj Hja Hjb Hu'. unfold reg_in in Ha. rewrite getr_set in Hu' by lia. apply getr_lookup in Hu' as [_ Hu'].
    apply (H1 (Z.to_nat j)); [lia|done].
  - intros u Hin Hp. apply H2, elem_of_vrefs. exists u. done.
  - intros r c Hc. cbn in Hc. apply lookup_insert_Some in Hc as [[<- <-]|[_ Hc]].
    + intros Hp. split; [done|]. apply Hpv. apply elem_of_vrefs in Hp as (x & Hin & Hp).
      apply store_element_in in Hin as [->|Hin]; [done|]. exfalso. apply H3, elem_of_heap_refs. exists p, (CArr xs). split; [done|].
      cbn. apply elem_of_vrefs. eauto.
    + intros Hp. exfalso. apply H3, elem_of_heap_refs. eauto.
Qed.

Lemma store_by_copy :
  stored xs idx v i outer w (f' (next_loc (host w))) (snd (alloc P (CArr (store_element xs (v_i idx) v)) w)) (next_loc (host w)).
Proof.
  assert (w_heap w !! next_loc (host w) = None) as Hn.
  { apply eq_None_not_Some. destruct HI as [(_ & H & _) _]. intros Hp%H. lia. }
  assert (forall u, u ∈ frame_values f ++ outer ++ interp_values w -> next_loc (host w) ∉ refs u) as Hfresh.
  { intros u Hin. apply (fresh_unreferenced w _ _ HI). rewrite !elem_of_app in Hin.
    destruct Hin as [Hu|[Hu|Hu]]; [eapply I_in; [exact HI|apply elem_of_app; by left]|eapply I_in; [exact HI|apply elem_of_app; by right]|].
    by eapply I_interp. }
  split.
  - apply result_in.
  - eexists. split; [apply lookup_insert_eq|apply store_element_replaced].
  - intros r c Hr. cbn. by rewrite lookup_insert_ne.
  - intros j u Hj Hja Hjb Hu. unfold reg_in in Ha. rewrite getr_set in Hu by lia. apply Hfresh. apply value_in_frame in Hu.
    rewrite elem_of_app. by left.
  - intros u Hu. change (u ∈ extra f ++ outer ++ interp_values w) in Hu. apply Hfresh. unfold frame_values.
    rewrite !elem_of_app in *. tauto.
  - intros r c Hc Hq. exfalso. revert Hq. cbn in Hc. apply lookup_insert_Some in Hc as [[_ <-]|[_ Hc]]; [|by eapply fresh_cells].
    apply array_refs.
    + intros x Hx. apply (fresh_unreferenced w _ _ HI). eapply (I_content m w _ p); [exact HI|exact Hxs|done].
    + apply Hfresh. apply elem_of_app. left. by eapply value_in_frame.
Qed.
End Store.

Lemma set_heap_interp h w : interp_values (set_heap h w) = interp_values w.
Proof. done. Qed.

(** A store through a register is a store into a value. *)
Lemma index_store_value insts i f w outer p xs idx v :
  I m w (frame_values f ++ outer) -> (forall j, j ∈ insts -> op j = CopyVal -> reg_in (length (regs f)) (ia j)) ->
  reg_in (length (regs f)) (ia i) -> ia i <> ib i -> ia i <> ic i -> ia i <> id_ i ->
  getr f (ib i) = Go (VArray (Some p)) -> getr f (ic i) = Go idx -> getr f (id_ i) = Go v -> w_heap w !! p = Some (CArr xs) ->
  exists f' w' q, exec_index_store P m sema depth outer insts i f w = Go (Next, f', w') /\ stored xs idx v i outer w f' w' q.
Proof.
  intros H Hins Ha Hab Hac Had Hb Hc Hd Hxs.
  destruct (cleared_temps insts i f Ha Hab Hac Had Hins) as (f2 & Hl & Hs & Gb & Gc & Gd & Heq). rewrite Heq. clear Heq. cbv zeta.
  rewrite Gb, Gc, Gd, Hb, Hc, Hd. cbn [run_bind]. set (roots := vrefs _). set (w2 := set_heap (collect roots (w_heap w)) w).
  assert (I m w (frame_values f2 ++ outer)) as H2 by (eapply I_sub; [apply (I_cons _ _ _ VVoid H); done|clear - Hs; set_solver]).
  assert (I m w2 (frame_values f2 ++ outer)) as H3.
  { pose proof (I_settled m w _ _ H2 (reflexivity _)) as Hst. unfold settle_heap in Hst. by rewrite <- app_assoc in Hst. }
  assert (VArray (Some p) ∈ frame_values f2) as Hin2 by (eapply value_in_frame; rewrite Gb; exact Hb).
  assert (w_heap w2 !! p = Some (CArr xs)) as Hxs2.
  { apply collect_held; [|done]. apply elem_of_app. left. apply elem_of_vrefs. exists (VArray (Some p)).
    split; [apply elem_of_app; by left|by left]. }
  assert (reg_in (length (regs f2)) (ia i)) as Ha2 by (destruct Hl as (_ & _ & -> & _); done).
  assert (0 <= ib i) as Hb0 by (apply getr_lookup in Hb as [? _]; done).
  assert (array_at w2 p = Go xs) as Harr by (unfold array_at, h_arr; by rewrite Hxs2).
  assert (forall f' w' q, stored xs idx v i outer w2 f' w' q -> stored xs idx v i outer w f' w' q) as Hback.
  { intros f' w' q [S1 S2 S3 S4 S5 S6]. split; try done. intros r c Hr Hc'. apply (lookup_weaken (w_heap w2)); [by apply S3|].
    apply collect_subseteq. }
  unfold indexStore. rewrite Harr. cbn [run_bind]. destruct (Nat.eqb_spec (use_count roots (w_heap w2) p) 1) as [Hu|Hu].
  - eexists _, _, p. unfold act. cbn [run_bind settle]. split; [by apply put_result|]. apply Hback.
    by apply (store_in_place i f2 w2 outer p xs idx v); try done; rewrite ?Gb, ?Gc, ?Gd.
  - eexists _, _, (next_loc (host w2)). rewrite (surjective_pairing (alloc P _ w2)). unfold act. cbn [run_bind settle].
    split; [by apply put_result|]. apply Hback.
    by apply (store_by_copy i f2 w2 outer p xs idx v); try done; rewrite ?Gb, ?Gc, ?Gd.
Qed.
End Cow.
