(* ===== verification/IrUnwind.v ===== *)
(** * Exceptions in the IR interpreter

    An instruction that raises leaves a flag behind; each frame on the way out
    finishes the instruction it was in and looks for a handler there.  Here:
    the exception reaches the innermost suspended frame with a handler of its
    class, with the value that was thrown, and the frames above it are gone; or,
    without such a frame, it reaches the top level unchanged.

    One continuation is left out: a call through a field whose getter threw
    raises an exception of its own over it. *)

From S2P Require Import TaskSched.
From S2P Require Import Prelude Token Value RefHeap Ir RuntimeLoop RuntimeCore MemVerify IrInterp IrTyping IrSafe IrSound IrCow.

Local Open Scope Z_scope.

Section Unwind.
Context {X : Type} (P : Platform X) (m : IrModule) (sema : Sema) (own : option (list (nat * Z))) (memOn : bool) (depth : nat).
Context `{HP : !PlatformOk m P} (Hm : module_ok m sema = true).
Implicit Types (w : Interp X) (f : Frame) (below : list Susp).

(** *** The handler of a class, as the language has it *)

(** A class and its bases; the order of the bases and how they are searched
    play no part. *)
Definition base_of (a b : Symbol) : Prop := exists cd, class_decl sema a = Some cd /\ Some b ∈ cd_bases cd.
(** The clause is around the instruction and its type is a class of the object. *)
Definition handles (cls : option Symbol) (at_ : Z) (h : Handler) : Prop :=
  h_start h <= at_ < h_end h /\ exists a b, cls = Some a /\ h_type h = Some b /\ rtc base_of a b.
(** The first such clause of the function the frame is in. *)
Definition clause (cls : option Symbol) f (h : Handler) : Prop :=
  exists fn i, functions m !! f_fn f = Some fn /\ handlers fn !! i = Some h /\ handles cls (pc f) h /\
    forall i' h', (i' < i)%nat -> handlers fn !! i' = Some h' -> ~ handles cls (pc f) h'.
Definition uncaught (cls : option Symbol) f : Prop :=
  forall fn h, functions m !! f_fn f = Some fn -> h ∈ handlers fn -> ~ handles cls (pc f) h.
(** No chain of bases from the class is as long as the recursion bound. *)
Definition shallow (n : nat) (a : Symbol) : Prop := forall k b, nsteps base_of k a b -> (k < n)%nat.

Lemma shallow_base n a b : shallow (S n) a -> base_of a b -> shallow n b.
Proof. intros H Hb k c Hk. apply Nat.succ_lt_mono. eapply H. by eapply nsteps_l. Qed.

Lemma first_base_spec {A} (f : Symbol -> Run (option A)) bs (Q : Symbol -> Prop) :
  (forall b, Some b ∈ bs -> exists r, f b = Go r /\ (is_Some r <-> Q b)) ->
  exists r, first_base f bs = Go r /\ (is_Some r <-> exists b, Some b ∈ bs /\ Q b).
Proof.
  induction bs as [|[b|] bs IH]; intros Hf; cbn [first_base].
  - exists None. split; [done|]. split; [by intros [? ?]|]. by intros (b & Hb%elem_of_nil & _).
  - destruct (Hf b) as (r & -> & Hr); [by left|]. cbn [run_bind]. destruct r as [x|].
    + exists (Some x). split; [done|]. split; [|done]. intros _. exists b. split; [by left|]. by apply Hr.
    + destruct IH as (r & -> & Hr'); [intros b' ?; apply Hf; by right|]. exists r. split; [done|]. rewrite Hr'.
      split; intros (b' & Hb & HQ); exists b'; (split; [|done]); [by right|]. apply elem_of_cons in Hb as [[= ->]|Hb]; [|done].
      exfalso. apply Hr in HQ. by destruct HQ.
  - destruct IH as (r & -> & Hr); [intros b' ?; apply Hf; by right|]. exists r. split; [done|]. rewrite Hr.
    split; intros (b' & Hb & HQ); exists b'; (split; [|done]); [by right|]. by apply elem_of_cons in Hb as [?|Hb].
Qed.

Lemma subclass_spec n : forall a b, shallow n a -> exists r, subclass sema n a b = Go r /\ (r = true <-> rtc base_of a b).
Proof.
  induction n as [|n IH]; intros a b Hs; [pose proof (Hs 0%nat a (nsteps_O _ _)); lia|].
  cbn [subclass]. destruct (decide (a = b)) as [->|Hne]; [by exists true|].
  assert (rtc base_of a b <-> exists c, base_of a c /\ rtc base_of c b) as Hrtc.
  { split; [intros H; by inversion H; subst; [|eauto]|]. intros (c & Hc & H). by eapply rtc_l. }
  destruct (class_decl sema a) as [cd|] eqn:Ecd.
  2: { exists false. split; [done|]. rewrite Hrtc. split; [done|]. intros (c & (cd & H & _) & _). congruence. }
  edestruct (first_base_spec (fun s => let! r := subclass sema n s b in Go (if r then Some tt else None)) (cd_bases cd)
    (fun c => rtc base_of c b)) as (r & -> & Hr).
  { intros c Hc. destruct (IH c b) as (r & -> & Hr); [apply (shallow_base _ a); [done|by exists cd]|]. cbn [run_bind].
    eexists. split; [done|]. rewrite <- Hr. by destruct r; split. }
  cbn [run_bind]. eexists. split; [done|]. rewrite Hrtc. transitivity (is_Some r); [by destruct r as [[]|]; split|]. rewrite Hr.
  split; intros (c & H1 & H2); exists c; (split; [|done]); [by exists cd|]. destruct H1 as (cd' & E & ?). congruence.
Qed.

Lemma find_handler_spec at_ cls hs : (forall a, cls = Some a -> shallow depth a) ->
  exists r, find_handler sema depth at_ cls hs = Go r /\
    match r with
    | Some h => exists i, hs !! i = Some h /\ handles cls at_ h /\ forall i' h', (i' < i)%nat -> hs !! i' = Some h' -> ~ handles cls at_ h'
    | None => forall h, h ∈ hs -> ~ handles cls at_ h
    end.
Proof.
  intros Hs. induction hs as [|h hs (r & Hr & IH)]; cbn [find_handler]; [exists None; split; [done|]; by intros h ?%elem_of_nil|].
  assert (~ handles cls at_ h -> exists r, find_handler sema depth at_ cls hs = Go r /\
    match r with
    | Some h' => exists i, (h :: hs) !! i = Some h' /\ handles cls at_ h' /\
        forall i' h'', (i' < i)%nat -> (h :: hs) !! i' = Some h'' -> ~ handles cls at_ h''
    | None => forall h', h' ∈ h :: hs -> ~ handles cls at_ h'
    end) as Hskip.
  { intros Hn. exists r. split; [done|]. destruct r as [h'|].
    - destruct IH as (i & Hi & Hh & Hf). exists (S i). split_and!; [done..|]. intros [|i'] h'' Hlt; [by intros [= ->]|]. apply Hf. lia.
    - intros h' [->|Hin]%elem_of_cons; [done|by apply IH]. }
  destruct (Z.ltb_spec at_ (h_start h)); [apply Hskip; unfold handles; lia|].
  destruct (Z.leb_spec (h_end h) at_); cbn [orb]; [apply Hskip; unfold handles; lia|].
  destruct cls as [a|]; [destruct (h_type h) as [b|] eqn:Eb|]; cbn [isSubclassOrSelf run_bind].
  - destruct (subclass_spec depth a b) as (sub & -> & Hsub); [by apply Hs|]. cbn [run_bind]. destruct sub.
    + exists (Some h). split; [done|]. exists 0%nat. split; [done|]. split; [|lia]. split; [lia|]. exists a, b. split_and!; [done..|]. by apply Hsub.
    + apply Hskip. intros (_ & a' & b' & [= <-] & E & Hd). assert (b' = b) as -> by congruence. apply Hsub in Hd. done.
  - apply Hskip. intros (_ & a' & b' & _ & E & _). congruence.
  - apply Hskip. by intros (_ & a' & b' & E & _).
Qed.

(** The handler a frame suspended in an instruction has for a class. *)
Definition catches (cls : option Symbol) f : Run (option Handler) :=
  let! fn := at_index (functions m) (Z.of_nat (f_fn f)) in find_handler sema depth (wrap_s 32 (pc f)) cls (handlers fn).

(** The innermost of them. *)
Fixpoint catcher (cls : option Symbol) (fs : list Frame) : Run (option (nat * Handler)) :=
  match fs with
  | [] => Go None
  | f :: fs' =>
      let! h := catches cls f in
      match h with
      | Some h => Go (Some (O, h))
      | None => let! r := catcher cls fs' in Go (match r with Some (j, h) => Some (S j, h) | None => None end)
      end
  end.

(** What a call's caller does with the exception of its callee. *)
Definition passes (k : Kont) : bool :=
  match k with KSet _ | KDrop | KNot _ | KKeep _ _ | KColMember _ _ | KPump _ _ _ _ => true | _ => false end.

Lemma setr_like f a v f' : setr f a v = Go f' -> like f' f.
Proof. intros [Ha ->]%setr_spec. unfold like. cbn. by rewrite length_insert. Qed.

Lemma resume_passes outer f w k : passes k = true -> kont_ok (length (regs f)) k -> is_throwing w = true ->
  I m w (kont_values k ++ frame_values f ++ outer) -> exists f', resume P m sema depth k VVoid f w = Go (Next, f', w) /\ like f' f.
Proof.
  intros Hp Hk Ht H.
  assert (forall a v, reg_in (length (regs f)) a -> exists f', put f w a v = Go (Next, f', w) /\ like f' f) as Hput.
  { intros a v Ha. unfold put. rewrite (setr_total f a v Ha). eexists. split; [done|]. by eapply setr_like, setr_total. }
  destruct k as [a| |a|a b|a key|a win name|a p batch n|a p sv|a|a n sv|a sv|a]; try discriminate Hp; cbn [resume settle kont_ok] in *; auto.
  - by exists f.
  - by apply Hput.
  - unfold pump. destruct p as [| | | | |[l|]| | | | | | |]; auto. rewrite Ht. unfold await_value.
    pose proof (safe_object m w _ l H ltac:(by left)) as Ho. destruct (object_at w l) as [o|e] eqn:Eo; cbn [run_bind].
    + rewrite Ht. cbn [negb andb]. by apply Hput.
    + unfold object_at in Eo. destruct (h_obj (w_heap w) l); [done|]. injection Eo as <-. by destruct Ho as [|[]].
Qed.

(** ** The thrown object outlives the frames *)

Lemma thrown_class_settle vs w : thrown_class (settle_heap vs w) = thrown_class w.
Proof.
  unfold thrown_class. change (term (settle_heap vs w)) with (term w).
  destruct (thrown (term w)) as [| | | | |[p|]| | | | | | |] eqn:E; try done. f_equal. unfold object_at, h_obj. f_equal.
  change (w_heap (settle_heap vs w)) with (collect (vrefs (vs ++ interp_values w)) (w_heap w)).
  destruct (w_heap w !! p) as [c|] eqn:Ep.
  - rewrite (collect_held _ _ p c); [done| |done]. apply elem_of_app. left. apply elem_of_vrefs. exists (VObject (Some p)).
    split; [|by left]. apply elem_of_app. right. unfold interp_values, term_values. rewrite E. set_solver.
  - destruct (collect _ _ !! p) as [c|] eqn:Ec; [|done].
    pose proof (lookup_weaken _ _ _ _ Ec (collect_subseteq _ _)). congruence.
Qed.

Lemma finish_throwing i fn f w below d cls h : functions m !! f_fn f = Some fn -> i ∈ icode fn -> length (regs f) = nregs fn -> 0 <= pc f ->
  is_throwing w = true -> thrown_class w = Go cls -> catches cls f = Go h ->
  exists w1, term w1 = term w /\ thrown_class w1 = Go cls /\
    finish_inst m sema memOn depth i f w below d =
      match h with
      | Some h =>
          let! f := setr f (bindReg h) (thrown (term w)) in
          let w2 := set_term (set_throw false (thrown (term w)) (term w)) w1 in
          let f := set_pc (wrap_u 64 (handlerPc h)) f in
          Go (CRun (settle_heap (frame_values f ++ outer_values below d) w2) f below d)
      | None => leave m VVoid (set_pc (pc f + 1) f) w1 below d
      end.
Proof.
  intros Hfn Hi Hlen Hpc Ht Hcls Hh. unfold finish_inst. set (w1 := settle_heap _ w).
  assert (thrown_class w1 = Go cls) as Hcls1 by (unfold w1; by rewrite thrown_class_settle).
  assert (forall w2, term w2 = term w -> thrown_class w2 = Go cls ->
    dispatch m sema depth (set_pc (pc f + 1) f) w2 below d =
      match h with
      | Some h =>
          let! f := setr f (bindReg h) (thrown (term w)) in
          let w2 := set_term (set_throw false (thrown (term w)) (term w)) w2 in
          let f := set_pc (wrap_u 64 (handlerPc h)) f in
          Go (CRun (settle_heap (frame_values f ++ outer_values below d) w2) f below d)
      | None => leave m VVoid (set_pc (pc f + 1) f) w2 below d
      end) as Hd.
  { intros w2 Hterm Hc2. unfold dispatch. unfold is_throwing in *. rewrite Hterm, Ht. unfold catches in Hh. cbn [f_fn set_pc pc].
    destruct (at_index (functions m) (Z.of_nat (f_fn f))) as [fn'|]; [|done]. cbn [run_bind] in *. rewrite Hc2. cbn [run_bind].
    destruct (Z.ltb_spec 0 (pc f + 1)); [|lia]. replace (pc f + 1 - 1) with (pc f) by lia. rewrite Hh. cbn [run_bind].
    destruct h as [h|]; [|done]. unfold setr. cbn [regs set_pc]. by destruct (put_index (regs f) (bindReg h) (thrown (term w))). }
  destruct memOn; [|exists w1; split; [done|]; split; [done|]; by apply Hd].
  assert (exists mv, (let! m0 := if verified_alloc (op i) then
      let! v := getr f (ia i) in Go (onAlloc (address w1) v (Z.of_nat (f_fn f)) (pc f) (mem_ w1)) else Go (mem_ w1) in
      Go (set_mem (sweep (expired_in w1) (tick_clock m0)) w1)) = Go (set_mem mv w1)) as [mv Hmv].
  { destruct (verified_alloc (op i)) eqn:Ev; [|by eexists]. assert (reg_in (length (regs f)) (ia i)) as Ha.
    { assert (inst_ok m fn i = true) as Hok by (apply (inst_in_ok m sema Hm); [by eapply list_elem_of_lookup_2|done]).
      apply (is_reg_in fn); [done|]. unfold inst_ok in Hok. destruct (op i); try done; bool_hyps; done. }
    assert (exists v, getr f (ia i) = Go v) as [v ->]; [|by eexists]. unfold reg_in in Ha.
    destruct (lookup_lt_is_Some_2 (regs f) (Z.to_nat (ia i))) as [v Hv]; [lia|]. exists v. apply getr_lookup. split; [lia|done]. }
  rewrite Hmv. exists (set_mem mv w1). split; [done|]. split; [done|]. by apply Hd.
Qed.

(** A frame that catches: its handler runs with what was thrown. *)
Definition caught (t : TermState) f (h : Handler) (c : @Config X) below d : Prop :=
  exists w' f', c = CRun w' f' below d /\ f_fn f' = f_fn f /\ pc f' = wrap_u 64 (handlerPc h) /\
    getr f' (bindReg h) = Go (thrown t) /\ term w' = set_throw false (thrown t) t.

(** A frame that does not: its caller resumes, the exception unchanged. *)
Definition passed (t : TermState) (cls : option Symbol) (c : @Config X) below d : Prop :=
  exists w', term w' = t /\ thrown_class w' = Go cls /\
    c = match below with s :: below' => CResume w' VVoid (s_kont s) (s_frame s) below' d | [] => CTop w' d end.

Lemma catches_like cls f f' : like f' f -> catches cls f' = catches cls f.
Proof. intros (Hf & Hp & _). unfold catches. by rewrite Hf, Hp. Qed.

Lemma leave_passed f w below d cls : thrown_class w = Go cls -> exists c, leave m VVoid f w below d = Go c /\ passed (term w) cls c below d.
Proof.
  intros Hc. unfold leave. set (w1 := settle_heap _ (check_weaks m f (settle_heap _ w))).
  assert (term w1 = term w /\ thrown_class w1 = Go cls) as [H1 H2].
  { split; [done|]. unfold w1. rewrite thrown_class_settle.
    change (thrown_class (check_weaks m f (settle_heap (VVoid :: extra f ++ outer_values below d) w)))
      with (thrown_class (settle_heap (VVoid :: extra f ++ outer_values below d) w)). by rewrite thrown_class_settle. }
  destruct below as [|s below]; (eexists; split; [done|]; exists w1; done).
Qed.

Lemma unwind_one w k f below d cls h : config_ok m (CResume w VVoid k f below d) -> passes k = true -> is_throwing w = true ->
  thrown_class w = Go cls -> catches cls f = Go h ->
  exists c, step P m sema own memOn depth (CResume w VVoid k f below d) = Go c /\
    match h with Some h => caught (term w) f h c below d | None => passed (term w) cls c below d end.
Proof.
  intros ((Hf & (fn' & i & Hfn' & Hpc & Hi) & Hk) & Hb & H) Hp Ht Hcls Hh. cbn [s_frame s_kont s_pins] in *. cbn [step].
  destruct (current_spec m f Hf) as (fn & Hfn & Hlen & ->). assert (fn' = fn) as -> by congruence. cbn [run_bind].
  destruct (Z.ltb_spec (pc f) 0); [lia|]. rewrite Hi. cbn [from_option run_bind].
  destruct (resume_passes (outer_values below d) f w k Hp Hk Ht) as (f1 & -> & Hl); [eapply I_sub; [exact H|clear; set_solver]|].
  cbn [run_bind perform]. assert (Hl' := Hl). destruct Hl' as (Hf1 & Hp1 & Hn1 & _).
  destruct (finish_throwing i fn f1 w below d cls h) as (w1 & Hterm & Hc1 & ->); try done; try congruence; try lia.
  { by eapply list_elem_of_lookup_2. }
  { by rewrite (catches_like cls f f1 Hl). }
  destruct h as [h|].
  - assert (reg_in (length (regs f1)) (bindReg h)) as Hr.
    { rewrite Hn1, Hlen. apply (handler_in_ok m sema Hm fn); [by eapply list_elem_of_lookup_2|]. unfold catches in Hh.
      rewrite (at_fn m f fn Hfn) in Hh. cbn [run_bind] in Hh. pose proof (safe_find_handler sema depth (wrap_s 32 (pc f)) cls (handlers fn)) as Hs.
      by rewrite Hh in Hs. }
    rewrite (setr_total f1 _ _ Hr). cbn [run_bind]. eexists. split; [done|]. eexists _, _. split; [done|]. split; [done|]. split; [done|].
    split; [|done]. apply getr_lookup. unfold reg_in in Hr. split; [lia|]. cbn. apply list_lookup_insert_eq. lia.
  - destruct (leave_passed (set_pc (pc f1 + 1) f1) w1 below d cls Hc1) as (c & Hc & Hpass). exists c. split; [done|]. by rewrite Hterm in Hpass.
Qed.

(** The whole way out. *)
Lemma unwind_stack below : forall w k f d cls r, config_ok m (CResume w VVoid k f below d) ->
  passes k = true -> forallb (fun s => passes (s_kont s)) below = true -> is_throwing w = true -> thrown_class w = Go cls ->
  catcher cls (f :: map s_frame below) = Go r ->
  exists n c, steps P m sema own memOn depth n (CResume w VVoid k f below d) = Go c /\
    match r with
    | Some (j, h) => exists g, (f :: map s_frame below) !! j = Some g /\ caught (term w) g h c (drop j below) d
    | None => exists w', c = CTop w' d /\ term w' = term w
    end.
Proof.
  induction below as [|s below IH]; intros w k f d cls r Hok Hk Hks Ht Hcls Hr; cbn [catcher map] in Hr.
  all: destruct (catches cls f) as [h|] eqn:Eh; [|done]; cbn [run_bind] in Hr.
  all: destruct (unwind_one w k f _ d cls h Hok Hk Ht Hcls Eh) as (c & Hstep & Hc).
  all: destruct h as [h|]; [injection Hr as <-; exists 1%nat, c; cbn [steps]; rewrite Hstep; split; [done|]; by exists f|].
  all: destruct Hc as (w' & Hterm & Hcls' & ->).
  - injection Hr as <-. exists 1%nat. eexists. cbn [steps]. rewrite Hstep. split; [done|]. by exists w'.
  - cbn [forallb] in Hks. apply andb_prop in Hks as [Hs Hks]. cbn [map] in *.
    destruct (catcher cls (s_frame s :: map s_frame below)) as [r'|] eqn:Er; [|cbn [catcher] in Er; rewrite Er in Hr; done].
    assert (config_ok m (CResume w' VVoid (s_kont s) (s_frame s) below d)) as Hok'.
    { pose proof (safe_step P m sema own memOn depth Hm _ Hok) as Hs'. by rewrite Hstep in Hs'. }
    destruct (IH w' (s_kont s) (s_frame s) d cls r' Hok' Hs Hks) as (n & c & Hn & Hc); [unfold is_throwing in *; congruence|done|done|].
    exists (S n), c. cbn [steps]. rewrite Hstep. cbn [run_bind]. split; [done|]. cbn [catcher] in Er. rewrite Er in Hr. injection Hr as <-.
    destruct r' as [[j h]|]; [|by rewrite <- Hterm]. cbn [lookup list_lookup drop]. by rewrite <- Hterm.
Qed.

(** ** The search finds the handler the language names *)

(** The position in the code is an [int] where it is compared. *)
Definition code_fits : Prop := forall fn, fn ∈ functions m -> Z.of_nat (length (icode fn)) <= 2 ^ 31.

Lemma catches_spec cls f : code_fits -> (forall a, cls = Some a -> shallow depth a) -> in_inst m f ->
  exists h, catches cls f = Go h /\ match h with Some h => clause cls f h | None => uncaught cls f end.
Proof.
  intros Hcode Hs (fn & i & Hfn & Hpc & Hi). unfold catches. rewrite (at_fn m f fn Hfn). cbn [run_bind].
  assert (wrap_s 32 (pc f) = pc f) as ->.
  { apply wrap_s_id; [lia|]. apply lookup_lt_Some in Hi. pose proof (Hcode fn ltac:(by eapply list_elem_of_lookup_2)). unfold in_s. cbn. lia. }
  destruct (find_handler_spec (pc f) cls (handlers fn) Hs) as (r & -> & Hr). exists r. split; [done|]. destruct r as [h|].
  - destruct Hr as (n & ? & ? & ?). by exists fn, n.
  - intros fn' h Hfn'. assert (fn' = fn) as -> by congruence. apply Hr.
Qed.

Lemma catcher_spec cls fs : code_fits -> (forall a, cls = Some a -> shallow depth a) -> Forall (in_inst m) fs ->
  exists r, catcher cls fs = Go r /\
    match r with
    | Some (j, h) => (exists g, fs !! j = Some g /\ clause cls g h) /\ forall j' g', (j' < j)%nat -> fs !! j' = Some g' -> uncaught cls g'
    | None => forall g, g ∈ fs -> uncaught cls g
    end.
Proof.
  intros Hcode Hs. induction 1 as [|f fs Hf _ (r & Hr & IH)]; cbn [catcher]; [exists None; split; [done|]; by intros g ?%elem_of_nil|].
  destruct (catches_spec cls f Hcode Hs Hf) as ([h|] & -> & Hh); cbn [run_bind].
  - exists (Some (0%nat, h)). split; [done|]. split; [by exists f|]. lia.
  - rewrite Hr. cbn [run_bind]. eexists. split; [done|]. destruct r as [[j h]|].
    + destruct IH as [IH1 IH2]. split; [done|]. intros [|j'] g' Hlt; [by intros [= <-]|]. apply IH2. lia.
    + intros g [->|Hg]%elem_of_cons; [done|by apply IH].
Qed.

Lemma unwind_reaches w k f below d cls : code_fits -> (forall a, cls = Some a -> shallow depth a) ->
  config_ok m (CResume w VVoid k f below d) ->
  passes k = true -> forallb (fun s => passes (s_kont s)) below = true -> is_throwing w = true -> thrown_class w = Go cls ->
  exists n c, steps P m sema own memOn depth n (CResume w VVoid k f below d) = Go c /\
    ((exists j g h, (f :: map s_frame below) !! j = Some g /\ clause cls g h /\
        (forall j' g', (j' < j)%nat -> (f :: map s_frame below) !! j' = Some g' -> uncaught cls g') /\
        caught (term w) g h c (drop j below) d) \/
     ((forall g, g ∈ f :: map s_frame below -> uncaught cls g) /\ exists w', c = CTop w' d /\ term w' = term w)).
Proof.
  intros Hcode Hs Hok Hk Hks Ht Hc. assert (Forall (in_inst m) (f :: map s_frame below)) as Hin.
  { destruct Hok as ((_ & Hf & _) & Hb & _). constructor; [done|]. apply Forall_map. eapply Forall_impl; [exact Hb|]. by intros s (_ & ? & _). }
  destruct (catcher_spec cls _ Hcode Hs Hin) as (r & Hr & Hspec).
  destruct (unwind_stack below w k f d cls r Hok Hk Hks Ht Hc Hr) as (n & c & Hn & Hres). exists n, c. split; [done|].
  destruct r as [[j h]|]; [left|by right]. destruct Hspec as [(g & Hg & Hcl) Hbefore]. destruct Hres as (g' & Hg' & Hcaught).
  assert (g' = g) as -> by congruence. by exists j, g, h.
Qed.
End Unwind.
