(* ===== verification/IrProps.v ===== *)
(** * Properties of the IR interpreter

    The properties of the interpreter as a whole, over any module the checks of
    [module_ok] accept and any platform that keeps its promises, with a small
    platform and modules on which they are exercised; and programs on which the
    interpreter or its memory verifier does not do what its comments say. *)

From S2P Require Import Ownership TaskSched.
From S2P Require Import Prelude Token Value RefHeap Ir RuntimeLoop RuntimeCore MemVerify IrInterp IrTyping IrSafe IrSound IrCow IrUnwind.

Local Open Scope Z_scope.


(** No reference dangles.  In every configuration a task reaches, each
    location reachable from the registers and temporaries of its frames, the
    globals, the pending exceptions and the loop is allocated, each value held
    refers to a cell of its own kind, and each closure names a function of the
    module: releasing cells by reference count never frees one in use. *)
Theorem ir_references_valid {X} (P : Platform X) (m : IrModule) (sema : Sema) (own : option (list (nat * Z))) (memOn : bool) (depth : nat)
  (c : @Config X) : PlatformOk m P -> module_ok m sema = true -> task_reaches P m sema own memOn depth c ->
  (forall p, reachable (vrefs (config_values c)) (config_heap c) p -> is_Some (config_heap c !! p)) /\
  (forall v, v ∈ config_values c -> v_ok (config_heap c) v) /\
  (forall p cl e es v, config_heap c !! p = Some (CClos cl) -> c_env cl = e :: es -> e !! lit "@fn" = Some v -> is_fn m (v_i v) = true).
Proof.
  intros HP Hm Hr. apply task_reaches_ok in Hr; [|done..]. apply config_values_ok in Hr as [Hh Hv].
  split; [by apply (reachable_ok m)|]. split; [done|]. intros p cl e es v Hc He Hf. destruct (Hh _ _ Hc) as [_ Hok].
  unfold clos_ok in Hok. rewrite He in Hok. by apply Hok.
Qed.


(** [C10] An exception reaches the innermost handler of its class.  When a call
    returns by a throw, unwinding takes finitely many steps.  If some suspended
    frame has a clause around the instruction it is in ([start <= pc < end]) whose
    type is the thrown object's class or one of its bases, however far up,
    execution continues in the innermost such frame, at the first such clause,
    with the thrown object in the clause's register, the frames above gone and
    the flag cleared; otherwise the exception reaches the top level unchanged.
    A value thrown that is not an object matches no clause.  Assumed: the class
    hierarchy above the thrown class is shallower than the recursion bound, code
    has at most 2^31 instructions a function, and no frame on the way is in the
    middle of reading the field of a call [x.f()] (there the exception is lost:
    see [field_getter_exception_lost]). *)
Theorem exception_reaches_handler {X} (P : Platform X) (m : IrModule) (sema : Sema) (own : option (list (nat * Z))) (memOn : bool)
  (depth : nat) (w : Interp X) (k : Kont) (f : Frame) (below : list Susp) (d : Drive) (cls : option Symbol) :
  PlatformOk m P -> module_ok m sema = true -> code_fits m -> (forall a, cls = Some a -> shallow sema depth a) ->
  task_reaches P m sema own memOn depth (CResume w VVoid k f below d) ->
  passes k = true -> forallb (fun s => passes (s_kont s)) below = true -> is_throwing w = true -> thrown_class w = Go cls ->
  exists n c, steps P m sema own memOn depth n (CResume w VVoid k f below d) = Go c /\
    ((exists j g h, (f :: map s_frame below) !! j = Some g /\ clause m sema cls g h /\
        (forall j' g', (j' < j)%nat -> (f :: map s_frame below) !! j' = Some g' -> uncaught m sema cls g') /\
        caught (term w) g h c (drop j below) d) \/
     ((forall g, g ∈ f :: map s_frame below -> uncaught m sema cls g) /\ exists w', c = CTop w' d /\ term w' = term w)).
Proof.
  intros HP Hm Hcode Hs Hr Hk Hks Ht Hc. apply task_reaches_ok in Hr; [|done..].
  by apply (unwind_reaches P m sema own memOn depth Hm).
Qed.

(** ** A small platform *)

Definition kRuntimeException : Symbol := MkSymbol 1 (lit "RuntimeException") false [].
Definition kPair : Symbol := MkSymbol 9 (lit "Pair") false [].
Definition small_sema : Sema :=
  MkSema (fun n => if eqs n (lit "RuntimeException") then Some kRuntimeException else if eqs n (lit "Pair") then Some kPair else None)
    (fun _ => None).

(** [sysExit] records the code and asks for the exit; there are no other natives. *)
Definition exit_native (name : str) (args : list Value) (h : Host unit) : Run (option (Value * str * Host unit)) :=
  if eqs name (lit "sysExit") then
    Go (Some (VInt 0, [], MkHost (heap h) (next_loc h) (addr h) (loop_ h) (out_ h) (ttyRaw h) (written h) true
                       (match args with v :: _ => Z.land (v_i v) 255 | [] => 0 end) (ext h)))
  else Go None.
(** The lowest free address, as an allocator that reuses what was freed. *)
Definition lowest (s : gset Z) (n : nat) : Z :=
  match find (fun z => bool_decide (z ∉ s)) (map Z.of_nat (seq 1 (S (size s)))) with Some z => z | None => 0 end.
Definition small_platform : Platform unit :=
  MkPlatform unit (fun _ _ _ _ _ _ => Go None) exit_native lowest
    (fun h => (MkEnv 0 0 (fun _ _ => (0, [])) (fun _ => 0) (fun _ => false), h)) kNaN false.
Definition empty_host : Host unit := MkHost ∅ 1 ∅ (MkLoop [] [] 1) [] false [] false 0 tt.

Lemma empty_host_ok m : host_ok m empty_host [].
Proof. split; [by intros p c Hc|]. split; [by intros p [c Hc]|apply Forall_nil_2]. Qed.

#[export] Instance small_platform_ok m : PlatformOk m small_platform.
Proof.
  split.
  - done.
  - intros name args h vals (H1 & H2 & H3). cbn. unfold exit_native. destruct (eqs _ _); [|done].
    split; [done|]. split; [done|]. cbn. rewrite Forall_app in H3. destruct H3 as [H3 H4]. rewrite Forall_app in H4.
    apply Forall_app. split; [done|]. apply Forall_cons. split; [done|apply H4].
  - done.
Qed.

Lemma task_steps {X} (P : Platform X) m sema own memOn depth n c c' : task_reaches P m sema own memOn depth c ->
  steps P m sema own memOn depth n c = Go c' -> task_reaches P m sema own memOn depth c'.
Proof.
  revert c. induction n as [|n IH]; intros c Hc; cbn [steps]; [by intros [= <-]|].
  destruct (step P m sema own memOn depth c) as [c1|] eqn:E; [|done]. cbn [run_bind]. apply IH. by eapply task_step.
Qed.

Definition after_in (sema : Sema) (m : IrModule) (n : nat) : @Config unit :=
  match steps small_platform m sema None true 10 n (start m empty_host) with Go c => c | Stop _ => CHalt (run_init m empty_host) end.
Definition after (m : IrModule) (n : nat) : @Config unit := after_in small_sema m n.
Definition output (c : @Config unit) : option (str * Z) :=
  match c with CHalt w => Some (out_ (host w), exit_code w) | _ => None end.

Lemma after_reaches m n : match steps small_platform m small_sema None true 10 n (start m empty_host) with Go _ => true | Stop _ => false end = true ->
  task_reaches small_platform m small_sema None true 10 (after m n).
Proof.
  unfold after, after_in. intros H. destruct (steps _ _ _ _ _ _ n _) as [c|] eqn:E; [|done]. eapply task_steps; [|exact E].
  apply task_program, empty_host_ok.
Qed.

Definition ins (o : Op) (a b c d : Z) (t : TokenKind) (s : str) : Inst := MkInst o a b c d t s None None.

(** A function that divides by zero, called inside a handler: the division
    raises in the callee and is caught in the caller. *)
Definition divide_fn : IrFunction :=
  MkIrFunction (lit "divide") 2 3 [ins Arith 2 0 1 0 TkSlash []; ins Ret 2 0 0 0 TkEnd []] [] [].
Definition catch_main : IrFunction :=
  MkIrFunction (lit "main") 0 4
    [ins LoadConst 0 0 0 0 TkEnd []; ins LoadConst 1 1 0 0 TkEnd []; ins Call 2 1 0 2 TkEnd []; ins RetVoid 0 0 0 0 TkEnd [];
     ins Print_ 3 0 0 0 TkEnd []; ins RetVoid 0 0 0 0 TkEnd []]
    [VInt 7; VInt 0] [MkHandler 2 3 4 3 (Some kRuntimeException)].
Definition catch_module : IrModule := MkIrModule [catch_main; divide_fn] [] 0 (-1) 0.

(** The configuration in which the callee has just thrown, taken apart. *)
Definition thrown_back : @Config unit := after catch_module 6.


Lemma ir_references_valid_witness :
  size (config_heap (after catch_module 6)) = 1%nat /\
  forall v, v ∈ config_values (after catch_module 6) -> v_ok (config_heap (after catch_module 6)) v.
Proof.
  split; [vm_compute; reflexivity|].
  apply (ir_references_valid small_platform catch_module small_sema None true 10 (after catch_module 6)).
  - apply _.
  - vm_compute. reflexivity.
  - apply after_reaches. vm_compute. reflexivity.
Defined.

(** The parts of a configuration that runs or resumes. *)
Definition world_of (c : @Config unit) : Interp unit :=
  match c with CRun w _ _ _ | CResume w _ _ _ _ _ | CPark w _ _ _ _ _ _ | CTop w _ | CHalt w => w end.
Definition frame_of (c : @Config unit) : Frame :=
  match c with CRun _ f _ _ | CResume _ _ _ f _ _ => f | _ => MkFrame 0 0 [] [] [] end.

Lemma small_shallow a : shallow small_sema 10 a.
Proof. intros k b H. inversion H as [|? ? ? ? (cd & E & _)]; subst; [lia|done]. Qed.

Lemma frame_catches f : f_fn f = 0%nat -> pc f = 2 -> ~ uncaught catch_module small_sema (Some kRuntimeException) f.
Proof.
  intros Hf Hp H. apply (H catch_main (MkHandler 2 3 4 3 (Some kRuntimeException))); [by rewrite Hf|by left|].
  rewrite Hp. split; [cbn; lia|]. exists kRuntimeException, kRuntimeException. split_and!; [done..|apply rtc_refl].
Qed.
Lemma thrown_back_parts : exists w f, thrown_back = CResume w VVoid (KSet 2) f [] (DPump [] 0) /\ f_fn f = 0%nat /\ pc f = 2 /\
  is_throwing w = true /\ thrown_class w = Go (Some kRuntimeException).
Proof.
  exists (world_of thrown_back), (frame_of thrown_back). split; [vm_compute; reflexivity|]. split; [vm_compute; reflexivity|].
  split; [vm_compute; reflexivity|]. split; vm_compute; reflexivity.
Qed.

Lemma exception_reaches_handler_witness :
  exists w f, thrown_back = CResume w VVoid (KSet 2) f [] (DPump [] 0) /\
    exists n c h, steps small_platform catch_module small_sema None true 10 n thrown_back = Go c /\
      clause catch_module small_sema (Some kRuntimeException) f h /\ caught (term w) f h c [] (DPump [] 0).
Proof.
  destruct thrown_back_parts as (w & f & E & Hf & Hp & Ht & Hc).
  exists w, f. split; [exact E|]. rewrite E.
  destruct (exception_reaches_handler small_platform catch_module small_sema None true 10 w (KSet 2) f [] (DPump [] 0) (Some kRuntimeException))
    as (n & c & Hn & [(j & g & h & Hj & Hcl & _ & Hca)|[Hno _]]).
  - apply _.
  - vm_compute. reflexivity.
  - intros fn [->|[->|Hx%elem_of_nil]%elem_of_cons]%elem_of_cons; [vm_compute; discriminate..|done].
  - intros a _. apply small_shallow.
  - rewrite <- E. apply after_reaches. vm_compute. reflexivity.
  - reflexivity.
  - reflexivity.
  - exact Ht.
  - exact Hc.
  - destruct j as [|j]; [|done]. injection Hj as <-. exists n, c, h. done.
  - exfalso. apply (frame_catches f Hf Hp). apply Hno. by left.
Defined.

(** An array bound to two registers and stored into through one of them. *)
Definition alias_main : IrFunction :=
  MkIrFunction (lit "main") 0 6
    [ins LoadConst 0 0 0 0 TkEnd []; ins NewArray 1 0 0 1 TkEnd []; ins Move 2 1 0 0 TkEnd []; ins LoadConst 3 1 0 0 TkEnd [];
     ins LoadConst 4 2 0 0 TkEnd []; ins IndexStore 5 1 3 4 TkEnd []; ins Print_ 2 0 0 0 TkEnd []; ins Print_ 5 0 0 0 TkEnd [];
     ins RetVoid 0 0 0 0 TkEnd []] [VInt 5; VInt 0; VInt 9] [].
Definition alias_module : IrModule := MkIrModule [alias_main] [] 0 (-1) 0.


(** ** Where the code and its comments part *)

(** [a[0] = a] lowers to a store whose array and value are one register.  The
    reference count is then one, so the store is done in place, and the array
    comes to contain itself, where a value that is copied on write would hold
    the array as it was. *)
Definition self_main : IrFunction :=
  MkIrFunction (lit "main") 0 4
    [ins LoadConst 0 0 0 0 TkEnd []; ins NewArray 1 0 0 1 TkEnd []; ins LoadConst 2 1 0 0 TkEnd []; ins IndexStore 3 1 2 1 TkEnd []]
    [VInt 5; VInt 0] [].
Theorem array_stored_into_itself :
  w_heap (world_of (after (MkIrModule [self_main] [] 0 (-1) 0) 6)) !! 1%nat = Some (CArr [VArray (Some 1%nat)]).
Proof. vm_compute. reflexivity. Qed.

(** Reading a member looks at the shape of the object's class, and there is no
    check that it has one: an object made without a class, and a pair read from
    a map where the program's scope has no [Pair], end the process. *)
Definition null_class_main : IrFunction :=
  MkIrFunction (lit "main") 0 2 [ins NewObject 0 (-1) 0 0 TkEnd []; ins GetMember 1 0 0 0 TkEnd (lit "x")] [] [].
Definition pair_main : IrFunction :=
  MkIrFunction (lit "main") 0 6
    [ins NewMap 0 0 0 0 TkEnd []; ins LoadConst 1 0 0 0 TkEnd []; ins IndexStore 2 0 1 1 TkEnd []; ins IterAt 3 2 1 0 TkEnd [];
     ins GetMember 4 3 0 0 TkEnd (lit "key")] [VInt 0] [].
Definition no_pair_sema : Sema :=
  MkSema (fun n => if eqs n (lit "RuntimeException") then Some kRuntimeException else None) (fun _ => None).
Theorem null_class_crashes :
  steps small_platform (MkIrModule [null_class_main] [] 0 (-1) 0) small_sema None true 10 6 (start (MkIrModule [null_class_main] [] 0 (-1) 0) empty_host) =
    Stop FNull /\
  steps small_platform (MkIrModule [pair_main] [] 0 (-1) 0) no_pair_sema None true 10 9 (start (MkIrModule [pair_main] [] 0 (-1) 0) empty_host) =
    Stop FNull.
Proof. split; vm_compute; reflexivity. Qed.

(** [env.exit] rides the exception flag without setting the thrown value, and
    the handler search looks at the value left by the last exception that was
    caught: once an exception has been caught, [exit] inside a handler of its
    class is caught too.  The program below catches a division by zero, calls
    [exit(7)] inside a second [try], and goes on to print. *)
Definition exit_main : IrFunction :=
  MkIrFunction (lit "main") 0 4
    [ins LoadConst 0 0 0 0 TkEnd []; ins LoadConst 1 1 0 0 TkEnd []; ins Arith 2 0 1 0 TkSlash [];
     ins CallNativeFn 3 0 0 1 TkEnd (lit "sysExit"); ins Print_ 0 0 0 0 TkEnd []; ins RetVoid 0 0 0 0 TkEnd []]
    [VInt 7; VInt 0] [MkHandler 2 3 3 3 (Some kRuntimeException); MkHandler 3 4 4 3 (Some kRuntimeException)].
Definition exit_module : IrModule := MkIrModule [exit_main] [] 0 (-1) 0.

Theorem exit_caught_by_stale_exception : output (after exit_module 20) = Some (lit "7", 7).
Proof. vm_compute. reflexivity. Qed.

(** The same program without the earlier exception exits at once. *)
Definition plain_exit_main : IrFunction :=
  MkIrFunction (lit "main") 0 4
    [ins LoadConst 0 0 0 0 TkEnd []; ins CallNativeFn 3 0 0 1 TkEnd (lit "sysExit"); ins Print_ 0 0 0 0 TkEnd [];
     ins RetVoid 0 0 0 0 TkEnd []] [VInt 7] [MkHandler 1 2 2 3 (Some kRuntimeException)].
Theorem exit_without_exception : output (after (MkIrModule [plain_exit_main] [] 0 (-1) 0) 20) = Some ([], 7).
Proof. vm_compute. reflexivity. Qed.

(** The initialiser of the globals throws, and the entry's first instruction
    still runs before its frame is unwound. *)
Definition ginit_fn : IrFunction :=
  MkIrFunction (lit "ginit") 0 3
    [ins LoadConst 0 0 0 0 TkEnd []; ins LoadConst 1 1 0 0 TkEnd []; ins Arith 2 0 1 0 TkSlash []] [VInt 7; VInt 0] [].
Definition print_main : IrFunction := MkIrFunction (lit "main") 0 1 [ins PrintNl 0 0 0 0 TkEnd []; ins PrintNl 0 0 0 0 TkEnd []] [] [].
Theorem entry_runs_after_failed_init :
  output (after (MkIrModule [print_main; ginit_fn] [] 0 1 0) 20) =
    Some ([c_nl] ++ lit "Uncaught RuntimeException: division by zero" ++ [c_nl], 1).
Proof. vm_compute. reflexivity. Qed.

(** A call [x.f()] without a method [f] reads [f] as a field; when the field's
    getter throws, the call raises an exception of its own over it.  The getter
    below divides by zero; the program reports an unresolved call. *)
Definition kBox : Symbol := MkSymbol 2 (lit "Box") false [].
Definition kGetter : Decl := MkDecl 5 0 (lit "f").
Definition box_sema : Sema :=
  MkSema (global_lookup small_sema)
    (fun c => if decide (c = kBox) then Some (MkClassDecl [MkMember kGetter true false] []) else None).
Definition getter_fn : IrFunction :=
  MkIrFunction (lit "f") 1 4
    [ins LoadConst 1 0 0 0 TkEnd []; ins LoadConst 2 1 0 0 TkEnd []; ins Arith 3 1 2 0 TkSlash []; ins Ret 3 0 0 0 TkEnd []] [VInt 7; VInt 0] [].
Definition box_main (o : Op) : IrFunction :=
  MkIrFunction (lit "main") 0 2 [MkInst NewObject 0 (-1) 0 0 TkEnd [] (Some kBox) None; ins o 1 0 0 1 TkEnd (lit "f")] [] [].
Definition box_module (o : Op) : IrModule := MkIrModule [box_main o; getter_fn] [(5%nat, 1%nat)] 0 (-1) 0.

Theorem field_getter_exception_lost :
  output (after_in box_sema (box_module GetMember) 20) = Some (lit "Uncaught RuntimeException: division by zero" ++ [c_nl], 1) /\
  output (after_in box_sema (box_module CallDyn) 20) =
    Some (lit "Uncaught RuntimeException: cannot resolve call target 'f'" ++ [c_nl], 1).
Proof. split; vm_compute; reflexivity. Qed.

(** ** The escape analysis *)

(** The interpreter can be given the sites the analysis reports scope-owned; when
    a frame returns it reports those whose object is still alive. *)
Definition scope_owned (m : IrModule) : list (nat * Z) :=
  map (fun site => (as_fn site, as_pc site)) (List.filter (fun site => negb (escapes site)) (analyzeOwnership m)).
Definition survivors (sema : Sema) (m : IrModule) : list str :=
  match steps small_platform m sema (Some (scope_owned m)) false 10 40 (start m empty_host) with
  | Go (CHalt w) => violations_ w
  | _ => []
  end.
(** [main] calls [f]; then come the functions [f] uses. *)
Definition calls_f (nregs_ : nat) (code : list Inst) (more : list IrFunction) (decls : list (nat * nat)) : IrModule :=
  MkIrModule ([MkIrFunction (lit "main") 0 1 [ins Call 0 1 0 0 TkEnd []] [] []; MkIrFunction (lit "f") 0 nregs_ code [VInt 0] []] ++ more)
    decls 0 (-1) 1.
Definition first_site : list str := [lit "f @0: scope-owned allocation survived its frame"].
Definition self_fn : IrFunction := MkIrFunction (lit "self") 1 2 [ins Ret 0 0 0 0 TkEnd []] [] [].
Definition keep_fn : IrFunction := MkIrFunction (lit "keep") 1 1 [ins StoreGlobal 0 0 0 0 TkEnd []] [] [].
Definition kAt : Slot := MkSlot (lit "at") None (Some kGetter) true false false.
Definition kCell : Symbol := MkSymbol 3 (lit "Cell") false [kAt].
Definition new_of (c : Symbol) (r init : Z) : Inst := MkInst NewObject r init 0 0 TkEnd [] (Some c) None.
Definition plus : Inst := MkInst Arith 1 0 0 0 TkPlus [] None (Some kGetter).

(** Places the analysis does not look at.  In each function [f] below the object
    its first instruction allocates is reported scope-owned, and is alive when
    [f] has returned: a constructor that keeps it, an operator, an accessor and a
    method found by name that answer it, an element read back from an array, a
    map key, a range bound, an awaited array, an object read through a weak
    reference, an argument beyond the callee's parameters. *)
Theorem ownership_blind_spots :
  survivors small_sema (calls_f 1 [new_of kBox 0 2] [keep_fn] []) = first_site /\
  survivors small_sema (calls_f 2 [new_of kBox 0 (-1); plus; ins Ret 1 0 0 0 TkEnd []] [self_fn] [(5, 2)%nat]) = first_site /\
  survivors box_sema (calls_f 2 [new_of kBox 0 (-1); ins GetMember 1 0 0 0 TkEnd (lit "f"); ins Ret 1 0 0 0 TkEnd []] [self_fn] [(5, 2)%nat]) = first_site /\
  survivors small_sema (calls_f 2 [new_of kCell 0 (-1); ins CallDyn 1 0 0 1 TkEnd (lit "at"); ins Ret 1 0 0 0 TkEnd []] [self_fn] [(5, 2)%nat]) = first_site /\
  survivors small_sema (calls_f 4 [ins NewMap 0 0 0 0 TkEnd []; ins NewArray 1 0 0 1 TkEnd []; ins LoadConst 2 0 0 0 TkEnd [];
    ins GetIndex 3 1 2 0 TkEnd []; ins Ret 3 0 0 0 TkEnd []] [] []) = first_site /\
  survivors small_sema (calls_f 4 [ins NewArray 0 0 0 0 TkEnd []; ins NewMap 1 0 0 0 TkEnd []; ins LoadConst 2 0 0 0 TkEnd [];
    ins IndexStore 3 1 0 2 TkEnd []; ins Ret 3 0 0 0 TkEnd []] [] []) = first_site /\
  survivors small_sema (calls_f 2 [ins NewArray 0 0 0 0 TkEnd []; MkInst MakeRange 1 0 0 0 TkEnd [] (Some kBox) None; ins Ret 1 0 0 0 TkEnd []] [] []) = first_site /\
  survivors small_sema (calls_f 2 [ins NewArray 0 0 0 0 TkEnd []; ins Await 1 0 0 0 TkEnd []; ins Ret 1 0 0 0 TkEnd []] [] []) = first_site /\
  survivors small_sema (calls_f 3 [new_of kBox 0 (-1); new_of kBox 1 (-1); ins RawSetWeak 0 1 0 0 TkEnd (lit "w");
    ins RawGetWeak 2 1 0 0 TkEnd (lit "w"); ins Ret 2 0 0 0 TkEnd []] [] []) = first_site /\
  survivors small_sema (calls_f 2 [ins NewArray 0 0 0 0 TkEnd []; ins Call 1 2 0 1 TkEnd []; ins Ret 1 0 0 0 TkEnd []]
    [MkIrFunction (lit "g") 0 1 [ins Ret 0 0 0 0 TkEnd []] [] []] []) = first_site.
Proof. repeat split; vm_compute; reflexivity. Qed.

(** ** The memory verifier and reused addresses *)

(** The second [NewObject] drops the first object before the constructor runs;
    the constructor's own object gets the freed address, whose entry is not yet
    marked gone, and is taken for a cell already tracked: of three allocations
    the verifier counts two. *)
Definition new_object (r init : Z) : Inst := MkInst NewObject r init 0 0 TkEnd [] (Some kBox) None.
Definition remake_main : IrFunction := MkIrFunction (lit "main") 0 1 [new_object 0 (-1); new_object 0 1] [] [].
Definition init_fn : IrFunction := MkIrFunction (lit "$init") 1 2 [new_object 1 (-1); ins RawSet 1 0 0 0 TkEnd (lit "inner")] [] [].
Definition remake_module : IrModule := MkIrModule [remake_main; init_fn] [] 0 (-1) 0.

Theorem verifier_misses_allocation :
  let w := world_of (after remake_module 20) in
  next_loc (host w) = 4%nat /\ totalAllocs (mem_ w) = 2.
Proof. split; vm_compute; reflexivity. Qed.

(** A dead entry does not stay for the report once its address is reused: of
    the two allocations below the census lists the second site only. *)
Definition reuse_main : IrFunction :=
  MkIrFunction (lit "main") 0 2 [new_object 0 (-1); ins LoadConst 0 0 0 0 TkEnd []; new_object 1 (-1); ins LoadConst 1 0 0 0 TkEnd []] [VNone] [].
Definition reuse_module : IrModule := MkIrModule [reuse_main] [] 0 (-1) 0.

Theorem census_forgets_reused_sites :
  let w := world_of (after reuse_module 20) in
  totalAllocs (mem_ w) = 2 /\ (fst (census (expired_in w) (mem_ w))).*1 = [(0, 2)].
Proof. split; vm_compute; reflexivity. Qed.
