(* ===== verification/IrKeep.v ===== *)
(** * What a step of the interpreter leaves alone

    A task's step changes neither the values the other tasks hold nor, except
    by the exceptions it raises, the throw flag: whatever an instruction does
    besides falling through to the dispatch check (a call, a jump, a return, a
    call into the scheduler), it does with no exception pending. *)

From S2P Require Import TaskSched.
From S2P Require Import Prelude Token Value RefHeap Ir RuntimeLoop RuntimeCore MemVerify IrInterp IrSound.

Local Open Scope Z_scope.

(** ** Results of runs that come to an end *)

Definition ends {A} (Q : A -> Prop) (r : Run A) : Prop := match r with Go a => Q a | Stop _ => True end.

Lemma ends_bind {A B} (Q : B -> Prop) (R : A -> Prop) (r : Run A) (k : A -> Run B) :
  ends R r -> (forall a, R a -> ends Q (k a)) -> ends Q (run_bind r k).
Proof. destruct r; cbn; auto. Qed.
Lemma ends_read {A B} (Q : B -> Prop) (r : Run A) (k : A -> Run B) : (forall a, ends Q (k a)) -> ends Q (run_bind r k).
Proof. destruct r; cbn; auto. Qed.
Lemma ends_mono {A} (Q Q' : A -> Prop) (r : Run A) : ends Q r -> (forall a, Q a -> Q' a) -> ends Q' r.
Proof. destruct r; cbn; auto. Qed.
Lemma ends_go {A} (Q : A -> Prop) (r : Run A) (a : A) : ends Q r -> r = Go a -> Q a.
Proof. by intros H ->. Qed.

(** Reads and case distinctions down to the results. *)
Ltac ends_reads :=
  repeat first [ done | match goal with
    | |- ends _ (run_bind _ _) => apply ends_read; intros ?
    | |- ends _ (let '(_, _) := ?e in _) => destruct e eqn:?
    | |- ends _ (match ?e with _ => _ end) => destruct e eqn:?
    end ].

Section Keep.
Context {X : Type} (P : Platform X) (m : IrModule) (sema : Sema) (own : option (list (nat * Z))) (memOn : bool) (depth : nat).
Implicit Types (w : Interp X) (f : Frame).

(** ** Operations on the state *)

Definition same w w' : Prop := others w' = others w /\ term w' = term w.

Lemma same_refl w : same w w.
Proof. done. Qed.
Lemma same_trans w1 w2 w3 : same w1 w2 -> same w2 w3 -> same w1 w3.
Proof. intros [? ?] [? ?]. split; congruence. Qed.
Lemma same_alloc c w : same w (snd (alloc P c w)).
Proof. done. Qed.
Lemma same_throwing w w' : same w w' -> is_throwing w' = is_throwing w.
Proof. intros [_ H]. unfold is_throwing. by rewrite H. Qed.

Lemma others_raise_class cls msg w : others (raiseClass P sema cls msg w) = others w.
Proof. unfold raiseClass. by destruct (match global_lookup sema cls with Some _ => _ | None => _ end). Qed.
Lemma others_exit_check w : others (exit_check w) = others w.
Proof. unfold exit_check. by case_match. Qed.

Lemma same_iterLen v w : ends (fun r => same w (snd r)) (iterLen v w).
Proof. unfold iterLen. ends_reads. Qed.
Lemma same_iterAt v i w : ends (fun r => same w (snd r)) (iterAt P sema v i w).
Proof. unfold iterAt. ends_reads. Qed.

Lemma same_copy_fields (g : Value -> Interp X -> Run (Value * Interp X)) l w :
  (forall v w, ends (fun r => same w (snd r)) (g v w)) -> ends (fun r => same w (snd r)) (copy_fields g l w).
Proof.
  intros Hg. revert w. induction l as [|[k v] l IH]; intros w; cbn [copy_fields]; [done|].
  eapply ends_bind; [apply Hg|]. intros [v' w1] H1. eapply ends_bind; [apply IH|]. intros [ms w2] H2. by eapply same_trans.
Qed.
Lemma same_copy v w : ends (fun r => same w (snd r)) (copyValue P depth v w).
Proof.
  unfold copyValue. revert v w. induction depth as [|n IH]; intros v w; cbn [copy_value]; [done|].
  destruct v as [| | | | |[p|]| | | | | | |]; try done. apply ends_read. intros o. destruct (o_cls o) as [c|]; [|done]. destruct (sy_isValue c); [|done].
  eapply ends_bind; [by apply same_copy_fields|]. by intros [ms w1] H1.
Qed.

Lemma same_spread v w : ends (fun r => same w (snd r)) (spread v w).
Proof. unfold spread. ends_reads. Qed.
Lemma same_spread_all vs w : ends (fun r => same w (snd r)) (spread_all vs w).
Proof.
  revert w. induction vs as [|v vs IH]; intros w; cbn [spread_all]; [done|]. eapply ends_bind; [apply same_spread|].
  intros [xs w1] H1. eapply ends_bind; [apply IH|]. intros [ys w2] H2. by eapply same_trans.
Qed.

(** ** Operations that may call *)

Definition act_kept w (r : Act * Interp X) : Prop :=
  others (snd r) = others w /\
  match fst r with ACall _ _ => same w (snd r) | ADone v => is_throwing (snd r) = true -> is_throwing w = true \/ v = VVoid end.

Lemma kept_done v w w' : same w w' -> act_kept w (ADone v, w').
Proof. intros H. split; [apply H|]. cbn. rewrite (same_throwing _ _ H). auto. Qed.

Lemma kept_callDecl d args cow w : ends (act_kept w) (callDecl P m sema d args cow w).
Proof.
  unfold callDecl. destruct (find_decl _ _); [done|]. destruct args as [|self rest]; [by apply kept_done|].
  apply ends_read. intros [c|]; [|by apply kept_done]. apply ends_read. intros [[[out err] h]|]; [|by apply kept_done].
  destruct (nonempty err); [|by apply kept_done]. split; [by etransitivity; [apply others_raise_class|]|]. cbn. auto.
Qed.
Lemma kept_getMember v key w : ends (act_kept w) (getMember P m sema depth v key w).
Proof.
  unfold getMember. destruct v as [| | | | |[p|]| | | | | | |]; try (by apply kept_done). do 2 (apply ends_read; intros ?).
  case_match; [apply kept_callDecl|]. apply ends_read. intros ?. by apply kept_done.
Qed.
Lemma kept_setMember v key x w : ends (act_kept w) (setMember P m sema depth v key x w).
Proof.
  unfold setMember. destruct v as [| | | | |[p|]| | | | | | |]; try (by apply kept_done). do 2 (apply ends_read; intros ?).
  case_match; [apply kept_callDecl|]. apply ends_read. intros ?. by apply kept_done.
Qed.
Lemma kept_getIndex v i w : ends (act_kept w) (getIndex P m sema depth v i w).
Proof.
  unfold getIndex. do 2 (apply ends_read; intros ?). case_match; [apply kept_callDecl|].
  destruct v as [| | | | | | |[p|]| | | | |]; try (by apply kept_done). apply ends_read. intros xs.
  case_match; [by apply kept_done|]. split; [by etransitivity; [apply others_raise_class|]|]. cbn. auto.
Qed.
Lemma kept_indexStore roots b i v w : ends (act_kept w) (indexStore P m sema depth roots b i v w).
Proof.
  unfold indexStore. destruct b as [| | | | |[p|]| |[p|]|[p|]| | | |]; try (by apply kept_done).
  - do 2 (apply ends_read; intros ?). case_match; [apply kept_callDecl|by apply kept_done].
  - apply ends_read. intros xs. case_match; by apply kept_done.
  - apply ends_read. intros es. apply ends_read. intros es'. case_match; by apply kept_done.
Qed.

(** ** Instructions *)

(** Whether the task follows the discipline of exceptions is a premise [Q]; what
    the other tasks hold is left alone in any case. *)
Context (Q : Prop).

(** Only what falls through can leave an exception pending. *)
Definition tame w (o : Ctl * Frame * Interp X) : Prop :=
  let '(c, _, w') := o in others w' = others w /\ (Q -> is_throwing w' = true -> c = Next).

Lemma tame_next w f w' : others w' = others w -> tame w (Next, f, w').
Proof. done. Qed.
Lemma tame_quiet w c f w' : (Q -> is_throwing w = false) -> same w w' -> tame w (c, f, w').
Proof. intros Hq H. split; [apply H|]. intros HQ. by rewrite (same_throwing _ _ H), Hq. Qed.
Lemma tame_put w f w' a v : others w' = others w -> ends (tame w) (put f w' a v).
Proof. intros H. unfold put. apply ends_read. by intros f'. Qed.
Lemma tame_raised w f w' msg : others w' = others w -> ends (tame w) (raised P sema f w' msg).
Proof. intros H. split; [|done]. rewrite <- H. apply others_raise_class. Qed.
Lemma tame_settle w k v f w' : others w' = others w -> ends (tame w) (settle k v f w').
Proof. intros H. destruct k; cbn [settle]; try (by apply tame_put); done. Qed.

Lemma tame_act w w0 r k pins f : others w0 = others w -> (Q -> is_throwing w0 = false) -> ends (act_kept w0) r -> ends (tame w) (act r k pins f).
Proof.
  intros Ho Hq Hr. unfold act. eapply ends_bind; [exact Hr|]. intros [[v|fn args] w'] [H1 H2]; cbn [fst snd] in *.
  - apply tame_settle. congruence.
  - split; [congruence|]. intros HQ. by rewrite (same_throwing _ _ H2), Hq.
Qed.

Lemma others_track f w v : others (snd (track own f w v)) = others w /\ term (snd (track own f w v)) = term w.
Proof. unfold track. destruct own; [|done]. by case_match. Qed.
Lemma tame_put_tracked w f w' a v : others w' = others w -> ends (tame w) (put_tracked own f w' a v).
Proof.
  intros H. unfold put_tracked. apply ends_read. intros f'. pose proof (others_track f' w' v) as [Ht _]. destruct (track own f' w' v) as [f2 w2].
  cbn in *. split; [congruence|done].
Qed.
Lemma tame_new_cell w f w' a v c : others w' = others w -> ends (tame w) (new_cell P own f w' a v c).
Proof. intros H. unfold new_cell, alloc. by apply tame_put_tracked. Qed.

Lemma tame_call_field w a win name v f w' : others w' = others w -> (Q -> is_throwing w' = true -> v = VVoid) ->
  ends (tame w) (call_field P sema a win name v f w').
Proof.
  intros Ho Hq. unfold call_field. eapply ends_bind with (R := fun fi => v = VVoid -> fi = None).
  - unfold closure_fn. destruct v as [| | | | | |[p|]| | | | | |]; try done. apply ends_read. intros c. done.
  - intros [i|] Hi; [|by apply tame_raised]. case_match; [|by apply tame_raised]. split; [done|].
    intros HQ Ht. specialize (Hi (Hq HQ Ht)). done.
Qed.

Lemma tame_call_dyn w i u f : (Q -> is_throwing w = false) -> ends (tame w) (exec_call_dyn P m sema depth i u f w).
Proof.
  intros Hq. unfold exec_call_dyn. do 4 (apply ends_read; intros ?). case_match.
  - eapply ends_bind; [apply kept_callDecl|]. intros [[v|fn args] w'] [H1 H2]; cbn [fst snd] in *; [by apply tame_put|by apply tame_quiet].
  - eapply ends_bind; [apply kept_getMember|]. intros [[v|fn args] w'] [H1 H2]; cbn [fst snd] in *; [|by apply tame_quiet].
    apply tame_call_field; [done|]. intros HQ Ht. specialize (Hq HQ). destruct (H2 Ht); [congruence|done].
Qed.

Lemma tame_call_value w i f : (Q -> is_throwing w = false) -> ends (tame w) (exec_call_value P sema i f w).
Proof.
  intros Hq. unfold exec_call_value. do 2 (apply ends_read; intros ?). apply ends_read. intros [n|]; [|by apply tame_raised].
  case_match; [by apply tame_quiet|by apply tame_raised].
Qed.

Lemma tame_await_value w w' a p f : others w' = others w -> ends (tame w) (await_value P sema a p f w').
Proof. intros H. unfold await_value. apply ends_read. intros o. case_match; [by apply tame_raised|by apply tame_put]. Qed.

Lemma tame_pump w a p batch n f : ends (tame w) (pump P sema a p batch n f w).
Proof.
  unfold pump. destruct p as [| | | | |[l|]| | | | | | |]; try (by apply tame_put). destruct (is_throwing w) eqn:Hq; [by apply tame_await_value|].
  destruct (drop n batch) as [|j js].
  - apply ends_read. intros ready. case_match; [by apply tame_await_value|]. destruct (loop_env P (host w)). destruct (nextBatch _ _).
    by apply tame_quiet.
  - unfold invoke_closure. apply ends_read. intros [i|]; by apply tame_quiet.
Qed.

Lemma tame_await w i f : (Q -> is_throwing w = false) -> ends (tame w) (exec_await P sema i f w).
Proof.
  intros Hq. unfold exec_await. apply ends_read. intros [| | | | |[l|]| | | | | | |]; try (by apply tame_put).
  destruct (lv_tasks_enabled P); [|apply tame_pump]. apply ends_read. intros []; [by apply tame_await_value|]. split; [done|]. intros HQ. specialize (Hq HQ). unfold is_throwing in *. cbn. congruence.
Qed.

Lemma tame_task_native w name a args f : (Q -> is_throwing w = false) -> ends (tame w) (task_native P sema name a args f w).
Proof.
  intros Hq. assert (forall msg, ends (tame w) (put f (raise P sema msg w) a VVoid)) as Hr by (intros; apply tame_put, others_raise_class).
  assert (forall c k pins, tame w (Sched c k pins, f, snd (save_thrown w))) as Hs.
  { intros c k pins. split; [done|]. intros HQ. specialize (Hq HQ). unfold is_throwing in *. cbn. congruence. }
  unfold task_native. case_match; [apply Hr|]. case_match; [repeat case_match; try (by apply Hr); by apply tame_quiet|].
  case_match; [apply ends_read; intros ids; apply Hs|]. destruct args as [|[| | | | |[p|]| | | | | | |] args]; try (by apply Hr).
  destruct args as [|[| | | | |[q|]| | | | | | |] args]; try (by apply Hr).
  apply ends_read. intros []; [by apply tame_put|]. apply ends_read. intros []; [by apply tame_put|]. apply Hs.
Qed.

Lemma tame_native_int w w' a n f : others w' = others w -> ends (tame w) (native_int a n f w').
Proof. intros H. unfold native_int. apply ends_read. intros f'. split; [|done]. by rewrite others_exit_check. Qed.

Lemma tame_native w i f : (Q -> is_throwing w = false) -> ends (tame w) (exec_native P m sema depth i f w).
Proof.
  intros Hq. unfold exec_native. do 2 (apply ends_read; intros ?). case_match; [by apply tame_raised|].
  case_match; [by apply tame_task_native|]. case_match.
  - unfold registry_native. case_match; [|by apply tame_native_int]. case_match; [by apply tame_quiet|by apply tame_native_int].
  - apply ends_read. intros [[[out err] h]|]; [|by apply tame_raised]. case_match; [by apply tame_raised|].
    apply ends_read. intros f'. split; [|done]. by rewrite others_exit_check.
Qed.

Lemma tame_outcome w f a o : ends (tame w) (of_outcome P sema f w a o).
Proof. destruct o; cbn [of_outcome]; try done; [by apply tame_put|]. apply ends_read. intros f'. by apply tame_raised. Qed.

Lemma tame_arith w i f : (Q -> is_throwing w = false) -> ends (tame w) (exec_arith P m sema depth i f w).
Proof.
  intros Hq. unfold exec_arith. do 2 (apply ends_read; intros ?). case_match; [apply tame_outcome|].
  case_match; try apply tame_outcome. case_match; [|apply tame_outcome]. apply ends_read. intros o. case_match; [|apply tame_outcome].
  case_match; [apply tame_outcome|]. case_match.
  - eapply tame_act; [done|done|apply kept_callDecl].
  - eapply tame_act; [done|done|apply kept_callDecl].
  - by apply tame_put.
  - apply ends_read. intros f'. by apply tame_raised.
Qed.

Lemma tame_index_store w outer insts i f : (Q -> is_throwing w = false) -> ends (tame w) (exec_index_store P m sema depth outer insts i f w).
Proof. intros Hq. unfold exec_index_store. do 5 (apply ends_read; intros ?). eapply tame_act; [| |apply kept_indexStore]; done. Qed.

Lemma tame_on_object w f r (k : loc -> Object -> str -> Run (Ctl * Frame * Interp X)) o name :
  (forall p ob key, ends (tame w) (k p ob key)) -> ends (tame w) o -> ends (tame w) (on_object f w r k o name).
Proof. intros Hk Ho. unfold on_object. apply ends_read. intros [| | | | |[p|]| | | | | | |]; try done. by apply ends_read. Qed.

Lemma tame_exec outer insts cs i f w : (Q -> is_throwing w = false) -> ends (tame w) (exec_inst P m sema own depth outer insts cs i f w).
Proof.
  intros Hq. assert (forall c g, tame w (c, g, w)) as Hw by (intros; by apply tame_quiet).
  assert (forall r k pins, ends (act_kept w) r -> ends (tame w) (act r k pins f)) as Hact by (intros; by eapply tame_act).
  unfold exec_inst. destruct (op i);
    repeat match goal with |- ends _ (run_bind (getr _ _) _) => apply ends_read; intros ? end;
    try (by first [done | apply Hw | by apply tame_put | by apply tame_new_cell | by apply tame_put_tracked]).
  - (* LoadConst *) apply ends_read. intros v. by apply tame_put.
  - (* Default *) unfold exec_default, alloc. destruct (defaultForCanonical 2 (sname i)) as [[]|]; try done; by apply tame_put.
  - (* MoveClear *) apply ends_read. intros g. by apply tame_put.
  - (* CopyVal *) eapply ends_bind; [apply same_copy|]. intros [v' w'] H. by apply tame_put, H.
  - by apply tame_arith.
  - (* Neg *) case_match; try by (apply ends_read; intros ?; by apply tame_put). by apply tame_put.
  - (* Call *) apply ends_read. intros args. apply Hw.
  - by apply tame_call_dyn.
  - by apply tame_call_value.
  - by apply tame_native.
  - (* NewObject *) unfold alloc. apply ends_read. intros g. set (w1 := set_host _ w). pose proof (others_track g w1 (VObject (Some (next_loc (host w))))) as [H1 H2].
    destruct (track own g w1 _) as [g2 w2]. case_match; apply tame_quiet; done.
  - apply Hact, kept_getMember.
  - apply Hact, kept_setMember.
  - apply tame_on_object; intros; by apply tame_put.
  - by apply tame_on_object.
  - apply tame_on_object; intros; by apply tame_put.
  - by apply tame_on_object.
  - (* NewArray *) apply ends_read. intros vs. eapply ends_bind; [apply same_spread_all|]. intros [xs w'] H. by apply tame_new_cell, H.
  - (* NewArraySized *) apply ends_read. intros xs. by apply tame_new_cell.
  - (* NewBlock *) apply ends_read. intros _. by apply tame_put_tracked.
  - apply Hact, kept_getIndex.
  - by apply tame_index_store.
  - (* IterLen *) eapply ends_bind; [apply same_iterLen|]. intros [n w'] H. by apply tame_put, H.
  - (* IterAt *) eapply ends_bind; [apply same_iterAt|]. intros [x w'] H. by apply tame_put, H.
  - (* ColGet *) eapply ends_bind; [apply kept_getIndex|]. intros [[v|fn args] w'] [H1 H2]; cbn [fst snd] in *; [|by apply tame_quiet].
    destruct (is_throwing w') eqn:Ht; [|by eapply tame_act; [..|apply kept_getMember]]. destruct (H2 eq_refl) as [Hw' | -> ]; [|by apply tame_put].
    eapply tame_act; [done| |apply kept_getMember]. intros HQ. specialize (Hq HQ). congruence.
  - (* IsType *) apply ends_read. intros b. by apply tame_put.
  - by apply tame_await.
  - (* LoadGlobal *) apply ends_read. intros b. by apply tame_put.
  - (* StoreGlobal *) by apply ends_read.
  - (* CaptureVar *) unfold exec_capture. ends_reads.
  - (* LoadCapture *) unfold exec_load_capture. ends_reads; by apply tame_put.
  - (* Print *) by apply ends_read.
Qed.

Lemma tame_resume k v f w : (Q -> is_throwing w = true -> v = VVoid) -> ends (tame w) (resume P m sema depth k v f w).
Proof.
  intros Hv. unfold resume. destruct k; try (by apply tame_settle).
  - destruct (is_throwing w) eqn:Ht; [|by eapply tame_act; [..|apply kept_getMember]].
    assert (ends (fun r => others (snd r) = others w /\ (Q -> exists x, fst r = ADone x)) (getMember P m sema depth v key w)) as H.
    { destruct v as [| | | | |[p|]| | | | | | |]; try (split; [done|]; intros _; by eexists).
      eapply ends_mono; [apply kept_getMember|]. intros [c w'] [H1 _]. split; [done|]. intros HQ. by specialize (Hv HQ eq_refl). }
    unfold act. eapply ends_bind; [exact H|]. intros [[x|fn args] w'] [H1 H2]; [by apply tame_settle|]. split; [done|].
    intros HQ. by destruct (H2 HQ).
  - by apply tame_call_field.
  - apply tame_pump.
Qed.

Lemma others_woken saved r w : others (snd (woken saved r w)) = others w.
Proof. unfold woken. by repeat case_match. Qed.

Lemma tame_reply k r f w : ends (tame w) (reply P sema k r f w).
Proof.
  assert (forall w', others w' = others w -> forall cls msg, others (raiseClass P sema cls msg w') = others w) as Hr
    by (intros w' <- cls msg; apply others_raise_class).
  unfold reply. destruct k; try done; try (by apply tame_put); [..|by apply tame_native_int];
    pose proof (others_woken saved r w) as Ho; destruct (woken saved r w) as [[] w']; cbn [snd] in *; try done;
    try (by apply tame_raised); try (by apply tame_put); try (by apply tame_put, Hr).
  - apply tame_next, Hr, Ho.
  - case_match; try (by apply tame_put). case_match; [by apply tame_await_value|by apply tame_put].
Qed.

(** ** Configurations *)

Definition config_world (c : @Config X) : Interp X :=
  match c with CRun w _ _ _ | CResume w _ _ _ _ _ | CPark w _ _ _ _ _ _ | CTop w _ | CHalt w => w end.

(** What follows a call made while the scheduler runs the task. *)
Definition task_drive (d : Drive) : Prop := match d with DEntry | DCapture _ => True | _ => False end.

(** A task runs instructions and enters the scheduler with no exception
    pending; a call that returns with one pending returns nothing. *)
Definition calm (c : @Config X) : Prop :=
  match c with
  | CRun w _ _ d | CPark w _ _ _ _ _ d => task_drive d /\ is_throwing w = false
  | CResume w v _ _ _ d => task_drive d /\ (is_throwing w = true -> v = VVoid)
  | CTop w (DCapture _) => True
  | CTop w (DPump _ _) | CTop w DTail => False
  | CTop w _ => is_throwing w = false
  | CHalt w => is_throwing w = false
  end.
(** The initialiser has ended with an exception. *)
Definition init_failed (c : @Config X) : Prop := match c with CTop w DEntry => is_throwing w = true | _ => False end.

Definition calm_after (c' : @Config X) : Prop := init_failed c' \/ calm c'.

Definition follows (w : Interp X) (c' : @Config X) : Prop := others (config_world c') = others w /\ (Q -> calm_after c').

Lemma follows_leave v f w below d : (Q -> task_drive d) -> (Q -> is_throwing w = true -> v = VVoid) -> ends (follows w) (leave m v f w below d).
Proof.
  intros Hd Hv. unfold leave. set (w1 := settle_heap _ (check_weaks _ _ _)). assert (same w w1) as H by done.
  destruct below as [|s below]; (split; [apply H|]); intros HQ; specialize (Hd HQ); specialize (Hv HQ).
  - destruct d; try done; [|by right]. destruct (is_throwing w1) eqn:E; [by left|by right].
  - right. split; [done|]. by rewrite (same_throwing _ _ H).
Qed.

Lemma follows_dispatch f w below d : (Q -> task_drive d) -> ends (follows w) (dispatch m sema depth f w below d).
Proof.
  intros Hd. unfold dispatch. destruct (is_throwing w) eqn:Ht; [|split; [done|]; intros HQ; right; split; auto]. do 3 (apply ends_read; intros ?).
  case_match; [|by apply follows_leave]. apply ends_read. intros g. split; [done|]. intros HQ. right. split; auto.
Qed.

Lemma follows_mono w w' : others w' = others w -> forall r : Run (@Config X), ends (follows w') r -> ends (follows w) r.
Proof. intros H r Hr. eapply ends_mono; [exact Hr|]. intros c [H1 H2]. split; [congruence|done]. Qed.

Lemma follows_perform i o w below d : (Q -> task_drive d) -> tame w o -> ends (follows w) (perform m sema memOn depth i o below d).
Proof.
  intros Hd. destruct o as [[c f] w']. intros [Ho Hn].
  destruct c as [|t|v|fi args k pins|tc k pins|k]; cbn [perform].
  2-6: assert (Q -> is_throwing w' = false) as Hq by (intros HQ; specialize (Hn HQ); destruct (is_throwing w'); [by specialize (Hn eq_refl)|done]).
  - unfold finish_inst. set (w1 := settle_heap _ w'). eapply ends_bind with (R := fun w2 => others w2 = others w).
    + destruct memOn; [|done]. by apply ends_read.
    + intros w2 H2. eapply follows_mono; [exact H2|]. by apply follows_dispatch.
  - eapply follows_mono; [exact Ho|]. by apply follows_dispatch.
  - eapply follows_mono; [exact Ho|]. apply follows_leave; [done|]. intros HQ. specialize (Hq HQ). congruence.
  - apply ends_read. intros g. split; [done|]. intros HQ. right. split; auto.
  - split; [done|]. intros HQ. right. split; auto.
  - split; [done|]. intros HQ. right. split; [auto|]. specialize (Hq HQ). cbn. congruence.
Qed.

Lemma follows_top w d : lv_tasks_enabled P = true -> (Q -> calm (CTop w d)) -> ends (follows w) (step_top P m w d).
Proof.
  intros Htasks Hc. assert (forall c, others (config_world c) = others w -> (calm (CTop w d) -> calm_after c) -> follows w c) as Hgo
    by (intros c H1 H2; split; auto).
  assert (forall fi args d', (calm (CTop w d) -> is_throwing w = false /\ task_drive d') -> ends (follows w) (top_enter m fi args w d')) as Henter.
  { intros fi args d' Hq. unfold top_enter. apply ends_read. intros g. apply Hgo; [done|]. intros H%Hq. right. cbn. tauto. }
  assert (after_entry P = DCapture []) as Hae by (unfold after_entry; by rewrite Htasks).
  unfold step_top. rewrite Hae. destruct d as [| |cb arg|cb|l|batch n|]; cbn [calm] in *.
  - case_match; [by apply Henter|]. apply Hgo; [done|]. by right.
  - case_match; [by apply Henter|]. apply Hgo; [done|]. by right.
  - case_match; [apply Hgo; [done|by right]|]. apply ends_read. intros [i|]; [by apply Henter|]. apply Hgo; [done|]. by right.
  - case_match; [apply Hgo; [done|by right]|]. apply ends_read. intros [i|]; [by apply Henter|]. apply Hgo; [done|]. by right.
  - apply Hgo; [done|]. intros _. right. unfold calm, is_throwing, capture, rtCaptureTermination. cbn [set_term term].
    destruct (throwing (term w)) eqn:E; cbn [negb]; [by destruct (termStashed (term w))|done].
  - case_match; [by apply Hgo|]. case_match; [case_match; [|by apply Hgo]; destruct (loop_env _ _); destruct (nextBatch _ _); by apply Hgo|].
    apply ends_read. intros [i|]; [by apply Henter|by apply Hgo].
  - eapply ends_bind with (R := fun w' => others w' = others w); [unfold run_tail; case_match; [by apply ends_read|done]|].
    intros w' Hw'. by apply Hgo.
Qed.

Lemma follows_step c : lv_tasks_enabled P = true -> (Q -> calm c) -> ends (follows (config_world c)) (step P m sema own memOn depth c).
Proof.
  intros Htasks Hc. destruct c as [w f below d|w v k f below d|w tc k pins f below d|w d|w]; cbn [step config_world].
  - apply ends_read. intros [fn [i|]].
    + eapply ends_bind; [apply tame_exec; by intros []%Hc|]. intros o Ho. apply follows_perform; [by intros []%Hc|done].
    + apply follows_leave; [by intros []%Hc|done].
  - apply ends_read. intros [fn i]. apply ends_read. intros j. eapply ends_bind; [apply tame_resume; by intros []%Hc|]. intros o Ho.
    apply follows_perform; [by intros []%Hc|done].
  - split; [done|]. intros HQ. right. by apply Hc.
  - by apply follows_top.
  - split; [done|]. intros HQ. right. by apply Hc.
Qed.

Lemma follows_wake w r k f below d : (Q -> task_drive d) -> ends (follows w) (wake P m sema memOn depth w r k f below d).
Proof.
  intros Hd. unfold wake. apply ends_read. intros [fn i]. apply ends_read. intros j. eapply ends_bind; [apply tame_reply|]. intros o Ho. by apply follows_perform.
Qed.
End Keep.
