(* ===== verification/Program.v ===== *)
(** * A program: the interpreter on the task scheduler

    [IrInterp::run] with tasks enabled: the interpreter of [IrInterp.cpp] is an
    engine of the scheduler of [lv_task.c].  A task's stack is a [Thread], a
    configuration of the interpreter without the state the tasks share; its
    body advances it by one step of the interpreter, or wakes it with the
    scheduler's answer, and makes the call into the scheduler the step ended in.

    The values a suspended thread holds are part of [others] of the shared
    state: a thread takes its own out while it runs and puts them back, with
    those of a thread it spawns, before anything else runs.  So reference
    counts are exact at every step.  A park key is the awaited object's
    location. *)

From S2P Require Import TaskSched.
From S2P Require Import Prelude Token Value RefHeap Ir RuntimeLoop RuntimeCore MemVerify IrInterp.

Local Open Scope Z_scope.

#[export] Instance Value_eq_dec : EqDecision Value.
Proof. solve_decision. Defined.

(** ** Threads *)

Inductive Thread :=
| TRun (f : Frame) (below : list Susp) (d : Drive)
| TResume (v : Value) (k : Kont) (f : Frame) (below : list Susp) (d : Drive)
| TPark (c : TaskCmd) (k : Kont) (pins : list Value) (f : Frame) (below : list Susp) (d : Drive)
| TTop (d : Drive)
| TDone
| TFault (e : Fault).

Definition thread_values (t : Thread) : list Value :=
  match t with
  | TRun f below d => frame_values f ++ outer_values below d
  | TResume v k f below d => v :: kont_values k ++ frame_values f ++ outer_values below d
  | TPark _ k pins f below d => pins ++ kont_values k ++ frame_values f ++ outer_values below d
  | TTop d => drive_values d
  | TDone | TFault _ => []
  end.

(** One occurrence of [v] less. *)
Fixpoint take_out (v : Value) (l : list Value) : list Value :=
  match l with [] => [] | x :: l' => if decide (x = v) then l' else x :: take_out v l' end.

(** The location a park key points to. *)
Definition key_of (p : loc) : key := Z.of_nat p.
Definition loc_of (k : key) : loc := Z.to_nat k.

Section Program.
Context {X : Type} (P : Platform X) (m : IrModule) (sema : Sema) (own : option (list (nat * Z))) (memOn : bool) (depth : nat).
(** The monotonic clock and [LANG_TASK_UNCANCELLABLE_MS]. *)
Context (clock : Interp X -> Z) (uncancellable : Interp X -> option str).

Definition config_of (w : Interp X) (t : Thread) : @Config X :=
  match t with
  | TRun f below d => CRun w f below d
  | TResume v k f below d => CResume w v k f below d
  | TPark c k pins f below d => CPark w c k pins f below d
  | TTop d => CTop w d
  | TDone | TFault _ => CHalt w
  end.
Definition thread_of (c : @Config X) : Thread * Interp X :=
  match c with
  | CRun w f below d => (TRun f below d, w)
  | CResume w v k f below d => (TResume v k f below d, w)
  | CPark w c k pins f below d => (TPark c k pins f below d, w)
  | CTop w d => (TTop d, w)
  | CHalt w => (TDone, w)
  end.

Definition set_others (l : list Value) (w : Interp X) : Interp X :=
  MkInterp (host w) (globals_ w) (term w) (mem_ w) (tracked_ w) (violations_ w) l.
(** The thread that holds [vals] runs. *)
Definition retract (vals : list Value) (w : Interp X) : Interp X := set_others (fold_left (fun l v => take_out v l) vals (others w)) w.
Definition publish (vals : list Value) (w : Interp X) : Interp X := set_others (vals ++ others w) w.

(** ** The engine *)

Definition reply_of (r : Reply) : TaskReply :=
  match r with RUnit => MkReply 0 0 | RInt n => MkReply n 0 | RPark reason which => MkReply reason (default 0 which) end.

(** The call a step ended in; [taskRunGroupBody] is the body of a spawned task. *)
Definition cmd_of (t : Thread) : Cmd Thread :=
  match t with
  | TPark (TcSpawn cb) _ _ _ _ _ => CSpawnRegistered (TTop (DGroup cb))
  | TPark (TcParkOn p) _ _ _ _ _ => CParkOn (Some (key_of p))
  | TPark (TcParkAny2 p q) _ _ _ _ _ => CParkAny2 (Some (key_of p)) (Some (key_of q))
  | TPark (TcJoin ids) _ _ _ _ _ => CParkJoin ids
  | TPark (TcCancel id) _ _ _ _ _ => CCancel id
  | TPark (TcShield n) _ _ _ _ _ => CShield n
  | TDone => CReturn
  | _ => CCompute
  end.
Definition spawned_values (t : Thread) : list Value :=
  match t with TPark (TcSpawn cb) _ _ _ _ _ => drive_values (DGroup cb) | _ => [] end.

Definition advance (t : Thread) (r : Reply) (w : Interp X) : Run (@Config X) :=
  match t with
  | TPark _ k _ f below d => wake P m sema memOn depth w (reply_of r) k f below d
  | _ => step P m sema own memOn depth (config_of w t)
  end.

Definition task_body (t : Thread) (r : Reply) (w : Interp X) : Cmd Thread * Thread * Interp X :=
  match t with
  | TDone => (CReturn, TDone, w)
  | TFault e => (CCompute, TFault e, w)
  | _ =>
      let w := retract (thread_values t) w in
      match advance t r w with
      | Stop e => (CCompute, TFault e, w)
      | Go c =>
          let '(t', w') := thread_of c in
          let w' := publish (thread_values t' ++ spawned_values t') w' in
          (cmd_of t', t', match t' with TDone => settle_heap [] w' | _ => w' end)
      end
  end.

(** [taskPollPromise]. *)
Definition poll_promise (w : Interp X) (k : key) : Z :=
  match h_obj (w_heap w) (loc_of k) with Some o => rtPollPromise o | None => 0 end.

Definition job_drive (j : LoopCallback (V := Value)) : Drive := DJob (lc_callback j) (VInt (lc_argument j)).

(** [taskLoopStep]: one batch of the loop, each job a task; with no work or a
    termination recorded the loop is not asked. *)
Definition task_loop_step (w : Interp X) : Z * list Thread * Interp X :=
  if termStashed (term w) || negb (hasWork (loop_ (host w))) then (0, [], w)
  else
    let '(e, h) := loop_env P (host w) in
    let '(n, jobs, lp) := rtTaskLoopStep (termStashed (term w)) e (loop_ h) in
    (n, map (fun j => TTop (job_drive j)) jobs,
     settle_heap [] (publish (jobs ≫= (fun j => drive_values (job_drive j))) (set_host (host_loop lp h) w))).

Definition interp_engine : Engine (Interp X) Thread :=
  MkEngine _ _ task_body (Some poll_promise) (Some task_loop_step) (Some is_throwing) clock uncancellable.

(** ** [run] *)

Definition program_start (h : Host X) : option (@Sys (Interp X) Thread) :=
  lv_sched_run interp_engine (TTop DGinit) (run_init m h) empty_sched.

(** The states of a run. *)
Definition runs (h : Host X) (y : @Sys (Interp X) Thread) : Prop :=
  exists n y0, program_start h = Some y0 /\ TaskSched.steps interp_engine n y0 = Some y.

(** The recorded termination is raised again, then the common tail. *)
Definition reraise (w : Interp X) : Interp X :=
  let t := term w in
  if termStashed t then set_term (MkTerm true (termExiting t) (termThrown t) true (termThrown t) (termExiting t)) w else w.
Definition program_end (w : Interp X) : Run (Interp X) := run_tail (reraise w).
Definition program_exit_code (w : Interp X) : Z := exit_code (reraise w).

End Program.
