(* ===== verification/ProgramSound.v ===== *)
(** * Invariant of a running program

    Between two steps of the scheduler every value a suspended thread holds is
    accounted for, once, in the shared state; every suspended thread is well
    formed in it; a parked task's keys are objects its thread holds.  Each step
    of the scheduler, whichever task it runs, keeps this. *)

From S2P Require Import TaskSched.
From S2P Require Import TaskLists TaskInv TaskRun TaskSlots TaskProps.
From S2P Require Import Prelude Token Value RefHeap Ir RuntimeLoop RuntimeCore MemVerify IrInterp IrTyping IrSafe IrSound IrKeep Program.

Local Open Scope Z_scope.

Lemma take_out_cons v l k : v :: l ≡ₚ k -> take_out v k ≡ₚ l.
Proof.
  intros H. assert (v ∈ k) as Hin by (rewrite <- H; by left). assert (k ≡ₚ v :: take_out v k) as Hk.
  { clear H. induction k as [|x k IH]; [by apply elem_of_nil in Hin|]. cbn. destruct (decide (x = v)) as [->|Hne]; [done|].
    apply elem_of_cons in Hin as [->|Hin]; [done|]. rewrite (IH Hin) at 1. solve_Permutation. }
  apply (Permutation_cons_inv (a := v)). by rewrite <- Hk.
Qed.
Lemma take_out_all vals l k : k ≡ₚ vals ++ l -> fold_left (fun l v => take_out v l) vals k ≡ₚ l.
Proof.
  revert k. induction vals as [|v vals IH]; intros k H; cbn; [done|]. apply IH. by apply take_out_cons.
Qed.

(** ** What the tasks hold *)

Definition slot_values (t : @Task Thread) : list Value :=
  match frame t with FFresh l | FYield l | FPark l _ => thread_values l | FDead => [] end.
Definition waiting (M : gmap ptr (@Task Thread)) : list Value := concat (map_to_list (slot_values <$> M)).*2.

Lemma waiting_ext M M' : slot_values <$> M' = slot_values <$> M -> waiting M' = waiting M.
Proof. unfold waiting. by intros ->. Qed.
Lemma concat_perm (l l' : list (list Value)) : l ≡ₚ l' -> concat l ≡ₚ concat l'.
Proof.
  induction 1 as [|x l l' _ IH|x y l|l1 l2 l3 _ IH1 _ IH2]; cbn; [done|by rewrite IH| |by etransitivity].
  rewrite !app_assoc. apply Permutation_app_tail, Permutation_app_comm.
Qed.
Lemma waiting_insert M p t : M !! p = None -> waiting (<[p := t]> M) ≡ₚ slot_values t ++ waiting M.
Proof.
  intros Hp. unfold waiting. rewrite fmap_insert. etransitivity; [apply concat_perm|].
  - apply (Permutation_map snd), map_to_list_insert. by rewrite lookup_fmap, Hp.
  - done.
Qed.
Lemma waiting_delete M p t : M !! p = Some t -> waiting M ≡ₚ slot_values t ++ waiting (delete p M).
Proof. intros Hp. rewrite <- (insert_delete_id M p t Hp) at 1. apply waiting_insert, lookup_delete_eq. Qed.

Section Sound.
Context {X : Type} (P : Platform X) (m : IrModule) (sema : Sema) (own : option (list (nat * Z))) (memOn : bool) (depth : nat).
Context (clock : Interp X -> Z) (uncancellable : Interp X -> option str).
Context `{HP : !PlatformOk m P} (Hm : module_ok m sema = true) (Htasks : lv_tasks_enabled P = true) (Q : Prop).
Implicit Types (w : Interp X) (s : @TaskSched.Sched Thread) (p q : ptr).

Abbreviation E := (interp_engine P m sema own memOn depth clock uncancellable).

(** ** Threads *)

Definition thread_ok (t : Thread) : Prop :=
  match t with
  | TRun f below _ => frame_ok m f /\ Forall (susp_ok m) below
  | TResume v k f below _ => susp_ok m (MkSusp f k []) /\ Forall (susp_ok m) below
  | TPark c k pins f below _ => susp_ok m (MkSusp f k pins) /\ Forall (susp_ok m) below /\ cmd_values c ⊆ kont_values k ++ pins
  | TTop _ | TDone => True
  | TFault e => e = FOverflow \/ e = FDepth \/ e = FMemory
  end.
Definition thread_calm w (t : Thread) : Prop := match t with TFault _ => True | _ => calm (config_of w t) end.
Definition thread_failed w (t : Thread) : Prop := match t with TTop DEntry => is_throwing w = true | _ => False end.

Lemma config_thread (c : @Config X) : config_ok m c -> thread_ok (fst (thread_of c)) /\ I m (snd (thread_of c)) (thread_values (fst (thread_of c))).
Proof. destruct c; cbn; tauto. Qed.
Lemma thread_config w t : thread_ok t -> I m w (thread_values t) -> config_ok m (config_of w t).
Proof. destruct t; cbn; tauto. Qed.

Lemma calm_throwing w w' t : is_throwing w' = is_throwing w -> thread_calm w t -> thread_calm w' t.
Proof. intros H. destruct t as [| | |[]| |]; cbn; by rewrite ?H. Qed.

(** ** Taking out and putting back *)

Lemma I_others w w' vals vals' : host w' = host w -> globals_ w' = globals_ w -> term w' = term w ->
  (forall v, v ∈ others w' ++ vals' -> v ∈ others w ++ vals) -> I m w vals -> I m w' vals'.
Proof.
  intros H1 H2 H3 Hs [(G1 & G2 & G3) G4]. unfold I, host_ok. rewrite H1, H2, H3. split; [|done]. split; [done|]. split; [done|].
  rewrite !Forall_app in *. rewrite !Forall_forall in *. destruct G3 as (? & ? & ? & Ho & Hv).
  assert (forall v, v ∈ others w' ++ vals' -> v_ok (heap (host w)) v) as Hall.
  { intros v [Hin|Hin]%Hs%elem_of_app; [by apply Ho|by apply Hv]. }
  split_and!; try done; intros v Hin; apply Hall, elem_of_app; auto.
Qed.

Lemma retract_spec w vals rest : I m w [] -> others w ≡ₚ vals ++ rest ->
  let w0 := retract vals w in I m w0 vals /\ others w0 ≡ₚ rest /\ is_throwing w0 = is_throwing w.
Proof.
  intros HI Ho w0. assert (others w0 ≡ₚ rest) as H0 by by apply take_out_all. split; [|done].
  apply (I_others w _ []); try done. intros v. rewrite app_nil_r, Ho, H0. rewrite !elem_of_app. tauto.
Qed.
Lemma I_publish w vals vals' : vals ⊆ vals' -> I m w vals' -> I m (publish vals w) [].
Proof. intros Hs. apply I_others; try done. intros v. cbn. rewrite app_nil_r, !elem_of_app. intros [H%Hs|H]; auto. Qed.

Lemma I_settle_all w : I m w [] -> I m (settle_heap [] w) [].
Proof. intros H. by apply (I_settled m w []). Qed.

(** ** The body of a task *)

Lemma advance_safe t r w : thread_ok t -> I m w (thread_values t) ->
  safe (config_ok m) (advance P m sema own memOn depth t r w).
Proof.
  intros Ht HI. pose proof (thread_config w t Ht HI) as Hc. destruct t; try (by apply safe_step). by eapply (safe_wake P m sema memOn depth Hm w).
Qed.

Lemma advance_follows t r w : (forall e, t <> TFault e) -> (Q -> thread_calm w t) ->
  ends (follows Q w) (advance P m sema own memOn depth t r w).
Proof.
  intros Hf Hc. assert (config_world (config_of w t) = w) as Hw by by destruct t.
  destruct t; try (rewrite <- Hw at 1; by apply follows_step).
  - apply follows_wake. by intros []%Hc.
  - by destruct (Hf e).
Qed.

Lemma spawned_sub t : thread_ok t -> spawned_values t ⊆ thread_values t.
Proof.
  destruct t as [| |c k pins f below d| | |]; cbn; try (by intros _ ? ?%elem_of_nil). intros (_ & _ & Hc).
  destruct c; cbn in *; try (by intros ? ?%elem_of_nil). intros x Hx%Hc. rewrite !elem_of_app in *. tauto.
Qed.

(** What a body does with what it holds, next to the [rest]. *)
Record body_post (rest : list Value) (t' : Thread) w' : Prop := {
  bp_state : I m w' [];
  bp_others : others w' ≡ₚ (thread_values t' ++ spawned_values t') ++ rest;
  bp_thread : thread_ok t';
  bp_calm : Q -> thread_failed w' t' \/ thread_calm w' t'
}.

Lemma body_spec t r w rest c t' w' : thread_ok t -> I m w [] -> others w ≡ₚ thread_values t ++ rest -> (Q -> thread_calm w t) ->
  task_body P m sema own memOn depth t r w = (c, t', w') -> c = cmd_of t' /\ body_post rest t' w'.
Proof.
  intros Ht HI Ho Hc.
  assert (forall e, t = TFault e -> (CCompute, TFault e, w) = (c, t', w') -> c = cmd_of t' /\ body_post rest t' w') as Hfault.
  { intros e -> [= <- <- <-]. split; [done|]. by split; auto. }
  destruct (retract_spec w (thread_values t) rest HI Ho) as (H1 & H2 & H3). set (w0 := retract (thread_values t) w) in *.
  assert ((forall e, t <> TFault e) -> forall r', advance P m sema own memOn depth t r w0 = r' ->
    match r' with
    | Stop e => (CCompute, TFault e, w0)
    | Go c => let '(t', w') := thread_of c in
              let w' := publish (thread_values t' ++ spawned_values t') w' in
              (cmd_of t', t', match t' with TDone => settle_heap [] w' | _ => w' end)
    end = (c, t', w') -> c = cmd_of t' /\ body_post rest t' w') as Hgo.
  { intros Hf r' Hr. pose proof (advance_safe t r w0 Ht H1) as Hs.
    assert (ends (follows Q w0) (advance P m sema own memOn depth t r w0)) as Hfl.
    { apply advance_follows; [done|]. intros HQ. apply (calm_throwing w); auto. }
    rewrite Hr in Hs, Hfl. destruct r' as [c0|e].
    - destruct (config_thread c0 Hs) as [A1 A2]. destruct Hfl as [B1 B2].
      assert (snd (thread_of c0) = config_world c0) as Hw by by destruct c0. assert (config_of (config_world c0) (fst (thread_of c0)) = c0) as Hcc by by destruct c0.
      destruct (thread_of c0) as [t1 w1]. cbn [fst snd] in *. subst w1. intros [= <- <- <-]. split; [done|].
      set (w2 := publish (thread_values t1 ++ spawned_values t1) (config_world c0)).
      assert (I m w2 []) as Hw2 by (eapply I_publish; [|exact A2]; intros x [Hx|Hx]%elem_of_app; [done|by apply spawned_sub]).
      assert (others w2 ≡ₚ (thread_values t1 ++ spawned_values t1) ++ rest) as Ho2 by (cbn; by rewrite B1, H2).
      assert (Q -> thread_failed w2 t1 \/ thread_calm w2 t1) as Hc2.
      { intros HQ. rewrite <- Hcc in B2. destruct (B2 HQ) as [B|B]; [left|right; by destruct t1]. by destruct t1 as [| | |[]| |]. }
      destruct t1; try (by split). by split; [apply I_settle_all|..].
    - intros [= <- <- <-]. split; [done|]. split; try done; [|by right].
      apply (I_others w0 _ (thread_values t)); try done. intros v. rewrite app_nil_r, elem_of_app. auto. }
  unfold task_body. destruct t; try (by apply Hgo).
  - intros [= <- <- <-]. split; [done|]. split; try done. auto.
  - by apply (Hfault e).
Qed.

(** ** Slots *)

Definition starting (t : Thread) : Prop := match t with TTop DGinit | TTop (DJob _ _) | TTop (DGroup _) => True | _ => False end.
Definition cmd_keys (c : TaskCmd) : list key :=
  match c with TcParkOn p => [key_of p] | TcParkAny2 p q => [key_of p; key_of q] | _ => [] end.
Definition keys_in (k : list key) (t : @Task Thread) : Prop :=
  forall x, parked_on (park t) = Some x \/ parked_on2 (park t) = Some x -> x ∈ k.

Definition slot_ok (t : @Task Thread) : Prop :=
  match frame t with
  | FFresh l => thread_ok l /\ starting l /\ keys_in [] t
  | FPark (TPark c k pins f below d) _ => thread_ok (TPark c k pins f below d) /\ (Q -> task_drive d) /\ keys_in (cmd_keys c) t
  | FDead => True
  | _ => False
  end.

Lemma keys_in_like k (t t' : @Task Thread) : slot_like t t' -> keys_in k t -> keys_in k t'.
Proof. unfold keys_in. intros (_ & H2 & H3 & _). by rewrite H2, H3. Qed.
Lemma slot_ok_like (t t' : @Task Thread) : slot_like t t' -> slot_ok t -> slot_ok t'.
Proof.
  intros Hl. pose proof (fun k => keys_in_like k _ _ Hl) as Hk. destruct Hl as [H1 _]. unfold slot_ok. rewrite H1.
  destruct (frame t) as [l| |[]|]; try done; intros (A & B & C); eauto.
Qed.

(** The tasks but the running one. *)
Definition resting (x : option ptr) s : gmap ptr (@Task Thread) := match x with Some p => delete p (tasks s) | None => tasks s end.

Record stocked w s (x : option ptr) (vs : list Value) : Prop := {
  sk_others : others w ≡ₚ vs ++ waiting (resting x s);
  sk_slots : forall p t, resting x s !! p = Some t -> slot_ok t;
  sk_pool : pool_dead s
}.

Lemma resting_evolves x s s' p : evolves s s' -> option_Forall2 slot_like (resting x s !! p) (resting x s' !! p).
Proof.
  intros H. destruct x as [q|]; [|apply H]. unfold resting. destruct (decide (p = q)) as [->|Hne].
  - rewrite !lookup_delete_eq. constructor.
  - rewrite !lookup_delete_ne by done. apply H.
Qed.

Lemma stocked_evolves w s s' x vs : evolves s s' -> stocked w s x vs -> stocked w s' x vs.
Proof.
  intros He [H1 H2 H3]. split.
  - rewrite H1. f_equiv. unfold waiting. f_equiv. f_equiv. f_equiv. apply map_eq. intros p. rewrite !lookup_fmap.
    destruct (resting_evolves x s s' p He) as [t t' [Hf _]|]; [|done]. cbn. unfold slot_values. by rewrite Hf.
  - intros p t Ht. pose proof (resting_evolves x s s' p He) as Hp. rewrite Ht in Hp. inversion Hp as [t0 ? Hl E1 E2|]; subst.
    apply (slot_ok_like t0); [done|]. by apply (H2 p).
  - by eapply pool_dead_evolves.
Qed.

Lemma stocked_others w w' s x vs : others w' = others w -> stocked w s x vs -> stocked w' s x vs.
Proof. intros H [H1 H2 H3]. split; [by rewrite H|done|done]. Qed.

(** The task at [p], excluded or dead before, is now [t]. *)
Lemma waiting_replace p t s x : (forall t0, resting x s !! p = Some t0 -> slot_values t0 = []) ->
  waiting (<[p := t]> (resting x s)) ≡ₚ slot_values t ++ waiting (resting x s).
Proof.
  intros Hd. destruct (resting x s !! p) as [t0|] eqn:E0; [|by apply waiting_insert].
  rewrite <- insert_delete_eq, (waiting_insert _ p t) by apply lookup_delete_eq. f_equiv.
  rewrite (waiting_delete _ p t0 E0). by rewrite Hd.
Qed.

Lemma stocked_spawn w w1 s s' x a l vs : wf s a (option_list x) -> counted s a (option_list x) -> thread_ok l -> starting l ->
  lv_task_spawn E l w1 s = Some s' -> stocked w s x (thread_values l ++ vs) -> stocked w s' x vs.
Proof.
  intros Hwf Hct Hl Hst Hs [H1 H2 H3]. destruct (spawn_slot E l w1 s s' a _ Hwf Hct H3 Hs) as (q & n & Hdead & Hq & He).
  eapply stocked_evolves; [exact He|].
  assert (resting x (set_tasks (<[q := fresh_task l n]> (tasks s)) s) = <[q := fresh_task l n]> (resting x s)) as Hr.
  { destruct x as [p|]; [|done]. cbn. rewrite delete_insert_ne; [done|]. intros <-. apply Hq. by left. }
  split.
  - rewrite Hr, waiting_replace; [cbn; rewrite H1; solve_Permutation|]. intros t0 Ht0. unfold slot_values. rewrite Hdead; [done|].
    destruct x as [p|]; [|done]. unfold resting in Ht0. by apply lookup_delete_Some in Ht0 as [_ ?].
  - intros p t. rewrite Hr. destruct (decide (p = q)) as [->|Hne].
    + rewrite lookup_insert_eq. intros [= <-]. split; [done|]. split; [done|]. intros k [Hk|Hk]; done.
    + rewrite lookup_insert_ne by done. apply H2.
  - by apply pool_dead_insert.
Qed.

(** The running task leaves its processor with [f] done to it. *)
Lemma stocked_leave w s p f vs : (forall t, tasks s !! p = Some t -> slot_ok (f t) /\ (tstate (f t) = POOLED -> frame (f t) = FDead)) ->
  is_Some (tasks s !! p) -> (forall t, tasks s !! p = Some t -> stocked w s (Some p) (slot_values (f t) ++ vs)) -> stocked w (upd p f s) None vs.
Proof.
  intros Hok [t Ht] Hst. destruct (Hst t Ht) as [H1 H2 H3]. destruct (Hok t Ht) as [Hs Hp].
  assert (tasks (upd p f s) = <[p := f t]> (delete p (tasks s))) as Hr.
  { cbn. apply map_eq. intros q. destruct (decide (q = p)) as [->|Hne].
    - by rewrite lookup_alter_eq, lookup_insert_eq, Ht.
    - by rewrite lookup_alter_ne, lookup_insert_ne, lookup_delete_ne. }
  split.
  - unfold resting. rewrite Hr, waiting_insert by apply lookup_delete_eq. rewrite H1. unfold resting. solve_Permutation.
  - unfold resting. rewrite Hr. intros q t'. destruct (decide (q = p)) as [->|Hne]; [rewrite lookup_insert_eq; by intros [= <-]|].
    rewrite lookup_insert_ne by done. apply H2.
  - intros q t'. rewrite Hr. destruct (decide (q = p)) as [->|Hne]; [rewrite lookup_insert_eq; by intros [= <-]|].
    rewrite lookup_insert_ne, lookup_delete_ne by done. apply H3.
Qed.

Lemma delete_upd p (f : @Task Thread -> @Task Thread) s : delete p (tasks (upd p f s)) = delete p (tasks s).
Proof. cbn. apply map_eq. intros q. destruct (decide (q = p)) as [->|Hne]; [by rewrite !lookup_delete_eq|]. by rewrite !lookup_delete_ne, lookup_alter_ne. Qed.

(** What is done to the running task itself does not matter. *)
Lemma stocked_self w s p f vs : (forall t, tasks s !! p = Some t -> tstate (f t) <> POOLED) -> stocked w s (Some p) vs -> stocked w (upd p f s) (Some p) vs.
Proof.
  intros Hf [H1 H2 H3]. unfold resting in *. split; unfold resting; rewrite ?delete_upd; try done. intros q t Hq. cbn in Hq.
  destruct (decide (q = p)) as [->|Hne].
  - rewrite lookup_alter_eq in Hq. destruct (tasks s !! p) as [t0|] eqn:E0; [|done]. cbn in Hq. injection Hq as <-. intros Hp. by destruct (Hf t0 eq_refl).
  - rewrite lookup_alter_ne in Hq by done. by apply H3 with (p := q).
Qed.

Lemma stocked_enter w s p t vs : tasks s !! p = Some t -> stocked w s None vs -> stocked w s (Some p) (slot_values t ++ vs).
Proof.
  intros Ht [H1 H2 H3]. unfold resting in *. split; unfold resting; [|intros q t' Hq; apply lookup_delete_Some in Hq as [_ Hq]; by apply (H2 q)|done].
  rewrite H1, (waiting_delete _ p t Ht). solve_Permutation.
Qed.
End Sound.
