(* ===== verification/ProgramRun.v ===== *)
(** * Every step of a running program

    The invariant of [ProgramSound] along the states of a run, and what it
    means: no task goes wrong, no park key dangles, no reference dangles
    whichever task holds it; and the interpreter keeps its side of the
    scheduler's assertions. *)

From S2P Require Import TaskSched.
From S2P Require Import TaskLists TaskInv TaskRun TaskSlots TaskProps.
From S2P Require Import Prelude Token Value RefHeap Ir RuntimeLoop RuntimeCore MemVerify IrInterp IrTyping IrSafe IrSound IrKeep Program ProgramSound.

Local Open Scope Z_scope.

Section Run.
Context {X : Type} (P : Platform X) (m : IrModule) (sema : Sema) (own : option (list (nat * Z))) (memOn : bool) (depth : nat).
Context (clock : Interp X -> Z) (uncancellable : Interp X -> option str).
Context `{HP : !PlatformOk m P} (Hm : module_ok m sema = true) (Htasks : lv_tasks_enabled P = true) (Q : Prop).

Abbreviation E := (interp_engine P m sema own memOn depth clock uncancellable).
Abbreviation Sys := (@Sys (Interp X) Thread).
Implicit Types (w : Interp X) (l : Thread) (t : @Task Thread) (s : @TaskSched.Sched Thread) (p q : ptr) (y z : Sys).

(** ** The invariant *)

Definition ready p s : Prop := exists t, tasks s !! p = Some t /\ keys_in [] t /\ tstate t <> POOLED.

Definition on_task_of y : option ptr := match phase y with OnTask p _ _ => Some p | _ => None end.
Definition on_values y : list Value := match phase y with OnTask _ l _ => thread_values l | _ => [] end.
Definition phase_ok y : Prop :=
  match phase y with
  | OnTask p l _ => thread_ok m l /\ (Q -> thread_calm (world y) l) /\ ready p (sch y)
  | Exited g => Q -> g = false
  | _ => Q -> is_throwing (world y) = false
  end.
Definition failed_at y : Prop := match phase y with OnTask _ l _ => thread_failed (world y) l | _ => False end.

Record sys_inv y : Prop := {
  si_state : I m (world y) [];
  si_stock : stocked m Q (world y) (sch y) (on_task_of y) (on_values y);
  si_phase : phase_ok y
}.

Lemma ready_evolves p s s' : evolves s s' -> ready p s -> ready p s'.
Proof.
  intros He (t & Ht & Hk & Hs). destruct (evolves_lookup_l _ _ _ _ He Ht) as (t' & Ht' & Hl). exists t'. split; [done|].
  split; [by eapply keys_in_like|]. destruct Hl as (_ & _ & _ & H). auto.
Qed.
Lemma keys_none t : keys_in [] t <-> parked_on (park t) = None /\ parked_on2 (park t) = None.
Proof.
  unfold keys_in. split.
  - intros H. destruct (parked_on (park t)) as [k|], (parked_on2 (park t)) as [k'|]; split; try done; exfalso;
      first [by apply (not_elem_of_nil k), H; left | by apply (not_elem_of_nil k'), H; right].
  - intros [-> ->] x [|]; done.
Qed.

Lemma ready_upd p f s t : tasks s !! p = Some t -> keys_in [] (f t) -> tstate (f t) <> POOLED -> ready p (upd p f s).
Proof. intros Ht Hk Hs. exists (f t). cbn. by rewrite lookup_alter_eq, Ht. Qed.

(** ** Switching to a task *)

Lemma inv_dispatch y z : sys_inv y -> phase y = Dispatch -> TaskSched.step E y = Some z -> sys_inv z.
Proof.
  intros [Hi Hst Hph] Ep. unfold TaskSched.step. unfold on_task_of, on_values, phase_ok in *. rewrite Ep in *.
  pose proof (evolves_runq_pop (sch y)) as He. destruct (runq_pop (sch y)) as [[p|] s1]; cbn [snd] in He.
  2:{ intros [= <-]. split; [done|by eapply stocked_evolves|done]. }
  assert (stocked m Q (world y) s1 None []) as H1 by by eapply stocked_evolves.
  unfold switch_in. destruct (tasks s1 !! p) as [t|] eqn:Et; [|done].
  pose proof (sk_slots _ _ _ _ _ _ H1 p t Et) as Hslot. apply (stocked_enter m Q _ s1 p t) in H1; [|done]. rewrite app_nil_r in H1.
  set (s2 := add NSwitches 1 _). assert (stocked m Q (world y) s2 (Some p) (slot_values t)) as H2.
  { eapply stocked_evolves; [|apply (stocked_self m Q (world y) s1 p (set_tstate RUNNING)); [done|exact H1]]. by apply evolves_same. }
  assert (tasks s2 !! p = Some (set_tstate RUNNING t)) as Et2 by (cbn; by rewrite lookup_alter_eq, Et).
  unfold slot_ok, slot_values in *. destruct (frame t) as [l| |l b|] eqn:Ef; try done.
  - destruct Hslot as (A1 & A2 & A3). intros [= <-]. split; [done|done|]. split; [done|]. split; [|by exists (set_tstate RUNNING t)].
    intros HQ%Hph. destruct l as [| | |[]| |]; try done; cbn; done.
  - destruct l as [| |c k pins f below d| | |]; try done. destruct Hslot as (A1 & A2 & A3). unfold park_resume. rewrite Et2.
    set (g := fun t0 : Task => _). intros [= <-].
    assert (keys_in [] (g (set_tstate RUNNING t)) /\ tstate (g (set_tstate RUNNING t)) <> POOLED) as [Hk Hs].
    { unfold g. destruct (_ =? _); (split; [by apply keys_none|done]). }
    split; [done| |].
    + apply (stocked_self m Q (world y) s2 p g); [|done]. intros t0. rewrite Et2. by intros [= <-].
    + split; [done|]. split; [|by eapply ready_upd]. intros HQ. split; auto.
Qed.

(** ** Parking and finishing *)

Lemma out_phase s w : stocked m Q w s None [] -> I m w [] -> (Q -> is_throwing w = false) -> sys_inv (switched_out E s w).
Proof.
  intros Hst Hi Hq. unfold switched_out, throwing_now. cbn [e_throwing interp_engine].
  assert (stocked m Q w (set_current None s) None []) as H1 by (eapply stocked_evolves; [|exact Hst]; by apply evolves_same).
  destruct (is_throwing w) eqn:Ht; (split; [done|done|]); intros HQ; specialize (Hq HQ); [congruence|done].
Qed.

Lemma inv_parking p c k pins f below d any2 w s z t : let l := TPark c k pins f below d in
  thread_ok m l -> (Q -> thread_calm w l) -> I m w [] -> stocked m Q w s (Some p) (thread_values l) ->
  tasks s !! p = Some t -> keys_in (cmd_keys c) t -> tstate t <> POOLED -> parking E p l any2 w s = Some z -> sys_inv z.
Proof.
  intros l Hl Hc Hi Hst Ht Hk Hs. unfold parking, park_common. destruct (throwing_now E w) eqn:Ethr; [done|]. rewrite Ht.
  destruct (cancelled t && (shield t =? 0)).
  - set (g := fun t0 : Task => _). intros [= <-]. split; [done| |].
    + eapply stocked_evolves; [|apply (stocked_self m Q w s p g); [intros t0; rewrite Ht; by intros [= <-]|exact Hst]]. by apply evolves_same.
    + split; [done|]. split; [done|]. eapply (ready_evolves _ (upd p g s)); [by apply evolves_same|]. eapply ready_upd; [exact Ht|by apply keys_none|done].
  - set (g := fun t0 : Task => _). intros [= <-]. apply out_phase; [|done|done].
    assert (stocked m Q w (upd p g s) None []) as H1.
    { apply stocked_leave; [|by exists t|intros t0 _; unfold slot_values; cbn [frame g set_frame]; by rewrite app_nil_r].
      intros t0. rewrite Ht. intros [= <-]. split; [|done]. split; [done|]. split; [|done]. by intros []%Hc. }
    eapply stocked_evolves; [|exact H1]. eapply evolves_trans; [apply (evolves_parked_append p)|].
    eapply evolves_trans; [|by apply evolves_same]. eapply evolves_trans; [|apply evolves_raise_peak]. by apply evolves_same.
Qed.

Lemma inv_finish p w s : (Q -> is_throwing w = false) -> I m w [] -> ready p s -> stocked m Q w s (Some p) [] -> sys_inv (finish E p s w).
Proof.
  intros Hq Hi Hr Hst. unfold finish. set (s1 := if decide _ then _ else _). set (s2 := match tasks s1 !! p with Some _ => _ | None => _ end).
  assert (evolves s s2) as He.
  { apply (evolves_trans _ s1); [unfold s1; case_decide; by apply evolves_same|]. unfold s2. destruct (tasks s1 !! p) as [t|]; [|by apply evolves_same].
    destruct (registered t); [apply evolves_reg_remove|by apply evolves_same]. }
  apply (ready_evolves p _ _ He) in Hr as (t & Ht & _ & _). apply (stocked_evolves m Q w s s2) in Hst; [|done].
  apply out_phase; [|done|done]. unfold pool_return. set (g := fun t0 : Task => set_frame FDead (set_tstate DONE t0)).
  set (s3 := add NSwitches 1 _). assert (stocked m Q w s3 (Some p) []) as H3.
  { eapply stocked_evolves; [|apply (stocked_self m Q w s2 p g); [done|exact Hst]]. by apply evolves_same. }
  assert (tasks s3 !! p = Some (g t)) as Ht3 by (cbn; by rewrite lookup_alter_eq, Ht).
  eapply stocked_evolves; [|apply (stocked_leave m Q w s3 p (fun t0 => set_next (pool s3) (set_tstate POOLED t0)))]; [by apply evolves_same| |by exists (g t)|].
  - intros t0. rewrite Ht3. by intros [= <-].
  - intros t0. rewrite Ht3. by intros [= <-].
Qed.

(** ** A part of a task *)

Lemma inv_task y z a : good E y a -> sys_inv y -> on_task y -> (Q -> ~ failed_at z) -> TaskSched.step E y = Some z -> sys_inv z.
Proof.
  intros Hg [Hi Hst Hph] Hon Hnf. unfold TaskSched.step, on_task, on_task_of, on_values, phase_ok in *.
  pose proof (gd_phase _ _ _ Hg) as Hcur. destruct (phase y) as [|p l r| |] eqn:Ep; try done. destruct Hph as (Hl & Hc & Hr).
  cbn [body interp_engine]. destruct (task_body P m sema own memOn depth l r (world y)) as [[c l'] w] eqn:Eb.
  destruct (body_spec P m sema own memOn depth clock uncancellable Hm Htasks Q l r (world y) (waiting (resting (Some p) (sch y))) c l' w) as [-> [B1 B2 B3 B4]];
    [done|done|apply (sk_others _ _ _ _ _ _ Hst)|done|done|].
  assert (forall vs, thread_values l' ++ spawned_values l' ≡ₚ vs -> stocked m Q w (sch y) (Some p) vs) as Hst'.
  { intros vs Hv. destruct Hst as [_ H2 H3]. split; [by rewrite B2, Hv|done|done]. }
  pose proof (gd_wf _ _ _ Hg) as Hwf. pose proof (gd_counted _ _ _ Hg) as Hct. unfold held in Hwf, Hct. rewrite Hcur in Hwf, Hct.
  assert (forall s' r', evolves (sch y) s' -> stocked m Q w s' (Some p) (thread_values l') -> Some (MkSys s' w (OnTask p l' r')) = Some z -> sys_inv z) as Hback.
  { intros s' r' He Hs' [= <-]. split; [done|done|]. split; [done|]. split; [|by eapply ready_evolves].
    intros HQ. destruct (B4 HQ) as [Hf|]; [|done]. by destruct (Hnf HQ). }
  assert (spawned_values l' = [] -> stocked m Q w (sch y) (Some p) (thread_values l')) as Hown by (intros E0; apply Hst'; by rewrite E0, app_nil_r).
  assert (forall s' r', evolves (sch y) s' -> spawned_values l' = [] -> Some (MkSys s' w (OnTask p l' r')) = Some z -> sys_inv z) as Hsame.
  { intros s' r' He E0. apply Hback; [done|]. eapply stocked_evolves; [exact He|by apply Hown]. }
  destruct l' as [f below d|v k f below d|tc k pins f below d|d| |e]; cbn [cmd_of exec]; try (apply Hsame; [by apply evolves_same|done]).
  2:{ intros [= <-]. apply inv_finish; [|done|done|by apply Hown]. intros HQ. by destruct (B4 HQ). }
  set (l' := TPark tc k pins f below d) in *. assert (Q -> thread_calm w l') as Hcl by (intros HQ; by destruct (B4 HQ)).
  destruct Hr as (t & Ht & Hk & Hs). pose proof Hk as [Hk1 Hk2]%keys_none.
  assert (forall g any2, spawned_values l' = [] -> keys_in (cmd_keys tc) (g t) -> tstate (g t) = tstate t ->
    parking E p l' any2 w (upd p g (sch y)) = Some z -> sys_inv z) as Hpark.
  { intros g any2 E0 Hkg Hsg. eapply (inv_parking p tc k pins f below d any2 w (upd p g (sch y)) z (g t)); try done.
    - apply stocked_self; [|by apply Hown]. intros t0. rewrite Ht. intros [= <-]. by rewrite Hsg.
    - cbn. by rewrite lookup_alter_eq, Ht.
    - by rewrite Hsg. }
  destruct tc as [cb|o|o1 o2|ids|id|n]; cbn [exec].
  - unfold lv_task_spawn_registered. destruct (lv_task_spawn E (TTop (DGroup cb)) w (sch y)) as [s'|] eqn:Es; [|done].
    assert (stocked m Q w s' (Some p) (thread_values l')) as H1.
    { eapply (stocked_spawn P m sema own memOn depth clock uncancellable Q w w (sch y) s' (Some p) a (TTop (DGroup cb))); [exact Hwf|exact Hct|done|done|exact Es|].
      apply Hst'. cbn [spawned_values thread_values l']. apply Permutation_app_comm. }
    assert (ready p s') as Hr'.
    { destruct (spawn_slot E _ w _ _ _ _ Hwf Hct (sk_pool _ _ _ _ _ _ Hst) Es) as (q & n & _ & Hq & He).
      eapply ready_evolves; [exact He|]. exists t. cbn. rewrite lookup_insert_ne; [done|]. intros ->. apply Hq. by left. }
    destruct (q_tail (runq s')) as [q|]; [|done]. intros [= <-]. split; [done|eapply stocked_evolves; [apply evolves_reg_add|done]|].
    split; [done|]. split; [done|]. eapply ready_evolves; [apply evolves_reg_add|done].
  - apply Hpark; [done| |done]. intros x. cbn. rewrite Hk2. intros [[= <-]|]; [by left|done].
  - apply Hpark; [done| |done]. intros x. cbn. intros [[= <-]|[= <-]]; [by left|right; by left].
  - unfold lv_task_park_join. destruct (_ || _); [apply Hsame; [by apply evolves_same|done]|]. apply Hpark; [done| |done].
    intros x. cbn. rewrite Hk1, Hk2. by intros [|].
  - pose proof (evolves_cancel E id w (sch y)) as He. destruct (lv_task_cancel E id w (sch y)) as [b s']. by apply Hsame.
  - destruct (lv_task_shield n (sch y)) as [s'|] eqn:Es; [|done]. apply Hsame; [by eapply evolves_shield|done].
Qed.

(** ** A turn of the loop *)

Lemma loop_step_spec w n ls w' : I m w [] -> task_loop_step P w = (n, ls, w') ->
  I m w' [] /\ others w' = (ls ≫= thread_values) ++ others w /\ Forall starting ls /\ is_throwing w' = is_throwing w.
Proof.
  intros Hi. unfold task_loop_step. destruct (termStashed (term w)) eqn:Et; cbn [orb]; [by intros [= <- <- <-]|].
  destruct (hasWork (loop_ (host w))); cbn [negb]; [|by intros [= <- <- <-]].
  pose proof (I_batch P m w [] Hi) as Hb. pose proof (loop_env_ok (m := m) (P := P) (host w)) as Henv.
  destruct (loop_env P (host w)) as [e h]. cbn [snd] in Henv. unfold rtTaskLoopStep. destruct (hasWork (loop_ h)); cbn [negb].
  - destruct (nextBatch e (loop_ h)) as [batch lp]. set (jobs := List.filter _ batch). rewrite app_nil_r in Hb. intros [= <- <- <-].
    set (vals := jobs ≫= _). assert ((map (fun j => TTop (job_drive j)) jobs) ≫= thread_values = vals) as Hv.
    { unfold vals. clear. induction jobs as [|j jobs IH]; [done|]. cbn. by rewrite IH. }
    split_and!; [|by rewrite Hv| |done].
    + apply I_settle_all. eapply (I_publish m _ vals (VVoid :: vals)); [clear; set_solver|].
      assert (forall v, v ∈ vals -> v ∈ map callback_of batch \/ exists k, v = VInt k) as Hin.
      { intros v (j & Hv' & Hj)%list_elem_of_bind. apply list_elem_of_In, filter_In in Hj as [Hj _].
        cbn in Hv'. apply elem_of_cons in Hv' as [->|Hv']; [left; by apply list_elem_of_In, in_map|].
        right. apply list_elem_of_singleton in Hv' as ->. eauto. }
      destruct Hb as [(G1 & G2 & G3) G4]. split; [|done]. split; [done|]. split; [done|]. rewrite !Forall_app in *.
      destruct G3 as (A1 & A2 & A3 & A4 & A5). split_and!; try done. constructor; [done|]. rewrite Forall_forall in A5 |- *.
      intros v [Hv'|[k ->]]%Hin; [by apply A5|done].
    + apply Forall_map, Forall_true. done.
  - intros [= <- <- <-]. split_and!; try done. apply I_settle_all. cbn. 
    apply (I_others m (set_host h w) _ []); [by destruct h|done|done|done|].
    apply (I_host m w []); [done|]. intros r Hr. apply Henv. exact Hr.
Qed.

Lemma stocked_spawn_all w w1 ls s s' a vs : wf s a [] -> counted s a [] -> Forall starting ls -> spawn_all E ls w1 s = Some s' ->
  stocked m Q w s None ((ls ≫= thread_values) ++ vs) -> stocked m Q w s' None vs.
Proof.
  revert s a. induction ls as [|l ls IH]; intros s a Hwf Hct Hs; cbn [spawn_all mbind list_bind]; [by intros [= <-]|].
  apply Forall_cons in Hs as [Hl Hs]. destruct (lv_task_spawn E l w1 s) as [s1|] eqn:Es; [|done]. intros Hall Hst.
  destruct (spawn_spec E _ _ _ _ _ _ Hwf Hct Es) as (q & a1 & Hp). apply (IH s1 a1); [apply Hp|apply Hp|done|done|].
  eapply (stocked_spawn P m sema own memOn depth clock uncancellable Q w w1 s s1 None a l); [exact Hwf|exact Hct|by destruct l|done|done|].
  by rewrite <- app_assoc in Hst.
Qed.

Lemma inv_quiet y z a : good E y a -> sys_inv y -> phase y = Quiet -> TaskSched.step E y = Some z -> sys_inv z.
Proof.
  intros Hg [Hi Hst Hph] Ep. unfold TaskSched.step, quiet, on_task_of, on_values, phase_ok in *. rewrite Ep in *.
  pose proof (gd_phase _ _ _ Hg) as Hcur. rewrite Ep in Hcur. destruct Hcur as [Hcur _].
  pose proof (gd_wf _ _ _ Hg) as Hwf. pose proof (gd_counted _ _ _ Hg) as Hct. unfold held in Hwf, Hct. rewrite Hcur in Hwf, Hct.
  pose proof (evolves_poll E (world y) (sch y)) as He.
  destruct (poll_parked E (world y) (sch y)) as [woke s1] eqn:Epoll. cbn [snd] in He.
  assert (stocked m Q (world y) s1 None []) as H1 by by eapply stocked_evolves. destruct woke; [intros [= <-]; by split|].
  destruct (poll_idle E _ _ _ _ Hwf Hct Epoll) as [Hwf1 Hct1]. cbn [e_loop_step interp_engine].
  destruct (task_loop_step P (world y)) as [[n ls] w] eqn:El. destruct (loop_step_spec _ _ _ _ Hi El) as (B1 & B2 & B3 & B4).
  destruct (spawn_all E ls w s1) as [s2|] eqn:Es; [|done]. intros [= <-].
  assert (stocked m Q w s2 None []) as H2.
  { apply (stocked_spawn_all w w ls s1 s2 a []); try done. destruct H1 as [G1 G2 G3]. split; [|done|done]. rewrite B2, G1. solve_Permutation. }
  rewrite <- B4 in Hph. destruct (n =? 0); [|by split]. unfold no_work. destruct (q_head (parked s2)); [|by split].
  split; [done|eapply stocked_evolves; [apply evolves_drain|done]|done].
Qed.

(** ** Runs *)

Lemma inv_step y z a : good E y a -> sys_inv y -> (Q -> ~ failed_at z) -> TaskSched.step E y = Some z -> sys_inv z.
Proof.
  intros Hg Hi Hnf Hs. destruct (phase y) as [|p l r| |g] eqn:Ep.
  - by eapply inv_dispatch.
  - eapply inv_task; try done. unfold on_task. by rewrite Ep.
  - by eapply inv_quiet.
  - unfold TaskSched.step in Hs. rewrite Ep in Hs. by injection Hs as <-.
Qed.

Abbreviation runs := (runs P m sema own memOn depth clock uncancellable).

Lemma runs_reachable h y : runs h y -> TaskProps.reachable E y.
Proof. intros (n & y0 & H0 & Hn). by exists (TTop DGinit), (run_init m h), n, y0. Qed.

Lemma inv_start h y0 : host_ok m h [] -> program_start P m sema own memOn depth clock uncancellable h = Some y0 -> sys_inv y0.
Proof.
  intros Hh. unfold program_start, lv_sched_run. cbn [current empty_sched].
  destruct (lv_task_spawn E (TTop DGinit) (run_init m h) empty_sched) as [s|] eqn:Es; [|done]. intros [= <-].
  destruct (@empty_wf Thread) as [Hwf Hct]. split; [by apply (start_ok m h)| |done].
  eapply (stocked_evolves _ _ _ s); [by apply evolves_same|].
  eapply (stocked_spawn P m sema own memOn depth clock uncancellable Q _ _ _ s None _ (TTop DGinit) []); [exact Hwf|exact Hct|done|done|exact Es|].
  split; [done|..]; intros p t; cbn; by rewrite lookup_empty.
Qed.

Lemma runs_inv h y : host_ok m h [] -> (Q -> forall z, runs h z -> ~ failed_at z) -> runs h y -> sys_inv y.
Proof.
  intros Hh Hnf (n & y0 & H0 & Hn). pose proof (inv_start h y0 Hh H0) as Hi.
  assert (runs h y0) as Hr by by exists 0%nat, y0. clear H0. revert y0 Hi Hr Hn. induction n as [|n IH]; intros y0 Hi Hr; cbn [TaskSched.steps]; [by intros [= <-]|].
  destruct (TaskSched.step E y0) as [y1|] eqn:Es; [|done]. assert (runs h y1) as Hr1.
  { destruct Hr as (k & x & Hx & Hk). exists (k + 1)%nat, x. split; [done|]. rewrite (steps_app E _ _ _ _ Hk). cbn [TaskSched.steps]. by rewrite Es. }
  destruct (reachable_good E y0 (runs_reachable h y0 Hr)) as [a Ha]. intros Hn. apply (IH y1); [|done|done].
  eapply inv_step; [exact Ha|done| |done]. intros HQ. by apply (Hnf HQ).
Qed.
End Run.
