(* ===== verification/ProgramProps.v ===== *)
(** * What a running program guarantees

    The interpreter and the scheduler together: whatever tasks a program
    starts and however they are interleaved, no task reads outside a vector or
    through a dangling pointer, the scheduler never follows a park key to a
    freed promise, every reference is accounted for, and the interpreter does
    not trip the assertions of the scheduler. *)

From S2P Require Import TaskSched.
From S2P Require Import TaskLists TaskInv TaskWake TaskRun TaskSlots TaskProps.
From S2P Require Import Prelude Token Value RefHeap Ir RuntimeLoop RuntimeCore MemVerify IrInterp IrTyping IrSafe IrSound IrProps IrKeep Program ProgramSound ProgramRun.

Local Open Scope Z_scope.

Lemma waiting_in M p t v : M !! p = Some t -> v ∈ slot_values t -> v ∈ waiting M.
Proof. intros Hp Hv. rewrite (waiting_delete M p t Hp). apply elem_of_app. by left. Qed.

Section Props.
Context {X : Type} (P : Platform X) (m : IrModule) (sema : Sema) (own : option (list (nat * Z))) (memOn : bool) (depth : nat).
Context (clock : Interp X -> Z) (uncancellable : Interp X -> option str).
Abbreviation E := (interp_engine P m sema own memOn depth clock uncancellable).
Abbreviation runs := (runs P m sema own memOn depth clock uncancellable).

(** A parked task is not the running one, and its stack is a parked thread. *)
Lemma parked_slot y a Q p t : good E y a -> sys_inv m Q y -> tasks (sch y) !! p = Some t -> tstate t = PARKED ->
  resting (on_task_of y) (sch y) !! p = Some t /\ exists l b, frame t = FPark l b.
Proof.
  intros Hg Hi Ht Hs. destruct (everyone_cases E y a p t Hg Ht) as [[_ ?]|[[Hin _]|[[_ ?]|[_ ?]]]]; try congruence.
  destruct (tg_parked _ _ (wf_tagged _ _ _ (gd_wf _ _ _ Hg)) p Hin) as (t' & Ht' & _ & l & b & Hf).
  rewrite info_lookup, Ht in Ht'. injection Ht' as <-. split; [|by exists l, b].
  unfold on_task_of. destruct (phase y) as [|q k r| |] eqn:Ep; try done. cbn. rewrite lookup_delete_ne; [done|]. intros ->.
  pose proof (gd_phase _ _ _ Hg) as Hc. rewrite Ep in Hc. destruct (gd_running _ _ _ Hg p) as (t' & Ht' & Hr); [unfold held; rewrite Hc; by left|].
  rewrite info_lookup, Ht in Ht'. injection Ht' as <-. unfold running in Hr. cbn in Hr. congruence.
Qed.

Lemma parked_key y a Q p t k : good E y a -> sys_inv m Q y -> tasks (sch y) !! p = Some t -> tstate t = PARKED ->
  parked_on (park t) = Some k \/ parked_on2 (park t) = Some k -> is_Some (h_obj (w_heap (world y)) (loc_of k)).
Proof.
  intros Hg Hi Ht Hs Hk. destruct (parked_slot y a Q p t Hg Hi Ht Hs) as [Hr (l & b & Hf)]. destruct Hi as [Hst Hsk _].
  pose proof (sk_slots _ _ _ _ _ _ Hsk p t Hr) as Hok. unfold slot_ok in Hok. rewrite Hf in Hok.
  destruct l as [| |c kt pins f below d| | |]; try done. destruct Hok as ((_ & _ & Hc) & _ & Hin). specialize (Hin k Hk).
  assert (exists o, k = key_of o /\ VObject (Some o) ∈ cmd_values c) as (o & -> & Ho).
  { destruct c; cbn in Hin |- *; try (by apply elem_of_nil in Hin).
    - apply list_elem_of_singleton in Hin as ->. eexists. split; [done|by left].
    - apply elem_of_cons in Hin as [->|Hin]; [eexists; split; [done|by left]|]. apply list_elem_of_singleton in Hin as ->. eexists. split; [done|right; by left]. }
  unfold loc_of, key_of. rewrite Nat2Z.id. change (v_ok (w_heap (world y)) (VObject (Some o))).
  apply (I_interp m (world y) []); [done|]. unfold interp_values. rewrite !elem_of_app. do 2 right. left.
  rewrite (sk_others _ _ _ _ _ _ Hsk). apply elem_of_app. right. eapply waiting_in; [exact Hr|]. unfold slot_values. rewrite Hf. cbn.
  apply Hc in Ho. rewrite !elem_of_app in *. tauto.
Qed.

(** A running program never goes wrong.  In every state of a run of a
    well-formed module under the task scheduler, however many tasks it has
    started: a task's execution ends abnormally only by signed overflow of its
    own arithmetic, by too deep a recursion or by asking for more memory than the
    address space has; the object a parked task awaits
    is allocated, so polling it never follows a dangling pointer; everything
    reachable from the shared state and from any task is allocated; and the
    values the tasks hold are exactly those the state accounts for. *)
Theorem program_never_goes_wrong (h : Host X) (y : @Sys (Interp X) Thread) : PlatformOk m P -> module_ok m sema = true ->
  lv_tasks_enabled P = true -> host_ok m h [] -> runs h y ->
  (forall p e r, phase y = OnTask p (TFault e) r -> e = FOverflow \/ e = FDepth \/ e = FMemory) /\
  (forall p t k, tasks (sch y) !! p = Some t -> tstate t = PARKED -> parked_on (park t) = Some k \/ parked_on2 (park t) = Some k ->
     is_Some (h_obj (w_heap (world y)) (loc_of k))) /\
  (forall q, RefHeap.reachable (vrefs (interp_values (world y))) (w_heap (world y)) q -> is_Some (w_heap (world y) !! q)) /\
  others (world y) ≡ₚ on_values y ++ waiting (resting (on_task_of y) (sch y)).
Proof.
  intros HP Hm Ht Hh Hr. pose proof (runs_inv P m sema own memOn depth clock uncancellable Hm Ht False h y Hh) as Hi.
  specialize (Hi ltac:(done) Hr). destruct (reachable_good _ y (runs_reachable _ _ _ _ _ _ _ _ h y Hr)) as [a Ha]. split_and!.
  - intros p e r Ep. pose proof (si_phase _ _ _ Hi) as Hp. unfold phase_ok in Hp. rewrite Ep in Hp. apply Hp.
  - intros p t k. by apply (parked_key y a False).
  - intros q. destruct (si_state _ _ _ Hi) as [(Hheap & _) _]. apply (reachable_ok m); [done|]. intros v Hv. by apply (I_interp m (world y) []); [apply Hi|].
  - apply (sk_others _ _ _ _ _ _ (si_stock _ _ _ Hi)).
Qed.

(** The program's own misuse of the shield counter: it lowers it below zero. *)
Definition unbalanced_shield (y : @Sys (Interp X) Thread) : Prop :=
  exists p l r n l' w t, phase y = OnTask p l r /\ task_body P m sema own memOn depth l r (world y) = (CShield n, l', w) /\
    tasks (sch y) !! p = Some t /\ n <= 0 /\ shield t < wrap_u 16 (- n).

(** [C8] The interpreter keeps its side of the scheduler's assertions.  If the
    initialiser of the globals does not throw, then in no state of a run does
    an exception cross a task boundary (the scheduler's throw gate never ends
    the loop) and the only assertion that can fail is the shield counter's, in
    a program that lowers it more often than it raised it. *)
Theorem program_keeps_assertions (h : Host X) (y : @Sys (Interp X) Thread) : PlatformOk m P -> module_ok m sema = true ->
  lv_tasks_enabled P = true -> host_ok m h [] -> (forall z, runs h z -> ~ failed_at z) -> runs h y ->
  phase y <> Exited true /\ (TaskSched.step E y = None -> unbalanced_shield y).
Proof.
  intros HP Hm Ht Hh Hnf Hr. pose proof (runs_inv P m sema own memOn depth clock uncancellable Hm Ht True h y Hh (fun _ => Hnf) Hr) as Hi.
  split.
  { intros Ep. pose proof (si_phase _ _ _ Hi) as Hp. unfold phase_ok in Hp. rewrite Ep in Hp. by specialize (Hp Logic.I). }
  intros Hs. apply step_none in Hs; [|by apply (runs_reachable _ _ _ _ _ _ _ _ h)].
  destruct Hi as [Hst Hsk Hp]. unfold misuse, phase_ok, on_task_of, on_values in *. destruct (phase y) as [|p l r| |] eqn:Ep; [done| | |done].
  - destruct Hp as (Hl & Hc & _). cbn [body interp_engine] in Hs. destruct (task_body P m sema own memOn depth l r (world y)) as [[c l'] w] eqn:Eb.
    destruct (body_spec P m sema own memOn depth clock uncancellable Hm Ht True l r (world y) (waiting (resting (Some p) (sch y))) c l' w) as [-> [_ _ _ B]];
      [done|done|apply (sk_others _ _ _ _ _ _ Hsk)|done|done|].
    unfold throwing_now in Hs. cbn [e_throwing interp_engine] in Hs. specialize (B Logic.I).
    destruct l' as [f below d|v k f below d|tc k pins f below d|d| |e]; cbn [cmd_of] in Hs; try done.
    destruct B as [[]|[_ B]]. destruct tc as [cb|o|o1 o2|ids|id|n]; cbn [cmd_of] in *; try congruence; [done|].
    destruct Hs as [Hn (t & Ht' & Hsh)]. by exists p, l, r, n, (TPark (TcShield n) k pins f below d), w, t.
  - destruct Hs as (f & n & ls & w & [= <-] & Ef & _ & Hthr). destruct (loop_step_spec P m _ _ _ _ Hst Ef) as (_ & _ & _ & B4).
    unfold throwing_now in Hthr. cbn [e_throwing interp_engine] in Hthr. specialize (Hp Logic.I). congruence.
Qed.
End Props.

(** ** A small program

    The entry starts a task and awaits a promise nobody settles; the task
    prints, the loop drains, and the entry catches the exception of the await. *)

Definition task_platform : Platform unit :=
  MkPlatform unit (nativeCall small_platform) (nativeFreeCall small_platform) (malloc small_platform) (loop_env small_platform) kNaN true.

#[export] Instance task_platform_ok m : PlatformOk m task_platform.
Proof. destruct (small_platform_ok m) as [H1 H2 H3]. by split. Qed.

Definition await_main : IrFunction :=
  MkIrFunction (lit "main") 0 4
    [ins MakeClosure 0 1 0 0 TkEnd []; ins CallNativeFn 1 0 0 1 TkEnd (lit "sysTaskRun"); new_object 2 (-1); ins Await 3 2 0 0 TkEnd [];
     ins RetVoid 0 0 0 0 TkEnd []; ins Print_ 3 0 0 0 TkEnd []; ins RetVoid 0 0 0 0 TkEnd []]
    [] [MkHandler 3 4 5 3 (Some kRuntimeException)].
Definition child_fn : IrFunction := MkIrFunction (lit "child") 1 2 [ins LoadConst 1 0 0 0 TkEnd []; ins Print_ 1 0 0 0 TkEnd []] [VInt 5] [].
Definition await_module : IrModule := MkIrModule [await_main; child_fn] [] 0 (-1) 0.

Definition small_engine (m : IrModule) : Engine (Interp unit) Thread :=
  interp_engine task_platform m small_sema None true 10 (fun _ => 0) (fun _ => None).
Definition small_runs (m : IrModule) : @Sys (Interp unit) Thread -> Prop :=
  runs task_platform m small_sema None true 10 (fun _ => 0) (fun _ => None) empty_host.
Definition small_start (m : IrModule) : option (@Sys (Interp unit) Thread) :=
  program_start task_platform m small_sema None true 10 (fun _ => 0) (fun _ => None) empty_host.
Definition dead_sys (m : IrModule) : @Sys (Interp unit) Thread := MkSys empty_sched (run_init m empty_host) (Exited true).
Definition small_after (m : IrModule) (n : nat) : @Sys (Interp unit) Thread :=
  match small_start m with
  | Some y0 => match TaskSched.steps (small_engine m) n y0 with Some y => y | None => dead_sys m end
  | None => dead_sys m
  end.

Lemma small_after_runs m n : match small_start m with
    | Some y0 => match TaskSched.steps (small_engine m) n y0 with Some _ => true | None => false end
    | None => false
    end = true -> small_runs m (small_after m n).
Proof.
  unfold small_after, small_runs, runs. change (program_start _ _ _ _ _ _ _ _ _) with (small_start m).
  destruct (small_start m) as [y0|]; [|done]. destruct (TaskSched.steps (small_engine m) n y0) as [y|] eqn:E; [|done]. intros _. by exists n, y0.
Qed.

(** The task awaited on at step 12, while the other one runs. *)
Lemma program_never_goes_wrong_witness :
  (exists t, tasks (sch (small_after await_module 12)) !! 0%nat = Some t /\ tstate t = PARKED /\ parked_on (park t) = Some 2) /\
  is_Some (h_obj (w_heap (world (small_after await_module 12))) (loc_of 2)) /\
  out_ (host (world (small_after await_module 23))) = lit "5<object>".
Proof.
  set (y := small_after await_module 12).
  assert (exists t, tasks (sch y) !! 0%nat = Some t /\ tstate t = PARKED /\ parked_on (park t) = Some 2) as (t & H1 & H2 & H3).
  { eexists. split; [vm_compute; reflexivity|]. split; reflexivity. }
  split; [exact (ex_intro _ t (conj H1 (conj H2 H3)))|]. split; [|vm_compute; reflexivity].
  apply (program_never_goes_wrong task_platform await_module small_sema None true 10 (fun _ => 0) (fun _ => None) empty_host y) with (p := 0%nat) (t := t).
  - apply _.
  - vm_compute. reflexivity.
  - reflexivity.
  - apply empty_host_ok.
  - apply small_after_runs. vm_compute. reflexivity.
  - exact H1.
  - exact H2.
  - left. exact H3.
Defined.

(** A run that ends has finitely many states. *)
Lemma steps_exited {W L} (E : Engine W L) n (y z : @Sys W L) g : phase y = Exited g -> TaskSched.steps E n y = Some z -> z = y.
Proof.
  intros Hp. induction n as [|n IH]; cbn [TaskSched.steps]; [by intros [= <-]|]. unfold TaskSched.step at 1. rewrite Hp. apply IH.
Qed.
Lemma steps_until {W L} (E : Engine W L) N (y yN : @Sys W L) g n z : TaskSched.steps E N y = Some yN -> phase yN = Exited g ->
  TaskSched.steps E n y = Some z -> exists k, (k <= N)%nat /\ TaskSched.steps E k y = Some z.
Proof.
  intros HN Hg Hn. destruct (Nat.le_gt_cases n N) as [|Hlt]; [by exists n|]. exists N. split; [done|].
  replace n with (N + (n - N))%nat in Hn by lia. rewrite (steps_app E _ _ _ _ HN) in Hn. apply (steps_exited E _ _ _ g Hg) in Hn as ->. done.
Qed.

Definition entry_fails (y : @Sys (Interp unit) Thread) : bool := match phase y with OnTask _ (TTop DEntry) _ => is_throwing (world y) | _ => false end.
Lemma entry_fails_spec y : failed_at y -> entry_fails y = true.
Proof. unfold failed_at, entry_fails. by destruct (phase y) as [|p [| | |[]| |] r| |]. Qed.

Lemma small_never_fails m N : (match small_start m with
    | Some y0 => match TaskSched.steps (small_engine m) N y0 with
                 | Some y => match phase y with Exited _ => true | _ => false end
                 | None => false
                 end && forallb (fun k => match TaskSched.steps (small_engine m) k y0 with Some z => negb (entry_fails z) | None => true end) (seq 0 (S N))
    | None => false
    end) = true -> forall z, small_runs m z -> ~ failed_at z.
Proof.
  intros H z (n & y0 & H0 & Hn) Hf. change (program_start _ _ _ _ _ _ _ _ _) with (small_start m) in H0. rewrite H0 in H.
  change (interp_engine _ _ _ _ _ _ _ _) with (small_engine m) in Hn. apply andb_prop in H as [H1 H2].
  destruct (TaskSched.steps (small_engine m) N y0) as [yN|] eqn:EN; [|done]. destruct (phase yN) as [| | |g'] eqn:Ep; try done.
  destruct (steps_until _ N y0 yN g' n z EN Ep Hn) as (k & Hk & Hz). rewrite forallb_forall in H2.
  specialize (H2 k). rewrite in_seq, Hz in H2. apply entry_fails_spec in Hf. rewrite Hf in H2. assert (false = true) by (apply H2; lia). done.
Qed.

Lemma program_keeps_assertions_witness :
  (forall n, In n (seq 0 24) -> phase (small_after await_module n) <> Exited true) /\ phase (small_after await_module 23) = Exited false.
Proof.
  split; [|vm_compute; reflexivity]. intros n Hn.
  apply (program_keeps_assertions task_platform await_module small_sema None true 10 (fun _ => 0) (fun _ => None) empty_host (small_after await_module n)).
  - apply _.
  - vm_compute. reflexivity.
  - reflexivity.
  - apply empty_host_ok.
  - apply (small_never_fails await_module 23). vm_compute. reflexivity.
  - apply small_after_runs. revert n Hn. apply forallb_forall. vm_compute. reflexivity.
Defined.
