(* ===== verification/NativesProps.v ===== *)
(** * What the natives guarantee

    The properties of the native functions, each with a concrete instance on a
    small system: programs that run on these natives never go wrong, values that
    cross a thread boundary are isolated, no native leaks a descriptor, signal
    subscriptions leave nothing behind, blocks and maps behave as sequences and
    finite maps, and texts read back. *)

From S2P Require Import TaskSched.
From S2P Require Import TaskLists TaskInv TaskWake TaskRun TaskSlots TaskProps.
From S2P Require Import Prelude Token Ast Utf8 Value ValueFacts RefHeap Ir RuntimeLoop RuntimeCore MemVerify IrInterp Natives ThreadCopy NativesSys IrTyping IrSafe NativesSafe ThreadCopyFacts NativesSysSafe NativesFds NativesData IrSound IrProps IrKeep Program ProgramSound ProgramRun ProgramProps.

Local Open Scope Z_scope.

(** ** A small system

    Files can be opened and sockets made, connecting is refused, every read is
    at the end of the file, signals can be blocked. *)

Record Toy := MkToy { t_fds : gset Z; t_blocked : gset Z }.
(** The lowest number not in use. *)
Definition free_fd (s : gset Z) : Z :=
  match find (fun z => bool_decide (z ∉ s)) (map Z.of_nat (seq 3 (S (size s)))) with Some z => z | None => fresh s end.
Definition toy_open (w : Toy) : Z * Toy := let fd := free_fd (t_fds w) in if fd <? 0 then (-1, w) else (fd, MkToy ({[fd]} ∪ t_fds w) (t_blocked w)).
Definition toy (A : Set) (c : Sys A) (w : Toy) : A * Toy :=
  match c in Sys A return A * Toy with
  | Write _ d => (size_of d, w)
  | Read _ _ | Recv _ _ | GetRandom _ => ((0, []), w)
  | Getline => (None, w)
  | Open _ _ | Socket _ | Accept _ | SignalFd _ | PidfdOpen _ | OpenPt | OpenPts _ => toy_open w
  | Close fd => (0, MkToy (t_fds w ∖ {[fd]}) (t_blocked w))
  | Realtime | Monotonic => ((0, 0), w)
  | MaskSigs block ss => (0, MkToy (t_fds w) (if block then t_blocked w ∪ ss else t_blocked w ∖ ss))
  | Connect _ _ => (-111, w)
  | InetPton _ host => (Some host, w)
  | GetAddrInfo _ _ => (None, w)
  | InetNtop ip => (ip, w)
  | Stat _ => (None, w)
  | Tcgetattr _ => (None, w)
  | WinSize _ => (None, w)
  | ReadSignal _ => (None, w)
  | SoError _ => (None, w)
  | GetEnv _ => (None, w)
  | ListDir _ => (None, w)
  | PtsName _ => (None, w)
  | Pipe2 => (None, w)
  | WaitId _ => (None, w)
  | IsATty _ => (false, w)
  | AtExit | SafetyHandlers _ | IgnoreSig _ | NonBlock _ => (tt, w)
  | SteadyNow | CpuCount => (1, w)
  | _ => (-1, w)
  end.

#[export] Instance toy_ok : OsOk toy.
Proof. split; intros fd max w H; exact H. Qed.
Lemma free_fd_new s : free_fd s ∉ s.
Proof.
  unfold free_fd. destruct (find _ _) as [z|] eqn:E; [|apply is_fresh]. apply find_some in E as [_ E]. by apply bool_decide_eq_true in E.
Qed.
Lemma toy_opens w : opens (fst (toy_open w)) (t_fds w) (t_fds (snd (toy_open w))).
Proof.
  unfold toy_open, opens. destruct (free_fd (t_fds w) <? 0) eqn:E; cbn; [done|]. rewrite E. split; [apply free_fd_new|done].
Qed.
#[export] Instance toy_fds : FdLaws toy t_fds.
Proof. intros A c w. destruct c; cbn; try done; apply toy_opens. Qed.
#[export] Instance toy_masks : MaskLaws toy t_blocked.
Proof. split; intros; cbn; try done. unfold toy_open. by destruct (_ <? 0). Qed.

Definition toy_termios : Termios := MkTermios 0 0 0 0 ∅.
Definition toy_ext : Ext Toy := MkExt [] toy_termios 0 false [] false false (MkToy {[0; 1; 2]} ∅).
Definition host_on (h : Heap) (n : nat) : Host (Ext Toy) := MkHost h n ∅ (MkLoop [] [] 1) [] false [] false 0 toy_ext.
Definition toy_libm : Libm := MkLibm (fun x _ => x) id id id id id id (fun x _ => x).
Definition no_lambda (n : nat) : Expr := mkExpr (Span 0 0) (EName []).

Lemma host_on_ok m hp n vals : heap_ok m hp -> (forall p, is_Some (hp !! p) -> (p < n)%nat) -> Forall (v_ok hp) vals -> host_ok m (host_on hp n) vals.
Proof. intros H1 H2 H3. by split. Qed.

(** ** Programs on the natives *)


(** A program that opens a file, prints the descriptor, starts a task and awaits
    a promise nobody settles. *)
Definition open_main : IrFunction :=
  MkIrFunction (lit "main") 0 5
    [ins LoadConst 0 0 0 0 TkEnd []; ins LoadConst 1 1 0 0 TkEnd []; ins CallNativeFn 2 0 0 2 TkEnd (lit "sysOpen"); ins Print_ 2 0 0 0 TkEnd [];
     ins MakeClosure 0 1 0 0 TkEnd []; ins CallNativeFn 1 0 0 1 TkEnd (lit "sysTaskRun"); new_object 2 (-1); ins Await 3 2 0 0 TkEnd [];
     ins RetVoid 0 0 0 0 TkEnd []; ins Print_ 3 0 0 0 TkEnd []; ins RetVoid 0 0 0 0 TkEnd []]
    [VString (lit "notes.txt"); VInt 1] [MkHandler 7 8 9 3 (Some kRuntimeException)].
Definition open_module : IrModule := MkIrModule [open_main; child_fn] [] 0 (-1) 0.

Definition toy_poll (w : Toy) : LoopEnv * Toy := (MkEnv 0 0 (fun _ _ => (0, [])) (fun _ => 0) (fun _ => false), w).
Definition toy_platform : Platform (Ext Toy) := native_platform toy lowest small_sema 10 10 no_lambda toy_libm toy_poll kNaN true.
Definition toy_start : option (@TaskSched.Sys (Interp (Ext Toy)) Thread) :=
  program_start toy_platform open_module small_sema None true 10 (fun _ => 0) (fun _ => None) (host_on ∅ 1).
Definition toy_after (n : nat) : option (@TaskSched.Sys (Interp (Ext Toy)) Thread) :=
  match toy_start with
  | Some y0 => TaskSched.steps (interp_engine toy_platform open_module small_sema None true 10 (fun _ => 0) (fun _ => None)) n y0
  | None => None
  end.
Lemma toy_after_runs n y : toy_after n = Some y ->
  runs toy_platform open_module small_sema None true 10 (fun _ => 0) (fun _ => None) (host_on ∅ 1) y.
Proof. unfold toy_after, runs. destruct toy_start as [y0|] eqn:E; [|done]. intros H. by exists n, y0. Qed.

Definition toy_state (n : nat) : @TaskSched.Sys (Interp (Ext Toy)) Thread :=
  match toy_after n with Some y => y | None => MkSys empty_sched (run_init open_module (host_on ∅ 1)) (Exited true) end.


(** ** Threads *)

(** [C12] What crosses a thread boundary is isolated.  [sysThreadTransfer] always
    answers, cycles and shared structure included.  It reports an error exactly
    when a value that may not cross is in the way.  Otherwise the result is a
    graph isomorphic to the original: [σ] maps each cell walked to its own copy,
    and each copy holds what its original holds, copied, except that an object's
    copy has no weak reference at all (its weak slots read as None) and that a
    closure's copy keeps, of its scopes, the names its body mentions.  Everything
    that can be reached from the result is a new cell or is reached through a
    channel portal; the cells that existed are as they were.  The heap is well
    formed, and the class of each object in it is classified within the depth
    bound. *)
Theorem thread_transfer_isolates {X : Type} (m : IrModule) (mal : gset Z -> nat -> Z) (sema : Sema) (depth : nat) (lambdas : nat -> Expr)
  (args vals : list Value) (h : Host X) : host_ok m h (first args :: vals) ->
  (forall p o, heap h !! p = Some (CObj o) -> exists vd, verdict sema depth o = Go vd) ->
  exists out err h', sysThreadTransfer mal sema depth lambdas args h = Go (Some (out, err, h')) /\ heap h ⊆ heap h' /\
    (err <> [] <-> blocked sema depth lambdas (heap h) true (first args)) /\
    (err = [] -> exists σ : gmap loc Value,
       crosses sema depth (heap h) true σ (first args) out /\
       (forall p r, σ !! p = Some r -> complete sema depth lambdas (heap h) σ (heap h') p r) /\
       (forall p p' r, σ !! p = Some r -> σ !! p' = Some r -> p = p') /\
       (forall p, reachable (refs out) (heap h') p -> heap h !! p = None \/
          exists p0 o, heap h !! p0 = Some (CObj o) /\ verdict sema depth o = Go Share /\ reachable [p0] (heap h') p)).
Proof.
  intros H Hv. pose proof (transfer_runs m mal sema depth lambdas args h vals H) as Hr.
  destruct (sysThreadTransfer _ _ _ _ _ _) as [o|e]; [|destruct Hr as (_ & p & o & Hp & E); destruct (Hv p o Hp); congruence].
  destruct Hr as (out & err & h' & -> & _ & Hh & Hr). exists out, err, h'. split; [done|]. split; [done|]. destruct err as [|c err]; cbn [nonempty] in Hr.
  - destruct Hr as (σ & Hx & Hc & Hn & Hi). split; [split; [done|intros Hb; by destruct (crosses_free sema depth lambdas h σ (heap h') Hc _ _ _ Hx)]|].
    intros _. exists σ. split_and!; try done. intros p Hp.
    destruct (reachable_copies sema depth lambdas h σ (heap h') Hc _ _ _ _ Hx Hp) as [(p0 & d & H0 & Hd)|Hs]; [left; by eapply Hn|by right].
  - destruct Hr as [_ Hb]. split; [done|]. done.
Qed.

(** An array that contains itself, and another one twice. *)
Definition cyclic_heap : Heap := {[ 1%nat := CArr [VArray (Some 1%nat); VArray (Some 2%nat); VArray (Some 2%nat)]; 2%nat := CArr [VInt 7] ]}.
Lemma cyclic_heap_ok m : host_ok m (host_on cyclic_heap 3) [VArray (Some 1%nat)].
Proof.
  apply host_on_ok.
  - intros p c Hp. unfold cyclic_heap in Hp. apply lookup_insert_Some in Hp as [[<- <-]|[_ Hp]]; [|apply lookup_singleton_Some in Hp as [<- <-]].
    + split; [|done]. repeat (apply Forall_cons; split; [vm_compute; by eexists|]). apply Forall_nil_2.
    + split; [|done]. repeat constructor.
  - intros p [c Hp]. unfold cyclic_heap in Hp. apply lookup_insert_Some in Hp as [[<- _]|[_ Hp]]; [lia|]. apply lookup_singleton_Some in Hp as [<- _]. lia.
  - repeat constructor. vm_compute. by eexists.
Qed.
Lemma thread_transfer_isolates_witness :
  exists out h', sysThreadTransfer lowest small_sema 10 no_lambda [VArray (Some 1%nat)] (host_on cyclic_heap 3) = Go (Some (out, [], h')) /\
    out = VArray (Some 3%nat) /\ heap h' !! 3%nat = Some (CArr [VArray (Some 3%nat); VArray (Some 4%nat); VArray (Some 4%nat)]) /\
    ~ blocked small_sema 10 no_lambda cyclic_heap true (VArray (Some 1%nat)).
Proof.
  destruct (thread_transfer_isolates (MkIrModule [] [] 0 (-1) 0) lowest small_sema 10 no_lambda [VArray (Some 1%nat)] [] (host_on cyclic_heap 3))
    as (out & err & h' & E & _ & Hb & _).
  - apply cyclic_heap_ok.
  - intros p o Hp. exfalso. unfold host_on, cyclic_heap in Hp. cbn [heap] in Hp.
    apply lookup_insert_Some in Hp as [[_ Hp]|[_ Hp]]; [done|]. apply lookup_singleton_Some in Hp as [_ Hp]. done.
  - vm_compute in E. injection E as <- <- <-. eexists _, _. split; [vm_compute; reflexivity|]. split; [reflexivity|]. split; [vm_compute; reflexivity|].
    intros Hx. by apply Hb in Hx.
Defined.

(** ** Descriptors *)

Section Descriptors.
Context {W : Type} (handle : forall A : Set, NativesSys.Sys A -> W -> A * W) (fds : W -> gset Z).
Context (mal : gset Z -> nat -> Z) (sema : Sema) (depth fuel : nat) (lambdas : nat -> Expr) (libm : Libm).
Implicit Types (h : Host (Ext W)).

(** The two natives that close a descriptor, and the one they are given. *)
Definition closes (name : str) : bool := eqs name (lit "sysClose") || eqs name (lit "sysSignalClose").
Definition closed_fd (args : list Value) : Z := int_of (arg_or args 0 (-1)).

Lemma sysClose_fds args h : FdLaws handle fds ->
  gives (fun _ h' => fds_of fds h' = fds_of fds h ∖ {[closed_fd args]}) (native_free_call handle mal sema depth fuel lambdas libm (lit "sysClose") args h).
Proof.
  intros HF. pose proof (close_fds handle fds (closed_fd args) h) as E. unfold run in E.
  unfold native_free_call, free_groups, thread_native, math_native, convert_native, io_native. cbn [fold_right]. eval_names.
  unfold closed_fd in *. by destruct (sys handle _ h).
Qed.
Lemma sysSignalClose_fds args h : FdLaws handle fds ->
  gives (fun _ h' => fds_of fds h' = fds_of fds h ∖ {[closed_fd args]}) (native_free_call handle mal sema depth fuel lambdas libm (lit "sysSignalClose") args h).
Proof.
  intros HF. change (native_free_call handle mal sema depth fuel lambdas libm (lit "sysSignalClose") args h) with
    (ret (VInt 0) (interpSignalClose handle (closed_fd args) h)).
  cbn [gives ret]. unfold interpSignalClose. rewrite (close_fds handle fds). f_equal. destruct (take_sigfd _ _) as [[mask l]|]; [|done].
  exact (sys_fds handle fds (MaskSigs false mask) h).
Qed.

(** [C13] No native leaks a descriptor.  Against any system whose calls open and
    close descriptors as documented, a native leaves open only what was open and
    what its result hands to the program: the error paths of connecting,
    listening, accepting, subscribing to signals and spawning processes and
    terminals close everything they opened.  Only [sysClose] and [sysSignalClose]
    close anything that was open before, and only the descriptor they are given. *)
Theorem natives_leak_no_descriptor (name : str) (args : list Value) h : FdLaws handle fds ->
  match native_free_call handle mal sema depth fuel lambdas libm name args h with
  | Go (Some (out, err, h')) =>
      fds_of fds h' ⊆ fds_of fds h ∪ handed h' out /\
  (if closes name then fds_of fds h' = fds_of fds h ∖ {[closed_fd args]} else fds_of fds h ⊆ fds_of fds h')
  | _ => True
  end.
Proof.
  intros HF. pose proof (free_call_fds handle fds mal sema depth fuel lambdas libm name args h) as Ht.
  unfold closes. destruct (eqs name (lit "sysClose")) eqn:E1; [|destruct (eqs name (lit "sysSignalClose")) eqn:E2]; cbn [orb].
  - apply eqs_eq in E1 as ->. pose proof (sysClose_fds args h HF) as Hg.
    destruct (native_free_call _ _ _ _ _ _ _ _ _ _) as [[[[out err] h']|]|]; try done. cbn in Hg. rewrite Hg. split; [set_solver|done].
  - apply eqs_eq in E2 as ->. pose proof (sysSignalClose_fds args h HF) as Hg.
    destruct (native_free_call _ _ _ _ _ _ _ _ _ _) as [[[[out err] h']|]|]; try done. cbn in Hg. rewrite Hg. split; [set_solver|done].
  - specialize (Ht eq_refl eq_refl). destruct (native_free_call _ _ _ _ _ _ _ _ _ _) as [[[[out err] h']|]|]; try done. destruct Ht. done.
Qed.
End Descriptors.

(** A connection that is refused: the socket was made and is closed again. *)
Lemma natives_leak_no_descriptor_witness :
  match native_free_call toy lowest small_sema 10 10 no_lambda toy_libm (lit "sysTcpConnect") [VString (lit "10.0.0.1"); VInt 80] (host_on ∅ 1) with
  | Go (Some (out, err, h')) => out = VInt (-1) /\ fds_of t_fds h' ⊆ {[0; 1; 2]} ∪ {[-1]} /\ base.elements (fds_of t_fds h') = [2; 1; 0]
  | _ => False
  end.
Proof.
  pose proof (natives_leak_no_descriptor toy t_fds lowest small_sema 10 10 no_lambda toy_libm (lit "sysTcpConnect") [VString (lit "10.0.0.1"); VInt 80]
    (host_on ∅ 1) toy_fds) as H.
  set (r := native_free_call _ _ _ _ _ _ _ _ _ _) in *.
  assert (match r with Go (Some (out, err, h')) => out = VInt (-1) /\ base.elements (fds_of t_fds h') = [2; 1; 0] | _ => False end) as Hr by (vm_compute; split; reflexivity).
  destruct r as [[[[out err] h']|]|]; try (exact Hr). destruct Hr as [-> Hr]. destruct H as [H _]. split; [reflexivity|]. split; [exact H|exact Hr].
Defined.

(** ** Signals *)

(** Signal subscriptions leave nothing behind.  Whatever sequence of
    [sysSignalOpen], [sysSignalNext] and [sysSignalClose] a program calls,
    failed and repeated ones included, the clean-up at the end of the run leaves
    an empty table, no descriptor open that was not open before the first call,
    and no signal blocked that was not blocked before it. *)
Theorem signals_cleaned_up {W : Type} (handle : forall A : Set, NativesSys.Sys A -> W -> A * W) (fds blocked : W -> gset Z) (h h' : Host (Ext W)) :
  FdLaws handle fds -> MaskLaws handle blocked -> g_sigfds (ext h) = [] -> signal_calls handle h h' ->
  let h2 := interpSignalCleanup handle h' in
  g_sigfds (ext h2) = [] /\ fds_of fds h2 ⊆ fds_of fds h /\ blocked_of blocked h2 ⊆ blocked_of blocked h.
Proof.
  intros HF HM Ht Hc. apply cleanup_accounted; [done|done|]. eapply calls_accounted; [done|done|done|]. split; set_solver.
Qed.

(** The array of the signals to subscribe to. *)
Definition signal_host (sigs : list Z) : Host (Ext Toy) := host_on {[ 1%nat := CArr (map VInt sigs) ]} 2.
Definition call_signal (name : str) (args : list Value) (h : Host (Ext Toy)) : Host (Ext Toy) :=
  match signal_native toy name args h with Go (Some (_, _, h')) => h' | _ => h end.
Lemma calls_call h0 h name args : signal_calls toy h0 h -> signal_calls toy h0 (call_signal name args h).
Proof. intros H. unfold call_signal. destruct (signal_native toy name args h) as [[[[out err] h']|]|] eqn:E; [by eapply calls_one|done..]. Qed.
Definition subscribed_twice : Host (Ext Toy) :=
  call_signal (lit "sysSignalOpen") [VArray (Some 1%nat)] (call_signal (lit "sysSignalOpen") [VArray (Some 1%nat)] (signal_host [SIGINT; SIGTERM])).

Lemma signals_cleaned_up_witness :
  base.elements (blocked_of t_blocked subscribed_twice) = [15; 2] /\ base.elements (fds_of t_fds subscribed_twice) = [3; 4; 2; 1; 0] /\
  blocked_of t_blocked (interpSignalCleanup toy subscribed_twice) ⊆ ∅ /\ fds_of t_fds (interpSignalCleanup toy subscribed_twice) ⊆ {[0; 1; 2]}.
Proof.
  split; [vm_compute; reflexivity|]. split; [vm_compute; reflexivity|].
  destruct (signals_cleaned_up toy t_fds t_blocked (signal_host [SIGINT; SIGTERM]) subscribed_twice) as (_ & H1 & H2).
  - apply toy_fds.
  - apply toy_masks.
  - reflexivity.
  - apply calls_call, calls_call, calls_none.
  - split; [exact H2|exact H1].
Defined.

(** Two subscriptions to the same signals: closing one unblocks the signals while
    the other is still open, so their default action is back. *)
Lemma close_unblocks_shared : let h := call_signal (lit "sysSignalClose") [VInt 3] subscribed_twice in
  map sg_fd (g_sigfds (ext h)) = [4] /\ map (fun r => base.elements (sg_mask r)) (g_sigfds (ext h)) = [[15; 2]] /\ base.elements (blocked_of t_blocked h) = [].
Proof. vm_compute. split_and!; reflexivity. Qed.

(** ** Blocks *)

(** [C14] The natives of [Block] are operations on a bounded sequence of bytes.
    On a block that is a window on a store, each native answers what the
    operation on the window's bytes answers, words being little-endian numbers
    and [mismatch] the index of the first difference; it changes the store inside
    the window only; an index, length or byte out of range is an exception and
    changes nothing; [slice] answers a window on the same store; and a null block
    is an exception.  Stated where the sums of the bounds tests fit in 64 bits. *)
Theorem block_natives_refine {X : Type} (m : IrModule) (mal : gset Z -> nat -> Z) (name : str) (self : Value) (args : list Value) (h : Host X) :
  host_ok m h (self :: args) -> sums_fit name args ->
  exists b, block_at h self = Go b /\
    match b with
    | None => block_native mal name self args h = fails (lit "null block") h
    | Some (bd, q, bytes) =>
        match block_spec (view bd bytes) (other_view name args h) args name with
        | Some o => refines mal h bd q bytes (block_native mal name self args h) o
        | None => block_native mal name self args h = unknown
        end
    end.
Proof.
  intros H Hs. destruct (block_at_go m h (self :: args) self H ltac:(set_solver)) as (b & E & _). exists b. split; [done|].
  destruct b as [[[bd q] bytes]|]; [by apply (block_native_spec m)|]. unfold block_native. by rewrite E.
Qed.

(** A window of six bytes on a store of ten. *)
Definition block_heap : Heap :=
  {[ 1%nat := CBlock (MkBlockData (Some 2%nat) 2 6); 2%nat := CBytes [0; 1; 2; 3; 4; 5; 6; 7; 8; 9] ]}.
Definition the_block : Value := VBlock (Some 1%nat).
Lemma block_heap_ok m args : Forall (fun v => forall hp, v_ok hp v) args -> host_ok m (host_on block_heap 3) (the_block :: args).
Proof.
  intros Ha. apply host_on_ok.
  - intros p c Hp. unfold block_heap in Hp. apply lookup_insert_Some in Hp as [[<- <-]|[_ Hp]]; [|apply lookup_singleton_Some in Hp as [<- <-]].
    + split; [apply Forall_nil_2|]. cbn. eexists. split; [vm_compute; reflexivity|]. cbn. lia.
    + split; [apply Forall_nil_2|]. repeat (apply Forall_cons; split; [unfold in_u; lia|]). apply Forall_nil_2.
  - intros p [c Hp]. unfold block_heap in Hp. apply lookup_insert_Some in Hp as [[<- _]|[_ Hp]]; [lia|]. apply lookup_singleton_Some in Hp as [<- _]. lia.
  - apply Forall_cons. split; [vm_compute; by eexists|]. eapply Forall_impl; [exact Ha|]. intros v Hv. apply Hv.
Qed.
(** The number -2 written at 1 in the window, and a write that does not fit. *)
Lemma block_natives_refine_witness :
  block_native lowest (lit "setInt32") the_block [VInt 1; VInt (-2)] (host_on block_heap 3) =
    ret VVoid (put_cell 2 (CBytes [0; 1; 2; 254; 255; 255; 255; 7; 8; 9]) (host_on block_heap 3)) /\
  block_native lowest (lit "setInt32") the_block [VInt 3; VInt (-2)] (host_on block_heap 3) =
    fails (lit "index 3 out of bounds (length 6)") (host_on block_heap 3).
Proof.
  split.
  - destruct (block_natives_refine (MkIrModule [] [] 0 (-1) 0) lowest (lit "setInt32") the_block [VInt 1; VInt (-2)] (host_on block_heap 3)) as (b & E & H).
    + apply block_heap_ok. repeat (apply Forall_cons; split; [done|]). apply Forall_nil_2.
    + vm_compute. reflexivity.
    + vm_compute in E. injection E as <-. apply H.
  - destruct (block_natives_refine (MkIrModule [] [] 0 (-1) 0) lowest (lit "setInt32") the_block [VInt 3; VInt (-2)] (host_on block_heap 3)) as (b & E & H).
    + apply block_heap_ok. repeat (apply Forall_cons; split; [done|]). apply Forall_nil_2.
    + vm_compute. reflexivity.
    + vm_compute in E. injection E as <-. apply H.
Defined.

(** Where the sum does not fit, the bounds test itself is undefined. *)
Lemma slice_bounds_overflow : block_native lowest (lit "slice") the_block [VInt 1; VInt (2 ^ 63 - 1)] (host_on block_heap 3) = Stop FOverflow /\
  block_native lowest (lit "int64At") the_block [VInt (2 ^ 63 - 4)] (host_on block_heap 3) = Stop FOverflow /\
  block_native lowest (lit "fill") the_block [VInt 1; VInt (2 ^ 63 - 1); VInt 0] (host_on block_heap 3) =
    fails (lit "index 1 out of bounds (length 6)") (host_on block_heap 3).
Proof. vm_compute. split_and!; reflexivity. Qed.


(** ** Maps *)

(** [C15] Maps are finite maps up to key equality, and are not mutated.  Let [m1]
    be what [with(k, v)] answers and [m2] what [without(k)] answers: asked about
    any key, [m1] has the value [v] and [m2] has none if the key equals [k], and
    both have what the receiver has otherwise; the receiver has what it had; if
    the keys of the receiver are pairwise different so are those of the new maps,
    and [with] adds an entry only for a new key.  Stated for keys nested no
    deeper than the recursion's bound. *)
Theorem map_natives_laws {X : Type} (m : IrModule) (mal : gset Z -> nat -> Z) (depth : nat) (h : Host X) (vals : list Value)
  (self k v : Value) (es : list (Value * Value)) :
  host_ok m h vals -> entries h self = Go es -> comparable depth h (k :: map fst es) ->
  exists m1 h1 es1 m2 h2 es2,
    map_native mal depth (lit "with") self [k; v] h = ret m1 h1 /\ map_native mal depth (lit "without") self [k] h = ret m2 h2 /\
    entries h1 m1 = Go es1 /\ entries h2 m2 = Go es2 /\
    (distinct (same_key depth h) es -> distinct (same_key depth h) es1 /\ distinct (same_key depth h) es2) /\
    length es1 = (length es + (match find_key (same_key depth h) k es with Some _ => 0 | None => 1 end))%nat /\
    forall k', comparable depth h (k' :: k :: map fst es) ->
      exists found, observed mal depth h self k' found /\ observed mal depth h1 self k' found /\ observed mal depth h2 self k' found /\
        observed mal depth h1 m1 k' (if same_key depth h k k' then Some v else found) /\
        observed mal depth h2 m2 k' (if same_key depth h k k' then None else found).
Proof.
  intros H He Hc. destruct (answers_entries h _ es _ self (with_new mal depth m h vals self k v es H He Hc) He) as (m1 & h1 & E1 & Hh1 & Hs1 & Hm1).
  destruct (answers_entries h _ es _ self (without_new mal depth m h vals self k es H He Hc) He) as (m2 & h2 & E2 & Hh2 & Hs2 & Hm2).
  eexists m1, h1, _, m2, h2, _. split; [exact E1|]. split; [exact E2|]. split; [exact Hm1|]. split; [exact Hm2|].
  split; [intros Hd; split; [by apply distinct_set|by apply distinct_drop]|]. split; [apply length_set|]. intros k' Hk'.
  assert (comparable depth h (k' :: map fst es)) as Hk by (eapply comparable_sub; [exact Hk'|set_solver]).
  exists (find_key (same_key depth h) k' es).
  pose proof (same_key_sym depth h) as Hsy. pose proof (same_key_trans depth h) as Htr. split_and!.
  - by apply observe.
  - rewrite <- (find_key_mono depth h h1 k' es Hh1 Hk). apply observe; [done|]. by eapply comparable_mono.
  - rewrite <- (find_key_mono depth h h2 k' es Hh2 Hk). apply observe; [done|]. by eapply comparable_mono.
  - assert (comparable depth h (k' :: map fst (set_key (same_key depth h) k v es))) as Hn.
    { eapply comparable_sub; [exact Hk'|]. pose proof (keys_set depth k v es h). set_solver. }
    rewrite <- (find_set _ Hsy Htr), <- (find_key_mono depth h h1 _ _ Hh1 Hn). apply observe; [done|]. by eapply comparable_mono.
  - assert (comparable depth h (k' :: map fst (drop_key (same_key depth h) k es))) as Hn.
    { eapply comparable_sub; [exact Hk'|]. pose proof (keys_drop depth k es h). set_solver. }
    rewrite <- (find_drop _ Hsy Htr), <- (find_key_mono depth h h2 _ _ Hh2 Hn). apply observe; [done|]. by eapply comparable_mono.
Qed.

(** The keys -0.0 and 0.0 are the same key. *)
Definition map_heap : Heap := {[ 1%nat := CMap [(VFloat 0, VInt 1); (VString (lit "a"), VInt 2)] ]}.
Lemma small_comparable d (h : Host (Ext Toy)) ks :
  forallb (fun a => forallb (fun b => match keyEquals d (heap h) a b with Some _ => true | None => false end) ks) ks = true -> comparable d h ks.
Proof.
  intros H a b Ha%list_elem_of_In Hb%list_elem_of_In. rewrite forallb_forall in H. specialize (H a Ha). rewrite forallb_forall in H. specialize (H b Hb).
  destruct (keyEquals d (heap h) a b); [by eexists|done].
Qed.
Lemma map_natives_laws_witness :
  exists m1 h1, map_native lowest 5 (lit "with") (VMap (Some 1%nat)) [VFloat (2 ^ 63); VInt 9] (host_on map_heap 2) = ret m1 h1 /\
    map_native lowest 5 (lit "at") m1 [VFloat 0] h1 = ret (VInt 9) h1 /\ map_native lowest 5 (lit "at") (VMap (Some 1%nat)) [VFloat 0] h1 = ret (VInt 1) h1.
Proof.
  destruct (map_natives_laws (MkIrModule [] [] 0 (-1) 0) lowest 5 (host_on map_heap 2) [] (VMap (Some 1%nat)) (VFloat (2 ^ 63)) (VInt 9)
    [(VFloat 0, VInt 1); (VString (lit "a"), VInt 2)]) as (m1 & h1 & es1 & m2 & h2 & es2 & E1 & _ & _ & _ & _ & _ & Hk).
  - apply host_on_ok.
    + intros p c Hp. unfold map_heap in Hp. apply lookup_singleton_Some in Hp as [<- <-]. split; [|done]. repeat constructor.
    + intros p [c Hp]. unfold map_heap in Hp. apply lookup_singleton_Some in Hp as [<- _]. lia.
    + apply Forall_nil_2.
  - vm_compute. reflexivity.
  - apply small_comparable. vm_compute. reflexivity.
  - destruct (Hk (VFloat 0)) as (found & H0 & H1 & _ & H3 & _); [apply small_comparable; vm_compute; reflexivity|].
    assert (same_key 5 (host_on map_heap 2) (VFloat (2 ^ 63)) (VFloat 0) = true) as Es by (vm_compute; reflexivity).
    rewrite Es in H3. exists m1, h1. split; [exact E1|]. split; [apply H3|].
    assert (found = Some (VInt 1)) as ->; [|apply H1]. destruct H0 as [_ H0]. destruct found as [x|].
    + vm_compute in H0. injection H0 as <-. reflexivity.
    + vm_compute in H0. destruct H0 as [H0 _]. discriminate.
Defined.

(** ** Texts *)

(** [C40] Texts read back.  The text of any 64-bit integer is read by [toInt] as
    that integer; [toInt] answers exactly for the decimal numerals whose value
    fits in 64 bits, with that value, and none for every other text; the
    characters of a text made of encoded scalars are those scalars; and whatever
    the text, every character is a Unicode scalar. *)
Theorem text_reads_back {X : Type} (mal : gset Z -> nat -> Z) (nan : Z) (h : Host X) :
  (forall z, in_s 64 z -> exists s, int_native nan (lit "toString") (VInt z) h = ret (VString s) h /\
     string_native mal nan (lit "toInt") (VString s) [] h = ret (VInt z) h) /\
  (forall s, exists v, string_native mal nan (lit "toInt") (VString s) [] h = ret v h /\
     (forall z, v = VInt z <-> numeral s /\ numeral_value s = z /\ in_s 64 z) /\ (v = VNone \/ exists z, v = VInt z)) /\
  (forall s, exists cps, string_native mal nan (lit "chars") (VString s) [] h = ret_new mal (fun p => VArray (Some p)) (CArr (map VChar cps)) h /\
     Forall is_scalar cps /\ (forall cps', Forall is_scalar cps' -> s = encode_all cps' -> cps = cps')).
Proof.
  assert (forall s, string_native mal nan (lit "toInt") (VString s) [] h = ret (match strictParseInt s with Some v => VInt v | None => VNone end) h) as Ht.
  { intros s. unfold string_native. eval_names. reflexivity. }
  split_and!.
  - intros z Hz. exists (to_string z). split; [unfold int_native; eval_names; reflexivity|]. rewrite Ht.
    destruct (to_string_numeral z) as [Hn Hv]. assert (strictParseInt (to_string z) = Some z) as -> by (by apply strictParseInt_spec). done.
  - intros s. eexists. split; [apply Ht|]. destruct (strictParseInt s) as [v|] eqn:E.
    + split; [|by right; exists v]. intros z. rewrite <- strictParseInt_spec, E. split; congruence.
    + split; [|by left]. intros z. rewrite <- strictParseInt_spec, E. split; congruence.
  - intros s. exists (decode_all (length s) s 0). split; [unfold string_native; eval_names; reflexivity|]. split; [apply decode_scalars|].
    intros cps' Hc ->. by apply chars_encoded.
Qed.
